(* ===== verification/_CoqProject ===== *)
-Q . S2P
Prelude.v
GoStrings.v
GoNet.v
HostUtil.v
IPPrefix.v
GoIPText.v
IPFilter.v
RateLimit.v
PolicyRule.v
PolicyMatch.v
AuthPolicy.v
PolicyStore.v
PolicyEdits.v
PolicyPersist.v
Lockout.v
ConnLimit.v
Breaker.v
UpstreamEntry.v
UpstreamPool.v
UpstreamPublish.v
HALease.v
HANode.v
HACluster.v
Blocklist.v
DeltaRing.v
ConfigSync.v
McpInput.v
McpCondition.v
McpCompile.v
McpEngine.v
McpSimulate.v
McpApproval.v
McpAdmin.v
McpPublication.v
GoBase64.v
Session.v
Enrollment.v
ClusterCA.v
EnrollRPC.v
SessionGossip.v
AuthCache.v
Accounts.v
AdminAuth.v
