(* ===== verification/Prelude.v ===== *)
(** * Culvert: a verification library for the secure web gateway

    Culvert is an explicit forward proxy.  A request passes, in this order: the IP filter and
    the rate limiter ([security.go]), the connection limiter ([internal/connlimit]), the host
    blocklist ([internal/blocklist]), the authentication gate ([resolveRequestAuth] in [proxy.go], deciding with the Stage-1 rules
    of [authpolicy.go]), the Stage-2 access rules ([policy.go]), and then a connection, direct
    or through a parent proxy of the upstream pool ([internal/upstream]).  Administrators edit
    rules, filters and parents through a console guarded by the login limiter
    ([internal/lockout]), accounts with a second factor ([store.go], [internal/totp]) and signed
    sessions ([internal/session]).  In a cluster, control planes elect a leader through a fencing lease
    ([ha.go], [ha_lease.go], [internal/halease]), enroll Data Planes with one-time tokens and certificates
    of their own authority ([enrollment.go]), and Data Planes poll the leader for the published
    configuration ([controlplane_*.go]).  Beside the proxy, a gateway for the Model Context
    Protocol decides tool calls with a policy engine of its own ([internal/mcp/policy]), whose
    policies are published by two administrators together ([internal/mcp/approval],
    [internal/mcp/adminapi]).  This library models that enforcement core, the leadership, the
    distribution of the blocklist, the enrollment of nodes, the administrators' accounts and sessions, the MCP policy engine and the publication of its policies.

    ** Files

    - [Prelude]: record update, [int64] arithmetic, instants and durations, shared list lemmas,
      the [culvert] hint database and the tactics.
    - [GoStrings], [GoNet], [GoIPText]: the parts of Go's [strings], [unicode/utf8], [net] and
      [net/netip] the code calls: byte strings, UTF-8 decoding, address and CIDR parsing,
      containment, printing.  Printing and parsing are inverse ([ParseAddr_String],
      [ParseCIDR_String]).
    - [HostUtil]: [internal/hostutil/hostutil.go], every function.
    - [IPPrefix]: [prefixFromIPNet] of [security.go], shared by filter and policy.
    - [IPFilter]: [prefixSet] and [IPFilter] of [security.go].
    - [RateLimit]: [clientBucket], [RateLimiter] and [clusterCountStore] of [security.go].
    - [PolicyRule]: the rule record of [policy.go] and [authpolicy.go], publication copies, the
      precomputation of [sortLocked], and the interface classes of the services rules consult.
    - [PolicyMatch]: schedules, sources, destinations ([policy_hostcat.go],
      [categorygroup.go]), file profiles, and the scan [evalAccessRules].
    - [AuthPolicy]: rule validation and the persistence gate, the two Stage-1 resolvers, the
      kill switch, and the gate itself.
    - [PolicyStore], [PolicyEdits], [PolicyPersist]: the rulebase with its mutators, version
      fence, hit accounting, bulk paths and persistence; the invariant, the single
      operations, and the bulk and disk paths.
    - [Lockout]: [internal/lockout/lockout.go] and its calls in [apiAuthLogin].
    - [ConnLimit]: [internal/connlimit/connlimit.go], sequential and interleaved.
    - [Breaker], [UpstreamEntry], [UpstreamPool], [UpstreamPublish]: [internal/upstream]: the
      circuit breaker; authorities and sealed credentials ([entry.go], [credkey.go]); the pool
      with selection, probes and publication ([upstream.go], [probe.go]); its invariant,
      publication and credential theorems.
    - [HALease]: the lease interface and its in-memory backend ([internal/halease]), and the
      Data Plane's epoch ratchet ([ha_fencing.go]) with its compare-and-swap interleaved.
    - [HANode]: one control-plane node: roles, promotion, keepalive, self-fence, resume and
      recovery ([ha.go], [ha_lease.go], [ha_failover.go], [ha_lease_recovery.go]).
    - [HACluster]: the nodes around one lease backend, with lease calls in flight.
    - [Blocklist]: [internal/blocklist], every operation with its files.
    - [DeltaRing]: the published configuration, its version floor and delta ring, and the two
      config RPCs ([controlplane_snapshot.go], [controlplane_delta.go],
      [controlplane_server.go]).
    - [ConfigSync]: the Data Plane's poll and apply ([controlplane_client.go]).
    - [McpInput], [McpCondition], [McpCompile], [McpEngine], [McpSimulate]: [internal/mcp/policy]:
      the vocabulary, the bounds and the decision tuple; globs, fields and conditions;
      obligations, rules, compilation and the canonical hash; evaluation, traces and
      publication; the simulator.
    - [McpApproval]: the four-eyes request store ([internal/mcp/approval]) and the approval
      handler of [ui_mcp.go].
    - [McpAdmin]: the bounds and the policy service of [internal/mcp/adminapi].
    - [McpPublication]: the publication workflow ([publication.go]) over the approval store and
      the policy stores ([mcp_policy.go]), its calls interleaved.
    - [GoBase64]: Go's base64, base32 and hexadecimal encodings.
    - [Session]: tokens, their revocation and the cookies ([internal/session], [session.go], [ui_session.go]).
    - [Enrollment], [ClusterCA], [EnrollRPC]: the store of tokens, nodes and revoked certificates with its file, and the check of
      a peer; the cluster's certificate authority ([cluster_ca_validity.go], [ha.go]); the calls and handlers over both and [HANode]
      ([enrollment.go], [controlplane_server.go], [ui_cluster.go]).
    - [SessionGossip]: the exchange of revocations between Data Planes through the control plane
      ([controlplane.go], [controlplane_server.go], [controlplane_client.go]).
    - [AuthCache], [Accounts]: the credential cache; the account part of [store.go], [internal/totp], [auth_startup.go].
    - [AdminAuth]: the gate of the management API, login, accounts and first-time setup
      ([ui_middleware.go], [ui_rbac.go], [ui_auth.go]) over [Lockout], [Accounts] and [Session].

    ** How the code is modelled

    A Go function is a Rocq function; a method that mutates its receiver returns the new
    receiver.  One critical section of a mutex is one operation, and theorems quantify over
    every sequence of operations from the initial state; where sections of one call can
    interleave with other calls ([Acquire] and [Release] of the connection limiter, hit
    accounting against rule edits, requests whose clock readings arrive out of order, lease
    calls of the cluster's nodes, a publish's commit and its later recording, the store reads of
    one delta request, the calls of the publication workflow, the verification of a password against a changing
    store, the sections of the revocation list and of the cluster store), the sections are separate steps.
    In [McpPublication] a call is a tree of atomic actions, locks block, and the theorems hold for
    every interleaving of any number of calls, by a rely-guarantee argument.  Time is an argument of each call.  Pointers shared between
    revisions (hit counters, connection counters, breakers) are cells of an explicit heap.
    Errors are values of sum types or [option]; a Go panic is a result of its own, proved not
    to occur ([None] in [RateLimit], [SelPanic] in [UpstreamPool]).  Integers are [Z] with
    [wrap64] where the source can overflow.

    Code outside the repository enters through classes: [Unicode] (case tables), [Idna],
    [TimeData] (time zones, RFC 3339), [SortSlice] ([sort.Slice], unstable), [RuleIDs] (ULIDs),
    [PolicyEnv] (category, geo and profile lookups), [AuthBackend] (credential validators),
    [Sha256], [Sha256Sum], [Crypto] (SHA-256, AES-GCM, base64), [UrlParse], the hash of the
    connection limiter's shards, [RangeOrder] (the order of a map's [range]) and, for lease
    backends, [ProviderLaws], which the in-memory backend satisfies.  The slices of a
    configuration snapshot other than the blocklist are a value of the class [Bodies].  HMAC, [bcrypt], the JSON of
    sessions, accounts and the cluster store and external identity providers are the classes [Hmac], [Sha1], [Bcrypt], [SessionJSON], [UsersJSON],
    [ClusterJSON] and [Providers]; X.509 and keys at rest are [X509] and [KeyVault].  Nodes
    of the cluster have clocks with arbitrary offsets; the one assumption on delays is the
    bound [D] on the time from the send of a lease call to the handling of its answer, and each
    theorem says which bound it needs.  Their laws are the documented behaviour of that code; the witnesses
    instantiate them with concrete functions.

    A call of the MCP policy engine that would not return (a nil accessor, an endless loop) is
    [None], and proved not to happen.  Its enumerations are numbers, so that values outside the
    declared constants exist.  The strict JSON decoders are the class [DocDecoder].

    Fuel: [glob_loop] has the pattern and subject lengths' product, which every iteration
    lowers ([glob_correct]); [freshRuleID] draws at most [S (size seen)] identifiers, one more than can collide;
    [next_loop] runs once per parent; [parse_groups] reads at most nine groups, one more than
    an address has; [totp_loop] tries three steps and [base32_groups] uses up a symbol a round; [text16_go] writes the 32 digits of a 128-bit serial; a resuming leader makes at most 46 rounds ([resume_terminates]).  Every other recursion is structural, and theorems about these state
    results, not partial correctness.

    ** What is proved

    - Deciding: the Stage-2 scan with its memos is "the first rule that matches"
      ([evalAccessRules_correct]); a decision counts its hit and nothing else
      ([evaluate_first_match]); the runtime Stage-1 resolver is the pure one
      ([resolve_snapshot_equivalent]); an identity is proved by a session or a credential
      ([gate_identity_proved]); an exemption is scoped ([exempt_scoped]); the kill switch
      admits nobody new ([kill_switch_restrictive]); file profiles fail closed
      ([file_profile_fail_closed]).
    - The rulebase: sorted, unique, coherent after any edits ([store_reachable_ok]); edits on
      every branch ([add_rule], [update_by_id], [permute_priorities],
      [cascade_group_rename]); fences, accounting and persistence ([version_fence],
      [hits_never_lost], [bulk_gate], [save_load_roundtrip], [persistable_auth_scoped]).
    - Limits: the address filter decides by its entries and survives export and import
      ([ip_filter_decides], [ip_filter_export], [ip_filter_edits]); the rate limiter is an exact
      sliding window, safe under inverted clocks and in a cluster ([rate_window_exact],
      [rate_inverted_clock], [cluster_rate], [rate_exempt]); connection counts
      ([connlimit_refines], [connlimit_never_wedges]); password guessing is bounded and cannot
      lock out a trusted address ([bruteforce_bound], [trusted_never_locked_out]).
    - Parents: fair selection ([round_robin_fair], [next_round_robin]), the breaker against its
      specification ([breaker_refines]), publication ([set_document]) and credentials
      ([credential_bound], [seal_unseal]).
    - Leadership: with answers handled within the margin at most one node may write
      ([single_writer]); whatever the delays, what a displaced leader stamps is refused
      ([stale_leader_fenced], [dp_ratchet]); a round that confirms nothing gives no authority
      ([unconfirmed_round_fails_closed]); automatic promotion is gated
      ([auto_promotion_gated]); resuming ends ([resume_terminates]).
    - The blocklist: lookups decide by domains ([is_blocked_correct]); the store keeps its
      types ([store_typed]); no feed or cluster operation lifts an admin's block
      ([manual_survives]); what is saved is loaded ([blocklist_save_load]).
    - Its distribution: the delta ring keeps its bounds and is a chain of published differences
      in every order of recordings ([ring_bounded]); a published version is never reused
      ([version_never_reused]); an incremental sync gives what a full one would
      ([delta_sync_converges]); a reply that was not verified changes nothing lasting
      ([rejected_delta_harmless]), and a lost or added token is found ([lost_token_detected]).
    - MCP policy: a permit implies every guard of the engine and the first applicable rule, and a
      destructive permit is bounded and audited ([permit_sound]); evaluation always returns and
      errors deny ([evaluate_decides]); no rule weakens an override ([override_dominates]);
      whatever compiles keeps the obligation matrix ([compiled_snapshot_ok]); conditions and
      globs mean what they say ([conditions_meaning], [glob_correct]); order does not matter
      ([order_immaterial]); publication is a chain ([publish_history]); the simulator's summary
      is exact ([blast_radius]), and the admin service reports it ([service_agrees]).
    - MCP publication: an approved request was approved by a second principal, against its
      revisions, after a durable record, and stays as decided ([approval_lifecycle],
      [approve_decides]); the pending caps hold exactly ([approval_counters]); in every
      interleaving each active policy went through four eyes ([published_four_eyes]) and each
      durable publication event became active ([publication_committed]); an approved candidate
      on the active base is published when asked ([publish_completes]).
    - Accounts and sessions: a login that issues a session has checked the lockout, the password and the second
      factor ([login_sound]), without looking at credentials when locked ([locked_login_blind]); who passes the gate, and as what
      ([admin_gate]); setup is durable and done once ([setup_durable], [setup_once]); the last administrator is not lost
      except by demotion ([admin_kept]) and the roster survives restarts ([roster_survives]); a code is accepted once
      ([totp_once], [backup_code_once]); the credential cache changes no verdict in any interleaving ([verify_transparent]), is bounded and
      evicts fairly ([cache_bounded], [evict_fair], [set_get], [frame_injective]).  What a session token is accepted for
      ([session_accepts], [session_roundtrip]); logouts stick ([logout_sticks]), survive restarts ([restart_keeps_tokens]) and reach the other
      Data Planes ([gossip_reaches], [sync_fenced], [sync_verified]); deletions refuse the user's sessions ([user_revocation_covers], [deletion_refuses]).
    - Enrollment: who gets a certificate and what is recorded ([enroll_sound]), what a refusal costs ([refused_keeps_token]) and
      how often one may ask ([enroll_rate_bound]); a token is accepted once ([token_once]); a revoked certificate stays out
      ([revoked_stays_out]); renewal is for the holder ([renew_sound]); the store survives restarts ([restart_exact]).  The
      authority holds a matching pair or none ([ca_reachable_ok]) and issues within its own validity ([issued_within_ca]); a new one overlaps
      with the old ([import_overlaps]) and is there after a restart ([import_survives]); a start replaces nothing
      ([init_never_replaces]), and a torn import fails closed ([torn_import_fails_closed]).
    - Defects, as theorems about the code: [renew_escapes_revocation] (a revoked node keeps its renewed certificate), [drain_lost],
      [failed_save_spends_token], [second_import_drops_first], [failed_import_drops_secondary], [restart_drops_secondary], [proxy_session_is_admin] (a proxy user's session is an administrator's),
      [basic_skips_second_factor], [deleted_admin_verifies], [demotion_reopens_setup], [corrupt_roster_opens],
      [password_change_drops_totp], [empty_password_admin], [demoted_session_keeps_role], [setup_rollback_diverges], [totp_race],
      [expiry_gap], [user_revocation_lapses], [recreated_user_refused], [forged_logout_kept], [cp_logout_stays], [dp_logout_not_at_cp],
      [queue_grows], [refreshed_goes_first]; [release_race_uncounted] (a connection can go
      uncounted), [republish_refused] (a stored pool that cannot be published again),
      [late_confirmation_two_writers] (two writers after a slow answer), [failback_target_lost],
      [idle_drift_not_healed] (a drift that is found and kept), [delta_skips_stages] (stages an
      incremental apply leaves out), [overlap_breaks_restart], [address_block_lost],
      [dotted_block_ignored], [dotted_exception_stays], [glob_star_subject] (a star in the subject
      escapes a glob), [hash_collision] (one hash, two policies), [trace_loses_default],
      [second_address_approves] (one administrator is two principals from two addresses),
      [bound_request_never_approved], [decided_requests_stay] and [approved_candidates_stay] (what
      the documented bounds leave out).

    ** Not modelled

    Byte streams, TLS interception, HTTP/2 and SOCKS framing (network I/O); the bodies of the
    admin handlers other than those of accounts, approvals and cluster nodes, drafts and governed mutations; category, threat and SaaS feeds and the
    scanners (reached through [PolicyEnv]); identity-provider protocols (reached through
    [AuthBackend] and [Providers]); the cost governor of password checks ([internal/authcost], an answer); the etcd lease backend, the enrolling side of a node, the inspection authority, and the
    non-blocklist slices of a snapshot; configuration versions, backup and restore; the MCP gateway around its policy engine
    (runtime, catalog, execution, tool trust, rollout), and the reading of its startup policy file; PAC, policy learning, content disarm, releases and the
    maintenance agent.  Log lines and metrics are left out except where a decision or an
    invariant depends on them.  The Go memory model below the level of locked and atomic
    sections is not modelled.

    ** Plan

    Next: the governed rule drafts ([policy_draft.go], [policy_mutation.go]), and the tool-trust and rollout state machines of the MCP
    gateway ([internal/mcp/catalog], [internal/mcp/rollout]). *)

From Stdlib Require Export ZArith Lia Ascii String.
From stdpp Require Export base option list gmap strings sorting.

#[global] Open Scope Z_scope.
#[global] Set Default Proof Using "Type".

(** ** Functional record update

    Go structs are copied and then assigned field by field ([nr := *rule;
    nr.Priority = p]).  [r <| f := v |>] is that copy-and-assign.  A record
    declares its eta-expansion through [Eta]; the setter of a field is obtained
    by abstracting the projection in it. *)

Class Eta (R : Type) := eta : R → R.
Class Setter {R T : Type} (proj : R → T) := setf : (T → T) → R → R.

Ltac make_setter proj :=
  match type of proj with
  | ?R → _ =>
      let i := constr:(_ : Eta R) in
      let e := eval hnf in i in
      match eval pattern proj in e with
      | ?g _ => exact (λ f, g (λ r, f (proj r)))
      end
  end.

#[export] Hint Extern 1 (Setter ?p) => make_setter p : typeclass_instances.

Declare Scope record_scope.
Delimit Scope record_scope with record.
#[global] Open Scope record_scope.
Notation "r <| f := v |>" := (setf (proj := f) (λ _, v) r)
  (at level 1, left associativity, f at next level, format "r  <| f  :=  v |>") : record_scope.

(** ** Hint databases and tactics of the development *)

Create HintDb culvert discriminated.

(** [bsolve] turns boolean tests into propositions and calls [lia]. *)
Ltac bprop :=
  repeat match goal with
  | H : _ && _ = true |- _ => apply andb_true_iff in H as [? ?]
  | H : _ || _ = false |- _ => apply orb_false_iff in H as [? ?]
  | H : negb _ = true |- _ => apply negb_true_iff in H
  | H : negb _ = false |- _ => apply negb_false_iff in H
  | H : (_ =? _)%string = true |- _ => apply String.eqb_eq in H
  | H : (_ =? _)%string = false |- _ => apply String.eqb_neq in H
  | H : (_ =? _) = true |- _ => apply Z.eqb_eq in H
  | H : (_ =? _) = false |- _ => apply Z.eqb_neq in H
  | H : (_ <? _) = true |- _ => apply Z.ltb_lt in H
  | H : (_ <? _) = false |- _ => apply Z.ltb_ge in H
  | H : (_ <=? _) = true |- _ => apply Z.leb_le in H
  | H : (_ <=? _) = false |- _ => apply Z.leb_gt in H
  | H : (_ >? _) = true |- _ => apply Z.gtb_lt in H
  | H : (_ >? _) = false |- _ => rewrite Z.gtb_ltb in H; apply Z.ltb_ge in H
  end.

(** Case analysis on the scrutinee of the first [if] or [match] in sight. *)
Ltac case_if :=
  match goal with
  | |- context [if ?b then _ else _] => destruct b eqn:?
  | H : context [if ?b then _ else _] |- _ => destruct b eqn:?
  end.

(** ** Machine integers *)

Definition int64_min : Z := - 2 ^ 63.
Definition int64_max : Z := 2 ^ 63 - 1.

(** Two's complement wrap-around of an [int64] (Go's [int] on the supported
    64-bit targets, and [atomic.Int64]). *)
Definition wrap64 (z : Z) : Z := (z + 2 ^ 63) mod 2 ^ 64 - 2 ^ 63.

Lemma wrap64_small z : int64_min ≤ z ≤ int64_max → wrap64 z = z.
Proof.
  unfold wrap64, int64_min, int64_max. intros ?.
  rewrite Z.mod_small; lia.
Qed.

Lemma wrap64_add a b : wrap64 (wrap64 a + b) = wrap64 (a + b).
Proof.
  unfold wrap64. f_equal. replace ((a + 2 ^ 63) mod 2 ^ 64 - 2 ^ 63 + b + 2 ^ 63) with ((a + 2 ^ 63) mod 2 ^ 64 + b) by lia.
  rewrite Zplus_mod_idemp_l. f_equal. lia.
Qed.
(** A counter comes back to its value only after 2^64 steps. *)
Lemma wrap64_fixed v k :
  int64_min ≤ v ≤ int64_max → 0 ≤ k < 2 ^ 64 → wrap64 (v + k) = v → k = 0.
Proof.
  unfold wrap64, int64_min, int64_max. intros Hv Hk E.
  assert ((v + k + 2 ^ 63) mod 2 ^ 64 = v + 2 ^ 63) as Hm by lia.
  pose proof (Z.div_mod (v + k + 2 ^ 63) (2 ^ 64) ltac:(lia)) as Hd. rewrite Hm in Hd.
  assert (k = 2 ^ 64 * ((v + k + 2 ^ 63) / 2 ^ 64)) as Hk' by lia. nia.
Qed.

(** ** Time

    A [time.Time] is an instant in nanoseconds; Go's zero [time.Time] is
    [None].  [time.Duration] is an [int64] of nanoseconds and [Time.Sub]
    saturates at its ends. *)

Notation Instant := Z (only parsing).
Notation Duration := Z (only parsing).
Definition Nanosecond : Duration := 1.
Definition Second : Duration := 10 ^ 9.
Definition Minute : Duration := 60 * Second.
Definition Hour : Duration := 60 * Minute.

Definition time_sub (a b : Instant) : Duration :=
  Z.max int64_min (Z.min int64_max (a - b)).

(** Saturation never flips a comparison against a representable duration. *)
Lemma time_sub_gt a b d :
  int64_min ≤ d < int64_max → (time_sub a b >? d) = (a - b >? d).
Proof.
  intros ?. unfold time_sub, int64_min, int64_max in *.
  destruct (a - b >? d) eqn:E; rewrite Z.gtb_ltb in *; lia.
Qed.

Lemma time_sub_le a b d :
  int64_min ≤ d < int64_max → (time_sub a b <=? d) = (a - b <=? d).
Proof.
  intros ?. unfold time_sub, int64_min, int64_max in *.
  destruct (a - b <=? d) eqn:E; lia.
Qed.

Lemma time_sub_lt a b d :
  int64_min < d ≤ int64_max → (time_sub a b <? d) = (a - b <? d).
Proof.
  intros ?. unfold time_sub, int64_min, int64_max in *.
  destruct (a - b <? d) eqn:E; lia.
Qed.

(** The time-zone database: an IANA name gives the UTC offset, in seconds, at each Unix
    second; [None] is [time.LoadLocation]'s error.  [time.Parse(time.RFC3339, s)] is the
    other reader of time strings, [Format] the writer. *)
Definition Location : Type := Z → Z.
Definition UTC : Location := λ _, 0.
Class TimeData := {
  LoadLocation : string → option Location;
  ParseRFC3339 : string → option Instant;
  FormatRFC3339 : Z → string;     (* time.Unix(u, 0).UTC().Format(time.RFC3339) *)
}.

(** ** Lists *)

(** The index-based update loops of the stores ([for i, x := range xs { if p(x)
    { ...; return } }]) act on the first element that satisfies [p]. *)
Fixpoint update_first {A} (p : A → bool) (f : A → A) (l : list A) : option (list A) :=
  match l with
  | [] => None
  | x :: l => if p x then Some (f x :: l) else (x ::.) <$> update_first p f l
  end.

Fixpoint remove_first {A} (p : A → bool) (l : list A) : option (list A) :=
  match l with
  | [] => None
  | x :: l => if p x then Some l else (x ::.) <$> remove_first p l
  end.

Lemma update_first_spec {A} (p : A → bool) f l l' :
  update_first p f l = Some l' ↔
  ∃ pre x post, l = pre ++ x :: post ∧ l' = pre ++ f x :: post ∧
    p x = true ∧ Forall (λ y, p y = false) pre.
Proof.
  revert l'. induction l as [|y l IH]; intros l'; simpl.
  { split; [done|]. intros (pre&x&post&H&_). by destruct pre. }
  destruct (p y) eqn:Ey.
  - split.
    + intros [= <-]. exists [], y, l. auto.
    + intros (pre&x&post&H&->&Hx&Hpre). destruct pre as [|z pre]; simplify_eq/=; [done|].
      inversion Hpre. congruence.
  - rewrite fmap_Some. setoid_rewrite IH. split.
    + intros (l''&(pre&x&post&->&->&Hx&Hpre)&->).
      exists (y :: pre), x, post. repeat split; auto.
    + intros (pre&x&post&H&->&Hx&Hpre). destruct pre as [|z pre]; simplify_eq/=; [congruence|].
      inversion Hpre; subst. eexists. split; [|done]. by exists pre, x, post.
Qed.

Lemma remove_first_spec {A} (p : A → bool) l l' :
  remove_first p l = Some l' ↔
  ∃ pre x post, l = pre ++ x :: post ∧ l' = pre ++ post ∧
    p x = true ∧ Forall (λ y, p y = false) pre.
Proof.
  revert l'. induction l as [|y l IH]; intros l'; simpl.
  { split; [done|]. intros (pre&x&post&H&_). by destruct pre. }
  destruct (p y) eqn:Ey.
  - split.
    + intros [= <-]. exists [], y, l. auto.
    + intros (pre&x&post&H&->&Hx&Hpre). destruct pre as [|z pre]; simplify_eq/=; [done|].
      inversion Hpre. congruence.
  - rewrite fmap_Some. setoid_rewrite IH. split.
    + intros (l''&(pre&x&post&->&->&Hx&Hpre)&->).
      exists (y :: pre), x, post. repeat split; auto.
    + intros (pre&x&post&H&->&Hx&Hpre). destruct pre as [|z pre]; simplify_eq/=; [congruence|].
      inversion Hpre; subst. eexists. split; [|done]. by exists pre, x, post.
Qed.

Lemma update_first_None {A} (p : A → bool) f l :
  update_first p f l = None ↔ Forall (λ y, p y = false) l.
Proof.
  induction l as [|x l IH]; simpl; [by split|].
  destruct (p x) eqn:E; [split; [done|by inversion 1; congruence]|].
  rewrite fmap_None, IH, Forall_cons. tauto.
Qed.

Lemma remove_first_None {A} (p : A → bool) l :
  remove_first p l = None ↔ Forall (λ y, p y = false) l.
Proof.
  induction l as [|x l IH]; simpl; [by split|].
  destruct (p x) eqn:E; [split; [done|by inversion 1; congruence]|].
  rewrite fmap_None, IH, Forall_cons. tauto.
Qed.

Lemma forallb_spec {A} (p : A → bool) l :
  forallb p l = true ↔ Forall (λ x, p x = true) l.
Proof. rewrite forallb_forall, List.Forall_forall. done. Qed.

Lemma existsb_spec {A} (p : A → bool) l :
  existsb p l = true ↔ Exists (λ x, p x = true) l.
Proof. rewrite existsb_exists, List.Exists_exists. done. Qed.

Lemma existsb_ext_in {A} (p q : A → bool) l :
  (∀ x, In x l → p x = q x) → existsb p l = existsb q l.
Proof.
  induction l as [|x l IH]; simpl; intros H; [done|].
  rewrite H by auto. f_equal. auto.
Qed.

(** ** What Go leaves unspecified

    [for k, v := range m] visits a map in an unspecified order, and [sort.Slice]
    is not stable.  Both enter as classes whose only law is what the language and
    the [sort] package promise, so a theorem holds for every order the runtime may
    choose; the instances are for evaluation. *)

Class RangeOrder := {
  range : ∀ {V : Type}, gmap string V → list (string * V);
  range_perm : ∀ {V : Type} (m : gmap string V), range m ≡ₚ map_to_list m;
}.

Definition default_range : RangeOrder :=
  {| range _ m := map_to_list m; range_perm _ m := Permutation_refl _ |}.

Lemma elem_of_range `{RangeOrder} {V} (m : gmap string V) k v :
  (k, v) ∈ range m ↔ m !! k = Some v.
Proof. by rewrite range_perm, elem_of_map_to_list. Qed.

(** How [fileutil.AtomicWrite] ends: it may fail before or after it replaced the file. *)
Inductive WriteResult := Written | NotWritten | ReplacedNotSynced.

(** [less] is a strict weak order: what [sort.Slice] requires of its argument. *)
Record StrictWeak {A} (less : A → A → bool) : Prop := {
  less_asym x y : less x y = true → less y x = false;
  less_ntrans x y z : less y x = false → less z y = false → less z x = false;
}.

Class SortSlice := {
  sort_slice : ∀ {A : Type}, (A → A → bool) → list A → list A;
  sort_slice_perm : ∀ {A} (less : A → A → bool) l, sort_slice less l ≡ₚ l;
  sort_slice_sorted : ∀ {A} (less : A → A → bool) l,
    StrictWeak less → StronglySorted (λ x y, less y x = false) (sort_slice less l);
}.

Definition not_less {A} (less : A → A → bool) (x y : A) : Prop := less y x = false.
#[global] Instance not_less_dec {A} (less : A → A → bool) : RelDecision (not_less less).
Proof. intros x y. unfold not_less. apply _. Defined.

Definition stable_sort : SortSlice.
Proof.
  refine {| sort_slice A less l := merge_sort (not_less less) l |}.
  - intros A less l. apply merge_sort_Permutation.
  - intros A less l [Has Htr].
    assert (Transitive (not_less less)) by (intros x y z; unfold not_less; eauto).
    assert (Total (not_less less)).
    { intros x y. unfold not_less. destruct (less y x) eqn:E; [right|by left]. by apply Has. }
    apply (StronglySorted_merge_sort (not_less less)).
Defined.

(** [sort.SliceStable]: an element goes before the first later one it is not greater than. *)
Fixpoint insert_stable {A} (less : A → A → bool) (x : A) (l : list A) : list A :=
  match l with
  | [] => [x]
  | y :: l' => if less y x then y :: insert_stable less x l' else x :: l
  end.
Definition sort_stable {A} (less : A → A → bool) (l : list A) : list A :=
  fold_right (insert_stable less) [] l.

Lemma sort_stable_perm {A} (less : A → A → bool) l : sort_stable less l ≡ₚ l.
Proof.
  assert (∀ x l, insert_stable less x l ≡ₚ x :: l) as Hins.
  { intros x l'. induction l' as [|y l' IH]; simpl; [done|]. destruct (less y x); [|done].
    rewrite IH. apply Permutation_swap. }
  induction l as [|x l IH]; simpl; [done|]. by rewrite Hins, IH.
Qed.

(** A sorted slice is left as it is. *)
Lemma sort_stable_sorted {A} (less : A → A → bool) l :
  StronglySorted (λ x y, less y x = false) l → sort_stable less l = l.
Proof.
  induction 1 as [|x l Hl IH Hx]; simpl; [done|]. rewrite IH. destruct l as [|y l]; [done|]. simpl.
  apply Forall_cons in Hx as [-> _]. done.
Qed.
