(* ===== verification/GoStrings.v ===== *)
(** * Go strings

    The part of Go's [strings], [unicode] and [unicode/utf8] packages the
    modelled code calls.  A Go string is a byte sequence: [String.string], whose
    characters are 8-bit.  The Unicode case tables are data of the Go
    distribution and enter as the class [Unicode]; its laws are their documented
    behaviour on ASCII and that lower-casing a lower-cased rune changes nothing. *)

From S2P Require Import Prelude.

#[global] Open Scope string_scope.
#[global] Arguments String.append !_ _ : simpl nomatch.
#[global] Open Scope Z_scope.

(** ** Slicing: [s[i:]], [s[:i]] and byte indexing. *)

Fixpoint sdrop (n : nat) (s : string) : string :=
  match n, s with
  | O, _ => s
  | S n, String _ s => sdrop n s
  | S _, EmptyString => EmptyString
  end.

Fixpoint stake (n : nat) (s : string) : string :=
  match n, s with
  | O, _ => EmptyString
  | S n, String c s => String c (stake n s)
  | S _, EmptyString => EmptyString
  end.

Definition byte_at (s : string) (i : nat) : option ascii := String.get i s.

Definition byte_val (c : ascii) : Z := Z.of_N (N_of_ascii c).
Definition byte_of (z : Z) : ascii := ascii_of_N (Z.to_N (z mod 256)).

Lemma byte_val_range c : 0 ≤ byte_val c < 256.
Proof. unfold byte_val. pose proof (N_ascii_bounded c). lia. Qed.

Lemma byte_val_inj c d : byte_val c = byte_val d → c = d.
Proof.
  unfold byte_val. intros H%N2Z.inj.
  rewrite <- (ascii_N_embedding c), <- (ascii_N_embedding d). by f_equal.
Qed.

Lemma stake_sdrop n s : stake n s ++ sdrop n s = s.
Proof. revert s. induction n; intros [|c s]; simpl; f_equal; auto. Qed.

Lemma sdrop_length n s : String.length (sdrop n s) = (String.length s - n)%nat.
Proof. revert s. induction n; intros [|c s]; simpl; auto. Qed.

Lemma length_sapp s t : String.length (s ++ t) = (String.length s + String.length t)%nat.
Proof. induction s; simpl; auto. Qed.

Lemma sdrop_app s t : sdrop (String.length s) (s ++ t) = t.
Proof. induction s; simpl; auto. Qed.

Lemma stake_app s t : stake (String.length s) (s ++ t) = s.
Proof. induction s as [|c s IH]; simpl; [by destruct t|]. by rewrite IH. Qed.

Lemma sapp_nil_r (s : string) : s ++ "" = s.
Proof. induction s as [|c s IH]; [done|]. cbn. by rewrite IH. Qed.
Lemma sapp_assoc (s t u : string) : (s ++ t) ++ u = s ++ (t ++ u).
Proof. induction s; simpl; f_equal; auto. Qed.

Lemma sapp_inj_r (s t u : string) : s ++ t = s ++ u → t = u.
Proof. induction s; simpl; [done|]. intros [= ?]. auto. Qed.

Lemma sapp_inj_len (s s' t t' : string) :
  s ++ t = s' ++ t' → String.length s = String.length s' → s = s' ∧ t = t'.
Proof.
  revert s'. induction s as [|c s IH]; intros [|c' s']; simpl; try done.
  intros [= -> H] [= ?]. destruct (IH s') as [-> ->]; auto.
Qed.

Lemma get_app_r s t i : String.get (String.length s + i)%nat (s ++ t) = String.get i t.
Proof. induction s; simpl; auto. Qed.

(** ** [strings.HasPrefix], [HasSuffix], [TrimSuffix], [CutPrefix],
    [Contains] of a single byte, [IndexByte]. *)

Definition HasPrefix (s p : string) : bool := String.prefix p s.

Definition HasSuffix (s suf : string) : bool :=
  (String.length suf <=? String.length s)%nat &&
  (sdrop (String.length s - String.length suf) s =? suf)%string.

Definition TrimSuffix (s suf : string) : string :=
  if HasSuffix s suf then stake (String.length s - String.length suf) s else s.

Definition CutPrefix (s p : string) : option string :=
  if HasPrefix s p then Some (sdrop (String.length p) s) else None.

Fixpoint IndexByte (s : string) (c : ascii) : option nat :=
  match s with
  | EmptyString => None
  | String d s => if Ascii.eqb d c then Some O else S <$> IndexByte s c
  end.

Definition ContainsByte (s : string) (c : ascii) : bool :=
  match IndexByte s c with Some _ => true | None => false end.

Lemma ContainsByte_cons c s d : ContainsByte (String c s) d = Ascii.eqb c d || ContainsByte s d.
Proof. unfold ContainsByte. cbn. destruct (Ascii.eqb c d); [done|]. by destruct (IndexByte s d). Qed.

(** [strings.CutByte]-style split at the first occurrence. *)
Definition Cut (s : string) (c : ascii) : option (string * string) :=
  i ← IndexByte s c; Some (stake i s, sdrop (S i) s).

(** [strings.Join]. *)
Fixpoint Join (l : list string) (sep : string) : string :=
  match l with
  | [] => ""
  | [x] => x
  | x :: l => x ++ sep ++ Join l sep
  end.

Definition ContainsAny (s chars : string) : bool :=
  existsb (λ c, ContainsByte chars c) (list_ascii_of_string s).
(** [strings.Split] at a byte. *)
Fixpoint Split (s : string) (c : ascii) : list string :=
  match s with
  | EmptyString => [""]
  | String d s' =>
      if Ascii.eqb d c then "" :: Split s' c
      else match Split s' c with x :: l => String d x :: l | [] => [String d ""] end
  end.

(** [strings.TrimPrefix], [strings.Index] and, for a set of ASCII bytes, [strings.IndexAny]. *)
Definition TrimPrefix (s p : string) : string := default s (CutPrefix s p).
Fixpoint Index (s sub : string) : option nat :=
  if HasPrefix s sub then Some O
  else match s with EmptyString => None | String _ s => S <$> Index s sub end.
Fixpoint IndexAny (s chars : string) : option nat :=
  match s with
  | EmptyString => None
  | String c s => if ContainsByte chars c then Some O else S <$> IndexAny s chars
  end.

Lemma HasPrefix_spec s p : HasPrefix s p = true ↔ ∃ t, s = p ++ t.
Proof.
  unfold HasPrefix. revert s. induction p as [|c p IH]; intros s; simpl.
  { split; [by exists s|by destruct s]. }
  destruct s as [|d s]; [split; [done|by intros [? ?]]|]. simpl.
  destruct (ascii_dec c d) as [->|Hne].
  - rewrite IH. split; intros [t ?]; exists t; simplify_eq; auto.
  - split; [done|]. intros [t [= ? ?]]. congruence.
Qed.

Lemma HasSuffix_spec s suf : HasSuffix s suf = true ↔ ∃ t, s = t ++ suf.
Proof.
  unfold HasSuffix. rewrite andb_true_iff, Nat.leb_le, String.eqb_eq. split.
  - intros [Hlen Hs]. exists (stake (String.length s - String.length suf) s).
    rewrite <- Hs at 2. symmetry. apply stake_sdrop.
  - intros [t ->]. rewrite length_sapp. split; [lia|].
    replace (_ + _ - _)%nat with (String.length t) by lia. apply sdrop_app.
Qed.

Lemma CutPrefix_spec s p t : CutPrefix s p = Some t ↔ s = p ++ t.
Proof.
  unfold CutPrefix. destruct (HasPrefix s p) eqn:E.
  - apply HasPrefix_spec in E as [u ->]. rewrite sdrop_app.
    split; [by intros [= ->]|]. by intros ->%sapp_inj_r.
  - split; [done|]. intros ->. exfalso.
    assert (HasPrefix (p ++ t) p = true) by (apply HasPrefix_spec; eauto). congruence.
Qed.

Lemma IndexByte_None s c : IndexByte s c = None ↔ ¬ In c (list_ascii_of_string s).
Proof.
  induction s as [|d s IH]; simpl; [tauto|].
  destruct (Ascii.eqb_spec d c) as [->|Hne]; [split; [done|tauto]|].
  rewrite fmap_None, IH. split; [|tauto]. intros H [?|?]; [congruence|tauto].
Qed.

Lemma IndexByte_app_NotIn s c t :
  ¬ In c (list_ascii_of_string s) →
  IndexByte (s ++ String c t) c = Some (String.length s).
Proof.
  induction s as [|d s IH]; simpl; intros H; [by rewrite Ascii.eqb_refl|].
  destruct (Ascii.eqb_spec d c) as [->|Hne]; [tauto|]. rewrite IH by tauto. done.
Qed.

(** ** UTF-8 decoding, exactly as [utf8.DecodeRuneInString]: an invalid
    sequence yields [RuneError] and consumes one byte. *)

Definition RuneError : Z := 65533.
Definition RuneSelf : Z := 128.

Definition in_range (lo hi z : Z) : bool := (lo <=? z) && (z <=? hi).
Definition cont_byte (c : ascii) : bool := in_range 128 191 (byte_val c).

(** First-byte table of [unicode/utf8]: sequence length and the range accepted
    for the second byte. *)
Definition lead_info (b : Z) : option (nat * Z * Z) :=
  if in_range 194 223 b then Some (2%nat, 128, 191)
  else if b =? 224 then Some (3%nat, 160, 191)
  else if b =? 237 then Some (3%nat, 128, 159)
  else if in_range 225 239 b then Some (3%nat, 128, 191)
  else if b =? 240 then Some (4%nat, 144, 191)
  else if b =? 244 then Some (4%nat, 128, 143)
  else if in_range 241 243 b then Some (4%nat, 128, 191)
  else None.

(** [decode_rune s] is the first rune of a non-empty [s], the bytes it occupies
    and the rest. *)
Definition decode_rune (c0 : ascii) (s : string) : Z * string * string :=
  let b0 := byte_val c0 in
  let bad := (RuneError, String c0 "", s) in
  if b0 <? RuneSelf then (b0, String c0 "", s) else
  match lead_info b0, s with
  | Some (n, lo, hi), String c1 s1 =>
      if negb (in_range lo hi (byte_val c1)) then bad else
      let r1 := Z.land (byte_val c1) 63 in
      match n, s1 with
      | 2%nat, _ => (Z.lor (Z.shiftl (Z.land b0 31) 6) r1, String c0 (String c1 ""), s1)
      | 3%nat, String c2 s2 =>
          if negb (cont_byte c2) then bad else
          (Z.lor (Z.shiftl (Z.land b0 15) 12) (Z.lor (Z.shiftl r1 6) (Z.land (byte_val c2) 63)),
           String c0 (String c1 (String c2 "")), s2)
      | 4%nat, String c2 (String c3 s3) =>
          if negb (cont_byte c2 && cont_byte c3) then bad else
          (Z.lor (Z.shiftl (Z.land b0 7) 18) (Z.lor (Z.shiftl r1 12)
             (Z.lor (Z.shiftl (Z.land (byte_val c2) 63) 6) (Z.land (byte_val c3) 63))),
           String c0 (String c1 (String c2 (String c3 ""))), s3)
      | _, _ => bad
      end
  | _, _ => bad
  end.

(** The runes of a string with the bytes each occupies ([for _, r := range s]).
    Every step consumes at least one byte, so [length s] steps suffice. *)
Fixpoint segments_fuel (fuel : nat) (s : string) : list (Z * string) :=
  match fuel, s with
  | S fuel, String c s' =>
      let '(r, bs, rest) := decode_rune c s' in (r, bs) :: segments_fuel fuel rest
  | _, _ => []
  end.
Definition segments (s : string) : list (Z * string) := segments_fuel (String.length s) s.
Definition runes (s : string) : list Z := (segments s).*1.

Definition encode_rune (r : Z) : string :=
  let b (z : Z) (s : string) := String (byte_of z) s in
  let err := b 239 (b 191 (b 189 "")) in
  if r <? 0 then err
  else if r <? 128 then b r ""
  else if r <? 2048 then b (192 + Z.shiftr r 6) (b (128 + Z.land r 63) "")
  else if in_range 55296 57343 r then err
  else if r <? 65536 then
    b (224 + Z.shiftr r 12) (b (128 + Z.land (Z.shiftr r 6) 63) (b (128 + Z.land r 63) ""))
  else if r <=? 1114111 then
    b (240 + Z.shiftr r 18) (b (128 + Z.land (Z.shiftr r 12) 63)
      (b (128 + Z.land (Z.shiftr r 6) 63) (b (128 + Z.land r 63) "")))
  else err.

(** ** ASCII case mapping and the Unicode tables. *)

Definition is_ascii_upper (r : Z) : bool := in_range 65 90 r.
Definition is_ascii_lower (r : Z) : bool := in_range 97 122 r.
Definition ascii_to_lower (r : Z) : Z := if is_ascii_upper r then r + 32 else r.
Definition ascii_to_upper (r : Z) : Z := if is_ascii_lower r then r - 32 else r.

(** [unicode.ToLower], [unicode.ToUpper] and the least rune of the
    [unicode.SimpleFold] orbit. *)
Class Unicode := {
  rune_to_lower : Z → Z;
  rune_to_upper : Z → Z;
  rune_fold : Z → Z;
  rune_to_lower_ascii r : 0 ≤ r < 128 → rune_to_lower r = ascii_to_lower r;
  rune_to_upper_ascii r : 0 ≤ r < 128 → rune_to_upper r = ascii_to_upper r;
  rune_fold_ascii r : 0 ≤ r < 128 → rune_fold r = ascii_to_upper r;
  rune_to_lower_idem r : rune_to_lower (rune_to_lower r) = rune_to_lower r;
}.

(** The tables restricted to ASCII: a concrete instance for witnesses. *)
Definition ascii_unicode : Unicode.
Proof.
  refine {| rune_to_lower := ascii_to_lower; rune_to_upper := ascii_to_upper;
            rune_fold := ascii_to_upper |}; [done..|].
  intros r. unfold ascii_to_lower, is_ascii_upper, in_range. repeat case_if; lia.
Defined.

Fixpoint smap (f : ascii → ascii) (s : string) : string :=
  match s with
  | EmptyString => EmptyString
  | String c s => String (f c) (smap f s)
  end.

Fixpoint sall (p : ascii → bool) (s : string) : bool :=
  match s with
  | EmptyString => true
  | String c s => p c && sall p s
  end.

Definition is_ascii_byte (c : ascii) : bool := byte_val c <? RuneSelf.
Definition is_ascii (s : string) : bool := sall is_ascii_byte s.

Definition lower_byte (c : ascii) : ascii := byte_of (ascii_to_lower (byte_val c)).
Definition upper_byte (c : ascii) : ascii := byte_of (ascii_to_upper (byte_val c)).

(** [unicode.IsSpace]. *)
Definition is_space (r : Z) : bool :=
  in_range 9 13 r || (r =? 32) || (r =? 133) || (r =? 160) || (r =? 5760) ||
  in_range 8192 8202 r || (r =? 8232) || (r =? 8233) || (r =? 8239) ||
  (r =? 8287) || (r =? 12288).

Section strings.
Context `{Unicode}.

(** [strings.ToLower]: byte-wise on ASCII, [strings.Map(unicode.ToLower)] with
    invalid bytes replaced by U+FFFD otherwise. *)
Definition ToLower (s : string) : string :=
  if is_ascii s then smap lower_byte s
  else String.concat "" (map (λ r, encode_rune (rune_to_lower r)) (runes s)).

Definition ToUpper (s : string) : string :=
  if is_ascii s then smap upper_byte s
  else String.concat "" (map (λ r, encode_rune (rune_to_upper r)) (runes s)).

(** [strings.EqualFold]: equality of the rune sequences up to simple folding. *)
Definition EqualFold (s t : string) : bool :=
  bool_decide (map rune_fold (runes s) = map rune_fold (runes t)).

Lemma EqualFold_refl s : EqualFold s s = true.
Proof. by apply bool_decide_eq_true. Qed.

Lemma EqualFold_sym s t : EqualFold s t = EqualFold t s.
Proof. apply bool_decide_ext. by split. Qed.

Lemma EqualFold_trans s t u :
  EqualFold s t = true → EqualFold t u = true → EqualFold s u = true.
Proof. unfold EqualFold. rewrite !bool_decide_eq_true. congruence. Qed.
End strings.

Fixpoint drop_while {A} (p : A → bool) (l : list A) : list A :=
  match l with
  | [] => []
  | x :: l' => if p x then drop_while p l' else l
  end.

(** [strings.TrimSpace]: UTF-8 is self-synchronising, so trimming segments of the
    forward decoding from the right is [DecodeLastRune]'s trimming. *)
Definition TrimSpace (s : string) : string :=
  let sp := λ x : Z * string, is_space x.1 in
  String.concat "" (map snd (reverse (drop_while sp (reverse (drop_while sp (segments s)))))).

(** [strings.Fields]: the maximal runs of non-space runes. *)
Fixpoint fields_go (cur : string) (l : list (Z * string)) : list string :=
  match l with
  | [] => if (cur =? "")%string then [] else [cur]
  | (r, bs) :: l =>
      if is_space r then if (cur =? "")%string then fields_go "" l else cur :: fields_go "" l
      else fields_go (cur ++ bs) l
  end.
Definition Fields (s : string) : list string := fields_go "" (segments s).

(** ** Byte-wise string order: [<], [<=] on Go strings. *)

Definition str_lt (s t : string) : bool := String.ltb s t.
Definition str_le (s t : string) : bool := String.leb s t.

(** ** Lower-casing ASCII *)

Lemma byte_of_val z : 0 ≤ z < 256 → byte_val (byte_of z) = z.
Proof.
  intros ?. unfold byte_val, byte_of. rewrite N_ascii_embedding; rewrite Z.mod_small; lia.
Qed.

Lemma byte_of_byte_val c : byte_of (byte_val c) = c.
Proof.
  pose proof (byte_val_range c). apply byte_val_inj. by apply byte_of_val.
Qed.

Lemma lower_byte_val c : is_ascii_byte c = true → byte_val (lower_byte c) = ascii_to_lower (byte_val c).
Proof.
  unfold is_ascii_byte, RuneSelf. intros H. bprop. pose proof (byte_val_range c).
  apply byte_of_val. unfold ascii_to_lower, is_ascii_upper, in_range. case_if; lia.
Qed.

Lemma lower_byte_ascii c : is_ascii_byte c = true → is_ascii_byte (lower_byte c) = true.
Proof.
  intros H. unfold is_ascii_byte. rewrite lower_byte_val by done.
  unfold is_ascii_byte, RuneSelf, ascii_to_lower, is_ascii_upper, in_range in *. case_if; lia.
Qed.

Lemma lower_byte_idem c : is_ascii_byte c = true → lower_byte (lower_byte c) = lower_byte c.
Proof.
  intros H. apply byte_val_inj. rewrite !lower_byte_val by auto using lower_byte_ascii.
  unfold is_ascii_byte, RuneSelf, ascii_to_lower, is_ascii_upper, in_range in *. bprop.
  repeat case_if; lia.
Qed.

Lemma is_ascii_app s t : is_ascii (s ++ t) = is_ascii s && is_ascii t.
Proof.
  unfold is_ascii. induction s as [|c s IH]; simpl; [done|].
  by rewrite IH, andb_assoc.
Qed.

Lemma smap_app f s t : smap f (s ++ t) = smap f s ++ smap f t.
Proof. induction s; simpl; f_equal; auto. Qed.

Lemma concat_cons s l : String.concat "" (s :: l) = s ++ String.concat "" l.
Proof.
  destruct l as [|t l]; simpl; [|done].
  induction s; simpl; f_equal; auto.
Qed.

Lemma not_ascii_head z s : 128 ≤ z < 256 → is_ascii (String (byte_of z) s) = false.
Proof.
  intros Hz. unfold is_ascii; simpl. unfold is_ascii_byte, RuneSelf.
  rewrite byte_of_val by lia. by replace (z <? 128) with false by lia.
Qed.

(** A rune whose encoding is ASCII is one byte with that value. *)
Lemma encode_rune_ascii r :
  is_ascii (encode_rune r) = true → 0 ≤ r < 128 ∧ encode_rune r = String (byte_of r) "".
Proof.
  unfold encode_rune. rewrite !Z.shiftr_div_pow2 by lia.
  change (2 ^ 6) with 64. change (2 ^ 12) with 4096. change (2 ^ 18) with 262144.
  unfold in_range. repeat case_if; bprop;
    try (rewrite not_ascii_head; [done|Z.to_euclidean_division_equations; lia]).
  intros _. split; [lia|done].
Qed.

Section lower.
Context `{Unicode}.

Lemma ToLower_ascii s : is_ascii s = true → ToLower s = smap lower_byte s.
Proof. unfold ToLower. by intros ->. Qed.

Lemma smap_lower_ascii s : is_ascii s = true → is_ascii (smap lower_byte s) = true.
Proof.
  unfold is_ascii. induction s as [|c s IH]; simpl; [done|].
  intros [Hc Hs]%andb_true_iff. by rewrite lower_byte_ascii, IH.
Qed.

Lemma smap_lower_idem s :
  is_ascii s = true → smap lower_byte (smap lower_byte s) = smap lower_byte s.
Proof.
  unfold is_ascii. induction s as [|c s IH]; simpl; [done|].
  intros [Hc Hs]%andb_true_iff. by rewrite lower_byte_idem, IH.
Qed.

Lemma lower_runes_fix rs :
  is_ascii (String.concat "" (map (λ r, encode_rune (rune_to_lower r)) rs)) = true →
  smap lower_byte (String.concat "" (map (λ r, encode_rune (rune_to_lower r)) rs))
    = String.concat "" (map (λ r, encode_rune (rune_to_lower r)) rs).
Proof.
  induction rs as [|r rs IH]; [done|].
  cbn [map]. rewrite concat_cons, is_ascii_app, smap_app.
  intros [Hr Hrs]%andb_true_iff. rewrite IH by done. f_equal.
  apply encode_rune_ascii in Hr as [Hr ->]. simpl. f_equal.
  unfold lower_byte. rewrite byte_of_val by lia.
  by rewrite <- rune_to_lower_ascii, rune_to_lower_idem by lia.
Qed.

(** Lower-casing a string that came out of [ToLower] as ASCII changes nothing. *)
Lemma ToLower_fix s : is_ascii (ToLower s) = true → ToLower (ToLower s) = ToLower s.
Proof.
  intros Ha. rewrite (ToLower_ascii (ToLower s)) by done. revert Ha.
  unfold ToLower. destruct (is_ascii s) eqn:E; intros Ha.
  - by apply smap_lower_idem.
  - by apply lower_runes_fix.
Qed.
End lower.

(** ** ASCII text without spaces *)

Lemma segments_ascii s : is_ascii s = true → segments s = map (λ c, (byte_val c, String c "")) (list_ascii_of_string s).
Proof.
  unfold segments, is_ascii. induction s as [|c s IH]; simpl; [done|]. intros [Hc Hs]%andb_true_iff.
  unfold decode_rune. unfold is_ascii_byte in Hc. rewrite Hc, IH by done. done.
Qed.

Lemma sall_impl (p q : ascii → bool) s : (∀ c, p c = true → q c = true) → sall p s = true → sall q s = true.
Proof. intros Hpq. induction s as [|c s IH]; simpl; [done|]. intros [Hc Hs]%andb_true_iff. by rewrite (Hpq c), IH. Qed.

Definition plain_byte (c : ascii) : bool := is_ascii_byte c && negb (is_space (byte_val c)).

Lemma drop_while_none {A} (p : A → bool) l : Forall (λ x, p x = false) l → drop_while p l = l.
Proof. intros Hl. destruct Hl as [|x l Hx Hl]; simpl; [done|]. by rewrite Hx. Qed.
Lemma concat_bytes s : String.concat "" (map (λ c, String c "") (list_ascii_of_string s)) = s.
Proof. induction s as [|c s IH]; [done|]. cbn [list_ascii_of_string map]. by rewrite concat_cons, IH. Qed.
Lemma plain_segments s : sall plain_byte s = true →
  segments s = map (λ c, (byte_val c, String c "")) (list_ascii_of_string s) ∧ Forall (λ x, is_space x.1 = false) (segments s).
Proof.
  intros Hs. rewrite segments_ascii by (revert Hs; apply sall_impl; unfold plain_byte; intros c [? _]%andb_true_iff; done).
  split; [done|]. induction s as [|c s IH]; simpl in *; constructor; apply andb_true_iff in Hs as [Hc Hs]; [|by apply IH].
  unfold plain_byte in Hc. simpl. by destruct (is_space _), (is_ascii_byte c).
Qed.

Lemma TrimSpace_plain s : sall plain_byte s = true → TrimSpace s = s.
Proof.
  intros [E Hf]%plain_segments. unfold TrimSpace. rewrite (drop_while_none _ (segments s)) by done.
  rewrite drop_while_none by (by apply Forall_reverse). rewrite reverse_involutive, E, map_map. apply concat_bytes.
Qed.
Lemma fields_go_plain cur l : Forall (λ x : Z * string, is_space x.1 = false) l →
  fields_go cur l = fields_go (cur ++ String.concat "" (map snd l)) [].
Proof.
  intros Hl. revert cur. induction Hl as [|[r bs] l Hr Hl IH]; intros cur; [cbn [map String.concat]; by rewrite sapp_nil_r|].
  simpl in Hr. cbn [fields_go map]. rewrite Hr, IH, concat_cons, sapp_assoc. done.
Qed.
Lemma Fields_plain s : sall plain_byte s = true → s ≠ "" → Fields s = [s].
Proof.
  intros [E Hf]%plain_segments Hs. unfold Fields. rewrite fields_go_plain by done. rewrite E, map_map.
  change (fields_go ?x []) with (if (x =? "")%string then [] else [x]). cbn [String.append snd]. rewrite concat_bytes.
  by apply String.eqb_neq in Hs as ->.
Qed.
Lemma ToLower_plain `{Unicode} s : sall (λ c, is_ascii_byte c && negb (is_ascii_upper (byte_val c))) s = true → ToLower s = s.
Proof.
  intros Hs. rewrite ToLower_ascii by (revert Hs; apply sall_impl; by intros c [? _]%andb_true_iff).
  induction s as [|c s IH]; simpl in *; [done|]. apply andb_true_iff in Hs as [Hc Hs]. rewrite IH by done. f_equal.
  apply andb_true_iff in Hc as [_ Hc]. unfold lower_byte, ascii_to_lower. apply negb_true_iff in Hc as ->. apply byte_of_byte_val.
Qed.
Lemma IndexAny_none (p : ascii → bool) s chars :
  (∀ c, p c = true → ContainsByte chars c = false) → sall p s = true → IndexAny s chars = None.
Proof. intros Hp. induction s as [|c s IH]; simpl; [done|]. intros [Hc Hs]%andb_true_iff. by rewrite Hp, IH. Qed.
Lemma Index_none (p : ascii → bool) s c sub :
  p c = false → sall p s = true → Index s (String c sub) = None.
Proof.
  intros Hc. induction s as [|d s IH]; [done|]. intros [Hd Hs]%andb_true_iff. cbn [Index].
  destruct (HasPrefix (String d s) (String c sub)) eqn:E.
  - apply HasPrefix_spec in E as [t [= -> _]]. congruence.
  - by rewrite IH.
Qed.
Lemma IndexByte_none (p : ascii → bool) s c : p c = false → sall p s = true → IndexByte s c = None.
Proof.
  intros Hc. induction s as [|d s IH]; [done|]. simpl. intros [Hd Hs]%andb_true_iff. rewrite IH by done.
  destruct (Ascii.eqb_spec d c) as [->|]; [congruence|done].
Qed.

(** Splitting text at the ends of its lines. *)
Lemma Split_line s c t : ContainsByte s c = false → Split (s ++ String c t) c = s :: Split t c.
Proof.
  induction s as [|d s IH]; simpl; [by rewrite Ascii.eqb_refl|]. rewrite ContainsByte_cons.
  intros [Hd Hs]%orb_false_iff. by rewrite Hd, IH.
Qed.
Lemma Split_lines (l : list string) c :
  Forall (λ s, ContainsByte s c = false) l → Split (String.concat "" (map (λ s, s ++ String c "") l)) c = (l ++ [""])%list.
Proof.
  induction 1 as [|s l Hs Hl IH]; [done|]. cbn [map]. rewrite concat_cons, sapp_assoc.
  cbn [String.append]. rewrite Split_line by done. by rewrite IH.
Qed.

(** ** Digests *)

Lemma string_length_of_list l : String.length (string_of_list_ascii l) = length l.
Proof. induction l as [|c l IH]; [done|]. cbn. by rewrite IH. Qed.

(** [hex.EncodeToString(sha256.Sum256(s))]: 64 hexadecimal characters. *)
Class Sha256 := {
  sha256_hex : string → string;
  sha256_hex_length s : String.length (sha256_hex s) = 64%nat;
}.
