(* ===== verification/GoNet.v ===== *)
(** * Go network addresses

    The part of Go's [net] and [net/netip] packages the modelled code calls:
    address parsing, CIDR parsing, [net.IPNet.Contains] and
    [netip.Prefix.Contains].  A byte array of an address or mask is the
    big-endian integer it spells, tagged with its length. *)

From S2P Require Import Prelude GoStrings.

(** ** Addresses *)

(** [netip.Addr]; the invalid zero [Addr] is [None] at the use sites. *)
Inductive Addr :=
  | Addr4 (v : Z)
  | Addr6 (v : Z) (zone : string).

(** [net.IP] of length 4 or 16; a nil [net.IP] is [None] at the use sites. *)
Inductive IP :=
  | IP4 (v : Z)
  | IP16 (v : Z).

(** [net.IPMask] of 32 or 128 bits. *)
Record IPMask := mkMask { mask_bits : Z; mask_val : Z }.
Record IPNet := mkIPNet { net_IP : IP; net_Mask : IPMask }.

(** [netip.Prefix]; the invalid zero [Prefix] is [None] at the use sites. *)
Record Prefix := mkPrefix { prefix_addr : Addr; prefix_bits : Z }.

#[global] Instance Addr_eq_dec : EqDecision Addr.
Proof. solve_decision. Defined.
#[global] Instance IP_eq_dec : EqDecision IP.
Proof. solve_decision. Defined.
#[global] Instance IPMask_eq_dec : EqDecision IPMask.
Proof. solve_decision. Defined.
#[global] Instance IPNet_eq_dec : EqDecision IPNet.
Proof. solve_decision. Defined.
#[global] Instance Prefix_eq_dec : EqDecision Prefix.
Proof. solve_decision. Defined.

Definition v4InV6 : Z := Z.shiftl 65535 32.

Definition BitLen (a : Addr) : Z := match a with Addr4 _ => 32 | Addr6 _ _ => 128 end.
Definition Zone (a : Addr) : string := match a with Addr4 _ => "" | Addr6 _ z => z end.

(** An address value within the width of its family. *)
Definition Addr_wf (a : Addr) : Prop :=
  match a with Addr4 v => 0 ≤ v < 2 ^ 32 | Addr6 v _ => 0 ≤ v < 2 ^ 128 end.
Definition IP_wf (ip : IP) : Prop :=
  match ip with IP4 v => 0 ≤ v < 2 ^ 32 | IP16 v => 0 ≤ v < 2 ^ 128 end.

Definition is4in6 (v : Z) : bool := Z.shiftr v 32 =? 65535.

(** [netip.Addr.Unmap]: a 4-in-6 address becomes IPv4 (and loses its zone). *)
Definition Unmap (a : Addr) : Addr :=
  match a with
  | Addr6 v z => if is4in6 v then Addr4 (v mod 2 ^ 32) else a
  | Addr4 _ => a
  end.

(** [netip.Addr.As16] as a [net.IP], and [AsSlice]. *)
Definition As16 (a : Addr) : IP :=
  match a with Addr4 v => IP16 (v4InV6 + v) | Addr6 v _ => IP16 v end.
Definition AsSlice (a : Addr) : IP :=
  match a with Addr4 v => IP4 v | Addr6 v _ => IP16 v end.
(** [netip.AddrFromSlice]. *)
Definition AddrFromSlice (ip : IP) : Addr :=
  match ip with IP4 v => Addr4 v | IP16 v => Addr6 v "" end.

(** [net.IP.To4]. *)
Definition To4 (ip : IP) : option Z :=
  match ip with
  | IP4 v => Some v
  | IP16 v => if is4in6 v then Some (v mod 2 ^ 32) else None
  end.

(** ** Parsing *)

Definition dec_digit (c : ascii) : option Z :=
  let b := byte_val c in if in_range 48 57 b then Some (b - 48) else None.

Definition hex_digit (c : ascii) : option Z :=
  let b := byte_val c in
  if in_range 48 57 b then Some (b - 48)
  else if in_range 97 102 b then Some (b - 97 + 10)
  else if in_range 65 70 b then Some (b - 65 + 10)
  else None.

(** A lower-case hexadecimal digit. *)
Definition nibble (z : Z) : ascii := byte_of (if z <? 10 then 48 + z else 87 + z).

(** [netip.parseIPv4Fields]: exactly four decimal fields of at most 255 with no
    leading zero. *)
Fixpoint parse_fields (s : string) (pos : nat) (val : Z) (dig : nat) (acc : Z) : option Z :=
  match s with
  | EmptyString =>
      if (dig =? 0)%nat || negb (pos =? 3)%nat then None else Some (acc * 256 + val)
  | String c s =>
      match dec_digit c with
      | Some d =>
          if ((dig =? 1)%nat && (val =? 0)) || (255 <? val * 10 + d) then None
          else parse_fields s pos (val * 10 + d) (S dig) acc
      | None =>
          if negb (Ascii.eqb c "."%char) || (dig =? 0)%nat || (pos =? 3)%nat then None
          else parse_fields s (S pos) 0 0 (acc * 256 + val)
      end
  end.
Definition parseIPv4 (s : string) : option Z := parse_fields s 0 0 0 0.

(** One group of at most four hexadecimal digits: value, digit count, rest. *)
Fixpoint parse_group (s : string) (off : nat) (acc : Z) : option (Z * nat * string) :=
  match s with
  | String c s' =>
      match hex_digit c with
      | Some d => if (3 <? off)%nat then None else parse_group s' (S off) (acc * 16 + d)
      | None => Some (acc, off, s)
      end
  | EmptyString => Some (acc, off, s)
  end.

(** The group loop of [netip.parseIPv6]: [groups] are the 16-bit groups read so
    far, last first; [ell] is the number of groups before the ellipsis. *)
Fixpoint parse_groups (fuel : nat) (s : string) (groups : list Z) (ell : option nat)
    : option (list Z * option nat * string) :=
  match fuel with
  | O => Some (groups, ell, s)
  | S fuel =>
      if (8 <=? List.length groups)%nat then Some (groups, ell, s) else
      '(acc, off, rest) ← parse_group s 0 0;
      if (off =? 0)%nat then None else
      match rest with
      | String c rest' =>
          if Ascii.eqb c "."%char then
            if (match ell with None => negb (List.length groups =? 6)%nat | Some _ => false end)
               || (6 <? List.length groups)%nat then None
            else v ← parseIPv4 s; Some (v mod 65536 :: v / 65536 :: groups, ell, "")
          else if negb (Ascii.eqb c ":"%char) then None
          else match rest' with
          | EmptyString => None
          | String c2 rest2 =>
              if Ascii.eqb c2 ":"%char then
                match ell with
                | Some _ => None
                | None =>
                    if (rest2 =? "")%string then Some (acc :: groups, Some (S (List.length groups)), "")
                    else parse_groups fuel rest2 (acc :: groups) (Some (S (List.length groups)))
                end
              else parse_groups fuel rest' (acc :: groups) ell
          end
      | EmptyString => Some (acc :: groups, ell, "")
      end
  end.

Definition join_groups (gs : list Z) : Z := fold_left (λ a g, a * 65536 + g) gs 0.

Definition parseIPv6_nozone (s : string) : option Z :=
  let '(s1, ell) := match s with
    | String ":" (String ":" t) => (t, Some 0%nat)
    | _ => (s, None)
    end in
  match ell, s1 with
  | Some _, EmptyString => Some 0
  | _, _ =>
      '(groups, ell, rest) ← parse_groups 9 s1 [] ell;
      if negb (rest =? "")%string then None else
      let gs := reverse groups in
      let n := List.length gs in
      if (n <? 8)%nat then
        e ← ell; Some (join_groups (take e gs ++ replicate (8 - n) 0 ++ drop e gs)%list)
      else match ell with Some _ => None | None => Some (join_groups gs) end
  end.

Definition parseIPv6 (s : string) : option Addr :=
  match Cut s "%"%char with
  | Some (s, zone) =>
      if (zone =? "")%string then None else v ← parseIPv6_nozone s; Some (Addr6 v zone)
  | None => v ← parseIPv6_nozone s; Some (Addr6 v "")
  end.

(** [netip.ParseAddr]: the first of '.', ':' and '%' decides the family. *)
Fixpoint addr_kind (s : string) : option ascii :=
  match s with
  | EmptyString => None
  | String c s =>
      if Ascii.eqb c "."%char || Ascii.eqb c ":"%char || Ascii.eqb c "%"%char
      then Some c else addr_kind s
  end.

Definition ParseAddr (s : string) : option Addr :=
  match addr_kind s with
  | Some c => if Ascii.eqb c "."%char then v ← parseIPv4 s; Some (Addr4 v)
              else if Ascii.eqb c ":"%char then parseIPv6 s else None
  | None => None
  end.

(** [net.ParseIP]: [ParseAddr] with zones refused, in 16-byte form. *)
Definition ParseIP (s : string) : option IP :=
  a ← ParseAddr s; if (Zone a =? "")%string then Some (As16 a) else None.

(** [net.CIDRMask]. *)
Definition CIDRMask (ones bits : Z) : IPMask :=
  mkMask bits (Z.shiftl (Z.ones ones) (bits - ones)).

(** [net.IPMask.Size]: the prefix length and width of a contiguous mask,
    [(0, 0)] for any other. *)
Definition mask_Size (m : IPMask) : Z * Z :=
  match find (λ n, mask_val (CIDRMask n (mask_bits m)) =? mask_val m)
             (map Z.of_nat (seq 0 (S (Z.to_nat (mask_bits m))))) with
  | Some n => (n, mask_bits m)
  | None => (0, 0)
  end.

(** [dtoi] on a whole string. *)
Fixpoint dtoi (s : string) (n : Z) : option Z :=
  match s with
  | EmptyString => Some n
  | String c s => d ← dec_digit c; let n' := n * 10 + d in
      if 16777215 <=? n' then None else dtoi s n'
  end.

(** [net.ParseCIDR]: the network with its address masked. *)
Definition ParseCIDR (s : string) : option IPNet :=
  '(addr, mask) ← Cut s "/"%char;
  a ← ParseAddr addr;
  if negb (Zone a =? "")%string || (mask =? "")%string then None else
  n ← dtoi mask 0;
  if BitLen a <? n then None else
  let m := CIDRMask n (BitLen a) in
  Some (mkIPNet (match a with
                 | Addr4 v => IP4 (Z.land v (mask_val m))
                 | Addr6 v _ => IP16 (Z.land v (mask_val m))
                 end) m).

(** ** Containment *)

(** [net.networkNumberAndMask]: number and mask at one width, [None] for the
    width combinations [net] rejects. *)
Definition networkNumberAndMask (n : IPNet) : option (Z * Z * Z) :=
  let m := net_Mask n in
  match To4 (net_IP n) with
  | Some v =>
      if mask_bits m =? 32 then Some (32, v, mask_val m)
      else if mask_bits m =? 128 then Some (32, v, mask_val m mod 2 ^ 32)
      else None
  | None =>
      match net_IP n with
      | IP16 v => if mask_bits m =? 128 then Some (128, v, mask_val m) else None
      | IP4 _ => None
      end
  end.

(** [net.IPNet.Contains]. *)
Definition IPNet_Contains (n : IPNet) (ip : IP) : bool :=
  match networkNumberAndMask n with
  | Some (w, nn, m) =>
      let '(l, x) := match To4 ip with
        | Some v => (32, v)
        | None => match ip with IP4 v => (32, v) | IP16 v => (128, v) end
        end in
      (l =? w) && (Z.land nn m =? Z.land x m)
  | None => false
  end.

(** [netip.Prefix.Contains] on a valid prefix and address. *)
Definition Prefix_Contains (p : Prefix) (a : Addr) : bool :=
  if negb (Zone a =? "")%string then false else
  match prefix_addr p, a with
  | Addr4 x, Addr4 y => Z.shiftr (Z.lxor y x) (32 - prefix_bits p) =? 0
  | Addr6 x _, Addr6 y _ =>
      Z.land (Z.lxor y x) (mask_val (CIDRMask (prefix_bits p) 128)) =? 0
  | _, _ => false
  end.

(** [netip.Prefix.Masked] on a valid prefix. *)
Definition Masked (p : Prefix) : Prefix :=
  match prefix_addr p with
  | Addr4 v => mkPrefix (Addr4 (Z.land v (mask_val (CIDRMask (prefix_bits p) 32)))) (prefix_bits p)
  | Addr6 v _ =>
      mkPrefix (Addr6 (Z.land v (mask_val (CIDRMask (prefix_bits p) 128))) "") (prefix_bits p)
  end.

Example parse_v4 : ParseAddr "10.1.2.3" = Some (Addr4 167838211).
Proof. vm_compute. reflexivity. Qed.
Example parse_v4_bad : map ParseAddr ["10.1.2"; "10.1.2.256"; "010.1.2.3"; "1.2.3.4.5"; "1..2.3"; "abc"]
  = [None; None; None; None; None; None].
Proof. vm_compute. reflexivity. Qed.
Example parse_v6 : ParseAddr "2001:db8::1" = Some (Addr6 42540766411282592856903984951653826561 "").
Proof. vm_compute. reflexivity. Qed.
Example parse_v6_more : map ParseAddr ["::"; "::1"; "1::"; "::ffff:1.2.3.4"; "1:2:3:4:5:6:7:8"; "fe80::1%eth0"]
  = [Some (Addr6 0 ""); Some (Addr6 1 ""); Some (Addr6 (2 ^ 112) "");
     Some (Addr6 (65535 * 2 ^ 32 + 16909060) "");
     Some (Addr6 5192455318486707404433266433261576 ""); Some (Addr6 (65152 * 2 ^ 112 + 1) "eth0")].
Proof. vm_compute. reflexivity. Qed.
Example parse_v6_bad : map ParseAddr [":::"; "1::2::3"; "12345::"; "1:2:3:4:5:6:7:8:9"; "::1%"; "1:2:3:4:5:6:7::8"; ":1"; "1:"]
  = [None; None; None; None; None; None; None; None].
Proof. vm_compute. reflexivity. Qed.

(** ** Masks bit by bit *)

Lemma testbit_width w v i : 0 ≤ v < 2 ^ w → w ≤ i → Z.testbit v i = false.
Proof.
  intros Hv Hi. destruct (Z.eq_dec v 0) as [->|Hne]; [apply Z.bits_0|].
  apply Z.bits_above_log2; [lia|]. apply Z.log2_lt_pow2; [lia|].
  eapply Z.lt_le_trans; [apply Hv|]. apply Z.pow_le_mono_r; lia.
Qed.

Lemma mask_testbit n w i :
  0 ≤ n ≤ w → 0 ≤ i → Z.testbit (mask_val (CIDRMask n w)) i = (w - n <=? i) && (i <? w).
Proof.
  intros Hn Hi. simpl. rewrite Z.shiftl_spec by done.
  destruct (Z.leb_spec (w - n) i); simpl.
  - destruct (Z.ltb_spec i w).
    + by rewrite Z.ones_spec_low by lia.
    + by rewrite Z.ones_spec_high by lia.
  - by rewrite Z.testbit_neg_r by lia.
Qed.

(** Comparing two addresses under a contiguous mask is testing that their
    exclusive or vanishes above the host bits: the masked comparison of
    [net.IPNet.Contains] against the shift of [netip.Prefix.Contains]. *)
Lemma mask_eq_shiftr n w x y :
  0 ≤ n ≤ w → 0 ≤ x < 2 ^ w → 0 ≤ y < 2 ^ w →
  (Z.land x (mask_val (CIDRMask n w)) =? Z.land y (mask_val (CIDRMask n w))) =
  (Z.shiftr (Z.lxor y x) (w - n) =? 0).
Proof.
  intros Hn Hx Hy. apply eq_true_iff_eq. rewrite !Z.eqb_eq. split; intros E.
  - apply Z.bits_inj'. intros i Hi. rewrite Z.bits_0, Z.shiftr_spec, Z.lxor_spec by done.
    destruct (Z.ltb_spec (i + (w - n)) w) as [Hlt|Hge].
    + apply (f_equal (λ z, Z.testbit z (i + (w - n)))) in E.
      rewrite !Z.land_spec, !mask_testbit in E by lia.
      replace (_ <=? _) with true in E by lia. replace (_ <? _) with true in E by lia.
      rewrite !andb_true_r in E. rewrite E. apply xorb_nilpotent.
    + by rewrite !(testbit_width w) by lia.
  - apply Z.bits_inj'. intros i Hi. rewrite !Z.land_spec, mask_testbit by lia.
    destruct (Z.leb_spec (w - n) i) as [Hle|Hlt]; simpl; [|by rewrite !andb_false_r].
    f_equal. apply (f_equal (λ z, Z.testbit z (i - (w - n)))) in E.
    rewrite Z.bits_0, Z.shiftr_spec, Z.lxor_spec in E by lia.
    replace (i - (w - n) + (w - n)) with i in E by lia.
    symmetry. by apply xorb_eq.
Qed.

(** The same test written as [netip] writes it for IPv6: the mask applied to the
    exclusive or. *)
Lemma mask_lxor_eq m x y :
  (Z.land (Z.lxor y x) m =? 0) = (Z.land x m =? Z.land y m).
Proof.
  apply eq_true_iff_eq. rewrite !Z.eqb_eq.
  assert (Z.land (Z.lxor y x) m = Z.lxor (Z.land y m) (Z.land x m)) as ->.
  { apply Z.bits_inj'. intros i Hi. rewrite !Z.land_spec, !Z.lxor_spec, !Z.land_spec.
    by destruct (Z.testbit y i), (Z.testbit x i), (Z.testbit m i). }
  rewrite Z.lxor_eq_0_iff. by split.
Qed.

Lemma mask_eq_masked n w x y :
  Z.land (Z.land x (mask_val (CIDRMask n w))) (mask_val (CIDRMask n w)) = y ↔
  Z.land x (mask_val (CIDRMask n w)) = y.
Proof. by rewrite <- Z.land_assoc, Z.land_diag. Qed.

(** Masks of different lengths differ, so [Size] inverts [CIDRMask]. *)
Lemma CIDRMask_inj n m w :
  0 ≤ n ≤ w → 0 ≤ m ≤ w → mask_val (CIDRMask n w) = mask_val (CIDRMask m w) → n = m.
Proof.
  intros Hn Hm E.
  assert (∀ a b, 0 ≤ a ≤ w → 0 ≤ b ≤ w → a < b →
    mask_val (CIDRMask a w) ≠ mask_val (CIDRMask b w)) as Hlt.
  { intros a b Ha Hb Hab Hc. apply (f_equal (λ z, Z.testbit z (w - b))) in Hc.
    rewrite !mask_testbit in Hc by lia. lia. }
  destruct (Z.lt_trichotomy n m) as [?|[?|?]]; [by destruct (Hlt n m)|done|by destruct (Hlt m n)].
Qed.

Lemma mask_Size_CIDRMask n w : 0 ≤ n ≤ w → mask_Size (CIDRMask n w) = (n, w).
Proof.
  intros Hn. unfold mask_Size. change (mask_bits (CIDRMask n w)) with w.
  destruct (find _ _) as [k|] eqn:E.
  - apply find_some in E as [Hin Hk%Z.eqb_eq]. apply in_map_iff in Hin as (j&<-&[? ?]%in_seq).
    f_equal. eapply CIDRMask_inj; [| |exact Hk]; lia.
  - exfalso. apply (find_none _ _) with (x := n) in E; [by rewrite Z.eqb_refl in E|].
    apply in_map_iff. exists (Z.to_nat n). split; [lia|]. apply in_seq. lia.
Qed.

Lemma mask_Size_inv m n w : mask_Size m = (n, w) → 0 < w → m = CIDRMask n w ∧ 0 ≤ n ≤ w.
Proof.
  unfold mask_Size. destruct (find _ _) as [k|] eqn:E; [|by intros [= <- <-] ?].
  intros [= -> <-] Hw. apply find_some in E as [Hin Hk%Z.eqb_eq].
  apply in_map_iff in Hin as (j&<-&[? ?]%in_seq).
  destruct m as [b v]; simpl in *. unfold CIDRMask. subst v. split; [done|]. lia.
Qed.

(** The low 32 bits of a 128-bit mask of length at least 96. *)
Lemma CIDRMask_low n :
  96 ≤ n ≤ 128 → mask_val (CIDRMask n 128) mod 2 ^ 32 = mask_val (CIDRMask (n - 96) 32).
Proof.
  intros Hn. rewrite <- Z.land_ones by lia. apply Z.bits_inj'. intros i Hi.
  rewrite Z.land_spec, !mask_testbit by lia.
  destruct (Z.ltb_spec i 32).
  - rewrite Z.ones_spec_low by lia. lia.
  - rewrite Z.ones_spec_high by lia. lia.
Qed.

(** ** What the parsers return is within its width *)

Lemma dec_digit_range c d : dec_digit c = Some d → 0 ≤ d ≤ 9.
Proof. unfold dec_digit, in_range. case_if; [|done]. bprop. intros [= <-]. lia. Qed.

Lemma hex_digit_range c d : hex_digit c = Some d → 0 ≤ d ≤ 15.
Proof. unfold hex_digit, in_range. repeat case_if; [..|done]; bprop; intros [= <-]; lia. Qed.

Lemma parse_fields_range s : ∀ pos val dig acc v,
  parse_fields s pos val dig acc = Some v → (pos ≤ 3)%nat →
  0 ≤ val ≤ 255 → 0 ≤ acc < 256 ^ Z.of_nat pos → 0 ≤ v < 2 ^ 32.
Proof.
  induction s as [|c s IH]; intros pos val dig acc v; simpl.
  - destruct (dig =? 0)%nat; [done|]. destruct (Nat.eqb_spec pos 3) as [->|]; [|done]. simpl.
    intros [= <-] _ Hv Ha. change (256 ^ Z.of_nat 3) with (2 ^ 24) in Ha.
    change (2 ^ 32) with (2 ^ 24 * 256). lia.
  - destruct (dec_digit c) as [d|] eqn:Ed.
    + pose proof (dec_digit_range c d Ed). destruct (_ && _); [done|]. simpl.
      destruct (Z.ltb_spec 255 (val * 10 + d)); [done|]. intros E Hp Hv Ha.
      eapply IH; [exact E|done|lia|done].
    + destruct (negb _ || _); [done|]. destruct (Nat.eqb_spec pos 3); [done|]. simpl.
      intros E Hp Hv Ha. eapply IH; [exact E|lia|lia|].
      rewrite Nat2Z.inj_succ, Z.pow_succ_r by lia. lia.
Qed.

Lemma parseIPv4_range s v : parseIPv4 s = Some v → 0 ≤ v < 2 ^ 32.
Proof. intros E. apply (parse_fields_range _ _ _ _ _ _ E); simpl; lia. Qed.

Definition group_ok (g : Z) : Prop := 0 ≤ g < 65536.

Lemma parse_group_range s : ∀ off acc v n rest,
  parse_group s off acc = Some (v, n, rest) → (off ≤ 4)%nat →
  0 ≤ acc < 16 ^ Z.of_nat off → group_ok v.
Proof.
  assert (∀ off acc, (off ≤ 4)%nat → 0 ≤ acc < 16 ^ Z.of_nat off → group_ok acc) as Hend.
  { intros off acc Ho Ha. split; [lia|]. eapply Z.lt_le_trans; [apply Ha|].
    change 65536 with (16 ^ 4). apply Z.pow_le_mono_r; lia. }
  induction s as [|c s IH]; intros off acc v n rest; simpl.
  { intros [= <- <- <-]. eauto. }
  destruct (hex_digit c) as [d|] eqn:Ed; [|intros [= <- <- <-]; eauto].
  destruct (Nat.ltb_spec 3 off); [done|]. intros E Ho Ha. pose proof (hex_digit_range c d Ed).
  eapply IH; [exact E|lia|]. rewrite Nat2Z.inj_succ, Z.pow_succ_r by lia. lia.
Qed.

Lemma parse_groups_range fuel : ∀ s gs ell gs' ell' rest,
  parse_groups fuel s gs ell = Some (gs', ell', rest) →
  Forall group_ok gs → (List.length gs ≤ 8)%nat → Forall group_ok gs' ∧ (List.length gs' ≤ 8)%nat.
Proof.
  induction fuel as [|fuel IH]; intros s gs ell gs' ell' rest; cbn [parse_groups].
  { by intros [= <- <- <-]. }
  destruct (Nat.leb_spec 8 (List.length gs)); [by intros [= <- <- <-]|].
  destruct (parse_group s 0 0) as [[[acc off] r]|] eqn:Eg; [|done]. cbn [mbind option_bind].
  apply parse_group_range in Eg as Hacc; [|lia|simpl; lia].
  destruct (off =? 0)%nat; [done|]. intros E Hgs Hlen.
  assert (Forall group_ok (acc :: gs)) as Hgs' by by constructor.
  assert (List.length (acc :: gs) ≤ 8)%nat as Hlen' by (simpl; lia).
  destruct r as [|c r]; [by injection E as <- <- <-|].
  destruct (Ascii.eqb c "."%char).
  - destruct (_ || _) eqn:Hsix; [done|]. apply orb_false_elim in Hsix as [_ Hsix%Nat.ltb_ge].
    destruct (parseIPv4 s) as [v|] eqn:Ev; [|done]. injection E as <- <- <-.
    apply parseIPv4_range in Ev. change (2 ^ 32) with (65536 * 65536) in Ev. split; [|simpl; lia].
    constructor; [unfold group_ok; apply Z.mod_pos_bound; lia|]. constructor; [|done].
    split; [apply Z.div_pos; lia|apply Z.div_lt_upper_bound; lia].
  - destruct (negb _); [done|]. destruct r as [|c2 r2]; [done|].
    destruct (Ascii.eqb c2 ":"%char); [|by eapply IH].
    destruct ell; [done|]. destruct (r2 =? "")%string; [by injection E as <- <- <-|by eapply IH].
Qed.

Lemma join_groups_range gs :
  Forall group_ok gs → 0 ≤ join_groups gs < 65536 ^ Z.of_nat (List.length gs).
Proof.
  assert (∀ l a, 0 ≤ a → Forall group_ok l →
    0 ≤ fold_left (λ a g, a * 65536 + g) l a < (a + 1) * 65536 ^ Z.of_nat (List.length l)) as Hf.
  { induction l as [|g l IH]; intros a Ha Hl; cbn [fold_left List.length]; [simpl; lia|].
    apply Forall_cons in Hl as [Hg Hl]. unfold group_ok in Hg.
    destruct (IH (a * 65536 + g) ltac:(lia) Hl) as [? Hlt]. split; [done|].
    rewrite Nat2Z.inj_succ, Z.pow_succ_r by lia. eapply Z.lt_le_trans; [exact Hlt|].
    rewrite Z.mul_assoc. apply Z.mul_le_mono_nonneg_r; [apply Z.pow_nonneg; lia|lia]. }
  intros Hgs. destruct (Hf gs 0 ltac:(lia) Hgs). unfold join_groups. lia.
Qed.

Lemma parseIPv6_nozone_range s v : parseIPv6_nozone s = Some v → 0 ≤ v < 2 ^ 128.
Proof.
  assert (∀ s1 ell0, ('(groups, ell, rest) ← parse_groups 9 s1 [] ell0;
      if negb (rest =? "")%string then None else
      let gs := reverse groups in
      let n := List.length gs in
      if (n <? 8)%nat then
        e ← ell; Some (join_groups (take e gs ++ replicate (8 - n) 0 ++ drop e gs)%list)
      else match ell with Some _ => None | None => Some (join_groups gs) end) = Some v →
    0 ≤ v < 2 ^ 128) as Hmain.
  { intros s1 ell0. destruct (parse_groups 9 s1 [] ell0) as [[[groups ell] rest]|] eqn:E; [|done].
    apply parse_groups_range in E as [Hok Hlen]; [|constructor|simpl; lia]. cbn [mbind option_bind].
    destruct (negb _); [done|]. cbv zeta.
    assert (Forall group_ok (reverse groups)) as Hok' by by apply Forall_reverse.
    rewrite <- (length_reverse groups) in Hlen. revert Hok' Hlen. generalize (reverse groups). intros gs Hgs Hlen.
    destruct (Nat.ltb_spec (List.length gs) 8) as [Hlt|Hge].
    - destruct ell as [e|]; [|done]. cbn [mbind option_bind]. intros [= <-].
      assert (List.length (take e gs ++ replicate (8 - List.length gs) 0 ++ drop e gs)%list = 8%nat) as Hl8.
      { rewrite !length_app, length_replicate, length_take, length_drop. lia. }
      assert (Forall group_ok (take e gs ++ replicate (8 - List.length gs) 0 ++ drop e gs)%list) as Hall.
      2: { apply join_groups_range in Hall. by rewrite Hl8 in Hall. }
      apply Forall_app. split; [by apply Forall_take|]. apply Forall_app. split; [|by apply Forall_drop].
      apply Forall_replicate. unfold group_ok. lia.
    - destruct ell; [done|]. intros [= <-]. replace (2 ^ 128) with (65536 ^ Z.of_nat (List.length gs)).
      + by apply join_groups_range.
      + replace (List.length gs) with 8%nat by lia. done. }
  unfold parseIPv6_nozone. intros E.
  destruct (match s with String ":" (String ":" t) => (t, Some 0%nat) | _ => (s, None) end) as [s1 ell].
  destruct ell as [e|]; [destruct s1; [by injection E as <-|]|]; by apply Hmain in E.
Qed.

Lemma ParseAddr_wf s a : ParseAddr s = Some a → Addr_wf a.
Proof.
  unfold ParseAddr, parseIPv6. intros E.
  assert ((∃ v, parseIPv4 s = Some v ∧ a = Addr4 v) ∨ ∃ s' v z, parseIPv6_nozone s' = Some v ∧ a = Addr6 v z)
    as [(v&Hv&->)|(s'&v&z&Hv&->)].
  { destruct (addr_kind s) as [c|]; [|done]. destruct (Ascii.eqb c "."%char); [|destruct (Ascii.eqb c ":"%char); [|done]].
    2: destruct (Cut s "%"%char) as [[s' z]|]; [destruct (z =? "")%string; [done|]|];
        (destruct (parseIPv6_nozone _) as [v|] eqn:Ev; [|done]); injection E as <-; right; eauto.
    destruct (parseIPv4 s) as [v|] eqn:Ev; [|done]. injection E as <-. left; eauto. }
  - by apply parseIPv4_range in Hv.
  - by apply parseIPv6_nozone_range in Hv.
Qed.

Lemma dtoi_range s : ∀ n v, dtoi s n = Some v → 0 ≤ n → 0 ≤ v.
Proof.
  induction s as [|c s IH]; intros n v; simpl; [by intros [= <-]|].
  destruct (dec_digit c) as [d|] eqn:Ed; [|done]. simpl. apply dec_digit_range in Ed.
  case_if; [done|]. intros E Hn. apply (IH _ _ E). lia.
Qed.

(** The networks [ParseCIDR] returns: a contiguous mask over the address width, the
    address within it. *)
Definition IPNet_cidr (n : IPNet) : Prop :=
  ∃ a ones, Addr_wf a ∧ 0 ≤ ones ≤ BitLen a ∧
    n = mkIPNet (match a with
                 | Addr4 v => IP4 (Z.land v (mask_val (CIDRMask ones 32)))
                 | Addr6 v _ => IP16 (Z.land v (mask_val (CIDRMask ones 128)))
                 end) (CIDRMask ones (BitLen a)).

Lemma ParseCIDR_cidr s n : ParseCIDR s = Some n → IPNet_cidr n.
Proof.
  unfold ParseCIDR. destruct (Cut s "/"%char) as [[addr mask]|]; [|done]. cbn [mbind option_bind].
  destruct (ParseAddr addr) as [a|] eqn:Ea; [|done]. cbn [mbind option_bind].
  destruct (_ || _); [done|]. destruct (dtoi mask 0) as [ones|] eqn:Ed; [|done]. cbn [mbind option_bind].
  destruct (Z.ltb_spec (BitLen a) ones); [done|]. intros [= <-]. exists a, ones.
  apply ParseAddr_wf in Ea. apply dtoi_range in Ed; [|lia]. split_and!; [done..|]. by destruct a.
Qed.
