(* ===== verification/HostUtil.v ===== *)
(** * Host normalisation and FQDN matching

    [internal/hostutil/hostutil.go]: the canonicalisation every engine applies to
    a destination host, and the FQDN-glob matcher shared by the policy engine and
    the SSL-bypass matcher. [golang.org/x/net/idna] is third-party code and enters
    as the class [Idna]. *)

From S2P Require Import Prelude GoStrings GoNet.

(** [idna.ToASCII]; [None] is its error result. *)
Class Idna := idna_ToASCII : string → option string.

Definition acePrefix : string := "xn--".

(** [isCanonicalASCIIHost]: [labelStart] is the loop variable. *)
Fixpoint isCanonicalASCIIHost_loop (labelStart : bool) (host : string) : bool :=
  match host with
  | EmptyString => true
  | String c rest =>
      if RuneSelf <=? byte_val c then false
      else if labelStart && HasPrefix host acePrefix then false
      else isCanonicalASCIIHost_loop (Ascii.eqb c "."%char) rest
  end.
Definition isCanonicalASCIIHost (host : string) : bool := isCanonicalASCIIHost_loop true host.

Definition stripIPv6Brackets (h : string) : string :=
  match h with
  | String "[" t =>
      if (2 <=? String.length h)%nat && HasSuffix h "]"
      then stake (String.length h - 2) t else h
  | _ => h
  end.

Section hostutil.
Context `{Unicode, Idna}.

(** The body below the fast path: IP literals verbatim, everything else through
    [idna.ToASCII]. *)
Definition normalize_slow (host : string) : option string :=
  if bool_decide (is_Some (ParseIP host)) || bool_decide (is_Some (ParseIP (stripIPv6Brackets host)))
  then Some host
  else ascii ← idna_ToASCII host; Some (ToLower ascii).

(** [NormalizeHostStrict]; [None] is [ok = false]. *)
Definition NormalizeHostStrict (host0 : string) : option string :=
  let host := ToLower (TrimSuffix host0 ".") in
  if (host =? "")%string then Some host
  else if isCanonicalASCIIHost host then Some host
  else normalize_slow host.

(** [NormalizeHost]: lenient, falls back to the lowercased input. *)
Definition NormalizeHost (host : string) : string :=
  match NormalizeHostStrict host with
  | Some norm => norm
  | None => ToLower (TrimSuffix host ".")
  end.

(** [MatchFQDNNorm], with the index arithmetic of the bare-domain branch. *)
Definition MatchFQDNNorm (pattern host : string) : bool :=
  if (pattern =? "*")%string then true
  else if HasPrefix pattern "*." then
    HasSuffix host (sdrop 1 pattern) || (host =? sdrop 2 pattern)%string
  else if (host =? pattern)%string then true
  else
    let n := (Z.of_nat (String.length host) - Z.of_nat (String.length pattern)) in
    (0 <? n) &&
    bool_decide (byte_at host (Z.to_nat (n - 1)) = Some "."%char) &&
    (sdrop (Z.to_nat n) host =? pattern)%string.

Definition MatchFQDN (pattern host : string) : bool :=
  MatchFQDNNorm (NormalizeHost pattern) (NormalizeHost host).
End hostutil.

(** [net.SplitHostPort] on the shapes [StripHostPort] distinguishes: the host
    part, [None] for its error results. *)
Fixpoint last_colon (s : string) (i : nat) (best : option nat) : option nat :=
  match s with
  | EmptyString => best
  | String c s => last_colon s (S i) (if Ascii.eqb c ":"%char then Some i else best)
  end.

Definition SplitHostPort_host (hostport : string) : option string :=
  i ← last_colon hostport 0 None;
  if HasPrefix hostport "[" then
    e ← IndexByte hostport "]"%char;
    if (S e =? i)%nat then
      let host := stake (e - 1) (sdrop 1 hostport) in
      if ContainsByte (sdrop 1 hostport) "["%char || ContainsByte (sdrop (S e) hostport) "]"%char
      then None else Some host
    else None
  else
    let host := stake i hostport in
    if ContainsByte host ":"%char then None
    else if ContainsByte hostport "["%char || ContainsByte hostport "]"%char then None
    else Some host.

Definition isBracket (c : ascii) : bool := Ascii.eqb c "["%char || Ascii.eqb c "]"%char.

(** [strings.Trim(host, "[]")]. *)
Definition TrimBrackets (s : string) : string :=
  string_of_list_ascii (reverse (drop_while isBracket (reverse
    (drop_while isBracket (list_ascii_of_string s))))).

Definition hasHostPortSyntax (host : string) : bool :=
  let l := list_ascii_of_string host in
  match head l, last l with
  | Some first, Some final => ContainsByte host ":"%char || isBracket first || isBracket final
  | _, _ => false
  end.

Definition StripHostPort (host : string) : string :=
  if negb (hasHostPortSyntax host) then host
  else TrimBrackets (default host (SplitHostPort_host host)).

Example strip_shapes :
  map StripHostPort ["host:80"; "[2001:db8::1]:443"; "[2001:db8::1]"; "2001:db8::1"; "host"; "a:b:c"]
  = ["host"; "2001:db8::1"; "2001:db8::1"; "2001:db8::1"; "host"; "a:b:c"].
Proof. vm_compute. reflexivity. Qed.

(** ** Canonical ASCII hosts *)

Section canonical.
Context `{Unicode, Idna}.

Lemma canonical_loop_ascii b s : isCanonicalASCIIHost_loop b s = true → is_ascii s = true.
Proof.
  unfold is_ascii. revert b. induction s as [|c s IH]; intros b; simpl; [done|].
  case_if; [done|]. case_if; [done|]. intros E%IH. rewrite E. unfold is_ascii_byte.
  bprop. replace (_ <? _) with true by lia. done.
Qed.

Lemma HasPrefix_app s t p : HasPrefix s p = true → HasPrefix (s ++ t) p = true.
Proof. rewrite !HasPrefix_spec. intros [u ->]. exists (u ++ t). apply sapp_assoc. Qed.

Lemma canonical_loop_prefix b s t :
  isCanonicalASCIIHost_loop b (s ++ t) = true → isCanonicalASCIIHost_loop b s = true.
Proof.
  revert b. induction s as [|c s IH]; intros b; [by destruct t|].
  cbn [isCanonicalASCIIHost_loop String.append]. case_if; [done|].
  destruct b; cbn [andb]; [|by apply IH].
  destruct (HasPrefix (String c s) acePrefix) eqn:E.
  - apply (HasPrefix_app _ t) in E. cbn [String.append] in E. by rewrite E.
  - destruct (HasPrefix (String c (s ++ t)) acePrefix); [done|]. by apply IH.
Qed.

Lemma lower_dot_suffix s :
  is_ascii s = true → HasSuffix (smap lower_byte s) "." = HasSuffix s ".".
Proof.
  intros Ha. apply eq_true_iff_eq. rewrite !HasSuffix_spec. split; intros [t Ht].
  - revert t Ht. induction s as [|c s IH]; intros t; [by destruct t|].
    unfold is_ascii in Ha; simpl in Ha. apply andb_true_iff in Ha as [Hc Hs].
    destruct t as [|d t]; simpl; intros [= Hd E].
    + destruct s; [|done]. exists "". simpl. f_equal. apply byte_val_inj.
      apply (f_equal byte_val) in Hd. rewrite lower_byte_val in Hd by done.
      revert Hd. unfold ascii_to_lower, is_ascii_upper, in_range.
      change (byte_val ".") with 46. case_if; bprop; lia.
    + destruct (IH Hs t E) as [u ->]. by exists (String c u).
  - subst s. exists (smap lower_byte t). by rewrite smap_app.
Qed.

Lemma TrimSuffix_dot s :
  (HasSuffix s "." = true ∧ s = TrimSuffix s "." ++ ".") ∨
  (HasSuffix s "." = false ∧ TrimSuffix s "." = s).
Proof.
  unfold TrimSuffix. destruct (HasSuffix s ".") eqn:E; [left|by right].
  split; [done|]. apply HasSuffix_spec in E as [t ->].
  rewrite length_sapp; simpl. replace (_ + 1 - 1)%nat with (String.length t) by lia.
  by rewrite stake_app.
Qed.

Lemma NormalizeHost_canonical h :
  isCanonicalASCIIHost (ToLower (TrimSuffix h ".")) = true →
  NormalizeHost h = ToLower (TrimSuffix h ".").
Proof.
  intros Hc. unfold NormalizeHost, NormalizeHostStrict. rewrite Hc. by case_if.
Qed.
End canonical.

(** ** Properties *)

(** The matcher as it was before the index rewrite: the suffix test builds
    ["." ++ pattern]. *)
Definition referenceMatchFQDNNorm (pattern host : string) : bool :=
  if (pattern =? "*")%string then true
  else if HasPrefix pattern "*." then
    HasSuffix host (sdrop 1 pattern) || (host =? sdrop 2 pattern)%string
  else (host =? pattern)%string || HasSuffix host ("." ++ pattern).

Lemma index_suffix_test (pattern host : string) :
  (let n := Z.of_nat (String.length host) - Z.of_nat (String.length pattern) in
   (0 <? n) && bool_decide (byte_at host (Z.to_nat (n - 1)) = Some "."%char) &&
   (sdrop (Z.to_nat n) host =? pattern)%string) = HasSuffix host ("." ++ pattern).
Proof.
  cbv zeta. apply eq_true_iff_eq. rewrite HasSuffix_spec, !andb_true_iff, Z.ltb_lt,
    bool_decide_eq_true, String.eqb_eq. split.
  - intros [[Hn Hdot] Hp].
    set (n := Z.to_nat (Z.of_nat (String.length host) - Z.of_nat (String.length pattern))) in *.
    exists (stake (n - 1) host).
    assert (∀ k s c, String.get k s = Some c → s = stake k s ++ String c (sdrop (S k) s)) as Hget.
    { clear. induction k; intros [|d s] c; simpl; try done.
      - by intros [= ->].
      - intros Hk. f_equal. by apply IHk. }
    unfold byte_at in Hdot. apply Hget in Hdot. rewrite <- Hp.
    replace (Z.to_nat (_ - 1)) with (n - 1)%nat in Hdot by lia.
    replace (S (n - 1)) with n in Hdot by lia. exact Hdot.
  - intros [t ->]. rewrite length_sapp. simpl.
    set (m := String.length pattern).
    replace (Z.to_nat (_ - _ - 1)) with (String.length t + 0)%nat by lia.
    replace (Z.to_nat _) with (String.length (t ++ ".")) by (rewrite length_sapp; simpl; lia).
    split; [split; [lia|]|].
    + unfold byte_at. by rewrite get_app_r.
    + change (String "." pattern) with ("." ++ pattern). rewrite <- sapp_assoc. apply sdrop_app.
Qed.

(** The allocation-free index form of [MatchFQDNNorm] decides exactly what the
    concatenating form decided, for every pattern and host, and that verdict is the
    documented one: ["*"] matches everything; a ["*.d"] pattern and a bare domain [d]
    match [d] itself and the hosts that end in ["." ++ d] - never a host that merely
    ends with the bytes of [d]. *)
Theorem MatchFQDNNorm_correct (pattern host : string) :
  MatchFQDNNorm pattern host = referenceMatchFQDNNorm pattern host ∧
  (MatchFQDNNorm pattern host = true ↔
     pattern = "*" ∨
     ∃ d, (pattern = "*." ++ d ∨ (pattern = d ∧ HasPrefix d "*." = false)) ∧
          (host = d ∨ ∃ sub, host = sub ++ "." ++ d)).
Proof.
  assert (MatchFQDNNorm pattern host = referenceMatchFQDNNorm pattern host) as Heq.
  { unfold MatchFQDNNorm, referenceMatchFQDNNorm. rewrite index_suffix_test.
    by destruct (pattern =? "*")%string, (host =? pattern)%string. }
  split; [done|]. rewrite Heq. unfold referenceMatchFQDNNorm.
  destruct (String.eqb_spec pattern "*") as [-> |Hstar]; [by split; [left|]|].
  destruct (HasPrefix pattern "*.") eqn:Hp.
  - apply HasPrefix_spec in Hp as [d ->].
    change (sdrop 1 ("*." ++ d)) with ("." ++ d). change (sdrop 2 ("*." ++ d)) with d.
    rewrite orb_true_iff, HasSuffix_spec, String.eqb_eq. split.
    + intros [[t ->]| ->]; right; exists d; eauto.
    + intros [?|(d'&[ [= ->] |[<- Hno]]&Hd)]; [done| |].
      * destruct Hd as [-> |[s ->]]; eauto.
      * by rewrite (proj2 (HasPrefix_spec _ _)) in Hno by eauto.
  - rewrite orb_true_iff, HasSuffix_spec, String.eqb_eq. split.
    + intros [-> |[t ->]]; right; exists pattern; (split; [by right|eauto]).
    + intros [?|(d'&[-> |[<- Hno]]&Hd)]; [done| |].
      * by rewrite (proj2 (HasPrefix_spec _ _)) in Hp by eauto.
      * destruct Hd as [-> |[s ->]]; eauto.
Qed.

Section normalization.
Context `{Unicode, Idna}.

(** [NormalizeHostStrict] with the already-canonical fast path removed. *)
Definition NormalizeHostStrict_reference (host0 : string) : option string :=
  let host := ToLower (TrimSuffix host0 ".") in
  if (host =? "")%string then Some host else normalize_slow host.

(** The fast path of [NormalizeHostStrict] never changes a verdict: for every
    host the result equals the body without the fast path, given the documented
    behaviour of [idna.ToASCII] (identity on pure-ASCII hosts without an ACE label). *)
Theorem NormalizeHostStrict_fast_path
    (idna_identity : ∀ h, isCanonicalASCIIHost h = true → idna_ToASCII h = Some h)
    (host : string) :
  NormalizeHostStrict host = NormalizeHostStrict_reference host.
Proof.
  unfold NormalizeHostStrict, NormalizeHostStrict_reference.
  set (h := TrimSuffix host "."). case_if; [done|].
  destruct (isCanonicalASCIIHost (ToLower h)) eqn:Hc; [|done].
  unfold normalize_slow. case_if; [done|].
  rewrite idna_identity by done. simpl. symmetry. f_equal. apply ToLower_fix.
  by eapply canonical_loop_ascii.
Qed.

(** On an ASCII host without ACE labels [NormalizeHost] is idempotent exactly when
    the host does not end in two dots: one pass strips one trailing dot, so a host
    ending in [".."] normalises to a host ending in ["."], which normalises further. *)
Theorem NormalizeHost_idempotent_iff (h : string)
    (Hc : isCanonicalASCIIHost (ToLower (TrimSuffix h ".")) = true)
    (Ha : is_ascii h = true) :
  NormalizeHost (NormalizeHost h) = NormalizeHost h ↔ HasSuffix h ".." = false.
Proof.
  rewrite (NormalizeHost_canonical h) by done. set (l := ToLower (TrimSuffix h ".")) in *.
  assert (is_ascii (TrimSuffix h ".") = true) as Hta.
  { destruct (TrimSuffix_dot h) as [[_ E]|[_ ->]]; [|done].
    rewrite E, is_ascii_app in Ha. by apply andb_true_iff in Ha as [? _]. }
  assert (HasSuffix l "." = HasSuffix h "..") as Hdd.
  { unfold l. rewrite ToLower_ascii, lower_dot_suffix by done.
    destruct (TrimSuffix_dot h) as [[_ E]|[E ->]]; apply eq_true_iff_eq.
    - rewrite E at 2. rewrite !HasSuffix_spec. split; intros [t Ht]; exists t.
      + by rewrite Ht, sapp_assoc.
      + change ".." with ("." ++ ".") in Ht. rewrite <- sapp_assoc in Ht.
        apply sapp_inj_len in Ht as [-> _]; [done|].
        apply (f_equal String.length) in Ht. rewrite !length_sapp in *. simpl in *. lia.
    - rewrite E. split; [done|]. rewrite HasSuffix_spec. intros [t ->].
      enough (HasSuffix (t ++ "..") "." = true) by congruence.
      apply HasSuffix_spec. exists (t ++ "."). by rewrite sapp_assoc. }
  rewrite <- Hdd. assert (ToLower l = l) as Hfix
    by (apply ToLower_fix; by eapply canonical_loop_ascii).
  destruct (TrimSuffix_dot l) as [[Hs E]|[Hs E]]; rewrite Hs.
  - split; [|done]. intros Hbad. exfalso.
    assert (isCanonicalASCIIHost (TrimSuffix l ".") = true) as Hc'.
    { eapply canonical_loop_prefix. rewrite <- E. exact Hc. }
    assert (ToLower (TrimSuffix l ".") = TrimSuffix l ".") as Hl.
    { rewrite E, ToLower_ascii, smap_app in Hfix
        by (rewrite <- E; by eapply canonical_loop_ascii).
      apply sapp_inj_len in Hfix as [Hfix _].
      - rewrite ToLower_ascii by (by eapply canonical_loop_ascii). exact Hfix.
      - clear. induction (TrimSuffix l "."); simpl; congruence. }
    rewrite NormalizeHost_canonical, Hl in Hbad by (by rewrite Hl).
    rewrite <- Hbad in E at 1. apply (f_equal String.length) in E.
    rewrite length_sapp in E. simpl in E. lia.
  - split; [done|]. intros _. rewrite NormalizeHost_canonical; rewrite E, Hfix; done.
Qed.
End normalization.

Lemma NormalizeHostStrict_fast_path_witness :
  let I : Idna := (λ h, if isCanonicalASCIIHost h then Some h else None) in
  (∀ h, isCanonicalASCIIHost h = true → @idna_ToASCII I h = Some h) ∧
  @NormalizeHostStrict ascii_unicode I "WWW.Example.com." =
  @NormalizeHostStrict_reference ascii_unicode I "WWW.Example.com.".
Proof.
  intros I. assert (∀ h, isCanonicalASCIIHost h = true → @idna_ToASCII I h = Some h) as HI.
  { intros h E. unfold idna_ToASCII, I. by rewrite E. }
  split; [exact HI|].
  exact (@NormalizeHostStrict_fast_path ascii_unicode I HI "WWW.Example.com.").
Defined.

Lemma NormalizeHost_idempotent_iff_witness :
  let I : Idna := Some in
  let N := @NormalizeHost ascii_unicode I in
  isCanonicalASCIIHost (@ToLower ascii_unicode (TrimSuffix "evil.com.." ".")) = true ∧
  is_ascii "evil.com.." = true ∧
  (N (N "evil.com..") = N "evil.com.." ↔ HasSuffix "evil.com.." ".." = false).
Proof.
  intros I N. split; [vm_compute; reflexivity|]. split; [vm_compute; reflexivity|].
  apply (@NormalizeHost_idempotent_iff ascii_unicode I "evil.com.."); vm_compute; reflexivity.
Defined.

Lemma drop_while_id {A} (p : A → bool) l :
  (∀ x, head l = Some x → p x = false) → drop_while p l = l.
Proof. destruct l as [|x l]; simpl; [done|]. intros Hx. by rewrite Hx. Qed.

Lemma trim_both_id {A} (p : A → bool) l :
  (∀ x, head l = Some x → p x = false) → (∀ x, last l = Some x → p x = false) →
  reverse (drop_while p (reverse (drop_while p l))) = l.
Proof.
  intros Hh Hl. rewrite (drop_while_id p l) by done.
  rewrite drop_while_id; [apply reverse_involutive|]. by rewrite head_reverse.
Qed.

(** The portless fast path of [StripHostPort] is the identity the full body
    computes: for every host the result equals splitting off the port and trimming
    brackets. *)
Theorem StripHostPort_fast_path (host : string) :
  StripHostPort host = TrimBrackets (default host (SplitHostPort_host host)).
Proof.
  unfold StripHostPort. destruct (hasHostPortSyntax host) eqn:E; [done|]. simpl.
  assert (SplitHostPort_host host = None ∧ TrimBrackets host = host) as [-> Htrim]; [|symmetry; exact Htrim].
  destruct host as [|c h]; [done|]. unfold hasHostPortSyntax in E.
  destruct (last (list_ascii_of_string (String c h))) as [d|] eqn:El; [|by apply last_None in El].
  change (head _) with (Some c) in E. apply orb_false_iff in E as [[Hcol Hc]%orb_false_iff Hd].
  split.
  - assert (∀ s i b, ContainsByte s ":"%char = false → last_colon s i b = b) as Hlc.
    { clear. unfold ContainsByte. induction s as [|d s IH]; intros i b; simpl; [done|].
      destruct (Ascii.eqb d ":"%char); [done|]. destruct (IndexByte s ":"%char); [done|].
      intros _. by apply IH. }
    unfold SplitHostPort_host. by rewrite Hlc.
  - unfold TrimBrackets. rewrite trim_both_id; [apply string_of_list_ascii_of_string|..];
      intros x; [by intros [= <-]|rewrite El; by intros [= <-]].
Qed.
