(* ===== verification/IPPrefix.v ===== *)
(** * From [net.IPNet] to [netip.Prefix] ([security.go], [prefixFromIPNet])

    The policy engine and the IP filter precompute the [netip.Prefix] of a parsed
    CIDR and test membership on it instead of on the [net.IPNet].  The theorem says
    the two containment tests agree on every address, 4-in-6 forms included. *)

From S2P Require Import Prelude GoStrings GoNet.

(** [prefixFromIPNet]; [None] is its [ok = false], the invalid [Prefix]. *)
Definition prefixFromIPNet (on : option IPNet) : option Prefix :=
  n ← on;
  let '(ones, bits) := mask_Size (net_Mask n) in
  if bits =? 0 then None else
  match To4 (net_IP n) with
  | Some v4 =>
      let '(ones, bits) := if bits =? 128 then (ones - 96, 32) else (ones, bits) in
      if (ones <? 0) || negb (bits =? 32) then None else
      let addr := AddrFromSlice (IP4 v4) in
      if negb (BitLen addr =? bits) then None else Some (Masked (mkPrefix addr ones))
  | None =>
      let addr := AddrFromSlice (net_IP n) in
      if negb (BitLen addr =? bits) then None else Some (Masked (mkPrefix addr ones))
  end.

Lemma is4in6_map v : 0 ≤ v < 2 ^ 32 → is4in6 (v4InV6 + v) = true ∧ (v4InV6 + v) mod 2 ^ 32 = v.
Proof.
  intros Hv. unfold is4in6, v4InV6. rewrite Z.shiftr_div_pow2, Z.shiftl_mul_pow2 by lia. split.
  - rewrite Z.add_comm, Z.div_add by lia. rewrite Z.div_small by lia. done.
  - rewrite Z.add_comm, Z.mod_add by lia. by apply Z.mod_small.
Qed.

(** What [net.IPNet.Contains] compares for an address in either form. *)
Lemma contains_probe n a :
  Addr_wf a →
  IPNet_Contains n (As16 a) =
    match networkNumberAndMask n with
    | Some (w, nn, m) =>
        match Unmap a with
        | Addr4 y => (32 =? w) && (Z.land nn m =? Z.land y m)
        | Addr6 y _ => (128 =? w) && (Z.land nn m =? Z.land y m)
        end
    | None => false
    end ∧
  IPNet_Contains n (AsSlice (Unmap a)) = IPNet_Contains n (As16 a).
Proof.
  intros Hwf. unfold IPNet_Contains. destruct (networkNumberAndMask n) as [[[w nn] m]|]; [|done].
  destruct a as [v|v z]; cbn [Unmap As16 AsSlice To4].
  - destruct (is4in6_map v Hwf) as [-> ->]. done.
  - destruct (is4in6 v) eqn:E; cbn [AsSlice To4]; [done|]. by rewrite E.
Qed.

Lemma To4_range ip v : IP_wf ip → To4 ip = Some v → 0 ≤ v < 2 ^ 32.
Proof.
  destruct ip as [v'|v']; cbn [To4]; [by intros ? [= <-]|]. intros _. case_if; [|done]. intros [= <-].
  apply Z.mod_pos_bound. lia.
Qed.

Lemma land_range x m w : 0 ≤ x < 2 ^ w → 0 ≤ w → 0 ≤ Z.land x m < 2 ^ w.
Proof.
  intros Hx Hw. split; [apply Z.land_nonneg; lia|].
  apply Z.nle_gt. intros Hle. assert (∃ i, w ≤ i ∧ Z.testbit (Z.land x m) i = true) as (i&Hi&Ht).
  { exists (Z.log2 (Z.land x m)). pose proof (Z.pow_pos_nonneg 2 w ltac:(lia) Hw). split.
    - apply Z.log2_le_pow2; lia.
    - apply Z.bit_log2. lia. }
  rewrite Z.land_spec, (testbit_width w x i Hx Hi) in Ht. done.
Qed.

Lemma masked_test4 ones v y :
  0 ≤ ones ≤ 32 → 0 ≤ v < 2 ^ 32 → 0 ≤ y < 2 ^ 32 →
  (Z.shiftr (Z.lxor y (Z.land v (mask_val (CIDRMask ones 32)))) (32 - ones) =? 0) =
  (Z.land v (mask_val (CIDRMask ones 32)) =? Z.land y (mask_val (CIDRMask ones 32))).
Proof.
  intros Ho Hv Hy. rewrite <- mask_eq_shiftr; [|done|by apply land_range|done].
  by rewrite <- Z.land_assoc, Z.land_diag.
Qed.

Lemma Unmap_wf a : Addr_wf a → Addr_wf (Unmap a).
Proof. destruct a as [v|v z]; cbn [Unmap]; [done|]. case_if; [|done]. intros _. apply Z.mod_pos_bound. lia. Qed.

Lemma Unmap_zone a : Zone a = "" → Zone (Unmap a) = "".
Proof. destruct a as [v|v z]; cbn [Unmap]; [done|]. by case_if. Qed.

(** A [net.IPNet] as [net] builds it: 4- or 16-byte address, 32- or 128-bit mask. *)
Definition IPNet_wf (n : IPNet) : Prop :=
  IP_wf (net_IP n) ∧ (mask_bits (net_Mask n) = 32 ∨ mask_bits (net_Mask n) = 128).

(** The two containment tests agree, and so do the two forms of the probed address. *)
Lemma prefix_contains_agree (n : IPNet) (p : Prefix) (a : Addr)
    (Hn : IPNet_wf n) (Hp : prefixFromIPNet (Some n) = Some p)
    (Ha : Addr_wf a) (Hz : Zone a = "") :
  Prefix_Contains p (Unmap a) = IPNet_Contains n (As16 a) ∧
  IPNet_Contains n (AsSlice (Unmap a)) = IPNet_Contains n (As16 a).
Proof.
  destruct (contains_probe n a Ha) as [-> Hslice]. split; [|done].
  apply Unmap_wf in Ha. apply Unmap_zone in Hz. revert Ha Hz. clear Hslice. generalize (Unmap a). clear a.
  intros a Ha Hz. unfold Prefix_Contains. rewrite Hz. cbn [negb String.eqb].
  unfold prefixFromIPNet in Hp. cbn [mbind option_bind] in Hp.
  destruct (mask_Size (net_Mask n)) as [ones bits] eqn:Es.
  destruct (Z.eqb_spec bits 0) as [|Hb]; [done|].
  destruct Hn as [Hn Hw].
  assert (0 < bits) as Hpos.
  { unfold mask_Size in Es. destruct (find _ _) as [k|]; [|by injection Es as <- <-]. injection Es as _ <-. lia. }
  apply mask_Size_inv in Es as [Em Ho]; [|done].
  unfold networkNumberAndMask. rewrite Em. change (mask_bits (CIDRMask ones bits)) with bits.
  destruct (To4 (net_IP n)) as [v|] eqn:E4.
  - pose proof (To4_range _ _ Hn E4) as Hv. destruct (Z.eqb_spec bits 128) as [->|Hb128].
    + destruct (Z.ltb_spec (ones - 96) 0); [done|]. cbn in Hp. injection Hp as <-.
      change (128 =? 32) with false. cbn [Masked prefix_addr prefix_bits].
      rewrite CIDRMask_low by lia. destruct a as [y|y z]; [|done]. change (32 =? 32) with true. cbn [andb].
      apply masked_test4; [lia|done|done].
    + destruct (Z.ltb_spec ones 0); [done|]. destruct (Z.eqb_spec bits 32) as [->|]; [|done].
      cbn in Hp. injection Hp as <-. cbn [Masked prefix_addr prefix_bits].
      destruct a as [y|y z]; [|done]. change (32 =? 32) with true. cbn [andb]. by apply masked_test4.
  - destruct (net_IP n) as [v|v] eqn:Ei; [done|]. cbn [AddrFromSlice BitLen] in Hp.
    destruct (Z.eqb_spec 128 bits) as [<-|]; [|done]. injection Hp as <-. cbn [Masked prefix_addr prefix_bits].
    change (128 =? 128) with true. destruct a as [y|y z]; [done|]. cbn [andb].
    rewrite mask_lxor_eq. by rewrite <- Z.land_assoc, Z.land_diag.
Qed.

(** A mask shorter than 96 bits clears bit 32, which is set in a 4-in-6 address. *)
Lemma masked_4in6 ones v : 0 ≤ ones ≤ 128 → is4in6 (Z.land v (mask_val (CIDRMask ones 128))) = true → 96 ≤ ones.
Proof.
  intros Ho E%Z.eqb_eq. apply Z.nlt_ge. intros Hlt. apply (f_equal (λ z, Z.testbit z 0)) in E.
  rewrite Z.shiftr_spec, Z.land_spec, mask_testbit in E by lia. change (Z.testbit 65535 0) with true in E.
  change (0 + 32) with 32 in E. rewrite (proj2 (Z.leb_gt (128 - ones) 32)) in E by lia. by rewrite andb_false_r in E.
Qed.

(** Every network [ParseCIDR] returns converts. *)
Lemma prefixFromIPNet_cidr n : IPNet_cidr n → is_Some (prefixFromIPNet (Some n)) ∧ IPNet_wf n.
Proof.
  intros (a&ones&Ha&Ho&->). unfold prefixFromIPNet. cbn [mbind option_bind net_Mask net_IP].
  rewrite mask_Size_CIDRMask by done. destruct a as [v|v z]; cbn [BitLen] in *; cbn [Addr_wf] in Ha.
  - change (32 =? 0) with false. change (32 =? 128) with false. cbn [To4].
    rewrite (proj2 (Z.ltb_ge ones 0)) by lia. cbn. split; [by eexists|].
    split; [by apply land_range|by left].
  - change (128 =? 0) with false. change (128 =? 128) with true.
    assert (IPNet_wf (mkIPNet (IP16 (Z.land v (mask_val (CIDRMask ones 128)))) (CIDRMask ones 128))) as Hwf
      by (split; [by apply land_range|by right]).
    destruct (To4 _) as [v4|] eqn:E4; [|split; [by eexists|done]].
    destruct (Z.ltb_spec (ones - 96) 0) as [Hlt|]; [|split; [by eexists|done]].
    exfalso. cbn [To4] in E4. pose proof (masked_4in6 ones v). destruct (is4in6 _); [|done]. specialize (H Ho eq_refl). lia.
Qed.

(** Every network a CIDR string denotes has a prefix form, and the prefix contains
    exactly the addresses the network contains: for every address string, probing the
    [netip.Prefix] with the unmapped address, probing the [net.IPNet] with its slice, and
    probing it with the 16-byte form [net.ParseIP] yields agree. *)
Theorem prefixFromIPNet_contains (cidr client : string) (n : IPNet) (a : Addr)
    (Hn : ParseCIDR cidr = Some n) (Ha : ParseAddr client = Some a) (Hz : Zone a = "") :
  ∃ p, prefixFromIPNet (Some n) = Some p ∧
    Prefix_Contains p (Unmap a) = IPNet_Contains n (As16 a) ∧
    IPNet_Contains n (AsSlice (Unmap a)) = IPNet_Contains n (As16 a).
Proof.
  apply ParseCIDR_cidr, prefixFromIPNet_cidr in Hn as [[p Hp] Hwf]. apply ParseAddr_wf in Ha.
  exists p. split; [done|]. by apply prefix_contains_agree.
Qed.

Lemma prefixFromIPNet_contains_witness :
  ∃ n p, ParseCIDR "::ffff:10.0.0.0/104" = Some n ∧ prefixFromIPNet (Some n) = Some p ∧
    IPNet_Contains n (As16 (Addr4 167838211)) = true ∧
    Prefix_Contains p (Unmap (Addr4 167838211)) = IPNet_Contains n (As16 (Addr4 167838211)).
Proof.
  set (n := mkIPNet (IP16 (v4InV6 + 167772160)) (CIDRMask 104 128)).
  destruct (prefixFromIPNet_contains "::ffff:10.0.0.0/104" "10.1.2.3" n (Addr4 167838211)) as (p&Hp&Hc&_);
    [vm_compute; reflexivity..|].
  exists n, p. split; [vm_compute; reflexivity|]. split; [exact Hp|]. split; [vm_compute; reflexivity|exact Hc].
Defined.
