(* ===== verification/GoIPText.v ===== *)
(** * Printing addresses ([net.IP.String], [net.IPNet.String])

    The IP filter and the rate limiter key their exact entries by the text of an address and
    export networks as text.  The printers of [net] are modelled here, with what the
    components rely on: a printed address or network parses back to itself.

    - [ParseAddr_String]: an address, up to its 4-in-6 form.
    - [ParseCIDR_String]: a network, up to the width it is stored at. *)

From S2P Require Import Prelude GoStrings GoNet IPPrefix.

(** ** Printers *)

(** [appendDecimal] on a byte and [appendHex] on 16 bits. *)
Definition dec_byte (x : Z) : string :=
  let ones := String (nibble (x mod 10)) "" in
  let tens := String (nibble (x / 10 mod 10)) ones in
  if x <? 10 then ones else if x <? 100 then tens else String (nibble (x / 100)) tens.
Definition hex_group (x : Z) : string :=
  let d0 := String (nibble (x mod 16)) "" in
  let d1 := String (nibble (x / 16 mod 16)) d0 in
  let d2 := String (nibble (x / 256 mod 16)) d1 in
  if x <? 16 then d0 else if x <? 256 then d1 else if x <? 4096 then d2 else String (nibble (x / 4096)) d2.

Definition v4_String (v : Z) : string :=
  (dec_byte (v / 2 ^ 24) ++ String "." (dec_byte (v / 2 ^ 16 mod 256) ++ String "."
    (dec_byte (v / 2 ^ 8 mod 256) ++ String "." (dec_byte (v mod 256)))))%string.

(** The 16-bit groups, most significant first. *)
Fixpoint groups_of (n : nat) (v : Z) (acc : list Z) : list Z :=
  match n with O => acc | S n => groups_of n (v / 65536) (v mod 65536 :: acc) end.

(** The first longest run of at least two zero groups. *)
Fixpoint zeros (gs : list Z) : nat := match gs with g :: gs => if g =? 0 then S (zeros gs) else 0 | [] => 0 end.
Fixpoint best_run (i : nat) (gs : list Z) (best : option (nat * nat)) : option (nat * nat) :=
  match gs with
  | [] => best
  | _ :: gs' =>
      let l := zeros gs in
      let cur := match best with Some (s, e) => (e - s)%nat | None => 0%nat end in
      best_run (S i) gs' (if (2 <=? l)%nat && (cur <? l)%nat then Some (i, i + l)%nat else best)
  end.
Fixpoint join_hex (gs : list Z) : string :=
  match gs with
  | [] => ""
  | g :: gs => (hex_group g ++ match gs with [] => "" | _ => String ":" (join_hex gs) end)%string
  end.
Definition v6_String (v : Z) : string :=
  let gs := groups_of 8 v [] in
  match best_run 0 gs None with
  | None => join_hex gs
  | Some (s, e) => (join_hex (take s gs) ++ String ":" (String ":" (join_hex (drop e gs))))%string
  end.

(** [net.IP.String]. *)
Definition IP_String (ip : IP) : string :=
  match To4 ip with
  | Some v => v4_String v
  | None => match ip with IP4 v => v4_String v | IP16 v => v6_String v end
  end.

(** [net.IPMask.String] of a mask of [w] bits, and [net.IPNet.String]. *)
Fixpoint hex_digits (n : nat) (v : Z) (acc : string) : string :=
  match n with O => acc | S n => hex_digits n (v / 16) (String (nibble (v mod 16)) acc) end.
Definition IPNet_String (n : IPNet) : string :=
  match networkNumberAndMask n with
  | None => "<nil>"
  | Some (w, nn, m) =>
      let addr := IP_String (if w =? 32 then IP4 nn else IP16 nn) in
      let '(ones, bits) := mask_Size (mkMask w m) in
      (addr ++ String "/" (if (bits =? 0)%Z then hex_digits (Z.to_nat (w / 4)%Z) m "" else dec_byte ones))%string
  end.

Example print_v6 : map (λ s, IP_String <$> ParseIP s)
  ["2001:DB8:0:0:1:0:0:1"; "::"; "1:0:0:0:0:0:0:0"; "0:0:0:1:0:0:0:0"; "::ffff:10.0.0.1"; "1:2:3:4:5:6:0:8"; "255.10.100.0"]
  = [Some "2001:db8::1:0:0:1"; Some "::"; Some "1::"; Some "0:0:0:1::"; Some "10.0.0.1"; Some "1:2:3:4:5:6:0:8"; Some "255.10.100.0"].
Proof. vm_compute. reflexivity. Qed.
Example print_net : map (λ s, IPNet_String <$> ParseCIDR s)
  ["10.1.2.3/8"; "::ffff:10.0.0.0/104"; "2001:db8::1/32"; "::/0"; "0.0.0.0/0"]
  = [Some "10.0.0.0/8"; Some "10.0.0.0/8"; Some "2001:db8::/32"; Some "::/0"; Some "0.0.0.0/0"].
Proof. vm_compute. reflexivity. Qed.

(** ** Digits *)

Lemma digit_cases (P : Z → Prop) z :
  0 ≤ z < 16 → P 0 → P 1 → P 2 → P 3 → P 4 → P 5 → P 6 → P 7 → P 8 → P 9 → P 10 → P 11 → P 12 → P 13 → P 14 → P 15 → P z.
Proof.
  intros Hz. intros. assert (z = 0 ∨ z = 1 ∨ z = 2 ∨ z = 3 ∨ z = 4 ∨ z = 5 ∨ z = 6 ∨ z = 7 ∨ z = 8 ∨ z = 9 ∨ z = 10 ∨
    z = 11 ∨ z = 12 ∨ z = 13 ∨ z = 14 ∨ z = 15) as Hc by lia. destruct_or! Hc; by subst z.
Qed.
Lemma hex_digit_nibble z : 0 ≤ z < 16 → hex_digit (nibble z) = Some z.
Proof. intros Hz. pattern z. by apply digit_cases. Qed.
Lemma dec_digit_nibble z : 0 ≤ z < 10 → dec_digit (nibble z) = Some z.
Proof.
  intros Hz. cut (z < 10 → dec_digit (nibble z) = Some z); [intros Hd; apply Hd; lia|].
  pattern z. apply digit_cases; [lia|..]; intros ?; done || lia.
Qed.
(** The characters an address text is made of. *)
Definition addr_digit (c : ascii) : bool := bool_decide (is_Some (hex_digit c)).
Lemma addr_digit_nibble z : 0 ≤ z < 16 → addr_digit (nibble z) = true.
Proof. intros Hz. unfold addr_digit. rewrite hex_digit_nibble by done. done. Qed.

(** ** IPv4 text *)

Lemma parse_fields_dec x t pos acc :
  0 ≤ x < 256 → ∃ k, (0 < k)%nat ∧ parse_fields (dec_byte x ++ t) pos 0 0 acc = parse_fields t pos x k acc.
Proof.
  intros Hx. unfold dec_byte. destruct (Z.ltb_spec x 10) as [Hs|Hs].
  - exists 1%nat. split; [lia|]. cbn [String.append parse_fields]. rewrite dec_digit_nibble by (apply Z.mod_pos_bound; lia).
    cbn [Nat.eqb andb orb]. rewrite Z.mod_small by lia. destruct (Z.ltb_spec 255 (0 * 10 + x)); [lia|]. done.
  - assert (0 ≤ x mod 10 < 10) by (apply Z.mod_pos_bound; lia). assert (0 ≤ x / 10 mod 10 < 10) by (apply Z.mod_pos_bound; lia).
    destruct (Z.ltb_spec x 100) as [Ht|Ht].
    + exists 2%nat. split; [lia|]. cbn [String.append parse_fields]. rewrite !dec_digit_nibble by done. cbn [Nat.eqb andb orb].
      assert (x / 10 mod 10 = x / 10) as -> by (apply Z.mod_small; split; [apply Z.div_pos; lia|apply Z.div_lt_upper_bound; lia]).
      assert (x = 10 * (x / 10) + x mod 10) as Ex by (apply Z.div_mod; lia).
      destruct (Z.ltb_spec 255 (0 * 10 + x / 10)); [lia|]. destruct (Z.eqb_spec (0 * 10 + x / 10) 0); [lia|].
      cbn [orb]. replace ((0 * 10 + x / 10) * 10 + x mod 10) with x by lia. destruct (Z.ltb_spec 255 x); [lia|]. done.
    + exists 3%nat. split; [lia|]. assert (1 ≤ x / 100 < 10) as H100.
      { split; [apply Z.div_le_lower_bound; lia|apply Z.div_lt_upper_bound; lia]. }
      cbn [String.append parse_fields]. rewrite !dec_digit_nibble by (done || lia). cbn [Nat.eqb andb orb].
      assert (x / 10 / 10 = x / 100) as Ed by (by rewrite Z.div_div by lia).
      assert (x / 10 = 10 * (x / 100) + x / 10 mod 10) as Ex by (rewrite <- Ed; apply Z.div_mod; lia).
      assert (x = 10 * (x / 10) + x mod 10) as Ey by (apply Z.div_mod; lia).
      destruct (Z.ltb_spec 255 (0 * 10 + x / 100)); [lia|]. destruct (Z.eqb_spec (0 * 10 + x / 100) 0); [lia|]. cbn [orb].
      replace ((0 * 10 + x / 100) * 10 + x / 10 mod 10) with (x / 10) by lia.
      destruct (Z.ltb_spec 255 (x / 10)); [lia|]. replace (x / 10 * 10 + x mod 10) with x by lia.
      destruct (Z.ltb_spec 255 x); [lia|]. done.
Qed.

Lemma parse_fields_dot x t pos acc :
  0 ≤ x < 256 → (pos < 3)%nat → parse_fields (dec_byte x ++ String "." t) pos 0 0 acc = parse_fields t (S pos) 0 0 (acc * 256 + x).
Proof.
  intros Hx Hp. destruct (parse_fields_dec x (String "." t) pos acc Hx) as (k&Hk&->). cbn [parse_fields].
  change (dec_digit ".") with (@None Z). cbn [Ascii.eqb Bool.eqb negb orb].
  destruct (Nat.eqb_spec k 0); [lia|]. destruct (Nat.eqb_spec pos 3); [lia|]. done.
Qed.

Lemma parseIPv4_String v : 0 ≤ v < 2 ^ 32 → parseIPv4 (v4_String v) = Some v.
Proof.
  intros Hv. assert (∀ k, 0 ≤ v / 2 ^ k mod 256 < 256) as Hm by (intros; apply Z.mod_pos_bound; lia).
  assert (0 ≤ v / 2 ^ 24 < 256) as Ha by (split; [apply Z.div_pos; lia|apply Z.div_lt_upper_bound; lia]).
  unfold parseIPv4, v4_String. rewrite !parse_fields_dot by (done || lia).
  destruct (parse_fields_dec (v mod 256) "" 3 ((((0 * 256 + v / 2 ^ 24) * 256 + v / 2 ^ 16 mod 256) * 256 + v / 2 ^ 8 mod 256)))
    as (k&Hk&E); [apply Z.mod_pos_bound; lia|].
  rewrite sapp_nil_r in E. rewrite E. cbn [parse_fields]. destruct (Nat.eqb_spec k 0); [lia|]. cbn [Nat.eqb negb orb].
  f_equal. pose proof (Z.div_mod v (2 ^ 8) ltac:(lia)). pose proof (Z.div_mod (v / 2 ^ 8) (2 ^ 8) ltac:(lia)).
  pose proof (Z.div_mod (v / 2 ^ 16) (2 ^ 8) ltac:(lia)).
  rewrite Z.div_div in * by lia. change (2 ^ 8 * 2 ^ 8) with (2 ^ 16) in *. change (2 ^ 16 * 2 ^ 8) with (2 ^ 24) in *.
  change (2 ^ 8) with 256 in *. lia.
Qed.

(** ** IPv6 text *)

Lemma parse_group_stop s off acc : (∀ c t, s = String c t → hex_digit c = None) → parse_group s off acc = Some (acc, off, s).
Proof. destruct s as [|c s]; [done|]. intros Hs. cbn. by rewrite (Hs c s). Qed.

Lemma parse_group_hex x t :
  group_ok x → (∀ c u, t = String c u → hex_digit c = None) →
  ∃ k, (0 < k)%nat ∧ parse_group (hex_group x ++ t) 0 0 = Some (x, k, t).
Proof.
  intros Hx Ht. unfold group_ok in Hx. assert (∀ y, 0 ≤ y mod 16 < 16) as Hm by (intros; apply Z.mod_pos_bound; lia).
  assert (x = 16 * (x / 16) + x mod 16) as E0 by (apply Z.div_mod; lia).
  assert (x / 16 = 16 * (x / 256) + x / 16 mod 16) as E1.
  { replace (x / 256) with (x / 16 / 16) by (by rewrite Z.div_div by lia). apply Z.div_mod. lia. }
  assert (x / 256 = 16 * (x / 4096) + x / 256 mod 16) as E2.
  { replace (x / 4096) with (x / 256 / 16) by (by rewrite Z.div_div by lia). apply Z.div_mod. lia. }
  assert (0 ≤ x / 4096 < 16) as Hh by (split; [apply Z.div_pos; lia|apply Z.div_lt_upper_bound; lia]).
  unfold hex_group. pose proof (Hm x). pose proof (Hm (x / 16)). pose proof (Hm (x / 256)).
  repeat match goal with |- context [if ?a <? ?b then _ else _] => destruct (Z.ltb_spec a b) end;
    [exists 1%nat|exists 2%nat|exists 3%nat|exists 4%nat]; (split; [lia|]);
    cbn [String.append parse_group]; rewrite !hex_digit_nibble by done; cbn [Nat.ltb Nat.leb];
    rewrite parse_group_stop by done; do 3 f_equal; lia.
Qed.

Lemma join_hex_cons g gs : gs ≠ [] → join_hex (g :: gs) = (hex_group g ++ String ":" (join_hex gs))%string.
Proof. by destruct gs. Qed.

Lemma hex_group_head x : group_ok x → ∃ c t, hex_group x = String c t ∧ Ascii.eqb c ":"%char = false ∧ Ascii.eqb c "."%char = false.
Proof.
  intros Hx. unfold group_ok in Hx.
  assert (∀ d, 0 ≤ d < 16 → Ascii.eqb (nibble d) ":"%char = false ∧ Ascii.eqb (nibble d) "."%char = false) as Hn.
  { intros d Hd. pattern d. by apply digit_cases. }
  assert (∀ y, 0 ≤ y mod 16 < 16) as Hm by (intros; apply Z.mod_pos_bound; lia).
  assert (0 ≤ x / 4096 < 16) as Hh by (split; [apply Z.div_pos; lia|apply Z.div_lt_upper_bound; lia]).
  unfold hex_group. repeat case_match; eexists _, _; (split; [reflexivity|]); by apply Hn.
Qed.
Lemma join_hex_head gs : Forall group_ok gs → gs ≠ [] → ∃ c t, join_hex gs = String c t ∧ Ascii.eqb c ":"%char = false.
Proof.
  intros Hgs Hne. destruct gs as [|g gs]; [done|]. apply Forall_cons in Hgs as [Hg _].
  destruct (hex_group_head g Hg) as (c&t&Eh&Hc&_). cbn [join_hex]. rewrite Eh. cbn [String.append]. by eexists _, _.
Qed.

Definition then_groups (fuel : nat) (rest : string) (gs : list Z) (ell : option nat) : option (list Z * option nat * string) :=
  match rest with
  | EmptyString => Some (gs, ell, "")
  | String _ (String _ rest2) =>
      match ell with
      | Some _ => None
      | None => if (rest2 =? "")%string then Some (gs, Some (length gs), "") else parse_groups fuel rest2 gs (Some (length gs))
      end
  | _ => None
  end.
Lemma parse_groups_end g fuel acc ell :
  group_ok g → (length acc < 8)%nat → parse_groups (S fuel) (hex_group g) acc ell = Some (g :: acc, ell, "").
Proof.
  intros Hg Hlen. destruct (parse_group_hex g "" Hg) as (k&Hk&Eg); [done|]. rewrite sapp_nil_r in Eg. cbn [parse_groups].
  destruct (Nat.leb_spec 8 (length acc)); [lia|]. rewrite Eg. cbn [mbind option_bind]. by destruct (Nat.eqb_spec k 0); [lia|].
Qed.
Lemma parse_groups_colon g c u fuel acc ell :
  group_ok g → (length acc < 8)%nat →
  parse_groups (S fuel) (hex_group g ++ String ":" (String c u)) acc ell =
    if Ascii.eqb c ":"%char then then_groups fuel (String ":" (String c u)) (g :: acc) ell
    else parse_groups fuel (String c u) (g :: acc) ell.
Proof.
  intros Hg Hlen. destruct (parse_group_hex g (String ":" (String c u)) Hg) as (k&Hk&Eg); [by intros ? ? [= <- _]|].
  cbn [parse_groups]. destruct (Nat.leb_spec 8 (length acc)); [lia|]. rewrite Eg. cbn [mbind option_bind].
  by destruct (Nat.eqb_spec k 0); [lia|].
Qed.

(** Reading printed groups, to the end or to an ellipsis. *)
Lemma parse_groups_join gs fuel acc ell rest :
  Forall group_ok gs → gs ≠ [] → (length acc + length gs ≤ 8)%nat → (length gs ≤ fuel)%nat →
  rest = "" ∨ (∃ r, rest = String ":" (String ":" r)) →
  parse_groups fuel (join_hex gs ++ rest) acc ell = then_groups (fuel - length gs) rest (reverse gs ++ acc) ell.
Proof.
  intros Hgs Hne Hlen Hfuel Hrest. revert fuel acc Hlen Hfuel.
  induction gs as [|g gs IH]; intros fuel acc Hlen Hfuel; [done|]. clear Hne.
  apply Forall_cons in Hgs as [Hg Hgs]. cbn [length] in *. destruct fuel as [|fuel]; [lia|].
  assert (reverse (g :: gs) ++ acc = reverse gs ++ (g :: acc))%list as -> by (by rewrite reverse_cons, <- app_assoc).
  destruct gs as [|g2 gs].
  - cbn [join_hex length]. rewrite sapp_nil_r. replace (S fuel - 1)%nat with fuel by lia. destruct Hrest as [->|[r ->]].
    + rewrite sapp_nil_r. by apply parse_groups_end; [|lia].
    + rewrite parse_groups_colon by (done || lia). done.
  - destruct (join_hex_head (g2 :: gs) Hgs ltac:(done)) as (c&t&Eh&Hc).
    rewrite join_hex_cons by done. rewrite sapp_assoc. cbn [String.append]. specialize (IH Hgs ltac:(done) fuel (g :: acc)).
    rewrite Eh in IH |- *. cbn [String.append] in *. rewrite parse_groups_colon by (done || lia). rewrite Hc.
    rewrite IH by (cbn [length] in *; lia). done.
Qed.

(** What [parseIPv6] does with the groups it read. *)
Definition finish6 (r : option (list Z * option nat * string)) : option Z :=
  '(groups, ell, rest) ← r;
  if negb (rest =? "")%string then None else
  let gs := reverse groups in
  let n := length gs in
  if (n <? 8)%nat then e ← ell; Some (join_groups (take e gs ++ replicate (8 - n) 0 ++ drop e gs)%list)
  else match ell with Some _ => None | None => Some (join_groups gs) end.
Lemma nozone_plain c t : Ascii.eqb c ":"%char = false → parseIPv6_nozone (String c t) = finish6 (parse_groups 9 (String c t) [] None).
Proof.
  intros Hc. unfold parseIPv6_nozone.
  assert ((match String c t with String ":" (String ":" t') => (t', Some 0%nat) | _ => (String c t, None) end) = (String c t, None)) as ->.
  { destruct c as [[] [] [] [] [] [] [] []]; done. }
  reflexivity.
Qed.
Lemma nozone_ellipsis c t : parseIPv6_nozone (String ":" (String ":" (String c t))) = finish6 (parse_groups 9 (String c t) [] (Some 0%nat)).
Proof. reflexivity. Qed.

Lemma groups_of_spec n v acc :
  fold_left (λ a g, a * 65536 + g) (groups_of n v acc) 0 = fold_left (λ a g, a * 65536 + g) acc (v mod 65536 ^ Z.of_nat n) ∧
  length (groups_of n v acc) = (n + length acc)%nat ∧ (Forall group_ok acc → Forall group_ok (groups_of n v acc)).
Proof.
  revert v acc. induction n as [|n IH]; intros v acc; cbn [groups_of].
  - split; [|done]. by rewrite Z.mod_1_r.
  - destruct (IH (v / 65536) (v mod 65536 :: acc)) as (-> & -> & Hok). split_and!; [|cbn; lia|].
    + cbn [fold_left]. f_equal. rewrite Nat2Z.inj_succ, Z.pow_succ_r by lia.
      rewrite Z.rem_mul_r by (try apply Z.pow_pos_nonneg; lia). lia.
    + intros Ha. apply Hok. constructor; [|done]. unfold group_ok. apply Z.mod_pos_bound. lia.
Qed.

Lemma zeros_spec gs : (zeros gs ≤ length gs)%nat ∧ take (zeros gs) gs = replicate (zeros gs) 0.
Proof.
  induction gs as [|g gs [IH1 IH2]]; [done|]. cbn [zeros]. destruct (Z.eqb_spec g 0) as [->|]; cbn; [|split; [lia|done]].
  split; [lia|]. by rewrite IH2.
Qed.

Definition zero_run (all : list Z) (s e : nat) : Prop :=
  (s + 2 ≤ e ≤ length all)%nat ∧ all = (take s all ++ replicate (e - s) 0 ++ drop e all)%list.
Lemma best_run_spec all i gs best s e :
  gs = drop i all → (∀ s e, best = Some (s, e) → zero_run all s e) → best_run i gs best = Some (s, e) → zero_run all s e.
Proof.
  revert i best. induction gs as [|g gs IH]; intros i best Hgs Hbest; cbn [best_run]; [by apply Hbest|].
  apply (IH (S i)).
  { replace (S i) with (i + 1)%nat by lia. by rewrite <- drop_drop, <- Hgs. }
  intros s' e'. match goal with |- (if ?b then _ else _) = _ → _ => destruct b eqn:Eb end; [|apply Hbest].
  apply andb_prop in Eb as [Hl%Nat.leb_le _]. intros [= <- <-].
  destruct (zeros_spec (g :: gs)) as [Hz1 Hz2]. change (if g =? 0 then S (zeros gs) else 0%nat) with (zeros (g :: gs)).
  set (l := zeros (g :: gs)) in *.
  assert (length (g :: gs) = length all - i)%nat as Hlen by (by rewrite Hgs, length_drop).
  split; [lia|]. replace (i + l - i)%nat with l by lia. rewrite <- Hz2, Hgs.
  rewrite <- drop_drop, (take_drop l), take_drop. done.
Qed.

Lemma parseIPv6_String v : 0 ≤ v < 2 ^ 128 → parseIPv6_nozone (v6_String v) = Some v.
Proof.
  intros Hv. destruct (groups_of_spec 8 v []) as (Hj&Hlen&Hok). specialize (Hok (List.Forall_nil _)).
  cbn [fold_left] in Hj. change (65536 ^ Z.of_nat 8) with (2 ^ 128) in Hj. rewrite Z.mod_small in Hj by done.
  unfold v6_String. pose proof (λ s e, best_run_spec (groups_of 8 v []) 0 _ None s e eq_refl ltac:(done)) as Hrun.
  revert Hj Hlen Hok Hrun. generalize (groups_of 8 v []). intros gs Hj Hlen Hok Hrun. cbn in Hlen. cbv zeta.
  change (join_groups gs = v) in Hj. rewrite drop_0 in Hrun. destruct (best_run 0 gs None) as [[s e]|].
  - destruct (Hrun s e eq_refl) as [Hse Hgs]. clear Hrun. rewrite Hlen in Hse.
    assert (Forall group_ok (take s gs)) as Hp by (by apply Forall_take). assert (Forall group_ok (drop e gs)) as Hd by (by apply Forall_drop).
    assert (length (take s gs) = s) as Lp by (rewrite length_take; lia). assert (length (drop e gs) = 8 - e)%nat as Ld by (rewrite length_drop; lia).
    assert (∀ groups, reverse groups = (take s gs ++ drop e gs)%list → finish6 (Some (groups, Some s, "")) = Some v) as Hfin.
    { intros groups Hr. cbn [finish6 mbind option_bind String.eqb negb]. rewrite Hr, length_app, Lp, Ld.
      destruct (Nat.ltb_spec (s + (8 - e)) 8); [|lia]. do 2 f_equal. rewrite <- Hj. f_equal. etrans; [|symmetry; exact Hgs].
      rewrite take_app_length', drop_app_length' by (symmetry; exact Lp). do 3 f_equal. lia. }
    destruct (decide (take s gs = [])) as [Ep|Ep].
    + rewrite Ep in Hfin |- *. cbn [join_hex String.append]. destruct (decide (drop e gs = [])) as [Ed|Ed].
      * rewrite Ed. cbn. f_equal. rewrite <- Hj, Hgs, Ep, Ed, app_nil_r. cbn. rewrite Ep in Lp. cbn in Lp. subst s.
        rewrite Ed in Ld. cbn in Ld. replace (e - 0)%nat with 8%nat by lia. done.
      * destruct (join_hex_head _ Hd Ed) as (c&t&Eh&_). pose proof (parse_groups_join (drop e gs) 9 [] (Some 0%nat) "" Hd Ed) as Hpg.
        rewrite Eh, nozone_ellipsis, <- Eh. rewrite sapp_nil_r in Hpg. rewrite Hpg; [|cbn; lia|lia|by left].
        cbn [then_groups]. rewrite app_nil_r. rewrite Ep in Lp. cbn in Lp. subst s. apply Hfin. by rewrite reverse_involutive.
    + destruct (join_hex_head _ Hp Ep) as (c&t&Eh&Hc).
      pose proof (parse_groups_join (take s gs) 9 [] None (String ":" (String ":" (join_hex (drop e gs)))) Hp Ep) as Hpg.
      rewrite Eh in Hpg |- *. cbn [String.append] in Hpg |- *. rewrite nozone_plain, Hpg by (done || (cbn; lia) || eauto). clear Hpg.
      cbn [then_groups]. rewrite app_nil_r, length_reverse, Lp.
      destruct (decide (drop e gs = [])) as [Ed|Ed].
      * rewrite Ed. cbn [join_hex String.eqb]. apply Hfin. by rewrite reverse_involutive, Ed, app_nil_r.
      * destruct (join_hex_head _ Hd Ed) as (c2&t2&Eh2&_). rewrite Eh2. cbn [String.eqb]. rewrite <- Eh2.
        pose proof (parse_groups_join (drop e gs) (9 - s) (reverse (take s gs)) (Some s) "" Hd Ed) as Hpg.
        rewrite sapp_nil_r in Hpg. rewrite Hpg; [|rewrite length_reverse; lia|lia|by left]. cbn [then_groups].
        apply Hfin. by rewrite reverse_app, !reverse_involutive.
  - assert (gs ≠ []) as Hne by (by intros ->). destruct (join_hex_head gs Hok Hne) as (c&t&Eh&Hc).
    pose proof (parse_groups_join gs 9 [] None "" Hok Hne) as Hpg. rewrite sapp_nil_r, Eh in Hpg. rewrite Eh.
    rewrite nozone_plain, Hpg by (done || (cbn; lia) || by left). cbn [then_groups finish6 mbind option_bind String.eqb negb].
    rewrite app_nil_r, reverse_involutive, Hlen. cbn. by rewrite Hj.
Qed.

(** ** Addresses parse back *)

Lemma ContainsByte_app s t c : ContainsByte (s ++ t) c = ContainsByte s c || ContainsByte t c.
Proof. induction s as [|d s IH]; [done|]. cbn [String.append]. rewrite !ContainsByte_cons, IH. by rewrite orb_assoc. Qed.

(** A byte no digit spells. *)
Definition digit_free (c : ascii) : Prop := ∀ d, 0 ≤ d < 16 → Ascii.eqb (nibble d) c = false.
Lemma digit_free_punct c : c ∈ ["%"; "/"; ":"; "."]%char → digit_free c.
Proof.
  intros Hc d Hd. rewrite !elem_of_cons in Hc. destruct_or! Hc; [..|by apply elem_of_nil in Hc]; subst c; pattern d; by apply digit_cases.
Qed.

Lemma slash_free : digit_free "/"%char.
Proof. apply digit_free_punct. set_solver. Qed.

Lemma hex_group_free x c : group_ok x → digit_free c → ContainsByte (hex_group x) c = false.
Proof.
  intros Hx Hc. unfold group_ok in Hx. assert (∀ y, 0 ≤ y mod 16 < 16) as Hm by (intros; apply Z.mod_pos_bound; lia).
  assert (0 ≤ x / 4096 < 16) as Hh by (split; [apply Z.div_pos; lia|apply Z.div_lt_upper_bound; lia]).
  unfold hex_group. repeat case_match; rewrite !ContainsByte_cons, !Hc by done; done.
Qed.
Lemma dec_byte_free x c : 0 ≤ x < 256 → digit_free c → ContainsByte (dec_byte x) c = false.
Proof.
  intros Hx Hc. assert (∀ y, 0 ≤ y mod 10 < 16) as Hm by (intros y; pose proof (Z.mod_pos_bound y 10); lia).
  assert (0 ≤ x / 100 < 16) as Hh by (split; [apply Z.div_pos; lia|apply Z.div_lt_upper_bound; lia]).
  unfold dec_byte. repeat case_match; rewrite !ContainsByte_cons, !Hc by done; done.
Qed.
Lemma join_hex_free gs c : Forall group_ok gs → digit_free c → Ascii.eqb ":"%char c = false → ContainsByte (join_hex gs) c = false.
Proof.
  intros Hgs Hc Hcolon. induction Hgs as [|g gs Hg _ IH]; [done|]. cbn [join_hex]. rewrite ContainsByte_app, hex_group_free by done.
  destruct gs; [done|]. by rewrite ContainsByte_cons, Hcolon.
Qed.
Lemma v6_String_free v c : digit_free c → Ascii.eqb ":"%char c = false → ContainsByte (v6_String v) c = false.
Proof.
  intros Hc Hcolon. destruct (groups_of_spec 8 v []) as (_&_&Hok). specialize (Hok (List.Forall_nil _)). unfold v6_String. cbv zeta.
  destruct (best_run _ _ _) as [[s e]|]; [|by apply join_hex_free].
  rewrite ContainsByte_app, !ContainsByte_cons, Hcolon, !join_hex_free by (done || by apply Forall_take || by apply Forall_drop). done.
Qed.
Lemma v4_String_free v c : 0 ≤ v < 2 ^ 32 → digit_free c → Ascii.eqb "."%char c = false → ContainsByte (v4_String v) c = false.
Proof.
  intros Hv Hc Hdot. assert (∀ y, 0 ≤ y mod 256 < 256) as Hm by (intros; apply Z.mod_pos_bound; lia).
  assert (0 ≤ v / 2 ^ 24 < 256) as Ha by (split; [apply Z.div_pos; lia|apply Z.div_lt_upper_bound; lia]).
  unfold v4_String. rewrite !ContainsByte_app, !ContainsByte_cons, !ContainsByte_app, !ContainsByte_cons, !ContainsByte_app, !ContainsByte_cons, Hdot.
  by rewrite !dec_byte_free by done.
Qed.

(** The first punctuation of a text decides its family. *)
Lemma addr_kind_skip s c t :
  ContainsByte s "."%char = false → ContainsByte s ":"%char = false → ContainsByte s "%"%char = false →
  c ∈ ["."; ":"; "%"]%char → addr_kind (s ++ String c t) = Some c.
Proof.
  intros H1 H2 H3 Hc. induction s as [|d s IH]; cbn [String.append addr_kind].
  - rewrite !elem_of_cons in Hc. destruct_or! Hc; [subst c..|by apply elem_of_nil in Hc]; done.
  - rewrite !ContainsByte_cons in *. apply orb_false_elim in H1 as [-> H1], H2 as [-> H2], H3 as [-> H3]. by apply IH.
Qed.

Lemma ParseAddr_v4 v : 0 ≤ v < 2 ^ 32 → ParseAddr (v4_String v) = Some (Addr4 v).
Proof.
  intros Hv. unfold ParseAddr. assert (addr_kind (v4_String v) = Some "."%char) as ->.
  { assert (0 ≤ v / 2 ^ 24 < 256) as Ha by (split; [apply Z.div_pos; lia|apply Z.div_lt_upper_bound; lia]).
    apply addr_kind_skip; [apply dec_byte_free; [done|apply digit_free_punct; set_solver]..|set_solver]. }
  cbn [Ascii.eqb Bool.eqb]. by rewrite parseIPv4_String.
Qed.

Lemma ParseAddr_v6 v : 0 ≤ v < 2 ^ 128 → ParseAddr (v6_String v) = Some (Addr6 v "").
Proof.
  intros Hv. unfold ParseAddr. assert (addr_kind (v6_String v) = Some ":"%char) as ->.
  { destruct (groups_of_spec 8 v []) as (_&Hlen&Hok). specialize (Hok (List.Forall_nil _)). unfold v6_String. cbv zeta.
    revert Hlen Hok. generalize (groups_of 8 v []). intros gs Hlen Hok. cbn in Hlen.
    assert (∀ g t, group_ok g → addr_kind (hex_group g ++ String ":" t) = Some ":"%char) as Hg.
    { intros g t Hg. apply addr_kind_skip; [apply hex_group_free; [done|apply digit_free_punct; set_solver]..|set_solver]. }
    destruct (best_run 0 gs None) as [[s e]|].
    - destruct (take s gs) as [|g [|g2 rest]] eqn:Es; [done|..]; apply (Forall_take _ s) in Hok; rewrite Es in Hok; apply Forall_cons in Hok as [Hg1 _].
      + cbn [join_hex]. rewrite sapp_nil_r. by apply Hg.
      + rewrite join_hex_cons, sapp_assoc by done. cbn [String.append]. by apply Hg.
    - destruct gs as [|g [|g2 rest]]; [done|done|]. rewrite join_hex_cons by done. apply Forall_cons in Hok as [Hg1 _]. by apply Hg. }
  cbn [Ascii.eqb Bool.eqb]. unfold parseIPv6, Cut.
  pose proof (v6_String_free v "%"%char ltac:(apply digit_free_punct; set_solver) eq_refl) as Hpct.
  unfold ContainsByte in Hpct. destruct (IndexByte (v6_String v) "%"%char); [done|]. cbn [mbind option_bind].
  by rewrite parseIPv6_String.
Qed.

(** The text of an address, and what it parses to. *)
Definition Addr_String (a : Addr) : string := match a with Addr4 v => v4_String v | Addr6 v _ => v6_String v end.
Lemma IP_String_Addr ip : IP_String ip = Addr_String (Unmap (AddrFromSlice ip)).
Proof. destruct ip as [v|v]; [done|]. unfold IP_String. cbn. by destruct (is4in6 v). Qed.
Lemma ParseAddr_String ip : IP_wf ip → ParseAddr (IP_String ip) = Some (Unmap (AddrFromSlice ip)).
Proof.
  intros Hwf. destruct ip as [v|v]; cbn in Hwf; [by apply ParseAddr_v4|]. unfold IP_String. cbn. destruct (is4in6 v).
  - apply ParseAddr_v4. apply Z.mod_pos_bound. lia.
  - by apply ParseAddr_v6.
Qed.

(** ** Networks parse back *)

(** What [net] compares and prints of a network. *)
Lemma network_cidr n :
  IPNet_cidr n → ∃ w nn ones,
    networkNumberAndMask n = Some (w, nn, mask_val (CIDRMask ones w)) ∧ (w = 32 ∨ w = 128 ∧ is4in6 nn = false) ∧
    0 ≤ ones ≤ w ∧ 0 ≤ nn < 2 ^ w ∧ Z.land nn (mask_val (CIDRMask ones w)) = nn.
Proof.
  intros (a&ones&Ha&Ho&->). unfold networkNumberAndMask. cbn [net_IP net_Mask].
  destruct a as [v|v z]; cbn [BitLen Addr_wf To4] in *; cbn [CIDRMask mask_bits].
  - assert (0 ≤ Z.land v (mask_val (CIDRMask ones 32)) < 2 ^ 32) as [Hl Hu] by (by apply land_range).
    exists 32, (Z.land v (mask_val (CIDRMask ones 32))), ones. split_and!; try done; [by left|lia|lia|].
    by rewrite <- Z.land_assoc, Z.land_diag.
  - set (x := Z.land v (mask_val (CIDRMask ones 128))). change (128 =? 32) with false. change (128 =? 128) with true.
    assert (0 ≤ x < 2 ^ 128) as Hx by (by apply land_range).
    assert (Z.land x (mask_val (CIDRMask ones 128)) = x) as Hm by (unfold x; by rewrite <- Z.land_assoc, Z.land_diag).
    destruct (is4in6 x) eqn:E4.
    + pose proof (masked_4in6 ones v Ho E4) as H96. exists 32, (x mod 2 ^ 32), (ones - 96).
      split_and!; [rewrite <- CIDRMask_low by lia; reflexivity|by left|lia|lia|apply Z.mod_pos_bound; lia|apply Z.mod_pos_bound; lia|].
      rewrite <- CIDRMask_low by lia. rewrite <- !Z.land_ones by lia. rewrite <- Hm at 2.
      apply Z.bits_inj'. intros i Hi. rewrite !Z.land_spec. destruct (Z.testbit x i), (Z.testbit (Z.ones 32) i), (Z.testbit (mask_val (CIDRMask ones 128)) i); done.
    + exists 128, x, ones. split_and!; try done; [by right|lia|lia|lia|lia].
Qed.

Lemma dtoi_dec ones : 0 ≤ ones < 256 → dtoi (dec_byte ones) 0 = Some ones.
Proof.
  intros Hx. unfold dec_byte. assert (0 ≤ ones mod 10 < 10) by (apply Z.mod_pos_bound; lia).
  assert (0 ≤ ones / 10 mod 10 < 10) by (apply Z.mod_pos_bound; lia).
  assert (ones = 10 * (ones / 10) + ones mod 10) as Ey by (apply Z.div_mod; lia).
  assert (ones / 10 = 10 * (ones / 100) + ones / 10 mod 10) as Ex.
  { replace (ones / 100) with (ones / 10 / 10) by (by rewrite Z.div_div by lia). apply Z.div_mod. lia. }
  assert (0 ≤ ones / 100 < 10) by (split; [apply Z.div_pos; lia|apply Z.div_lt_upper_bound; lia]).
  repeat match goal with |- context [if ?a <? ?b then _ else _] => destruct (Z.ltb_spec a b) end;
    cbn [dtoi]; rewrite !dec_digit_nibble by lia; cbn [mbind option_bind];
    repeat match goal with |- context [if ?a <=? ?b then _ else _] => destruct (Z.leb_spec a b); [lia|]; cbn [mbind option_bind] end;
    f_equal; lia.
Qed.

Lemma dec_byte_nonempty x : (dec_byte x =? "")%string = false.
Proof. unfold dec_byte. by repeat case_match. Qed.

Lemma ParseCIDR_String n :
  IPNet_cidr n → ∃ n', ParseCIDR (IPNet_String n) = Some n' ∧ IPNet_cidr n' ∧ networkNumberAndMask n' = networkNumberAndMask n.
Proof.
  intros Hn. destruct (network_cidr n Hn) as (w&nn&ones&Hnet&Hw&Ho&Hr&Hm).
  set (ip := if w =? 32 then IP4 nn else IP16 nn).
  set (a := if w =? 32 then Addr4 nn else Addr6 nn "").
  assert (IP_wf ip ∧ Unmap (AddrFromSlice ip) = a ∧ Addr_wf a ∧ Zone a = "" ∧ BitLen a = w) as (Hip&Ha&Hwf&Hz&Hb).
  { subst ip a. destruct Hw as [->|[-> H4]]; [done|]. change (128 =? 32) with false. cbn [AddrFromSlice Unmap]. rewrite H4. done. }
  assert (IPNet_String n = IP_String ip ++ String "/" (dec_byte ones))%string as ->.
  { unfold IPNet_String. rewrite Hnet. change (mkMask w (mask_val (CIDRMask ones w))) with (CIDRMask ones w).
    rewrite mask_Size_CIDRMask by done. destruct (Z.eqb_spec w 0); [lia|]. done. }
  assert (ContainsByte (IP_String ip) "/"%char = false) as Hslash.
  { rewrite IP_String_Addr, Ha. pose proof slash_free.
    clear Ha Hip. subst a ip. destruct Hw as [->|[-> H4]]; [apply v4_String_free; [exact Hr|assumption|reflexivity]|].
    apply v6_String_free; [assumption|reflexivity]. }
  assert (ParseCIDR (IP_String ip ++ String "/" (dec_byte ones)) =
    Some (mkIPNet (match a with Addr4 v => IP4 (Z.land v (mask_val (CIDRMask ones 32))) | Addr6 v _ => IP16 (Z.land v (mask_val (CIDRMask ones 128))) end)
      (CIDRMask ones (BitLen a)))) as ->.
  { unfold ParseCIDR, Cut. rewrite IndexByte_app_NotIn.
    2:{ unfold ContainsByte in Hslash. destruct (IndexByte (IP_String ip) "/"%char) eqn:Ei; [done|]. by apply IndexByte_None. }
    cbn [mbind option_bind]. rewrite stake_app. replace (sdrop (S (String.length (IP_String ip))) _) with (dec_byte ones).
    2:{ change (String "/" (dec_byte ones)) with (String "/" "" ++ dec_byte ones)%string. rewrite <- sapp_assoc.
        replace (S (String.length (IP_String ip))) with (String.length (IP_String ip ++ String "/" "")) by (rewrite length_sapp; cbn; lia).
        by rewrite sdrop_app. }
    rewrite ParseAddr_String by done. rewrite Ha. cbn [mbind option_bind]. rewrite Hz, dec_byte_nonempty. cbn [String.eqb negb orb].
    rewrite dtoi_dec by (destruct Hw as [->|[-> _]]; lia). cbn [mbind option_bind].
    destruct (Z.ltb_spec (BitLen a) ones); [lia|]. by destruct a. }
  eexists. split; [reflexivity|]. rewrite Hnet, <- Hb. split.
  - exists a, ones. split_and!; [done|lia|lia|done].
  - subst a. destruct Hw as [->|[-> H4]]; unfold networkNumberAndMask; cbn [net_IP net_Mask BitLen CIDRMask mask_bits].
    + change (32 =? 32) with true. cbn -[mask_val CIDRMask]. change (Z.shiftl (Z.ones ones) (32 - ones)) with (mask_val (CIDRMask ones 32)).
      by rewrite Hm.
    + change (128 =? 32) with false. cbn [To4]. change (mkMask 128 ?x) with (CIDRMask ones 128). rewrite Hm, H4. done.
Qed.
