(* ===== verification/IPFilter.v ===== *)
(** * The IP filter ([security.go]: [prefixSet], [IPFilter])

    The per-request address gate.  Write-side state is a mode, a list of networks and a set of
    address texts; [Allowed] reads an immutable view derived from it, in which addresses are
    [netip] values and networks are bucketed by prefix length.

    - [ip_filter_decides]: after any operations, [Allowed] is the linear scan of the entries.
    - [ip_filter_export]: the exported list, imported elsewhere, gives the same filter.
    - [ip_filter_edits]: what an edit does to the exported list. *)

From S2P Require Import Prelude GoStrings GoNet IPPrefix GoIPText.

#[global] Instance Addr_countable : Countable Addr.
Proof.
  refine (inj_countable' (λ a, match a with Addr4 v => inl v | Addr6 v z => inr (v, z) end)
    (λ s, match s with inl v => Addr4 v | inr (v, z) => Addr6 v z end) _). by intros [].
Defined.
#[global] Instance Prefix_countable : Countable Prefix.
Proof. refine (inj_countable' (λ p, (prefix_addr p, prefix_bits p)) (λ '(a, b), mkPrefix a b) _). by intros []. Defined.

(** ** Prefix sets *)

Record prefixSet := mkPrefixSet {
  prefixes : gset Prefix; v4Lens : list Z; v6Lens : list Z; oddNets : list IPNet;
}.
Definition empty_prefixSet : prefixSet := mkPrefixSet ∅ [] [] [].

Definition Is4 (a : Addr) : bool := match a with Addr4 _ => true | Addr6 _ _ => false end.
(** [netip.Addr.Prefix]. *)
Definition Addr_Prefix (a : Addr) (n : Z) : option Prefix :=
  if (n <? 0) || (BitLen a <? n) then None else Some (Masked (mkPrefix a n)).

Definition sortedPrefixLens (m : gset Z) : list Z := merge_sort Z.le (elements m).

Fixpoint build_loop (nets : list IPNet) (ps : gset Prefix) (v4 v6 : gset Z) (odd : list IPNet)
    : gset Prefix * gset Z * gset Z * list IPNet :=
  match nets with
  | [] => (ps, v4, v6, odd)
  | n :: nets =>
      match prefixFromIPNet (Some n) with
      | None => build_loop nets ps v4 v6 (odd ++ [n])%list
      | Some p =>
          if Is4 (prefix_addr p) then build_loop nets ({[p]} ∪ ps) ({[prefix_bits p]} ∪ v4) v6 odd
          else build_loop nets ({[p]} ∪ ps) v4 ({[prefix_bits p]} ∪ v6) odd
      end
  end.
Definition buildPrefixSet (nets : list IPNet) : prefixSet :=
  match nets with
  | [] => empty_prefixSet
  | _ => let '(ps, v4, v6, odd) := build_loop nets ∅ ∅ ∅ [] in
         mkPrefixSet ps (sortedPrefixLens v4) (sortedPrefixLens v6) odd
  end.

Definition prefixSet_empty (s : prefixSet) : bool := bool_decide (prefixes s = ∅) && (length (oddNets s) =? 0)%nat.
Fixpoint probe_lens (ps : gset Prefix) (a : Addr) (lens : list Z) : bool :=
  match lens with
  | [] => false
  | n :: lens =>
      match Addr_Prefix a n with
      | None => probe_lens ps a lens
      | Some p => if bool_decide (p ∈ ps) then true else probe_lens ps a lens
      end
  end.
Definition prefixSet_contains (s : prefixSet) (addr : Addr) (ipStr : string) : bool :=
  if probe_lens (prefixes s) addr (if Is4 addr then v4Lens s else v6Lens s) then true else
  match oddNets s with
  | [] => false
  | _ => match ParseIP ipStr with None => false | Some ip => existsb (λ n, IPNet_Contains n ip) (oddNets s) end
  end.

(** ** The filter *)

Record ipFilterView := mkView { v_mode : string; singles : gset Addr; v_nets : prefixSet }.
Definition emptyIPFilterView : ipFilterView := mkView "" ∅ empty_prefixSet.

Record IPFilter := mkFilter { f_mode : string; f_nets : list IPNet; f_single : gset string; f_view : option ipFilterView }.
#[global] Instance IPFilter_eta : Eta IPFilter := λ f, mkFilter (f_mode f) (f_nets f) (f_single f) (f_view f).
Definition newIPFilter : IPFilter := mkFilter "" [] ∅ None.

Definition loadView (f : IPFilter) : ipFilterView := default emptyIPFilterView (f_view f).
Definition view_singles (single : gset string) : gset Addr :=
  list_to_set (omap (λ s, Unmap <$> ParseAddr s) (elements single)).
Definition publishView (f : IPFilter) : IPFilter :=
  f <| f_view := Some (mkView (f_mode f) (view_singles (f_single f)) (buildPrefixSet (f_nets f))) |>.

Definition view_contains (v : ipFilterView) (ipStr : string) : bool :=
  if bool_decide (singles v = ∅) && prefixSet_empty (v_nets v) then false else
  match ParseAddr ipStr with
  | None => false
  | Some addr =>
      if negb (Zone addr =? "")%string then false else
      let addr := Unmap addr in
      if bool_decide (addr ∈ singles v) then true else prefixSet_contains (v_nets v) addr ipStr
  end.

Definition SetMode (mode : string) (f : IPFilter) : IPFilter := publishView (f <| f_mode := mode |>).
Definition Mode_ (f : IPFilter) : string := f_mode f.
(** [addLocked]: [true] is its error. *)
Definition addLocked (entry : string) (f : IPFilter) : bool * IPFilter :=
  match ParseCIDR entry with
  | Some cidr => (false, f <| f_nets := (f_nets f ++ [cidr])%list |>)
  | None =>
      match ParseIP entry with
      | Some ip => (false, f <| f_single := {[IP_String ip]} ∪ f_single f |>)
      | None => (true, f)
      end
  end.
Definition Add_ip (entry : string) (f : IPFilter) : bool * IPFilter :=
  let '(err, f) := addLocked entry f in
  if (err : bool) then (true, f) else (false, publishView f).
(** The loop of [AddAll], with the entries it could not parse. *)
Fixpoint add_loop (entries : list string) (f : IPFilter) : list string * IPFilter :=
  match entries with
  | [] => ([], f)
  | e :: entries =>
      let '(err, f) := addLocked e f in
      let '(invalid, f) := add_loop entries f in
      (if (err : bool) then e :: invalid else invalid, f)
  end.
Definition AddAll (entries : list string) (f : IPFilter) : list string * IPFilter :=
  match entries with
  | [] => ([], f)
  | _ => let '(invalid, f) := add_loop entries f in (invalid, publishView f)
  end.
Definition Remove (entry : string) (f : IPFilter) : IPFilter :=
  publishView (f <| f_single := f_single f ∖ {[entry]} |> <| f_nets := filter (λ n, IPNet_String n ≠ entry) (f_nets f) |>).
Definition ClearAll (f : IPFilter) : IPFilter := publishView (f <| f_nets := [] |> <| f_single := ∅ |>).
(** [List]; the order of the addresses is that of the map iteration. *)
Definition List_ip (f : IPFilter) : list string := (elements (f_single f) ++ map IPNet_String (f_nets f))%list.

Definition Allowed (f : IPFilter) (ipStr : string) : bool :=
  let v := loadView f in
  if (v_mode v =? "allow")%string then view_contains v ipStr
  else if (v_mode v =? "block")%string then negb (view_contains v ipStr)
  else if (v_mode v =? "")%string then true else false.

Example filter_run1 :
  let f := SetMode "allow" (AddAll ["10.0.0.0/8"; "2001:DB8::1"; "bogus"; "::ffff:192.0.2.0/120"] newIPFilter).2 in
  map (Allowed f) ["10.1.2.3"; "::ffff:10.1.2.3"; "11.0.0.1"; "2001:db8:0::1"; "2001:db8::1%eth0"; "192.0.2.7"] =
    [true; true; false; true; false; true] ∧
  List_ip f = ["2001:db8::1"; "10.0.0.0/8"; "192.0.2.0/24"].
Proof. split; vm_compute; reflexivity. Qed.

(** ** A prefix set is the scan of its networks *)

Definition prefix_of (nets : list IPNet) (p : Prefix) : Prop := ∃ n, n ∈ nets ∧ prefixFromIPNet (Some n) = Some p.
Lemma prefix_of_cons n nets p q :
  prefixFromIPNet (Some n) = Some q → prefix_of (n :: nets) p ↔ p = q ∨ prefix_of nets p.
Proof.
  intros Hq. unfold prefix_of. setoid_rewrite elem_of_cons. split.
  - intros (m&[->|Hm]&Hp); [left; congruence|right; eauto].
  - intros [->|(m&Hm&Hp)]; eauto.
Qed.

Lemma prefix_ex_cons n nets q (P : Prefix → Prop) :
  prefixFromIPNet (Some n) = Some q → (∃ p, prefix_of (n :: nets) p ∧ P p) ↔ P q ∨ ∃ p, prefix_of nets p ∧ P p.
Proof. intros Hq. setoid_rewrite (prefix_of_cons n nets _ q Hq). split; [intros (p&[->|Hp]&HP); eauto|intros [HP|(p&Hp&HP)]; eauto]. Qed.

Lemma build_loop_spec nets ps v4 v6 odd ps' v4' v6' odd' :
  Forall IPNet_cidr nets → build_loop nets ps v4 v6 odd = (ps', v4', v6', odd') →
  odd' = odd ∧ (∀ p, p ∈ ps' ↔ p ∈ ps ∨ prefix_of nets p) ∧
  (∀ k, k ∈ v4' ↔ k ∈ v4 ∨ ∃ p, prefix_of nets p ∧ Is4 (prefix_addr p) = true ∧ prefix_bits p = k) ∧
  (∀ k, k ∈ v6' ↔ k ∈ v6 ∨ ∃ p, prefix_of nets p ∧ Is4 (prefix_addr p) = false ∧ prefix_bits p = k).
Proof.
  intros Hn. revert ps v4 v6. induction Hn as [|n nets Hn _ IH]; intros ps v4 v6; cbn [build_loop].
  - intros [= <- <- <- <-]. assert (∀ p, ¬ prefix_of [] p) as Hno by (intros p (?&?%elem_of_nil&_); done). naive_solver.
  - destruct (prefixFromIPNet_cidr n Hn) as [[q Hq] _]. rewrite Hq.
    destruct (Is4 (prefix_addr q)) eqn:E4; intros E; destruct (IH _ _ _ E) as (-> & Hp & H4 & H6); (split; [done|]);
      (split; [intros p; rewrite Hp, (prefix_of_cons n nets p q Hq); set_solver|]); split; intros k; rewrite ?H4, ?H6;
      rewrite (prefix_ex_cons n nets q _ Hq), E4, ?elem_of_union, ?elem_of_singleton; intuition congruence.
Qed.

(** The shape of a network's prefix. *)
Lemma prefix_shape n p :
  IPNet_cidr n → prefixFromIPNet (Some n) = Some p →
  ∃ a, Addr_wf a ∧ Zone a = "" ∧ 0 ≤ prefix_bits p ≤ BitLen a ∧ p = Masked (mkPrefix a (prefix_bits p)).
Proof.
  intros (a&ones&Ha&Ho&->). unfold prefixFromIPNet. cbn [mbind option_bind net_Mask net_IP].
  rewrite mask_Size_CIDRMask by done. destruct a as [v|v z]; cbn [BitLen Addr_wf] in *.
  - change (32 =? 0) with false. change (32 =? 128) with false. cbn [To4 AddrFromSlice BitLen].
    destruct (Z.ltb_spec ones 0); [lia|]. cbn [negb orb]. change (32 =? 32) with true. cbn [negb]. intros [= <-].
    exists (Addr4 (Z.land v (mask_val (CIDRMask ones 32)))). split; [by apply land_range|]. done.
  - change (128 =? 0) with false. change (128 =? 128) with true. set (x := Z.land v (mask_val (CIDRMask ones 128))).
    destruct (To4 (IP16 x)) as [v4|] eqn:E4; cbn [AddrFromSlice BitLen].
    + destruct (Z.ltb_spec (ones - 96) 0); [done|]. change (32 =? 32) with true. cbn [negb orb]. intros [= <-].
      exists (Addr4 v4). split; [|split; [done|split; [cbn; lia|done]]].
      cbn [To4] in E4. destruct (is4in6 x); [|done]. injection E4 as <-. apply Z.mod_pos_bound. lia.
    + change (128 =? 128) with true. cbn [negb]. intros [= <-]. exists (Addr6 x ""). split; [by apply land_range|]. done.
Qed.

(** Masking the probe to the length of a prefix gives the prefix exactly when it contains it. *)
Lemma masked_probe a b k :
  Addr_wf a → Addr_wf b → Zone b = "" → 0 ≤ k ≤ BitLen a →
  (Is4 a = Is4 b ∧ Masked (mkPrefix b k) = Masked (mkPrefix a k)) ↔ Prefix_Contains (Masked (mkPrefix a k)) b = true.
Proof.
  intros Ha Hb Hz Hk. unfold Prefix_Contains. rewrite Hz. cbn [String.eqb negb].
  destruct a as [x|x zx], b as [y|y zy]; cbn [Masked prefix_addr prefix_bits Is4 BitLen Addr_wf] in *;
    try (split; [by intros [? ?]|done]).
  - rewrite masked_test4 by done. rewrite Z.eqb_eq. split; [intros [_ [= E]]; exact (eq_sym E)|]. intros E. by rewrite E.
  - rewrite mask_lxor_eq, <- Z.land_assoc, Z.land_diag, Z.eqb_eq. split; [intros [_ [= E]]; exact (eq_sym E)|]. intros E. by rewrite E.
Qed.

Lemma sortedPrefixLens_elem m k : k ∈ sortedPrefixLens m ↔ k ∈ m.
Proof. unfold sortedPrefixLens. rewrite merge_sort_Permutation. by rewrite elem_of_elements. Qed.

Lemma probe_lens_spec ps a lens :
  probe_lens ps a lens = true ↔ ∃ n p, n ∈ lens ∧ Addr_Prefix a n = Some p ∧ p ∈ ps.
Proof.
  induction lens as [|n lens IH]; cbn [probe_lens].
  { split; [done|]. by intros (?&?&?%elem_of_nil&_). }
  setoid_rewrite elem_of_cons. destruct (Addr_Prefix a n) as [p|] eqn:E; [case_bool_decide as Hp|]; naive_solver.
Qed.

Lemma buildPrefixSet_spec nets :
  Forall IPNet_cidr nets →
  let s := buildPrefixSet nets in
  oddNets s = [] ∧ (∀ p, p ∈ prefixes s ↔ prefix_of nets p) ∧
  (∀ k, k ∈ v4Lens s ↔ ∃ p, prefix_of nets p ∧ Is4 (prefix_addr p) = true ∧ prefix_bits p = k) ∧
  (∀ k, k ∈ v6Lens s ↔ ∃ p, prefix_of nets p ∧ Is4 (prefix_addr p) = false ∧ prefix_bits p = k).
Proof.
  intros Hn. unfold buildPrefixSet. destruct nets as [|n nets].
  - cbn. assert (∀ p, ¬ prefix_of [] p) as Hno by (intros p (?&?%elem_of_nil&_); done).
    split_and!; [done|set_solver|..]; intros k; rewrite elem_of_nil; naive_solver.
  - destruct (build_loop (n :: nets) ∅ ∅ ∅ []) as [[[ps v4] v6] odd] eqn:E.
    destruct (build_loop_spec _ _ _ _ _ _ _ _ _ Hn E) as (-> & Hp & H4 & H6). cbn [oddNets prefixes v4Lens v6Lens].
    setoid_rewrite sortedPrefixLens_elem. split_and!; [done|set_solver..].
Qed.

Lemma prefixSet_contains_scan nets a ipStr :
  Forall IPNet_cidr nets → Addr_wf a → Zone a = "" →
  prefixSet_contains (buildPrefixSet nets) (Unmap a) ipStr = existsb (λ n, IPNet_Contains n (As16 a)) nets.
Proof.
  intros Hn Ha Hz. destruct (buildPrefixSet_spec nets Hn) as (Hodd & Hp & H4 & H6). unfold prefixSet_contains. rewrite Hodd.
  pose proof (Unmap_wf a Ha) as Hu. pose proof (Unmap_zone a Hz) as Huz.
  match goal with |- (if ?b then true else false) = ?c => assert (b = true ↔ c = true) as Hb end.
  2:{ destruct (existsb _ _), (probe_lens _ _ _); naive_solver. }
  rewrite probe_lens_spec. setoid_rewrite Hp. rewrite existsb_exists. split.
  - intros (k & p & Hk & Hpk & m & Hm & Hmp). exists m. split; [by apply list_elem_of_In|].
    assert (IPNet_cidr m) as Hmc by (by eapply Forall_forall in Hn). destruct (prefixFromIPNet_cidr m Hmc) as [_ Hwf].
    destruct (prefix_contains_agree m p a Hwf Hmp Ha Hz) as [<- _].
    destruct (prefix_shape m p Hmc Hmp) as (b & Hb & Hbz & Hbits & Ep). rewrite Ep. apply masked_probe; [done..|].
    unfold Addr_Prefix in Hpk. destruct (_ || _); [done|]. injection Hpk as <-.
    assert (prefix_bits (Masked (mkPrefix (Unmap a) k)) = k) as Ek by (by destruct (Unmap a)). rewrite Ek in *.
    split; [|done]. apply (f_equal (λ p, Is4 (prefix_addr p))) in Ep. by destruct b, (Unmap a).
  - intros (m & Hm%list_elem_of_In & Hc).
    assert (IPNet_cidr m) as Hmc by (by eapply Forall_forall in Hn). destruct (prefixFromIPNet_cidr m Hmc) as [[p Hmp] Hwf].
    destruct (prefix_contains_agree m p a Hwf Hmp Ha Hz) as [Heq _]. rewrite Hc in Heq.
    destruct (prefix_shape m p Hmc Hmp) as (b & Hb & Hbz & Hbits & Ep). rewrite Ep in Heq. apply masked_probe in Heq as [Hfam Hmask]; [|done..].
    exists (prefix_bits p), p. assert (prefix_of nets p) as Hof by (by exists m). split_and!.
    + assert (Is4 (prefix_addr p) = Is4 (Unmap a)) as Hf by (rewrite Ep, <- Hfam; by destruct b).
      destruct (Is4 (Unmap a)); [apply H4|apply H6]; by exists p.
    + unfold Addr_Prefix. assert (BitLen (Unmap a) = BitLen b) as -> by (by destruct b, (Unmap a)).
      destruct (Z.ltb_spec (prefix_bits p) 0); [lia|]. destruct (Z.ltb_spec (BitLen b) (prefix_bits p)); [lia|]. cbn [orb].
      by rewrite Hmask, <- Ep.
    + done.
Qed.

(** ** The view is the entries *)

(** The reference decision: parse the client, look its text up, scan the networks. *)
Definition listed (nets : list IPNet) (single : gset string) (ipStr : string) : bool :=
  match ParseIP ipStr with
  | None => false
  | Some ip => bool_decide (IP_String ip ∈ single) || existsb (λ n, IPNet_Contains n ip) nets
  end.
Definition decision (mode : string) (hit : bool) : bool :=
  if (mode =? "allow")%string then hit else if (mode =? "block")%string then negb hit else (mode =? "")%string.

(** Address texts are printed addresses. *)
Definition texts_ok (single : gset string) : Prop := ∀ s, s ∈ single → ∃ ip, IP_wf ip ∧ s = IP_String ip.
Record filter_ok (f : IPFilter) : Prop := {
  fo_nets : Forall IPNet_cidr (f_nets f);
  fo_single : texts_ok (f_single f);
  fo_view : loadView f = mkView (f_mode f) (view_singles (f_single f)) (buildPrefixSet (f_nets f));
}.

Lemma As16_wf a : Addr_wf a → IP_wf (As16 a).
Proof. destruct a as [v|v z]; cbn; [|done]. change v4InV6 with (65535 * 2 ^ 32). lia. Qed.
Lemma Unmap_As16 a : Addr_wf a → Zone a = "" → Unmap (AddrFromSlice (As16 a)) = Unmap a.
Proof. destruct a as [v|v z]; cbn; [|by intros _ ->]. intros Hv _. by destruct (is4in6_map v Hv) as [-> ->]. Qed.
Lemma Unmap_idem a : Unmap (Unmap a) = Unmap a.
Proof. destruct a as [v|v z]; cbn; [done|]. destruct (is4in6 v) eqn:E; cbn; [done|by rewrite E]. Qed.

Lemma view_singles_elem single a :
  texts_ok single → Addr_wf a → Zone a = "" → Unmap a ∈ view_singles single ↔ IP_String (As16 a) ∈ single.
Proof.
  intros Ht Ha Hz. unfold view_singles. rewrite elem_of_list_to_set, list_elem_of_omap. setoid_rewrite elem_of_elements. split.
  - intros (s&Hs&Hp). destruct (Ht s Hs) as (ip&Hip&->). rewrite ParseAddr_String in Hp by done. injection Hp as Hp.
    rewrite Unmap_idem in Hp. rewrite IP_String_Addr, (Unmap_As16 a) by done. by rewrite <- Hp, <- IP_String_Addr.
  - intros Hin. eexists. split; [done|]. rewrite ParseAddr_String by (by apply As16_wf). cbn. by rewrite Unmap_idem, Unmap_As16.
Qed.

Lemma view_contains_listed mode nets single ipStr :
  Forall IPNet_cidr nets → texts_ok single →
  view_contains (mkView mode (view_singles single) (buildPrefixSet nets)) ipStr = listed nets single ipStr.
Proof.
  intros Hn Ht. unfold view_contains, listed, ParseIP. cbn [singles v_nets].
  destruct (ParseAddr ipStr) as [a|] eqn:Ea; [|by destruct (_ && _)]. pose proof (ParseAddr_wf _ _ Ea) as Hwf.
  cbn [mbind option_bind]. destruct (String.eqb_spec (Zone a) "") as [Hz|Hz]; [|by destruct (_ && _)]. cbn [negb].
  rewrite (bool_decide_ext _ _ (view_singles_elem single a Ht Hwf Hz)), prefixSet_contains_scan by done.
  destruct (bool_decide (view_singles single = ∅) && _) eqn:Eempty; [|by case_bool_decide].
  apply andb_prop in Eempty as [Hs%bool_decide_eq_true He]. unfold prefixSet_empty in He. apply andb_prop in He as [Hp%bool_decide_eq_true _].
  rewrite bool_decide_false; [|intros Hin; apply (view_singles_elem single a Ht Hwf Hz) in Hin; set_solver]. cbn [orb].
  destruct (buildPrefixSet_spec nets Hn) as (_ & Hpre & _). destruct nets as [|n nets]; [done|]. exfalso.
  apply Forall_cons in Hn as [Hn _]. destruct (prefixFromIPNet_cidr n Hn) as [[p Hnp] _].
  assert (p ∈ prefixes (buildPrefixSet (n :: nets))) as Hin by (apply Hpre; exists n; set_solver). set_solver.
Qed.

(** ** Operations *)

Inductive FilterOp := OpSetMode (mode : string) | OpAdd (entry : string) | OpAddAll (entries : list string) | OpRemove (entry : string) | OpClearAll.
Definition filter_step (f : IPFilter) (op : FilterOp) : IPFilter :=
  match op with
  | OpSetMode mode => SetMode mode f
  | OpAdd e => (Add_ip e f).2
  | OpAddAll es => (AddAll es f).2
  | OpRemove e => Remove e f
  | OpClearAll => ClearAll f
  end.
Definition filter_run (ops : list FilterOp) : IPFilter := fold_left filter_step ops newIPFilter.

Definition entries_ok (f : IPFilter) : Prop := Forall IPNet_cidr (f_nets f) ∧ texts_ok (f_single f).
Lemma publishView_ok f : entries_ok f → filter_ok (publishView f).
Proof. intros [Hn Ht]. by constructor. Qed.
Lemma ParseIP_wf s ip : ParseIP s = Some ip → IP_wf ip.
Proof.
  unfold ParseIP. destruct (ParseAddr s) as [a|] eqn:Ea; [|done]. cbn [mbind option_bind]. case_match; [|done]. intros [= <-].
  by apply As16_wf, (ParseAddr_wf s).
Qed.

(** What [addLocked] adds. *)
Lemma addLocked_spec entry f err f' :
  addLocked entry f = (err, f') →
  f_mode f' = f_mode f ∧
  match ParseCIDR entry, ParseIP entry with
  | Some n, _ => err = false ∧ f_nets f' = (f_nets f ++ [n])%list ∧ f_single f' = f_single f
  | None, Some ip => err = false ∧ f_nets f' = f_nets f ∧ f_single f' = {[IP_String ip]} ∪ f_single f
  | None, None => err = true ∧ f' = f
  end.
Proof. unfold addLocked. destruct (ParseCIDR entry), (ParseIP entry); by intros [= <- <-]. Qed.

Lemma addLocked_ok entry f : entries_ok f → entries_ok (addLocked entry f).2.
Proof.
  intros [Hn Ht]. destruct (addLocked entry f) as [err f'] eqn:E. apply addLocked_spec in E as [_ E]. cbn [snd].
  destruct (ParseCIDR entry) as [n|] eqn:Ec; [|destruct (ParseIP entry) as [ip|] eqn:Ei].
  - destruct E as (_&En&Es). split; [|by rewrite Es]. rewrite En. apply Forall_app. split; [done|]. repeat constructor. by eapply ParseCIDR_cidr.
  - destruct E as (_&En&Es). split; [by rewrite En|]. rewrite Es. intros s [->%elem_of_singleton|Hs]%elem_of_union; [|by apply Ht].
    exists ip. split; [by eapply ParseIP_wf|done].
  - by destruct E as [_ ->].
Qed.
Lemma add_loop_ok entries f : entries_ok f → entries_ok (add_loop entries f).2.
Proof.
  revert f. induction entries as [|e entries IH]; intros f Hf; [done|]. cbn [add_loop]. pose proof (addLocked_ok e f Hf) as Hf'.
  destruct (addLocked e f) as [err f1]. specialize (IH f1 Hf'). by destruct (add_loop entries f1).
Qed.

Lemma filter_ok_entries f : filter_ok f → entries_ok f.
Proof. by intros []. Qed.
Lemma filter_step_ok f op : filter_ok f → filter_ok (filter_step f op).
Proof.
  intros Hok. pose proof (filter_ok_entries f Hok) as [Hn Ht]. destruct op as [mode|e|es|e|]; cbn [filter_step].
  - by apply publishView_ok.
  - unfold Add_ip. pose proof (addLocked_ok e f (conj Hn Ht)) as Hf. destruct (addLocked e f) as [[] f'] eqn:E; [|by apply publishView_ok].
    apply addLocked_spec in E as [_ E]. cbn. destruct (ParseCIDR e); [by destruct E|]. destruct (ParseIP e); [by destruct E|]. by destruct E as [_ ->].
  - unfold AddAll. destruct es as [|e es]; [done|]. pose proof (add_loop_ok (e :: es) f (conj Hn Ht)) as Hf.
    destruct (add_loop (e :: es) f). by apply publishView_ok.
  - apply publishView_ok. split; cbn.
    { apply Forall_forall. intros n [_ Hin]%list_elem_of_filter. by eapply Forall_forall in Hn. }
    intros s Hs. apply Ht. set_solver.
  - apply publishView_ok. split; [constructor|]. intros s Hs. set_solver.
Qed.
Lemma filter_run_ok ops : filter_ok (filter_run ops).
Proof.
  unfold filter_run. assert (filter_ok newIPFilter) as Hok by (constructor; [constructor|by intros s ?%elem_of_empty|reflexivity]).
  revert Hok. generalize newIPFilter. induction ops as [|op ops IH]; intros f Hok; [done|]. by apply IH, filter_step_ok.
Qed.

Lemma Allowed_listed f ipStr : filter_ok f → Allowed f ipStr = decision (f_mode f) (listed (f_nets f) (f_single f) ipStr).
Proof.
  intros [Hn Ht Hv]. unfold Allowed. rewrite Hv. rewrite view_contains_listed by done. cbn [v_mode]. unfold decision.
  by repeat case_match.
Qed.

(** The address gate decides by the entries.  After any sequence of edits, the lock-free
    view answers as the linear scan of the write-side state: the client parses, and its
    canonical text is an exact entry or a network contains it.  An allowlist admits exactly
    the listed, a blocklist exactly the others, a disabled filter everybody, and an
    unrecognised mode nobody; a client that does not parse, or carries a zone, is not listed. *)
Theorem ip_filter_decides (ops : list FilterOp) (ipStr : string) :
  let f := filter_run ops in
  Allowed f ipStr = decision (Mode_ f) (listed (f_nets f) (f_single f) ipStr).
Proof. intros f. apply Allowed_listed, filter_run_ok. Qed.

(** ** Lists *)

(** An exact entry read back. *)
Lemma text_reads ip : IP_wf ip → ParseCIDR (IP_String ip) = None ∧ ∃ ip', ParseIP (IP_String ip) = Some ip' ∧ IP_String ip' = IP_String ip.
Proof.
  intros Hip. split.
  - unfold ParseCIDR, Cut. assert (ContainsByte (IP_String ip) "/"%char = false) as Hs.
    { rewrite IP_String_Addr. pose proof slash_free. destruct ip as [v|v]; cbn in *; [by apply v4_String_free|].
      destruct (is4in6 v); cbn; [apply v4_String_free; [apply Z.mod_pos_bound; lia|done|done]|by apply v6_String_free]. }
    unfold ContainsByte in Hs. by destruct (IndexByte (IP_String ip) "/"%char).
  - unfold ParseIP. rewrite ParseAddr_String by done. cbn [mbind option_bind]. set (a := Unmap (AddrFromSlice ip)).
    assert (Zone a = "") as Hz by (apply Unmap_zone; by destruct ip). assert (Addr_wf a) as Ha by (apply Unmap_wf; by destruct ip).
    rewrite Hz. cbn [String.eqb]. eexists. split; [done|]. rewrite !IP_String_Addr, (Unmap_As16 a) by done. unfold a. by rewrite Unmap_idem.
Qed.

Definition same_net (n n' : IPNet) : Prop := networkNumberAndMask n' = networkNumberAndMask n.
Lemma same_net_contains n n' ip : same_net n n' → IPNet_Contains n' ip = IPNet_Contains n ip.
Proof. intros E. unfold IPNet_Contains. by rewrite E. Qed.
Lemma same_net_String n n' : same_net n n' → IPNet_String n' = IPNet_String n.
Proof. intros E. unfold IPNet_String. by rewrite E. Qed.

Lemma add_loop_texts l f :
  Forall (λ s, ∃ ip, IP_wf ip ∧ s = IP_String ip) l → add_loop l f = ([], f <| f_single := list_to_set l ∪ f_single f |>).
Proof.
  intros Hl. revert f. induction Hl as [|s l (ip&Hip&->) _ IH]; intros f; cbn [add_loop list_to_set].
  { rewrite union_empty_l_L. by destruct f. }
  unfold addLocked. destruct (text_reads ip Hip) as (->&ip'&->&->). rewrite IH. destruct f as [m nets single v]. cbn.
  rewrite assoc_L by apply _. by rewrite (comm_L (∪) {[_]} (list_to_set l)).
Qed.
Lemma add_loop_nets nets f :
  Forall IPNet_cidr nets → ∃ nets', add_loop (map IPNet_String nets) f = ([], f <| f_nets := (f_nets f ++ nets')%list |>) ∧ Forall2 same_net nets nets'.
Proof.
  intros Hn. revert f. induction Hn as [|n nets Hn _ IH]; intros f; cbn [map add_loop].
  { exists []. split; [|constructor]. destruct f. cbn. by rewrite app_nil_r. }
  destruct (ParseCIDR_String n Hn) as (n'&Hn'&_&Hs). unfold addLocked. rewrite Hn'.
  destruct (IH (f <| f_nets := (f_nets f ++ [n'])%list |>)) as (nets'&->&HF). exists (n' :: nets'). split; [|by constructor].
  destruct f. cbn. by rewrite <- app_assoc.
Qed.
Lemma add_loop_app l1 l2 f :
  add_loop (l1 ++ l2) f = let '(i1, f1) := add_loop l1 f in let '(i2, f2) := add_loop l2 f1 in ((i1 ++ i2)%list, f2).
Proof.
  revert f. induction l1 as [|e l1 IH]; intros f; cbn [app add_loop]; [by destruct (add_loop l2 f)|].
  destruct (addLocked e f) as [err f1]. rewrite IH. destruct (add_loop l1 f1) as [i1 f2]. destruct (add_loop l2 f2) as [i2 f3].
  by destruct err.
Qed.

Lemma listed_same nets nets' single ipStr : Forall2 same_net nets nets' → listed nets' single ipStr = listed nets single ipStr.
Proof.
  intros HF. unfold listed. destruct (ParseIP ipStr) as [ip|]; [|done]. f_equal.
  induction HF as [|n n' nets nets' Hn _ IH]; [done|]. cbn [existsb]. by rewrite IH, (same_net_contains n n').
Qed.

(** The exported list is the filter.  Imported into any other filter, in place of its
    entries and with the same mode, every entry is accepted, the list is the same again, and
    every client gets the same decision. *)
Theorem ip_filter_export (ops ops' : list FilterOp) :
  let f := filter_run ops in
  let '(invalid, g) := AddAll (List_ip f) (ClearAll (SetMode (Mode_ f) (filter_run ops'))) in
  invalid = [] ∧ List_ip g = List_ip f ∧ ∀ ipStr, Allowed g ipStr = Allowed f ipStr.
Proof.
  intros f. pose proof (filter_run_ok ops) as Hok. fold f in Hok. pose proof (filter_ok_entries f Hok) as [Hn Ht].
  set (h := ClearAll _). assert (f_nets h = [] ∧ f_single h = ∅ ∧ f_mode h = f_mode f ∧ filter_ok h) as (Hhn&Hhs&Hhm&Hh).
  { split_and!; [done..|]. apply (filter_step_ok _ OpClearAll), (filter_step_ok _ (OpSetMode _)), filter_run_ok. }
  pose proof (filter_step_ok h (OpAddAll (List_ip f)) Hh) as Hg. cbn [filter_step] in Hg.
  assert (∃ nets', add_loop (List_ip f) h = ([], h <| f_single := f_single f |> <| f_nets := nets' |>) ∧ Forall2 same_net (f_nets f) nets')
    as (nets'&Hadd&HF).
  { unfold List_ip. rewrite add_loop_app, add_loop_texts.
    2:{ apply Forall_forall. intros s Hs%elem_of_elements. by apply Ht. }
    destruct (add_loop_nets (f_nets f) (h <| f_single := list_to_set (elements (f_single f)) ∪ f_single h |>) Hn) as (nets'&->&HF).
    exists nets'. split; [|done]. cbn [app]. rewrite Hhs, union_empty_r_L, list_to_set_elements_L. destruct h. cbn in *. by rewrite Hhn. }
  assert (List_ip (h <| f_single := f_single f |> <| f_nets := nets' |>) = List_ip f) as HL.
  { unfold List_ip. cbn. f_equal. clear -HF. induction HF as [|n n' nets nets' E _ IH]; [done|]. cbn [map]. by rewrite IH, (same_net_String n n'). }
  unfold AddAll in *. destruct (List_ip f) as [|e es] eqn:El.
  - unfold List_ip in El. apply app_nil in El as [Es En]. apply elements_empty_inv in Es. apply map_eq_nil in En.
    split_and!; [done|unfold List_ip; by rewrite Hhn, Hhs|]. intros ipStr. rewrite !Allowed_listed by done.
    rewrite Hhn, Hhs, Hhm, En. do 2 f_equal. set_solver.
  - rewrite Hadd in *. split_and!; [done|done|]. intros ipStr. rewrite !Allowed_listed by done. cbn [snd f_mode f_nets f_single publishView].
    change (decision (f_mode h) (listed nets' (f_single f) ipStr) = decision (f_mode f) (listed (f_nets f) (f_single f) ipStr)).
    by rewrite Hhm, (listed_same (f_nets f) nets').
Qed.

(** The text under which an entry is listed. *)
Definition canonical_entry (e : string) : option string :=
  match ParseCIDR e with Some n => Some (IPNet_String n) | None => IP_String <$> ParseIP e end.

Lemma List_ip_elem x f : x ∈ List_ip f ↔ x ∈ f_single f ∨ ∃ n, n ∈ f_nets f ∧ x = IPNet_String n.
Proof.
  unfold List_ip. rewrite elem_of_app, elem_of_elements. change (map IPNet_String (f_nets f)) with (IPNet_String <$> f_nets f).
  rewrite list_elem_of_fmap. naive_solver.
Qed.

Lemma filter_fresh (nets : list IPNet) t : (∀ n, n ∈ nets → IPNet_String n ≠ t) → filter (λ n, IPNet_String n ≠ t) nets = nets.
Proof.
  intros Hf. induction nets as [|n nets IH]; [done|]. rewrite filter_cons_True by (apply Hf; set_solver). rewrite IH; [done|]. set_solver.
Qed.

(** Edits act on the list they are shown in.  An entry is refused exactly when it is
    neither a network nor an address, and then nothing changes; otherwise the list gains its
    canonical text.  Removing a text removes what is listed under exactly that text.  So an
    addition can be undone: removing the new text restores every decision. *)
Theorem ip_filter_edits (ops : list FilterOp) (e : string) :
  let f := filter_run ops in
  (∀ x, x ∈ List_ip (Remove e f) ↔ x ∈ List_ip f ∧ x ≠ e) ∧
  match canonical_entry e with
  | None => Add_ip e f = (true, f)
  | Some t => (Add_ip e f).1 = false ∧ (∀ x, x ∈ List_ip (Add_ip e f).2 ↔ x = t ∨ x ∈ List_ip f) ∧
      (t ∉ List_ip f → ∀ ipStr, Allowed (Remove t (Add_ip e f).2) ipStr = Allowed f ipStr)
  end.
Proof.
  intros f. pose proof (filter_run_ok ops) as Hok. fold f in Hok. split.
  { intros x. rewrite !List_ip_elem. cbn. setoid_rewrite list_elem_of_filter. set_solver. }
  unfold canonical_entry, Add_ip. destruct (addLocked e f) as [err f'] eqn:E. pose proof (addLocked_ok e f (filter_ok_entries f Hok)) as Hok'.
  rewrite E in Hok'. cbn [snd] in Hok'. apply addLocked_spec in E as [Hm E].
  destruct (ParseCIDR e) as [n|]; [|destruct (ParseIP e) as [ip|]; cbn [fmap option_fmap option_map]].
  - destruct E as (->&En&Es). cbn [fst snd]. split; [done|]. split.
    + intros x. rewrite !List_ip_elem. cbn. rewrite En, Es. set_solver.
    + rewrite List_ip_elem. intros Hnew ipStr. rewrite !Allowed_listed; [|done|].
      2:{ apply (filter_step_ok _ (OpRemove _)). by apply publishView_ok. }
      cbn. rewrite Hm, En, Es. assert (f_single f ∖ {[IPNet_String n]} = f_single f) as -> by set_solver.
      rewrite filter_app, filter_fresh by naive_solver. rewrite filter_cons_False by naive_solver. by rewrite filter_nil, app_nil_r.
  - destruct E as (->&En&Es). cbn [fst snd]. split; [done|]. split.
    + intros x. rewrite !List_ip_elem. cbn. rewrite En, Es. set_solver.
    + rewrite List_ip_elem. intros Hnew ipStr. rewrite !Allowed_listed; [|done|].
      2:{ apply (filter_step_ok _ (OpRemove _)). by apply publishView_ok. }
      cbn. rewrite Hm, En, Es. assert (({[IP_String ip]} ∪ f_single f) ∖ {[IP_String ip]} = f_single f) as -> by set_solver.
      by rewrite filter_fresh by naive_solver.
  - by destruct E as [-> ->].
Qed.
