(* ===== verification/RateLimit.v ===== *)
(** * The rate limiter ([security.go]: [clientBucket], [RateLimiter], [clusterCountStore])

    A sliding window of request stamps per client, held in a ring buffer, in 64 shards; an
    exempt list with a derived read view; and the cluster-remote counts a data-plane node
    adds to its own.  [None] is a panic (an index out of range), which never happens.

    - [rate_window_exact]: with a clock that does not run backwards, a request is admitted
      exactly when fewer than the limit were admitted within the window.
    - [rate_inverted_clock]: with any order of arrivals, recorded stamps never exceed the limit.
    - [cluster_rate]: what a remote count changes, and for how long.
    - [rate_exempt]: who is exempt. *)

From S2P Require Import Prelude GoStrings GoNet IPPrefix GoIPText IPFilter.

(** ** Buckets *)

Record clientBucket := mkBucket { stamps : list Instant; b_head : nat; b_n : nat; lastSeen : Instant }.
#[global] Instance clientBucket_eta : Eta clientBucket := λ b, mkBucket (stamps b) (b_head b) (b_n b) (lastSeen b).
Definition zeroTime : Instant := 0.
Definition newBucket : clientBucket := mkBucket [] 0 0 zeroTime.

(** The loop of [expire]: the head and the count it leaves. *)
Fixpoint expire_loop (n : nat) (st : list Instant) (head : nat) (cutoff : Instant) : option (nat * nat) :=
  match n with
  | O => Some (head, 0%nat)
  | S n' =>
      t ← (st !! head : option Instant);
      if cutoff <? t then Some (head, n)
      else let head := S head in
           let head := if (head =? length st)%nat then 0%nat else head in
           expire_loop n' st head cutoff
  end.
Definition expire (cutoff : Instant) (b : clientBucket) : option clientBucket :=
  '(h, n) ← expire_loop (b_n b) (stamps b) (b_head b) cutoff; Some (b <| b_head := h |> <| b_n := n |>).

(** The capacity [grow] allocates. *)
Definition grow_cap (limit : Z) (b : clientBucket) : nat :=
  let c := (length (stamps b) * 2)%nat in
  let c := if (c =? 0)%nat then 4%nat else c in
  let c := if (0 <? limit) && (limit <? Z.of_nat c) then Z.to_nat limit else c in
  if (c <=? b_n b)%nat then S (b_n b) else c.
Definition grow (limit : Z) (b : clientBucket) : clientBucket :=
  let c := grow_cap limit b in
  let next := take c (drop (b_head b) (stamps b) ++ take (b_head b) (stamps b) ++ replicate c zeroTime)%list in
  b <| stamps := next |> <| b_head := 0%nat |>.

(** The stamp [add] writes at index [i]: not before the newest one present. *)
Definition clamp_at (t : Instant) (b : clientBucket) (i : nat) : option Instant :=
  if (0 <? b_n b)%nat then
    let j := if (i =? 0)%nat then (length (stamps b) - 1)%nat else (i - 1)%nat in
    newest ← stamps b !! j; Some (if t <? newest then newest else t)
  else Some t.
Definition add (t : Instant) (limit : Z) (b : clientBucket) : option clientBucket :=
  let b := if (b_n b =? length (stamps b))%nat then grow limit b else b in
  let len := length (stamps b) in
  let i := (b_head b + b_n b)%nat in
  let i := if (len <=? i)%nat then (i - len)%nat else i in
  t ← clamp_at t b i;
  if (i <? len)%nat then Some (b <| stamps := <[i := t]> (stamps b) |> <| b_n := S (b_n b) |>) else None.

(** ** The limiter *)

Definition rlShardCount : nat := 64.
Record rlExemptView := mkExemptView { ev_ips : gset string; ev_nets : prefixSet }.
Definition emptyRLExemptView : rlExemptView := mkExemptView ∅ empty_prefixSet.

Record RateLimiter := mkRL {
  shards : list (gmap string clientBucket); rl_limit : Z; rl_window : Z; rl_enabled : bool;
  exemptNets : list IPNet; exemptIPs : gset string; exemptView : option rlExemptView;
}.
#[global] Instance RateLimiter_eta : Eta RateLimiter := λ r,
  mkRL (shards r) (rl_limit r) (rl_window r) (rl_enabled r) (exemptNets r) (exemptIPs r) (exemptView r).
Definition newRateLimiter : RateLimiter := mkRL (replicate rlShardCount ∅) 0 0 false [] ∅ None.

Definition loadExemptView (r : RateLimiter) : rlExemptView := default emptyRLExemptView (exemptView r).
Definition publishExemptViewLocked (r : RateLimiter) : RateLimiter :=
  r <| exemptView := Some (mkExemptView (exemptIPs r) (buildPrefixSet (exemptNets r))) |>.

Definition IsExempt (r : RateLimiter) (ip : string) : bool :=
  let v := loadExemptView r in
  if bool_decide (ev_ips v = ∅) && prefixSet_empty (ev_nets v) then false
  else if bool_decide (ip ∈ ev_ips v) then true
  else if prefixSet_empty (ev_nets v) then false
  else match ParseAddr ip with
       | None => false
       | Some addr => if negb (Zone addr =? "")%string then false else prefixSet_contains (ev_nets v) (Unmap addr) ip
       end.

(** [addExemptionLocked]: [true] is its error. *)
Definition addExemptionLocked (entry : string) (r : RateLimiter) : bool * RateLimiter :=
  match ParseCIDR entry with
  | Some cidr => (false, r <| exemptNets := (exemptNets r ++ [cidr])%list |>)
  | None =>
      match ParseIP entry with
      | Some ip => (false, r <| exemptIPs := {[IP_String ip]} ∪ exemptIPs r |>)
      | None => (true, r)
      end
  end.
Definition AddExemption (entry : string) (r : RateLimiter) : bool * RateLimiter :=
  let '(err, r) := addExemptionLocked entry r in
  if (err : bool) then (true, r) else (false, publishExemptViewLocked r).
Fixpoint exempt_loop (entries : list string) (r : RateLimiter) : list string * RateLimiter :=
  match entries with
  | [] => ([], r)
  | e :: entries =>
      let '(err, r) := addExemptionLocked e r in
      let '(invalid, r) := exempt_loop entries r in
      (if (err : bool) then e :: invalid else invalid, r)
  end.
Definition AddExemptions (entries : list string) (r : RateLimiter) : list string * RateLimiter :=
  match entries with
  | [] => ([], r)
  | _ => let '(invalid, r) := exempt_loop entries r in (invalid, publishExemptViewLocked r)
  end.
Definition RemoveExemption (entry : string) (r : RateLimiter) : RateLimiter :=
  publishExemptViewLocked (r <| exemptIPs := exemptIPs r ∖ {[entry]} |>
    <| exemptNets := filter (λ n, IPNet_String n ≠ entry) (exemptNets r) |>).
Definition ReplaceExemptions (entries : list string) (r : RateLimiter) : RateLimiter :=
  let ips := list_to_set (omap (λ e, match ParseCIDR e with Some _ => None | None => IP_String <$> ParseIP e end) entries) in
  let nets := omap ParseCIDR entries in
  publishExemptViewLocked (r <| exemptIPs := ips |> <| exemptNets := nets |>).
Definition ListExemptions (r : RateLimiter) : list string := (elements (exemptIPs r) ++ map IPNet_String (exemptNets r))%list.

(** [shard]: FNV-1a over the bytes, on 64 bits. *)
Definition fnv_hash (ip : string) : Z :=
  fold_left (λ h c, (Z.lxor h (byte_val c) * 1099511628211) mod 2 ^ 64) (list_ascii_of_string ip) 14695981039346656037.
Definition shard (ip : string) : nat := Z.to_nat (fnv_hash ip mod Z.of_nat rlShardCount).

Definition Configure (limit : Z) (window : Duration) (r : RateLimiter) : RateLimiter :=
  r <| rl_limit := limit |> <| rl_window := window |> <| rl_enabled := 0 <? limit |>.
Definition Enabled_rl (r : RateLimiter) : bool := rl_enabled r.
Definition Limit (r : RateLimiter) : Z := rl_limit r.
Definition Window_rl (r : RateLimiter) : Duration := rl_window r.

(** The counting part of [Allow] and [AllowClusterAware]; [remote] is added to the local count. *)
Definition count_request (now : Instant) (ip : string) (remote : Z) (r : RateLimiter) : option (bool * RateLimiter) :=
  let limit := rl_limit r in
  let cutoff := now + wrap64 (- rl_window r) in
  clients ← shards r !! shard ip;
  let b := (default newBucket (clients !! ip)) <| lastSeen := now |> in
  b ← expire cutoff b;
  let store (b : clientBucket) := r <| shards := <[shard ip := <[ip := b]> clients]> (shards r) |> in
  if limit <=? wrap64 (Z.of_nat (b_n b) + remote) then Some (false, store b)
  else b ← add now limit b; Some (true, store b).

Definition Allow_rl (now : Instant) (ip : string) (r : RateLimiter) : option (bool * RateLimiter) :=
  if negb (rl_enabled r) then Some (true, r)
  else if IsExempt r ip then Some (true, r)
  else count_request now ip 0 r.

Definition Cleanup_rl (now : Instant) (r : RateLimiter) : RateLimiter :=
  let cutoff := now + wrap64 (wrap64 (- rl_window r) * 2) in
  r <| shards := map (filter (λ '(ip, b), ¬ lastSeen b < cutoff)) (shards r) |>.

(** ** Cluster counts *)

Record clusterCountStore := mkCounts { cc_counts : gmap string Z; appliedAtNano : Z }.
Definition clusterRemoteCountFallbackMaxAge : Duration := Minute.
Definition clusterRemoteCountMaxAge (window : Duration) : Duration :=
  if window <=? 0 then clusterRemoteCountFallbackMaxAge else window.
Definition FreshCount (c : clusterCountStore) (ip : string) (now : Instant) (maxAge : Duration) : Z :=
  if appliedAtNano c =? 0 then 0 else
  let age := time_sub now (appliedAtNano c) in
  if (age <? 0) || (maxAge <=? age) then 0 else default 0 (cc_counts c !! ip).
Definition Apply (remote : gmap string Z) (now : Instant) (c : clusterCountStore) : clusterCountStore := mkCounts remote now.
Definition AppliedAt (c : clusterCountStore) : option Instant := if appliedAtNano c =? 0 then None else Some (appliedAtNano c).
Definition Count_cc (c : clusterCountStore) : nat := size (cc_counts c).

Definition AllowClusterAware (c : clusterCountStore) (now : Instant) (ip : string) (r : RateLimiter) : option (bool * RateLimiter) :=
  if negb (rl_enabled r) then Some (true, r)
  else if IsExempt r ip then Some (true, r)
  else count_request now ip (FreshCount c ip now (clusterRemoteCountMaxAge (rl_window r))) r.
Definition AllowAuto (clusterEnabled : bool) (c : clusterCountStore) (now : Instant) (ip : string) (r : RateLimiter) : option (bool * RateLimiter) :=
  if clusterEnabled then AllowClusterAware c now ip r else Allow_rl now ip r.

Definition hotThresholdPct : Z := 50.
(** The loop of [ExportHotDeltas] over a shard's clients. *)
Fixpoint export_clients (threshold : Z) (cutoff : Instant) (l : list (string * clientBucket)) (m : gmap string clientBucket)
    : option (list (string * Z) * gmap string clientBucket) :=
  match l with
  | [] => Some ([], m)
  | (ip, b) :: l =>
      b ← expire cutoff b;
      '(ds, m) ← export_clients threshold cutoff l (<[ip := b]> m);
      Some (if threshold <=? Z.of_nat (b_n b) then (ip, Z.of_nat (b_n b)) :: ds else ds, m)
  end.
Fixpoint export_shards (threshold : Z) (cutoff : Instant) (ss : list (gmap string clientBucket))
    : option (list (string * Z) * list (gmap string clientBucket)) :=
  match ss with
  | [] => Some ([], [])
  | s :: ss =>
      '(ds, s) ← export_clients threshold cutoff (map_to_list s) s;
      '(ds', ss) ← export_shards threshold cutoff ss; Some ((ds ++ ds')%list, s :: ss)
  end.
Definition ExportHotDeltas (now : Instant) (r : RateLimiter) : option (list (string * Z) * RateLimiter) :=
  if negb (rl_enabled r) then Some ([], r) else
  let limit := rl_limit r in
  if limit <=? 0 then Some ([], r) else
  let threshold := Z.quot (wrap64 (limit * hotThresholdPct)) 100 in
  let threshold := if threshold <? 1 then 1 else threshold in
  '(ds, ss) ← export_shards threshold (now + wrap64 (- rl_window r)) (shards r);
  Some (ds, r <| shards := ss |>).

(** ** The ring is a list *)

Definition ring {A} (h : nat) (l : list A) : list A := (drop h l ++ take h l)%list.
Lemma ring_length {A} h (l : list A) : length (ring h l) = length l.
Proof. unfold ring. rewrite length_app, length_drop, length_take. lia. Qed.
Lemma ring_lookup {A} h i (l : list A) :
  (h < length l)%nat → (i < length l)%nat →
  ring h l !! i = l !! (if (length l <=? h + i)%nat then (h + i - length l)%nat else (h + i)%nat).
Proof.
  intros Hh Hi. unfold ring. destruct (Nat.leb_spec (length l) (h + i)).
  - rewrite lookup_app_r by (rewrite length_drop; lia). rewrite length_drop, lookup_take_lt by lia. f_equal. lia.
  - rewrite lookup_app_l by (rewrite length_drop; lia). by rewrite lookup_drop.
Qed.
Lemma ring_next {A} h (l : list A) x :
  l !! h = Some x →
  ∃ rest, ring h l = x :: rest ∧ ring (if (S h =? length l)%nat then 0%nat else S h) l = (rest ++ [x])%list.
Proof.
  intros Hx. assert (h < length l)%nat as Hh by (by apply lookup_lt_Some in Hx). exists (drop (S h) l ++ take h l)%list. unfold ring. split.
  - by rewrite (drop_S _ _ _ Hx).
  - destruct (Nat.eqb_spec (S h) (length l)) as [E|E].
    + rewrite drop_0, (drop_ge l (S h)) by lia. cbn. rewrite app_nil_r. rewrite <- (take_drop h l) at 1. by rewrite (drop_S _ _ _ Hx), (drop_ge l (S h)) by lia.
    + rewrite (take_S_r _ _ _ Hx). by rewrite app_assoc.
Qed.
Lemma ring_insert {A} h n (l : list A) x :
  (h < length l)%nat → (n < length l)%nat →
  ring h (<[if (length l <=? h + n)%nat then (h + n - length l)%nat else (h + n)%nat := x]> l) = <[n := x]> (ring h l).
Proof.
  intros Hh Hn. set (i := if (length l <=? h + n)%nat then (h + n - length l)%nat else (h + n)%nat). assert (i < length l)%nat as Hi by (subst i; destruct (Nat.leb_spec (length l) (h + n)); lia).
  apply list_eq. intros j. destruct (decide (j < length l)%nat) as [Hj|Hj].
  2:{ rewrite !lookup_ge_None_2; [done|rewrite length_insert, ring_length; lia|rewrite ring_length, length_insert; lia]. }
  rewrite ring_lookup by (rewrite length_insert; lia). rewrite length_insert.
  destruct (decide (j = n)) as [->|Hne].
  - rewrite (list_lookup_insert_eq (ring h l)) by (rewrite ring_length; lia). fold i. by rewrite (list_lookup_insert_eq l).
  - rewrite (list_lookup_insert_ne (ring h l)) by done. rewrite ring_lookup by done. apply list_lookup_insert_ne. subst i.
    destruct (Nat.leb_spec (length l) (h + n)), (Nat.leb_spec (length l) (h + j)); lia.
Qed.

(** The stamps in the window, oldest first. *)
Definition live (b : clientBucket) : list Instant := take (b_n b) (ring (b_head b) (stamps b)).
Record bucket_ok (b : clientBucket) : Prop := {
  bo_n : (b_n b ≤ length (stamps b))%nat;
  bo_head : (b_head b < length (stamps b))%nat ∨ length (stamps b) = 0%nat ∧ b_head b = 0%nat;
  bo_sorted : StronglySorted Z.le (live b);
}.
Lemma live_length b : bucket_ok b → length (live b) = b_n b.
Proof. intros [Hn _ _]. unfold live. rewrite length_take, ring_length. lia. Qed.

Lemma sorted_sublist_filter (P : Instant → Prop) `{∀ s, Decision (P s)} (l : list Instant) :
  StronglySorted Z.le l → StronglySorted Z.le (filter P l).
Proof.
  induction 1 as [|s l Hs IH Hall]; [constructor|]. destruct (decide (P s)); [rewrite filter_cons_True by done|by rewrite filter_cons_False].
  constructor; [done|]. apply Forall_forall. intros u [_ Hu]%list_elem_of_filter. by eapply Forall_forall in Hall.
Qed.

(** Dropping the expired prefix is filtering. *)
Lemma sorted_filter (c t : Instant) (l : list Instant) :
  StronglySorted Z.le (t :: l) → c < t → filter (λ s : Instant, c < s) (t :: l) = t :: l.
Proof.
  intros Hs Hc. rewrite filter_cons_True by done. f_equal.
  apply StronglySorted_inv in Hs as [_ Hall]. induction Hall as [|u l Hu Hall IH]; [done|]. rewrite filter_cons_True by lia. by rewrite IH.
Qed.

Lemma expire_loop_spec n (st : list Instant) head cutoff :
  (n ≤ length st)%nat → (head < length st)%nat ∨ length st = 0%nat ∧ head = 0%nat →
  StronglySorted Z.le (take n (ring head st)) →
  ∃ head' n', expire_loop n st head cutoff = Some (head', n') ∧ (n' ≤ n)%nat ∧
    ((head' < length st)%nat ∨ length st = 0%nat ∧ head' = 0%nat) ∧
    take n' (ring head' st) = filter (λ s : Instant, cutoff < s) (take n (ring head st)).
Proof.
  revert head. induction n as [|n IH]; intros head Hn Hh Hs; cbn [expire_loop].
  { exists head, 0%nat. by rewrite take_0. }
  destruct Hh as [Hh|[? ?]]; [|lia]. destruct (lookup_lt_is_Some_2 st head Hh) as [t Ht]. rewrite Ht. cbn [mbind option_bind].
  destruct (ring_next head st t Ht) as (rest&Er&Er'). rewrite Er in Hs |- *. cbn [firstn] in Hs |- *.
  destruct (Z.ltb_spec cutoff t) as [Hlt|Hge].
  - exists head, (S n). split_and!; [done|lia|by left|]. rewrite Er. cbn [firstn]. symmetry. by apply sorted_filter.
  - rewrite filter_cons_False by lia. set (head1 := if (S head =? length st)%nat then 0%nat else S head) in *.
    assert (length rest = length st - 1)%nat as Hlr by (apply (f_equal length) in Er; rewrite ring_length in Er; cbn in Er; lia).
    assert (take n (ring head1 st) = take n rest) as E1 by (rewrite Er', take_app_le by lia; done).
    destruct (IH head1) as (h'&n'&->&Hle&Hh'&E); [lia| |by apply StronglySorted_inv in Hs as [? _]; rewrite E1|].
    + left. subst head1. destruct (Nat.eqb_spec (S head) (length st)); lia.
    + exists h', n'. split_and!; [done|lia|done|]. by rewrite E, E1.
Qed.

Lemma expire_spec cutoff b :
  bucket_ok b → ∃ b', expire cutoff b = Some b' ∧ bucket_ok b' ∧ live b' = filter (λ s : Instant, cutoff < s) (live b) ∧
    stamps b' = stamps b ∧ lastSeen b' = lastSeen b.
Proof.
  intros [Hn Hh Hs]. destruct (expire_loop_spec (b_n b) (stamps b) (b_head b) cutoff Hn Hh Hs) as (h'&n'&E&Hle&Hh'&Hl).
  unfold expire. rewrite E. cbn [mbind option_bind]. eexists. split; [done|]. split_and!; [|done|done|done].
  constructor; [cbn; lia|done|]. change (StronglySorted Z.le (take n' (ring h' (stamps b)))). rewrite Hl. by apply sorted_sublist_filter.
Qed.

(** The stamp [add] records: clamped to the newest one present. *)
Definition clamp (t : Instant) (l : list Instant) : Instant :=
  match last l with Some newest => if t <? newest then newest else t | None => t end.

Lemma grow_spec limit b :
  bucket_ok b → b_n b = length (stamps b) →
  bucket_ok (grow limit b) ∧ live (grow limit b) = live b ∧ b_n (grow limit b) = b_n b ∧ (b_n b < length (stamps (grow limit b)))%nat ∧
  lastSeen (grow limit b) = lastSeen b.
Proof.
  intros [Hn Hh Hs] Hfull. unfold grow. cbv zeta.
  assert (b_n b < grow_cap limit b)%nat as Hc.
  { unfold grow_cap. cbv zeta. match goal with |- (_ < if (?x <=? ?y)%nat then _ else _)%nat => destruct (Nat.leb_spec x y) end; lia. }
  revert Hc. generalize (grow_cap limit b). intros c Hc. set (next := take c _).
  assert (length next = c) as Hl.
  { subst next. rewrite length_take, !length_app, length_replicate, length_drop, length_take. lia. }
  assert (live (b <| stamps := next |> <| b_head := 0%nat |>) = live b) as Hlive.
  { unfold live, ring. cbn. rewrite drop_0, app_nil_r. subst next. rewrite take_take, Nat.min_l by lia.
    rewrite app_assoc. rewrite take_app_le; [done|]. rewrite length_app, length_drop, length_take. lia. }
  split_and!; [|done|done|cbn; lia|done]. constructor; [cbn; lia|left; cbn; lia|]. by rewrite Hlive.
Qed.

Lemma last_take {A} n (l : list A) x : (n < length l)%nat → last (take (S n) l) = Some x ↔ l !! n = Some x.
Proof. intros Hn. destruct (lookup_lt_is_Some_2 l n Hn) as [y Hy]. rewrite (take_S_r _ _ _ Hy), last_snoc, Hy. done. Qed.

Lemma add_spec t limit b :
  bucket_ok b → ∃ b', add t limit b = Some b' ∧ bucket_ok b' ∧ live b' = (live b ++ [clamp t (live b)])%list ∧ lastSeen b' = lastSeen b.
Proof.
  intros Hok. unfold add. cbv zeta. set (b1 := if (b_n b =? length (stamps b))%nat then grow limit b else b).
  assert (bucket_ok b1 ∧ live b1 = live b ∧ (b_n b1 < length (stamps b1))%nat ∧ lastSeen b1 = lastSeen b) as (Hok1&<-&Hlt&<-).
  { subst b1. destruct (Nat.eqb_spec (b_n b) (length (stamps b))) as [E|E].
    - destruct (grow_spec limit b Hok E) as (?&?&Hn&?&?). by rewrite Hn.
    - split_and!; try done. destruct Hok. lia. }
  clearbody b1. clear Hok b. destruct Hok1 as [Hn Hh Hs]. destruct Hh as [Hh|[Hz _]]; [|lia].
  set (len := length (stamps b1)) in *. set (i := if (len <=? b_head b1 + b_n b1)%nat then _ else _).
  assert (i < len)%nat as Hi by (subst i; destruct (Nat.leb_spec len (b_head b1 + b_n b1)); lia).
  assert (clamp_at t b1 i = Some (clamp t (live b1))) as ->.
  { unfold clamp_at, clamp, live. fold len. destruct (b_n b1) as [|k] eqn:Ek; [by rewrite take_0|]. change (0 <? S k)%nat with true. cbv iota.
    assert (stamps b1 !! (if (i =? 0)%nat then (len - 1)%nat else (i - 1)%nat) = ring (b_head b1) (stamps b1) !! k) as ->.
    { rewrite ring_lookup by (fold len; lia). fold len. f_equal. subst i.
      destruct (Nat.leb_spec len (b_head b1 + S k)), (Nat.leb_spec len (b_head b1 + k)); try lia;
        match goal with |- context [(?a =? 0)%nat] => destruct (Nat.eqb_spec a 0) end; lia. }
    assert (k < length (ring (b_head b1) (stamps b1)))%nat as Hk by (rewrite ring_length; fold len; lia).
    destruct (lookup_lt_is_Some_2 _ k Hk) as [newest Hnew]. rewrite Hnew. apply last_take in Hnew; [|done]. by rewrite Hnew. }
  cbn [mbind option_bind]. destruct (Nat.ltb_spec i len); [|lia]. eexists. split; [done|].
  set (t' := clamp t (live b1)).
  assert (live (b1 <| stamps := <[i := t']> (stamps b1) |> <| b_n := S (b_n b1) |>) = (live b1 ++ [t'])%list) as Hlive.
  { change (take (S (b_n b1)) (ring (b_head b1) (<[i := t']> (stamps b1))) = (live b1 ++ [t'])%list).
    subst i len. rewrite ring_insert by lia. unfold live.
    rewrite (take_S_r _ _ t') by (apply list_lookup_insert_eq; rewrite ring_length; lia). f_equal.
    by rewrite take_insert_ge by lia. }
  split_and!; [|done|done]. constructor.
  - cbn. rewrite length_insert. fold len. lia.
  - left. cbn. rewrite length_insert. done.
  - rewrite Hlive. apply StronglySorted_app_2; [|done|repeat constructor].
    intros x1 x2 Hx1 ->%list_elem_of_singleton. subst t'. unfold clamp. destruct (last (live b1)) as [newest|] eqn:El.
    + assert (x1 ≤ newest) as Hx.
      { apply last_Some in El as [l' El]. rewrite El in Hs, Hx1. apply elem_of_app in Hx1 as [Hx1|Hx1%list_elem_of_singleton]; [|lia].
        eapply StronglySorted_app_1_elem_of; [exact Hs|done|]. by apply list_elem_of_singleton. }
      destruct (Z.ltb_spec t newest); lia.
    + apply last_None in El. rewrite El in Hx1. by apply elem_of_nil in Hx1.
Qed.

(** ** Windows of the limiter *)

Definition bucket_of (r : RateLimiter) (ip : string) : option clientBucket := clients ← shards r !! shard ip; clients !! ip.
Definition wnd (r : RateLimiter) (ip : string) : list Instant := from_option live [] (bucket_of r ip).
Definition cutoff_at (r : RateLimiter) (now : Instant) : Instant := now + wrap64 (- rl_window r).

Record shards_ok (r : RateLimiter) : Prop := {
  so_len : length (shards r) = rlShardCount;
  so_buckets : ∀ ip b, bucket_of r ip = Some b → bucket_ok b;
  so_shard : ∀ i m ip, shards r !! i = Some m → is_Some (m !! ip) → i = shard ip;
}.

Lemma rl_shard_lt ip : (shard ip < rlShardCount)%nat.
Proof. unfold shard. pose proof (Z.mod_pos_bound (fnv_hash ip) (Z.of_nat rlShardCount) ltac:(done)). unfold rlShardCount in *. lia. Qed.

Lemma newBucket_ok now : bucket_ok (newBucket <| lastSeen := now |>).
Proof. constructor; [done|by right|constructor]. Qed.
Lemma seen_ok b now : bucket_ok b → bucket_ok (b <| lastSeen := now |>).
Proof. by intros []. Qed.

Lemma store_bucket r ip b clients :
  shards_ok r → shards r !! shard ip = Some clients → bucket_ok b →
  let r' := r <| shards := <[shard ip := <[ip := b]> clients]> (shards r) |> in
  shards_ok r' ∧ bucket_of r' ip = Some b ∧ ∀ ip', ip' ≠ ip → bucket_of r' ip' = bucket_of r ip'.
Proof.
  intros [Hlen Hb Hs] Hcl Hok r'. assert (shard ip < length (shards r))%nat as Hlt by (rewrite Hlen; apply rl_shard_lt).
  assert (bucket_of r' ip = Some b) as Hip.
  { unfold bucket_of, r'. cbn. rewrite list_lookup_insert_eq by done. cbn. by rewrite lookup_insert_eq. }
  assert (∀ ip', ip' ≠ ip → bucket_of r' ip' = bucket_of r ip') as Hother.
  { intros ip' Hne. unfold bucket_of, r'. cbn. destruct (decide (shard ip' = shard ip)) as [E|E].
    - rewrite E, list_lookup_insert_eq by done. cbn. rewrite lookup_insert_ne by done. by rewrite Hcl.
    - by rewrite list_lookup_insert_ne. }
  split_and!; [|done|done]. constructor.
  - unfold r'. cbn. by rewrite length_insert.
  - intros ip' b' Hb'. destruct (decide (ip' = ip)) as [->|Hne]; [congruence|]. rewrite Hother in Hb' by done. by eapply Hb.
  - intros i m ip' Hi Hm. unfold r' in Hi. cbn in Hi. destruct (decide (i = shard ip)) as [->|Hne].
    + rewrite list_lookup_insert_eq in Hi by done. injection Hi as <-. destruct (decide (ip' = ip)) as [->|Hip']; [done|].
      rewrite lookup_insert_ne in Hm by done. by eapply Hs.
    + rewrite list_lookup_insert_ne in Hi by done. by eapply Hs.
Qed.

(** A limiter without clients. *)
Lemma fresh_buckets r ip : shards r = replicate rlShardCount ∅ → bucket_of r ip = None.
Proof. intros Hs. unfold bucket_of. rewrite Hs, lookup_replicate_2 by apply rl_shard_lt. apply lookup_empty. Qed.
Lemma fresh_shards r : shards r = replicate rlShardCount ∅ → shards_ok r.
Proof.
  intros Hs. constructor; [by rewrite Hs, length_replicate|intros ip b; by rewrite fresh_buckets|].
  intros i m ip Hm [b Hb]. rewrite Hs in Hm. apply lookup_replicate in Hm as [-> _]. by rewrite lookup_empty in Hb.
Qed.

(** What a counted request works on: the bucket, seen now and without its expired stamps. *)
Lemma found_bucket now ip r clients :
  shards_ok r → shards r !! shard ip = Some clients →
  ∃ b1, expire (cutoff_at r now) ((default newBucket (clients !! ip)) <| lastSeen := now |>) = Some b1 ∧ bucket_ok b1 ∧
    live b1 = filter (λ s : Instant, cutoff_at r now < s) (wnd r ip) ∧ lastSeen b1 = now.
Proof.
  intros Hok Hcl. set (b0 := default newBucket (clients !! ip)).
  assert (bucket_of r ip = clients !! ip) as Hbo by (unfold bucket_of; by rewrite Hcl).
  assert (bucket_ok (b0 <| lastSeen := now |>) ∧ live (b0 <| lastSeen := now |>) = wnd r ip) as [Hb0 Hl0].
  { unfold wnd. rewrite Hbo. subst b0. destruct (clients !! ip) as [b|] eqn:E; cbn [default from_option].
    - split; [|done]. apply seen_ok. eapply (so_buckets r Hok). by rewrite Hbo.
    - split; [apply newBucket_ok|done]. }
  destruct (expire_spec (cutoff_at r now) _ Hb0) as (b1&->&Hb1&Hl1&_&Hs1). rewrite Hl0 in Hl1. by exists b1.
Qed.

(** One counted request: it always returns, and looks at the window alone. *)
Lemma count_request_spec now ip remote r :
  shards_ok r →
  let w := filter (λ s : Instant, cutoff_at r now < s) (wnd r ip) in
  let adm := negb (rl_limit r <=? wrap64 (Z.of_nat (length w) + remote)) in
  ∃ ss, let r' := r <| shards := ss |> in
    count_request now ip remote r = Some (adm, r') ∧ shards_ok r' ∧
    (lastSeen <$> bucket_of r' ip) = Some now ∧ wnd r' ip = (if adm then w ++ [clamp now w] else w)%list ∧
    ∀ ip', ip' ≠ ip → bucket_of r' ip' = bucket_of r ip'.
Proof.
  intros Hok w adm. assert (shard ip < length (shards r))%nat as Hlt by (rewrite (so_len r Hok); apply rl_shard_lt).
  destruct (lookup_lt_is_Some_2 _ _ Hlt) as [clients Hcl]. unfold count_request. rewrite Hcl. cbn [mbind option_bind].
  fold (cutoff_at r now). destruct (found_bucket now ip r clients Hok Hcl) as (b1&->&Hb1&Hl1&Hs1). fold w in Hl1. cbn [mbind option_bind].
  rewrite <- (live_length b1 Hb1), Hl1. fold adm. unfold adm. destruct (rl_limit r <=? wrap64 (Z.of_nat (length w) + remote)); cbn [negb].
  - destruct (store_bucket r ip b1 clients Hok Hcl Hb1) as (Hok'&Hip&Hother). eexists. split_and!; [done|done|by rewrite Hip; cbn; f_equal|by unfold wnd; rewrite Hip|done].
  - destruct (add_spec now (rl_limit r) b1 Hb1) as (b2&->&Hb2&Hl2&Hs2). cbn [mbind option_bind].
    destruct (store_bucket r ip b2 clients Hok Hcl Hb2) as (Hok'&Hip&Hother). eexists.
    split_and!; [done|done|rewrite Hip; cbn; f_equal; by rewrite Hs2|unfold wnd; rewrite Hip; cbn; by rewrite Hl2, Hl1|done].
Qed.

(** The janitor removes clients not seen for two windows. *)
Lemma Cleanup_spec now r :
  shards_ok r → shards_ok (Cleanup_rl now r) ∧
  ∀ ip, bucket_of (Cleanup_rl now r) ip =
    (b ← bucket_of r ip; if bool_decide (lastSeen b < now + wrap64 (wrap64 (- rl_window r) * 2)) then None else Some b).
Proof.
  intros [Hlen Hb Hs]. set (c := now + wrap64 (wrap64 (- rl_window r) * 2)).
  assert (∀ ip, bucket_of (Cleanup_rl now r) ip = (b ← bucket_of r ip; if bool_decide (lastSeen b < c) then None else Some b)) as Hbo.
  { intros ip. unfold bucket_of, Cleanup_rl. cbn. fold c. change (map ?f (shards r)) with (f <$> shards r). rewrite list_lookup_fmap.
    destruct (shards r !! shard ip) as [m|]; [|done]. cbn. destruct (m !! ip) as [b|] eqn:E; cbn.
    - case_bool_decide as Hc; [apply map_lookup_filter_None; right; intros ? ?; simplify_eq; tauto|].
      apply map_lookup_filter_Some. split; [done|]. done.
    - apply map_lookup_filter_None. by left. }
  split; [|done]. constructor.
  - unfold Cleanup_rl. cbn. by rewrite length_map.
  - intros ip b. rewrite Hbo. destruct (bucket_of r ip) eqn:E; [|done]. cbn. case_bool_decide; [done|]. intros [= <-]. by eapply Hb.
  - intros i m ip Hi Hm. unfold Cleanup_rl in Hi. cbn in Hi. change (map ?f (shards r)) with (f <$> shards r) in Hi.
    rewrite list_lookup_fmap in Hi. destruct (shards r !! i) as [m0|] eqn:E; [|done]. injection Hi as <-.
    eapply Hs; [done|]. destruct Hm as [b Hm]. apply map_lookup_filter_Some in Hm as [Hm _]. by eexists.
Qed.

(** The export drops expired stamps and reports the busy clients. *)
Lemma export_clients_spec threshold cutoff l m :
  NoDup l.*1 → Forall (bucket_ok ∘ snd) l →
  ∃ ds m', export_clients threshold cutoff l m = Some (ds, m') ∧
    (∀ ip, ip ∉ l.*1 → m' !! ip = m !! ip) ∧
    (∀ ip b, (ip, b) ∈ l → ∃ b', expire cutoff b = Some b' ∧ m' !! ip = Some b') ∧
    (∀ ip c, (ip, c) ∈ ds ↔ ∃ b, (ip, b) ∈ l ∧ c = Z.of_nat (length (filter (λ s : Instant, cutoff < s) (live b))) ∧ threshold ≤ c).
Proof.
  revert m. induction l as [|[ip b] l IH]; intros m Hnd Hok; cbn [export_clients].
  { exists [], m. split_and!; [done|done|by intros ? ? ?%elem_of_nil|]. intros ip c. rewrite elem_of_nil. split; [done|].
    by intros (?&?%elem_of_nil&_). }
  cbn [fmap list_fmap fst] in Hnd. apply NoDup_cons in Hnd as [Hnin Hnd]. apply Forall_cons in Hok as [Hb Hok]. cbn in Hb.
  destruct (expire_spec cutoff b Hb) as (b1&E1&Hb1&Hl1&_). rewrite E1. cbn [mbind option_bind].
  destruct (IH (<[ip := b1]> m) Hnd Hok) as (ds&m'&->&Hout&Hin&Hds). cbn [mbind option_bind].
  assert (∀ ip' b', (ip', b') ∈ l → ip' ≠ ip) as Hne.
  { intros ip' b' Hi ->. apply Hnin. apply list_elem_of_fmap. by exists (ip, b'). }
  eexists _, m'. split; [reflexivity|]. split_and!.
  - intros ip' [Hne' Hni]%not_elem_of_cons. rewrite Hout by done. by apply lookup_insert_ne.
  - intros ip' b' [[= -> ->]|Hi]%elem_of_cons; [|by apply Hin]. exists b1. split; [done|]. rewrite Hout by done. apply lookup_insert_eq.
  - intros ip' c. rewrite <- (live_length b1 Hb1), Hl1.
    assert ((∃ b', (ip', b') ∈ (ip, b) :: l ∧ c = Z.of_nat (length (filter (λ s : Instant, cutoff < s) (live b'))) ∧ threshold ≤ c) ↔
      (ip' = ip ∧ c = Z.of_nat (length (filter (λ s : Instant, cutoff < s) (live b))) ∧ threshold ≤ c) ∨ (ip', c) ∈ ds) as ->.
    { rewrite Hds. setoid_rewrite elem_of_cons. split; [intros (b'&[[= -> ->]|Hi]&Hc); [by left|right; eauto]|].
      intros [(->&Hc)|(b'&Hi&Hc)]; eauto. }
    destruct (Z.leb_spec threshold (Z.of_nat (length (filter (λ s : Instant, cutoff < s) (live b))))) as [Ht|Ht].
    + rewrite elem_of_cons. split; [intros [[= -> ->]|?]; auto|]. intros [(->&->&_)|?]; auto.
    + split; [auto|]. intros [(_&->&?)|?]; [lia|done].
Qed.

Lemma export_shards_spec threshold cutoff ss :
  (∀ s ip b, s ∈ ss → s !! ip = Some b → bucket_ok b) →
  ∃ ds ss', export_shards threshold cutoff ss = Some (ds, ss') ∧ length ss' = length ss ∧
    (∀ i s s' ip, ss !! i = Some s → ss' !! i = Some s' → s' !! ip = (b ← s !! ip; expire cutoff b)) ∧
    (∀ ip c, (ip, c) ∈ ds ↔ ∃ s b, s ∈ ss ∧ s !! ip = Some b ∧ c = Z.of_nat (length (filter (λ t : Instant, cutoff < t) (live b))) ∧ threshold ≤ c).
Proof.
  induction ss as [|s ss IH]; intros Hok; cbn [export_shards].
  { exists [], []. split_and!; [done|done|done|]. intros ip c. rewrite elem_of_nil. split; [done|]. by intros (?&?&?%elem_of_nil&_). }
  destruct (export_clients_spec threshold cutoff (map_to_list s) s) as (ds&s'&->&Hout&Hin&Hds).
  { apply NoDup_fst_map_to_list. }
  { apply Forall_forall. intros [ip b] Hi%elem_of_map_to_list. by eapply (Hok s); [set_solver|]. }
  destruct IH as (ds'&ss'&E&Hlen&Hl&Hds'); [intros ? ? ? ?; apply Hok; set_solver|]. cbn [mbind option_bind]. rewrite E. cbn [mbind option_bind].
  eexists _, _. split; [reflexivity|]. split_and!; [cbn; by rewrite Hlen| |].
  - intros [|i] s0 s1 ip; cbn; [|apply Hl]. intros [= <-] [= <-]. destruct (s !! ip) as [b|] eqn:Eb; cbn.
    + apply elem_of_map_to_list in Eb. destruct (Hin ip b Eb) as (b'&->&->). done.
    + rewrite Hout; [done|]. intros Hi. apply list_elem_of_fmap in Hi as ([? b]&->&Hi%elem_of_map_to_list). cbn in *. congruence.
  - intros ip c. rewrite elem_of_app, Hds, Hds'. setoid_rewrite elem_of_map_to_list. setoid_rewrite elem_of_cons. naive_solver.
Qed.

Definition hot_threshold (r : RateLimiter) : Z := Z.max 1 (Z.quot (wrap64 (rl_limit r * hotThresholdPct)) 100).
Lemma ExportHotDeltas_spec now r :
  shards_ok r → 
  ∃ ds r', ExportHotDeltas now r = Some (ds, r') ∧ shards_ok r' ∧ r' = r <| shards := shards r' |> ∧
    (rl_enabled r = true → 0 < rl_limit r → 
       (∀ ip, bucket_of r' ip = (b ← bucket_of r ip; expire (cutoff_at r now) b)) ∧
       ∀ ip c, (ip, c) ∈ ds ↔ c = Z.of_nat (length (filter (λ s : Instant, cutoff_at r now < s) (wnd r ip))) ∧ hot_threshold r ≤ c) ∧
    (rl_enabled r = false ∨ rl_limit r ≤ 0 → ds = [] ∧ r' = r).
Proof.
  intros Hok. unfold ExportHotDeltas. destruct (rl_enabled r) eqn:Een; cbn [negb].
  2:{ exists [], r. split_and!; try done. by destruct r. }
  destruct (Z.leb_spec (rl_limit r) 0) as [Hle|Hgt].
  { exists [], r. split_and!; try done; first [by destruct r|intros; lia]. }
  cbv zeta. set (th := if _ <? 1 then 1 else _). assert (th = hot_threshold r) as Hth.
  { unfold th, hot_threshold. match goal with |- (if ?a <? ?b then _ else _) = _ => destruct (Z.ltb_spec a b) end; lia. }
  clearbody th. subst th. fold (cutoff_at r now).
  destruct (export_shards_spec (hot_threshold r) (cutoff_at r now) (shards r)) as (ds&ss'&->&Hlen&Hl&Hds).
  { intros s ip b [i Hi]%list_elem_of_lookup Hb. assert (i = shard ip) as -> by (eapply (so_shard r Hok); [done|by eexists]).
    eapply (so_buckets r Hok). unfold bucket_of. rewrite Hi. done. }
  cbn [mbind option_bind]. eexists _, _. split; [done|].
  assert (∀ ip, bucket_of (r <| shards := ss' |>) ip = (b ← bucket_of r ip; expire (cutoff_at r now) b)) as Hbo.
  { intros ip. assert (shard ip < length (shards r))%nat as Hlt by (rewrite (so_len r Hok); apply rl_shard_lt).
    destruct (lookup_lt_is_Some_2 _ _ Hlt) as [s Hs]. rewrite <- Hlen in Hlt. destruct (lookup_lt_is_Some_2 _ _ Hlt) as [s' Hs'].
    unfold bucket_of. cbn. rewrite Hs, Hs'. cbn. by apply (Hl (shard ip)). }
  split_and!.
  - constructor; [cbn; rewrite Hlen; apply Hok| |].
    + intros ip b'. rewrite Hbo. destruct (bucket_of r ip) as [b|] eqn:Eb; [|done]. cbn. intros Hx.
      apply (so_buckets r Hok) in Eb. destruct (expire_spec (cutoff_at r now) b Eb) as (b2&E2&Hb2&_). congruence.
    + intros i m ip Hi [b Hb]. cbn in Hi. assert (i < length (shards r))%nat as Hlt by (rewrite <- Hlen; by eapply lookup_lt_Some).
      destruct (lookup_lt_is_Some_2 _ _ Hlt) as [s Hs]. rewrite (Hl i s m ip Hs Hi) in Hb.
      eapply (so_shard r Hok); [done|]. destruct (s !! ip); [by eexists|done].
  - done.
  - intros _ _. split; [done|]. intros ip c. rewrite Hds. split.
    + intros (s&b&[i Hi]%list_elem_of_lookup&Hb&->&Hc). assert (i = shard ip) as -> by (eapply (so_shard r Hok); [done|by eexists]).
      unfold wnd, bucket_of. rewrite Hi. cbn. rewrite Hb. done.
    + intros [-> Hc]. unfold wnd, bucket_of in *. destruct (shards r !! shard ip) as [s|] eqn:Es; cbn in *.
      * destruct (s !! ip) as [b|] eqn:Eb; cbn in *; [|unfold hot_threshold in Hc; lia]. exists s, b. split_and!; try done.
        by eapply list_elem_of_lookup_2.
      * unfold hot_threshold in Hc. lia.
  - intros [?|?]; [done|lia].
Qed.

(** ** Exemptions *)

(** The reference: the text is listed as it is, or a network contains the address. *)
Definition exempted (nets : list IPNet) (ips : gset string) (ip : string) : bool :=
  bool_decide (ip ∈ ips) || match ParseIP ip with Some a => existsb (λ n, IPNet_Contains n a) nets | None => false end.

Record exempt_ok (r : RateLimiter) : Prop := {
  eo_nets : Forall IPNet_cidr (exemptNets r);
  eo_view : loadExemptView r = mkExemptView (exemptIPs r) (buildPrefixSet (exemptNets r));
}.

Lemma prefixSet_empty_nil nets : Forall IPNet_cidr nets → prefixSet_empty (buildPrefixSet nets) = true → nets = [].
Proof.
  intros Hn He. unfold prefixSet_empty in He. apply andb_prop in He as [Hp%bool_decide_eq_true _].
  destruct (buildPrefixSet_spec nets Hn) as (_&Hpre&_). destruct nets as [|n nets]; [done|]. exfalso.
  apply Forall_cons in Hn as [Hn _]. destruct (prefixFromIPNet_cidr n Hn) as [[p Hnp] _].
  assert (p ∈ prefixes (buildPrefixSet (n :: nets))) as Hin by (apply Hpre; exists n; set_solver). set_solver.
Qed.

Lemma IsExempt_spec r ip : exempt_ok r → IsExempt r ip = exempted (exemptNets r) (exemptIPs r) ip.
Proof.
  intros [Hn Hv]. unfold IsExempt, exempted. rewrite Hv. cbn [ev_ips ev_nets].
  destruct (prefixSet_empty (buildPrefixSet (exemptNets r))) eqn:Ee.
  - apply prefixSet_empty_nil in Ee as ->; [|done]. cbn [existsb]. rewrite andb_true_r.
    case_bool_decide as Hi; [|case_bool_decide; by destruct (ParseIP ip)].
    rewrite bool_decide_false by set_solver. by destruct (ParseIP ip).
  - rewrite andb_false_r. case_bool_decide; [done|]. cbn [orb]. unfold ParseIP.
    destruct (ParseAddr ip) as [a|] eqn:Ea; [|done]. cbn [mbind option_bind].
    destruct (String.eqb_spec (Zone a) ""); [|done]. cbn [negb]. rewrite prefixSet_contains_scan; [done..|by eapply ParseAddr_wf|done].
Qed.

Inductive ExemptOp := OpAddEx (e : string) | OpAddAllEx (es : list string) | OpRemoveEx (e : string) | OpReplaceEx (es : list string).
Definition exempt_step (r : RateLimiter) (op : ExemptOp) : RateLimiter :=
  match op with
  | OpAddEx e => (AddExemption e r).2
  | OpAddAllEx es => (AddExemptions es r).2
  | OpRemoveEx e => RemoveExemption e r
  | OpReplaceEx es => ReplaceExemptions es r
  end.
Definition exempt_run (ops : list ExemptOp) : RateLimiter := fold_left exempt_step ops newRateLimiter.

(** The edits of the exempt list touch nothing else. *)
Definition same_windows (r r' : RateLimiter) : Prop :=
  shards r' = shards r ∧ rl_limit r' = rl_limit r ∧ rl_window r' = rl_window r ∧ rl_enabled r' = rl_enabled r.
Lemma publish_exempt_ok r : Forall IPNet_cidr (exemptNets r) → exempt_ok (publishExemptViewLocked r).
Proof. intros Hn. by constructor. Qed.
Lemma addExemption_ok e r :
  Forall IPNet_cidr (exemptNets r) →
  let '(err, r') := addExemptionLocked e r in
  Forall IPNet_cidr (exemptNets r') ∧ same_windows r r' ∧ (err = true → r' = r).
Proof.
  intros Hn. unfold addExemptionLocked. destruct (ParseCIDR e) as [n|] eqn:Ec; [|by destruct (ParseIP e)].
  split; [|done]. cbn. apply Forall_app. split; [done|]. repeat constructor. by eapply ParseCIDR_cidr.
Qed.
Lemma exempt_loop_ok es r :
  Forall IPNet_cidr (exemptNets r) → Forall IPNet_cidr (exemptNets (exempt_loop es r).2) ∧ same_windows r (exempt_loop es r).2.
Proof.
  revert r. induction es as [|e es IH]; intros r Hn; [done|]. cbn [exempt_loop]. pose proof (addExemption_ok e r Hn) as Ha.
  destruct (addExemptionLocked e r) as [err r1]. destruct Ha as (Hn1&Hs1&_). destruct (IH r1 Hn1) as [Hn2 Hs2].
  destruct (exempt_loop es r1) as [inv r2]. cbn in *. split; [done|]. unfold same_windows in *. intuition congruence.
Qed.
Lemma exempt_step_ok r op : exempt_ok r → exempt_ok (exempt_step r op) ∧ same_windows r (exempt_step r op).
Proof.
  intros Hok. pose proof (eo_nets r Hok) as Hn. destruct op as [e|es|e|es]; cbn [exempt_step].
  - unfold AddExemption. pose proof (addExemption_ok e r Hn) as Ha. destruct (addExemptionLocked e r) as [[] r1]; destruct Ha as (Hn1&Hs1&He).
    + by rewrite He.
    + split; [by apply publish_exempt_ok|done].
  - unfold AddExemptions. destruct es as [|e es]; [done|]. destruct (exempt_loop_ok (e :: es) r Hn) as [Hn1 Hs1].
    destruct (exempt_loop (e :: es) r). split; [by apply publish_exempt_ok|done].
  - split; [|done]. apply publish_exempt_ok. cbn. apply Forall_forall. intros n [_ Hin]%list_elem_of_filter. by eapply Forall_forall in Hn.
  - split; [|done]. apply publish_exempt_ok. cbn. apply Forall_forall. intros n (e&_&Hc)%list_elem_of_omap. by eapply ParseCIDR_cidr.
Qed.
Lemma exempt_run_ok ops : exempt_ok (exempt_run ops) ∧ shards (exempt_run ops) = replicate rlShardCount ∅.
Proof.
  unfold exempt_run. assert (exempt_ok newRateLimiter ∧ shards newRateLimiter = replicate rlShardCount ∅) as Hok by (split; [by constructor|done]).
  revert Hok. generalize newRateLimiter. induction ops as [|op ops IH]; intros r [Hok Hs]; [done|].
  destruct (exempt_step_ok r op Hok) as [Hok' (Hs'&_)]. apply IH. split; [done|]. by rewrite Hs'.
Qed.

(** Who is exempt from rate limiting.  After any edits of the exempt list, the lock-free
    view exempts exactly the clients whose text is listed as an address, or whose address a
    listed network contains; an exempt client is always admitted, at no cost to anybody's
    window. *)
Theorem rate_exempt (ops : list ExemptOp) (limit : Z) (window : Duration) (now : Instant) (ip : string) :
  let r := Configure limit window (exempt_run ops) in
  IsExempt r ip = exempted (exemptNets r) (exemptIPs r) ip ∧
  (IsExempt r ip = true ∨ limit ≤ 0 → ∀ c on, AllowAuto on c now ip r = Some (true, r)).
Proof.
  intros r. destruct (exempt_run_ok ops) as [Hok _]. split; [apply (IsExempt_spec r); by destruct Hok|].
  intros Hex c on. unfold AllowAuto, AllowClusterAware, Allow_rl.
  destruct Hex as [Hex|Hlim]; [rewrite Hex; by destruct (negb (rl_enabled r)), on|].
  assert (rl_enabled r = false) as -> by (unfold r; cbn; destruct (Z.ltb_spec 0 limit); [lia|done]). by destruct on.
Qed.

(** ** The window is exact *)

Inductive RLCall := RAllow (now : Instant) (ip : string) | RCleanup (now : Instant) | RExport (now : Instant).
Definition call_time (c : RLCall) : Instant := match c with RAllow now _ | RCleanup now | RExport now => now end.
(** A run of calls: the limiter, and the admitted requests in order. *)
Definition rl_call (s : list (string * Instant) * RateLimiter) (c : RLCall) : option (list (string * Instant) * RateLimiter) :=
  match c with
  | RAllow now ip => '(adm, r) ← Allow_rl now ip s.2; Some (if (adm : bool) then (s.1 ++ [(ip, now)])%list else s.1, r)
  | RCleanup now => Some (s.1, Cleanup_rl now s.2)
  | RExport now => '(_, r) ← ExportHotDeltas now s.2; Some (s.1, r)
  end.
Fixpoint rl_run (calls : list RLCall) (s : list (string * Instant) * RateLimiter) : option (list (string * Instant) * RateLimiter) :=
  match calls with [] => Some s | c :: calls => s ← rl_call s c; rl_run calls s end.
Definition admitted (log : list (string * Instant)) (ip : string) : list Instant := omap (λ p, if bool_decide (p.1 = ip) then Some p.2 else None) log.
(** The requests of a client admitted in the window ending at [t]. *)
Definition in_window (window : Duration) (t : Instant) (l : list Instant) : list Instant := filter (λ s : Instant, t - window < s ≤ t) l.

Lemma filter_ext_in (P Q : Instant → Prop) `{∀ s, Decision (P s), ∀ s, Decision (Q s)} (l : list Instant) :
  (∀ s, s ∈ l → P s ↔ Q s) → filter P l = filter Q l.
Proof.
  induction l as [|s l IH]; intros Hl; [done|]. destruct (decide (P s)) as [Hp|Hp].
  - rewrite !filter_cons_True by (done || by apply Hl; [left|]). rewrite IH; [done|]. intros u Hu. apply Hl. by right.
  - rewrite !filter_cons_False; [|by rewrite <- Hl by left|done]. apply IH. intros u Hu. apply Hl. by right.
Qed.
Lemma filter_none_in (P : Instant → Prop) `{∀ s, Decision (P s)} (l : list Instant) : (∀ s, s ∈ l → ¬ P s) → filter P l = [].
Proof.
  intros Hl. induction l as [|s l IH]; [done|]. rewrite filter_cons_False by (apply Hl; by left). apply IH. intros u Hu. apply Hl. by right.
Qed.
Lemma filter_length_in (P Q : Instant → Prop) `{∀ s, Decision (P s), ∀ s, Decision (Q s)} (l : list Instant) :
  (∀ s, s ∈ l → P s → Q s) → (length (filter P l) ≤ length (filter Q l))%nat.
Proof.
  intros Hl. rewrite <- (filter_ext_in (λ s, P s ∧ Q s) P l) by (intros s Hs; specialize (Hl s Hs); tauto).
  rewrite <- list_filter_filter. apply length_filter.
Qed.

Lemma admitted_snoc log ip ip' now : admitted (log ++ [(ip, now)]) ip' = (admitted log ip' ++ (if bool_decide (ip = ip') then [now] else []))%list.
Proof. unfold admitted. rewrite omap_app. cbn. by case_bool_decide. Qed.
Lemma filter_later (c c' : Instant) (l : list Instant) :
  c ≤ c' → filter (λ s : Instant, c' < s) (filter (λ s : Instant, c < s) l) = filter (λ s : Instant, c' < s) l.
Proof. intros Hc. apply list_filter_filter_l. intros s Hs. lia. Qed.

Section exact.
Context (v : option rlExemptView) (limit window : Z) (Hlimit : 0 < limit ≤ int64_max) (Hwindow : 0 < window < 2 ^ 62).

Record rl_inv (T : Instant) (log : list (string * Instant)) (r : RateLimiter) : Prop := {
  ri_shards : shards_ok r;
  ri_exempt : exempt_ok r;
  ri_view : exemptView r = v;
  ri_config : rl_limit r = limit ∧ rl_window r = window ∧ rl_enabled r = true;
  ri_past : ∀ ip s, s ∈ admitted log ip → s ≤ T;
  ri_seen : ∀ ip b s, IsExempt r ip = false → bucket_of r ip = Some b → s ∈ admitted log ip → s ≤ lastSeen b;
  ri_wnd : ∀ ip now, IsExempt r ip = false → T ≤ now →
    filter (λ s : Instant, now - window < s) (wnd r ip) = filter (λ s : Instant, now - window < s) (admitted log ip);
  ri_bound : ∀ ip t, IsExempt r ip = false → Z.of_nat (length (in_window window t (admitted log ip))) ≤ limit;
}.

Lemma cutoff_window r now : rl_window r = window → cutoff_at r now = now - window.
Proof using Hwindow. intros E. unfold cutoff_at. rewrite E. rewrite wrap64_small by (unfold int64_min, int64_max; lia). lia. Qed.

(** Replacing the shards leaves the exempt list alone. *)
Lemma IsExempt_shards r ss ip : IsExempt (r <| shards := ss |>) ip = IsExempt r ip.
Proof. done. Qed.
Lemma in_window_past t l : (∀ s, s ∈ l → s ≤ t) → in_window window t l = filter (λ s : Instant, t - window < s) l.
Proof. intros Hl. apply filter_ext_in. intros s Hs. specialize (Hl s Hs). lia. Qed.

(** What a request finds: the requests admitted within the window. *)
Lemma found_window T log r ip now :
  rl_inv T log r → T ≤ now → IsExempt r ip = false →
  filter (λ s : Instant, cutoff_at r now < s) (wnd r ip) = in_window window now (admitted log ip).
Proof using Hwindow.
  intros Hi HT He. rewrite in_window_past; [|intros s Hs; pose proof (ri_past _ _ _ Hi ip s Hs); lia].
  rewrite (cutoff_window r now) by apply (ri_config _ _ _ Hi). by apply (ri_wnd _ _ _ Hi).
Qed.
Lemma clamp_past now l : (∀ s, s ∈ l → s ≤ now) → clamp now l = now.
Proof.
  intros Hl. unfold clamp. destruct (last l) as [newest|] eqn:E; [|done].
  assert (newest ≤ now) by (apply Hl; by apply last_Some_elem_of). destruct (Z.ltb_spec now newest); [lia|done].
Qed.

Lemma window_grows T log ip now t :
  (∀ s, s ∈ admitted log ip → s ≤ now) → T ≤ now → Z.of_nat (length (in_window window now (admitted log ip))) < limit →
  Z.of_nat (length (in_window window t (admitted log ip))) ≤ limit →
  Z.of_nat (length (in_window window t (admitted log ip ++ [now]))) ≤ limit.
Proof.
  intros Hpast HT Hroom Hold. unfold in_window at 1. rewrite filter_app.
  destruct (decide (t - window < now ≤ t)) as [Hin|Hout].
  - rewrite filter_cons_True by done. rewrite filter_nil, length_app. cbn [length].
    assert (length (in_window window t (admitted log ip)) ≤ length (in_window window now (admitted log ip)))%nat as Hle.
    { apply filter_length_in. intros s Hs ?. specialize (Hpast s Hs). lia. }
    unfold in_window in *. lia.
  - rewrite filter_cons_False by done. rewrite filter_nil, app_nil_r. exact Hold.
Qed.

(** Requests of other clients, and of exempt ones, do not count. *)
Lemma Allow_inv T log r now ip :
  rl_inv T log r → T ≤ now →
  let adm := IsExempt r ip || bool_decide (Z.of_nat (length (in_window window now (admitted log ip))) < limit) in
  ∃ r', Allow_rl now ip r = Some (adm, r') ∧ rl_inv now (if adm then (log ++ [(ip, now)])%list else log) r'.
Proof using Hlimit Hwindow.
  intros Hi HT adm. destruct (ri_config _ _ _ Hi) as (Hl&Hw&He). unfold Allow_rl. rewrite He. cbn [negb].
  assert (∀ ip' s, s ∈ admitted (log ++ [(ip, now)]) ip' → s ≤ now) as Hpast.
  { intros ip' s. rewrite admitted_snoc. intros [Hs|Hs]%elem_of_app; [pose proof (ri_past _ _ _ Hi ip' s Hs); lia|].
    case_bool_decide; [|by apply elem_of_nil in Hs]. apply list_elem_of_singleton in Hs. lia. }
  destruct (IsExempt r ip) eqn:Ex; cbn [orb] in adm; unfold adm; clear adm.
  { exists r. split; [done|]. destruct Hi as [H1 H2 Hv H3 H4 H5 H6 H7].
    assert (∀ ip', IsExempt r ip' = false → admitted (log ++ [(ip, now)]) ip' = admitted log ip') as Hsame.
    { intros ip' Hx. rewrite admitted_snoc, bool_decide_false by congruence. by rewrite app_nil_r. }
    constructor; try done; intros ip' *; [intros Hx; rewrite Hsame by done; by apply H5|intros Hx ?; rewrite Hsame by done; apply H6; [done|lia]|].
    intros Hx. rewrite Hsame by done. by apply H7. }
  destruct (count_request_spec now ip 0 r (ri_shards _ _ _ Hi)) as (ss&Hc&Hok&Hseen&Hwnd&Hother).
  rewrite (found_window T log r ip now Hi HT Ex) in *. set (w := in_window window now (admitted log ip)) in *. rewrite Hl in *.
  pose proof (ri_bound _ _ _ Hi ip now Ex) as Hb. fold w in Hb. rewrite Z.add_0_r, wrap64_small in * by (unfold int64_min; lia).
  rewrite Hc. set (r' := r <| shards := ss |>) in *. assert (negb (limit <=? Z.of_nat (length w)) = bool_decide (Z.of_nat (length w) < limit)) as Hadm.
  { destruct (Z.leb_spec limit (Z.of_nat (length w))); case_bool_decide; done || lia. }
  rewrite Hadm in *. exists r'. split; [done|].
  assert (∀ s, s ∈ w → s ≤ now) as Hw_past by (intros s [? _]%list_elem_of_filter; lia).
  assert (∀ t, T ≤ t → filter (λ s : Instant, t - window < s) (admitted log ip) = filter (λ s : Instant, t - window < s) w ∨ t < now) as Hkeep.
  { intros t Ht. destruct (decide (t < now)); [by right|left]. subst w. unfold in_window.
    rewrite list_filter_filter. apply filter_ext_in. intros s Hs. pose proof (ri_past _ _ _ Hi ip s Hs). lia. }
  set (log' := if bool_decide (Z.of_nat (length w) < limit) then (log ++ [(ip, now)])%list else log).
  assert (∀ ip' s, s ∈ admitted log' ip' → s ≤ now) as Hpast'.
  { intros ip' s Hs. unfold log' in Hs. case_bool_decide; [by eapply Hpast|]. pose proof (ri_past _ _ _ Hi ip' s Hs). lia. }
  assert (∀ ip', ip' ≠ ip → admitted log' ip' = admitted log ip') as Hlog'.
  { intros ip' Hne. unfold log'. case_bool_decide; [|done]. rewrite admitted_snoc, bool_decide_false by done. by rewrite app_nil_r. }
  assert (admitted log' ip = if bool_decide (Z.of_nat (length w) < limit) then (admitted log ip ++ [now])%list else admitted log ip) as Hlog.
  { unfold log'. case_bool_decide; [|done]. by rewrite admitted_snoc, bool_decide_true. }
  constructor; [done|by destruct (ri_exempt _ _ _ Hi)|exact (ri_view _ _ _ Hi)|by unfold r'|done|..].
  - intros ip' b s Hx Hb' Hs. destruct (decide (ip' = ip)) as [->|Hne].
    + rewrite Hb' in Hseen. injection Hseen as ->. by apply (Hpast' ip).
    + rewrite Hother in Hb' by done. rewrite Hlog' in Hs by done. by apply (ri_seen _ _ _ Hi ip' b s).
  - intros ip' t Hx Ht. destruct (decide (ip' = ip)) as [->|Hne].
    + destruct (Hkeep t ltac:(lia)) as [Hk|?]; [|lia]. rewrite Hwnd, Hlog. rewrite clamp_past by done.
      case_bool_decide; [by rewrite !filter_app, Hk|by rewrite Hk].
    + unfold wnd. rewrite Hother, Hlog' by done. apply (ri_wnd _ _ _ Hi); [done|lia].
  - intros ip' t Hx. destruct (decide (ip' = ip)) as [->|Hne].
    + rewrite Hlog. pose proof (ri_bound _ _ _ Hi ip t Ex). case_bool_decide as Hroom; [|done].
      apply (window_grows T); [|done|done|done]. intros s Hs. pose proof (ri_past _ _ _ Hi ip s Hs). lia.
    + rewrite Hlog' by done. by apply (ri_bound _ _ _ Hi).
Qed.

(** Housekeeping is invisible. *)
Lemma Cleanup_inv T log r now : rl_inv T log r → T ≤ now → rl_inv now log (Cleanup_rl now r).
Proof using Hwindow.
  intros Hi HT. destruct (Cleanup_spec now r (ri_shards _ _ _ Hi)) as [Hok Hbo]. destruct Hi as [H1 H2 Hv (Hl&Hw&He) H4 H5 H6 H7].
  assert (wrap64 (wrap64 (- rl_window r) * 2) = - (2 * window)) as Hc.
  { rewrite Hw. rewrite (wrap64_small (- window)) by (unfold int64_min, int64_max; lia). rewrite wrap64_small by (unfold int64_min, int64_max; lia). lia. }
  rewrite Hc in Hbo. constructor; [done|by destruct H2|done|done|intros ip s Hs; pose proof (H4 ip s Hs); lia|..].
  - intros ip b s Hx Hb Hs. rewrite Hbo in Hb. destruct (bucket_of r ip) as [b0|] eqn:E; [|done]. cbn in Hb. case_bool_decide; [done|].
    injection Hb as <-. by apply (H5 ip b0 s).
  - intros ip t Hx Ht. rewrite <- (H6 ip t) by (done || lia). unfold wnd. rewrite Hbo.
    destruct (bucket_of r ip) as [b|] eqn:E; [|done]. cbn. case_bool_decide as Hold; [|done]. cbn.
    pose proof (H6 ip t Hx ltac:(lia)) as Hwl. unfold wnd in Hwl. rewrite E in Hwl. cbn in Hwl. rewrite Hwl.
    symmetry. apply filter_none_in. intros s Hs ?. pose proof (H5 ip b s Hx E Hs). lia.
  - intros ip t Hx. by apply H7.
Qed.

Lemma Export_inv T log r now : rl_inv T log r → T ≤ now → ∃ ds r', ExportHotDeltas now r = Some (ds, r') ∧ rl_inv now log r'.
Proof using Hlimit Hwindow.
  intros Hi HT. destruct (ExportHotDeltas_spec now r (ri_shards _ _ _ Hi)) as (ds&r'&E&Hok&Hr&Hon&_).
  exists ds, r'. split; [done|]. destruct Hi as [H1 H2 Hv (Hl&Hw&He) H4 H5 H6 H7]. destruct (Hon He ltac:(lia)) as [Hbo _]. clear Hon.
  revert Hok Hbo. rewrite Hr. generalize (shards r'). intros ss Hok Hbo. clear E Hr r'.
  constructor; [done|by destruct H2|done|done|intros ip s Hs; pose proof (H4 ip s Hs); lia|..].
  - intros ip b s Hx Hb Hs. rewrite Hbo in Hb. destruct (bucket_of r ip) as [b0|] eqn:E; [|done]. cbn in Hb.
    destruct (expire_spec (cutoff_at r now) b0 (so_buckets r H1 ip b0 E)) as (b1&Hb1&_&_&_&Hseen).
    rewrite Hb in Hb1. injection Hb1 as ->. rewrite Hseen. by apply (H5 ip b0 s).
  - intros ip t Hx Ht. rewrite <- (H6 ip t) by (done || lia). unfold wnd. rewrite Hbo. destruct (bucket_of r ip) as [b|] eqn:E; [|done]. cbn.
    destruct (expire_spec (cutoff_at r now) b (so_buckets r H1 ip b E)) as (b1&->&_&Hb1&_). cbn. rewrite Hb1, (cutoff_window r now Hw).
    apply filter_later. lia.
  - intros ip t Hx. by apply H7.
Qed.

Lemma rl_run_inv calls T log r :
  rl_inv T log r → StronglySorted Z.le (T :: map call_time calls) →
  ∃ log' r' T', rl_run calls (log, r) = Some (log', r') ∧ rl_inv T' log' r' ∧
    ∀ now, T ≤ now → Forall (λ t : Instant, t ≤ now) (map call_time calls) → T' ≤ now.
Proof using Hlimit Hwindow.
  revert T log r. induction calls as [|c calls IH]; intros T log r Hi Hs; cbn [rl_run map].
  { exists log, r, T. split_and!; [done|done|]. intros now Hn _. exact Hn. }
  apply StronglySorted_inv in Hs as [Hs Hall]. cbn [map] in Hs, Hall. apply Forall_cons in Hall as [Hle _].
  assert (∃ s, rl_call (log, r) c = Some s ∧ rl_inv (call_time c) s.1 s.2) as ([log1 r1]&->&Hi1).
  { destruct c as [now ip|now|now]; cbn [rl_call call_time fst snd] in *.
    - destruct (Allow_inv T log r now ip Hi Hle) as (r1&->&Hi1). cbn [mbind option_bind]. eexists. by split.
    - eexists. split; [done|]. by apply (Cleanup_inv T).
    - destruct (Export_inv T log r now Hi Hle) as (ds&r1&->&Hi1). cbn [mbind option_bind]. eexists. by split. }
  cbn [mbind option_bind]. destruct (IH (call_time c) log1 r1 Hi1 Hs) as (log'&r'&T'&Hr&Hi'&HT'). exists log', r', T'. split_and!; [done..|].
  intros now _ [Hc Hcs]%Forall_cons. by apply HT'.
Qed.
End exact.



(** ** Inverted clocks *)

(** Requests in any order of their clock readings. *)
Lemma Allow_shards now ip r : shards_ok r → ∃ adm r', Allow_rl now ip r = Some (adm, r') ∧ shards_ok r' ∧ rl_window r' = rl_window r.
Proof.
  intros Hok. unfold Allow_rl. destruct (negb _); [by exists true, r|]. destruct (IsExempt r ip); [by exists true, r|].
  destruct (count_request_spec now ip 0 r Hok) as (ss&->&Hok'&_). eexists _, _. by split_and!.
Qed.

(** The records of a client: the clock reading of each admitted request, and its stamp. *)
Definition record_call (ip : string) (s : list (Instant * Instant) * RateLimiter) (c : Instant * string)
    : option (list (Instant * Instant) * RateLimiter) :=
  '(adm, r) ← Allow_rl c.1 c.2 s.2;
  Some (if (adm : bool) && bool_decide (c.2 = ip) then (s.1 ++ [(c.1, default 0 (last (wnd r ip)))])%list else s.1, r).
Fixpoint record_run (ip : string) (calls : list (Instant * string)) (s : list (Instant * Instant) * RateLimiter)
    : option (list (Instant * Instant) * RateLimiter) :=
  match calls with [] => Some s | c :: calls => s ← record_call ip s c; record_run ip calls s end.

Section inverted.
Context (v : option rlExemptView) (ip : string) (limit window : Z) (Hlimit : 0 < limit ≤ int64_max) (Hwindow : 0 < window < 2 ^ 62).

(** The window is the tail of the records; what was dropped is a window older than the last
    record, or the window is full. *)
Record rec_inv (log : list (Instant * Instant)) (r : RateLimiter) : Prop := {
  rc_shards : shards_ok r;
  rc_view : exemptView r = v ∧ rl_limit r = limit ∧ rl_window r = window ∧ rl_enabled r = true;
  rc_stamp : Forall (λ p, p.1 ≤ p.2) log;
  rc_sorted : StronglySorted Z.le (log.*2);
  rc_tail : ∃ dropped, log.*2 = (dropped ++ wnd r ip)%list ∧ Forall (λ a : Instant, ∀ z, last (log.*2) = Some z → a + window ≤ z ∨ limit ≤ Z.of_nat (length (wnd r ip))) dropped;
  rc_full : Z.of_nat (length (wnd r ip)) ≤ limit;
  rc_pairs : ∀ i a b, log.*2 !! i = Some a → log.*2 !! (i + Z.to_nat limit)%nat = Some b → a + window ≤ b;
}.

Lemma sorted_split (c : Instant) (l : list Instant) :
  StronglySorted Z.le l → ∃ old, l = (old ++ filter (λ s : Instant, c < s) l)%list ∧ Forall (λ s : Instant, s ≤ c) old.
Proof.
  intros Hs. induction l as [|s l IH]; [by exists []|]. destruct (decide (c < s)) as [Hc|Hc].
  - exists []. split; [|constructor]. cbn [app]. symmetry. by apply sorted_filter.
  - apply StronglySorted_inv in Hs as [Hs _]. destruct (IH Hs) as (old&E&Ho). exists (s :: old). rewrite filter_cons_False by done.
    split; [cbn; by f_equal|]. constructor; [lia|done].
Qed.
Lemma clamp_ge now l : now ≤ clamp now l ∧ ∀ s, last l = Some s → s ≤ clamp now l.
Proof.
  unfold clamp. destruct (last l) as [z|]; [|split; [lia|done]]. destruct (Z.ltb_spec now z); (split; [lia|]); intros ? [= <-]; lia.
Qed.

(** An admitted request is recorded no earlier than any record, and a window after every
    record the window has lost. *)
Lemma record_step (recs dropped w old w1 : list Instant) (now : Instant) :
  recs = (dropped ++ w)%list → w = (old ++ w1)%list → StronglySorted Z.le recs →
  Forall (λ a : Instant, ∀ z, last recs = Some z → a + window ≤ z ∨ limit ≤ Z.of_nat (length w)) dropped →
  Forall (λ s : Instant, s ≤ now - window) old → Z.of_nat (length w1) < limit →
  (∀ a, a ∈ recs → a ≤ clamp now w1) ∧ ∀ a, a ∈ (dropped ++ old)%list → a + window ≤ clamp now w1.
Proof using Hlimit Hwindow.
  intros -> -> Hs Hd Ho Hroom. destruct (clamp_ge now w1) as [Hnow Hlast]. rewrite Forall_forall in Hd, Ho.
  assert (∀ z, last (dropped ++ old ++ w1)%list = Some z → z ≤ clamp now w1) as Hz.
  { intros z Hz. destruct (last w1) as [y|] eqn:E1.
    - apply last_Some in E1 as [l ->]. rewrite !app_assoc, last_snoc in Hz. injection Hz as <-. apply Hlast. done.
    - apply last_None in E1 as ->. rewrite app_nil_r in *. destruct (last old) as [y|] eqn:E2.
      + apply last_Some in E2 as [l ->]. rewrite !app_assoc, last_snoc in Hz. injection Hz as <-.
        specialize (Ho y ltac:(set_solver)). lia.
      + apply last_None in E2 as ->. rewrite app_nil_r in *. pose proof Hz as Hin%last_Some_elem_of.
        destruct (Hd z Hin z Hz) as [?|Hl]; [lia|]. cbn in Hl. lia. }
  assert (∀ a, a ∈ (dropped ++ old ++ w1)%list → a ≤ clamp now w1) as Hall.
  { intros a Ha. destruct (last (dropped ++ old ++ w1)%list) as [z|] eqn:El; [|apply last_None in El; rewrite El in Ha; by apply elem_of_nil in Ha].
    specialize (Hz z eq_refl). apply last_Some in El as [l El]. rewrite El in Ha, Hs. apply elem_of_app in Ha as [Ha|Ha%list_elem_of_singleton]; [|lia].
    assert (a ≤ z) by (eapply StronglySorted_app_1_elem_of; [exact Hs|done|by left]). lia. }
  split; [done|]. intros a [Ha|Ha]%elem_of_app; [|specialize (Ho a Ha); lia].
  destruct (last (dropped ++ old ++ w1)%list) as [z|] eqn:El.
  - specialize (Hz z eq_refl). destruct (Hd a Ha z eq_refl) as [?|Hfull]; [lia|]. rewrite length_app in Hfull.
    destruct old as [|o old]; [cbn in Hfull; lia|]. specialize (Ho o ltac:(by left)).
    assert (a ≤ o) by (eapply StronglySorted_app_1_elem_of; [exact Hs|done|by left]). lia.
  - apply last_None in El. apply app_eq_nil in El as [-> _]. by apply elem_of_nil in Ha.
Qed.

Lemma record_inv log r now ip' :
  rec_inv log r → IsExempt r ip = false → ∃ s, record_call ip (log, r) (now, ip') = Some s ∧ rec_inv s.1 s.2 ∧ IsExempt s.2 ip = false.
Proof using Hlimit Hwindow.
  intros Hi Hx. destruct Hi as [Hok (Hv&Hl&Hw&He) Hst Hso (dropped&Hlog&Hd) Hfull Hpairs].
  unfold record_call, Allow_rl. cbn [fst snd]. rewrite He. cbn [negb].
  destruct (IsExempt r ip') eqn:Ex.
  { cbn [mbind option_bind]. eexists. split; [done|]. assert (ip' ≠ ip) as Hne by (intros ->; congruence).
    rewrite (bool_decide_false _ Hne), andb_false_r. split; [|done]. constructor; try done. by exists dropped. }
  destruct (count_request_spec now ip' 0 r Hok) as (ss&Hc&Hok'&_&Hwnd&Hother). rewrite Hc. cbn [mbind option_bind]. clear Hc.
  eexists. split; [done|]. cbn [fst snd]. split; [|done]. set (r' := r <| shards := ss |>) in *.
  destruct (decide (ip' = ip)) as [->|Hne].
  2:{ rewrite (bool_decide_false _ Hne), andb_false_r. assert (wnd r' ip = wnd r ip) as Hsame by (unfold wnd; by rewrite Hother by done).
      constructor; rewrite ?Hsame; try done. by exists dropped. }
  rewrite bool_decide_true, andb_true_r by done. rewrite (cutoff_window window Hwindow r now Hw) in Hwnd |- *. rewrite Hl in *.
  assert (StronglySorted Z.le (wnd r ip)) as Hsw by (rewrite Hlog in Hso; by eapply StronglySorted_app_1_r).
  destruct (sorted_split (now - window) (wnd r ip) Hsw) as (old&Eold&Hold). set (w1 := filter (λ s : Instant, now - window < s) (wnd r ip)) in *.
  assert (length (wnd r ip) = length old + length w1)%nat as Hlen by (rewrite Eold at 1; by rewrite length_app).
  rewrite Z.add_0_r, wrap64_small in * by (unfold int64_min; lia).
  destruct (Z.leb_spec limit (Z.of_nat (length w1))) as [Hge|Hroom]; cbn [negb] in *.
  - constructor; try done; rewrite Hwnd; [|lia]. exists (dropped ++ old)%list. split; [by rewrite Hlog, <- app_assoc, <- Eold|].
    apply Forall_forall. intros a _ z _. by right.
  - destruct (record_step (log.*2) dropped (wnd r ip) old w1 now Hlog Eold Hso Hd Hold Hroom) as [Hmax Hgap].
    rewrite Hwnd, last_snoc. change (default 0 (Some (clamp now w1))) with (clamp now w1). set (s := clamp now w1) in *.
    assert ((log ++ [(now, s)]).*2 = log.*2 ++ [s])%list as E2 by (by rewrite fmap_app).
    constructor; try done.
    + apply Forall_app. split; [done|]. constructor; [|constructor]. exact (proj1 (clamp_ge now w1)).
    + rewrite E2. apply StronglySorted_app_2; [|done|repeat constructor]. intros x1 x2 Hx1 ->%list_elem_of_singleton. by apply Hmax.
    + exists (dropped ++ old)%list. rewrite E2, Hwnd. split; [rewrite Hlog, Eold at 1; by rewrite <- !app_assoc|].
      apply Forall_forall. intros a Ha z. rewrite last_snoc. intros [= <-]. left. by apply Hgap.
    + rewrite Hwnd, length_app. cbn. lia.
    + intros i a b. rewrite E2. intros Ha Hb. destruct (decide (i + Z.to_nat limit < length (log.*2))%nat) as [Hlt|Hge].
      * rewrite lookup_app_l in Ha, Hb by lia. by eapply Hpairs.
      * pose proof Hb as Hbl%lookup_lt_Some. rewrite length_app in Hbl. cbn in Hbl. assert (i + Z.to_nat limit = length (log.*2))%nat as Ei by lia.
        rewrite Ei, lookup_app_r, Nat.sub_diag in Hb by lia. injection Hb as <-. rewrite lookup_app_l in Ha by lia. apply Hgap.
        assert (log.*2 = (dropped ++ old) ++ w1)%list as Esplit by (rewrite Hlog, Eold at 1; by rewrite <- app_assoc).
        rewrite Esplit in Ha, Ei. rewrite !length_app in Ei. rewrite lookup_app_l in Ha by (rewrite length_app; lia). by eapply list_elem_of_lookup_2.
Qed.

Lemma record_run_inv calls log r :
  rec_inv log r → IsExempt r ip = false → ∃ log' r', record_run ip calls (log, r) = Some (log', r') ∧ rec_inv log' r'.
Proof using Hlimit Hwindow.
  revert log r. induction calls as [|[now ip'] calls IH]; intros log r Hi Hx; cbn [record_run]; [by exists log, r|].
  destruct (record_inv log r now ip' Hi Hx) as ([log1 r1]&->&Hi1&Hx1). cbn [mbind option_bind]. by apply IH.
Qed.
End inverted.

(** Inverted clocks never open the limiter.  Requests may reach a bucket in another order
    than that of their clock readings, because the clock is read before the lock is taken.
    Whatever the order, each admitted request is recorded no earlier than its clock reading,
    and any two records of a client that are [limit] apart are at least a window apart. *)
Theorem rate_inverted_clock (ops : list ExemptOp) (limit : Z) (window : Duration) (calls : list (Instant * string)) (ip : string)
    (Hlimit : 0 < limit ≤ int64_max) (Hwindow : 0 < window < 2 ^ 62)
    (Hcounted : IsExempt (Configure limit window (exempt_run ops)) ip = false) :
  ∃ log r, record_run ip calls ([], Configure limit window (exempt_run ops)) = Some (log, r) ∧
    (∀ now s, (now, s) ∈ log → now ≤ s) ∧
    ∀ i p q, log !! i = Some p → log !! (i + Z.to_nat limit)%nat = Some q → p.2 + window ≤ q.2.
Proof.
  set (r0 := Configure limit window (exempt_run ops)) in *. destruct (exempt_run_ok ops) as [Hex Hsh].
  pose proof (λ ip', fresh_buckets r0 ip' Hsh) as Hnone.
  assert (rec_inv (exemptView r0) ip limit window [] r0) as Hi.
  { assert (wnd r0 ip = []) as Hw0 by (unfold wnd; by rewrite Hnone). constructor; rewrite ?Hw0; try done.
    - by apply fresh_shards.
    - split_and!; try done. change ((0 <? limit) = true). apply Z.ltb_lt. lia.
    - constructor.
    - exists []. done.
    - cbn. lia. }
  destruct (record_run_inv _ ip limit window Hlimit Hwindow calls [] r0 Hi Hcounted) as (log&r&Hrun&Hi').
  exists log, r. split; [done|]. split.
  - intros now s Hin. pose proof (rc_stamp _ _ _ _ _ _ Hi') as Hst. rewrite Forall_forall in Hst. by apply (Hst (now, s)).
  - intros i p q Hp Hq. apply (rc_pairs _ _ _ _ _ _ Hi' i); rewrite list_lookup_fmap; [by rewrite Hp|by rewrite Hq].
Qed.

(** Two requests swap at the lock: the one read at 95 is recorded at 100. *)
Lemma rate_inverted_clock_witness :
  let r0 := Configure 2 50 (exempt_run []) in
  let calls := [(100, "10.0.0.9"); (95, "10.0.0.9"); (149, "10.0.0.9"); (160, "10.0.0.9")] in
  ∃ log r, record_run "10.0.0.9" calls ([], r0) = Some (log, r) ∧ log = [(100, 100); (95, 100); (160, 160)] ∧
    ∀ i p q, log !! i = Some p → log !! (i + 2)%nat = Some q → p.2 + 50 ≤ q.2.
Proof.
  intros r0 calls.
  destruct (rate_inverted_clock [] 2 50 calls "10.0.0.9") as (log&r&Hrun&_&Hgap); [done|done|vm_compute; reflexivity|].
  exists log, r. split; [exact Hrun|]. split; [|exact Hgap].
  assert (fst <$> record_run "10.0.0.9" calls ([], r0) = Some [(100, 100); (95, 100); (160, 160)]) as E by (vm_compute; reflexivity).
  unfold r0 in E. rewrite Hrun in E. cbn in E. by injection E.
Defined.

(** ** Remote counts *)

Lemma rl_run_total calls s : shards_ok s.2 → ∃ s', rl_run calls s = Some s' ∧ shards_ok s'.2 ∧ rl_window s'.2 = rl_window s.2.
Proof.
  revert s. induction calls as [|c calls IH]; intros s Hok; cbn [rl_run]; [by exists s|].
  assert (∃ s1, rl_call s c = Some s1 ∧ shards_ok s1.2 ∧ rl_window s1.2 = rl_window s.2) as (s1&->&Hok1&<-).
  { destruct c as [now ip|now|now]; cbn [rl_call].
    - destruct (Allow_shards now ip s.2 Hok) as (adm&r'&->&Hok'&Hw). eexists. by split.
    - eexists. split; [done|]. split; [by apply Cleanup_spec|done].
    - destruct (ExportHotDeltas_spec now s.2 Hok) as (ds&r'&->&Hok'&Hr&_). eexists. split; [done|]. split; [done|]. cbn. by rewrite Hr. }
  by apply IH.
Qed.

(** The remote count decides between the same two outcomes. *)
Lemma count_request_two now ip r :
  shards_ok r → ∃ yes no, ∀ remote,
    let adm := negb (rl_limit r <=? wrap64 (Z.of_nat (length (filter (λ s : Instant, cutoff_at r now < s) (wnd r ip))) + remote)) in
    count_request now ip remote r = Some (adm, if adm then yes else no).
Proof.
  intros Hok. unfold count_request.
  assert (shard ip < length (shards r))%nat as Hlt by (rewrite (so_len r Hok); apply rl_shard_lt).
  destruct (lookup_lt_is_Some_2 _ _ Hlt) as [clients Hcl]. rewrite Hcl. cbn [mbind option_bind]. fold (cutoff_at r now).
  destruct (found_bucket now ip r clients Hok Hcl) as (b1&->&Hb1&Hl1&_). cbn [mbind option_bind].
  destruct (add_spec now (rl_limit r) b1 Hb1) as (b2&E2&_). rewrite E2. cbn [mbind option_bind]. eexists _, _. intros remote.
  rewrite <- (live_length b1 Hb1), Hl1. destruct (_ <=? _); cbn [negb]; reflexivity.
Qed.

(** The cluster only tightens the limit, and only while its count is about the present.
    On any limiter reached by calls in any order: a data-plane node admits a counted client
    exactly when its own and the fresh remote requests together stay below the limit, so
    what it admits a standalone node would let through too; and without a broadcast, with one from
    the future, or with one a window old, it is the standalone limiter. *)
Theorem cluster_rate (ops : list ExemptOp) (limit : Z) (window : Duration) (calls : list RLCall) (c : clusterCountStore)
    (now : Instant) (ip : string) (Hwindow : 0 < window < int64_max) (Hlimit : 0 < limit)
    (Hcounts : map_Forall (λ _ n, 0 ≤ n < 2 ^ 62) (cc_counts c)) :
  ∃ log r, rl_run calls ([], Configure limit window (exempt_run ops)) = Some (log, r) ∧
    let local := filter (λ s : Instant, now + wrap64 (- rl_window r) < s) (wnd r ip) in
    (Z.of_nat (length local) < 2 ^ 62 →
     ∃ adm r', AllowClusterAware c now ip r = Some (adm, r') ∧
       (rl_enabled r = true → IsExempt r ip = false →
          adm = bool_decide (Z.of_nat (length local) + FreshCount c ip now (clusterRemoteCountMaxAge (rl_window r)) < rl_limit r)) ∧
       (adm = true → Allow_rl now ip r = Some (true, r'))) ∧
    (appliedAtNano c = 0 ∨ now < appliedAtNano c ∨ appliedAtNano c + clusterRemoteCountMaxAge (rl_window r) ≤ now →
       AllowClusterAware c now ip r = Allow_rl now ip r).
Proof.
  destruct (exempt_run_ok ops) as [_ Hsh].
  destruct (rl_run_total calls ([], Configure limit window (exempt_run ops)) ltac:(by apply fresh_shards)) as ([log r]&Hrun&Hok&Hw).
  cbn [snd] in Hok, Hw. change (rl_window r = window) in Hw. exists log, r. split; [done|]. cbv zeta. fold (cutoff_at r now). set (remote := FreshCount c ip now _).
  assert (0 ≤ remote < 2 ^ 62) as Hr.
  { subst remote. unfold FreshCount. destruct (_ =? 0); [lia|]. cbv zeta. destruct (_ || _); [lia|].
    destruct (cc_counts c !! ip) eqn:E; [|cbn; lia]. exact (Hcounts _ _ E). }
  split.
  - intros Hn. unfold AllowClusterAware, Allow_rl. fold remote.
    destruct (rl_enabled r); cbn [negb]; [|by exists true, r]. destruct (IsExempt r ip); [by exists true, r|].
    destruct (count_request_two now ip r Hok) as (yes&no&Hc). rewrite !Hc. cbv zeta.
    rewrite !wrap64_small by (unfold int64_min, int64_max; lia). eexists _, _. split; [done|]. split.
    + intros _ _. match goal with |- negb (?a <=? ?b) = _ => destruct (Z.leb_spec a b) end; case_bool_decide; done || lia.
    + intros Hadm. rewrite Hadm. apply negb_true_iff, Z.leb_gt in Hadm. rewrite (proj2 (Z.leb_gt _ _)) by lia. done.
  - intros Hstale. unfold AllowClusterAware, Allow_rl. fold remote.
    assert (remote = 0) as ->; [|done]. subst remote. unfold FreshCount. destruct (Z.eqb_spec (appliedAtNano c) 0); [done|].
    assert (0 < clusterRemoteCountMaxAge (rl_window r) < int64_max) as Hage.
    { unfold clusterRemoteCountMaxAge. rewrite Hw. destruct (Z.leb_spec window 0); [lia|done]. }
    cbv zeta. rewrite Z.leb_antisym, !time_sub_lt by (unfold int64_min in *; lia).
    destruct (Z.ltb_spec (now - appliedAtNano c) 0); [done|]. cbn [orb].
    destruct (Z.ltb_spec (now - appliedAtNano c) (clusterRemoteCountMaxAge (rl_window r))); [lia|done].
Qed.

(** Two local requests and one remote one exhaust a limit of three, until the broadcast is a
    window old. *)
Lemma cluster_rate_witness :
  let r0 := Configure 3 100 (exempt_run []) in
  let c := Apply {["10.0.0.9" := 1]} 1000 (mkCounts ∅ 0) in
  ∃ log r, rl_run [RAllow 1010 "10.0.0.9"; RAllow 1020 "10.0.0.9"] ([], r0) = Some (log, r) ∧
    (fst <$> AllowClusterAware c 1030 "10.0.0.9" r = Some false) ∧ (fst <$> Allow_rl 1030 "10.0.0.9" r = Some true) ∧
    AllowClusterAware c 1100 "10.0.0.9" r = Allow_rl 1100 "10.0.0.9" r.
Proof.
  intros r0 c.
  destruct (cluster_rate [] 3 100 [RAllow 1010 "10.0.0.9"; RAllow 1020 "10.0.0.9"] c 1100 "10.0.0.9") as (log&r&Hrun&_&Hstale);
    [done|done|by apply map_Forall_singleton|].
  exists log, r. split; [exact Hrun|].
  assert (∀ f : RateLimiter → option bool, (rl_run [RAllow 1010 "10.0.0.9"; RAllow 1020 "10.0.0.9"] ([], r0) ≫= λ s, f s.2) = f r) as Hf.
  { intros f. unfold r0. rewrite Hrun. reflexivity. }
  split; [rewrite <- (Hf (λ r, fst <$> AllowClusterAware c 1030 "10.0.0.9" r)); vm_compute; reflexivity|].
  split; [rewrite <- (Hf (λ r, fst <$> Allow_rl 1030 "10.0.0.9" r)); vm_compute; reflexivity|].
  apply Hstale. right. right.
  assert (rl_window r = 100) as ->.
  { assert ((rl_run [RAllow 1010 "10.0.0.9"; RAllow 1020 "10.0.0.9"] ([], r0) ≫= λ s, Some (rl_window s.2)) = Some 100) as E by (vm_compute; reflexivity).
    unfold r0 in E. rewrite Hrun in E. cbn in E. by injection E. }
  vm_compute. discriminate.
Defined.
