(* ===== verification/PolicyRule.v ===== *)
(** * Policy rules ([policy.go], [authpolicy.go], [policy_hostcat.go]: the data)

    The rule record with the source's fields, its nested selectors, the shared
    hit-accounting cell, and the per-publication precomputation.  A [*T] that may be
    nil is [option T]; the string-typed enumerations of the source ([PolicyAction],
    [SSLAction], [URLCategory], [FileProfileName], [AuthOutcome]) are strings, because
    the rules file and the API can put any string there.  A published definition is
    immutable, so it is a value; the accounting cell is shared by all revisions of a
    rule and written by readers, so it lives in a heap and the rule holds its address.

    The services a match consults (URL categories, category groups, geo-IP, file
    profiles, the time-zone database, ULIDs) are the interface classes at the end. *)

From S2P Require Import Prelude GoStrings GoNet HostUtil IPPrefix.

(** ** Constants *)

Definition ActionAllow : string := "Allow".
Definition ActionDrop : string := "Drop".
Definition ActionBlockPage : string := "Block_Page".
Definition ActionRedirect : string := "Redirect".
Definition SSLInspect : string := "Inspect".
Definition SSLBypass : string := "Bypass".
Definition CategoryAny : string := "Any".
Definition FileProfileNone : string := "".
Definition FileProfileExecutables : string := "Executables".
Definition FileProfileArchives : string := "Archives".
Definition FileProfileDocuments : string := "Documents".
Definition FileProfileMedia : string := "Media".
Definition FileProfileStrict : string := "Strict".

(** [fileProfileExts]. *)
Definition fileProfileExts (name : string) : option (list string) :=
  if (name =? FileProfileExecutables)%string then
    Some [".exe"; ".dll"; ".bat"; ".cmd"; ".ps1"; ".scr"; ".msi"; ".pif"; ".com"; ".vbs"]
  else if (name =? FileProfileArchives)%string then
    Some [".zip"; ".rar"; ".7z"; ".tar"; ".gz"; ".bz2"; ".xz"; ".cab"; ".iso"]
  else if (name =? FileProfileDocuments)%string then
    Some [".docm"; ".xlsm"; ".pptm"; ".xlam"; ".dotm"]
  else if (name =? FileProfileMedia)%string then
    Some [".mp3"; ".mp4"; ".avi"; ".mkv"; ".mov"; ".flv"; ".wmv"; ".webm"]
  else if (name =? FileProfileStrict)%string then
    Some [".exe"; ".dll"; ".bat"; ".cmd"; ".ps1"; ".scr"; ".msi"; ".pif"; ".com"; ".vbs";
          ".zip"; ".rar"; ".7z"; ".tar"; ".gz"; ".bz2"; ".iso"; ".docm"; ".xlsm"; ".pptm"]
  else None.

Definition ruleTypeAccess : string := "access".
Definition ruleTypeAuth : string := "auth".
Definition subjectPredicateCIDR : string := "cidr".

Definition OutcomeDefault : string := "Default".
Definition OutcomeExempt : string := "Exempt".
Definition OutcomeCredentialRequired : string := "CredentialRequired".
Definition OutcomeSSORequired : string := "SSORequired".

(** ** Records *)

Record PolicySchedule := mkSchedule {
  Days : list string; TimeStart : string; TimeEnd : string; Timezone : string;
}.

(** [nets]: the parsed CIDR of each value, index-aligned; [[]] when not precomputed. *)
Record SubjectPredicate := mkPredicate {
  Type_ : string; Op : string; Values : list string; nets : list (option IPNet);
}.
Record SubjectMatch := mkSubject { SchemaVersion : Z; All : list SubjectPredicate }.

Record AuthRuleSpec := mkAuthSpec {
  Outcome : string; Protocol : string; Method : string; Owner : string; Reason : string;
  ExpiresAt : string; BroadExemption : bool; ProviderRefs : list string;
}.

Record policyRuleCounters := mkCounters {
  hitCount : Z; restoredHitCount : Z; c_lastHitUnix : Z;
}.

Abbreviation loc := nat.

Record PolicyRule := mkRule {
  Priority : Z; Name : string; SourceIP : string; SourceIdentity : string; SourceGroup : string;
  AuthSource : string; DestFQDN : string; DestCategory : string; DestCategoryGroup : string;
  DestCategoryGroupID : string; DestCountry : list string; Schedule : option PolicySchedule;
  SSLAction : string; FileFiltering : bool; FileProfile : string; FileProfileID : string;
  LogFullURI : bool; LogTraffic : option bool; TLSSkipVerify : bool; StripALPN : option bool;
  DecryptionProfile : string; DecryptionProfileID : string; Action : string; RedirectURL : string;
  Enabled : option bool; ID : string; RuleType : string; RuleSubject : option SubjectMatch;
  Auth : option AuthRuleSpec; HitCount : Z; lastHitUnix : Z; LastHit : string;
  counters : option loc;
  CreatedAt : string; ModifiedAt : string; ModifiedBy : string; Comment : string;
  normFQDN : string; srcIPNet : option IPNet; srcPrefix : option Prefix; matchedConds : string;
}.

#[global] Instance PolicySchedule_eta : Eta PolicySchedule := λ r,
  mkSchedule (Days r) (TimeStart r) (TimeEnd r) (Timezone r).
#[global] Instance SubjectPredicate_eta : Eta SubjectPredicate := λ r,
  mkPredicate (Type_ r) (Op r) (Values r) (nets r).
#[global] Instance SubjectMatch_eta : Eta SubjectMatch := λ r, mkSubject (SchemaVersion r) (All r).
#[global] Instance policyRuleCounters_eta : Eta policyRuleCounters := λ r,
  mkCounters (hitCount r) (restoredHitCount r) (c_lastHitUnix r).
#[global] Instance PolicyRule_eta : Eta PolicyRule := λ r,
  mkRule (Priority r) (Name r) (SourceIP r) (SourceIdentity r) (SourceGroup r)
    (AuthSource r) (DestFQDN r) (DestCategory r) (DestCategoryGroup r)
    (DestCategoryGroupID r) (DestCountry r) (Schedule r) (SSLAction r) (FileFiltering r)
    (FileProfile r) (FileProfileID r) (LogFullURI r) (LogTraffic r) (TLSSkipVerify r) (StripALPN r)
    (DecryptionProfile r) (DecryptionProfileID r) (Action r) (RedirectURL r)
    (Enabled r) (ID r) (RuleType r) (RuleSubject r) (Auth r) (HitCount r) (lastHitUnix r) (LastHit r)
    (counters r) (CreatedAt r) (ModifiedAt r) (ModifiedBy r) (Comment r)
    (normFQDN r) (srcIPNet r) (srcPrefix r) (matchedConds r).

#[global] Instance PolicySchedule_eq_dec : EqDecision PolicySchedule.
Proof. solve_decision. Defined.
#[global] Instance SubjectPredicate_eq_dec : EqDecision SubjectPredicate.
Proof. solve_decision. Defined.
#[global] Instance SubjectMatch_eq_dec : EqDecision SubjectMatch.
Proof. solve_decision. Defined.
#[global] Instance AuthRuleSpec_eq_dec : EqDecision AuthRuleSpec.
Proof. solve_decision. Defined.
#[global] Instance PolicyRule_eq_dec : EqDecision PolicyRule.
Proof. solve_decision. Defined.

(** The zero [PolicyRule]: every field unset. *)
Definition empty_rule : PolicyRule :=
  mkRule 0 "" "" "" "" "" "" "" "" "" [] None "" false "" "" false None false None "" "" "" ""
    None "" "" None None 0 0 "" None "" "" "" "" "" None None "".

(** ** Rule predicates *)

Definition ruleIsEnabled (r : PolicyRule) : bool :=
  match Enabled r with None => true | Some b => b end.
Definition ruleLogsTraffic (r : PolicyRule) : bool :=
  match LogTraffic r with None => true | Some b => b end.
Definition ruleTypeOf (r : PolicyRule) : string :=
  if (RuleType r =? "")%string then ruleTypeAccess else RuleType r.

(** [buildMatchedConditions]. *)
Definition buildMatchedConditions (rule : PolicyRule) : string :=
  let opt (b : bool) (s : string) : list string := if b then [s] else [] in
  let parts := (
    opt (negb (SourceIP rule =? "")%string) ("srcIP=" ++ SourceIP rule)%string ++
    opt (negb (SourceIdentity rule =? "")%string) ("identity=" ++ SourceIdentity rule)%string ++
    opt (negb (SourceGroup rule =? "")%string) ("group=" ++ SourceGroup rule)%string ++
    opt (negb (AuthSource rule =? "")%string) ("authSrc=" ++ AuthSource rule)%string ++
    opt (negb (DestFQDN rule =? "")%string) ("destFQDN=" ++ DestFQDN rule)%string ++
    opt (negb (DestCategory rule =? "")%string && negb (DestCategory rule =? CategoryAny)%string)
      ("destCat=" ++ DestCategory rule)%string ++
    opt (negb (DestCategoryGroup rule =? "")%string) ("destCatGroup=" ++ DestCategoryGroup rule)%string ++
    opt (negb (bool_decide (DestCountry rule = []))) ("destCountry=" ++ Join (DestCountry rule) ",")%string ++
    opt (bool_decide (is_Some (Schedule rule))) "schedule=active")%list in
  match parts with [] => "any" | _ => Join parts " " end.

(** ** Publication: clone, sort key and precomputation *)

(** [precomputeSubjectNets] on one predicate: [nets] stays nil unless a value
    parses as a CIDR. *)
Definition precompute_predicate (p : SubjectPredicate) : SubjectPredicate :=
  let p := p <| nets := [] |> in
  if negb (Type_ p =? subjectPredicateCIDR)%string || bool_decide (Values p = []) then p
  else
    let ns := map (λ v, if ContainsByte v "/"%char then ParseCIDR v else None) (Values p) in
    if existsb (λ n : option IPNet, bool_decide (is_Some n)) ns then p <| nets := ns |> else p.
Definition precomputeSubjectNets (sm : option SubjectMatch) : option SubjectMatch :=
  (λ sm, sm <| All := map precompute_predicate (All sm) |>) <$> sm.

(** The accounting cells of all rules ever published. *)
Record CounterHeap := mkHeap { ccells : gmap loc policyRuleCounters; cnext : loc }.
#[global] Instance CounterHeap_eta : Eta CounterHeap := λ r, mkHeap (ccells r) (cnext r).

Definition alloc_counters (h : CounterHeap) (c : policyRuleCounters) : loc * CounterHeap :=
  (cnext h, mkHeap (<[cnext h := c]> (ccells h)) (S (cnext h))).

Definition clear_nets (sm : SubjectMatch) : SubjectMatch :=
  sm <| All := map (λ p, p <| nets := [] |>) (All sm) |>.

(** [copyPolicyRuleForPublication]: a detached copy with the precomputation dropped,
    sharing the accounting cell, which is allocated if the rule had none.  Copying a
    nested slice or pointer is the identity on values. *)
Definition copyPolicyRuleForPublication (h : CounterHeap) (rule : PolicyRule) : PolicyRule * CounterHeap :=
  let '(c, h') := match counters rule with
    | Some c => (Some c, h)
    | None => let '(c, h') := alloc_counters h (mkCounters (HitCount rule) (HitCount rule) (lastHitUnix rule)) in
              (Some c, h')
    end in
  (rule <| counters := c |> <| RuleSubject := clear_nets <$> RuleSubject rule |>
     <| srcIPNet := None |> <| srcPrefix := None |> <| normFQDN := "" |> <| matchedConds := "" |>, h').

Definition get_counters (h : CounterHeap) (rule : PolicyRule) : policyRuleCounters :=
  match counters rule ≫= (ccells h !!.) with
  | Some c => c
  | None => mkCounters (HitCount rule) 0 (lastHitUnix rule)
  end.

(** [copyPolicyRuleForMatch]: the decision snapshot, accounting materialised and the
    shared cell not exposed. *)
Definition copyPolicyRuleForMatch (h : CounterHeap) (rule : PolicyRule) : PolicyRule :=
  let c := get_counters h rule in
  (copyPolicyRuleForPublication h rule).1
    <| HitCount := hitCount c |> <| lastHitUnix := c_lastHitUnix c |> <| counters := None |>
    <| LastHit := "" |>.

Section publication.
Context `{Unicode, Idna}.

(** The loop body of [sortLocked]. *)
Definition precompute_rule (r : PolicyRule) : PolicyRule :=
  let net := if ContainsByte (SourceIP r) "/"%char then ParseCIDR (SourceIP r) else None in
  r <| normFQDN := if (DestFQDN r =? "")%string then "" else NormalizeHost (DestFQDN r) |>
    <| srcIPNet := net |> <| srcPrefix := prefixFromIPNet net |>
    <| matchedConds := buildMatchedConditions r |>
    <| RuleSubject := precomputeSubjectNets (RuleSubject r) |>.
End publication.

(** ** The services a match consults *)

(** The signed-feed category view ([effectiveCategoryView]). *)
Record CategoryView := mkView {
  view_LookupHost : string → option string;
  view_MatchesCategory : string → string → bool;
}.

(** [catStore], the installed view, [communityDB], [globalCategoryGroups], [geo] and
    [globalProfileStore] as one evaluation sees them; a [(value, ok)] result is an
    option. *)
Class PolicyEnv := {
  cat_MatchesHost : string → string → bool;
  cat_MatchesHostAdmin : string → string → bool;
  cat_LookupHost : string → option (string * string);
  cat_LookupHostAdmin : string → option (string * string);
  saasEffectiveView : option CategoryView;
  communityDB : option (string → option string);
  group_MatchesCategoryByID : string → string → option bool;
  group_MatchesCategory : string → string → bool;
  geo_LookupCached : string → option string;
  profile_GetByName : string → option (list string);
  profile_GetByID : string → option (list string);
}.

(** The loop body of [listLocked]: a detached copy with live accounting. *)
Definition list_copy `{TimeData} (h : CounterHeap) (r : PolicyRule) : PolicyRule :=
  let c := get_counters h r in
  let u := c_lastHitUnix c in
  (copyPolicyRuleForPublication h r).1
    <| HitCount := hitCount c |> <| lastHitUnix := u |>
    <| LastHit := if 0 <? u then FormatRFC3339 u else "" |> <| counters := None |>.
