(* ===== verification/PolicyMatch.v ===== *)
(** * Rule matching ([policy.go], [policy_hostcat.go], [categorygroup.go])

    Schedule, source, destination and file-profile matching, and the Stage-2 scan
    [evalAccessRules].  The optimised path is modelled as it is written: lazily parsed
    client address, host-category memo, one clock read, per-rule precomputed forms.
    Process-wide effects - clock readings, the time-zone cache, the degradation
    counters - are threaded through the state monad [proc].

    - [schedule_minutes_legacy]: the minute-scale window test is the string comparison.
    - [matchAuthSource_schemes]: auth sources of different schemes never match.
    - [evalAccessRules_correct]: the scan is "first rule whose reference check passes",
      with the trace of reasons, and reads the clock at most once.
    - [file_profile_fail_closed]: what a file profile blocks, dangling links included. *)

From S2P Require Import Prelude GoStrings GoNet HostUtil IPPrefix PolicyRule.

(** ** Process-wide state *)

(** [clock k] is the k-th reading of [time.Now]. *)
Class Clock := clock : nat → Instant.

Record Proc := mkProc {
  clock_reads : nat;
  scheduleLocCache : gmap string (Location * bool);
  geo_unresolved : Z;                    (* culvert_geo_policy_unresolved_total *)
  statFileProfileUnresolvedBlocked : Z;
  fileProfileUnresolvedLastLog : Z;
  unresolved_log_lines : Z;              (* warnings written by noteFileProfileUnresolvedBlock *)
}.
#[global] Instance Proc_eta : Eta Proc := λ r,
  mkProc (clock_reads r) (scheduleLocCache r) (geo_unresolved r)
    (statFileProfileUnresolvedBlocked r) (fileProfileUnresolvedLastLog r) (unresolved_log_lines r).

Definition proc (A : Type) : Type := Proc → A * Proc.
#[global] Instance proc_ret : MRet proc := λ A a p, (a, p).
#[global] Instance proc_bind : MBind proc := λ A B f m p, let '(a, p') := m p in f a p'.

Definition time_Now `{Clock} : proc Instant := λ p,
  (clock (clock_reads p), p <| clock_reads := S (clock_reads p) |>).

(** ** Schedules *)

Definition unix_sec (t : Instant) : Z := t / Second.
(** The wall clock of [t.In(loc)], in seconds. *)
Definition local_sec (loc : Location) (t : Instant) : Z := unix_sec t + loc (unix_sec t).
Definition day_names : list string := ["Sun"; "Mon"; "Tue"; "Wed"; "Thu"; "Fri"; "Sat"].
(** [now.Weekday().String()[:3]]; 1 January 1970 was a Thursday. *)
Definition weekday3 (lsec : Z) : string :=
  nth (Z.to_nat ((lsec / 86400 + 4) mod 7)) day_names "".
Definition Hour_of (lsec : Z) : Z := lsec mod 86400 / 3600.
Definition Minute_of (lsec : Z) : Z := lsec mod 3600 / 60.

(** [scheduleLocationResolved]. *)
Definition scheduleLocationResolved `{TimeData} (name : string) : proc (Location * bool) := λ p,
  match scheduleLocCache p !! name with
  | Some e => (e, p)
  | None =>
      let e := match LoadLocation name with Some loc => (loc, true) | None => (UTC, false) end in
      (e, p <| scheduleLocCache := <[name := e]> (scheduleLocCache p) |>)
  end.
Definition scheduleLocation `{TimeData} (name : string) : proc Location :=
  '(loc, _) ← scheduleLocationResolved name; mret loc.

Definition scheduleDayMatch `{Unicode} (days : list string) (lsec : Z) : bool :=
  match days with
  | [] => true
  | _ => let day := weekday3 lsec in existsb (λ d, EqualFold d day) days
  end.

(** [parseClockMinutes]; the digit arithmetic is on bytes and wraps. *)
Definition byte_minus (c : ascii) (z : Z) : Z := (byte_val c - z) mod 256.
Definition parseClockMinutes (s : string) : option Z :=
  match s with
  | String c0 (String c1 (String c2 (String c3 (String c4 EmptyString)))) =>
      if negb (Ascii.eqb c2 ":"%char) then None else
      let h1 := byte_minus c0 48 in let h2 := byte_minus c1 48 in
      let m1 := byte_minus c3 48 in let m2 := byte_minus c4 48 in
      if (9 <? h1) || (9 <? h2) || (9 <? m1) || (9 <? m2) then None else
      let hh := h1 * 10 + h2 in let mm := m1 * 10 + m2 in
      if (hh =? 24) && (mm =? 0) then Some 1440
      else if (23 <? hh) || (59 <? mm) then None
      else Some (hh * 60 + mm)
  | _ => None
  end.

(** ["%02d"] on a number below 100. *)
Definition two_digits (n : Z) : string :=
  String (byte_of (48 + n / 10)) (String (byte_of (48 + n mod 10)) "").
Definition clock_string (h m : Z) : string := two_digits h ++ ":" ++ two_digits m.

Definition scheduleTimeMatchLegacy (startStr endStr : string) (lsec : Z) : bool :=
  let cur := clock_string (Hour_of lsec) (Minute_of lsec) in
  if str_le startStr endStr
  then str_le startStr cur && str_lt cur endStr
  else str_le startStr cur || str_lt cur endStr.

Definition scheduleTimeMatch (startStr endStr : string) (lsec : Z) : bool :=
  match parseClockMinutes startStr, parseClockMinutes endStr with
  | Some start, Some end_ =>
      let cur := Hour_of lsec * 60 + Minute_of lsec in
      if start <=? end_ then (start <=? cur) && (cur <? end_)
      else (start <=? cur) || (cur <? end_)
  | _, _ => scheduleTimeMatchLegacy startStr endStr lsec
  end.

Section schedule.
Context `{Unicode, TimeData, Clock}.

(** [matchScheduleAt]. *)
Definition matchScheduleAt (s : PolicySchedule) (now : Instant) : proc bool :=
  loc ← (if (Timezone s =? "")%string then mret UTC else scheduleLocation (Timezone s));
  let lsec := local_sec loc now in
  mret (if negb (scheduleDayMatch (Days s) lsec) then false
        else if (TimeStart s =? "")%string || (TimeEnd s =? "")%string then true
        else scheduleTimeMatch (TimeStart s) (TimeEnd s) lsec).

(** [matchSchedule]: nil is always active, otherwise the wall clock decides. *)
Definition matchSchedule (s : option PolicySchedule) : proc bool :=
  match s with
  | None => mret true
  | Some s => now ← time_Now; matchScheduleAt s now
  end.
End schedule.

(** ** Sources *)

Record clientSource := mkSource { raw : string; addr : option Addr; parsed : bool }.
Definition newClientSource (clientIP : string) : clientSource := mkSource clientIP None false.

Definition parseAddr (raw : string) : option Addr :=
  match ParseAddr raw with
  | Some a => if (Zone a =? "")%string then Some (Unmap a) else None
  | None => None
  end.
Definition address (s : clientSource) : option Addr * clientSource :=
  if parsed s then (addr s, s)
  else let a := parseAddr (raw s) in (a, mkSource (raw s) a true).

Definition matchIPOrCIDR (cidrOrIP clientIP : string) : bool :=
  if ContainsByte cidrOrIP "/"%char then
    match ParseCIDR cidrOrIP with
    | None => false
    | Some ipNet => match ParseIP clientIP with Some ip => IPNet_Contains ipNet ip | None => false end
    end
  else (cidrOrIP =? clientIP)%string.

(** [matchIPOrCIDRAddr]: with the client address already parsed. *)
Definition matchIPOrCIDRAddr (cidrOrIP clientIP : string) (clientAddr : option IP) : bool :=
  if ContainsByte cidrOrIP "/"%char then
    match ParseCIDR cidrOrIP with
    | None => false
    | Some ipNet => match clientAddr with Some ip => IPNet_Contains ipNet ip | None => false end
    end
  else (cidrOrIP =? clientIP)%string.

Definition idp_prefixes : list string := ["oidc:"; "saml:"; "ldap:"].

(** [splitIdPSource]: the first prefix that leaves a non-empty rest. *)
Fixpoint split_prefixes (ps : list string) (source : string) : string * string :=
  match ps with
  | [] => ("", source)
  | p :: ps =>
      match CutPrefix source p with
      | Some rest => if (rest =? "")%string then split_prefixes ps source else (TrimSuffix p ":", rest)
      | None => split_prefixes ps source
      end
  end.
Definition splitIdPSource (source : string) : string * string := split_prefixes idp_prefixes source.
(** [stripIdPPrefix]. *)
Fixpoint strip_prefixes (ps : list string) (source : string) : string :=
  match ps with
  | [] => source
  | p :: ps =>
      match CutPrefix source p with
      | Some rest => if (rest =? "")%string then strip_prefixes ps source else rest
      | None => strip_prefixes ps source
      end
  end.
Definition stripIdPPrefix (source : string) : string := strip_prefixes idp_prefixes source.

Section source.
Context `{Unicode}.

Definition containsGroupCI (groups : list string) (name : string) : bool :=
  let name := TrimSpace name in existsb (λ g, EqualFold (TrimSpace g) name) groups.

Definition matchAuthSource (ruleAuthSource actualAuthSource : string) : bool :=
  if EqualFold ruleAuthSource actualAuthSource then true else
  let '(ruleScheme, ruleName) := splitIdPSource ruleAuthSource in
  let '(actScheme, actName) := splitIdPSource actualAuthSource in
  if negb (EqualFold ruleName actName) then false
  else (ruleScheme =? "")%string || (actScheme =? "")%string || EqualFold ruleScheme actScheme.

(** [matchSourceAddr]. *)
Definition matchSourceAddr (rule : PolicyRule) (src : clientSource)
    (identity authSource : string) (groups : list string) : bool * clientSource :=
  let '(ipOK, src) :=
    if (SourceIP rule =? "")%string then (true, src) else
    match srcPrefix rule, srcIPNet rule with
    | Some p, _ =>
        let '(a, src) := address src in
        (match a with Some a => Prefix_Contains p a | None => false end, src)
    | None, Some n =>
        let '(a, src) := address src in
        (match a with Some a => IPNet_Contains n (AsSlice a) | None => false end, src)
    | None, None => (matchIPOrCIDR (SourceIP rule) (raw src), src)
    end in
  let idOK := (SourceIdentity rule =? "")%string || EqualFold (SourceIdentity rule) identity in
  let grpOK := (SourceGroup rule =? "")%string || containsGroupCI groups (SourceGroup rule) in
  let srcOK := (AuthSource rule =? "")%string || matchAuthSource (AuthSource rule) authSource in
  (ipOK && idOK && grpOK && srcOK, src).

Definition matchSource (rule : PolicyRule) (clientIP identity authSource : string) (groups : list string) : bool :=
  (matchSourceAddr rule (newClientSource clientIP) identity authSource groups).1.

Definition matchCountry (countries : list string) (code : string) : bool :=
  if (code =? "")%string then false else
  let code := ToUpper code in existsb (λ c, (ToUpper c =? code)%string) countries.
End source.

(** ** Destination categories: the per-scan memo

    A memo field and its [Set] flag are one option: [None] is "not computed". *)

Record hostCatScratch := mkScratch {
  sc_host : string;
  sc_view : option (option CategoryView);
  sc_fusion : option (string * string * string);
  sc_viewLookup : option (option string);
  sc_community : option (option string);
}.
#[global] Instance hostCatScratch_eta : Eta hostCatScratch := λ r,
  mkScratch (sc_host r) (sc_view r) (sc_fusion r) (sc_viewLookup r) (sc_community r).

Definition newHostCatScratch (host : string) : hostCatScratch := mkScratch host None None None None.

Section category.
Context `{Unicode, Idna, PolicyEnv}.

Definition effectiveView (sc : hostCatScratch) : option CategoryView * hostCatScratch :=
  match sc_view sc with
  | Some v => (v, sc)
  | None => (saasEffectiveView, sc <| sc_view := Some saasEffectiveView |>)
  end.

Definition viewLookup (sc : hostCatScratch) : option string * hostCatScratch :=
  match sc_viewLookup sc with
  | Some r => (r, sc)
  | None =>
      let '(view, sc) := effectiveView sc in
      let r := match view with Some v => view_LookupHost v (sc_host sc) | None => None end in
      (r, sc <| sc_viewLookup := Some r |>)
  end.

(** A nil community store is not memoised. *)
Definition communityLookup (sc : hostCatScratch) : option string * hostCatScratch :=
  match sc_community sc with
  | Some r => (r, sc)
  | None =>
      match communityDB with
      | None => (None, sc)
      | Some db => let r := db (sc_host sc) in (r, sc <| sc_community := Some r |>)
      end
  end.

(** The Layer-2 tail of [resolveFusion]. *)
Definition fusion_community (sc : hostCatScratch) : (string * string * string) * hostCatScratch :=
  let h := NormalizeHost (sc_host sc) in
  match communityDB with
  | Some _ =>
      let '(r, sc) := communityLookup sc in
      match r with
      | Some foundCat => ((foundCat, "community", h), sc)
      | None => (("", "none", ""), sc)
      end
  | None => (("", "none", ""), sc)
  end.

Definition resolveFusion (sc : hostCatScratch) : (string * string * string) * hostCatScratch :=
  let '(view, sc) := effectiveView sc in
  match view with
  | Some _ =>
      match cat_LookupHostAdmin (sc_host sc) with
      | Some (name, pattern) => ((name, "admin", pattern), sc)
      | None =>
          let '(r, sc) := viewLookup sc in
          match r with
          | Some c => ((c, "saas", NormalizeHost (sc_host sc)), sc)
          | None => fusion_community sc
          end
      end
  | None =>
      match cat_LookupHost (sc_host sc) with
      | Some (name, pattern) => ((name, "admin", pattern), sc)
      | None => fusion_community sc
      end
  end.

Definition fusion (sc : hostCatScratch) : (string * string * string) * hostCatScratch :=
  match sc_fusion sc with
  | Some r => (r, sc)
  | None => let '(r, sc) := resolveFusion sc in (r, sc <| sc_fusion := Some r |>)
  end.

(** [hostCatScratch.matchesCategory]. *)
Definition matchesCategory (sc : hostCatScratch) (cat : string) : bool * hostCatScratch :=
  let '(view, sc) := effectiveView sc in
  let hit := match view with
    | Some v => cat_MatchesHostAdmin cat (sc_host sc) || view_MatchesCategory v cat (sc_host sc)
    | None => cat_MatchesHost cat (sc_host sc)
    end in
  if hit then (true, sc) else
  match communityDB with
  | Some _ =>
      let '(r, sc) := communityLookup sc in
      match r with
      | Some foundCat => (EqualFold foundCat cat, sc)
      | None => (false, sc)
      end
  | None => (false, sc)
  end.

(** [categoryGroupMatchesHostScratch]. *)
Definition categoryGroupMatchesHostScratch (rule : PolicyRule) (sc : hostCatScratch) : bool * hostCatScratch :=
  let '((hostCat, _, _), sc) := fusion sc in
  let by_name := group_MatchesCategory (DestCategoryGroup rule) hostCat in
  (if (DestCategoryGroupID rule =? "")%string then by_name
   else match group_MatchesCategoryByID (DestCategoryGroupID rule) hostCat with
        | Some matched => matched
        | None => by_name
        end, sc).

Definition noteGeoCountryUnresolved : proc unit := λ p,
  (tt, p <| geo_unresolved := geo_unresolved p + 1 |>).

(** [matchDestNorm]. *)
Definition matchDestNorm (rule : PolicyRule) (host normHost : string) (sc : hostCatScratch)
    : proc (bool * hostCatScratch) :=
  let fqdnSet := negb (DestFQDN rule =? "")%string in
  let catSet := negb (DestCategory rule =? "")%string && negb (DestCategory rule =? CategoryAny)%string in
  let catGroupSet := negb (DestCategoryGroup rule =? "")%string in
  let countrySet := negb (bool_decide (DestCountry rule = [])) in
  let fqdnOK := if negb (normFQDN rule =? "")%string then MatchFQDNNorm (normFQDN rule) normHost
                else MatchFQDN (DestFQDN rule) host in
  if fqdnSet && negb fqdnOK then mret (false, sc) else
  let '(catOK, sc) := if catSet then matchesCategory sc (DestCategory rule) else (true, sc) in
  if negb catOK then mret (false, sc) else
  let '(groupOK, sc) := if catGroupSet then categoryGroupMatchesHostScratch rule sc else (true, sc) in
  if negb groupOK then mret (false, sc) else
  if countrySet then
    match geo_LookupCached host with
    | None => _ ← noteGeoCountryUnresolved; mret (false, sc)
    | Some code => mret (matchCountry (DestCountry rule) code, sc)
    end
  else mret (true, sc).

Definition matchDest (rule : PolicyRule) (host : string) : proc bool :=
  '(ok, _) ← matchDestNorm rule host (NormalizeHost host) (newHostCatScratch host); mret ok.

(** [matchCategory] and [lookupHostCategory], outside a scan. *)
Definition matchCategory (cat host : string) : bool := (matchesCategory (newHostCatScratch host) cat).1.
Definition lookupHostCategory (host : string) : string * string * string := (fusion (newHostCatScratch host)).1.
End category.

(** ** The Stage-2 scan *)

Record accessEvalInput := mkInput {
  in_clientIP : string; in_identity : string; in_authSource : string;
  in_host : string; in_normHost : string; in_groups : list string;
}.

Definition accessSkipDisabled : string := "disabled".
Definition accessSkipNonAccess : string := "non-access rule (auth)".
Definition accessSkipSource : string := "source mismatch".
Definition accessSkipSchedule : string := "schedule inactive".
Definition accessSkipDest : string := "destination mismatch".

Section eval.
Context `{Unicode, Idna, PolicyEnv, TimeData, Clock}.

(** The state of the loop: client address memo, category memo, the one clock reading. *)
Record ScanState := mkScan {
  scan_src : clientSource; scan_cat : hostCatScratch; scan_now : option Instant;
}.

(** The schedule check of one iteration: the clock is read on the first scheduled rule. *)
Definition eval_schedule (rule : PolicyRule) (now : proc Instant) (scanNow : option Instant)
    : proc (bool * option Instant) :=
  match Schedule rule with
  | None => mret (true, scanNow)
  | Some s =>
      t ← match scanNow with Some t => mret t | None => now end;
      ok ← matchScheduleAt s t;
      mret (ok, Some t)
  end.

(** One iteration: the skip reason, [""] when the rule matches. *)
Definition eval_rule (rule : PolicyRule) (inp : accessEvalInput) (now : proc Instant) (st : ScanState)
    : proc (string * ScanState) :=
  if negb (ruleIsEnabled rule) then mret (accessSkipDisabled, st) else
  if negb (ruleTypeOf rule =? ruleTypeAccess)%string then mret (accessSkipNonAccess, st) else
  let '(srcOK, src) :=
    matchSourceAddr rule (scan_src st) (in_identity inp) (in_authSource inp) (in_groups inp) in
  if negb srcOK then mret (accessSkipSource, mkScan src (scan_cat st) (scan_now st)) else
  '(schedOK, scanNow) ← eval_schedule rule now (scan_now st);
  if negb (schedOK : bool) then mret (accessSkipSchedule, mkScan src (scan_cat st) scanNow) else
  '(destOK, cat) ← matchDestNorm rule (in_host inp) (in_normHost inp) (scan_cat st);
  mret (if destOK : bool then "" else accessSkipDest, mkScan src cat scanNow).

(** [evalAccessRules]: the matching rule, and the calls its trace argument receives
    (the enforcement path passes none). *)
Fixpoint eval_loop (rules : list PolicyRule) (inp : accessEvalInput) (now : proc Instant) (st : ScanState)
    : proc (option PolicyRule * list (PolicyRule * string)) :=
  match rules with
  | [] => mret (None, [])
  | rule :: rules =>
      '(skip, st) ← eval_rule rule inp now st;
      if (skip =? "")%string then mret (Some rule, [(rule, "")])
      else '(r, tr) ← eval_loop rules inp now st; mret (r, (rule, skip) :: tr)
  end.

Definition evalAccessRules (rules : list PolicyRule) (inp : accessEvalInput) (now : proc Instant)
    : proc (option PolicyRule * list (PolicyRule * string)) :=
  eval_loop rules inp now
    (mkScan (newClientSource (in_clientIP inp)) (newHostCatScratch (in_host inp)) None).
End eval.

(** ** File profiles *)

(** [pathFileExt]: scan back to the last dot of the last path segment. *)
Fixpoint path_ext_from `{Unicode} (n : nat) (urlPath : string) : string :=
  match n with
  | O => ""
  | S i =>
      match byte_at urlPath i with
      | Some c => if Ascii.eqb c "/"%char then ""
                  else if Ascii.eqb c "."%char then ToLower (sdrop i urlPath)
                  else path_ext_from i urlPath
      | None => ""
      end
  end.
Definition pathFileExt `{Unicode} (urlPath : string) : string :=
  path_ext_from (String.length urlPath) urlPath.

Definition matchFileExt `{Unicode} (urlPath : string) (exts : list string) : bool :=
  let ext := pathFileExt urlPath in
  if (ext =? "")%string then false else existsb (λ e, (e =? ext)%string) exts.

Section fileprofile.
Context `{Unicode, PolicyEnv, Clock}.

Definition noteFileProfileUnresolvedBlock : proc unit := λ p,
  let p := p <| statFileProfileUnresolvedBlocked := statFileProfileUnresolvedBlocked p + 1 |> in
  let '(t, p) := time_Now p in
  let now := unix_sec t in
  (tt, if 300 <=? now - fileProfileUnresolvedLastLog p
       then p <| fileProfileUnresolvedLastLog := now |> <| unresolved_log_lines := unresolved_log_lines p + 1 |>
       else p).

Definition fileProfileBlockedByID (r : PolicyRule) (urlPath : string) : proc bool :=
  match profile_GetByID (FileProfileID r) with
  | Some exts => mret (matchFileExt urlPath exts)
  | None => if (pathFileExt urlPath =? "")%string then mret false
            else _ ← noteFileProfileUnresolvedBlock; mret true
  end.

Definition FileProfileBlocked (r : PolicyRule) (urlPath : string) : proc bool :=
  if negb (FileFiltering r) || (FileProfile r =? FileProfileNone)%string then mret false
  else if negb (FileProfileID r =? "")%string then fileProfileBlockedByID r urlPath
  else match profile_GetByName (FileProfile r) with
       | Some exts => mret (matchFileExt urlPath exts)
       | None => match fileProfileExts (FileProfile r) with
                 | Some exts => mret (matchFileExt urlPath exts)
                 | None => mret false
                 end
       end.
End fileprofile.

(** ** Clock strings compare like minutes *)

Lemma compare_app a a' b b' :
  String.length a = String.length a' →
  String.compare (a ++ b) (a' ++ b') =
    match String.compare a a' with Eq => String.compare b b' | c => c end.
Proof.
  revert a'. induction a as [|c a IH]; intros [|c' a'] Hl; try done. injection Hl as Hl. simpl.
  destruct (Ascii.compare c c'); [by apply IH|done..].
Qed.

Lemma two_digits_compare m n :
  0 ≤ m < 100 → 0 ≤ n < 100 → String.compare (two_digits m) (two_digits n) = (m ?= n).
Proof.
  intros Hm Hn.
  assert (forallb (λ i, forallb (λ j,
    match String.compare (two_digits (Z.of_nat i)) (two_digits (Z.of_nat j)), Nat.compare i j with
    | Eq, Eq | Lt, Lt | Gt, Gt => true | _, _ => false end) (seq 0 100)) (seq 0 100) = true) as Hall
    by (vm_compute; reflexivity).
  rewrite forallb_forall in Hall. specialize (Hall (Z.to_nat m)).
  rewrite in_seq in Hall. specialize (Hall ltac:(lia)). rewrite forallb_forall in Hall.
  specialize (Hall (Z.to_nat n)). rewrite in_seq in Hall. specialize (Hall ltac:(lia)).
  rewrite !Z2Nat.id in Hall by lia.
  replace (m ?= n) with (Nat.compare (Z.to_nat m) (Z.to_nat n)) by (rewrite <- Z2Nat.inj_compare by lia; done).
  destruct (String.compare _ _), (Nat.compare _ _); done.
Qed.

Lemma clock_string_compare h m h' m' :
  0 ≤ h < 100 → 0 ≤ m < 60 → 0 ≤ h' < 100 → 0 ≤ m' < 60 →
  String.compare (clock_string h m) (clock_string h' m') = (h * 60 + m ?= h' * 60 + m').
Proof.
  intros ????. unfold clock_string. rewrite compare_app by done. rewrite two_digits_compare by done.
  rewrite compare_app by done. change (String.compare ":" ":") with Eq. cbv iota.
  rewrite two_digits_compare by lia.
  destruct (Z.compare_spec h h'), (Z.compare_spec m m'),
    (Z.compare_spec (h * 60 + m) (h' * 60 + m')); lia || done.
Qed.

Lemma byte_minus_digit c : byte_minus c 48 ≤ 9 → c = byte_of (48 + byte_minus c 48) ∧ 0 ≤ byte_minus c 48.
Proof.
  unfold byte_minus. intros Hd. pose proof (byte_val_range c).
  assert (48 ≤ byte_val c).
  { destruct (Z_lt_ge_dec (byte_val c) 48); [|lia].
    replace ((byte_val c - 48) mod 256) with (byte_val c - 48 + 256) in Hd; [lia|].
    apply (Z.mod_unique _ _ (-1)); lia. }
  rewrite Z.mod_small by lia. split; [|lia].
  replace (48 + (byte_val c - 48)) with (byte_val c) by lia. by rewrite byte_of_byte_val.
Qed.

(** A parsed bound is the clock string of its minutes. *)
Lemma parseClockMinutes_spec s k :
  parseClockMinutes s = Some k → ∃ h m, s = clock_string h m ∧ 0 ≤ h < 100 ∧ 0 ≤ m < 60 ∧ k = h * 60 + m.
Proof.
  unfold parseClockMinutes.
  destruct s as [|c0 [|c1 [|c2 [|c3 [|c4 [|]]]]]]; try done.
  destruct (Ascii.eqb_spec c2 ":"%char) as [->|]; [|done]. simpl (negb _).
  destruct (_ || _) eqn:Ed; [done|]. repeat (apply orb_false_elim in Ed as [Ed ?]). bprop.
  destruct (byte_minus_digit c0 ltac:(lia)) as [E0 ?], (byte_minus_digit c1 ltac:(lia)) as [E1 ?],
    (byte_minus_digit c3 ltac:(lia)) as [E3 ?], (byte_minus_digit c4 ltac:(lia)) as [E4 ?].
  revert E0 E1 E3 E4. generalize dependent (byte_minus c0 48). generalize dependent (byte_minus c1 48).
  generalize dependent (byte_minus c3 48). generalize dependent (byte_minus c4 48).
  intros m2 ?? m1 ?? h2 ?? h1 ?? -> -> -> ->. cbv zeta. intros E.
  exists (h1 * 10 + h2), (m1 * 10 + m2). split.
  - unfold clock_string, two_digits.
    replace ((h1 * 10 + h2) / 10) with h1 by (rewrite Z.div_add_l by lia; rewrite Z.div_small by lia; lia).
    replace ((m1 * 10 + m2) / 10) with m1 by (rewrite Z.div_add_l by lia; rewrite Z.div_small by lia; lia).
    replace ((h1 * 10 + h2) mod 10) with h2 by (rewrite Z.add_comm, Z.mod_add, Z.mod_small; lia).
    replace ((m1 * 10 + m2) mod 10) with m2 by (rewrite Z.add_comm, Z.mod_add, Z.mod_small; lia).
    done.
  - destruct (Z.eqb_spec (h1 * 10 + h2) 24), (Z.eqb_spec (m1 * 10 + m2) 0); simpl in E;
      [injection E as <-; lia|..];
      (destruct (Z.ltb_spec 23 (h1 * 10 + h2)); [done|]); (destruct (Z.ltb_spec 59 (m1 * 10 + m2)); [done|]);
      simpl in E; injection E as <-; lia.
Qed.

(** The schedule window test compares minutes of the day, and decides exactly as the
    string comparison of zero-padded clock readings it replaced: for every pair of bounds,
    well-formed or not, and every instant. *)
Theorem schedule_minutes_legacy (startStr endStr : string) (lsec : Z) :
  scheduleTimeMatch startStr endStr lsec = scheduleTimeMatchLegacy startStr endStr lsec.
Proof.
  unfold scheduleTimeMatch. destruct (parseClockMinutes startStr) as [ks|] eqn:Es; [|done].
  destruct (parseClockMinutes endStr) as [ke|] eqn:Ee; [|done].
  apply parseClockMinutes_spec in Es as (hs&ms&->&?&?&->), Ee as (he&me&->&?&?&->).
  unfold scheduleTimeMatchLegacy, str_le, str_lt, String.leb, String.ltb.
  assert (0 ≤ Hour_of lsec < 24 ∧ 0 ≤ Minute_of lsec < 60) as [? ?].
  { unfold Hour_of, Minute_of. pose proof (Z.mod_pos_bound lsec 86400 ltac:(lia)).
    pose proof (Z.mod_pos_bound lsec 3600 ltac:(lia)).
    split; split; (apply Z.div_pos || apply Z.div_lt_upper_bound); lia. }
  rewrite !clock_string_compare by lia. unfold Z.leb, Z.ltb.
  destruct (hs * 60 + ms ?= he * 60 + me), (hs * 60 + ms ?= Hour_of lsec * 60 + Minute_of lsec),
    (Hour_of lsec * 60 + Minute_of lsec ?= he * 60 + me); done.
Qed.

(** ** Auth sources *)

Lemma runes_ascii_cons c s : is_ascii_byte c = true → ∃ l, runes (String c s) = byte_val c :: l.
Proof.
  unfold is_ascii_byte, RuneSelf. intros Hc%Z.ltb_lt. unfold runes, segments. cbn [segments_fuel String.length].
  assert (decode_rune c s = (byte_val c, String c "", s)) as ->.
  { unfold decode_rune. rewrite (proj2 (Z.ltb_lt _ _)) by exact Hc. done. }
  by eexists.
Qed.

Section authsource.
Context `{Unicode}.

Lemma EqualFold_head c c' s s' :
  is_ascii_byte c = true → is_ascii_byte c' = true →
  ascii_to_upper (byte_val c) ≠ ascii_to_upper (byte_val c') →
  EqualFold (String c s) (String c' s') = false.
Proof.
  intros Hc Hc' Hne. apply bool_decide_eq_false.
  destruct (runes_ascii_cons c s Hc) as [l ->], (runes_ascii_cons c' s' Hc') as [l' ->].
  unfold is_ascii_byte, RuneSelf in *. bprop. pose proof (byte_val_range c). pose proof (byte_val_range c').
  simpl. intros [= E _]. rewrite !rune_fold_ascii in E by lia. done.
Qed.

Lemma split_scheme s n :
  s ∈ ["oidc"; "saml"; "ldap"] → n ≠ "" → splitIdPSource (s ++ ":" ++ n) = (s, n).
Proof.
  intros Hs Hn. unfold splitIdPSource, idp_prefixes. cbn [split_prefixes].
  assert (∀ p, p ∈ ["oidc"; "saml"; "ldap"] →
    CutPrefix (s ++ ":" ++ n) (p ++ ":") = if (p =? s)%string then Some n else None) as Hcut.
  { intros p Hp. destruct (String.eqb_spec p s) as [->|Hne].
    - apply CutPrefix_spec. by rewrite sapp_assoc.
    - destruct (CutPrefix _ _) as [t|] eqn:E; [|done]. apply CutPrefix_spec in E.
      rewrite !elem_of_cons, elem_of_nil in Hp, Hs.
      destruct Hp as [->|[->|[->|[]]]], Hs as [->|[->|[->|[]]]]; done. }
  change "oidc:" with ("oidc" ++ ":"). change "saml:" with ("saml" ++ ":"). change "ldap:" with ("ldap" ++ ":").
  rewrite !Hcut by set_solver. apply String.eqb_neq in Hn.
  rewrite !elem_of_cons, elem_of_nil in Hs.
  destruct Hs as [->|[->|[->|[]]]]; simpl; by rewrite Hn.
Qed.

(** An authentication source is never honoured across schemes: a rule scoped to one
    of "oidc:", "saml:", "ldap:" does not match a source of another, whatever the profile
    names, while a bare profile name matches its qualified form under every scheme, and
    matching is symmetric. *)
Theorem matchAuthSource_schemes (s s' n n' : string)
    (Hs : s ∈ ["oidc"; "saml"; "ldap"]) (Hs' : s' ∈ ["oidc"; "saml"; "ldap"])
    (Hn : n ≠ "") (Hn' : n' ≠ "") :
  (s ≠ s' → matchAuthSource (s ++ ":" ++ n) (s' ++ ":" ++ n') = false) ∧
  (splitIdPSource n = ("", n) → matchAuthSource n (s ++ ":" ++ n) = true) ∧
  (∀ a b, matchAuthSource a b = matchAuthSource b a).
Proof.
  split_and!.
  - intros Hne. unfold matchAuthSource. rewrite !split_scheme by done.
    rewrite !elem_of_cons, elem_of_nil in Hs, Hs'.
    destruct Hs as [->|[->|[->|[]]]], Hs' as [->|[->|[->|[]]]]; try done; cbn [String.append];
      rewrite !EqualFold_head by (vm_compute; congruence); by destruct (EqualFold n n').
  - intros Hbare. unfold matchAuthSource. rewrite Hbare, split_scheme by done.
    rewrite EqualFold_refl. by destruct (EqualFold n _).
  - intros a b. unfold matchAuthSource. rewrite (EqualFold_sym a b).
    destruct (EqualFold b a), (splitIdPSource a) as [sa na], (splitIdPSource b) as [sb nb]; [done|].
    rewrite (EqualFold_sym na nb), (EqualFold_sym sa sb).
    destruct (EqualFold nb na), (sa =? "")%string, (sb =? "")%string; done.
Qed.
End authsource.

Lemma matchAuthSource_schemes_witness :
  let U := ascii_unicode in
  matchAuthSource "oidc:okta" "saml:okta" = false ∧ matchAuthSource "okta" "saml:okta" = true.
Proof.
  intros U.
  destruct (@matchAuthSource_schemes U "oidc" "saml" "okta" "okta") as (Hx&_&_);
    [set_solver|set_solver|discriminate|discriminate|].
  destruct (@matchAuthSource_schemes U "saml" "saml" "okta" "okta") as (_&Hb&_);
    [set_solver|set_solver|discriminate|discriminate|].
  split; [apply Hx; discriminate|apply Hb; vm_compute; reflexivity].
Defined.

(** ** Reference semantics: no memo, no precomputation *)

Section reference.
Context `{Unicode, Idna, PolicyEnv, TimeData}.

Definition ref_community (host : string) : option string := db ← communityDB; db host.

Definition ref_fusion (host : string) : string * string * string :=
  let layer2 := match ref_community host with
    | Some c => (c, "community", NormalizeHost host)
    | None => ("", "none", "")
    end in
  match saasEffectiveView with
  | Some v =>
      match cat_LookupHostAdmin host, view_LookupHost v host with
      | Some (name, pattern), _ => (name, "admin", pattern)
      | None, Some c => (c, "saas", NormalizeHost host)
      | None, None => layer2
      end
  | None => match cat_LookupHost host with
            | Some (name, pattern) => (name, "admin", pattern)
            | None => layer2
            end
  end.

(** Membership is the union of the layers. *)
Definition ref_category (cat host : string) : bool :=
  match saasEffectiveView with
  | Some v => cat_MatchesHostAdmin cat host || view_MatchesCategory v cat host
  | None => cat_MatchesHost cat host
  end ||
  match ref_community host with Some c => EqualFold c cat | None => false end.

Definition ref_group (rule : PolicyRule) (host : string) : bool :=
  let hostCat := (ref_fusion host).1.1 in
  default (group_MatchesCategory (DestCategoryGroup rule) hostCat)
    (if (DestCategoryGroupID rule =? "")%string then None
     else group_MatchesCategoryByID (DestCategoryGroupID rule) hostCat).

(** Destination conditions other than the country. *)
Definition ref_dest_host (rule : PolicyRule) (host : string) : bool :=
  ((DestFQDN rule =? "")%string || MatchFQDN (DestFQDN rule) host) &&
  ((DestCategory rule =? "")%string || (DestCategory rule =? CategoryAny)%string ||
     ref_category (DestCategory rule) host) &&
  ((DestCategoryGroup rule =? "")%string || ref_group rule host).

Definition ref_dest (rule : PolicyRule) (host : string) : bool :=
  ref_dest_host rule host &&
  (bool_decide (DestCountry rule = []) ||
     match geo_LookupCached host with Some code => matchCountry (DestCountry rule) code | None => false end).

(** An unresolved country is counted when everything else matched. *)
Definition dest_effect (rule : PolicyRule) (host : string) (p : Proc) : Proc :=
  if ref_dest_host rule host && negb (bool_decide (DestCountry rule = [])) &&
     bool_decide (geo_LookupCached host = None)
  then p <| geo_unresolved := geo_unresolved p + 1 |> else p.

Definition ref_source (rule : PolicyRule) (clientIP identity authSource : string) (groups : list string) : bool :=
  ((SourceIP rule =? "")%string || matchIPOrCIDR (SourceIP rule) clientIP) &&
  ((SourceIdentity rule =? "")%string || EqualFold (SourceIdentity rule) identity) &&
  ((SourceGroup rule =? "")%string || containsGroupCI groups (SourceGroup rule)) &&
  ((AuthSource rule =? "")%string || matchAuthSource (AuthSource rule) authSource).

Definition ref_location (tz : string) : Location * bool :=
  match LoadLocation tz with Some loc => (loc, true) | None => (UTC, false) end.

Definition ref_schedule (s : PolicySchedule) (now : Instant) : bool :=
  let loc := if (Timezone s =? "")%string then UTC else (ref_location (Timezone s)).1 in
  let lsec := local_sec loc now in
  scheduleDayMatch (Days s) lsec &&
  ((TimeStart s =? "")%string || (TimeEnd s =? "")%string ||
     scheduleTimeMatch (TimeStart s) (TimeEnd s) lsec).

(** Why a rule is skipped at instant [now]; [""] when it applies. *)
Definition access_verdict (rule : PolicyRule) (inp : accessEvalInput) (now : Instant) : string :=
  if negb (ruleIsEnabled rule) then accessSkipDisabled
  else if negb (ruleTypeOf rule =? ruleTypeAccess)%string then accessSkipNonAccess
  else if negb (ref_source rule (in_clientIP inp) (in_identity inp) (in_authSource inp) (in_groups inp))
    then accessSkipSource
  else if negb (match Schedule rule with Some s => ref_schedule s now | None => true end) then accessSkipSchedule
  else if negb (ref_dest rule (in_host inp)) then accessSkipDest
  else "".

Definition rule_applies (inp : accessEvalInput) (now : Instant) (rule : PolicyRule) : bool :=
  (access_verdict rule inp now =? "")%string.

(** The trace: one entry per rule, up to and including the first that applies. *)
Fixpoint verdict_trace (rules : list PolicyRule) (inp : accessEvalInput) (now : Instant) : list (PolicyRule * string) :=
  match rules with
  | [] => []
  | rule :: rules =>
      (rule, access_verdict rule inp now) ::
        if rule_applies inp now rule then [] else verdict_trace rules inp now
  end.
End reference.

(** The precomputed forms of a rule agree with its fields, or are absent (a rule that
    did not go through publication). *)
Record precompute_ok `{Unicode, Idna} (r : PolicyRule) : Prop := {
  pre_fqdn : normFQDN r = "" ∨ normFQDN r = NormalizeHost (DestFQDN r);
  pre_net n : srcIPNet r = Some n → ContainsByte (SourceIP r) "/"%char = true ∧ ParseCIDR (SourceIP r) = Some n;
  pre_prefix p : srcPrefix r = Some p → ∃ n, ContainsByte (SourceIP r) "/"%char = true ∧
    ParseCIDR (SourceIP r) = Some n ∧ prefixFromIPNet (Some n) = Some p;
}.

Lemma precompute_rule_ok `{Unicode, Idna} r : precompute_ok (precompute_rule r).
Proof.
  constructor; simpl.
  - destruct (DestFQDN r =? "")%string; [by left|by right].
  - intros n. by destruct (ContainsByte (SourceIP r) "/"%char).
  - intros p. destruct (ContainsByte (SourceIP r) "/"%char); [|done].
    destruct (ParseCIDR (SourceIP r)) as [n|]; [|done]. eauto.
Qed.

(** The time-zone cache holds what the database says. *)
Definition locs_ok `{TimeData} (p : Proc) : Prop :=
  ∀ name e, scheduleLocCache p !! name = Some e → e = ref_location name.

Section transparency.
Context `{Unicode, Idna, PolicyEnv, TimeData, Clock}.

(** *** The client address memo *)

Definition source_ok (clientIP : string) (s : clientSource) : Prop :=
  raw s = clientIP ∧ (parsed s = true → addr s = parseAddr clientIP).

Lemma address_ok clientIP s :
  source_ok clientIP s → (address s).1 = parseAddr clientIP ∧ source_ok clientIP (address s).2.
Proof.
  intros [Hr Hp]. unfold address. destruct (parsed s) eqn:E; simpl; [split; [auto|split; auto]|].
  rewrite Hr. split; [done|]. split; done.
Qed.

(** The precomputed network against the reference string match. *)
Lemma matchIPOrCIDR_addr cidr clientIP n :
  ContainsByte cidr "/"%char = true → ParseCIDR cidr = Some n →
  matchIPOrCIDR cidr clientIP =
    match parseAddr clientIP with Some a => IPNet_Contains n (AsSlice a) | None => false end ∧
  ∀ p, prefixFromIPNet (Some n) = Some p →
    matchIPOrCIDR cidr clientIP =
      match parseAddr clientIP with Some a => Prefix_Contains p a | None => false end.
Proof.
  intros Hc Hn. unfold matchIPOrCIDR, parseAddr, ParseIP. rewrite Hc, Hn.
  apply ParseCIDR_cidr, prefixFromIPNet_cidr in Hn as [_ Hwf].
  destruct (ParseAddr clientIP) as [a|] eqn:Ea; [|done]. cbn [mbind option_bind]. apply ParseAddr_wf in Ea.
  destruct (String.eqb_spec (Zone a) "") as [Hz|]; [|done]. split.
  - by destruct (contains_probe n a Ea) as [_ ->].
  - intros p Hp. by destruct (prefix_contains_agree n p a Hwf Hp Ea Hz) as [-> _].
Qed.

Lemma matchSourceAddr_ok rule clientIP s identity authSource groups :
  precompute_ok rule → source_ok clientIP s →
  (matchSourceAddr rule s identity authSource groups).1 = ref_source rule clientIP identity authSource groups ∧
  source_ok clientIP (matchSourceAddr rule s identity authSource groups).2.
Proof.
  intros Hpre Hs. unfold matchSourceAddr, ref_source.
  destruct (address_ok clientIP s Hs) as [Ha Hs'].
  destruct (String.eqb_spec (SourceIP rule) "") as [|Hne]; [done|]. simpl.
  destruct (srcPrefix rule) as [p|] eqn:Ep.
  - destruct (pre_prefix _ Hpre p Ep) as (n&Hc&Hn&Hp). destruct (address s) as [a s']. simpl in *. subst a.
    destruct (matchIPOrCIDR_addr _ clientIP n Hc Hn) as [_ Hm]. by rewrite (Hm p Hp).
  - destruct (srcIPNet rule) as [n|] eqn:En.
    + destruct (pre_net _ Hpre n En) as [Hc Hn]. destruct (address s) as [a s']. simpl in *. subst a.
      destruct (matchIPOrCIDR_addr _ clientIP n Hc Hn) as [-> _]. done.
    + simpl. pose proof Hs as [Hr _]. by rewrite Hr.
Qed.

(** *** The category memo *)

Definition ref_view_lookup (host : string) : option string :=
  match saasEffectiveView with Some v => view_LookupHost v host | None => None end.

Record scratch_ok (host : string) (sc : hostCatScratch) : Prop := {
  sok_host : sc_host sc = host;
  sok_view v : sc_view sc = Some v → v = saasEffectiveView;
  sok_fusion r : sc_fusion sc = Some r → r = ref_fusion host;
  sok_lookup r : sc_viewLookup sc = Some r → r = ref_view_lookup host;
  sok_community r : sc_community sc = Some r → r = ref_community host;
}.

(** [f] answers [v] on every coherent memo and keeps it coherent. *)
Definition memo_fun {A} (host : string) (f : hostCatScratch → A * hostCatScratch) (v : A) : Prop :=
  ∀ sc, scratch_ok host sc → (f sc).1 = v ∧ scratch_ok host (f sc).2.

Lemma effectiveView_ok host : memo_fun host effectiveView saasEffectiveView.
Proof.
  intros sc Hsc. unfold effectiveView. destruct (sc_view sc) as [v|] eqn:E.
  - split; [by apply (sok_view _ _ Hsc)|done].
  - split; [done|]. constructor; simpl; try apply Hsc. by intros v [= <-].
Qed.

Lemma viewLookup_ok host : memo_fun host viewLookup (ref_view_lookup host).
Proof.
  intros sc Hsc. unfold viewLookup. destruct (sc_viewLookup sc) as [r|] eqn:E.
  - split; [by apply (sok_lookup _ _ Hsc)|done].
  - destruct (effectiveView_ok host sc Hsc) as [Hv Hsc']. destruct (effectiveView sc) as [v sc']. simpl in *.
    subst v. rewrite (sok_host _ _ Hsc'). split; [done|]. constructor; simpl; try apply Hsc'. by intros r [= <-].
Qed.

Lemma communityLookup_ok host : memo_fun host communityLookup (ref_community host).
Proof.
  intros sc Hsc. unfold communityLookup. destruct (sc_community sc) as [r|] eqn:E.
  - split; [by apply (sok_community _ _ Hsc)|done].
  - unfold ref_community. destruct communityDB as [db|] eqn:Ed; [|done]. simpl. rewrite (sok_host _ _ Hsc).
    split; [done|]. constructor; simpl; try apply Hsc. intros r [= <-]. unfold ref_community. by rewrite Ed.
Qed.

Lemma fusion_community_ok host :
  memo_fun host fusion_community
    (match ref_community host with Some c => (c, "community", NormalizeHost host) | None => ("", "none", "") end).
Proof.
  intros sc Hsc. unfold fusion_community. destruct communityDB as [db|] eqn:Ed.
  - destruct (communityLookup_ok host sc Hsc) as [Hr Hsc']. destruct (communityLookup sc) as [r sc']. simpl in *.
    subst r. rewrite (sok_host _ _ Hsc). by destruct (ref_community host).
  - unfold ref_community. by rewrite Ed.
Qed.

Lemma resolveFusion_ok host : memo_fun host resolveFusion (ref_fusion host).
Proof.
  intros sc Hsc. unfold resolveFusion, ref_fusion.
  destruct (effectiveView_ok host sc Hsc) as [Hv Hsc']. destruct (effectiveView sc) as [v sc']. simpl in *. subst v.
  rewrite (sok_host _ _ Hsc'). destruct saasEffectiveView as [v|] eqn:Ev.
  - destruct (cat_LookupHostAdmin host) as [[name pat]|]; [done|].
    destruct (viewLookup_ok host sc' Hsc') as [Hl Hsc'']. destruct (viewLookup sc') as [l sc'']. simpl in *. subst l.
    unfold ref_view_lookup. rewrite Ev, (sok_host _ _ Hsc''). destruct (view_LookupHost v host); [done|].
    by apply fusion_community_ok.
  - destruct (cat_LookupHost host) as [[name pat]|]; [done|]. by apply fusion_community_ok.
Qed.

Lemma fusion_ok host : memo_fun host fusion (ref_fusion host).
Proof.
  intros sc Hsc. unfold fusion. destruct (sc_fusion sc) as [r|] eqn:E.
  - split; [by apply (sok_fusion _ _ Hsc)|done].
  - destruct (resolveFusion_ok host sc Hsc) as [Hr Hsc']. destruct (resolveFusion sc) as [r sc']. simpl in *. subst r.
    split; [done|]. constructor; simpl; try apply Hsc'. by intros r [= <-].
Qed.

Lemma matchesCategory_ok host cat : memo_fun host (λ sc, matchesCategory sc cat) (ref_category cat host).
Proof.
  intros sc Hsc. unfold matchesCategory, ref_category.
  destruct (effectiveView_ok host sc Hsc) as [Hv Hsc']. destruct (effectiveView sc) as [v sc']. simpl in *. subst v.
  rewrite (sok_host _ _ Hsc').
  destruct (match saasEffectiveView with Some _ => _ | None => _ end); [done|]. simpl.
  destruct communityDB as [db|] eqn:Ed; [|unfold ref_community; by rewrite Ed].
  destruct (communityLookup_ok host sc' Hsc') as [Hr Hsc'']. destruct (communityLookup sc') as [r sc'']. simpl in *.
  subst r. by destruct (ref_community host).
Qed.

Lemma group_ok host rule : memo_fun host (categoryGroupMatchesHostScratch rule) (ref_group rule host).
Proof.
  intros sc Hsc. unfold categoryGroupMatchesHostScratch, ref_group.
  destruct (fusion_ok host sc Hsc) as [Hr Hsc']. destruct (fusion sc) as [[[c t] b] sc']. simpl in *. rewrite <- Hr. simpl.
  split; [|done]. by destruct (DestCategoryGroupID rule =? "")%string; [|destruct (group_MatchesCategoryByID _ _)].
Qed.

(** *** Schedules and destinations *)

Lemma matchScheduleAt_ok s now p :
  locs_ok p → ∃ p', matchScheduleAt s now p = (ref_schedule s now, p') ∧ locs_ok p' ∧
    clock_reads p' = clock_reads p.
Proof.
  intros Hp. unfold matchScheduleAt, ref_schedule.
  assert (∀ l : Location,
    (if negb (scheduleDayMatch (Days s) (local_sec l now)) then false
     else if (TimeStart s =? "")%string || (TimeEnd s =? "")%string then true
     else scheduleTimeMatch (TimeStart s) (TimeEnd s) (local_sec l now)) =
    scheduleDayMatch (Days s) (local_sec l now) &&
    ((TimeStart s =? "")%string || (TimeEnd s =? "")%string ||
     scheduleTimeMatch (TimeStart s) (TimeEnd s) (local_sec l now))) as Hb.
  { intros l. destruct (scheduleDayMatch _ _), (_ || (TimeEnd s =? "")%string); done. }
  destruct (Timezone s =? "")%string.
  - exists p. unfold mbind, proc_bind, mret, proc_ret. by rewrite Hb.
  - unfold scheduleLocation, scheduleLocationResolved, mbind, proc_bind, mret, proc_ret.
    destruct (scheduleLocCache p !! Timezone s) as [[l ok]|] eqn:E.
    + apply Hp in E as Hl. rewrite <- Hl. simpl. rewrite Hb. eauto.
    + unfold ref_location. fold (ref_location (Timezone s)).
      assert (∀ l ok, ref_location (Timezone s) = (l, ok) →
        locs_ok (p <| scheduleLocCache := <[Timezone s := (l, ok)]> (scheduleLocCache p) |>)) as Hins.
      { intros l ok Hl name e. simpl. rewrite lookup_insert. case_decide; [by intros [= <-]; subst|apply Hp]. }
      unfold ref_location in *. destruct (LoadLocation (Timezone s)) as [l|]; simpl; rewrite Hb; eauto.
Qed.

Lemma dest_fqdn_ok rule host :
  precompute_ok rule →
  (if negb (normFQDN rule =? "")%string then MatchFQDNNorm (normFQDN rule) (NormalizeHost host)
   else MatchFQDN (DestFQDN rule) host) = MatchFQDN (DestFQDN rule) host.
Proof.
  intros Hpre. destruct (String.eqb_spec (normFQDN rule) "") as [|Hne]; [done|]. simpl.
  destruct (pre_fqdn _ Hpre) as [|Hn]; [done|]. by rewrite Hn.
Qed.

Lemma matchDestNorm_ok rule host sc p :
  precompute_ok rule → scratch_ok host sc →
  ∃ sc', matchDestNorm rule host (NormalizeHost host) sc p =
      ((ref_dest rule host, sc'), dest_effect rule host p) ∧ scratch_ok host sc'.
Proof.
  intros Hpre Hsc. unfold matchDestNorm, ref_dest, dest_effect, ref_dest_host. rewrite dest_fqdn_ok by done.
  unfold mbind, proc_bind, mret, proc_ret.
  set (fs := (DestFQDN rule =? "")%string). set (fm := MatchFQDN (DestFQDN rule) host).
  assert (negb fs && negb fm = negb (fs || fm)) as -> by by destruct fs, fm.
  destruct (fs || fm); cbn [negb andb]; [|by exists sc].
  set (cs := (DestCategory rule =? "")%string). set (ca := (DestCategory rule =? CategoryAny)%string).
  assert (∃ sc1, (if negb cs && negb ca then matchesCategory sc (DestCategory rule) else (true, sc)) =
      (cs || ca || ref_category (DestCategory rule) host, sc1) ∧ scratch_ok host sc1) as (sc1&->&Hsc1).
  { destruct (matchesCategory_ok host (DestCategory rule) sc Hsc) as [Hr Hs1].
    destruct cs, ca; simpl; eauto. destruct (matchesCategory sc _); simpl in *; subst; eauto. }
  destruct (cs || ca || ref_category (DestCategory rule) host); cbn [negb andb]; [|by exists sc1].
  set (gs := (DestCategoryGroup rule =? "")%string).
  assert (∃ sc2, (if negb gs then categoryGroupMatchesHostScratch rule sc1 else (true, sc1)) =
      (gs || ref_group rule host, sc2) ∧ scratch_ok host sc2) as (sc2&->&Hsc2).
  { destruct (group_ok host rule sc1 Hsc1) as [Hr Hs2].
    destruct gs; simpl; eauto. destruct (categoryGroupMatchesHostScratch rule sc1); simpl in *; subst; eauto. }
  destruct (gs || ref_group rule host); cbn [negb andb]; [|by exists sc2].
  destruct (bool_decide (DestCountry rule = [])); cbn [negb orb andb]; [by exists sc2|].
  destruct (geo_LookupCached host); [by exists sc2|]. rewrite bool_decide_true by done. by exists sc2.
Qed.

Lemma dest_effect_frame rule host p :
  scheduleLocCache (dest_effect rule host p) = scheduleLocCache p ∧
  clock_reads (dest_effect rule host p) = clock_reads p.
Proof. unfold dest_effect. by case_if. Qed.

(** *** The scan *)

(** The loop state at a point where [c0] clock readings had been made before the scan. *)
Record scan_ok (inp : accessEvalInput) (c0 : nat) (st : ScanState) (p : Proc) : Prop := {
  scan_src_ok : source_ok (in_clientIP inp) (scan_src st);
  scan_cat_ok : scratch_ok (in_host inp) (scan_cat st);
  scan_locs : locs_ok p;
  scan_clock : scan_now st = None ∧ clock_reads p = c0 ∨ scan_now st = Some (clock c0) ∧ clock_reads p = S c0;
}.

Lemma eval_rule_ok rule inp c0 st p :
  precompute_ok rule → in_normHost inp = NormalizeHost (in_host inp) → scan_ok inp c0 st p →
  ∃ st' p', eval_rule rule inp time_Now st p = ((access_verdict rule inp (clock c0), st'), p') ∧
    scan_ok inp c0 st' p' ∧ (Schedule rule = None → clock_reads p' = clock_reads p).
Proof.
  intros Hpre Hnorm Hok. unfold eval_rule, access_verdict.
  destruct (ruleIsEnabled rule); cbn [negb]; [|by exists st, p].
  destruct (ruleTypeOf rule =? ruleTypeAccess)%string; cbn [negb]; [|by exists st, p].
  destruct (matchSourceAddr_ok rule (in_clientIP inp) (scan_src st) (in_identity inp) (in_authSource inp)
    (in_groups inp) Hpre (scan_src_ok _ _ _ _ Hok)) as [Hs Hsrc].
  destruct (matchSourceAddr _ _ _ _ _) as [srcOK src]. simpl in Hs, Hsrc. subst srcOK.
  destruct (ref_source _ _ _ _ _); cbn [negb].
  2: { eexists _, p. split; [done|]. split; [|done]. constructor; simpl; [done|apply Hok..]. }
  assert (∃ sn p1, eval_schedule rule time_Now (scan_now st) p =
      (match Schedule rule with Some s => ref_schedule s (clock c0) | None => true end, sn, p1) ∧
      scan_ok inp c0 (mkScan src (scan_cat st) sn) p1 ∧ (Schedule rule = None → clock_reads p1 = clock_reads p))
    as (sn&p1&E&Hok1&Hcl).
  { unfold eval_schedule, mbind, proc_bind, mret, proc_ret. destruct (Schedule rule) as [s|].
    - destruct (scan_clock _ _ _ _ Hok) as [[-> Hc]|[-> Hc]].
      + unfold time_Now. rewrite Hc.
        destruct (matchScheduleAt_ok s (clock c0) (p <| clock_reads := S c0 |>)) as (p1&->&Hl&Hc1);
          [apply (scan_locs _ _ _ _ Hok)|]. eexists _, p1. split; [done|]. split; [|done].
        constructor; simpl; [done|apply Hok|done|by right].
      + destruct (matchScheduleAt_ok s (clock c0) p) as (p1&->&Hl&Hc1); [apply (scan_locs _ _ _ _ Hok)|].
        eexists _, p1. split; [done|]. split; [|done]. constructor; simpl; [done|apply Hok|done|right; by rewrite Hc1].
    - exists (scan_now st), p. split; [done|]. split; [|done]. constructor; simpl; [done|apply Hok..]. }
  unfold mbind, proc_bind, mret, proc_ret. rewrite E. destruct (match Schedule rule with Some s => ref_schedule s (clock c0) | None => true end); cbn [negb].
  2: { by eexists _, p1. }
  rewrite Hnorm.
  destruct (matchDestNorm_ok rule (in_host inp) (scan_cat st) p1) as (sc'&->&Hsc');
    [done|apply (scan_cat_ok _ _ _ _ Hok)|].
  destruct (dest_effect_frame rule (in_host inp) p1) as [Hl' Hc'].
  assert (locs_ok (dest_effect rule (in_host inp) p1)) as Hlocs.
  { unfold locs_ok. rewrite Hl'. apply (scan_locs _ _ _ _ Hok1). }
  eexists _, _. split; [by destruct (ref_dest rule (in_host inp))|]. split.
  - constructor; simpl; [done|done|done|]. rewrite Hc'. apply (scan_clock _ _ _ _ Hok1).
  - intros Hn. rewrite Hc'. by apply Hcl.
Qed.

Lemma eval_loop_ok rules inp c0 st p :
  Forall precompute_ok rules → in_normHost inp = NormalizeHost (in_host inp) → scan_ok inp c0 st p →
  ∃ p', eval_loop rules inp time_Now st p =
      ((find (rule_applies inp (clock c0)) rules, verdict_trace rules inp (clock c0)), p') ∧
    locs_ok p' ∧ (c0 ≤ clock_reads p' ≤ S c0)%nat ∧
    (Forall (λ r, Schedule r = None) rules → clock_reads p' = clock_reads p).
Proof.
  intros Hpre Hnorm. revert st p. induction Hpre as [|rule rules Hr Hpre IH]; intros st p Hok.
  { exists p. split; [done|]. split; [apply Hok|]. split; [|done].
    destruct (scan_clock _ _ _ _ Hok) as [[_ ->]|[_ ->]]; lia. }
  cbn [eval_loop find verdict_trace].
  destruct (eval_rule_ok rule inp c0 st p Hr Hnorm Hok) as (st'&p'&E&Hok'&Hcl).
  unfold mbind, proc_bind, mret, proc_ret. rewrite E. unfold rule_applies at 1 3.
  destruct (String.eqb_spec (access_verdict rule inp (clock c0)) "") as [Hv|Hv].
  - exists p'. rewrite Hv. split; [done|]. split; [apply Hok'|]. split.
    + destruct (scan_clock _ _ _ _ Hok') as [[_ ->]|[_ ->]]; lia.
    + intros [Hn _]%Forall_cons. by apply Hcl.
  - destruct (IH st' p' Hok') as (p''&->&Hl&Hc&Hcl'). exists p''. split; [done|]. split; [done|]. split; [done|].
    intros [Hn Hns]%Forall_cons. rewrite Hcl' by done. by apply Hcl.
Qed.

Lemma scan_start inp p :
  locs_ok p → scan_ok inp (clock_reads p) (mkScan (newClientSource (in_clientIP inp)) (newHostCatScratch (in_host inp)) None) p.
Proof. intros Hlocs. constructor; simpl; [by split| |done|by left]. by constructor. Qed.

(** C1: first match wins, and the optimisations are invisible: on rules whose
    precomputed forms are coherent or absent, the Stage-2 scan returns the first rule
    (in order) whose every configured condition holds under the reference semantics,
    reports for every rule before it the reason it was skipped, evaluates all schedules at
    one instant, and reads the clock at most once (not at all without schedules). *)
Theorem evalAccessRules_correct (rules : list PolicyRule) (inp : accessEvalInput) (p : Proc)
    (Hpre : Forall precompute_ok rules) (Hnorm : in_normHost inp = NormalizeHost (in_host inp))
    (Hlocs : locs_ok p) :
  let now := clock (clock_reads p) in
  ∃ p', evalAccessRules rules inp time_Now p =
      ((find (rule_applies inp now) rules, verdict_trace rules inp now), p') ∧
    locs_ok p' ∧ (clock_reads p ≤ clock_reads p' ≤ S (clock_reads p))%nat ∧
    (Forall (λ r, Schedule r = None) rules → clock_reads p' = clock_reads p).
Proof.
  intros now. apply eval_loop_ok; [done|done|by apply scan_start].
Qed.
End transparency.

(** ** File profiles *)

Section fileprofile_facts.
Context `{Unicode, PolicyEnv, Clock}.

(** A rule bound to a file profile by identifier enforces that profile and no other:
    the cached name plays no part, so a rename or a same-named profile cannot retarget it;
    and if the identifier no longer resolves, exactly the paths some profile could block
    are blocked, each such block being counted. *)
Theorem file_profile_fail_closed (r : PolicyRule) (path : string) (p : Proc)
    (Hf : FileFiltering r = true) (Hname : FileProfile r ≠ "") (Hid : FileProfileID r ≠ "") :
  let '(b, p') := FileProfileBlocked r path p in
  (∀ exts, profile_GetByID (FileProfileID r) = Some exts → b = matchFileExt path exts ∧ p' = p) ∧
  (profile_GetByID (FileProfileID r) = None →
     (b = true ↔ ∃ exts, matchFileExt path exts = true) ∧
     statFileProfileUnresolvedBlocked p' = statFileProfileUnresolvedBlocked p + Z.b2z b) ∧
  (∀ name, name ≠ "" → FileProfileBlocked (r <| FileProfile := name |>) path p = (b, p')).
Proof.
  assert (∀ r', FileFiltering r' = true → FileProfile r' ≠ "" → FileProfileID r' = FileProfileID r →
    FileProfileBlocked r' path p = fileProfileBlockedByID r path p) as Heq.
  { intros r' Hf' Hn' Hid'. unfold FileProfileBlocked, FileProfileNone. rewrite Hf', Hid'.
    rewrite (proj2 (String.eqb_neq _ _) Hn'), (proj2 (String.eqb_neq _ _) Hid). simpl.
    unfold fileProfileBlockedByID. by rewrite Hid'. }
  rewrite (Heq r Hf Hname eq_refl).
  assert (∀ name, name ≠ "" → FileProfileBlocked (r <| FileProfile := name |>) path p =
    fileProfileBlockedByID r path p) as Hre by (intros; by apply Heq).
  clear Heq. destruct (fileProfileBlockedByID r path p) as [b p'] eqn:E. split_and!; [| |exact Hre].
  - intros exts He. unfold fileProfileBlockedByID in E. rewrite He in E. by injection E as <- <-.
  - intros He. unfold fileProfileBlockedByID in E. rewrite He in E.
    destruct (String.eqb_spec (pathFileExt path) "") as [Hx|Hx].
    + injection E as <- <-. split; [|simpl; lia]. split; [done|]. intros [exts Hm].
      unfold matchFileExt in Hm. by rewrite Hx in Hm.
    + unfold mbind, proc_bind, mret, proc_ret, noteFileProfileUnresolvedBlock, time_Now in E. simpl in E.
      injection E as <- <-. split.
      * split; [|done]. intros _. exists [pathFileExt path]. unfold matchFileExt.
        apply String.eqb_neq in Hx as ->. simpl. by rewrite String.eqb_refl.
      * by destruct (300 <=? _).
Qed.
End fileprofile_facts.

(** ** Concrete runs *)

Definition test_idna : Idna := λ s, Some s.
Definition test_time : TimeData := {|
  LoadLocation name := if (name =? "Asia/Tokyo")%string then Some (λ _, 32400) else None;
  ParseRFC3339 s := if (s =? "2030-01-01T00:00:00Z")%string then Some (1893456000 * Second) else None;
  FormatRFC3339 u := "2024-01-03T00:30:00Z";
|}.
(** Category "Social" holds one host, the community feed another; profile "fp1" blocks [.exe]. *)
Definition test_env : PolicyEnv := {|
  cat_MatchesHost cat host := (cat =? "Social")%string && (host =? "social.example")%string;
  cat_MatchesHostAdmin _ _ := false;
  cat_LookupHost host := if (host =? "social.example")%string then Some ("Social", "social.example") else None;
  cat_LookupHostAdmin _ := None;
  saasEffectiveView := None;
  communityDB := Some (λ host, if (host =? "bad.example")%string then Some "Malicious" else None);
  group_MatchesCategoryByID _ _ := None;
  group_MatchesCategory g c := (g =? "Risky")%string && (c =? "Malicious")%string;
  geo_LookupCached _ := None;
  profile_GetByName _ := None;
  profile_GetByID id := if (id =? "fp1")%string then Some [".exe"] else None;
|}.
Definition test_proc : Proc := mkProc 0 ∅ 0 0 0 0.
(** Wednesday 2024-01-03, 00:30 UTC: 09:30 in Tokyo. *)
Definition test_clock : Clock := λ _, 1704241800 * Second.

Definition test_rules : list PolicyRule :=
  let P := @precompute_rule ascii_unicode test_idna in
  [ P (empty_rule <| Name := "night" |> <| Enabled := Some false |>);
    P (empty_rule <| Name := "lan" |> <| SourceIP := "10.0.0.0/8" |>
        <| Schedule := Some (mkSchedule ["wed"] "09:00" "17:00" "Asia/Tokyo") |>
        <| DestCategoryGroup := "Risky" |> <| Action := ActionDrop |>);
    P (empty_rule <| Name := "web" |> <| DestFQDN := "*.Example" |> <| Action := ActionAllow |>) ].

Lemma evalAccessRules_correct_witness :
  let U := ascii_unicode in let I := test_idna in let E := test_env in let T := test_time in let C := test_clock in
  let inp := mkInput "::ffff:10.1.2.3" "" "unauth" "bad.example" "bad.example" [] in
  Forall precompute_ok test_rules ∧
  map snd (verdict_trace test_rules inp (clock 0)) = [accessSkipDisabled; ""] ∧
  ∃ p', evalAccessRules test_rules inp time_Now test_proc =
    ((find (rule_applies inp (clock 0)) test_rules, verdict_trace test_rules inp (clock 0)), p').
Proof.
  intros U I E T C inp.
  assert (Forall precompute_ok test_rules) as Hpre.
  { repeat (apply Forall_cons; split; [apply precompute_rule_ok|]). by apply Forall_nil. }
  split; [exact Hpre|]. split; [vm_compute; reflexivity|].
  destruct (@evalAccessRules_correct U I E T C test_rules inp test_proc Hpre) as (p'&Hp'&_).
  - vm_compute. reflexivity.
  - intros name e Hn. discriminate (eq_trans (eq_sym (lookup_empty (M := gmap string) name)) Hn).
  - exists p'. exact Hp'.
Defined.

Lemma file_profile_fail_closed_witness :
  let U := ascii_unicode in let E := test_env in let C := test_clock in
  let r := empty_rule <| FileFiltering := true |> <| FileProfile := "Documents" |> <| FileProfileID := "gone" |> in
  (FileProfileBlocked r "/dl/setup.EXE" test_proc).1 = true ∧
  (FileProfileBlocked r "/dl/readme" test_proc).1 = false ∧
  FileProfileBlocked (r <| FileProfile := "Media" |>) "/dl/setup.EXE" test_proc = FileProfileBlocked r "/dl/setup.EXE" test_proc.
Proof.
  intros U E C r. split; [vm_compute; reflexivity|]. split; [vm_compute; reflexivity|].
  pose proof (@file_profile_fail_closed U E C r "/dl/setup.EXE" test_proc) as Hm.
  destruct (FileProfileBlocked r "/dl/setup.EXE" test_proc) as [b p'].
  destruct Hm as (_&_&Hre); [reflexivity|discriminate|discriminate|]. apply Hre. discriminate.
Defined.
