(* ===== verification/AuthPolicy.v ===== *)
(** * Stage-1 authentication policy ([authpolicy.go], the auth gate of [proxy.go])

    Validation of authentication rules, the persistence gate, the Stage-1 matcher in its
    two forms (the pure resolver over a copied and sorted rulebase, and the runtime resolver
    over the published snapshot with per-request memos), and the gate that dispatches on the
    outcome.  Errors and warnings are values of [AuthError] and [AuthWarning], one
    constructor per message of the source.

    - [persistable_auth_scoped]: what a rule kept by the bulk paths satisfies.
    - [resolve_snapshot_equivalent]: the runtime resolver decides as the pure one.
    - [exempt_scoped]: what a Stage-1 exemption implies.
    - [kill_switch_restrictive]: engaging the kill switch admits no additional request.
    - [gate_identity_proved]: an identity comes from a session or a validated credential. *)

From S2P Require Import Prelude GoStrings GoNet HostUtil IPPrefix PolicyRule PolicyMatch.

(** ** Reserved names and the kill switch *)

Definition authSourceExempt : string := "exempt".
Definition reservedAuthSourceNames : list string := [authSourceExempt; "unauth"; "local"; "system"].

Section names.
Context `{Unicode}.
Definition isReservedAuthSourceName (s : string) : bool :=
  bool_decide (ToLower (TrimSpace s) ∈ reservedAuthSourceNames).

Definition parseAuthBypassDisable (v : string) : bool :=
  bool_decide (ToLower (TrimSpace v) ∈ ["1"; "true"; "yes"; "on"]).

(** [authBypassDisableOnce]/[authBypassDisableVal] and [authExemptDisabledRuntime]. *)
Record KillSwitch := mkKill { bypassOnce : option bool; exemptDisabledRuntime : bool }.

(** [authBypassDisabled]: the environment is read on the first call only. *)
Definition authBypassDisabled (k : KillSwitch) (env : string) : bool * KillSwitch :=
  match bypassOnce k with
  | Some v => (v, k)
  | None => let v := parseAuthBypassDisable env in (v, mkKill (Some v) (exemptDisabledRuntime k))
  end.
Definition setAuthExemptDisabled (k : KillSwitch) (v : bool) : KillSwitch := mkKill (bypassOnce k) v.
Definition authExemptDisabledRuntimeState (k : KillSwitch) : bool := exemptDisabledRuntime k.
Definition authExemptKillSwitchEngaged (k : KillSwitch) (env : string) : bool * KillSwitch :=
  let '(v, k) := authBypassDisabled k env in (v || exemptDisabledRuntime k, k).
End names.

(** ** Validation *)

Inductive AuthError :=
  | ErrNoSpec | ErrOutcome | ErrTooManyRefs | ErrRefShape | ErrRefDuplicate | ErrRefsReserved | ErrRefsExempt
  | ErrOwner | ErrReason | ErrNoSubject | ErrIdentityPredicate | ErrSchemaVersion | ErrNoPredicate
  | ErrNoValue | ErrValue | ErrPredicateType | ErrSocks5 | ErrProtocol | ErrExpiresAt
  | ErrBroadNotExempt | ErrNoDestination | ErrNoDestinationNorBroad.

Inductive AuthWarning := WarnMethodIgnored | WarnExpired | WarnBroadExemption | WarnAnySource (v : string) | WarnWide (v : string).

Definition result (A : Type) : Type := AuthError + A.
#[global] Instance result_ret : MRet result := λ A a, inr a.
#[global] Instance result_bind : MBind result := λ A B f m, match m with inl e => inl e | inr a => f a end.
Definition check (b : bool) (e : AuthError) : result unit := if b then inr tt else inl e.

Definition validateCIDROrIP (s : string) : bool :=
  if ContainsByte s "/"%char then bool_decide (is_Some (ParseCIDR s)) else bool_decide (is_Some (ParseIP s)).

Definition validate_predicate (p : SubjectPredicate) : result unit :=
  if (Type_ p =? subjectPredicateCIDR)%string then
    _ ← check (negb (bool_decide (Values p = []))) ErrNoValue;
    check (forallb validateCIDROrIP (Values p)) ErrValue
  else inl ErrPredicateType.

Fixpoint validate_predicates (ps : list SubjectPredicate) : result unit :=
  match ps with [] => mret tt | p :: ps => _ ← validate_predicate p; validate_predicates ps end.

(** [validateSubjectMatch]; nil is valid. *)
Definition validateSubjectMatch (sm : option SubjectMatch) : result unit :=
  match sm with
  | None => mret tt
  | Some sm =>
      _ ← check (negb (SchemaVersion sm <? 1)) ErrSchemaVersion;
      _ ← check (negb (bool_decide (All sm = []))) ErrNoPredicate;
      validate_predicates (All sm)
  end.

Definition maxAuthProviderRefs : nat := 16.
Definition identityPredicateTypes : list string :=
  ["directory_group"; "directory_attr"; "identity"; "group"; "user"; "email"; "sub"].

(** [authRuleHasDestination]. *)
Definition authRuleHasDestination (rule : PolicyRule) : bool :=
  negb (DestFQDN rule =? "")%string ||
  (negb (DestCategory rule =? "")%string && negb (DestCategory rule =? CategoryAny)%string) ||
  negb (DestCategoryGroup rule =? "")%string.

Definition broadSubjectWarnings (sm : option SubjectMatch) : list AuthWarning :=
  match sm with
  | None => []
  | Some sm =>
      concat (map (λ p, if negb (Type_ p =? subjectPredicateCIDR)%string then [] else
        concat (map (λ v,
          if (v =? "0.0.0.0/0")%string || (v =? "::/0")%string then [WarnAnySource v] else
          match ParseCIDR v with
          | Some n => let '(ones, bits) := mask_Size (net_Mask n) in
                      if (bits =? 32) && (ones <? 24) then [WarnWide v] else []
          | None => []
          end) (Values p))) (All sm))
  end.

Definition any_source (v : string) : bool := (v =? "0.0.0.0/0")%string || (v =? "::/0")%string.

(** [subjectSourceBreadth]: (anySource, wide). *)
Definition subjectSourceBreadth (sm : option SubjectMatch) : bool * bool :=
  match sm with
  | None => (false, false)
  | Some sm =>
      fold_left (λ acc p,
        if negb (Type_ p =? subjectPredicateCIDR)%string then acc else
        fold_left (λ '(anySource, wide) v,
          if any_source v then (true, wide) else
          match ParseCIDR v with
          | Some n => let '(ones, bits) := mask_Size (net_Mask n) in
                      (anySource, if (bits =? 32) && (ones <? 24) then true else wide)
          | None => (anySource, wide)
          end) (Values p) acc) (All sm) (false, false)
  end.

Section validate.
Context `{Unicode, TimeData}.

Definition rejectIdentityPredicates (sm : option SubjectMatch) : result unit :=
  match sm with
  | None => mret tt
  | Some sm =>
      check (forallb (λ p, negb (bool_decide (ToLower (TrimSpace (Type_ p)) ∈ identityPredicateTypes))) (All sm))
        ErrIdentityPredicate
  end.

(** The loop of [validateSSOProviderRefsShape]. *)
Fixpoint provider_refs_loop (refs : list string) (seen : gset string) : result unit :=
  match refs with
  | [] => mret tt
  | ref :: refs =>
      _ ← check (negb ((ref =? "")%string || negb (TrimSpace ref =? ref)%string)) ErrRefShape;
      _ ← check (negb (bool_decide (ref ∈ seen))) ErrRefDuplicate;
      provider_refs_loop refs ({[ref]} ∪ seen)
  end.
Definition validateSSOProviderRefsShape (refs : list string) : result unit :=
  _ ← check (length refs <=? maxAuthProviderRefs)%nat ErrTooManyRefs;
  provider_refs_loop refs ∅.

Definition validateAuthOutcomeAndProviders (spec : AuthRuleSpec) : result unit :=
  _ ← check (bool_decide (Outcome spec ∈ [OutcomeExempt; OutcomeCredentialRequired; OutcomeSSORequired])) ErrOutcome;
  if (Outcome spec =? OutcomeSSORequired)%string then validateSSOProviderRefsShape (ProviderRefs spec)
  else if negb (bool_decide (ProviderRefs spec = [])) then
    if (Outcome spec =? OutcomeCredentialRequired)%string then inl ErrRefsReserved else inl ErrRefsExempt
  else mret tt.

Definition validateAuthOwnership (spec : AuthRuleSpec) : result unit :=
  _ ← check (negb (TrimSpace (Owner spec) =? "")%string) ErrOwner;
  check (negb (TrimSpace (Reason spec) =? "")%string) ErrReason.

Definition validateAuthSource (rule : PolicyRule) : result unit :=
  _ ← check (bool_decide (is_Some (RuleSubject rule))) ErrNoSubject;
  _ ← rejectIdentityPredicates (RuleSubject rule);
  validateSubjectMatch (RuleSubject rule).

Definition validateAuthProtocol (spec : AuthRuleSpec) : result (list AuthWarning) :=
  if (Protocol spec =? "socks5")%string then inl ErrSocks5 else
  _ ← check (bool_decide (Protocol spec ∈ [""; "http"; "connect"])) ErrProtocol;
  mret (if negb (Method spec =? "")%string && (Protocol spec =? "connect")%string then [WarnMethodIgnored] else []).

(** [validateAuthExpiry] at the instant [now] of its clock reading. *)
Definition validateAuthExpiry (now : Instant) (spec : AuthRuleSpec) : result (list AuthWarning) :=
  if (ExpiresAt spec =? "")%string then mret [] else
  match ParseRFC3339 (ExpiresAt spec) with
  | None => inl ErrExpiresAt
  | Some exp => mret (if exp <? now then [WarnExpired] else [])
  end.

Definition validateAuthDestination (rule : PolicyRule) (spec : AuthRuleSpec) : result (list AuthWarning) :=
  if (Outcome spec =? OutcomeCredentialRequired)%string || (Outcome spec =? OutcomeSSORequired)%string then
    _ ← check (negb (BroadExemption spec)) ErrBroadNotExempt;
    _ ← check (authRuleHasDestination rule) ErrNoDestination;
    mret []
  else
    _ ← check (authRuleHasDestination rule || BroadExemption spec) ErrNoDestinationNorBroad;
    mret (if BroadExemption spec then [WarnBroadExemption] else []).

(** [validateAuthRule]. *)
Definition validateAuthRule (now : Instant) (rule : PolicyRule) : result (list AuthWarning) :=
  match Auth rule with
  | None => inl ErrNoSpec
  | Some spec =>
      _ ← validateAuthOutcomeAndProviders spec;
      _ ← validateAuthOwnership spec;
      _ ← validateAuthSource rule;
      w1 ← validateAuthProtocol spec;
      w2 ← validateAuthExpiry now spec;
      w3 ← validateAuthDestination rule spec;
      mret (w1 ++ w2 ++ w3 ++ broadSubjectWarnings (RuleSubject rule))%list
  end.

Inductive DropReason := DropNil | DropInvalidAuth (e : AuthError) | DropSubjectOnAccess | DropAuthOnAccess.

(** [policyRulePersistable]: [None] keeps the rule. *)
Definition policyRulePersistable (now : Instant) (or : option PolicyRule) : option DropReason :=
  match or with
  | None => Some DropNil
  | Some r =>
      if (ruleTypeOf r =? ruleTypeAuth)%string then
        match validateAuthRule now r with inl e => Some (DropInvalidAuth e) | inr _ => None end
      else if bool_decide (is_Some (RuleSubject r)) then Some DropSubjectOnAccess
      else if bool_decide (is_Some (Auth r)) then Some DropAuthOnAccess
      else None
  end.
End validate.

(** ** The Stage-1 matcher *)

Record RequestContext := mkCtx {
  ctx_ClientIP : string; ctx_Host : string; ctx_Port : Z; ctx_Protocol : string; ctx_Method : string;
  ctx_Identity : string; ctx_AuthSource : string; ctx_Groups : list string;
}.

Record AuthDecision := mkDecision { d_Outcome : string; d_Rule : option PolicyRule }.

(** [cidrPredicateMatches]: a precomputed network where there is one, the per-value parse
    otherwise. *)
Fixpoint cidr_values_match (vs : list string) (ns : list (option IPNet)) (clientIP : string) (clientAddr : option IP) : bool :=
  match vs with
  | [] => false
  | v :: vs =>
      match head ns with
      | Some (Some n) =>
          match clientAddr with Some a => IPNet_Contains n a | None => false end ||
          cidr_values_match vs (tail ns) clientIP clientAddr
      | _ => matchIPOrCIDRAddr v clientIP clientAddr || cidr_values_match vs (tail ns) clientIP clientAddr
      end
  end.
Definition cidrPredicateMatches (p : SubjectPredicate) (clientIP : string) (clientAddr : option IP) : bool :=
  cidr_values_match (Values p) (nets p) clientIP clientAddr.

(** [matchSubjectAddr]. *)
Definition matchSubjectAddr (sm : option SubjectMatch) (clientIP : string) (clientAddr : option IP) : bool :=
  match sm with
  | None => false
  | Some sm =>
      if (SchemaVersion sm <? 1) || bool_decide (All sm = []) then false
      else if bool_decide (clientAddr = None) then false
      else forallb (λ p, (Type_ p =? subjectPredicateCIDR)%string && cidrPredicateMatches p clientIP clientAddr) (All sm)
  end.
Definition matchSubject (sm : option SubjectMatch) (clientIP : string) : bool :=
  matchSubjectAddr sm clientIP (ParseIP clientIP).

(** [authMatchScratch]: each memo and its flag are one option. *)
Record authMatchScratch := mkAuthScratch {
  as_ctx : RequestContext; as_norm : option string; as_addr : option (option IP); as_cat : option hostCatScratch;
}.
#[global] Instance authMatchScratch_eta : Eta authMatchScratch := λ r,
  mkAuthScratch (as_ctx r) (as_norm r) (as_addr r) (as_cat r).
Definition newAuthScratch (ctx : RequestContext) : authMatchScratch := mkAuthScratch ctx None None None.

Section matcher.
Context `{Unicode, Idna, PolicyEnv, TimeData, Clock}.

Definition normHost (s : authMatchScratch) : string * authMatchScratch :=
  match as_norm s with
  | Some n => (n, s)
  | None => let n := NormalizeHost (ctx_Host (as_ctx s)) in (n, s <| as_norm := Some n |>)
  end.
Definition hostCat (s : authMatchScratch) : hostCatScratch * authMatchScratch :=
  match as_cat s with
  | Some c => (c, s)
  | None => let c := newHostCatScratch (ctx_Host (as_ctx s)) in (c, s <| as_cat := Some c |>)
  end.
Definition clientAddr (s : authMatchScratch) : option IP * authMatchScratch :=
  match as_addr s with
  | Some a => (a, s)
  | None => let a := ParseIP (ctx_ClientIP (as_ctx s)) in (a, s <| as_addr := Some a |>)
  end.

Definition authScheduleParseable (s : option PolicySchedule) : proc bool :=
  match s with
  | None => mret true
  | Some s => if (Timezone s =? "")%string then mret true
              else '(_, ok) ← scheduleLocationResolved (Timezone s); mret ok
  end.

Definition authRuleNotExpired (spec : AuthRuleSpec) : proc bool :=
  if (ExpiresAt spec =? "")%string then mret true else
  match ParseRFC3339 (ExpiresAt spec) with
  | None => mret false
  | Some exp => now ← time_Now; mret (now <? exp)
  end.
Definition authExemptExpired (spec : option AuthRuleSpec) : proc bool :=
  match spec with
  | None => mret false
  | Some spec => if (ExpiresAt spec =? "")%string then mret false
                 else b ← authRuleNotExpired spec; mret (negb b)
  end.

Definition matchAuthProtocolMethod (spec : AuthRuleSpec) (ctx : RequestContext) : bool :=
  if negb (Protocol spec =? "")%string && negb (EqualFold (Protocol spec) (ctx_Protocol ctx)) then false
  else if negb (Method spec =? "")%string && negb (Protocol spec =? "connect")%string &&
          negb (EqualFold (Method spec) (ctx_Method ctx)) then false
  else true.

(** [authRuleMatchesScratch]; [None] is [("", false)]. *)
Definition authRuleMatchesScratch (rule : PolicyRule) (s : authMatchScratch) : proc (option string * authMatchScratch) :=
  if negb (ruleTypeOf rule =? ruleTypeAuth)%string then mret (None, s) else
  if negb (ruleIsEnabled rule) then mret (None, s) else
  match Auth rule with
  | None => mret (None, s)
  | Some spec =>
      if negb (bool_decide (Outcome spec ∈ [OutcomeExempt; OutcomeCredentialRequired; OutcomeSSORequired]))
      then mret (None, s) else
      let '(addr, s) := clientAddr s in
      if negb (matchSubjectAddr (RuleSubject rule) (ctx_ClientIP (as_ctx s)) addr) then mret (None, s) else
      if negb (authRuleHasDestination rule) && negb (BroadExemption spec) then mret (None, s) else
      let '(nh, s) := normHost s in
      let '(sc, s) := hostCat s in
      '(destOK, sc) ← matchDestNorm rule (ctx_Host (as_ctx s)) nh sc;
      let s := s <| as_cat := Some sc |> in
      if negb (destOK : bool) then mret (None, s) else
      parseable ← authScheduleParseable (Schedule rule);
      if negb (parseable : bool) then mret (None, s) else
      active ← matchSchedule (Schedule rule);
      if negb (active : bool) then mret (None, s) else
      live ← authRuleNotExpired spec;
      if negb (live : bool) then mret (None, s) else
      if negb (matchAuthProtocolMethod spec (as_ctx s)) then mret (None, s) else
      mret (Some (Outcome spec), s)
  end.

(** [authRuleMatches]. *)
Definition authRuleMatches (rule : PolicyRule) (ctx : RequestContext) : proc (option string) :=
  '(o, _) ← authRuleMatchesScratch rule (newAuthScratch ctx); mret o.
End matcher.

(** ** Resolvers *)

Definition by_priority (a b : PolicyRule) : bool := Priority a <? Priority b.

Section resolver.
Context `{Unicode, Idna, PolicyEnv, TimeData, Clock}.

(** The rule loop of [resolveAuthOutcomeFrom]; [killed] is [authExemptKillSwitchEngaged()]. *)
Fixpoint resolve_pure (killed : bool) (rules : list PolicyRule) (ctx : RequestContext) : proc AuthDecision :=
  match rules with
  | [] => mret (mkDecision OutcomeDefault None)
  | rule :: rules =>
      o ← authRuleMatches rule ctx;
      match o with
      | None => resolve_pure killed rules ctx
      | Some outcome =>
          if (outcome =? OutcomeExempt)%string && killed then resolve_pure killed rules ctx
          else mret (mkDecision outcome (Some rule))
      end
  end.
Definition resolveAuthOutcomeFrom (killed : bool) (rules : list PolicyRule) (ctx : RequestContext) : proc AuthDecision :=
  resolve_pure killed (sort_stable by_priority rules) ctx.

(** The rule loop of [resolveAuthOutcomeSnapshot], over published rules. *)
Fixpoint resolve_snapshot (killed : bool) (h : CounterHeap) (rules : list PolicyRule) (s : authMatchScratch)
    : proc AuthDecision :=
  match rules with
  | [] => mret (mkDecision OutcomeDefault None)
  | rule :: rules =>
      '(o, s) ← authRuleMatchesScratch rule s;
      match o : option string with
      | None => resolve_snapshot killed h rules s
      | Some outcome =>
          if (outcome =? OutcomeExempt)%string && killed then resolve_snapshot killed h rules s
          else mret (mkDecision outcome (Some (copyPolicyRuleForMatch h rule)))
      end
  end.
Definition resolveAuthOutcomeSnapshot (killed : bool) (h : CounterHeap) (rules : list PolicyRule) (ctx : RequestContext)
    : proc AuthDecision :=
  resolve_snapshot killed h rules (newAuthScratch ctx).

(** [authRequestContext]. *)
Definition authRequestContext (rHost rMethod clientIP : string) : RequestContext :=
  let host := default rHost (SplitHostPort_host rHost) in
  let proto := if (rMethod =? "CONNECT")%string then "connect" else "http" in
  mkCtx clientIP host 0 proto rMethod "" "" [].

(** [resolveNoCredAuthOutcome]: [hdr] is the Proxy-Authorization header. *)
Definition resolveNoCredAuthOutcome (killed : bool) (h : CounterHeap) (rules : list PolicyRule)
    (hdr rHost rMethod clientIP defaultOutcome : string) : proc AuthDecision :=
  if negb (hdr =? "")%string then mret (mkDecision OutcomeDefault None) else
  d ← resolveAuthOutcomeSnapshot killed h rules (authRequestContext rHost rMethod clientIP);
  mret (if (d_Outcome d =? OutcomeDefault)%string && bool_decide (d_Rule d = None)
        then mkDecision defaultOutcome None else d).
End resolver.

(** ** The authentication gate of [proxy.go] *)

Record Identity := mkIdentity { Sub : string; Email : string; Groups : list string; Provider : string }.

Definition identityAuthSource (id : Identity) (fallback : string) : string :=
  if (Provider id =? "")%string then fallback else Provider id.

(** What the gate reads from the rest of the system: the session cookie, the credential
    validators (IdP registry in order, then the legacy or local one), backend capability,
    the global default, client classification and the portal URLs (whether a safe one
    exists); and [base64.StdEncoding]. *)
Class AuthBackend := {
  credCapable : bool;
  ssoCapable : bool;
  default_outcome : string;
  credential_providers : list (string * (string → string → option Identity));
  legacy_resolve : string → string → option Identity;
  base64_decode : string → option string;
}.
Record GateRequest := mkGate {
  g_host : string; g_method : string; g_clientIP : string; g_proxyAuth : string;
  g_session : option Identity;
  g_browser : bool; g_legacyBrowser : bool;
  g_ssoPortal : list string → bool; g_captivePortal : bool;
}.

(** Terminal responses, or the authenticated request. *)
Inductive GateResult :=
  | Proceed (identity : string) (groups : list string) (source : string)
  | ProxyAuthRequired | RedirectSSO | RedirectPortal | Forbidden.

Definition maxUsernameLen : nat := 256.

Section gate.
Context `{Unicode, Idna, PolicyEnv, TimeData, Clock, AuthBackend}.

(** [parseProxyAuth]. *)
Definition parseProxyAuth (auth : string) : option (string * string) :=
  match CutPrefix auth "Basic " with
  | None => None
  | Some enc =>
      match base64_decode enc with
      | None => None
      | Some decoded =>
          match Cut decoded ":"%char with
          | None => None
          | Some (u, p) => if (maxUsernameLen <? String.length u)%nat then None else Some (u, p)
          end
      end
  end.

Definition subject_ok (oid : option Identity) : bool :=
  match oid with Some id => negb (TrimSpace (Sub id) =? "")%string | None => false end.

(** The provider loop of arm 2. *)
Fixpoint try_providers (ps : list (string * (string → string → option Identity))) (u p : string)
    : option (Identity * string) :=
  match ps with
  | [] => None
  | (name, f) :: ps =>
      match f u p with
      | Some id => if subject_ok (Some id) then Some (id, identityAuthSource id name) else try_providers ps u p
      | None => try_providers ps u p
      end
  end.

(** Arm 3: no usable credentials. *)
Definition gate_no_credentials (killed : bool) (h : CounterHeap) (rules : list PolicyRule) (r : GateRequest)
    (effectiveDefault : string) : proc GateResult :=
  d ← resolveNoCredAuthOutcome killed h rules (g_proxyAuth r) (g_host r) (g_method r) (g_clientIP r) effectiveDefault;
  mret (
    if (d_Outcome d =? OutcomeExempt)%string && bool_decide (is_Some (d_Rule d)) then Proceed "" [] authSourceExempt
    else if (d_Outcome d =? OutcomeExempt)%string then Proceed "" [] "unauth"
    else if (d_Outcome d =? OutcomeCredentialRequired)%string then ProxyAuthRequired
    else if (d_Outcome d =? OutcomeSSORequired)%string then
      let refs := match d_Rule d ≫= Auth with Some a => ProviderRefs a | None => [] end in
      if g_browser r && g_ssoPortal r refs then RedirectSSO else Forbidden
    else if negb credCapable && negb ssoCapable then Proceed "" [] "unauth"
    else if g_legacyBrowser r && g_captivePortal r then RedirectPortal
    else ProxyAuthRequired).

(** [resolveRequestAuth]. *)
Definition resolveRequestAuth (killed : bool) (h : CounterHeap) (rules : list PolicyRule) (r : GateRequest)
    : proc GateResult :=
  let originalEffective := default_outcome in
  let effectiveDefault := if killed then OutcomeDefault else originalEffective in
  let authRequired := credCapable || ssoCapable || (originalEffective =? OutcomeExempt)%string in
  if negb authRequired then mret (Proceed "" [] "unauth") else
  match g_session r with
  | Some id =>
      mret (Proceed (if (Sub id =? "")%string then Email id else Sub id) (Groups id) (identityAuthSource id "local"))
  | None =>
      match parseProxyAuth (g_proxyAuth r) with
      | Some (u, p) =>
          if credCapable then
            match try_providers credential_providers u p with
            | Some (id, src) => mret (Proceed (Sub id) (Groups id) src)
            | None =>
                let oid := legacy_resolve u p in
                match oid with
                | Some id => if subject_ok oid
                             then mret (Proceed (Sub id) (Groups id) (identityAuthSource id "local"))
                             else mret ProxyAuthRequired
                | None => mret ProxyAuthRequired
                end
            end
          else gate_no_credentials killed h rules r effectiveDefault
      | None => gate_no_credentials killed h rules r effectiveDefault
      end
  end.
End gate.

(** ** Validated rules are scoped *)

Lemma check_inr b e u : check b e = inr u → b = true.
Proof. unfold check. by destruct b. Qed.

Lemma bind_inr {A B} (m : result A) (f : A → result B) b :
  m ≫= f = inr b → ∃ a, m = inr a ∧ f a = inr b.
Proof. destruct m as [e|a]; [done|]. eauto. Qed.

(** Decompose a successful validation. *)
Ltac inv_result :=
  repeat match goal with
  | H : _ ≫= _ = inr _ |- _ => apply bind_inr in H as (?&?&H)
  | H : check _ _ = inr _ |- _ => apply check_inr in H
  end.

Definition predicate_ok (p : SubjectPredicate) : Prop :=
  Type_ p = subjectPredicateCIDR ∧ Values p ≠ [] ∧ Forall (λ v, validateCIDROrIP v = true) (Values p).

Lemma validate_predicates_ok ps u : validate_predicates ps = inr u → Forall predicate_ok ps.
Proof.
  induction ps as [|p ps IH]; simpl; intros E; [by constructor|]. inv_result. constructor; [|by apply IH].
  match goal with H : validate_predicate p = _ |- _ => unfold validate_predicate in H;
    destruct (String.eqb_spec (Type_ p) subjectPredicateCIDR); [|done] end.
  inv_result. split; [done|]. split; [|by apply forallb_spec].
  intros Hv. by rewrite bool_decide_true in *.
Qed.

Section persist.
Context `{Unicode, TimeData}.

(** What a kept authentication rule satisfies. *)
Record auth_scoped (r : PolicyRule) (spec : AuthRuleSpec) (sm : SubjectMatch) : Prop := {
  sc_spec : Auth r = Some spec;
  sc_subject : RuleSubject r = Some sm;
  sc_version : 1 ≤ SchemaVersion sm;
  sc_nonempty : All sm ≠ [];
  sc_predicates : Forall predicate_ok (All sm);
  sc_outcome : Outcome spec ∈ [OutcomeExempt; OutcomeCredentialRequired; OutcomeSSORequired];
  sc_dest : authRuleHasDestination r = true ∨ Outcome spec = OutcomeExempt ∧ BroadExemption spec = true;
  sc_owned : TrimSpace (Owner spec) ≠ "" ∧ TrimSpace (Reason spec) ≠ "";
  sc_protocol : Protocol spec ∈ [""; "http"; "connect"];
}.

Lemma validateAuthRule_scoped now r w :
  validateAuthRule now r = inr w → ∃ spec sm, auth_scoped r spec sm.
Proof.
  unfold validateAuthRule. destruct (Auth r) as [spec|] eqn:Ea; [|done]. intros E. inv_result.
  match goal with H : validateAuthSource r = _ |- _ => unfold validateAuthSource in H end. inv_result.
  destruct (RuleSubject r) as [sm|] eqn:Es; [|by rewrite bool_decide_false in * by (by intros [])].
  match goal with H : validateSubjectMatch _ = _ |- _ => simpl in H end. inv_result.
  match goal with H : validate_predicates _ = _ |- _ => apply validate_predicates_ok in H as Hp end.
  match goal with H : validateAuthOwnership _ = _ |- _ => unfold validateAuthOwnership in H end. inv_result.
  match goal with H : validateAuthOutcomeAndProviders _ = _ |- _ => unfold validateAuthOutcomeAndProviders in H end.
  inv_result. rewrite !bool_decide_eq_true in *.
  match goal with H : validateAuthProtocol _ = _ |- _ => unfold validateAuthProtocol in H end.
  destruct (Protocol spec =? "socks5")%string; [done|]. inv_result. rewrite !bool_decide_eq_true in *.
  assert (authRuleHasDestination r = true ∨ Outcome spec = OutcomeExempt ∧ BroadExemption spec = true).
  { match goal with H : validateAuthDestination _ _ = _ |- _ => unfold validateAuthDestination in H;
      destruct (_ || (Outcome spec =? OutcomeSSORequired)%string) eqn:Ho end; inv_result; [by left|].
    match goal with H : authRuleHasDestination r || _ = true |- _ => apply orb_true_iff in H as [H|H] end; [by left|].
    right. split; [|done]. apply orb_false_elim in Ho as [?%String.eqb_neq ?%String.eqb_neq].
    set_solver. }
  exists spec, sm. bprop.
  constructor; [done|done|lia| |done|done|done|by split|done].
  by eapply bool_decide_eq_false_1.
Qed.

(** The fail-closed gate of the bulk paths.  A rule that Load or ReplaceAll keeps is
    either an authentication rule scoped to parseable sources, with an owner, a reason, a
    supported outcome and a destination (or the explicit broad exemption, on Exempt only), or
    a rule of another type carrying neither a subject selector nor an authentication spec;
    and the verdict does not depend on when it is taken. *)
Theorem persistable_auth_scoped (now : Instant) (r : PolicyRule)
    (Hp : policyRulePersistable now (Some r) = None) :
  (ruleTypeOf r = ruleTypeAuth → ∃ spec sm, auth_scoped r spec sm) ∧
  (ruleTypeOf r ≠ ruleTypeAuth → RuleSubject r = None ∧ Auth r = None) ∧
  ∀ now', policyRulePersistable now' (Some r) = None.
Proof.
  unfold policyRulePersistable in *. destruct (String.eqb_spec (ruleTypeOf r) ruleTypeAuth) as [Ht|Ht].
  - destruct (validateAuthRule now r) as [|w] eqn:E; [done|]. split_and!; [|done|].
    + intros _. by eapply validateAuthRule_scoped.
    + intros now'. assert (∃ w', validateAuthRule now' r = inr w') as [w' ->]; [|done].
      unfold validateAuthRule in *. destruct (Auth r) as [spec|]; [|done]. inv_result.
      assert (∃ w2, validateAuthExpiry now' spec = inr w2) as [w2 Hw2].
      { unfold validateAuthExpiry in *. destruct (ExpiresAt spec =? "")%string; [by eexists|].
        destruct (ParseRFC3339 _); [by eexists|done]. }
      repeat match goal with H : _ = inr _ |- _ => rewrite H; cbn [mbind result_bind]; clear H end. by eexists.
  - destruct (RuleSubject r); [done|]. destruct (Auth r); [done|]. done.
Qed.
End persist.

(** ** The Stage-1 matcher without memos or precomputation *)

(** A predicate's networks are the parse of its values, or absent. *)
Definition nets_ok (p : SubjectPredicate) : Prop :=
  nets p = [] ∨ nets p = map (λ v, if ContainsByte v "/"%char then ParseCIDR v else None) (Values p).
Definition subject_nets_ok (r : PolicyRule) : Prop :=
  ∀ sm, RuleSubject r = Some sm → Forall nets_ok (All sm).

Definition ref_subject (sm : option SubjectMatch) (clientIP : string) : bool :=
  match sm with
  | None => false
  | Some sm =>
      (1 <=? SchemaVersion sm) && negb (bool_decide (All sm = [])) && bool_decide (is_Some (ParseIP clientIP)) &&
      forallb (λ p, (Type_ p =? subjectPredicateCIDR)%string &&
                    existsb (λ v, matchIPOrCIDR v clientIP) (Values p)) (All sm)
  end.

Lemma precompute_rule_nets `{Unicode, Idna} r : subject_nets_ok (precompute_rule r).
Proof.
  intros sm Hsm. cbn in Hsm. apply fmap_Some in Hsm as (sm'&_&->). cbn. apply Forall_map, Forall_true.
  intros pr. unfold compose, precompute_predicate, nets_ok. cbn.
  destruct (negb _ || _); [by left|]. destruct (existsb _ _); [by right|by left].
Qed.

Lemma matchIPOrCIDRAddr_ref v clientIP : matchIPOrCIDRAddr v clientIP (ParseIP clientIP) = matchIPOrCIDR v clientIP.
Proof. done. Qed.

Lemma cidr_values_ref vs ns clientIP :
  (ns = [] ∨ ns = map (λ v, if ContainsByte v "/"%char then ParseCIDR v else None) vs) →
  cidr_values_match vs ns clientIP (ParseIP clientIP) = existsb (λ v, matchIPOrCIDR v clientIP) vs.
Proof.
  revert ns. induction vs as [|v vs IH]; intros ns Hns; [done|]. cbn [cidr_values_match existsb].
  rewrite (IH (tail ns)) by (destruct Hns as [->| ->]; [by left|by right]).
  assert (∀ n, head ns = Some (Some n) → matchIPOrCIDR v clientIP =
    match ParseIP clientIP with Some a => IPNet_Contains n a | None => false end) as Hn.
  { intros n. destruct Hns as [->| ->]; [done|]. simpl. unfold matchIPOrCIDR.
    destruct (ContainsByte v "/"%char); [|done]. by intros [= ->]. }
  destruct (head ns) as [[n|]|]; [by rewrite (Hn n eq_refl)|done..].
Qed.

Lemma matchSubjectAddr_ref sm clientIP :
  (∀ m, sm = Some m → Forall nets_ok (All m)) →
  matchSubjectAddr sm clientIP (ParseIP clientIP) = ref_subject sm clientIP.
Proof.
  intros Hok. unfold matchSubjectAddr, ref_subject. destruct sm as [sm|]; [|done]. specialize (Hok sm eq_refl).
  destruct (Z.ltb_spec (SchemaVersion sm) 1), (Z.leb_spec 1 (SchemaVersion sm)); try lia; simpl; [done|].
  destruct (bool_decide (All sm = [])); simpl; [done|].
  destruct (ParseIP clientIP) as [ip|] eqn:Ei; [|done]. rewrite bool_decide_false by done.
  rewrite (bool_decide_true (is_Some (Some ip))) by eauto. simpl. rewrite <- Ei.
  induction Hok as [|p ps Hp Hps IH]; [done|]. simpl. rewrite IH. f_equal. f_equal. by apply cidr_values_ref.
Qed.

Section reference.
Context `{Unicode, Idna, PolicyEnv, TimeData, Clock}.

(** The checks after the destination: schedule, expiry, protocol. *)
Definition auth_tail (rule : PolicyRule) (spec : AuthRuleSpec) (ctx : RequestContext) : proc (option string) :=
  parseable ← authScheduleParseable (Schedule rule);
  if negb (parseable : bool) then mret None else
  active ← matchSchedule (Schedule rule);
  if negb (active : bool) then mret None else
  live ← authRuleNotExpired spec;
  if negb (live : bool) then mret None else
  mret (if matchAuthProtocolMethod spec ctx then Some (Outcome spec) else None).

Definition auth_ref (rule : PolicyRule) (ctx : RequestContext) : proc (option string) := λ p,
  match Auth rule with
  | Some spec =>
      if (ruleTypeOf rule =? ruleTypeAuth)%string && ruleIsEnabled rule &&
         bool_decide (Outcome spec ∈ [OutcomeExempt; OutcomeCredentialRequired; OutcomeSSORequired]) &&
         ref_subject (RuleSubject rule) (ctx_ClientIP ctx) &&
         (authRuleHasDestination rule || BroadExemption spec)
      then if ref_dest rule (ctx_Host ctx)
           then auth_tail rule spec ctx (dest_effect rule (ctx_Host ctx) p)
           else (None, dest_effect rule (ctx_Host ctx) p)
      else (None, p)
  | None => (None, p)
  end.

Record auth_scratch_ok (ctx : RequestContext) (s : authMatchScratch) : Prop := {
  aok_ctx : as_ctx s = ctx;
  aok_norm n : as_norm s = Some n → n = NormalizeHost (ctx_Host ctx);
  aok_addr a : as_addr s = Some a → a = ParseIP (ctx_ClientIP ctx);
  aok_cat c : as_cat s = Some c → scratch_ok (ctx_Host ctx) c;
}.

Lemma clientAddr_ok ctx s :
  auth_scratch_ok ctx s → (clientAddr s).1 = ParseIP (ctx_ClientIP ctx) ∧ auth_scratch_ok ctx (clientAddr s).2.
Proof.
  intros Hs. unfold clientAddr. destruct (as_addr s) as [a|] eqn:E; [by split; [apply (aok_addr _ _ Hs)|]|].
  rewrite (aok_ctx _ _ Hs). split; [done|]. constructor; simpl; try apply Hs. by intros a [= <-].
Qed.
Lemma normHost_ok ctx s :
  auth_scratch_ok ctx s → (normHost s).1 = NormalizeHost (ctx_Host ctx) ∧ auth_scratch_ok ctx (normHost s).2.
Proof.
  intros Hs. unfold normHost. destruct (as_norm s) as [a|] eqn:E; [by split; [apply (aok_norm _ _ Hs)|]|].
  rewrite (aok_ctx _ _ Hs). split; [done|]. constructor; simpl; try apply Hs. by intros a [= <-].
Qed.
Lemma hostCat_ok ctx s :
  auth_scratch_ok ctx s → scratch_ok (ctx_Host ctx) (hostCat s).1 ∧ auth_scratch_ok ctx (hostCat s).2.
Proof.
  intros Hs. unfold hostCat. destruct (as_cat s) as [a|] eqn:E; [by split; [apply (aok_cat _ _ Hs)|]|].
  rewrite (aok_ctx _ _ Hs). assert (scratch_ok (ctx_Host ctx) (newHostCatScratch (ctx_Host ctx))) by by constructor.
  split; [done|]. constructor; simpl; try apply Hs. by intros a [= <-].
Qed.

Lemma authRuleMatchesScratch_ref rule ctx s p :
  precompute_ok rule → subject_nets_ok rule → auth_scratch_ok ctx s →
  ∃ s', authRuleMatchesScratch rule s p = (((auth_ref rule ctx p).1, s'), (auth_ref rule ctx p).2) ∧
    auth_scratch_ok ctx s'.
Proof.
  intros Hpre Hnets Hs. unfold authRuleMatchesScratch, auth_ref. unfold mret, proc_ret.
  destruct (ruleTypeOf rule =? ruleTypeAuth)%string; cbn [negb andb]; [|destruct (Auth rule); by exists s].
  destruct (ruleIsEnabled rule); cbn [negb andb]; [|destruct (Auth rule); by exists s].
  destruct (Auth rule) as [spec|]; [|by exists s].
  destruct (bool_decide (Outcome spec ∈ _)); cbn [negb andb]; [|by exists s].
  destruct (clientAddr_ok ctx s Hs) as [Ha Hs1]. destruct (clientAddr s) as [a s1]. simpl in Ha, Hs1. subst a.
  rewrite (aok_ctx _ _ Hs1), matchSubjectAddr_ref by done.
  destruct (ref_subject _ _); cbn [negb andb]; [|by exists s1].
  destruct (authRuleHasDestination rule) eqn:Ehd, (BroadExemption spec) eqn:Ebr; cbn [negb andb orb]; [..|by exists s1].
  all: destruct (normHost_ok ctx s1 Hs1) as [Hn Hs2]; destruct (normHost s1) as [n s2]; simpl in Hn, Hs2; subst n.
  all: destruct (hostCat_ok ctx s2 Hs2) as [Hc Hs3]; destruct (hostCat s2) as [c s3]; simpl in Hc, Hs3.
  all: unfold mbind at 1, proc_bind at 1; rewrite (aok_ctx _ _ Hs3).
  all: destruct (matchDestNorm_ok rule (ctx_Host ctx) c p Hpre Hc) as (c'&->&Hc').
  all: assert (auth_scratch_ok ctx (s3 <| as_cat := Some c' |>)) as Hs4
    by (constructor; simpl; try apply Hs3; by intros ? [= <-]).
  all: destruct (ref_dest rule (ctx_Host ctx)); cbn [negb]; [|by eexists].
  all: generalize (dest_effect rule (ctx_Host ctx) p); intros p'.
  all: unfold auth_tail, mbind, proc_bind, mret, proc_ret; rewrite (aok_ctx _ _ Hs4).
  all: destruct (authScheduleParseable (Schedule rule) p') as [[] p1]; cbn [negb]; [|by eexists].
  all: destruct (matchSchedule (Schedule rule) p1) as [[] p2]; cbn [negb]; [|by eexists].
  all: destruct (authRuleNotExpired spec p2) as [[] p3]; cbn [negb]; [|by eexists].
  all: destruct (matchAuthProtocolMethod spec ctx); by eexists.
Qed.

Lemma authRuleMatches_ref rule ctx p :
  precompute_ok rule → subject_nets_ok rule → authRuleMatches rule ctx p = auth_ref rule ctx p.
Proof.
  intros Hpre Hnets. unfold authRuleMatches, mbind, proc_bind, mret, proc_ret.
  destruct (authRuleMatchesScratch_ref rule ctx (newAuthScratch ctx) p Hpre Hnets) as (s'&->&_); [by constructor|].
  by destruct (auth_ref rule ctx p).
Qed.

(** The Stage-1 reference loop: the matching rule with its outcome. *)
Fixpoint resolve_ref (killed : bool) (rules : list PolicyRule) (ctx : RequestContext) : proc (option (string * PolicyRule)) :=
  λ p, match rules with
  | [] => (None, p)
  | rule :: rules =>
      let '(o, p') := auth_ref rule ctx p in
      match o with
      | None => resolve_ref killed rules ctx p'
      | Some outcome =>
          if (outcome =? OutcomeExempt)%string && killed then resolve_ref killed rules ctx p'
          else (Some (outcome, rule), p')
      end
  end.

Definition decision (f : PolicyRule → PolicyRule) (x : option (string * PolicyRule)) : AuthDecision :=
  match x with Some (o, r) => mkDecision o (Some (f r)) | None => mkDecision OutcomeDefault None end.

Lemma resolve_snapshot_ref killed h rules ctx s p :
  Forall precompute_ok rules → Forall subject_nets_ok rules → auth_scratch_ok ctx s →
  resolve_snapshot killed h rules s p =
    (decision (copyPolicyRuleForMatch h) (resolve_ref killed rules ctx p).1, (resolve_ref killed rules ctx p).2).
Proof.
  intros Hpre Hnets. revert s p. induction rules as [|rule rules IH]; intros s p Hs; [done|].
  apply Forall_cons in Hpre as [Hr Hpre], Hnets as [Hn Hnets]. cbn [resolve_snapshot resolve_ref].
  unfold mbind, proc_bind, mret, proc_ret.
  destruct (authRuleMatchesScratch_ref rule ctx s p Hr Hn Hs) as (s'&->&Hs').
  destruct (auth_ref rule ctx p) as [[o|] p']; cbn [fst snd]; [|by apply IH].
  destruct (_ && killed); [by apply IH|done].
Qed.

Lemma resolve_pure_ref killed rules ctx p :
  Forall precompute_ok rules → Forall subject_nets_ok rules →
  resolve_pure killed rules ctx p =
    (decision id (resolve_ref killed rules ctx p).1, (resolve_ref killed rules ctx p).2).
Proof.
  intros Hpre Hnets. revert p. induction rules as [|rule rules IH]; intros p; [done|].
  apply Forall_cons in Hpre as [Hr Hpre], Hnets as [Hn Hnets]. cbn [resolve_pure resolve_ref].
  unfold mbind, proc_bind, mret, proc_ret. rewrite authRuleMatches_ref by done.
  destruct (auth_ref rule ctx p) as [[o|] p']; cbn [fst snd]; [|by apply IH].
  destruct (_ && killed); [by apply IH|done].
Qed.
End reference.

(** ** Decisions *)

Lemma forallb_map {A B} (f : A → B) p l : forallb p (map f l) = forallb (λ x, p (f x)) l.
Proof. induction l; simpl; congruence. Qed.

Section decisions.
Context `{Unicode, Idna, PolicyEnv, TimeData, Clock}.

Lemma clear_nets_subject sm clientIP : ref_subject (clear_nets <$> sm) clientIP = ref_subject sm clientIP.
Proof.
  destruct sm as [[v ps]|]; [|done]. unfold ref_subject, clear_nets. cbn [fmap option_fmap option_map SchemaVersion All].
  simpl. rewrite forallb_map. simpl. f_equal. f_equal. f_equal. f_equal. by destruct ps.
Qed.

(** A List copy matches as the published rule does. *)
Lemma list_copy_match h r ctx p : auth_ref (list_copy h r) ctx p = auth_ref r ctx p.
Proof.
  unfold list_copy, copyPolicyRuleForPublication.
  destruct (counters r) as [c|]; [|destruct (alloc_counters _ _)];
    unfold auth_ref; simpl; rewrite clear_nets_subject; done.
Qed.

Lemma list_copy_ok h r : precompute_ok (list_copy h r) ∧ subject_nets_ok (list_copy h r) ∧
  Priority (list_copy h r) = Priority r.
Proof.
  unfold list_copy, copyPolicyRuleForPublication.
  assert (∀ r' : PolicyRule, normFQDN r' = "" → srcIPNet r' = None → srcPrefix r' = None → precompute_ok r') as Hp.
  { intros r' Hn Hi Hx. constructor; [by left|by rewrite Hi|by rewrite Hx]. }
  destruct (counters r) as [c|]; [|destruct (alloc_counters _ _)]; (split; [by apply Hp|]); (split; [|done]);
    intros sm Hsm; simpl in Hsm; apply fmap_Some in Hsm as (sm'&_&->); simpl; apply Forall_map, Forall_true;
    intros x; by left.
Qed.

Lemma snapshot_copy h r : copyPolicyRuleForMatch h r = (list_copy h r) <| LastHit := "" |>.
Proof.
  unfold copyPolicyRuleForMatch, list_copy, copyPolicyRuleForPublication.
  destruct (counters r) as [c|]; [|destruct (alloc_counters _ _)]; done.
Qed.

Lemma resolve_ref_map killed f rules ctx p :
  (∀ r p, auth_ref (f r) ctx p = auth_ref r ctx p) →
  resolve_ref killed (map f rules) ctx p =
    (prod_map id f <$> (resolve_ref killed rules ctx p).1, (resolve_ref killed rules ctx p).2).
Proof.
  intros Hf. revert p. induction rules as [|r rules IH]; intros p; [done|]. cbn [resolve_ref map]. rewrite Hf.
  destruct (auth_ref r ctx p) as [[o|] p']; [|by rewrite IH]. destruct (_ && killed); [by rewrite IH|done].
Qed.

(** The runtime resolver is the pure resolver: on a published rulebase - sorted, with
    coherent precomputed forms - scanning the snapshot with shared memos yields the outcome,
    the rule, and the effects of copying the rulebase with List, sorting the copy and
    matching each rule from scratch; only the display field LastHit differs. *)
Theorem resolve_snapshot_equivalent (killed : bool) (h : CounterHeap) (rules : list PolicyRule)
    (ctx : RequestContext) (p : Proc)
    (Hsorted : StronglySorted (λ a b, Priority a ≤ Priority b) rules)
    (Hpre : Forall precompute_ok rules) (Hnets : Forall subject_nets_ok rules) :
  ∃ d d' p', resolveAuthOutcomeSnapshot killed h rules ctx p = (d, p') ∧
    resolveAuthOutcomeFrom killed (map (list_copy h) rules) ctx p = (d', p') ∧
    d_Outcome d = d_Outcome d' ∧ d_Rule d = (λ r, r <| LastHit := "" |>) <$> d_Rule d'.
Proof.
  unfold resolveAuthOutcomeSnapshot, resolveAuthOutcomeFrom.
  rewrite (resolve_snapshot_ref killed h rules ctx) by (done || by constructor).
  rewrite sort_stable_sorted.
  2: { induction Hsorted as [|r rules Hr IH Hall]; simpl; constructor.
       - apply Forall_cons in Hpre as [_ ?], Hnets as [_ ?]. by apply IH.
       - apply Forall_map. eapply Forall_impl; [exact Hall|]. intros r' Hle. unfold by_priority.
         destruct (list_copy_ok h r) as (_&_&->), (list_copy_ok h r') as (_&_&->). apply Z.ltb_ge. done. }
  rewrite resolve_pure_ref; [|apply Forall_map, Forall_true; intros; apply list_copy_ok..].
  rewrite resolve_ref_map by (intros; apply list_copy_match).
  destruct (resolve_ref killed rules ctx p) as [[[o r]|] p']; cbn [fst snd fmap option_fmap option_map];
    eexists _, _, _; (split; [done|]); (split; [done|]); simpl; [|done].
  rewrite snapshot_copy. done.
Qed.

(** The rule a resolution settles on, and the state in which it was evaluated. *)
Lemma resolve_ref_some killed rules ctx p o r p' :
  resolve_ref killed rules ctx p = (Some (o, r), p') →
  r ∈ rules ∧ ((o =? OutcomeExempt)%string && killed) = false ∧ ∃ p0, auth_ref r ctx p0 = (Some o, p').
Proof.
  revert p. induction rules as [|rule rules IH]; intros p; cbn [resolve_ref]; [done|].
  destruct (auth_ref rule ctx p) as [[o'|] p1] eqn:E.
  - destruct ((o' =? OutcomeExempt)%string && killed) eqn:Ek.
    + intros (?&?&?)%IH. split; [set_solver|done].
    + intros [= -> -> ->]. split; [set_solver|]. eauto.
  - intros (?&?&?)%IH. split; [set_solver|done].
Qed.

Lemma auth_ref_some r ctx p o p' :
  auth_ref r ctx p = (Some o, p') → ∃ spec, Auth r = Some spec ∧ o = Outcome spec ∧
    ruleTypeOf r = ruleTypeAuth ∧ ruleIsEnabled r = true ∧
    o ∈ [OutcomeExempt; OutcomeCredentialRequired; OutcomeSSORequired] ∧
    ref_subject (RuleSubject r) (ctx_ClientIP ctx) = true ∧
    (authRuleHasDestination r = true ∨ BroadExemption spec = true) ∧ ref_dest r (ctx_Host ctx) = true.
Proof.
  unfold auth_ref. destruct (Auth r) as [spec|]; [|done].
  destruct (_ && (authRuleHasDestination r || BroadExemption spec)) eqn:Ec; [|done].
  destruct (ref_dest r (ctx_Host ctx)) eqn:Ed; [|done]. bprop.
  unfold auth_tail, mbind, proc_bind, mret, proc_ret. intros E.
  assert (o = Outcome spec).
  { revert E. destruct (authScheduleParseable _ _) as [[] p1]; [|done]. simpl.
    destruct (matchSchedule _ _) as [[] p2]; [|done]. simpl.
    destruct (authRuleNotExpired _ _) as [[] p3]; [|done]. simpl. destruct (matchAuthProtocolMethod _ _); [|done].
    by intros [= <- <-]. }
  subst o. exists spec. rewrite bool_decide_eq_true in *. split_and!; try done. by apply orb_true_iff.
Qed.

(** C15: a scoped exemption is always earned: when the runtime resolver exempts a request
    through a rule, the kill switch is off and some enabled authentication rule of the
    rulebase has a subject whose every predicate contains the (parseable) client address, is
    destination-scoped or explicitly broad, and matches the destination host. *)
Theorem exempt_scoped (killed : bool) (h : CounterHeap) (rules : list PolicyRule) (ctx : RequestContext)
    (p p' : Proc) (r : PolicyRule)
    (Hpre : Forall precompute_ok rules) (Hnets : Forall subject_nets_ok rules)
    (Hd : resolveAuthOutcomeSnapshot killed h rules ctx p = (mkDecision OutcomeExempt (Some r), p')) :
  killed = false ∧ ∃ rule spec sm, rule ∈ rules ∧ r = copyPolicyRuleForMatch h rule ∧
    ruleTypeOf rule = ruleTypeAuth ∧ ruleIsEnabled rule = true ∧
    Auth rule = Some spec ∧ RuleSubject rule = Some sm ∧ All sm ≠ [] ∧
    is_Some (ParseIP (ctx_ClientIP ctx)) ∧
    Forall (λ pr, ∃ v, v ∈ Values pr ∧ matchIPOrCIDR v (ctx_ClientIP ctx) = true) (All sm) ∧
    (authRuleHasDestination rule = true ∨ BroadExemption spec = true) ∧ ref_dest rule (ctx_Host ctx) = true.
Proof.
  unfold resolveAuthOutcomeSnapshot in Hd.
  rewrite (resolve_snapshot_ref killed h rules ctx) in Hd by (done || by constructor).
  destruct (resolve_ref killed rules ctx p) as [[[o rule]|] p1] eqn:E; [|done].
  injection Hd as -> <- ->. apply resolve_ref_some in E as (Hin&Hk&p0&E).
  apply auth_ref_some in E as (spec&Ha&Ho&Ht&He&_&Hs&Hd&Hr). split; [by destruct killed|].
  unfold ref_subject in Hs. destruct (RuleSubject rule) as [sm|] eqn:Esm; [|done]. bprop.
  match goal with H : forallb _ _ = true |- _ => rewrite forallb_spec in H; rename H into Hall end.
  exists rule, spec, sm. rewrite bool_decide_eq_true in *. split_and!; try done.
  - intros Hnil. by rewrite bool_decide_true in *.
  - eapply Forall_impl; [exact Hall|]. intros pr Hpr. simpl in Hpr.
    apply andb_true_iff in Hpr as [_ (v&Hv&?)%existsb_exists].
    exists v. split; [by apply list_elem_of_In|done].
Qed.
End decisions.

(** ** The gate *)

Lemma resolve_ref_killed `{Unicode, Idna, PolicyEnv, TimeData, Clock} rules ctx p :
  (resolve_ref true rules ctx p).1 = None →
  (resolve_ref false rules ctx p).1 = None ∨ ∃ r, (resolve_ref false rules ctx p).1 = Some (OutcomeExempt, r).
Proof.
  revert p. induction rules as [|rule rules IH]; intros p; cbn [resolve_ref]; [by left|].
  destruct (auth_ref rule ctx p) as [[o|] p']; [|by apply IH].
  destruct (String.eqb_spec o OutcomeExempt) as [->|]; cbn [andb]; [|done]. right. by exists rule.
Qed.

(** With the kill switch engaged only a rulebase without a matching challenge falls through,
    and then only as the inert request of a deployment without backends. *)
Lemma gate_no_credentials_killed `{Unicode, Idna, PolicyEnv, TimeData, Clock, AuthBackend} h rules r p i g s :
  Forall precompute_ok rules → Forall subject_nets_ok rules →
  default_outcome = OutcomeExempt ∨ default_outcome = OutcomeDefault →
  (gate_no_credentials true h rules r OutcomeDefault p).1 = Proceed i g s →
  ∃ s', (gate_no_credentials false h rules r default_outcome p).1 = Proceed i g s'.
Proof.
  intros Hpre Hnets Hdef. unfold gate_no_credentials, resolveNoCredAuthOutcome, mbind, proc_bind, mret, proc_ret.
  destruct (g_proxyAuth r =? "")%string; cbn [negb]; [|cbn; intros; by eexists].
  set (ctx := authRequestContext _ _ _). unfold resolveAuthOutcomeSnapshot.
  rewrite !(resolve_snapshot_ref _ h rules ctx) by (done || by constructor).
  pose proof (resolve_ref_killed rules ctx p) as Hk.
  destruct (resolve_ref true rules ctx p) as [[[o rule]|] p1] eqn:E; cbn [fst snd decision d_Outcome d_Rule].
  - apply resolve_ref_some in E as (_&Hne&p0&(spec&_&_&_&_&Ho&_)%auth_ref_some).
    rewrite andb_true_r in Hne. rewrite (bool_decide_false (Some _ = None)) by done. rewrite andb_false_r.
    cbn [d_Outcome d_Rule]. rewrite Hne. cbn [andb].
    apply elem_of_cons in Ho as [->|Ho]; [done|]. apply elem_of_cons in Ho as [->|Ho]; [done|].
    apply list_elem_of_singleton in Ho as ->. cbn. by destruct (_ && _).
  - intros HP. assert (i = "" ∧ g = [] ∧ credCapable = false ∧ ssoCapable = false) as (->&->&Hc&Hs).
    { revert HP. cbn. destruct credCapable, ssoCapable; cbn; try (by destruct (_ && _)). by intros [= <- <-]. }
    destruct (Hk eq_refl) as [Hn|[r' Hn]];
      destruct (resolve_ref false rules ctx p) as [x p2]; cbn in Hn; subst x; cbn; [|by eexists].
    rewrite Hc, Hs. destruct Hdef as [-> | ->]; cbn; by eexists.
Qed.

(** The kill switch is strictly more restrictive at the gate: a request that proceeds
    to Stage 2 with the switch engaged also proceeds, as the same identity and groups, with
    it released.  (The global default is Exempt or Default; the rulebase is a published
    one.) *)
Theorem kill_switch_restrictive `{Unicode, Idna, PolicyEnv, TimeData, Clock, AuthBackend}
    (h : CounterHeap) (rules : list PolicyRule) (r : GateRequest) (p : Proc) (i : string) (g : list string) (s : string)
    (Hpre : Forall precompute_ok rules) (Hnets : Forall subject_nets_ok rules)
    (Hdef : default_outcome = OutcomeExempt ∨ default_outcome = OutcomeDefault)
    (HP : (resolveRequestAuth true h rules r p).1 = Proceed i g s) :
  ∃ s', (resolveRequestAuth false h rules r p).1 = Proceed i g s'.
Proof.
  revert HP. unfold resolveRequestAuth.
  destruct (negb _); [by eexists|]. destruct (g_session r) as [id|]; [by eexists|].
  destruct (parseProxyAuth (g_proxyAuth r)) as [[u pw]|]; [|by apply gate_no_credentials_killed].
  destruct credCapable; [|by apply gate_no_credentials_killed]. by eexists.
Qed.

Lemma try_providers_some `{Unicode} ps u p id src :
  try_providers ps u p = Some (id, src) →
  TrimSpace (Sub id) ≠ "" ∧ ∃ name f, (name, f) ∈ ps ∧ f u p = Some id ∧ src = identityAuthSource id name.
Proof.
  induction ps as [|[name f] ps IH]; cbn [try_providers]; [done|].
  destruct (f u p) as [id'|] eqn:E; [|intros (?&n&f'&?&?)%IH; split; [done|]; exists n, f'; set_solver].
  destruct (subject_ok (Some id')) eqn:Es; [|intros (?&n&f'&?&?)%IH; split; [done|]; exists n, f'; set_solver].
  intros [= <- <-]. cbn in Es. bprop. split; [done|]. exists name, f. set_solver.
Qed.

Lemma gate_no_credentials_anon `{Unicode, Idna, PolicyEnv, TimeData, Clock, AuthBackend} killed h rules r d p i g s :
  (gate_no_credentials killed h rules r d p).1 = Proceed i g s →
  i = "" ∧ g = [] ∧ (g_proxyAuth r ≠ "" → s = "unauth" ∧ credCapable = false ∧ ssoCapable = false).
Proof.
  unfold gate_no_credentials, resolveNoCredAuthOutcome, mbind, proc_bind, mret, proc_ret.
  destruct (String.eqb_spec (g_proxyAuth r) "") as [->|Hne]; cbn [negb].
  - destruct (resolveAuthOutcomeSnapshot _ _ _ _ _) as [d' p']. cbn [fst].
    repeat match goal with |- context [if ?b then _ else _] => destruct b end; intros [= <- <- <-]; done.
  - cbn. destruct credCapable, ssoCapable; cbn; try (by destruct (_ && _)). intros [= <- <- <-]. done.
Qed.

(** Where an identity comes from: the session, or a validator that accepted the presented
    Basic credential and named a non-blank subject. *)
Definition identity_proved `{Unicode, AuthBackend} (r : GateRequest) (i : string) (g : list string) : Prop :=
  (∃ id, g_session r = Some id ∧ i = (if (Sub id =? "")%string then Email id else Sub id) ∧ g = Groups id) ∨
  (∃ u pw id, g_session r = None ∧ parseProxyAuth (g_proxyAuth r) = Some (u, pw) ∧ credCapable = true ∧
     ((∃ name f, (name, f) ∈ credential_providers ∧ f u pw = Some id) ∨ legacy_resolve u pw = Some id) ∧
     TrimSpace (Sub id) ≠ "" ∧ i = Sub id ∧ g = Groups id).

(** C11: identity is never made up.  A request that passes the gate with an identity or
    with groups has a session, or a credential that a configured validator accepted under a
    non-blank subject; and a request that presents a Proxy-Authorization header no validator
    accepted passes only with no session, no identity and the source "unauth", and only
    when the deployment has no backend at all: presented credentials are never exempted. *)
Theorem gate_identity_proved `{Unicode, Idna, PolicyEnv, TimeData, Clock, AuthBackend}
    (killed : bool) (h : CounterHeap) (rules : list PolicyRule) (r : GateRequest) (p : Proc)
    (i : string) (g : list string) (s : string)
    (HP : (resolveRequestAuth killed h rules r p).1 = Proceed i g s) :
  identity_proved r i g ∨
  i = "" ∧ g = [] ∧ (g_proxyAuth r ≠ "" → s = "unauth" ∧ credCapable = false ∧ ssoCapable = false).
Proof.
  revert HP. unfold resolveRequestAuth.
  destruct (negb _) eqn:Eneg.
  { intros [= <- <- <-]. right. apply negb_true_iff in Eneg. bprop. done. }
  destruct (g_session r) as [id|] eqn:Es.
  { intros [= <- <- _]. left. left. eauto. }
  destruct (parseProxyAuth (g_proxyAuth r)) as [[u pw]|] eqn:Ea;
    [|intros HP; right; by eapply gate_no_credentials_anon].
  destruct credCapable eqn:Ec; [|intros HP%gate_no_credentials_anon; right; by rewrite Ec in HP].
  destruct (try_providers credential_providers u pw) as [[id src]|] eqn:Et.
  { apply try_providers_some in Et as (Hsub&name&f&Hin&Hf&_). intros [= <- <- _]. left. right.
    exists u, pw, id. split_and!; eauto 6. }
  destruct (legacy_resolve u pw) as [id|] eqn:El; [|done].
  destruct (subject_ok (Some id)) eqn:Eok; [|done]. intros [= <- <- _]. left. right.
  cbn in Eok. bprop. exists u, pw, id. split_and!; eauto.
Qed.

(** ** Concrete runs *)

Definition test_spec : AuthRuleSpec := mkAuthSpec OutcomeExempt "" "" "netops" "printers" "2030-01-01T00:00:00Z" false [].
Definition test_exempt : PolicyRule :=
  empty_rule <| Priority := 10 |> <| Name := "printers" |> <| RuleType := ruleTypeAuth |> <| DestFQDN := "*.Example" |>
    <| RuleSubject := Some (mkSubject 1 [mkPredicate subjectPredicateCIDR "" ["10.0.0.0/8"] []]) |>
    <| Auth := Some test_spec |>.
Definition test_challenge : PolicyRule :=
  test_exempt <| Priority := 20 |> <| Name := "challenge" |> <| DestFQDN := "portal.corp" |>
    <| Auth := Some (mkAuthSpec OutcomeCredentialRequired "" "" "sec" "portal" "" false []) |>.
Definition test_auth_rules : list PolicyRule :=
  map (@precompute_rule ascii_unicode test_idna) [test_exempt; test_challenge].
Definition test_heap : CounterHeap := mkHeap ∅ 0.

(** A deployment without backends that opens unmatched traffic, and one with a local
    account. *)
Definition test_open : AuthBackend := {|
  credCapable := false; ssoCapable := false; default_outcome := OutcomeExempt;
  credential_providers := []; legacy_resolve _ _ := None; base64_decode _ := None;
|}.
Definition test_local : AuthBackend := {|
  credCapable := true; ssoCapable := false; default_outcome := OutcomeDefault;
  credential_providers := [];
  legacy_resolve u p := if (u =? "ann")%string && (p =? "pw")%string then Some (mkIdentity "ann" "" ["staff"] "") else None;
  base64_decode s := if (s =? "YW5uOnB3")%string then Some "ann:pw" else None;
|}.
Definition test_request (host auth : string) : GateRequest :=
  mkGate host "GET" "10.1.2.3" auth None false false (λ _, false) false.

Lemma test_auth_rules_ok (U := ascii_unicode) (I := test_idna) :
  Forall precompute_ok test_auth_rules ∧ Forall subject_nets_ok test_auth_rules.
Proof.
  split; apply Forall_map, Forall_true; intros r; [apply precompute_rule_ok|apply precompute_rule_nets].
Qed.

Lemma persistable_auth_scoped_witness :
  let U := ascii_unicode in let T := test_time in
  policyRulePersistable 0 (Some test_exempt) = None ∧
  policyRulePersistable 0 (Some (test_exempt <| DestFQDN := "" |>)) = Some (DropInvalidAuth ErrNoDestinationNorBroad) ∧
  ∃ spec sm, auth_scoped test_exempt spec sm.
Proof.
  intros U T. split; [vm_compute; reflexivity|]. split; [vm_compute; reflexivity|].
  apply (@persistable_auth_scoped U T 0 test_exempt); reflexivity.
Defined.

Lemma resolve_snapshot_equivalent_witness :
  let U := ascii_unicode in let I := test_idna in let E := test_env in let T := test_time in let C := test_clock in
  let ctx := authRequestContext "www.example:443" "GET" "10.1.2.3" in
  (resolveAuthOutcomeSnapshot false test_heap test_auth_rules ctx test_proc).1.(d_Outcome) = OutcomeExempt ∧
  ∃ d d' p', resolveAuthOutcomeSnapshot false test_heap test_auth_rules ctx test_proc = (d, p') ∧
    resolveAuthOutcomeFrom false (map (list_copy test_heap) test_auth_rules) ctx test_proc = (d', p') ∧
    d_Outcome d = d_Outcome d' ∧ d_Rule d = (λ r, r <| LastHit := "" |>) <$> d_Rule d'.
Proof.
  intros U I E T C ctx. split; [vm_compute; reflexivity|].
  apply (@resolve_snapshot_equivalent U I E T C); [|apply test_auth_rules_ok..].
  repeat constructor; vm_compute; discriminate.
Defined.

Lemma exempt_scoped_witness :
  let U := ascii_unicode in let I := test_idna in let E := test_env in let T := test_time in let C := test_clock in
  let ctx := authRequestContext "www.example:443" "GET" "10.1.2.3" in
  ∃ rule, rule ∈ test_auth_rules ∧ ref_dest rule (ctx_Host ctx) = true ∧
    Name (copyPolicyRuleForMatch test_heap rule) = "printers".
Proof.
  intros U I E T C ctx.
  destruct (resolveAuthOutcomeSnapshot false test_heap test_auth_rules ctx test_proc) as [d p'] eqn:Ed.
  assert (d = mkDecision OutcomeExempt (Some (copyPolicyRuleForMatch test_heap (precompute_rule test_exempt)))) as ->.
  { apply (f_equal fst) in Ed. cbn [fst] in Ed. rewrite <- Ed. vm_compute. reflexivity. }
  destruct (@exempt_scoped U I E T C false test_heap test_auth_rules ctx test_proc p' _
    (proj1 test_auth_rules_ok) (proj2 test_auth_rules_ok) Ed) as (_&rule&_&_&Hin&Hr&_&_&_&_&_&_&_&_&Hd).
  exists rule. split; [exact Hin|]. split; [exact Hd|]. apply (f_equal Name) in Hr.
  exact (eq_sym Hr).
Defined.

Lemma kill_switch_restrictive_witness :
  let U := ascii_unicode in let I := test_idna in let E := test_env in let T := test_time in let C := test_clock in
  let A := test_open in
  (resolveRequestAuth true test_heap test_auth_rules (test_request "portal.corp" "") test_proc).1 = ProxyAuthRequired ∧
  (resolveRequestAuth true test_heap test_auth_rules (test_request "www.example" "") test_proc).1 = Proceed "" [] "unauth" ∧
  ∃ s', (resolveRequestAuth false test_heap test_auth_rules (test_request "www.example" "") test_proc).1 = Proceed "" [] s'.
Proof.
  intros U I E T C A. split; [vm_compute; reflexivity|]. split; [vm_compute; reflexivity|].
  apply (@kill_switch_restrictive U I E T C A) with "unauth"; [apply test_auth_rules_ok..|by left|vm_compute; reflexivity].
Defined.

Lemma gate_identity_proved_witness :
  let U := ascii_unicode in let I := test_idna in let E := test_env in let T := test_time in let C := test_clock in
  let A := test_local in
  let r := test_request "www.example" "Basic YW5uOnB3" in
  (resolveRequestAuth false test_heap test_auth_rules r test_proc).1 = Proceed "ann" ["staff"] "local" ∧
  identity_proved r "ann" ["staff"].
Proof.
  intros U I E T C A r. assert ((resolveRequestAuth false test_heap test_auth_rules r test_proc).1 = Proceed "ann" ["staff"] "local")
    as HP by (vm_compute; reflexivity).
  split; [exact HP|]. destruct (@gate_identity_proved U I E T C A _ _ _ _ _ _ _ _ HP) as [Hp|[Hi _]]; [exact Hp|discriminate Hi].
Defined.
