(* ===== verification/PolicyStore.v ===== *)
(** * The policy store ([policy.go], [RestoreHitCounts] of [metrics.go])

    The rulebase with every operation that publishes a revision, its version fence, the
    shared hit-accounting cells and its persistence.  An operation is one critical section
    of the store's mutex; [now] is the clock reading of its [bumpVersion].  Cells live in the
    heap [ps_heap], so revisions of a rule share accounting as they do in the source.

    - [store_reachable_ok]: the invariant of every reachable store.
    - [version_fence]: an unchanged version means an unchanged rulebase.

    What the single operations do is in [PolicyEdits] and [PolicyPersist]. *)

From S2P Require Import Prelude GoStrings GoNet HostUtil IPPrefix PolicyRule PolicyMatch AuthPolicy.

(** ** Stable identifiers *)

(** [oklog/ulid]: the strings [ParseStrict] accepts, and the successive values of
    [MustNew(Now(), rand.Reader).String()], which are well formed and pairwise different. *)
Class RuleIDs := {
  validRuleID : string → bool;
  newRuleID : nat → string;
  newRuleID_valid n : validRuleID (newRuleID n) = true;
  newRuleID_unique i j : newRuleID i = newRuleID j → i = j;
}.

(** [freshRuleID], from the draw number [n]; [S (size seen)] draws suffice. *)
Fixpoint fresh_from `{RuleIDs} (fuel : nat) (seen : gset string) (n : nat) : string * nat :=
  match fuel with
  | O => (newRuleID n, S n)
  | S fuel => if bool_decide (newRuleID n ∈ seen) then fresh_from fuel seen (S n) else (newRuleID n, S n)
  end.
Definition freshRuleID `{RuleIDs} (seen : gset string) (n : nat) : string * nat :=
  fresh_from (S (size seen)) seen n.

(** ** State *)

Record PolicyStore := mkStore {
  ps_rules : list PolicyRule; ps_path : string; ps_version : Z; ps_updatedAt : string;
  ps_heap : CounterHeap; ps_draws : nat;
}.
#[global] Instance PolicyStore_eta : Eta PolicyStore := λ s,
  mkStore (ps_rules s) (ps_path s) (ps_version s) (ps_updatedAt s) (ps_heap s) (ps_draws s).
Definition empty_store : PolicyStore := mkStore [] "" 0 "" (mkHeap ∅ 0) 0.

(** Clone every definition, as [sortLocked] starts. *)
Fixpoint clone_all (h : CounterHeap) (rs : list PolicyRule) : list PolicyRule * CounterHeap :=
  match rs with
  | [] => ([], h)
  | r :: rs =>
      let '(r', h) := copyPolicyRuleForPublication h r in
      let '(rs', h) := clone_all h rs in (r' :: rs', h)
  end.

Definition auto_filter (r : PolicyRule) : PolicyRule :=
  if negb (FileProfile r =? "")%string && negb (FileProfile r =? FileProfileNone)%string
  then r <| FileFiltering := true |> else r.
Definition reset_accounting (r : PolicyRule) : PolicyRule :=
  r <| HitCount := 0 |> <| lastHitUnix := 0 |> <| counters := None |> <| LastHit := "" |>.
(** A rule as the mutators take it in: accounting cleared, filtering implied by a profile. *)
Definition kept_rule (r : PolicyRule) : PolicyRule := auto_filter (reset_accounting r).
(** The rule [Add] stores. *)
Definition new_rule (r : PolicyRule) (id : string) (priority : Z) : PolicyRule :=
  let nr := kept_rule r in
  let nr := if bool_decide (Enabled nr = None) then nr <| Enabled := Some true |> else nr in
  nr <| ID := id |> <| Priority := priority |>.

Lemma new_rule_fields r id p (nr := new_rule r id p) :
  ID nr = id ∧ Priority nr = p ∧ counters nr = None ∧ HitCount nr = 0 ∧ lastHitUnix nr = 0 ∧
  Enabled nr = Some (default true (Enabled r)).
Proof.
  subst nr. unfold new_rule, kept_rule, auto_filter. destruct r as [? ? ? ? ? ? ? ? ? ? ? ? ? ? ? ? ? ? ? ? ? ? ? ? e].
  cbn. destruct (_ && _), e; done.
Qed.

(** The definition an edit by identifier stores in place of [rule]. *)
Definition edited (id : string) (r rule : PolicyRule) : PolicyRule :=
  (auto_filter r) <| ID := id |> <| Priority := Priority rule |> <| counters := counters rule |>.

Section ops.
Context `{Unicode, Idna, TimeData, SortSlice, RuleIDs}.

Definition sortLocked (s : PolicyStore) : PolicyStore :=
  let '(next, h) := clone_all (ps_heap s) (ps_rules s) in
  s <| ps_rules := map precompute_rule (sort_slice by_priority next) |> <| ps_heap := h |>.

Definition policyVersion (s : PolicyStore) : Z * string := (ps_version s, ps_updatedAt s).
Definition bumpVersion (now : Instant) (s : PolicyStore) : PolicyStore :=
  s <| ps_version := wrap64 (ps_version s + 1) |> <| ps_updatedAt := FormatRFC3339 (unix_sec now) |>.
Definition seedVersion (v : Z) (updatedAt : string) (s : PolicyStore) : PolicyStore :=
  let s := s <| ps_version := v |> in
  if negb (updatedAt =? "")%string then s <| ps_updatedAt := updatedAt |> else s.
Definition ensureVersionAbove (now : Instant) (floor : Z) (s : PolicyStore) : PolicyStore :=
  if ps_version s <=? floor
  then s <| ps_version := wrap64 (floor + 1) |> <| ps_updatedAt := FormatRFC3339 (unix_sec now) |>
  else s.

(** Publish a new slice: what every successful mutator ends with. *)
Definition publish (now : Instant) (rs : list PolicyRule) (s : PolicyStore) : PolicyStore :=
  bumpVersion now (sortLocked (s <| ps_rules := rs |>)).

Definition List (s : PolicyStore) : list PolicyRule := map (list_copy (ps_heap s)) (ps_rules s).
Record PolicyStoreSnapshot := mkSnap { snap_Rules : list PolicyRule; snap_Version : Z; snap_UpdatedAt : string }.
Definition SnapshotWithVersion (s : PolicyStore) : PolicyStoreSnapshot :=
  mkSnap (List s) (ps_version s) (ps_updatedAt s).

(** ** Bulk replacement *)

Fixpoint replace_loop (now : Instant) (rs : list PolicyRule) (seenIDs : gset string) (n : nat)
    : list PolicyRule * nat :=
  match rs with
  | [] => ([], n)
  | r :: rs =>
      if bool_decide (is_Some (policyRulePersistable now (Some r))) then replace_loop now rs seenIDs n else
      let r := kept_rule r in
      let '(id, n) := if negb (validRuleID (ID r)) || bool_decide (ID r ∈ seenIDs)
                      then freshRuleID seenIDs n else (ID r, n) in
      let '(out, n) := replace_loop now rs ({[id]} ∪ seenIDs) n in
      (r <| ID := id |> :: out, n)
  end.
Definition ReplaceAll (now : Instant) (rs : list PolicyRule) (s : PolicyStore) : PolicyStore :=
  let '(out, n) := replace_loop now rs ∅ (ps_draws s) in
  publish now out (s <| ps_draws := n |>).

(** ** Single-rule mutators *)

Definition max_priority (rs : list PolicyRule) : Z := fold_left (λ m r, if m <? Priority r then Priority r else m) rs 0.
Definition availablePriorityLocked (requested : Z) (rs : list PolicyRule) : Z :=
  if (requested <=? 0) || existsb (λ r, Priority r =? requested) rs
  then wrap64 (max_priority rs + 1) else requested.

Definition Add (now : Instant) (r : PolicyRule) (s : PolicyStore) : PolicyRule * PolicyStore :=
  let seenIDs := list_to_set (map ID (ps_rules s)) : gset string in
  let '(id, n) := if negb (validRuleID (ID r)) then freshRuleID seenIDs (ps_draws s)
                  else if bool_decide (ID r ∈ seenIDs) then freshRuleID seenIDs (ps_draws s)
                  else (ID r, ps_draws s) in
  let nr := new_rule r id (availablePriorityLocked (Priority r) (ps_rules s)) in
  (nr, publish now (ps_rules s ++ [nr]) (s <| ps_draws := n |>)).

Definition Update (now : Instant) (priority : Z) (r : PolicyRule) (s : PolicyStore) : bool * PolicyStore :=
  let r := auto_filter r in
  match update_first (λ rule, Priority rule =? priority)
          (λ rule, r <| ID := ID rule |> <| counters := counters rule |>) (ps_rules s) with
  | Some next => (true, publish now next s)
  | None => (false, s)
  end.

Definition Delete (now : Instant) (priority : Z) (s : PolicyStore) : bool * PolicyStore :=
  match remove_first (λ rule, Priority rule =? priority) (ps_rules s) with
  | Some next => (true, bumpVersion now (s <| ps_rules := next |>))
  | None => (false, s)
  end.

Definition UpdateByID (now : Instant) (id : string) (r : PolicyRule) (s : PolicyStore) : bool * PolicyStore :=
  if negb (validRuleID id) then (false, s) else
  match update_first (λ rule, (ID rule =? id)%string) (edited id r) (ps_rules s) with
  | Some next => (true, publish now next s)
  | None => (false, s)
  end.

Definition DeleteByID (now : Instant) (id : string) (s : PolicyStore) : bool * PolicyStore :=
  if negb (validRuleID id) then (false, s) else
  match remove_first (λ rule, (ID rule =? id)%string) (ps_rules s) with
  | Some next => (true, bumpVersion now (s <| ps_rules := next |>))
  | None => (false, s)
  end.

(** ** Renames *)

(** The loop the cascades share: [f] rewrites a rule it touches. *)
Definition rewrite_rules (now : Instant) (f : PolicyRule → option PolicyRule) (s : PolicyStore) : nat * PolicyStore :=
  let n := length (filter (λ r, is_Some (f r)) (ps_rules s)) in
  if (0 <? n)%nat then (n, publish now (map (λ r, default r (f r)) (ps_rules s)) s) else (n, s).

Definition renamed (id oldName newName : string) (getID getName : PolicyRule → string)
    (set : PolicyRule → PolicyRule) (rule : PolicyRule) : option PolicyRule :=
  let byID := (getID rule =? id)%string && negb (getName rule =? newName)%string in
  let byName := (getID rule =? "")%string && EqualFold (getName rule) oldName in
  if negb byID && negb byName then None else Some (set rule).

Definition CascadeDecryptionProfileRename (now : Instant) (id oldName newName : string) (s : PolicyStore) : nat * PolicyStore :=
  if (id =? "")%string then (0%nat, s) else
  rewrite_rules now (renamed id oldName newName DecryptionProfileID DecryptionProfile
    (λ r, r <| DecryptionProfile := newName |> <| DecryptionProfileID := id |>)) s.
Definition CascadeDestCategoryGroupRename (now : Instant) (id oldName newName : string) (s : PolicyStore) : nat * PolicyStore :=
  if (id =? "")%string then (0%nat, s) else
  rewrite_rules now (renamed id oldName newName DestCategoryGroupID DestCategoryGroup
    (λ r, r <| DestCategoryGroup := newName |> <| DestCategoryGroupID := id |>)) s.
Definition CascadeFileProfileRename (now : Instant) (id oldName newName : string) (s : PolicyStore) : nat * PolicyStore :=
  if (id =? "")%string then (0%nat, s) else
  rewrite_rules now (renamed id oldName newName FileProfileID FileProfile
    (λ r, r <| FileProfile := newName |> <| FileProfileID := id |>)) s.

(** The current name of an object link, when it differs from the cached one. *)
Definition fresher (names : gmap string string) (id cached : string) : option string :=
  if (id =? "")%string then None else
  match names !! id with
  | Some cur => if (cached =? cur)%string then None else Some cur
  | None => None
  end.
Definition refreshedObjectRefNames (groupNames profileNames fileProfileNames : gmap string string) (rule : PolicyRule)
    : PolicyRule * bool :=
  let g := fresher groupNames (DestCategoryGroupID rule) (DestCategoryGroup rule) in
  let d := fresher profileNames (DecryptionProfileID rule) (DecryptionProfile rule) in
  let f := fresher fileProfileNames (FileProfileID rule) (FileProfile rule) in
  let nr := match g with Some cur => rule <| DestCategoryGroup := cur |> | None => rule end in
  let nr := match d with Some cur => nr <| DecryptionProfile := cur |> | None => nr end in
  let nr := match f with Some cur => nr <| FileProfile := cur |> | None => nr end in
  (nr, bool_decide (is_Some g) || bool_decide (is_Some d) || bool_decide (is_Some f)).
Definition RefreshObjectRefNames (now : Instant) (groupNames profileNames fileProfileNames : gmap string string)
    (s : PolicyStore) : nat * PolicyStore :=
  rewrite_rules now (λ rule, let '(nr, changed) := refreshedObjectRefNames groupNames profileNames fileProfileNames rule in
                             if changed then Some nr else None) s.

(** ** Lookups *)

Definition findByIDCopy (id : string) (s : PolicyStore) : option PolicyRule :=
  if (id =? "")%string then None else find (λ r, (ID r =? id)%string) (List s).
Definition matchForImport (r : PolicyRule) (s : PolicyStore) : option PolicyRule :=
  match findByIDCopy (ID r) s with
  | Some m => Some m
  | None => if (Name r =? "")%string then None else find (λ r', EqualFold (Name r') (Name r)) (List s)
  end.
(** (updates, adds). *)
Definition countImportUpserts (incoming : list PolicyRule) (s : PolicyStore) : nat * nat :=
  fold_left (λ '(u, a) r, match matchForImport r s with Some _ => (S u, a) | None => (u, S a) end) incoming (0, 0)%nat.

(** ** Reordering *)

(** The fresh copies are addressed by index, as [byOldPri] does by pointer. *)
Definition set_priority (rs : list PolicyRule) (i : nat) (p : Z) : list PolicyRule :=
  alter (λ r, r <| Priority := p |>) i rs.

(** [byOldPri] of [Reorder]: the last rule of a priority wins. *)
Definition by_old_priority (rs : list PolicyRule) : gmap Z nat :=
  fst (fold_left (λ '(m, i) r, (<[Priority r := i]> m, S i)) rs (∅, 0%nat)).
Fixpoint reorder_loop (byOldPri : gmap Z nat) (ordered : list Z) (newIdx : Z) (next : list PolicyRule)
    : option (list PolicyRule) :=
  match ordered with
  | [] => Some next
  | oldPri :: ordered =>
      match byOldPri !! oldPri with
      | None => None
      | Some i => reorder_loop byOldPri ordered (newIdx + 1) (set_priority next i (newIdx + 1))
      end
  end.
Definition Reorder (now : Instant) (ordered : list Z) (s : PolicyStore) : bool * PolicyStore :=
  if negb (length ordered =? length (ps_rules s))%nat then (false, s) else
  match reorder_loop (by_old_priority (ps_rules s)) ordered 0 (ps_rules s) with
  | None => (false, s)
  | Some next => (true, publish now next s)
  end.

(** [byOldPri] of [PermutePriorities]: [None] when two rules share a listed priority. *)
Fixpoint listed_rules (seen : list Z) (rs : list PolicyRule) (i : nat) (m : gmap Z nat) : option (gmap Z nat) :=
  match rs with
  | [] => Some m
  | r :: rs =>
      if bool_decide (Priority r ∈ seen) then
        match m !! Priority r with
        | Some _ => None
        | None => listed_rules seen rs (S i) (<[Priority r := i]> m)
        end
      else listed_rules seen rs (S i) m
  end.
(** The assignment loop; a missing key is the nil dereference the length check rules out. *)
Fixpoint permute_loop (byOldPri : gmap Z nat) (assign : list (Z * Z)) (next : list PolicyRule) : list PolicyRule :=
  match assign with
  | [] => next
  | (oldPri, slot) :: assign =>
      permute_loop byOldPri assign (match byOldPri !! oldPri with Some i => set_priority next i slot | None => next end)
  end.
Definition PermutePriorities (now : Instant) (ordered : list Z) (s : PolicyStore) : bool * PolicyStore :=
  if bool_decide (ordered = []) then (false, s) else
  if negb (bool_decide (NoDup ordered)) then (false, s) else
  match listed_rules ordered (ps_rules s) 0 ∅ with
  | None => (false, s)
  | Some m =>
      if negb (size m =? length ordered)%nat then (false, s) else
      let slots := merge_sort Z.le ordered in
      (true, publish now (permute_loop m (zip ordered slots) (ps_rules s)) s)
  end.

(** ** Conflicts *)

Definition rulesOverlap (a b : PolicyRule) : bool :=
  let clash (f : PolicyRule → string) (eq : string → string → bool) :=
    negb (f a =? "")%string && negb (f b =? "")%string && negb (eq (f a) (f b)) in
  if clash SourceIP String.eqb then false
  else if clash SourceIdentity EqualFold then false
  else if clash DestFQDN String.eqb then false
  else if clash DestCategory String.eqb then false
  else true.
(** [DetectConflicts]: the pairs it warns about. *)
Fixpoint conflicts_in (rs : list PolicyRule) : list (PolicyRule * PolicyRule) :=
  match rs with
  | [] => []
  | a :: rs =>
      (map (pair a) (List.filter (λ b, (Priority a =? Priority b) && negb (Action a =? Action b)%string && rulesOverlap a b) rs)
       ++ conflicts_in rs)%list
  end.
Definition DetectConflicts (s : PolicyStore) : list (PolicyRule * PolicyRule) := conflicts_in (ps_rules s).

(** ** Evaluation *)

Definition evaluationSnapshot (s : PolicyStore) : list PolicyRule * PolicyStore :=
  let s := if existsb (λ r, bool_decide (counters r = None)) (ps_rules s) then sortLocked s else s in
  (ps_rules s, s).

(** [atomicStoreMax]: its compare-and-swap loop ends with the maximum. *)
Definition atomicStoreMax (dst value : Z) : Z := if dst <? value then value else dst.

(** The two atomic updates after a match, on the rule's cell. *)
Definition account_hit (now : Instant) (c : loc) (h : CounterHeap) : CounterHeap :=
  h <| ccells := alter (λ k, k <| hitCount := wrap64 (hitCount k + 1) |>
                               <| c_lastHitUnix := atomicStoreMax (c_lastHitUnix k) (unix_sec now) |>) c (ccells h) |>.

Record PolicyMatch := mkMatch {
  m_Rule : PolicyRule; m_Action : string; m_SSLAction : string; m_TLSSkipVerify : bool; m_MatchedConditions : string;
}.
Definition build_match (h : CounterHeap) (rule : PolicyRule) : PolicyMatch :=
  mkMatch (copyPolicyRuleForMatch h rule) (Action rule) (SSLAction rule) (TLSSkipVerify rule)
    (if (matchedConds rule =? "")%string then buildMatchedConditions rule else matchedConds rule).

(** [Panic] is the dereference of a nil accounting cell. *)
Inductive EvalResult := NoMatch | Match (m : PolicyMatch) | Panic.

Definition Evaluate `{PolicyEnv, Clock} (clientIP identity authSource host : string) (groups : list string)
    (s : PolicyStore) : proc (EvalResult * PolicyStore) :=
  let '(rules, s) := evaluationSnapshot s in
  let inp := mkInput clientIP identity authSource host (NormalizeHost host) groups in
  '(orule, _) ← evalAccessRules rules inp time_Now;
  match orule : option PolicyRule with
  | None => mret (NoMatch, s)
  | Some rule =>
      match counters rule with
      | None => mret (Panic, s)
      | Some c =>
          now ← time_Now;
          let h := account_hit now c (ps_heap s) in
          mret (Match (build_match h rule), s <| ps_heap := h |>)
      end
  end.

(** [restorePolicyHitCount] and [RestoreHitCounts]; a record is (Hits, LastHit). *)
Definition restorePolicyHitCount (k : policyRuleCounters) (persisted : Z) : policyRuleCounters :=
  if persisted <=? restoredHitCount k then k
  else k <| hitCount := wrap64 (hitCount k + wrap64 (persisted - restoredHitCount k)) |> <| restoredHitCount := persisted |>.
Definition restore_cell (rec : Z * Z) (k : policyRuleCounters) : policyRuleCounters :=
  let k := restorePolicyHitCount k rec.1 in k <| c_lastHitUnix := atomicStoreMax (c_lastHitUnix k) rec.2 |>.
Definition restore_at (rec : option (Z * Z)) (c : option loc) (h : CounterHeap) : CounterHeap :=
  match rec, c with
  | Some rec, Some c => h <| ccells := alter (restore_cell rec) c (ccells h) |>
  | _, _ => h
  end.
Fixpoint restore_loop (byID loadedByName : gmap string (Z * Z)) (h : CounterHeap) (rs : list PolicyRule)
    : list PolicyRule * CounterHeap :=
  match rs with
  | [] => ([], h)
  | rule :: rs =>
      let '(nr, h) := copyPolicyRuleForPublication h rule in
      let rec := match byID !! ID rule with Some rec => Some rec | None => loadedByName !! Name rule end in
      let h := restore_at rec (counters nr) h in
      let '(next, h) := restore_loop byID loadedByName h rs in (nr :: next, h)
  end.
Definition RestoreHitCounts (byID loadedByName : gmap string (Z * Z)) (s : PolicyStore) : PolicyStore :=
  let '(next, h) := restore_loop byID loadedByName (ps_heap s) (ps_rules s) in
  sortLocked (s <| ps_rules := next |> <| ps_heap := h |>).

(** ** Persistence *)

(** [encoding/json] on a string: an invalid byte becomes U+FFFD. *)
Definition json_string (s : string) : string :=
  String.concat "" (map (λ '(r, bs), if (r =? RuneError) && (String.length bs =? 1)%nat then encode_rune RuneError else bs)
    (segments s)).
Definition json_schedule (s : PolicySchedule) : PolicySchedule :=
  mkSchedule (map json_string (Days s)) (json_string (TimeStart s)) (json_string (TimeEnd s)) (json_string (Timezone s)).
Definition json_subject (sm : SubjectMatch) : SubjectMatch :=
  mkSubject (SchemaVersion sm)
    (map (λ p, mkPredicate (json_string (Type_ p)) (json_string (Op p)) (map json_string (Values p)) []) (All sm)).
Definition json_auth (a : AuthRuleSpec) : AuthRuleSpec :=
  mkAuthSpec (json_string (Outcome a)) (json_string (Protocol a)) (json_string (Method a)) (json_string (Owner a))
    (json_string (Reason a)) (json_string (ExpiresAt a)) (BroadExemption a) (map json_string (ProviderRefs a)).
(** What [Unmarshal] of [Marshal] of a rule is: the exported fields. *)
Definition json_rule (r : PolicyRule) : PolicyRule :=
  mkRule (Priority r) (json_string (Name r)) (json_string (SourceIP r)) (json_string (SourceIdentity r))
    (json_string (SourceGroup r)) (json_string (AuthSource r)) (json_string (DestFQDN r)) (json_string (DestCategory r))
    (json_string (DestCategoryGroup r)) (json_string (DestCategoryGroupID r)) (map json_string (DestCountry r))
    (json_schedule <$> Schedule r) (json_string (SSLAction r)) (FileFiltering r) (json_string (FileProfile r))
    (json_string (FileProfileID r)) (LogFullURI r) (LogTraffic r) (TLSSkipVerify r) (StripALPN r)
    (json_string (DecryptionProfile r)) (json_string (DecryptionProfileID r)) (json_string (Action r))
    (json_string (RedirectURL r)) (Enabled r) (json_string (ID r)) (json_string (RuleType r))
    (json_subject <$> RuleSubject r) (json_auth <$> Auth r) (HitCount r) 0 (json_string (LastHit r)) None
    (json_string (CreatedAt r)) (json_string (ModifiedAt r)) (json_string (ModifiedBy r)) (json_string (Comment r))
    "" None None "".

(** A file as [os.ReadFile] and [json.Unmarshal] see it; a missing one has no entry.  The
    rules file and its [.meta] sidecar are keyed by the policy path.  Decoding applies
    [json_rule]: it fills exported fields only and coerces strings to valid UTF-8. *)
Inductive File (A : Type) := Unreadable | Undecodable | Content (a : A).
#[global] Arguments Unreadable {A}.
#[global] Arguments Undecodable {A}.
#[global] Arguments Content {A} a.
Record policyMeta := mkMeta { meta_Version : Z; meta_UpdatedAt : string }.
Record Disk := mkDisk {
  disk_rules : gmap string (File (list (option PolicyRule)));   (* JSON null is None *)
  disk_meta : gmap string (File policyMeta);
}.
#[global] Instance Disk_eta : Eta Disk := λ d, mkDisk (disk_rules d) (disk_meta d).

Definition saveMetaSnapshot (okMeta : bool) (path : string) (m : policyMeta) (d : Disk) : Disk :=
  if okMeta then d <| disk_meta := <[path := Content (mkMeta (meta_Version m) (json_string (meta_UpdatedAt m)))]> (disk_meta d) |>
  else d.
(** The persisted image of a rule. *)
Definition saved_rule (r : PolicyRule) : PolicyRule := json_rule (r <| HitCount := 0 |> <| LastHit := "" |>).
(** [SaveErr]; [okRules] and [okMeta] say whether each atomic write succeeds. *)
Definition SaveErr (okRules okMeta : bool) (s : PolicyStore) (d : Disk) : bool * Disk :=
  if (ps_path s =? "")%string then (true, d) else
  if okRules then
    let d := d <| disk_rules := <[ps_path s := Content (map (Some ∘ saved_rule) (ps_rules s))]> (disk_rules d) |> in
    (true, saveMetaSnapshot okMeta (ps_path s) (mkMeta (ps_version s) (ps_updatedAt s)) d)
  else (false, d).
Definition saveMeta (okMeta : bool) (s : PolicyStore) (d : Disk) : Disk :=
  if (ps_path s =? "")%string then d else saveMetaSnapshot okMeta (ps_path s) (mkMeta (ps_version s) (ps_updatedAt s)) d.

Definition loadMeta (d : Disk) (s : PolicyStore) : PolicyStore :=
  if (ps_path s =? "")%string then s else
  match disk_meta d !! ps_path s with
  | Some (Content m) => seedVersion (meta_Version m) (meta_UpdatedAt m) s
  | _ => s
  end.

(** [backfillIDsLocked]: the count of identifiers assigned comes with the rules. *)
Fixpoint backfill_loop (h : CounterHeap) (rs : list PolicyRule) (seen : gset string) (n : nat)
    : list PolicyRule * nat * CounterHeap * nat :=
  match rs with
  | [] => ([], 0%nat, h, n)
  | r :: rs =>
      if negb (validRuleID (ID r)) || bool_decide (ID r ∈ seen) then
        let '(nr, h) := copyPolicyRuleForPublication h r in
        let '(id, n) := freshRuleID seen n in
        let '(out, k, h, n) := backfill_loop h rs ({[id]} ∪ seen) n in
        (nr <| ID := id |> :: out, S k, h, n)
      else
        let '(out, k, h, n) := backfill_loop h rs ({[ID r]} ∪ seen) n in (r :: out, k, h, n)
  end.
Definition backfillIDsLocked (s : PolicyStore) : nat * PolicyStore :=
  let '(out, k, h, n) := backfill_loop (ps_heap s) (ps_rules s) ∅ (ps_draws s) in
  (k, s <| ps_rules := out |> <| ps_heap := h |> <| ps_draws := n |>).

(** The load gate: nil and invalid rules are dropped. *)
Fixpoint keep_persistable (now : Instant) (rs : list (option PolicyRule)) : list PolicyRule :=
  match rs with
  | [] => []
  | Some r :: rs => if bool_decide (is_Some (policyRulePersistable now (Some r)))
                    then keep_persistable now rs else r :: keep_persistable now rs
  | None :: rs => keep_persistable now rs
  end.

(** The cells that survive a reload, by rule identifier. *)
Definition previous_counters (rs : list PolicyRule) : gmap string loc :=
  fold_left (λ m r, match counters r with
                    | Some c => if validRuleID (ID r) then <[ID r := c]> m else m
                    | None => m
                    end) rs ∅.

(** A reloaded rule continues on the cell of its previous revision. *)
Definition relink (previous : gmap string loc) (r : PolicyRule) : PolicyRule :=
  match previous !! ID r with Some c => r <| counters := Some c |> | None => r end.

(** The critical section of [Load] up to [sortLocked]. *)
Definition load_rules (now : Instant) (rs : list (option PolicyRule)) (s : PolicyStore) : nat * PolicyStore :=
  let previous := previous_counters (ps_rules s) in
  let '(migrated, s) := backfillIDsLocked (s <| ps_rules := keep_persistable now (map (fmap json_rule) rs) |>) in
  (migrated, s <| ps_rules := map (relink previous) (ps_rules s) |>).

(** [Load]: [false] is an error.  [okRules] and [okMeta] are for the save after a
    migration. *)
Definition Load (now : Instant) (okRules okMeta : bool) (path : string) (s : PolicyStore) (d : Disk)
    : bool * PolicyStore * Disk :=
  let s := s <| ps_path := path |> in
  match disk_rules d !! path with
  | None => (true, s, d)
  | Some Unreadable | Some Undecodable => (false, s, d)
  | Some (Content rs) =>
      let '(migrated, s) := load_rules now rs s in
      let s := loadMeta d (sortLocked s) in
      if (0 <? migrated)%nat then (true, s, (SaveErr okRules okMeta s d).2) else (true, s, d)
  end.
End ops.

(** ** Publication *)

(** A rule without its accounting and its precomputed forms. *)
Definition content (r : PolicyRule) : PolicyRule :=
  r <| counters := None |> <| RuleSubject := clear_nets <$> RuleSubject r |>
    <| srcIPNet := None |> <| srcPrefix := None |> <| normFQDN := "" |> <| matchedConds := "" |>.
(** The clone of a rule, on the cell [c]. *)
Definition detached (r : PolicyRule) (c : loc) : PolicyRule := (content r) <| counters := Some c |>.

Definition heap_ok (h : CounterHeap) : Prop := ∀ c, is_Some (ccells h !! c) → (c < cnext h)%nat.
Definition allocated (h : CounterHeap) (c : loc) : Prop := is_Some (ccells h !! c).

Record heap_ext (h h' : CounterHeap) : Prop := {
  ext_cells : ccells h ⊆ ccells h';
  ext_next : (cnext h ≤ cnext h')%nat;
  ext_ok : heap_ok h';
}.
Lemma heap_ext_refl h : heap_ok h → heap_ext h h.
Proof. by constructor. Qed.
Lemma heap_ext_trans h1 h2 h3 : heap_ext h1 h2 → heap_ext h2 h3 → heap_ext h1 h3.
Proof. intros [? ? ?] [? ? ?]. constructor; [by etrans|lia|done]. Qed.
Lemma heap_ext_allocated h h' c : heap_ext h h' → allocated h c → allocated h' c.
Proof. intros Hext [k Hk]. exists k. by eapply lookup_weaken, ext_cells. Qed.

(** A clone keeps its rule's cell or gets a new one, which starts at its hit count. *)
Definition cloned (h h' : CounterHeap) (r r' : PolicyRule) : Prop :=
  ∃ c, r' = detached r c ∧
    (counters r = Some c ∨
     counters r = None ∧ (cnext h ≤ c < cnext h')%nat ∧
       ccells h' !! c = Some (mkCounters (HitCount r) (HitCount r) (lastHitUnix r))).

Lemma clone_spec h r r' h' :
  heap_ok h → copyPolicyRuleForPublication h r = (r', h') → heap_ext h h' ∧ cloned h h' r r'.
Proof.
  intros Hh. unfold copyPolicyRuleForPublication. destruct (counters r) as [c|] eqn:Ec.
  - intros [= <- <-]. split; [by apply heap_ext_refl|]. exists c. split; [done|]. by left.
  - intros [= <- <-]. split.
    + constructor; cbn.
      * apply insert_subseteq. destruct (ccells h !! cnext h) eqn:E; [|done].
        assert (cnext h < cnext h)%nat by (apply Hh; eauto). lia.
      * lia.
      * intros c [k Hk]. cbn in *. apply lookup_insert_Some in Hk as [[<- _]|[_ Hk]]; [lia|].
        assert (c < cnext h)%nat by (apply Hh; eauto). lia.
    + exists (cnext h). split; [done|]. right. split; [done|]. cbn. split; [lia|]. by rewrite lookup_insert_eq.
Qed.

Lemma cloned_mono h1 h2 h3 h4 r r' :
  heap_ext h1 h2 → heap_ext h3 h4 → cloned h2 h3 r r' → cloned h1 h4 r r'.
Proof.
  intros H12 H34 (c&->&Hc). exists c. split; [done|]. destruct Hc as [Hc|(?&?&Hk)]; [by left|right].
  split; [done|]. pose proof (ext_next _ _ H12). pose proof (ext_next _ _ H34). split; [lia|].
  by eapply lookup_weaken, ext_cells.
Qed.

Lemma clone_all_spec h rs rs' h' :
  heap_ok h → clone_all h rs = (rs', h') → heap_ext h h' ∧ Forall2 (cloned h h') rs rs'.
Proof.
  revert h rs' h'. induction rs as [|r rs IH]; intros h rs' h' Hh; cbn [clone_all].
  { intros [= <- <-]. split; [by apply heap_ext_refl|constructor]. }
  destruct (copyPolicyRuleForPublication h r) as [r1 h1] eqn:E1.
  destruct (clone_all h1 rs) as [rs2 h2] eqn:E2. intros [= <- <-].
  apply clone_spec in E1 as [H1 Hr1]; [|done]. apply IH in E2 as [H2 Hr2]; [|apply H1].
  split; [by eapply heap_ext_trans|]. constructor.
  - eapply cloned_mono; [by apply heap_ext_refl|done|done].
  - eapply Forall2_impl; [done|]. intros. eapply cloned_mono; [done|by apply heap_ext_refl, H2|done].
Qed.

(** Distinct rules own distinct cells, before publication and after. *)
Definition cells_ok (h : CounterHeap) (rs : list PolicyRule) : Prop :=
  Forall (allocated h) (omap counters rs) ∧ NoDup (omap counters rs).

Lemma clone_all_owned h rs rs' h' :
  heap_ok h → cells_ok h rs → clone_all h rs = (rs', h') →
  Forall (λ r, ∃ c, counters r = Some c ∧ allocated h' c) rs' ∧ NoDup (map counters rs').
Proof.
  intros Hh [Ha Hn]. revert h rs' h' Hh Ha. induction rs as [|r rs IH]; intros h rs' h' Hh Ha; cbn [clone_all].
  { intros [= <- <-]. split; [done|constructor]. }
  destruct (copyPolicyRuleForPublication h r) as [r1 h1] eqn:E1.
  destruct (clone_all h1 rs) as [rs2 h2] eqn:E2. intros [= <- <-].
  apply clone_spec in E1 as [H1 (c&->&Hc)]; [|done].
  assert (Forall (allocated h) (omap counters rs) ∧ NoDup (omap counters rs) ∧
          (counters r = Some c → allocated h c ∧ c ∉ omap counters rs)) as (Ha'&Hn'&Hr).
  { cbn in Ha, Hn. destruct (counters r) as [c'|]; [|done].
    apply Forall_cons in Ha as [??]. apply NoDup_cons in Hn as [??]. split_and!; [done|done|].
    intros [= ->]. done. }
  assert (allocated h1 c) as Hc1.
  { destruct Hc as [Hc|(_&_&Hk)]; [|by eexists]. by eapply heap_ext_allocated, Hr. }
  pose proof E2 as E2'. apply clone_all_spec in E2' as [H2 Hcl]; [|apply H1].
  destruct (IH Hn' h1 rs2 h2) as [IHa IHn]; [apply H1| |done|].
  { eapply Forall_impl; [exact Ha'|]. intros. by eapply heap_ext_allocated. }
  split; [constructor; [|done]; exists c; split; [done|by eapply heap_ext_allocated]|].
  cbn. constructor; [|done]. intros (r2&E&Hin)%list_elem_of_fmap.
  apply list_elem_of_lookup in Hin as [i Hi].
  destruct (Forall2_lookup_r _ _ _ _ _ Hcl Hi) as (r0&Hi0&c2&->&Hc2). cbn in E. injection E as <-.
  destruct Hc2 as [Hc2|(_&Hlt&_)].
  - assert (c ∈ omap counters rs) as Hin by (apply list_elem_of_omap; exists r0; split; [by eapply list_elem_of_lookup_2|done]).
    destruct Hc as [Hc|(_&Hge&_)]; [by apply Hr|].
    rewrite Forall_forall in Ha'. destruct (Ha' c Hin) as [k Hk].
    assert (c < cnext h)%nat by (apply Hh; eauto). lia.
  - destruct Hc1 as [k Hk]. assert (c < cnext h1)%nat by (eapply ext_ok; eauto). lia.
Qed.

Lemma precompute_predicate_nets p : (precompute_predicate p) <| nets := [] |> = p <| nets := [] |>.
Proof. unfold precompute_predicate. cbn. destruct (negb _ || _); [done|]. by destruct (existsb _ _). Qed.

Lemma clear_nets_idem (sm : option SubjectMatch) : clear_nets <$> (clear_nets <$> sm) = clear_nets <$> sm.
Proof. destruct sm as [sm|]; [|done]. unfold clear_nets. cbn. by rewrite map_map. Qed.
Lemma clear_nets_precompute sm : clear_nets <$> precomputeSubjectNets sm = clear_nets <$> sm.
Proof.
  destruct sm as [sm|]; [|done]. unfold clear_nets. cbn. rewrite map_map.
  by rewrite (map_ext _ _ precompute_predicate_nets).
Qed.

Lemma content_Priority r r' : content r' = content r → Priority r' = Priority r.
Proof. intros E. exact (f_equal Priority E). Qed.
Lemma content_ID r r' : content r' = content r → ID r' = ID r.
Proof. intros E. exact (f_equal ID E). Qed.
Lemma content_detached r c : content (detached r c) = content r.
Proof. destruct r. cbv -[clear_nets fmap option_fmap]. by rewrite clear_nets_idem. Qed.
Lemma content_precompute `{Unicode, Idna} r : content (precompute_rule r) = content r.
Proof. destruct r. cbv -[clear_nets fmap option_fmap precomputeSubjectNets ContainsByte ParseCIDR NormalizeHost prefixFromIPNet buildMatchedConditions String.eqb]. by rewrite clear_nets_precompute. Qed.

Section publication.
Context `{Unicode, Idna, TimeData, SortSlice, RuleIDs}.

Definition sorted_rules (rs : list PolicyRule) : Prop := StronglySorted (λ a b, Priority a ≤ Priority b) rs.

(** A published rule: coherent precomputed forms and an allocated cell. *)
Record published (h : CounterHeap) (r : PolicyRule) : Prop := {
  pub_pre : precompute_ok r;
  pub_nets : subject_nets_ok r;
  pub_conds : matchedConds r = buildMatchedConditions r;
  pub_cell : ∃ c, counters r = Some c ∧ allocated h c;
}.

(** The invariant of the store. *)
Record store_ok (s : PolicyStore) : Prop := {
  so_sorted : sorted_rules (ps_rules s);
  so_valid : Forall (λ r, validRuleID (ID r) = true) (ps_rules s);
  so_ids : NoDup (map ID (ps_rules s));
  so_published : Forall (published (ps_heap s)) (ps_rules s);
  so_owned : NoDup (map counters (ps_rules s));
  so_heap : heap_ok (ps_heap s);
}.

(** What a slice must satisfy before it is sorted and published. *)
Record draft_ok (s : PolicyStore) : Prop := {
  dr_valid : Forall (λ r, validRuleID (ID r) = true) (ps_rules s);
  dr_ids : NoDup (map ID (ps_rules s));
  dr_cells : cells_ok (ps_heap s) (ps_rules s);
  dr_heap : heap_ok (ps_heap s);
}.

Lemma omap_counters h rs :
  Forall (λ r, ∃ c, counters r = Some c ∧ allocated h c) rs → map counters rs = map Some (omap counters rs).
Proof. induction 1 as [|r rs (c&Hc&_) _ IH]; [done|]. cbn. rewrite Hc. cbn. by rewrite IH. Qed.

Lemma store_ok_draft s : store_ok s → draft_ok s.
Proof.
  intros [_ ? ? Hp Ho ?].
  assert (Forall (λ r, ∃ c, counters r = Some c ∧ allocated (ps_heap s) c) (ps_rules s)) as Hc
    by (eapply Forall_impl; [exact Hp|]; intros r Hr; apply Hr).
  constructor; [done|done| |done]. split.
  - apply Forall_forall. intros c (r&Hin&Hr)%list_elem_of_omap. rewrite Forall_forall in Hc.
    destruct (Hc r Hin) as (c'&?&?). congruence.
  - rewrite (omap_counters _ _ Hc) in Ho. by eapply NoDup_fmap_1.
Qed.

Lemma by_priority_weak : StrictWeak by_priority.
Proof. constructor; unfold by_priority; intros; bprop; [apply Z.ltb_ge|apply Z.ltb_ge]; lia. Qed.

(** Publication establishes the invariant, keeps every definition and every cell. *)
Lemma sortLocked_spec s (s' := sortLocked s) :
  draft_ok s →
  store_ok s' ∧ heap_ext (ps_heap s) (ps_heap s') ∧
  ps_path s' = ps_path s ∧ ps_version s' = ps_version s ∧ ps_updatedAt s' = ps_updatedAt s ∧ ps_draws s' = ps_draws s ∧
  ∃ l, ps_rules s' ≡ₚ l ∧
    Forall2 (λ r r', content r' = content r ∧ ∃ r0, cloned (ps_heap s) (ps_heap s') r r0 ∧ r' = precompute_rule r0)
      (ps_rules s) l.
Proof.
  intros [Hv Hi Hc Hh]. subst s'. unfold sortLocked. destruct (clone_all _ _) as [next h] eqn:E. cbn.
  destruct (clone_all_spec _ _ _ _ Hh E) as [Hext Hcl]. destruct (clone_all_owned _ _ _ _ Hh Hc E) as [Ha Ho].
  pose proof (sort_slice_perm by_priority next) as Hp. pose proof (sort_slice_sorted by_priority next by_priority_weak) as Hs.
  assert (map ID next = map ID (ps_rules s)) as Hid.
  { clear -Hcl. induction Hcl as [|r r' rs rs' (c&->&_) _ IH]; [done|]. cbn. by rewrite IH. }
  split; [|split; [done|]; split_and!; try done].
  - constructor; cbn.
    + clear -Hs. unfold sorted_rules. induction Hs as [|r rs _ IH Hr]; cbn; [constructor|]. constructor; [done|]. apply Forall_map. eapply Forall_impl; [exact Hr|].
      unfold by_priority. cbn. intros. bprop. lia.
    + apply Forall_map. rewrite Hp. apply (Forall_map ID (λ i, validRuleID i = true)). rewrite Hid. by apply Forall_map.
    + rewrite map_map. change (NoDup (map ID (sort_slice by_priority next))). by rewrite Hp, Hid.
    + apply Forall_map. rewrite Hp. eapply Forall_impl; [exact Ha|]. intros r Hr. unfold compose.
      constructor; [apply precompute_rule_ok|apply precompute_rule_nets|done|done].
    + rewrite map_map. change (NoDup (map counters (sort_slice by_priority next))). by rewrite Hp.
    + apply Hext.
  - exists (map precompute_rule next). split; [by rewrite Hp|]. clear -Hcl.
    induction Hcl as [|r r' rs rs' Hr _ IH]; cbn; constructor; [|done]. rewrite content_precompute.
    split; [|by eauto]. destruct Hr as (c&->&_). apply content_detached.
Qed.
End publication.

(** ** Fresh identifiers *)

Section fresh.
Context `{RuleIDs}.

Lemma fresh_from_seen fuel seen n :
  (fresh_from fuel seen n).1 ∈ seen → ∀ i, (n ≤ i ≤ n + fuel)%nat → newRuleID i ∈ seen.
Proof.
  revert n. induction fuel as [|fuel IH]; intros n; cbn [fresh_from].
  - intros Hin i Hi. by replace i with n by lia.
  - case_bool_decide; [|done]. intros Hin i Hi. destruct (decide (i = n)) as [->|]; [done|].
    apply (IH (S n)); [done|lia].
Qed.
Lemma fresh_from_valid fuel seen n : validRuleID (fresh_from fuel seen n).1 = true.
Proof.
  revert n. induction fuel as [|fuel IH]; intros n; cbn [fresh_from]; [apply newRuleID_valid|].
  case_bool_decide; [apply IH|apply newRuleID_valid].
Qed.

(** The retry loop ends with an identifier not in use: by pigeonhole, one of the
    [S (size seen)] distinct draws is new. *)
Lemma freshRuleID_spec seen n :
  (freshRuleID seen n).1 ∉ seen ∧ validRuleID (freshRuleID seen n).1 = true.
Proof.
  split; [|apply fresh_from_valid]. intros Hin. pose proof (fresh_from_seen _ _ _ Hin) as Hall.
  assert (list_to_set (map newRuleID (seq n (S (size seen)))) ⊆ seen) as Hsub.
  { intros x Hx. apply elem_of_list_to_set in Hx. apply list_elem_of_fmap in Hx as (i&->&Hi).
    apply Hall. apply elem_of_seq in Hi. lia. }
  apply subseteq_size in Hsub. rewrite size_list_to_set in Hsub.
  - rewrite length_map, length_seq in Hsub. lia.
  - apply NoDup_fmap_2; [intros ??; apply newRuleID_unique|apply NoDup_seq].
Qed.
End fresh.

(** ** Slices the operations publish *)

Section drafts.
Context `{Unicode, Idna, TimeData, SortSlice, RuleIDs}.

Lemma store_ok_eq s s' : ps_rules s' = ps_rules s → ps_heap s' = ps_heap s → store_ok s → store_ok s'.
Proof. intros Hr Hh [? ? ? ? ? ?]. constructor; by rewrite ?Hr, ?Hh. Qed.

Lemma publish_ok now rs s : draft_ok (s <| ps_rules := rs |>) → store_ok (publish now rs s).
Proof. intros Hd. eapply store_ok_eq; [..|apply (sortLocked_spec _ Hd)]; done. Qed.

Lemma omap_map_counters rs rs' : map counters rs' = map counters rs → omap counters rs' = omap counters rs.
Proof.
  revert rs'. induction rs as [|r rs IH]; intros [|r' rs']; try done. cbn. intros [= Hc Hr]. rewrite Hc.
  by destruct (counters r); rewrite (IH _ Hr).
Qed.

(** Rewriting definitions in place keeps identities and cells. *)
Lemma draft_same s rs :
  store_ok s → map ID rs = map ID (ps_rules s) → map counters rs = map counters (ps_rules s) →
  draft_ok (s <| ps_rules := rs |>).
Proof.
  intros [Hv Hi Hc Hh]%store_ok_draft Hid Hcs. constructor; cbn; [|by rewrite Hid| |done].
  - apply (Forall_map ID (λ i, validRuleID i = true)). rewrite Hid. by apply Forall_map.
  - unfold cells_ok. by rewrite (omap_map_counters _ _ Hcs).
Qed.

Lemma update_first_map {A B} (g : A → B) p f l l' :
  (∀ x, p x = true → g (f x) = g x) → update_first p f l = Some l' → map g l' = map g l.
Proof.
  intros Hg (pre&x&post&->&->&Hx&_)%update_first_spec. rewrite !map_app. cbn. by rewrite Hg.
Qed.

Lemma map_default_map {A B} (g : A → B) (f : A → option A) l :
  (∀ x y, f x = Some y → g y = g x) → map g (map (λ x, default x (f x)) l) = map g l.
Proof.
  intros Hg. rewrite map_map. apply map_ext. intros x. destruct (f x) eqn:E; cbn; [by apply Hg|done].
Qed.

Lemma rewrite_rules_ok now f s :
  store_ok s → (∀ r r', f r = Some r' → ID r' = ID r ∧ counters r' = counters r) → store_ok (rewrite_rules now f s).2.
Proof.
  intros Hok Hf. unfold rewrite_rules. case_if; cbn; [|done]. apply publish_ok, draft_same; [done|..];
    apply map_default_map; intros x y Hy; by apply Hf.
Qed.
Lemma renamed_some id o n gi gn set r r' : renamed id o n gi gn set r = Some r' → r' = set r.
Proof. unfold renamed. destruct (negb _ && negb _); [done|]. by intros [= <-]. Qed.

Lemma refreshed_same g d f rule :
  let nr := (refreshedObjectRefNames g d f rule).1 in
  ID nr = ID rule ∧ counters nr = counters rule ∧ Priority nr = Priority rule.
Proof.
  unfold refreshedObjectRefNames. cbn [fst]. destruct (fresher _ _ _), (fresher _ _ _), (fresher _ _ _); done.
Qed.

Lemma set_priority_map {B} (g : PolicyRule → B) rs i p :
  (∀ r, g (r <| Priority := p |>) = g r) → map g (set_priority rs i p) = map g rs.
Proof.
  intros Hg. unfold set_priority. revert i. induction rs as [|r rs IH]; intros [|i]; cbn; [done|done|by rewrite Hg|].
  f_equal. apply IH.
Qed.

Lemma reorder_loop_map {B} (g : PolicyRule → B) m ordered k rs rs' :
  (∀ r p, g (r <| Priority := p |>) = g r) → reorder_loop m ordered k rs = Some rs' → map g rs' = map g rs.
Proof.
  intros Hg. revert k rs. induction ordered as [|o ordered IH]; intros k rs; cbn [reorder_loop]; [by intros [= ->]|].
  destruct (m !! o); [|done]. intros ->%IH. by apply set_priority_map.
Qed.
Lemma permute_loop_map {B} (g : PolicyRule → B) m assign rs :
  (∀ r p, g (r <| Priority := p |>) = g r) → map g (permute_loop m assign rs) = map g rs.
Proof.
  intros Hg. revert rs. induction assign as [|[o p] assign IH]; intros rs; cbn [permute_loop]; [done|].
  rewrite IH. destruct (m !! o); [by apply set_priority_map|done].
Qed.

Lemma remove_first_ok now p rs s :
  store_ok s → remove_first p (ps_rules s) = Some rs → store_ok (bumpVersion now (s <| ps_rules := rs |>)).
Proof.
  intros [Hs Hv Hi Hp Ho Hh] (pre&x&post&Hl&->&_)%remove_first_spec. rewrite Hl in *.
  rewrite map_app in *. cbn in *. constructor; cbn; rewrite ?map_app.
  - apply StronglySorted_app in Hs as (Hab&Ha&Hb). unfold sorted_rules. apply StronglySorted_app.
    inversion_clear Hb. split_and!; [|done|done]. intros a b Ha' Hb'. apply Hab; [done|by right].
  - decompose_Forall_hyps. by apply Forall_app.
  - apply NoDup_app in Hi as (?&Hd&?%NoDup_cons). apply NoDup_app. split; [done|]. split; [set_solver|tauto].
  - decompose_Forall_hyps. by apply Forall_app.
  - apply NoDup_app in Ho as (?&Hd&?%NoDup_cons). apply NoDup_app. split; [done|]. split; [set_solver|tauto].
  - done.
Qed.
End drafts.

Section bulk.
Context `{Unicode, Idna, TimeData, SortSlice, RuleIDs}.

(** Identifiers that are valid, pairwise different and outside [seen]. *)
Definition ids_ok (seen : gset string) (rs : list PolicyRule) : Prop :=
  Forall (λ r, validRuleID (ID r) = true ∧ ID r ∉ seen) rs ∧ NoDup (map ID rs).

Lemma ids_ok_cons seen r rs :
  validRuleID (ID r) = true → ID r ∉ seen → ids_ok ({[ID r]} ∪ seen) rs → ids_ok seen (r :: rs).
Proof.
  intros Hv Hn [Ha Hd]. split.
  - constructor; [done|]. eapply Forall_impl; [exact Ha|]. intros r' [? ?]. split; [done|set_solver].
  - cbn. constructor; [|done]. intros (r'&E&Hin)%list_elem_of_fmap. rewrite Forall_forall in Ha.
    destruct (Ha r' Hin) as [_ Hr']. set_solver.
Qed.

(** What [ReplaceAll] installs: the persistable rules in order, up to identifiers. *)
Lemma replace_loop_spec now rs seen n out n' :
  replace_loop now rs seen n = (out, n') →
  ids_ok seen out ∧ Forall (λ r, counters r = None) out ∧
  Forall2 (λ r r', r' = (kept_rule r) <| ID := ID r' |>)
    (List.filter (λ r, bool_decide (policyRulePersistable now (Some r) = None)) rs) out.
Proof.
  revert seen n out n'. induction rs as [|r rs IH]; intros seen n out n'; cbn [replace_loop].
  { intros [= <- <-]. split; [split; constructor|]. split; constructor. }
  cbn [List.filter]. destruct (policyRulePersistable now (Some r)) as [e|].
  - rewrite bool_decide_true, bool_decide_false by (done || eauto). apply IH.
  - rewrite (bool_decide_false (is_Some None)) by (by intros []). rewrite (bool_decide_true (None = None)) by done.
    assert (∃ id n1, (if negb (validRuleID (ID (kept_rule r))) || bool_decide (ID (kept_rule r) ∈ seen)
                      then freshRuleID seen n else (ID (kept_rule r), n)) = (id, n1) ∧
                     validRuleID id = true ∧ id ∉ seen) as (id&n1&->&Hv&Hn).
    { destruct (negb _ || _) eqn:E; [|bprop; rewrite bool_decide_eq_false in *; by eexists _, _].
      destruct (freshRuleID_spec seen n). destruct (freshRuleID seen n) as [id n1]. by exists id, n1. }
    destruct (replace_loop _ _ _ _) as [out1 n2] eqn:E1. intros [= <- <-]. apply IH in E1 as (Hids&Hc&HF).
    split; [by apply ids_ok_cons|]. split; constructor; [|done|done|done].
    unfold kept_rule, auto_filter. by destruct (_ && _).
Qed.

Lemma omap_none rs : Forall (λ r, counters r = None) rs → omap counters rs = [].
Proof. induction 1 as [|r rs Hr _ IH]; [done|]. cbn. by rewrite Hr. Qed.

Lemma bulk_draft s out :
  heap_ok (ps_heap s) → ids_ok ∅ out → cells_ok (ps_heap s) out → draft_ok (s <| ps_rules := out |>).
Proof.
  intros Hh [Ha Hd] Hc. constructor; cbn; [|done|done|done]. eapply Forall_impl; [exact Ha|]. by intros ? [? _].
Qed.

Lemma ReplaceAll_ok now rs s : heap_ok (ps_heap s) → store_ok (ReplaceAll now rs s).
Proof.
  intros Hh. unfold ReplaceAll. destruct (replace_loop _ _ _ _) as [out n] eqn:E.
  apply replace_loop_spec in E as (Hi&Hc&_). apply publish_ok.
  apply (bulk_draft (s <| ps_draws := n |>)); [done|done|]. cbn. unfold cells_ok. rewrite omap_none by done.
  split; constructor.
Qed.

Lemma backfill_spec h rs seen n out k h' n' :
  heap_ok h → Forall (λ r, counters r = None) rs → backfill_loop h rs seen n = (out, k, h', n') →
  ids_ok seen out ∧ heap_ext h h' ∧
  Forall (λ c, (cnext h ≤ c)%nat ∧ allocated h' c) (omap counters out) ∧ NoDup (omap counters out).
Proof.
  intros Hh Hc. revert h seen n out k h' n' Hh.
  induction Hc as [|r rs Hr _ IH]; intros h seen n out k h' n' Hh; cbn [backfill_loop].
  { intros [= <- <- <- <-]. split; [split; constructor|]. split; [by apply heap_ext_refl|]. split; constructor. }
  destruct (negb (validRuleID (ID r)) || bool_decide (ID r ∈ seen)) eqn:Ebad.
  - destruct (copyPolicyRuleForPublication h r) as [nr h1] eqn:E1. apply clone_spec in E1 as [Hx1 (c&->&Hcl)]; [|done].
    destruct Hcl as [Hcl|(_&Hlt&Hk)]; [congruence|].
    destruct (freshRuleID_spec seen n) as [Hf1 Hf2]. destruct (freshRuleID seen n) as [id n1]. cbn in Hf1, Hf2.
    destruct (backfill_loop h1 rs _ n1) as [[[out1 k1] h2] n2] eqn:E2. intros [= <- <- <- <-].
    apply IH in E2 as (Hi&Hx2&Ha&Hn); [|apply Hx1].
    split; [by apply ids_ok_cons|]. split; [by eapply heap_ext_trans|]. cbn. split.
    + constructor; [split; [lia|eapply heap_ext_allocated; [done|by eexists]]|].
      eapply Forall_impl; [exact Ha|]. intros c' [? ?]. pose proof (ext_next _ _ Hx1). split; [lia|done].
    + constructor; [|done]. intros Hin. rewrite Forall_forall in Ha. destruct (Ha c Hin) as [Hge _].
      assert (c < cnext h1)%nat by (eapply ext_ok; eauto). lia.
  - destruct (backfill_loop h rs _ n) as [[[out1 k1] h2] n2] eqn:E2. intros [= <- <- <- <-].
    apply IH in E2 as (Hi&Hx2&Ha&Hn); [|done]. bprop. rewrite bool_decide_eq_false in *.
    split; [by apply ids_ok_cons|]. split; [done|]. cbn. rewrite Hr. done.
Qed.

Lemma previous_counters_spec rs i c :
  previous_counters rs !! i = Some c → ∃ r, r ∈ rs ∧ ID r = i ∧ counters r = Some c.
Proof.
  unfold previous_counters. assert (∀ m : gmap string loc,
    fold_left (λ m r, match counters r with
      | Some c => if validRuleID (ID r) then <[ID r := c]> m else m | None => m end) rs m !! i = Some c →
    m !! i = Some c ∨ ∃ r, r ∈ rs ∧ ID r = i ∧ counters r = Some c) as Hg.
  { induction rs as [|r rs IH]; intros m; cbn [fold_left]; [by left|]. intros [Hm|(r'&?&?&?)]%IH.
    - destruct (counters r) as [c'|] eqn:Ec; [|by left]. destruct (validRuleID (ID r)); [|by left].
      apply lookup_insert_Some in Hm as [[<- <-]|[_ Hm]]; [|by left]. right. exists r. set_solver.
    - right. exists r'. set_solver. }
  intros [Hm|?]%Hg; [by rewrite lookup_empty in Hm|done].
Qed.

Lemma relink_ID previous r : ID (relink previous r) = ID r.
Proof. unfold relink. by destruct (previous !! ID r). Qed.

(** Re-linking reloaded rules to the cells of their previous revisions keeps cells owned. *)
Lemma relink_cells h h' previous out :
  heap_ok h → heap_ext h h' →
  (∀ i c, previous !! i = Some c → allocated h c) →
  (∀ i j c, previous !! i = Some c → previous !! j = Some c → i = j) →
  NoDup (map ID out) → Forall (λ c, (cnext h ≤ c)%nat ∧ allocated h' c) (omap counters out) → NoDup (omap counters out) →
  cells_ok h' (map (relink previous) out).
Proof.
  intros Hh Hext Hp Hinj Hid Hf Hn.
  assert (∀ c, c ∈ omap counters (map (relink previous) out) →
    (∃ r, r ∈ out ∧ previous !! ID r = Some c) ∨ c ∈ omap counters out) as Hin.
  { intros c (r'&(r&->&Hr)%list_elem_of_fmap&Hc)%list_elem_of_omap. unfold relink in Hc.
    destruct (previous !! ID r) as [c'|] eqn:E; [cbn in Hc; left; exists r; by simplify_eq|].
    right. apply list_elem_of_omap. eauto. }
  split.
  - apply Forall_forall. intros c [(r&_&Hr)|Hc]%Hin.
    + eapply heap_ext_allocated; [done|by eapply Hp].
    + rewrite Forall_forall in Hf. by apply Hf.
  - clear Hin. induction out as [|r out IH]; [constructor|]. cbn [map] in Hid |- *.
    apply NoDup_cons in Hid as [Hr Hid].
    assert (Forall (λ c, (cnext h ≤ c)%nat ∧ allocated h' c) (omap counters out) ∧ NoDup (omap counters out)) as [Hf' Hn'].
    { cbn in Hf, Hn. destruct (counters r); [|done]. apply Forall_cons in Hf as [_ ?]. by apply NoDup_cons in Hn as [_ ?]. }
    specialize (IH Hid Hf' Hn'). cbn. destruct (counters (relink previous r)) as [c|] eqn:Ec; [|done].
    constructor; [|done]. intros (r'&(r2&->&Hr2)%list_elem_of_fmap&Hc)%list_elem_of_omap.
    unfold relink in Ec, Hc.
    destruct (previous !! ID r) as [c1|] eqn:E1, (previous !! ID r2) as [c2|] eqn:E2; cbn in Ec, Hc.
    + simplify_eq. apply Hr. rewrite (Hinj _ _ _ E1 E2). by apply list_elem_of_fmap_2.
    + simplify_eq. assert (c ∈ omap counters out) as Hin by (apply list_elem_of_omap; eauto).
      rewrite Forall_forall in Hf'. destruct (Hf' c Hin) as [? _]. pose proof (Hh c (Hp _ _ E1)). lia.
    + simplify_eq. cbn in Hf. rewrite Ec in Hf. apply Forall_cons in Hf as [[? _] _]. pose proof (Hh c (Hp _ _ E2)). lia.
    + cbn in Hn. rewrite Ec in Hn. apply NoDup_cons in Hn as [Hn _]. apply Hn, list_elem_of_omap. eauto.
Qed.
End bulk.

(** ** Runs *)

Section runs.
Context `{Unicode, Idna, TimeData, SortSlice, RuleIDs}.

(** The operations of the store.  [OpHit] is the accounting of an evaluation that may have
    started on an older revision; [OpLoad] sees an arbitrary disk. *)
Inductive Op :=
  | OpReplaceAll (rs : list PolicyRule)
  | OpAdd (r : PolicyRule)
  | OpUpdate (priority : Z) (r : PolicyRule)
  | OpUpdateByID (id : string) (r : PolicyRule)
  | OpDelete (priority : Z)
  | OpDeleteByID (id : string)
  | OpRenameDecryption (id oldName newName : string)
  | OpRenameGroup (id oldName newName : string)
  | OpRenameFile (id oldName newName : string)
  | OpRefresh (g d f : gmap string string)
  | OpReorder (ordered : list Z)
  | OpPermute (ordered : list Z)
  | OpHit (c : loc)
  | OpSeed (v : Z) (updatedAt : string)
  | OpEnsureAbove (floor : Z)
  | OpRestore (byID loadedByName : gmap string (Z * Z))
  | OpLoad (okRules okMeta : bool) (path : string) (d : Disk).

Definition apply_op (now : Instant) (op : Op) (s : PolicyStore) : PolicyStore :=
  match op with
  | OpReplaceAll rs => ReplaceAll now rs s
  | OpAdd r => (Add now r s).2
  | OpUpdate p r => (Update now p r s).2
  | OpUpdateByID id r => (UpdateByID now id r s).2
  | OpDelete p => (Delete now p s).2
  | OpDeleteByID id => (DeleteByID now id s).2
  | OpRenameDecryption id o n => (CascadeDecryptionProfileRename now id o n s).2
  | OpRenameGroup id o n => (CascadeDestCategoryGroupRename now id o n s).2
  | OpRenameFile id o n => (CascadeFileProfileRename now id o n s).2
  | OpRefresh g d f => (RefreshObjectRefNames now g d f s).2
  | OpReorder l => (Reorder now l s).2
  | OpPermute l => (PermutePriorities now l s).2
  | OpHit c => s <| ps_heap := account_hit now c (ps_heap s) |>
  | OpSeed v u => seedVersion v u s
  | OpEnsureAbove f => ensureVersionAbove now f s
  | OpRestore b l => RestoreHitCounts b l s
  | OpLoad r m path d => (Load now r m path s d).1.2
  end.

(** Changing the value of a cell keeps the invariant. *)
Lemma store_ok_cells s f c :
  store_ok s → store_ok (s <| ps_heap := (ps_heap s) <| ccells := alter f c (ccells (ps_heap s)) |> |>).
Proof.
  intros [? ? ? Hp ? Hh].
  assert (∀ c', allocated ((ps_heap s) <| ccells := alter f c (ccells (ps_heap s)) |>) c' ↔ allocated (ps_heap s) c') as Ha.
  { intros c'. unfold allocated. cbn. destruct (decide (c' = c)) as [->|].
    - rewrite lookup_alter_eq. by destruct (ccells (ps_heap s) !! c).
    - by rewrite lookup_alter_ne. }
  constructor; cbn; [done|done|done| |done|].
  - eapply Forall_impl; [exact Hp|]. intros r [? ? ? (c'&?&?)]. constructor; [done|done|done|]. exists c'. by rewrite Ha.
  - intros c' Hc'. apply Hh, Ha, Hc'.
Qed.

(** What Add publishes: the slice with the new rule last. *)
Lemma Add_shape now r s :
  store_ok s →
  ∃ id n, let nr := new_rule r id (availablePriorityLocked (Priority r) (ps_rules s)) in
    Add now r s = (nr, publish now (ps_rules s ++ [nr]) (s <| ps_draws := n |>)) ∧
    (validRuleID (ID r) = true → ID r ∉ map ID (ps_rules s) → id = ID r) ∧
    draft_ok ((s <| ps_draws := n |>) <| ps_rules := (ps_rules s ++ [nr])%list |>).
Proof.
  intros Hok. unfold Add. set (seen := list_to_set _ : gset string).
  assert (∃ id n, (if negb (validRuleID (ID r)) then freshRuleID seen (ps_draws s)
                   else if bool_decide (ID r ∈ seen) then freshRuleID seen (ps_draws s) else (ID r, ps_draws s)) = (id, n) ∧
                  validRuleID id = true ∧ id ∉ seen ∧ (validRuleID (ID r) = true → ID r ∉ seen → id = ID r))
    as (id&n&->&Hv&Hn&Hkeep).
  { destruct (freshRuleID_spec seen (ps_draws s)). destruct (freshRuleID seen (ps_draws s)) as [id n].
    destruct (validRuleID (ID r)) eqn:?; cbn; [|by exists id, n]. case_bool_decide; by eexists _, _. }
  exists id, n. set (nr := new_rule r id _). destruct (new_rule_fields r id (availablePriorityLocked (Priority r) (ps_rules s)))
    as (Hi&_&Hc&_). fold nr in Hi, Hc. clearbody nr. split; [done|]. split.
  - intros ? Hnin. apply Hkeep; [done|]. subst seen. by rewrite elem_of_list_to_set.
  - destruct (store_ok_draft _ Hok) as [Hdv Hdi [Hda Hdn] Hdh]. constructor; cbn.
    + apply Forall_app. split; [done|]. constructor; [by rewrite Hi|done].
    + rewrite map_app. apply NoDup_app. split; [done|]. split; [|cbn; apply NoDup_singleton].
      intros x Hx Hx'. apply list_elem_of_singleton in Hx' as ->. apply Hn. subst seen. rewrite <- Hi.
      by apply elem_of_list_to_set.
    + unfold cells_ok. rewrite omap_app. cbn. rewrite Hc. cbn. by rewrite app_nil_r.
    + done.
Qed.

Lemma Add_ok now r s : store_ok s → store_ok (Add now r s).2.
Proof. intros (id&n&->&_&Hd)%(Add_shape now r). by apply publish_ok. Qed.

Lemma keep_persistable_none now rs : Forall (λ r, counters r = None) (keep_persistable now (map (fmap json_rule) rs)).
Proof.
  induction rs as [|[r|] rs IH]; cbn; [constructor| |done]. destruct (bool_decide _); [done|]. by constructor.
Qed.

Lemma previous_ok s :
  store_ok s →
  (∀ i c, previous_counters (ps_rules s) !! i = Some c → allocated (ps_heap s) c) ∧
  (∀ i j c, previous_counters (ps_rules s) !! i = Some c → previous_counters (ps_rules s) !! j = Some c → i = j).
Proof.
  intros Hok. split.
  - intros i c (r&Hr&_&Hc)%previous_counters_spec. pose proof (so_published _ Hok) as Hp. rewrite Forall_forall in Hp.
    destruct (pub_cell _ _ (Hp r Hr)) as (c'&?&?). congruence.
  - intros i j c (r1&Hr1&<-&Hc1)%previous_counters_spec (r2&Hr2&<-&Hc2)%previous_counters_spec. f_equal.
    apply list_elem_of_lookup in Hr1 as [k1 Hk1], Hr2 as [k2 Hk2].
    assert (k1 = k2) as ->; [|congruence]. eapply (NoDup_lookup (map counters (ps_rules s))); [apply Hok|..].
    + change (counters <$> ps_rules s) with (map counters (ps_rules s)). 
      rewrite list_lookup_fmap, Hk1. cbn. by rewrite Hc1.
    + rewrite list_lookup_fmap, Hk2. cbn. by rewrite Hc2.
Qed.

Lemma load_rules_draft now rs s : store_ok s → draft_ok (load_rules now rs s).2.
Proof.
  intros Hok. unfold load_rules, backfillIDsLocked. cbn [ps_rules ps_heap ps_draws].
  destruct (backfill_loop _ _ _ _) as [[[out k] h] n] eqn:E.
  pose proof (so_heap _ Hok) as Hh. destruct (previous_ok _ Hok) as [Hpa Hpi].
  apply backfill_spec in E as ((Hids&Hnd)&Hext&Ha&Hn); [|done|apply keep_persistable_none].
  constructor; cbn.
  - apply Forall_map. eapply Forall_impl; [exact Hids|]. unfold compose. intros r [? _]. by rewrite relink_ID.
  - rewrite map_map. erewrite map_ext; [exact Hnd|]. intros. apply relink_ID.
  - by eapply relink_cells.
  - apply Hext.
Qed.

Lemma loadMeta_frame d s : ps_rules (loadMeta d s) = ps_rules s ∧ ps_heap (loadMeta d s) = ps_heap s.
Proof.
  unfold loadMeta. destruct (_ =? _)%string; [done|]. destruct (disk_meta d !! _) as [[| |m]|]; try done.
  unfold seedVersion. by destruct (negb _).
Qed.

Lemma Load_ok now okR okM path s d : store_ok s → store_ok (Load now okR okM path s d).1.2.
Proof.
  intros Hok. unfold Load. assert (store_ok (s <| ps_path := path |>)) as Hok' by by apply (store_ok_eq s).
  destruct (disk_rules d !! path) as [[| |rs]|]; [done|done| |done].
  pose proof (load_rules_draft now rs _ Hok') as Hd. destruct (load_rules now rs _) as [k s1]. cbn [snd] in Hd.
  assert (store_ok (loadMeta d (sortLocked s1))) by (apply (store_ok_eq (sortLocked s1)); [apply loadMeta_frame..|by apply sortLocked_spec]).
  by destruct (0 <? k)%nat.
Qed.

Lemma restore_loop_spec b l h rs next h' :
  heap_ok h → cells_ok h rs → restore_loop b l h rs = (next, h') →
  map ID next = map ID rs ∧ heap_ok h' ∧ (cnext h ≤ cnext h')%nat ∧ (∀ c, allocated h c → allocated h' c) ∧
  Forall (λ r, ∃ c, counters r = Some c ∧ allocated h' c ∧ (c ∈ omap counters rs ∨ cnext h ≤ c)%nat) next ∧
  NoDup (map counters next).
Proof.
  intros Hh [Ha Hn]. revert h next h' Hh Ha. induction rs as [|r rs IH]; intros h next h' Hh Ha; cbn [restore_loop].
  { intros [= <- <-]. split_and!; try done. constructor. }
  destruct (copyPolicyRuleForPublication h r) as [r1 h1] eqn:E1.
  apply clone_spec in E1 as [Hx1 (c&->&Hc)]; [|done].
  set (h2 := restore_at _ _ h1).
  assert (heap_ok h2 ∧ cnext h2 = cnext h1 ∧ ∀ c, allocated h2 c ↔ allocated h1 c) as (Hh2&Hx2&Ha2).
  { subst h2. pose proof (ext_ok _ _ Hx1) as Hh1. generalize (match b !! ID r with Some rec => Some rec | None => l !! Name r end).
    intros [rec|]; [|done]. cbn [restore_at detached counters].
    assert (∀ c', allocated (h1 <| ccells := alter (restore_cell rec) c (ccells h1) |>) c' ↔ allocated h1 c') as Hal.
    { intros c'. unfold allocated. cbn. destruct (decide (c' = c)) as [->|].
      - rewrite lookup_alter_eq. by destruct (ccells h1 !! c).
      - by rewrite lookup_alter_ne. }
    split; [|done]. intros c' Hc'. apply Hh1. by apply Hal. }
  clearbody h2. destruct (restore_loop b l h2 rs) as [next2 h3] eqn:E2. intros [= <- <-].
  assert (Forall (allocated h) (omap counters rs) ∧ NoDup (omap counters rs) ∧
          (counters r = Some c → allocated h c ∧ c ∉ omap counters rs)) as (Ha'&Hn'&Hr).
  { cbn in Ha, Hn. destruct (counters r) as [c'|]; [|done].
    apply Forall_cons in Ha as [??]. apply NoDup_cons in Hn as [??]. split_and!; [done|done|].
    intros [= ->]. done. }
  destruct (IH Hn' h2 next2 h3) as (Hid&Hh3&Hx3&Ha3&Hc3&Hn3); [done| |done|].
  { eapply Forall_impl; [exact Ha'|]. intros. apply Ha2. by eapply heap_ext_allocated. }
  pose proof (ext_next _ _ Hx1). split_and!; [cbn; by rewrite Hid|done|lia| | |].
  - intros c' Hc'. apply Ha3, Ha2. by eapply heap_ext_allocated.
  - assert (allocated h1 c) as Hc1.
    { destruct Hc as [Hc|(_&_&Hk)]; [by eapply heap_ext_allocated, Hr|by eexists]. }
    constructor.
    + exists c. split; [done|]. split; [by apply Ha3, Ha2|]. cbn. destruct Hc as [Hc|(_&Hc&_)]; [|right; lia].
      left. rewrite Hc. by left.
    + eapply Forall_impl; [exact Hc3|]. intros r2 (c2&?&?&Hc2). exists c2. split; [done|]. split; [done|]. cbn.
      destruct Hc2 as [Hc2|Hc2]; [left|right; lia]. destruct (counters r); [by right|done].
  - cbn. constructor; [|done]. intros (r2&E&Hin)%list_elem_of_fmap. rewrite Forall_forall in Hc3.
    destruct (Hc3 r2 Hin) as (c2&E2'&_&Hc2). rewrite E2' in E. injection E as <-.
    destruct Hc as [Hc|(_&Hlt&Hk)].
    + destruct (Hr Hc) as [Hal Hnin]. destruct Hc2 as [?|Hge]; [done|].
      assert (c < cnext h)%nat by (by apply Hh). lia.
    + destruct Hc2 as [Hin2|Hge]; [|lia]. rewrite Forall_forall in Ha'. pose proof (Hh c (Ha' c Hin2)). lia.
Qed.

Lemma RestoreHitCounts_ok b l s : store_ok s → store_ok (RestoreHitCounts b l s).
Proof.
  intros Hok. destruct (store_ok_draft _ Hok) as [Hv Hi Hc Hh]. unfold RestoreHitCounts.
  destruct (restore_loop _ _ _ _) as [next h] eqn:E.
  apply restore_loop_spec in E as (Hid&Hh'&_&_&Ha&Hn); [|done|done]. apply sortLocked_spec. constructor; cbn.
  - apply (Forall_map ID (λ i, validRuleID i = true)). rewrite Hid. by apply Forall_map.
  - by rewrite Hid.
  - assert (Forall (λ r, ∃ c, counters r = Some c ∧ allocated h c) next) as Hc'
      by (eapply Forall_impl; [exact Ha|]; intros r (c&?&?&_); eauto).
    rewrite (omap_counters _ _ Hc') in Hn. split; [|by eapply NoDup_fmap_1].
    apply Forall_forall. intros c (r&Hin&Hr)%list_elem_of_omap. rewrite Forall_forall in Hc'.
    destruct (Hc' r Hin) as (c'&?&?). congruence.
  - done.
Qed.

Lemma apply_op_ok now op s : store_ok s → store_ok (apply_op now op s).
Proof.
  intros Hok. destruct op; cbn [apply_op].
  - apply ReplaceAll_ok, Hok.
  - by apply Add_ok.
  - unfold Update. destruct (update_first _ _ _) as [rs|] eqn:E; [|done].
    apply publish_ok, draft_same; [done|..]; eapply update_first_map; try exact E; done.
  - unfold UpdateByID. destruct (negb _); [done|]. destruct (update_first _ _ _) as [rs|] eqn:E; [|done].
    apply publish_ok, draft_same; [done|..]; eapply update_first_map; try exact E; [|done].
    cbn. intros x Hx. by apply String.eqb_eq in Hx.
  - unfold Delete. destruct (remove_first _ _) eqn:E; [|done]. by eapply remove_first_ok.
  - unfold DeleteByID. destruct (negb _); [done|]. destruct (remove_first _ _) eqn:E; [|done]. by eapply remove_first_ok.
  - unfold CascadeDecryptionProfileRename. destruct (_ =? _)%string; [done|]. apply rewrite_rules_ok; [done|].
    by intros r r' ->%renamed_some.
  - unfold CascadeDestCategoryGroupRename. destruct (_ =? _)%string; [done|]. apply rewrite_rules_ok; [done|].
    by intros r r' ->%renamed_some.
  - unfold CascadeFileProfileRename. destruct (_ =? _)%string; [done|]. apply rewrite_rules_ok; [done|].
    by intros r r' ->%renamed_some.
  - apply rewrite_rules_ok; [done|]. intros r r'. pose proof (refreshed_same g d f r) as Hs.
    destruct (refreshedObjectRefNames g d f r) as [nr []]; [|done]. intros [= <-]. cbn in Hs. tauto.
  - unfold Reorder. destruct (negb _); [done|]. destruct (reorder_loop _ _ _ _) eqn:E; [|done].
    apply publish_ok, draft_same; [done|..]; by eapply reorder_loop_map.
  - unfold PermutePriorities. destruct (bool_decide _); [done|]. destruct (negb _); [done|].
    destruct (listed_rules _ _ _ _) as [m|]; [|done]. destruct (negb _); [done|].
    apply publish_ok, draft_same; [done|..]; by apply permute_loop_map.
  - by apply store_ok_cells.
  - unfold seedVersion. destruct (negb _); by apply (store_ok_eq s).
  - unfold ensureVersionAbove. destruct (_ <=? _); [by apply (store_ok_eq s)|done].
  - by apply RestoreHitCounts_ok.
  - by apply Load_ok.
Qed.

Definition run_ops (ops : list (Instant * Op)) (s : PolicyStore) : PolicyStore :=
  fold_left (λ s '(now, op), apply_op now op s) ops s.

Lemma empty_store_ok : store_ok empty_store.
Proof. repeat constructor. intros c [k Hk]. cbn in Hk. by rewrite lookup_empty in Hk. Qed.

Lemma run_ops_ok ops s : store_ok s → store_ok (run_ops ops s).
Proof.
  revert s. induction ops as [|[now op] ops IH]; intros s Hs; [done|]. apply IH. by apply apply_op_ok.
Qed.

(** C10: the invariant of the rulebase.  After any sequence of operations on an empty store
    - bulk replacements, reloads of any file, edits by priority or identifier, deletions,
    renames, reorderings, hits, restored counts - the rules are sorted by priority, their
    identifiers are valid and pairwise different, every precomputed form is coherent with
    its definition, and every rule owns an allocated accounting cell no other rule uses. *)
Theorem store_reachable_ok (ops : list (Instant * Op)) : store_ok (run_ops ops empty_store).
Proof. apply run_ops_ok, empty_store_ok. Qed.

(** ** The version fence *)

(** The operations behind the optimistic fence: all but reload, count restoration and the
    version seams themselves. *)
Definition fenced (op : Op) : bool :=
  match op with OpSeed _ _ | OpEnsureAbove _ | OpRestore _ _ | OpLoad _ _ _ _ => false | _ => true end.

Lemma version_publish now rs s : ps_version (publish now rs s) = wrap64 (ps_version s + 1).
Proof. unfold publish, sortLocked. by destruct (clone_all _ _). Qed.

Lemma fenced_step now op s :
  fenced op = true →
  ps_rules (apply_op now op s) = ps_rules s ∧ ps_version (apply_op now op s) = ps_version s ∨
  ps_version (apply_op now op s) = wrap64 (ps_version s + 1).
Proof.
  intros Hf.
  assert (∀ f, ps_rules (rewrite_rules now f s).2 = ps_rules s ∧ ps_version (rewrite_rules now f s).2 = ps_version s ∨
               ps_version (rewrite_rules now f s).2 = wrap64 (ps_version s + 1)) as Hrw.
  { intros f. unfold rewrite_rules. case_if; [|by left]. right. apply version_publish. }
  destruct op; try done; cbn [apply_op].
  - right. unfold ReplaceAll. destruct (replace_loop _ _ _ _). by rewrite version_publish.
  - right. unfold Add. match goal with |- context [let '(_, _) := ?x in _] => destruct x end.
    cbn [snd]. by rewrite version_publish.
  - unfold Update. destruct (update_first _ _ _); [right; apply version_publish|by left].
  - unfold UpdateByID. destruct (negb _); [by left|]. destruct (update_first _ _ _); [right; apply version_publish|by left].
  - unfold Delete. destruct (remove_first _ _); [by right|by left].
  - unfold DeleteByID. destruct (negb _); [by left|]. destruct (remove_first _ _); [by right|by left].
  - unfold CascadeDecryptionProfileRename. destruct (_ =? _)%string; [by left|apply Hrw].
  - unfold CascadeDestCategoryGroupRename. destruct (_ =? _)%string; [by left|apply Hrw].
  - unfold CascadeFileProfileRename. destruct (_ =? _)%string; [by left|apply Hrw].
  - apply Hrw.
  - unfold Reorder. destruct (negb _); [by left|]. destruct (reorder_loop _ _ _ _); [right; apply version_publish|by left].
  - unfold PermutePriorities. destruct (bool_decide _); [by left|]. destruct (negb _); [by left|].
    destruct (listed_rules _ _ _ _); [|by left]. destruct (negb _); [by left|]. right. apply version_publish.
  - by left.
Qed.

Lemma fenced_run ops s :
  forallb (fenced ∘ snd) ops = true →
  ∃ k, 0 ≤ k ≤ Z.of_nat (length ops) ∧
    (k = 0 → ps_rules (run_ops ops s) = ps_rules s ∧ ps_version (run_ops ops s) = ps_version s) ∧
    (0 < k → ps_version (run_ops ops s) = wrap64 (ps_version s + k)).
Proof.
  revert s. induction ops as [|[now op] ops IH]; intros s Hf; [exists 0; split; [cbn; lia|]; by split; [|lia]|].
  cbn [forallb] in Hf. apply andb_true_iff in Hf as [Hop Hops]. change (fenced op = true) in Hop.
  destruct (IH (apply_op now op s) Hops) as (k&Hk&H0k&H1k). change (run_ops ((now, op) :: ops) s) with (run_ops ops (apply_op now op s)).
  cbn [length]. destruct (fenced_step now op s Hop) as [[Hr Hv]|Hv].
  - exists k. split; [lia|]. rewrite Hr, Hv in *. done.
  - exists (k + 1). split; [lia|]. split; [lia|]. intros _. destruct (decide (k = 0)) as [->|].
    + destruct (H0k eq_refl) as [_ ->]. by rewrite Hv.
    + rewrite H1k by lia. rewrite Hv. rewrite wrap64_add. f_equal. lia.
Qed.

(** The version fence is sound: if, after fewer than 2^64 operations, the version is
    what it was, then the published rules are exactly what they were - so a client whose
    token still matches edits the rulebase it read. *)
Theorem version_fence (ops : list (Instant * Op)) (s : PolicyStore)
    (Hops : forallb (fenced ∘ snd) ops = true) (Hlen : Z.of_nat (length ops) < 2 ^ 64)
    (Hrange : int64_min ≤ ps_version s ≤ int64_max)
    (Hv : ps_version (run_ops ops s) = ps_version s) :
  ps_rules (run_ops ops s) = ps_rules s.
Proof.
  destruct (fenced_run ops s Hops) as (k&Hk&H0k&H1k). destruct (decide (k = 0)) as [->|]; [by apply H0k|].
  exfalso. rewrite H1k in Hv by lia. apply wrap64_fixed in Hv; lia.
Qed.
End runs.

(** ** Concrete runs *)

Fixpoint unary_id (n : nat) : string := match n with O => "" | S n => String "x" (unary_id n) end.
Lemma unary_id_length n : String.length (unary_id n) = n.
Proof. induction n; cbn; congruence. Qed.
Definition test_ids : RuleIDs.
Proof.
  refine {| validRuleID s := (String.substring 0 3 s =? "id-")%string;
            newRuleID n := String "i" (String "d" (String "-" (unary_id n))) |}.
  - intros n. cbn. by destruct (unary_id n).
  - intros i j [= E]. by rewrite <- (unary_id_length i), <- (unary_id_length j), E.
Defined.

Definition test_allow : PolicyRule :=
  empty_rule <| Name := "web" |> <| Priority := 20 |> <| DestFQDN := "*.Example" |> <| Action := ActionAllow |>
    <| DestCategoryGroup := "Risky" |>.
Definition test_drop : PolicyRule :=
  empty_rule <| Name := "drop" |> <| Priority := 10 |> <| SourceIP := "10.9.0.0/16" |> <| Action := ActionDrop |>
    <| ID := "id-drop" |>.

Section test.
#[local] Instance test_U : Unicode := ascii_unicode.
#[local] Instance test_I : Idna := test_idna.
#[local] Instance test_T : TimeData := test_time.
#[local] Instance test_S : SortSlice := stable_sort.
#[local] Instance test_R : RuleIDs := test_ids.
#[local] Instance test_E : PolicyEnv := test_env.
#[local] Instance test_C : Clock := test_clock.

Definition test_ops : list (Instant * Op) := [(0, OpAdd test_allow); (0, OpAdd test_drop)].
Definition test_store : PolicyStore := (run_ops test_ops empty_store) <| ps_path := "/etc/policy.json" |>.
Lemma test_store_ok : store_ok test_store.
Proof.
  unfold test_store. pose proof (run_ops_ok test_ops empty_store empty_store_ok) as Hok. revert Hok.
  generalize (run_ops test_ops empty_store). intros s Hok. by apply (store_ok_eq s).
Qed.

Lemma version_fence_witness :
  let ops := [(0, OpUpdateByID "nope" test_drop); (0, OpHit 0); (0, OpDelete 77)] in
  ps_version (run_ops ops test_store) = 2 ∧ ps_rules (run_ops ops test_store) = ps_rules test_store.
Proof.
  intros ops. split; [vm_compute; reflexivity|].
  apply (version_fence ops test_store); [reflexivity|reflexivity|split; vm_compute; discriminate|vm_compute; reflexivity].
Defined.

End test.
