(* ===== verification/PolicyEdits.v ===== *)
(** * What the operations of the policy store do ([policy.go])

    - [add_rule], [update_by_id], [permute_priorities], [cascade_group_rename]: the
      mutators, on every branch.
    - [evaluate_first_match]: a decision and its accounting.
    - [hits_never_lost]: accounting across revisions, under any interleaving. *)

From S2P Require Import Prelude GoStrings GoNet HostUtil IPPrefix PolicyRule PolicyMatch AuthPolicy PolicyStore.

(** ** What the mutators do *)

(** A definition and its cell: what a revision consists of. *)
Definition key (r : PolicyRule) : PolicyRule * option loc := (content r, counters r).

Section mutators.
Context `{Unicode, Idna, TimeData, SortSlice, RuleIDs}.

(** What publication preserves, for any projection of the definition. *)
Lemma publish_map {B} (g : PolicyRule → B) now rs s :
  draft_ok (s <| ps_rules := rs |>) → (∀ r r', content r' = content r → g r' = g r) →
  map g (ps_rules (publish now rs s)) ≡ₚ map g rs.
Proof.
  intros Hd Hg. destruct (sortLocked_spec _ Hd) as (_&_&_&_&_&_&l&Hp&HF).
  change (ps_rules (publish now rs s)) with (ps_rules (sortLocked (s <| ps_rules := rs |>))).
  rewrite Hp. change (ps_rules (s <| ps_rules := rs |>)) with rs in HF. clear Hp Hd. assert (map g l = map g rs) as ->; [|done].
  induction HF as [|r r' rs' l' [Hc _] _ IH]; [done|]. cbn. by rewrite IH, (Hg r r').
Qed.

Lemma publish_keys now rs s :
  draft_ok (s <| ps_rules := rs |>) → Forall (λ r, is_Some (counters r)) rs →
  map key (ps_rules (publish now rs s)) ≡ₚ map key rs.
Proof.
  intros Hd Hs. destruct (sortLocked_spec _ Hd) as (_&_&_&_&_&_&l&Hp&HF).
  change (ps_rules (publish now rs s)) with (ps_rules (sortLocked (s <| ps_rules := rs |>))).
  rewrite Hp. change (ps_rules (s <| ps_rules := rs |>)) with rs in HF. clear Hp Hd. assert (map key l = map key rs) as ->; [|done].
  revert Hs. induction HF as [|r r' rs' l' (Hc&r0&(c&->&Hcl)&Hr') _ IH]; intros Hs; [done|].
  apply Forall_cons in Hs as [[c0 Hc0] Hs]. cbn [map]. rewrite IH by done. f_equal. unfold key. rewrite Hc.
  f_equal. subst r'. cbn. destruct Hcl as [->|(Hn&_)]; [done|congruence].
Qed.

Lemma max_priority_spec rs :
  0 ≤ max_priority rs ∧ Forall (λ r, Priority r ≤ max_priority rs) rs ∧
  (∀ b, 0 ≤ b → Forall (λ r, Priority r ≤ b) rs → max_priority rs ≤ b).
Proof.
  unfold max_priority. assert (∀ m, let m' := fold_left (λ m r, if m <? Priority r then Priority r else m) rs m in
    m ≤ m' ∧ Forall (λ r, Priority r ≤ m') rs ∧ ∀ b, m ≤ b → Forall (λ r, Priority r ≤ b) rs → m' ≤ b) as Hm; [|apply Hm].
  induction rs as [|r rs IH]; intros m; cbn [fold_left]; [by split_and!|].
  destruct (IH (if m <? Priority r then Priority r else m)) as (Hle&Hall&Hb).
  destruct (Z.ltb_spec m (Priority r)); (split; [lia|]); (split; [constructor; [lia|done]|]);
    intros b Hmb [? ?]%Forall_cons; apply Hb; (lia || done).
Qed.

Lemma available_spec requested rs :
  requested ≤ int64_max → Forall (λ r, Priority r < int64_max) rs →
  let p := availablePriorityLocked requested rs in
  0 < p ∧ p ∉ map Priority rs ∧ (0 < requested → requested ∉ map Priority rs → p = requested).
Proof.
  intros Hreq Hall p. destruct (max_priority_spec rs) as (Hm0&Hm&Hmb).
  assert (max_priority rs ≤ int64_max - 1) as Hmax.
  { apply Hmb; [unfold int64_max; lia|]. eapply Forall_impl; [exact Hall|]. cbn. lia. }
  assert (∀ q, existsb (λ r, Priority r =? q) rs = true ↔ q ∈ map Priority rs) as Hex.
  { intros q. rewrite existsb_exists, list_elem_of_fmap. setoid_rewrite list_elem_of_In. split.
    - intros (r&?&?%Z.eqb_eq). eauto.
    - intros (r&->&?). exists r. split; [done|apply Z.eqb_refl]. }
  subst p. unfold availablePriorityLocked. destruct (Z.leb_spec requested 0); cbn [orb].
  2: destruct (existsb _ rs) eqn:E.
  - rewrite wrap64_small by (unfold int64_min, int64_max in *; lia). split_and!; [lia| |lia].
    intros (r&E&Hr)%list_elem_of_fmap. rewrite Forall_forall in Hm. specialize (Hm r Hr). lia.
  - rewrite wrap64_small by (unfold int64_min, int64_max in *; lia). split_and!; [lia| |].
    + intros (r&Er&Hr)%list_elem_of_fmap. rewrite Forall_forall in Hm. specialize (Hm r Hr). lia.
    + intros _ Hn. by apply Hex in E.
  - split_and!; [lia| |done]. intros Hin%Hex. congruence.
Qed.

(** Add appends exactly one rule.  The new definition is the requested one with its
    accounting cleared, enabled unless it says otherwise, under the requested identifier and
    priority when these are usable and unused, and otherwise under a fresh identifier and a
    priority above every other; the other definitions are untouched, priorities stay
    pairwise different, and the rule starts with no hits. *)
Theorem add_rule (now : Instant) (r : PolicyRule) (s : PolicyStore)
    (Hok : store_ok s) (Hprio : NoDup (map Priority (ps_rules s)))
    (Hmax : Forall (λ r, Priority r < int64_max) (ps_rules s)) (Hr : Priority r ≤ int64_max) :
  let nr := (Add now r s).1 in let s' := (Add now r s).2 in
  map content (ps_rules s') ≡ₚ content nr :: map content (ps_rules s) ∧
  NoDup (map Priority (ps_rules s')) ∧ 0 < Priority nr ∧
  (0 < Priority r → Priority r ∉ map Priority (ps_rules s) → Priority nr = Priority r) ∧
  (validRuleID (ID r) = true → ID r ∉ map ID (ps_rules s) → ID nr = ID r) ∧
  nr = new_rule r (ID nr) (Priority nr) ∧
  ∃ r', r' ∈ ps_rules s' ∧ ID r' = ID nr ∧ get_counters (ps_heap s') r' = mkCounters 0 0 0.
Proof.
  destruct (Add_shape now r s Hok) as (id&n&->&Hid&Hd). cbn [fst snd]. cbv zeta in Hd.
  destruct (available_spec (Priority r) (ps_rules s) Hr Hmax) as (Hpos&Hfresh&Hkeep).
  set (p := availablePriorityLocked _ _) in *. destruct (new_rule_fields r id p) as (Hi&Hp&Hc&Hh&Hl&_).
  rewrite Hi, Hp. split; [|split; [|split_and!; [done|done|done|done|]]].
  - rewrite (publish_map content) by done. rewrite map_app. cbn [map]. by rewrite Permutation_app_comm.
  - rewrite (publish_map Priority); [|done|apply content_Priority].
    rewrite map_app. apply NoDup_app. split; [done|]. split; [|apply NoDup_singleton].
    cbn [map]. rewrite Hp. intros x Hx ->%list_elem_of_singleton. done.
  - generalize dependent (new_rule r id p). intros nr Hd Hi Hp Hc Hh Hl.
    destruct (sortLocked_spec _ Hd) as (_&_&_&_&_&_&l&Hpm&HF). cbn [ps_rules] in HF.
    apply Forall2_app_inv_l in HF as (l1&l2&_&HF&->). apply Forall2_cons_inv_l in HF as (r'&?&HF&_&->).
    destruct HF as (Hcr&r0&(c&->&Hcl)&Hr'). exists r'. split; [rewrite Hpm; set_solver|].
    split; [by rewrite (content_ID _ _ Hcr)|]. unfold get_counters. subst r'. cbn.
    destruct Hcl as [?|(_&_&Hk)]; [congruence|]. cbn in Hk. rewrite Hk. by rewrite Hh, Hl.
Qed.

Lemma published_some s : store_ok s → Forall (λ r, is_Some (counters r)) (ps_rules s).
Proof. intros Hok. eapply Forall_impl; [apply (so_published _ Hok)|]. intros r Hr. destruct (pub_cell _ _ Hr) as (c&->&_). eauto. Qed.

Lemma update_first_unique {A B} (g : A → B) (b : B) (p : A → bool) f l l' :
  (∀ y, p y = true ↔ g y = b) → NoDup (map g l) → update_first p f l = Some l' →
  l' = map (λ y, if p y then f y else y) l.
Proof.
  intros Hp. revert l'. induction l as [|y l IH]; intros l'; cbn [map update_first]; [done|].
  intros [Hy Hnd]%NoDup_cons. destruct (p y) eqn:Ey.
  - intros [= <-]. f_equal. rewrite <- (map_id l) at 1. apply map_ext_in. intros z Hz.
    destruct (p z) eqn:Ez; [|done]. exfalso. apply Hy. apply Hp in Ey as ->, Ez as <-.
    apply list_elem_of_fmap_2. by apply list_elem_of_In.
  - intros (l0&E&->)%fmap_Some. f_equal. by apply IH.
Qed.

(** An edit by identifier lands on the rule that carries it.  Exactly that definition is
    replaced, keeping its identifier, its priority - whatever the body says - and its hit
    accounting; every other rule keeps definition and cell, and the version moves by one.
    With an unknown identifier nothing changes and the caller is told. *)
Theorem update_by_id (now : Instant) (id : string) (r : PolicyRule) (s : PolicyStore) (Hok : store_ok s) :
  let '(found, s') := UpdateByID now id r s in
  (found = true ↔ id ∈ map ID (ps_rules s)) ∧
  (found = true → ps_version s' = wrap64 (ps_version s + 1) ∧
     map key (ps_rules s') ≡ₚ map (λ rule, if (ID rule =? id)%string then key (edited id r rule) else key rule) (ps_rules s)) ∧
  (found = false → s' = s).
Proof.
  unfold UpdateByID. destruct (validRuleID id) eqn:Hv; cbn [negb].
  2: { split; [|done]. split; [done|]. intros (r0&->&Hr0)%list_elem_of_fmap. exfalso.
       pose proof (so_valid _ Hok) as Hall. rewrite Forall_forall in Hall. specialize (Hall r0 Hr0). congruence. }
  destruct (update_first _ _ _) as [next|] eqn:E.
  - assert (id ∈ map ID (ps_rules s)) as Hin.
    { apply update_first_spec in E as (pre&x&post&->&_&Hx&_). apply String.eqb_eq in Hx as <-.
      apply list_elem_of_fmap. exists x. set_solver. }
    assert (draft_ok (s <| ps_rules := next |>)) as Hd.
    { apply draft_same; [done|..]; eapply update_first_map; try exact E; [|done].
      cbn. intros x Hx. by apply String.eqb_eq in Hx. }
    apply (update_first_unique ID id) in E as ->; [|intros; apply String.eqb_eq|apply Hok].
    split; [done|]. split; [|done]. intros _. rewrite version_publish. split; [done|].
    rewrite publish_keys; [|done|].
    + rewrite map_map. erewrite map_ext; [done|]. intros x. cbn. by destruct (_ =? _)%string.
    + apply Forall_map. eapply Forall_impl; [apply (published_some _ Hok)|]. intros x Hx. unfold compose.
      by destruct (_ =? _)%string.
  - split; [|done]. split; [done|]. intros (r0&->&Hr0)%list_elem_of_fmap. apply update_first_None in E.
    rewrite Forall_forall in E. specialize (E r0 Hr0). cbn in E. by rewrite String.eqb_refl in E.
Qed.
End mutators.

(** ** Permuting priorities *)

Section permute.
Context `{Unicode, Idna, TimeData, SortSlice, RuleIDs}.

(** Rule [i] of the slice has priority [p]. *)
Definition holds (rs : list PolicyRule) (i : nat) (p : Z) : Prop := ∃ r, rs !! i = Some r ∧ Priority r = p.

Lemma holds_cons r rs i p : holds (r :: rs) i p ↔ (i = 0%nat ∧ Priority r = p) ∨ ∃ j, i = S j ∧ holds rs j p.
Proof.
  unfold holds. destruct i as [|i]; cbn; naive_solver.
Qed.

Lemma listed_rules_some seen rs k m0 m :
  listed_rules seen rs k m0 = Some m →
  ∀ p i, m !! p = Some i ↔ m0 !! p = Some i ∨ p ∈ seen ∧ ∃ j, i = (k + j)%nat ∧ holds rs j p.
Proof.
  revert k m0. induction rs as [|r rs IH]; intros k m0; cbn [listed_rules].
  { intros [= <-] p i. split; [by left|]. intros [?|(_&j&_&r&Hr&_)]; [done|]. by rewrite lookup_nil in Hr. }
  setoid_rewrite holds_cons. case_bool_decide as Hs.
  - destruct (m0 !! Priority r) eqn:E0; [done|]. intros Hm p i. rewrite (IH _ _ Hm), lookup_insert_Some. split.
    + intros [[[<- <-]|[_ ?]]|(?&j&->&?)]; [right|by left|right].
      * split; [done|]. exists 0%nat. split; [lia|]. by left.
      * split; [done|]. exists (S j). split; [lia|]. right. eauto.
    + intros [?|(?&j&->&[[-> <-]|(j'&->&?)])].
      * left. right. split; [congruence|done].
      * left. left. split; [done|lia].
      * right. split; [done|]. exists j'. split; [lia|done].
  - intros Hm p i. rewrite (IH _ _ Hm). split.
    + intros [?|(?&j&->&?)]; [by left|right]. split; [done|]. exists (S j). split; [lia|]. right. eauto.
    + intros [?|(?&j&->&[[-> <-]|(j'&->&?)])]; [by left|done|right]. split; [done|]. exists j'. split; [lia|done].
Qed.

Lemma listed_rules_none seen rs k m0 :
  listed_rules seen rs k m0 = None →
  ∃ p, p ∈ seen ∧ ((is_Some (m0 !! p) ∧ ∃ j, holds rs j p) ∨ ∃ i j, i ≠ j ∧ holds rs i p ∧ holds rs j p).
Proof.
  revert k m0. induction rs as [|r rs IH]; intros k m0; cbn [listed_rules]; [done|].
  setoid_rewrite holds_cons. case_bool_decide as Hs.
  - destruct (m0 !! Priority r) eqn:E0.
    + intros _. exists (Priority r). split; [done|]. left. split; [by eexists|]. exists 0%nat. by left.
    + intros (p&Hp&[[Hin [j Hj]]|(i&j&?&?&?)])%IH; exists p; (split; [done|]).
      * destruct (decide (p = Priority r)) as [->|].
        -- right. exists 0%nat, (S j). split; [lia|]. split; [by left|]. right. eauto.
        -- rewrite lookup_insert_ne in Hin by done. left. split; [done|]. exists (S j). right. eauto.
      * right. exists (S i), (S j). split; [lia|]. eauto 8.
  - intros (p&Hp&[[Hin [j Hj]]|(i&j&?&?&?)])%IH; exists p; (split; [done|]).
    + left. split; [done|]. exists (S j). eauto.
    + right. exists (S i), (S j). split; [lia|]. eauto 8.
Qed.

(** The slot the loop leaves at index [i]. *)
Fixpoint slot_of (m : gmap Z nat) (assign : list (Z * Z)) (i : nat) : option Z :=
  match assign with
  | [] => None
  | (p, slot) :: assign =>
      match slot_of m assign i with
      | Some x => Some x
      | None => if bool_decide (m !! p = Some i) then Some slot else None
      end
  end.
Definition with_priority (o : option Z) (r : PolicyRule) : PolicyRule :=
  match o with Some p => r <| Priority := p |> | None => r end.

Lemma permute_loop_lookup m assign rs i :
  permute_loop m assign rs !! i = with_priority (slot_of m assign i) <$> rs !! i.
Proof.
  revert rs. induction assign as [|[p slot] assign IH]; intros rs; cbn [permute_loop slot_of].
  { by destruct (rs !! i). }
  rewrite IH. destruct (m !! p) as [j|] eqn:E.
  2: { rewrite bool_decide_false by done. by destruct (slot_of m assign i). }
  unfold set_priority. destruct (decide (i = j)) as [->|Hne].
  - rewrite list_lookup_alter_eq. destruct (rs !! j); [|done]. cbn.
    rewrite bool_decide_true by done. by destruct (slot_of m assign j).
  - rewrite list_lookup_alter_ne by done. rewrite bool_decide_false by congruence. by destruct (slot_of m assign i).
Qed.

Lemma slot_of_priority m assign rs i r :
  (∀ p, p ∈ assign.*1 → m !! p = Some i ↔ holds rs i p) → NoDup assign.*1 → rs !! i = Some r →
  slot_of m assign i = (list_to_map assign : gmap Z Z) !! Priority r.
Proof.
  intros Hm Hnd Hr. induction assign as [|[p slot] assign IH]; cbn [slot_of list_to_map foldr].
  { by rewrite lookup_empty. }
  cbn in Hnd. apply NoDup_cons in Hnd as [Hp Hnd]. rewrite IH; [|intros q Hq; apply Hm; by right|done].
  change (uncurry insert (p, slot) _) with (<[p := slot]> (list_to_map assign : gmap Z Z)).
  specialize (Hm p ltac:(by left)). destruct (decide (Priority r = p)) as [<-|Hne].
  - rewrite lookup_insert_eq. rewrite (not_elem_of_list_to_map_1 assign) by done.
    rewrite bool_decide_true; [done|]. apply Hm. by exists r.
  - rewrite lookup_insert_ne by done. destruct (_ !! Priority r); [done|]. rewrite bool_decide_false; [done|].
    rewrite Hm. intros (r'&?&?). congruence.
Qed.

(** The reassignment: the listed priorities, sorted, in the requested order. *)
Definition slots_of (ordered : list Z) : gmap Z Z := list_to_map (zip ordered (merge_sort Z.le ordered)).
Definition moved (ordered : list Z) (r : PolicyRule) : PolicyRule := with_priority (slots_of ordered !! Priority r) r.

Lemma length_sorted (l : list Z) : length (merge_sort Z.le l) = length l.
Proof. apply Permutation_length, merge_sort_Permutation. Qed.
Lemma zip_fst_sorted (l : list Z) : (zip l (merge_sort Z.le l)).*1 = l.
Proof. apply fst_zip. by rewrite length_sorted. Qed.

Lemma slots_lookup ordered i p a :
  NoDup ordered → ordered !! i = Some p → merge_sort Z.le ordered !! i = Some a → slots_of ordered !! p = Some a.
Proof.
  intros Hnd Hp Ha. apply elem_of_list_to_map; [by rewrite zip_fst_sorted|].
  apply list_elem_of_lookup. exists i. apply lookup_zip_with_Some. eauto.
Qed.

(** Distinct slots are handed out in increasing order. *)
Lemma slots_increasing ordered i j p q a b :
  NoDup ordered → ordered !! i = Some p → ordered !! j = Some q → (i < j)%nat →
  slots_of ordered !! p = Some a → slots_of ordered !! q = Some b → a < b.
Proof.
  intros Hnd Hp Hq Hij Ha Hb.
  assert (∀ k x, ordered !! k = Some x → ∃ y, merge_sort Z.le ordered !! k = Some y) as Hget.
  { intros k x Hk. apply lookup_lt_is_Some. rewrite length_sorted. by eapply lookup_lt_Some. }
  destruct (Hget i p Hp) as [a' Ha'], (Hget j q Hq) as [b' Hb'].
  rewrite (slots_lookup _ _ _ _ Hnd Hp Ha') in Ha. rewrite (slots_lookup _ _ _ _ Hnd Hq Hb') in Hb. simplify_eq.
  assert (a ≤ b).
  { pose proof (StronglySorted_merge_sort Z.le ordered) as Hs. revert Hs Ha' Hb'.
    generalize (merge_sort Z.le ordered). clear -Hij. intros l Hs. revert i j Hij.
    induction Hs as [|x l _ IH Hx]; intros i j Hij Hi Hj; [by rewrite lookup_nil in Hi|].
    destruct j as [|j]; [lia|]. destruct i as [|i]; cbn in Hi, Hj.
    - simplify_eq. rewrite Forall_forall in Hx. apply Hx. by eapply list_elem_of_lookup_2.
    - apply (IH i j); [lia|done|done]. }
  assert (a ≠ b); [|lia]. intros ->.
  assert (NoDup (merge_sort Z.le ordered)) as Hnd' by by rewrite merge_sort_Permutation.
  pose proof (NoDup_lookup _ _ _ _ Hnd' Ha' Hb'). lia.
Qed.

Definition exactly_one (rs : list PolicyRule) (p : Z) : Prop := ∃ i, holds rs i p ∧ ∀ j, holds rs j p → j = i.

Lemma listed_nodup rs ordered :
  Forall (exactly_one rs) ordered → NoDup (map Priority (filter (λ r, Priority r ∈ ordered) rs)).
Proof.
  intros Hone. assert (∀ i j p, p ∈ ordered → holds rs i p → holds rs j p → i = j) as Hinj.
  { intros i j p Hp Hi Hj. rewrite Forall_forall in Hone. destruct (Hone p Hp) as (k&_&Hk).
    by rewrite (Hk i Hi), (Hk j Hj). }
  clear Hone. induction rs as [|r rs IH]; [constructor|].
  assert (NoDup (map Priority (filter (λ r, Priority r ∈ ordered) rs))) as Hrs.
  { apply IH. intros i j p Hp Hi Hj. assert (S i = S j); [|lia]. apply (Hinj _ _ p Hp); apply holds_cons; eauto. }
  rewrite filter_cons. case_decide as Hin; [|done]. cbn. constructor; [|done].
  intros (r'&Heq&Hr')%list_elem_of_fmap. apply list_elem_of_filter in Hr' as [_ Hr'].
  apply list_elem_of_lookup in Hr' as [j Hj]. assert (0%nat = S j); [|done].
  apply (Hinj _ _ (Priority r) Hin); apply holds_cons; [by left|right]. exists j. split; [done|]. by exists r'.
Qed.

Lemma moved_priorities rs ordered :
  NoDup ordered → Forall (exactly_one rs) ordered → map Priority (map (moved ordered) rs) ≡ₚ map Priority rs.
Proof.
  intros Hnd Hone. rewrite <- (filter_app_complement (λ r, Priority r ∈ ordered) rs) at 1 2.
  rewrite !map_app. f_equiv.
  - assert (map Priority (filter (λ r, Priority r ∈ ordered) rs) ≡ₚ ordered) as Hl.
    { apply NoDup_Permutation; [by apply listed_nodup|done|]. intros p. rewrite list_elem_of_fmap. split.
      - intros (r&->&[? _]%list_elem_of_filter). done.
      - intros Hp. rewrite Forall_forall in Hone. destruct (Hone p Hp) as (i&(r&Hr&<-)&_). exists r. split; [done|].
        apply list_elem_of_filter. split; [done|]. by eapply list_elem_of_lookup_2. }
    rewrite Hl.
    assert (map Priority (map (moved ordered) (filter (λ r, Priority r ∈ ordered) rs)) =
            map (λ p, default p (slots_of ordered !! p)) (map Priority (filter (λ r, Priority r ∈ ordered) rs))) as ->.
    { rewrite !map_map. apply map_ext. intros r. unfold moved. by destruct (slots_of ordered !! Priority r). }
    rewrite Hl. rewrite <- (merge_sort_Permutation Z.le ordered) at 2.
    assert (map (λ p, default p (slots_of ordered !! p)) ordered = merge_sort Z.le ordered) as ->; [|done].
    apply list_eq. intros i. change (map ?f ?l) with (f <$> l). rewrite list_lookup_fmap.
    destruct (ordered !! i) as [p|] eqn:Ep; cbn.
    + destruct (merge_sort Z.le ordered !! i) as [a|] eqn:Ea; [by rewrite (slots_lookup _ _ _ _ Hnd Ep Ea)|].
      apply lookup_ge_None in Ea. rewrite length_sorted in Ea. apply lookup_lt_Some in Ep. lia.
    + symmetry. apply lookup_ge_None. rewrite length_sorted. by apply lookup_ge_None.
  - rewrite map_map. erewrite map_ext_in; [done|]. intros r Hr%list_elem_of_In. cbn.
    apply list_elem_of_filter in Hr as [Hr _]. unfold moved, slots_of.
    rewrite not_elem_of_list_to_map_1; [done|]. by rewrite zip_fst_sorted.
Qed.

Lemma listed_rules_success ordered rs :
  NoDup ordered →
  (∃ m, listed_rules ordered rs 0 ∅ = Some m ∧ size m = length ordered) ↔ Forall (exactly_one rs) ordered.
Proof.
  intros Hnd. split.
  - intros (m&Hm&Hsz). pose proof (listed_rules_some _ _ _ _ _ Hm) as Hl.
    assert (dom m ≡ list_to_set ordered) as Hdom.
    { assert (dom m ⊆ list_to_set ordered) as Hsub.
      { intros p [i Hi]%elem_of_dom. apply Hl in Hi as [Hi|[? _]]; [by rewrite lookup_empty in Hi|].
        by apply elem_of_list_to_set. }
      apply set_subseteq_size_equiv; [done|]. rewrite size_dom, size_list_to_set by done. lia. }
    apply Forall_forall. intros p Hp.
    assert (p ∈ dom m) as [i Hi]%elem_of_dom by (rewrite Hdom; by apply elem_of_list_to_set).
    exists i. split.
    + apply Hl in Hi as [Hi|(_&j&->&?)]; [by rewrite lookup_empty in Hi|done].
    + intros j Hj. assert (m !! p = Some j) as Hj' by (apply Hl; right; eauto). congruence.
  - intros Hone. rewrite Forall_forall in Hone. destruct (listed_rules ordered rs 0 ∅) as [m|] eqn:E.
    + exists m. split; [done|]. pose proof (listed_rules_some _ _ _ _ _ E) as Hl.
      rewrite <- (size_list_to_set (C := gset Z) ordered) by done. rewrite <- size_dom. apply set_size_proper. intros p.
      rewrite elem_of_dom, elem_of_list_to_set. split.
      * intros [i Hi]. apply Hl in Hi as [Hi|[? _]]; [by rewrite lookup_empty in Hi|done].
      * intros Hp. destruct (Hone p Hp) as (i&Hi&_). exists i. apply Hl. right. eauto.
    + exfalso. apply listed_rules_none in E as (p&Hp&[[[? Hs] _]|(i&j&Hij&Hi&Hj)]); [by rewrite lookup_empty in Hs|].
      destruct (Hone p Hp) as (k&_&Hk). apply Hij. by rewrite (Hk i Hi), (Hk j Hj).
Qed.

Lemma permute_loop_moved ordered rs m :
  NoDup ordered → listed_rules ordered rs 0 ∅ = Some m →
  permute_loop m (zip ordered (merge_sort Z.le ordered)) rs = map (moved ordered) rs.
Proof.
  intros Hnd Hm. pose proof (listed_rules_some _ _ _ _ _ Hm) as Hl. apply list_eq. intros i.
  change (map ?f ?l) with (f <$> l). rewrite permute_loop_lookup, list_lookup_fmap.
  destruct (rs !! i) as [r|] eqn:Er; [|done]. cbn. unfold moved, slots_of. f_equal. f_equal.
  apply slot_of_priority with rs; [|by rewrite zip_fst_sorted|done]. rewrite zip_fst_sorted. intros p Hp. rewrite Hl. split.
  - intros [Hi|(_&j&->&?)]; [by rewrite lookup_empty in Hi|done].
  - intros Hi. right. eauto.
Qed.

(** PermutePriorities reorders the listed rules among themselves and disturbs nothing
    else.  It succeeds exactly on a non-empty duplicate-free list of priorities each held by
    exactly one rule; then each listed rule takes the slot its position in the list calls
    for - the listed rules end up in the requested order - every other definition is
    unchanged, cells included, and the multiset of priorities is what it was.  On failure
    the store is unchanged. *)
Theorem permute_priorities (now : Instant) (ordered : list Z) (s : PolicyStore) (Hok : store_ok s) :
  let '(ok, s') := PermutePriorities now ordered s in
  (ok = true ↔ ordered ≠ [] ∧ NoDup ordered ∧ Forall (exactly_one (ps_rules s)) ordered) ∧
  (ok = true →
     map key (ps_rules s') ≡ₚ map key (map (moved ordered) (ps_rules s)) ∧
     map Priority (ps_rules s') ≡ₚ map Priority (ps_rules s) ∧
     (∀ i j p q a b, ordered !! i = Some p → ordered !! j = Some q → (i < j)%nat →
        slots_of ordered !! p = Some a → slots_of ordered !! q = Some b → a < b)) ∧
  (ok = false → s' = s).
Proof.
  unfold PermutePriorities. case_bool_decide as Hne; [naive_solver|].
  destruct (bool_decide (NoDup ordered)) eqn:End; cbn [negb]; [apply bool_decide_eq_true in End|apply bool_decide_eq_false in End; naive_solver].
  pose proof (listed_rules_success ordered (ps_rules s) End) as Hsucc.
  destruct (listed_rules ordered (ps_rules s) 0 ∅) as [m|] eqn:Em.
  2: { split; [|done]. split; [done|]. intros (_&_&(m&?&_)%Hsucc). done. }
  destruct (Nat.eqb_spec (size m) (length ordered)) as [Hsz|Hsz]; cbn [negb].
  2: { split; [|done]. split; [done|]. intros (_&_&(m'&?&?)%Hsucc). by simplify_eq. }
  assert (Forall (exactly_one (ps_rules s)) ordered) as Hone by (apply Hsucc; eauto).
  split; [done|]. split; [|done]. intros _. rewrite (permute_loop_moved _ _ _ End Em).
  assert (draft_ok (s <| ps_rules := map (moved ordered) (ps_rules s) |>)) as Hd.
  { rewrite <- (permute_loop_moved _ _ _ End Em). apply draft_same; [done|..]; by apply permute_loop_map. }
  split_and!.
  - apply publish_keys; [done|]. apply Forall_map. eapply Forall_impl; [apply (published_some _ Hok)|].
    intros r Hr. unfold compose, moved. by destruct (slots_of ordered !! Priority r).
  - rewrite (publish_map Priority) by (done || apply content_Priority). by apply moved_priorities.
  - intros i j p q a b. by apply slots_increasing.
Qed.
End permute.

(** ** Evaluation and accounting *)

Section evaluation.
Context `{Unicode, Idna, TimeData, SortSlice, RuleIDs, PolicyEnv, Clock}.

Lemma snapshot_noop s : store_ok s → evaluationSnapshot s = (ps_rules s, s).
Proof.
  intros Hok. unfold evaluationSnapshot. destruct (existsb _ _) eqn:E; [|done]. exfalso.
  apply existsb_exists in E as (r&Hr&Hc). apply bool_decide_eq_true in Hc. apply list_elem_of_In in Hr.
  pose proof (published_some _ Hok) as Hp. rewrite Forall_forall in Hp. destruct (Hp r Hr). congruence.
Qed.

Lemma find_elem {A} (f : A → bool) l x : find f l = Some x → x ∈ l.
Proof. intros [Hin _]%find_some. by apply list_elem_of_In. Qed.

Lemma copy_match_fields h rule :
  ID (copyPolicyRuleForMatch h rule) = ID rule ∧ Action (copyPolicyRuleForMatch h rule) = Action rule ∧
  HitCount (copyPolicyRuleForMatch h rule) = hitCount (get_counters h rule) ∧
  counters (copyPolicyRuleForMatch h rule) = None.
Proof.
  unfold copyPolicyRuleForMatch, copyPolicyRuleForPublication.
  destruct (counters rule); [|destruct (alloc_counters _ _)]; done.
Qed.

(** C14: Evaluate enforces the first matching rule and counts exactly one hit.  On a store in
    its invariant it never dereferences a missing cell; it reports no match exactly when no
    rule applies under the reference semantics, and then nothing changes; otherwise the
    decision is that of the first applicable rule, its cell (and no other) gains one hit,
    the returned snapshot shows the new count, and neither the rules nor the version change. *)
Theorem evaluate_first_match (clientIP identity authSource host : string) (groups : list string)
    (s : PolicyStore) (p : Proc) (Hok : store_ok s) (Hlocs : locs_ok p) :
  let inp := mkInput clientIP identity authSource host (NormalizeHost host) groups in
  match find (rule_applies inp (clock (clock_reads p))) (ps_rules s) with
  | None => ∃ p', Evaluate clientIP identity authSource host groups s p = ((NoMatch, s), p')
  | Some rule =>
      ∃ m h p' c k, Evaluate clientIP identity authSource host groups s p = ((Match m, s <| ps_heap := h |>), p') ∧
        rule ∈ ps_rules s ∧ counters rule = Some c ∧ ccells (ps_heap s) !! c = Some k ∧
        hitCount <$> ccells h !! c = Some (wrap64 (hitCount k + 1)) ∧
        (∀ c', c' ≠ c → ccells h !! c' = ccells (ps_heap s) !! c') ∧
        ID (m_Rule m) = ID rule ∧ HitCount (m_Rule m) = wrap64 (hitCount k + 1) ∧
        m_Action m = Action rule ∧ m_SSLAction m = SSLAction rule ∧ m_TLSSkipVerify m = TLSSkipVerify rule ∧
        m_MatchedConditions m = buildMatchedConditions rule
  end.
Proof.
  intros inp. unfold Evaluate. rewrite snapshot_noop by done. fold inp. unfold mbind, proc_bind, mret, proc_ret.
  assert (Forall precompute_ok (ps_rules s)) as Hpre
    by (eapply Forall_impl; [apply (so_published _ Hok)|]; intros r Hr; apply Hr).
  destruct (eval_loop_ok (ps_rules s) inp (clock_reads p) (mkScan (newClientSource clientIP) (newHostCatScratch host) None) p)
    as (p'&E&_); [done|done|by apply (scan_start inp)|].
  change (evalAccessRules (ps_rules s) inp time_Now p = (find (rule_applies inp (clock (clock_reads p))) (ps_rules s),
    verdict_trace (ps_rules s) inp (clock (clock_reads p)), p')) in E. rewrite E.
  destruct (find (rule_applies inp (clock (clock_reads p))) (ps_rules s)) as [rule|] eqn:Ef; [|by exists p'].
  pose proof (find_elem _ _ _ Ef) as Hin. pose proof (so_published _ Hok) as Hp. rewrite Forall_forall in Hp.
  destruct (Hp rule Hin) as [_ _ Hconds (c&Hc&k&Hk)]. rewrite Hc.
  destruct (time_Now p') as [now p2].
  set (h := account_hit now c (ps_heap s)).
  assert (ccells h !! c = Some (k <| hitCount := wrap64 (hitCount k + 1) |>
            <| c_lastHitUnix := atomicStoreMax (c_lastHitUnix k) (unix_sec now) |>)) as Hk'.
  { subst h. unfold account_hit. cbn. rewrite lookup_alter_eq, Hk. done. }
  destruct (copy_match_fields h rule) as (Hi&_&Hh&_).
  assert (hitCount (get_counters h rule) = wrap64 (hitCount k + 1)) as Hg.
  { unfold get_counters. rewrite Hc. change (Some c ≫= (ccells h !!.)) with (ccells h !! c). by rewrite Hk'. }
  exists (build_match h rule), h, p2, c, k. split; [done|]. split; [done|]. split; [done|]. split; [done|].
  split; [by rewrite Hk'|]. split.
  { intros c' Hne. subst h. unfold account_hit. cbn. by rewrite lookup_alter_ne. }
  split; [done|]. split; [cbn [build_match m_Rule]; congruence|]. split_and!; try done.
  cbn [build_match m_MatchedConditions]. rewrite Hconds. by destruct (_ =? _)%string.
Qed.
End evaluation.

Section accounting.
Context `{Unicode, Idna, TimeData, SortSlice, RuleIDs}.

(** The operations that revise rules without removing any. *)
Definition revises (op : Op) : bool :=
  match op with
  | OpReplaceAll _ | OpDelete _ | OpDeleteByID _ | OpRestore _ _ | OpLoad _ _ _ _ => false
  | _ => true
  end.

(** Every rule of [s] has a revision in [s'], on the same cell. *)
Definition revised (s s' : PolicyStore) : Prop :=
  ∀ r c, r ∈ ps_rules s → counters r = Some c → ∃ r', r' ∈ ps_rules s' ∧ ID r' = ID r ∧ counters r' = Some c.

Lemma revised_refl s : revised s s.
Proof. intros r c ? ?. by exists r. Qed.
Lemma revised_rules s s' : ps_rules s' = ps_rules s → revised s s'.
Proof. intros E r c ? ?. exists r. by rewrite E. Qed.

Lemma publish_revised now rs s s0 :
  draft_ok (s <| ps_rules := rs |>) →
  (∀ r c, r ∈ ps_rules s0 → counters r = Some c → ∃ r', r' ∈ rs ∧ ID r' = ID r ∧ counters r' = Some c) →
  revised s0 (publish now rs s) ∧ ccells (ps_heap s) ⊆ ccells (ps_heap (publish now rs s)).
Proof.
  intros Hd Hrs. destruct (sortLocked_spec _ Hd) as (_&Hext&_&_&_&_&l&Hp&HF). split; [|apply Hext].
  intros r c Hr Hc. destruct (Hrs r c Hr Hc) as (r1&Hr1&Hid&Hc1).
  apply list_elem_of_lookup in Hr1 as [i Hi]. change (ps_rules (s <| ps_rules := rs |>)) with rs in HF.
  destruct (Forall2_lookup_l _ _ _ _ _ HF Hi) as (r2&Hi2&Hcont&r0&(c0&->&Hcl)&Hr2).
  exists r2. split; [|split].
  - change (r2 ∈ ps_rules (sortLocked (s <| ps_rules := rs |>))). rewrite Hp. by eapply list_elem_of_lookup_2.
  - by rewrite (content_ID _ _ Hcont).
  - subst r2. cbn. destruct Hcl as [?|[? _]]; congruence.
Qed.

Lemma same_maps_revised rs s :
  map ID rs = map ID (ps_rules s) → map counters rs = map counters (ps_rules s) →
  ∀ r c, r ∈ ps_rules s → counters r = Some c → ∃ r', r' ∈ rs ∧ ID r' = ID r ∧ counters r' = Some c.
Proof.
  intros Hi Hc r c Hr Hrc. apply list_elem_of_lookup in Hr as [i Hri].
  assert ((ID <$> rs) !! i = Some (ID r)) as Hi1.
  { change (ID <$> rs) with (map ID rs). rewrite Hi. change (map ?f ?l) with (f <$> l). by rewrite list_lookup_fmap, Hri. }
  assert ((counters <$> rs) !! i = Some (counters r)) as Hc1.
  { change (counters <$> rs) with (map counters rs). rewrite Hc. change (map ?f ?l) with (f <$> l). by rewrite list_lookup_fmap, Hri. }
  rewrite (list_lookup_fmap ID) in Hi1. rewrite (list_lookup_fmap counters) in Hc1. destruct (rs !! i) as [r'|] eqn:E; [|done]. cbn in Hi1, Hc1.
  exists r'. split; [by eapply list_elem_of_lookup_2|]. split; congruence.
Qed.

Lemma publish_same now rs s :
  store_ok s → map ID rs = map ID (ps_rules s) → map counters rs = map counters (ps_rules s) →
  revised s (publish now rs s) ∧ ccells (ps_heap s) ⊆ ccells (ps_heap (publish now rs s)).
Proof. intros Hok Hi Hc. apply publish_revised; [by apply draft_same|by apply same_maps_revised]. Qed.

Lemma revise_step now op s :
  store_ok s → revises op = true → (∀ c, op ≠ OpHit c) →
  revised s (apply_op now op s) ∧ ccells (ps_heap s) ⊆ ccells (ps_heap (apply_op now op s)).
Proof.
  intros Hok Hop Hhit. assert (∀ s', ps_rules s' = ps_rules s → ps_heap s' = ps_heap s →
    revised s s' ∧ ccells (ps_heap s) ⊆ ccells (ps_heap s')) as Hnop.
  { intros s' Hr Hh. split; [by apply revised_rules|by rewrite Hh]. }
  assert (∀ f, (∀ r r', f r = Some r' → ID r' = ID r ∧ counters r' = counters r) →
    revised s (rewrite_rules now f s).2 ∧ ccells (ps_heap s) ⊆ ccells (ps_heap (rewrite_rules now f s).2)) as Hrw.
  { intros f Hf. unfold rewrite_rules. case_if; [|by apply Hnop].
    apply publish_same; [done|..]; apply map_default_map; intros x y Hy; by apply Hf. }
  destruct op; try done; cbn [apply_op].
  - destruct (Add_shape now r s Hok) as (id&n&->&_&Hd). cbn [snd].
    destruct (publish_revised now _ (s <| ps_draws := n |>) s Hd) as [Hrev Hsub]; [|by split].
    intros r0 c Hr0 Hc. exists r0. split; [|done]. apply elem_of_app. by left.
  - unfold Update. destruct (update_first _ _ _) as [rs|] eqn:E; [|by apply Hnop].
    apply publish_same; [done|..]; eapply update_first_map; try exact E; done.
  - unfold UpdateByID. destruct (negb _); [by apply Hnop|]. destruct (update_first _ _ _) as [rs|] eqn:E; [|by apply Hnop].
    apply publish_same; [done|..]; eapply update_first_map; try exact E; [|done].
    cbn. intros x Hx. by apply String.eqb_eq in Hx.
  - unfold CascadeDecryptionProfileRename. destruct (_ =? _)%string; [by apply Hnop|]. apply Hrw. by intros r r' ->%renamed_some.
  - unfold CascadeDestCategoryGroupRename. destruct (_ =? _)%string; [by apply Hnop|]. apply Hrw. by intros r r' ->%renamed_some.
  - unfold CascadeFileProfileRename. destruct (_ =? _)%string; [by apply Hnop|]. apply Hrw. by intros r r' ->%renamed_some.
  - apply Hrw. intros r r'. pose proof (refreshed_same g d f r) as Hs.
    destruct (refreshedObjectRefNames g d f r) as [nr []]; [|done]. intros [= <-]. cbn in Hs. tauto.
  - unfold Reorder. destruct (negb _); [by apply Hnop|]. destruct (reorder_loop _ _ _ _) eqn:E; [|by apply Hnop].
    apply publish_same; [done|..]; by eapply reorder_loop_map.
  - unfold PermutePriorities. destruct (bool_decide _); [by apply Hnop|]. destruct (negb _); [by apply Hnop|].
    destruct (listed_rules _ _ _ _) as [m|]; [|by apply Hnop]. destruct (negb _); [by apply Hnop|].
    apply publish_same; [done|..]; by apply permute_loop_map.
  - by destruct (Hhit c).
  - unfold seedVersion. destruct (negb _); by apply Hnop.
  - unfold ensureVersionAbove. destruct (_ <=? _); by apply Hnop.
Qed.

(** The hits on cell [c] in a run. *)
Fixpoint hits_on (c : loc) (ops : list (Instant * Op)) : Z :=
  match ops with
  | [] => 0
  | (_, OpHit c') :: ops => (if bool_decide (c' = c) then 1 else 0) + hits_on c ops
  | _ :: ops => hits_on c ops
  end.

(** No hit is lost across revisions.  Take a published rule and any interleaving of
    edits, additions, renames and reorderings with accounting by evaluators - which may
    have captured any older revision of the rulebase.  The rule is still there under its
    identifier, on the same cell, and the cell has grown by exactly the number of hits
    accounted on it. *)
Theorem hits_never_lost (ops : list (Instant * Op)) (s : PolicyStore) (r : PolicyRule) (c : loc) (k : policyRuleCounters)
    (Hok : store_ok s) (Hops : forallb (revises ∘ snd) ops = true)
    (Hr : r ∈ ps_rules s) (Hc : counters r = Some c) (Hk : ccells (ps_heap s) !! c = Some k)
    (Hrange : int64_min ≤ hitCount k ≤ int64_max) :
  ∃ r' k', r' ∈ ps_rules (run_ops ops s) ∧ ID r' = ID r ∧ counters r' = Some c ∧
    ccells (ps_heap (run_ops ops s)) !! c = Some k' ∧ hitCount k' = wrap64 (hitCount k + hits_on c ops).
Proof.
  assert (∀ n, hitCount k = wrap64 n → ∃ r' k', r' ∈ ps_rules (run_ops ops s) ∧ ID r' = ID r ∧ counters r' = Some c ∧
    ccells (ps_heap (run_ops ops s)) !! c = Some k' ∧ hitCount k' = wrap64 (n + hits_on c ops)) as Hgen.
  2: { apply Hgen. by rewrite wrap64_small. }
  clear Hrange. revert s r k Hok Hr Hc Hk. induction ops as [|[now op] ops IH]; intros s r k Hok Hr Hc Hk n Hn.
  { exists r, k. cbn. rewrite Z.add_0_r. done. }
  cbn [forallb] in Hops. apply andb_true_iff in Hops as [Hop Hops]. change (revises op = true) in Hop.
  pose proof (apply_op_ok now op s Hok) as Hok'.
  change (run_ops ((now, op) :: ops) s) with (run_ops ops (apply_op now op s)).
  assert ((∃ c', op = OpHit c') ∨ ∀ c', op ≠ OpHit c') as [[c' ->]|Hne] by (destruct op; naive_solver).
  - assert (∃ k1, ccells (ps_heap (apply_op now (OpHit c') s)) !! c = Some k1 ∧
              hitCount k1 = wrap64 (n + if bool_decide (c' = c) then 1 else 0)) as (k1&Hk1&Hh1).
    { cbn. unfold account_hit. cbn. case_bool_decide as Hcc.
      - subst c'. rewrite lookup_alter_eq, Hk. eexists. split; [done|]. cbn. by rewrite Hn, wrap64_add.
      - rewrite lookup_alter_ne by done. exists k. by rewrite Z.add_0_r. }
    destruct (IH Hops _ r k1 Hok' Hr Hc Hk1 _ Hh1) as (r'&k'&?&?&?&?&?). exists r', k'. split_and!; try done.
    cbn [hits_on]. by rewrite Z.add_assoc.
  - destruct (revise_step now op s Hok Hop Hne) as [Hrev Hsub]. destruct (Hrev r c Hr Hc) as (r1&Hr1&Hid1&Hc1).
    destruct (IH Hops _ r1 k Hok' Hr1 Hc1 (lookup_weaken _ _ _ _ Hk Hsub) n Hn) as (r'&k'&?&Hid&?&?&?).
    exists r', k'. split_and!; try done; [congruence|]. destruct op; naive_solver.
Qed.
End accounting.

(** ** Renames *)

Section renames.
Context `{Unicode, Idna, TimeData, SortSlice, RuleIDs}.

Lemma rewrite_rules_keys now f s :
  store_ok s → (∀ r r', f r = Some r' → ID r' = ID r ∧ counters r' = counters r) →
  let '(n, s') := rewrite_rules now f s in
  n = length (filter (λ r, is_Some (f r)) (ps_rules s)) ∧
  map key (ps_rules s') ≡ₚ map (λ r, key (default r (f r))) (ps_rules s) ∧
  ps_version s' = (if decide (n = 0%nat) then ps_version s else wrap64 (ps_version s + 1)).
Proof.
  intros Hok Hf. unfold rewrite_rules. set (n := length _). destruct (Nat.ltb_spec 0 n) as [Hn|Hn].
  - split; [done|]. split; [|rewrite decide_False by lia; apply version_publish].
    rewrite publish_keys.
    + by rewrite map_map.
    + apply draft_same; [done|..]; apply map_default_map; intros x y Hy; by apply Hf.
    + apply Forall_map. eapply Forall_impl; [apply (published_some _ Hok)|]. intros r Hr. unfold compose.
      destruct (f r) as [r'|] eqn:E; [|done]. cbn. destruct (Hf _ _ E) as [_ ->]. done.
  - split; [done|]. rewrite decide_True by lia. split; [|done].
    assert (map (λ r, key (default r (f r))) (ps_rules s) = map key (ps_rules s)) as ->; [|done].
    apply map_ext_in. intros r Hr. destruct (f r) as [r'|] eqn:E; [|done]. exfalso.
    assert (r ∈ filter (λ r, is_Some (f r)) (ps_rules s)) as Hin
      by (apply list_elem_of_filter; split; [by rewrite E; eauto|by apply list_elem_of_In]).
    subst n. destruct (filter _ _); [by rewrite elem_of_nil in Hin|cbn in Hn; lia].
Qed.

(** The rules a group rename touches: linked by identifier under another cached name, or
    not linked and naming the group by its old name. *)
Definition group_touched (id oldName newName : string) (r : PolicyRule) : bool :=
  ((DestCategoryGroupID r =? id)%string && negb (DestCategoryGroup r =? newName)%string) ||
  ((DestCategoryGroupID r =? "")%string && EqualFold (DestCategoryGroup r) oldName).

(** A group rename refreshes exactly the references to the group: each touched rule
    gets the new name and the identifier, every other definition and every cell is kept, the
    version moves exactly when a rule was touched; and afterwards no rule linked to the
    group shows another name. *)
Theorem cascade_group_rename (now : Instant) (id oldName newName : string) (s : PolicyStore)
    (Hok : store_ok s) (Hid : id ≠ "") :
  let '(n, s') := CascadeDestCategoryGroupRename now id oldName newName s in
  n = length (List.filter (group_touched id oldName newName) (ps_rules s)) ∧
  map key (ps_rules s') ≡ₚ
    map (λ r, if group_touched id oldName newName r
              then key (r <| DestCategoryGroup := newName |> <| DestCategoryGroupID := id |>) else key r) (ps_rules s) ∧
  ps_version s' = (if decide (n = 0%nat) then ps_version s else wrap64 (ps_version s + 1)) ∧
  (∀ r, r ∈ ps_rules s' → DestCategoryGroupID r = id → DestCategoryGroup r = newName).
Proof.
  unfold CascadeDestCategoryGroupRename. destruct (String.eqb_spec id "") as [|_]; [done|].
  set (f := renamed _ _ _ _ _ _).
  assert (∀ r, f r = if group_touched id oldName newName r
                     then Some (r <| DestCategoryGroup := newName |> <| DestCategoryGroupID := id |>) else None) as Hf.
  { intros r. subst f. unfold renamed, group_touched. 
    by destruct (DestCategoryGroupID r =? id)%string, (DestCategoryGroup r =? newName)%string, (DestCategoryGroupID r =? "")%string,
      (EqualFold (DestCategoryGroup r) oldName). }
  pose proof (rewrite_rules_keys now f s Hok) as Hk. destruct (rewrite_rules now f s) as [n s'].
  destruct Hk as (Hn&Hk&Hv). { intros r r'. rewrite Hf. destruct (group_touched _ _ _ r); [|done]. by intros [= <-]. }
  assert (map key (ps_rules s') ≡ₚ
    map (λ r, if group_touched id oldName newName r
              then key (r <| DestCategoryGroup := newName |> <| DestCategoryGroupID := id |>) else key r) (ps_rules s)) as Hk'.
  { rewrite Hk. erewrite map_ext; [done|]. intros r. cbn. rewrite Hf. by destruct (group_touched _ _ _ r). }
  split; [|split; [done|]; split; [done|]].
  - rewrite Hn. clear -Hf. induction (ps_rules s) as [|r rs IH]; [done|]. rewrite filter_cons. cbn [List.filter].
    rewrite Hf. destruct (group_touched _ _ _ r).
    + rewrite decide_True by eauto. cbn. by rewrite IH.
    + rewrite decide_False by (by intros []). done.
  - intros r Hr Hrid. assert (key r ∈ map key (ps_rules s')) as Hin by by apply list_elem_of_fmap_2.
    rewrite Hk' in Hin. apply list_elem_of_fmap in Hin as (r0&E&_). unfold key in E.
    destruct (group_touched id oldName newName r0) eqn:Et; apply (f_equal fst) in E; cbn [fst] in E.
    + exact (f_equal DestCategoryGroup E).
    + pose proof (f_equal DestCategoryGroup E) as E1. pose proof (f_equal DestCategoryGroupID E) as E2.
      cbn in E1, E2. rewrite E1. rewrite E2 in Hrid. unfold group_touched in Et. rewrite Hrid, String.eqb_refl in Et.
      cbn in Et. by destruct (String.eqb_spec (DestCategoryGroup r0) newName).
Qed.
End renames.

(** ** Concrete runs *)

Section test_edits.
#[local] Instance test_U : Unicode := ascii_unicode.
#[local] Instance test_I : Idna := test_idna.
#[local] Instance test_T : TimeData := test_time.
#[local] Instance test_S : SortSlice := stable_sort.
#[local] Instance test_R : RuleIDs := test_ids.
#[local] Instance test_E : PolicyEnv := test_env.
#[local] Instance test_C : Clock := test_clock.

Lemma add_rule_witness :
  let nr := (Add 0 test_drop test_store).1 in
  Priority nr = 21 ∧ ID nr = "id-x" ∧ NoDup (map Priority (ps_rules (Add 0 test_drop test_store).2)).
Proof.
  split; [vm_compute; reflexivity|]. split; [vm_compute; reflexivity|].
  apply (add_rule 0 test_drop test_store test_store_ok).
  - apply (bool_decide_unpack _). vm_compute. exact I.
  - apply (bool_decide_unpack _). vm_compute. exact I.
  - vm_compute. discriminate.
Defined.

Lemma update_by_id_witness :
  let '(found, s') := UpdateByID 0 "id-drop" test_allow test_store in
  found = true ∧ map Priority (ps_rules s') = [10; 20] ∧
  map key (ps_rules s') ≡ₚ map (λ rule, if (ID rule =? "id-drop")%string then key (edited "id-drop" test_allow rule) else key rule)
    (ps_rules test_store).
Proof.
  pose proof (update_by_id 0 "id-drop" test_allow test_store test_store_ok) as Hu.
  assert ((UpdateByID 0 "id-drop" test_allow test_store).1 = true) as Hf by (vm_compute; reflexivity).
  assert (map Priority (ps_rules (UpdateByID 0 "id-drop" test_allow test_store).2) = [10; 20]) as Hp by (vm_compute; reflexivity).
  destruct (UpdateByID 0 "id-drop" test_allow test_store) as [found s']. cbn in Hf, Hp. subst found.
  destruct Hu as (_&Hu&_). split; [reflexivity|]. split; [exact Hp|]. apply Hu. reflexivity.
Defined.

Lemma permute_priorities_witness :
  let '(ok, s') := PermutePriorities 0 [20; 10] test_store in
  ok = true ∧ map Name (ps_rules s') = ["web"; "drop"] ∧ map Priority (ps_rules s') ≡ₚ map Priority (ps_rules test_store).
Proof.
  pose proof (permute_priorities 0 [20; 10] test_store test_store_ok) as Hu.
  assert ((PermutePriorities 0 [20; 10] test_store).1 = true) as Hf by (vm_compute; reflexivity).
  assert (map Name (ps_rules (PermutePriorities 0 [20; 10] test_store).2) = ["web"; "drop"]) as Hp by (vm_compute; reflexivity).
  destruct (PermutePriorities 0 [20; 10] test_store) as [ok s']. cbn in Hf, Hp. subst ok.
  destruct Hu as (_&Hu&_). split; [reflexivity|]. split; [exact Hp|]. apply Hu. reflexivity.
Defined.

Lemma cascade_group_rename_witness :
  let '(n, s') := CascadeDestCategoryGroupRename 0 "g1" "risky" "High risk" test_store in
  n = 1%nat ∧ ∀ r, r ∈ ps_rules s' → DestCategoryGroupID r = "g1" → DestCategoryGroup r = "High risk".
Proof.
  pose proof (cascade_group_rename 0 "g1" "risky" "High risk" test_store test_store_ok ltac:(discriminate)) as Hu.
  assert ((CascadeDestCategoryGroupRename 0 "g1" "risky" "High risk" test_store).1 = 1%nat) as Hf by (vm_compute; reflexivity).
  destruct (CascadeDestCategoryGroupRename 0 "g1" "risky" "High risk" test_store) as [n s']. cbn in Hf.
  split; [exact Hf|]. apply Hu.
Defined.

Lemma evaluate_first_match_witness :
  ∃ m h p' k, Evaluate "10.9.1.1" "" "unauth" "bad.example" [] test_store test_proc = ((Match m, test_store <| ps_heap := h |>), p') ∧
    m_Action m = ActionDrop ∧ HitCount (m_Rule m) = wrap64 (hitCount k + 1).
Proof.
  pose proof (evaluate_first_match "10.9.1.1" "" "unauth" "bad.example" [] test_store test_proc test_store_ok) as Hm.
  cbv zeta in Hm.
  assert (locs_ok test_proc) as Hl
    by (intros name e Hn; discriminate (eq_trans (eq_sym (lookup_empty (M := gmap string) name)) Hn)).
  specialize (Hm Hl).
  assert (Action <$> find (rule_applies (mkInput "10.9.1.1" "" "unauth" "bad.example" (NormalizeHost "bad.example") [])
            (clock (clock_reads test_proc))) (ps_rules test_store) = Some ActionDrop) as Hf by (vm_compute; reflexivity).
  destruct (find _ (ps_rules test_store)) as [rule|]; [|discriminate Hf].
  destruct Hm as (m&h&p'&c&k&HE&_&_&_&_&_&_&Hh&Ha&_). exists m, h, p', k. split; [exact HE|]. split; [|exact Hh].
  rewrite Ha. injection Hf as ->. reflexivity.
Defined.

Lemma hits_never_lost_witness :
  let ops := [(0, OpHit 1); (0, OpUpdateByID "id-drop" test_allow); (0, OpHit 1); (0, OpPermute [20; 10]); (0, OpHit 0)] in
  ∃ r' k', r' ∈ ps_rules (run_ops ops test_store) ∧ ID r' = "id-drop" ∧ counters r' = Some 1%nat ∧
    ccells (ps_heap (run_ops ops test_store)) !! 1%nat = Some k' ∧ hitCount k' = 2.
Proof.
  intros ops. destruct (ps_rules test_store) as [|r rs] eqn:E; [apply (f_equal length) in E; vm_compute in E; discriminate E|].
  assert (r ∈ ps_rules test_store) as Hr by (rewrite E; left).
  apply (f_equal head) in E. 
  assert ((λ r, (ID r, counters r)) <$> head (ps_rules test_store) = Some ("id-drop", Some 1%nat)) as Hh by (vm_compute; reflexivity).
  rewrite E in Hh. injection Hh as Hid Hc.
  destruct (hits_never_lost ops test_store r 1 (mkCounters 0 0 0)) as (r'&k'&?&Hid'&?&?&Hk).
  - exact test_store_ok.
  - reflexivity.
  - exact Hr.
  - exact Hc.
  - vm_compute. reflexivity.
  - split; vm_compute; discriminate.
  - exists r', k'. split; [done|]. split; [congruence|]. split; [done|]. split; [done|]. rewrite Hk. reflexivity.
Defined.

End test_edits.
