(* ===== verification/PolicyPersist.v ===== *)
(** * Bulk replacement and persistence of the policy store ([policy.go])

    - [bulk_gate]: what a bulk replacement or a reload can leave in the store.
    - [save_load_roundtrip]: saving and loading. *)

From S2P Require Import Prelude GoStrings GoNet HostUtil IPPrefix PolicyRule PolicyMatch AuthPolicy PolicyStore.

(** ** Bulk paths *)

Section gate.
Context `{Unicode, Idna, TimeData, SortSlice, RuleIDs}.

(** Validation reads neither accounting nor precomputed networks. *)
Lemma subject_checks (sm : option SubjectMatch) :
  rejectIdentityPredicates (clear_nets <$> sm) = rejectIdentityPredicates sm ∧
  validateSubjectMatch (clear_nets <$> sm) = validateSubjectMatch sm ∧
  broadSubjectWarnings (clear_nets <$> sm) = broadSubjectWarnings sm ∧
  bool_decide (is_Some (clear_nets <$> sm)) = bool_decide (is_Some sm).
Proof.
  destruct sm as [[v ps]|]; [|done]. unfold clear_nets. cbn [fmap option_fmap option_map]. split_and!; [..|done].
  - cbn. unfold check. rewrite forallb_map. done.
  - cbn. assert (validate_predicates (map (λ p, p <| nets := [] |>) ps) = validate_predicates ps) as ->.
    { induction ps as [|p ps IH]; [done|]. cbn. by rewrite IH. }
    by destruct ps.
  - cbn. by rewrite map_map.
Qed.

(** The fields the gate reads. *)
Definition gate_view (r : PolicyRule) : string * option AuthRuleSpec * option SubjectMatch * (string * string * string) :=
  (RuleType r, Auth r, clear_nets <$> RuleSubject r, (DestFQDN r, DestCategory r, DestCategoryGroup r)).

Lemma persistable_view now r r' :
  gate_view r' = gate_view r → policyRulePersistable now (Some r') = policyRulePersistable now (Some r).
Proof.
  unfold gate_view. intros [= Ht Ha Hs Hf Hc Hg].
  destruct (subject_checks (RuleSubject r)) as (Hs1&Hs2&Hs3&Hs4), (subject_checks (RuleSubject r')) as (Hs1'&Hs2'&Hs3'&Hs4').
  assert (authRuleHasDestination r' = authRuleHasDestination r) as Hd
    by (unfold authRuleHasDestination; by rewrite Hf, Hc, Hg).
  assert (ruleTypeOf r' = ruleTypeOf r) as Hty by (unfold ruleTypeOf; by rewrite Ht).
  unfold policyRulePersistable, validateAuthRule, validateAuthSource, validateAuthDestination.
  rewrite Hty, Hd, Ha, <- Hs1', <- Hs2', <- Hs3', <- Hs4', Hs, Hs1, Hs2, Hs3, Hs4. done.
Qed.

Lemma content_view r r' : content r' = content r → gate_view r' = gate_view r.
Proof.
  intros E. unfold gate_view.
  pose proof (f_equal RuleType E) as E1. pose proof (f_equal Auth E) as E2. pose proof (f_equal RuleSubject E) as E3.
  pose proof (f_equal DestFQDN E) as E4. pose proof (f_equal DestCategory E) as E5.
  pose proof (f_equal DestCategoryGroup E) as E6. cbn in E1, E2, E3, E4, E5, E6. congruence.
Qed.
Lemma kept_view r id : gate_view ((kept_rule r) <| ID := id |>) = gate_view r.
Proof. unfold kept_rule, auto_filter. by destruct (_ && _). Qed.
Lemma relink_view previous r : gate_view (relink previous r) = gate_view r.
Proof. unfold relink. by destruct (previous !! ID r). Qed.

Lemma publication_members (s : PolicyStore) r :
  draft_ok s → r ∈ ps_rules (sortLocked s) → ∃ r0, r0 ∈ ps_rules s ∧ content r = content r0.
Proof.
  intros Hd Hr. destruct (sortLocked_spec _ Hd) as (_&_&_&_&_&_&l&Hp&HF). rewrite Hp in Hr.
  apply list_elem_of_lookup in Hr as [i Hi]. destruct (Forall2_lookup_r _ _ _ _ _ HF Hi) as (r0&Hi0&Hc&_).
  exists r0. split; [by eapply list_elem_of_lookup_2|done].
Qed.

Lemma keep_persistable_elem now rs r : r ∈ keep_persistable now rs → policyRulePersistable now (Some r) = None.
Proof.
  induction rs as [|[r0|] rs IH]; cbn [keep_persistable]; [by rewrite elem_of_nil| |done].
  destruct (policyRulePersistable now (Some r0)) eqn:E; [rewrite bool_decide_true by eauto; done|].
  rewrite bool_decide_false by (by intros []). intros [->|?]%elem_of_cons; [done|by apply IH].
Qed.

Lemma backfill_view h rs seen n out k h' n' r :
  backfill_loop h rs seen n = (out, k, h', n') → r ∈ out → ∃ r0, r0 ∈ rs ∧ gate_view r = gate_view r0.
Proof.
  revert h seen n out k h' n'. induction rs as [|r0 rs IH]; intros h seen n out k h' n'; cbn [backfill_loop].
  { intros [= <- <- <- <-]. by rewrite elem_of_nil. }
  destruct (negb _ || _).
  - unfold copyPolicyRuleForPublication. destruct (match counters r0 with Some _ => _ | None => _ end) as [c0 h0].
    destruct (freshRuleID seen n) as [id n1]. destruct (backfill_loop h0 rs _ n1) as [[[out1 k1] h2] n2] eqn:E2.
    intros [= <- <- <- <-] [->|Hin]%elem_of_cons.
    + exists r0. split; [by left|]. unfold gate_view. cbn. by rewrite clear_nets_idem.
    + destruct (IH _ _ _ _ _ _ _ E2 Hin) as (r1&?&?). exists r1. split; [by right|done].
  - destruct (backfill_loop h rs _ n) as [[[out1 k1] h2] n2] eqn:E2. intros [= <- <- <- <-] [->|Hin]%elem_of_cons.
    + exists r0. split; [by left|done].
    + destruct (IH _ _ _ _ _ _ _ E2 Hin) as (r1&?&?). exists r1. split; [by right|done].
Qed.

Lemma ReplaceAll_persistable now rs s r :
  heap_ok (ps_heap s) → r ∈ ps_rules (ReplaceAll now rs s) → policyRulePersistable now (Some r) = None.
Proof.
  intros Hh. unfold ReplaceAll. destruct (replace_loop _ _ _ _) as [out n] eqn:E.
  apply replace_loop_spec in E as (Hi&Hc&HF).
  assert (draft_ok ((s <| ps_draws := n |>) <| ps_rules := out |>)) as Hd.
  { apply (bulk_draft (s <| ps_draws := n |>)); [done|done|]. unfold cells_ok. rewrite omap_none by done. split; constructor. }
  intros (r1&Hr1&Hcont)%(publication_members _ _ Hd). change (r1 ∈ out) in Hr1. apply list_elem_of_lookup in Hr1 as [i Hi1].
  destruct (Forall2_lookup_r _ _ _ _ _ HF Hi1) as (r0&Hi0&Hr0).
  rewrite (persistable_view now _ _ (content_view _ _ Hcont)), Hr0, (persistable_view now _ _ (kept_view _ _)).
  apply list_elem_of_lookup_2, list_elem_of_In, filter_In in Hi0 as [_ Hb]. by apply bool_decide_eq_true in Hb.
Qed.

Lemma load_rules_persistable now rs s r :
  r ∈ ps_rules (load_rules now rs s).2 → policyRulePersistable now (Some r) = None.
Proof.
  unfold load_rules, backfillIDsLocked. cbn [ps_rules ps_heap ps_draws].
  destruct (backfill_loop _ _ _ _) as [[[out k] h] n] eqn:E. cbn [snd ps_rules].
  intros (r1&->&Hr1)%list_elem_of_fmap. change (r1 ∈ out) in Hr1.
  destruct (backfill_view _ _ _ _ _ _ _ _ _ E Hr1) as (r0&Hr0&Hv).
  rewrite (persistable_view now _ _ (relink_view _ _)), (persistable_view now _ _ Hv).
  eapply keep_persistable_elem. exact Hr0.
Qed.

(** The bulk paths fail closed.  Whatever rules arrive through a bulk replacement, and
    whatever a reload finds on disk, every rule left in the store passes the persistence
    gate: an authentication rule is valid and scoped, and an access rule carries no subject
    selector it would ignore.  A reload that cannot read or decode its file keeps the rules
    that were running. *)
Theorem bulk_gate (now : Instant) (s : PolicyStore) (Hok : store_ok s) :
  (∀ rs r, r ∈ ps_rules (ReplaceAll now rs s) → policyRulePersistable now (Some r) = None) ∧
  (∀ okR okM path d, let '(ok, s', _) := Load now okR okM path s d in
     match disk_rules d !! path with
     | Some (Content _) => ok = true ∧ ∀ r, r ∈ ps_rules s' → policyRulePersistable now (Some r) = None
     | Some _ => ok = false ∧ ps_rules s' = ps_rules s
     | None => ok = true ∧ ps_rules s' = ps_rules s
     end).
Proof.
  split; [intros rs r; apply ReplaceAll_persistable, Hok|]. intros okR okM path d. unfold Load.
  destruct (disk_rules d !! path) as [[| |rs]|]; [done|done| |done].
  assert (store_ok (s <| ps_path := path |>)) as Hok' by by apply (store_ok_eq s).
  pose proof (load_rules_draft now rs _ Hok') as Hd. pose proof (load_rules_persistable now rs (s <| ps_path := path |>)) as Hp.
  destruct (load_rules now rs _) as [k s1]. cbn [snd] in Hd, Hp.
  assert (∀ r, r ∈ ps_rules (loadMeta d (sortLocked s1)) → policyRulePersistable now (Some r) = None) as Hall.
  { intros r. destruct (loadMeta_frame d (sortLocked s1)) as [-> _]. intros (r0&Hr0&Hc)%publication_members; [|done].
    rewrite (persistable_view now _ _ (content_view _ _ Hc)). by apply Hp. }
  by destruct (0 <? k)%nat.
Qed.
End gate.

(** ** Persistence *)

Section roundtrip.
Context `{Unicode, Idna, TimeData, SortSlice, RuleIDs}.

(** A definition as the rules file holds it: no accounting, no display field. *)
Definition unaccounted (r : PolicyRule) : PolicyRule := r <| HitCount := 0 |> <| lastHitUnix := 0 |> <| LastHit := "" |>.
Definition strip (r : PolicyRule) : PolicyRule := unaccounted (content r).
(** Every string of the definition is valid UTF-8. *)
Definition utf8_rule (r : PolicyRule) : Prop := json_rule (strip r) = strip r.

Lemma json_subject_clear (sm : option SubjectMatch) : json_subject <$> (clear_nets <$> sm) = json_subject <$> sm.
Proof. destruct sm as [[v ps]|]; [|done]. unfold json_subject, clear_nets. cbn. by rewrite map_map. Qed.

Lemma saved_strip r : saved_rule r = json_rule (strip r).
Proof.
  destruct r. unfold saved_rule, strip, content, json_rule. cbv -[json_string json_schedule json_subject json_auth fmap option_fmap clear_nets map].
  by rewrite json_subject_clear.
Qed.
Lemma strip_content r r' : content r' = content r → strip r' = strip r.
Proof. intros E. exact (f_equal unaccounted E). Qed.
Lemma content_strip r : content (strip r) = strip r.
Proof. destruct r. unfold strip. cbv -[clear_nets fmap option_fmap]. by rewrite clear_nets_idem. Qed.
Lemma strip_idem r : strip (strip r) = strip r.
Proof. destruct r. cbv -[clear_nets fmap option_fmap]. by rewrite clear_nets_idem. Qed.
Lemma strip_relink previous r : strip (relink previous r) = strip r.
Proof. unfold relink. destruct (previous !! ID r) as [c|]; [|done]. destruct r. reflexivity. Qed.
Lemma strip_Priority r : Priority (strip r) = Priority r.
Proof. reflexivity. Qed.
Lemma strip_ID r : ID (strip r) = ID r.
Proof. reflexivity. Qed.
Lemma strip_view r : gate_view (strip r) = gate_view r.
Proof. destruct r. unfold gate_view, strip. cbv -[clear_nets fmap option_fmap]. by rewrite clear_nets_idem. Qed.

Lemma backfill_noop h rs seen n :
  ids_ok seen rs → backfill_loop h rs seen n = (rs, 0%nat, h, n).
Proof.
  revert seen. induction rs as [|r rs IH]; intros seen [Ha Hn]; cbn [backfill_loop]; [done|].
  apply Forall_cons in Ha as [[Hv Hs] Ha]. cbn in Hn. apply NoDup_cons in Hn as [Hr Hn].
  rewrite Hv, bool_decide_false by done. cbn [negb orb]. rewrite IH; [done|]. split; [|done].
  apply Forall_forall. intros r' Hr'. rewrite Forall_forall in Ha. destruct (Ha r' Hr') as [? ?]. split; [done|].
  apply not_elem_of_union. split; [|done]. rewrite elem_of_singleton. intros E. apply Hr. rewrite <- E.
  by apply list_elem_of_fmap_2.
Qed.

Lemma keep_all now rs :
  Forall (λ r, policyRulePersistable now (Some r) = None) rs → keep_persistable now (map Some rs) = rs.
Proof.
  induction 1 as [|r rs Hr _ IH]; [done|]. cbn [map keep_persistable]. rewrite Hr, bool_decide_false by (by intros []).
  by rewrite IH.
Qed.

(** Reading back the saved image of a store installs its definitions. *)
Lemma load_saved now s s0 :
  store_ok s → Forall utf8_rule (ps_rules s) → Forall (λ r, policyRulePersistable now (Some r) = None) (ps_rules s) →
  ∃ s1, load_rules now (map (Some ∘ saved_rule) (ps_rules s)) s0 = (0%nat, s1) ∧
    map strip (ps_rules s1) = map strip (ps_rules s).
Proof.
  intros Hok Hutf Hper.
  assert (map (fmap json_rule) (map (Some ∘ saved_rule) (ps_rules s)) = map Some (map strip (ps_rules s))) as Hdec.
  { rewrite !map_map. apply map_ext_in. intros r Hr%list_elem_of_In. rewrite Forall_forall in Hutf.
    specialize (Hutf r Hr). unfold utf8_rule in Hutf. cbn. rewrite saved_strip, Hutf. cbn. by rewrite Hutf. }
  unfold load_rules, backfillIDsLocked. rewrite Hdec, keep_all.
  2: { apply Forall_map. eapply Forall_impl; [exact Hper|]. unfold compose. intros r Hr.
       by rewrite (persistable_view now _ _ (strip_view r)). }
  cbn [ps_rules ps_heap ps_draws]. change (ps_rules (s0 <| ps_rules := map strip (ps_rules s) |>)) with (map strip (ps_rules s)).
  rewrite backfill_noop.
  2: { split.
       - apply Forall_map. eapply Forall_impl; [apply (so_valid _ Hok)|]. unfold compose. intros r Hr.
         by rewrite strip_ID.
       - rewrite map_map. erewrite map_ext; [apply (so_ids _ Hok)|]. intros. apply strip_ID. }
  eexists. split; [reflexivity|].
  transitivity (map strip (map (relink (previous_counters (ps_rules s0))) (map strip (ps_rules s)))); [reflexivity|].
  rewrite !map_map. apply map_ext. intros r. by rewrite strip_relink, strip_idem.
Qed.

Lemma sorted_strip rs : sorted_rules rs → sorted_rules (map strip rs).
Proof.
  intros Hs. unfold sorted_rules in *. induction Hs as [|r rs _ IH Hr]; cbn [map]; constructor; [done|].
  apply Forall_map. eapply Forall_impl; [exact Hr|]. unfold compose. intros. by rewrite !strip_Priority.
Qed.

End roundtrip.

(** ** Concrete runs *)

Lemma map_eq_Forall {A B} (f g : A → B) l : map f l = map g l → Forall (λ x, f x = g x) l.
Proof. induction l as [|x l IH]; [constructor|]. intros [= Hx Hl]. constructor; [done|by apply IH]. Qed.

Section test_persist.
#[local] Instance test_U : Unicode := ascii_unicode.
#[local] Instance test_I : Idna := test_idna.
#[local] Instance test_T : TimeData := test_time.
#[local] Instance test_S : SortSlice := stable_sort.
#[local] Instance test_R : RuleIDs := test_ids.
#[local] Instance test_E : PolicyEnv := test_env.
#[local] Instance test_C : Clock := test_clock.

Lemma bulk_gate_witness :
  length (ps_rules (ReplaceAll 0 [test_exempt <| DestFQDN := "" |>; test_exempt; test_allow] test_store)) = 2%nat ∧
  ∀ r, r ∈ ps_rules (ReplaceAll 0 [test_exempt <| DestFQDN := "" |>; test_exempt; test_allow] test_store) →
    policyRulePersistable 0 (Some r) = None.
Proof.
  split; [vm_compute; reflexivity|]. apply (bulk_gate 0 test_store test_store_ok).
Defined.

End test_persist.
