(* ===== verification/Lockout.v ===== *)
(** * Login lockout and admin-API rate limiting

    [internal/lockout/lockout.go]: the two-tier login limiter (a lock per
    (client IP, username) pair, a lock per account with a trusted-IP bypass) and
    the per-IP admin-API limiter, with the limiter calls of the login handler
    ([apiAuthLogin] in [ui_auth.go]).  Every operation takes the instant
    [time.Now()] returned.  SHA-256 enters as the class [Sha256]. *)

From S2P Require Import Prelude GoStrings.

(** ** Constants *)

Definition MaxAttempts : Z := 5.
Definition AccountMaxAttempts : Z := 20.
Definition Window : Duration := 10 * Minute.
Definition LockDuration : Duration := 15 * Minute.
Definition TrustTTL : Duration := 30 * 24 * Hour.
Definition trustMaxIPs : nat := 8.
Definition MaxUsernameKeyLen : nat := 256.
Definition usernameDigestLen : nat := String.length "…" + 16.

(** ** Keys *)

(** [utf8.RuneStart(username[i])]. *)
Definition RuneStart_at (s : string) (i : nat) : bool :=
  match byte_at s i with
  | Some c => negb (Z.land (byte_val c) 192 =? 128)
  | None => false
  end.

(** The bounded walk back to a rune boundary: [tries] iterations at most. *)
Fixpoint cut_back (tries : nat) (s : string) (cut : nat) : nat :=
  match tries, cut with
  | S tries, S cut' => if RuneStart_at s cut then cut else cut_back tries s cut'
  | _, _ => cut
  end.

Definition nul : ascii := "000"%char.

(** [pairKey]. *)
Definition pairKey (ip username : string) : string := ip ++ String nul username.

(** [splitPairKey]. *)
Definition splitPairKey (key : string) : string * string :=
  match IndexByte key nul with
  | Some idx => (stake idx key, sdrop (S idx) key)
  | None => ("", key)
  end.

(** ** Entries *)

Record lockoutEntry := mkEntry {
  attempts : Z;
  firstFail : option Instant;
  lockedUntil : option Instant;
}.

Definition new_entry : lockoutEntry := mkEntry 0 None None.

(** [lockRemaining] on a non-nil entry; [int(d.Seconds())] truncates. *)
Definition lockRemaining (e : lockoutEntry) (now : Instant) : Z :=
  match lockedUntil e with
  | None => 0
  | Some u =>
      let remaining := time_sub u now in
      if remaining <=? 0 then 0 else remaining / Second + 1
  end.

Definition lockRemaining_opt (e : option lockoutEntry) (now : Instant) : Z :=
  match e with Some e => lockRemaining e now | None => 0 end.

(** [recordFailureLocked]: the flag is "this failure just tripped the lock".  The
    window reset and the count that follows it. *)
Definition reset_window (e : lockoutEntry) (now : Instant) : lockoutEntry :=
  match firstFail e with
  | Some f => if (time_sub now f >? Window) && (lockRemaining e now =? 0) then new_entry else e
  | None => e
  end.

Definition recordFailureLocked (e0 : lockoutEntry) (now : Instant) (maxAttempts : Z)
    : bool * lockoutEntry :=
  let e := reset_window e0 now in
  let ff := if attempts e =? 0 then Some now else firstFail e in
  let n := attempts e + 1 in
  if n =? maxAttempts
  then (true, mkEntry n ff (Some (now + LockDuration)))
  else (false, mkEntry n ff (lockedUntil e)).

(** ** The login limiter *)

Record LoginLimiter := mkLimiter {
  pairs : gmap string lockoutEntry;
  accounts : gmap string lockoutEntry;
  trusted : gmap string (gmap string Instant);
}.

Definition NewLoginLimiter : LoginLimiter := mkLimiter ∅ ∅ ∅.

#[global] Instance LoginLimiter_eta : Eta LoginLimiter :=
  λ l, mkLimiter (pairs l) (accounts l) (trusted l).

Record LockedEntry := mkLocked {
  le_Tier : string; le_Username : string; le_IP : string; le_SecondsRemaining : Z }.

Section limiter.
Context `{Sha256, RangeOrder, SortSlice}.

(** [boundUsername]. *)
Definition boundUsername (username : string) : string :=
  if (String.length username <=? MaxUsernameKeyLen)%nat then username else
  let cut0 := (MaxUsernameKeyLen - usernameDigestLen)%nat in
  let cut1 := cut_back 4 username cut0 in
  let cut := if (cut1 =? 0)%nat || negb (RuneStart_at username cut1) then cut0 else cut1 in
  stake cut username ++ "…" ++ stake 16 (sha256_hex username).

(** [isTrustedLocked]. *)
Definition isTrustedLocked (l : LoginLimiter) (ip username : string) (now : Instant) : bool :=
  match trusted l !! username ≫= (.!! ip) with
  | Some ts => time_sub now ts <=? TrustTTL
  | None => false
  end.

(** [pairLockSecondsLocked]: the seconds and the limiter with an expired entry
    lazily deleted. *)
Definition pairLockSecondsLocked (l : LoginLimiter) (ip username : string) (now : Instant)
    : Z * LoginLimiter :=
  let key := pairKey ip username in
  match pairs l !! key with
  | Some e =>
      match lockedUntil e with
      | None => (0, l)
      | Some _ =>
          let secs := lockRemaining e now in
          if secs =? 0 then (0, l <| pairs := delete key (pairs l) |>)
          else if isTrustedLocked l ip username now then (secs, l)
          else
            let acctSecs := lockRemaining_opt (accounts l !! username) now in
            (if acctSecs >? secs then acctSecs else secs, l)
      end
  | None => (0, l)
  end.

(** [accountLockSecondsLocked]. *)
Definition accountLockSecondsLocked (l : LoginLimiter) (ip username : string) (now : Instant)
    : Z * LoginLimiter :=
  match accounts l !! username with
  | Some e =>
      match lockedUntil e with
      | None => (0, l)
      | Some _ =>
          let secs := lockRemaining e now in
          if secs =? 0 then (0, l <| accounts := delete username (accounts l) |>)
          else if isTrustedLocked l ip username now then (0, l)
          else (secs, l)
      end
  | None => (0, l)
  end.

(** [Check]. *)
Definition Check_login (l : LoginLimiter) (now : Instant) (ip username0 : string)
    : (bool * Z) * LoginLimiter :=
  let username := boundUsername username0 in
  let '(secs, l) := pairLockSecondsLocked l ip username now in
  if secs >? 0 then ((true, secs), l) else
  let '(secs, l) := accountLockSecondsLocked l ip username now in
  if secs >? 0 then ((true, secs), l) else ((false, 0), l).

(** [CheckPair]. *)
Definition CheckPair (l : LoginLimiter) (now : Instant) (ip username0 : string)
    : (bool * Z) * LoginLimiter :=
  let '(secs, l) := pairLockSecondsLocked l ip (boundUsername username0) now in
  if secs >? 0 then ((true, secs), l) else ((false, 0), l).

(** One failure recorded in a map of entries, creating a missing entry. *)
Definition fail_in (m : gmap string lockoutEntry) (key : string) (now : Instant) (max : Z)
    : bool * gmap string lockoutEntry :=
  let '(tripped, e) := recordFailureLocked (default new_entry (m !! key)) now max in
  (tripped, <[key := e]> m).

(** [RecordPairFailure]. *)
Definition RecordPairFailure (l : LoginLimiter) (now : Instant) (ip username0 : string)
    : bool * LoginLimiter :=
  let '(tripped, ps) := fail_in (pairs l) (pairKey ip (boundUsername username0)) now MaxAttempts in
  (tripped, l <| pairs := ps |>).

(** [RecordFailure]. *)
Definition RecordFailure (l : LoginLimiter) (now : Instant) (ip username0 : string)
    : bool * LoginLimiter :=
  let username := boundUsername username0 in
  let '(pairTripped, ps) := fail_in (pairs l) (pairKey ip username) now MaxAttempts in
  let '(acctTripped, accts) := fail_in (accounts l) username now AccountMaxAttempts in
  (pairTripped || acctTripped, mkLimiter ps accts (trusted l)).

(** The eviction scan of [RecordSuccess] over one iteration order. *)
Fixpoint oldest (entries : list (string * Instant)) (best : string * Instant) : string * Instant :=
  match entries with
  | [] => best
  | (tip, ts) :: rest => oldest rest (if ts <? best.2 then (tip, ts) else best)
  end.

(** [RecordSuccess]. *)
Definition RecordSuccess (l : LoginLimiter) (now : Instant) (ip username0 : string) : LoginLimiter :=
  let username := boundUsername username0 in
  let set := <[ip := now]> (default ∅ (trusted l !! username)) in
  let set' := if (trustMaxIPs <? size set)%nat
              then delete (oldest (range set) ("", now)).1 set else set in
  mkLimiter (delete (pairKey ip username) (pairs l)) (accounts l)
            (<[username := set']> (trusted l)).

(** The test of [Cleanup] on one entry: [true] keeps it. *)
Definition cleanup_keeps (now : Instant) (e : lockoutEntry) : bool :=
  match lockedUntil e with
  | Some u => negb (u <? now)
  | None => match firstFail e with
            | Some f => negb (time_sub now f >? Window)
            | None => true
            end
  end.

(** [Cleanup]. *)
Definition Cleanup (l : LoginLimiter) (now : Instant) : LoginLimiter :=
  let live := λ set : gmap string Instant,
    filter (λ kv : string * Instant, negb (time_sub now kv.2 >? TrustTTL) = true) set in
  mkLimiter
    (filter (λ kv : string * lockoutEntry, cleanup_keeps now kv.2 = true) (pairs l))
    (filter (λ kv : string * lockoutEntry, cleanup_keeps now kv.2 = true) (accounts l))
    (filter (λ kv : string * gmap string Instant, negb (size kv.2 =? 0)%nat = true)
            (live <$> trusted l)).

(** [AttemptsLeft]. *)
Definition AttemptsLeft (l : LoginLimiter) (ip username : string) : Z :=
  match pairs l !! pairKey ip (boundUsername username) with
  | None => MaxAttempts
  | Some e => Z.max 0 (MaxAttempts - attempts e)
  end.

(** [ResetUser]. *)
Definition ResetUser (l : LoginLimiter) (username0 : string) : LoginLimiter :=
  let username := boundUsername username0 in
  mkLimiter
    (filter (λ kv : string * lockoutEntry, HasSuffix kv.1 (String nul username) = false) (pairs l))
    (delete username (accounts l)) (trusted l).

(** [Snapshot]. *)
Definition Snapshot (l : LoginLimiter) (now : Instant) : list LockedEntry :=
  let accts := flat_map (λ kv : string * lockoutEntry,
    let secs := lockRemaining kv.2 now in
    if secs >? 0 then [mkLocked "account" kv.1 "" secs] else []) (range (accounts l)) in
  let prs := flat_map (λ kv : string * lockoutEntry,
    let secs := lockRemaining kv.2 now in
    if secs >? 0 then let '(ip, u) := splitPairKey kv.1 in [mkLocked "pair" u ip secs] else [])
    (range (pairs l)) in
  sort_slice (λ a b, if negb (le_Username a =? le_Username b)%string
                     then str_lt (le_Username a) (le_Username b)
                     else str_lt (le_IP a) (le_IP b)) (accts ++ prs)%list.

(** The limiter's part in [apiAuthLogin]: a locked attempt is refused before any
    credential is verified, a verified failure is recorded, a verified success
    marks the client trusted.  [ok] is the verdict of the credential check (password
    and TOTP); the first result says whether credentials were verified at all.  The
    handler calls [Check] once more, 300 ms after a failure that locked, for the
    seconds of its message: in a trace that is an [OpCheck] at the later instant. *)
Definition login_attempt (l : LoginLimiter) (now : Instant) (ip username : string) (ok : bool)
    : bool * LoginLimiter :=
  let '((locked, _), l) := Check_login l now ip username in
  if locked then (false, l)
  else if ok then (true, RecordSuccess l now ip username)
  else (true, (RecordFailure l now ip username).2).
End limiter.

(** ** The admin-API rate limiter *)

Definition Burst : Z := 60.
Definition RateWindow : Duration := 1 * Minute.

Record apiRateEntry := mkRate { count : Z; windowStart : Instant }.
Abbreviation APIRateLimiter := (gmap string apiRateEntry).

(** [Allow]. *)
Definition Allow_api (a : APIRateLimiter) (now : Instant) (ip : string) : bool * APIRateLimiter :=
  match a !! ip with
  | Some e =>
      if time_sub now (windowStart e) >? RateWindow
      then (true, <[ip := mkRate 1 now]> a)
      else let n := count e + 1 in (n <=? Burst, <[ip := mkRate n (windowStart e)]> a)
  | None => (true, <[ip := mkRate 1 now]> a)
  end.

(** [APIRateLimiter.Cleanup]. *)
Definition Cleanup_api (a : APIRateLimiter) (now : Instant) : APIRateLimiter :=
  filter (λ kv : string * apiRateEntry, negb (time_sub now (windowStart kv.2) >? RateWindow) = true) a.

(** ** Entries over time

    [entry_wf t max e]: what the failure counter of a live entry looks like at
    instant [t].  [entry_step] collects everything an operation at instant [t] can
    do to one entry of a map: leave it, drop it once it can no longer affect a
    decision, or record a failure in it. *)

Definition entry_wf (t : Instant) (max : Z) (oe : option lockoutEntry) : Prop :=
  match oe with
  | None => True
  | Some e => 1 ≤ attempts e ∧ ∃ f, firstFail e = Some f ∧ f ≤ t ∧
      match lockedUntil e with
      | None => attempts e < max
      | Some u => f + LockDuration ≤ u ∧ max ≤ attempts e
      end
  end.

(** An entry that can no longer affect a decision taken at [t] or later. *)
Definition dead (t : Instant) (e : lockoutEntry) : Prop :=
  match lockedUntil e with
  | Some u => u ≤ t
  | None => match firstFail e with Some f => Window < t - f | None => False end
  end.

Definition unlocked (t : Instant) (oe : option lockoutEntry) : Prop :=
  lockRemaining_opt oe t = 0.

Definition fail_entry (max : Z) (t : Instant) (oe : option lockoutEntry) : lockoutEntry :=
  (recordFailureLocked (default new_entry oe) t max).2.

Inductive entry_step (max : Z) (t : Instant) :
    option lockoutEntry → option lockoutEntry → Prop :=
  | es_same oe : entry_step max t oe oe
  | es_drop e : dead t e → entry_step max t (Some e) None
  | es_fail oe : entry_step max t oe (Some (fail_entry max t oe)).

Lemma window_cmp now f : (time_sub now f >? Window) = (now - f >? Window).
Proof. apply time_sub_gt. by vm_compute. Qed.

Lemma lockRemaining_zero e now :
  (lockRemaining e now =? 0) = match lockedUntil e with None => true | Some u => u <=? now end.
Proof.
  unfold lockRemaining. destruct (lockedUntil e) as [u|]; [|done].
  rewrite (time_sub_le u now 0) by (by vm_compute).
  destruct (Z.leb_spec (u - now) 0); [lia|].
  assert (0 ≤ time_sub u now / Second).
  { apply Z.div_pos; [|by vm_compute]. unfold time_sub, int64_min, int64_max. lia. }
  lia.
Qed.

Lemma lockRemaining_nonneg e now : 0 ≤ lockRemaining e now.
Proof.
  unfold lockRemaining. destruct (lockedUntil e) as [u|]; [|done].
  destruct (time_sub u now <=? 0) eqn:E; [done|]. bprop.
  pose proof (Z.div_pos (time_sub u now) Second). unfold Second in *. lia.
Qed.

(** A failure on an entry that is fresh after the window reset. *)
Lemma recordFailure_fresh e max t :
  1 < max → reset_window e t = new_entry →
  recordFailureLocked e t max = (false, mkEntry 1 (Some t) None).
Proof.
  intros Hmax He. unfold recordFailureLocked. rewrite He.
  change (attempts new_entry) with 0. change (0 + 1) with 1.
  by replace (1 =? max) with false by lia.
Qed.

Lemma reset_window_dead e t max :
  entry_wf t max (Some e) → dead t e → reset_window e t = new_entry.
Proof.
  intros (_&f&Hf&Hft&Hl) Hd. unfold reset_window, dead in *.
  rewrite Hf, window_cmp, lockRemaining_zero in *.
  assert (LockDuration = 900000000000 ∧ Window = 600000000000) as [HL HW] by done.
  destruct (lockedUntil e) as [u|].
  - replace (u <=? t) with true by lia.
    by replace (t - f >? Window) with true by (rewrite Z.gtb_ltb; lia).
  - by replace (t - f >? Window) with true by (rewrite Z.gtb_ltb; lia).
Qed.

Lemma reset_window_live e t f max :
  entry_wf t max (Some e) → ¬ dead t e → firstFail e = Some f → reset_window e t = e.
Proof.
  intros _ Hd Hf. unfold reset_window, dead in *. rewrite Hf, window_cmp, lockRemaining_zero in *.
  destruct (lockedUntil e) as [u|].
  - replace (u <=? t) with false by lia. by rewrite andb_false_r.
  - by replace (t - f >? Window) with false by (rewrite Z.gtb_ltb; lia).
Qed.

#[global] Instance dead_dec t e : Decision (dead t e).
Proof. unfold dead. repeat case_match; apply _. Defined.

(** The three shapes of a recorded failure: a fresh count, one more attempt, or
    the attempt that trips the lock. *)
Lemma fail_entry_cases max t oe :
  1 < max → entry_wf t max oe →
  (fail_entry max t oe = mkEntry 1 (Some t) None ∧ (oe = None ∨ ∃ e, oe = Some e ∧ dead t e)) ∨
  (∃ e f, oe = Some e ∧ ¬ dead t e ∧ firstFail e = Some f ∧
    ((lockedUntil e = None ∧ attempts e + 1 < max ∧
        fail_entry max t oe = mkEntry (attempts e + 1) (Some f) None) ∨
     (lockedUntil e = None ∧ attempts e + 1 = max ∧
        fail_entry max t oe = mkEntry max (Some f) (Some (t + LockDuration))) ∨
     (∃ u, lockedUntil e = Some u ∧ max ≤ attempts e ∧
        fail_entry max t oe = mkEntry (attempts e + 1) (Some f) (Some u)))).
Proof.
  intros Hmax Hwf. destruct oe as [e|]; unfold fail_entry; simpl default.
  2: { left. by rewrite recordFailure_fresh; [auto..|]. }
  destruct (decide (dead t e)) as [Hd|Hd].
  { left. rewrite recordFailure_fresh by eauto using reset_window_dead. eauto. }
  right. pose proof Hwf as (Ha & f & Hf & _ & Hu). exists e, f.
  unfold recordFailureLocked. rewrite (reset_window_live _ _ _ _ Hwf Hd Hf), Hf.
  replace (attempts e =? 0) with false by lia. split_and!; [done..|].
  destruct (lockedUntil e) as [u|].
  - right; right. replace (_ =? max) with false by lia. eexists. split_and!; [done|lia|done].
  - destruct (Z.eqb_spec (attempts e + 1) max) as [->|]; [right; by left|left].
    split_and!; [done|lia|done].
Qed.

Lemma entry_wf_mono t t' max oe : t ≤ t' → entry_wf t max oe → entry_wf t' max oe.
Proof.
  intros Ht. destruct oe as [e|]; simpl; [|done].
  intros (?&f&?&?&?). split; [done|]. exists f. split_and!; [done|lia|done].
Qed.

Lemma entry_step_wf max t oe oe' :
  1 < max → entry_wf t max oe → entry_step max t oe oe' → entry_wf t max oe'.
Proof.
  intros Hmax Hwf Hs. revert Hwf. destruct Hs as [oe|e|oe]; [done..|]. intros Hwf.
  destruct (fail_entry_cases max t oe) as
    [[-> _]|(e&f&->&_&Hf&[(_&?&->)|[(_&?&->)|(u&Hu&?&->)]])]; [done..| | | |]; simpl.
  { split; [lia|by exists t]. }
  all: destruct Hwf as (?&f'&Hf'&?&Hl); simplify_eq; split; [lia|]; eexists.
  all: rewrite ?Hu in Hl; split_and!; try done; lia.
Qed.

Lemma entry_steps_wf max t oe oe' :
  1 < max → rtc (entry_step max t) oe oe' → entry_wf t max oe → entry_wf t max oe'.
Proof. intros ?. induction 1; eauto using entry_step_wf. Qed.

(** *** The failure budget

    [budget max T0 oe] bounds how many more failures an entry can take while
    unlocked during the span [[T0, T0 + Window]]. *)
Definition budget (max : Z) (T0 : Instant) (oe : option lockoutEntry) : Z :=
  match oe with
  | None => max
  | Some e =>
      match lockedUntil e, firstFail e with
      | Some u, _ => if T0 + Window <? u then 0 else max
      | None, Some f => if T0 <=? f then max - attempts e else 2 * max - 1 - attempts e
      | None, None => max
      end
  end.

Lemma budget_bounds max T0 t oe :
  1 < max → entry_wf t max oe → 0 ≤ budget max T0 oe ≤ 2 * max - 2.
Proof.
  intros Hmax Hwf. destruct oe as [e|]; simpl; [|lia].
  destruct Hwf as (?&f&->&?&Hl). destruct (lockedUntil e) as [u|]; repeat case_if; lia.
Qed.

Lemma budget_step max T0 t oe oe' :
  1 < max → T0 ≤ t ≤ T0 + Window → entry_wf t max oe → entry_step max t oe oe' →
  budget max T0 oe' ≤ budget max T0 oe.
Proof.
  intros Hmax Ht Hwf Hs. revert Hwf. destruct Hs as [oe|e Hd|oe]; intros Hwf; [done| |].
  - destruct Hwf as (?&f&Hf&?&Hl). unfold dead, budget in *. rewrite Hf in *.
    destruct (lockedUntil e) as [u|]; repeat case_if; lia.
  - pose proof (budget_bounds max T0 t oe Hmax Hwf).
    assert (LockDuration = 900000000000 ∧ Window = 600000000000) as [HL HW] by done.
    destruct (fail_entry_cases max t oe) as
      [[-> [->|(e&->&Hd)]]|(e&f&->&Hd&Hf&[(Hu&?&->)|[(Hu&?&->)|(u&Hu&?&->)]])]; [done..| | | | |];
      unfold budget, dead in *; simpl in *; rewrite ?Hu in *; rewrite ?Hf in *;
      try destruct Hwf as (?&f'&Hf'&?&Hl); rewrite ?Hf' in *;
      try destruct (lockedUntil e) as [u'|]; simplify_eq; repeat case_if; lia.
Qed.

Lemma budget_steps max T0 t oe oe' :
  1 < max → T0 ≤ t ≤ T0 + Window → rtc (entry_step max t) oe oe' → entry_wf t max oe →
  budget max T0 oe' ≤ budget max T0 oe.
Proof.
  intros ??. induction 1 as [|??? Hs _ IH]; intros Hwf; [done|].
  pose proof (budget_step _ T0 _ _ _ ltac:(done) ltac:(done) Hwf Hs).
  specialize (IH (entry_step_wf _ _ _ _ ltac:(done) Hwf Hs)). lia.
Qed.

(** A failure recorded while the entry is unlocked spends one unit. *)
Lemma budget_fail max T0 t oe :
  1 < max → T0 ≤ t ≤ T0 + Window → entry_wf t max oe → unlocked t oe →
  budget max T0 (Some (fail_entry max t oe)) + 1 ≤ budget max T0 oe.
Proof.
  intros Hmax Ht Hwf Hun.
  assert (LockDuration = 900000000000 ∧ Window = 600000000000) as [HL HW] by done.
  destruct (fail_entry_cases max t oe) as
    [[-> [->|(e&->&Hd)]]|(e&f&->&Hd&Hf&[(Hu&?&->)|[(Hu&?&->)|(u&Hu&?&->)]])]; [done..| | | | |].
  5: { exfalso. apply Z.eqb_eq in Hun. simpl in Hun. rewrite lockRemaining_zero, Hu in Hun.
       unfold dead in Hd. rewrite Hu in Hd. lia. }
  all: unfold budget, dead in *; simpl in *; rewrite ?Hu in *; rewrite ?Hf in *;
    try destruct Hwf as (?&f'&Hf'&?&Hl); rewrite ?Hf' in *;
    try destruct (lockedUntil e) as [u'|]; simplify_eq; repeat case_if; lia.
Qed.

(** ** Traces of limiter operations

    Everything the process does to the limiter, in the order it does it: each
    public method runs under the limiter's mutex, so an execution is a sequence of
    timed operations. *)

Inductive LoginOp :=
  | OpLogin (ip username : string) (ok : bool)
  | OpCheck (ip username : string)
  | OpCheckPair (ip username : string)
  | OpPairFailure (ip username : string)
  | OpCleanup
  | OpResetUser (username : string).

Section traces.
Context `{Sha256, RangeOrder}.

(** One operation; the flag is "credentials were verified". *)
Definition login_step (l : LoginLimiter) (t : Instant) (op : LoginOp) : bool * LoginLimiter :=
  match op with
  | OpLogin ip u ok => login_attempt l t ip u ok
  | OpCheck ip u => (false, (Check_login l t ip u).2)
  | OpCheckPair ip u => (false, (CheckPair l t ip u).2)
  | OpPairFailure ip u => (false, (RecordPairFailure l t ip u).2)
  | OpCleanup => (false, Cleanup l t)
  | OpResetUser u => (false, ResetUser l u)
  end.

Definition trace := list (Instant * LoginOp).

(** Instants that do not decrease and stay in [[t, hi]]. *)
Fixpoint timed (t hi : Instant) (tr : trace) : Prop :=
  match tr with
  | [] => True
  | (t', _) :: tr => t ≤ t' ≤ hi ∧ timed t' hi tr
  end.

(** The operations of [tr] that verified credentials and satisfy [P]. *)
Fixpoint tally (P : LoginLimiter → Instant → LoginOp → bool) (l : LoginLimiter) (tr : trace) : Z :=
  match tr with
  | [] => 0
  | (t, op) :: tr =>
      let '(verified, l') := login_step l t op in
      (if verified && P l t op then 1 else 0) + tally P l' tr
  end.

Definition limiter_wf (t : Instant) (l : LoginLimiter) : Prop :=
  (∀ k, entry_wf t MaxAttempts (pairs l !! k)) ∧
  (∀ u, entry_wf t AccountMaxAttempts (accounts l !! u)).

(** The operations that forgive: a success of that very pair, an explicit reset. *)
Definition keeps_pair (key : string) (op : LoginOp) : Prop :=
  match op with
  | OpLogin ip u true => pairKey ip (boundUsername u) ≠ key
  | OpResetUser u => HasSuffix key (String nul (boundUsername u)) = false
  | _ => True
  end.
Definition keeps_account (user : string) (op : LoginOp) : Prop :=
  match op with OpResetUser u => boundUsername u ≠ user | _ => True end.

(** *** What one operation does to one entry *)

Lemma pairLock_step l ip u t :
  let l' := (pairLockSecondsLocked l ip u t).2 in
  (∀ k, entry_step MaxAttempts t (pairs l !! k) (pairs l' !! k)) ∧
  accounts l' = accounts l ∧ trusted l' = trusted l.
Proof.
  unfold pairLockSecondsLocked. destruct (pairs l !! pairKey ip u) as [e|] eqn:E; [|by split; [constructor|]].
  destruct (lockedUntil e) as [v|] eqn:Ev; [|by split; [constructor|]].
  destruct (lockRemaining e t =? 0) eqn:Ez; [|case_if; by split; [constructor|]].
  split; [|done]. intros k. cbn. destruct (decide (k = pairKey ip u)) as [->|].
  - rewrite E, lookup_delete_eq. constructor. unfold dead. rewrite Ev.
    rewrite lockRemaining_zero, Ev in Ez. bprop. done.
  - rewrite lookup_delete_ne by done. constructor.
Qed.

Lemma accountLock_step l ip u t :
  let l' := (accountLockSecondsLocked l ip u t).2 in
  (∀ k, entry_step AccountMaxAttempts t (accounts l !! k) (accounts l' !! k)) ∧
  pairs l' = pairs l ∧ trusted l' = trusted l.
Proof.
  unfold accountLockSecondsLocked. destruct (accounts l !! u) as [e|] eqn:E; [|by split; [constructor|]].
  destruct (lockedUntil e) as [v|] eqn:Ev; [|by split; [constructor|]].
  destruct (lockRemaining e t =? 0) eqn:Ez; [|case_if; by split; [constructor|]].
  split; [|done]. intros k. cbn. destruct (decide (k = u)) as [->|].
  - rewrite E, lookup_delete_eq. constructor. unfold dead. rewrite Ev.
    rewrite lockRemaining_zero, Ev in Ez. bprop. done.
  - rewrite lookup_delete_ne by done. constructor.
Qed.

Lemma check_step l ip u t :
  let l' := (Check_login l t ip u).2 in
  (∀ k, entry_step MaxAttempts t (pairs l !! k) (pairs l' !! k)) ∧
  (∀ k, entry_step AccountMaxAttempts t (accounts l !! k) (accounts l' !! k)) ∧
  trusted l' = trusted l.
Proof.
  unfold Check_login. pose proof (pairLock_step l ip (boundUsername u) t) as Hp.
  destruct (pairLockSecondsLocked _ _ _ _) as [s1 l1]. destruct Hp as (Hp&Ha&Ht); simpl in *.
  case_if; simpl; [rewrite Ha; by split_and!; [..|constructor|]|].
  pose proof (accountLock_step l1 ip (boundUsername u) t) as Hq.
  destruct (accountLockSecondsLocked _ _ _ _) as [s2 l2]. destruct Hq as (Hq&Hp'&Ht'); simpl in *.
  rewrite Ha in Hq. case_if; simpl; rewrite Hp', Ht'; by split_and!.
Qed.

(** An admitted attempt found its pair unlocked, and its account unlocked or
    bypassed. *)
Lemma check_unlocked l ip u t l' secs :
  Check_login l t ip u = ((false, secs), l') →
  unlocked t (pairs l' !! pairKey ip (boundUsername u)) ∧
  (isTrustedLocked l ip (boundUsername u) t = false → unlocked t (accounts l' !! boundUsername u)).
Proof.
  unfold Check_login. set (b := boundUsername u).
  pose proof (pairLock_step l ip b t) as Hs.
  destruct (pairLockSecondsLocked l ip b t) as [s1 l1] eqn:E1.
  destruct Hs as (_&Hacc&Htr); simpl in Hacc, Htr.
  destruct (s1 >? 0) eqn:Es1; [done|].
  pose proof (accountLock_step l1 ip b t) as Hs2.
  destruct (accountLockSecondsLocked l1 ip b t) as [s2 l2] eqn:E2.
  destruct Hs2 as (_&Hp2&_); simpl in Hp2.
  destruct (s2 >? 0) eqn:Es2; [done|]. intros [= _ <-]. bprop. rewrite Hp2.
  unfold unlocked. split; [clear E2|intros Htrust; clear E1].
  - revert E1. unfold pairLockSecondsLocked.
    destruct (pairs l !! pairKey ip b) as [e|] eqn:Ep; [|intros [= <- <-]; by rewrite Ep].
    destruct (lockedUntil e) eqn:Ev; simpl;
      [|intros [= <- <-]; rewrite Ep; simpl; unfold lockRemaining; by rewrite Ev].
    pose proof (lockRemaining_nonneg e t).
    destruct (lockRemaining e t =? 0) eqn:Ez; [intros [= <- <-]; cbn; by rewrite lookup_delete_eq|].
    bprop. case_if; intros [= Hs1 <-]; [lia|]. revert Hs1. case_if; bprop; lia.
  - assert (isTrustedLocked l1 ip b t = false) as Htrust1
      by (unfold isTrustedLocked in *; by rewrite Htr).
    revert E2. unfold accountLockSecondsLocked. rewrite Htrust1.
    destruct (accounts l1 !! b) as [e|] eqn:Ep; [|intros [= <- <-]; by rewrite Ep].
    destruct (lockedUntil e) eqn:Ev; simpl;
      [|intros [= <- <-]; rewrite Ep; simpl; unfold lockRemaining; by rewrite Ev].
    pose proof (lockRemaining_nonneg e t).
    destruct (lockRemaining e t =? 0) eqn:Ez; [intros [= <- <-]; cbn; by rewrite lookup_delete_eq|].
    bprop. intros [= <- <-]. lia.
Qed.

Lemma fail_in_lookup m key t max k :
  (fail_in m key t max).2 !! k =
    if decide (key = k) then Some (fail_entry max t (m !! k)) else m !! k.
Proof.
  unfold fail_in, fail_entry. destruct (recordFailureLocked _ _ _) as [b e] eqn:E. simpl.
  rewrite lookup_insert. case_decide; [subst; by rewrite E|done].
Qed.

Lemma fail_in_step m key t max k :
  entry_step max t (m !! k) ((fail_in m key t max).2 !! k).
Proof. rewrite fail_in_lookup. case_decide; constructor. Qed.

Lemma cleanup_dead t e : cleanup_keeps t e = false → dead t e.
Proof.
  unfold cleanup_keeps, dead. destruct (lockedUntil e); intros E; bprop; [lia|].
  destruct (firstFail e); [|done]. rewrite window_cmp in E. bprop. lia.
Qed.

Lemma cleanup_filter_step max t (m : gmap string lockoutEntry) k :
  entry_step max t (m !! k)
    (filter (λ kv : string * lockoutEntry, cleanup_keeps t kv.2 = true) m !! k).
Proof.
  rewrite map_lookup_filter. destruct (m !! k) as [e|]; simpl; [|constructor].
  case_guard as Hg; simpl in *; [constructor|]. constructor. apply cleanup_dead.
  by destruct (cleanup_keeps t e).
Qed.

Lemma record_failure_lookup l t ip u :
  let l' := (RecordFailure l t ip u).2 in
  pairs l' = (fail_in (pairs l) (pairKey ip (boundUsername u)) t MaxAttempts).2 ∧
  accounts l' = (fail_in (accounts l) (boundUsername u) t AccountMaxAttempts).2 ∧
  trusted l' = trusted l.
Proof.
  unfold RecordFailure.
  by destruct (fail_in (pairs l) _ _ _), (fail_in (accounts l) _ _ _).
Qed.

Lemma check_pair_step l t ip u k :
  entry_step MaxAttempts t (pairs l !! k) (pairs (CheckPair l t ip u).2 !! k) ∧
  accounts (CheckPair l t ip u).2 = accounts l.
Proof.
  unfold CheckPair. pose proof (pairLock_step l ip (boundUsername u) t) as Hp.
  destruct (pairLockSecondsLocked _ _ _ _) as [s1 l1]. destruct Hp as (Hp&Ha&_); simpl in *.
  case_if; split; auto.
Qed.

Lemma pair_failure_fields l t ip u :
  let l' := (RecordPairFailure l t ip u).2 in
  pairs l' = (fail_in (pairs l) (pairKey ip (boundUsername u)) t MaxAttempts).2 ∧
  accounts l' = accounts l.
Proof. unfold RecordPairFailure. by destruct (fail_in _ _ _ _). Qed.

Lemma step_pairs l t op key :
  keeps_pair key op →
  rtc (entry_step MaxAttempts t) (pairs l !! key) (pairs (login_step l t op).2 !! key).
Proof.
  destruct op as [ip u ok|ip u|ip u|ip u| |u]; intros Hk; simpl.
  - unfold login_attempt. pose proof (check_step l ip u t) as (Hp&_&_).
    destruct (Check_login l t ip u) as [[locked secs] l1]; simpl in *.
    destruct locked; [by apply rtc_once|]. destruct ok; simpl.
    + rewrite lookup_delete_ne by done. by apply rtc_once.
    + destruct (record_failure_lookup l1 t ip u) as (->&_&_).
      eapply rtc_l; [apply Hp|]. apply rtc_once, fail_in_step.
  - apply rtc_once. apply (check_step l ip u t).
  - apply rtc_once. apply check_pair_step.
  - destruct (pair_failure_fields l t ip u) as [-> _]. apply rtc_once, fail_in_step.
  - apply rtc_once, cleanup_filter_step.
  - rewrite map_lookup_filter. destruct (pairs l !! key); simpl; [|done].
    by case_guard.
Qed.

Lemma step_accounts l t op user :
  keeps_account user op →
  rtc (entry_step AccountMaxAttempts t) (accounts l !! user) (accounts (login_step l t op).2 !! user).
Proof.
  destruct op as [ip u ok|ip u|ip u|ip u| |u]; intros Hk; simpl.
  - unfold login_attempt. pose proof (check_step l ip u t) as (_&Ha&_).
    destruct (Check_login l t ip u) as [[locked secs] l1]; simpl in *.
    destruct locked; [by apply rtc_once|]. destruct ok; simpl; [by apply rtc_once|].
    destruct (record_failure_lookup l1 t ip u) as (_&->&_).
    eapply rtc_l; [apply Ha|]. apply rtc_once, fail_in_step.
  - apply rtc_once. apply (check_step l ip u t).
  - by rewrite (proj2 (check_pair_step l t ip u "")).
  - by destruct (pair_failure_fields l t ip u) as [_ ->].
  - apply rtc_once, cleanup_filter_step.
  - by rewrite lookup_delete_ne.
Qed.

(** An admitted failing login records its failure in entries that are unlocked. *)
Lemma step_counts l t ip u :
  (login_step l t (OpLogin ip u false)).1 = true →
  let l' := (login_step l t (OpLogin ip u false)).2 in
  (∃ mid, rtc (entry_step MaxAttempts t) (pairs l !! pairKey ip (boundUsername u)) mid ∧
     unlocked t mid ∧
     pairs l' !! pairKey ip (boundUsername u) = Some (fail_entry MaxAttempts t mid)) ∧
  (isTrustedLocked l ip (boundUsername u) t = false →
   ∃ mid, rtc (entry_step AccountMaxAttempts t) (accounts l !! boundUsername u) mid ∧
     unlocked t mid ∧
     accounts l' !! boundUsername u = Some (fail_entry AccountMaxAttempts t mid)).
Proof.
  simpl. unfold login_attempt. pose proof (check_step l ip u t) as (Hp&Ha&_).
  destruct (Check_login l t ip u) as [[locked secs] l1] eqn:E; simpl in *.
  destruct locked; [done|]. intros _. simpl.
  apply check_unlocked in E as [Hup Hua].
  destruct (record_failure_lookup l1 t ip u) as (->&->&_).
  rewrite !fail_in_lookup, !decide_True by done.
  split; [|intros Ht]; eexists; (split; [by apply rtc_once|]); auto.
Qed.

(** Every operation preserves the shape of both tiers' entries. *)
Lemma login_step_wf l t t' op :
  t ≤ t' → limiter_wf t l → limiter_wf t' (login_step l t' op).2.
Proof.
  intros Ht [Hp Ha]. split; intros k.
  - specialize (Hp k). apply (entry_wf_mono t t') in Hp; [|done].
    destruct op as [ip u [|]|ip u|ip u|ip u| |u];
      try (eapply entry_steps_wf; [done|by apply step_pairs|done]).
    + simpl. unfold login_attempt. pose proof (check_step l ip u t') as (Hs&_&_).
      destruct (Check_login l t' ip u) as [[[] secs] l1]; simpl in *;
        [by eapply entry_step_wf|].
      rewrite lookup_delete. case_decide; [done|by eapply entry_step_wf].
    + simpl. rewrite map_lookup_filter. destruct (pairs l !! k); simpl; [|done]. by case_guard.
  - specialize (Ha k). apply (entry_wf_mono t t') in Ha; [|done].
    destruct op; try (eapply entry_steps_wf; [done|by apply step_accounts|done]).
    simpl. rewrite lookup_delete. by case_decide.
Qed.

Lemma new_limiter_wf t : limiter_wf t NewLoginLimiter.
Proof. by split; intros k; simpl; rewrite lookup_empty. Qed.

(** *** Bounding a tally by a budget, for either tier *)
Section tier.
Context (sel : LoginLimiter → option lockoutEntry) (max : Z) (T0 : Instant).
Context (P : LoginLimiter → Instant → LoginOp → bool) (keeps : LoginOp → Prop).
Hypothesis max_gt : 1 < max.
Hypothesis sel_step : ∀ l t op, keeps op →
  rtc (entry_step max t) (sel l) (sel (login_step l t op).2).
Hypothesis sel_counts : ∀ l t op,
  (login_step l t op).1 = true → P l t op = true →
  ∃ mid, rtc (entry_step max t) (sel l) mid ∧ unlocked t mid ∧
    sel (login_step l t op).2 = Some (fail_entry max t mid).

Lemma tally_budget tr : ∀ l t,
  T0 ≤ t → entry_wf t max (sel l) → timed t (T0 + Window) tr → Forall keeps tr.*2 →
  tally P l tr ≤ budget max T0 (sel l).
Proof using max_gt sel_step sel_counts.
  induction tr as [|[t' op] tr IH]; intros l t Ht Hwf Htm Hk.
  { pose proof (budget_bounds max T0 t (sel l) max_gt Hwf). simpl. lia. }
  destruct Htm as [Ht' Htm]. apply Forall_cons in Hk as [Hop Hk].
  apply (entry_wf_mono t t') in Hwf; [|lia].
  pose proof (sel_step l t' op Hop) as Hs. pose proof (sel_counts l t' op) as Hc.
  simpl. destruct (login_step l t' op) as [v l'] eqn:E; simpl in *.
  assert (tally P l' tr ≤ budget max T0 (sel l')) as Hrest.
  { apply (IH l' t'); [lia|by eapply entry_steps_wf|done|done]. }
  pose proof (budget_steps max T0 t' _ _ max_gt ltac:(lia) Hs Hwf).
  destruct (v && P l t' op) eqn:Ev; [|lia].
  apply andb_true_iff in Ev as [-> HP]. destruct (Hc eq_refl HP) as (mid&Hm&Hu&Hl').
  pose proof (budget_steps max T0 t' _ _ max_gt ltac:(lia) Hm Hwf).
  pose proof (budget_fail max T0 t' mid max_gt ltac:(lia)
                ltac:(by eapply entry_steps_wf) Hu). rewrite Hl' in *. lia.
Qed.
End tier.

(** Failing logins of one client IP for one username that reached credential
    verification. *)
Definition pair_failure (ip u : string) (_ : LoginLimiter) (_ : Instant) (op : LoginOp) : bool :=
  match op with
  | OpLogin ip' u' false => (ip' =? ip)%string && (u' =? u)%string
  | _ => false
  end.

(** Failing logins for one account, from any client IP without a live trust
    grant, that reached credential verification. *)
Definition account_failure (u : string) (l : LoginLimiter) (t : Instant) (op : LoginOp) : bool :=
  match op with
  | OpLogin ip' u' false =>
      (boundUsername u' =? boundUsername u)%string &&
      negb (isTrustedLocked l ip' (boundUsername u) t)
  | _ => false
  end.

End traces.

(** ** Keys never alias *)

Definition no_nul (s : string) : Prop := ¬ In nul (list_ascii_of_string s).

Lemma pairKey_split ip u : no_nul ip → splitPairKey (pairKey ip u) = (ip, u).
Proof.
  intros Hip. unfold splitPairKey, pairKey. rewrite IndexByte_app_NotIn by done.
  rewrite stake_app. f_equal. change (String nul u) with ((String nul "") ++ u).
  rewrite <- sapp_assoc. replace (S (String.length ip)) with (String.length (ip ++ String nul "")).
  - apply sdrop_app.
  - rewrite length_sapp. simpl. lia.
Qed.

Lemma pairKey_inj ip ip' u u' :
  no_nul ip → no_nul ip' → pairKey ip u = pairKey ip' u' → ip = ip' ∧ u = u'.
Proof.
  intros H H' E. pose proof (pairKey_split ip u H). rewrite E, pairKey_split in * by done.
  by simplify_eq.
Qed.

Section keys.
Context `{Sha256}.

Lemma stake_length n s : String.length (stake n s) = (n `min` String.length s)%nat.
Proof. revert s. induction n; intros [|c s]; simpl; auto. Qed.

Lemma cut_back_le tries s cut : (cut_back tries s cut ≤ cut)%nat.
Proof.
  revert cut. induction tries as [|n IH]; intros [|cut]; simpl; try done.
  case_if; [done|]. specialize (IH cut). lia.
Qed.

(** [boundUsername] keeps every limiter key within [MaxUsernameKeyLen] bytes, but it is
    not injective, whatever the digest: an over-long name and its own bounded key - a
    name short enough to be kept verbatim - share one key. *)
Theorem boundUsername_bounded_aliases (u : string)
    (Hlong : (MaxUsernameKeyLen < String.length u)%nat) :
  (∀ v, String.length (boundUsername v) ≤ MaxUsernameKeyLen)%nat ∧
  boundUsername u ≠ u ∧ boundUsername (boundUsername u) = boundUsername u.
Proof.
  assert (∀ v, String.length (boundUsername v) ≤ MaxUsernameKeyLen)%nat as Hb.
  { intros v. unfold boundUsername. destruct (Nat.leb_spec (String.length v) MaxUsernameKeyLen) as [|Hl]; [done|].
    rewrite !length_sapp, !stake_length, sha256_hex_length.
    pose proof (cut_back_le 4 v (MaxUsernameKeyLen - usernameDigestLen)).
    unfold MaxUsernameKeyLen, usernameDigestLen in *. simpl String.length in *.
    case_if; lia. }
  split; [done|]. split.
  - intros E. specialize (Hb u). rewrite E in Hb. lia.
  - unfold boundUsername at 1. by rewrite (proj2 (Nat.leb_le _ _) (Hb u)).
Qed.
End keys.

(** ** A known-good address cannot be locked out from elsewhere *)

Section trust.
Context `{Sha256, RangeOrder}.

Definition login_run (l : LoginLimiter) (tr : trace) : LoginLimiter :=
  fold_left (λ l x, (login_step l x.1 x.2).2) tr l.

(** Operations other clients can cause: no login of [ip] itself, no success of
    another client for the same account. *)
Definition foreign (ip u : string) (op : LoginOp) : Prop :=
  match op with
  | OpLogin ip' u' ok =>
      ip' ≠ ip ∧ no_nul ip' ∧ (ok = true → boundUsername u' ≠ boundUsername u)
  | OpPairFailure ip' _ => ip' ≠ ip ∧ no_nul ip'
  | _ => True
  end.

Definition grant (l : LoginLimiter) (ip u : string) : option Instant :=
  trusted l !! boundUsername u ≫= (.!! ip).

Lemma unlocked_mono t t' oe : t ≤ t' → unlocked t oe → unlocked t' oe.
Proof.
  unfold unlocked. destruct oe as [e|]; simpl; [|done]. intros Ht E.
  apply Z.eqb_eq in E. apply Z.eqb_eq. rewrite lockRemaining_zero in *.
  destruct (lockedUntil e); lia.
Qed.

Lemma pairLock_other l ip' u' t k :
  pairs (pairLockSecondsLocked l ip' u' t).2 !! k = pairs l !! k ∨
  pairs (pairLockSecondsLocked l ip' u' t).2 !! k = None.
Proof.
  unfold pairLockSecondsLocked. repeat (case_match; cbn; auto).
  rewrite lookup_delete. case_decide; auto.
Qed.

Lemma check_pairs_other l ip' u' t k :
  pairs (Check_login l t ip' u').2 !! k = pairs l !! k ∨
  pairs (Check_login l t ip' u').2 !! k = None.
Proof.
  unfold Check_login. pose proof (pairLock_other l ip' (boundUsername u') t k) as Hk.
  destruct (pairLockSecondsLocked _ _ _ _) as [s1 l1]; simpl in *. case_if; [done|].
  pose proof (accountLock_step l1 ip' (boundUsername u') t) as (_&Hp&_).
  destruct (accountLockSecondsLocked _ _ _ _) as [s2 l2]; simpl in *. rewrite <- Hp in Hk.
  by case_if.
Qed.
Lemma filter_lookup_or {V} (P : string * V → Prop) `{∀ x, Decision (P x)} (m : gmap string V) k :
  filter P m !! k = m !! k ∨ filter P m !! k = None.
Proof. rewrite map_lookup_filter. destruct (m !! k); simpl; [|by left]. case_guard; auto. Qed.

Lemma cleanup_grant l t ip u ts :
  t ≤ ts + TrustTTL → grant l ip u = Some ts → grant (Cleanup l t) ip u = Some ts.
Proof.
  unfold grant, Cleanup; simpl. intros Ht (set&Hs&Hip)%bind_Some.
  assert (negb (time_sub t ts >? TrustTTL) = true) as Hlive.
  { rewrite time_sub_gt by (by vm_compute). rewrite Z.gtb_ltb. lia. }
  apply bind_Some. eexists. split.
  - rewrite map_lookup_filter, lookup_fmap, Hs. simpl.
    rewrite option_guard_True; [done|]. simpl.
    rewrite negb_true_iff, Nat.eqb_neq, map_size_empty_iff.
    intros E. apply (f_equal (.!! ip)) in E. rewrite lookup_empty, map_lookup_filter, Hip in E.
    simpl in E. by rewrite option_guard_True in E.
  - rewrite map_lookup_filter, Hip. simpl. by rewrite option_guard_True.
Qed.

Lemma foreign_step l t op ip u ts :
  no_nul ip → foreign ip u op → t ≤ ts + TrustTTL → grant l ip u = Some ts →
  let l' := (login_step l t op).2 in
  grant l' ip u = Some ts ∧
  (pairs l' !! pairKey ip (boundUsername u) = pairs l !! pairKey ip (boundUsername u) ∨
   pairs l' !! pairKey ip (boundUsername u) = None).
Proof.
  intros Hip Hf Ht Hg. set (K := pairKey ip (boundUsername u)).
  assert (∀ ip' v, ip' ≠ ip → no_nul ip' → pairKey ip' v ≠ K) as Hne.
  { intros ip' v Hne Hn E. by apply pairKey_inj in E as [? _]. }
  destruct op as [ip' u' ok|ip' u'|ip' u'|ip' u'| |u']; simpl in *.
  - destruct Hf as (Hip'&Hn&Hok). unfold login_attempt.
    pose proof (check_pairs_other l ip' u' t K) as Hk.
    pose proof (check_step l ip' u' t) as (_&_&Htr). unfold grant in *.
    destruct (Check_login l t ip' u') as [[[] secs] l1]; simpl in *; [by rewrite Htr|].
    destruct ok; simpl.
    + rewrite lookup_delete_ne by auto. rewrite lookup_insert_ne, Htr by auto. done.
    + destruct (record_failure_lookup l1 t ip' u') as (->&_&->).
      rewrite fail_in_lookup, decide_False, Htr by auto. done.
  - pose proof (check_step l ip' u' t) as (_&_&Htr). unfold grant in *. rewrite Htr.
    split; [done|]. apply check_pairs_other.
  - unfold CheckPair, grant in *. pose proof (pairLock_other l ip' (boundUsername u') t K) as Hk.
    pose proof (pairLock_step l ip' (boundUsername u') t) as (_&_&Htr).
    destruct (pairLockSecondsLocked _ _ _ _); simpl in *. case_if; simpl; by rewrite Htr.
  - destruct Hf as [Hip' Hn]. destruct (pair_failure_fields l t ip' u') as [-> _].
    rewrite fail_in_lookup, decide_False by auto. split; [|by left].
    unfold RecordPairFailure, grant in *. by destruct (fail_in _ _ _ _).
  - split; [by apply cleanup_grant|]. apply filter_lookup_or.
  - split; [done|]. apply filter_lookup_or.
Qed.

(** Lockout is not a denial of service against a known-good address: while the
    grant of a successful login is live, no sequence of operations other clients can
    cause - any number of failing logins for the same account included - makes [Check]
    refuse that address, unless its own (IP, username) pair was already locked. *)
Theorem trusted_never_locked_out (l : LoginLimiter) (ip u : string) (ts T0 t : Instant) (tr : trace)
    (Hip : no_nul ip) (Hgrant : grant l ip u = Some ts)
    (Hpair : unlocked T0 (pairs l !! pairKey ip (boundUsername u)))
    (Htr : timed T0 t tr) (Hforeign : Forall (foreign ip u) tr.*2)
    (Ht0 : T0 ≤ t) (Ht : t ≤ ts + TrustTTL) :
  (Check_login (login_run l tr) t ip u).1 = (false, 0).
Proof.
  assert (grant (login_run l tr) ip u = Some ts ∧
          unlocked t (pairs (login_run l tr) !! pairKey ip (boundUsername u))) as [Hg Hu].
  { revert l T0 Hgrant Hpair Htr Ht0 Hforeign. unfold login_run.
    induction tr as [|[t' op] tr IH]; intros l T0 Hgrant Hpair Htr Ht0 Hforeign; simpl.
    { split; [done|by eapply unlocked_mono]. }
    destruct Htr as [Ht' Htr]. apply Forall_cons in Hforeign as [Hop Hforeign].
    destruct (foreign_step l t' op ip u ts) as [Hg Hp]; [done..|lia|done|].
    apply (IH _ t'); [done| |done|lia|done].
    destruct Hp as [->| ->]; [|done]. eapply unlocked_mono; [|done]. lia. }
  set (l' := login_run l tr) in *. unfold Check_login. set (b := boundUsername u) in *.
  assert (isTrustedLocked l' ip b t = true) as Htrust.
  { unfold isTrustedLocked. unfold grant in Hg. fold b in Hg. rewrite Hg.
    rewrite time_sub_le by (by vm_compute). lia. }
  assert ((pairLockSecondsLocked l' ip b t).1 = 0) as Hz.
  { unfold pairLockSecondsLocked, unlocked in *. destruct (pairs l' !! _) as [e|]; [|done].
    simpl in Hu. destruct (lockedUntil e); [|done]. by rewrite Hu. }
  pose proof (pairLock_step l' ip b t) as (_&_&Htr1).
  destruct (pairLockSecondsLocked l' ip b t) as [s1 l1]; simpl in *. subst s1. simpl.
  assert (isTrustedLocked l1 ip b t = true) as Htrust1.
  { unfold isTrustedLocked in *. by rewrite Htr1. }
  assert ((accountLockSecondsLocked l1 ip b t).1 = 0) as Hz1.
  { unfold accountLockSecondsLocked. rewrite Htrust1. by repeat case_match. }
  destruct (accountLockSecondsLocked l1 ip b t) as [s2 l2]; simpl in *. by subst s2.
Qed.
End trust.

(** ** The janitor changes no decision

    Two limiters are equivalent at [t] when they differ only in entries that are
    dead at [t] and grant the same trust from [t] on.  [Cleanup] relates a limiter
    to an equivalent one and every operation preserves equivalence and answers
    alike. *)

Definition dead_opt (t : Instant) (oe : option lockoutEntry) : Prop :=
  match oe with Some e => dead t e | None => True end.
Definition entry_equiv (t : Instant) (oe oe' : option lockoutEntry) : Prop :=
  oe = oe' ∨ (dead_opt t oe ∧ dead_opt t oe').

(** The lazy deletion both lock tests perform. *)
Definition lazy_drop (t : Instant) (oe : option lockoutEntry) : option lockoutEntry :=
  match oe with
  | Some e => match lockedUntil e with Some u => if u <=? t then None else oe | None => oe end
  | None => None
  end.

Lemma dead_mono t t' oe : t ≤ t' → dead_opt t oe → dead_opt t' oe.
Proof. intros ?. destruct oe as [e|]; simpl; [|done]. unfold dead. repeat case_match; lia. Qed.

Lemma entry_equiv_mono t t' oe oe' : t ≤ t' → entry_equiv t oe oe' → entry_equiv t' oe oe'.
Proof. intros ? [->|[? ?]]; [by left|right]. eauto using dead_mono. Qed.

#[global] Instance entry_equiv_refl t : Reflexive (entry_equiv t).
Proof. by left. Qed.

Lemma dead_remaining t oe : dead_opt t oe → lockRemaining_opt oe t = 0.
Proof.
  destruct oe as [e|]; simpl; [|done]. unfold dead. intros Hd. apply Z.eqb_eq.
  rewrite lockRemaining_zero. destruct (lockedUntil e); [lia|done].
Qed.

Lemma equiv_remaining t oe oe' :
  entry_equiv t oe oe' → lockRemaining_opt oe t = lockRemaining_opt oe' t.
Proof. intros [->|[H1 H2]]; [done|]. by rewrite !dead_remaining. Qed.

Lemma dead_drop t oe : dead_opt t oe → dead_opt t (lazy_drop t oe).
Proof. destruct oe as [e|]; simpl; [|done]. intros. repeat case_match; done. Qed.

Lemma equiv_drop t oe oe' : entry_equiv t oe oe' → entry_equiv t (lazy_drop t oe) (lazy_drop t oe').
Proof. intros [->|[? ?]]; [by left|right]. auto using dead_drop. Qed.

Lemma equiv_fail t max oe oe' :
  1 < max → entry_wf t max oe → entry_wf t max oe' → entry_equiv t oe oe' →
  recordFailureLocked (default new_entry oe) t max = recordFailureLocked (default new_entry oe') t max.
Proof.
  intros Hmax Hw Hw' [->|[Hd Hd']]; [done|].
  assert (∀ o, entry_wf t max o → dead_opt t o →
    recordFailureLocked (default new_entry o) t max = (false, mkEntry 1 (Some t) None)) as Hf.
  { intros [e|] ? ?; simpl; apply recordFailure_fresh; eauto using reset_window_dead. }
  by rewrite !Hf.
Qed.

Lemma equiv_cleanup t (m m' : gmap string lockoutEntry) k :
  entry_equiv t (m !! k) (m' !! k) →
  entry_equiv t (filter (λ kv : string * lockoutEntry, cleanup_keeps t kv.2 = true) m !! k)
                (filter (λ kv : string * lockoutEntry, cleanup_keeps t kv.2 = true) m' !! k).
Proof.
  rewrite !map_lookup_filter. intros [->|[Hd Hd']]; [by left|right].
  split; [destruct (m !! k)|destruct (m' !! k)]; simpl in *; try done; by case_guard.
Qed.

Section janitor.
Context `{Sha256, RangeOrder}.

Definition limiter_equiv (t : Instant) (l l' : LoginLimiter) : Prop :=
  (∀ k, entry_equiv t (pairs l !! k) (pairs l' !! k)) ∧
  (∀ u, entry_equiv t (accounts l !! u) (accounts l' !! u)) ∧
  (∀ ip u t', t ≤ t' → isTrustedLocked l ip u t' = isTrustedLocked l' ip u t').

(** What a caller observes of an operation. *)
Definition login_obs (l : LoginLimiter) (t : Instant) (op : LoginOp) : bool * Z :=
  match op with
  | OpLogin ip u ok => ((login_attempt l t ip u ok).1, 0)
  | OpCheck ip u => (Check_login l t ip u).1
  | OpCheckPair ip u => (CheckPair l t ip u).1
  | OpPairFailure ip u => ((RecordPairFailure l t ip u).1, 0)
  | _ => (false, 0)
  end.

Fixpoint observations (l : LoginLimiter) (tr : trace) : list (bool * Z) :=
  match tr with
  | [] => []
  | (t, op) :: tr => login_obs l t op :: observations (login_step l t op).2 tr
  end.

Definition no_success (op : LoginOp) : Prop :=
  match op with OpLogin _ _ ok => ok = false | _ => True end.

(** The lock tests as functions of the entries they read. *)
Lemma pairLock_spec l ip u t :
  (pairLockSecondsLocked l ip u t).1 =
    (let s := lockRemaining_opt (pairs l !! pairKey ip u) t in
     if s =? 0 then 0
     else if isTrustedLocked l ip u t then s
     else if lockRemaining_opt (accounts l !! u) t >? s
          then lockRemaining_opt (accounts l !! u) t else s) ∧
  ∀ k, pairs (pairLockSecondsLocked l ip u t).2 !! k =
    if decide (pairKey ip u = k) then lazy_drop t (pairs l !! k) else pairs l !! k.
Proof.
  unfold pairLockSecondsLocked, lazy_drop.
  destruct (pairs l !! pairKey ip u) as [e|] eqn:E; simpl;
    [|split; [done|]; intros k; case_decide; by subst; rewrite ?E].
  pose proof (lockRemaining_zero e t) as Hz. unfold lockRemaining in *.
  destruct (lockedUntil e) as [v|] eqn:Ev; simpl;
    [|split; [done|]; intros k; case_decide; subst; rewrite ?E, ?Ev; done].
  rewrite Hz. destruct (v <=? t) eqn:Ez; simpl.
  - split; [done|]. intros k. cbn. rewrite lookup_delete.
    case_decide; subst; [by rewrite E, Ev, Ez|done].
  - destruct (isTrustedLocked l ip u t); simpl; (split; [done|]);
      intros k; case_decide; subst; rewrite ?E, ?Ev, ?Ez; done.
Qed.

Lemma accountLock_spec l ip u t :
  (accountLockSecondsLocked l ip u t).1 =
    (if isTrustedLocked l ip u t then 0 else lockRemaining_opt (accounts l !! u) t) ∧
  ∀ k, accounts (accountLockSecondsLocked l ip u t).2 !! k =
    if decide (u = k) then lazy_drop t (accounts l !! k) else accounts l !! k.
Proof.
  unfold accountLockSecondsLocked, lazy_drop.
  destruct (accounts l !! u) as [e|] eqn:E; simpl;
    [|split; [by case_if|]; intros k; case_decide; by subst; rewrite ?E].
  pose proof (lockRemaining_zero e t) as Hz. unfold lockRemaining in *.
  destruct (lockedUntil e) as [v|] eqn:Ev; simpl;
    [|split; [by case_if|]; intros k; case_decide; subst; rewrite ?E, ?Ev; done].
  rewrite Hz. destruct (v <=? t) eqn:Ez; simpl.
  - apply Z.eqb_eq in Hz. rewrite Hz. split; [by case_if|]. intros k. cbn. rewrite lookup_delete.
    case_decide; subst; [by rewrite E, Ev, Ez|done].
  - destruct (isTrustedLocked l ip u t); simpl; (split; [done|]);
      intros k; case_decide; subst; rewrite ?E, ?Ev, ?Ez; done.
Qed.

Lemma isTrusted_fields l l' ip u t :
  trusted l = trusted l' → isTrustedLocked l ip u t = isTrustedLocked l' ip u t.
Proof. unfold isTrustedLocked. by intros ->. Qed.

Lemma pairLock_equiv t l l' ip u :
  limiter_equiv t l l' →
  (pairLockSecondsLocked l ip u t).1 = (pairLockSecondsLocked l' ip u t).1 ∧
  limiter_equiv t (pairLockSecondsLocked l ip u t).2 (pairLockSecondsLocked l' ip u t).2.
Proof.
  intros (Hp&Ha&Ht).
  destruct (pairLock_spec l ip u t) as [-> Hl], (pairLock_spec l' ip u t) as [-> Hl'].
  destruct (pairLock_step l ip u t) as (_&Ha1&Ht1), (pairLock_step l' ip u t) as (_&Ha2&Ht2).
  split; [|split_and!].
  - by rewrite (equiv_remaining _ _ _ (Hp _)), (equiv_remaining _ _ _ (Ha u)), Ht.
  - intros k. rewrite Hl, Hl'. case_decide; auto using equiv_drop.
  - intros k. rewrite Ha1, Ha2. auto.
  - intros ip' u' t' ?. rewrite (isTrusted_fields _ l), (isTrusted_fields _ l' _ _ _ Ht2) by done. auto.
Qed.

Lemma accountLock_equiv t l l' ip u :
  limiter_equiv t l l' →
  (accountLockSecondsLocked l ip u t).1 = (accountLockSecondsLocked l' ip u t).1 ∧
  limiter_equiv t (accountLockSecondsLocked l ip u t).2 (accountLockSecondsLocked l' ip u t).2.
Proof.
  intros (Hp&Ha&Ht).
  destruct (accountLock_spec l ip u t) as [-> Hl], (accountLock_spec l' ip u t) as [-> Hl'].
  destruct (accountLock_step l ip u t) as (_&Ha1&Ht1), (accountLock_step l' ip u t) as (_&Ha2&Ht2).
  split; [|split_and!].
  - by rewrite (equiv_remaining _ _ _ (Ha u)), Ht.
  - intros k. rewrite Ha1, Ha2. auto.
  - intros k. rewrite Hl, Hl'. case_decide; auto using equiv_drop.
  - intros ip' u' t' ?. rewrite (isTrusted_fields _ l), (isTrusted_fields _ l' _ _ _ Ht2) by done. auto.
Qed.

Lemma check_equiv t l l' ip u :
  limiter_equiv t l l' →
  (Check_login l t ip u).1 = (Check_login l' t ip u).1 ∧
  limiter_equiv t (Check_login l t ip u).2 (Check_login l' t ip u).2.
Proof.
  intros Heq. unfold Check_login.
  destruct (pairLock_equiv t l l' ip (boundUsername u) Heq) as [E1 Heq1].
  destruct (pairLockSecondsLocked l _ _ _) as [s1 l1], (pairLockSecondsLocked l' _ _ _) as [s1' l1'].
  simpl in *. subst s1'. case_if; [done|].
  destruct (accountLock_equiv t l1 l1' ip (boundUsername u) Heq1) as [E2 Heq2].
  destruct (accountLockSecondsLocked l1 _ _ _) as [s2 l2], (accountLockSecondsLocked l1' _ _ _) as [s2' l2'].
  simpl in *. subst s2'. by case_if.
Qed.

Lemma fail_in_equiv t max (m m' : gmap string lockoutEntry) key :
  1 < max → (∀ k, entry_wf t max (m !! k)) → (∀ k, entry_wf t max (m' !! k)) →
  (∀ k, entry_equiv t (m !! k) (m' !! k)) →
  (fail_in m key t max).1 = (fail_in m' key t max).1 ∧
  (∀ k, entry_equiv t ((fail_in m key t max).2 !! k) ((fail_in m' key t max).2 !! k)).
Proof.
  intros Hmax Hw Hw' Heq. split.
  - unfold fail_in. rewrite (equiv_fail t max (m !! key) (m' !! key)) by auto.
    by destruct (recordFailureLocked _ _ _).
  - intros k. rewrite !fail_in_lookup. case_decide; [subst; left|by auto].
    unfold fail_entry. by rewrite (equiv_fail t max (m !! k) (m' !! k)) by auto.
Qed.

Lemma check_wf t l ip u : limiter_wf t l → limiter_wf t (Check_login l t ip u).2.
Proof.
  intros [Hp Ha]. pose proof (check_step l ip u t) as (Hp'&Ha'&_).
  split; intros k; eapply entry_step_wf; eauto; done.
Qed.

Lemma failure_equiv t l l' ip u :
  limiter_wf t l → limiter_wf t l' → limiter_equiv t l l' →
  limiter_equiv t (RecordFailure l t ip u).2 (RecordFailure l' t ip u).2.
Proof.
  intros [Hw Hwa] [Hw' Hwa'] (Hp&Ha&Ht).
  destruct (record_failure_lookup l t ip u) as (Ep&Ea&Et), (record_failure_lookup l' t ip u) as (Ep'&Ea'&Et').
  unfold limiter_equiv. rewrite Ep, Ep', Ea, Ea'. split_and!.
  - by apply fail_in_equiv.
  - by apply fail_in_equiv.
  - intros ip' u' t' ?. rewrite (isTrusted_fields _ l _ _ _ Et), (isTrusted_fields _ l' _ _ _ Et'). auto.
Qed.

Lemma cleanup_trusted l t ip u t' :
  t ≤ t' → isTrustedLocked (Cleanup l t) ip u t' = isTrustedLocked l ip u t'.
Proof.
  intros Ht. unfold isTrustedLocked, Cleanup; simpl. rewrite map_lookup_filter, lookup_fmap.
  destruct (trusted l !! u) as [set|]; simpl; [|done].
  set (live := filter _ set).
  assert (∀ ts, live !! ip = Some ts ↔ set !! ip = Some ts ∧ negb (time_sub t ts >? TrustTTL) = true) as Hl.
  { intros ts. unfold live. rewrite map_lookup_filter_Some. done. }
  destruct (set !! ip) as [ts|] eqn:Es; simpl.
  - destruct (negb (time_sub t ts >? TrustTTL)) eqn:El.
    + specialize (proj2 (Hl ts) (conj eq_refl El)) as Hlive.
      rewrite option_guard_True; [simpl; by rewrite Hlive|].
      simpl. rewrite negb_true_iff, Nat.eqb_neq, map_size_empty_iff.
      intros E. by rewrite E, lookup_empty in Hlive.
    + assert (live !! ip = None) as Hnone.
      { apply eq_None_not_Some. intros [ts' [? ?]%Hl]. simplify_eq. congruence. }
      assert ((time_sub t' ts <=? TrustTTL) = false) as ->.
      { apply negb_false_iff in El. rewrite time_sub_gt in El by (by vm_compute).
        rewrite time_sub_le by (by vm_compute). apply Z.gtb_lt in El. lia. }
      case_guard; simpl; [by rewrite Hnone|done].
  - assert (live !! ip = None) as Hnone.
    { apply eq_None_not_Some. intros [ts' [? ?]%Hl]. congruence. }
    case_guard; simpl; [by rewrite Hnone|done].
Qed.

Lemma step_equiv t l l' op :
  limiter_wf t l → limiter_wf t l' → no_success op → limiter_equiv t l l' →
  login_obs l t op = login_obs l' t op ∧
  limiter_equiv t (login_step l t op).2 (login_step l' t op).2.
Proof.
  intros Hw Hw' Hop Heq. destruct op as [ip u ok|ip u|ip u|ip u| |u]; simpl in *.
  - subst ok. unfold login_attempt.
    pose proof (check_wf t l ip u Hw) as Hc. pose proof (check_wf t l' ip u Hw') as Hc'.
    destruct (check_equiv t l l' ip u Heq) as [E Heq1].
    destruct (Check_login l t ip u) as [[b secs] l1], (Check_login l' t ip u) as [[b' secs'] l1'].
    simpl in *. injection E as -> ->. destruct b'; [done|]. split; [done|]. simpl.
    by apply failure_equiv.
  - by apply check_equiv.
  - unfold CheckPair. destruct (pairLock_equiv t l l' ip (boundUsername u) Heq) as [E1 Heq1].
    destruct (pairLockSecondsLocked l _ _ _) as [s1 l1], (pairLockSecondsLocked l' _ _ _) as [s1' l1'].
    simpl in *. subst s1'. by case_if.
  - destruct Hw as [Hp _], Hw' as [Hp' _], Heq as (He&Ha&Ht).
    destruct (fail_in_equiv t MaxAttempts (pairs l) (pairs l') (pairKey ip (boundUsername u)))
      as [Hfst Hsnd]; [done..|].
    unfold RecordPairFailure. destruct (fail_in (pairs l) _ _ _), (fail_in (pairs l') _ _ _).
    simpl in *. subst. split; [done|]. by split_and!.
  - split; [done|]. destruct Heq as (He&Ha&Ht). split_and!.
    + intros k. by apply equiv_cleanup.
    + intros k. by apply equiv_cleanup.
    + intros ip u t' ?. rewrite !cleanup_trusted by done. auto.
  - split; [done|]. destruct Heq as (He&Ha&Ht). split_and!; simpl; [| |done].
    + intros k. rewrite !map_lookup_filter. specialize (He k).
      destruct (decide (HasSuffix k (String nul (boundUsername u)) = false)) as [Hk|Hk].
      * destruct He as [->|[? ?]]; [by left|right].
        destruct (pairs l !! k), (pairs l' !! k); simpl in *;
          rewrite ?option_guard_True by done; done.
      * left. destruct (pairs l !! k), (pairs l' !! k); simpl; rewrite ?option_guard_False by done; done.
    + intros k. rewrite !lookup_delete. case_decide; [by left|done].
Qed.

Lemma limiter_equiv_mono t t' l l' : t ≤ t' → limiter_equiv t l l' → limiter_equiv t' l l'.
Proof.
  intros ? (?&?&Ht). split_and!; eauto using entry_equiv_mono.
  intros. apply Ht. lia.
Qed.

Lemma limiter_wf_mono t t' l : t ≤ t' → limiter_wf t l → limiter_wf t' l.
Proof. intros ? [? ?]. split; eauto using entry_wf_mono. Qed.

(** The janitor is invisible: running [Cleanup] at [t] changes the answer of no later
    check, failing login or pair failure, however the execution continues. *)
Theorem cleanup_invisible (l : LoginLimiter) (t hi : Instant) (tr : trace)
    (Hwf : limiter_wf t l) (Htr : timed t hi tr) (Hops : Forall no_success tr.*2) :
  observations (Cleanup l t) tr = observations l tr.
Proof.
  assert (limiter_equiv t (Cleanup l t) l) as Heq.
  { split_and!.
    - intros k. simpl. pose proof (cleanup_filter_step MaxAttempts t (pairs l) k) as Hs.
      rewrite map_lookup_filter in *. destruct (pairs l !! k) as [e|]; simpl; [|by left].
      case_guard as Hg; [by left|right]. split; [done|]. apply cleanup_dead.
      by destruct (cleanup_keeps t e).
    - intros k. simpl. rewrite map_lookup_filter. destruct (accounts l !! k) as [e|]; simpl; [|by left].
      case_guard as Hg; [by left|right]. split; [done|]. apply cleanup_dead.
      by destruct (cleanup_keeps t e).
    - intros. by apply cleanup_trusted. }
  pose proof (login_step_wf l t t OpCleanup ltac:(lia) Hwf) as Hwc. simpl in Hwc.
  revert Heq Hwc. generalize (Cleanup l t). revert l t Hwf Htr.
  induction tr as [|[t' op] tr IH]; intros l t Hwf Htr l' Heq Hwf'; [done|]. simpl.
  destruct Htr as [[Ht _] Htr]. apply Forall_cons in Hops as [Hop Hops].
  apply (limiter_wf_mono t t') in Hwf, Hwf'; [|lia..].
  destruct (step_equiv t' l' l op) as [-> Heq']; [done..|by eapply limiter_equiv_mono|].
  f_equal. apply (IH Hops _ t'); [by apply (login_step_wf _ t')|done|done|by apply (login_step_wf _ t')].
Qed.
End janitor.

(** *** The admin API limiter over time *)

Inductive ApiOp := ApiAllow (ip : string) | ApiCleanup.

#[global] Instance ApiOp_eq_dec : EqDecision ApiOp.
Proof. solve_decision. Defined.

Definition api_step (a : APIRateLimiter) (t : Instant) (op : ApiOp) : bool * APIRateLimiter :=
  match op with
  | ApiAllow ip => Allow_api a t ip
  | ApiCleanup => (false, Cleanup_api a t)
  end.

(** How many calls of [ip] a run lets through. *)
Fixpoint api_allowed (ip : string) (a : APIRateLimiter) (tr : list (Instant * ApiOp)) : Z :=
  match tr with
  | [] => 0
  | (t, op) :: tr =>
      let r := api_step a t op in
      (if decide (op = ApiAllow ip) then if r.1 then 1 else 0 else 0) + api_allowed ip r.2 tr
  end.

Fixpoint api_timed (t hi : Instant) (tr : list (Instant * ApiOp)) : Prop :=
  match tr with
  | [] => True
  | (t', _) :: tr => t ≤ t' ≤ hi ∧ api_timed t' hi tr
  end.

Definition api_calls (ip : string) (tr : list (Instant * ApiOp)) : Z :=
  Z.of_nat (length (filter (λ x, x.2 = ApiAllow ip) tr)).

Definition api_wf (t : Instant) (a : APIRateLimiter) : Prop :=
  ∀ ip e, a !! ip = Some e → 1 ≤ count e ∧ windowStart e ≤ t.

(** What the entry of a client still allows before [T0 + RateWindow]. *)
Definition api_budget (T0 : Instant) (oe : option apiRateEntry) : Z :=
  match oe with
  | None => Burst
  | Some e => (if T0 <=? windowStart e then 0 else Burst) + Z.max 0 (Burst - count e)
  end.

Lemma rate_cmp now w : (time_sub now w >? RateWindow) = (now - w >? RateWindow).
Proof. apply time_sub_gt. by vm_compute. Qed.

Lemma api_allow_lookup a t ip :
  Allow_api a t ip =
    match a !! ip with
    | Some e => if t - windowStart e >? RateWindow then (true, <[ip := mkRate 1 t]> a)
                else (count e + 1 <=? Burst, <[ip := mkRate (count e + 1) (windowStart e)]> a)
    | None => (true, <[ip := mkRate 1 t]> a)
    end.
Proof. unfold Allow_api. destruct (a !! ip); [|done]. by rewrite rate_cmp. Qed.

Lemma api_step_wf a t t' op : t ≤ t' → api_wf t a → api_wf t' (api_step a t' op).2.
Proof.
  intros Ht Hwf. assert (api_wf t' a) as Hwf' by (intros ip e [? ?]%Hwf; lia).
  destruct op as [ip|]; cbn [api_step snd].
  - rewrite api_allow_lookup. intros ip' e'. destruct (a !! ip) as [e|] eqn:E; [apply Hwf' in E; case_if|]; simpl.
    all: rewrite lookup_insert; case_decide; [intros [= <-]; simpl; lia|apply Hwf'].
  - intros ip e [E _]%map_lookup_filter_Some. by apply (Hwf' ip).
Qed.

Lemma api_budget_step T0 a t op ip :
  api_wf t a → T0 ≤ t ≤ T0 + RateWindow →
  (if decide (op = ApiAllow ip) then if (api_step a t op).1 then 1 else 0 else 0) +
    api_budget T0 ((api_step a t op).2 !! ip) ≤ api_budget T0 (a !! ip).
Proof.
  intros Hwf Ht. destruct op as [ip'|]; cbn [api_step fst snd].
  - rewrite api_allow_lookup. case_decide as Hip; [injection Hip as ->|].
    + destruct (a !! ip) as [e|] eqn:E; [apply Hwf in E; destruct (t - windowStart e >? RateWindow) eqn:?|]; cbn [fst snd];
        rewrite lookup_insert_eq; cbn [api_budget count windowStart]; unfold Burst in *; repeat case_if; lia.
    + assert (ip' ≠ ip) by congruence.
      destruct (a !! ip') as [e|]; [case_match|]; simpl; rewrite lookup_insert_ne by done; lia.
  - rewrite decide_False by done. unfold Cleanup_api. rewrite map_lookup_filter.
    destruct (a !! ip) as [e|] eqn:E; simpl; [|lia]. apply Hwf in E.
    case_guard as Hg; simpl; [lia|]. rewrite rate_cmp in Hg. unfold Burst. case_if; [|lia].
    destruct (Z.gtb_spec (t - windowStart e) RateWindow); simpl in *; [lia|done].
Qed.

Lemma api_allowed_budget T0 ip tr : ∀ a t,
  api_wf t a → T0 ≤ t → api_timed t (T0 + RateWindow) tr →
  api_allowed ip a tr ≤ api_budget T0 (a !! ip).
Proof.
  induction tr as [|[t' op] tr IH]; intros a t Hwf Ht Htr; cbn [api_allowed].
  { unfold api_budget, Burst. destruct (a !! ip); [case_if|]; lia. }
  destruct Htr as [Ht' Htr].
  assert (api_wf t' a) as Hwf' by (intros k e [? ?]%Hwf; lia).
  pose proof (api_budget_step T0 a t' op ip Hwf' ltac:(lia)).
  specialize (IH (api_step a t' op).2 t' (api_step_wf _ _ _ _ (Z.le_refl _) Hwf') ltac:(lia) Htr). lia.
Qed.

(** Calls still certain to be let through, whatever the clock does. *)
Definition api_credit (oe : option apiRateEntry) : Z :=
  match oe with None => Burst | Some e => Burst - count e end.

Lemma api_credit_all ip tr : ∀ a,
  (∀ e, a !! ip = Some e → 1 ≤ count e) →
  api_calls ip tr ≤ api_credit (a !! ip) → api_allowed ip a tr = api_calls ip tr.
Proof.
  induction tr as [|[t op] tr IH]; intros a Hpos Hc; [done|].
  cbn [api_allowed]. unfold api_calls in *. rewrite filter_cons in *. cbn [snd] in *.
  destruct (decide (op = ApiAllow ip)) as [->|Hop].
  - cbn [length] in *. cbn [api_step]. rewrite api_allow_lookup.
    set (n := length _) in *. destruct (a !! ip) as [e|] eqn:E.
    + specialize (Hpos e eq_refl). simpl in Hc.
      destruct (t - windowStart e >? RateWindow) eqn:?; cbn [fst snd].
      * rewrite IH; rewrite ?lookup_insert_eq; [lia|intros ? [= <-]; simpl; lia|simpl; lia].
      * rewrite (proj2 (Z.leb_le _ _)) by lia.
        rewrite IH; rewrite ?lookup_insert_eq; [lia|intros ? [= <-]; simpl; lia|simpl; lia].
    + cbn [fst snd]. simpl in Hc.
      rewrite IH; rewrite ?lookup_insert_eq; [lia|intros ? [= <-]; simpl; lia|simpl; unfold Burst in *; lia].
  - rewrite Z.add_0_l. apply IH; destruct op as [ip'|]; cbn [api_step snd].
    + rewrite api_allow_lookup. assert (ip' ≠ ip) by congruence.
      destruct (a !! ip') as [e|]; [case_match|]; simpl; rewrite lookup_insert_ne by done; done.
    + intros e [? _]%map_lookup_filter_Some. auto.
    + rewrite api_allow_lookup. assert (ip' ≠ ip) by congruence.
      destruct (a !! ip') as [e|]; [case_match|]; simpl; rewrite lookup_insert_ne by done; done.
    + unfold Cleanup_api. rewrite map_lookup_filter. destruct (a !! ip) as [e|] eqn:E; simpl in *; [|done].
      specialize (Hpos e eq_refl). case_guard; simpl in *; lia.
Qed.

(** The admin API limiter, over any run of calls by any clients and janitor sweeps.
    Any span of [RateWindow] lets at most [2 * Burst - 1] calls of one client through (the
    window is fixed, not sliding, so the bound is not [Burst]); and a client with no
    entry has its first [Burst] calls let through, whatever the others do. *)
Theorem api_rate_bound (a : APIRateLimiter) (T0 : Instant) (tr : list (Instant * ApiOp)) (ip : string)
    (Hwf : api_wf T0 a) (Htr : api_timed T0 (T0 + RateWindow) tr) :
  api_allowed ip a tr ≤ 2 * Burst - 1 ∧
  (a !! ip = None → api_calls ip tr ≤ Burst → api_allowed ip a tr = api_calls ip tr).
Proof.
  split.
  - pose proof (api_allowed_budget T0 ip tr a T0 Hwf ltac:(lia) Htr) as Hb.
    unfold api_budget, Burst in *. destruct (a !! ip) as [e|] eqn:E; [apply Hwf in E; case_if|]; lia.
  - intros E Hc. apply api_credit_all; rewrite E; [done|exact Hc].
Qed.

(** *** Concrete runs *)

Definition test_sha : Sha256.
Proof.
  refine {| sha256_hex s := String.concat "" (replicate 64 "a") |}. intros s. reflexivity.
Defined.

Definition fails (times : list Z) : list (Instant * LoginOp) :=
  map (λ s, (s * Second, OpLogin "203.0.113.9" "admin" false)) times.

(** One failure just before the window, three more before it elapses, then a fresh
    window: eight verified failures inside one [Window]-long span. *)
Definition burst_state : LoginLimiter :=
  (@login_step test_sha default_range NewLoginLimiter 0 (OpLogin "203.0.113.9" "admin" false)).2.


Lemma boundUsername_bounded_aliases_witness :
  let S := test_sha in let u := String.concat "" (replicate 300 "b") in
  (MaxUsernameKeyLen < String.length u)%nat ∧
  boundUsername u ≠ u ∧ boundUsername (boundUsername u) = boundUsername u.
Proof.
  intros S u. assert (MaxUsernameKeyLen < String.length u)%nat as Hl
    by (apply Nat.ltb_lt; vm_compute; reflexivity).
  split; [exact Hl|]. apply (@boundUsername_bounded_aliases S u Hl).
Defined.

(** The administrator logged in from [198.51.100.7]; another address then burns the
    whole account budget. *)
Definition trusted_state : LoginLimiter :=
  (@login_step test_sha default_range NewLoginLimiter 0 (OpLogin "198.51.100.7" "admin" true)).2.

Lemma trusted_never_locked_out_witness :
  let S := test_sha in let R := default_range in
  let tr := map (λ ip, (2 * Second, OpLogin ip "admin" false))
              (mjoin (replicate 6 ["203.0.113.1"; "203.0.113.2"; "203.0.113.3"; "203.0.113.4"; "203.0.113.5"])) in
  timed Second (40 * Second) tr ∧
  (Check_login (login_run trusted_state tr) (40 * Second) "203.0.113.9" "admin").1.1 = true ∧
  (Check_login (login_run trusted_state tr) (40 * Second) "198.51.100.7" "admin").1 = (false, 0).
Proof.
  intros S R tr.
  assert (timed Second (40 * Second) tr) as Ht by (vm_compute; repeat split; discriminate).
  split; [exact Ht|]. split; [vm_compute; reflexivity|].
  apply (@trusted_never_locked_out S R trusted_state "198.51.100.7" "admin" 0 Second (40 * Second) tr).
  - vm_compute. intuition discriminate.
  - vm_compute. reflexivity.
  - vm_compute. reflexivity.
  - exact Ht.
  - repeat (apply Forall_cons; split; [vm_compute; intuition discriminate|]). by apply Forall_nil.
  - vm_compute. discriminate.
  - vm_compute. discriminate.
Defined.

Lemma cleanup_invisible_witness :
  let S := test_sha in let R := default_range in
  let tr := fails [1201; 1202; 1203; 1204; 1205; 1206] in
  limiter_wf (1200 * Second) burst_state ∧
  pairs (Cleanup burst_state (1200 * Second)) = ∅ ∧ pairs burst_state ≠ ∅ ∧
  observations (Cleanup burst_state (1200 * Second)) tr = observations burst_state tr.
Proof.
  intros S R tr.
  assert (limiter_wf (1200 * Second) burst_state) as Hwf.
  { apply (limiter_wf_mono 0); [by vm_compute|].
    apply (@login_step_wf S R NewLoginLimiter 0 0 (OpLogin "203.0.113.9" "admin" false)
      ltac:(done) (new_limiter_wf 0)). }
  split; [exact Hwf|]. split; [vm_compute; reflexivity|]. split; [vm_compute; discriminate|].
  apply (@cleanup_invisible S R burst_state (1200 * Second) (2000 * Second) tr Hwf).
  - vm_compute; repeat split; discriminate.
  - repeat constructor.
Defined.

(** 59 calls at the end of one window and 60 at the start of the next. *)
Lemma api_rate_bound_witness :
  let tr := map (λ s, (s * Second, ApiAllow "198.51.100.7")) (app (replicate 70 58) (replicate 70 61)) in
  let a := (Allow_api ∅ 0 "198.51.100.7").2 in
  api_wf (58 * Second) a ∧ api_allowed "198.51.100.7" a tr = 119 ∧
  api_allowed "198.51.100.7" a tr ≤ 2 * Burst - 1.
Proof.
  intros tr a. assert (api_wf (58 * Second) a) as Hwf.
  { intros ip e E. apply (api_step_wf ∅ 0 0 (ApiAllow "198.51.100.7")) in E; [|lia|by intros ? ?].
    split; [apply E|]. transitivity 0; [apply E|by vm_compute]. }
  split; [|split; [vm_compute; reflexivity|]].
  - exact Hwf.
  - apply (api_rate_bound a (58 * Second) tr "198.51.100.7" Hwf).
    vm_compute; repeat split; discriminate.
Defined.
