(* ===== verification/ConnLimit.v ===== *)
(** * Per-IP connection limiter ([internal/connlimit/connlimit.go])

    The limiter keeps, in 64 lock-guarded shards, a map from client IP to a pointer
    to an [int64] counter.  The counters are modelled as cells of a heap, because a
    critical section may run between a goroutine's lookup of a counter and its use of
    it.  Every lock-protected section and every atomic operation is one definition;
    [Acquire] and [Release] compose them, and the interleaved machine of the second
    half schedules them one at a time.

    - [connlimit_refines]: run one call at a time, the limiter is the abstract
      per-IP count of admitted connections.
    - [connlimit_never_wedges]: under every interleaving, no client is counted for
      more connections than it has, and a client with none is not tracked at all.
    - [release_race_uncounted]: under one interleaving of [Release] a live connection
      is dropped from the accounting, so the cap can be exceeded. *)

From S2P Require Import Prelude GoStrings.

Definition defaultMaxConnsPerIP : Z := 1024.
Definition shardCount : nat := 64.

Abbreviation loc := nat.

(** [hash/maphash] under the limiter's random seed: any function of the key. *)
Class MapHash := { maphash_String : string → N }.

Record ConnLimiter := mkCL {
  shards : list (gmap string loc);   (* each shard's [conns] *)
  cells : gmap loc Z;                (* the [int64] counters *)
  next_loc : loc;                    (* the allocator *)
  maxPerIP : Z;
  enabled : bool;
  rejected : Z;
}.

#[global] Instance ConnLimiter_eta : Eta ConnLimiter := λ r,
  mkCL (shards r) (cells r) (next_loc r) (maxPerIP r) (enabled r) (rejected r).

(** [New]. *)
Definition New : ConnLimiter := mkCL (replicate shardCount ∅) ∅ 0 defaultMaxConnsPerIP false 0.

(** [Enable]: the cap, then the flag. *)
Definition set_cap (cl : ConnLimiter) (n : Z) : ConnLimiter :=
  cl <| maxPerIP := if n <=? 0 then defaultMaxConnsPerIP else n |>.
Definition set_enabled (cl : ConnLimiter) (b : bool) : ConnLimiter := cl <| enabled := b |>.
Definition Enable (cl : ConnLimiter) (n : Z) : ConnLimiter := set_enabled (set_cap cl n) true.
Definition Disable (cl : ConnLimiter) : ConnLimiter := set_enabled cl false.
Definition Enabled (cl : ConnLimiter) : bool := enabled cl.
Definition MaxPerIP (cl : ConnLimiter) : Z := maxPerIP cl.
Definition Rejected (cl : ConnLimiter) : Z := rejected cl.

(** [ActiveIPs]: the sum of the shards' sizes. *)
Definition ActiveIPs (cl : ConnLimiter) : Z :=
  fold_left (λ n m, n + Z.of_nat (size m)) (shards cl) 0.

Definition cell (cl : ConnLimiter) (l : loc) : Z := default 0 (cells cl !! l).
Definition add_cell (cl : ConnLimiter) (l : loc) (d : Z) : ConnLimiter :=
  cl <| cells := <[l := cell cl l + d]> (cells cl) |>.

Section limiter.
Context `{MapHash}.

(** [ConnLimiter.shard]. *)
Definition shard (ip : string) : nat := N.to_nat (maphash_String ip mod N.of_nat shardCount).

Definition ctr_of (cl : ConnLimiter) (ip : string) : option loc :=
  shards cl !! shard ip ≫= (.!! ip).
Definition put_ctr (cl : ConnLimiter) (ip : string) (l : loc) : ConnLimiter :=
  cl <| shards := alter (λ m, <[ip := l]> m) (shard ip) (shards cl) |>.
Definition del_ctr (cl : ConnLimiter) (ip : string) : ConnLimiter :=
  cl <| shards := alter (λ m, delete ip m) (shard ip) (shards cl) |>.

(** [Acquire], first critical section: count the connection; the flag and the cap
    are read before the lock is released. *)
Definition acquire_count (cl : ConnLimiter) (ip : string) : loc * bool * ConnLimiter :=
  let '(ctr, cl1) :=
    match ctr_of cl ip with
    | Some ctr => (ctr, cl)
    | None => let ctr := next_loc cl in
              (ctr, put_ctr (cl <| cells := <[ctr := 0]> (cells cl) |> <| next_loc := S ctr |>) ip ctr)
    end in
  let cl2 := add_cell cl1 ctr 1 in
  (ctr, enabled cl2 && (cell cl2 ctr >? maxPerIP cl2), cl2).

(** [Acquire], second critical section: undo the count of a refused connection. *)
Definition acquire_undo (cl : ConnLimiter) (ip : string) (ctr : loc) : ConnLimiter :=
  if decide (ctr_of cl ip = Some ctr) then
    let cl1 := add_cell cl ctr (-1) in
    if cell cl1 ctr <=? 0 then del_ctr cl1 ip else cl1
  else cl.

Definition bump_rejected (cl : ConnLimiter) : ConnLimiter := cl <| rejected := rejected cl + 1 |>.

(** [Acquire]. *)
Definition Acquire (cl : ConnLimiter) (ip : string) : bool * ConnLimiter :=
  let '(ctr, over, cl1) := acquire_count cl ip in
  if over then (false, bump_rejected (acquire_undo cl1 ip ctr)) else (true, cl1).

(** [Release]: the locked lookup is [ctr_of]; the decrement is outside the lock; the
    second critical section deletes the client's entry. *)
Definition release_dec (cl : ConnLimiter) (ctr : loc) : bool * ConnLimiter :=
  let cl1 := add_cell cl ctr (-1) in (cell cl1 ctr <=? 0, cl1).
Definition release_delete (cl : ConnLimiter) (ip : string) (ctr : loc) : ConnLimiter :=
  if cell cl ctr <=? 0 then del_ctr cl ip else cl.

Definition Release (cl : ConnLimiter) (ip : string) : ConnLimiter :=
  match ctr_of cl ip with
  | Some ctr => let '(zero, cl1) := release_dec cl ctr in
                if zero then release_delete cl1 ip ctr else cl1
  | None => cl
  end.

(** [ActiveConns]. *)
Definition ActiveConns (cl : ConnLimiter) (ip : string) : Z :=
  match ctr_of cl ip with Some ctr => cell cl ctr | None => 0 end.
End limiter.

(** ** One call at a time: the abstract limiter *)

Record Spec := mkSpec {
  live : gmap string Z;    (* admitted, not yet released connections per client *)
  s_max : Z;
  s_enabled : bool;
  s_rejected : Z;
}.

#[global] Instance Spec_eta : Eta Spec := λ r, mkSpec (live r) (s_max r) (s_enabled r) (s_rejected r).

Definition live_of (s : Spec) (ip : string) : Z := default 0 (live s !! ip).
Definition set_live (s : Spec) (ip : string) (n : Z) : Spec :=
  s <| live := if n <=? 0 then delete ip (live s) else <[ip := n]> (live s) |>.

Inductive CLOp :=
  | CLEnable (n : Z) | CLDisable | CLAcquire (ip : string) | CLRelease (ip : string)
  | CLActiveConns (ip : string) | CLActiveIPs | CLRejected | CLMaxPerIP | CLEnabled.

Inductive CLRes := RUnit | RBool (b : bool) | RInt (n : Z).

Definition spec_step (s : Spec) (op : CLOp) : CLRes * Spec :=
  match op with
  | CLEnable n => (RUnit, s <| s_max := if n <=? 0 then defaultMaxConnsPerIP else n |> <| s_enabled := true |>)
  | CLDisable => (RUnit, s <| s_enabled := false |>)
  | CLAcquire ip =>
      if s_enabled s && (s_max s <=? live_of s ip)
      then (RBool false, s <| s_rejected := s_rejected s + 1 |>)
      else (RBool true, set_live s ip (live_of s ip + 1))
  | CLRelease ip => (RUnit, set_live s ip (live_of s ip - 1))
  | CLActiveConns ip => (RInt (live_of s ip), s)
  | CLActiveIPs => (RInt (Z.of_nat (size (live s))), s)
  | CLRejected => (RInt (s_rejected s), s)
  | CLMaxPerIP => (RInt (s_max s), s)
  | CLEnabled => (RBool (s_enabled s), s)
  end.

Definition cl_step `{MapHash} (cl : ConnLimiter) (op : CLOp) : CLRes * ConnLimiter :=
  match op with
  | CLEnable n => (RUnit, Enable cl n)
  | CLDisable => (RUnit, Disable cl)
  | CLAcquire ip => let '(ok, cl') := Acquire cl ip in (RBool ok, cl')
  | CLRelease ip => (RUnit, Release cl ip)
  | CLActiveConns ip => (RInt (ActiveConns cl ip), cl)
  | CLActiveIPs => (RInt (ActiveIPs cl), cl)
  | CLRejected => (RInt (Rejected cl), cl)
  | CLMaxPerIP => (RInt (MaxPerIP cl), cl)
  | CLEnabled => (RBool (Enabled cl), cl)
  end.

Fixpoint run_results {S} (step : S → CLOp → CLRes * S) (s : S) (ops : list CLOp) : list CLRes :=
  match ops with
  | [] => []
  | op :: ops => let '(r, s') := step s op in r :: run_results step s' ops
  end.

(** The representation relation. *)
Record cl_rel `{MapHash} (cl : ConnLimiter) (s : Spec) : Prop := {
  rel_shards : length (shards cl) = shardCount;
  rel_routed i m ip l : shards cl !! i = Some m → m !! ip = Some l → shard ip = i;
  rel_ctr ip : match ctr_of cl ip with
               | Some l => ∃ n, 0 < n ∧ live s !! ip = Some n ∧ cells cl !! l = Some n
               | None => live s !! ip = None
               end;
  rel_fresh ip l : ctr_of cl ip = Some l → (l < next_loc cl)%nat;
  rel_inj ip ip' l : ctr_of cl ip = Some l → ctr_of cl ip' = Some l → ip = ip';
  rel_max : maxPerIP cl = s_max s;
  rel_enabled : enabled cl = s_enabled s;
  rel_rejected : rejected cl = s_rejected s;
}.

Section refinement.
Context `{MapHash}.

Lemma shard_lt ip : (shard ip < shardCount)%nat.
Proof. unfold shard. pose proof (N.mod_upper_bound (maphash_String ip) (N.of_nat shardCount) ltac:(done)). lia. Qed.

Lemma ctr_put cl ip l ip' :
  length (shards cl) = shardCount →
  ctr_of (put_ctr cl ip l) ip' = if decide (ip = ip') then Some l else ctr_of cl ip'.
Proof.
  intros Hlen. unfold ctr_of, put_ctr. simpl.
  destruct (decide (shard ip = shard ip')) as [E|E].
  - rewrite E, list_lookup_alter_eq, <- E.
    destruct (lookup_lt_is_Some_2 (shards cl) (shard ip)) as [m Hm].
    { rewrite Hlen. apply shard_lt. }
    rewrite Hm. simpl. rewrite lookup_insert. by case_decide.
  - rewrite list_lookup_alter_ne by done. case_decide; [congruence|done].
Qed.

Lemma ctr_del cl ip ip' :
  ctr_of (del_ctr cl ip) ip' = if decide (ip = ip') then None else ctr_of cl ip'.
Proof.
  unfold ctr_of, del_ctr. simpl. destruct (decide (shard ip = shard ip')) as [E|E].
  - rewrite E, list_lookup_alter_eq, <- E. destruct (shards cl !! shard ip); simpl; [|by case_decide].
    rewrite lookup_delete. by case_decide.
  - rewrite list_lookup_alter_ne by done. case_decide; [congruence|done].
Qed.

Lemma cell_add cl l d l' :
  cells (add_cell cl l d) !! l' = if decide (l = l') then Some (cell cl l + d) else cells cl !! l'.
Proof. unfold add_cell. simpl. by rewrite lookup_insert. Qed.

Lemma cell_get cl l n : cells cl !! l = Some n → cell cl l = n.
Proof. unfold cell. by intros ->. Qed.

Lemma live_of_rel cl s ip :
  cl_rel cl s → 0 ≤ live_of s ip ∧
  live_of s ip = match ctr_of cl ip with Some l => cell cl l | None => 0 end ∧
  (live_of s ip = 0 ↔ live s !! ip = None).
Proof.
  intros R. pose proof (rel_ctr _ _ R ip) as Hc. unfold live_of.
  destruct (ctr_of cl ip) as [l|].
  - destruct Hc as (n&Hn&->&Hcell). rewrite (cell_get _ _ _ Hcell). simpl. split_and!; [lia|done|].
    split; [lia|done].
  - rewrite Hc. simpl. done.
Qed.

Lemma live_set s ip n ip' :
  live (set_live s ip n) !! ip' =
    if decide (ip = ip') then (if n <=? 0 then None else Some n) else live s !! ip'.
Proof.
  unfold set_live. simpl. destruct (n <=? 0); [rewrite lookup_delete|rewrite lookup_insert]; by case_decide.
Qed.

Lemma set_live_back s ip n :
  live_of s ip = n → 0 ≤ n → (n = 0 → live s !! ip = None) → set_live (set_live s ip (n + 1)) ip n = s.
Proof.
  intros Hn H0 Hz. destruct s as [m mx en rj]. unfold set_live, live_of in *. simpl in *.
  rewrite (proj2 (Z.leb_gt (n + 1) 0)) by lia.
  transitivity (mkSpec (if n <=? 0 then delete ip (<[ip := n + 1]> m) else <[ip := n]> (<[ip := n + 1]> m))
    mx en rj); [by destruct (n <=? 0)|]. f_equal. destruct (Z.leb_spec n 0).
  - rewrite delete_insert_eq. apply delete_id, Hz. lia.
  - rewrite insert_insert_eq. apply insert_id. destruct (m !! ip); simpl in *; [by f_equal|lia].
Qed.

(** A change of one tracked counter keeps the relation. *)
Lemma rel_update cl s ip l n cl' :
  cl_rel cl s → 0 < n → length (shards cl') = shardCount →
  (∀ ip', ctr_of cl' ip' = if decide (ip = ip') then Some l else ctr_of cl ip') →
  (∀ i m ip' l', shards cl' !! i = Some m → m !! ip' = Some l' → shard ip' = i) →
  (∀ ip', ip' ≠ ip → ctr_of cl ip' ≠ Some l) →
  cells cl' !! l = Some n → (∀ l', l' ≠ l → cells cl' !! l' = cells cl !! l') →
  (l < next_loc cl')%nat → (next_loc cl ≤ next_loc cl')%nat →
  maxPerIP cl' = maxPerIP cl → enabled cl' = enabled cl → rejected cl' = rejected cl →
  cl_rel cl' (set_live s ip n).
Proof.
  intros R Hn Hlen Hctr Hrt Hne Hcell Hcells Hl Hnx Hm He Hr. constructor; [done|done|..].
  - intros ip'. rewrite Hctr, live_set. case_decide.
    + exists n. rewrite (proj2 (Z.leb_gt n 0)) by lia. done.
    + pose proof (rel_ctr _ _ R ip') as Hc. destruct (ctr_of cl ip') as [l'|] eqn:E; [|done].
      rewrite Hcells; [done|]. intros ->. by apply (Hne ip').
  - intros ip' l'. rewrite Hctr. case_decide; [by intros [= <-]|].
    intros E%(rel_fresh _ _ R). lia.
  - intros i1 i2 l'. rewrite !Hctr. repeat case_decide; subst; [done|intros [= <-] E|intros E [= <-]|].
    + by destruct (Hne i2).
    + by destruct (Hne i1).
    + apply (rel_inj _ _ R).
  - rewrite Hm. apply (rel_max _ _ R).
  - rewrite He. apply (rel_enabled _ _ R).
  - rewrite Hr. apply (rel_rejected _ _ R).
Qed.

Lemma routed_put cl s ip l i m ip' l' :
  cl_rel cl s → shards (put_ctr cl ip l) !! i = Some m → m !! ip' = Some l' → shard ip' = i.
Proof.
  intros R. unfold put_ctr. simpl. rewrite list_lookup_alter. case_decide; [|apply (rel_routed _ _ R)].
  subst i. destruct (shards cl !! shard ip) as [m0|] eqn:E; simpl; [|done].
  intros [= <-]. rewrite lookup_insert. case_decide; [congruence|]. by apply (rel_routed _ _ R).
Qed.

Lemma acquire_count_rel cl s ip :
  cl_rel cl s →
  let '(ctr, over, cl') := acquire_count cl ip in
  over = s_enabled s && (s_max s <=? live_of s ip) ∧
  cl_rel cl' (set_live s ip (live_of s ip + 1)) ∧ ctr_of cl' ip = Some ctr.
Proof.
  intros R. destruct (live_of_rel _ _ ip R) as (H0&Hv&_). unfold acquire_count.
  assert (∀ cl' l n, maxPerIP cl' = maxPerIP cl → enabled cl' = enabled cl → cell cl' l = n + 1 →
    enabled cl' && (cell cl' l >? maxPerIP cl') = s_enabled s && (s_max s <=? n)) as Hover.
  { intros cl' l n -> -> ->. rewrite (rel_max _ _ R), (rel_enabled _ _ R). f_equal.
    destruct (Z.gtb_spec (n + 1) (s_max s)), (Z.leb_spec (s_max s) n); lia. }
  destruct (ctr_of cl ip) as [l|] eqn:E.
  - split_and!.
    + apply Hover; [done..|]. unfold cell at 1. by rewrite cell_add, decide_True, Hv by done.
    + apply (rel_update cl s ip l); try done; try lia.
      * apply (rel_shards _ _ R).
      * intros ip'. unfold ctr_of in *. simpl. case_decide; [by subst|done].
      * apply (rel_routed _ _ R).
      * intros ip' ? E'. by destruct (rel_inj _ _ R ip' ip l).
      * rewrite cell_add, decide_True by done. by rewrite Hv.
      * intros l' ?. by rewrite cell_add, decide_False by done.
      * simpl. by apply (rel_fresh _ _ R ip).
    + done.
  - set (cl0 := cl <| cells := _ |> <| next_loc := _ |>).
    assert (length (shards cl0) = shardCount) as Hlen by apply (rel_shards _ _ R).
    assert (cell (put_ctr cl0 ip (next_loc cl)) (next_loc cl) = 0) as Hz.
    { unfold cell, cl0. simpl. by rewrite lookup_insert_eq. }
    assert (∀ ip', ctr_of (put_ctr cl0 ip (next_loc cl)) ip' =
              if decide (ip = ip') then Some (next_loc cl) else ctr_of cl ip') as Hctr.
    { intros ip'. rewrite ctr_put by done. done. }
    split_and!.
    + apply Hover; [done..|]. unfold cell at 1. rewrite cell_add, decide_True by done. simpl. lia.
    + apply (rel_update cl s ip (next_loc cl)); try done; try lia.
      * simpl. by rewrite length_alter.
      * intros i m ip' l'. unfold add_cell; simpl. apply (routed_put cl s ip (next_loc cl)). done.
      * intros ip' _ E'%(rel_fresh _ _ R). lia.
      * rewrite cell_add, decide_True by done. f_equal. lia.
      * intros l' ?. rewrite cell_add, decide_False by done. simpl. by rewrite lookup_insert_ne by done.
      * simpl. lia.
      * simpl. lia.
    + unfold ctr_of in *. simpl in *. specialize (Hctr ip). by rewrite decide_True in Hctr by done.
Qed.

(** The common tail of [Acquire]'s undo and of [Release]. *)
Lemma dec_rel cl s ip l :
  cl_rel cl s → ctr_of cl ip = Some l →
  let cl1 := add_cell cl l (-1) in
  cl_rel (if cell cl1 l <=? 0 then del_ctr cl1 ip else cl1) (set_live s ip (live_of s ip - 1)).
Proof.
  intros R E cl1. destruct (live_of_rel _ _ ip R) as (H0&Hv&_). rewrite E in Hv.
  assert (cell cl1 l = live_of s ip - 1) as Hc.
  { unfold cell at 1. unfold cl1. rewrite cell_add, decide_True by done. simpl. lia. }
  rewrite Hc. destruct (Z.leb_spec (live_of s ip - 1) 0).
  - constructor; [simpl; rewrite length_alter; apply (rel_shards _ _ R)|..]; try apply R.
    + intros i m ip' l'. simpl. rewrite list_lookup_alter. case_decide; [|apply (rel_routed _ _ R)].
      subst i. destruct (shards cl !! shard ip) as [m0|] eqn:E0; simpl; [|done].
      intros [= <-] [_ ?]%lookup_delete_Some. by apply (rel_routed _ _ R _ m0 ip' l').
    + intros ip'. rewrite ctr_del, live_set. case_decide; [by rewrite (proj2 (Z.leb_le _ 0)) by lia|].
      pose proof (rel_ctr _ _ R ip') as Hc'. change (ctr_of cl1 ip') with (ctr_of cl ip').
      destruct (ctr_of cl ip') as [l'|] eqn:E'; [|done].
      simpl. rewrite lookup_insert_ne; [done|]. intros <-. by destruct (rel_inj _ _ R ip ip' l).
    + intros ip' l'. rewrite ctr_del. case_decide; [done|]. apply (rel_fresh _ _ R ip').
    + intros i1 i2 l'. rewrite !ctr_del. repeat case_decide; try done. apply (rel_inj _ _ R).
  - apply (rel_update cl s ip l); try done; try lia.
    + apply (rel_shards _ _ R).
    + intros ip'. unfold ctr_of in *. simpl. case_decide; [by subst|done].
    + apply (rel_routed _ _ R).
    + intros ip' ? E'. by destruct (rel_inj _ _ R ip' ip l).
    + unfold cl1. rewrite cell_add, decide_True by done. f_equal. lia.
    + intros l' ?. unfold cl1. by rewrite cell_add, decide_False by done.
    + simpl. by apply (rel_fresh _ _ R ip).
Qed.

Lemma acquire_rel cl s ip :
  cl_rel cl s → (Acquire cl ip).1 = negb (s_enabled s && (s_max s <=? live_of s ip)) ∧
  cl_rel (Acquire cl ip).2 (spec_step s (CLAcquire ip)).2.
Proof.
  intros R. unfold Acquire. pose proof (acquire_count_rel cl s ip R) as Hc.
  destruct (acquire_count cl ip) as [[ctr over] cl1]. destruct Hc as (->&R1&E). simpl.
  destruct (s_enabled s && (s_max s <=? live_of s ip)) eqn:Eo; simpl; split; try done.
  unfold acquire_undo. rewrite decide_True by done. pose proof (dec_rel cl1 _ ip ctr R1 E) as R2.
  destruct (live_of_rel _ _ ip R) as (H0&Hv&Hz).
  replace (live_of (set_live s ip (live_of s ip + 1)) ip - 1) with (live_of s ip) in R2.
  2: { unfold live_of at 2. rewrite live_set, decide_True by done.
       rewrite (proj2 (Z.leb_gt _ 0)) by lia. simpl. lia. }
  rewrite set_live_back in R2 by (auto; by intros ?%Hz).
  simpl in R2. revert R2. generalize (if cell (add_cell cl1 ctr (-1)) ctr <=? 0
    then del_ctr (add_cell cl1 ctr (-1)) ip else add_cell cl1 ctr (-1)). intros cl2 R2.
  constructor; try apply R2. simpl. by rewrite (rel_rejected _ _ R2).
Qed.

Lemma release_rel cl s ip :
  cl_rel cl s → cl_rel (Release cl ip) (spec_step s (CLRelease ip)).2.
Proof.
  intros R. unfold Release, release_dec, release_delete. simpl.
  destruct (ctr_of cl ip) as [l|] eqn:E.
  - pose proof (dec_rel cl s ip l R E) as R'. cbv zeta in R'. by destruct (cell _ l <=? 0).
  - pose proof (rel_ctr _ _ R ip) as Hc. rewrite E in Hc.
    assert (set_live s ip (live_of s ip - 1) = s) as ->; [|done].
    unfold live_of, set_live. rewrite Hc. simpl. rewrite delete_id by done. by destruct s.
Qed.

(** The shards' key sets are disjoint, so their sizes add up. *)
Lemma sum_sizes (h : string → nat) (ms : list (gmap string loc)) k n0 :
  (∀ i m ip l, ms !! i = Some m → m !! ip = Some l → h ip = k + i)%nat →
  fold_left (λ n m, n + Z.of_nat (size m)) ms n0 =
    n0 + Z.of_nat (size (⋃ ((λ m, dom m : gset string) <$> ms))).
Proof.
  revert k n0. induction ms as [|m ms IH]; intros k n0 Hh; [cbn [fold_left]; change (⋃ _) with (∅ : gset string); rewrite size_empty; lia|].
  cbn [fold_left fmap list_fmap union_list foldr]. fold (fmap (λ m, dom m : gset string) ms).
  rewrite (IH (S k)).
  - change (foldr union ∅ ?l) with (⋃ l). rewrite size_union; [rewrite size_dom; lia|].
    intros ip [l Hl]%elem_of_dom (X&HX&HipX)%elem_of_union_list.
    apply list_elem_of_fmap in HX as (m'&->&[i Hi]%list_elem_of_lookup).
    apply elem_of_dom in HipX as [l' Hl'].
    pose proof (Hh 0%nat m ip l eq_refl Hl). pose proof (Hh (S i) m' ip l' Hi Hl'). lia.
  - intros i m' ip l Hi Hl. rewrite (Hh (S i) m' ip l Hi Hl). lia.
Qed.

Lemma active_rel cl s : cl_rel cl s → ActiveIPs cl = Z.of_nat (size (live s)).
Proof.
  intros R. unfold ActiveIPs. rewrite (sum_sizes shard _ 0).
  2: { intros i m ip l Hi Hl. by rewrite (rel_routed _ _ R i m ip l). }
  rewrite Z.add_0_l. f_equal. rewrite <- (size_dom (D:=gset string) (live s)). f_equal.
  apply set_eq. intros ip. rewrite elem_of_union_list, elem_of_dom.
  pose proof (rel_ctr _ _ R ip) as Hc. split.
  - intros (X&HX&HipX). apply list_elem_of_fmap in HX as (m&->&[i Hi]%list_elem_of_lookup).
    apply elem_of_dom in HipX as [l Hl]. pose proof (rel_routed _ _ R i m ip l Hi Hl) as <-.
    unfold ctr_of in Hc. rewrite Hi in Hc. simpl in Hc. rewrite Hl in Hc.
    destruct Hc as (n&_&->&_). eauto.
  - intros [n Hn]. rewrite Hn in Hc. unfold ctr_of in Hc.
    destruct (shards cl !! shard ip) as [m|] eqn:Em; [|done]. simpl in Hc.
    destruct (m !! ip) as [l|] eqn:El; [|done]. exists (dom m). split; [|apply elem_of_dom; eauto].
    apply list_elem_of_fmap. exists m. split; [done|]. by eapply list_elem_of_lookup_2.
Qed.

Lemma step_rel cl s op :
  cl_rel cl s →
  (cl_step cl op).1 = (spec_step s op).1 ∧ cl_rel (cl_step cl op).2 (spec_step s op).2.
Proof.
  intros R. destruct op; cbn [cl_step].
  - split; [done|]. constructor; try apply R; done.
  - split; [done|]. constructor; try apply R; done.
  - destruct (acquire_rel cl s ip R) as [Hok R']. destruct (Acquire cl ip) as [ok cl']. simpl in *.
    subst ok. split; [|done]. by destruct (s_enabled s && _).
  - split; [done|]. by apply release_rel.
  - split; [|done]. simpl. f_equal. unfold ActiveConns. by destruct (live_of_rel _ _ ip R) as (_&->&_).
  - split; [|done]. simpl. f_equal. by apply active_rel.
  - split; [|done]. simpl. f_equal. apply (rel_rejected _ _ R).
  - split; [|done]. simpl. f_equal. apply (rel_max _ _ R).
  - split; [|done]. simpl. f_equal. apply (rel_enabled _ _ R).
Qed.

Lemma new_rel : cl_rel New (mkSpec ∅ defaultMaxConnsPerIP false 0).
Proof.
  assert (∀ ip, ctr_of New ip = None) as Hn.
  { intros ip. unfold ctr_of. destruct (shards New !! shard ip) as [m|] eqn:E; [|done].
    apply lookup_replicate in E as [-> _]. apply lookup_empty. }
  constructor; try done.
  - intros i m ip l E. apply lookup_replicate in E as [-> _]. by rewrite lookup_empty.
  - intros ip. rewrite Hn. apply lookup_empty.
  - intros ip l. by rewrite Hn.
  - intros ip ip' l. by rewrite Hn.
Qed.

(** One call at a time, the sharded limiter is the per-client count of admitted
    connections, whatever the hash: every answer of every sequence of calls - admission,
    the gauges, the rejection total - is the abstract limiter's, with the cap enforced
    only while enabled and the accounting unaffected by [Enable] and [Disable]. *)
Theorem connlimit_refines (ops : list CLOp) :
  run_results cl_step New ops = run_results spec_step (mkSpec ∅ defaultMaxConnsPerIP false 0) ops.
Proof.
  pose proof new_rel as R. revert R. generalize New (mkSpec ∅ defaultMaxConnsPerIP false 0).
  induction ops as [|op ops IH]; intros cl s R; [done|]. simpl.
  destruct (step_rel cl s op R) as [Hr R'].
  destruct (cl_step cl op) as [r cl'], (spec_step s op) as [r' s']. simpl in *.
  f_equal; [done|]. by apply IH.
Qed.
End refinement.

(** ** Interleaved calls

    Goroutines run one atomic section at a time, in any order ([schedule]).  A
    goroutine that holds an admitted connection is [Live]; the counter it was counted
    on is recorded with it for the proofs only, no step reads it. *)

Inductive Goroutine :=
  | Undo (ip : string) (ctr : loc)       (* in Acquire, over the cap, before the second lock *)
  | Reject (ip : string)                 (* in Acquire, before [rejected.Add] *)
  | Live (ip : string) (counted : loc)   (* admitted; calls Release when it is done *)
  | Dec (ip : string) (ctr : loc)        (* in Release, before the decrement *)
  | Del (ip : string) (ctr : loc).       (* in Release, decremented to zero, before the second lock *)

Record Machine := mkM { lim : ConnLimiter; gos : gmap nat Goroutine }.

Inductive Event :=
  | EvAcquire (g : nat) (ip : string)  (* a new goroutine runs Acquire's first section *)
  | EvStep (g : nat)                   (* goroutine [g] runs its next section *)
  | EvCap (n : Z) | EvEnabled (b : bool).

Section machine.
Context `{MapHash}.

(** The next section of a goroutine, and its state afterwards ([None]: returned). *)
Definition go_step (cl : ConnLimiter) (t : Goroutine) : ConnLimiter * option Goroutine :=
  match t with
  | Undo ip ctr => (acquire_undo cl ip ctr, Some (Reject ip))
  | Reject ip => (bump_rejected cl, None)
  | Live ip _ => (cl, (λ ctr, Dec ip ctr) <$> ctr_of cl ip)
  | Dec ip ctr => let '(zero, cl') := release_dec cl ctr in
                  (cl', if zero then Some (Del ip ctr) else None)
  | Del ip ctr => (release_delete cl ip ctr, None)
  end.

Definition schedule (m : Machine) (e : Event) : Machine :=
  match e with
  | EvAcquire g ip =>
      match gos m !! g with
      | Some _ => m
      | None => let '(ctr, over, cl) := acquire_count (lim m) ip in
                mkM cl (<[g := if over then Undo ip ctr else Live ip ctr]> (gos m))
      end
  | EvStep g =>
      match gos m !! g with
      | Some t => let '(cl, t') := go_step (lim m) t in
                  mkM cl (partial_alter (λ _, t') g (gos m))
      | None => m
      end
  | EvCap n => mkM (set_cap (lim m) n) (gos m)
  | EvEnabled b => mkM (set_enabled (lim m) b) (gos m)
  end.

Definition execute (evs : list Event) : Machine := fold_left schedule evs (mkM New ∅).
End machine.

Definition go_ip (t : Goroutine) : string :=
  match t with Undo ip _ | Reject ip | Live ip _ | Dec ip _ | Del ip _ => ip end.

(** The goroutines that still owe a counter its decrement. *)
Definition owes (l : loc) (t : Goroutine) : bool :=
  match t with Undo _ l' | Live _ l' | Dec _ l' => bool_decide (l = l') | _ => false end.
Definition go_loc (t : Goroutine) : option loc :=
  match t with Undo _ l | Live _ l | Dec _ l | Del _ l => Some l | Reject _ => None end.

Definition tcount (P : Goroutine → bool) (ts : gmap nat Goroutine) : Z :=
  map_fold (λ _ t n, Z.b2z (P t) + n) 0 ts.
Definition count_of (P : Goroutine → bool) (ot : option Goroutine) : Z :=
  match ot with Some t => Z.b2z (P t) | None => 0 end.

Lemma tcount_alter P ts g ot :
  tcount P (partial_alter (λ _, ot) g ts) = tcount P ts - count_of P (ts !! g) + count_of P ot.
Proof.
  assert (∀ ts t, ts !! g = None → tcount P (<[g := t]> ts) = Z.b2z (P t) + tcount P ts) as Hins.
  { intros ts' t Hn. unfold tcount. rewrite map_fold_insert_L; [done|intros; lia|done]. }
  assert (tcount P ts = count_of P (ts !! g) + tcount P (delete g ts)) as Hdel.
  { destruct (ts !! g) as [t|] eqn:E; simpl; [|rewrite delete_id by done; lia].
    rewrite <- Hins by apply lookup_delete_eq. by rewrite insert_delete_id. }
  assert (partial_alter (λ _, ot) g ts = partial_alter (λ _, ot) g (delete g ts)) as ->.
  { apply map_eq. intros i. destruct (decide (g = i)) as [<-|].
    - by rewrite !lookup_partial_alter_eq.
    - by rewrite !lookup_partial_alter_ne, lookup_delete_ne by done. }
  destruct ot as [t|]; simpl.
  - change (partial_alter (λ _, Some t) g ?m) with (<[g := t]> m). rewrite Hins by apply lookup_delete_eq. lia.
  - change (partial_alter (λ _, None) g ?m) with (delete g m). rewrite delete_delete_eq. lia.
Qed.

Lemma tcount_nonneg P ts : 0 ≤ tcount P ts.
Proof. unfold tcount. induction ts using map_first_key_ind; [done|]. rewrite map_fold_insert_first_key by done. destruct (P x); simpl; lia. Qed.

Section interleaving.
Context `{MapHash}.

Record minv (m : Machine) : Prop := {
  i_len : length (shards (lim m)) = shardCount;
  i_fresh ip l : ctr_of (lim m) ip = Some l → (l < next_loc (lim m))%nat;
  i_gofresh g t l : gos m !! g = Some t → go_loc t = Some l → (l < next_loc (lim m))%nat;
  i_inj ip ip' l : ctr_of (lim m) ip = Some l → ctr_of (lim m) ip' = Some l → ip = ip';
  i_own g t l ip : gos m !! g = Some t → go_loc t = Some l → ctr_of (lim m) ip = Some l → go_ip t = ip;
  i_count ip l : ctr_of (lim m) ip = Some l → cell (lim m) l ≤ tcount (owes l) (gos m);
  i_del ip l : ctr_of (lim m) ip = Some l → cell (lim m) l ≤ 0 → ∃ g, gos m !! g = Some (Del ip l);
}.

Lemma minv_new : minv (mkM New ∅).
Proof.
  pose proof new_rel as R. constructor; simpl; try apply R; try done.
  intros ip l E. pose proof (rel_ctr _ _ R ip) as Hc. rewrite E in Hc. by destruct Hc as (n&_&Hl&_).
Qed.

(** A step of a running goroutine that tracks no new counter. *)
Lemma minv_step cl cl' ts g t ot :
  minv (mkM cl ts) → ts !! g = Some t →
  length (shards cl') = shardCount → next_loc cl' = next_loc cl →
  (∀ ip l, ctr_of cl' ip = Some l → ctr_of cl ip = Some l) →
  (∀ t', ot = Some t' → go_ip t' = go_ip t ∧
     ∀ l, go_loc t' = Some l → go_loc t = Some l ∨ ctr_of cl (go_ip t) = Some l) →
  (∀ ip l, ctr_of cl' ip = Some l →
     cell cl' l - cell cl l ≤ count_of (owes l) ot - Z.b2z (owes l t) ∧
     (cell cl' l ≤ 0 → ot = Some (Del ip l) ∨ cell cl l ≤ 0 ∧ t ≠ Del ip l)) →
  minv (mkM cl' (partial_alter (λ _, ot) g ts)).
Proof.
  intros I Hg Hlen Hnx Hsub Hot Hcell.
  assert (∀ g' t' l, partial_alter (λ _, ot) g ts !! g' = Some t' → go_loc t' = Some l →
    (l < next_loc cl)%nat ∧ ∀ ip, ctr_of cl ip = Some l → go_ip t' = ip) as Hgo.
  { intros g' t' l. rewrite lookup_partial_alter. case_decide as Eg.
    - intros E Hl. destruct (Hot t' E) as [-> Hl']. destruct (Hl' l Hl) as [Ht|Ht].
      + split; [by apply (i_gofresh _ I g t)|]. intros ip. by apply (i_own _ I g t l).
      + split; [by apply (i_fresh _ I (go_ip t))|]. intros ip. by apply (i_inj _ I).
    - intros E Hl. split; [by apply (i_gofresh _ I g' t')|]. intros ip. by apply (i_own _ I g' t' l). }
  constructor; simpl; [done|..].
  - intros ip l E. rewrite Hnx. apply (i_fresh _ I ip), Hsub, E.
  - intros g' t' l E Hl. rewrite Hnx. by apply (Hgo g' t' l).
  - intros ip ip' l E E'. apply (i_inj _ I ip ip' l); by apply Hsub.
  - intros g' t' l ip E Hl El. apply (Hgo g' t' l); auto.
  - intros ip l E. rewrite tcount_alter, Hg. simpl. destruct (Hcell ip l E) as [Hd _].
    pose proof (i_count _ I ip l (Hsub _ _ E)) as Hc. simpl in Hc. lia.
  - intros ip l E Hz. destruct (Hcell ip l E) as [_ Hd]. destruct (Hd Hz) as [->|[Hz' Ht]].
    + exists g. by rewrite lookup_partial_alter_eq.
    + destruct (i_del _ I ip l (Hsub _ _ E) Hz') as [g' Hg']. exists g'. simpl in Hg'.
      rewrite lookup_partial_alter_ne; [done|]. intros <-. congruence.
Qed.

Lemma cell_add_same cl l d : cell (add_cell cl l d) l = cell cl l + d.
Proof. unfold cell at 1. by rewrite cell_add, decide_True by done. Qed.
Lemma cell_add_ne cl l d l' : l ≠ l' → cell (add_cell cl l d) l' = cell cl l'.
Proof. intros. unfold cell at 1. by rewrite cell_add, decide_False by done. Qed.

Lemma del_len cl ip : length (shards (del_ctr cl ip)) = length (shards cl).
Proof. simpl. by rewrite length_alter. Qed.

Lemma go_step_inv cl ts g t :
  minv (mkM cl ts) → ts !! g = Some t →
  minv (mkM (go_step cl t).1 (partial_alter (λ _, (go_step cl t).2) g ts)).
Proof.
  intros I Hg. pose proof (i_len _ I) as Hlen. simpl in Hlen.
  destruct t as [ip c|ip|ip c|ip c|ip c]; cbn [go_step fst snd].
  - unfold acquire_undo. case_decide as Ec.
    + set (cl1 := add_cell cl c (-1)).
      assert (∀ ip' l, ctr_of (if cell cl1 c <=? 0 then del_ctr cl1 ip else cl1) ip' = Some l →
        ctr_of cl ip' = Some l ∧ (l = c → 0 < cell cl1 c)) as Hsub.
      { intros ip' l. destruct (Z.leb_spec (cell cl1 c) 0); [|done]. rewrite ctr_del. case_decide; [done|].
        intros E. split; [done|]. intros ->. by destruct (i_inj _ I ip ip' c). }
      apply (minv_step cl _ ts g (Undo ip c)); try done.
      * by destruct (cell cl1 c <=? 0); rewrite ?del_len.
      * by destruct (cell cl1 c <=? 0).
      * intros ip' l E. by apply Hsub.
      * by intros t' [= <-].
      * intros ip' l E. destruct (Hsub _ _ E) as [E' Hp].
        assert (cell (if cell cl1 c <=? 0 then del_ctr cl1 ip else cl1) l = cell cl1 l) as ->
          by by destruct (cell cl1 c <=? 0).
        simpl. destruct (decide (l = c)) as [->|Hne].
        -- rewrite bool_decide_true by done. specialize (Hp eq_refl). unfold cl1 in *.
           rewrite cell_add_same in *. simpl. split; lia.
        -- rewrite bool_decide_false by done. unfold cl1. rewrite cell_add_ne by done. simpl.
           split; [lia|by right].
    + apply (minv_step cl _ ts g (Undo ip c)); try done; [by intros t' [= <-]|].
      intros ip' l E. split; [|by right]. simpl. destruct (bool_decide_reflect (l = c)) as [->|]; simpl; [|lia].
      pose proof (i_own _ I g _ c ip' Hg eq_refl E) as Hip. simpl in Hip. congruence.
  - apply (minv_step cl _ ts g (Reject ip)); try done. intros ip' l E. simpl.
    change (cell (bump_rejected cl) l) with (cell cl l). split; [lia|by right].
  - apply (minv_step cl _ ts g (Live ip c)); try done.
    + intros t' Ht'. apply fmap_Some in Ht' as (l&El&->). split; [done|]. intros l' [= <-]. by right.
    + intros ip' l E. split; [|by right]. simpl. destruct (bool_decide_reflect (l = c)) as [->|]; simpl.
      * pose proof (i_own _ I g _ c ip' Hg eq_refl E) as Hip. simpl in Hip. subst ip'. rewrite E. simpl.
        rewrite bool_decide_true by done. simpl. lia.
      * destruct (ctr_of cl ip) as [l'|]; simpl; [|lia]. destruct (bool_decide (l = l')); simpl; lia.
  - unfold release_dec. cbn [fst snd]. apply (minv_step cl _ ts g (Dec ip c)); try done.
    + intros t'. destruct (_ <=? 0); [|done]. intros [= <-]. split; [done|]. intros l [= <-]. by left.
    + intros ip' l E. simpl. change (ctr_of (add_cell cl c (-1)) ip') with (ctr_of cl ip') in E.
      destruct (decide (l = c)) as [->|Hne].
      * rewrite bool_decide_true by done. rewrite cell_add_same. simpl.
        destruct (Z.leb_spec (cell cl c + -1) 0); simpl; (split; [lia|]).
        -- intros _. left. pose proof (i_own _ I g _ c ip' Hg eq_refl E) as Hip. simpl in Hip. congruence.
        -- lia.
      * rewrite bool_decide_false by done. rewrite cell_add_ne by done. simpl.
        split; [|by right]. destruct (_ <=? 0); simpl; lia.
  - unfold release_delete. destruct (Z.leb_spec (cell cl c) 0) as [Hz|Hz].
    + apply (minv_step cl _ ts g (Del ip c)); try done; [by rewrite del_len|..].
      * intros ip' l. rewrite ctr_del. by case_decide.
      * intros ip' l. rewrite ctr_del. case_decide; [done|]. intros E. simpl. split; [|right; split; [done|congruence]].
        change (cell (del_ctr cl ip) l) with (cell cl l). lia.
    + apply (minv_step cl _ ts g (Del ip c)); try done.
      intros ip' l E. simpl. split; [lia|]. intros Hl. right. split; [done|]. intros [= -> ->]. lia.
Qed.

Lemma acquire_inv cl ts g ip t ctr over cl' :
  minv (mkM cl ts) → ts !! g = None → acquire_count cl ip = (ctr, over, cl') →
  t = (if over then Undo ip ctr else Live ip ctr) → minv (mkM cl' (<[g := t]> ts)).
Proof.
  intros I Hg Hacq Ht. pose proof (i_len _ I) as Hlen. simpl in Hlen.
  assert (go_ip t = ip ∧ go_loc t = Some ctr ∧ ∀ l, owes l t = bool_decide (l = ctr)) as (Hip&Hloc&Howes)
    by (subst t; by destruct over). clear Ht.
  set (nx := match ctr_of cl ip with Some _ => next_loc cl | None => S (next_loc cl) end).
  assert (ctr = match ctr_of cl ip with Some l => l | None => next_loc cl end ∧
    length (shards cl') = shardCount ∧ next_loc cl' = nx ∧
    (∀ ip', ctr_of cl' ip' = if decide (ip = ip') then Some ctr else ctr_of cl ip') ∧
    cell cl' ctr = match ctr_of cl ip with Some l => cell cl l | None => 0 end + 1 ∧
    ∀ l, l ≠ ctr → cell cl' l = cell cl l) as (Hc&Hlen'&Hnx&Hctr&Hcell&Hcells).
  { unfold acquire_count in Hacq. subst nx. destruct (ctr_of cl ip) as [l|] eqn:E; injection Hacq as <- _ <-.
    - split_and!; try done.
      + intros ip'. case_decide; [by subst|done].
      + apply cell_add_same.
      + intros l' ?. by apply cell_add_ne.
    - split_and!; try done.
      + simpl. by rewrite length_alter.
      + intros ip'. set (cl0 := cl <| cells := _ |> <| next_loc := _ |>).
        change (ctr_of (add_cell (put_ctr cl0 ip (next_loc cl)) (next_loc cl) 1) ip')
          with (ctr_of (put_ctr cl0 ip (next_loc cl)) ip'). by rewrite ctr_put by done.
      + rewrite cell_add_same. unfold cell. simpl. by rewrite lookup_insert_eq.
      + intros l ?. rewrite cell_add_ne by done. unfold cell. simpl. by rewrite lookup_insert_ne. }
  assert (∀ ip' l, ctr_of cl' ip' = Some l → ip' ≠ ip → l ≠ ctr ∧ ctr_of cl ip' = Some l) as Hoth.
  { intros ip' l. rewrite Hctr. case_decide; [congruence|]. intros E Hne. split; [|done]. intros ->.
    destruct (ctr_of cl ip) as [l0|] eqn:E0; subst ctr; [by destruct (i_inj _ I ip ip' l0)|].
    apply (i_fresh _ I) in E. simpl in E. lia. }
  assert (ctr < nx)%nat as Hlt.
  { subst nx ctr. destruct (ctr_of cl ip) eqn:E; [by apply (i_fresh _ I ip)|lia]. }
  assert (next_loc cl ≤ nx)%nat as Hle by (subst nx; destruct (ctr_of cl ip); lia).
  constructor; simpl; rewrite ?Hnx; [done|..].
  - intros ip' l. rewrite Hctr. case_decide; [by intros [= <-]|]. intros E%(i_fresh _ I). simpl in E. lia.
  - intros g' t' l. rewrite lookup_insert. case_decide; [intros [= <-]; congruence|].
    intros E El%(i_gofresh _ I g' t' l E). simpl in El. lia.
  - intros i1 i2 l E1 E2. destruct (decide (i1 = ip)) as [->|H1], (decide (i2 = ip)) as [->|H2]; [done|..].
    + rewrite Hctr, decide_True in E1 by done. destruct (Hoth i2 l E2 H2). congruence.
    + rewrite Hctr, decide_True in E2 by done. destruct (Hoth i1 l E1 H1). congruence.
    + apply (i_inj _ I i1 i2 l); by apply Hoth.
  - intros g' t' l ip' E Hl El. rewrite lookup_insert in E. case_decide.
    + injection E as <-. rewrite Hloc in Hl. injection Hl as <-. rewrite Hip.
      destruct (decide (ip' = ip)) as [->|Hne]; [done|]. by destruct (Hoth ip' ctr El Hne).
    + destruct (decide (ip' = ip)) as [->|Hne]; [|by apply (i_own _ I g' t' l), Hoth].
      rewrite Hctr, decide_True in El by done. injection El as <-.
      destruct (ctr_of cl ip) eqn:E0; subst ctr; [by apply (i_own _ I g' t' _ ip E Hl)|].
      pose proof (i_gofresh _ I g' t' _ E Hl) as Hf. simpl in Hf. lia.
  - intros ip' l El. change (<[g := t]> ts) with (partial_alter (λ _, Some t) g ts).
    rewrite tcount_alter, Hg. simpl. rewrite Howes. destruct (decide (ip' = ip)) as [->|Hne].
    + rewrite Hctr, decide_True in El by done. injection El as <-. rewrite Hcell, bool_decide_true by done. simpl.
      pose proof (tcount_nonneg (owes ctr) ts).
      destruct (ctr_of cl ip) as [l0|] eqn:E0; subst ctr; [|lia]. pose proof (i_count _ I ip l0 E0) as Hcnt.
      simpl in Hcnt. lia.
    + destruct (Hoth ip' l El Hne) as [Hlc El']. rewrite Hcells, bool_decide_false by done. simpl.
      pose proof (i_count _ I ip' l El') as Hcnt. simpl in Hcnt. lia.
  - intros ip' l El Hz.
    assert (ctr_of cl ip' = Some l ∧ cell cl l ≤ 0) as [El' Hz'].
    { destruct (decide (ip' = ip)) as [->|Hne].
      - rewrite Hctr, decide_True in El by done. injection El as <-. rewrite Hcell in Hz.
        destruct (ctr_of cl ip) as [l0|] eqn:E0; subst ctr; [|lia]. split; [done|lia].
      - destruct (Hoth ip' l El Hne) as [Hlc El']. by rewrite Hcells in Hz. }
    destruct (i_del _ I ip' l El' Hz') as [g' Hg']. exists g'. simpl in Hg'.
    rewrite lookup_insert_ne; [done|]. intros <-. congruence.
Qed.

Lemma schedule_inv m e : minv m → minv (schedule m e).
Proof.
  intros I. destruct m as [cl ts], e as [g ip|g|n|b]; simpl.
  - destruct (ts !! g) as [t|] eqn:Hg; [done|].
    destruct (acquire_count cl ip) as [[ctr over] cl'] eqn:E. by eapply acquire_inv.
  - destruct (ts !! g) as [t|] eqn:Hg; [|done]. pose proof (go_step_inv cl ts g t I Hg) as I'.
    by destruct (go_step cl t).
  - constructor; apply I.
  - constructor; apply I.
Qed.

Lemma execute_inv evs : minv (execute evs).
Proof.
  unfold execute. pose proof minv_new as I. revert I. generalize (mkM New ∅).
  induction evs as [|e evs IH]; intros m I; [done|]. by apply IH, schedule_inv.
Qed.

Lemma tcount_mono P Q ts :
  (∀ g t, ts !! g = Some t → P t = true → Q t = true) → tcount P ts ≤ tcount Q ts.
Proof.
  unfold tcount. induction ts as [|g t ts Hg Hf IH] using map_first_key_ind; [done|]. intros HPQ.
  rewrite !map_fold_insert_first_key by done.
  assert (map_fold (λ _ t n, Z.b2z (P t) + n) 0 ts ≤ map_fold (λ _ t n, Z.b2z (Q t) + n) 0 ts).
  { apply IH. intros g' t' Hg'. apply (HPQ g'). rewrite lookup_insert_ne; [done|]. intros <-. congruence. }
  specialize (HPQ g t (lookup_insert_eq _ _ _)). destruct (P t), (Q t); simpl in *; try lia.
Qed.

Lemma owes_ip m ip l : minv m → ctr_of (lim m) ip = Some l →
  tcount (owes l) (gos m) ≤ tcount (λ t, bool_decide (go_ip t = ip)) (gos m).
Proof.
  intros I E. apply tcount_mono. intros g t Hg Ho. apply bool_decide_eq_true.
  apply (i_own _ I g t l ip Hg); [|done].
  destruct t; simpl in *; try done; by apply bool_decide_eq_true in Ho as ->.
Qed.

(** No client is wedged: under every interleaving of [Acquire] and [Release] calls,
    section by section, and of cap changes, a client is never counted for more
    connections than it has goroutines admitted or in a call, and once it has none its
    entry is gone from the map (so the next connection is admitted and no entry leaks). *)
Theorem connlimit_never_wedges (evs : list Event) (ip : string) :
  let m := execute evs in
  ActiveConns (lim m) ip ≤ tcount (λ t, bool_decide (go_ip t = ip)) (gos m) ∧
  (tcount (λ t, bool_decide (go_ip t = ip)) (gos m) = 0 → ctr_of (lim m) ip = None).
Proof.
  intros m. pose proof (execute_inv evs) as I. fold m in I. split.
  - unfold ActiveConns. destruct (ctr_of (lim m) ip) as [l|] eqn:E; [|apply tcount_nonneg].
    etransitivity; [by apply (i_count _ I ip)|by apply owes_ip].
  - intros Hz. destruct (ctr_of (lim m) ip) as [l|] eqn:E; [|done]. exfalso.
    pose proof (i_count _ I ip l E). pose proof (owes_ip m ip l I E).
    destruct (i_del _ I ip l E) as [g Hg]; [lia|].
    pose proof (tcount_alter (λ t, bool_decide (go_ip t = ip)) (gos m) g None) as Ha.
    rewrite Hg in Ha. simpl in Ha. rewrite bool_decide_true in Ha by done.
    pose proof (tcount_nonneg (λ t, bool_decide (go_ip t = ip)) (partial_alter (λ _, None) g (gos m))).
    simpl in *. lia.
Qed.
End interleaving.

(** *** The race in [Release] *)

Definition const_hash : MapHash := {| maphash_String _ := 0%N |}.

(** Goroutine 1 is stopped between its decrement and its second lock; meanwhile 2 comes
    and goes (deleting the entry), 3 is admitted on a fresh counter; 1 then deletes the
    fresh entry because it tests its own, stale counter. *)
Definition race : list Event :=
  [ EvCap 1; EvEnabled true;
    EvAcquire 1 "192.0.2.1"; EvStep 1; EvStep 1;
    EvAcquire 2 "192.0.2.1"; EvStep 2; EvStep 2; EvStep 2;
    EvAcquire 3 "192.0.2.1";
    EvStep 1;
    EvAcquire 4 "192.0.2.1" ].

(** With the cap enabled at 1, a schedule of [Acquire] and [Release] reaches a state in
    which one client has two admitted connections: [Release] deletes the map entry by
    address without checking that it still is the counter it decremented. *)
Theorem release_race_uncounted :
  let m := @execute const_hash race in
  enabled (lim m) = true ∧ maxPerIP (lim m) = 1 ∧
  gos m = {[ 3%nat := Live "192.0.2.1" 1; 4%nat := Live "192.0.2.1" 2 ]} ∧
  @ActiveConns const_hash (lim m) "192.0.2.1" = 1.
Proof. vm_compute. auto. Qed.
