(* ===== verification/UpstreamEntry.v ===== *)
(** * Parent proxies: authorities, credentials, documents
    ([internal/upstream/entry.go], [credkey.go])

    The entry model of the upstream pool: normalisation of an authority, its canonical text
    and hash, credentials sealed to an entry and an authority, and the validation of an
    effective pool.  Errors are values of sum types.  SHA-256, AES-GCM, base64, [url.Parse] and
    IDNA are parameters.

    - [seal_unseal]: a sealed password opens for the pair it was sealed for, and no other.
    - [ValidateEffective_spec]: what a valid effective pool is. *)

From stdpp Require Import pretty.
From S2P Require Import Prelude GoStrings GoNet HostUtil.

(** ** Cryptography and URLs *)

Class Crypto := {
  sha256 : string → string;
  gcm_seal : string → string → string → string → string;           (* key nonce plaintext aad *)
  gcm_open : string → string → string → string → option string;    (* key nonce ciphertext aad *)
  gcm_nonce_size : nat;
  base64_enc : string → string;
  base64_dec : string → option string;
  gcm_open_seal key nonce pt aad : gcm_open key nonce (gcm_seal key nonce pt aad) aad = Some pt;
  base64_dec_enc s : base64_dec (base64_enc s) = Some s;
}.

(** The parts of a [url.URL] the package reads; the password is [None] when absent. *)
Record URL := mkURL {
  u_Scheme : string; u_Host : string; u_Hostname : string; u_Port : string; u_Path : string; u_RawQuery : string;
  u_Fragment : string; u_Opaque : string; u_User : option (string * option string);
}.
#[global] Instance URL_eta : Eta URL := λ u,
  mkURL (u_Scheme u) (u_Host u) (u_Hostname u) (u_Port u) (u_Path u) (u_RawQuery u) (u_Fragment u) (u_Opaque u) (u_User u).
Class UrlParse := url_Parse : string → option URL.

(** [hex.EncodeToString], and the 26 base-32 digits of 16 bytes in lower case. *)
Fixpoint hex_encode (s : string) : string :=
  match s with
  | EmptyString => EmptyString
  | String c s => String (nibble (byte_val c / 16)) (String (nibble (byte_val c mod 16)) (hex_encode s))
  end.
Definition be_value (s : string) : Z := fold_left (λ a c, a * 256 + byte_val c) (list_ascii_of_string s) 0.
Definition base32_digit (z : Z) : ascii := byte_of (if z <? 26 then 97 + z else 24 + z).
Fixpoint base32_digits (n : nat) (v : Z) (acc : string) : string :=
  match n with O => acc | S n => base32_digits n (v / 32) (String (base32_digit (v mod 32)) acc) end.
Definition base32_16 (s : string) : string := base32_digits 26 (be_value s * 4) "".

(** ** Normalisation *)

Record Spec := mkSpec { sp_Scheme : string; sp_Host : string; sp_Port : Z; sp_Username : string }.
#[global] Instance Spec_eta : Eta Spec := λ s, mkSpec (sp_Scheme s) (sp_Host s) (sp_Port s) (sp_Username s).
#[global] Instance Spec_dec : EqDecision Spec.
Proof. solve_decision. Defined.

Inductive NormError :=
  | ErrScheme | ErrHostRequired | ErrBracketed | ErrHostChar | ErrIDNA | ErrEmptyLabel | ErrLabelLong | ErrNameLong
  | ErrPort | ErrUsername | ErrURL | ErrURLShape | ErrURLPort | ErrURLPassword | ErrMissingID | ErrDuplicateID.
Definition norm (A : Type) : Type := NormError + A.
#[global] Instance norm_ret : MRet norm := λ A a, inr a.
#[global] Instance norm_bind : MBind norm := λ A B f m, match m with inl e => inl e | inr a => f a end.

Definition maxDNSLabelOctets : nat := 63.
Definition maxDNSNameOctets : nat := 253.

Fixpoint check_labels (labels : list string) (total : nat) : norm nat :=
  match labels with
  | [] => mret total
  | l :: labels =>
      if (l =? "")%string then inl ErrEmptyLabel
      else if (maxDNSLabelOctets <? String.length l)%nat then inl ErrLabelLong
      else check_labels labels (total + String.length l)
  end.
Definition validateHostLabels (host : string) : norm unit :=
  let labels := Split host "."%char in
  let n := length labels in
  let labels := if (1 <? n)%nat && (default "" (last labels) =? "")%string then take (n - 1) labels else labels in
  total ← check_labels labels (length labels - 1);
  if (maxDNSNameOctets <? total)%nat then inl ErrNameLong else mret tt.

Definition isIPv6Literal (s : string) : bool := ContainsByte s ":"%char && bool_decide (is_Some (ParseIP s)).
Definition isBracketedIPv6Literal (host : string) : bool :=
  let n := String.length host in
  if (n <? 2)%nat || negb (HasPrefix host "[") || negb (HasSuffix host "]") then false else
  let inner := stake (n - 2) (sdrop 1 host) in
  if ContainsAny inner "[]" then false else isIPv6Literal inner.

Definition schemeDefaultPort (scheme : string) : option Z :=
  if (scheme =? "http")%string then Some 80 else if (scheme =? "https")%string then Some 443 else None.

Definition tab_cr_lf : string := String (byte_of 9) (String (byte_of 13) (String (byte_of 10) "")).

Section normalize.
Context `{Unicode, Idna}.

Definition normalizeHost (raw : string) : norm string :=
  let host := TrimSpace raw in
  if (host =? "")%string then inl ErrHostRequired else
  let host := TrimSuffix (ToLower host) "." in
  if HasPrefix host "[" || HasSuffix host "]" then
    if isBracketedIPv6Literal host then mret host else inl ErrBracketed
  else if ContainsByte host ":"%char then
    if isIPv6Literal host then mret ("[" ++ host ++ "]")%string else inl ErrHostChar
  else if bool_decide (is_Some (ParseIP host)) then mret host
  else if ContainsAny host " /?#@\" then inl ErrHostChar
  else match idna_ToASCII host with
       | None => inl ErrIDNA
       | Some ascii => _ ← validateHostLabels ascii; mret ascii
       end.

Definition Normalize (s : Spec) : norm Spec :=
  let scheme := ToLower (TrimSpace (sp_Scheme s)) in
  match schemeDefaultPort scheme with
  | None => inl ErrScheme
  | Some def =>
      host ← normalizeHost (sp_Host s);
      let port := if sp_Port s =? 0 then def else sp_Port s in
      if (port <? 1) || (65535 <? port) then inl ErrPort else
      let user := TrimSpace (sp_Username s) in
      if ContainsAny user (":@/\ " ++ tab_cr_lf) || (255 <? String.length user)%nat then inl ErrUsername
      else mret (mkSpec scheme host port user)
  end.
End normalize.

(** ** Authorities *)

(** [url.PathEscape]. *)
Definition path_escaped (c : ascii) : bool :=
  let z := byte_val c in
  negb (in_range 97 122 z || in_range 65 90 z || in_range 48 57 z || ContainsByte "-_.~$&+:=@" c).
Definition upper_nibble (z : Z) : ascii := byte_of (if z <? 10 then 48 + z else 55 + z).
Fixpoint PathEscape (s : string) : string :=
  match s with
  | EmptyString => EmptyString
  | String c s =>
      if path_escaped c then String "%" (String (upper_nibble (byte_val c / 16)) (String (upper_nibble (byte_val c mod 16)) (PathEscape s)))
      else String c (PathEscape s)
  end.

Definition Authority (s : Spec) : string :=
  if negb (sp_Username s =? "")%string
  then (sp_Scheme s ++ "://" ++ PathEscape (sp_Username s) ++ "@" ++ sp_Host s ++ ":" ++ pretty (sp_Port s))%string
  else (sp_Scheme s ++ "://" ++ sp_Host s ++ ":" ++ pretty (sp_Port s))%string.

(** ** Entries *)

Record Sealed := mkSealed {
  EntryID : string; s_AuthorityHash : string; Ciphertext : string; KeyID : string; SetAt : string; SetBy : string;
}.
Inductive Source := SourceManaged | SourceYAML | SourceUnset.
Record ManagedEntry := mkEntry {
  e_ID : string; e_Spec : Spec; e_Revision : Z; e_Source : Source; Credential : option Sealed;
  RequiresReplacement : bool; e_CreatedAt : string; e_UpdatedAt : string; yamlSecret : string;
}.
#[global] Instance ManagedEntry_eta : Eta ManagedEntry := λ e,
  mkEntry (e_ID e) (e_Spec e) (e_Revision e) (e_Source e) (Credential e) (RequiresReplacement e) (e_CreatedAt e)
    (e_UpdatedAt e) (yamlSecret e).
Record Document := mkDoc { doc_Schema : Z; doc_Revision : Z; doc_Entries : list ManagedEntry }.
#[global] Instance Document_eta : Eta Document := λ d, mkDoc (doc_Schema d) (doc_Revision d) (doc_Entries d).
Definition DocumentSchema : Z := 1.

(** [LegacyURL] is the authority; [DisplayURL] has no userinfo. *)
Definition LegacyURL (e : ManagedEntry) : string := Authority (e_Spec e).
Definition DisplayURL (e : ManagedEntry) : string :=
  (sp_Scheme (e_Spec e) ++ "://" ++ sp_Host (e_Spec e) ++ ":" ++ pretty (sp_Port (e_Spec e)))%string.
Definition HasInlineSecret (e : ManagedEntry) : bool := negb (yamlSecret e =? "")%string.

(** Typed pool errors. *)
Inductive PoolError := DuplicateAuthorityError (count : nat) | InvalidEntryError (index : nat) (id : string) (reason : NormError).

Section entries.
Context `{Unicode, Idna, Crypto, UrlParse}.

Definition AuthorityHash (s : Spec) : string := hex_encode (sha256 (Authority s)).
Definition YAMLID (s : Spec) : string := ("yaml-" ++ base32_16 (stake 16 (sha256 (Authority s))))%string.

(** [strconv.Atoi] of a port the URL parser accepted. *)
Definition atoi (s : string) : option Z :=
  n ← fold_left (λ acc c, a ← acc; d ← dec_digit c; Some (a * 10 + d)) (list_ascii_of_string s) (Some 0);
  if int64_max <? n then None else Some n.

(** [SpecFromURL]: the spec and the password, if one is present. *)
Definition SpecFromURL (raw : string) : norm (Spec * option string) :=
  match url_Parse (TrimSpace raw) with
  | None => inl ErrURL
  | Some u =>
      if (u_Host u =? "")%string || (negb (u_Path u =? "")%string && negb (u_Path u =? "/")%string) ||
         negb (u_RawQuery u =? "")%string || negb (u_Fragment u =? "")%string || negb (u_Opaque u =? "")%string
      then inl ErrURLShape else
      match (if (u_Port u =? "")%string then Some 0 else atoi (u_Port u)) with
      | None => inl ErrURLPort
      | Some port =>
          spec ← Normalize (mkSpec (u_Scheme u) (u_Hostname u) port (default "" (fst <$> u_User u)));
          mret (spec, u_User u ≫= snd)
      end
  end.

(** The first loop of [ValidateEffective]: the canonical entries. *)
Fixpoint canonical_entries (i : nat) (es : list ManagedEntry) : PoolError + list ManagedEntry :=
  match es with
  | [] => inr []
  | e :: es =>
      match Normalize (e_Spec e) with
      | inl r => inl (InvalidEntryError i (e_ID e) r)
      | inr spec =>
          if (e_ID e =? "")%string then inl (InvalidEntryError i "" ErrMissingID) else
          match canonical_entries (S i) es with
          | inl err => inl err
          | inr es' => inr (e <| e_Spec := spec |> :: es')
          end
      end
  end.
Fixpoint count_dups (xs : list string) (seen : gset string) : nat :=
  match xs with
  | [] => 0
  | x :: xs => (if bool_decide (x ∈ seen) then 1 else 0) + count_dups xs ({[x]} ∪ seen)
  end.
Fixpoint first_dup_id (i : nat) (es : list ManagedEntry) (seen : gset string) : option (nat * string) :=
  match es with
  | [] => None
  | e :: es => if bool_decide (e_ID e ∈ seen) then Some (i, e_ID e) else first_dup_id (S i) es ({[e_ID e]} ∪ seen)
  end.
(** [None] is a nil error. *)
Definition ValidateEffective (yaml managed : list ManagedEntry) : option PoolError :=
  match canonical_entries 0 (yaml ++ managed) with
  | inl err => Some err
  | inr all =>
      let dups := count_dups (map (λ e, AuthorityHash (e_Spec e)) all) ∅ in
      if (0 <? dups)%nat then Some (DuplicateAuthorityError dups) else
      match first_dup_id 0 all ∅ with
      | Some (i, id) => Some (InvalidEntryError i id ErrDuplicateID)
      | None => None
      end
  end.

(** [YAMLEntries]. *)
Fixpoint yaml_entries (i : nat) (urls : list string) : PoolError + list ManagedEntry :=
  match urls with
  | [] => inr []
  | u :: urls =>
      match SpecFromURL u with
      | inl r => inl (InvalidEntryError i "" r)
      | inr (spec, pw) =>
          match yaml_entries (S i) urls with
          | inl err => inl err
          | inr es => inr (mkEntry (YAMLID spec) spec 1 SourceYAML None false "" "" (default "" pw) :: es)
          end
      end
  end.
Definition YAMLEntries (urls : list string) : PoolError + list ManagedEntry := yaml_entries 0 urls.

(** ** Sealing *)

Record Keyring := mkKeyring { k_key : string; k_id : string }.
Definition newKeyring (key : string) : Keyring := mkKeyring key (hex_encode (stake 8 (sha256 key))).

(** [OpenKey]: what the read finds, whether a key may be created, the fresh random key and
    whether its write succeeds; the second component says if a key file was written. *)
Inductive KeyFile := KeyBytes (data : string) | KeyAbsent | KeyUnreadable.
Inductive KeyError := ErrKeyMissing | ErrKeyLength | ErrKeyRead | ErrKeyWrite.
Definition OpenKey (file : KeyFile) (create : bool) (fresh : string) (writeOK : bool) : (KeyError + Keyring) * bool :=
  match file with
  | KeyBytes data => if negb (String.length data =? 32)%nat then (inl ErrKeyLength, false) else (inr (newKeyring data), false)
  | KeyUnreadable => (inl ErrKeyRead, false)
  | KeyAbsent => if negb create then (inl ErrKeyMissing, false)
                 else if writeOK then (inr (newKeyring fresh), true) else (inl ErrKeyWrite, false)
  end.

Definition sealAAD (entryID authorityHash : string) : string := (entryID ++ String (byte_of 0) authorityHash)%string.

Inductive CredError :=
  | CredKeyMissing | CredNone | CredOtherKey | CredMismatch | CredMalformed | CredShort | CredCannotUnwrap | CredEntryID.
(** [Seal], with the nonce it draws. *)
Definition Seal (k : option Keyring) (nonce plaintext entryID authorityHash setAt setBy : string) : CredError + Sealed :=
  match k with
  | None => inl CredKeyMissing
  | Some k =>
      if (entryID =? "")%string then inl CredEntryID
      else inr (mkSealed entryID authorityHash
             (base64_enc (nonce ++ gcm_seal (k_key k) nonce plaintext (sealAAD entryID authorityHash))%string) (k_id k) setAt setBy)
  end.
Definition Unseal (k : option Keyring) (s : option Sealed) (entryID authorityHash : string) : CredError + string :=
  match k, s with
  | None, _ => inl CredKeyMissing
  | Some _, None => inl CredNone
  | Some k, Some s =>
      if negb (KeyID s =? k_id k)%string then inl CredOtherKey
      else if negb (EntryID s =? entryID)%string || negb (s_AuthorityHash s =? authorityHash)%string then inl CredMismatch
      else match base64_dec (Ciphertext s) with
           | None => inl CredMalformed
           | Some raw =>
               if (String.length raw <? gcm_nonce_size)%nat then inl CredShort else
               match gcm_open (k_key k) (stake gcm_nonce_size raw) (sdrop gcm_nonce_size raw) (sealAAD entryID authorityHash) with
               | None => inl CredCannotUnwrap
               | Some pt => inr pt
               end
           end
  end.
End entries.

(** ** Sealed credentials *)

Section sealing.
Context `{Crypto}.

(** A sealed password opens exactly where it belongs.  Under the key that sealed it, for
    the entry and the authority it was sealed for, it gives back the plaintext; for any other
    entry or authority it is a mismatch before any decryption, under a key with another
    identifier it is refused, and without a key it is refused. *)
Theorem seal_unseal (k : Keyring) (nonce plaintext entryID authorityHash setAt setBy : string) (s : Sealed)
    (Hnonce : String.length nonce = gcm_nonce_size)
    (Hseal : Seal (Some k) nonce plaintext entryID authorityHash setAt setBy = inr s) :
  Unseal (Some k) (Some s) entryID authorityHash = inr plaintext ∧
  (∀ entryID' authorityHash', entryID' ≠ entryID ∨ authorityHash' ≠ authorityHash →
     Unseal (Some k) (Some s) entryID' authorityHash' = inl CredMismatch) ∧
  (∀ k' entryID' authorityHash', k_id k' ≠ k_id k → Unseal (Some k') (Some s) entryID' authorityHash' = inl CredOtherKey) ∧
  (∀ entryID' authorityHash', Unseal None (Some s) entryID' authorityHash' = inl CredKeyMissing).
Proof.
  unfold Seal in Hseal. destruct (String.eqb_spec entryID "") as [|Hid]; [done|]. injection Hseal as <-.
  split_and!.
  - cbn [Unseal KeyID EntryID s_AuthorityHash Ciphertext]. rewrite !String.eqb_refl. cbn [negb orb].
    rewrite base64_dec_enc, length_sapp.
    match goal with |- context [(?a <? ?b)%nat] => destruct (Nat.ltb_spec a b); [lia|] end.
    rewrite <- Hnonce, stake_app, sdrop_app, gcm_open_seal. done.
  - intros id' h' Hne. cbn. rewrite String.eqb_refl. cbn.
    destruct (String.eqb_spec entryID id'), (String.eqb_spec authorityHash h'); naive_solver.
  - intros k' id' h' Hne. cbn. by destruct (String.eqb_spec (k_id k) (k_id k')).
  - done.
Qed.
End sealing.

(** ** Valid effective pools *)

Section validation.
Context `{Unicode, Idna, Crypto}.

Definition canonical (e : ManagedEntry) (spec : Spec) : Prop := Normalize (e_Spec e) = inr spec.

Lemma canonical_entries_spec i es all :
  canonical_entries i es = inr all ↔
  Forall2 (λ e c, e_ID e ≠ "" ∧ ∃ spec, canonical e spec ∧ c = e <| e_Spec := spec |>) es all.
Proof.
  revert i all. induction es as [|e es IH]; intros i all; cbn [canonical_entries].
  { split; [intros [= <-]; constructor|]. by intros ->%Forall2_nil_inv_l. }
  unfold canonical at 1. destruct (Normalize (e_Spec e)) as [r|spec] eqn:En.
  { split; [done|]. intros (c&all'&(_&spec&Hs&_)&_&_)%Forall2_cons_inv_l. unfold canonical in Hs. congruence. }
  destruct (String.eqb_spec (e_ID e) "") as [Hid|Hid].
  { split; [done|]. by intros (c&all'&(?&_)&_&_)%Forall2_cons_inv_l. }
  destruct (canonical_entries (S i) es) as [err|es'] eqn:Ec.
  - split; [done|]. intros (c&all'&_&HF&->)%Forall2_cons_inv_l. apply (IH (S i)) in HF. congruence.
  - split.
    + intros [= <-]. constructor; [|by apply (IH (S i))]. split; [done|]. by exists spec.
    + intros (c&all'&(_&spec'&Hs&->)&HF&->)%Forall2_cons_inv_l. apply (IH (S i)) in HF. unfold canonical in Hs.
      assert (all' = es') as -> by congruence. assert (spec' = spec) as -> by congruence. done.
Qed.

Lemma count_dups_zero xs seen : count_dups xs seen = 0%nat ↔ NoDup xs ∧ Forall (.∉ seen) xs.
Proof.
  revert seen. induction xs as [|x xs IH]; intros seen; cbn [count_dups].
  { split; [|done]. intros _. split; constructor. }
  case_bool_decide as Hx.
  - split; [done|]. by intros [_ [? _]%Forall_cons].
  - cbn [Nat.add]. rewrite IH, NoDup_cons, Forall_cons. split.
    + intros [Hn Ha]. rewrite Forall_forall in Ha. split_and!; [|done|done|].
      * intros Hin. specialize (Ha x Hin). set_solver.
      * apply Forall_forall. intros y Hy. specialize (Ha y Hy). set_solver.
    + intros ([Hnin Hn]&_&Ha). split; [done|]. apply Forall_forall. intros y Hy. rewrite Forall_forall in Ha.
      specialize (Ha y Hy). apply not_elem_of_union. split; [|done]. rewrite elem_of_singleton. by intros ->.
Qed.

Lemma first_dup_none i es seen : first_dup_id i es seen = None ↔ count_dups (map e_ID es) seen = 0%nat.
Proof.
  revert i seen. induction es as [|e es IH]; intros i seen; cbn [first_dup_id map count_dups]; [done|].
  case_bool_decide; [done|]. apply IH.
Qed.

(** The canonical form of an entry that normalises. *)
Definition canon (e : ManagedEntry) : Spec := match Normalize (e_Spec e) with inr spec => spec | inl _ => e_Spec e end.

Lemma canonical_canon es all :
  Forall2 (λ e c, e_ID e ≠ "" ∧ ∃ spec, canonical e spec ∧ c = e <| e_Spec := spec |>) es all →
  map e_ID all = map e_ID es ∧ map e_Spec all = map canon es.
Proof.
  induction 1 as [|e c es all (_&spec&Hs&->) _ [IH1 IH2]]; [done|]. cbn [map]. rewrite IH1, IH2. split; [done|].
  f_equal. unfold canon. unfold canonical in Hs. by rewrite Hs.
Qed.

Lemma ValidateEffective_spec yaml managed :
  ValidateEffective yaml managed = None ↔
  Forall (λ e, e_ID e ≠ "" ∧ ∃ spec, canonical e spec) (yaml ++ managed) ∧
  NoDup (map (AuthorityHash ∘ canon) (yaml ++ managed)) ∧ NoDup (map e_ID (yaml ++ managed)).
Proof.
  unfold ValidateEffective. generalize (yaml ++ managed)%list. intros es.
  destruct (canonical_entries 0 es) as [err|all] eqn:E.
  - split; [done|]. intros (Ha&_). exfalso.
    assert (∃ all, canonical_entries 0 es = inr all) as [all Hall]; [|congruence].
    setoid_rewrite canonical_entries_spec. clear E. induction Ha as [|e es [Hid [spec Hs]] _ [all IH]].
    + by exists [].
    + exists (e <| e_Spec := spec |> :: all). constructor; [|done]. split; [done|]. by exists spec.
  - apply canonical_entries_spec in E. destruct (canonical_canon _ _ E) as [Hids Hspecs].
    assert (map (λ e, AuthorityHash (e_Spec e)) all = map (AuthorityHash ∘ canon) es) as Hh.
    { transitivity (map AuthorityHash (map e_Spec all)); [by rewrite map_map|]. by rewrite Hspecs, map_map. }
    rewrite Hh. pose proof (count_dups_zero (map (AuthorityHash ∘ canon) es) ∅) as Hc1.
    pose proof (count_dups_zero (map e_ID all) ∅) as Hc2. rewrite <- (first_dup_none 0) in Hc2. rewrite Hids in Hc2.
    assert (∀ l : list string, Forall (.∉ (∅ : gset string)) l) as Hall by (intros; apply Forall_true; set_solver).
    assert (Forall (λ e, e_ID e ≠ "" ∧ ∃ spec, canonical e spec) es) as Hent.
    { apply Forall_forall. intros e He. apply list_elem_of_lookup in He as [j Hj].
      destruct (Forall2_lookup_l _ _ _ _ _ E Hj) as (c&_&?&spec&?&_). eauto. }
    destruct (Nat.ltb_spec 0 (count_dups (map (AuthorityHash ∘ canon) es) ∅)) as [Hd|Hd].
    + split; [done|]. intros (_&Hnd&_). assert (count_dups (map (AuthorityHash ∘ canon) es) ∅ = 0%nat) by (by apply Hc1). lia.
    + destruct (first_dup_id 0 all ∅) as [[j id]|] eqn:Ed.
      * split; [done|]. intros (_&_&Hnd). assert (Some (j, id) = None); [|done]. by apply Hc2.
      * split; [|done]. intros _. split; [done|]. split; [apply Hc1; lia|by apply Hc2].
Qed.
End validation.

(** ** A toy cryptography, for running the definitions *)

#[local] Instance toy_crypto : Crypto := {|
  sha256 := id; gcm_seal := λ _ _ pt _, pt; gcm_open := λ _ _ ct _, Some ct; gcm_nonce_size := 2%nat;
  base64_enc := id; base64_dec := Some; gcm_open_seal := λ _ _ _ _, eq_refl; base64_dec_enc := λ _, eq_refl;
|}.

Lemma seal_unseal_witness :
  let k := newKeyring "01234567890123456789012345678901" in
  ∃ s, Seal (Some k) "nn" "hunter2" "id-1" "h1" "now" "admin" = inr s ∧
    Unseal (Some k) (Some s) "id-1" "h1" = inr "hunter2" ∧ Unseal (Some k) (Some s) "id-2" "h1" = inl CredMismatch.
Proof.
  intros k. eexists. split; [reflexivity|].
  match goal with |- Unseal _ (Some ?s) _ _ = _ ∧ _ =>
    destruct (@seal_unseal toy_crypto k "nn" "hunter2" "id-1" "h1" "now" "admin" s eq_refl eq_refl) as (Hopen&Hmis&_) end.
  split; [exact Hopen|]. apply Hmis. by left.
Defined.
