(* ===== verification/UpstreamPool.v ===== *)
(** * The upstream pool ([internal/upstream/upstream.go], [probe.go])

    The effective set of parent proxies with round-robin selection, probes, breakers,
    credential states and the direct-egress fallback.  A published proxy is immutable but for
    its probe; breakers are cells of [p_breakers], shared between the generations of an entry
    and held by in-flight requests, so continuity across publications is that of the source.
    The round-robin counter and the fallback counters are [int64].

    - [next_round_robin]: which parent is selected, and the fallback accounting.
    - [round_robin_fair]: with every parent eligible, each is selected once per round.
    - [manual_probe_spaced]: manual probe runs never overlap and keep their distance.

    Publication and credentials are verified in [UpstreamPublish]. *)

From S2P Require Import Prelude GoStrings GoNet HostUtil Breaker UpstreamEntry.

(** ** Probes *)

Inductive ProbeStatus := ProbeUnprobed | ProbeHealthy | ProbeUnhealthy.
Inductive ProbeReason := ReasonNone | ReasonConnectFailed | ReasonTimeout | ReasonProxyAuthFailed | ReasonProbeHTTPError.
Inductive ProbeSource := SourceNone | ProbePeriodic | ProbeManual.
#[global] Instance ProbeStatus_dec : EqDecision ProbeStatus.
Proof. solve_decision. Defined.
Record ProbeState := mkProbe { pr_Status : ProbeStatus; pr_Reason : ProbeReason; CheckedAt : string; pr_Source : ProbeSource }.

(** The transport errors the classifier distinguishes. *)
Inductive TransportError := TErrMismatch | TErrKeyMissing | TErrIneligible | TErrDeadline | TErrNetTimeout | TErrCanceled | TErrOther.
Definition classifyTransportError (err : TransportError) : ProbeReason :=
  match err with
  | TErrMismatch | TErrKeyMissing | TErrIneligible => ReasonProxyAuthFailed
  | TErrDeadline => ReasonTimeout
  | TErrNetTimeout => ReasonTimeout
  | TErrCanceled | TErrOther => ReasonConnectFailed
  end.
(** [ClassifyProbe]: [resp] is the status code. *)
Definition ClassifyProbe (resp : option Z) (err : option TransportError) : ProbeStatus * ProbeReason :=
  match err, resp with
  | Some e, _ => (ProbeUnhealthy, classifyTransportError e)
  | None, None => (ProbeUnhealthy, ReasonConnectFailed)
  | None, Some code =>
      if code =? 407 then (ProbeUnhealthy, ReasonProxyAuthFailed)
      else if (200 <=? code) && (code <? 400) then (ProbeHealthy, ReasonNone)
      else (ProbeUnhealthy, ReasonProbeHTTPError)
  end.

(** ** Proxies and the pool *)

Inductive CredentialStateT :=
  | CredentialNone | CredentialConfigured | CredentialUnusable | CredentialMismatch | CredentialRequiresReplacement.

Definition cb_loc := nat.
Record Proxy := mkProxy {
  up_Entry : ManagedEntry; up_URL : URL; up_CB : cb_loc; up_probe : ProbeState; up_credState : CredentialStateT;
}.
#[global] Instance Proxy_eta : Eta Proxy := λ u,
  mkProxy (up_Entry u) (up_URL u) (up_CB u) (up_probe u) (up_credState u).

Inductive Mode := ModeUnset | ModeNoPool | ModeChained | ModeNoEligibleParent | ModeDirectFallback.
#[global] Instance Mode_dec : EqDecision Mode.
Proof. solve_decision. Defined.

Record BreakerHeap := mkBH { bh_cells : gmap cb_loc CircuitBreaker; bh_next : cb_loc }.
#[global] Instance BreakerHeap_eta : Eta BreakerHeap := λ h, mkBH (bh_cells h) (bh_next h).

Record Pool := mkPool {
  p_yaml : list ManagedEntry; p_doc : Document; p_proxies : list Proxy; p_key : option Keyring; p_keyErr : string;
  cbThreshold : Z; cbTimeout : Duration; p_idx : Z; fallbackActive : bool; fallbackTotal : Z; probeInterval : Duration;
  modeLast : Mode; modeSince : string; manualInflight : bool; manualLast : option Instant;
  p_breakers : BreakerHeap;
  p_alerts : Z;   (* upstream_pool_down alerts fired *)
}.
#[global] Instance Pool_eta : Eta Pool := λ p,
  mkPool (p_yaml p) (p_doc p) (p_proxies p) (p_key p) (p_keyErr p) (cbThreshold p) (cbTimeout p) (p_idx p)
    (fallbackActive p) (fallbackTotal p) (probeInterval p) (modeLast p) (modeSince p) (manualInflight p) (manualLast p)
    (p_breakers p) (p_alerts p).
Definition empty_pool : Pool :=
  mkPool [] (mkDoc 0 0 []) [] None "" 0 0 0 false 0 0 ModeUnset "" false None (mkBH ∅ 0%nat) 0.

Definition credentialEligible (up : Proxy) : bool :=
  match up_credState up with CredentialNone | CredentialConfigured => true | _ => false end.

Definition allow_at (now : Instant) (c : cb_loc) (h : BreakerHeap) : bool * BreakerHeap :=
  match bh_cells h !! c with
  | Some cb => let '(b, cb') := Allow now cb in (b, h <| bh_cells := <[c := cb']> (bh_cells h) |>)
  | None => (false, h)
  end.

(** [eligible]: asking the breaker may move it to half-open. *)
Definition eligible (now : Instant) (up : Proxy) (h : BreakerHeap) : bool * BreakerHeap :=
  if negb (credentialEligible up) then (false, h)
  else match pr_Status (up_probe up) with
       | ProbeUnprobed | ProbeHealthy => allow_at now (up_CB up) h
       | ProbeUnhealthy => (false, h)
       end.

(** ** Selection *)

Definition noteDirectFallback (p : Pool) : Pool :=
  let p := p <| fallbackTotal := wrap64 (fallbackTotal p + 1) |> in
  if negb (fallbackActive p) then p <| fallbackActive := true |> <| p_alerts := p_alerts p + 1 |> else p.
Definition noteUpstreamAvailable (p : Pool) : Pool :=
  if fallbackActive p then p <| fallbackActive := false |> else p.

(** The selection loop; an index out of range is the panic of the source. *)
Inductive Selection := SelPanic | SelNone | SelProxy (up : Proxy).
Fixpoint next_loop (now : Instant) (fuel : nat) (i : Z) (proxies : list Proxy) (start : Z) (h : BreakerHeap) : Selection * BreakerHeap :=
  match fuel with
  | O => (SelNone, h)
  | S fuel =>
      let j := Z.rem (start + i) (Z.of_nat (length proxies)) in
      match (if j <? 0 then None else proxies !! Z.to_nat j) with
      | None => (SelPanic, h)
      | Some up =>
          let '(ok, h) := eligible now up h in
          if (ok : bool) then (SelProxy up, h) else next_loop now fuel (i + 1) proxies start h
      end
  end.
Definition Next (now : Instant) (p : Pool) : Selection * Pool :=
  let n := length (p_proxies p) in
  if (n =? 0)%nat then (SelNone, if fallbackActive p then p <| fallbackActive := false |> else p) else
  let p := p <| p_idx := wrap64 (p_idx p + 1) |> in
  let start := Z.rem (p_idx p) (Z.of_nat n) in
  let '(sel, h) := next_loop now n 0 (p_proxies p) start (p_breakers p) in
  let p := p <| p_breakers := h |> in
  match sel with
  | SelProxy up => (sel, noteUpstreamAvailable p)
  | SelNone => (sel, noteDirectFallback p)
  | SelPanic => (sel, p)
  end.

Record EffectiveT := mkEffective { eff_Mode : Mode; eff_Entries : nat; eff_Eligible : nat; eff_FallbackTotal : Z; eff_Since : string }.
Definition noteMode (nowStr : string) (mode : Mode) (p : Pool) : string * Pool :=
  let p := if negb (bool_decide (modeLast p = mode)) || (modeSince p =? "")%string
           then p <| modeLast := mode |> <| modeSince := nowStr |> else p in
  (modeSince p, p).
Fixpoint count_eligible (now : Instant) (ups : list Proxy) (h : BreakerHeap) : nat * BreakerHeap :=
  match ups with
  | [] => (0%nat, h)
  | up :: ups =>
      let '(ok, h) := eligible now up h in
      let '(k, h) := count_eligible now ups h in ((if (ok : bool) then S k else k), h)
  end.
Definition Effective (now : Instant) (nowStr : string) (p : Pool) : EffectiveT * Pool :=
  let '(k, h) := count_eligible now (p_proxies p) (p_breakers p) in
  let p := p <| p_breakers := h |> in
  let mode := if (length (p_proxies p) =? 0)%nat then ModeNoPool
              else if (0 <? k)%nat then ModeChained
              else if fallbackActive p then ModeDirectFallback else ModeNoEligibleParent in
  let '(since, p) := noteMode nowStr mode p in
  (mkEffective mode (length (p_proxies p)) k (fallbackTotal p) since, p).
Definition DirectFallback (p : Pool) : bool * Z := (fallbackActive p, fallbackTotal p).
Definition Enabled (p : Pool) : bool := (0 <? length (p_proxies p))%nat.
Definition Entries (p : Pool) : list string := map (λ up, LegacyURL (up_Entry up)) (p_proxies p).
Definition LegacyManagedEntries (p : Pool) : list string := map LegacyURL (doc_Entries (p_doc p)).
Definition EffectiveEntries (p : Pool) : list ManagedEntry := p_yaml p ++ doc_Entries (p_doc p).
(** [Document]: a never persisted document is revision 1. *)
Definition Document_ (p : Pool) : Document :=
  if doc_Revision (p_doc p) =? 0 then (p_doc p) <| doc_Revision := 1 |> else p_doc p.

(** ** Manual probes *)

Definition ManualProbeWindow : Duration := 10 * Second.
Inductive ProbeAdmission := ProbeAdmitted | ManualProbeInFlight (retryAfter : Duration) | ManualProbeRateLimited (retryAfter : Duration).
Definition BeginManualProbe (now : Instant) (p : Pool) : ProbeAdmission * Pool :=
  if manualInflight p then (ManualProbeInFlight ManualProbeWindow, p) else
  let accepted := (ProbeAdmitted, p <| manualInflight := true |> <| manualLast := Some now |>) in
  match manualLast p with
  | Some last => if time_sub now last <? ManualProbeWindow
                 then (ManualProbeRateLimited (ManualProbeWindow - time_sub now last), p) else accepted
  | None => accepted
  end.
Definition EndManualProbe (p : Pool) : Pool := p <| manualInflight := false |>.
Definition ManualProbeRunning (p : Pool) : bool := manualInflight p.
Definition resetManualProbe (p : Pool) : Pool := p <| manualInflight := false |> <| manualLast := None |>.

(** ** Publication *)

Section publish.
Context `{Unicode, Idna, Crypto, UrlParse}.

Definition credentialStateLocked (key : option Keyring) (e : ManagedEntry) : CredentialStateT :=
  if negb (yamlSecret e =? "")%string then CredentialConfigured else
  match Credential e with
  | None => if RequiresReplacement e then CredentialRequiresReplacement else CredentialNone
  | Some c =>
      let h := AuthorityHash (e_Spec e) in
      if negb (EntryID c =? e_ID e)%string || negb (s_AuthorityHash c =? h)%string then CredentialMismatch else
      match key with
      | None => CredentialUnusable
      | Some k =>
          if negb (k_id k =? KeyID c)%string then CredentialUnusable else
          match Unseal key (Some c) (e_ID e) h with
          | inl CredMismatch => CredentialMismatch
          | inl _ => CredentialUnusable
          | inr _ => CredentialConfigured
          end
      end
  end.

Definition generation_key (e : ManagedEntry) : string := (e_ID e ++ "|" ++ AuthorityHash (e_Spec e))%string.
Definition prev_generation (ups : list Proxy) : gmap string Proxy :=
  fold_left (λ m up, <[generation_key (up_Entry up) := up]> m) ups ∅.

(** The [add] closure of [rebuildLocked], over the entries in order. *)
Fixpoint rebuild_loop (prev : gmap string Proxy) (key : option Keyring) (thr : Z) (tmo : Duration)
    (es : list ManagedEntry) (h : BreakerHeap) : list Proxy * BreakerHeap :=
  match es with
  | [] => ([], h)
  | e :: es =>
      match url_Parse (Authority (e_Spec e)) with
      | None => rebuild_loop prev key thr tmo es h
      | Some u =>
          let '(cb, probe, h) := match prev !! generation_key e with
            | Some old => (up_CB old, up_probe old, h)
            | None => (bh_next h, mkProbe ProbeUnprobed ReasonNone "" SourceNone,
                       mkBH (<[bh_next h := newCircuitBreaker thr tmo]> (bh_cells h)) (S (bh_next h)))
            end in
          let '(out, h) := rebuild_loop prev key thr tmo es h in
          (mkProxy e u cb probe (credentialStateLocked key e) :: out, h)
      end
  end.
Definition rebuildLocked (p : Pool) : Pool :=
  let prev := prev_generation (p_proxies p) in
  let p := p <| fallbackActive := false |> in
  let '(out, h) := rebuild_loop prev (p_key p) (cbThreshold p) (cbTimeout p) (p_yaml p ++ doc_Entries (p_doc p)) (p_breakers p) in
  p <| p_proxies := out |> <| p_breakers := h |>.

Definition SetKey (k : option Keyring) (reason : string) (p : Pool) : Pool :=
  rebuildLocked (p <| p_key := k |> <| p_keyErr := reason |>).
Definition Key (p : Pool) : option Keyring * string := (p_key p, p_keyErr p).
Definition SetProbeInterval (d : Duration) (p : Pool) : Pool := p <| probeInterval := d |>.
Definition ProbeConfig (p : Pool) : bool * Duration := (0 <? probeInterval p, probeInterval p).
Definition CBParams (p : Pool) : Z * Duration := (cbThreshold p, cbTimeout p).

(** The canonical spelling [SetDocument] stores. *)
Definition store_canonical (e : ManagedEntry) : ManagedEntry :=
  let e := e <| e_Spec := canon e |> in
  match e_Source e with SourceUnset => e <| e_Source := SourceManaged |> | _ => e end.
Definition SetDocument (doc : Document) (p : Pool) : option PoolError * Pool :=
  match ValidateEffective (p_yaml p) (doc_Entries doc) with
  | Some err => (Some err, p)
  | None =>
      let doc := if doc_Schema doc =? 0 then doc <| doc_Schema := DocumentSchema |> else doc in
      let doc := doc <| doc_Entries := map store_canonical (doc_Entries doc) |> in
      (None, rebuildLocked (p <| p_doc := doc |>))
  end.

Definition Configure (urls : list string) (thr : Z) (tmo : Duration) (p : Pool) : option PoolError * Pool :=
  match YAMLEntries urls with
  | inl err => (Some err, p <| cbThreshold := thr |> <| cbTimeout := tmo |>)
  | inr yaml =>
      let p := p <| cbThreshold := thr |> <| cbTimeout := tmo |> in
      match ValidateEffective yaml (doc_Entries (p_doc p)) with
      | Some err => (Some err, p)
      | None => (None, resetManualProbe (rebuildLocked (p <| p_yaml := yaml |>)))
      end
  end.

(** [legacyDocument], with the fresh identifiers it draws and its timestamp. *)
Fixpoint legacy_entries (i : nat) (byAuth : gmap string ManagedEntry) (yamlAuth : gset string) (newID : nat → string)
    (now : string) (urls : list string) : PoolError + list ManagedEntry :=
  match urls with
  | [] => inr []
  | u :: urls =>
      match SpecFromURL u with
      | inl r => inl (InvalidEntryError i "" r)
      | inr (spec, Some _) => inl (InvalidEntryError i "" ErrURLPassword)
      | inr (spec, None) =>
          match legacy_entries (S i) byAuth yamlAuth newID now urls with
          | inl err => inl err
          | inr es =>
              if bool_decide (AuthorityHash spec ∈ yamlAuth) then inr es else
              match byAuth !! AuthorityHash spec with
              | Some prev => inr (prev :: es)
              | None => inr (mkEntry (newID i) spec 1 SourceManaged None false now now "" :: es)
              end
          end
      end
  end.
Definition legacyDocument (newID : nat → string) (now : string) (urls : list string) (p : Pool) : PoolError + Document :=
  let cur := Document_ p in
  let byAuth := fold_left (λ m e, <[AuthorityHash (e_Spec e) := e]> m) (doc_Entries cur) ∅ in
  let yamlAuth := list_to_set (map (AuthorityHash ∘ e_Spec) (p_yaml p)) in
  match legacy_entries 0 byAuth yamlAuth newID now urls with
  | inl err => inl err
  | inr es => inr (mkDoc DocumentSchema (wrap64 (doc_Revision cur + 1)) es)
  end.
Definition SetProxies (newID : nat → string) (now : string) (urls : list string) (p : Pool) : option PoolError * Pool :=
  match legacyDocument newID now urls p with inl err => (Some err, p) | inr doc => SetDocument doc p end.

(** ** Requests *)

(** [authenticatedURL]: the only constructor of a URL with a password. *)
Definition authenticatedURL (key : option Keyring) (up : Proxy) : CredError + URL :=
  let e := up_Entry up in
  if negb (yamlSecret e =? "")%string
  then inr ((up_URL up) <| u_User := Some (sp_Username (e_Spec e), Some (yamlSecret e)) |>)
  else match Credential e with
       | None => inr (up_URL up)
       | Some c =>
           match Unseal key (Some c) (e_ID e) (AuthorityHash (e_Spec e)) with
           | inl err => inl err
           | inr pw => inr ((up_URL up) <| u_User := Some (sp_Username (e_Spec e), Some pw) |>)
           end
       end.

(** [ProxyFunc]: the URL for the transport ([None] is a direct connection) and what the
    attribution slot records. *)
Definition ProxyFunc (now : Instant) (p : Pool) : option URL * option Proxy * Pool :=
  let '(sel, p) := Next now p in
  match sel with
  | SelProxy up =>
      match authenticatedURL (p_key p) up with
      | inr u => (Some u, Some up, p)
      | inl _ => (None, Some up, noteDirectFallback p)
      end
  | _ => (None, None, p)
  end.

(** [Attribution.Record]; the outcome goes to the breaker of the recorded proxy. *)
Definition Record_ (now : Instant) (slot : option Proxy) (err : option TransportError) (p : Pool) : Pool :=
  match slot with
  | None => p
  | Some up =>
      let upd f := p <| p_breakers := (p_breakers p) <| bh_cells := alter f (up_CB up) (bh_cells (p_breakers p)) |> |> in
      match err with
      | None => upd RecordSuccess
      | Some TErrCanceled => p
      | Some _ => upd (λ cb, (RecordFailure now cb).2)
      end
  end.

(** [HealthCheck]: [outcome] is what [probeOnce] finds for a proxy. *)
Record ProbeSummary := mkSummary { Probed : nat; Healthy : nat; Unhealthy : nat; Skipped : nat }.
Fixpoint health_loop (outcome : Proxy → ProbeStatus * ProbeReason) (nowStr : string) (src : ProbeSource) (ups : list Proxy)
    : list Proxy * ProbeSummary :=
  match ups with
  | [] => ([], mkSummary 0 0 0 0)
  | up :: ups =>
      let '(out, s) := health_loop outcome nowStr src ups in
      if negb (credentialEligible up) then (up :: out, mkSummary (Probed s) (Healthy s) (Unhealthy s) (S (Skipped s)))
      else let '(status, reason) := outcome up in
           (up <| up_probe := mkProbe status reason nowStr src |> :: out,
            if bool_decide (status = ProbeHealthy)
            then mkSummary (S (Probed s)) (S (Healthy s)) (Unhealthy s) (Skipped s)
            else mkSummary (S (Probed s)) (Healthy s) (S (Unhealthy s)) (Skipped s))
  end.
Definition HealthCheck (outcome : Proxy → ProbeStatus * ProbeReason) (nowStr : string) (src : ProbeSource) (p : Pool)
    : ProbeSummary * Pool :=
  let src := match src with ProbePeriodic => ProbePeriodic | _ => ProbeManual end in
  let '(out, s) := health_loop outcome nowStr src (p_proxies p) in (s, p <| p_proxies := out |>).

(** The selector of one probe's transport. *)
Definition probeProxySelector (key : option Keyring) (up : Proxy) : TransportError + URL :=
  if negb (credentialEligible up) then inl TErrIneligible
  else match authenticatedURL key up with
       | inr u => inr u
       | inl CredMismatch => inl TErrMismatch
       | inl CredKeyMissing => inl TErrKeyMissing
       | inl _ => inl TErrOther
       end.

(** ** The read model *)

Record Health := mkHealth { hl_Status : ProbeStatus; hl_Reason : ProbeReason; LastProbeAt : string; hl_Source : ProbeSource }.
Definition HealthOf (st : ProbeState) : Health := mkHealth (pr_Status st) (pr_Reason st) (CheckedAt st) (pr_Source st).
Record Status := mkStatus {
  st_ID : string; st_URL : string; st_Authority : string; st_Scheme : string; st_Host : string; st_Port : Z; st_Username : string;
  st_Source : Source; st_Revision : Z; st_CredentialState : CredentialStateT; st_Probe : ProbeState; st_Health : Health;
  st_Healthy : bool; st_Eligible : bool; st_Circuit : string; st_Failures : Z; OpenedAtMs : Z; RetryAfterMs : Z;
}.
(** One iteration of [List]; [None] when the proxy has no breaker (a nil dereference). *)
Definition status_of (now : Instant) (up : Proxy) (h : BreakerHeap) : option Status * BreakerHeap :=
  let pr := up_probe up in let e := up_Entry up in
  let '(ok, h) := eligible now up h in
  match bh_cells h !! up_CB up with
  | None => (None, h)
  | Some cb =>
      let '(openedMs, retryMs) := match OpenedAt cb with
        | None => (0, 0)
        | Some opened =>
            let remaining := wrap64 (timeout cb - time_sub now opened) in
            (UnixMilli opened, if 0 <? remaining then Z.quot remaining Millisecond else 0)
        end in
      (Some (mkStatus (e_ID e) (DisplayURL e) (Authority (e_Spec e)) (sp_Scheme (e_Spec e)) (sp_Host (e_Spec e))
         (sp_Port (e_Spec e)) (sp_Username (e_Spec e)) (e_Source e) (e_Revision e) (up_credState up) pr (HealthOf pr)
         (bool_decide (pr_Status pr = ProbeHealthy)) ok (State cb) (Failures cb) openedMs retryMs), h)
  end.
Fixpoint list_statuses (now : Instant) (ups : list Proxy) (h : BreakerHeap) : option (list Status) * BreakerHeap :=
  match ups with
  | [] => (Some [], h)
  | up :: ups =>
      let '(st, h) := status_of now up h in
      match st with
      | None => (None, h)
      | Some st => let '(sts, h) := list_statuses now ups h in ((cons st) <$> sts, h)
      end
  end.
Definition List_ (now : Instant) (p : Pool) : option (list Status) * Pool :=
  let '(sts, h) := list_statuses now (p_proxies p) (p_breakers p) in (sts, p <| p_breakers := h |>).

(** ** Snapshots *)

Record PoolState := mkPoolState {
  ps_YAML : list ManagedEntry; ps_Doc : Document; ps_Key : option Keyring; ps_KeyErr : string; CBThreshold : Z; CBTimeout : Duration;
}.
Definition Snapshot (p : Pool) : PoolState :=
  mkPoolState (p_yaml p) (p_doc p) (p_key p) (p_keyErr p) (cbThreshold p) (cbTimeout p).
Definition Restore (st : PoolState) (p : Pool) : Pool :=
  let p := p <| p_yaml := ps_YAML st |> <| p_doc := ps_Doc st |> <| p_key := ps_Key st |> <| p_keyErr := ps_KeyErr st |>
             <| cbThreshold := CBThreshold st |> <| cbTimeout := CBTimeout st |> <| p_proxies := [] |> <| fallbackTotal := 0 |> in
  resetManualProbe (rebuildLocked p).
End publish.

(** ** Selection is round robin *)

Definition is_eligible (now : Instant) (h : BreakerHeap) (up : Proxy) : bool := (eligible now up h).1.

(** A refusal leaves the breakers alone. *)
Lemma eligible_false now up h h' : eligible now up h = (false, h') → h' = h.
Proof.
  unfold eligible. destruct (negb _); [by intros [= <-]|].
  assert (allow_at now (up_CB up) h = (false, h') → h' = h) as Ha.
  { unfold allow_at. destruct (bh_cells h !! up_CB up) as [cb|] eqn:E; [|by intros [= <-]].
    unfold Allow. destruct (cb_state cb) eqn:Es; [done| |done]. destruct (_ >? _); [done|]. intros [= <-].
    destruct h as [m n]. cbn in *. by rewrite insert_id. }
  destruct (pr_Status (up_probe up)); [done|done|by intros [= <-]].
Qed.

Lemma rotation_lookup {A} (l : list A) k i :
  (i < length l)%nat → rotate k l !! i = l !! ((k + i) mod length l)%nat.
Proof.
  intros Hi. unfold rotate. set (n := length l) in *. assert (n ≠ 0)%nat by lia. set (s := (k mod n)%nat).
  assert (s < n)%nat by (by apply Nat.mod_upper_bound).
  assert ((k + i) mod n = (s + i) mod n)%nat as ->.
  { subst s. by rewrite Nat.Div0.add_mod_idemp_l. }
  destruct (decide (s + i < n)%nat) as [Hlt|Hge].
  - rewrite Nat.mod_small by done. rewrite lookup_app_l by (rewrite length_drop; lia). by rewrite lookup_drop.
  - rewrite lookup_app_r by (rewrite length_drop; lia). rewrite length_drop. fold n.
    rewrite lookup_take_lt by lia. f_equal.
    replace (s + i)%nat with (s + i - n + 1 * n)%nat by lia. rewrite Nat.Div0.mod_add, Nat.mod_small; lia.
Qed.

Lemma next_loop_find now proxies k h i fuel :
  (i + fuel = length proxies)%nat → 0 ≤ k →
  let r := next_loop now fuel (Z.of_nat i) proxies (Z.rem k (Z.of_nat (length proxies))) h in
  match find (is_eligible now h) (drop i (rotate (Z.to_nat k) proxies)) with
  | Some up => r = (SelProxy up, (eligible now up h).2)
  | None => r = (SelNone, h)
  end.
Proof.
  intros Hlen Hk. revert i Hlen. induction fuel as [|fuel IH]; intros i Hlen; cbn [next_loop].
  { rewrite drop_ge by (rewrite length_rotate; lia). done. }
  set (n := Z.of_nat (length proxies)) in *. assert (0 < n) by lia.
  assert (Z.rem (Z.rem k n + Z.of_nat i) n = Z.of_nat ((Z.to_nat k + i) mod length proxies)) as Hj.
  { rewrite (Z.rem_mod_nonneg k) by lia. rewrite Z.rem_mod_nonneg by (pose proof (Z.mod_pos_bound k n); lia).
    rewrite Zplus_mod_idemp_l. rewrite Nat2Z.inj_mod, Nat2Z.inj_add, Z2Nat.id by done. done. }
  rewrite Hj. destruct (Z.ltb_spec (Z.of_nat ((Z.to_nat k + i) mod length proxies)) 0); [lia|]. rewrite Nat2Z.id.
  rewrite <- (rotation_lookup proxies (Z.to_nat k) i) by lia.
  assert (is_Some (rotate (Z.to_nat k) proxies !! i)) as [up Hup] by (apply lookup_lt_is_Some; rewrite length_rotate; lia).
  rewrite Hup. rewrite (drop_S _ _ _ Hup). cbn [find]. unfold is_eligible at 1.
  destruct (eligible now up h) as [[] h'] eqn:Ee; cbn [fst]; [by rewrite Ee || reflexivity|].
  apply eligible_false in Ee as ->. specialize (IH (S i) ltac:(lia)). rewrite Nat2Z.inj_succ in IH. by rewrite Z.add_1_r.
Qed.

(** Selection is round robin over the eligible parents.  The parent chosen is the first
    eligible one in the pool rotated by the request counter; selection clears the fallback
    state and counts nothing.  Without an eligible parent the request goes direct: on a
    non-empty pool it is counted, and an alert fires exactly when the pool was not already
    failing open; an empty pool is not a fallback. *)
Theorem next_round_robin (now : Instant) (p : Pool) (Hidx : 0 ≤ p_idx p < int64_max) :
  let '(sel, p') := Next now p in
  p_proxies p' = p_proxies p ∧
  match find (is_eligible now (p_breakers p)) (rotate (Z.to_nat (p_idx p + 1)) (p_proxies p)) with
  | Some up => sel = SelProxy up ∧ fallbackActive p' = false ∧ fallbackTotal p' = fallbackTotal p ∧ p_alerts p' = p_alerts p
  | None =>
      sel = SelNone ∧ p_breakers p' = p_breakers p ∧
      if decide (p_proxies p = []) then fallbackActive p' = false ∧ fallbackTotal p' = fallbackTotal p ∧ p_alerts p' = p_alerts p
      else fallbackActive p' = true ∧ fallbackTotal p' = wrap64 (fallbackTotal p + 1) ∧
           p_alerts p' = p_alerts p + (if fallbackActive p then 0 else 1)
  end.
Proof.
  unfold Next. destruct (Nat.eqb_spec (length (p_proxies p)) 0) as [Hn|Hn].
  { apply nil_length_inv in Hn. rewrite Hn. rewrite rotate_nil || (unfold rotate; rewrite drop_nil, take_nil). cbn [find app].
    rewrite decide_True by done. by destruct (fallbackActive p) eqn:E. }
  assert (wrap64 (p_idx p + 1) = p_idx p + 1) as Hw by (apply wrap64_small; unfold int64_min; lia).
  pose proof (next_loop_find now (p_proxies p) (p_idx p + 1) (p_breakers p) 0
    (length (p_proxies p)) eq_refl ltac:(lia)) as Hl. cbn [drop] in Hl. change (Z.of_nat 0) with 0 in Hl. cbv zeta in Hl.
  destruct p as [f1 f2 ups f4 f5 f6 f7 idx fa ft f10 f11 f12 f13 f14 h al]. cbn -[wrap64 Z.rem next_loop find rotate Z.of_nat] in *. rewrite Hw.
  destruct (find _ _) as [up|]; rewrite Hl.
  - unfold noteUpstreamAvailable. cbn. by destruct fa.
  - rewrite decide_False by (intros ->; done). unfold noteDirectFallback. cbn.
    destruct fa; cbn; (split; [done|]); split_and!; try done; lia.
Qed.

(** Two parents with closed breakers, the second one unhealthy: the first is selected; with
    both unhealthy the request goes direct and an alert fires. *)
Definition demo_proxy (id : string) (status : ProbeStatus) (cb : cb_loc) : Proxy :=
  mkProxy (mkEntry id (mkSpec "http" id 3128 "") 1 SourceManaged None false "" "" "") (mkURL "http" id id "3128" "" "" "" "" None)
    cb (mkProbe status ReasonNone "" ProbePeriodic) CredentialNone.
Definition demo_pool (s1 s2 : ProbeStatus) : Pool :=
  empty_pool <| p_proxies := [demo_proxy "a" s1 0%nat; demo_proxy "b" s2 1%nat] |>
    <| p_breakers := mkBH (<[0%nat := newCircuitBreaker 0 0]> {[1%nat := newCircuitBreaker 0 0]}) 2%nat |>.
Lemma next_round_robin_witness :
  let up := demo_proxy "a" ProbeHealthy 0%nat in
  (Next 7 (demo_pool ProbeHealthy ProbeUnhealthy)).1 = SelProxy up ∧
  p_proxies (Next 7 (demo_pool ProbeHealthy ProbeUnhealthy)).2 = [up; demo_proxy "b" ProbeUnhealthy 1%nat] ∧
  fallbackActive (Next 7 (demo_pool ProbeUnhealthy ProbeUnhealthy)).2 = true ∧
  p_alerts (Next 7 (demo_pool ProbeUnhealthy ProbeUnhealthy)).2 = 1.
Proof.
  pose proof (next_round_robin 7 (demo_pool ProbeHealthy ProbeUnhealthy) ltac:(done)) as Hok.
  pose proof (next_round_robin 7 (demo_pool ProbeUnhealthy ProbeUnhealthy) ltac:(done)) as Hdown.
  destruct (Next 7 (demo_pool ProbeHealthy ProbeUnhealthy)) as [sel p'].
  destruct (Next 7 (demo_pool ProbeUnhealthy ProbeUnhealthy)) as [sel2 p2].
  change (find _ _) with (Some (demo_proxy "a" ProbeHealthy 0%nat)) in Hok.
  change (find _ _) with (@None Proxy) in Hdown.
  destruct Hok as (Hp&Hs&_). destruct Hdown as (_&_&_&Hf&_&Ha). done.
Defined.

(** ** Fairness *)

(** Nothing stands in the way of the parent. *)
Definition ready (h : BreakerHeap) (up : Proxy) : Prop :=
  credentialEligible up = true ∧ pr_Status (up_probe up) ≠ ProbeUnhealthy ∧
  ∃ cb, bh_cells h !! up_CB up = Some cb ∧ cb_state cb = circuitClosed.

Lemma ready_eligible now h up : ready h up → eligible now up h = (true, h).
Proof.
  intros (Hc&Hs&cb&Hl&Hcb). unfold eligible, allow_at, Allow. rewrite Hc, Hl, Hcb. cbn.
  rewrite insert_id by done. destruct h. by destruct (pr_Status (up_probe up)).
Qed.

(** Consecutive selections. *)
Fixpoint next_calls (nows : list Instant) (p : Pool) : list Selection * Pool :=
  match nows with
  | [] => ([], p)
  | now :: nows => let '(s, p) := Next now p in let '(ss, p) := next_calls nows p in (s :: ss, p)
  end.

Lemma Next_ready now p :
  0 ≤ p_idx p < int64_max → p_proxies p ≠ [] → Forall (ready (p_breakers p)) (p_proxies p) →
  ∃ up, p_proxies p !! (Z.to_nat (p_idx p + 1) mod length (p_proxies p))%nat = Some up ∧
  (Next now p).1 = SelProxy up ∧ p_proxies (Next now p).2 = p_proxies p ∧ p_breakers (Next now p).2 = p_breakers p ∧
  p_idx (Next now p).2 = p_idx p + 1.
Proof.
  intros Hidx Hne Hr. assert (0 < length (p_proxies p))%nat as Hn by (destruct (p_proxies p); cbn; [done|lia]).
  assert (wrap64 (p_idx p + 1) = p_idx p + 1) as Hw by (apply wrap64_small; unfold int64_min; lia).
  pose proof (next_loop_find now (p_proxies p) (p_idx p + 1) (p_breakers p) 0
    (length (p_proxies p)) eq_refl ltac:(lia)) as Hl. cbn [drop] in Hl. change (Z.of_nat 0) with 0 in Hl. cbv zeta in Hl.
  pose proof (rotation_lookup (p_proxies p) (Z.to_nat (p_idx p + 1)) 0 Hn) as Hrot. rewrite Nat.add_0_r in Hrot.
  destruct (rotate (Z.to_nat (p_idx p + 1)) (p_proxies p)) as [|up rest] eqn:Er.
  { apply (f_equal length) in Er. rewrite length_rotate in Er. cbn in Er. lia. }
  rewrite drop_0 in Hl. exists up. split; [by rewrite <- Hrot|]. assert (ready (p_breakers p) up) as Hup.
  { rewrite Forall_forall in Hr. apply Hr. apply list_elem_of_lookup. eexists. by rewrite <- Hrot. }
  apply (ready_eligible now) in Hup. cbn [find] in Hl.
  assert (is_eligible now (p_breakers p) up = true) as He by (unfold is_eligible; by rewrite Hup). rewrite He, Hup in Hl.
  unfold Next. destruct (Nat.eqb_spec (length (p_proxies p)) 0); [lia|].
  destruct p as [f1 f2 ups f4 f5 f6 f7 idx fa ft f10 f11 f12 f13 f14 h al]. cbn -[wrap64 Z.rem next_loop Z.of_nat] in *. rewrite Hw, Hl.
  unfold noteUpstreamAvailable. cbn. by destruct fa.
Qed.

Lemma next_calls_ready nows p :
  0 ≤ p_idx p → p_idx p + Z.of_nat (length nows) ≤ int64_max → p_proxies p ≠ [] → Forall (ready (p_breakers p)) (p_proxies p) →
  length (next_calls nows p).1 = length nows ∧ p_proxies (next_calls nows p).2 = p_proxies p ∧
  ∀ i, (i < length nows)%nat →
    (next_calls nows p).1 !! i = SelProxy <$> p_proxies p !! ((Z.to_nat (p_idx p + 1) + i) mod length (p_proxies p))%nat.
Proof.
  revert p. induction nows as [|now nows IH]; intros p H0 Hmax Hne Hr; cbn [next_calls length] in *; [split_and!; [done|done|lia]|].
  destruct (Next_ready now p ltac:(lia) Hne Hr) as (up&Hup&Hs&Hp&Hh&Hi). destruct (Next now p) as [s p']. cbn in Hs, Hp, Hh, Hi.
  destruct (IH p') as (Hlen&Hp'&Hl); [lia|lia|by rewrite Hp|by rewrite Hp, Hh|].
  destruct (next_calls nows p') as [ss p'']. cbn in *. rewrite Hlen, Hp', Hp. split_and!; [done|done|].
  intros [|i] Hlt.
  - cbn. rewrite Nat.add_0_r, Hup. by rewrite Hs.
  - cbn. rewrite Hl by lia. rewrite Hp, Hi. do 2 f_equal. f_equal. lia.
Qed.

(** Round robin is fair.  When nothing stands in the way of any parent, as many
    consecutive selections as there are parents take each parent exactly once: they are the
    pool rotated by the request counter. *)
Theorem round_robin_fair (nows : list Instant) (p : Pool) (Hidx : 0 ≤ p_idx p) (Hmax : p_idx p + Z.of_nat (length nows) ≤ int64_max)
    (Hround : length nows = length (p_proxies p)) (Hready : Forall (ready (p_breakers p)) (p_proxies p)) :
  ∃ order, (next_calls nows p).1 = map SelProxy order ∧ order ≡ₚ p_proxies p ∧ order = rotate (Z.to_nat (p_idx p + 1)) (p_proxies p).
Proof.
  exists (rotate (Z.to_nat (p_idx p + 1)) (p_proxies p)). split_and!; [|by unfold rotate; rewrite (Permutation_app_comm _ _), take_drop|done].
  destruct (decide (p_proxies p = [])) as [E|Hne].
  { rewrite E in Hround. apply nil_length_inv in Hround as ->. rewrite E.
    unfold rotate. by rewrite drop_nil, take_nil. }
  destruct (next_calls_ready nows p Hidx Hmax Hne Hready) as (Hlen&_&Hl). apply list_eq. intros i.
  change (map SelProxy) with (fmap (M := list) SelProxy). rewrite list_lookup_fmap.
  destruct (decide (i < length (p_proxies p))%nat) as [Hi|Hi].
  - rewrite Hl by lia. by rewrite rotation_lookup.
  - rewrite !lookup_ge_None_2; [done| |lia]. rewrite length_rotate. lia.
Qed.

Lemma round_robin_fair_witness :
  let p := demo_pool ProbeHealthy ProbeUnprobed in
  ∃ order, (next_calls [1; 2] p).1 = map SelProxy order ∧ order ≡ₚ p_proxies p ∧ order = rotate 1 (p_proxies p).
Proof.
  intros p. apply (round_robin_fair [1; 2] p); [done|done|done|].
  repeat constructor; try done; by exists (newCircuitBreaker 0 0).
Defined.

(** ** Manual probes keep their distance *)

Inductive ProbeCall := CallBegin (now : Instant) | CallEnd.
(** The log of a run of calls, latest first: an admission with its time, or an end. *)
Inductive ProbeEvent := Admission (t : Instant) | Ended.
Definition probe_call (s : list ProbeEvent * Pool) (c : ProbeCall) : list ProbeEvent * Pool :=
  match c with
  | CallBegin now => match BeginManualProbe now s.2 with (ProbeAdmitted, p) => (Admission now :: s.1, p) | (_, p) => (s.1, p) end
  | CallEnd => (Ended :: s.1, EndManualProbe s.2)
  end.
Definition probe_calls (p : Pool) (cs : list ProbeCall) : list ProbeEvent * Pool := fold_left probe_call cs ([], p).
Definition admissions (log : list ProbeEvent) : list Instant := omap (λ e, match e with Admission t => Some t | Ended => None end) log.

(** A good log: an admission follows an end or nothing, and is a window away from the last. *)
Fixpoint probe_log_ok (log : list ProbeEvent) : Prop :=
  match log with
  | [] => True
  | Ended :: log => probe_log_ok log
  | Admission t :: log =>
      (∀ t', head log ≠ Some (Admission t')) ∧ (∀ t', head (admissions log) = Some t' → t' + ManualProbeWindow ≤ t) ∧ probe_log_ok log
  end.
Definition probe_state_ok (s : list ProbeEvent * Pool) : Prop :=
  probe_log_ok s.1 ∧ manualLast s.2 = head (admissions s.1) ∧ (manualInflight s.2 = false → ∀ t, head s.1 ≠ Some (Admission t)).

Lemma BeginManualProbe_idle now p :
  manualInflight p = false →
  (BeginManualProbe now p).1 = match manualLast p with
    | Some last => if bool_decide (last + ManualProbeWindow ≤ now) then ProbeAdmitted
                   else ManualProbeRateLimited (ManualProbeWindow - time_sub now last)
    | None => ProbeAdmitted
    end.
Proof.
  intros Hf. unfold BeginManualProbe. rewrite Hf. destruct (manualLast p) as [last|]; [|done].
  rewrite time_sub_lt by (vm_compute; split; discriminate || reflexivity).
  destruct (Z.ltb_spec (now - last) ManualProbeWindow); case_bool_decide; done || lia.
Qed.

Lemma BeginManualProbe_refused now p r : (BeginManualProbe now p).1 = r → r ≠ ProbeAdmitted → (BeginManualProbe now p).2 = p.
Proof.
  unfold BeginManualProbe. destruct (manualInflight p); [done|]. destruct (manualLast p) as [last|]; [|by intros <-].
  destruct (_ <? _); [done|by intros <-].
Qed.

Lemma probe_call_ok s c : probe_state_ok s → probe_state_ok (probe_call s c).
Proof.
  destruct s as [log p]. intros (Hlog&Hlast&Hidle). cbn [fst snd] in *. destruct c as [now|]; cbn [probe_call fst snd]; [|done].
  destruct (BeginManualProbe now p) as [r p'] eqn:Eb.
  assert (r ≠ ProbeAdmitted → probe_state_ok (log, p')) as Hrefused.
  { intros Hr. pose proof (BeginManualProbe_refused now p r) as Hp. rewrite Eb in Hp. cbn in Hp. by rewrite (Hp eq_refl Hr). }
  destruct r; [|by apply Hrefused|by apply Hrefused].
  destruct (manualInflight p) eqn:Ef; [by unfold BeginManualProbe in Eb; rewrite Ef in Eb|].
  pose proof (BeginManualProbe_idle now p Ef) as Hb. rewrite Eb in Hb. cbn [fst] in Hb. rewrite Hlast in Hb.
  assert (p' = p <| manualInflight := true |> <| manualLast := Some now |>) as ->.
  { unfold BeginManualProbe in Eb. rewrite Ef in Eb. destruct (manualLast p); [destruct (_ <? _)|]; by injection Eb. }
  split_and!; [|done|done]. cbn [fst probe_log_ok]. split_and!; [by apply Hidle| |done].
  intros t' Ht'. rewrite Ht' in Hb. by case_bool_decide.
Qed.

(** Manual probe runs never overlap and keep their distance.  Whatever the calls, from a
    reset pool: between two admitted runs one was ended, and a run is admitted at least ten
    seconds after the previous one.  When no run is in flight, a call is admitted exactly when
    the window has passed, and a refused caller that waits as long as it is told to (and
    finds no other run) is admitted. *)
Theorem manual_probe_spaced (p : Pool) (cs : list ProbeCall) (now : Instant)
    (Hreset : manualInflight p = false ∧ manualLast p = None) :
  let '(log, p') := probe_calls p cs in
  probe_log_ok log ∧
  (manualInflight p' = false →
     ((BeginManualProbe now p').1 = ProbeAdmitted ↔ ∀ t, head (admissions log) = Some t → t + ManualProbeWindow ≤ now) ∧
     (∀ t r, head (admissions log) = Some t → t ≤ now → (BeginManualProbe now p').1 = ManualProbeRateLimited r →
        0 < r ≤ ManualProbeWindow ∧ (BeginManualProbe (now + r) p').1 = ProbeAdmitted)).
Proof.
  assert (probe_state_ok (probe_calls p cs)) as Hok.
  { unfold probe_calls. assert (probe_state_ok ([], p)) as Hs by (by destruct Hreset).
    revert Hs. generalize (@nil ProbeEvent, p). induction cs as [|c cs IH]; intros s Hs; [done|]. by apply IH, probe_call_ok. }
  destruct (probe_calls p cs) as [log p']. destruct Hok as (Hlog&Hlast&_). cbn [fst snd] in *. split; [done|].
  intros Hidle. rewrite !BeginManualProbe_idle by done. rewrite Hlast.
  destruct (head (admissions log)) as [t|]; [|by split; [split; [by intros _ ?|]|]].
  split.
  - case_bool_decide; split; try done; [by intros _ ? [= <-]|]. intros Hw. by specialize (Hw t eq_refl).
  - intros ? r [= <-] Ht. case_bool_decide as Hn; [done|]. intros [= <-].
    rewrite BeginManualProbe_idle, Hlast by done.
    assert (time_sub now t = now - t) as ->.
    { unfold time_sub, int64_min, int64_max. unfold ManualProbeWindow, Second in *. lia. }
    split; [lia|]. by rewrite bool_decide_true by lia.
Qed.

Lemma manual_probe_spaced_witness :
  let cs := [CallBegin 5; CallBegin 6; CallEnd; CallBegin 7; CallBegin (5 + 10 * Second); CallEnd] in
  probe_calls empty_pool cs = probe_calls empty_pool cs ∧ probe_log_ok (probe_calls empty_pool cs).1 ∧
  (probe_calls empty_pool cs).1 = [Ended; Admission (5 + 10 * Second); Ended; Admission 5].
Proof.
  intros cs. split; [done|]. split; [|vm_compute; reflexivity].
  pose proof (manual_probe_spaced empty_pool cs 0 (conj eq_refl eq_refl)) as Hm.
  destruct (probe_calls empty_pool cs) as [log p']. exact (proj1 Hm).
Defined.
