(* ===== verification/UpstreamPublish.v ===== *)
(** * Publication and credentials of the upstream pool ([internal/upstream/upstream.go])

    The invariant of the pool over every sequence of its operations, and what it gives:

    - [set_document]: publication, its refusals, and what it carries over.
    - [credential_bound]: which credentials leave the process, and for whom.
    - [republish_refused]: a published document that cannot be published again. *)

From S2P Require Import Prelude GoStrings GoNet HostUtil Breaker UpstreamEntry UpstreamPool.

(** ** Generations *)

(** The last separator splits a generation key, for a hash has none. *)
Lemma nibble_no_bar z : 0 ≤ z < 16 → Ascii.eqb (nibble z) "|"%char = false.
Proof.
  intros Hz. assert (z ∈ seqZ 0 16) as Hin by (apply elem_of_seqZ; lia). revert Hin.
  change (seqZ 0 16) with [0;1;2;3;4;5;6;7;8;9;10;11;12;13;14;15]. rewrite !elem_of_cons. intros Hc.
  repeat (destruct Hc as [->|Hc]; [reflexivity|]). by apply elem_of_nil in Hc.
Qed.

Lemma hex_no_bar s : ContainsByte (hex_encode s) "|"%char = false.
Proof.
  induction s as [|c s IH]; [done|]. cbn [hex_encode]. pose proof (byte_val_range c) as Hr.
  rewrite !ContainsByte_cons, IH, !nibble_no_bar; [done|apply Z.mod_pos_bound; lia|].
  split; [apply Z.div_pos; lia|apply Z.div_lt_upper_bound; lia].
Qed.

Lemma last_bar_inj a a' h h' :
  ContainsByte h "|"%char = false → ContainsByte h' "|"%char = false →
  (a ++ "|" ++ h = a' ++ "|" ++ h')%string → a = a' ∧ h = h'.
Proof.
  intros Hh Hh'. assert (∀ b g, ContainsByte (b ++ String "|" g) "|"%char = true) as Hbar.
  { intros b g. induction b as [|c b IH]; cbn [String.append]; rewrite ContainsByte_cons; [done|]. by rewrite IH, orb_true_r. }
  revert a'. induction a as [|c a IH]; intros [|c' a'] E; cbn in E.
  - by injection E.
  - injection E as <- E. rewrite E, Hbar in Hh. done.
  - injection E as -> E. rewrite <- E, Hbar in Hh'. done.
  - injection E as <- E. destruct (IH a' E) as [-> ->]. done.
Qed.

Section publish.
Context `{Unicode, Idna, Crypto, UrlParse}.

Definition same_generation (e e' : ManagedEntry) : Prop := e_ID e = e_ID e' ∧ AuthorityHash (e_Spec e) = AuthorityHash (e_Spec e').
Lemma generation_key_spec e e' : generation_key e = generation_key e' ↔ same_generation e e'.
Proof.
  unfold generation_key. split; [|by intros [-> ->]]. intros E. apply last_bar_inj in E; [done| |]; apply hex_no_bar.
Qed.

Lemma prev_generation_spec ups k :
  match prev_generation ups !! k with
  | Some old => old ∈ ups ∧ generation_key (up_Entry old) = k
  | None => ∀ old, old ∈ ups → generation_key (up_Entry old) ≠ k
  end.
Proof.
  unfold prev_generation. induction ups as [|up ups IH] using rev_ind.
  { cbn [fold_left]. rewrite lookup_empty. by intros ? ?%elem_of_nil. }
  rewrite fold_left_app. cbn [fold_left]. destruct (decide (generation_key (up_Entry up) = k)) as [<-|Hne].
  - rewrite lookup_insert_eq. split; [set_solver|done].
  - rewrite lookup_insert_ne by done. destruct (fold_left _ ups ∅ !! k); [set_solver|].
    intros old [Hin|Hin]%elem_of_app; [by apply IH|]. by apply list_elem_of_singleton in Hin as ->.
Qed.

(** ** The invariant *)

(** Breaker cells lie below the allocation pointer. *)
Definition heap_ok (h : BreakerHeap) : Prop := ∀ c, is_Some (bh_cells h !! c) → (c < bh_next h)%nat.
Definition entry_parses (e : ManagedEntry) : bool := bool_decide (is_Some (url_Parse (Authority (e_Spec e)))).
Record proxy_ok (key : option Keyring) (h : BreakerHeap) (up : Proxy) : Prop := {
  po_url : url_Parse (Authority (e_Spec (up_Entry up))) = Some (up_URL up);
  po_cell : is_Some (bh_cells h !! up_CB up);
  po_cred : up_credState up = credentialStateLocked key (up_Entry up);
}.
Record pool_ok (p : Pool) : Prop := {
  ok_heap : heap_ok (p_breakers p);
  ok_proxies : Forall (proxy_ok (p_key p) (p_breakers p)) (p_proxies p);
}.

(** What a rebuild gives a published parent. *)
Definition inherits (ups : list Proxy) (h : BreakerHeap) (thr : Z) (tmo : Duration) (h' : BreakerHeap) (up : Proxy) : Prop :=
  (∃ old, old ∈ ups ∧ same_generation (up_Entry old) (up_Entry up) ∧ up_CB up = up_CB old ∧ up_probe up = up_probe old) ∨
  (∀ old, old ∈ ups → ¬ same_generation (up_Entry old) (up_Entry up)) ∧
    bh_cells h !! up_CB up = None ∧ bh_cells h' !! up_CB up = Some (newCircuitBreaker thr tmo) ∧
    up_probe up = mkProbe ProbeUnprobed ReasonNone "" SourceNone.

Lemma rebuild_loop_spec ups key thr tmo es h out h' :
  rebuild_loop (prev_generation ups) key thr tmo es h = (out, h') → heap_ok h → Forall (λ up, is_Some (bh_cells h !! up_CB up)) ups →
  map up_Entry out = filter entry_parses es ∧ heap_ok h' ∧ bh_cells h ⊆ bh_cells h' ∧
  Forall (λ up, proxy_ok key h' up ∧ inherits ups h thr tmo h' up) out.
Proof.
  revert h out h'. induction es as [|e es IH]; intros h out h' E Hh Hcells; cbn [rebuild_loop] in E.
  { by injection E as <- <-. }
  destruct (url_Parse (Authority (e_Spec e))) as [u|] eqn:Eu.
  2:{ rewrite filter_cons_False; [by apply IH|]. unfold entry_parses. rewrite Eu. rewrite bool_decide_false; [by intros []|by intros []]. }
  rewrite filter_cons_True by (unfold entry_parses; rewrite Eu; by rewrite bool_decide_true).
  pose proof (prev_generation_spec ups (generation_key e)) as Hprev.
  destruct (prev_generation ups !! generation_key e) as [old|].
  - destruct (rebuild_loop _ _ _ _ es h) as [out1 h1] eqn:El. injection E as <- <-.
    destruct (IH _ _ _ El Hh Hcells) as (Hout&Hh1&Hsub&Hall). cbn [map up_Entry]. rewrite Hout. split_and!; [done..|].
    destruct Hprev as [Hin Hk]. apply generation_key_spec in Hk.
    constructor; [|done]. split; [constructor; cbn; [done| |done]|left; by exists old].
    rewrite Forall_forall in Hcells. destruct (Hcells old Hin) as [cb Hcb]. exists cb. by eapply lookup_weaken.
  - assert (bh_cells h !! bh_next h = None) as Hnew.
    { destruct (bh_cells h !! bh_next h) eqn:Ec; [|done]. assert (bh_next h < bh_next h)%nat by (apply (Hh (bh_next h)); by eexists). lia. }
    set (h0 := mkBH _ _) in E. assert (bh_cells h ⊆ bh_cells h0) as Hsub0 by (by apply insert_subseteq).
    destruct (rebuild_loop _ _ _ _ es h0) as [out1 h1] eqn:El. injection E as <- <-.
    destruct (IH _ _ _ El) as (Hout&Hh1&Hsub&Hall).
    { intros c Hc. cbn in Hc |- *. destruct (decide (c = bh_next h)) as [->|Hne]; [lia|].
      rewrite lookup_insert_ne in Hc by done. specialize (Hh c Hc). lia. }
    { eapply Forall_impl; [done|]. intros up [cb Hcb]. exists cb. by eapply lookup_weaken. }
    cbn [map up_Entry]. rewrite Hout. split_and!; [done..|by etransitivity|].
    assert (bh_cells h1 !! bh_next h = Some (newCircuitBreaker thr tmo)) as Hcell.
    { eapply lookup_weaken; [|done]. cbn. by rewrite lookup_insert_eq. }
    constructor.
    + split; [constructor; cbn; [done|by rewrite Hcell|done]|]. right. cbn. split_and!; [|done..].
      intros old Hin Hs. apply (Hprev old Hin). by apply generation_key_spec.
    + eapply Forall_impl; [done|]. intros up [Hok [Hl|(Hno&Hnone&?&?)]]; (split; [done|]); [by left|right].
      split_and!; [done| |done|done]. apply (lookup_weaken_None _ _ _ Hnone Hsub0).
Qed.

(** ** The invariant holds of every reachable pool *)

Inductive PoolOp :=
  | OpNext (now : Instant)
  | OpProxyFunc (now : Instant)
  | OpEffective (now : Instant) (nowStr : string)
  | OpList (now : Instant)
  | OpRecord (now : Instant) (slot : option Proxy) (err : option TransportError)
  | OpHealthCheck (outcome : Proxy → ProbeStatus * ProbeReason) (nowStr : string) (src : ProbeSource)
  | OpBeginProbe (now : Instant)
  | OpEndProbe
  | OpSetProbeInterval (d : Duration)
  | OpSetKey (k : option Keyring) (reason : string)
  | OpSetDocument (doc : Document)
  | OpConfigure (urls : list string) (thr : Z) (tmo : Duration)
  | OpSetProxies (newID : nat → string) (now : string) (urls : list string)
  | OpRestore (st : PoolState).
Definition pool_step (p : Pool) (op : PoolOp) : Pool :=
  match op with
  | OpNext now => (Next now p).2
  | OpProxyFunc now => (ProxyFunc now p).2
  | OpEffective now nowStr => (Effective now nowStr p).2
  | OpList now => (List_ now p).2
  | OpRecord now slot err => Record_ now slot err p
  | OpHealthCheck outcome nowStr src => (HealthCheck outcome nowStr src p).2
  | OpBeginProbe now => (BeginManualProbe now p).2
  | OpEndProbe => EndManualProbe p
  | OpSetProbeInterval d => SetProbeInterval d p
  | OpSetKey k reason => SetKey k reason p
  | OpSetDocument doc => (SetDocument doc p).2
  | OpConfigure urls thr tmo => (Configure urls thr tmo p).2
  | OpSetProxies newID now urls => (SetProxies newID now urls p).2
  | OpRestore st => Restore st p
  end.
Definition pool_run (ops : list PoolOp) : Pool := fold_left pool_step ops empty_pool.

(** Breakers are updated in place. *)
Definition heap_le (h h' : BreakerHeap) : Prop := bh_next h' = bh_next h ∧ ∀ c, is_Some (bh_cells h' !! c) ↔ is_Some (bh_cells h !! c).
#[local] Instance heap_le_refl : Reflexive heap_le.
Proof. by intros h. Qed.
#[local] Instance heap_le_trans : Transitive heap_le.
Proof. intros h1 h2 h3 [E1 Hc1] [E2 Hc2]. split; [congruence|]. intros c. by rewrite Hc2. Qed.

Lemma eligible_le now up h : heap_le h (eligible now up h).2.
Proof.
  assert (heap_le h (allow_at now (up_CB up) h).2) as Ha.
  { unfold allow_at. destruct (bh_cells h !! up_CB up) as [cb|] eqn:E; [|done]. destruct (Allow now cb) as [b cb1]. cbn.
    split; [done|]. intros c. cbn. destruct (decide (c = up_CB up)) as [->|Hne].
    - rewrite lookup_insert_eq. split; intros _; by eexists.
    - by rewrite lookup_insert_ne. }
  unfold eligible. destruct (negb _); [done|]. by destruct (pr_Status _).
Qed.
Lemma next_loop_le now fuel i ups start h : heap_le h (next_loop now fuel i ups start h).2.
Proof.
  revert i h. induction fuel as [|fuel IH]; intros i h; cbn [next_loop]; [done|].
  destruct (if _ <? 0 then _ else _) as [up|]; [|done]. pose proof (eligible_le now up h) as Hle.
  destruct (eligible now up h) as [[] h1]; cbn in *; [done|]. by etransitivity.
Qed.
Lemma count_eligible_le now ups h : heap_le h (count_eligible now ups h).2.
Proof.
  revert h. induction ups as [|up ups IH]; intros h; cbn; [done|]. pose proof (eligible_le now up h) as Hle.
  destruct (eligible now up h) as [ok h1]. specialize (IH h1). destruct (count_eligible now ups h1). cbn in *. by etransitivity.
Qed.
Lemma list_statuses_le now ups h : heap_le h (list_statuses now ups h).2.
Proof.
  revert h. induction ups as [|up ups IH]; intros h; cbn [list_statuses]; [done|].
  assert (heap_le h (status_of now up h).2) as Hle.
  { unfold status_of. pose proof (eligible_le now up h) as Hle. destruct (eligible now up h) as [ok h1]. cbn in Hle.
    destruct (bh_cells h1 !! up_CB up) as [cb|]; [|done]. by destruct (OpenedAt cb). }
  destruct (status_of now up h) as [[st|] h1]; [|done]. specialize (IH h1). destruct (list_statuses now ups h1).
  cbn in *. by etransitivity.
Qed.

(** Operations that keep the parents and the key, and update breakers in place. *)
Definition same_pool (p p' : Pool) : Prop :=
  p_proxies p' = p_proxies p ∧ p_key p' = p_key p ∧ heap_le (p_breakers p) (p_breakers p').
Lemma proxy_ok_le key h h' up : heap_le h h' → proxy_ok key h up → proxy_ok key h' up.
Proof. intros [_ Hc] [Hu Hl Hs]. constructor; [done|by apply Hc|done]. Qed.
Lemma same_pool_ok p p' : same_pool p p' → pool_ok p → pool_ok p'.
Proof.
  intros (Hp&Hk&Hle) [Hh Hall]. constructor.
  - intros c Hc. rewrite (proj1 Hle). by apply Hh, (proj2 Hle).
  - rewrite Hp, Hk. eapply Forall_impl; [done|]. intros up. by apply proxy_ok_le.
Qed.

Lemma noteDirectFallback_same p : same_pool p (noteDirectFallback p).
Proof. unfold noteDirectFallback. cbn. by destruct (fallbackActive p). Qed.
Lemma Next_same now p : same_pool p (Next now p).2.
Proof.
  unfold Next. destruct (_ =? 0)%nat; [cbn; by destruct (fallbackActive p)|].
  match goal with |- context [next_loop ?a ?b ?c ?d ?e ?f] => pose proof (next_loop_le a b c d e f) as Hle;
    destruct (next_loop a b c d e f) as [[] h] end; cbn [snd] in *; [done| |].
  - match goal with |- same_pool _ (noteDirectFallback ?q) => destruct (noteDirectFallback_same q) as (Hp&Hk&Hl) end.
    split_and!; [by rewrite Hp|by rewrite Hk|]. by etransitivity.
  - unfold noteUpstreamAvailable. cbn. by destruct (fallbackActive p).
Qed.

(** What a rebuild publishes. *)
Record rebuilt (p p' : Pool) : Prop := {
  rb_entries : map up_Entry (p_proxies p') = filter entry_parses (p_yaml p ++ doc_Entries (p_doc p))%list;
  rb_cells : bh_cells (p_breakers p) ⊆ bh_cells (p_breakers p');
  rb_proxies : Forall (λ up, inherits (p_proxies p) (p_breakers p) (cbThreshold p) (cbTimeout p) (p_breakers p') up) (p_proxies p');
  rb_doc : p_yaml p' = p_yaml p ∧ p_doc p' = p_doc p ∧ p_key p' = p_key p;
  rb_fallback : fallbackActive p' = false ∧ fallbackTotal p' = fallbackTotal p;
}.
Definition cells_ok (p : Pool) : Prop :=
  heap_ok (p_breakers p) ∧ Forall (λ up, is_Some (bh_cells (p_breakers p) !! up_CB up)) (p_proxies p).
Lemma pool_ok_cells p : pool_ok p → cells_ok p.
Proof. intros [Hh Hp]. split; [done|]. eapply Forall_impl; [done|]. by intros up []. Qed.

Lemma rebuildLocked_spec p : cells_ok p → rebuilt p (rebuildLocked p) ∧ pool_ok (rebuildLocked p).
Proof.
  intros [Hh Hcells]. unfold rebuildLocked.
  match goal with |- context [rebuild_loop ?a ?b ?c ?d ?e ?f] => destruct (rebuild_loop a b c d e f) as [out h'] eqn:E end.
  destruct (rebuild_loop_spec _ _ _ _ _ _ _ _ E Hh Hcells) as (Hout&Hh'&Hsub&Hall). apply Forall_and in Hall as [Hok Hin].
  split; constructor; done.
Qed.

(** The updates before a rebuild keep the cells. *)
Lemma rebuild_ok p q : pool_ok p → p_proxies q = p_proxies p → p_breakers q = p_breakers p → pool_ok (rebuildLocked q).
Proof.
  intros [Hh Hp]%pool_ok_cells Ep Eb. apply rebuildLocked_spec. split; [by rewrite Eb|by rewrite Ep, Eb].
Qed.

Lemma rebuild_fresh q : heap_ok (p_breakers q) → p_proxies q = [] → pool_ok (rebuildLocked q).
Proof. intros Hh Hp. apply rebuildLocked_spec. split; [done|]. by rewrite Hp. Qed.
Lemma resetManualProbe_ok p : pool_ok p → pool_ok (resetManualProbe p).
Proof. by apply same_pool_ok. Qed.

Lemma SetDocument_ok doc p : pool_ok p → pool_ok (SetDocument doc p).2.
Proof. intros Hok. unfold SetDocument. destruct (ValidateEffective _ _); [done|]. by apply (rebuild_ok p). Qed.

Lemma HealthCheck_ok outcome nowStr src p : pool_ok p → pool_ok (HealthCheck outcome nowStr src p).2.
Proof.
  intros [Hh Hp]. unfold HealthCheck. cbv zeta. generalize (match src with ProbePeriodic => ProbePeriodic | _ => ProbeManual end).
  clear src. intros src. destruct (health_loop outcome nowStr src (p_proxies p)) as [out s] eqn:E.
  constructor; [done|]. cbn [snd]. change (Forall (proxy_ok (p_key p) (p_breakers p)) out). clear Hh.
  revert out s E. induction Hp as [|up ups Hup _ IH]; intros out s E; cbn [health_loop] in E; [by injection E as <- <-|].
  destruct (health_loop outcome nowStr src ups) as [out1 s1]. specialize (IH _ _ eq_refl).
  destruct (negb _); [by injection E as <- <-; constructor|]. destruct (outcome up) as [st r]. injection E as <- _.
  constructor; [|done]. by destruct Hup.
Qed.

Lemma Record_same now slot err p : same_pool p (Record_ now slot err p).
Proof.
  assert (∀ f up, same_pool p (p <| p_breakers := (p_breakers p) <| bh_cells := alter f (up_CB up) (bh_cells (p_breakers p)) |> |>)) as Ha.
  { intros f up. split_and!; [done..|]. split; [done|]. intros c. cbn. destruct (decide (c = up_CB up)) as [->|Hne].
    - rewrite lookup_alter_eq. apply fmap_is_Some.
    - by rewrite lookup_alter_ne. }
  unfold Record_. destruct slot as [up|]; [|done]. destruct err as [[]|]; done || apply Ha.
Qed.

Lemma pool_step_ok p op : pool_ok p → pool_ok (pool_step p op).
Proof.
  intros Hok. destruct op; cbn [pool_step].
  - eapply same_pool_ok; [apply Next_same|done].
  - unfold ProxyFunc. pose proof (Next_same now p) as Hs. destruct (Next now p) as [sel p1]. cbn [snd] in Hs.
    apply (same_pool_ok p p1 Hs) in Hok. destruct sel as [| |up]; [done..|]. destruct (authenticatedURL _ up); [|done].
    eapply same_pool_ok; [apply noteDirectFallback_same|done].
  - unfold Effective. pose proof (count_eligible_le now (p_proxies p) (p_breakers p)) as Hle.
    destruct (count_eligible now (p_proxies p) (p_breakers p)) as [k h]. cbn [snd] in Hle. unfold noteMode.
    match goal with |- context [if ?b then _ <| modeLast := _ |> <| modeSince := _ |> else _] => destruct b end;
      (eapply same_pool_ok; [|done]); done.
  - unfold List_. pose proof (list_statuses_le now (p_proxies p) (p_breakers p)) as Hle.
    destruct (list_statuses now (p_proxies p) (p_breakers p)) as [sts h]. by apply (same_pool_ok p); [split_and!|].
  - eapply same_pool_ok; [apply Record_same|done].
  - by apply HealthCheck_ok.
  - unfold BeginManualProbe. destruct (manualInflight p); [done|]. destruct (manualLast p); [destruct (_ <? _)|]; done || by destruct Hok.
  - by destruct Hok.
  - by destruct Hok.
  - by apply (rebuild_ok p).
  - by apply SetDocument_ok.
  - unfold Configure. destruct (YAMLEntries urls) as [err|yaml]; [by destruct Hok|]. cbv zeta.
    destruct (ValidateEffective _ _); [by destruct Hok|]. cbn [snd].
    apply resetManualProbe_ok. by apply (rebuild_ok p).
  - unfold SetProxies. destruct (legacyDocument newID now urls p); [done|]. by apply SetDocument_ok.
  - apply resetManualProbe_ok, rebuild_fresh; [apply Hok|reflexivity].
Qed.

Lemma pool_run_ok ops : pool_ok (pool_run ops).
Proof.
  unfold pool_run. assert (pool_ok empty_pool) as Hok.
  { constructor; [|constructor]. intros c [cb Hc]. exact (False_ind _ (lookup_empty_Some c cb Hc)). }
  revert Hok. generalize empty_pool. induction ops as [|op ops IH]; intros p Hok; [done|]. by apply IH, pool_step_ok.
Qed.

(** A document is published whole or not at all.  It is accepted exactly when every
    effective entry normalises and has an identifier, and neither authorities (after
    normalisation) nor identifiers repeat; a refused document changes nothing.  An accepted
    one is stored in canonical spelling, the parents are the effective entries whose authority
    parses, YAML first and in order, and the fallback state is reset.  A parent keeps its
    breaker and its probe verdict exactly when identifier and authority are those of a
    parent it replaces; otherwise it starts unprobed with a breaker of its own, and no
    breaker that existed changes. *)
Theorem set_document (ops : list PoolOp) (doc : Document) :
  let p := pool_run ops in
  let '(err, p') := SetDocument doc p in
  (err = None ↔
     Forall (λ e, e_ID e ≠ "" ∧ ∃ spec, canonical e spec) (p_yaml p ++ doc_Entries doc) ∧
     NoDup (map (AuthorityHash ∘ canon) (p_yaml p ++ doc_Entries doc)) ∧ NoDup (map e_ID (p_yaml p ++ doc_Entries doc))) ∧
  match err with
  | Some _ => p' = p
  | None =>
      let stored := map store_canonical (doc_Entries doc) in
      p_yaml p' = p_yaml p ∧ doc_Entries (p_doc p') = stored ∧ doc_Revision (p_doc p') = doc_Revision doc ∧
      map up_Entry (p_proxies p') = filter entry_parses (p_yaml p ++ stored)%list ∧
      fallbackActive p' = false ∧ bh_cells (p_breakers p) ⊆ bh_cells (p_breakers p') ∧
      Forall (inherits (p_proxies p) (p_breakers p) (cbThreshold p) (cbTimeout p) (p_breakers p')) (p_proxies p')
  end.
Proof.
  intros p. pose proof (pool_run_ok ops) as Hok%pool_ok_cells. fold p in Hok. unfold SetDocument.
  pose proof (ValidateEffective_spec (p_yaml p) (doc_Entries doc)) as Hv.
  destruct (ValidateEffective (p_yaml p) (doc_Entries doc)) as [err|]; [by split|]. split; [done|].
  cbv zeta. set (d1 := if doc_Schema doc =? 0 then _ else _).
  assert (doc_Entries d1 = doc_Entries doc ∧ doc_Revision d1 = doc_Revision doc) as [Hde Hdr] by (subst d1; by destruct (_ =? 0)).
  match goal with |- context [rebuildLocked ?q] => destruct (rebuildLocked_spec q Hok) as [[Hent Hc Hin (Hy&Hd&_) Hf] _] end.
  cbn [p_yaml p_doc p_proxies p_breakers cbThreshold cbTimeout] in *. rewrite Hy, Hd. cbn [doc_Entries doc_Revision] in *.
  rewrite Hde in *. split_and!; [done|done|done|exact Hent|by destruct Hf|done|done].
Qed.

(** ** Credentials *)

(** The URL a request may use for a parent: its own authority, with exactly the credential
    that belongs to it. *)
Definition authenticated_for (key : option Keyring) (up : Proxy) (url : URL) : Prop :=
  let e := up_Entry up in
  ∃ base, url_Parse (Authority (e_Spec e)) = Some base ∧
  if decide (yamlSecret e ≠ "") then url = base <| u_User := Some (sp_Username (e_Spec e), Some (yamlSecret e)) |>
  else match Credential e with
       | None => RequiresReplacement e = false ∧ url = base
       | Some c => EntryID c = e_ID e ∧ s_AuthorityHash c = AuthorityHash (e_Spec e) ∧ (k_id <$> key) = Some (KeyID c) ∧
           ∃ pw, Unseal key (Some c) (e_ID e) (AuthorityHash (e_Spec e)) = inr pw ∧
                 url = base <| u_User := Some (sp_Username (e_Spec e), Some pw) |>
       end.

Lemma authenticatedURL_bound key h up :
  proxy_ok key h up → credentialEligible up = true → ∃ url, authenticatedURL key up = inr url ∧ authenticated_for key up url.
Proof.
  intros [Hu _ Hs] He. unfold credentialEligible in He. rewrite Hs in He. unfold authenticatedURL, authenticated_for.
  unfold credentialStateLocked in He. destruct (String.eqb_spec (yamlSecret (up_Entry up)) "") as [Ey|Ey]; cbn [negb] in *.
  2:{ eexists. split; [done|]. exists (up_URL up). split; [done|]. by rewrite decide_True. }
  destruct (Credential (up_Entry up)) as [c|].
  - destruct (String.eqb_spec (EntryID c) (e_ID (up_Entry up))) as [E1|]; [|done].
    destruct (String.eqb_spec (s_AuthorityHash c) (AuthorityHash (e_Spec (up_Entry up)))) as [E2|]; [|done]. cbn [negb orb] in He.
    destruct key as [k|]; [|done]. destruct (String.eqb_spec (k_id k) (KeyID c)) as [E3|]; [|done]. cbn [negb] in He.
    destruct (Unseal (Some k) (Some c) _ _) as [[]|pw] eqn:Eu; try done.
    eexists. split; [done|]. exists (up_URL up). split; [done|]. rewrite decide_False by (by intros ?).
    split_and!; [done|done|cbn; by rewrite E3|by exists pw].
  - eexists. split; [done|]. exists (up_URL up). split; [done|]. rewrite decide_False by (by intros ?).
    split; [|done]. by destruct (RequiresReplacement (up_Entry up)).
Qed.

Lemma next_loop_sel now fuel i ups start h up h' :
  next_loop now fuel i ups start h = (SelProxy up, h') → up ∈ ups ∧ is_eligible now h up = true.
Proof.
  revert i h. induction fuel as [|fuel IH]; intros i h; cbn [next_loop]; [done|].
  destruct (if _ <? 0 then _ else _) as [up1|] eqn:El; [|done].
  destruct (eligible now up1 h) as [[] h1] eqn:Ee.
  - intros [= -> _]. unfold is_eligible. rewrite Ee. split; [|done]. destruct (_ <? 0); [done|]. by eapply list_elem_of_lookup_2.
  - apply eligible_false in Ee as ->. apply IH.
Qed.
Lemma Next_sel now p up p' : Next now p = (SelProxy up, p') → up ∈ p_proxies p ∧ is_eligible now (p_breakers p) up = true.
Proof.
  unfold Next. destruct (_ =? 0)%nat; [by destruct (fallbackActive p)|].
  match goal with |- context [next_loop ?a ?b ?c ?d ?e ?f] => destruct (next_loop a b c d e f) as [[] h] eqn:E end; [done..|].
  intros [= <- _]. by apply next_loop_sel in E.
Qed.
Lemma eligible_credential now h up : is_eligible now h up = true → credentialEligible up = true.
Proof. unfold is_eligible, eligible. by destruct (credentialEligible up). Qed.

End publish.

(** ** Normalisation is not idempotent *)

Section republish.
Context `{Unicode, Idna, Crypto, UrlParse}.

Definition parent (id host : string) : ManagedEntry := mkEntry id (mkSpec "http" host 3128 "") 1 SourceManaged None false "" "" "".
Definition two_parents : Document := mkDoc 1 2 [parent "id-1" "a.corp.."; parent "id-2" "a.corp"].

(** A name IDNA leaves alone, up to one trailing dot. *)
Lemma Normalize_parent (raw host : string) :
  TrimSuffix (ToLower (TrimSpace raw)) "." = host → TrimSpace raw ≠ "" →
  HasPrefix host "[" || HasSuffix host "]" = false → ContainsByte host ":"%char = false → ParseIP host = None →
  ContainsAny host " /?#@\" = false → idna_ToASCII host = Some host → validateHostLabels host = inr tt →
  Normalize (mkSpec "http" raw 3128 "") = inr (mkSpec "http" host 3128 "").
Proof.
  intros Hh Hne Hb Hc Hip Hany Hidna Hlab. unfold Normalize. cbn [sp_Scheme sp_Host sp_Port sp_Username].
  replace (ToLower (TrimSpace "http")) with "http" by (vm_compute; reflexivity).
  replace (TrimSpace "") with "" by (vm_compute; reflexivity). change (schemeDefaultPort "http") with (Some 80).
  assert (normalizeHost raw = inr host) as ->; [|vm_compute; reflexivity].
  unfold normalizeHost. destruct (String.eqb_spec (TrimSpace raw) ""); [done|]. rewrite Hh, Hb, Hc, Hip.
  rewrite bool_decide_false by (by intros [? ?]). rewrite Hany, Hidna, Hlab. done.
Qed.

(** A pool cannot always be saved and published again.  Normalisation strips one trailing
    dot per pass: of the parents [a.corp..] and [a.corp], which are published as two parents,
    the first is stored as [a.corp.]; the stored document, published again, is refused,
    for both authorities are now the same. *)
Theorem republish_refused (Hdot : idna_ToASCII "a.corp." = Some "a.corp.") (Hplain : idna_ToASCII "a.corp" = Some "a.corp")
    (Hhash : AuthorityHash (mkSpec "http" "a.corp." 3128 "") ≠ AuthorityHash (mkSpec "http" "a.corp" 3128 "")) :
  let p := (SetDocument two_parents empty_pool).2 in
  (SetDocument two_parents empty_pool).1 = None ∧ doc_Entries (Document_ p) = [parent "id-1" "a.corp."; parent "id-2" "a.corp"] ∧
  (SetDocument (Document_ p) p).1 = Some (DuplicateAuthorityError 1).
Proof.
  assert (Normalize (mkSpec "http" "a.corp.." 3128 "") = inr (mkSpec "http" "a.corp." 3128 "")) as Nd.
  { apply (Normalize_parent "a.corp.." "a.corp."); vm_compute; done. }
  assert (Normalize (mkSpec "http" "a.corp." 3128 "") = inr (mkSpec "http" "a.corp" 3128 "")) as Ns.
  { apply (Normalize_parent "a.corp." "a.corp"); vm_compute; done. }
  assert (Normalize (mkSpec "http" "a.corp" 3128 "") = inr (mkSpec "http" "a.corp" 3128 "")) as Np.
  { apply (Normalize_parent "a.corp" "a.corp"); vm_compute; done. }
  assert (ValidateEffective [] (doc_Entries two_parents) = None) as Hv.
  { apply ValidateEffective_spec. cbn [two_parents doc_Entries app map compose]. unfold canon. cbn [parent e_Spec e_ID]. rewrite Nd, Np.
    split_and!; [repeat constructor; try done; by eexists| |].
    - repeat constructor; set_solver.
    - repeat constructor; set_solver. }
  assert (map store_canonical (doc_Entries two_parents) = [parent "id-1" "a.corp."; parent "id-2" "a.corp"]) as Hst.
  { cbn [two_parents doc_Entries map]. unfold store_canonical, canon. cbn [parent e_Spec]. by rewrite Nd, Np. }
  assert (∀ p q, p_doc q = p_doc p → p_yaml q = p_yaml p → Document_ q = Document_ p) as Hcongr.
  { intros p q E _. unfold Document_. by rewrite E. }
  set (q := empty_pool <| p_doc := mkDoc 1 2 [parent "id-1" "a.corp."; parent "id-2" "a.corp"] |>).
  assert (SetDocument two_parents empty_pool = (None, rebuildLocked q)) as ->.
  { unfold SetDocument. change (p_yaml empty_pool) with (@nil ManagedEntry). rewrite Hv. cbv zeta.
    change ((@None PoolError, rebuildLocked (empty_pool <| p_doc := mkDoc 1 2 (map store_canonical (doc_Entries two_parents)) |>))
      = (None, rebuildLocked q)). by rewrite Hst. }
  assert (p_doc (rebuildLocked q) = p_doc q ∧ p_yaml (rebuildLocked q) = []) as [Hd Hy].
  { unfold rebuildLocked. by destruct (rebuild_loop _ _ _ _ _ _). }
  cbn [fst snd]. rewrite (Hcongr q) by (rewrite ?Hy; done). split_and!; [done|done|].
  unfold SetDocument. rewrite Hy. unfold ValidateEffective. cbn [app Document_ q p_doc doc_Revision doc_Entries].
  change (canonical_entries 0 (doc_Entries (Document_ q))) with
    (canonical_entries 0 [parent "id-1" "a.corp."; parent "id-2" "a.corp"]).
  cbn [canonical_entries parent e_Spec e_ID]. rewrite Ns, Np. cbn [String.eqb map count_dups].
  change (e_Spec (?e <| e_Spec := ?s |>)) with s.
  rewrite bool_decide_false by set_solver. rewrite bool_decide_true by set_solver. done.
Qed.
End republish.

#[local] Instance test_unicode : Unicode := ascii_unicode.
#[local] Instance test_idna : Idna := Some.
#[local] Instance test_crypto : Crypto := toy_crypto.
#[local] Instance test_url : UrlParse := λ s, Some (mkURL "http" s s "3128" "" "" "" "" None).
Lemma republish_refused_witness :
  let p := (SetDocument two_parents empty_pool).2 in
  (SetDocument two_parents empty_pool).1 = None ∧ doc_Entries (Document_ p) = [parent "id-1" "a.corp."; parent "id-2" "a.corp"] ∧
  (SetDocument (Document_ p) p).1 = Some (DuplicateAuthorityError 1).
Proof. apply republish_refused; [done|done|vm_compute; discriminate]. Defined.
