(* ===== verification/HALease.v ===== *)
(** * The fencing lease of the HA control plane ([internal/halease], [ha_fencing.go])

    One cluster-wide lease, arbitrated by a backend.  [Provider] is the interface of
    [halease.go]: its operations, the lease the backend keeps as an abstract view, and in
    [ProviderLaws] what the interface's documentation demands of an implementation.  [Fake]
    is the in-memory implementation of [fake.go]; it satisfies the laws ([Fake_laws]), and it
    is the backend the witnesses of the cluster theorems run against.

    [DPEpoch] is the Data Plane's side of the fence: the last-seen epoch, its
    compare-and-swap loop and the file that carries it over a restart.

    - [dp_ratchet]: whatever the interleaving of the observers, the last-seen epoch never goes
      back while the process runs, and a message is accepted only at the epoch seen last.
    - [dp_restart_regresses]: two observers can leave the older of two epochs in the file, so
      a restart can lower the ratchet. *)

From S2P Require Import Prelude.

(** ** The interface *)

Record Status := mkStatus { Holder : string; Epoch : Z; ValidFor : Duration }.
#[global] Instance Status_dec : EqDecision Status.
Proof. solve_decision. Defined.
Definition zeroStatus : Status := mkStatus "" 0 0.

(** The lease as the backend keeps it. *)
Record Lease := mkLease { l_holder : string; l_epoch : Z; l_expires : Instant }.

(** An operation runs at an instant of the backend's clock.  [lease_of], [watermark] (the
    greatest epoch granted so far) and [backend_ok] are not part of the interface: they are
    what its documentation speaks about. *)
Class Provider (B : Type) := {
  Acquire : Instant → string → B → (bool * Status) * B;
  Renew : Instant → string → Z → B → (bool * Duration) * B;
  Read : Instant → B → Status;
  lease_of : B → option Lease;
  watermark : B → Z;
  backend_ok : Instant → B → Prop;
}.

(** The lease that is live at [t]: held and not expired. *)
Definition live `{Provider B} (t : Instant) (b : B) : option Lease :=
  match lease_of b with
  | Some l => if t <? l_expires l then Some l else None
  | None => None
  end.

Lemma live_Some `{Provider B} t b l : live t b = Some l ↔ lease_of b = Some l ∧ t < l_expires l.
Proof.
  unfold live. destruct (lease_of b) as [l'|]; [|naive_solver].
  destruct (Z.ltb_spec t (l_expires l')); naive_solver lia.
Qed.

(** The documented contract ([halease.go], "Implementations MUST guarantee").  Epochs are
    [int64]: the strict growth of a grant is promised while the counter has room. *)
Class ProviderLaws (B : Type) `{Provider B} : Prop := {
  ok_later t t' b : backend_ok t b → t ≤ t' → backend_ok t' b;
  (* the lease on record is the last one granted; epoch 0 is never granted *)
  ok_epoch t b l : backend_ok t b → lease_of b = Some l → l_epoch l = watermark b ∧ 0 < l_epoch l;
  ok_watermark t b : backend_ok t b → 0 ≤ watermark b;
  (* the lease is denied while it is live, and the denial describes the holder *)
  acquire_denied t id b l : backend_ok t b → live t b = Some l →
    ∃ v, Acquire t id b = ((false, mkStatus (l_holder l) (l_epoch l) v), b);
  (* it is granted when it is free or expired, at an epoch greater than any before *)
  acquire_granted t id b : backend_ok t b → live t b = None → id ≠ "" → watermark b < int64_max →
    ∃ e v x b', Acquire t id b = ((true, mkStatus id e v), b') ∧ watermark b < e ∧ watermark b' = e ∧
      lease_of b' = Some (mkLease id e x) ∧ 0 ≤ v ≤ int64_max ∧ t + v ≤ x ∧ backend_ok t b';
  (* a renewal succeeds exactly for the live lease, and never shortens it *)
  renew_lost t id e b : backend_ok t b → (∀ x, live t b ≠ Some (mkLease id e x)) →
    Renew t id e b = ((false, 0), b);
  renew_kept t id e b x : backend_ok t b → live t b = Some (mkLease id e x) →
    ∃ v x' b', Renew t id e b = ((true, v), b') ∧ lease_of b' = Some (mkLease id e x') ∧
      watermark b' = watermark b ∧ 0 ≤ v ≤ int64_max ∧ t + v ≤ x' ∧ x ≤ x' ∧ backend_ok t b';
  (* [Read] names the holder of the live lease and nobody otherwise *)
  read_live t b l : backend_ok t b → live t b = Some l →
    Holder (Read t b) = l_holder l ∧ Epoch (Read t b) = l_epoch l;
  read_free t b : backend_ok t b → live t b = None → Holder (Read t b) = "";
}.

(** ** The in-memory implementation ([fake.go]) *)

(** The clock the tests inject is the instant each operation is given. *)
Record Fake := mkFake { f_holder : string; f_epoch : Z; f_expiresAt : Instant; f_ttl : Duration }.
#[global] Instance Fake_eta : Eta Fake := λ f, mkFake (f_holder f) (f_epoch f) (f_expiresAt f) (f_ttl f).

Definition NewFake (ttl : Duration) : Fake := mkFake "" 0 0 ttl.

Definition heldLocked (now : Instant) (f : Fake) : bool :=
  negb (f_holder f =? "")%string && (now <? f_expiresAt f).

Definition statusLocked (now : Instant) (f : Fake) : Status :=
  if negb (heldLocked now f) then mkStatus "" (f_epoch f) 0
  else mkStatus (f_holder f) (f_epoch f) (time_sub (f_expiresAt f) now).

Definition Fake_Acquire (now : Instant) (candidateID : string) (f : Fake) : (bool * Status) * Fake :=
  if heldLocked now f then ((false, statusLocked now f), f)
  else let f := f <| f_holder := candidateID |> <| f_epoch := wrap64 (f_epoch f + 1) |>
                  <| f_expiresAt := now + f_ttl f |> in
       ((true, statusLocked now f), f).

Definition Fake_Renew (now : Instant) (holderID : string) (epoch : Z) (f : Fake) : (bool * Duration) * Fake :=
  if negb (heldLocked now f) || negb (f_holder f =? holderID)%string || negb (f_epoch f =? epoch)
  then ((false, 0), f)
  else ((true, f_ttl f), f <| f_expiresAt := now + f_ttl f |>).

Definition Fake_Read (now : Instant) (f : Fake) : Status := statusLocked now f.

(** [ExpireForTest]: the lease lapses, its holder stays on record. *)
Definition ExpireForTest (now : Instant) (f : Fake) : Fake := f <| f_expiresAt := now - Second |>.

Definition Fake_lease (f : Fake) : option Lease :=
  if (f_holder f =? "")%string then None else Some (mkLease (f_holder f) (f_epoch f) (f_expiresAt f)).

Definition Fake_ok (t : Instant) (f : Fake) : Prop :=
  0 < f_ttl f ≤ int64_max ∧ 0 ≤ f_epoch f ≤ int64_max ∧ (f_holder f ≠ "" → 0 < f_epoch f ∧ f_expiresAt f ≤ t + f_ttl f).

#[global] Instance Fake_Provider : Provider Fake := {|
  Acquire := Fake_Acquire; Renew := Fake_Renew; Read := Fake_Read;
  lease_of := Fake_lease; watermark := f_epoch; backend_ok := Fake_ok;
|}.

Lemma Fake_live t f :
  live t f = if heldLocked t f then Some (mkLease (f_holder f) (f_epoch f) (f_expiresAt f)) else None.
Proof.
  unfold live, heldLocked. simpl. unfold Fake_lease.
  destruct (f_holder f =? "")%string; [done|]. simpl. by destruct (t <? f_expiresAt f).
Qed.

Lemma time_sub_small a b : int64_min ≤ a - b ≤ int64_max → time_sub a b = a - b.
Proof. unfold time_sub. lia. Qed.

#[global] Instance Fake_laws : ProviderLaws Fake.
Proof.
  split.
  - intros t t' f (?&?&He) Ht. split_and!; try lia. intros Hh. specialize (He Hh). lia.
  - intros t f l (_&_&He). simpl. unfold Fake_lease. destruct (String.eqb_spec (f_holder f) ""); [done|].
    intros [= <-]. simpl. split; [done|]. by apply He.
  - intros t f (_&?&_). simpl. lia.
  - intros t id f l _ Hl. rewrite Fake_live in Hl. simpl. unfold Fake_Acquire, statusLocked.
    destruct (heldLocked t f); [|done]. simplify_eq/=. eauto.
  - intros t id f (Httl&He&_) Hl Hid Hroom. rewrite Fake_live in Hl. simpl in *. unfold Fake_Acquire.
    destruct (heldLocked t f); [done|].
    assert (wrap64 (f_epoch f + 1) = f_epoch f + 1) as -> by (apply wrap64_small; unfold int64_min; lia).
    exists (f_epoch f + 1), (f_ttl f), (t + f_ttl f), (mkFake id (f_epoch f + 1) (t + f_ttl f) (f_ttl f)).
    unfold statusLocked, heldLocked, Fake_lease, Fake_ok. simpl.
    apply String.eqb_neq in Hid as ->. simpl.
    replace (t <? t + f_ttl f) with true by lia. simpl.
    rewrite time_sub_small by (unfold int64_min; lia). replace (t + f_ttl f - t) with (f_ttl f) by lia.
    split_and!; try done; lia.
  - intros t id e f _ Hno. simpl. unfold Fake_Renew. specialize (Hno (f_expiresAt f)). rewrite Fake_live in Hno.
    destruct (heldLocked t f); [|done]. simpl.
    destruct (String.eqb_spec (f_holder f) id); [|done]. destruct (Z.eqb_spec (f_epoch f) e); [|done]. by subst.
  - intros t id e f x (Httl&He&Hx) Hl. rewrite Fake_live in Hl. simpl. unfold Fake_Renew.
    destruct (heldLocked t f) eqn:Hh; [|done]. simplify_eq/=. rewrite String.eqb_refl, Z.eqb_refl. simpl.
    unfold heldLocked in Hh. apply andb_prop in Hh as [Hne Hlt]. apply negb_true_iff in Hne.
    exists (f_ttl f), (t + f_ttl f), (f <| f_expiresAt := t + f_ttl f |>).
    unfold Fake_lease, Fake_ok. simpl. rewrite Hne. apply String.eqb_neq in Hne. specialize (Hx Hne).
    split_and!; try done; lia.
  - intros t f l _ Hl. rewrite Fake_live in Hl. simpl. unfold Fake_Read, statusLocked.
    destruct (heldLocked t f); simplify_eq/=. done.
  - intros t f _ Hl. rewrite Fake_live in Hl. simpl. unfold Fake_Read, statusLocked.
    by destruct (heldLocked t f).
Qed.

(** ** The Data Plane's last-seen epoch ([ha_fencing.go])

    [dpObserveEpoch] is called from the config poll, the heartbeat and certificate renewal,
    each on its own goroutine.  Its atomic operations are one step each: the load with the
    comparisons on the loaded value, the compare-and-swap, and the file write. *)

(** What [dp_last_seen_epoch.json] holds. *)
Inductive EpochFile := FileAbsent | FileCorrupt | FileEpoch (epoch : Z).

Record DP := mkDP {
  dpLastSeenEpoch : Z;
  dp_file : EpochFile;
  dataDir : string;
}.
#[global] Instance DP_eta : Eta DP := λ d, mkDP (dpLastSeenEpoch d) (dp_file d) (dataDir d).

(** [persistDPLastSeenEpoch]; [written] tells whether the atomic write succeeded. *)
Definition persistDPLastSeenEpoch (written : bool) (epoch : Z) (d : DP) : DP :=
  if (dataDir d =? "")%string then d
  else if written then d <| dp_file := FileEpoch epoch |> else d.

(** [loadDPLastSeenEpoch], before the first poll. *)
Definition loadDPLastSeenEpoch (d : DP) : DP :=
  if (dataDir d =? "")%string then d
  else match dp_file d with
       | FileEpoch e => if (0 <? e) && negb (e <=? dpLastSeenEpoch d) then d <| dpLastSeenEpoch := e |> else d
       | _ => d
       end.

(** A process restart: the ratchet is in memory only. *)
Definition dp_restart (d : DP) : DP := loadDPLastSeenEpoch (d <| dpLastSeenEpoch := 0 |>).

(** Where an observer of [epoch] is: before its next load, before the compare-and-swap of the
    value it loaded, before the file write, or returned. *)
Inductive ObsPc := ObsLoad | ObsCas (last : Z) | ObsPersist | ObsDone (ok : bool).

Definition obs_step (written : bool) (epoch : Z) (pc : ObsPc) (d : DP) : ObsPc * DP :=
  match pc with
  | ObsLoad =>
      let last := dpLastSeenEpoch d in
      if epoch <=? 0 then (ObsDone (negb (0 <? last)), d)
      else if epoch <? last then (ObsDone false, d)
      else if epoch =? last then (ObsDone true, d)
      else (ObsCas last, d)
  | ObsCas last =>
      if dpLastSeenEpoch d =? last then (ObsPersist, d <| dpLastSeenEpoch := epoch |>) else (ObsLoad, d)
  | ObsPersist => (ObsDone true, persistDPLastSeenEpoch written epoch d)
  | ObsDone ok => (ObsDone ok, d)
  end.

(** [dpObserveEpoch] without interference: three steps reach its return. *)
Definition dpObserveEpoch (written : bool) (epoch : Z) (d : DP) : bool * DP :=
  let step pcd := obs_step written epoch pcd.1 pcd.2 in
  let '(pc, d) := step (step (step (ObsLoad, d))) in
  (if pc is ObsDone ok then ok else false, d).

(** The process: the ratchet and the observers started so far. *)
Record DPSys := mkDPSys { sys_dp : DP; sys_obs : list (Z * ObsPc) }.
Inductive DPAct := DPObserve (epoch : Z) | DPStep (i : nat) (written : bool).

Definition dp_act (s : DPSys) (a : DPAct) : DPSys :=
  match a with
  | DPObserve epoch => mkDPSys (sys_dp s) (sys_obs s ++ [(epoch, ObsLoad)])
  | DPStep i written =>
      match sys_obs s !! i with
      | Some (epoch, pc) => let '(pc, d) := obs_step written epoch pc (sys_dp s) in
                            mkDPSys d (<[i := (epoch, pc)]> (sys_obs s))
      | None => s
      end
  end.
Definition dp_run (s : DPSys) (acts : list DPAct) : DPSys := fold_left dp_act acts s.

(** An observer past its load has an epoch greater than the one it loaded. *)
Definition obs_ok (o : Z * ObsPc) : Prop := if o.2 is ObsCas last then 0 < o.1 ∧ last < o.1 else True.
Definition dp_ok (s : DPSys) : Prop := Forall obs_ok (sys_obs s).

(** [seen] rules [epoch] out: it is lower, or there is none while a positive one was seen. *)
Definition ruled_out (seen epoch : Z) : Prop := (0 < epoch ∧ epoch < seen) ∨ (epoch ≤ 0 ∧ 0 < seen).
(** Not accepted: still before the swap, or rejected. *)
Definition unaccepted (pc : ObsPc) : Prop :=
  match pc with ObsLoad | ObsCas _ => True | ObsPersist => False | ObsDone ok => ok = false end.

Lemma persist_last w e d : dpLastSeenEpoch (persistDPLastSeenEpoch w e d) = dpLastSeenEpoch d.
Proof. unfold persistDPLastSeenEpoch. destruct (dataDir d =? "")%string, w; done. Qed.

Lemma obs_step_last w e pc d :
  obs_ok (e, pc) → dpLastSeenEpoch d ≤ dpLastSeenEpoch (obs_step w e pc d).2 ∧ obs_ok (e, (obs_step w e pc d).1).
Proof.
  unfold obs_ok. destruct pc as [|last| |ok]; simpl.
  - intros _. repeat case_if; simpl; bprop; split; try done; lia.
  - intros [??]. case_if; simpl; bprop; split; try done; lia.
  - intros _. rewrite persist_last. split; [lia|done].
  - intros _. split; [lia|done].
Qed.

Lemma obs_step_unaccepted w e pc d :
  obs_ok (e, pc) → ruled_out (dpLastSeenEpoch d) e → unaccepted pc → unaccepted (obs_step w e pc d).1.
Proof.
  unfold ruled_out, obs_ok. destruct pc as [|last| |ok]; simpl.
  - intros _ ? _. repeat case_if; simpl; bprop; try done; lia.
  - intros [??] ? _. case_if; bprop; [lia|done].
  - done.
  - done.
Qed.

Lemma dp_act_ok s a :
  dp_ok s → dp_ok (dp_act s a) ∧ dpLastSeenEpoch (sys_dp s) ≤ dpLastSeenEpoch (sys_dp (dp_act s a)).
Proof.
  unfold dp_ok. intros Hok. destruct a as [e|i w]; simpl.
  - split; [|lia]. apply Forall_app. split; [done|]. by repeat constructor.
  - destruct (sys_obs s !! i) as [[e pc]|] eqn:Hi; [|split; [done|lia]].
    pose proof (obs_step_last w e pc (sys_dp s) (Forall_lookup_1 _ _ _ _ Hok Hi)) as [Hl Ho].
    destruct (obs_step w e pc (sys_dp s)) as [pc' d']. simpl in *. split; [|done].
    by apply Forall_insert.
Qed.

Lemma dp_act_unaccepted s a i e pc :
  dp_ok s → sys_obs s !! i = Some (e, pc) → ruled_out (dpLastSeenEpoch (sys_dp s)) e → unaccepted pc →
  ∃ pc', sys_obs (dp_act s a) !! i = Some (e, pc') ∧ unaccepted pc'.
Proof.
  intros Hok Hi Hr Hu. destruct a as [e'|j w]; simpl.
  - exists pc. by rewrite (lookup_app_l_Some _ _ _ _ Hi).
  - destruct (sys_obs s !! j) as [[e' pc']|] eqn:Hj; [|by eauto].
    destruct (decide (j = i)) as [->|Hne].
    + simplify_eq. pose proof (obs_step_unaccepted w e pc (sys_dp s) (Forall_lookup_1 _ _ _ _ Hok Hi) Hr Hu) as Hu'.
      destruct (obs_step w e pc (sys_dp s)) as [pc'' d']. simpl in *. exists pc''.
      split; [|done]. apply list_lookup_insert_eq. by eapply lookup_lt_Some.
    + destruct (obs_step w e' pc' (sys_dp s)) as [pc'' d']. simpl. exists pc.
      by rewrite list_lookup_insert_ne.
Qed.

Lemma ruled_out_mono s s' e : s ≤ s' → ruled_out s e → ruled_out s' e.
Proof. unfold ruled_out. lia. Qed.

(** Whatever the interleaving of the observers, the Data Plane's last-seen epoch never
    decreases while the process runs, and once an epoch has been seen, no message that is still
    before its compare-and-swap and carries a lower epoch, or none, is ever accepted. *)
Theorem dp_ratchet s acts :
  dp_ok s →
  dpLastSeenEpoch (sys_dp s) ≤ dpLastSeenEpoch (sys_dp (dp_run s acts)) ∧
  ∀ i e pc, sys_obs s !! i = Some (e, pc) → unaccepted pc → ruled_out (dpLastSeenEpoch (sys_dp s)) e →
    ∃ pc', sys_obs (dp_run s acts) !! i = Some (e, pc') ∧ unaccepted pc'.
Proof.
  unfold dp_run. revert s. induction acts as [|a acts IH]; simpl; intros s Hok; [split; [lia|eauto]|].
  destruct (dp_act_ok s a Hok) as [Hok' Hl]. destruct (IH _ Hok') as [Hl' Hr']. split; [lia|].
  intros i e pc Hi Hu Hr. destruct (dp_act_unaccepted s a i e pc Hok Hi Hr Hu) as (pc'&Hi'&Hu').
  apply (Hr' i e pc' Hi' Hu'). by eapply ruled_out_mono.
Qed.

(** Epoch 7 was seen; an observer of epoch 4 that starts now is refused. *)
Lemma dp_ratchet_witness :
  let s := dp_run (mkDPSys (mkDP 0 FileAbsent "/data") [])
             [DPObserve 7; DPStep 0 true; DPStep 0 true; DPStep 0 true; DPObserve 4] in
  sys_obs s !! 1%nat = Some (4, ObsLoad) ∧
  ∃ pc, sys_obs (dp_run s [DPStep 1 true; DPStep 1 true]) !! 1%nat = Some (4, pc) ∧ unaccepted pc.
Proof.
  intros s. split; [by vm_compute|].
  apply (proj2 (dp_ratchet s [DPStep 1 true; DPStep 1 true] ltac:(repeat constructor)) 1%nat 4 ObsLoad);
    [by vm_compute|done|left; vm_compute; split; reflexivity].
Defined.

(** One at a time and with every write succeeding, the file follows the ratchet. *)
Lemma dp_observe_file e d :
  (dataDir d ≠ "") → 0 < dpLastSeenEpoch d → dp_file d = FileEpoch (dpLastSeenEpoch d) →
  let d' := (dpObserveEpoch true e d).2 in
  0 < dpLastSeenEpoch d' ∧ dp_file d' = FileEpoch (dpLastSeenEpoch d') ∧ dataDir d' = dataDir d.
Proof.
  intros Hd Hp Hf. unfold dpObserveEpoch, obs_step. simpl. apply String.eqb_neq in Hd.
  destruct (e <=? 0) eqn:E0; simpl; [done|]. destruct (e <? _) eqn:E1; simpl; [done|].
  destruct (e =? _) eqn:E2; simpl; [done|]. rewrite Z.eqb_refl. simpl.
  unfold persistDPLastSeenEpoch. simpl. rewrite Hd. simpl. bprop. split_and!; try done; lia.
Qed.

Lemma dp_restart_file d : dataDir d ≠ "" → 0 < dpLastSeenEpoch d → dp_file d = FileEpoch (dpLastSeenEpoch d) →
  dpLastSeenEpoch (dp_restart d) = dpLastSeenEpoch d.
Proof.
  intros Hd Hp Hf. unfold dp_restart, loadDPLastSeenEpoch. simpl. apply String.eqb_neq in Hd as ->.
  rewrite Hf. simpl. replace (0 <? dpLastSeenEpoch d) with true by lia.
  by replace (dpLastSeenEpoch d <=? 0) with false by lia.
Qed.

(** The order of the two file writes of concurrent observers is not that of their swaps: a
    schedule with every write succeeding leaves the ratchet at the newer epoch and the older one
    in the file, so that after a restart a message of the older epoch is accepted again. *)
Theorem dp_restart_regresses :
  ∃ acts, let s := dp_run (mkDPSys (mkDP 0 FileAbsent "/data") []) acts in
    (∀ i w, DPStep i w ∈ acts → w = true) ∧
    sys_obs s = [(5, ObsDone true); (6, ObsDone true)] ∧
    dpLastSeenEpoch (sys_dp s) = 6 ∧ (dpObserveEpoch true 5 (sys_dp s)).1 = false ∧
    dpLastSeenEpoch (dp_restart (sys_dp s)) = 5 ∧ (dpObserveEpoch true 5 (dp_restart (sys_dp s))).1 = true.
Proof.
  exists [DPObserve 5; DPObserve 6; DPStep 0 true; DPStep 0 true; DPStep 1 true; DPStep 1 true; DPStep 1 true; DPStep 0 true].
  split; [|by vm_compute]. intros i w Hin. repeat (apply elem_of_cons in Hin as [Hin|Hin]; [by simplify_eq|]). by apply elem_of_nil in Hin.
Qed.
