(* ===== verification/HANode.v ===== *)
(** * One node of the HA control plane ([ha.go], [ha_lease.go], [ha_failover.go],
    [ha_lease_recovery.go], [ha_fencing.go], [ha_failover_ring.go])

    [HAState] is the leadership state of one process with its configuration file, the ring of
    role transitions and the alerts it fired.  Every lock-protected section is a definition;
    an operation that calls the lease backend in between is given as the sections around the
    call ([promote_begin], [promote_acquired], [promote_complete]; [renew_begin], [renew_end];
    [recovery_begin], [recovery_end]) and, where the source has one function, as their
    composition over the call's answer ([promote], [leaseRenewOnce], [leaseRecoveryAttempt]).
    [now] is the reading of the node's clock in a section; an answer is [RpcErr] when the call
    failed, which says nothing about the backend.  A goroutine is represented by the channel
    that stops it.  Logging and metrics are not modelled.

    - [resume_terminates]: a restarted leader asks the backend a bounded number of times, for a
      bounded time, whatever the answers.
    - [unconfirmed_round_fails_closed]: a keepalive round that did not confirm the lease never
      extends write authority, and takes the leader role once the confirmed window is over.
    - [auto_promotion_gated]: what an automatic promotion implies.
    - [failback_target_lost]: a run after which the address a demoted leader resyncs from is
      in memory and not in the file, and stays so. *)

From S2P Require Import Prelude GoStrings HALease.

(** ** Configuration *)

Definition haLeaseOpTimeout : Duration := 5 * Second.
Definition haLeaseWriteMargin : Duration := 1 * Second.
Definition haLeaseMinTick : Duration := 20 * 10 ^ 6.
Definition haLeaseMaxTick : Duration := 2 * Second.
Definition haPromoteFreshnessWindow : Duration := 10 * Minute.
Definition haRepromoteCooldown : Duration := 30 * Second.
Definition haResumeGhostWait : Duration := 45 * Second.
Definition haResumeUnreachableWait : Duration := 5 * Second.
Definition haLeaseResumeRetryBackoff : Duration := 2 * Second.
Definition haLeaseRecoveryMinBackoff : Duration := 1 * Second.
Definition haLeaseRecoveryMaxBackoff : Duration := 30 * Second.
Definition haLeaseMinTTLSec : Z := 3.
Definition haStandbyMaxFail : Z := 3.
Definition haFailoverMaxEvents : nat := 64.

Record haConfig := mkHAConfig {
  cfg_Enabled : bool; cfg_Token : string; cfg_PeerAddr : string; cfg_Role : string;
  cfg_AutoFailover : bool; cfg_Term : Z; cfg_StandbyAddr : string;
}.

(** ** State *)

Record promoteContext := mkPC {
  pc_grpcAddr : string; pc_certFile : string; pc_keyFile : string; pc_caFile : string;
  pc_onPromote : bool;   (* the hook is not nil *)
  pc_set : bool;
}.
Record haResyncContext := mkRC {
  rc_grpcAddr : string; rc_certFile : string; rc_keyFile : string; rc_caFile : string; rc_set : bool;
}.
Record haFailoverEvent := mkEvent { ev_TS : Instant; ev_From : string; ev_To : string; ev_Reason : string; ev_Epoch : Z }.

Record HAState := mkHA {
  role : string; token : string; peerAddr : string; standbyAddr : string;
  since : option Instant; autoFailover : bool; term : Z;
  pc : promoteContext;
  stopCh : option nat; stopping : bool;
  plannedPromotion : bool; promoted : bool;
  lease : bool;          (* a provider is installed *)
  leaseCandidateID : string; leaseEpoch : Z;
  leaseConfirmedAt : option Instant; leaseValidFor : Duration;
  leaseStopCh : option nat; leaseRecoveryCh : option nat; leaseTTL : Duration;
  resync : haResyncContext;
  lastSyncOK : option Instant; lastSelfFence : option Instant;
  syncFailCount : Z; syncPanics : Z; syncPanicAlerted : bool;
  (* outside the struct: the channels made so far, the file, the ring, the alerts *)
  next_ch : nat; disk : option haConfig; disk_ok : bool;
  ring : list haFailoverEvent; fired : list string;
}.
#[global] Instance HAState_eta : Eta HAState := λ h,
  mkHA (role h) (token h) (peerAddr h) (standbyAddr h) (since h) (autoFailover h) (term h) (pc h)
    (stopCh h) (stopping h) (plannedPromotion h) (promoted h) (lease h) (leaseCandidateID h) (leaseEpoch h)
    (leaseConfirmedAt h) (leaseValidFor h) (leaseStopCh h) (leaseRecoveryCh h) (leaseTTL h) (resync h)
    (lastSyncOK h) (lastSelfFence h) (syncFailCount h) (syncPanics h) (syncPanicAlerted h)
    (next_ch h) (disk h) (disk_ok h) (ring h) (fired h).

(** [&HAState{}] beside a configuration file. *)
Definition newHAState (d : option haConfig) : HAState :=
  mkHA "" "" "" "" None false 0 (mkPC "" "" "" "" false false) None false false false false "" 0
    None 0 None None 0 (mkRC "" "" "" "" false) None None 0 0 false 0 d true [] [].

(** [time.Since]; the zero time is further back than a [Duration] can say. *)
Definition time_since (now : Instant) (t : option Instant) : Duration :=
  match t with Some t => time_sub now t | None => int64_max end.

(** What a call to the backend gives. *)
Inductive Rpc (A : Type) := RpcOk (a : A) | RpcErr.
Arguments RpcOk {_} _.
Arguments RpcErr {_}.

(** ** Small operations *)

Definition termFromEpoch (epoch : Z) : Z := if epoch <? 0 then 0 else epoch.
Definition boundedErr (s : string) : string := if (256 <? Z.of_nat (String.length s)) then substring 0 256 s ++ "…" else s.

Definition SetLeaseProvider (p : bool) (candidateID : string) (h : HAState) : HAState :=
  h <| lease := p |> <| leaseCandidateID := candidateID |>.
Definition SetLeaseTTL (d : Duration) (h : HAState) : HAState := h <| leaseTTL := d |>.
Definition SetResyncMaterial (grpcAddr certFile keyFile caFile : string) (h : HAState) : HAState :=
  h <| resync := mkRC grpcAddr certFile keyFile caFile true |>.
Definition leaseConfigured (h : HAState) : bool := lease h.
Definition markSyncOK (now : Instant) (h : HAState) : HAState := h <| lastSyncOK := Some now |>.
Definition setSyncFailCount (n : Z) (h : HAState) : HAState := h <| syncFailCount := n |>.
Definition clearSyncPanicAlert (h : HAState) : HAState := h <| syncPanicAlerted := false |>.
Definition IsLeader (h : HAState) : bool := (role h =? "leader")%string.
Definition autoFailoverEnabled (h : HAState) : bool := autoFailover h.
Definition StandbyAddr (h : HAState) : string := standbyAddr h.
Definition advertiseAddr (h : HAState) : string := pc_grpcAddr (pc h).
Definition VerifyToken (tok : string) (h : HAState) : bool := negb (token h =? "")%string && (token h =? tok)%string.
Definition RequestPlannedPromotion (h : HAState) : HAState := h <| plannedPromotion := true |>.
Definition ClearPlannedPromotion (h : HAState) : HAState := h <| plannedPromotion := false |>.

Definition Fire (event : string) (h : HAState) : HAState := h <| fired := (fired h ++ [event])%list |>.

(** [haFailoverRing.record] and [list]. *)
Definition record (from to reason : string) (epoch : Z) (now : Instant) (h : HAState) : HAState :=
  let events := (ring h ++ [mkEvent now from to (boundedErr reason) epoch])%list in
  h <| ring := if (haFailoverMaxEvents <? length events)%nat
               then drop (length events - haFailoverMaxEvents) events else events |>.
Definition ring_list (h : HAState) : list haFailoverEvent := reverse (ring h).

(** [saveHAConfig]: every caller drops the error. *)
Definition saveHAConfig (cfg : haConfig) (h : HAState) : HAState :=
  if disk_ok h then h <| disk := Some cfg |> else h.

Definition snapshotConfigLocked (h : HAState) : haConfig :=
  mkHAConfig (negb (role h =? "")%string) (token h) (peerAddr h) (role h) (autoFailover h) (term h) (standbyAddr h).

Definition haRestartAction (cfg : option haConfig) : string :=
  match cfg with
  | None => "none"
  | Some cfg => if negb (cfg_Enabled cfg) then "none"
                else if (cfg_Role cfg =? "standby")%string then "standby" else "leader"
  end.

Definition RecordStandbyAddr (addr : string) (h : HAState) : HAState :=
  if (addr =? "")%string then h
  else if negb (role h =? "leader")%string || (standbyAddr h =? addr)%string then h
  else let h := h <| standbyAddr := addr |> in saveHAConfig (snapshotConfigLocked h) h.

Definition notePanicRound (h : HAState) : HAState :=
  let first := negb (syncPanicAlerted h) in
  let h := h <| syncPanics := wrap64 (syncPanics h + 1) |> <| syncPanicAlerted := true |> in
  if first then Fire "ha_sync_panic" h else h.

Definition seedTermFromLeader (leaderTerm : Z) (h : HAState) : HAState :=
  if negb (role h =? "leader")%string && (term h <? leaderTerm) then h <| term := leaderTerm |> else h.

(** ** Write authority *)

Definition WriteAllowed (now : Instant) (h : HAState) : bool :=
  if negb (lease h) then true
  else if leaseEpoch h =? 0 then false
  else time_since now (leaseConfirmedAt h) <? leaseValidFor h - haLeaseWriteMargin.

Definition CurrentEpoch (h : HAState) : Z := if lease h then leaseEpoch h else 0.

Definition haIssuanceAllowed (now : Instant) (h : HAState) : bool * string :=
  if (role h =? "")%string then (true, "")
  else if negb (role h =? "leader")%string then (false, "this node is not the HA leader")
  else if negb (WriteAllowed now h) then (false, "fencing lease not held or unconfirmed (write authority off)")
  else (true, "").

Definition leaseHealth (now : Instant) (h : HAState) : string * bool * Z :=
  if negb (lease h) then ("none", false, 0) else ("lease", WriteAllowed now h, leaseEpoch h).

(** [verifyBundleEpoch], over the answer of the backend's [Read]. *)
Definition verifyBundleEpoch (bundleEpoch : Z) (r : Rpc Status) (h : HAState) : bool :=
  if negb (lease h) then true
  else match r with
       | RpcErr => false
       | RpcOk st => if (Holder st =? "")%string then false else negb (bundleEpoch <? Epoch st)
       end.

(** ** Loops *)

Definition close_stopCh (h : HAState) : HAState := h <| stopCh := None |>.
Definition stopLeaseKeepalive (h : HAState) : HAState := h <| leaseStopCh := None |>.
Definition stopLeaseRecovery (h : HAState) : HAState := h <| leaseRecoveryCh := None |>.
Definition stopLoops (h : HAState) : HAState := stopLeaseRecovery (stopLeaseKeepalive (close_stopCh h)).
(** [Stop] up to its wait, and after it. *)
Definition Stop_begin (h : HAState) : HAState := stopLoops (h <| stopping := true |>).
Definition Stop_end (h : HAState) : HAState := h <| stopping := false |>.

Definition startLeaseKeepalive (h : HAState) : HAState :=
  if negb (lease h) || (leaseEpoch h =? 0) || bool_decide (leaseStopCh h ≠ None) || stopping h then h
  else h <| leaseStopCh := Some (next_ch h) |> <| next_ch := S (next_ch h) |>.

(** The keepalive interval of [startLeaseKeepalive]. *)
Definition keepalive_tick (validFor : Duration) : Duration :=
  let tick := Z.quot validFor 3 in
  let tick := if tick <? haLeaseMinTick then haLeaseMinTick else tick in
  if haLeaseMaxTick <? tick then haLeaseMaxTick else tick.

Definition startLeaseRecovery (h : HAState) : HAState :=
  if negb (lease h) || negb (leaseEpoch h =? 0) || negb (role h =? "leader")%string
     || bool_decide (leaseRecoveryCh h ≠ None) || stopping h then h
  else h <| leaseRecoveryCh := Some (next_ch h) |> <| next_ch := S (next_ch h) |>.
Definition leaseRecoveryActive (h : HAState) : bool := bool_decide (leaseRecoveryCh h ≠ None).
Definition clearLeaseRecoveryHandle (stop : nat) (h : HAState) : HAState :=
  if bool_decide (leaseRecoveryCh h = Some stop) then h <| leaseRecoveryCh := None |> else h.

Definition recoveryPollCeiling (h : HAState) : Duration :=
  let ttl := if leaseTTL h <=? 0 then haLeaseMinTTLSec * Second else leaseTTL h in
  let ceiling := Z.quot ttl 2 in
  let ceiling := if ceiling <? haLeaseRecoveryMinBackoff then haLeaseRecoveryMinBackoff else ceiling in
  if haLeaseRecoveryMaxBackoff <? ceiling then haLeaseRecoveryMaxBackoff else ceiling.
(** The backoff of [leaseRecoveryLoop] after [n] rounds. *)
Fixpoint recovery_backoff (ceiling : Duration) (n : nat) : Duration :=
  match n with
  | O => haLeaseRecoveryMinBackoff
  | S n => let b := recovery_backoff ceiling n * 2 in if ceiling <? b then ceiling else b
  end.

(** ** Standby *)

Definition StartAsStandby (now : Instant) (leaderAddr tok grpcAddr certFile keyFile caFile : string)
    (auto onPromote : bool) (h : HAState) : HAState :=
  if stopping h then h
  else
    let h := h <| role := "standby" |> <| peerAddr := leaderAddr |> <| token := tok |> <| since := Some now |>
               <| autoFailover := auto |> <| syncFailCount := 0 |>
               <| pc := mkPC grpcAddr certFile keyFile caFile onPromote true |> <| promoted := false |>
               <| stopCh := Some (next_ch h) |> <| next_ch := S (next_ch h) |> in
    saveHAConfig (mkHAConfig true tok leaderAddr "standby" auto 0 "") h.

Definition enterStandbyResync (now : Instant) (h : HAState) : bool * HAState :=
  let rc := resync h in
  if (standbyAddr h =? "")%string then (false, h)
  else if negb (rc_set rc) then (false, h)
  else (true, StartAsStandby now (standbyAddr h) (token h) (rc_grpcAddr rc) (rc_certFile rc) (rc_keyFile rc)
                (rc_caFile rc) (autoFailover h) true h).

(** ** The lease *)

(** [acquireLeaseAttempt]: the section after the call. *)
Definition acquireLeaseAttempt (now : Instant) (r : Rpc (bool * Status)) (h : HAState)
    : (bool * Status * bool) * HAState :=
  if negb (lease h) then ((true, zeroStatus, false), h)
  else match r with
       | RpcErr => ((false, zeroStatus, true), h)
       | RpcOk (false, st) => ((false, st, false), h)
       | RpcOk (true, st) =>
           ((true, st, false), h <| leaseEpoch := Epoch st |> <| leaseConfirmedAt := Some now |> <| leaseValidFor := ValidFor st |>)
       end.
Definition acquireLeaseForLeadership (now : Instant) (r : Rpc (bool * Status)) (h : HAState) : bool * HAState :=
  let '((granted, _, _), h) := acquireLeaseAttempt now r h in (granted, h).

Definition selfFence (now : Instant) (reason : string) (h : HAState) : HAState :=
  if negb (role h =? "leader")%string then h
  else
    let fencedEpoch := leaseEpoch h in
    let h := h <| role := "standby" |> <| since := Some now |> <| leaseEpoch := 0 |> <| leaseStopCh := None |>
               <| lastSelfFence := Some now |> in
    let h := saveHAConfig (snapshotConfigLocked h) h in
    let h := record "leader" "standby" ("self-fence: " ++ reason) fencedEpoch now h in
    let h := h <| promoted := false |> in
    let h := Fire "ha_self_fenced" h in
    (enterStandbyResync now h).2.

(** [leaseRenewOnce]: what it reads before the call, and what it does with the answer.  The text
    of a failed call's error is left out of the reason. *)
Record RenewSnap := mkSnap { sn_id : string; sn_epoch : Z; sn_confirmedAt : option Instant; sn_validFor : Duration }.
Definition renew_begin (h : HAState) : option RenewSnap :=
  if negb (lease h) || (leaseEpoch h =? 0) then None
  else Some (mkSnap (leaseCandidateID h) (leaseEpoch h) (leaseConfirmedAt h) (leaseValidFor h)).
Definition renew_end (now : Instant) (sn : RenewSnap) (r : Rpc (bool * Duration)) (h : HAState) : bool * HAState :=
  match r with
  | RpcOk (true, validNow) => (false, h <| leaseConfirmedAt := Some now |> <| leaseValidFor := validNow |>)
  | RpcOk (false, _) => (true, selfFence now "fencing lease lost (superseded or expired)" h)
  | RpcErr => if sn_validFor sn - haLeaseWriteMargin <=? time_since now (sn_confirmedAt sn)
              then (true, selfFence now "fencing lease unconfirmed beyond validity window" h) else (false, h)
  end.
Definition leaseRenewOnce (now : Instant) (r : Rpc (bool * Duration)) (h : HAState) : bool * HAState :=
  match renew_begin h with Some sn => renew_end now sn r h | None => (false, h) end.

Definition fenceIfLeaseWindowElapsed (now : Instant) (reason : string) (h : HAState) : bool * HAState :=
  if negb (lease h) || (leaseEpoch h =? 0) then (true, h)
  else if leaseValidFor h - haLeaseWriteMargin <=? time_since now (leaseConfirmedAt h)
       then (true, selfFence now reason h) else (false, h).
(** [leaseRenewRound]: [None] is a round that panicked. *)
Definition leaseRenewRound (now : Instant) (r : option (Rpc (bool * Duration))) (h : HAState) : bool * HAState :=
  match r with
  | Some r => leaseRenewOnce now r h
  | None => fenceIfLeaseWindowElapsed now "fencing lease unconfirmed: keepalive round aborted by a recovered panic" h
  end.

(** ** Promotion *)

(** The hook a promotion runs (starting the gRPC server): done, failed or panicked. *)
Inductive Hook := HookOk | HookErr | HookPanic.

Definition promote_begin (h : HAState) : bool * HAState :=
  if promoted h then (false, h)
  else let h := h <| promoted := true |> in
       if negb (pc_set (pc h)) || negb (pc_onPromote (pc h)) then (false, h <| promoted := false |>) else (true, h).

Definition promote_acquired (now : Instant) (r : Rpc (bool * Status)) (h : HAState) : bool * HAState :=
  let '(granted, h) := acquireLeaseForLeadership now r h in
  if negb granted then (false, h <| promoted := false |>) else (true, h).

Definition promote_complete (now : Instant) (out : Hook) (reason : string) (h : HAState) : HAState :=
  match out with
  | HookPanic | HookErr => h <| promoted := false |>
  | HookOk =>
      let h := h <| role := "leader" |> <| since := Some now |>
                 <| term := if lease h then termFromEpoch (leaseEpoch h) else (term h + 1) mod 2 ^ 64 |> in
      let cfg := mkHAConfig true (token h) (peerAddr h) "leader" (autoFailover h) (term h) "" in
      let h := record "standby" "leader" reason (leaseEpoch h) now h in
      startLeaseKeepalive (stopLoops (saveHAConfig cfg h))
  end.

Definition promote (now : Instant) (r : Rpc (bool * Status)) (out : Hook) (reason : string) (h : HAState) : HAState :=
  let '(go, h) := promote_begin h in
  if negb go then h else
  let '(go, h) := promote_acquired now r h in
  if negb go then h else promote_complete now out reason h.

(** [PromoteManually]: [true] is its nil error. *)
Definition PromoteManually (now : Instant) (r : Rpc (bool * Status)) (out : Hook) (h : HAState) : bool * HAState :=
  if negb (role h =? "standby")%string then (false, h)
  else if negb (pc_set (pc h)) then (false, h)
  else let h := promote now r out "manual promotion" h in (IsLeader h, h).

(** The gates of [leaseAutoPromote] in front of [promote]. *)
Definition auto_promote_gate (now : Instant) (h : HAState) : bool :=
  if bool_decide (lastSelfFence h ≠ None) && (time_since now (lastSelfFence h) <? haRepromoteCooldown) then false
  else if bool_decide (lastSyncOK h = None) then false
  else negb (haPromoteFreshnessWindow <? time_since now (lastSyncOK h)).
Definition leaseAutoPromote (now : Instant) (r : Rpc (bool * Status)) (out : Hook) (h : HAState) : bool * HAState :=
  if auto_promote_gate now h
  then let h := promote now r out "leader unreachable (lease-arbitrated auto-failover)" h in (IsLeader h, h)
  else (false, h).

(** ** Leader *)

(** [EnableAsLeader]; [tok] is the token drawn. [None] is its error. *)
Definition EnableAsLeader (now : Instant) (r : Rpc (bool * Status)) (tok peer : string) (auto : bool) (h : HAState)
    : option string * HAState :=
  let '(granted, h) := acquireLeaseForLeadership now r h in
  if negb granted then (None, h)
  else
    let h := h <| role := "leader" |> <| peerAddr := peer |> <| since := Some now |> <| autoFailover := auto |>
               <| term := if lease h then termFromEpoch (leaseEpoch h) else 1 |> <| token := tok |>
               <| stopCh := Some (next_ch h) |> <| next_ch := S (next_ch h) |> in
    let h := saveHAConfig (mkHAConfig true (token h) peer "leader" auto (term h) "") h in
    (Some tok, startLeaseKeepalive h).

(** [resumeAcquireRound]: the outcome of one round. *)
Inductive resumeOutcome := resumeGranted | resumeForeign | resumeOwnGhost | resumeUnknown | resumeRaceRetryable.
Definition resumeAcquireRound (now : Instant) (r : Rpc (bool * Status)) (h : HAState) : (resumeOutcome * Status) * HAState :=
  let id := leaseCandidateID h in
  let '((granted, st, err), h) := acquireLeaseAttempt now r h in
  if granted then ((resumeGranted, st), h)
  else if (err : bool) then ((resumeUnknown, zeroStatus), h)
  else if (Holder st =? id)%string then ((resumeOwnGhost, st), h)
  else if negb (Holder st =? "")%string then ((resumeForeign, st), h)
  else ((resumeRaceRetryable, st), h).

Definition ghostRetryWait (validFor : Duration) : Duration :=
  let wait := validFor + Second in
  if (5 * Second <? wait) || (wait <=? Second) then 5 * Second else wait.

(** One turn of the loop of [acquireLeaseForResume], after its round: return, or sleep. *)
Definition resume_turn (now ghostDeadline unreachableDeadline : Instant) (o : resumeOutcome) (st : Status)
    : (bool * bool) + Duration :=
  match o with
  | resumeGranted => inl (true, false)
  | resumeForeign => inl (false, true)
  | resumeOwnGhost => if ghostDeadline <? now then inl (false, false) else inr (ghostRetryWait (ValidFor st))
  | _ => if unreachableDeadline <? now then inl (false, false) else inr haLeaseResumeRetryBackoff
  end.

(** The loop over the answers its rounds get and the time each call takes; [None] when the
    answers run out before it returns.  The result comes with the time of the return. *)
Fixpoint resume_loop (answers : list (Rpc (bool * Status) * Duration)) (now ghostDeadline unreachableDeadline : Instant)
    (h : HAState) : option ((bool * bool) * Instant * HAState) :=
  match answers with
  | [] => None
  | (r, d) :: answers =>
      let now := now + d in
      let '((o, st), h) := resumeAcquireRound now r h in
      match resume_turn now ghostDeadline unreachableDeadline o st with
      | inl res => Some (res, now, h)
      | inr wait => resume_loop answers (now + wait) ghostDeadline unreachableDeadline h
      end
  end.
Definition acquireLeaseForResume (answers : list (Rpc (bool * Status) * Duration)) (now : Instant) (h : HAState)
    : option ((bool * bool) * Instant * HAState) :=
  if negb (lease h) then Some ((true, false), now, h)
  else resume_loop answers now (now + haResumeGhostWait) (now + haResumeUnreachableWait) h.

(** [ResumeAsLeader] after [acquireLeaseForResume]. *)
Definition resume_complete (now : Instant) (cfg : haConfig) (leaseGranted foreignHolder : bool) (h : HAState) : HAState :=
  let '(standby, h) :=
    if negb leaseGranted && leaseConfigured h && foreignHolder
    then enterStandbyResync now (h <| token := cfg_Token cfg |> <| standbyAddr := cfg_StandbyAddr cfg |>
                                   <| autoFailover := cfg_AutoFailover cfg |>)
    else (false, h) in
  if (standby : bool) then h
  else
    let h := h <| role := "leader" |> <| peerAddr := cfg_PeerAddr cfg |> <| token := cfg_Token cfg |>
               <| autoFailover := cfg_AutoFailover cfg |>
               <| term := if lease h && leaseGranted then termFromEpoch (leaseEpoch h) else cfg_Term cfg |>
               <| standbyAddr := cfg_StandbyAddr cfg |> <| since := Some now |>
               <| stopCh := Some (next_ch h) |> <| next_ch := S (next_ch h) |> in
    let h := if lease h && negb leaseGranted
             then let h := Fire "ha_resume_unfenced" h in if negb foreignHolder then startLeaseRecovery h else h
             else h in
    saveHAConfig cfg (startLeaseKeepalive h).
Definition ResumeAsLeader (answers : list (Rpc (bool * Status) * Duration)) (now : Instant) (cfg : haConfig) (h : HAState)
    : option HAState :=
  '((granted, foreign), now, h) ← acquireLeaseForResume answers now h;
  Some (resume_complete now cfg granted foreign h).

(** ** Recovery of an unfenced leader *)

Definition handleForeignFenceHolder (now : Instant) (epoch : Z) (h : HAState) : HAState :=
  if negb (role h =? "leader")%string then h
  else
    let h := h <| lastSelfFence := Some now |> in
    let '(standby, h) := enterStandbyResync now h in
    if (standby : bool)
    then Fire "ha_self_fenced" (record "leader" "standby" "fence taken by another node while unfenced" epoch now h)
    else Fire "ha_resume_unfenced" h.

Definition completeLeaseRecovery (h : HAState) : HAState :=
  let h := h <| term := termFromEpoch (leaseEpoch h) |> in
  Fire "ha_lease_reacquired" (startLeaseKeepalive (saveHAConfig (snapshotConfigLocked h) h)).

(** [leaseRecoveryAttempt] around its call; [true] ends the loop. *)
Definition recovery_begin (h : HAState) : option string :=
  if negb (lease h) || negb (role h =? "leader")%string || negb (leaseEpoch h =? 0) then None
  else Some (leaseCandidateID h).
Definition recovery_end (now : Instant) (id : string) (r : Rpc (bool * Status)) (h : HAState) : bool * HAState :=
  let '((granted, st, err), h) := acquireLeaseAttempt now r h in
  if (err : bool) then (false, h)
  else if negb granted && negb (Holder st =? "")%string && negb (Holder st =? id)%string
       then (true, handleForeignFenceHolder now (Epoch st) h)
  else if negb granted then (false, h)
  else (true, completeLeaseRecovery h).
Definition leaseRecoveryAttempt (now : Instant) (r : Rpc (bool * Status)) (h : HAState) : bool * HAState :=
  match recovery_begin h with Some id => recovery_end now id r h | None => (true, h) end.
(** [leaseRecoveryRound]: a panic is a round that did not recover. *)
Definition leaseRecoveryRound (now : Instant) (r : option (Rpc (bool * Status))) (h : HAState) : bool * HAState :=
  match r with Some r => leaseRecoveryAttempt now r h | None => (false, h) end.

(** ** The standby's sync loop *)

Record HAStateBundle := mkBundle { b_Epoch : Z; b_LeaderTerm : Z; b_PromoteRequested : bool }.

(** What one sync attempt meets: the bundle of the leader (or no answer), the backend's
    [Read], whether [applyHABundle] applied it, and what a planned promotion would meet. *)
Record SyncEnv := mkSync {
  sy_bundle : option HAStateBundle; sy_read : Rpc Status; sy_applied : bool;
  sy_acquire : Rpc (bool * Status); sy_hook : Hook;
}.

Definition syncFromLeader (now : Instant) (e : SyncEnv) (h : HAState) : bool * HAState :=
  match sy_bundle e with
  | None => (false, h)
  | Some b =>
      if negb (verifyBundleEpoch (b_Epoch b) (sy_read e) h) then (false, h)
      else
        let ok := sy_applied e in
        let h := if ok then seedTermFromLeader (b_LeaderTerm b) (markSyncOK now h) else h in
        let h := if ok && b_PromoteRequested b && negb (IsLeader h)
                 then promote now (sy_acquire e) (sy_hook e) "planned handoff requested by leader" h else h in
        (ok, h)
  end.

Record standbyLoopState := mkLoop { client : bool; failCount : Z; manualWarned : bool }.
#[global] Instance standbyLoopState_eta : Eta standbyLoopState := λ s, mkLoop (client s) (failCount s) (manualWarned s).

Definition setFail (n : Z) (s : standbyLoopState) (h : HAState) : standbyLoopState * HAState :=
  (s <| failCount := n |>, setSyncFailCount n h).

(** What one tick meets: whether the client could be made, the sync attempt, whether the loop
    was cancelled meanwhile, and the environment of a promotion. *)
Record TickEnv := mkTick {
  tk_dial : bool; tk_sync : SyncEnv; tk_cancelled : bool; tk_acquire : Rpc (bool * Status); tk_hook : Hook;
}.

Definition onMaxFail (now : Instant) (e : TickEnv) (s : standbyLoopState) (h : HAState) : bool * standbyLoopState * HAState :=
  if leaseConfigured h
  then let '(up, h) := leaseAutoPromote now (tk_acquire e) (tk_hook e) h in (up, s, h)
  else if autoFailoverEnabled h
  then let h := promote now (tk_acquire e) (tk_hook e) "leader unreachable" h in (IsLeader h, s, h)
  else if manualWarned s then (false, s, h)
  else (false, s <| manualWarned := true |>, Fire "ha_manual_failover_required" h).

Definition after_fail (now : Instant) (e : TickEnv) (s : standbyLoopState) (h : HAState) : bool * standbyLoopState * HAState :=
  let '(s, h) := setFail (failCount s + 1) s h in
  if haStandbyMaxFail <=? failCount s then onMaxFail now e s h else (false, s, h).

Definition tick (now : Instant) (e : TickEnv) (s : standbyLoopState) (h : HAState) : bool * standbyLoopState * HAState :=
  if negb (client s) && negb (tk_dial e) then after_fail now e s h
  else
    let s := s <| client := true |> in
    let '(ok, h) := syncFromLeader now (tk_sync e) h in
    if (ok : bool)
    then let '(s, h) := setFail 0 s h in (false, s <| manualWarned := false |>, clearSyncPanicAlert h)
    else if tk_cancelled e then (true, s, h)
    else after_fail now e s h.

(** A round, or where it panicked: making the client, or fetching and applying the bundle.  (A
    panic of the promotion hook is contained inside [promote].) *)
Inductive TickRound := Round (e : TickEnv) | PanicInDial | PanicInSync.
Definition guardedTick (now : Instant) (r : TickRound) (s : standbyLoopState) (h : HAState)
    : bool * standbyLoopState * HAState :=
  match r with
  | Round e => tick now e s h
  | PanicInDial => (false, s, notePanicRound h)
  | PanicInSync => (false, s <| client := true |>, notePanicRound h)
  end.

Definition syncOnce (now : Instant) (e : SyncEnv) (s : standbyLoopState) (h : HAState) : standbyLoopState * HAState :=
  if negb (client s) then setFail (failCount s + 1) s h
  else
    let '(ok, h) := syncFromLeader now e h in
    if (ok : bool)
    then let '(s, h) := setFail 0 s h in (s <| manualWarned := false |>, clearSyncPanicAlert h)
    else setFail (failCount s + 1) s h.
Definition guardedSyncOnce (now : Instant) (e : option SyncEnv) (s : standbyLoopState) (h : HAState)
    : standbyLoopState * HAState :=
  match e with Some e => syncOnce now e s h | None => (s, notePanicRound h) end.

(** ** What the operations leave of the lease *)

(** The fields write authority is read from. *)
Definition lease_view (h : HAState) : bool * string * Z * option Instant * Duration :=
  (lease h, leaseCandidateID h, leaseEpoch h, leaseConfirmedAt h, leaseValidFor h).

Ltac ha_frame := intros; repeat (unfold Fire, record, stopLoops, close_stopCh, stopLeaseKeepalive, stopLeaseRecovery; simpl);
  repeat case_if; reflexivity.

Lemma view_save cfg h : lease_view (saveHAConfig cfg h) = lease_view h.
Proof. unfold saveHAConfig. ha_frame. Qed.
Lemma view_keepalive h : lease_view (startLeaseKeepalive h) = lease_view h.
Proof. unfold startLeaseKeepalive. ha_frame. Qed.
Lemma view_recovery h : lease_view (startLeaseRecovery h) = lease_view h.
Proof. unfold startLeaseRecovery. ha_frame. Qed.
Lemma view_standby now a tk g c k ca au op h : lease_view (StartAsStandby now a tk g c k ca au op h) = lease_view h.
Proof. unfold StartAsStandby, saveHAConfig. ha_frame. Qed.
Lemma view_resync now h : lease_view (enterStandbyResync now h).2 = lease_view h.
Proof. unfold enterStandbyResync. repeat case_if; simpl; [done..|]. apply view_standby. Qed.

Lemma standby_role now a tk g c k ca au op h :
  role h = "standby" → role (StartAsStandby now a tk g c k ca au op h) = "standby".
Proof. unfold StartAsStandby, saveHAConfig. simpl. repeat case_if; intros; simpl; done. Qed.
Lemma resync_role now h : role h = "standby" → role (enterStandbyResync now h).2 = "standby".
Proof. unfold enterStandbyResync. repeat case_if; simpl; [done..|]. apply standby_role. Qed.

(** A self-fence gives the lease up and keeps the rest of it. *)
Lemma selfFence_view now reason h :
  lease_view (selfFence now reason h) =
  (lease h, leaseCandidateID h, if IsLeader h then 0 else leaseEpoch h, leaseConfirmedAt h, leaseValidFor h).
Proof.
  unfold selfFence, IsLeader. destruct (role h =? "leader")%string; simpl; [|done].
  rewrite view_resync. unfold saveHAConfig. ha_frame.
Qed.
Lemma selfFence_role now reason h : role h = "leader" → role (selfFence now reason h) = "standby".
Proof.
  intros Hr. unfold selfFence. rewrite Hr. simpl. apply resync_role. unfold saveHAConfig. ha_frame.
Qed.

Lemma view_epoch h h' : lease_view h = lease_view h' → leaseEpoch h = leaseEpoch h'.
Proof. unfold lease_view. by intros [= _ _ -> _ _]. Qed.
Lemma WriteAllowed_view now h h' : lease_view h = lease_view h' → WriteAllowed now h = WriteAllowed now h'.
Proof. unfold lease_view, WriteAllowed. intros [= -> _ -> -> ->]. done. Qed.

(** ** Restarting a leader terminates *)

(** The answers that name a foreign holder, and those that name this node. *)
Definition foreign_of (id : string) (a : Rpc (bool * Status) * Duration) : Prop :=
  ∃ st, a.1 = RpcOk (false, st) ∧ Holder st ≠ id ∧ Holder st ≠ "".
Definition ghost_of (id : string) (a : Rpc (bool * Status) * Duration) : Prop :=
  ∃ st, a.1 = RpcOk (false, st) ∧ Holder st = id.

Lemma ghostRetryWait_range v : Second < ghostRetryWait v ≤ 5 * Second.
Proof. unfold ghostRetryWait, Second. case_if; [lia|]. apply orb_false_iff in Heqb as [??]. bprop. lia. Qed.

(** One round: what it leaves, and what its outcome says of the answer. *)
Lemma resume_round_spec now r d h : lease h = true →
  let '((o, st), h') := resumeAcquireRound now r h in
  lease h' = true ∧ leaseCandidateID h' = leaseCandidateID h ∧
  match o with
  | resumeGranted => r = RpcOk (true, st) ∧ leaseEpoch h' = Epoch st ∧ leaseConfirmedAt h' = Some now
  | resumeForeign => h' = h ∧ foreign_of (leaseCandidateID h) (r, d)
  | resumeOwnGhost => h' = h ∧ ghost_of (leaseCandidateID h) (r, d)
  | _ => h' = h
  end.
Proof.
  intros Hl. unfold resumeAcquireRound, acquireLeaseAttempt. rewrite Hl. simpl.
  destruct r as [[[] st]|]; simpl; [by split_and!| |by split_and!].
  destruct (String.eqb_spec (Holder st) (leaseCandidateID h)); [split_and!; try done; by exists st|].
  destruct (String.eqb_spec (Holder st) ""); simpl; split_and!; try done. by exists st.
Qed.

(** The loop over [answers] started at [now], when each call takes at most the timeout: every
    turn that does not return sleeps more than a second within the deadline [g]. *)
Lemma resume_loop_returns answers now g u h k :
  lease h = true → Forall (λ a, 0 ≤ a.2 ≤ haLeaseOpTimeout) answers → u ≤ g →
  g < now + Z.of_nat k * (Second + 1) → (k < length answers)%nat →
  ∃ res t h', resume_loop answers now g u h = Some (res, t, h') ∧
    (t ≤ now + haLeaseOpTimeout ∨ t ≤ g + 10 * Second) ∧
    (Forall (λ a, ¬ ghost_of (leaseCandidateID h) a) answers → t ≤ now + haLeaseOpTimeout ∨ t ≤ u + 7 * Second) ∧
    (res.1 = true → ∃ a st, In a answers ∧ a.1 = RpcOk (true, st) ∧ leaseEpoch h' = Epoch st ∧ leaseConfirmedAt h' = Some t) ∧
    (res.2 = true → Exists (foreign_of (leaseCandidateID h)) answers).
Proof.
  revert now h k. induction answers as [|[r d] answers IH]; intros now h k Hl Hd Hug Hk Hlen; [simpl in Hlen; lia|].
  apply Forall_cons in Hd as [Hd0 Hd]. simpl in Hd0. simpl.
  pose proof (resume_round_spec (now + d) r d h Hl) as Hr.
  destruct (resumeAcquireRound (now + d) r h) as [[o st] h'] eqn:Er. destruct Hr as (Hl'&Hid&Ho).
  destruct (resume_turn (now + d) g u o st) as [res|wait] eqn:Et.
  - exists res, (now + d), h'. split; [done|]. split; [lia|]. split; [lia|].
    destruct o; simpl in Et; simplify_eq/=; try case_if; simplify_eq/=; split; try done.
    + destruct Ho as (->&?&?). intros _. exists (RpcOk (true, st), d), st. naive_solver.
    + intros _. left. by destruct Ho.
  - assert (h' = h) as -> by (destruct o; simpl in Et; [done|done|..]; tauto).
    assert (Second < wait ≤ 5 * Second ∧ now + d ≤ g ∧
      (¬ ghost_of (leaseCandidateID h) (r, d) → now + d ≤ u ∧ wait ≤ 2 * Second)) as (Hw&Hg&Hgh).
    { destruct o; simpl in Et; try done; case_if; simplify_eq; bprop;
        [pose proof (ghostRetryWait_range (ValidFor st)); destruct Ho; split_and!; try lia; tauto|..];
        unfold haLeaseResumeRetryBackoff, Second in *; split_and!; lia. }
    destruct k as [|k]; [lia|].
    destruct (IH (now + d + wait) h k Hl Hd Hug) as (res&t&h'&->&Ht&Htg&H1&H2); [unfold Second in *; lia|simpl in Hlen; lia|].
    exists res, t, h'. split; [done|]. unfold haLeaseOpTimeout, Second in *. split; [lia|]. split; [|split].
    + intros Hno. apply Forall_cons in Hno as [Hno0 Hno]. specialize (Htg Hno). specialize (Hgh Hno0). lia.
    + intros Hres. destruct (H1 Hres) as (a&st'&Hin&?). exists a, st'. split; [by right|done].
    + intros Hres. right. auto.
Qed.

(** C40: A restarted leader stops asking the backend for its lease after at most 46 rounds,
    whatever the backend answers and as long as each call returns within its timeout: at the
    latest ten seconds after the 45-second budget of its own previous lease, and within twelve
    seconds when no answer names that lease.  It reports a grant only after one, with the epoch
    of that grant and the time of the return, and a foreign holder only when an answer named one. *)
Theorem resume_terminates answers now h :
  lease h = true → Forall (λ a, 0 ≤ a.2 ≤ haLeaseOpTimeout) answers → (46 ≤ length answers)%nat →
  ∃ res t h', acquireLeaseForResume answers now h = Some (res, t, h') ∧
    t ≤ now + haResumeGhostWait + 10 * Second ∧
    (Forall (λ a, ¬ ghost_of (leaseCandidateID h) a) answers → t ≤ now + 12 * Second) ∧
    (res.1 = true → ∃ a st, In a answers ∧ a.1 = RpcOk (true, st) ∧ leaseEpoch h' = Epoch st ∧ leaseConfirmedAt h' = Some t) ∧
    (res.2 = true → Exists (foreign_of (leaseCandidateID h)) answers).
Proof.
  intros Hl Hd Hn. unfold acquireLeaseForResume. rewrite Hl. simpl.
  destruct (resume_loop_returns answers now (now + haResumeGhostWait) (now + haResumeUnreachableWait) h 45)
    as (res&t&h'&->&Ht&Htg&H1&H2); [done|done|unfold haResumeGhostWait, haResumeUnreachableWait, Second; lia..|lia|].
  exists res, t, h'. unfold haLeaseOpTimeout, haResumeGhostWait, haResumeUnreachableWait, Second in *.
  split_and!; try done; [lia|]. intros Hno. specialize (Htg Hno). lia.
Qed.

(** A node whose backend is down, each call running into its timeout. *)
Definition down : list (Rpc (bool * Status) * Duration) := replicate 46 (RpcErr, haLeaseOpTimeout).
Lemma resume_terminates_witness :
  ∃ res t h', acquireLeaseForResume down 0 (SetLeaseProvider true "cp1" (newHAState None)) = Some (res, t, h') ∧
    t ≤ 0 + 12 * Second.
Proof.
  destruct (resume_terminates down 0 (SetLeaseProvider true "cp1" (newHAState None)))
    as (res&t&h'&E&_&Ht&_); [done|by apply Forall_replicate|vm_compute; lia|].
  exists res, t, h'. split; [done|]. apply Ht. apply Forall_replicate. by intros (?&?&?).
Defined.

(** ** The keepalive fails closed *)

(** C32: A keepalive round that did not confirm the lease (a lost lease, a failed call, a panic)
    never makes a node that may not write able to, now or later; it makes a leader a standby
    without write authority when the lease is lost, or when the window confirmed last has run
    out, less the margin.  A confirming round gives write authority for exactly the confirmed
    time less the margin. *)
Theorem unconfirmed_round_fails_closed now r h :
  lease h = true → leaseEpoch h ≠ 0 →
  let '(fenced, h') := leaseRenewRound now r h in
  ((∀ v, r ≠ Some (RpcOk (true, v))) →
    (∀ t, WriteAllowed t h' = true → WriteAllowed t h = true) ∧
    (role h = "leader" →
     (∃ v, r = Some (RpcOk (false, v))) ∨ leaseValidFor h - haLeaseWriteMargin ≤ time_since now (leaseConfirmedAt h) →
     fenced = true ∧ role h' = "standby" ∧ leaseEpoch h' = 0 ∧ ∀ t, WriteAllowed t h' = false)) ∧
  (∀ v, r = Some (RpcOk (true, v)) →
    fenced = false ∧ role h' = role h ∧ ∀ t, WriteAllowed t h' = (time_sub t now <? v - haLeaseWriteMargin)).
Proof.
  intros Hl He. destruct (leaseRenewRound now r h) as [fenced h'] eqn:E.
  assert (∀ reason, fenced = true → h' = selfFence now reason h →
    (∀ t, WriteAllowed t h' = true → WriteAllowed t h = true) ∧
    (role h = "leader" → fenced = true ∧ role h' = "standby" ∧ leaseEpoch h' = 0 ∧ ∀ t, WriteAllowed t h' = false)) as Hf.
  { intros reason -> ->. pose proof (selfFence_view now reason h) as Hv.
    unfold lease_view in Hv. injection Hv as V1 V2 V3 V4 V5. split.
    - intros t. unfold WriteAllowed. rewrite V1, V3, V4, V5, Hl. simpl.
      apply Z.eqb_neq in He. destruct (IsLeader h); rewrite ?He; [discriminate|done].
    - intros Hr. unfold IsLeader in V3. rewrite Hr in V3. simpl in V3. split_and!; [done|by apply selfFence_role|done|].
      intros t. unfold WriteAllowed. rewrite V1, V3, Hl. done. }
  unfold leaseRenewRound, leaseRenewOnce, renew_begin, fenceIfLeaseWindowElapsed in E.
  rewrite Hl in E. apply Z.eqb_neq in He as He'. rewrite He' in E. simpl in E.
  destruct r as [[[[] v]|]|]; simpl in E.
  - simplify_eq. split; [intros Hno; by destruct (Hno v)|]. intros v' [= <-]. split_and!; [done..|]. intros t.
    unfold WriteAllowed. simpl. by rewrite Hl, He'.
  - simplify_eq. split; [|done]. intros _. edestruct Hf as [? Hf2]; [reflexivity..|]. split; [done|]. intros Hr _. by apply Hf2.
  - split; [|done]. intros _. case_if; simplify_eq; bprop.
    + edestruct Hf as [? Hf2]; [reflexivity..|]. split; [done|]. intros Hr _. by apply Hf2.
    + split; [done|]. intros _ [[? ?]|?]; [done|lia].
  - split; [|done]. intros _. case_if; simplify_eq; bprop.
    + edestruct Hf as [? Hf2]; [reflexivity..|]. split; [done|]. intros Hr _. by apply Hf2.
    + split; [done|]. intros _ [[? ?]|?]; [done|lia].
Qed.

(** A leader confirmed at second 0 for 10 seconds; a call fails at second 9. *)
Definition leader_ex : HAState :=
  (EnableAsLeader 0 (RpcOk (true, mkStatus "cp1" 7 (10 * Second))) "tok" "cp2:50051" false
     (SetLeaseProvider true "cp1" (newHAState None))).2.
Lemma unconfirmed_round_fails_closed_witness :
  WriteAllowed (8 * Second) leader_ex = true ∧
  ∀ t, WriteAllowed t (leaseRenewRound (9 * Second) (Some RpcErr) leader_ex).2 = false.
Proof.
  split; [by vm_compute|].
  pose proof (unconfirmed_round_fails_closed (9 * Second) (Some RpcErr) leader_ex ltac:(done) ltac:(done)) as H.
  destruct (leaseRenewRound (9 * Second) (Some RpcErr) leader_ex) as [fenced h'].
  destruct H as [H _]. destruct (proj2 (H ltac:(done)) ltac:(by vm_compute) ltac:(right; by vm_compute)) as (_&_&_&Ht). done.
Defined.

(** ** Automatic promotion *)

Lemma role_keepalive h : role (startLeaseKeepalive h) = role h ∧ term (startLeaseKeepalive h) = term h.
Proof. unfold startLeaseKeepalive. by repeat case_if. Qed.
Lemma role_save cfg h : role (saveHAConfig cfg h) = role h ∧ term (saveHAConfig cfg h) = term h.
Proof. unfold saveHAConfig. by repeat case_if. Qed.

Lemma promote_complete_spec now out reason h :
  let h' := promote_complete now out reason h in
  lease_view h' = lease_view h ∧
  role h' = (if out is HookOk then "leader" else role h) ∧
  (out = HookOk → term h' = if lease h then termFromEpoch (leaseEpoch h) else (term h + 1) mod 2 ^ 64).
Proof.
  destruct out; simpl; [|done..].
  rewrite view_keepalive. rewrite (proj1 (role_keepalive _)), (proj2 (role_keepalive _)).
  unfold saveHAConfig. simpl. by case_if.
Qed.

(** Who comes out of [promote] a leader. *)
Lemma promote_leads now r out reason h :
  role h ≠ "leader" → role (promote now r out reason h) = "leader" →
  promoted h = false ∧ pc_set (pc h) = true ∧ out = HookOk ∧
  if lease h then ∃ st, r = RpcOk (true, st) ∧ leaseEpoch (promote now r out reason h) = Epoch st ∧
                        term (promote now r out reason h) = termFromEpoch (Epoch st)
  else True.
Proof.
  intros Hr. unfold promote, promote_begin.
  destruct (promoted h) eqn:Hp; simpl; [done|]. destruct (pc_set (pc h)) eqn:Hs; simpl; [|done].
  destruct (pc_onPromote (pc h)); simpl; [|done].
  unfold promote_acquired, acquireLeaseForLeadership, acquireLeaseAttempt. simpl.
  destruct (lease h) eqn:Hl; simpl.
  - destruct r as [[[] st]|]; simpl; [|done..].
    match goal with |- context [promote_complete now out reason ?g] =>
      pose proof (promote_complete_spec now out reason g) as (Hv&Hrole&Ht) end.
    rewrite Hrole. destruct out; [|done..]. intros _. split_and!; [done..|]. exists st.
    rewrite (view_epoch _ _ Hv), (Ht eq_refl). simpl. by rewrite Hl.
  - match goal with |- context [promote_complete now out reason ?g] =>
      pose proof (promote_complete_spec now out reason g) as (Hv&Hrole&Ht) end.
    rewrite Hrole. destruct out; simpl; done.
Qed.

Lemma sync_failed now e h : (syncFromLeader now e h).1 = false → (syncFromLeader now e h).2 = h.
Proof.
  unfold syncFromLeader. destruct (sy_bundle e) as [b|]; [|done].
  destruct (verifyBundleEpoch _ _ _); simpl; [|done]. by intros ->.
Qed.

Lemma after_fail_leads now e s h s' h' :
  after_fail now e s h = (true, s', h') → role h ≠ "leader" →
  haStandbyMaxFail ≤ failCount s + 1 ∧ role h' = "leader" ∧ tk_hook e = HookOk ∧
  if lease h then auto_promote_gate now h = true ∧
    ∃ st, tk_acquire e = RpcOk (true, st) ∧ leaseEpoch h' = Epoch st ∧ term h' = termFromEpoch (Epoch st)
  else autoFailover h = true.
Proof.
  intros E Hr. unfold after_fail, setFail, onMaxFail, leaseConfigured, autoFailoverEnabled, leaseAutoPromote in E. simpl in E.
  destruct (haStandbyMaxFail <=? failCount s + 1) eqn:Hm; [|done]. split; [lia|].
  change (lease (setSyncFailCount _ h)) with (lease h) in E.
  change (autoFailover (setSyncFailCount _ h)) with (autoFailover h) in E.
  change (auto_promote_gate now (setSyncFailCount _ h)) with (auto_promote_gate now h) in E.
  assert (∀ reason, IsLeader (promote now (tk_acquire e) (tk_hook e) reason (setSyncFailCount (failCount s + 1) h)) = true →
    role (promote now (tk_acquire e) (tk_hook e) reason (setSyncFailCount (failCount s + 1) h)) = "leader") as Hlead.
  { intros reason. unfold IsLeader. apply String.eqb_eq. }
  destruct (lease h) eqn:Hl.
  - destruct (auto_promote_gate now h); [|done]. injection E as Hlr _ <-. apply Hlead in Hlr.
    apply promote_leads in Hlr as Hp; [|done]. change (lease (setSyncFailCount _ h)) with (lease h) in Hp. rewrite Hl in Hp.
    destruct Hp as (_&_&Ho&st&?&?&?). split_and!; eauto.
  - destruct (autoFailover h); [|by destruct (manualWarned s)].
    injection E as Hlr _ <-. apply Hlead in Hlr. apply promote_leads in Hlr as Hp; [|done]. by destruct Hp as (_&_&?&_).
Qed.

(** A standby round makes the sync loop end in a promotion only after the third failure in
    a row; with a lease backend, only when the last self-fence is at least the cooldown ago, the
    last successful sync is within the freshness window and the backend granted the lease, whose
    epoch becomes the node's epoch and term; without one, only when automatic failover was
    enabled.  A round that panics never promotes and leaves the failure streak as it was. *)
Theorem auto_promotion_gated now rd s h :
  role h ≠ "leader" →
  let '(exit, s', h') := guardedTick now rd s h in
  match rd with
  | Round e => exit = true → tk_cancelled e = false →
      haStandbyMaxFail ≤ failCount s + 1 ∧ role h' = "leader" ∧ tk_hook e = HookOk ∧
      if lease h
      then (∀ t, lastSelfFence h = Some t → haRepromoteCooldown ≤ time_sub now t) ∧
           (∃ t, lastSyncOK h = Some t ∧ time_sub now t ≤ haPromoteFreshnessWindow) ∧
           (∃ st, tk_acquire e = RpcOk (true, st) ∧ leaseEpoch h' = Epoch st ∧ term h' = termFromEpoch (Epoch st))
      else autoFailover h = true
  | _ => exit = false ∧ failCount s' = failCount s ∧ role h' = role h ∧ syncFailCount h' = syncFailCount h
  end.
Proof.
  intros Hr. destruct (guardedTick now rd s h) as [[exit s'] h'] eqn:E.
  destruct rd as [e| |]; simpl in E; [|simplify_eq; unfold notePanicRound; by case_if..].
  intros -> Hc.
  assert (∃ s0, failCount s0 = failCount s ∧ after_fail now e s0 h = (true, s', h')) as (s0&Hs0&E').
  { unfold tick in E. destruct (negb (client s) && negb (tk_dial e)); [by exists s|].
    pose proof (sync_failed now (tk_sync e) h) as Hf. destruct (syncFromLeader now (tk_sync e) h) as [[] h1]; simpl in *.
    - by simplify_eq.
    - rewrite Hc, Hf in E by done. exists (s <| client := true |>). split; [done|exact E]. }
  apply after_fail_leads in E' as (?&?&?&Hg); [|done]. rewrite Hs0 in *. split_and!; [done..|].
  destruct (lease h); [|done]. destruct Hg as (Hg&st&?). unfold auto_promote_gate in Hg. split_and!; [| |by exists st].
  - intros t Ht. rewrite Ht in Hg. rewrite bool_decide_true in Hg by done. simpl in Hg.
    destruct (_ <? haRepromoteCooldown) eqn:Hlt; [done|]. lia.
  - case_if; [done|]. case_bool_decide; [done|]. destruct (lastSyncOK h) as [t|]; [|done].
    exists t. split; [done|]. simpl in Hg. bprop. lia.
Qed.

(** A standby synced at minute 1 whose leader does not answer for the third time. *)
Definition standby_ex : HAState :=
  markSyncOK Minute (StartAsStandby 0 "cp1:50051" "tok" "cp2:50051" "" "" "" false true
                       (SetLeaseProvider true "cp2" (newHAState None))).
Definition silent : TickEnv :=
  mkTick true (mkSync None RpcErr false RpcErr HookOk) false (RpcOk (true, mkStatus "cp2" 9 (10 * Second))) HookOk.
Lemma auto_promotion_gated_witness :
  let h' := (guardedTick (2 * Minute) (Round silent) (mkLoop true 2 false) standby_ex).2 in
  (guardedTick (2 * Minute) (Round silent) (mkLoop true 2 false) standby_ex).1.1 = true ∧
  role h' = "leader" ∧ term h' = 9.
Proof.
  pose proof (auto_promotion_gated (2 * Minute) (Round silent) (mkLoop true 2 false) standby_ex ltac:(done)) as H.
  assert ((guardedTick (2 * Minute) (Round silent) (mkLoop true 2 false) standby_ex).1.1 = true) as He by (by vm_compute).
  destruct (guardedTick (2 * Minute) (Round silent) (mkLoop true 2 false) standby_ex) as [[exit s'] h']. simpl in *.
  destruct (H He ltac:(done)) as (_&?&_&_&_&st&[= <-]&_&->). done.
Defined.

(** ** The failback target *)

Definition fb_view (h : HAState) : string * string * bool * bool * bool * bool * bool :=
  (role h, standbyAddr h, promoted h, pc_set (pc h) && pc_onPromote (pc h), lease h, disk_ok h, stopping h).

(** A self-fenced leader with a recorded standby stands by against it. *)
Lemma selfFence_resyncs now why h :
  role h = "leader" → standbyAddr h ≠ "" → rc_set (resync h) = true → stopping h = false →
  fb_view (selfFence now why h) = ("standby", standbyAddr h, false, true, lease h, disk_ok h, false).
Proof.
  intros Hr Hs Hc Hst. unfold selfFence. rewrite Hr. simpl.
  unfold saveHAConfig. simpl. apply String.eqb_neq in Hs.
  destruct (disk_ok h) eqn:Hd; unfold enterStandbyResync; simpl; rewrite Hs, Hc; simpl;
    unfold StartAsStandby, saveHAConfig; simpl; rewrite Hst; simpl; rewrite Hd; unfold fb_view; simpl; by rewrite ?Hd, ?Hst.
Qed.

(** Promoted again, it writes its file without that address. *)
Lemma promote_saves now st reason h a :
  fb_view h = ("standby", a, false, true, true, true, false) →
  let h' := promote now (RpcOk (true, st)) HookOk reason h in
  role h' = "leader" ∧ standbyAddr h' = a ∧
  disk h' = Some (mkHAConfig true (token h) (peerAddr h) "leader" (autoFailover h) (termFromEpoch (Epoch st)) "").
Proof.
  unfold fb_view. intros [= Hr Ha Hp [Hs Ho]%andb_prop Hl Hd Hst].
  unfold promote, promote_begin. rewrite Hp. simpl. rewrite Hs, Ho. simpl.
  unfold promote_acquired, acquireLeaseForLeadership, acquireLeaseAttempt. simpl. rewrite Hl. simpl.
  unfold saveHAConfig. simpl. rewrite Hd, Hl. unfold startLeaseKeepalive. simpl.
  by repeat case_if.
Qed.

(** A leader that self-fences, stands by against its recorded standby and is promoted again
    (every write of its file succeeding) keeps that address in memory but has written a file
    without it, and being told the same address again does not write it.  A process restarted
    from that file and refused by a foreign lease holder therefore does not stand by against
    the address: it keeps the leader role. *)
Theorem failback_target_lost t1 t2 t3 why reason st h :
  role h = "leader" → standbyAddr h ≠ "" → rc_set (resync h) = true → stopping h = false →
  lease h = true → disk_ok h = true →
  let h2 := promote t2 (RpcOk (true, st)) HookOk reason (selfFence t1 why h) in
  let h3 := RecordStandbyAddr (standbyAddr h) h2 in
  role h3 = "leader" ∧ standbyAddr h3 = standbyAddr h ∧
  ∃ cfg, disk h3 = Some cfg ∧ haRestartAction (Some cfg) = "leader" ∧ cfg_StandbyAddr cfg = "" ∧
    ∀ h0, role (resume_complete t3 cfg false true h0) = "leader".
Proof.
  intros Hr Hs Hc Hst Hl Hd h2 h3.
  pose proof (selfFence_resyncs t1 why h Hr Hs Hc Hst) as Hv. rewrite Hl, Hd in Hv.
  destruct (promote_saves t2 st reason _ _ Hv) as (Hr2&Ha2&Hd2). fold h2 in Hr2, Ha2, Hd2.
  clearbody h2.
  assert (h3 = h2) as ->.
  { unfold h3, RecordStandbyAddr. rewrite Hr2, Ha2, !String.eqb_refl. by case_if. }
  split_and!; [done..|]. eexists. split_and!; [done..|]. intros h0. unfold resume_complete, enterStandbyResync. simpl.
  destruct (leaseConfigured h0); simpl; rewrite (proj1 (role_save _ _)), (proj1 (role_keepalive _)); by repeat case_if.
Qed.

Lemma failback_target_lost_witness :
  let h := RecordStandbyAddr "cp2:50051" (SetResyncMaterial "cp1:50051" "" "" "" leader_ex) in
  let h2 := promote (90 * Second) (RpcOk (true, mkStatus "cp1" 12 (10 * Second))) HookOk "manual promotion"
              (selfFence (10 * Second) "lost" h) in
  standbyAddr h2 = "cp2:50051" ∧ (cfg_StandbyAddr <$> disk h = Some "cp2:50051") ∧
  ∃ cfg, disk (RecordStandbyAddr "cp2:50051" h2) = Some cfg ∧ cfg_StandbyAddr cfg = "".
Proof.
  intros h h2. split; [by vm_compute|]. split; [by vm_compute|].
  destruct (failback_target_lost (10 * Second) (90 * Second) 0 "lost" "manual promotion" (mkStatus "cp1" 12 (10 * Second)) h)
    as (_&_&cfg&Hd&_&Hc&_); [by vm_compute..|]. by exists cfg.
Defined.
