(* ===== verification/HACluster.v ===== *)
(** * The HA control plane as a cluster of nodes and one lease backend

    The nodes of [HANode] around a backend of [HALease], named by their candidate identifiers,
    which are distinct.  A call to the backend is sent, executed by it at some later instant,
    and answered or failed at another; a failed call may or may not have been executed.  Every
    node has its own clock, running at the common rate at an offset of its own.  [Step] has one
    constructor per section of the nodes' operations, besides the passing of time, the
    execution of calls and process restarts; the loops of the source run when the scheduler
    likes, so a theorem covers every cadence.  [D] bounds the time from the execution of a call
    to the handling of its answer, for the answers that are not failures.

    - [single_writer]: with answers handled within the write margin, only the holder of the live
      lease has write authority; in particular at most one node has it.
    - [late_confirmation_two_writers]: with answers handled within the call timeout, two leaders
      can have write authority at once.
    - [stale_leader_fenced]: without any assumption on time, what a node other than the holder
      stamps is refused by a Data Plane that has seen the holder's epoch and by a standby. *)

From stdpp Require Import functions.
From S2P Require Import Prelude HALease HANode.

(** What an [Acquire] in flight is for. *)
Inductive AcquireFor :=
  | ForEnable (tok peer : string) (auto : bool)
  | ForPromote (reason : string)
  | ForResume (cfg : haConfig)
  | ForRecovery.

(** A call in flight: who made it, what for, and what the backend did, once it has. *)
Record AcquireCall := mkAcq { aq_node : string; aq_for : AcquireFor; aq_done : option (Instant * (bool * Status)) }.
Record RenewCall := mkRen { rn_node : string; rn_snap : RenewSnap; rn_done : option (Instant * (bool * Duration)) }.

Record Cluster (B : Type) := mkCluster {
  now : Instant; backend : B; nodes : string → HAState;
  acquires : list AcquireCall; renews : list RenewCall;
  hooks : list (string * string);   (* promotion hooks that run: node and reason *)
}.
Arguments mkCluster {_} _ _ _ _ _ _.
Arguments now {_} _.
Arguments backend {_} _.
Arguments nodes {_} _ _.
Arguments acquires {_} _.
Arguments renews {_} _.
Arguments hooks {_} _.

(** The sections of a node that involve no call: [LocalOp now h h'] at the node's clock [now]. *)
Inductive LocalOp (now : Instant) : HAState → HAState → Prop :=
  | op_standby_addr addr h : LocalOp now h (RecordStandbyAddr addr h)
  | op_resync_material g c k ca h : LocalOp now h (SetResyncMaterial g c k ca h)
  | op_lease_ttl d h : LocalOp now h (SetLeaseTTL d h)
  | op_standby a tk g c k ca au op h : LocalOp now h (StartAsStandby now a tk g c k ca au op h)
  | op_stop_begin h : LocalOp now h (Stop_begin h)
  | op_stop_end h : LocalOp now h (Stop_end h)
  | op_request h : LocalOp now h (RequestPlannedPromotion h)
  | op_clear h : LocalOp now h (ClearPlannedPromotion h)
  | op_synced t h : LocalOp now h (seedTermFromLeader t (markSyncOK now h))
  | op_streak n h : LocalOp now h (setSyncFailCount n h)
  | op_panic h : LocalOp now h (notePanicRound h)
  | op_clear_panic h : LocalOp now h (clearSyncPanicAlert h)
  | op_recovery_exit stop h : LocalOp now h (clearLeaseRecoveryHandle stop h)
  | op_window reason h : LocalOp now h (fenceIfLeaseWindowElapsed now reason h).2
  | op_promote_begin h : LocalOp now h (promote_begin h).2
  | op_disk ok h : LocalOp now h (h <| disk_ok := ok |>).

(** A process starting on the node, armed with the lease. *)
Definition boot (n : string) (d : option haConfig) : HAState := SetLeaseProvider true n (newHAState d).

Section cluster.
Context `{Provider B}.
(** The offset of each node's clock, and the bound on answers. *)
Variable skew : string → Z.
Variable D : Duration.

Definition local (n : string) (t : Instant) : Instant := t + skew n.

(** [node_step c n h']: the cluster with the state of [n] replaced. *)
Definition set_node (c : Cluster B) (n : string) (h : HAState) : Cluster B :=
  mkCluster (now c) (backend c) (<[n := h]> (nodes c)) (acquires c) (renews c) (hooks c).
Definition set_acquires (c : Cluster B) (l : list AcquireCall) : Cluster B :=
  mkCluster (now c) (backend c) (nodes c) l (renews c) (hooks c).
Definition set_renews (c : Cluster B) (l : list RenewCall) : Cluster B :=
  mkCluster (now c) (backend c) (nodes c) (acquires c) l (hooks c).
Definition set_hooks (c : Cluster B) (l : list (string * string)) : Cluster B :=
  mkCluster (now c) (backend c) (nodes c) (acquires c) (renews c) l.
Definition set_backend (c : Cluster B) (b : B) : Cluster B :=
  mkCluster (now c) b (nodes c) (acquires c) (renews c) (hooks c).
Definition set_now (c : Cluster B) (t : Instant) : Cluster B :=
  mkCluster t (backend c) (nodes c) (acquires c) (renews c) (hooks c).

(** How the answer of an [Acquire] is handled at the node's clock [t]: the node's state after,
    a new round of a resume, a hook to run. *)
Inductive Handled (t : Instant) : AcquireFor → Rpc (bool * Status) → HAState → HAState → bool → option string → Prop :=
  | handled_enable tok peer auto r h :
      Handled t (ForEnable tok peer auto) r h (EnableAsLeader t r tok peer auto h).2 false None
  | handled_promote reason r h go h' : promote_acquired t r h = (go, h') →
      Handled t (ForPromote reason) r h h' false (if go then Some reason else None)
  | handled_resume_granted cfg r h st h' : resumeAcquireRound t r h = ((resumeGranted, st), h') →
      Handled t (ForResume cfg) r h (resume_complete t cfg true false h') false None
  | handled_resume_foreign cfg r h st h' : resumeAcquireRound t r h = ((resumeForeign, st), h') →
      Handled t (ForResume cfg) r h (resume_complete t cfg false true h') false None
  | handled_resume_again cfg r h o st h' : resumeAcquireRound t r h = ((o, st), h') →
      o ≠ resumeGranted → o ≠ resumeForeign → Handled t (ForResume cfg) r h h' true None
  | handled_resume_over cfg r h o st h' : resumeAcquireRound t r h = ((o, st), h') →
      o ≠ resumeGranted → o ≠ resumeForeign → Handled t (ForResume cfg) r h (resume_complete t cfg false false h') false None
  | handled_recovery r h : Handled t ForRecovery r h (recovery_end t (leaseCandidateID h) r h).2 false None.

(** The answer a call may be given now: a failure at any time, else what the backend did. *)
Definition answered {A} (done : option (Instant * A)) (t : Instant) (r : Rpc A) : Prop :=
  match r with RpcErr => True | RpcOk a => ∃ te, done = Some (te, a) ∧ t ≤ te + D end.

Inductive Step : Cluster B → Cluster B → Prop :=
  | step_time c t : now c ≤ t → Step c (set_now c t)
  | step_local c n h : LocalOp (local n (now c)) (nodes c n) h → Step c (set_node c n h)
  | step_restart c n : Step c (set_hooks (set_renews (set_acquires (set_node c n (boot n (disk (nodes c n))))
      (filter (λ a, aq_node a ≠ n) (acquires c))) (filter (λ a, rn_node a ≠ n) (renews c))) (filter (λ p, p.1 ≠ n) (hooks c)))
  | step_call_enable c n tok peer auto :
      Step c (set_acquires c (mkAcq n (ForEnable tok peer auto) None :: acquires c))
  | step_call_promote c n reason h : promote_begin (nodes c n) = (true, h) →
      Step c (set_acquires (set_node c n h) (mkAcq n (ForPromote reason) None :: acquires c))
  | step_call_resume c n cfg : Step c (set_acquires c (mkAcq n (ForResume cfg) None :: acquires c))
  | step_call_recovery c n id : recovery_begin (nodes c n) = Some id →
      Step c (set_acquires c (mkAcq n ForRecovery None :: acquires c))
  | step_call_renew c n sn : renew_begin (nodes c n) = Some sn →
      Step c (set_renews c (mkRen n sn None :: renews c))
  | step_exec_acquire c n k l1 l2 ans b :
      acquires c = l1 ++ mkAcq n k None :: l2 → n ≠ "" → watermark (backend c) < int64_max →
      Acquire (now c) n (backend c) = (ans, b) →
      Step c (set_backend (set_acquires c (l1 ++ mkAcq n k (Some (now c, ans)) :: l2)) b)
  | step_exec_renew c n sn l1 l2 ans b :
      renews c = l1 ++ mkRen n sn None :: l2 → Renew (now c) (sn_id sn) (sn_epoch sn) (backend c) = (ans, b) →
      Step c (set_backend (set_renews c (l1 ++ mkRen n sn (Some (now c, ans)) :: l2)) b)
  | step_answer_acquire c n k done l1 l2 r h again hook :
      acquires c = l1 ++ mkAcq n k done :: l2 → answered done (now c) r →
      Handled (local n (now c)) k r (nodes c n) h again hook →
      Step c (set_hooks (set_acquires (set_node c n h)
                (if again then l1 ++ mkAcq n k None :: l2 else l1 ++ l2))
                (match hook with Some reason => (n, reason) :: hooks c | None => hooks c end))
  | step_answer_renew c n sn done l1 l2 r :
      renews c = l1 ++ mkRen n sn done :: l2 → answered done (now c) r →
      Step c (set_renews (set_node c n (renew_end (local n (now c)) sn r (nodes c n)).2) (l1 ++ l2))
  | step_hook c n reason l1 l2 out :
      hooks c = l1 ++ (n, reason) :: l2 →
      Step c (set_hooks (set_node c n (promote_complete (local n (now c)) out reason (nodes c n))) (l1 ++ l2)).

(** A cluster of freshly started processes around a backend that never granted. *)
Definition initial (c : Cluster B) : Prop :=
  backend_ok (now c) (backend c) ∧ lease_of (backend c) = None ∧
  (∀ n, ∃ d, nodes c n = boot n d) ∧ acquires c = [] ∧ renews c = [] ∧ hooks c = [].

Inductive Reachable : Cluster B → Prop :=
  | reach_init c : initial c → Reachable c
  | reach_step c c' : Reachable c → Step c c' → Reachable c'.

End cluster.

(** ** What the sections do to the lease of a node *)

(** The lease is as it was, or given up. *)
Definition kept (h h' : HAState) : Prop :=
  lease h' = lease h ∧ leaseCandidateID h' = leaseCandidateID h ∧
  (leaseEpoch h' = 0 ∨
   leaseEpoch h' = leaseEpoch h ∧ leaseConfirmedAt h' = leaseConfirmedAt h ∧ leaseValidFor h' = leaseValidFor h).
(** It is confirmed at [t] for [v], at epoch [e]. *)
Definition confirmed (t : Instant) (e : Z) (v : Duration) (h h' : HAState) : Prop :=
  lease h' = lease h ∧ leaseCandidateID h' = leaseCandidateID h ∧
  leaseEpoch h' = e ∧ leaseConfirmedAt h' = Some t ∧ leaseValidFor h' = v.

Lemma kept_of_view h h' : lease_view h' = lease_view h → kept h h'.
Proof. unfold lease_view, kept. intros [= -> -> -> -> ->]. auto 6. Qed.
Lemma kept_fence now reason h : kept h (selfFence now reason h).
Proof.
  pose proof (selfFence_view now reason h) as Hv. unfold lease_view in Hv. injection Hv as V1 V2 V3 V4 V5.
  unfold kept. rewrite V1, V2, V3, V4, V5. destruct (IsLeader h); auto 6.
Qed.
Lemma confirmed_view t e v h h' h'' : confirmed t e v h h' → lease_view h'' = lease_view h' → confirmed t e v h h''.
Proof. unfold confirmed, lease_view. intros ? [= -> -> -> -> ->]. done. Qed.

Lemma LocalOp_kept t h h' : LocalOp t h h' → kept h h'.
Proof.
  destruct 1; try (by apply kept_of_view); try (apply kept_of_view;
    unfold RecordStandbyAddr, seedTermFromLeader, notePanicRound, clearLeaseRecoveryHandle, promote_begin, saveHAConfig, Fire;
    simpl; by repeat case_if).
  - apply kept_of_view, view_standby.
  - unfold fenceIfLeaseWindowElapsed. repeat case_if; simpl; try (by apply kept_of_view). apply kept_fence.
Qed.

Lemma attempt_spec t r h : lease h = true →
  let '((granted, st, _), h') := acquireLeaseAttempt t r h in
  if (granted : bool) then r = RpcOk (true, st) ∧ confirmed t (Epoch st) (ValidFor st) h h' else h' = h.
Proof.
  intros Hl. unfold acquireLeaseAttempt. rewrite Hl. simpl. by destruct r as [[[] st]|].
Qed.

Lemma view_resume t cfg g f h : lease_view (resume_complete t cfg g f h) = lease_view h.
Proof.
  unfold resume_complete.
  assert (∀ h, lease_view (enterStandbyResync t (h <| token := cfg_Token cfg |> <| standbyAddr := cfg_StandbyAddr cfg |>
     <| autoFailover := cfg_AutoFailover cfg |>)).2 = lease_view h) as Hres by (intros; by rewrite view_resync).
  specialize (Hres h). destruct (negb g && _ && f); simpl in *.
  - destruct (enterStandbyResync t _) as [[] h1]; simpl in *; [done|].
    rewrite view_save, view_keepalive. destruct (lease h1 && negb g); [destruct f; simpl|]; rewrite ?view_recovery; exact Hres.
  - rewrite view_save, view_keepalive. destruct (lease h && negb g); [destruct f; simpl|]; rewrite ?view_recovery; done.
Qed.

Lemma view_foreign t e h : lease_view (handleForeignFenceHolder t e h) = lease_view h.
Proof.
  unfold handleForeignFenceHolder. destruct (role h =? "leader")%string; simpl; [|done].
  pose proof (view_resync t (h <| lastSelfFence := Some t |>)) as Hv.
  destruct (enterStandbyResync t _) as [[] h1]; simpl in *; done.
Qed.
Lemma view_complete h : lease_view (completeLeaseRecovery h) = lease_view h.
Proof.
  unfold completeLeaseRecovery, Fire. change (lease_view (?h <| fired := _ |>)) with (lease_view h) at 1.
  transitivity (lease_view (saveHAConfig (snapshotConfigLocked (h <| term := termFromEpoch (leaseEpoch h) |>))
    (h <| term := termFromEpoch (leaseEpoch h) |>))); [apply view_keepalive|]. by rewrite view_save.
Qed.

Lemma Handled_lease t k r h h' again hook : lease h = true → Handled t k r h h' again hook →
  kept h h' ∨ ∃ st, r = RpcOk (true, st) ∧ confirmed t (Epoch st) (ValidFor st) h h'.
Proof.
  intros Hl Hh. pose proof (attempt_spec t r h Hl) as Ha.
  destruct Hh as [tok peer auto r h|reason r h go h' E|cfg r h st h' E|cfg r h st h' E|cfg r h o st h' E No Nf|cfg r h o st h' E No Nf|r h].
  - unfold EnableAsLeader, acquireLeaseForLeadership.
    destruct (acquireLeaseAttempt t r h) as [[[[] st] err] h1]; simpl in *; [|left; by apply kept_of_view; subst].
    right. exists st. destruct Ha as [-> Hc]. split; [done|]. eapply confirmed_view; [done|].
    rewrite view_keepalive. by rewrite view_save.
  - unfold promote_acquired, acquireLeaseForLeadership in E.
    destruct (acquireLeaseAttempt t r h) as [[[[] st] err] h1]; simplify_eq/=; [|left; by apply kept_of_view].
    right. exists st. destruct Ha as [-> Hc]. done.
  - unfold resumeAcquireRound in E. destruct (acquireLeaseAttempt t r h) as [[[[] st1] err] h1]; simplify_eq/=.
    + right. exists st. destruct Ha as [-> Hc]. split; [done|]. eapply confirmed_view; [done|]. apply view_resume.
    + repeat case_if; simplify_eq.
  - left. apply kept_of_view. rewrite view_resume. unfold resumeAcquireRound in E.
    destruct (acquireLeaseAttempt t r h) as [[[[] st1] err] h1]; simplify_eq/=. repeat case_if; by simplify_eq.
  - left. apply kept_of_view. unfold resumeAcquireRound in E.
    destruct (acquireLeaseAttempt t r h) as [[[[] st1] err] h1]; simplify_eq/=. repeat case_if; by simplify_eq.
  - left. apply kept_of_view. rewrite view_resume. unfold resumeAcquireRound in E.
    destruct (acquireLeaseAttempt t r h) as [[[[] st1] err] h1]; simplify_eq/=. repeat case_if; by simplify_eq.
  - unfold recovery_end. destruct (acquireLeaseAttempt t r h) as [[[[] st1] err] h1]; simpl in *.
    + destruct Ha as [-> Hc]. destruct err; simpl; right; exists st1; (split; [done|]); [done|].
      eapply confirmed_view; [done|]. apply view_complete.
    + left. apply kept_of_view. destruct err; simpl; [by subst|]. destruct (negb _ && _); simpl; [by rewrite view_foreign, Ha|by subst].
Qed.

(** ** The invariant *)

#[local] Set Default Proof Using "Type*".
Section covers.
Context `{ProviderLaws B}.

(** The backend keeps the lease for [n] at least up to [x]. *)
Definition covers (b : B) (n : string) (x : Instant) : Prop :=
  ∃ l, lease_of b = Some l ∧ l_holder l = n ∧ x ≤ l_expires l.

(** The backend's operations keep what they cover, or it is over. *)
Lemma acquire_covers t id b ans b' : backend_ok t b → id ≠ "" → watermark b < int64_max →
  Acquire t id b = (ans, b') →
  backend_ok t b' ∧ (∀ n x, covers b n x → covers b' n x ∨ x ≤ t) ∧
  (ans.1 = true → 0 ≤ ValidFor ans.2 ≤ int64_max ∧ covers b' id (t + ValidFor ans.2)).
Proof.
  intros Hok Hid Hroom E. destruct (live t b) as [l|] eqn:Hl.
  - destruct (acquire_denied t id b l Hok Hl) as (v&E'). rewrite E' in E. simplify_eq/=. split_and!; [done|by auto|done].
  - destruct (acquire_granted t id b Hok Hl Hid Hroom) as (e&v&x&b1&E'&He&Hw&Hb&Hv&Hx&Hok'). rewrite E' in E.
    simplify_eq/=. split_and!; [done| |].
    + intros n y (l&Hlb&_&Hy). right. unfold live in Hl. rewrite Hlb in Hl. case_if; [done|]. bprop. lia.
    + intros _. split; [done|]. eexists. split_and!; [done..|]. simpl. lia.
Qed.
Lemma renew_covers t id e b ans b' : backend_ok t b → Renew t id e b = (ans, b') →
  backend_ok t b' ∧ (∀ n x, covers b n x → covers b' n x) ∧
  (ans.1 = true → 0 ≤ ans.2 ≤ int64_max ∧ covers b' id (t + ans.2)).
Proof.
  intros Hok E. assert ((∃ x, live t b = Some (mkLease id e x)) ∨ ¬ ∃ x, live t b = Some (mkLease id e x)) as [[x Hl]|Hn].
  { destruct (live t b) as [[i e' x]|]; [|right; by intros [??]].
    destruct (decide (i = id)), (decide (e' = e)); [left|right..]; naive_solver. }
  - destruct (renew_kept t id e b x Hok Hl) as (v&x'&b1&E'&Hb&Hw&Hv&Hx&Hxx&Hok'). rewrite E' in E. simplify_eq/=.
    apply live_Some in Hl as [Hlb _]. split_and!; [done| |].
    + intros n y (l&Hlb'&Hn&Hy). rewrite Hlb in Hlb'. simplify_eq. eexists. split_and!; [done..|]. simpl in *. lia.
    + intros _. split; [done|]. eexists. split_and!; [done..|]. simpl. lia.
  - rewrite (renew_lost t id e b Hok) in E by (intros x Hx; apply Hn; eauto). by simplify_eq/=.
Qed.
End covers.

Section safety.
Context `{ProviderLaws B}.
Variable skew : string → Z.
Variable D : Duration.

(** A confirmation at the (real) instant [te] for [v] is covered by the backend, or over. *)
Definition sound_at (c : Cluster B) (n : string) (te : Instant) (v : Duration) : Prop :=
  0 ≤ v ≤ int64_max ∧ te ≤ now c ∧ (covers (backend c) n (te + v) ∨ te + v ≤ now c).

(** What a node believes: its window, less the margin, is covered or over. *)
Definition belief_ok (c : Cluster B) (n : string) (h : HAState) : Prop :=
  lease h = true ∧ leaseCandidateID h = n ∧
  (leaseEpoch h ≠ 0 → ∃ t, leaseConfirmedAt h = Some (local skew n t) ∧ leaseValidFor h ≤ int64_max ∧
     (covers (backend c) n (t + leaseValidFor h - haLeaseWriteMargin) ∨ t + leaseValidFor h - haLeaseWriteMargin ≤ now c)).

Definition acquire_ok (c : Cluster B) (a : AcquireCall) : Prop :=
  match aq_done a with Some (te, (true, st)) => sound_at c (aq_node a) te (ValidFor st) | _ => True end.
Definition renew_ok (c : Cluster B) (a : RenewCall) : Prop :=
  sn_id (rn_snap a) = rn_node a ∧
  match rn_done a with Some (te, (true, v)) => sound_at c (rn_node a) te v | _ => True end.

Record cluster_ok (c : Cluster B) : Prop := {
  co_backend : backend_ok (now c) (backend c);
  co_nodes n : belief_ok c n (nodes c n);
  co_acquires : Forall (acquire_ok c) (acquires c);
  co_renews : Forall (renew_ok c) (renews c);
}.

(** [c'] is no earlier than [c], and covers what [c] covered unless it is over. *)
Definition grows (c c' : Cluster B) : Prop :=
  now c ≤ now c' ∧ ∀ n x, covers (backend c) n x → covers (backend c') n x ∨ x ≤ now c'.

Lemma grows_same c c' : now c ≤ now c' → backend c' = backend c → grows c c'.
Proof. intros Ht Hb. split; [done|]. intros n x. rewrite Hb. auto. Qed.

Lemma sound_at_grows c c' n te v : grows c c' → sound_at c n te v → sound_at c' n te v.
Proof. intros [Ht Hg] (?&?&Hc). unfold sound_at. split_and!; try lia. destruct Hc as [Hc|?]; [by apply Hg|right; lia]. Qed.
Lemma belief_grows c c' n h : grows c c' → belief_ok c n h → belief_ok c' n h.
Proof.
  intros [Ht Hg] (Hl&Hid&Hb). split_and!; [done..|]. intros He. destruct (Hb He) as (t&?&?&Hc). exists t. split_and!; [done..|].
  destruct Hc as [Hc|?]; [by apply Hg|right; lia].
Qed.
Lemma acquires_grow c c' l : grows c c' → Forall (acquire_ok c) l → Forall (acquire_ok c') l.
Proof.
  intros Hg Hf. eapply Forall_impl; [exact Hf|]. intros a. unfold acquire_ok. destruct (aq_done a) as [[te [[] st]]|]; [|done..].
  by apply sound_at_grows.
Qed.
Lemma renews_grow c c' l : grows c c' → Forall (renew_ok c) l → Forall (renew_ok c') l.
Proof.
  intros Hg Hf. eapply Forall_impl; [exact Hf|]. intros a [? Ha]. split; [done|]. destruct (rn_done a) as [[te [[] v]]|]; [|done..].
  by eapply sound_at_grows.
Qed.


(** ** Every step keeps it *)

Lemma insert_belief c n h c' m : grows c c' → (∀ m, belief_ok c m (nodes c m)) → belief_ok c' n h →
  belief_ok c' m (<[n := h]> (nodes c) m).
Proof.
  intros Hg Hb Hn. destruct (decide (n = m)) as [->|Hne]; [by rewrite fn_lookup_insert|].
  rewrite fn_lookup_insert_ne by done. by eapply belief_grows.
Qed.

Lemma kept_belief c n h h' : belief_ok c n h → kept h h' → belief_ok c n h'.
Proof.
  intros (Hl&Hid&Hb) (Hl'&Hid'&Hk). split_and!; [congruence..|]. intros He.
  destruct Hk as [?|(He'&Hc&Hv)]; [done|]. rewrite He' in He. rewrite Hc, Hv. auto.
Qed.

(** An answer within the bound gives a belief that is sound. *)
Lemma confirmed_belief c n te v e h h' : 0 ≤ D ≤ haLeaseWriteMargin → belief_ok c n h → sound_at c n te v → now c ≤ te + D →
  confirmed (local skew n (now c)) e v h h' → belief_ok c n h'.
Proof.
  intros HD (Hl&Hid&_) (Hv&Hte&Hs) Hd (Hl'&Hid'&He&Hc&Hval). split_and!; [congruence..|]. intros _.
  exists (now c). rewrite Hc, Hval. split_and!; [done|lia|].
  destruct Hs as [(l&?&?&?)|?]; [left; exists l; split_and!; try done; lia|right; lia].
Qed.

Lemma renew_end_lease t sn r h :
  kept h (renew_end t sn r h).2 ∨ ∃ v, r = RpcOk (true, v) ∧ confirmed t (leaseEpoch h) v h (renew_end t sn r h).2.
Proof.
  destruct r as [[[] v]|]; simpl.
  - right. exists v. done.
  - left. apply kept_fence.
  - left. case_if; simpl; [apply kept_fence|by apply kept_of_view].
Qed.

(** A step that changes one node, and calls in ways that keep them sound. *)
Lemma ok_node c c' n h :
  cluster_ok c → now c' = now c → backend c' = backend c → nodes c' = <[n := h]> (nodes c) → belief_ok c n h →
  Forall (acquire_ok c) (acquires c') → Forall (renew_ok c) (renews c') → cluster_ok c'.
Proof.
  intros [Hb Hn Ha Hr] Ht Hbk Hns Hh Ha' Hr'. assert (grows c c') as Hg by (apply grows_same; [lia|done]).
  split.
  - by rewrite Ht, Hbk.
  - intros m. rewrite Hns. apply insert_belief; [done..|]. by eapply belief_grows.
  - by eapply acquires_grow.
  - by eapply renews_grow.
Qed.
Lemma ok_calls c c' :
  cluster_ok c → now c' = now c → backend c' = backend c → nodes c' = nodes c →
  Forall (acquire_ok c) (acquires c') → Forall (renew_ok c) (renews c') → cluster_ok c'.
Proof.
  intros Hok Ht Hbk Hns Ha' Hr'. assert (grows c c') as Hg by (apply grows_same; [lia|done]). split.
  - rewrite Ht, Hbk. apply Hok.
  - intros m. rewrite Hns. eapply belief_grows; [done|]. apply Hok.
  - by eapply acquires_grow.
  - by eapply renews_grow.
Qed.

Lemma boot_belief c n d : belief_ok c n (boot n d).
Proof. split; [done|]. split; [done|]. by intros []. Qed.

Lemma Forall_filter' {A} (P Q : A → Prop) `{∀ x, Decision (Q x)} l : Forall P l → Forall P (filter Q l).
Proof. intros Hf. apply Forall_forall. intros x [_ Hx]%list_elem_of_filter. by eapply Forall_forall in Hf. Qed.

Lemma exec_acquire_ok c n k l1 l2 ans b :
  cluster_ok c → acquires c = l1 ++ mkAcq n k None :: l2 → n ≠ "" → watermark (backend c) < int64_max →
  Acquire (now c) n (backend c) = (ans, b) →
  cluster_ok (set_backend (set_acquires c (l1 ++ mkAcq n k (Some (now c, ans)) :: l2)) b).
Proof.
  intros [Hb Hn Ha Hr] Ea Hne Hroom E. destruct (acquire_covers _ _ _ _ _ Hb Hne Hroom E) as (Hb'&Hg&Hans).
  assert (grows c (set_backend (set_acquires c (l1 ++ mkAcq n k (Some (now c, ans)) :: l2)) b)) as Hgr by (split; [simpl; lia|done]).
  split; simpl; [done|intros m; by eapply belief_grows| |by eapply renews_grow].
  eapply acquires_grow in Ha; [|done]. rewrite Ea in Ha. apply Forall_app in Ha as [Ha1 Ha2].
  apply Forall_cons in Ha2 as [_ Ha2]. apply Forall_app. split; [done|]. apply Forall_cons. split; [|done].
  unfold acquire_ok. simpl. destruct ans as [[] st]; [|done]. destruct (Hans eq_refl) as [Hv Hc].
  unfold sound_at. simpl in *. split_and!; try lia. by left.
Qed.
Lemma exec_renew_ok c n sn l1 l2 ans b :
  cluster_ok c → renews c = l1 ++ mkRen n sn None :: l2 →
  Renew (now c) (sn_id sn) (sn_epoch sn) (backend c) = (ans, b) →
  cluster_ok (set_backend (set_renews c (l1 ++ mkRen n sn (Some (now c, ans)) :: l2)) b).
Proof.
  intros [Hb Hn Ha Hr] Ea E. destruct (renew_covers _ _ _ _ _ _ Hb E) as (Hb'&Hg&Hans).
  assert (grows c (set_backend (set_renews c (l1 ++ mkRen n sn (Some (now c, ans)) :: l2)) b)) as Hgr by (split; [simpl; lia|simpl; auto]).
  split; simpl; [done|intros m; by eapply belief_grows|by eapply acquires_grow|].
  eapply renews_grow in Hr; [|done]. rewrite Ea in Hr. apply Forall_app in Hr as [Hr1 Hr2].
  apply Forall_cons in Hr2 as [[Hid _] Hr2]. apply Forall_app. split; [done|]. apply Forall_cons. split; [|done].
  simpl in Hid. split; [done|]. simpl. destruct ans as [[] v]; [|done]. destruct (Hans eq_refl) as [Hv Hc].
  unfold sound_at. simpl in *. rewrite Hid in Hc. split_and!; try lia. by left.
Qed.

Lemma answer_belief c n k done r h again hook : 0 ≤ D ≤ haLeaseWriteMargin → cluster_ok c →
  acquire_ok c (mkAcq n k done) → answered D done (now c) r →
  Handled (local skew n (now c)) k r (nodes c n) h again hook → belief_ok c n h.
Proof.
  intros HD Hok Hq Han Hh. pose proof (co_nodes c Hok n) as Hb.
  destruct (Handled_lease _ _ _ _ _ _ _ (proj1 Hb) Hh) as [Hk|(st&->&Hc)]; [by eapply kept_belief|].
  destruct Han as (te&->&Hd). exact (confirmed_belief c n te _ _ _ _ HD Hb Hq Hd Hc).
Qed.
Lemma answer_renew_belief c n sn done r : 0 ≤ D ≤ haLeaseWriteMargin → cluster_ok c →
  renew_ok c (mkRen n sn done) → answered D done (now c) r →
  belief_ok c n (renew_end (local skew n (now c)) sn r (nodes c n)).2.
Proof.
  intros HD Hok [_ Hq] Han. pose proof (co_nodes c Hok n) as Hb.
  destruct (renew_end_lease (local skew n (now c)) sn r (nodes c n)) as [Hk|(v&->&Hc)]; [by eapply kept_belief|].
  destruct Han as (te&->&Hd). exact (confirmed_belief c n te _ _ _ _ HD Hb Hq Hd Hc).
Qed.

Lemma step_ok c c' : 0 ≤ D ≤ haLeaseWriteMargin → Step skew D c c' → cluster_ok c → cluster_ok c'.
Proof.
  intros HD Hs Hok. pose proof (co_acquires c Hok) as Ha. pose proof (co_renews c Hok) as Hr.
  destruct Hs as [c t Ht|c n h Hop|c n|c n tok peer auto|c n reason h E|c n cfg|c n id E|c n sn E|c n k l1 l2 ans b Ea Hne Hroom E
    |c n sn l1 l2 ans b Ea E|c n k done l1 l2 r h again hook Ea Han Hh|c n sn done l1 l2 r Ea Han|c n reason l1 l2 out E].
  - assert (grows c (set_now c t)) as Hg by by apply grows_same.
    split; [eapply ok_later; [apply Hok|done]|intros m; eapply belief_grows; [done|apply Hok]|by eapply acquires_grow|by eapply renews_grow].
  - eapply ok_node; [done..| | |]; simpl; [|done..]. eapply kept_belief; [apply Hok|by eapply LocalOp_kept].
  - eapply ok_node; [done..| | |]; simpl; [apply boot_belief|by apply Forall_filter'..].
  - apply (ok_calls c); try done. by constructor.
  - eapply ok_node; [done..| | |]; simpl; [|by constructor|done].
    eapply kept_belief; [apply Hok|]. replace h with (promote_begin (nodes c n)).2 by by rewrite E. apply (LocalOp_kept 0). constructor.
  - apply (ok_calls c); try done. by constructor.
  - apply (ok_calls c); try done. by constructor.
  - apply (ok_calls c); try done. constructor; [|done]. split; [|done]. simpl. unfold renew_begin in E. case_if; simplify_eq/=. apply (co_nodes c Hok n).
  - by eapply exec_acquire_ok.
  - by eapply exec_renew_ok.
  - rewrite Ea in Ha. apply Forall_app in Ha as [Ha1 Ha2]. apply Forall_cons in Ha2 as [Hq Ha2].
    eapply ok_node; [done..| | |]; simpl; [by eapply answer_belief| |done].
    destruct again; apply Forall_app; split; try done. by constructor.
  - rewrite Ea in Hr. apply Forall_app in Hr as [Hr1 Hr2]. apply Forall_cons in Hr2 as [Hq Hr2].
    eapply ok_node; [done..| | |]; simpl; [by eapply answer_renew_belief|done|by apply Forall_app].
  - eapply ok_node; [done..| | |]; simpl; [|done..]. eapply kept_belief; [apply Hok|]. apply kept_of_view, promote_complete_spec.
Qed.

Lemma reachable_ok c : 0 ≤ D ≤ haLeaseWriteMargin → Reachable skew D c → cluster_ok c.
Proof.
  intros HD. induction 1 as [c (Hb&Hl&Hn&Ha&Hr&_)|c c' _ IH Hs]; [|by eapply step_ok].
  split; [done| |rewrite Ha; constructor|rewrite Hr; constructor].
  intros n. destruct (Hn n) as [d ->]. apply boot_belief.
Qed.
End safety.

(** ** At most one writer *)

Lemma writer_window now conf v h : lease h = true → leaseEpoch h ≠ 0 → leaseConfirmedAt h = Some conf → leaseValidFor h = v →
  v ≤ int64_max → WriteAllowed now h = true → now < conf + v - haLeaseWriteMargin.
Proof.
  intros Hl He Hc Hv Hm. unfold WriteAllowed. rewrite Hl, Hc, Hv. apply Z.eqb_neq in He as ->. simpl.
  unfold time_sub, haLeaseWriteMargin, Second. intros Hw. bprop. lia.
Qed.

(** C2: When every answer of the backend is handled within the write margin of the moment the
    backend gave it, a node has write authority only while it holds the live lease, whatever the
    schedule, the clocks' offsets, the failed calls and the restarts: so no two nodes have it at
    once. *)
Theorem single_writer `{ProviderLaws B} skew D (c : Cluster B) n :
  0 ≤ D ≤ haLeaseWriteMargin → Reachable skew D c → WriteAllowed (local skew n (now c)) (nodes c n) = true →
  (∃ l, live (now c) (backend c) = Some l ∧ l_holder l = n) ∧
  ∀ m, WriteAllowed (local skew m (now c)) (nodes c m) = true → m = n.
Proof.
  intros HD Hr Hw. pose proof (reachable_ok skew D c HD Hr) as Hok.
  assert (∀ n, WriteAllowed (local skew n (now c)) (nodes c n) = true →
    ∃ l, live (now c) (backend c) = Some l ∧ l_holder l = n) as Hlive.
  { clear n Hw. intros n Hw. destruct (co_nodes _ _ Hok n) as (Hl&_&Hb).
    assert (leaseEpoch (nodes c n) ≠ 0) as He by (intros He; unfold WriteAllowed in Hw; by rewrite Hl, He in Hw).
    destruct (Hb He) as (t&Hc&Hv&Hcov). pose proof (writer_window _ _ _ _ Hl He Hc eq_refl Hv Hw) as Hlt. unfold local in Hlt.
    destruct Hcov as [(l&Hlo&Hh&Hx)|?]; [|lia]. exists l. split; [|done]. apply live_Some. split; [done|lia]. }
  split; [by apply Hlive|]. intros m Hm. destruct (Hlive n Hw) as (l&El&<-), (Hlive m Hm) as (l'&El'&<-). congruence.
Qed.

(** *** Runs of two nodes *)

Definition two_start : Cluster Fake := mkCluster 0 (NewFake (10 * Second)) (λ n, boot n None) [] [] [].
Definition no_skew : string → Z := λ _, 0.
Lemma two_start_reachable D : Reachable no_skew D two_start.
Proof. apply reach_init. split_and!; try done. by exists None. Qed.

(** ["cp1"] enables HA at 0; the backend grants at once, the answer is handled at [d]. *)
Definition for_enable : AcquireFor := ForEnable "tok" "cp2:50051" false.
Definition grant1 : bool * Status := (true, mkStatus "cp1" 1 (10 * Second)).
Definition run1 : Cluster Fake := set_acquires two_start [mkAcq "cp1" for_enable None].
Definition run2 : Cluster Fake :=
  set_backend (set_acquires run1 [mkAcq "cp1" for_enable (Some (0, grant1))]) (mkFake "cp1" 1 (10 * Second) (10 * Second)).
Definition run3 (d : Duration) : Cluster Fake :=
  set_hooks (set_acquires (set_node (set_now run2 d) "cp1"
    (EnableAsLeader (local no_skew "cp1" d) (RpcOk grant1) "tok" "cp2:50051" false (boot "cp1" None)).2) []) [].

Lemma run3_reachable D d : 0 ≤ d ≤ D → Reachable no_skew D (run3 d).
Proof.
  intros Hd. eapply reach_step; [eapply (reach_step _ _ run2); [eapply (reach_step _ _ run1);
    [eapply (reach_step _ _ two_start); [apply two_start_reachable|]|]|]|].
  - exact (step_call_enable _ _ two_start "cp1" "tok" "cp2:50051" false).
  - exact (step_exec_acquire _ _ run1 "cp1" for_enable [] [] _ _ eq_refl ltac:(done) ltac:(done) eq_refl).
  - exact (step_time _ _ run2 d (proj1 Hd)).
  - refine (step_answer_acquire _ _ (set_now run2 d) "cp1" for_enable (Some (0, grant1)) [] [] (RpcOk grant1) _ false None eq_refl _ _).
    + exists 0. split; [done|]. simpl. lia.
    + constructor.
Qed.

Lemma single_writer_witness :
  let c := run3 Second in
  WriteAllowed (local no_skew "cp1" (now c)) (nodes c "cp1") = true ∧
  ∀ m, WriteAllowed (local no_skew m (now c)) (nodes c m) = true → m = "cp1".
Proof.
  intros c. assert (WriteAllowed (local no_skew "cp1" (now c)) (nodes c "cp1") = true) as Hw by (by vm_compute).
  split; [done|]. apply (single_writer no_skew haLeaseWriteMargin c "cp1"); [vm_compute; split; discriminate| |done].
  apply run3_reachable. vm_compute. split; discriminate.
Defined.

(** The keepalive of ["cp1"] asks at second 7 and gets no answer; at second 10 the lease lapses,
    and ["cp2"], a standby, is promoted. *)
Definition snap1 : RenewSnap := mkSnap "cp1" 1 (Some (5 * Second)) (10 * Second).
Definition grant2 : bool * Status := (true, mkStatus "cp2" 2 (10 * Second)).
Definition standby2 : HAState :=
  StartAsStandby (10 * Second) "cp1:50051" "tok" "cp2:50051" "" "" "" false true (boot "cp2" None).
Definition run4 : Cluster Fake := set_renews (set_now (run3 (5 * Second)) (7 * Second)) [mkRen "cp1" snap1 None].
Definition run5 : Cluster Fake := set_node (set_now run4 (10 * Second)) "cp2" standby2.
Definition run6 : Cluster Fake :=
  set_acquires (set_node run5 "cp2" (promote_begin standby2).2) [mkAcq "cp2" (ForPromote "manual promotion") None].
Definition run7 : Cluster Fake :=
  set_backend (set_acquires run6 [mkAcq "cp2" (ForPromote "manual promotion") (Some (10 * Second, grant2))])
    (mkFake "cp2" 2 (20 * Second) (10 * Second)).
Definition run8 : Cluster Fake :=
  set_hooks (set_acquires (set_node run7 "cp2" (promote_acquired (10 * Second) (RpcOk grant2) (promote_begin standby2).2).2) [])
    [("cp2", "manual promotion")].
Definition run9 : Cluster Fake :=
  set_hooks (set_node run8 "cp2" (promote_complete (10 * Second) HookOk "manual promotion" (nodes run8 "cp2"))) [].

Lemma run9_reachable : Reachable no_skew haLeaseOpTimeout run9.
Proof.
  eapply (reach_step _ _ run8); [eapply (reach_step _ _ run7); [eapply (reach_step _ _ run6); [eapply (reach_step _ _ run5);
    [eapply (reach_step _ _ (set_now run4 (10 * Second))); [eapply (reach_step _ _ run4);
    [eapply (reach_step _ _ (set_now (run3 (5 * Second)) (7 * Second)));
    [eapply (reach_step _ _ (run3 (5 * Second))); [apply run3_reachable|]|]|]|]|]|]|]|].
  - vm_compute. split; discriminate.
  - apply step_time. vm_compute. discriminate.
  - apply (step_call_renew _ _ (set_now (run3 (5 * Second)) (7 * Second)) "cp1" snap1). by vm_compute.
  - apply step_time. vm_compute. discriminate.
  - apply (step_local _ _ (set_now run4 (10 * Second)) "cp2"). apply (op_standby (10 * Second)).
  - refine (step_call_promote _ _ run5 "cp2" "manual promotion" (promote_begin standby2).2 _). by vm_compute.
  - refine (step_exec_acquire _ _ run6 "cp2" (ForPromote "manual promotion") [] [] grant2 _ eq_refl ltac:(done) ltac:(done) _).
    by vm_compute.
  - refine (step_answer_acquire _ _ run7 "cp2" (ForPromote "manual promotion") _ [] [] (RpcOk grant2) _ false _ eq_refl _
      (handled_promote _ _ _ _ true _ _)); [by exists (10 * Second)|by vm_compute].
  - exact (step_hook _ _ run8 "cp2" "manual promotion" [] [] HookOk eq_refl).
Qed.

(** With every answer handled within the timeout of the calls, two leaders can pass the gate
    of certificate issuance at the same instant: the validity the backend confirms counts from
    when it confirmed it, and the node counts it from when it handled the answer, up to five
    seconds later, with one second of margin. *)
Theorem late_confirmation_two_writers :
  ∃ c : Cluster Fake, Reachable no_skew haLeaseOpTimeout c ∧
    haIssuanceAllowed (local no_skew "cp1" (now c)) (nodes c "cp1") = (true, "") ∧
    haIssuanceAllowed (local no_skew "cp2" (now c)) (nodes c "cp2") = (true, "") ∧
    role (nodes c "cp1") = "leader" ∧ role (nodes c "cp2") = "leader".
Proof. exists run9. split; [apply run9_reachable|by vm_compute]. Qed.

(** ** Epochs fence whoever does not hold the lease *)

Section epochs.
Context `{ProviderLaws B}.
Variable skew : string → Z.
Variable D : Duration.

(** [e] was granted to [n]: if no later grant was made, [n] is the holder on record. *)
Definition claim (b : B) (n : string) (e : Z) : Prop :=
  0 < e ≤ watermark b ∧ (e = watermark b → ∃ l, lease_of b = Some l ∧ l_holder l = n).
Definition node_claim (b : B) (n : string) (h : HAState) : Prop :=
  lease h = true ∧ (leaseEpoch h = 0 ∨ claim b n (leaseEpoch h)).
Definition call_claim (b : B) (a : AcquireCall) : Prop :=
  match aq_done a with Some (_, (true, st)) => claim b (aq_node a) (Epoch st) | _ => True end.
Record epochs_ok (c : Cluster B) : Prop := {
  eo_backend : backend_ok (now c) (backend c);
  eo_nodes n : node_claim (backend c) n (nodes c n);
  eo_calls : Forall (call_claim (backend c)) (acquires c);
}.

(** [b'] keeps the claims of [b]. *)
Definition claims_kept (b b' : B) : Prop := ∀ n e, claim b n e → claim b' n e.

Lemma claims_node b b' n h : claims_kept b b' → node_claim b n h → node_claim b' n h.
Proof. intros Hk [? [?|?]]; split; auto. Qed.
Lemma claims_calls b b' l : claims_kept b b' → Forall (call_claim b) l → Forall (call_claim b') l.
Proof.
  intros Hk Hf. eapply Forall_impl; [exact Hf|]. intros a. unfold call_claim. destruct (aq_done a) as [[te [[] st]]|]; auto.
Qed.

Lemma acquire_claims t id b ans b' : backend_ok t b → id ≠ "" → watermark b < int64_max → Acquire t id b = (ans, b') →
  backend_ok t b' ∧ claims_kept b b' ∧ (ans.1 = true → claim b' id (Epoch ans.2)).
Proof.
  intros Hok Hid Hroom E. destruct (live t b) as [l|] eqn:Hl.
  - destruct (acquire_denied t id b l Hok Hl) as (v&E'). rewrite E' in E. simplify_eq/=. split; [done|]. split; [by intros ??|done].
  - destruct (acquire_granted t id b Hok Hl Hid Hroom) as (e&v&x&b1&E'&He&Hw&Hb&Hv&Hx&Hok'). rewrite E' in E.
    simplify_eq/=. pose proof (ok_watermark t b Hok). split_and!; [done| |].
    + intros n e' [? _]. split; lia.
    + intros _. split; [lia|]. intros _. eauto.
Qed.
Lemma renew_claims t id e b ans b' : backend_ok t b → Renew t id e b = (ans, b') → backend_ok t b' ∧ claims_kept b b'.
Proof.
  intros Hok E. destruct (live t b) as [l|] eqn:Hl.
  2: { rewrite (renew_lost t id e b Hok) in E by (intros x; by rewrite Hl). simplify_eq/=. split; [done|by intros ??]. }
  destruct (decide (l_holder l = id ∧ l_epoch l = e)) as [[<- <-]|Hn].
  - destruct (renew_kept t (l_holder l) (l_epoch l) b (l_expires l) Hok) as (v&x'&b1&E'&Hb&Hw&_&_&_&Hok'); [by destruct l|].
    rewrite E' in E. simplify_eq/=. apply live_Some in Hl as [Hl _]. split; [done|].
    intros n e' [? Hm]. split; [lia|]. rewrite Hw. intros He. destruct (Hm He) as (l'&Hl'&<-).
    rewrite Hl in Hl'. simplify_eq. eauto.
  - rewrite (renew_lost t id e b Hok) in E; [simplify_eq/=; split; [done|by intros ??]|]. intros x. rewrite Hl. intros [= ->]. by apply Hn.
Qed.

(** A node keeps its claim through a section that keeps its lease. *)
Lemma kept_claim b n h h' : kept h h' → node_claim b n h → node_claim b n h'.
Proof. intros (Hl&_&Hk) [? Hc]. split; [congruence|]. destruct Hk as [?|(->&_)]; auto. Qed.

Lemma ok_update c c' : epochs_ok c → now c' = now c → backend c' = backend c →
  (∀ n, node_claim (backend c) n (nodes c' n)) → Forall (call_claim (backend c)) (acquires c') → epochs_ok c'.
Proof. intros Hok Ht Hb Hn Ha. split; rewrite ?Ht, ?Hb; [apply Hok|done..]. Qed.

Lemma insert_claim c n h m : epochs_ok c → node_claim (backend c) n h →
  node_claim (backend c) m (<[n := h]> (nodes c) m).
Proof.
  intros Hok Hn. destruct (decide (n = m)) as [->|Hne]; [by rewrite fn_lookup_insert|].
  rewrite fn_lookup_insert_ne by done. apply Hok.
Qed.

Lemma exec_acquire_epochs c n k l1 l2 ans b :
  epochs_ok c → acquires c = l1 ++ mkAcq n k None :: l2 → n ≠ "" → watermark (backend c) < int64_max →
  Acquire (now c) n (backend c) = (ans, b) →
  epochs_ok (set_backend (set_acquires c (l1 ++ mkAcq n k (Some (now c, ans)) :: l2)) b).
Proof.
  intros [Hb Hn Ha] Ea Hne Hroom E. destruct (acquire_claims _ _ _ _ _ Hb Hne Hroom E) as (Hb'&Hk&Hans).
  split; simpl; [done|intros m; by eapply claims_node|].
  eapply claims_calls in Ha; [|done]. rewrite Ea in Ha. apply Forall_app in Ha as [Ha1 Ha2].
  apply Forall_cons in Ha2 as [_ Ha2]. apply Forall_app. split; [done|]. apply Forall_cons. split; [|done].
  unfold call_claim. simpl. destruct ans as [[] st]; [|done]. by apply Hans.
Qed.

Lemma step_epochs c c' : Step skew D c c' → epochs_ok c → epochs_ok c'.
Proof.
  intros Hs Hok. pose proof (eo_calls c Hok) as Ha.
  assert (∀ n h, kept (nodes c n) h → ∀ m, node_claim (backend c) m (<[n := h]> (nodes c) m)) as Hk.
  { intros n h Hkept m. apply insert_claim; [done|]. eapply kept_claim; [done|]. apply Hok. }
  destruct Hs as [c t Ht|c n h Hop|c n|c n tok peer auto|c n reason h E|c n cfg|c n id E|c n sn E|c n k l1 l2 ans b Ea Hne Hroom E
    |c n sn l1 l2 ans b Ea E|c n k done l1 l2 r h again hook Ea Han Hh|c n sn done l1 l2 r Ea Han|c n reason l1 l2 out E].
  - split; [eapply ok_later; [apply Hok|done]|apply Hok|done].
  - apply (ok_update c); try done. simpl. apply Hk. by eapply LocalOp_kept.
  - apply (ok_update c); try done; simpl; [|by apply Forall_filter'].
    intros m. apply insert_claim; [done|]. split; [done|by left].
  - apply (ok_update c); try done; [apply Hok|by constructor].
  - apply (ok_update c); try done; simpl; [|by constructor]. apply Hk.
    replace h with (promote_begin (nodes c n)).2 by by rewrite E. apply (LocalOp_kept 0). constructor.
  - apply (ok_update c); try done; [apply Hok|by constructor].
  - apply (ok_update c); try done; [apply Hok|by constructor].
  - apply (ok_update c); try done. apply Hok.
  - by eapply exec_acquire_epochs.
  - destruct (renew_claims _ _ _ _ _ _ (eo_backend c Hok) E) as [Hb' Hkc].
    split; simpl; [done|intros m; eapply claims_node; [done|apply Hok]|by eapply claims_calls].
  - rewrite Ea in Ha. apply Forall_app in Ha as [Ha1 Ha2]. apply Forall_cons in Ha2 as [Hq Ha2].
    apply (ok_update c); try done; simpl.
    + destruct (Handled_lease _ _ _ _ _ _ _ (proj1 (eo_nodes c Hok n)) Hh) as [Hkept|(st&->&Hc)]; [by apply Hk|].
      destruct Han as (te&->&_). intros m. apply insert_claim; [done|]. destruct Hc as (Hl&_&He&_).
      split; [rewrite Hl; apply Hok|]. right. by rewrite He.
    + destruct again; apply Forall_app; split; try done. by constructor.
  - apply (ok_update c); try done. simpl.
    destruct (renew_end_lease (local skew n (now c)) sn r (nodes c n)) as [Hkept|(v&->&Hc)]; [by apply Hk|].
    intros m. apply insert_claim; [done|]. destruct Hc as (Hl&_&He&_), (eo_nodes c Hok n) as [Hl' Hcl]. split; [congruence|]. by rewrite He.
  - apply (ok_update c); try done. simpl. apply Hk. apply kept_of_view, promote_complete_spec.
Qed.

Lemma reachable_epochs c : Reachable skew D c → epochs_ok c.
Proof.
  induction 1 as [c (Hb&Hl&Hn&Ha&_)|c c' _ IH Hs]; [|by eapply step_epochs].
  split; [done| |rewrite Ha; constructor]. intros n. destruct (Hn n) as [d ->]. split; [done|by left].
Qed.
End epochs.

Lemma observe_refuses w e d : 0 < dpLastSeenEpoch d → e < dpLastSeenEpoch d → (dpObserveEpoch w e d).1 = false.
Proof.
  intros Hp He. unfold dpObserveEpoch, obs_step. simpl. destruct (e <=? 0); simpl; [by rewrite (proj2 (Z.ltb_lt _ _) Hp)|].
  by rewrite (proj2 (Z.ltb_lt _ _) He).
Qed.

(** C20: In every reachable cluster, with no assumption on delays, the epoch a node other than the
    holder on record stamps is below the holder's: a Data Plane that has seen the holder's epoch
    refuses it, and so does a standby that reads the backend while the lease is live or lapsed. *)
Theorem stale_leader_fenced `{ProviderLaws B} skew D (c : Cluster B) l n :
  Reachable skew D c → lease_of (backend c) = Some l → n ≠ l_holder l →
  CurrentEpoch (nodes c n) < l_epoch l ∧
  (∀ w d, l_epoch l ≤ dpLastSeenEpoch d → (dpObserveEpoch w (CurrentEpoch (nodes c n)) d).1 = false) ∧
  (∀ h, lease h = true →
    verifyBundleEpoch (CurrentEpoch (nodes c n)) (RpcOk (Read (now c) (backend c))) h = false).
Proof.
  intros Hr Hl Hn. pose proof (reachable_epochs skew D c Hr) as [Hb Hnodes _].
  destruct (Hnodes n) as [Hlease Hcl]. destruct (ok_epoch _ _ _ Hb Hl) as [Hw Hpos].
  assert (CurrentEpoch (nodes c n) < l_epoch l) as Hlt.
  { unfold CurrentEpoch. rewrite Hlease. destruct Hcl as [->|[? Hm]]; [done|].
    destruct (decide (leaseEpoch (nodes c n) = watermark (backend c))) as [E|]; [|lia].
    destruct (Hm E) as (l'&Hl'&Hh). rewrite Hl in Hl'. by simplify_eq. }
  split_and!; [done| |].
  - intros w d Hd. apply observe_refuses; lia.
  - intros h Hh. unfold verifyBundleEpoch. rewrite Hh. simpl. destruct (live (now c) (backend c)) as [l'|] eqn:Hlv.
    + destruct (read_live _ _ _ Hb Hlv) as [_ He]. apply live_Some in Hlv as [Hlv _]. rewrite Hl in Hlv. simplify_eq.
      rewrite He. case_if; [done|]. apply negb_false_iff. lia.
    + by rewrite (read_free _ _ Hb Hlv).
Qed.

(** In the run above, what the superseded leader stamps is refused. *)
Lemma stale_leader_fenced_witness :
  CurrentEpoch (nodes run9 "cp1") = 1 ∧
  ∀ w d, 2 ≤ dpLastSeenEpoch d → (dpObserveEpoch w (CurrentEpoch (nodes run9 "cp1")) d).1 = false.
Proof.
  split; [by vm_compute|].
  apply (stale_leader_fenced no_skew haLeaseOpTimeout run9 (mkLease "cp2" 2 (20 * Second)) "cp1");
    [apply run9_reachable|by vm_compute|done].
Defined.
