(* ===== verification/Blocklist.v ===== *)
(** * The host blocklist ([internal/blocklist/blocklist.go], [delta.go])

    The store of blocked hosts: exact names, wildcards keyed by their dotted suffix, the
    admin's entries, the never-block exceptions, the feed each entry came from, the list mode,
    and the fingerprint of the set the control plane published.  A Go [map[string]bool] whose
    values are all [true] is a finite set.  The files beside the path are fields of the state;
    a write may fail, and the code drops the error.  The lock is the sequence of operations.

    - [is_blocked_correct]: the allocation-free probes of [IsBlocked] decide as the definition by
      domains: an entry covers its own name, a wildcard its domain and everything under it, an
      exception its domain and everything under it.
    - [store_typed]: whatever is done to the store, its maps keep their shape.
    - [manual_survives]: no feed, cluster or cleanup operation lifts an admin's block.
    - [blocklist_save_load]: what is saved is what is loaded, for entries the loader leaves alone.
    - [address_block_lost], [dotted_block_ignored], [dotted_exception_stays]: three spellings the
      store takes and then does not honour. *)

From S2P Require Import Prelude GoStrings GoNet GoIPText HostUtil.

(** SHA-256 as the big-endian integer of its 32 bytes. *)
Class Sha256Sum := {
  sha256_Sum : string → Z;
  sha256_Sum_range s : 0 ≤ sha256_Sum s < 2 ^ 256;
}.

(** A sum to evaluate with: any function into the range will do. *)
Definition length_sum : Sha256Sum :=
  {| sha256_Sum s := Z.of_nat (String.length s) mod 2 ^ 256; sha256_Sum_range s := Z.mod_pos_bound _ (2 ^ 256) eq_refl |}.

(** [range] over a set, in whatever order the runtime takes. *)
Definition range_set `{RangeOrder} (X : gset string) : list string := (range (gset_to_gmap tt X)).*1.

(** ** State *)

(** The [.sources] sidecar: missing, unparseable, or the JSON object it encodes. *)
Inductive SourcesFile := SourcesAbsent | SourcesBad | Sources (m : gmap string string).

(** The files at the persistence path; the text of each, or nothing. *)
Record Files := mkFiles {
  fl_main : option string; fl_mode : option string; fl_manual : option string; fl_exceptions : option string;
  fl_sources : SourcesFile;
}.
#[global] Instance Files_eta : Eta Files := λ f,
  mkFiles (fl_main f) (fl_mode f) (fl_manual f) (fl_exceptions f) (fl_sources f).

Record Store := mkStore {
  exact : gset string; wildcards : gset string; manual : gset string; exceptions : gset string;
  feedSrc : gmap string string; path : string; mode : string;
  syncedFP : Z;              (* the 32 bytes, as one integer *)
  files : Files; writes : bool;   (* whether a file write succeeds *)
}.
#[global] Instance Store_eta : Eta Store := λ b,
  mkStore (exact b) (wildcards b) (manual b) (exceptions b) (feedSrc b) (path b) (mode b) (syncedFP b) (files b) (writes b).

Record Entry := mkEntry { Host : string; Source : string; Feed : string }.

Definition New (f : Files) (w : bool) : Store := mkStore ∅ ∅ ∅ ∅ ∅ "" "" 0 f w.

(** ** Where a token lives *)

(** The full token of a wildcard is ["*.example.com"], its key [".example.com"]. *)
Definition is_wild (h : string) : bool := HasPrefix h "*.".
Definition listed (b : Store) (h : string) : bool :=
  if is_wild h then bool_decide (sdrop 1 h ∈ wildcards b) else bool_decide (h ∈ exact b).
Definition put (h : string) (b : Store) : Store :=
  if is_wild h then b <| wildcards := {[sdrop 1 h]} ∪ wildcards b |> else b <| exact := {[h]} ∪ exact b |>.
Definition drop_token (h : string) (b : Store) : Store :=
  if is_wild h then b <| wildcards := wildcards b ∖ {[sdrop 1 h]} |> else b <| exact := exact b ∖ {[h]} |>.

Section blocklist.
Context `{Unicode, Idna, RangeOrder}.

(** ** Matching *)

Definition hostKeyProbeMax : nat := 255.

(** [probePrefixed]: the key is built in a buffer or by concatenation, to the same bytes. *)
Definition probePrefixed (m : gset string) (prefix host : string) : bool :=
  if bool_decide (m = ∅) then false
  else let n := (String.length prefix + String.length host)%nat in
       if (hostKeyProbeMax <? n)%nat then bool_decide (prefix ++ host ∈ m)
       else let buf := prefix ++ host ++ String.concat "" (replicate (hostKeyProbeMax - n) (String "000" "")) in
            bool_decide (stake n buf ∈ m).

(** The walk of [isListed] over the dots of the host. *)
Fixpoint dots_listed (m : gset string) (host : string) : bool :=
  match host with
  | EmptyString => false
  | String c host' => (Ascii.eqb c "."%char && bool_decide (host ∈ m)) || dots_listed m host'
  end.

Definition isListed (b : Store) (host : string) : bool :=
  if bool_decide (host ∈ exact b) then true
  else if bool_decide (wildcards b = ∅) then false
  else if dots_listed (wildcards b) host then true
  else probePrefixed (wildcards b) "." host.

(** The walk of [isExcepted] over the parent domains. *)
Fixpoint parents_excepted (m : gset string) (host : string) : bool :=
  match host with
  | EmptyString => false
  | String c parent =>
      (Ascii.eqb c "."%char && (bool_decide (parent ∈ m) || probePrefixed m "*." parent)) || parents_excepted m parent
  end.

Definition isExcepted (b : Store) (host : string) : bool :=
  if bool_decide (exceptions b = ∅) then false
  else if bool_decide (host ∈ exceptions b) then true
  else if probePrefixed (exceptions b) "*." host then true
  else parents_excepted (exceptions b) host.

Definition IsBlocked (b : Store) (host : string) : bool :=
  let host := NormalizeHost host in
  if isExcepted b host then false
  else let listed := isListed b host in
       if (mode b =? "allow")%string then negb listed else listed.

(** ** Persistence *)

Definition write_files (f : Files → Files) (b : Store) : Store :=
  if writes b then b <| files := f (files b) |> else b.

Definition saveMode (b : Store) : Store :=
  if (path b =? "")%string then b else write_files (λ f, f <| fl_mode := Some (mode b) |>) b.
(** One host per line. *)
Definition lines_of (l : list string) : string := String.concat "" (map (λ h, h ++ String "010" "") l).
Definition saveExceptions (b : Store) : Store :=
  if (path b =? "")%string then b
  else write_files (λ f, f <| fl_exceptions := Some (lines_of (range_set (exceptions b))) |>) b.
Definition saveManual (b : Store) : Store :=
  if (path b =? "")%string then b
  else write_files (λ f, f <| fl_manual := Some (lines_of (range_set (manual b))) |>) b.

(** An attribution [Save] keeps: of a listed entry that is not the admin's. *)
Definition attributed (b : Store) (h : string) : bool := negb (bool_decide (h ∈ manual b)) && listed b h.
Definition List_tokens (b : Store) : list string := range_set (exact b) ++ map (String "*") (range_set (wildcards b)).
Definition Save (b : Store) : Store :=
  if (path b =? "")%string then b
  else
    let text := lines_of (List_tokens b) in
    let sources := filter (λ p, attributed b p.1 = true) (feedSrc b) in
    write_files (λ f, f <| fl_main := Some text |> <| fl_sources := Sources sources |>) b.

(** [loadHostSidecar], [loadFeedSources]. *)
Definition loadHostSidecar (data : option string) (lower : bool) : gset string :=
  match data with
  | None => ∅
  | Some data =>
      let norm line := let line := TrimSpace line in if lower then ToLower line else line in
      list_to_set (filter (λ l, l ≠ "") (map norm (Split data "010"%char)))
  end.
Definition loadFeedSources (f : SourcesFile) : gmap string string :=
  match f with Sources m => m | _ => ∅ end.

(** [net.IP.IsUnspecified] and [IsLoopback]. *)
Definition IsUnspecified (ip : IP) : bool :=
  match To4 ip with Some v => v =? 0 | None => match ip with IP16 v => v =? 0 | IP4 v => v =? 0 end end.
Definition IsLoopback (ip : IP) : bool :=
  match To4 ip with Some v => Z.shiftr v 24 =? 127 | None => match ip with IP16 v => v =? 1 | IP4 _ => false end end.

Definition hostsFileBoilerplate : gset string :=
  {["localhost"; "localhost.localdomain"; "local"; "broadcasthost"; "ip6-localhost"; "ip6-loopback";
    "ip6-localnet"; "ip6-mcastprefix"; "ip6-allnodes"; "ip6-allrouters"; "ip6-allhosts"]}.

(** The part of [NormalizeLine] after the host was picked out of the line. *)
Definition normalize_host (line : string) (hostsFormat : bool) : option string :=
  let line := match Index line "://" with Some i => sdrop (i + 3) line | None => line end in
  let line := match IndexAny line "/:?" with Some i => stake i line | None => line end in
  let line := ToLower line in
  let line := TrimSuffix line "." in
  if (line =? "")%string then None
  else if match ParseIP line with Some ip => IsUnspecified ip || IsLoopback ip | None => false end then None
  else if hostsFormat && bool_decide (line ∈ hostsFileBoilerplate) then None
  else Some line.

Definition NormalizeLine (raw : string) : option string :=
  let line := TrimSpace raw in
  if (line =? "")%string || HasPrefix line "#" then None
  else
    let line := match IndexByte line "#"%char with Some i => TrimSpace (stake i line) | None => line end in
    match Fields line with
    | [] => None
    | [f0] => normalize_host f0 false
    | f0 :: f1 :: _ => if bool_decide (ParseIP f0 ≠ None) then normalize_host f1 true else normalize_host f0 false
    end.

(** [bufio.Scanner] over lines: a line longer than its buffer stops it with an error. *)
Definition drop_cr (s : string) : string := TrimSuffix s (String "013" "").
Definition maxScanLine : nat := 65535.
Fixpoint scan_lines (l : list string) : list string * bool :=
  match l with
  | [] => ([], true)
  | [s] => if (s =? "")%string then ([], true)
           else if (maxScanLine <? String.length s)%nat then ([], false) else ([drop_cr s], true)
  | s :: l => if (maxScanLine <? String.length s)%nat then ([], false)
              else let '(ls, ok) := scan_lines l in (drop_cr s :: ls, ok)
  end.

(** [scanBlocklistEntries]: the exact names, the wildcards, and whether the scan ended well. *)
Definition scan_entry (acc : gset string * gset string) (raw : string) : gset string * gset string :=
  match NormalizeLine raw with
  | None => acc
  | Some line => if is_wild line then (acc.1, {[sdrop 1 line]} ∪ acc.2) else ({[line]} ∪ acc.1, acc.2)
  end.
Definition scanBlocklistEntries (text : string) : gset string * gset string * bool :=
  let '(ls, ok) := scan_lines (Split text "010"%char) in (fold_left scan_entry ls (∅, ∅), ok).

(** [Load]; [true] is its nil error.  First its mode sidecar: any value but ["allow"] leaves the mode. *)
Definition load_mode (b : Store) : Store :=
  match fl_mode (files b) with
  | Some data => if (TrimSpace data =? "allow")%string then b <| mode := "allow" |> else b
  | None => b
  end.
Definition Load (p : string) (b : Store) : bool * Store :=
  let b := b <| path := p |> in
  let f := files b in
  let b := load_mode b in
  let man := loadHostSidecar (fl_manual f) false in
  let exc := loadHostSidecar (fl_exceptions f) true in
  let src := loadFeedSources (fl_sources f) in
  match fl_main f with
  | None => (false, b)
  | Some text =>
      let '(ex, wi, ok) := scanBlocklistEntries text in
      (ok, b <| exact := ex |> <| wildcards := wi |> <| manual := man |> <| exceptions := exc |> <| feedSrc := src |>)
  end.

(** ** Operations *)

Definition Mode (b : Store) : string := if (mode b =? "allow")%string then "allow" else "block".
Definition SetMode (m : string) (b : Store) : Store :=
  saveMode (b <| mode := if (m =? "allow")%string then "allow" else "block" |>).

Definition AddException (host : string) (b : Store) : Store :=
  let host := NormalizeHost (TrimSpace host) in
  if (host =? "")%string then b else saveExceptions (b <| exceptions := {[host]} ∪ exceptions b |>).
Definition RemoveException (host : string) (b : Store) : Store :=
  let host := ToLower (TrimSpace host) in
  saveExceptions (b <| exceptions := exceptions b ∖ {[host]} |>).
(** [ListExceptions]: sorted. *)
Definition ListExceptions (b : Store) : list string := merge_sort String.le (elements (exceptions b)).

(** The form every ingest path gives a token. *)
Definition token (h : string) : string := ToLower (TrimSpace h).

Definition Add (host : string) (b : Store) : Store := put (token host) b.

Definition AddManual (host : string) (b : Store) : Store :=
  let host := token host in
  let b := put host b in
  Save (saveManual (b <| manual := {[host]} ∪ manual b |>)).

(** The loop of [AddManualBulk]: the count, whether anything changed, the store. *)
Definition bulk_step (acc : Z * bool * Store) (host : string) : Z * bool * Store :=
  let '(added, dirty, b) := acc in
  let host := token host in
  if (host =? "")%string then (added, dirty, b)
  else
    let '(dirty, b) := if listed b host then (dirty, b) else (true, put host b) in
    if bool_decide (host ∈ manual b) then (added, dirty, b)
    else (added + 1, true, b <| manual := {[host]} ∪ manual b |>).
Definition AddManualBulk (hosts : list string) (b : Store) : Z * Store :=
  let '(added, dirty, b) := fold_left bulk_step hosts (0, false, b) in
  (added, if (dirty : bool) then Save (saveManual b) else b).

Definition Remove (host : string) (b : Store) : Store :=
  let host := token host in
  let b := drop_token host b in
  saveManual (b <| manual := manual b ∖ {[host]} |> <| feedSrc := delete host (feedSrc b) |>).

Definition FeedList (b : Store) : list string :=
  filter (λ h, h ∉ manual b) (range_set (exact b)) ++
  filter (λ h, h ∉ manual b) (map (String "*") (range_set (wildcards b))).
Definition entry_of (b : Store) (h : string) : Entry :=
  if bool_decide (h ∈ manual b) then mkEntry h "manual" "" else mkEntry h "feed" (default "" (feedSrc b !! h)).
Definition ListWithSource (b : Store) : list Entry := map (entry_of b) (List_tokens b).
Definition Count (b : Store) : Z := Z.of_nat (size (exact b)) + Z.of_nat (size (wildcards b)).
Definition ClearAll (b : Store) : Store :=
  b <| exact := ∅ |> <| wildcards := ∅ |> <| manual := ∅ |> <| feedSrc := ∅ |>.

(** [RemoveByFeedSource] and [CountByFeedSource] range over the attributions. *)
Definition purge_step (feedURL : string) (acc : Z * Store) (p : string * string) : Z * Store :=
  let '(removed, b) := acc in
  let '(h, src) := p in
  if negb (src =? feedURL)%string || bool_decide (h ∈ manual b) then acc
  else let '(removed, b) := if listed b h then (removed + 1, drop_token h b) else (removed, b) in
       (removed, b <| feedSrc := delete h (feedSrc b) |>).
Definition RemoveByFeedSource (feedURL : string) (b : Store) : Z * Store :=
  let '(removed, b) := fold_left (purge_step feedURL) (range (feedSrc b)) (0, b) in
  (removed, if 0 <? removed then Save b else b).
Definition CountByFeedSource (feedURL : string) (b : Store) : Z :=
  fold_left (λ n p, if negb (p.2 =? feedURL)%string || bool_decide (p.1 ∈ manual b) then n
                    else if listed b p.1 then n + 1 else n) (range (feedSrc b)) 0.

Definition SnapshotFeedSources (b : Store) : gmap string string := feedSrc b.
Definition restore_step (b : Store) (p : string * string) : Store :=
  if bool_decide (p.1 ∈ manual b) || negb (listed b p.1) then b
  else match feedSrc b !! p.1 with
       | Some _ => b
       | None => b <| feedSrc := <[p.1 := p.2]> (feedSrc b) |>
       end.
Definition RestoreFeedSources (snap : gmap string string) (b : Store) : Store := fold_left restore_step (range snap) b.

(** [RemoveUnattributedFeedEntries]: its two loops. *)
Definition unowned (b : Store) (h : string) : bool :=
  negb (bool_decide (h ∈ manual b) || negb (default "" (feedSrc b !! h) =? "")%string).
Definition unattributed_exact (acc : Z * Store) (h : string) : Z * Store :=
  if unowned acc.2 h then (acc.1 + 1, acc.2 <| exact := exact acc.2 ∖ {[h]} |>) else acc.
Definition unattributed_wild (acc : Z * Store) (suffix : string) : Z * Store :=
  if unowned acc.2 (String "*" suffix) then (acc.1 + 1, acc.2 <| wildcards := wildcards acc.2 ∖ {[suffix]} |>) else acc.
Definition RemoveUnattributedFeedEntries (b : Store) : Z * Store :=
  let acc := fold_left unattributed_exact (range_set (exact b)) (0, b) in
  let '(removed, b) := fold_left unattributed_wild (range_set (wildcards acc.2)) acc in
  (removed, if 0 <? removed then Save b else b).

(** The loop of [MergeFromLines]. *)
Definition merge_step (source : string) (acc : Z * bool * Store) (raw : string) : Z * bool * Store :=
  let '(added, attr, b) := acc in
  match NormalizeLine raw with
  | None => acc
  | Some line =>
      let '(added, b) := if listed b line then (added, b) else (added + 1, put line b) in
      if negb (source =? "")%string && negb (bool_decide (line ∈ manual b))
         && negb (default "" (feedSrc b !! line) =? source)%string
      then (added, true, b <| feedSrc := <[line := source]> (feedSrc b) |>) else (added, attr, b)
  end.
Definition MergeFromLines (ls : list string) (source : string) (b : Store) : Z * Store :=
  let '(added, attr, b) := fold_left (merge_step source) ls (0, false, b) in
  (added, if (0 <? added) || (attr : bool) then Save b else b).

(** ** The set the control plane published ([delta.go]) *)

Context `{Sha256Sum}.

Definition normDeltaHost (h : string) : option string :=
  let h := token h in if (h =? "")%string then None else Some h.
(** [fpXOR], byte by byte on the array: on the integer it spells, at once. *)
Definition fpXOR (acc : Z) (tok : string) : Z := Z.lxor acc (sha256_Sum tok).
Definition feedSetFingerprint (hosts : list string) : Z :=
  fold_left (λ acc h, match normDeltaHost h with Some tok => fpXOR acc tok | None => acc end) hosts 0.
Definition fp_hex (fp : Z) : string := hex_digits 64 fp "".
Definition FeedSetFingerprint (hosts : list string) : string := fp_hex (feedSetFingerprint hosts).
Definition SyncedFingerprint (b : Store) : string := fp_hex (syncedFP b).

Definition put_map (acc : gset string * gset string) (h : string) : gset string * gset string :=
  if is_wild h then (acc.1, {[sdrop 1 h]} ∪ acc.2) else ({[h]} ∪ acc.1, acc.2).
Definition ReplaceFeedEntries (hosts : list string) (b : Store) : Store :=
  let fp := feedSetFingerprint hosts in
  let add acc h := let h := token h in if (h =? "")%string then acc else put_map acc h in
  let acc := fold_left add hosts (∅, ∅) in
  let acc := fold_left put_map (range_set (manual b)) acc in
  b <| syncedFP := fp |> <| exact := acc.1 |> <| wildcards := acc.2 |>.

(** [ApplyDelta]: the deduplicated sets, the fingerprint, then the maps. *)
Definition token_set (hosts : list string) : gset string := list_to_set (omap normDeltaHost hosts).
Definition remove_step (b : Store) (tok : string) : Store :=
  if bool_decide (tok ∈ manual b) then b
  else let b := drop_token tok b in b <| feedSrc := delete tok (feedSrc b) |>.
Definition ApplyDelta (added removed : list string) (b : Store) : Store :=
  let addSet := token_set added in
  let remSet := filter (λ tok, tok ∉ addSet) (token_set removed) in
  let acc := fold_left fpXOR (range_set addSet) (fold_left fpXOR (range_set remSet) 0) in
  let b := b <| syncedFP := Z.lxor (syncedFP b) acc |> in
  let b := fold_left remove_step (range_set remSet) b in
  fold_left (λ b tok, put tok b) (range_set addSet) b.

End blocklist.

(** ** The probes decide by domains *)

(** The domain [d] covers [h]: it is [h] or a parent of it. *)
Definition covers (d h : string) : Prop := h = d ∨ HasSuffix h ("." ++ d) = true.
Definition listed_ref (b : Store) (h : string) : Prop :=
  h ∈ exact b ∨ ∃ d, "." ++ d ∈ wildcards b ∧ covers d h.
Definition excepted_ref (b : Store) (h : string) : Prop :=
  ∃ d, (d ∈ exceptions b ∨ "*." ++ d ∈ exceptions b) ∧ covers d h.

Lemma probePrefixed_spec m p h : probePrefixed m p h = bool_decide (p ++ h ∈ m).
Proof.
  unfold probePrefixed. case_bool_decide as Hm.
  - subst. symmetry. apply bool_decide_eq_false. set_solver.
  - case_if; [done|]. by rewrite <- sapp_assoc, <- length_sapp, stake_app.
Qed.

Lemma suffix_dot_cons c h d :
  HasSuffix (String c h) ("." ++ d) = true ↔ (c = "."%char ∧ h = d) ∨ HasSuffix h ("." ++ d) = true.
Proof.
  rewrite !HasSuffix_spec. split.
  - intros [[|x t] E]; simpl in E; simplify_eq; [by left|]. right. by exists t.
  - intros [[-> ->]|[t ->]]; [by exists ""|by exists (String c t)].
Qed.

Lemma dots_listed_spec m h : dots_listed m h = true ↔ ∃ d, "." ++ d ∈ m ∧ HasSuffix h ("." ++ d) = true.
Proof.
  induction h as [|c h IH]; simpl.
  - split; [done|]. intros (d&_&E). apply HasSuffix_spec in E as [[|] E]; done.
  - rewrite orb_true_iff, andb_true_iff, Ascii.eqb_eq, bool_decide_eq_true, IH. setoid_rewrite suffix_dot_cons. split.
    + intros [[-> Hm]|(d&?&?)]; [exists h; split; [exact Hm|by left]|exists d; by auto].
    + intros (d&Hm&[[-> ->]|?]); [by left|right; by exists d].
Qed.

Lemma parents_excepted_spec m h :
  parents_excepted m h = true ↔ ∃ d, (d ∈ m ∨ "*." ++ d ∈ m) ∧ HasSuffix h ("." ++ d) = true.
Proof.
  induction h as [|c h IH]; simpl.
  - split; [done|]. intros (d&_&E). apply HasSuffix_spec in E as [[|] E]; done.
  - rewrite orb_true_iff, andb_true_iff, orb_true_iff, Ascii.eqb_eq, probePrefixed_spec, !bool_decide_eq_true, IH.
    setoid_rewrite suffix_dot_cons. split.
    + intros [[-> Hm]|(d&?&?)]; [exists h; split; [exact Hm|by left]|exists d; by auto].
    + intros (d&Hm&[[-> ->]|?]); [by left|right; by exists d].
Qed.

Lemma isListed_spec b h : isListed b h = true ↔ listed_ref b h.
Proof.
  unfold isListed, listed_ref, covers. case_bool_decide as He; [naive_solver|].
  case_bool_decide as Hw.
  - rewrite Hw. split; [done|]. intros [?|(d&?&_)]; set_solver.
  - destruct (dots_listed (wildcards b) h) eqn:Ed.
    + apply dots_listed_spec in Ed. naive_solver.
    + rewrite probePrefixed_spec, bool_decide_eq_true. split; [intros ?; right; exists h; auto|].
      intros [?|(d&Hd&[->|Hs])]; [done..|].
      assert (dots_listed (wildcards b) h = true) by (apply dots_listed_spec; eauto). congruence.
Qed.

Lemma isExcepted_spec b h : isExcepted b h = true ↔ excepted_ref b h.
Proof.
  unfold isExcepted, excepted_ref, covers. case_bool_decide as Hw.
  { rewrite Hw. split; [done|]. intros (d&[?|?]&_); set_solver. }
  case_bool_decide as He; [naive_solver|]. rewrite probePrefixed_spec. case_bool_decide as Hp; [naive_solver|].
  rewrite parents_excepted_spec. split; [intros (d&?&?); eauto|]. intros (d&Hd&[->|Hs]); [tauto|eauto].
Qed.

(** C23: The allocation-free probe sequence of [IsBlocked] decides by domains: with [h] the
    normalised host, no exception (an entry [d] or ["*."d]) may cover [h]; then in block mode
    the host must be an exact entry or be covered by a wildcard's domain, and in allow mode it
    must not. *)
Theorem is_blocked_correct `{Unicode, Idna} b host :
  let h := NormalizeHost host in
  IsBlocked b host = true ↔ ¬ excepted_ref b h ∧ (if (mode b =? "allow")%string then ¬ listed_ref b h else listed_ref b h).
Proof.
  intros h. unfold IsBlocked. fold h. pose proof (isExcepted_spec b h) as He. pose proof (isListed_spec b h) as Hl.
  destruct (isExcepted b h); [naive_solver|]. destruct (mode b =? "allow")%string, (isListed b h); naive_solver.
Qed.

(** ** The store as a set of tokens *)

(** Wildcards are keyed by a suffix that starts with a dot, and no exact name is a wildcard. *)
Record typed (b : Store) : Prop := {
  ty_wild w : w ∈ wildcards b → HasPrefix w "." = true;
  ty_exact h : h ∈ exact b → is_wild h = false;
}.
(** The mode is one of the two, or not set yet. *)
Definition mode_typed (b : Store) : Prop := mode b ∈ [""; "block"; "allow"].

Definition tokens (b : Store) : gset string := exact b ∪ set_map (String "*") (wildcards b).

Lemma wild_key h : is_wild h = true → h = String "*" (sdrop 1 h) ∧ HasPrefix (sdrop 1 h) "." = true.
Proof. unfold is_wild. intros [t ->]%HasPrefix_spec. split; [done|]. apply HasPrefix_spec. by exists t. Qed.
Lemma wild_star w : is_wild (String "*" w) = HasPrefix w ".".
Proof. unfold is_wild, HasPrefix. simpl. by destruct w. Qed.

Lemma elem_of_tokens b h : h ∈ tokens b ↔ h ∈ exact b ∨ ∃ w, h = String "*" w ∧ w ∈ wildcards b.
Proof. unfold tokens. set_solver. Qed.

Lemma listed_tokens b h : typed b → listed b h = true ↔ h ∈ tokens b.
Proof.
  intros [Hw He]. rewrite elem_of_tokens. unfold listed. destruct (is_wild h) eqn:Hh; rewrite bool_decide_eq_true.
  - destruct (wild_key h Hh) as [Hk _]. split; [intros ?; right; eauto|].
    intros [Hx|(w&->&Hin)]; [apply He in Hx; congruence|done].
  - split; [auto|]. intros [?|(w&->&Hin)]; [done|]. rewrite wild_star in Hh. rewrite Hw in Hh by done. done.
Qed.

Lemma put_typed h b : typed b → typed (put h b).
Proof.
  intros [Hw He]. unfold put. destruct (is_wild h) eqn:Hh; split; simpl; intros x.
  - rewrite elem_of_union, elem_of_singleton. intros [->|?]; [by apply wild_key|auto].
  - auto.
  - auto.
  - rewrite elem_of_union, elem_of_singleton. intros [->|?]; auto.
Qed.
Lemma drop_typed h b : typed b → typed (drop_token h b).
Proof. intros [Hw He]. unfold drop_token. destruct (is_wild h); split; simpl; intros x; set_solver. Qed.

Lemma put_tokens h b : tokens (put h b) = {[h]} ∪ tokens b.
Proof.
  apply set_eq. intros x. rewrite elem_of_union, elem_of_singleton, !elem_of_tokens. unfold put.
  destruct (is_wild h) eqn:Hh; simpl; [|set_solver]. destruct (wild_key h Hh) as [Hk _].
  setoid_rewrite elem_of_union. setoid_rewrite elem_of_singleton. split.
  - intros [?|(w&->&[->|?])]; [by auto|left; symmetry; exact Hk|right; right; by eauto].
  - intros [->|[?|(w&->&?)]]; [right; exists (sdrop 1 h); split; [exact Hk|by left]|by auto|right; by eauto].
Qed.
Lemma drop_tokens h b : typed b → tokens (drop_token h b) = tokens b ∖ {[h]}.
Proof.
  intros [Hw He]. apply set_eq. intros x. rewrite elem_of_difference, elem_of_singleton, !elem_of_tokens. unfold drop_token.
  destruct (is_wild h) eqn:Hh; simpl.
  - destruct (wild_key h Hh) as [Hk _]. split.
    + intros [Hx|(w&->&Hin)]; [split; [by left|]; intros ->; by rewrite He in Hh|]. split; [set_solver|].
      intros E. rewrite Hk in E. set_solver.
    + intros [[?|(w&->&Hin)] Hn]; [by left|]. right. exists w. split; [done|]. apply elem_of_difference. split; [done|].
      rewrite elem_of_singleton. intros ->. apply Hn. symmetry. exact Hk.
  - split.
    + intros [Hx|(w&->&Hin)]; [set_solver|]. split; [set_solver|]. intros <-. rewrite wild_star, Hw in Hh by done. done.
    + intros [[?|?] Hn]; [left; set_solver|by right].
Qed.

(** What the operations read and write, less the files. *)
Definition view (b : Store) := (exact b, wildcards b, manual b, exceptions b, feedSrc b, mode b, syncedFP b).
Lemma write_view f b : view (write_files f b) = view b.
Proof. unfold write_files. by case_if. Qed.
Lemma save_view `{RangeOrder} b : view (Save b) = view b.
Proof. unfold Save. case_if; [done|apply write_view]. Qed.
Lemma saveManual_view `{RangeOrder} b : view (saveManual b) = view b.
Proof. unfold saveManual. case_if; [done|apply write_view]. Qed.
Lemma saveExceptions_view `{RangeOrder} b : view (saveExceptions b) = view b.
Proof. unfold saveExceptions. case_if; [done|apply write_view]. Qed.
Lemma saveMode_view b : view (saveMode b) = view b.
Proof. unfold saveMode. case_if; [done|apply write_view]. Qed.

(** Facts of a view. *)
Lemma view_exact b b' : view b = view b' → exact b = exact b' ∧ wildcards b = wildcards b' ∧ manual b = manual b' ∧
  exceptions b = exceptions b' ∧ feedSrc b = feedSrc b' ∧ mode b = mode b' ∧ syncedFP b = syncedFP b'.
Proof. unfold view. by intros [= -> -> -> -> -> -> ->]. Qed.
Lemma view_typed b b' : view b = view b' → typed b' → typed b.
Proof. intros (E1&E2&_)%view_exact [Hw He]. split; rewrite ?E1, ?E2; auto. Qed.
Lemma view_tokens b b' : view b = view b' → tokens b = tokens b'.
Proof. intros (E1&E2&_)%view_exact. unfold tokens. by rewrite E1, E2. Qed.

Lemma fold_left_inv {A B} (P : B → Prop) (f : B → A → B) l b :
  P b → (∀ b a, P b → P (f b a)) → P (fold_left f l b).
Proof. intros Hb Hf. revert b Hb. induction l as [|a l IH]; simpl; auto. Qed.

Lemma range_set_elem `{RangeOrder} X x : x ∈ range_set X ↔ x ∈ X.
Proof.
  unfold range_set. rewrite list_elem_of_fmap. split.
  - intros ([y []]&->&Hin). apply elem_of_range in Hin. by apply lookup_gset_to_gmap_Some in Hin as [? _].
  - intros Hx. exists (x, tt). split; [done|]. apply elem_of_range, lookup_gset_to_gmap_Some. done.
Qed.
Lemma range_set_NoDup `{RangeOrder} X : NoDup (range_set X).
Proof. unfold range_set. rewrite range_perm. apply NoDup_fst_map_to_list. Qed.

(** *** Folds of insertions and removals *)

Definition fold_put (l : list string) (b : Store) : Store := fold_left (λ b tok, put tok b) l b.

Lemma put_fields h b : manual (put h b) = manual b ∧ feedSrc (put h b) = feedSrc b ∧ syncedFP (put h b) = syncedFP b.
Proof. unfold put. by case_if. Qed.
Lemma drop_fields h b : manual (drop_token h b) = manual b ∧ feedSrc (drop_token h b) = feedSrc b ∧ syncedFP (drop_token h b) = syncedFP b.
Proof. unfold drop_token. by case_if. Qed.

Lemma fold_put_spec l b : typed b →
  typed (fold_put l b) ∧ tokens (fold_put l b) = list_to_set l ∪ tokens b ∧
  manual (fold_put l b) = manual b ∧ feedSrc (fold_put l b) = feedSrc b ∧ syncedFP (fold_put l b) = syncedFP b.
Proof.
  unfold fold_put. revert b. induction l as [|h l IH]; intros b Hb; simpl; [split_and!; try done; set_solver|].
  destruct (IH (put h b) (put_typed h b Hb)) as (Ht&Htok&Hm&Hf&Hs). destruct (put_fields h b) as (Em&Ef&Es).
  rewrite Htok, put_tokens, Hm, Hf, Hs. split_and!; try done. set_solver.
Qed.

Definition bare (b : Store) : Store := b <| exact := ∅ |> <| wildcards := ∅ |>.
Lemma bare_typed b : typed (bare b).
Proof. split; simpl; intros x; by rewrite elem_of_empty. Qed.
Lemma bare_tokens b : tokens (bare b) = ∅.
Proof. unfold tokens, bare. simpl. set_solver. Qed.

Lemma put_map_put b h : put_map (exact b, wildcards b) h = (exact (put h b), wildcards (put h b)).
Proof. unfold put_map, put. by case_if. Qed.
Lemma fold_put_map l b : fold_left put_map l (exact b, wildcards b) = (exact (fold_put l b), wildcards (fold_put l b)).
Proof. unfold fold_put. revert b. induction l as [|h l IH]; intros b; simpl; [done|]. by rewrite put_map_put, IH. Qed.

Section tokens.
Context `{Unicode, Idna, RangeOrder, Sha256Sum}.

Lemma elem_of_token_set hosts t : t ∈ token_set hosts ↔ t ≠ "" ∧ ∃ h, h ∈ hosts ∧ token h = t.
Proof.
  unfold token_set. rewrite elem_of_list_to_set, list_elem_of_omap. unfold normDeltaHost. split.
  - intros (h&Hin&E). case_if; [done|]. bprop. simplify_eq. eauto.
  - intros (Hne&h&Hin&<-). exists h. split; [done|]. by apply String.eqb_neq in Hne as ->.
Qed.

Lemma fold_add_map hosts b :
  fold_left (λ acc h, if (token h =? "")%string then acc else put_map acc (token h)) hosts (exact b, wildcards b)
  = (exact (fold_put (omap normDeltaHost hosts) b), wildcards (fold_put (omap normDeltaHost hosts) b)).
Proof.
  unfold fold_put. revert b. induction hosts as [|h hosts IH]; intros b; simpl; [done|].
  assert (normDeltaHost h = if (token h =? "")%string then None else Some (token h)) as -> by done.
  destruct (token h =? "")%string; [apply IH|]. rewrite put_map_put. apply IH.
Qed.

(** A full apply: the published set and the admin's entries. *)
Lemma ReplaceFeedEntries_spec hosts b :
  let b' := ReplaceFeedEntries hosts b in
  typed b' ∧ tokens b' = token_set hosts ∪ manual b ∧ manual b' = manual b ∧ feedSrc b' = feedSrc b ∧
  syncedFP b' = feedSetFingerprint hosts.
Proof.
  simpl. set (l := omap normDeltaHost hosts).
  assert (fold_left put_map (range_set (manual b))
     (fold_left (λ acc h, if (token h =? "")%string then acc else put_map acc (token h)) hosts (∅, ∅)) =
     (exact (fold_put (range_set (manual b)) (fold_put l (bare b))), wildcards (fold_put (range_set (manual b)) (fold_put l (bare b))))) as E.
  { change (∅, ∅) with (exact (bare b), wildcards (bare b)). by rewrite fold_add_map, fold_put_map. }
  destruct (fold_put_spec l (bare b) (bare_typed b)) as (T1&K1&_).
  destruct (fold_put_spec (range_set (manual b)) _ T1) as (T2&K2&_).
  unfold ReplaceFeedEntries. cbv zeta. rewrite E. simpl. split_and!; try done.
  - destruct T2 as [Tw Te]. split; simpl; auto.
  - unfold tokens at 1. simpl. unfold tokens at 1 in K2. rewrite K2, K1, bare_tokens.
    apply set_eq. intros x. rewrite !elem_of_union, !elem_of_list_to_set, range_set_elem. unfold token_set, l.
    rewrite elem_of_list_to_set. set_solver.
Qed.

(** Removing tokens, the admin's excepted. *)
Lemma fold_remove_spec l b : typed b →
  let b' := fold_left remove_step l b in
  typed b' ∧ tokens b' = tokens b ∖ (list_to_set l ∖ manual b) ∧ manual b' = manual b ∧ syncedFP b' = syncedFP b.
Proof.
  revert b. induction l as [|h l IH]; intros b Hb; simpl; [split_and!; try done; set_solver|].
  destruct (decide (h ∈ manual b)) as [Hm|Hm].
  - assert (remove_step b h = b) as -> by (unfold remove_step; by rewrite bool_decide_true). destruct (IH b Hb) as (?&->&->&->). split_and!; try done. set_solver.
  - set (b1 := (drop_token h b) <| feedSrc := delete h (feedSrc (drop_token h b)) |>).
    assert (remove_step b h = b1) as -> by (unfold remove_step; rewrite (bool_decide_false (h ∈ manual b)) by done; reflexivity).
    assert (typed b1 ∧ tokens b1 = tokens b ∖ {[h]} ∧ manual b1 = manual b ∧ syncedFP b1 = syncedFP b) as (T&K&M&S).
    { destruct (drop_fields h b) as (Em&_&Es), (drop_typed h b Hb) as [Tw Te]. split_and!; [split; simpl; auto|by rewrite <- drop_tokens|exact Em|exact Es]. }
    destruct (IH b1 T) as (?&->&->&->). rewrite K, M. split_and!; try done. set_solver.
Qed.

(** An incremental apply. *)
Lemma ApplyDelta_spec added removed b : typed b →
  let b' := ApplyDelta added removed b in
  typed b' ∧ manual b' = manual b ∧
  tokens b' = (tokens b ∖ ((token_set removed ∖ token_set added) ∖ manual b)) ∪ token_set added ∧
  syncedFP b' = Z.lxor (syncedFP b) (fold_left fpXOR (range_set (token_set added))
     (fold_left fpXOR (range_set (filter (λ t, t ∉ token_set added) (token_set removed))) 0)).
Proof.
  intros Hb. simpl. unfold ApplyDelta. set (remSet := filter _ (token_set removed)).
  set (b1 := b <| syncedFP := _ |>).
  assert (typed b1) as Hb1 by (destruct Hb; split; auto).
  destruct (fold_remove_spec (range_set remSet) b1 Hb1) as (T2&K2&M2&S2).
  destruct (fold_put_spec (range_set (token_set added)) _ T2) as (T3&K3&M3&_&S3). unfold fold_put in *.
  split_and!; [done|by rewrite M3, M2| |by rewrite S3, S2].
  rewrite K3, K2. apply set_eq. intros x.
  rewrite !elem_of_union, !elem_of_difference, !elem_of_list_to_set, !range_set_elem. unfold remSet.
  rewrite elem_of_filter. change (manual b1) with (manual b). change (tokens b1) with (tokens b). tauto.
Qed.
End tokens.

(** ** The admin's blocks survive *)

(** Every admin entry is enforced. *)
Definition enforced (b : Store) : Prop := typed b ∧ manual b ⊆ tokens b.
(** [b'] keeps the shape and the admin's entries of [b]. *)
Definition keeps (b b' : Store) : Prop :=
  (typed b → typed b') ∧ (typed b → manual b ⊆ manual b') ∧ (enforced b → enforced b') ∧ (mode_typed b → mode_typed b').

Lemma keeps_refl b : keeps b b.
Proof. by split_and!. Qed.
Lemma keeps_trans b1 b2 b3 : keeps b1 b2 → keeps b2 b3 → keeps b1 b3.
Proof. intros (T1&M1&E1&D1) (T2&M2&E2&D2). split_and!; auto. intros T. etrans; auto. Qed.
Lemma keeps_view b b' : view b' = view b → keeps b b'.
Proof.
  intros Hv. pose proof (view_tokens _ _ Hv) as Ht. pose proof (view_exact _ _ Hv) as (_&_&Hm&_&_&Hmd&_).
  assert (typed b → typed b') as HT by (intros; by eapply view_typed). split_and!; [done|by rewrite Hm| |].
  - intros [T Hs]. split; [auto|]. by rewrite Hm, Ht.
  - unfold mode_typed. by rewrite Hmd.
Qed.
(** A store whose tokens and admin entries only grow, or lose what is not the admin's. *)
Lemma keeps_tokens b b' :
  (typed b → typed b') → manual b' = manual b ∧ (mode_typed b → mode_typed b') → (typed b → tokens b ∖ tokens b' ## manual b) → keeps b b'.
Proof.
  intros HT [Hm Hmd] Hd. split_and!; [done|by rewrite Hm| |done]. intros [T Hs]. split; [auto|]. rewrite Hm. intros x Hx.
  specialize (Hd T). destruct (decide (x ∈ tokens b')); [done|]. set_solver.
Qed.
Lemma put_mode h b : manual (put h b) = manual b ∧ (mode_typed b → mode_typed (put h b)).
Proof. unfold put. by case_if. Qed.
Lemma drop_mode h b : manual (drop_token h b) = manual b ∧ (mode_typed b → mode_typed (drop_token h b)).
Proof. unfold drop_token. by case_if. Qed.
Lemma keeps_put h b : keeps b (put h b).
Proof.
  apply keeps_tokens; [apply put_typed|apply put_mode|]. intros _. rewrite put_tokens. set_solver.
Qed.
Lemma keeps_drop h b : h ∉ manual b → keeps b (drop_token h b).
Proof.
  intros Hh. apply keeps_tokens; [apply drop_typed|apply drop_mode|]. intros T. rewrite drop_tokens by done. set_solver.
Qed.
Lemma keeps_manual h b : keeps b (b <| manual := {[h]} ∪ manual b |>) ∨ h ∉ tokens b.
Proof.
  destruct (decide (h ∈ tokens b)) as [Hh|]; [left|by right]. split_and!.
  - intros [? ?]. by split.
  - simpl. set_solver.
  - intros [[? ?] Hs]. split; [by split|]. simpl. change (tokens (b <| manual := _ |>)) with (tokens b). set_solver.
  - done.
Qed.

(** Through a fold. *)
Lemma keeps_fold {A C} (st : C → Store) (f : C → A → C) l c :
  (∀ c a, keeps (st c) (st (f c a))) → keeps (st c) (st (fold_left f l c)).
Proof.
  intros Hf. revert c. induction l as [|a l IH]; intros c; simpl; [apply keeps_refl|]. eapply keeps_trans; [apply Hf|apply IH].
Qed.

Section survival.
Context `{Unicode, Idna, RangeOrder, Sha256Sum}.

Lemma keeps_save b b' : keeps b b' → keeps b (Save b').
Proof. intros Hk. eapply keeps_trans; [done|]. apply keeps_view, save_view. Qed.
Lemma keeps_saveManual b b' : keeps b b' → keeps b (saveManual b').
Proof. intros Hk. eapply keeps_trans; [done|]. apply keeps_view, saveManual_view. Qed.

(** Putting a token and marking it the admin's. *)
Lemma keeps_put_manual h b : keeps b ((put h b) <| manual := {[h]} ∪ manual (put h b) |>).
Proof.
  destruct (keeps_manual h (put h b)) as [Hk|Hn]; [eapply keeps_trans; [apply keeps_put|done]|].
  rewrite put_tokens in Hn. set_solver.
Qed.

Lemma keeps_bulk acc h : keeps acc.2 (bulk_step acc h).2.
Proof.
  destruct acc as [[added dirty] b]. unfold bulk_step. case_if; [apply keeps_refl|].
  destruct (listed b (token h)) eqn:Hl.
  - case_bool_decide; [apply keeps_refl|]. simpl.
    destruct (keeps_manual (token h) b) as [Hk|Hn]; [done|].
    (* without its shape the store has nothing to keep *)
    assert (¬ typed b) as Hnt by (intros T; by apply Hn, listed_tokens).
    split_and!; [done|done| |done]. by intros [? _].
  - destruct (put_fields (token h) b) as (Em&_). case_bool_decide as Hm; [apply keeps_put|]. simpl. apply keeps_put_manual.
Qed.
Lemma keeps_purge url acc p : keeps acc.2 (purge_step url acc p).2.
Proof.
  destruct acc as [removed b], p as [h src]. unfold purge_step. case_if; [apply keeps_refl|].
  apply orb_false_iff in Heqb0 as [_ Hm]. apply bool_decide_eq_false in Hm.
  assert (∀ b', keeps b b' → keeps b (b' <| feedSrc := delete h (feedSrc b') |>)) as Hd.
  { intros b' Hk. eapply keeps_trans; [exact Hk|]. apply keeps_tokens; [by intros [? ?]|done|].
    intros _. change (tokens (b' <| feedSrc := _ |>)) with (tokens b'). set_solver. }
  destruct (listed b h); simpl; apply Hd; [by apply keeps_drop|apply keeps_refl].
Qed.
Lemma keeps_restore b p : keeps b (restore_step b p).
Proof.
  unfold restore_step. case_if; [apply keeps_refl|]. destruct (feedSrc b !! p.1); [apply keeps_refl|].
  apply keeps_tokens; [by intros [? ?]|done|]. intros _. change (tokens (b <| feedSrc := _ |>)) with (tokens b). set_solver.
Qed.
Lemma keeps_unexact acc h : keeps acc.2 (unattributed_exact acc h).2.
Proof.
  unfold unattributed_exact, unowned. case_if; [|apply keeps_refl]. simpl.
  apply negb_true_iff, orb_false_iff in Heqb as [Hm _]. apply bool_decide_eq_false in Hm.
  apply keeps_tokens; [intros [? Te]; split; simpl; [done|]; intros x; set_solver|done|].
  intros _. unfold tokens. simpl. set_solver.
Qed.
Lemma keeps_unwild acc w : keeps acc.2 (unattributed_wild acc w).2.
Proof.
  unfold unattributed_wild, unowned. case_if; [|apply keeps_refl]. simpl.
  apply negb_true_iff, orb_false_iff in Heqb as [Hm _]. apply bool_decide_eq_false in Hm.
  apply keeps_tokens; [intros [Tw ?]; split; simpl; [intros x; set_solver|done]|done|].
  intros _ x. unfold tokens. simpl. rewrite elem_of_difference, !elem_of_union, !elem_of_map. intros [[?|(y&->&Hy)] Hn] Hx; [naive_solver|].
  apply Hn. right. exists y. split; [done|]. apply elem_of_difference. split; [done|]. rewrite elem_of_singleton. by intros ->.
Qed.
Lemma keeps_merge source acc raw : keeps acc.2 (merge_step source acc raw).2.
Proof.
  destruct acc as [[added attr] b]. unfold merge_step. destruct (NormalizeLine raw) as [line|]; [|apply keeps_refl].
  assert (∀ b', keeps b b' → keeps b (b' <| feedSrc := <[line := source]> (feedSrc b') |>)) as Hd.
  { intros b' Hk. eapply keeps_trans; [exact Hk|]. apply keeps_tokens; [by intros [? ?]|done|].
    intros _. change (tokens (b' <| feedSrc := _ |>)) with (tokens b'). set_solver. }
  destruct (listed b line); simpl; case_if; simpl; try apply Hd; try apply keeps_refl; apply keeps_put.
Qed.
Lemma keeps_replace hosts b : keeps b (ReplaceFeedEntries hosts b).
Proof.
  destruct (ReplaceFeedEntries_spec hosts b) as (T&K&M&_). apply keeps_tokens; [done..|]. intros _. rewrite K. set_solver.
Qed.
Lemma keeps_delta added removed b : keeps b (ApplyDelta added removed b).
Proof.
  split_and!.
  - intros T. by apply ApplyDelta_spec.
  - intros T. destruct (ApplyDelta_spec added removed b T) as (_&->&_). done.
  - intros [T Hs]. destruct (ApplyDelta_spec added removed b T) as (T'&M&K&_). split; [done|]. rewrite M, K. set_solver.
  - intros Hm. unfold ApplyDelta. apply (fold_left_inv mode_typed); [|intros; by apply put_mode].
    apply (fold_left_inv mode_typed); [done|]. intros b' t Hb'. unfold remove_step. case_if; [done|].
    by apply (drop_mode t b').
Qed.

(** The whole operations. *)
Lemma keeps_mode m b : keeps b (SetMode m b).
Proof.
  eapply keeps_trans; [|apply keeps_view, saveMode_view]. apply keeps_tokens; [by intros [? ?]| |set_solver].
  split; [done|]. intros _. unfold mode_typed. simpl. case_if; set_solver.
Qed.
Lemma keeps_exceptions X b : keeps b (saveExceptions (b <| exceptions := X |>)).
Proof. eapply keeps_trans; [|apply keeps_view, saveExceptions_view]. apply keeps_tokens; [by intros [? ?]|done|]. set_solver. Qed.
Lemma keeps_AddManual h b : keeps b (AddManual h b).
Proof. apply keeps_save, keeps_saveManual, keeps_put_manual. Qed.
Lemma keeps_AddManualBulk hosts b : keeps b (AddManualBulk hosts b).2.
Proof.
  unfold AddManualBulk. pose proof (keeps_fold snd bulk_step hosts (0, false, b) keeps_bulk) as Hk.
  destruct (fold_left bulk_step hosts _) as [[added dirty] b']. simpl in *. case_if; [|done].
  by apply keeps_save, keeps_saveManual.
Qed.
Lemma keeps_RemoveByFeedSource url b : keeps b (RemoveByFeedSource url b).2.
Proof.
  unfold RemoveByFeedSource. pose proof (keeps_fold snd (purge_step url) (range (feedSrc b)) (0, b) (keeps_purge url)) as Hk.
  destruct (fold_left _ _ _) as [removed b']. simpl in *. case_if; [by apply keeps_save|done].
Qed.
Lemma keeps_RemoveUnattributed b : keeps b (RemoveUnattributedFeedEntries b).2.
Proof.
  unfold RemoveUnattributedFeedEntries.
  pose proof (keeps_fold snd unattributed_exact (range_set (exact b)) (0, b) keeps_unexact) as K1. cbv zeta.
  set (acc := fold_left unattributed_exact _ _) in *.
  pose proof (keeps_fold snd unattributed_wild (range_set (wildcards acc.2)) acc keeps_unwild) as K2.
  destruct (fold_left unattributed_wild _ _) as [removed b']. simpl in *.
  assert (keeps b b') by (by eapply keeps_trans). case_if; [by apply keeps_save|done].
Qed.
Lemma keeps_MergeFromLines ls source b : keeps b (MergeFromLines ls source b).2.
Proof.
  unfold MergeFromLines. pose proof (keeps_fold snd (merge_step source) ls (0, false, b) (keeps_merge source)) as Hk.
  destruct (fold_left _ _ _) as [[added attr] b']. simpl in *. case_if; [by apply keeps_save|done].
Qed.

(** A removal takes the token from the enforcement and from the admin's set together. *)
Lemma Remove_spec h b : typed b →
  typed (Remove h b) ∧ tokens (Remove h b) = tokens b ∖ {[token h]} ∧ manual (Remove h b) = manual b ∖ {[token h]}.
Proof.
  intros Hb. unfold Remove. cbv zeta. set (b1 := (drop_token (token h) b) <| manual := _ |> <| feedSrc := _ |>).
  pose proof (saveManual_view b1) as Hv. destruct (drop_fields (token h) b) as (Em&_), (drop_typed (token h) b Hb) as [Tw Te].
  destruct (view_exact _ _ Hv) as (_&_&Hm&_). split_and!.
  - eapply view_typed; [exact Hv|]. split; simpl; auto.
  - rewrite (view_tokens _ _ Hv), <- drop_tokens by done. done.
  - rewrite Hm. simpl. by rewrite Em.
Qed.
Lemma Remove_mode h b : mode_typed b → mode_typed (Remove h b).
Proof.
  intros Hb. unfold Remove. cbv zeta. match goal with |- mode_typed (saveManual ?b1) => pose proof (saveManual_view b1) as Hv end.
  apply view_exact in Hv as (_&_&_&_&_&Hm&_). unfold mode_typed. rewrite Hm. by apply (drop_mode (token h) b).
Qed.

Lemma scan_typed text b :
  let '(ex, wi, _) := scanBlocklistEntries text in exact b = ex → wildcards b = wi → typed b.
Proof.
  unfold scanBlocklistEntries. destruct (scan_lines _) as [ls ok].
  destruct (fold_left scan_entry ls (∅, ∅)) as [ex wi] eqn:E. intros <- <-.
  pose proof (fold_left_inv (λ acc : gset string * gset string, (∀ w, w ∈ acc.2 → HasPrefix w "." = true) ∧ (∀ h, h ∈ acc.1 → is_wild h = false))
    scan_entry ls (∅, ∅)) as HI. rewrite E in HI. simpl in HI. destruct HI as [Hw He]; [set_solver| |by split].
  intros [ex wi] raw [Hw He]. unfold scan_entry. destruct (NormalizeLine raw) as [line|]; [|by split].
  destruct (is_wild line) eqn:Hl; simpl in *; split; intros x; rewrite ?elem_of_union, ?elem_of_singleton; auto.
  - intros [->|?]; [by apply wild_key|auto].
  - intros [->|?]; auto.
Qed.
Lemma Load_typed p b : typed b → typed (Load p b).2.
Proof.
  intros Hb. unfold Load. cbv zeta. set (b1 := load_mode _).
  assert (exact b1 = exact b ∧ wildcards b1 = wildcards b) as [E1 E2].
  { unfold b1, load_mode. simpl. destruct (fl_mode (files b)); [|done]. by case_if. }
  clearbody b1. destruct (fl_main _) as [text|].
  - destruct (scanBlocklistEntries text) as [[ex wi] ok] eqn:E. simpl.
    match goal with |- typed ?b2 => pose proof (scan_typed text b2) as HT end. rewrite E in HT. by apply HT.
  - simpl. destruct Hb. split; rewrite ?E1, ?E2; auto.
Qed.
Lemma Load_mode p b : mode_typed b → mode_typed (Load p b).2.
Proof.
  intros Hb. unfold Load. cbv zeta. set (b1 := load_mode _).
  assert (mode_typed b1) as Hb1.
  { unfold b1, load_mode. destruct (fl_mode _); [|done]. case_if; [|done]. unfold mode_typed. simpl. set_solver. }
  clearbody b1. destruct (fl_main _); [|done]. by destruct (scanBlocklistEntries _) as [[? ?] ?].
Qed.
End survival.

(** ** Histories *)

Inductive Op :=
  | OSetMode (m : string) | OAddException (h : string) | ORemoveException (h : string) | OAdd (h : string)
  | OAddManual (h : string) | OAddManualBulk (hs : list string) | ORemove (h : string) | OClearAll
  | ORemoveByFeedSource (url : string) | ORestoreFeedSources (snap : gmap string string) | ORemoveUnattributed
  | OMergeFromLines (ls : list string) (source : string) | OReplaceFeedEntries (hosts : list string)
  | OApplyDelta (added removed : list string) | OSave | OLoad (p : string).

Section histories.
Context `{Unicode, Idna, RangeOrder, Sha256Sum}.

Definition run (b : Store) (op : Op) : Store :=
  match op with
  | OSetMode m => SetMode m b
  | OAddException h => AddException h b
  | ORemoveException h => RemoveException h b
  | OAdd h => Add h b
  | OAddManual h => AddManual h b
  | OAddManualBulk hs => (AddManualBulk hs b).2
  | ORemove h => Remove h b
  | OClearAll => ClearAll b
  | ORemoveByFeedSource url => (RemoveByFeedSource url b).2
  | ORestoreFeedSources snap => RestoreFeedSources snap b
  | ORemoveUnattributed => (RemoveUnattributedFeedEntries b).2
  | OMergeFromLines ls source => (MergeFromLines ls source b).2
  | OReplaceFeedEntries hosts => ReplaceFeedEntries hosts b
  | OApplyDelta added removed => ApplyDelta added removed b
  | OSave => Save b
  | OLoad p => (Load p b).2
  end.
Definition runs (ops : list Op) (b : Store) : Store := fold_left run ops b.

(** The operations that may lift the admin's block [t]: its own removal, and what resets the store. *)
Definition lifts (t : string) (op : Op) : bool :=
  match op with
  | ORemove h => (token h =? t)%string
  | OClearAll | OLoad _ => true
  | _ => false
  end.

Lemma run_keeps op b : (match op with ORemove _ | OClearAll | OLoad _ => False | _ => True end) → keeps b (run b op).
Proof.
  destruct op; simpl; intros Hop; try done.
  - apply keeps_mode.
  - unfold AddException. case_if; [apply keeps_refl|apply keeps_exceptions].
  - apply keeps_exceptions.
  - apply keeps_put.
  - apply keeps_AddManual.
  - apply keeps_AddManualBulk.
  - apply keeps_RemoveByFeedSource.
  - apply (keeps_fold id restore_step _ b keeps_restore).
  - apply keeps_RemoveUnattributed.
  - apply keeps_MergeFromLines.
  - apply keeps_replace.
  - apply keeps_delta.
  - apply keeps_view, save_view.
Qed.

Lemma run_typed op b : typed b ∧ mode_typed b → typed (run b op) ∧ mode_typed (run b op).
Proof.
  intros [Hb Hm]. pose proof (run_keeps op b) as Hk. destruct op; try (destruct (Hk I) as (T&_&_&M); by auto); simpl.
  - split; [by apply Remove_spec|by apply Remove_mode].
  - split; [split; simpl; set_solver|done].
  - split; [by apply Load_typed|by apply Load_mode].
Qed.
Lemma runs_typed ops b : typed b ∧ mode_typed b → typed (runs ops b) ∧ mode_typed (runs ops b).
Proof. intros Hb. unfold runs. apply (fold_left_inv (λ b, typed b ∧ mode_typed b)); [done|]. intros. by apply run_typed. Qed.

Lemma run_spares t op b : lifts t op = false → enforced b → t ∈ manual b → enforced (run b op) ∧ t ∈ manual (run b op).
Proof.
  intros Hs [T Hb] Ht. pose proof (run_keeps op b) as Hk.
  destruct op; try done; try (destruct (Hk I) as (_&M&E&_); split; [by apply E|by apply M]).
  simpl in *. destruct (Remove_spec h b T) as (T'&K&M). apply String.eqb_neq in Hs.
  split; [split; [done|]|]; rewrite ?K, M; set_solver.
Qed.
Lemma runs_spares t ops b :
  Forall (λ op, lifts t op = false) ops → enforced b → t ∈ manual b → enforced (runs ops b) ∧ t ∈ manual (runs ops b).
Proof.
  intros Hops. revert b. induction Hops as [|op ops Hop Hops IH]; intros b Hb Ht; [done|].
  destruct (run_spares t op b) as [? ?]; [done..|]. by apply (IH (run b op)).
Qed.
End histories.

(** ** What holds of every history *)

(** A new store, with or without its path. *)
Lemma New_typed f w p : typed ((New f w) <| path := p |>) ∧ mode_typed ((New f w) <| path := p |>).
Proof. split; [split; simpl; set_solver|unfold mode_typed; set_solver]. Qed.

Section claims.
Context `{Unicode, Idna, RangeOrder, Sha256Sum}.

Lemma range_set_length X : length (range_set X) = size X.
Proof.
  unfold range_set. rewrite length_fmap, range_perm. rewrite length_map_to_list, <- (size_dom (D := gset string)), dom_gset_to_gmap. done.
Qed.
Lemma List_tokens_elem b h : h ∈ List_tokens b ↔ h ∈ tokens b.
Proof.
  unfold List_tokens. rewrite elem_of_app, range_set_elem, elem_of_tokens. setoid_rewrite list_elem_of_fmap.
  setoid_rewrite range_set_elem. set_solver.
Qed.
#[local] Instance star_inj : Inj (=) (=) (String "*").
Proof. by intros ? ? [= ->]. Qed.
Lemma List_tokens_NoDup b : typed b → NoDup (List_tokens b).
Proof.
  intros [Hw He]. unfold List_tokens. apply NoDup_app. split_and!; [apply range_set_NoDup| |].
  - intros x Hx (w&->&Hin)%list_elem_of_fmap. rewrite range_set_elem in Hx, Hin. apply He in Hx. rewrite wild_star, Hw in Hx; done.
  - apply (NoDup_fmap_2 (String "*")), range_set_NoDup.
Qed.
Lemma Count_List b : Count b = Z.of_nat (length (List_tokens b)).
Proof. unfold Count, List_tokens. rewrite length_app, length_map, !range_set_length. lia. Qed.
Lemma FeedList_elem b h : typed b → h ∈ FeedList b ↔ listed b h = true ∧ h ∉ manual b.
Proof.
  intros Hb. rewrite listed_tokens by done. unfold FeedList. rewrite elem_of_app, !list_elem_of_filter, <- List_tokens_elem.
  unfold List_tokens. rewrite elem_of_app. tauto.
Qed.

(** C36: Whatever sequence of operations a new store goes through, with whatever files beside it,
    its maps keep their types: wildcard keys start with a dot, no exact name is a wildcard token,
    the mode is a mode.  So the listing names each listed token once, [Count] is its length, and
    [FeedList] is the listing without the admin's entries. *)
Theorem store_typed f w ops :
  let b := runs ops (New f w) in
  typed b ∧ mode_typed b ∧ NoDup (List_tokens b) ∧ Count b = Z.of_nat (length (List_tokens b)) ∧
  (∀ h, h ∈ List_tokens b ↔ listed b h = true) ∧ (∀ h, h ∈ FeedList b ↔ listed b h = true ∧ h ∉ manual b).
Proof.
  intros b. destruct (runs_typed ops (New f w)) as [Hb Hm]; [apply (New_typed f w "")|].
  fold b in Hb, Hm. split_and!; [done|done|by apply List_tokens_NoDup|apply Count_List|..]; intros h.
  - by rewrite List_tokens_elem, listed_tokens.
  - by apply FeedList_elem.
Qed.

(** The hosts the token [t] blocks: itself, or all of a wildcard's domain. *)
Definition blocks (t h : string) : Prop := h = t ∨ ∃ d, t = "*." ++ d ∧ covers d h.

Lemma listed_ref_token b t h : typed b → t ∈ tokens b → blocks t h → (is_wild t = true → h ≠ t) → listed_ref b h.
Proof.
  intros Hb Ht%elem_of_tokens Hbl Hne. destruct Ht as [He|(w&->&Hw)].
  - destruct Hbl as [->|(d&->&_)]; [by left|]. apply (ty_exact _ Hb) in He.
    assert (is_wild ("*." ++ d) = true) by (apply HasPrefix_spec; by exists d). congruence.
  - assert (is_wild (String "*" w) = true) as Hi by (rewrite wild_star; by apply (ty_wild _ Hb)).
    destruct Hbl as [->|(d&[= ->]&Hc)]; [by destruct Hne|]. right. exists d. done.
Qed.

End claims.


(** ** Through the files *)

(** A host name as the loader leaves it: lower-case letters, digits and ["-_.*"], no final dot,
    and not a loopback or unspecified address. *)
Definition host_byte (c : ascii) : bool :=
  in_range 97 122 (byte_val c) || in_range 48 57 (byte_val c) || ContainsByte "-_.*" c.
Definition unlistable (h : string) : bool :=
  match ParseIP h with Some ip => IsUnspecified ip || IsLoopback ip | None => false end.
Definition host_name (h : string) : bool :=
  negb (h =? "")%string && sall host_byte h && negb (HasSuffix h ".") && (String.length h <=? maxScanLine)%nat && negb (unlistable h).

Lemma host_byte_cases c : host_byte c = true →
  97 ≤ byte_val c ≤ 122 ∨ 48 ≤ byte_val c ≤ 57 ∨ c ∈ ["-"; "_"; "."; "*"]%char.
Proof.
  unfold host_byte, in_range. rewrite !ContainsByte_cons. change (ContainsByte "" c) with false.
  rewrite !orb_true_iff, !andb_true_iff, !Z.leb_le, !Ascii.eqb_eq.
  intros [[?|?]|Hc]; [by left|by right; left|]. right. right. destruct Hc as [<-|[<-|[<-|[<-|?]]]]; [set_solver..|done].
Qed.
Lemma host_byte_plain c : host_byte c = true → plain_byte c = true.
Proof.
  unfold plain_byte, is_ascii_byte, RuneSelf, is_space, in_range. intros [?|[?|Hc]]%host_byte_cases; [lia..|].
  revert c Hc. apply Forall_forall. repeat constructor.
Qed.
Lemma host_byte_lower c : host_byte c = true → is_ascii_byte c && negb (is_ascii_upper (byte_val c)) = true.
Proof.
  unfold is_ascii_byte, is_ascii_upper, RuneSelf, in_range. intros [?|[?|Hc]]%host_byte_cases; [lia..|].
  revert c Hc. apply Forall_forall. repeat constructor.
Qed.
Lemma host_byte_sep c : host_byte c = true → ContainsByte "/:?" c = false.
Proof.
  intros Hc. apply not_true_is_false. rewrite !ContainsByte_cons, !orb_true_iff, !Ascii.eqb_eq.
  intros [<-|[<-|[<-|?]]]; done.
Qed.
Lemma host_sall_not s c : host_byte c = false → sall host_byte s = true → ContainsByte s c = false.
Proof. intros Hc Hs. unfold ContainsByte. by rewrite (IndexByte_none host_byte). Qed.
Lemma HasSuffix_not s c : host_byte c = false → sall host_byte s = true → HasSuffix s (String c "") = false.
Proof.
  intros Hc Hs. destruct (HasSuffix _ _) eqn:E; [|done]. apply HasSuffix_spec in E as [t ->].
  exfalso. induction t as [|d t IH]; simpl in Hs; [by rewrite Hc in Hs|]. apply andb_true_iff in Hs as [_ Hs]. auto.
Qed.

Lemma host_name_facts h : host_name h = true →
  h ≠ "" ∧ sall host_byte h = true ∧ HasSuffix h "." = false ∧ (String.length h ≤ maxScanLine)%nat ∧ unlistable h = false.
Proof.
  unfold host_name. rewrite !andb_true_iff, !negb_true_iff, String.eqb_neq, Nat.leb_le. tauto.
Qed.

Section roundtrip.
Context `{Unicode, Idna, RangeOrder}.

Lemma NormalizeLine_host h : host_name h = true → NormalizeLine h = Some h.
Proof.
  intros (Hne&Hb&Hdot&_&Hip)%host_name_facts.
  assert (sall plain_byte h = true) as Hp by (by apply (sall_impl host_byte); [apply host_byte_plain|]).
  unfold NormalizeLine. rewrite TrimSpace_plain by done. pose proof Hne as Hne'. apply String.eqb_neq in Hne' as ->.
  destruct (HasPrefix h "#") eqn:Eh.
  { apply HasPrefix_spec in Eh as [t ->]. done. }
  simpl. rewrite (IndexByte_none host_byte) by done. rewrite Fields_plain by done. unfold normalize_host.
  rewrite (Index_none host_byte), (IndexAny_none host_byte) by (done || apply host_byte_sep).
  rewrite ToLower_plain by (by apply (sall_impl host_byte); [apply host_byte_lower|]).
  unfold TrimSuffix. rewrite Hdot. apply String.eqb_neq in Hne as ->. unfold unlistable in Hip. by rewrite Hip.
Qed.

Lemma scan_lines_hosts l : Forall (λ h, host_name h = true) l → scan_lines (l ++ [""])%list = (l, true).
Proof.
  induction 1 as [|h l Hh Hl IH]; [done|]. apply host_name_facts in Hh as (_&Hb&_&Hlen&_).
  assert ((maxScanLine <? String.length h)%nat = false) as Hlt by (by apply Nat.ltb_ge).
  assert (drop_cr h = h) as Hcr by (unfold drop_cr, TrimSuffix; by rewrite HasSuffix_not).
  cbn [app scan_lines]. destruct (l ++ [""])%list as [|x l'] eqn:E; [by destruct l|]. by rewrite Hlt, IH, Hcr.
Qed.
Lemma lines_of_hosts l : Forall (λ h, host_name h = true) l → Split (lines_of l) "010"%char = (l ++ [""])%list.
Proof.
  intros Hl. apply Split_lines. eapply Forall_impl; [exact Hl|]. intros h (_&Hb&_)%host_name_facts. by apply host_sall_not.
Qed.
Lemma fold_scan_hosts l acc : Forall (λ h, host_name h = true) l → fold_left scan_entry l acc = fold_left put_map l acc.
Proof.
  intros Hl. revert acc. induction Hl as [|h l Hh Hl IH]; intros acc; simpl; [done|].
  unfold scan_entry at 2. rewrite NormalizeLine_host by done. apply IH.
Qed.

(** Two typed stores with the same tokens have the same maps. *)
Lemma tokens_maps b b' : typed b → typed b' → tokens b = tokens b' → exact b = exact b' ∧ wildcards b = wildcards b'.
Proof.
  intros [Hw He] [Hw' He'] E. assert (∀ h, h ∈ tokens b ↔ h ∈ tokens b') as Eh by set_solver.
  setoid_rewrite elem_of_tokens in Eh. split; apply set_eq; intros x.
  - specialize (Eh x). split; intros Hx; [specialize (He x Hx)|specialize (He' x Hx)];
      destruct Eh as [E1 E2]; [destruct E1 as [?|(w&->&Hin)]|destruct E2 as [?|(w&->&Hin)]]; auto;
      [rewrite wild_star, Hw' in He|rewrite wild_star, Hw in He']; done.
  - specialize (Eh (String "*" x)). split; intros Hx.
    + destruct (proj1 Eh) as [Hin|(w&[= ->]&?)]; [by eauto| |done]. apply He' in Hin. by rewrite wild_star, Hw in Hin.
    + destruct (proj2 Eh) as [Hin|(w&[= ->]&?)]; [by eauto| |done]. apply He in Hin. by rewrite wild_star, Hw' in Hin.
Qed.

Lemma scan_saved b : typed b → (∀ t, t ∈ tokens b → host_name t = true) →
  scanBlocklistEntries (lines_of (List_tokens b)) = (exact b, wildcards b, true).
Proof.
  intros Hb Ht. assert (Forall (λ h, host_name h = true) (List_tokens b)) as Hl.
  { apply Forall_forall. intros x Hx%List_tokens_elem. auto. }
  unfold scanBlocklistEntries. rewrite lines_of_hosts, scan_lines_hosts, fold_scan_hosts by done.
  change (∅, ∅) with (exact (bare b), wildcards (bare b)). rewrite fold_put_map.
  destruct (fold_put_spec (List_tokens b) (bare b) (bare_typed b)) as (T&K&_).
  destruct (tokens_maps _ b T Hb) as [-> ->]; [|done]. rewrite K, bare_tokens. apply set_eq. intros x.
  rewrite elem_of_union, elem_of_list_to_set, List_tokens_elem. set_solver.
Qed.
Lemma sidecar_saved X lower : (∀ t, t ∈ X → host_name t = true) → loadHostSidecar (Some (lines_of (range_set X))) lower = X.
Proof.
  intros HX. assert (Forall (λ h, host_name h = true) (range_set X)) as Hl.
  { apply Forall_forall. intros x Hx%range_set_elem. auto. }
  unfold loadHostSidecar. rewrite lines_of_hosts by done. apply set_eq. intros x.
  rewrite elem_of_list_to_set, list_elem_of_filter, list_elem_of_fmap. setoid_rewrite elem_of_app. setoid_rewrite range_set_elem.
  assert (∀ t, t ∈ X → (if lower then ToLower (TrimSpace t) else TrimSpace t) = t) as Hn.
  { intros t (_&Hb&_)%HX%host_name_facts. rewrite TrimSpace_plain by (by apply (sall_impl host_byte); [apply host_byte_plain|]).
    destruct lower; [|done]. apply ToLower_plain. by apply (sall_impl host_byte); [apply host_byte_lower|]. }
  split.
  - intros (Hne&y&->&[Hy|Hy]); [by rewrite Hn|]. apply list_elem_of_singleton in Hy as ->. by destruct lower.
  - intros Hx. split; [by apply HX, host_name_facts in Hx as (?&_)|]. exists x. split; [by rewrite Hn|by left].
Qed.
End roundtrip.

(** [saveAll]: what the operations between them have written when each saved its part. *)
Definition saveAll `{RangeOrder} (b : Store) : Store := saveMode (saveExceptions (saveManual (Save b))).

Lemma saveAll_files `{RangeOrder} b : path b ≠ "" → writes b = true →
  files (saveAll b) = mkFiles (Some (lines_of (List_tokens b))) (Some (mode b)) (Some (lines_of (range_set (manual b))))
    (Some (lines_of (range_set (exceptions b)))) (Sources (filter (λ p, attributed b p.1 = true) (feedSrc b))).
Proof.
  intros Hp%String.eqb_neq Hw. unfold saveAll, saveMode, saveExceptions, saveManual, Save, write_files.
  repeat (first [rewrite Hp | rewrite Hw | progress cbn -[List_tokens lines_of filter]]). done.
Qed.

(** Saving a store of host names and loading the files into a new store gives the same exact
    entries, wildcards, admin entries, exceptions and mode, the attributions of the listed entries
    that are not the admin's, and so the same verdict for every host. *)
Theorem blocklist_save_load `{Unicode, Idna, RangeOrder} b p w :
  typed b → mode_typed b → path b = p → p ≠ "" → writes b = true →
  (∀ t, t ∈ tokens b ∪ manual b ∪ exceptions b → host_name t = true) →
  let '(ok, b') := Load p (New (files (saveAll b)) w) in
  ok = true ∧ exact b' = exact b ∧ wildcards b' = wildcards b ∧ manual b' = manual b ∧ exceptions b' = exceptions b ∧
  feedSrc b' = filter (λ p, attributed b p.1 = true) (feedSrc b) ∧ Mode b' = Mode b ∧
  ∀ host, IsBlocked b' host = IsBlocked b host.
Proof.
  intros Hb Hm Hp Hpn Hw Ht. unfold Load. cbv zeta.
  change (files ((New (files (saveAll b)) w) <| path := p |>)) with (files (saveAll b)).
  assert (files (saveAll b) = _) as -> by (apply saveAll_files; congruence). cbn [fl_main fl_manual fl_exceptions fl_sources].
  rewrite scan_saved, !sidecar_saved by (done || set_solver). set (b1 := load_mode _).
  assert (mode b1 = if (mode b =? "allow")%string then "allow" else "") as Hm1.
  { unfold b1, load_mode. cbn [files fl_mode]. unfold mode_typed in Hm.
    repeat (apply elem_of_cons in Hm as [E|Hm]; [rewrite E; vm_compute; reflexivity|]). by apply not_elem_of_nil in Hm. }
  clearbody b1. cbn [loadFeedSources]. split_and!; try done.
  - unfold Mode. cbn. rewrite Hm1. by destruct (mode b =? "allow")%string.
  - intros host. unfold IsBlocked, isExcepted, isListed. cbn -[probePrefixed dots_listed parents_excepted NormalizeHost bool_decide].
    rewrite Hm1. by destruct (mode b =? "allow")%string.
Qed.

Lemma blocklist_save_load_witness :
  let U := ascii_unicode in let I : Idna := Some in let R := default_range in let F := mkFiles None None None None SourcesAbsent in
  let b := SetMode "allow" (AddException "www.ok.org" ((MergeFromLines ["0.0.0.0 Ads.net # tracker"; "*.cdn.net"] "u"
             (AddManual "evil.com" ((New F true) <| path := "/data/blocklist.txt" |>))).2)) in
  let '(ok, b') := Load "/data/blocklist.txt" (New (files (saveAll b)) true) in
  ok = true ∧ IsBlocked b' "evil.com" = false ∧ IsBlocked b' "x.cdn.net" = false ∧ IsBlocked b' "other.com" = true.
Proof.
  intros U I R F b. pose proof (blocklist_save_load b "/data/blocklist.txt" true) as T.
  assert (∀ P : Store → Prop, P (runs (H2 := length_sum) [OAddManual "evil.com"; OMergeFromLines ["0.0.0.0 Ads.net # tracker"; "*.cdn.net"] "u";
     OAddException "www.ok.org"; OSetMode "allow"] ((New F true) <| path := "/data/blocklist.txt" |>)) → P b) as Hops by done.
  assert (typed b ∧ mode_typed b) as [Tb Tm].
  { apply (Hops (λ b, typed b ∧ mode_typed b)), runs_typed, New_typed. }
  specialize (T Tb Tm eq_refl ltac:(done) ltac:(vm_compute; reflexivity)).
  assert (∀ t, t ∈ tokens b ∪ manual b ∪ exceptions b → host_name t = true) as Ht.
  { apply (bool_decide_unpack (set_Forall (λ t, host_name t = true) (tokens b ∪ manual b ∪ exceptions b))). vm_compute. exact Logic.I. }
  specialize (T Ht). destruct (Load _ _) as [ok b']. destruct T as (Ho&_&_&_&_&_&_&Hb).
  rewrite !Hb. split_and!; [exact Ho|vm_compute; reflexivity..].
Defined.

(** ** Spellings the store does not honour

    Evaluated on ASCII text, where the case tables and the IDNA conversion are the identity. *)

Section spellings.
#[local] Existing Instance ascii_unicode.
#[local] Existing Instance default_range.
#[local] Instance same_idna : Idna := Some.

Definition fresh : Store := (New (mkFiles None None None None SourcesAbsent) true) <| path := "/data/blocklist.txt" |>.
Definition reload (b : Store) : Store := (Load (path b) (New (files b) true)).2.

(** The admin's block of an IPv6 address is enforced until the files are read again: [Save] writes
    the address on a line, and [NormalizeLine] cuts the line at its first colon.  A loopback
    address is read as a line without a host. *)
Theorem address_block_lost :
  let b := (AddManualBulk ["2001:db8::1"; "127.0.0.1"] fresh).2 in
  (IsBlocked b "2001:db8::1", IsBlocked b "127.0.0.1") = (true, true) ∧
  (IsBlocked (reload b) "2001:db8::1", IsBlocked (reload b) "127.0.0.1") = (false, false) ∧
  elements (exact (reload b)) = ["2001"] ∧ bool_decide (manual (reload b) = manual b) = true.
Proof. vm_compute. split_and!; reflexivity. Qed.

(** A block spelt with the final dot of a fully qualified name is stored with it; [IsBlocked]
    strips the dot from the host it is asked about, in either spelling. *)
Theorem dotted_block_ignored :
  let b := (AddManualBulk ["evil.com."] fresh).2 in
  elements (exact b) = ["evil.com."] ∧ (IsBlocked b "evil.com.", IsBlocked b "evil.com") = (false, false) ∧
  IsBlocked (reload b) "evil.com." = true.
Proof. vm_compute. split_and!; reflexivity. Qed.

(** [AddException] normalises the host, [RemoveException] only lower-cases it: the spelling that
    added an exception does not remove it. *)
Theorem dotted_exception_stays :
  let b := AddException "ok.org." fresh in
  ListExceptions b = ["ok.org"] ∧ ListExceptions (RemoveException "ok.org." b) = ["ok.org"].
Proof. vm_compute. split; reflexivity. Qed.
End spellings.
