(* ===== verification/DeltaRing.v ===== *)
(** * The control plane's published configuration and its delta ring
      ([controlplane_snapshot.go], [controlplane_delta.go], [controlplane_server.go])

    A publish commits a snapshot under the store's lock and records the blocklist's difference
    in the ring after the lock is released: the recording of one publish may come after that of
    the next.  So [Update] is two steps, the commit and a pending call of [record], and the
    pending calls run in any order.  The slices of a snapshot other than the blocklist are one
    value of the class [Bodies], with what the code asks of it.  Messages are the values the
    JSON encodes.  Versions are [int64]; each publish adds one.

    - [ring_bounded]: whatever is recorded, the ring keeps within its three bounds, its byte
      count is the sum of its entries, and its versions follow one another.
    - [version_never_reused]: over restarts, failed floor writes and standing clocks, a publish
      has a version above every earlier one, unless the floor file and the clock fail together.
    - The chain lemmas used by the Data Plane: a chain the ring serves is the sequence of
      differences between published lists. *)

From S2P Require Import Prelude GoStrings GoNet GoIPText HostUtil Blocklist.

(** The other slices: the checks [validateConfigSnapshot] makes of them given the number of
    blocked hosts, whether the identity providers of the snapshot compile, the marshaled length
    of a whole snapshot, and the edits made for a caller. *)
Class Bodies := {
  Body : Type;
  zero_body : Body;
  body_valid : Z → Body → bool;
  idp_sync : Body → bool;
  wire_bytes : Z → Z → Z → option (list string) → Body → Z;
  set_ca : string → Body → Body;
  redactUnenrolledSnapshot : Body → Body;
}.

(** ** Data *)

Record Snapshot `{Bodies} := mkSnap {
  sn_version : Z; sn_epoch : Z; sn_policyVersion : Z;
  BlockedHosts : option (list string);    (* a nil slice, or a list *)
  sn_body : Body;
}.
#[global] Instance Snapshot_eta `{Bodies} : Eta Snapshot := λ s,
  mkSnap _ (sn_version s) (sn_epoch s) (sn_policyVersion s) (BlockedHosts s) (sn_body s).
Definition snap_bytes `{Bodies} (s : Snapshot) : Z :=
  wire_bytes (sn_version s) (sn_epoch s) (sn_policyVersion s) (BlockedHosts s) (sn_body s).
Definition hosts_of `{Bodies} (s : Snapshot) : list string := default [] (BlockedHosts s).

Record blocklistDelta := mkDelta {
  dl_version : Z; dl_base : Z; Added : list string; Removed : list string;
  FP : string; dl_epoch : Z; Resync : bool; dl_bytes : Z;
}.
Record blocklistDeltaRing := mkRing { entries : list blocklistDelta; totalBytes : Z }.

Definition maxDeltaRingEntries : Z := 256.
Definition maxDeltaRingBytes : Z := Z.shiftl 32 20.
Definition maxSingleDeltaBytes : Z := Z.shiftl 8 20.
Definition maxSnapBlockedHosts : Z := 2000000.
Definition maxSnapshotWireBytes : Z := Z.shiftl 120 20.

Definition hostSliceBytes (hosts : list string) : Z := fold_left (λ n h, n + Z.of_nat (String.length h) + 1) hosts 0.
Definition chainPayloadBytes (chain : list blocklistDelta) : Z :=
  fold_left (λ n d, n + (hostSliceBytes (Added d) + hostSliceBytes (Removed d))) chain 0.

Section ring.
Context `{Unicode, RangeOrder, Sha256Sum}.

(** [diffHosts]: its [norm] makes the set of the tokens. *)
Definition diffHosts (prev next : list string) : list string * list string :=
  let oldSet := token_set prev in
  let newSet := token_set next in
  (filter (λ h, h ∉ oldSet) (range_set newSet), filter (λ h, h ∉ newSet) (range_set oldSet)).

(** [evictLocked]: the loop drops the head while a bound is passed. *)
Fixpoint evict_loop (es : list blocklistDelta) (total : Z) : list blocklistDelta * Z :=
  match es with
  | [] => ([], total)
  | d :: es' =>
      let n := Z.of_nat (length es) in
      if (maxDeltaRingEntries <? n) || ((maxDeltaRingBytes <? total) && (1 <? n))
      then evict_loop es' (total - dl_bytes d) else (es, total)
  end.
Definition evictLocked (r : blocklistDeltaRing) : blocklistDeltaRing :=
  let '(es, total) := evict_loop (entries r) (totalBytes r) in
  mkRing es (if total <? 0 then 0 else total).

(** The entry [record] appends; a nil [oldHosts] has nothing to differ from. *)
Definition make_delta (base target : Z) (oldHosts newHosts : option (list string)) (fp : string) (epoch : Z) : blocklistDelta :=
  match oldHosts with
  | None => mkDelta target base [] [] fp epoch true 0
  | Some oldHosts =>
      let '(added, removed) := diffHosts oldHosts (default [] newHosts) in
      let n := hostSliceBytes added + hostSliceBytes removed in
      if maxSingleDeltaBytes <? n then mkDelta target base [] [] fp epoch true 0
      else mkDelta target base added removed fp epoch false n
  end.
Definition record (base target : Z) (oldHosts newHosts : option (list string)) (fp : string) (epoch : Z)
    (r : blocklistDeltaRing) : blocklistDeltaRing :=
  let d := make_delta base target oldHosts newHosts fp epoch in
  let r := match last (entries r) with
           | Some newest => if base =? dl_version newest then r else mkRing [] 0
           | None => r
           end in
  evictLocked (mkRing (entries r ++ [d])%list (totalBytes r + dl_bytes d)).

(** The walk of [chain] over the entries; [None] at a resync marker. *)
Fixpoint chain_walk (base : Z) (es : list blocklistDelta) : option (list blocklistDelta) :=
  match es with
  | [] => Some []
  | d :: es => if dl_base d <? base then chain_walk base es
               else if Resync d then None else l ← chain_walk base es; Some (d :: l)
  end.
(** [chain]: the deltas, the newest version, and whether a Data Plane at [base] can take them. *)
Definition chain (base : Z) (r : blocklistDeltaRing) : list blocklistDelta * Z * bool :=
  match head (entries r), last (entries r) with
  | Some oldest, Some newest =>
      let latest := dl_version newest in
      if base =? latest then ([], latest, true)
      else if (base <? dl_base oldest) || (latest <? base) then ([], latest, false)
      else match chain_walk base (entries r) with
           | Some l => (l, latest, true)
           | None => ([], latest, false)
           end
  | _, _ => ([], 0, false)
  end.

Definition stats (r : blocklistDeltaRing) : Z * Z * Z * Z :=
  (Z.of_nat (length (entries r)), totalBytes r,
   match head (entries r) with Some d => dl_version d | None => 0 end,
   match last (entries r) with Some d => dl_version d | None => 0 end).
Definition newestFP (want : Z) (r : blocklistDeltaRing) : option string :=
  match last (entries r) with
  | Some newest => if dl_version newest =? want then Some (FP newest) else None
  | None => None
  end.
End ring.

(** ** The store *)

(** Why a publish was rejected at commit. *)
Inductive PublishErr := IdentityDegraded (reason : string) | SnapshotInvalid | OverWireBudget (n : Z).

(** The version floor file: missing, unreadable or unparseable, or a version. *)
Inductive FloorFile := FloorAbsent | FloorBad | FloorVersion (v : Z).

(** A call of [record] a publish has yet to make. *)
Record Call := mkCall { ca_base : Z; ca_target : Z; ca_old : option (list string); ca_new : option (list string); ca_epoch : Z }.

Record ConfigStore `{Bodies} := mkCS {
  snap : Snapshot; version : Z; armed : bool;            (* versionPath is set *)
  lastPublishErr : option PublishErr; published : bool;
  deltaRing : blocklistDeltaRing;
  pending : list Call;                                   (* publishes past their commit *)
  floor : FloorFile; floor_writes : bool;                (* the file, and whether a write succeeds *)
}.
#[global] Instance ConfigStore_eta `{Bodies} : Eta ConfigStore := λ s,
  mkCS _ (snap s) (version s) (armed s) (lastPublishErr s) (published s) (deltaRing s) (pending s) (floor s) (floor_writes s).

Section store.
Context `{Unicode, RangeOrder, Sha256Sum, Bodies}.

Definition zero_snap : Snapshot := mkSnap _ 0 0 0 None zero_body.
Definition new_store (f : FloorFile) (w : bool) : ConfigStore := mkCS _ zero_snap 0 false None false (mkRing [] 0) [] f w.

(** [validateConfigSnapshot]: the cap on the blocked hosts, and the checks of the other slices. *)
Definition validateConfigSnapshot (s : Snapshot) : bool :=
  let n := Z.of_nat (length (hosts_of s)) in
  if maxSnapBlockedHosts <? n then false else body_valid n (sn_body s).

Definition armVersionPersistence (now replicated : Z) (s : ConfigStore) : ConfigStore :=
  let s := s <| armed := true |> in
  let seed := match floor s with FloorVersion v => if now <? v then v else now | _ => now end in
  let seed := if seed <? replicated then replicated else seed in
  if version s <? seed then s <| version := seed |> else s.
Definition persistVersionLocked (s : ConfigStore) : ConfigStore :=
  if armed s && floor_writes s then s <| floor := FloorVersion (version s) |> else s.

Definition rejectPublish (e : PublishErr) (s : ConfigStore) : option PublishErr * ConfigStore :=
  (Some e, s <| lastPublishErr := Some e |>).

(** [Update] up to the release of the lock; its [record] is pending. *)
Definition Update (degraded : option string) (sn : Snapshot) (s : ConfigStore) : option PublishErr * ConfigStore :=
  match degraded with
  | Some reason => rejectPublish (IdentityDegraded reason) s
  | None =>
      if negb (validateConfigSnapshot sn) then rejectPublish SnapshotInvalid s
      else let n := snap_bytes sn in
      if maxSnapshotWireBytes <? n then rejectPublish (OverWireBudget n) s
      else
        let oldHosts := BlockedHosts (snap s) in
        let base := version s in
        let s := s <| version := version s + 1 |> in
        let sn := sn <| sn_version := version s |> in
        let call := mkCall base (version s) oldHosts (BlockedHosts sn) (sn_epoch sn) in
        let s := s <| snap := sn |> <| published := true |> <| lastPublishErr := None |> in
        (None, (persistVersionLocked s) <| pending := (pending s ++ [call])%list |>)
  end.
(** The rest of the [i]-th publish in flight: the fingerprint and the recording. *)
Definition Update_record (i : nat) (s : ConfigStore) : ConfigStore :=
  match pending s !! i with
  | Some c =>
      let fp := FeedSetFingerprint (default [] (ca_new c)) in
      s <| deltaRing := record (ca_base c) (ca_target c) (ca_old c) (ca_new c) fp (ca_epoch c) (deltaRing s) |>
        <| pending := delete i (pending s) |>
  | None => s
  end.

Definition ServableConfig (s : ConfigStore) : bool :=
  negb (negb (published s) && bool_decide (lastPublishErr s ≠ None)).
Definition seedReplicatedSnapshot (sn : Snapshot) (s : ConfigStore) : ConfigStore := s <| snap := sn |>.

(** ** The handlers *)

(** The reply to [GetConfig]. *)
Inductive ConfigReply := Unchanged (v : Z) | Full (sn : Snapshot) | ConfigErr.

(** [GetConfig].  The marshal cache of the enrolled reply is keyed by the snapshot's version,
    which names one snapshot of the store: its bytes are those of [snap s]. *)
Definition GetConfig (enrolled throttled : bool) (caFP : string) (known : Z) (s : ConfigStore) : ConfigReply :=
  if negb (ServableConfig s) then ConfigErr
  else if (0 <? known) && (version s <=? known) then Unchanged known
  else
    let sn := snap s in
    let sn := if (caFP =? "")%string then sn else sn <| sn_body := set_ca caFP (sn_body sn) |> in
    if enrolled then Full sn
    else if throttled then ConfigErr
    else Full (sn <| sn_body := redactUnenrolledSnapshot (sn_body sn) |>).

(** [deltaRemainderCache]: the remainder last marshaled, under its key. *)
Record deltaRemainderCache := mkCache { rc_version : Z; rc_caFP : string; rc_enrolled : bool; rc_bytes : option Snapshot }.
Definition remainder_of (caFP : string) (enrolled : bool) (sn : Snapshot) : Snapshot :=
  let sn := sn <| BlockedHosts := None |> in
  let sn := if (caFP =? "")%string then sn else sn <| sn_body := set_ca caFP (sn_body sn) |> in
  if enrolled then sn else sn <| sn_body := redactUnenrolledSnapshot (sn_body sn) |>.
(** [serve]: [None] is the error that the version moved. *)
Definition serve (v : Z) (caFP : string) (enrolled : bool) (s : ConfigStore) (c : deltaRemainderCache)
    : option Snapshot * deltaRemainderCache :=
  match rc_bytes c with
  | Some b =>
      if (rc_version c =? v) && (rc_caFP c =? caFP)%string && Bool.eqb (rc_enrolled c) enrolled then (Some b, c)
      else if negb (sn_version (snap s) =? v) then (None, c)
      else let b := remainder_of caFP enrolled (snap s) in (Some b, mkCache v caFP enrolled (Some b))
  | None =>
      if negb (sn_version (snap s) =? v) then (None, c)
      else let b := remainder_of caFP enrolled (snap s) in (Some b, mkCache v caFP enrolled (Some b))
  end.

Record getConfigDeltaReply := mkReply {
  Mode : string; BaseVersion : Z; TargetVersion : Z; rp_epoch : Z;
  Deltas : list blocklistDelta; TargetFP : string; Remainder : option Snapshot;
}.
Definition short_reply (m : string) (v epoch : Z) : getConfigDeltaReply := mkReply m 0 v epoch [] "" None.

(** [GetConfigDelta]; the store is read four times, and publishes may land between the reads:
    [s1] for the version, [s2] for the newest fingerprint, [s3] for the chain and [s4] for the
    remainder.  [None] is an RPC error. *)
Definition GetConfigDelta (enrolled throttled : bool) (caFP : string) (epoch known : Z) (knownFP : string)
    (s1 s2 s3 s4 : ConfigStore) (c : deltaRemainderCache) : option getConfigDeltaReply * deltaRemainderCache :=
  if negb (ServableConfig s1) then (None, c)
  else if negb enrolled && throttled then (None, c)
  else
    let cur := version s1 in
    if known =? cur then
      let drifted := negb (knownFP =? "")%string &&
        match newestFP cur (deltaRing s2) with Some fp => negb (fp =? knownFP)%string | None => false end in
      (Some (short_reply (if drifted then "resync" else "unchanged") cur epoch), c)
    else
      let '(l, latest, ok) := chain known (deltaRing s3) in
      if negb ok || negb (latest =? cur) then (Some (short_reply "resync" cur epoch), c)
      else match serve cur caFP enrolled s4 c with
           | (None, c) => (Some (short_reply "resync" cur epoch), c)
           | (Some rem, c) =>
               if maxSnapshotWireBytes <? chainPayloadBytes l + snap_bytes rem
               then (Some (short_reply "resync" cur epoch), c)
               else (Some (mkReply "delta" known cur epoch l (match last l with Some d => FP d | None => "" end) (Some rem)), c)
           end.
End store.

(** ** The ring's bounds *)

(** The deltas of [l] lead from version [a] to version [z], one version each. *)
Fixpoint linked (a : Z) (l : list blocklistDelta) (z : Z) : Prop :=
  match l with
  | [] => a = z
  | d :: l => dl_base d = a ∧ dl_version d = a + 1 ∧ linked (a + 1) l z
  end.

Lemma linked_app a l1 l2 z : linked a (l1 ++ l2)%list z ↔ ∃ m, linked a l1 m ∧ linked m l2 z.
Proof.
  revert a. induction l1 as [|d l1 IH]; intros a; simpl; [naive_solver|]. rewrite IH. naive_solver.
Qed.
Lemma linked_last a l z d : linked a l z → last l = Some d → dl_version d = z.
Proof. intros Hl [l' ->]%last_Some. apply linked_app in Hl as (m&_&_&->&<-). done. Qed.
Lemma linked_le a l z : linked a l z → a ≤ z.
Proof. revert a. induction l as [|d l IH]; intros a; simpl; [lia|]. intros (_&_&Hl%IH). lia. Qed.

Definition sum_bytes (l : list blocklistDelta) : Z := foldr (λ d n, dl_bytes d + n) 0 l.
Definition small (d : blocklistDelta) : Prop := 0 ≤ dl_bytes d ≤ maxSingleDeltaBytes.
Lemma sum_bytes_app l1 l2 : sum_bytes (l1 ++ l2)%list = sum_bytes l1 + sum_bytes l2.
Proof. induction l1; simpl; [done|]. unfold sum_bytes in *. simpl. lia. Qed.
Lemma sum_bytes_nonneg l : Forall small l → 0 ≤ sum_bytes l.
Proof. induction 1 as [|d l [? _] Hl IH]; unfold sum_bytes in *; simpl; lia. Qed.

(** What a ring always is: its count is right, its entries are small and linked. *)
Definition ring_ok (r : blocklistDeltaRing) : Prop :=
  Forall small (entries r) ∧ totalBytes r = sum_bytes (entries r) ∧ ∃ a z, linked a (entries r) z.
Definition ring_bounds (r : blocklistDeltaRing) : Prop :=
  Z.of_nat (length (entries r)) ≤ maxDeltaRingEntries ∧ totalBytes r ≤ maxDeltaRingBytes.

Lemma evict_loop_spec es total :
  let '(es', total') := evict_loop es total in
  ∃ dropped, es = (dropped ++ es')%list ∧ total' = total - sum_bytes dropped ∧
    (es ≠ [] → es' ≠ []) ∧ (Z.of_nat (length es') ≤ maxDeltaRingEntries) ∧
    (maxDeltaRingBytes < total' → (length es' ≤ 1)%nat).
Proof.
  revert total. induction es as [|d es IH]; intros total; cbn [evict_loop]; [exists []; unfold maxDeltaRingEntries; simpl; split_and!; try done; lia|].
  set (n := Z.of_nat (length (d :: es))). destruct ((maxDeltaRingEntries <? n) || _) eqn:Ec.
  - specialize (IH (total - dl_bytes d)). destruct (evict_loop es _) as [es' total'].
    destruct IH as (dr&->&->&Hne&Hlen&Hb). exists (d :: dr). change (sum_bytes (d :: dr)) with (dl_bytes d + sum_bytes dr).
    split_and!; [done|lia| |done|done]. intros _. apply Hne. intros E. unfold n in Ec. rewrite E in Ec.
    unfold maxDeltaRingEntries in Ec. simpl in Ec. bprop. lia.
  - exists []. apply orb_false_iff in Ec as [E1 E2]. bprop. split_and!; [done|unfold sum_bytes; simpl; lia|done|fold n; lia|].
    intros Hb. apply andb_false_iff in E2 as [E2|E2]; bprop; unfold n in *; lia.
Qed.

Lemma evict_ok r : ring_ok r → ring_ok (evictLocked r) ∧ ring_bounds (evictLocked r) ∧
  (entries r ≠ [] → last (entries (evictLocked r)) = last (entries r)) ∧ ∃ dropped, entries r = (dropped ++ entries (evictLocked r))%list.
Proof.
  intros (Hs&Ht&a&z&Hl). unfold evictLocked. pose proof (evict_loop_spec (entries r) (totalBytes r)) as HE.
  destruct (evict_loop _ _) as [es total]. destruct HE as (dr&E&Et&Hne&Hlen&Hb). simpl.
  rewrite E in Hs, Hl. apply Forall_app in Hs as [_ Hs]. apply linked_app in Hl as (m&_&Hl).
  assert (total = sum_bytes es) as Htot by (rewrite Et, Ht, E, sum_bytes_app; lia).
  pose proof (sum_bytes_nonneg es Hs) as Hnn. assert ((total <? 0) = false) as Hz by lia. rewrite Hz.
  split; [|split_and!].
  - split; [done|]. split; [done|]. by exists m, z.
  - split; [done|]. simpl. destruct (Z.le_gt_cases total maxDeltaRingBytes); [done|]. specialize (Hb ltac:(lia)).
    assert (maxDeltaRingBytes = 33554432 ∧ maxSingleDeltaBytes = 8388608) as [EB ES] by done.
    destruct es as [|d [|? ?]]; unfold sum_bytes in Htot; simpl in Hb, Htot; [lia| |lia].
    inversion Hs as [|? ? [_ Hd] _]. subst. simpl in *. lia.
  - intros Hn. rewrite E, last_app. destruct (last es) eqn:El; [done|]. apply last_None in El. by destruct (Hne Hn).
  - by exists dr.
Qed.

Section bounds.
Context `{Unicode, RangeOrder, Sha256Sum}.

Lemma hostSliceBytes_nonneg l : 0 ≤ hostSliceBytes l.
Proof.
  unfold hostSliceBytes. assert (∀ n, 0 ≤ n → 0 ≤ fold_left (λ n h, n + Z.of_nat (String.length h) + 1) l n) as HG; [|by apply HG].
  induction l as [|h l IH]; intros n Hn; simpl; [done|]. apply IH. lia.
Qed.
Lemma make_delta_small base target o n fp e : small (make_delta base target o n fp e).
Proof.
  assert (0 ≤ maxSingleDeltaBytes) as Hm by done. unfold make_delta, small.
  destruct o as [o|]; [|by simpl]. destruct (diffHosts o _) as [a r].
  pose proof (hostSliceBytes_nonneg a). pose proof (hostSliceBytes_nonneg r).
  destruct (maxSingleDeltaBytes <? _) eqn:E; cbn [dl_bytes]; lia.
Qed.
Lemma make_delta_link base o n fp e : linked base [make_delta base (base + 1) o n fp e] (base + 1).
Proof. unfold make_delta. destruct o as [o|]; [|done]. destruct (diffHosts o _) as [a r]. by case_if. Qed.

Lemma record_ok base o n fp e r : ring_ok r →
  let r' := record base (base + 1) o n fp e r in
  ring_ok r' ∧ ring_bounds r' ∧ last (entries r') = Some (make_delta base (base + 1) o n fp e) ∧
  ∀ d, d ∈ entries r' → d ∈ entries r ∨ d = make_delta base (base + 1) o n fp e.
Proof.
  intros Hr. unfold record. set (d := make_delta _ _ _ _ _ _).
  set (r1 := match last (entries r) with Some newest => _ | None => r end).
  assert (ring_ok (mkRing (entries r1 ++ [d])%list (totalBytes r1 + dl_bytes d)) ∧ ∀ x, x ∈ entries r1 → x ∈ entries r) as [Hr1 Hsub].
  { pose proof (make_delta_small base (base + 1) o n fp e) as Hsm. pose proof (make_delta_link base o n fp e) as Hlk. fold d in Hsm, Hlk.
    assert (ring_ok r1 ∧ (entries r1 = [] ∨ ∃ a, linked a (entries r1) base) ∧ ∀ x, x ∈ entries r1 → x ∈ entries r) as ((S1&T1&_)&Hl&Hsub).
    { destruct Hr as (S&T&a&z&L). unfold r1. destruct (last (entries r)) as [newest|] eqn:El.
      - destruct (base =? dl_version newest) eqn:Eb; bprop.
        + split; [split_and!; [done|done|by exists a, z]|]. split; [right; exists a|done].
          by rewrite Eb, (linked_last _ _ _ _ L El).
        + split; [split; [constructor|]; split; [done|by exists 0, 0]|]. split; [by left|]. simpl. set_solver.
      - apply last_None in El. split; [split_and!; [done|done|by exists a, z]|]. split; [by left|done]. }
    split; [|done]. split; [apply Forall_app; split; [done|by constructor]|]. simpl. split; [rewrite sum_bytes_app; unfold sum_bytes at 2; simpl; lia|].
    destruct Hl as [->|[a Ha]]; [exists base, (base + 1); exact Hlk|]. exists a, (base + 1). apply linked_app. by exists base. }
  destruct (evict_ok _ Hr1) as (Ho&Hb&Hlast&dr&Hdr). simpl in Hlast, Hdr. split_and!; [done|done| |].
  - rewrite Hlast by (by destruct (entries r1)). by rewrite last_snoc.
  - intros x Hx. assert (x ∈ (entries r1 ++ [d])%list) as Hin by (rewrite Hdr; set_solver).
    apply elem_of_app in Hin as [?|?%list_elem_of_singleton]; [left; auto|by right].
Qed.
End bounds.

(** ** A term of one control plane

    Publishes and recordings in any order; the log is what each version published. *)

Inductive CPAct `{Bodies} := APublish (degraded : option string) (sn : Snapshot) | ARecord (i : nat).
Record CP `{Bodies} := mkCP { cp_store : ConfigStore; cp_log : gmap Z Snapshot }.

Section term.
Context `{Unicode, RangeOrder, Sha256Sum, Bodies}.

Definition cp_act (c : CP) (a : CPAct) : CP :=
  match a with
  | APublish degraded sn =>
      let '(e, s) := Update degraded sn (cp_store c) in
      mkCP _ s (match e with None => <[version s := snap s]> (cp_log c) | Some _ => cp_log c end)
  | ARecord i => mkCP _ (Update_record i (cp_store c)) (cp_log c)
  end.
Definition cp_run (acts : list CPAct) (c : CP) : CP := fold_left cp_act acts c.

(** The start of a term: the version counter was seeded at [v0] and the snapshot is the one a
    standby replicated, or the zero snapshot. *)
Definition boot (v0 : Z) (sn0 : Snapshot) (f : FloorFile) (w : bool) : CP :=
  mkCP _ (seedReplicatedSnapshot sn0 ((new_store f w) <| armed := true |> <| version := v0 |>)) {[v0 := sn0]}.

(** A recorded or pending difference is one of published lists. *)
Definition call_ok (log : gmap Z Snapshot) (c : Call) : Prop :=
  ca_target c = ca_base c + 1 ∧ (∃ so, log !! ca_base c = Some so ∧ BlockedHosts so = ca_old c) ∧
  ∃ sn, log !! ca_target c = Some sn ∧ BlockedHosts sn = ca_new c.
Definition entry_ok (log : gmap Z Snapshot) (d : blocklistDelta) : Prop :=
  ∃ so sn, log !! dl_base d = Some so ∧ log !! dl_version d = Some sn ∧ FP d = FeedSetFingerprint (hosts_of sn) ∧
    (Resync d = false → ∃ o, BlockedHosts so = Some o ∧ (Added d, Removed d) = diffHosts o (hosts_of sn)).

Record cp_inv (v0 : Z) (c : CP) : Prop := {
  ci_floor : v0 ≤ version (cp_store c);
  ci_log v sn : cp_log c !! v = Some sn → v0 ≤ v ≤ version (cp_store c);
  ci_cur : cp_log c !! version (cp_store c) = Some (snap (cp_store c));
  ci_ver : sn_version (snap (cp_store c)) = version (cp_store c) ∨
           (version (cp_store c) = v0 ∧ sn_version (snap (cp_store c)) < v0);
  ci_pending : Forall (call_ok (cp_log c)) (pending (cp_store c));
  ci_ring : ring_ok (deltaRing (cp_store c));
  ci_bounds : ring_bounds (deltaRing (cp_store c));
  ci_entries : Forall (entry_ok (cp_log c)) (entries (deltaRing (cp_store c)));
}.

Lemma call_ok_mono log log' c : log ⊆ log' → call_ok log c → call_ok log' c.
Proof. intros Hs (?&(so&?&?)&(sn&?&?)). split; [done|]. split; [exists so|exists sn]; split; eauto using lookup_weaken. Qed.
Lemma entry_ok_mono log log' d : log ⊆ log' → entry_ok log d → entry_ok log' d.
Proof. intros Hs (so&sn&?&?&?&?). exists so, sn. split_and!; eauto using lookup_weaken. Qed.

Lemma make_delta_ok log c : call_ok log c →
  entry_ok log (make_delta (ca_base c) (ca_target c) (ca_old c) (ca_new c) (FeedSetFingerprint (default [] (ca_new c))) (ca_epoch c)).
Proof.
  intros (_&(so&Hso&Eo)&(sn&Hsn&En)). exists so, sn. unfold make_delta, hosts_of. rewrite <- En.
  destruct (ca_old c) as [o|]; [|by split_and!]. destruct (diffHosts o _) as [a r] eqn:Ed.
  case_if; split_and!; try done. intros _. exists o. simpl. by rewrite <- Ed.
Qed.

Lemma persist_fields s : version (persistVersionLocked s) = version s ∧ snap (persistVersionLocked s) = snap s ∧
  deltaRing (persistVersionLocked s) = deltaRing s ∧ pending (persistVersionLocked s) = pending s.
Proof. unfold persistVersionLocked. by destruct (armed s && floor_writes s). Qed.

(** What a commit changes. *)
Lemma Update_cases degraded sn s e s' : Update degraded sn s = (e, s') →
  (∃ x, e = Some x ∧ s' = s <| lastPublishErr := Some x |>) ∨
  (e = None ∧ version s' = version s + 1 ∧ snap s' = sn <| sn_version := version s + 1 |> ∧ deltaRing s' = deltaRing s ∧
   pending s' = (pending s ++ [mkCall (version s) (version s + 1) (BlockedHosts (snap s)) (BlockedHosts sn) (sn_epoch sn)])%list).
Proof.
  unfold Update, rejectPublish. destruct degraded; [intros [= <- <-]; left; eauto|].
  destruct (negb _); [intros [= <- <-]; left; eauto|]. case_if; [intros [= <- <-]; left; eauto|].
  intros [= <- <-]. right. simpl. match goal with |- context [persistVersionLocked ?x] => destruct (persist_fields x) as (->&->&->&_) end. done.
Qed.

Lemma cp_act_inv v0 c a : cp_inv v0 c → cp_inv v0 (cp_act c a) ∧ cp_log c ⊆ cp_log (cp_act c a) ∧
  version (cp_store c) ≤ version (cp_store (cp_act c a)).
Proof.
  intros [Hf Hlog Hcur Hver Hp Hr Hb He]. destruct a as [degraded sn|i]; simpl.
  - destruct (Update degraded sn (cp_store c)) as [e s] eqn:EU. apply Update_cases in EU as [(x&->&->)|(->&Ev&Es&Er&Epd)].
    + split; [by split|]. split; [done|]. simpl. lia.
    + assert (cp_log c !! version s = None) as Hnew.
      { destruct (cp_log c !! version s) eqn:E; [|done]. apply Hlog in E. lia. }
      assert (cp_log c ⊆ <[version s := snap s]> (cp_log c)) as Hsub by (by apply insert_subseteq).
      simpl. split; [|split; [done|lia]]. split; simpl.
      * lia.
      * intros v sv. rewrite lookup_insert_Some. intros [[<- _]|[_ Hv%Hlog]]; lia.
      * by rewrite lookup_insert_eq.
      * left. by rewrite Es, Ev.
      * rewrite Epd. apply Forall_app. split; [eapply Forall_impl; [done|]; intros; by eapply call_ok_mono|].
        constructor; [|done]. split; [done|]. simpl. split; [exists (snap (cp_store c)); split; [by eapply lookup_weaken|done]|].
        exists (snap s). rewrite <- Ev, lookup_insert_eq. by rewrite Es.
      * by rewrite Er.
      * by rewrite Er.
      * rewrite Er. eapply Forall_impl; [done|]. intros. by eapply entry_ok_mono.
  - unfold Update_record. destruct (pending (cp_store c) !! i) as [ca|] eqn:Ei; [|by split; [|split]].
    assert (call_ok (cp_log c) ca) as Hca by (eapply Forall_lookup_1; eauto).
    pose proof (make_delta_ok _ _ Hca) as Hd. destruct Hca as (Et&_). simpl. split; [|split; [done|lia]].
    set (d := make_delta _ _ _ _ _ _) in Hd.
    destruct (record_ok (ca_base ca) (ca_old ca) (ca_new ca) (FeedSetFingerprint (default [] (ca_new ca))) (ca_epoch ca) _ Hr)
      as (Ho&Hbb&_&Hin). rewrite <- Et in Ho, Hbb, Hin. fold d in Hin.
    split; simpl; try done.
    + apply Forall_delete. done.
    + apply Forall_forall. intros x [?| ->]%Hin; [by eapply Forall_forall|done].
Qed.

Lemma cp_run_inv v0 acts c : cp_inv v0 c → cp_inv v0 (cp_run acts c) ∧ cp_log c ⊆ cp_log (cp_run acts c) ∧
  version (cp_store c) ≤ version (cp_store (cp_run acts c)).
Proof.
  revert c. induction acts as [|a acts IH]; intros c Hc; simpl; [by split; [|split]|].
  destruct (cp_act_inv v0 c a Hc) as (Ha&Hs&Hv). destruct (IH _ Ha) as (Hi&Hs'&Hv'). split; [done|]. split; [by etrans|lia].
Qed.
Lemma boot_inv v0 sn0 f w : sn_version sn0 ≤ v0 → cp_inv v0 (boot v0 sn0 f w).
Proof.
  intros Hv. split; simpl; try done.
  - intros v sn [-> _]%lookup_singleton_Some. lia.
  - by rewrite lookup_singleton_eq.
  - lia.
  - split; [constructor|]. split; [done|]. by exists 0, 0.
Qed.

(** In any order of commits and recordings, the delta ring holds at most 256 entries and
    32 MiB of hosts, its byte count is exact, no entry retains more than 8 MiB, its entries form
    one gap-free chain of versions, and each that is not a resync marker is the difference of the
    lists published at its two versions with the fingerprint of the newer. *)
Theorem ring_bounded v0 sn0 f w acts :
  sn_version sn0 ≤ v0 →
  let c := cp_run acts (boot v0 sn0 f w) in
  let r := deltaRing (cp_store c) in
  Z.of_nat (length (entries r)) ≤ 256 ∧ totalBytes r = sum_bytes (entries r) ∧ totalBytes r ≤ 32 * 2 ^ 20 ∧
  Forall (λ d, 0 ≤ dl_bytes d ≤ 8 * 2 ^ 20) (entries r) ∧ (∃ a z, linked a (entries r) z) ∧
  Forall (entry_ok (cp_log c)) (entries r).
Proof.
  intros Hv c r. destruct (cp_run_inv v0 acts _ (boot_inv v0 sn0 f w Hv)) as ([_ _ _ _ _ (Hs&Ht&Hl) [Hb1 Hb2] He]&_).
  fold c r in Hs, Ht, Hl, Hb1, Hb2, He. split_and!; done.
Qed.
End term.

(** ** What the handlers serve *)

Section serving.
Context `{Unicode, RangeOrder, Sha256Sum, Bodies}.

(** Past the base every entry is kept. *)
Lemma chain_walk_past b a es z l : linked a es z → b ≤ a → chain_walk b es = Some l → l = es ∧ Forall (λ d, Resync d = false) es.
Proof.
  revert a l. induction es as [|d es IH]; intros a l; cbn [linked chain_walk]; [by intros _ _ [= <-]|].
  intros (Hb&Hv&Hl) Hab Hw. destruct (dl_base d <? b) eqn:Eb; bprop; [lia|]. destruct (Resync d) eqn:Er; [done|].
  apply bind_Some in Hw as (l'&Hw&[= <-]). destruct (IH (a + 1) l' Hl ltac:(lia) Hw) as [-> ?]. split; [done|by constructor].
Qed.
Lemma chain_walk_spec b a es z l : linked a es z → a ≤ b ≤ z → chain_walk b es = Some l →
  linked b l z ∧ Forall (λ d, d ∈ es ∧ Resync d = false) l.
Proof.
  revert a. induction es as [|d es IH]; intros a.
  - simpl. intros <- Hab [= <-]. split; [simpl; lia|done].
  - intros Hl Hab Hw. destruct (decide (a = b)) as [->|Hne].
    + destruct (chain_walk_past b b _ _ _ Hl ltac:(lia) Hw) as [-> Hr]. split; [done|].
      apply Forall_forall. intros x Hx. split; [done|]. by eapply Forall_forall in Hr.
    + destruct Hl as (Hb&Hv&Hl). cbn [chain_walk] in Hw. destruct (dl_base d <? b) eqn:Eb; bprop; [|lia].
      destruct (IH (a + 1) Hl ltac:(lia) Hw) as [? HF]. split; [done|]. eapply Forall_impl; [done|]. intros x [? ?]. set_solver.
Qed.

(** A chain the ring serves leads from the base to the newest version. *)
Lemma chain_spec base r l latest : ring_ok r → chain base r = (l, latest, true) →
  linked base l latest ∧ Forall (λ d, d ∈ entries r ∧ Resync d = false) l.
Proof.
  intros (_&_&a&z&Hl). unfold chain. destruct (head (entries r)) as [oldest|] eqn:Eh; [|done].
  destruct (last (entries r)) as [newest|] eqn:El; [|done]. pose proof (linked_last _ _ _ _ Hl El) as Ez.
  case_if; [intros [= <- <-]; bprop; split; [simpl; lia|done]|]. destruct ((base <? dl_base oldest) || _) eqn:Eo; [done|].
  apply orb_false_iff in Eo as [? ?]. bprop. destruct (chain_walk base (entries r)) as [l'|] eqn:Ew; [|done]. intros [= <- <-].
  assert (dl_base oldest = a) by (destruct (entries r); simpl in *; simplify_eq; by destruct Hl).
  rewrite Ez. eapply chain_walk_spec; [exact Hl|lia|done].
Qed.

(** The cache holds remainders of published snapshots. *)
Definition cache_ok (log : gmap Z Snapshot) (c : deltaRemainderCache) : Prop :=
  ∀ b, rc_bytes c = Some b → ∃ sn, log !! rc_version c = Some sn ∧ b = remainder_of (rc_caFP c) (rc_enrolled c) sn.

Lemma serve_spec v0 v caFP enrolled c ch b ch' :
  cp_inv v0 c → v0 ≤ v ≤ version (cp_store c) → cache_ok (cp_log c) ch → serve v caFP enrolled (cp_store c) ch = (Some b, ch') →
  cache_ok (cp_log c) ch' ∧ ∃ sn, cp_log c !! v = Some sn ∧ b = remainder_of caFP enrolled sn.
Proof.
  intros Hc Hv Hch.
  assert (∀ r, (if negb (sn_version (snap (cp_store c)) =? v) then (None, ch)
      else (Some (remainder_of caFP enrolled (snap (cp_store c))), mkCache v caFP enrolled (Some (remainder_of caFP enrolled (snap (cp_store c))))))
      = r → r = (Some b, ch') → cache_ok (cp_log c) ch' ∧ ∃ sn, cp_log c !! v = Some sn ∧ b = remainder_of caFP enrolled sn) as Hmiss.
  { intros r <-. destruct (sn_version _ =? v) eqn:Ev; simpl; [|done]. bprop. intros [= <- <-].
    assert (cp_log c !! v = Some (snap (cp_store c))) as Hl.
    { destruct (ci_ver _ _ Hc) as [E|[E1 E2]]; [|lia]. rewrite <- Ev, E. apply (ci_cur _ _ Hc). }
    split; [intros ? [= <-]|]; eauto. }
  unfold serve. destruct (rc_bytes ch) as [b0|] eqn:Eb; [|by apply Hmiss].
  destruct ((rc_version ch =? v) && _ && _) eqn:Ek; [|by apply Hmiss]. intros [= -> ->]. split; [done|].
  destruct (Hch b Eb) as (sn&Hl&->). apply andb_true_iff in Ek as [[E1 E2]%andb_true_iff E3].
  apply Z.eqb_eq in E1 as <-. apply String.eqb_eq in E2 as <-. apply Bool.eqb_prop in E3 as <-. eauto.
Qed.

(** A delta reply, whatever was published between the handler's reads of the store. *)
Lemma GetConfigDelta_delta v0 enrolled throttled caFP epoch known knownFP c1 acts2 acts3 acts4 ch r ch' :
  let c2 := cp_run acts2 c1 in let c3 := cp_run acts3 c2 in let c4 := cp_run acts4 c3 in
  cp_inv v0 c1 → cache_ok (cp_log c4) ch →
  GetConfigDelta enrolled throttled caFP epoch known knownFP (cp_store c1) (cp_store c2) (cp_store c3) (cp_store c4) ch = (Some r, ch') →
  Mode r = "delta" →
  rp_epoch r = epoch ∧ BaseVersion r = known ∧ known < TargetVersion r ∧ linked known (Deltas r) (TargetVersion r) ∧
  Forall (λ d, entry_ok (cp_log c4) d ∧ Resync d = false) (Deltas r) ∧
  ∃ sn, cp_log c4 !! TargetVersion r = Some sn ∧ TargetFP r = FeedSetFingerprint (hosts_of sn) ∧
    Remainder r = Some (remainder_of caFP enrolled sn).
Proof.
  intros c2 c3 c4 Hc1 Hch.
  destruct (cp_run_inv v0 acts2 c1 Hc1) as (Hc2&Hs2&Hv2). fold c2 in Hc2, Hs2, Hv2.
  destruct (cp_run_inv v0 acts3 c2 Hc2) as (Hc3&Hs3&Hv3). fold c3 in Hc3, Hs3, Hv3.
  destruct (cp_run_inv v0 acts4 c3 Hc3) as (Hc4&Hs4&Hv4). fold c4 in Hc4, Hs4, Hv4.
  unfold GetConfigDelta. case_if; [done|]. case_if; [done|].
  destruct (known =? version (cp_store c1)) eqn:Ek; [intros [= <- <-]; simpl; case_if; done|]. bprop.
  destruct (chain known (deltaRing (cp_store c3))) as [[l latest] ok] eqn:Ec.
  destruct (negb ok || negb (latest =? version (cp_store c1))) eqn:Eok; [by intros [= <- <-]|].
  apply orb_false_iff in Eok as [->%negb_false_iff El]. apply negb_false_iff, Z.eqb_eq in El as ->.
  destruct (chain_spec _ _ _ _ (ci_ring _ _ Hc3) Ec) as [Hl Hin].
  destruct (serve _ _ _ _ _) as [[rem|] ch1] eqn:Es; [|by intros [= <- <-]]. case_if; [by intros [= <- <-]|].
  intros [= <- <-] _. simpl.
  assert (v0 ≤ version (cp_store c1) ≤ version (cp_store c4)) as Hvr by (pose proof (ci_floor _ _ Hc1); lia).
  destruct (serve_spec v0 _ _ _ _ _ _ _ Hc4 Hvr Hch Es) as (_&sn&Hsn&->).
  assert (Forall (λ d, entry_ok (cp_log c4) d ∧ Resync d = false) l) as Hok.
  { eapply Forall_impl; [exact Hin|]. intros d [Hd ?]. split; [|done]. eapply entry_ok_mono; [exact Hs4|].
    pose proof (ci_entries _ _ Hc3) as He. by eapply Forall_forall in He. }
  pose proof (linked_le _ _ _ Hl). split_and!; [done|done|lia|done|done|]. exists sn. split; [done|]. split; [|done].
  destruct (last l) as [d|] eqn:Ed.
  - pose proof (linked_last _ _ _ _ Hl Ed) as Ev. apply last_Some in Ed as [l' ->]. apply Forall_app in Hok as [_ Hok].
    inversion Hok as [|? ? [(so&sn'&_&Hsn'&EF&_) _] _]. subst. rewrite Ev in Hsn'. simplify_eq. done.
  - apply last_None in Ed as ->. by destruct Ek.
Qed.
End serving.

(** ** Over restarts *)

Section lives.
Context `{Unicode, RangeOrder, Sha256Sum, Bodies}.

(** The process ends and starts again: memory is lost, the floor file stays. *)
Definition cp_restart (now replicated : Z) (s : ConfigStore) : ConfigStore :=
  armVersionPersistence now replicated (new_store (floor s) (floor_writes s)).

(** A control plane's life, with the versions it published, newest first.  A restart may find a
    file whose last write failed or that is gone, if then the clock or the replicated version
    has passed what was published. *)
Inductive life : ConfigStore → list Z → Prop :=
  | life_boot now rv f w : life (armVersionPersistence now rv (new_store f w)) []
  | life_publish s vs degraded sn s' : life s vs → Update degraded sn s = (None, s') → life s' (version s' :: vs)
  | life_rejected s vs degraded sn x s' : life s vs → Update degraded sn s = (Some x, s') → life s' vs
  | life_record s vs i : life s vs → life (Update_record i s) vs
  | life_disk s vs w : life s vs → life (s <| floor_writes := w |>) vs
  | life_file s vs f : life s vs → life (s <| floor := f |>) vs
  | life_restart s vs now rv : life s vs →
      (∃ m, Forall (λ v, v ≤ m) vs ∧ (floor s = FloorVersion m ∨ m ≤ now ∨ m ≤ rv)) → life (cp_restart now rv s) vs.

Lemma arm_version now rv s : version s ≤ version (armVersionPersistence now rv s) ∧ now ≤ version (armVersionPersistence now rv s) ∧
  rv ≤ version (armVersionPersistence now rv s) ∧ (∀ v, floor s = FloorVersion v → v ≤ version (armVersionPersistence now rv s)).
Proof.
  unfold armVersionPersistence. simpl. destruct (floor s) as [| |v]; simpl; repeat case_if; simpl; bprop; split_and!; try lia; intros; simplify_eq; lia.
Qed.

(** Over any life of a control plane (publishes, rejected publishes, failing or damaged floor
    file, restarts), every published version is greater than all published before it, so no Data
    Plane drops a publish as already applied, provided a restart that cannot read the last
    published version from the floor file has a clock or a replicated leader version past it. *)
Theorem version_never_reused s vs : life s vs → Sorted (λ v w, w < v) vs ∧ Forall (λ v, v ≤ version s) vs.
Proof.
  induction 1 as [now rv f w|s vs dg sn s' _ [IS IH] EU|s vs dg sn x s' _ [IS IH] EU|s vs i _ [IS IH]|s vs w _ [IS IH]|s vs f _ [IS IH]|s vs now rv _ [IS IH] (m&Hm&Hc)].
  - by split.
  - apply Update_cases in EU as [(x&?&_)|(_&Ev&_)]; [done|]. split.
    + constructor; [done|]. destruct vs; constructor. inversion IH; subst. lia.
    + constructor; [lia|]. eapply Forall_impl; [exact IH|]. intros. simpl in *. lia.
  - apply Update_cases in EU as [(y&_&->)|[? _]]; done.
  - split; [done|]. unfold Update_record. by destruct (pending s !! i).
  - done.
  - done.
  - split; [done|]. eapply Forall_impl; [exact Hm|]. intros v Hv. simpl in Hv.
    destruct (arm_version now rv (new_store (floor s) (floor_writes s))) as (_&?&?&Hfl). unfold cp_restart.
    destruct Hc as [Hc|[?|?]]; [specialize (Hfl _ Hc)|..]; lia.
Qed.
End lives.

(** ** A control plane to evaluate *)

Definition tiny_bodies : Bodies := {|
  Body := string; zero_body := ""; body_valid _ _ := true; idp_sync _ := true;
  wire_bytes _ _ _ hosts b := hostSliceBytes (default [] hosts) + Z.of_nat (String.length b);
  set_ca fp b := fp ++ b; redactUnenrolledSnapshot _ := "";
|}.

Section examples.
#[local] Existing Instance ascii_unicode.
#[local] Existing Instance default_range.
#[local] Existing Instance length_sum.
#[local] Existing Instance tiny_bodies.

Definition publish (hosts : list string) (body : string) : CPAct := APublish None (mkSnap _ 0 1 7 (Some hosts) body).
(** Two publishes, the recording of the second still to come. *)
Definition term_acts : list CPAct :=
  [publish ["a.com"; "b.com"] "p1"; ARecord 0; publish ["A.com "; "*.c.net"] "p2"].

Lemma ring_bounded_witness :
  let r := deltaRing (cp_store (cp_run (term_acts ++ [ARecord 0]) (boot 10 zero_snap FloorAbsent true))) in
  totalBytes r = sum_bytes (entries r) ∧ map dl_version (entries r) = [11; 12] ∧ map Added (entries r) = [[]; ["*.c.net"]].
Proof.
  intros r. destruct (ring_bounded 10 zero_snap FloorAbsent true (term_acts ++ [ARecord 0])) as (_&Ht&_); [done|].
  split_and!; [exact Ht|vm_compute; reflexivity..].
Defined.

Definition no_hosts : Snapshot := zero_snap <| BlockedHosts := Some [] |>.
Lemma version_never_reused_witness :
  let s0 := armVersionPersistence 100 0 (new_store FloorAbsent true) in
  let s1 := (Update None no_hosts s0).2 in
  let s2 := cp_restart 50 0 s1 in
  let s3 := (Update None no_hosts s2).2 in
  life s3 [102; 101] ∧ version s3 = 102 ∧ Sorted (λ v w, w < v) [102; 101].
Proof.
  intros s0 s1 s2 s3.
  assert (life s1 [101]) as HL1 by (apply (life_publish s0 [] None no_hosts s1); [apply life_boot|vm_compute; reflexivity]).
  assert (life s2 [101]) as HL2.
  { apply (life_restart s1 [101] 50 0 HL1). exists 101. split; [constructor; [lia|constructor]|left; vm_compute; reflexivity]. }
  assert (life s3 [102; 101]) as HL by (apply (life_publish s2 [101] None no_hosts s3 HL2); vm_compute; reflexivity).
  split_and!; [exact HL|vm_compute; reflexivity|]. apply (version_never_reused s3 [102; 101] HL).
Defined.
End examples.
