(* ===== verification/ConfigSync.v ===== *)
(** * The Data Plane's config poll ([controlplane_client.go], [controlplane_delta.go])

    One poll of a Data Plane that holds a version: the incremental reply first, the full snapshot
    when that does not settle the cycle.  The blocklist is [Blocklist.Store], the epoch ratchet
    [HALease.DP], the control plane [DeltaRing].  The other stores a snapshot updates are seen as
    the stages of the apply; each keeps the version of the snapshot it last ran on.

    - [delta_sync_converges]: a delta the control plane serves, whatever it published meanwhile,
      takes a Data Plane that is in step to exactly the blocklist and fingerprint a full apply of
      the target version gives.
    - [rejected_delta_harmless]: of any reply, however corrupt, either the fingerprint checked or
      nothing but the in-memory blocklist has changed.
    - [lost_token_detected]: a delta that lost or gained a token is refused.
    - [idle_drift_not_healed]: a drift found at the current version is not repaired by the resync
      it asks for.
    - [delta_skips_stages]: the incremental apply leaves out two stages of the full one. *)

From S2P Require Import Prelude GoStrings GoNet GoIPText HostUtil Blocklist HALease DeltaRing.

(** ** Fingerprints as exclusive sums *)

Section fingerprints.
Context `{Unicode, RangeOrder, Sha256Sum}.

Definition xors (l : list string) : Z := foldr (λ t a, Z.lxor (sha256_Sum t) a) 0 l.
Definition xor_set (X : gset string) : Z := xors (elements X).

Lemma fold_fpXOR l a : fold_left fpXOR l a = Z.lxor a (xors l).
Proof.
  revert a. induction l as [|t l IH]; intros a; simpl; [by rewrite Z.lxor_0_r|]. rewrite IH. unfold fpXOR. by rewrite Z.lxor_assoc.
Qed.
Lemma xors_perm l l' : l ≡ₚ l' → xors l = xors l'.
Proof.
  induction 1 as [|t l l' _ IH|t u l|l l' l'' _ -> _ ->]; simpl; [done|by rewrite IH| |done].
  by rewrite <- !Z.lxor_assoc, (Z.lxor_comm (sha256_Sum u)).
Qed.
Lemma xors_app l l' : xors (l ++ l')%list = Z.lxor (xors l) (xors l').
Proof. induction l as [|t l IH]; simpl; [by rewrite Z.lxor_0_l|]. by rewrite IH, Z.lxor_assoc. Qed.
Lemma xor_set_list l X : NoDup l → list_to_set l = X → xors l = xor_set X.
Proof.
  intros Hl <-. apply xors_perm, NoDup_Permutation; [done|apply NoDup_elements|]. intros x.
  by rewrite elem_of_elements, elem_of_list_to_set.
Qed.
Lemma xor_set_range X : xors (range_set X) = xor_set X.
Proof. apply xor_set_list; [apply range_set_NoDup|]. apply set_eq. intros x. by rewrite elem_of_list_to_set, range_set_elem. Qed.
Lemma xor_set_union X Y : X ## Y → xor_set (X ∪ Y) = Z.lxor (xor_set X) (xor_set Y).
Proof. intros HXY. unfold xor_set. rewrite <- xors_app. by apply xors_perm, elements_disj_union. Qed.
(** What is in one set and not in the other. *)
Lemma xor_set_diff X Y : Y ⊆ X → xor_set (X ∖ Y) = Z.lxor (xor_set X) (xor_set Y).
Proof.
  intros HYX. rewrite (union_difference_L Y X HYX) at 2. rewrite xor_set_union by set_solver.
  rewrite (Z.lxor_comm (xor_set Y)), Z.lxor_assoc, Z.lxor_nilpotent, Z.lxor_0_r. done.
Qed.
Lemma xor_set_move O N : xor_set N = Z.lxor (xor_set O) (Z.lxor (xor_set (O ∖ N)) (xor_set (N ∖ O))).
Proof.
  rewrite <- Z.lxor_assoc, <- xor_set_diff by set_solver. rewrite <- xor_set_union by set_solver. f_equal.
  apply set_eq. intros x. rewrite !elem_of_union, !elem_of_difference. destruct (decide (x ∈ O)), (decide (x ∈ N)); tauto.
Qed.

(** A published list names each token once, in the form the ingest gives it. *)
Definition canonical (hosts : list string) : Prop :=
  NoDup (omap normDeltaHost hosts) ∧ Forall (λ t, token t = t) (omap normDeltaHost hosts).

Lemma feedSetFingerprint_fold hosts : feedSetFingerprint hosts = xors (omap normDeltaHost hosts).
Proof.
  unfold feedSetFingerprint. assert (∀ a, fold_left (λ acc h, match normDeltaHost h with Some tok => fpXOR acc tok | None => acc end) hosts a
    = Z.lxor a (xors (omap normDeltaHost hosts))) as ->; [|by rewrite Z.lxor_0_l].
  induction hosts as [|h hosts IH]; intros a; simpl; [by rewrite Z.lxor_0_r|]. rewrite IH. destruct (normDeltaHost h); simpl; [|done].
  unfold fpXOR. by rewrite Z.lxor_assoc.
Qed.
Lemma fingerprint_set hosts : canonical hosts → feedSetFingerprint hosts = xor_set (token_set hosts).
Proof. intros [Hn _]. rewrite feedSetFingerprint_fold. by apply xor_set_list. Qed.

(** Tokens that are canonical survive being normalised again. *)
Lemma token_set_fix hosts l : canonical hosts → (∀ t, t ∈ l → t ∈ token_set hosts) → token_set l = list_to_set l.
Proof.
  intros [_ Hf] Hl. apply set_eq. intros x. rewrite elem_of_token_set, elem_of_list_to_set.
  assert (∀ t, t ∈ token_set hosts → token t = t ∧ t ≠ "") as Ht.
  { intros t Ht. split; [|by apply elem_of_token_set in Ht as [? _]]. unfold token_set in Ht. apply elem_of_list_to_set in Ht.
    by eapply Forall_forall in Hf. }
  split.
  - intros (_&h&Hh&<-). destruct (Ht h (Hl h Hh)) as [-> _]. done.
  - intros Hx. destruct (Ht x (Hl x Hx)) as [E Hne]. split; [done|]. by exists x.
Qed.

(** In step with a published list: its tokens and the admin's are enforced, its fingerprint held. *)
Definition synced (b : Store) (hosts : list string) : Prop :=
  typed b ∧ tokens b = token_set hosts ∪ manual b ∧ syncedFP b = feedSetFingerprint hosts.

(** One published difference, applied. *)
Lemma apply_diff b o n added removed : canonical o → canonical n → diffHosts o n = (added, removed) → synced b o →
  synced (ApplyDelta added removed b) n ∧ manual (ApplyDelta added removed b) = manual b.
Proof.
  intros Ho Hn [= <- <-] (T&K&S). set (added := filter _ (range_set (token_set n))). set (removed := filter _ (range_set (token_set o))).
  assert (token_set added = token_set n ∖ token_set o) as Ea.
  { rewrite (token_set_fix n) by (done || (unfold added; intros t [_ ?%range_set_elem]%list_elem_of_filter; done)).
    apply set_eq. intros x. unfold added. rewrite elem_of_list_to_set, list_elem_of_filter, range_set_elem. set_solver. }
  assert (token_set removed = token_set o ∖ token_set n) as Er.
  { rewrite (token_set_fix o) by (done || (unfold removed; intros t [_ ?%range_set_elem]%list_elem_of_filter; done)).
    apply set_eq. intros x. unfold removed. rewrite elem_of_list_to_set, list_elem_of_filter, range_set_elem. set_solver. }
  destruct (ApplyDelta_spec added removed b T) as (T'&M&K'&S'). split; [|done]. split_and!; [done| |].
  - rewrite K', M, K, Ea, Er. apply set_eq. intros x. rewrite !elem_of_union, !elem_of_difference, ?elem_of_union, ?elem_of_difference.
    destruct (decide (x ∈ token_set o)), (decide (x ∈ token_set n)), (decide (x ∈ manual b)); tauto.
  - rewrite S', !fold_fpXOR, !xor_set_range, Ea, Er, Z.lxor_0_l, S, !fingerprint_set by done.
    assert (filter (λ t, t ∉ token_set n ∖ token_set o) (token_set o ∖ token_set n) = token_set o ∖ token_set n) as ->.
    { clear. apply set_eq. intros x. rewrite elem_of_filter, !elem_of_difference. tauto. }
    by rewrite <- xor_set_move.
Qed.

(** The chain of published differences. *)
Lemma apply_chain `{Bodies} log b a l z so sn :
  (∀ v s, log !! v = Some s → canonical (hosts_of s)) →
  linked a l z → Forall (λ d, entry_ok log d ∧ Resync d = false) l → log !! a = Some so → log !! z = Some sn →
  synced b (hosts_of so) →
  let b' := fold_left (λ b d, ApplyDelta (Added d) (Removed d) b) l b in
  synced b' (hosts_of sn) ∧ manual b' = manual b.
Proof.
  intros Hcan. revert a b so. induction l as [|d l IH]; intros a b so Hl Hok Ha Hz Hb; simpl.
  - simpl in Hl. subst. by simplify_eq.
  - destruct Hl as (Eb&Ev&Hl). inversion Hok as [|? ? [(so'&sn'&Hso&Hsn&_&Hd) Hr] Hok']; subst. rewrite Ev in Hsn. simplify_eq.
    destruct (Hd Hr) as (o&Eo&Ed).
    assert (hosts_of so = o) as Eoo by (unfold hosts_of; by rewrite Eo). symmetry in Ed.
    destruct (apply_diff b (hosts_of so) (hosts_of sn') (Added d) (Removed d)) as [Hb' Hm]; [by eapply Hcan|by eapply Hcan|by rewrite Eoo|done|].
    destruct (IH _ _ _ Hl Hok' Hsn Hz Hb') as [? Hm']. split; [done|]. by rewrite Hm'.
Qed.
End fingerprints.

(** ** The client *)

(** The parts of an apply other than the blocklist. *)
Inductive Stage := ExternalAuth | IdPProfiles | TrafficExceptBlocklist | ClusterRuntime | ExtendedState | SaaSFeed | MCP.
#[global] Instance Stage_eq_dec : EqDecision Stage.
Proof. solve_decision. Defined.

Record DataPlaneClient `{Bodies} := mkClient {
  lastVersion : Z; lastPolicyVersion : Z;
  deltaUnsupported : bool; deltaProbeSkips : Z;
  bl : Store;                       (* the process's blocklist *)
  fence : DP;                       (* its epoch ratchet *)
  ran : Stage → Z;                  (* the version each stage last ran on *)
  lastGood : option Snapshot;       (* the last-good file *)
  disk : bool;                      (* whether a file write succeeds *)
}.
#[global] Instance DataPlaneClient_eta `{Bodies} : Eta DataPlaneClient := λ d,
  mkClient _ (lastVersion d) (lastPolicyVersion d) (deltaUnsupported d) (deltaProbeSkips d) (bl d) (fence d) (ran d) (lastGood d) (disk d).

Definition deltaReprobeInterval : Z := 20.

(** Why a delta was not applied. *)
Inductive DeltaErr := ExceedsCap | BlocklistDrift | IdPSync.

(** The outcome of an RPC whose reply decodes to an [A]. *)
Inductive Rpc (A : Type) := RpcOk (a : A) | RpcUnimplemented | RpcFailed | RpcGarbled.
#[global] Arguments RpcOk {_} _.
#[global] Arguments RpcUnimplemented {_}.
#[global] Arguments RpcFailed {_}.
#[global] Arguments RpcGarbled {_}.

Section client.
Context `{Unicode, Idna, RangeOrder, Sha256Sum, Bodies}.

Definition run_stages (ss : list Stage) (v : Z) (d : DataPlaneClient) : DataPlaneClient :=
  d <| ran := λ s, if decide (s ∈ ss) then v else ran d s |>.
Definition observe (epoch : Z) (d : DataPlaneClient) : bool * DataPlaneClient :=
  let '(ok, f) := dpObserveEpoch (disk d) epoch (fence d) in (ok, d <| fence := f |>).
Definition persistDPLastGoodConfigSnapshot (sn : Snapshot) (d : DataPlaneClient) : DataPlaneClient :=
  if disk d then d <| lastGood := Some sn |> else d.

(** [applyBlocklistDeltaSnapshot]: the chain, the cap, the fingerprint, then the other stages. *)
Definition apply_deltas (l : list blocklistDelta) (b : Store) : Store :=
  fold_left (λ b d, ApplyDelta (Added d) (Removed d) b) l b.
Definition applyBlocklistDeltaSnapshot (remainder : Snapshot) (l : list blocklistDelta) (targetFP : string)
    (d : DataPlaneClient) : option DeltaErr * DataPlaneClient :=
  let d := d <| bl := apply_deltas l (bl d) |> in
  if maxSnapBlockedHosts <? Count (bl d) then (Some ExceedsCap, d)
  else if negb (SyncedFingerprint (bl d) =? targetFP)%string then (Some BlocklistDrift, d)
  else
    let d := d <| bl := Save (bl d) |> in
    let d := run_stages [ExternalAuth; TrafficExceptBlocklist; ClusterRuntime] (sn_version remainder) d in
    if negb (idp_sync (sn_body remainder)) then (Some IdPSync, d)
    else (None, run_stages [IdPProfiles; ExtendedState] (sn_version remainder) d).

(** [applyDeltaReply]; [true] when the cycle is settled. *)
Definition applyDeltaReply (r : getConfigDeltaReply) (d : DataPlaneClient) : bool * DataPlaneClient :=
  let '(ok, d) := observe (rp_epoch r) d in
  if negb ok then (true, d)
  else match Remainder r with
  | None => (false, d)
  | Some remainder =>
      if negb (BaseVersion r =? lastVersion d) || (TargetVersion r <=? BaseVersion r) then (false, d)
      else if negb (validateConfigSnapshot remainder) then (false, d)
      else match applyBlocklistDeltaSnapshot remainder (Deltas r) (TargetFP r) d with
           | (Some _, d) => (false, d)
           | (None, d) =>
               let d := persistDPLastGoodConfigSnapshot (remainder <| BlockedHosts := Some (FeedList (bl d)) |>) d in
               (true, d <| lastVersion := TargetVersion r |> <| lastPolicyVersion := sn_policyVersion remainder |>)
           end
  end.

(** The probe latch of [tryDeltaSync]: whether to ask, and the client. *)
Definition delta_probe (d : DataPlaneClient) : bool * DataPlaneClient :=
  if deltaUnsupported d then
    let d := d <| deltaProbeSkips := deltaProbeSkips d + 1 |> in
    if deltaReprobeInterval <=? deltaProbeSkips d then (true, d <| deltaProbeSkips := 0 |> <| deltaUnsupported := false |>)
    else (false, d)
  else (true, d).
(** [tryDeltaSync], given the reply its request would get. *)
Definition tryDeltaSync (rpc : Z → string → Rpc getConfigDeltaReply) (d : DataPlaneClient) : bool * DataPlaneClient :=
  let '(ask, d) := delta_probe d in
  if negb ask then (false, d)
  else match rpc (lastVersion d) (SyncedFingerprint (bl d)) with
  | RpcUnimplemented => (false, d <| deltaUnsupported := true |> <| deltaProbeSkips := 0 |>)
  | RpcFailed | RpcGarbled => (false, d)
  | RpcOk r =>
      if (Mode r =? "unchanged")%string then (true, d)
      else if (Mode r =? "delta")%string then applyDeltaReply r d
      else (false, d)
  end.

(** [applyConfigSnapshot], its identity profiles already applied. *)
Definition applyConfigSnapshot (sn : Snapshot) (d : DataPlaneClient) : bool * DataPlaneClient :=
  let '(ok, d) := observe (sn_epoch sn) d in
  if negb ok then (false, d)
  else if negb (validateConfigSnapshot sn) then (false, d)
  else
    let d := d <| bl := Save (ReplaceFeedEntries (hosts_of sn) (bl d)) |> in
    (true, run_stages [ExternalAuth; TrafficExceptBlocklist; ClusterRuntime; ExtendedState; SaaSFeed; MCP] (sn_version sn) d).

(** The part of [fetchAndApply] after a full snapshot was decoded. *)
Definition apply_full (sn : Snapshot) (d : DataPlaneClient) : DataPlaneClient :=
  if negb (validateConfigSnapshot sn) then d
  else let '(ok, d) := observe (sn_epoch sn) d in
  if negb ok then d
  else if sn_version sn <=? lastVersion d then d
  else
    let d := run_stages [ExternalAuth] (sn_version sn) d in
    if negb (idp_sync (sn_body sn)) then d
    else let d := run_stages [IdPProfiles] (sn_version sn) d in
    match applyConfigSnapshot sn d with
    | (false, d) => d
    | (true, d) =>
        let d := persistDPLastGoodConfigSnapshot sn d in
        d <| lastVersion := sn_version sn |> <| lastPolicyVersion := sn_policyVersion sn |>
    end.
(** [fetchAndApply]: the poll's reply is [RpcFailed] when every attempt of it failed. *)
Definition fetchAndApply (delta : Z → string → Rpc getConfigDeltaReply) (full : Z → Rpc ConfigReply) (d : DataPlaneClient) : DataPlaneClient :=
  let '(settled, d) := if 0 <? lastVersion d then tryDeltaSync delta d else (false, d) in
  if settled then d
  else match full (lastVersion d) with
       | RpcOk (Full sn) => apply_full sn d
       | _ => d
       end.

(** [applyDPLastGoodConfigSnapshot] with the start of the client that follows it: the versions of
    the cached snapshot, or none. *)
Definition applyDPLastGoodConfigSnapshot (d : DataPlaneClient) : option Snapshot * DataPlaneClient :=
  match lastGood d with
  | None => (None, d)
  | Some sn =>
      if negb (validateConfigSnapshot sn) then (None, d)
      else let d := run_stages [ExternalAuth] (sn_version sn) d in
      if negb (idp_sync (sn_body sn)) then (None, d)
      else let d := run_stages [IdPProfiles] (sn_version sn) d in
      match applyConfigSnapshot sn d with
      | (false, d) => (None, d)
      | (true, d) => (Some sn, d)
      end
  end.
Definition startDataPlane (d : DataPlaneClient) : DataPlaneClient :=
  let '(cached, d) := applyDPLastGoodConfigSnapshot d in
  d <| lastVersion := match cached with Some sn => sn_version sn | None => 0 end |>
    <| lastPolicyVersion := match cached with Some sn => sn_policyVersion sn | None => 0 end |>
    <| deltaUnsupported := false |> <| deltaProbeSkips := 0 |>.
End client.

(** ** Lemmas of the client *)

(** Hexadecimal text names one number. *)
Lemma hex_digits_inj n v v' acc acc' : String.length acc = String.length acc' →
  hex_digits n v acc = hex_digits n v' acc' → acc = acc' ∧ (0 ≤ v < 16 ^ Z.of_nat n → 0 ≤ v' < 16 ^ Z.of_nat n → v = v').
Proof.
  revert v v' acc acc'. induction n as [|n IH]; intros v v' acc acc' Hl; cbn [hex_digits]; [intros ->; simpl; split; [done|lia]|].
  intros E. apply IH in E as [[= En Ea] Hq]; [|simpl; lia]. split; [done|]. rewrite Nat2Z.inj_succ, Z.pow_succ_r by lia. intros Hv Hv'.
  assert (v mod 16 = v' mod 16) as Em.
  { apply (f_equal hex_digit) in En. rewrite !hex_digit_nibble in En by (apply Z.mod_pos_bound; lia). congruence. }
  assert (v / 16 = v' / 16) as Ed by (apply Hq; split; try apply Z.div_pos; try apply Z.div_lt_upper_bound; lia).
  rewrite (Z.div_mod v 16), (Z.div_mod v' 16) by lia. congruence.
Qed.
Lemma fp_hex_inj v v' : 0 ≤ v < 2 ^ 256 → 0 ≤ v' < 2 ^ 256 → fp_hex v = fp_hex v' → v = v'.
Proof. intros Hv Hv' E. by apply hex_digits_inj in E as [_ E]; [apply E|]. Qed.

Section lemmas.
Context `{Unicode, Idna, RangeOrder, Sha256Sum, Bodies}.

Lemma lxor_range n a b : 0 ≤ n → 0 ≤ a < 2 ^ n → 0 ≤ b < 2 ^ n → 0 ≤ Z.lxor a b < 2 ^ n.
Proof.
  intros Hn Ha Hb. split; [apply Z.lxor_nonneg; lia|]. destruct (decide (Z.lxor a b = 0)) as [->|Hne]; [lia|].
  assert (0 ≤ Z.lxor a b) by (apply Z.lxor_nonneg; lia). apply Z.log2_lt_pow2; [lia|].
  eapply Z.le_lt_trans; [apply Z.log2_lxor; lia|]. destruct (decide (n = 0)) as [->|]; [simpl in *; replace a with 0 in * by lia; replace b with 0 in * by lia; done|].
  apply Z.max_lub_lt; (destruct (decide (0 < a)); [|replace a with 0 in * by lia]); (destruct (decide (0 < b)); [|replace b with 0 in * by lia]);
    try (by apply Z.log2_lt_pow2; lia); simpl; lia.
Qed.
Lemma xors_range l : 0 ≤ xors l < 2 ^ 256.
Proof. induction l as [|t l IH]; simpl; [done|]. apply (lxor_range 256); [lia|apply sha256_Sum_range|done]. Qed.

(** A delta folds into the fingerprint what it adds and what it removes. *)
Lemma ApplyDelta_fp added removed b : typed b →
  syncedFP (ApplyDelta added removed b) = Z.lxor (syncedFP b) (Z.lxor (xor_set (token_set removed ∖ token_set added)) (xor_set (token_set added))).
Proof.
  intros T. destruct (ApplyDelta_spec added removed b T) as (_&_&_&->). rewrite !fold_fpXOR, !xor_set_range, Z.lxor_0_l. f_equal. f_equal. f_equal.
  apply set_eq. intros x. rewrite elem_of_filter, elem_of_difference. tauto.
Qed.

Lemma ApplyDelta_files added removed b : files (ApplyDelta added removed b) = files b.
Proof.
  unfold ApplyDelta. apply (fold_left_inv (λ b', files b' = files b)).
  - apply (fold_left_inv (λ b', files b' = files b)); [done|]. intros b' t <-. unfold remove_step, drop_token. by repeat case_if.
  - intros b' t <-. unfold put. by case_if.
Qed.
Lemma apply_deltas_files l b : files (apply_deltas l b) = files b.
Proof. unfold apply_deltas. apply (fold_left_inv (λ b', files b' = files b)); [done|]. intros b' d <-. apply ApplyDelta_files. Qed.

Lemma observe_fields epoch d : let d' := (observe epoch d).2 in
  lastVersion d' = lastVersion d ∧ bl d' = bl d ∧ ran d' = ran d ∧ lastGood d' = lastGood d.
Proof. unfold observe. by destruct (dpObserveEpoch _ _ _). Qed.
Lemma persist_good_fields sn d : let d' := persistDPLastGoodConfigSnapshot sn d in bl d' = bl d ∧ ran d' = ran d.
Proof. unfold persistDPLastGoodConfigSnapshot. by case_if. Qed.
End lemmas.

(** ** The incremental path *)

Section sync.
Context `{Unicode, Idna, RangeOrder, Sha256Sum, Bodies}.

(** A store in step with a list is, as far as enforcement goes, the store a full apply makes. *)
Lemma synced_replace b b' hosts : synced b' hosts → manual b' = manual b →
  exact b' = exact (ReplaceFeedEntries hosts b) ∧ wildcards b' = wildcards (ReplaceFeedEntries hosts b) ∧
  syncedFP b' = syncedFP (ReplaceFeedEntries hosts b).
Proof.
  intros (T&K&S) M. destruct (ReplaceFeedEntries_spec hosts b) as (T'&K'&_&_&S').
  destruct (tokens_maps b' (ReplaceFeedEntries hosts b) T T') as [-> ->]; [by rewrite K, K', M|]. by rewrite S, S'.
Qed.

(** The incremental apply of a chain that reaches its target. *)
Lemma apply_accepts rem l fp d : Count (apply_deltas l (bl d)) ≤ maxSnapBlockedHosts →
  SyncedFingerprint (apply_deltas l (bl d)) = fp → idp_sync (sn_body rem) = true →
  ∃ d', applyBlocklistDeltaSnapshot rem l fp d = (None, d') ∧ bl d' = Save (apply_deltas l (bl d)) ∧ disk d' = disk d ∧
  ∀ s, ran d' s = if decide (s ∈ [SaaSFeed; MCP]) then ran d s else sn_version rem.
Proof.
  intros Hc Hf Hi. unfold applyBlocklistDeltaSnapshot. cbn -[Save Count SyncedFingerprint apply_deltas].
  assert ((maxSnapBlockedHosts <? Count (apply_deltas l (bl d))) = false) as -> by lia. rewrite Hf, String.eqb_refl, Hi. simpl.
  eexists. split_and!; [done|done|done|]. by intros [].
Qed.
(** A reply that passes every check. *)
Lemma reply_accepted r rem d :
  Remainder r = Some rem → BaseVersion r = lastVersion d → BaseVersion r < TargetVersion r →
  (observe (rp_epoch r) d).1 = true → validateConfigSnapshot rem = true → idp_sync (sn_body rem) = true →
  Count (apply_deltas (Deltas r) (bl d)) ≤ maxSnapBlockedHosts →
  SyncedFingerprint (apply_deltas (Deltas r) (bl d)) = TargetFP r →
  let '(ok, d') := applyDeltaReply r d in
  ok = true ∧ lastVersion d' = TargetVersion r ∧ bl d' = Save (apply_deltas (Deltas r) (bl d)) ∧
  ∀ s, ran d' s = if decide (s ∈ [SaaSFeed; MCP]) then ran d s else sn_version rem.
Proof.
  intros Hr Hb Ht Ho Hval Hi Hc Hf. unfold applyDeltaReply. pose proof (observe_fields (rp_epoch r) d) as HO.
  destruct (observe (rp_epoch r) d) as [ok d1]. simpl in Ho, HO. destruct HO as (Ev&Eb&Er&_). subst ok. simpl. rewrite Hr, Hval, Ev.
  assert (negb (BaseVersion r =? lastVersion d) || (TargetVersion r <=? BaseVersion r) = false) as -> by lia. simpl.
  destruct (apply_accepts rem (Deltas r) (TargetFP r) d1) as (d2&->&Eb2&_&Er2); [by rewrite Eb|by rewrite Eb|done|]. simpl.
  match goal with |- context [persistDPLastGoodConfigSnapshot ?x d2] => destruct (persist_good_fields x d2) as (Eb3&Er3) end.
  split_and!; [done|done|by rewrite Eb3, Eb2, Eb|]. intros s. by rewrite Er3, Er2, Er.
Qed.

(** C8: The incremental sync converges to what a full sync would give.  Let a control plane make
    any publishes and record them in any order, with the handler's reads of the store anywhere
    among them, and let its reply to a Data Plane that is in step with the version it holds be a
    delta.  Applying the reply brings the Data Plane to exactly the exact names, wildcards and
    fingerprint of a full apply of the target version, so the fingerprint check passes: within the
    size cap, past the epoch fence and with a valid remainder the cycle is settled at the target
    version, and the remainder applied is the target's. *)
Theorem delta_sync_converges v0 sn0 f w acts1 acts2 acts3 acts4 enrolled throttled caFP epoch ch r ch' d so :
  let c1 := cp_run acts1 (boot v0 sn0 f w) in
  let c2 := cp_run acts2 c1 in let c3 := cp_run acts3 c2 in let c4 := cp_run acts4 c3 in
  sn_version sn0 ≤ v0 → (∀ v s, cp_log c4 !! v = Some s → canonical (hosts_of s)) → cache_ok (cp_log c4) ch →
  cp_log c4 !! lastVersion d = Some so → synced (bl d) (hosts_of so) →
  GetConfigDelta enrolled throttled caFP epoch (lastVersion d) (SyncedFingerprint (bl d))
    (cp_store c1) (cp_store c2) (cp_store c3) (cp_store c4) ch = (Some r, ch') → Mode r = "delta" →
  ∃ sn, cp_log c4 !! TargetVersion r = Some sn ∧ Remainder r = Some (remainder_of caFP enrolled sn) ∧
  let full := ReplaceFeedEntries (hosts_of sn) (bl d) in
  let b' := apply_deltas (Deltas r) (bl d) in
  exact b' = exact full ∧ wildcards b' = wildcards full ∧ manual b' = manual full ∧ syncedFP b' = syncedFP full ∧
  ((observe (rp_epoch r) d).1 = true → Count b' ≤ maxSnapBlockedHosts →
   validateConfigSnapshot (remainder_of caFP enrolled sn) = true → idp_sync (sn_body (remainder_of caFP enrolled sn)) = true →
   let '(ok, d') := applyDeltaReply r d in
   ok = true ∧ lastVersion d' = TargetVersion r ∧ exact (bl d') = exact full ∧ wildcards (bl d') = wildcards full ∧
   SyncedFingerprint (bl d') = FeedSetFingerprint (hosts_of sn)).
Proof.
  intros c1 c2 c3 c4 Hv0 Hcan Hch Hso Hd HG Hm.
  destruct (cp_run_inv v0 acts1 _ (boot_inv v0 sn0 f w Hv0)) as (Hc1&_).
  destruct (GetConfigDelta_delta v0 _ _ _ _ _ _ c1 acts2 acts3 acts4 ch r ch' Hc1 Hch HG Hm) as (_&Eb&Hlt&Hl&Hok&sn&Hsn&EF&ER).
  destruct (apply_chain _ (bl d) _ _ _ so sn Hcan Hl Hok Hso Hsn Hd) as [Hs Hman].
  change (fold_left _ (Deltas r) (bl d)) with (apply_deltas (Deltas r) (bl d)) in Hs, Hman.
  destruct (synced_replace (bl d) _ _ Hs Hman) as (E1&E2&E3). destruct Hs as (_&_&Hfp).
  exists sn. split; [done|]. split; [done|]. cbv zeta. split_and!; [done|done|exact Hman|done|]. intros Ho Hc Hval Hi.
  pose proof (reply_accepted r _ d ER Eb ltac:(lia) Ho Hval Hi Hc) as HA. destruct (applyDeltaReply r d) as [ok d'].
  destruct HA as (->&->&->&_); [rewrite EF; unfold SyncedFingerprint; by rewrite Hfp|].
  destruct (view_exact _ _ (save_view (apply_deltas (Deltas r) (bl d)))) as (V1&V2&_&_&_&_&V3).
  rewrite V1, V2. split_and!; [done|done|done|done|]. unfold SyncedFingerprint. by rewrite V3, Hfp.
Qed.


(** [X'] is [X] with the token [t] lost or put in. *)
Definition toggled (t : string) (X X' : gset string) : Prop :=
  (t ∈ X ∧ X' = X ∖ {[t]}) ∨ (t ∉ X ∧ X' = {[t]} ∪ X).
Lemma xor_set_toggled t X X' : toggled t X X' → xor_set X' = Z.lxor (xor_set X) (sha256_Sum t).
Proof.
  assert (xor_set {[t]} = sha256_Sum t) as Et by (unfold xor_set; rewrite elements_singleton; simpl; apply Z.lxor_0_r).
  intros [[Ht ->]|[Ht ->]]; [rewrite xor_set_diff by set_solver|rewrite xor_set_union, Z.lxor_comm by set_solver]; by rewrite Et.
Qed.
Lemma toggled_difference t X X' Y : toggled t X X' → t ∉ Y → toggled t (X ∖ Y) (X' ∖ Y).
Proof. intros [[Ht ->]|[Ht ->]] HY; [left|right]; (split; [set_solver|]); apply set_eq; intros x; set_solver. Qed.
Lemma difference_toggled t X Y Y' : toggled t Y Y' → t ∉ X → X ∖ Y' = X ∖ Y.
Proof. intros [[Ht ->]|[Ht ->]] HX; apply set_eq; intros x; destruct (decide (x = t)) as [->|]; set_solver. Qed.

Lemma lxor_same x h : Z.lxor x h = x → h = 0.
Proof.
  intros E. assert (Z.lxor x (Z.lxor x h) = 0) as E0 by (rewrite E; apply Z.lxor_nilpotent).
  by rewrite <- Z.lxor_assoc, Z.lxor_nilpotent, Z.lxor_0_l in E0.
Qed.
Lemma fp_hex_nonempty v : fp_hex v ≠ "".
Proof.
  unfold fp_hex. assert (∀ n v acc, String.length acc ≤ String.length (hex_digits n v acc))%nat as HL.
  { induction n as [|n IH]; intros u acc; cbn [hex_digits]; [lia|]. etrans; [|apply IH]. simpl. lia. }
  intros E. change (hex_digits 64 v "") with (hex_digits 63 (v / 16) (String (nibble (v mod 16)) "")) in E.
  pose proof (HL 63%nat (v / 16) (String (nibble (v mod 16)) "")) as Hl. rewrite E in Hl. simpl in Hl. lia.
Qed.
(** The fence lets through again what it let through. *)
Lemma dpObserve_value w e f : dpObserveEpoch w e f =
  if e <=? 0 then (negb (0 <? dpLastSeenEpoch f), f)
  else if e <? dpLastSeenEpoch f then (false, f)
  else if e =? dpLastSeenEpoch f then (true, f)
  else (true, persistDPLastSeenEpoch w e (f <| dpLastSeenEpoch := e |>)).
Proof.
  unfold dpObserveEpoch. cbv zeta beta. cbn [fst snd].
  assert (obs_step w e ObsLoad f = if e <=? 0 then (ObsDone (negb (0 <? dpLastSeenEpoch f)), f)
    else if e <? dpLastSeenEpoch f then (ObsDone false, f) else if e =? dpLastSeenEpoch f then (ObsDone true, f)
    else (ObsCas (dpLastSeenEpoch f), f)) as -> by done.
  destruct (e <=? 0); [done|]. destruct (e <? dpLastSeenEpoch f); [done|]. destruct (e =? dpLastSeenEpoch f); [done|].
  cbn -[persistDPLastSeenEpoch Z.eqb]. by rewrite Z.eqb_refl.
Qed.
Lemma observe_again e d d' : (observe e d).1 = true → fence d' = fence (observe e d).2 → (observe e d').1 = true.
Proof.
  unfold observe. rewrite !dpObserve_value.
  destruct (e <=? 0) eqn:E0; simpl; [by intros Hl ->|].
  destruct (e <? dpLastSeenEpoch (fence d)) eqn:E1; [done|]. intros _ Ef.
  assert (dpLastSeenEpoch (fence d') = e) as El.
  { rewrite Ef. destruct (e =? dpLastSeenEpoch (fence d)) eqn:E2; simpl; [lia|]. by rewrite persist_last. }
  by rewrite El, Z.ltb_irrefl, Z.eqb_refl.
Qed.
Lemma full_runs_all sn d v : lastVersion d < sn_version sn → sn_version sn = v → validateConfigSnapshot sn = true →
  idp_sync (sn_body sn) = true → (observe (sn_epoch sn) d).1 = true → ∀ s, ran (apply_full sn d) s = v.
Proof.
  intros Hlt <- Hval Hi Ho s. unfold apply_full. rewrite Hval. simpl. pose proof (observe_fields (sn_epoch sn) d) as (Ev&_).
  pose proof (observe_again (sn_epoch sn) d) as Hag. destruct (observe (sn_epoch sn) d) as [ok d1]. simpl in *. subst ok.
  assert ((sn_version sn <=? lastVersion d1) = false) as -> by lia. rewrite Hi. simpl.
  set (d2 := run_stages [IdPProfiles] _ _). specialize (Hag d2 eq_refl eq_refl). unfold applyConfigSnapshot.
  pose proof (observe_fields (sn_epoch sn) d2) as (_&_&Er&_). destruct (observe (sn_epoch sn) d2) as [ok d3]. simpl in Hag, Er. subst ok.
  rewrite Hval. simpl. match goal with |- context [persistDPLastGoodConfigSnapshot ?x ?y] => destruct (persist_good_fields x y) as (_&->) end.
  simpl. rewrite Er. by destruct s.
Qed.

Lemma apply_refuses rem l fp d : SyncedFingerprint (apply_deltas l (bl d)) ≠ fp →
  let '(e, d') := applyBlocklistDeltaSnapshot rem l fp d in
  (e = Some BlocklistDrift ∨ e = Some ExceedsCap) ∧ ran d' = ran d ∧ files (bl d') = files (bl d).
Proof.
  intros Hne. unfold applyBlocklistDeltaSnapshot. cbn -[Save Count SyncedFingerprint apply_deltas].
  pose proof (apply_deltas_files l (bl d)) as Hbf. destruct (maxSnapBlockedHosts <? _); [split; [by right|by split]|].
  apply String.eqb_neq in Hne as ->. split; [by left|by split].
Qed.

(** A delta that lost one token on its way, or gained one, among its additions or its
    removals, never passes: applied to a blocklist in step with the older list it ends at another
    fingerprint than the newer list's, so the apply stops before any stage, unless the token's
    SHA-256 is zero. *)
Theorem lost_token_detected o n added removed added' removed' t rem d :
  canonical o → canonical n → diffHosts o n = (added, removed) → synced (bl d) o → sha256_Sum t ≠ 0 →
  (toggled t (token_set added) (token_set added') ∧ token_set removed' = token_set removed ∧ t ∉ token_set removed) ∨
  (token_set added' = token_set added ∧ toggled t (token_set removed) (token_set removed') ∧ t ∉ token_set added) →
  let '(e, d') := applyBlocklistDeltaSnapshot rem [mkDelta 0 0 added' removed' "" 0 false 0] (FeedSetFingerprint n) d in
  (e = Some BlocklistDrift ∨ e = Some ExceedsCap) ∧ ran d' = ran d ∧ files (bl d') = files (bl d).
Proof.
  intros Ho Hn Hdf Hs Ht Htog. pose proof Hs as (T&_&_).
  destruct (apply_diff (bl d) o n added removed Ho Hn Hdf Hs) as [(_&_&Hfp) _].
  set (b' := apply_deltas [mkDelta 0 0 added' removed' "" 0 false 0] (bl d)).
  assert (SyncedFingerprint b' ≠ FeedSetFingerprint n) as Hne.
  { unfold SyncedFingerprint, FeedSetFingerprint. rewrite <- Hfp. intros E. unfold b', apply_deltas in E. simpl in E.
    rewrite !ApplyDelta_fp in E by done.
    assert (0 ≤ syncedFP (bl d) < 2 ^ 256) as Hr by (destruct Hs as (_&_&->); rewrite feedSetFingerprint_fold; apply xors_range).
    apply fp_hex_inj in E; [|by repeat (apply (lxor_range 256); [lia|..]); [..|apply xors_range|apply xors_range]..].
    apply Ht, (lxor_same (Z.lxor (syncedFP (bl d)) (Z.lxor (xor_set (token_set removed ∖ token_set added)) (xor_set (token_set added))))).
    rewrite <- E at 2. destruct Htog as [(Htog&->&Hnr)|(->&Htog&Hna)].
    - by rewrite (difference_toggled t _ _ _ Htog Hnr), (xor_set_toggled t _ _ Htog), !Z.lxor_assoc.
    - rewrite (xor_set_toggled t _ _ (toggled_difference t _ _ _ Htog Hna)).
      rewrite !Z.lxor_assoc. f_equal. f_equal. apply Z.lxor_comm. }
  by apply apply_refuses.
Qed.

(** ** What the incremental path leaves undone *)

(** A Data Plane that has drifted at the current version is told to resync, and stays drifted.
    The control plane answers the delta request with ["resync"], the client then asks for the full
    configuration with the version it holds, the control plane answers that it is unchanged, and
    the poll ends with the client as it was. *)
Theorem idle_drift_not_healed s d caFP epoch ch fp :
  ServableConfig s = true → 0 < version s → lastVersion d = version s → deltaUnsupported d = false →
  newestFP (version s) (deltaRing s) = Some fp → SyncedFingerprint (bl d) ≠ fp →
  let delta known knownFP := match (GetConfigDelta true false caFP epoch known knownFP s s s s ch).1 with
                             | Some r => RpcOk r | None => RpcFailed end in
  let full known := RpcOk (GetConfig true false caFP known s) in
  delta (lastVersion d) (SyncedFingerprint (bl d)) = RpcOk (short_reply "resync" (version s) epoch) ∧
  full (lastVersion d) = RpcOk (Unchanged (lastVersion d)) ∧ fetchAndApply delta full d = d.
Proof.
  intros Hs Hv El Hu HF Hd delta full.
  assert ((SyncedFingerprint (bl d) =? "")%string = false) as Hne by (apply String.eqb_neq; apply fp_hex_nonempty).
  assert (delta (lastVersion d) (SyncedFingerprint (bl d)) = RpcOk (short_reply "resync" (version s) epoch)) as ED.
  { unfold delta, GetConfigDelta. rewrite Hs, El, Z.eqb_refl, HF, Hne. simpl. by apply not_eq_sym, String.eqb_neq in Hd as ->. }
  assert (full (lastVersion d) = RpcOk (Unchanged (lastVersion d))) as EF.
  { unfold full, GetConfig. rewrite Hs, El. simpl. by assert ((0 <? version s) && (version s <=? version s) = true) as -> by lia. }
  clearbody delta full. split_and!; [done|done|]. unfold fetchAndApply, tryDeltaSync, delta_probe. rewrite Hu. simpl. rewrite ED. simpl.
  assert ((0 <? lastVersion d) = true) as -> by lia. by rewrite EF.
Qed.

(** The incremental apply does not run every stage of the full one.  A delta that passes every
    check moves the Data Plane to the target version with the SaaS feed and MCP stages still at the
    versions they had; the full apply of that version runs all seven, but from the target version
    on the full path declines it as already applied. *)
Theorem delta_skips_stages r rem d :
  Remainder r = Some rem → BaseVersion r = lastVersion d → BaseVersion r < TargetVersion r →
  (observe (rp_epoch r) d).1 = true → validateConfigSnapshot rem = true → idp_sync (sn_body rem) = true →
  Count (apply_deltas (Deltas r) (bl d)) ≤ maxSnapBlockedHosts →
  SyncedFingerprint (apply_deltas (Deltas r) (bl d)) = TargetFP r →
  let d' := (applyDeltaReply r d).2 in
  lastVersion d' = TargetVersion r ∧
  (∀ s, ran d' s = if decide (s ∈ [SaaSFeed; MCP]) then ran d s else sn_version rem) ∧
  (∀ sn, sn_version sn = TargetVersion r → validateConfigSnapshot sn = true → idp_sync (sn_body sn) = true →
     (observe (sn_epoch sn) d).1 = true → ∀ s, ran (apply_full sn d) s = TargetVersion r) ∧
  (∀ sn, sn_version sn = TargetVersion r → ran (apply_full sn d') = ran d').
Proof.
  intros Hr Hb Ht Ho Hval Hi Hc Hf. pose proof (reply_accepted r rem d Hr Hb Ht Ho Hval Hi Hc Hf) as HA.
  destruct (applyDeltaReply r d) as [ok d']. simpl. destruct HA as (_&Ev&_&Er). split_and!; [done|done| |].
  - intros sn Esn Hvs His Hos. by apply (full_runs_all sn d (TargetVersion r)); [lia|..].
  - intros sn Esn. unfold apply_full. destruct (negb _); [done|]. pose proof (observe_fields (sn_epoch sn) d') as HO.
    destruct (observe (sn_epoch sn) d') as [o d1]. simpl in HO. destruct HO as (E1&_&E2&_). destruct o; simpl; [|done].
    by assert ((sn_version sn <=? lastVersion d1) = true) as -> by lia.
Qed.

(** What the last-good file keeps of the blocklist: the entries that are not the admin's. *)
Lemma FeedList_canonical b hosts : canonical hosts → synced b hosts → canonical (FeedList b) ∧ token_set (FeedList b) = token_set hosts ∖ manual b.
Proof.
  intros Hc Hs. pose proof Hs as (T&K&_).
  assert (∀ x, x ∈ FeedList b ↔ x ∈ token_set hosts ∧ x ∉ manual b) as HF.
  { intros x. rewrite FeedList_elem, listed_tokens, K by done. set_solver. }
  assert (Forall (λ x, token x = x ∧ x ≠ "") (FeedList b)) as Hfix.
  { apply Forall_forall. intros x [Hx _]%HF. split; [|by apply elem_of_token_set in Hx as [? _]].
    destruct Hc as [_ Hf]. unfold token_set in Hx. apply elem_of_list_to_set in Hx. by eapply Forall_forall in Hf. }
  assert (omap normDeltaHost (FeedList b) = FeedList b) as Hom.
  { clear -Hfix. induction Hfix as [|x l [Hx Hne] _ IH]; [done|]. cbn [omap list_omap].
    assert (normDeltaHost x = Some x) as -> by (unfold normDeltaHost; rewrite Hx; by apply String.eqb_neq in Hne as ->).
    f_equal. exact IH. }
  split.
  - unfold canonical. rewrite Hom. split; [|eapply Forall_impl; [done|]; by intros x [? _]].
    pose proof (List_tokens_NoDup b T) as HN. unfold List_tokens in HN. unfold FeedList.
    apply NoDup_app in HN as (N1&N2&N3). apply NoDup_app. split_and!; [by apply NoDup_filter| |by apply NoDup_filter].
    intros x [_ Hx]%list_elem_of_filter [_ Hx']%list_elem_of_filter. by apply (N2 x).
  - unfold token_set at 1. rewrite Hom. apply set_eq. intros x. rewrite elem_of_list_to_set, HF. set_solver.
Qed.

(** A host the control plane lists and the Data Plane's admin blocks too is not in the last-good
    file a delta leaves: started from that file, the Data Plane holds the target version with
    another fingerprint than the target's. *)
Theorem overlap_breaks_restart b hosts t : canonical hosts → synced b hosts → t ∈ token_set hosts → manual b = {[t]} →
  sha256_Sum t ≠ 0 → FeedSetFingerprint (FeedList b) ≠ FeedSetFingerprint hosts.
Proof.
  intros Hc Hs Ht Hm Hh. destruct (FeedList_canonical b hosts Hc Hs) as [Hc' Hset].
  assert (toggled t (token_set hosts) (token_set (FeedList b))) as HT by (left; split; [done|by rewrite Hset, Hm]).
  unfold FeedSetFingerprint. intros E. apply fp_hex_inj in E; [|rewrite feedSetFingerprint_fold; apply xors_range..].
  rewrite !fingerprint_set, (xor_set_toggled t _ _ HT) in E by done. by apply lxor_same in E.
Qed.
End sync.

(** ** A Data Plane to evaluate *)

Section examples.
#[local] Existing Instance ascii_unicode.
#[local] Existing Instance default_range.
#[local] Existing Instance length_sum.
#[local] Existing Instance tiny_bodies.
#[local] Instance example_idna : Idna := Some.

Definition empty_bl : Store := New (mkFiles None None None None SourcesAbsent) true.
(** In step with a list at a version, with a block of its own. *)
Definition client (v : Z) (hosts : list string) : DataPlaneClient :=
  mkClient _ v 0 false 0 (ReplaceFeedEntries hosts (AddManual "local.org" empty_bl)) (mkDP 1 FileAbsent "") (λ _, v) None true.
Definition no_cache : deltaRemainderCache := mkCache 0 "" false None.

Lemma client_synced v hosts : synced (bl (client v hosts)) hosts.
Proof.
  change (bl (client v hosts)) with (ReplaceFeedEntries hosts (AddManual "local.org" empty_bl)).
  destruct (ReplaceFeedEntries_spec hosts (AddManual "local.org" empty_bl)) as (T&K&M&_&S). split_and!; [exact T|by rewrite K, M|exact S].
Qed.

(** The hosts of a log, checked. *)
Definition log_canonical (log : gmap Z Snapshot) : bool :=
  forallb (λ p : Z * Snapshot, bool_decide (NoDup (omap normDeltaHost (hosts_of p.2)) ∧
    Forall (λ t, token t = t) (omap normDeltaHost (hosts_of p.2)))) (map_to_list log).
Lemma log_canonical_spec log : log_canonical log = true → ∀ v s, log !! v = Some s → canonical (hosts_of s).
Proof.
  intros HL v s Hs. unfold log_canonical in HL. rewrite forallb_forall in HL.
  specialize (HL (v, s)). apply bool_decide_eq_true in HL; [exact HL|]. by apply list_elem_of_In, elem_of_map_to_list.
Qed.

Lemma delta_sync_converges_witness :
  let c1 := cp_run term_acts (boot 10 zero_snap FloorAbsent true) in
  let c2 := cp_run [ARecord 0] c1 in
  let d := client 11 ["a.com"; "b.com"] in
  let r := default (short_reply "" 0 0) (GetConfigDelta true false "" 1 11 (SyncedFingerprint (bl d))
             (cp_store c1) (cp_store c2) (cp_store c2) (cp_store c2) no_cache).1 in
  exact (apply_deltas (Deltas r) (bl d)) = exact (ReplaceFeedEntries ["A.com "; "*.c.net"] (bl d)) ∧
  let d' := (applyDeltaReply r d).2 in
  lastVersion d' = 12 ∧ IsBlocked (bl d') "x.c.net" = true ∧ IsBlocked (bl d') "b.com" = false ∧ IsBlocked (bl d') "local.org" = true.
Proof.
  intros c1 c2 d r.
  destruct (delta_sync_converges 10 zero_snap FloorAbsent true term_acts [ARecord 0] [] [] true false "" 1 no_cache r
    (mkCache 12 "" true (Some (remainder_of "" true (snap (cp_store c2))))) d
    (snap (cp_store (cp_run [publish ["a.com"; "b.com"] "p1"] (boot 10 zero_snap FloorAbsent true))))) as (sn&Hsn&_&He&_).
  - done.
  - apply log_canonical_spec. vm_compute. reflexivity.
  - intros b [=].
  - vm_compute. reflexivity.
  - apply client_synced.
  - vm_compute. reflexivity.
  - vm_compute. reflexivity.
  - assert (TargetVersion r = 12) as Et by (vm_compute; reflexivity). rewrite Et in Hsn.
    match type of Hsn with ?l = _ => assert (l = Some (snap (cp_store c2))) as Hs2 by (vm_compute; reflexivity) end.
    rewrite Hsn in Hs2. apply (inj Some) in Hs2. subst sn.
    split; [exact He|]. split_and!; vm_compute; reflexivity.
Defined.

(** The removal of "b.com" is lost on the way. *)
Lemma lost_token_detected_witness :
  let d := client 11 ["a.com"; "b.com"] in
  (applyBlocklistDeltaSnapshot zero_snap [mkDelta 0 0 ["c.net"] [] "" 0 false 0] (FeedSetFingerprint ["a.com"; "c.net"]) d).1 ≠ None.
Proof.
  intros d. pose proof (lost_token_detected ["a.com"; "b.com"] ["a.com"; "c.net"] ["c.net"] ["b.com"] ["c.net"] [] "b.com" zero_snap d) as T.
  assert (canonical ["a.com"; "b.com"] ∧ canonical ["a.com"; "c.net"]) as [C1 C2].
  { split; (apply (bool_decide_unpack (NoDup _ ∧ Forall _ _)); vm_compute; exact Logic.I). }
  specialize (T C1 C2 ltac:(vm_compute; reflexivity) (client_synced 11 _) ltac:(vm_compute; discriminate)).
  destruct (applyBlocklistDeltaSnapshot _ _ _ _) as [e d']. simpl. destruct T as ([->| ->]&_); [|done|done].
  right. split; [done|]. split; [left; split; [|apply (bool_decide_unpack _); vm_compute; exact Logic.I]|];
    apply (bool_decide_unpack _); vm_compute; exact Logic.I.
Defined.

(** The file of a Data Plane at the current version was restored without "b.com". *)
Lemma idle_drift_not_healed_witness :
  let s := cp_store (cp_run (term_acts ++ [ARecord 0]) (boot 10 zero_snap FloorAbsent true)) in
  let d := client 12 ["a.com"] in
  let delta known knownFP := match (GetConfigDelta true false "" 1 known knownFP s s s s no_cache).1 with
                             | Some r => RpcOk r | None => RpcFailed end in
  IsBlocked (bl d) "x.c.net" = false ∧ fetchAndApply delta (λ known, RpcOk (GetConfig true false "" known s)) d = d.
Proof.
  intros s d delta. split; [vm_compute; reflexivity|].
  apply (idle_drift_not_healed s d "" 1 no_cache (FeedSetFingerprint ["a.com"; "*.c.net"])); [vm_compute; reflexivity..|].
  vm_compute. discriminate.
Defined.

Lemma delta_skips_stages_witness :
  let d := client 11 ["a.com"; "b.com"] in
  let rem := zero_snap <| sn_version := 12 |> in
  let r := mkReply "delta" 11 12 1 [mkDelta 12 11 ["c.net"] ["b.com"] "" 1 false 0] (FeedSetFingerprint ["a.com"; "c.net"]) (Some rem) in
  let d' := (applyDeltaReply r d).2 in
  lastVersion d' = 12 ∧ ran d' TrafficExceptBlocklist = 12 ∧ ran d' SaaSFeed = 11 ∧ ran d' MCP = 11.
Proof.
  intros d rem r d'. destruct (delta_skips_stages r rem d) as (Hv&Hr&_); try (vm_compute; reflexivity).
  - vm_compute. discriminate.
  - fold d' in Hv, Hr. rewrite !Hr. split_and!; [exact Hv|vm_compute; reflexivity..].
Defined.
End examples.
