(* ===== verification/McpInput.v ===== *)
(** * MCP policy: vocabulary, bounds and the decision tuple

    [internal/mcp/policy]: [enums.go], [action.go], [decision.go] (event classes), [reason.go],
    [remediation.go], [limits.go] and [input.go].

    A Go enumeration is a [uint8]: the model keeps the number, so a value outside the declared
    constants exists here as it does in a hostile tuple.  A nil pointer is [None]; a
    [map[string]string] is a finite map, nil being the empty one (the code only reads it).  A
    [time.Time] is an instant, [IsZero] comparing it with Go's year 1.  An [error] is the reason,
    operation and detail of [internal/mcp/mcperr]. *)

From S2P Require Import Prelude GoStrings.

(** ** Errors *)

(** The categories of [mcperr.Reason] the policy, approval and publication packages use. *)
Inductive Reason :=
  | ReasonPolicyInputInvalid | ReasonPolicyLimitExceeded | ReasonPolicyConditionInvalid | ReasonPolicyRuleInvalid
  | ReasonPolicyObligationInvalid | ReasonPolicySnapshotInvalid | ReasonPolicyNamespaceMismatch | ReasonPolicyStaleRevision
  | ReasonAdminRequestInvalid | ReasonAdminRangeExceeded | ReasonAdminNotFound | ReasonAdminForbidden
  | ReasonApprovalNotFound | ReasonApprovalSelfApproval | ReasonApprovalExpired | ReasonApprovalStaleRevision
  | ReasonApprovalTerminalState | ReasonApprovalBindingMismatch
  | ReasonPublicationValidationFailed | ReasonPublicationStaleBase | ReasonPublicationNotApproved
  | ReasonPublicationDurabilityRequired | ReasonEventDurabilityDegraded.
#[global] Instance Reason_dec : EqDecision Reason.
Proof. solve_decision. Defined.

(** [mcperr.Error]: [New] leaves [wrapped] nil, [Wrap] sets it. *)
Inductive Error := Wrap { e_Reason : Reason; e_Op : string; e_Detail : string; e_wrapped : option Error }.
Definition mkErr (r : Reason) (op detail : string) : Error := Wrap r op detail None.

(** [(T, error)]: the error, or the value. *)
Definition result (A : Type) : Type := Error + A.
#[global] Instance result_ret : MRet result := λ A x, inr x.
#[global] Instance result_bind : MBind result := λ A B f m, match m with inl e => inl e | inr x => f x end.

Lemma result_bind_inr {A B} (m : result A) (f : A → result B) b :
  (m ≫= f) = inr b → ∃ a, m = inr a ∧ f a = inr b.
Proof. destruct m; simpl; [done|eauto]. Qed.

(** Go's [switch] on an enumeration, with its [default]. *)
Fixpoint switch {A} (c : Z) (cases : list (Z * A)) (dflt : A) : A :=
  match cases with
  | [] => dflt
  | (k, v) :: cases => if c =? k then v else switch c cases dflt
  end.

(** ** Enumerations ([enums.go]) *)

Notation Capability := Z (only parsing).
Definition CapabilityUnset : Capability := 0.
Definition CapGateway : Capability := 1.
Definition CapManagement : Capability := 2.
Definition Capability_String (c : Capability) : string :=
  switch c [(CapGateway, "gateway"); (CapManagement, "management")] "unset".
Definition Capability_Valid (c : Capability) : bool := (c =? CapGateway) || (c =? CapManagement).

Notation OperationClass := Z (only parsing).
Definition OpUnset : OperationClass := 0.
Definition OpRead : OperationClass := 1.
Definition OpWrite : OperationClass := 2.
Definition OpDestructive : OperationClass := 3.
Definition OpDiscovery : OperationClass := 4.
Definition OpControl : OperationClass := 5.
Definition OperationClass_String (o : OperationClass) : string :=
  switch o [(OpRead, "read"); (OpWrite, "write"); (OpDestructive, "destructive"); (OpDiscovery, "discovery");
            (OpControl, "control")] "unset".
Definition OperationClass_Valid (o : OperationClass) : bool := (OpRead <=? o) && (o <=? OpControl).

Notation OperationNamespace := Z (only parsing).
Definition NamespaceUnset : OperationNamespace := 0.
Definition NamespaceGatewayTool : OperationNamespace := 1.
Definition NamespaceManagementOperation : OperationNamespace := 2.
Definition OperationNamespace_String (n : OperationNamespace) : string :=
  switch n [(NamespaceGatewayTool, "gateway_tool"); (NamespaceManagementOperation, "management_operation")] "unset".

Notation SubjectKind := Z (only parsing).
Definition SubjectUnset : SubjectKind := 0.
Definition SubjectHuman : SubjectKind := 1.
Definition SubjectWorkload : SubjectKind := 2.
Definition SubjectKind_String (s : SubjectKind) : string :=
  switch s [(SubjectHuman, "human"); (SubjectWorkload, "workload")] "unset".

Notation Assurance := Z (only parsing).
Definition AssuranceUnknown : Assurance := 0.
Definition AssuranceLow : Assurance := 1.
Definition AssuranceMedium : Assurance := 2.
Definition AssuranceHigh : Assurance := 3.
Definition Assurance_String (a : Assurance) : string :=
  switch a [(AssuranceLow, "low"); (AssuranceMedium, "medium"); (AssuranceHigh, "high")] "unknown".

Notation Disposition := Z (only parsing).
Definition DispUnset : Disposition := 0.
Definition DispQuarantined : Disposition := 1.
Definition DispReviewRequired : Disposition := 2.
Definition DispPendingNarrowing : Disposition := 3.
Definition DispServerDisabled : Disposition := 4.
Definition DispUsable : Disposition := 5.
Definition Disposition_Valid (d : Disposition) : bool := (DispQuarantined <=? d) && (d <=? DispUsable).
Definition Disposition_String (d : Disposition) : string :=
  switch d [(DispQuarantined, "quarantined"); (DispReviewRequired, "review_required");
            (DispPendingNarrowing, "pending_narrowing"); (DispServerDisabled, "server_disabled"); (DispUsable, "usable")] "unset".

Notation DriftClass := Z (only parsing).
Definition DriftUnset : DriftClass := 0.
Definition DriftNoMaterialChange : DriftClass := 1.
Definition DriftSafeNarrowing : DriftClass := 2.
Definition DriftPrivilegeExpansion : DriftClass := 3.
Definition DriftSemanticDrift : DriftClass := 4.
Definition DriftIdentityChange : DriftClass := 5.
Definition DriftUnknownTool : DriftClass := 6.
Definition DriftClass_Valid (d : DriftClass) : bool := (DriftNoMaterialChange <=? d) && (d <=? DriftUnknownTool).
Definition DriftClass_String (d : DriftClass) : string :=
  switch d [(DriftNoMaterialChange, "no_material_change"); (DriftSafeNarrowing, "safe_narrowing");
            (DriftPrivilegeExpansion, "privilege_expansion"); (DriftSemanticDrift, "semantic_drift");
            (DriftIdentityChange, "identity_change"); (DriftUnknownTool, "unknown_tool")] "unset".

Notation Destination := Z (only parsing).
Definition DestinationUnknown : Destination := 0.
Definition DestinationNone : Destination := 1.
Definition DestinationApproved : Destination := 2.
Definition DestinationInternal : Destination := 3.
Definition DestinationArbitrary : Destination := 4.
Definition Destination_String (d : Destination) : string :=
  switch d [(DestinationNone, "none"); (DestinationApproved, "approved"); (DestinationInternal, "internal");
            (DestinationArbitrary, "arbitrary")] "unknown".

Notation CredentialPower := Z (only parsing).
Definition PowerUnset : CredentialPower := 0.
Definition PowerReadOnly : CredentialPower := 1.
Definition PowerWrite : CredentialPower := 2.
Definition PowerAdmin : CredentialPower := 3.
Definition CredentialPower_String (p : CredentialPower) : string :=
  switch p [(PowerReadOnly, "read_only"); (PowerWrite, "write"); (PowerAdmin, "admin")] "unset".

Notation Reversibility := Z (only parsing).
Definition ReversibilityUnset : Reversibility := 0.
Definition Reversible : Reversibility := 1.
Definition Irreversible : Reversibility := 2.
Definition Reversibility_String (r : Reversibility) : string :=
  switch r [(Reversible, "reversible"); (Irreversible, "irreversible")] "unset".

Notation TrustClass := Z (only parsing).
Definition TrustUnknown : TrustClass := 0.
Definition TrustUntrusted : TrustClass := 1.
Definition TrustLow : TrustClass := 2.
Definition TrustHigh : TrustClass := 3.
Definition TrustClass_String (t : TrustClass) : string :=
  switch t [(TrustUntrusted, "untrusted"); (TrustLow, "low"); (TrustHigh, "high")] "unknown".

Notation ManagedState := Z (only parsing).
Definition ManagedUnknown : ManagedState := 0.
Definition Managed : ManagedState := 1.
Definition Unmanaged : ManagedState := 2.
Definition ManagedState_String (m : ManagedState) : string :=
  switch m [(Managed, "managed"); (Unmanaged, "unmanaged")] "unknown".

Notation ServerVerification := Z (only parsing).
Definition ServerVerifyUnset : ServerVerification := 0.
Definition ServerVerified : ServerVerification := 1.
Definition ServerIdentityMismatch : ServerVerification := 2.
Definition ServerVerification_Valid (s : ServerVerification) : bool :=
  (s =? ServerVerified) || (s =? ServerIdentityMismatch).
Definition ServerVerification_String (s : ServerVerification) : string :=
  switch s [(ServerVerified, "verified"); (ServerIdentityMismatch, "identity_mismatch")] "unset".

Notation SenderBinding := Z (only parsing).
Definition SenderBindingNone : SenderBinding := 0.
Definition SenderBindingDPoP : SenderBinding := 1.
Definition SenderBindingMTLS : SenderBinding := 2.
Definition SenderBinding_String (s : SenderBinding) : string :=
  switch s [(SenderBindingDPoP, "dpop"); (SenderBindingMTLS, "mtls")] "none".
Definition SenderBinding_Bound (s : SenderBinding) : bool := (s =? SenderBindingDPoP) || (s =? SenderBindingMTLS).

(** ** Actions, effects and event classes ([action.go], [decision.go]) *)

Notation Action := Z (only parsing).
Definition ActionInvalid : Action := 0.
Definition ActionAllow : Action := 1.
Definition ActionDeny : Action := 2.
Definition ActionMonitor : Action := 3.
Definition ActionQuarantine : Action := 4.
Definition ActionRequireConfirmation : Action := 5.
Definition ActionRequireApproval : Action := 6.
Definition ActionAllowOnce : Action := 7.
Definition ActionAllowForSession : Action := 8.
Definition ActionAllowWithRedaction : Action := 9.

(** The entries of the map [actionCode]. *)
Definition actionCode : list (Action * string) :=
  [(ActionInvalid, "INVALID"); (ActionAllow, "ALLOW"); (ActionDeny, "DENY"); (ActionMonitor, "MONITOR");
   (ActionQuarantine, "QUARANTINE"); (ActionRequireConfirmation, "REQUIRE_CONFIRMATION");
   (ActionRequireApproval, "REQUIRE_APPROVAL"); (ActionAllowOnce, "ALLOW_ONCE");
   (ActionAllowForSession, "ALLOW_FOR_SESSION"); (ActionAllowWithRedaction, "ALLOW_WITH_REDACTION")].
Definition Action_String (a : Action) : string := switch a actionCode "INVALID".
Definition Action_Valid (a : Action) : bool := (ActionAllow <=? a) && (a <=? ActionAllowWithRedaction).

(** A string-keyed Go map literal, and its lookup. *)
Fixpoint assoc {A} (k : string) (l : list (string * A)) : option A :=
  match l with
  | [] => None
  | (k', v) :: l => if (k =? k')%string then Some v else assoc k l
  end.

Definition codeAction : list (string * Action) :=
  flat_map (λ '(a, s), if a =? ActionInvalid then [] else [(s, a)]) actionCode.
Definition ParseAction (code : string) : option Action := assoc code codeAction.

Notation Effect := Z (only parsing).
Definition EffectDenied : Effect := 0.
Definition EffectPermitted : Effect := 1.
Definition EffectPermittedWithObligations : Effect := 2.
Definition EffectPendingConfirmation : Effect := 3.
Definition EffectPendingApproval : Effect := 4.
Definition EffectQuarantined : Effect := 5.
Definition Action_Effect (a : Action) : Effect :=
  switch a [(ActionAllow, EffectPermitted); (ActionMonitor, EffectPermittedWithObligations);
            (ActionAllowOnce, EffectPermittedWithObligations); (ActionAllowForSession, EffectPermittedWithObligations);
            (ActionAllowWithRedaction, EffectPermittedWithObligations);
            (ActionRequireConfirmation, EffectPendingConfirmation); (ActionRequireApproval, EffectPendingApproval);
            (ActionQuarantine, EffectQuarantined)] EffectDenied.
Definition IsAllowClass (a : Action) : bool :=
  switch a [(ActionAllow, true); (ActionMonitor, true); (ActionAllowOnce, true); (ActionAllowForSession, true);
            (ActionAllowWithRedaction, true)] false.

Notation EventClass := Z (only parsing).
Definition EventError : EventClass := 0.
Definition EventAllow : EventClass := 1.
Definition EventDeny : EventClass := 2.
Definition EventQuarantine : EventClass := 3.
Definition EventApprovalRequired : EventClass := 4.
Definition EventConfirmationRequired : EventClass := 5.
Definition EventMonitor : EventClass := 6.
Definition eventClassFor (a : Action) : EventClass :=
  switch a [(ActionAllow, EventAllow); (ActionAllowOnce, EventAllow); (ActionAllowForSession, EventAllow);
            (ActionAllowWithRedaction, EventAllow); (ActionMonitor, EventMonitor); (ActionQuarantine, EventQuarantine);
            (ActionRequireApproval, EventApprovalRequired); (ActionRequireConfirmation, EventConfirmationRequired)] EventDeny.

(** ** Reason codes and remediations ([reason.go], [remediation.go]) *)

Notation ReasonCode := string (only parsing).
Definition acceptedPrefixes : list string :=
  ["MCP.AUTH"; "MCP.SERVER"; "MCP.TOOL"; "MCP.POLICY"; "MCP.CREDENTIAL"; "MCP.INSPECTION"; "MCP.RATE"; "MCP.SYSTEM";
   "MCP.MANAGEMENT"].
Definition ReasonNoMatchDefaultDeny : ReasonCode := "MCP.POLICY.NO_MATCH_DEFAULT_DENY".
Definition ReasonSnapshotUnavailable : ReasonCode := "MCP.POLICY.SNAPSHOT_UNAVAILABLE".
Definition ReasonApprovalRequired : ReasonCode := "MCP.POLICY.APPROVAL_REQUIRED".
Definition ReasonToolUnknown : ReasonCode := "MCP.TOOL.UNKNOWN".
Definition ReasonToolPrivilegeExpansion : ReasonCode := "MCP.TOOL.PRIVILEGE_EXPANSION".
Definition ReasonServerIdentityChanged : ReasonCode := "MCP.SERVER.IDENTITY_CHANGED".
Definition ReasonServerDisabled : ReasonCode := "MCP.SERVER.DISABLED".
Definition ReasonIdentityAmbiguous : ReasonCode := "MCP.AUTH.IDENTITY_AMBIGUOUS".
Definition ReasonTenantMismatch : ReasonCode := "MCP.AUTH.TENANT_MISMATCH".
Definition ReasonCapabilityMismatch : ReasonCode := "MCP.AUTH.CAPABILITY_MISMATCH".
Definition ReasonManagementMutationNotApproved : ReasonCode := "MCP.MANAGEMENT.MUTATION_NOT_APPROVED".
Definition ReasonInvalidInput : ReasonCode := "MCP.SYSTEM.INVALID_INPUT".

Definition maxReasonBytes : nat := 128.
Definition maxReasonSegments : nat := 8.
Definition maxSegmentBytes : nat := 48.

(** One byte of a token: [A-Z], [0-9] or an underscore. *)
Definition code_byte (c : ascii) : bool :=
  in_range 65 90 (byte_val c) || in_range 48 57 (byte_val c) || Ascii.eqb c "_".
Definition validCodeToken (t : string) : bool :=
  if (t =? "")%string || (maxSegmentBytes <? String.length t)%nat
     || bool_decide (byte_at t 0 = Some "_"%char) || bool_decide (byte_at t (String.length t - 1) = Some "_"%char)
  then false else sall code_byte t.

Definition ReasonCode_Valid (s : ReasonCode) : bool :=
  if (s =? "")%string || (maxReasonBytes <? String.length s)%nat then false else
  match IndexByte s "." with
  | None => false
  | Some first =>
      match IndexByte (sdrop (first + 1) s) "." with
      | None => false
      | Some second =>
          let prefixEnd := (first + 1 + second)%nat in
          if negb (existsb (String.eqb (stake prefixEnd s)) acceptedPrefixes) then false else
          let tokens := Split (sdrop (prefixEnd + 1) s) "." in
          if (length tokens =? 0)%nat || (maxReasonSegments <? length tokens)%nat then false else
          forallb validCodeToken tokens
      end
  end.

Notation Remediation := string (only parsing).
Definition RemediationRequestApproval : Remediation := "request_approval".
Definition RemediationReviewToolDrift : Remediation := "review_tool_drift".
Definition RemediationUseCorrectResource : Remediation := "use_correct_resource".
Definition RemediationIncreaseAssurance : Remediation := "increase_assurance".
Definition RemediationContactPolicyOwner : Remediation := "contact_policy_owner".
Definition RemediationWaitForPolicyPublication : Remediation := "wait_for_policy_publication".
Definition RemediationVerifyServerIdentity : Remediation := "verify_server_identity".
Definition RemediationNotPermitted : Remediation := "not_permitted".
Definition remediations : list Remediation :=
  ["none"; "request_access"; RemediationReviewToolDrift; RemediationRequestApproval; "request_confirmation";
   RemediationUseCorrectResource; RemediationIncreaseAssurance; RemediationContactPolicyOwner;
   RemediationWaitForPolicyPublication; RemediationVerifyServerIdentity; RemediationNotPermitted].
Definition Remediation_Valid (r : Remediation) : bool := existsb (String.eqb r) remediations.

(** ** Bounds ([limits.go]) *)

Definition capSnapshotBytes : Z := Z.shiftl 8 20.
Definition capRulesPerSnap : Z := 4096.
Definition capConditions : Z := 64.
Definition capSetValues : Z := 256.
Definition capStringBytes : Z := 4096.
Definition capPatternBytes : Z := 512.
Definition capPatternSegments : Z := 32.
Definition capResourceAttrs : Z := 32.
Definition capGroupsScopes : Z := 256.
Definition capObligations : Z := 32.
Definition capTraceEntries : Z := 512.
Definition capSimCases : Z := 100000.
Definition capCompareSamples : Z := 1024.
Definition capEvalOps : Z := Z.shiftl 1 20.
Definition capSnapHistory : Z := 64.

Record LimitConfig := mkLimits {
  MaxSnapshotBytes : Z; MaxRulesPerSnap : Z; MaxConditions : Z; MaxSetValues : Z; MaxStringBytes : Z;
  MaxPatternBytes : Z; MaxPatternSegments : Z; MaxResourceAttrs : Z; MaxGroupsScopes : Z; MaxObligations : Z;
  MaxTraceEntries : Z; MaxSimCases : Z; MaxCompareSamples : Z; MaxEvalOps : Z; MaxSnapHistory : Z;
}.
(** [Limits] is a [LimitConfig] behind accessors; its zero value exists. *)
Notation Limits := LimitConfig (only parsing).

Definition limitErr {A} (detail : string) : result A := inl (mkErr ReasonPolicyLimitExceeded "policy.limits" detail).

(** The table [checks]: name, value, ceiling. *)
Definition limit_checks (c : LimitConfig) : list (string * Z * Z) :=
  [("MaxSnapshotBytes", MaxSnapshotBytes c, capSnapshotBytes); ("MaxRulesPerSnap", MaxRulesPerSnap c, capRulesPerSnap);
   ("MaxConditions", MaxConditions c, capConditions); ("MaxSetValues", MaxSetValues c, capSetValues);
   ("MaxStringBytes", MaxStringBytes c, capStringBytes); ("MaxPatternBytes", MaxPatternBytes c, capPatternBytes);
   ("MaxPatternSegments", MaxPatternSegments c, capPatternSegments);
   ("MaxResourceAttrs", MaxResourceAttrs c, capResourceAttrs); ("MaxGroupsScopes", MaxGroupsScopes c, capGroupsScopes);
   ("MaxObligations", MaxObligations c, capObligations); ("MaxTraceEntries", MaxTraceEntries c, capTraceEntries);
   ("MaxSimCases", MaxSimCases c, capSimCases); ("MaxCompareSamples", MaxCompareSamples c, capCompareSamples);
   ("MaxEvalOps", MaxEvalOps c, capEvalOps); ("MaxSnapHistory", MaxSnapHistory c, capSnapHistory)].
Fixpoint run_checks (l : list (string * Z * Z)) : result () :=
  match l with
  | [] => inr ()
  | (name, v, c) :: l =>
      if v <=? 0 then limitErr (name ++ " must be positive")
      else if v >? c then limitErr (name ++ " exceeds its hard-cap ceiling") else run_checks l
  end.
Definition LimitConfig_Validate (c : LimitConfig) : result () :=
  _ ← run_checks (limit_checks c);
  if MaxTraceEntries c <? MaxRulesPerSnap c then limitErr "MaxTraceEntries must be at least MaxRulesPerSnap"
  else mret ().
Definition NewLimits (c : LimitConfig) : result Limits := _ ← LimitConfig_Validate c; mret c.
Definition DefaultLimits : Limits :=
  mkLimits (Z.shiftl 1 20) 512 32 128 1024 256 16 16 128 16 512 10000 256 (Z.shiftl 1 16) 16.

(** ** The decision tuple ([input.go]) *)

(** Go's zero [time.Time]: the start of year 1, in nanoseconds from the Unix epoch. *)
Definition zeroTime : Instant := - 62135596800 * Second.
Definition IsZero (t : Instant) : bool := t =? zeroTime.
Definition Unix (t : Instant) : Z := t / Second.

Record Principal := mkPrincipal {
  pr_Kind : SubjectKind; pr_SubjectID : string; pr_Tenant : string; pr_Groups : list string;
  pr_Assurance : Assurance; pr_SenderBinding : SenderBinding; pr_Issuer : string;
}.
Record Agent := mkAgent {
  ag_AgentID : string; ag_Owner : string; ag_Version : string; ag_Managed : ManagedState; ag_Trust : TrustClass;
}.
Record Client := mkClient {
  cl_ClientID : string; cl_AppID : string; cl_Tenant : string; cl_Trust : TrustClass; cl_Capability : Capability;
}.
Record Server := mkServer {
  sv_ServerID : string; sv_Owner : string; sv_Environment : string; sv_Enabled : bool; sv_Verification : ServerVerification;
}.
Record Tool := mkTool {
  tl_Name : string; tl_ServerID : string; tl_FingerprintHash : string; tl_Disposition : Disposition; tl_Drift : DriftClass;
  tl_Destination : Destination; tl_CredentialPower : CredentialPower; tl_Reversibility : Reversibility;
  tl_InputSchemaHash : string; tl_OutputSchemaHash : string; tl_DescriptionHash : string; tl_RiskSignals : list string;
}.
Record Operation := mkOperation {
  op_Method : string; op_Class : OperationClass; op_Namespace : OperationNamespace; op_Operand : string;
  op_DecisionPoint : string;
}.
Record Resource := mkResource { rs_Type : string; rs_ID : string; rs_Tenant : string; rs_Attrs : gmap string string }.
Record DestinationMeta := mkDestination {
  ds_Class : Destination; ds_Environment : string; ds_ApprovedBreadth : Destination;
}.
Record CredentialMeta := mkCredential { cr_ProfileRef : string; cr_PowerCeiling : CredentialPower; cr_Kind : string }.
Record Session := mkSession {
  ss_Fingerprint : string; ss_Assurance : Assurance; ss_SenderBinding : SenderBinding; ss_PriorConfirmation : bool;
  ss_PriorApproval : bool; ss_PriorGrant : bool;
}.
Record Inspection := mkInspection {
  ins_DLPAvailable : bool; ins_RedactionAvailable : bool; ins_DestInspectAvailable : bool; ins_SecretScanAvailable : bool;
  ins_SecretFound : bool; ins_PIIFound : bool; ins_InjectionSuspected : bool; ins_SchemaInvalid : bool;
}.
Record DecisionInput := mkInput {
  in_Capability : Capability; in_PolicyRevision : Z; in_CatalogRevision : Z; in_RegistryRevision : Z;
  in_RuntimeRevision : Z; in_EvalTime : Instant;
  in_Principal : Principal; in_Agent : option Agent; in_Client : Client; in_Server : option Server;
  in_Tool : option Tool; in_Operation : Operation; in_Resource : option Resource; in_Destination : DestinationMeta;
  in_Credential : option CredentialMeta; in_Session : Session; in_Inspection : Inspection;
}.
#[global] Instance Server_eta : Eta Server := λ s,
  mkServer (sv_ServerID s) (sv_Owner s) (sv_Environment s) (sv_Enabled s) (sv_Verification s).
#[global] Instance Tool_eta : Eta Tool := λ t,
  mkTool (tl_Name t) (tl_ServerID t) (tl_FingerprintHash t) (tl_Disposition t) (tl_Drift t) (tl_Destination t)
    (tl_CredentialPower t) (tl_Reversibility t) (tl_InputSchemaHash t) (tl_OutputSchemaHash t) (tl_DescriptionHash t)
    (tl_RiskSignals t).
#[global] Instance Operation_eta : Eta Operation := λ o,
  mkOperation (op_Method o) (op_Class o) (op_Namespace o) (op_Operand o) (op_DecisionPoint o).
#[global] Instance DecisionInput_eta : Eta DecisionInput := λ i,
  mkInput (in_Capability i) (in_PolicyRevision i) (in_CatalogRevision i) (in_RegistryRevision i) (in_RuntimeRevision i)
    (in_EvalTime i) (in_Principal i) (in_Agent i) (in_Client i) (in_Server i) (in_Tool i) (in_Operation i) (in_Resource i)
    (in_Destination i) (in_Credential i) (in_Session i) (in_Inspection i).

(** [DecisionInput{}]: every field its zero value. *)
Definition zero_input : DecisionInput :=
  mkInput 0 0 0 0 0 zeroTime (mkPrincipal 0 "" "" [] 0 0 "") None (mkClient "" "" "" 0 0) None None
    (mkOperation "" 0 0 "" "") None (mkDestination 0 "" 0) None (mkSession "" 0 0 false false false)
    (mkInspection false false false false false false false false).

Definition inputErr {A} (detail : string) : result A := inl (mkErr ReasonPolicyInputInvalid "policy.input" detail).

Definition validatePrincipal (i : DecisionInput) (lim : Limits) : result () :=
  let p := in_Principal i in
  if negb ((pr_Kind p =? SubjectHuman) || (pr_Kind p =? SubjectWorkload)) then inputErr "missing or invalid subject kind" else
  if (pr_SubjectID p =? "")%string then inputErr "missing subject id" else
  if (pr_Tenant p =? "")%string then inputErr "missing tenant" else
  if pr_Assurance p >? AssuranceHigh then inputErr "impossible assurance level" else
  if Z.of_nat (length (pr_Groups p)) >? MaxGroupsScopes lim then inputErr "too many principal groups" else mret ().

Definition validateOperation (i : DecisionInput) : result () :=
  let o := in_Operation i in
  if (op_Method o =? "")%string then inputErr "missing operation method" else
  if negb (OperationClass_Valid (op_Class o)) then inputErr "missing or invalid operation class" else
  if op_Namespace o =? NamespaceGatewayTool then
    if negb (in_Capability i =? CapGateway) then inputErr "gateway-tool namespace on a non-Gateway capability" else mret ()
  else if op_Namespace o =? NamespaceManagementOperation then
    if negb (in_Capability i =? CapManagement) then inputErr "management-operation namespace on a non-Management capability"
    else mret ()
  else inputErr "missing or invalid operation namespace".

(** Called with the tool and the server the caller found not nil. *)
Definition validateGatewayTool (s : Server) (t : Tool) (lim : Limits) : result () :=
  if (tl_Name t =? "")%string then inputErr "Gateway tool requires a name" else
  if negb (tl_ServerID t =? sv_ServerID s)%string then inputErr "tool is not bound to the selected server" else
  if negb (Disposition_Valid (tl_Disposition t)) then inputErr "Gateway tool requires a valid catalog disposition" else
  if negb (tl_Disposition t =? DispQuarantined) && negb (DriftClass_Valid (tl_Drift t))
  then inputErr "Gateway tool requires a valid drift class" else
  if (tl_Disposition t =? DispQuarantined) && negb (tl_Drift t =? DriftUnset) && negb (DriftClass_Valid (tl_Drift t))
  then inputErr "Gateway tool has an invalid drift class" else
  if negb (tl_Disposition t =? DispQuarantined) && negb (tl_Drift t =? DriftUnknownTool) && (tl_FingerprintHash t =? "")%string
  then inputErr "missing fingerprint for a Gateway tool" else
  if Z.of_nat (length (tl_RiskSignals t)) >? MaxSetValues lim then inputErr "too many tool risk signals" else mret ().

Definition validateCapabilityRefs (i : DecisionInput) (lim : Limits) : result () :=
  if in_Capability i =? CapManagement then
    if bool_decide (is_Some (in_Server i)) || bool_decide (is_Some (in_Tool i))
    then inputErr "Management input carries Gateway server/tool authority" else mret ()
  else
    match in_Server i with
    | None => inputErr "Gateway input requires a server"
    | Some s =>
        if (sv_ServerID s =? "")%string then inputErr "Gateway input requires a server" else
        if negb (ServerVerification_Valid (sv_Verification s))
        then inputErr "Gateway server verification state is unset or invalid" else
        match in_Tool i with
        | None => if op_Class (in_Operation i) =? OpDiscovery then mret ()
                  else inputErr "Gateway tool operation requires a resolved tool"
        | Some t => validateGatewayTool s t lim
        end
    end.

Definition validateResource (i : DecisionInput) (lim : Limits) : result () :=
  match in_Resource i with
  | None => mret ()
  | Some r =>
      if (rs_Type r =? "")%string || (rs_ID r =? "")%string
      then inputErr "ambiguous resource identity (type and id are required)" else
      if Z.of_nat (size (rs_Attrs r)) >? MaxResourceAttrs lim then inputErr "too many resource attributes" else mret ()
  end.

Definition Validate (i : DecisionInput) (lim : Limits) : result () :=
  if negb (Capability_Valid (in_Capability i)) then inputErr "missing or invalid capability" else
  if (in_PolicyRevision i =? 0) || (in_CatalogRevision i =? 0) then inputErr "missing policy/catalog revision" else
  if IsZero (in_EvalTime i) then inputErr "missing explicit evaluation time" else
  _ ← validatePrincipal i lim;
  if negb (cl_Capability (in_Client i) =? in_Capability i)
  then inputErr "client capability does not match the input capability" else
  if negb (cl_Tenant (in_Client i) =? "")%string && negb (cl_Tenant (in_Client i) =? pr_Tenant (in_Principal i))%string
  then inputErr "client tenant conflicts with the principal tenant" else
  _ ← validateOperation i;
  _ ← validateCapabilityRefs i lim;
  validateResource i lim.

(** ** What a valid tuple guarantees *)

(** A tool the validator accepts behind server [s]. *)
Definition bound_tool (s : Server) (t : Tool) : Prop :=
  tl_Name t ≠ "" ∧ tl_ServerID t = sv_ServerID s ∧
  DispQuarantined ≤ tl_Disposition t ≤ DispUsable ∧
  (DriftNoMaterialChange ≤ tl_Drift t ≤ DriftUnknownTool ∨ tl_Disposition t = DispQuarantined ∧ tl_Drift t = DriftUnset) ∧
  (tl_Disposition t = DispQuarantined ∨ tl_Drift t = DriftUnknownTool ∨ tl_FingerprintHash t ≠ "").

(** The two namespaces: a Management tuple carries neither server nor tool; a Gateway tuple carries a
    server whose verification state is real and, unless it is a discovery, a bound tool. *)
Definition namespace_refs (i : DecisionInput) : Prop :=
  in_Capability i = CapManagement ∧ in_Server i = None ∧ in_Tool i = None ∨
  in_Capability i = CapGateway ∧ ∃ s, in_Server i = Some s ∧ sv_ServerID s ≠ "" ∧
    (sv_Verification s = ServerVerified ∨ sv_Verification s = ServerIdentityMismatch) ∧
    match in_Tool i with
    | None => op_Class (in_Operation i) = OpDiscovery
    | Some t => bound_tool s t
    end.

Record valid_tuple (i : DecisionInput) : Prop := {
  vt_revisions : in_PolicyRevision i ≠ 0 ∧ in_CatalogRevision i ≠ 0;
  vt_time : in_EvalTime i ≠ zeroTime;
  vt_subject : pr_SubjectID (in_Principal i) ≠ "" ∧ pr_Tenant (in_Principal i) ≠ "";
  vt_assurance : pr_Assurance (in_Principal i) ≤ AssuranceHigh;
  vt_client : cl_Capability (in_Client i) = in_Capability i;
  vt_tenant : cl_Tenant (in_Client i) = "" ∨ cl_Tenant (in_Client i) = pr_Tenant (in_Principal i);
  vt_class : OpRead ≤ op_Class (in_Operation i) ≤ OpControl;
  vt_refs : namespace_refs i;
}.

(** Peel the guards of a validator that returned no error. *)
Ltac accepted H :=
  repeat match type of H with
  | (if ?c then inputErr _ else _) = _ => let E := fresh "G" in destruct c eqn:E; [discriminate H|]
  | (_ ≫= _) = inr _ => let Hb := fresh "Hb" in apply result_bind_inr in H as ([] & Hb & H)
  end.

Lemma bool_decide_is_Some_false {A} (o : option A) : bool_decide (is_Some o) = false → o = None.
Proof. destruct o; [by rewrite bool_decide_eq_true_2 by eauto|done]. Qed.

Lemma validateGatewayTool_sound s t lim : validateGatewayTool s t lim = inr () → bound_tool s t.
Proof.
  unfold validateGatewayTool. intros H. accepted H. clear H. bprop.
  unfold Disposition_Valid, DriftClass_Valid in *. bprop. split_and!; try done.
  - destruct (tl_Disposition t =? DispQuarantined) eqn:Ed; simpl in *; bprop; [|left; lia].
    destruct (tl_Drift t =? DriftUnset) eqn:Eu; simpl in *; bprop; [auto|left; lia].
  - destruct (tl_Disposition t =? DispQuarantined) eqn:Ed; simpl in *; bprop; [auto|].
    destruct (tl_Drift t =? DriftUnknownTool) eqn:Eu; simpl in *; bprop; auto.
Qed.

Lemma validateCapabilityRefs_sound i lim :
  Capability_Valid (in_Capability i) = true → validateCapabilityRefs i lim = inr () → namespace_refs i.
Proof.
  unfold validateCapabilityRefs, namespace_refs, Capability_Valid. intros Hc H.
  destruct (in_Capability i =? CapManagement) eqn:Em; bprop.
  - accepted H. apply orb_false_iff in G as [Hs Ht]. left. eauto using bool_decide_is_Some_false.
  - right. rewrite orb_false_r in Hc. bprop. split; [done|].
    destruct (in_Server i) as [s|]; [|done]. accepted H. bprop. exists s. split_and!; [done..| |].
    + apply orb_true_iff in G0 as [?|?]; bprop; auto.
    + destruct (in_Tool i) as [t|]; [by eapply validateGatewayTool_sound|].
      destruct (op_Class (in_Operation i) =? OpDiscovery) eqn:Ed; bprop; done.
Qed.

Lemma Validate_sound i lim : Validate i lim = inr () → valid_tuple i.
Proof.
  unfold Validate. intros H. destruct (Capability_Valid (in_Capability i)) eqn:Hc; [|done]. simpl in H.
  accepted H. clear H. unfold validatePrincipal in Hb. accepted Hb. unfold validateOperation in Hb0.
  destruct (op_Method (in_Operation i) =? "")%string; [done|].
  destruct (OperationClass_Valid (op_Class (in_Operation i))) eqn:Eo; [|done]. clear Hb0.
  unfold IsZero, OperationClass_Valid in *. bprop. split; auto.
  - apply andb_false_iff in G2 as [?|?]; bprop; auto.
  - by eapply validateCapabilityRefs_sound.
Qed.
