(* ===== verification/McpCondition.v ===== *)
(** * MCP policy: the condition language

    [internal/mcp/policy]: [glob.go], [fields.go], [condition.go].

    A compiled condition is an identifier and a closure over the decision tuple.  The closures
    look their accessor up in the field tables when the rule is compiled, or when it is
    evaluated; a missing entry would be a call of a nil function.  A closure of the model returns
    [None] where the code would not return (such a call, or a loop that does not end);
    [conditions_total] shows that this never happens to a condition that compiled.

    - [glob_correct]: the two-pointer matcher always ends; it accepts only what the pattern means,
      and everything the pattern means when the subject has no ['*'] byte.
    - [glob_star_subject]: a subject with a ['*'] byte escapes a pattern that means everything.
    - [conditions_total]: a condition that compiled answers for every tuple. *)

From S2P Require Import Prelude GoStrings McpInput.

Definition condErr {A} (detail : string) : result A := inl (mkErr ReasonPolicyConditionInvalid "policy.condition" detail).

(** ** Globs ([glob.go]) *)

(** [strings.Count(p, "/")]. *)
Definition count_byte (s : string) (c : ascii) : nat := length (filter (λ d, d = c) (list_ascii_of_string s)).

Definition compileGlob (p : string) (lim : Limits) : result string :=
  if (p =? "")%string then condErr "empty glob pattern" else
  if Z.of_nat (String.length p) >? MaxPatternBytes lim then condErr "glob pattern exceeds the byte bound" else
  if bool_decide (is_Some (Index p "**")) then condErr "'**' is not permitted in a glob pattern" else
  if Z.of_nat (count_byte p "/" + 1) >? MaxPatternSegments lim then condErr "glob pattern has too many segments" else
  mret p.

(** The trailing loop [for pi < len(p) && p[pi] == '*']. *)
Fixpoint skip_stars (p : list ascii) : list ascii :=
  match p with
  | c :: p' => if Ascii.eqb c "*" then skip_stars p' else p
  | [] => []
  end.

(** The main loop with [si], [pi], [star] ([-1] is [None]) and [mark]. *)
Fixpoint glob_loop (fuel : nat) (p s : list ascii) (si pi : nat) (star : option nat) (mark : nat) : option bool :=
  match fuel with
  | O => None
  | S fuel =>
      match s !! si with
      | None => Some (bool_decide (skip_stars (drop pi p) = []))
      | Some c =>
          let backtrack :=
            match star with
            | Some k => glob_loop fuel p s (mark + 1) (k + 1) star (mark + 1)
            | None => Some false
            end in
          match p !! pi with
          | Some d =>
              if Ascii.eqb d c || Ascii.eqb d "?" then glob_loop fuel p s (si + 1) (pi + 1) star mark
              else if Ascii.eqb d "*" then glob_loop fuel p s si (pi + 1) (Some pi) si
              else backtrack
          | None => backtrack
          end
      end
  end.

(** Every iteration moves [pi] on, or [mark] on at the cost of [pi]: that many iterations, and one
    that leaves the loop. *)
Definition glob_fuel (p s : list ascii) : nat := S ((length s + 1) * (length p + 1)).
Definition glob_match (pattern s : string) : option bool :=
  let p := list_ascii_of_string pattern in
  let t := list_ascii_of_string s in
  glob_loop (glob_fuel p t) p t 0 0 None 0.

(** What a pattern means: ['*'] is any run, ['?'] one byte, anything else itself. *)
Inductive glob_matches : list ascii → list ascii → Prop :=
  | gm_nil : glob_matches [] []
  | gm_star p s t : glob_matches p t → glob_matches ("*"%char :: p) (s ++ t)
  | gm_any p c s : glob_matches p s → glob_matches ("?"%char :: p) (c :: s)
  | gm_lit p c s : c ≠ "*"%char → c ≠ "?"%char → glob_matches p s → glob_matches (c :: p) (c :: s).

Definition no_star (l : list ascii) : Prop := Forall (λ c, c ≠ "*"%char) l.

(** ** Fields ([fields.go]) *)

Inductive fieldKind := kindString | kindSet | kindBool | kindAssurance | kindPower | kindTime.

Definition fieldKinds : list (string * fieldKind) :=
  [("capability", kindString); ("principal.kind", kindString); ("principal.subject", kindString);
   ("principal.tenant", kindString); ("principal.issuer", kindString); ("principal.groups", kindSet);
   ("principal.assurance", kindAssurance); ("principal.sender_binding", kindString); ("principal.sender_bound", kindBool);
   ("agent.id", kindString); ("agent.owner", kindString); ("agent.version", kindString); ("agent.managed", kindString);
   ("agent.trust", kindString); ("client.id", kindString); ("client.app", kindString); ("client.trust", kindString);
   ("server.id", kindString); ("server.owner", kindString); ("server.environment", kindString); ("server.enabled", kindBool);
   ("server.verification", kindString); ("tool.name", kindString); ("tool.fingerprint", kindString);
   ("tool.disposition", kindString); ("tool.drift", kindString); ("tool.destination", kindString);
   ("tool.credential_power", kindPower); ("tool.reversibility", kindString); ("tool.risk", kindSet);
   ("operation.method", kindString); ("operation.operand", kindString); ("operation.point", kindString);
   ("operation.class", kindString); ("operation.namespace", kindString); ("resource.type", kindString);
   ("resource.id", kindString); ("resource.tenant", kindString); ("destination.class", kindString);
   ("destination.environment", kindString); ("destination.approved_breadth", kindString); ("credential.profile", kindString);
   ("credential.kind", kindString); ("credential.power_ceiling", kindPower); ("session.assurance", kindAssurance);
   ("session.sender_binding", kindString); ("session.prior_confirmation", kindBool); ("session.prior_approval", kindBool);
   ("session.prior_grant", kindBool); ("inspection.dlp_available", kindBool); ("inspection.redaction_available", kindBool);
   ("inspection.dest_inspect_available", kindBool); ("inspection.secret_scan_available", kindBool);
   ("inspection.secret_found", kindBool); ("inspection.pii_found", kindBool); ("inspection.injection_suspected", kindBool);
   ("inspection.schema_invalid", kindBool); ("time", kindTime)].

(** [(value, present)] is an option. *)
Definition present (s : string) : option string := if (s =? "")%string then None else Some s.
Definition agentStr (i : DecisionInput) (f : Agent → string) : option string := a ← in_Agent i; present (f a).
Definition serverStr (i : DecisionInput) (f : Server → string) : option string := s ← in_Server i; present (f s).
Definition toolStr (i : DecisionInput) (f : Tool → string) : option string := t ← in_Tool i; present (f t).
Definition resourceStr (i : DecisionInput) (f : Resource → string) : option string := r ← in_Resource i; present (f r).
Definition credStr (i : DecisionInput) (f : CredentialMeta → string) : option string := c ← in_Credential i; present (f c).

Definition stringFields : list (string * (DecisionInput → option string)) :=
  [("capability", λ i, Some (Capability_String (in_Capability i)));
   ("principal.kind", λ i, Some (SubjectKind_String (pr_Kind (in_Principal i))));
   ("principal.subject", λ i, present (pr_SubjectID (in_Principal i)));
   ("principal.tenant", λ i, present (pr_Tenant (in_Principal i)));
   ("principal.issuer", λ i, present (pr_Issuer (in_Principal i)));
   ("principal.sender_binding", λ i, Some (SenderBinding_String (pr_SenderBinding (in_Principal i))));
   ("session.sender_binding", λ i, Some (SenderBinding_String (ss_SenderBinding (in_Session i))));
   ("agent.id", λ i, agentStr i ag_AgentID);
   ("agent.owner", λ i, agentStr i ag_Owner);
   ("agent.version", λ i, agentStr i ag_Version);
   ("agent.managed", λ i, agentStr i (λ a, ManagedState_String (ag_Managed a)));
   ("agent.trust", λ i, agentStr i (λ a, TrustClass_String (ag_Trust a)));
   ("client.id", λ i, present (cl_ClientID (in_Client i)));
   ("client.app", λ i, present (cl_AppID (in_Client i)));
   ("client.trust", λ i, Some (TrustClass_String (cl_Trust (in_Client i))));
   ("server.id", λ i, serverStr i sv_ServerID);
   ("server.owner", λ i, serverStr i sv_Owner);
   ("server.environment", λ i, serverStr i sv_Environment);
   ("server.verification", λ i, serverStr i (λ s, ServerVerification_String (sv_Verification s)));
   ("tool.name", λ i, toolStr i tl_Name);
   ("tool.fingerprint", λ i, toolStr i tl_FingerprintHash);
   ("tool.disposition", λ i, toolStr i (λ t, Disposition_String (tl_Disposition t)));
   ("tool.drift", λ i, toolStr i (λ t, DriftClass_String (tl_Drift t)));
   ("tool.destination", λ i, toolStr i (λ t, Destination_String (tl_Destination t)));
   ("tool.reversibility", λ i, toolStr i (λ t, Reversibility_String (tl_Reversibility t)));
   ("operation.method", λ i, present (op_Method (in_Operation i)));
   ("operation.operand", λ i, present (op_Operand (in_Operation i)));
   ("operation.point", λ i, present (op_DecisionPoint (in_Operation i)));
   ("operation.class", λ i, Some (OperationClass_String (op_Class (in_Operation i))));
   ("operation.namespace", λ i, Some (OperationNamespace_String (op_Namespace (in_Operation i))));
   ("resource.type", λ i, resourceStr i rs_Type);
   ("resource.id", λ i, resourceStr i rs_ID);
   ("resource.tenant", λ i, resourceStr i rs_Tenant);
   ("destination.class", λ i, Some (Destination_String (ds_Class (in_Destination i))));
   ("destination.environment", λ i, present (ds_Environment (in_Destination i)));
   ("destination.approved_breadth", λ i, Some (Destination_String (ds_ApprovedBreadth (in_Destination i))));
   ("credential.profile", λ i, credStr i cr_ProfileRef);
   ("credential.kind", λ i, credStr i cr_Kind)].

Definition setFields : list (string * (DecisionInput → list string)) :=
  [("principal.groups", λ i, pr_Groups (in_Principal i));
   ("tool.risk", λ i, match in_Tool i with None => [] | Some t => tl_RiskSignals t end)].

Definition boolFields : list (string * (DecisionInput → bool)) :=
  [("server.enabled", λ i, match in_Server i with Some s => sv_Enabled s | None => false end);
   ("principal.sender_bound", λ i, SenderBinding_Bound (pr_SenderBinding (in_Principal i)));
   ("session.prior_confirmation", λ i, ss_PriorConfirmation (in_Session i));
   ("session.prior_approval", λ i, ss_PriorApproval (in_Session i));
   ("session.prior_grant", λ i, ss_PriorGrant (in_Session i));
   ("inspection.dlp_available", λ i, ins_DLPAvailable (in_Inspection i));
   ("inspection.redaction_available", λ i, ins_RedactionAvailable (in_Inspection i));
   ("inspection.dest_inspect_available", λ i, ins_DestInspectAvailable (in_Inspection i));
   ("inspection.secret_scan_available", λ i, ins_SecretScanAvailable (in_Inspection i));
   ("inspection.secret_found", λ i, ins_SecretScanAvailable (in_Inspection i) && ins_SecretFound (in_Inspection i));
   ("inspection.pii_found", λ i, ins_DLPAvailable (in_Inspection i) && ins_PIIFound (in_Inspection i));
   ("inspection.injection_suspected", λ i, ins_DLPAvailable (in_Inspection i) && ins_InjectionSuspected (in_Inspection i));
   ("inspection.schema_invalid", λ i, ins_DestInspectAvailable (in_Inspection i) && ins_SchemaInvalid (in_Inspection i))].

Definition assuranceFields : list (string * (DecisionInput → Assurance)) :=
  [("principal.assurance", λ i, pr_Assurance (in_Principal i)); ("session.assurance", λ i, ss_Assurance (in_Session i))].

Definition powerFields : list (string * (DecisionInput → CredentialPower)) :=
  [("tool.credential_power", λ i, match in_Tool i with None => PowerUnset | Some t => tl_CredentialPower t end);
   ("credential.power_ceiling", λ i, match in_Credential i with None => PowerUnset | Some c => cr_PowerCeiling c end)].

Definition resourceAttrField (field : string) : option string :=
  match CutPrefix field "resource.attr:" with
  | Some key => if (key =? "")%string then None else Some key
  | None => None
  end.
Definition resourceAttr (i : DecisionInput) (key : string) : option string :=
  r ← in_Resource i; v ← rs_Attrs r !! key; present v.

Definition parseAssurance (s : string) : option Assurance :=
  assoc s [("unknown", AssuranceUnknown); ("low", AssuranceLow); ("medium", AssuranceMedium); ("high", AssuranceHigh)].
Definition parsePower (s : string) : option CredentialPower :=
  assoc s [("read_only", PowerReadOnly); ("write", PowerWrite); ("admin", PowerAdmin)].

(** ** Conditions ([condition.go]) *)

Definition opExact : string := "exact".
Definition opOneOf : string := "one_of".
Definition opPrefix : string := "prefix".
Definition opGlob : string := "glob".
Definition opContains : string := "contains".
Definition opContainsAny : string := "contains_any".
Definition opBool : string := "bool".
Definition opMinAssur : string := "min_assurance".
Definition opMaxPower : string := "max_power".
Definition opMinPower : string := "min_power".
Definition opTimeWindow : string := "time_window".

Record rawCondition := mkRawCond {
  rc_Field : string; rc_Op : string; rc_Value : string; rc_Values : list string; rc_Start : string; rc_End : string;
}.
#[global] Instance rawCondition_eta : Eta rawCondition := λ c,
  mkRawCond (rc_Field c) (rc_Op c) (rc_Value c) (rc_Values c) (rc_Start c) (rc_End c).
Record compiledCond := mkCond { cc_id : string; cc_match : DecisionInput → option bool }.

Definition boundStr (s : string) (lim : Limits) : result () :=
  if (s =? "")%string
  then condErr "condition value must be non-empty (an empty value is vacuous and would widen the rule)" else
  if Z.of_nat (String.length s) >? MaxStringBytes lim then condErr "condition string value exceeds the byte bound" else mret ().

Fixpoint bound_values (values : list string) (lim : Limits) (set : gset string) : result (gset string) :=
  match values with
  | [] => mret set
  | v :: values =>
      if (v =? "")%string then condErr "condition set value must be non-empty" else
      if Z.of_nat (String.length v) >? MaxStringBytes lim then condErr "condition set value exceeds the byte bound" else
      bound_values values lim ({[v]} ∪ set)
  end.
Definition boundSet (values : list string) (lim : Limits) : result (gset string) :=
  if Z.of_nat (length values) =? 0 then condErr "set operator requires a non-empty value set" else
  if Z.of_nat (length values) >? MaxSetValues lim then condErr "condition value set exceeds the bound" else
  bound_values values lim ∅.

(** The closure [get] of [compileStringCond]; [None] is the call of a nil accessor. *)
Definition string_get (rc : rawCondition) (attrKey : string) (i : DecisionInput) : option (option string) :=
  if negb (attrKey =? "")%string then Some (resourceAttr i attrKey)
  else (λ f, f i) <$> assoc (rc_Field rc) stringFields.

(** [v, ok := get(in); return ok && test(v)]. *)
Definition on_value (get : DecisionInput → option (option string)) (test : string → option bool) (i : DecisionInput) : option bool :=
  v ← get i; match v with None => Some false | Some v => test v end.

Definition compileStringCond (rc : rawCondition) (lim : Limits) (id attrKey : string) : result compiledCond :=
  let get := string_get rc attrKey in
  if (rc_Op rc =? opExact)%string then
    _ ← boundStr (rc_Value rc) lim; mret (mkCond id (on_value get (λ v, Some (v =? rc_Value rc)%string)))
  else if (rc_Op rc =? opOneOf)%string then
    set ← boundSet (rc_Values rc) lim; mret (mkCond id (on_value get (λ v, Some (bool_decide (v ∈ set)))))
  else if (rc_Op rc =? opPrefix)%string then
    _ ← boundStr (rc_Value rc) lim; mret (mkCond id (on_value get (λ v, Some (HasPrefix v (rc_Value rc)))))
  else if (rc_Op rc =? opGlob)%string then
    g ← compileGlob (rc_Value rc) lim; mret (mkCond id (on_value get (λ v, glob_match g v)))
  else condErr "operator not valid for a string field".

Definition compileSetCond (rc : rawCondition) (lim : Limits) (id : string) : result compiledCond :=
  let get i := (λ f, f i) <$> assoc (rc_Field rc) setFields in
  if (rc_Op rc =? opContains)%string then
    _ ← boundStr (rc_Value rc) lim;
    mret (mkCond id (λ i, vs ← get i; Some (existsb (λ v, v =? rc_Value rc)%string vs)))
  else if (rc_Op rc =? opContainsAny)%string then
    set ← boundSet (rc_Values rc) lim;
    mret (mkCond id (λ i, vs ← get i; Some (existsb (λ v, bool_decide (v ∈ set)) vs)))
  else condErr "operator not valid for a set field".

Definition quoted (s : string) : string := String (ascii_of_nat 34) s ++ String (ascii_of_nat 34) "".
Definition compileBoolCond (rc : rawCondition) (id : string) : result compiledCond :=
  if negb (rc_Op rc =? opBool)%string then condErr "operator not valid for a bool field" else
  match assoc (rc_Value rc) [("true", true); ("false", false)] with
  | None => condErr ("bool condition value must be " ++ quoted "true" ++ " or " ++ quoted "false")
  | Some want => mret (mkCond id (λ i, f ← assoc (rc_Field rc) boolFields; Some (Bool.eqb (f i) want)))
  end.

Definition compileAssuranceCond (rc : rawCondition) (id : string) : result compiledCond :=
  if negb (rc_Op rc =? opMinAssur)%string then condErr "operator not valid for an assurance field" else
  match parseAssurance (rc_Value rc) with
  | None => condErr "invalid assurance level"
  | Some floor => mret (mkCond id (λ i, f ← assoc (rc_Field rc) assuranceFields; Some (floor <=? f i)))
  end.

Definition compilePowerCond (rc : rawCondition) (id : string) : result compiledCond :=
  match parsePower (rc_Value rc) with
  | None => condErr "invalid credential power"
  | Some want =>
      if want =? PowerUnset then condErr "invalid credential power" else
      let test (cmp : CredentialPower → bool) := mkCond id (λ i, f ← assoc (rc_Field rc) powerFields;
        Some (negb (f i =? PowerUnset) && cmp (f i))) in
      if (rc_Op rc =? opMaxPower)%string then mret (test (λ p, p <=? want))
      else if (rc_Op rc =? opMinPower)%string then mret (test (λ p, want <=? p))
      else condErr "operator not valid for a power field"
  end.

Section conditions.
Context `{TimeData}.

Definition compileTimeCond (rc : rawCondition) (id : string) : result compiledCond :=
  if negb (rc_Op rc =? opTimeWindow)%string || negb (rc_Field rc =? "time")%string
  then condErr "operator not valid for the time field" else
  match ParseRFC3339 (rc_Start rc) with
  | None => condErr "invalid time-window start (RFC3339 UTC required)"
  | Some start =>
      match ParseRFC3339 (rc_End rc) with
      | None => condErr "invalid time-window end (RFC3339 UTC required)"
      | Some end_ =>
          if negb (start <? end_) then condErr "time-window end must be after start" else
          mret (mkCond id (λ i, Some (negb (in_EvalTime i <? start) && negb (end_ <? in_EvalTime i))))
      end
  end.

Definition compileCondition (rc : rawCondition) (lim : Limits) : result compiledCond :=
  let id := rc_Field rc ++ "|" ++ rc_Op rc in
  match assoc (rc_Field rc) fieldKinds with
  | None =>
      match resourceAttrField (rc_Field rc) with
      | None => condErr "unknown condition field"
      | Some key => compileStringCond rc lim id key
      end
  | Some kindString => compileStringCond rc lim id ""
  | Some kindSet => compileSetCond rc lim id
  | Some kindBool => compileBoolCond rc id
  | Some kindAssurance => compileAssuranceCond rc id
  | Some kindPower => compilePowerCond rc id
  | Some kindTime => compileTimeCond rc id
  end.
End conditions.

(** ** Proofs *)

(** *** The matcher against the meaning *)

Lemma skip_stars_matches p : skip_stars p = [] ↔ glob_matches p [].
Proof.
  split.
  - induction p as [|c p IH]; simpl; [constructor|].
    destruct (Ascii.eqb_spec c "*") as [->|]; [|done]. intros H. apply (gm_star p [] []). auto.
  - remember [] as e. induction 1 as [|p s t _ IH| |]; try done.
    apply app_eq_nil in Heqe as [-> ->]. simpl. auto.
Qed.

(** [q] and [t] are as long, and each byte of [q] is the byte of [t] or ['?']. *)
Definition literal_run (q t : list ascii) : Prop := Forall2 (λ d c, d ≠ "*"%char ∧ (d = c ∨ d = "?"%char)) q t.

Lemma literal_run_matches q t p s : literal_run q t → glob_matches p s → glob_matches (q ++ p) (t ++ s).
Proof.
  induction 1 as [|d c q t [Hd Hc] _ IH]; intros H; simpl; [done|].
  destruct (decide (d = "?"%char)) as [->|]; [constructor; auto|].
  destruct Hc as [->|]; [|done]. constructor; auto.
Qed.

(** A run without stars takes exactly its length. *)
Lemma star_free_split q p s :
  Forall (λ d, d ≠ "*"%char) q → glob_matches (q ++ p) s →
  (length q ≤ length s)%nat ∧ glob_matches p (drop (length q) s).
Proof.
  revert s. induction q as [|d q IH]; intros s Hq H; simpl; [by split; [lia|]|].
  apply Forall_cons in Hq as [Hd Hq]. inversion H; subst; [done| |]; simpl;
    match goal with H : glob_matches (q ++ p) ?s |- _ => destruct (IH s Hq H) end; split; auto; lia.
Qed.

Lemma matches_suffix p s j : (j ≤ length s)%nat → glob_matches p (drop j s) → glob_matches ("*"%char :: p) s.
Proof. intros Hj H. rewrite <- (take_drop j s) at 1. by constructor. Qed.

Lemma matches_star_inv p s : glob_matches ("*"%char :: p) s → ∃ j, (j ≤ length s)%nat ∧ glob_matches p (drop j s).
Proof.
  inversion 1 as [|q u t Hm| |]; subst; [|done]. exists (length u). rewrite length_app, drop_app_length. split; [lia|done].
Qed.

Lemma drop_lookup {A} (l : list A) i x : l !! i = Some x → drop i l = x :: drop (i + 1) l.
Proof. intros H. rewrite Nat.add_1_r. by apply drop_S. Qed.

Section glob_loop.
Context (p s : list ascii).

(** What the loop keeps: [mark ≤ si], and since the last star everything matched literally. *)
Definition run_since (k mark pi si : nat) : Prop :=
  (k < pi)%nat ∧ (mark ≤ si)%nat ∧ (si - mark = pi - (k + 1))%nat ∧
  literal_run (take (pi - (k + 1)) (drop (k + 1) p)) (take (si - mark) (drop mark s)).

Definition loop_ok (si pi : nat) (star : option nat) (mark : nat) : Prop :=
  (si ≤ length s)%nat ∧ (pi ≤ length p)%nat ∧ (mark ≤ si)%nat ∧
  (glob_matches (drop pi p) (drop si s) → glob_matches p s) ∧
  match star with
  | None => True
  | Some k => (k < length p)%nat ∧ ∀ j, (mark ≤ j ≤ length s)%nat → glob_matches (drop (k + 1) p) (drop j s) → glob_matches p s
  end.

(** What is left to try covers what the pattern means. *)
Definition loop_complete (si pi : nat) (star : option nat) (mark : nat) : Prop :=
  glob_matches p s →
  glob_matches (drop pi p) (drop si s) ∨
  match star with
  | None => False
  | Some k => run_since k mark pi si ∧ ∃ j, (mark < j ≤ length s)%nat ∧ glob_matches (drop (k + 1) p) (drop j s)
  end.

Lemma literal_step d c pi si :
  p !! pi = Some d → s !! si = Some c → d = c ∨ d = "?"%char → glob_matches (drop (pi + 1) p) (drop (si + 1) s) →
  glob_matches (drop pi p) (drop si s).
Proof.
  intros Hp Hs Hd H. rewrite (drop_lookup p pi d), (drop_lookup s si c) by done.
  destruct (decide (d = "?"%char)) as [->|]; [by constructor|]. destruct Hd as [->|]; [|done].
  destruct (decide (c = "*"%char)) as [->|]; [|by constructor]. apply (gm_star _ ["*"%char] _ H).
Qed.

Lemma loop_ok_literal d c si pi star mark :
  p !! pi = Some d → s !! si = Some c → d = c ∨ d = "?"%char → loop_ok si pi star mark → loop_ok (si + 1) (pi + 1) star mark.
Proof.
  intros Hp Hs Hd (Hsi & Hpi & Hm & Hcur & Hst). pose proof (lookup_lt_Some _ _ _ Hp). pose proof (lookup_lt_Some _ _ _ Hs).
  split_and!; [lia..| |done]. eauto using literal_step.
Qed.

Lemma loop_ok_star si pi star mark :
  p !! pi = Some "*"%char → loop_ok si pi star mark → loop_ok si (pi + 1) (Some pi) si.
Proof.
  intros Hp (Hsi & Hpi & Hm & Hcur & Hst). pose proof (lookup_lt_Some _ _ _ Hp).
  assert (∀ j, (si ≤ j ≤ length s)%nat → glob_matches (drop (pi + 1) p) (drop j s) → glob_matches p s) as Hj.
  { intros j Hj Hg. apply Hcur. rewrite (drop_lookup p pi "*"%char) by done.
    apply matches_suffix with (j - si)%nat; [rewrite length_drop; lia|]. rewrite drop_drop.
    by replace (si + (j - si))%nat with j by lia. }
  split_and!; [lia|lia|lia| |lia|done]. apply Hj. lia.
Qed.

Lemma loop_ok_back k si pi mark :
  (si < length s)%nat → loop_ok si pi (Some k) mark → loop_ok (mark + 1) (k + 1) (Some k) (mark + 1).
Proof.
  intros Hlt (Hsi & Hpi & Hm & Hcur & Hk & Hst). split_and!; [lia|lia|lia| |done|].
  - apply Hst. lia.
  - intros j Hj. apply Hst. lia.
Qed.

Lemma run_since_start k mark : run_since k mark (k + 1) mark.
Proof. unfold run_since. rewrite !Nat.sub_diag. split_and!; [lia..|constructor]. Qed.

Lemma run_since_literal k mark pi si d c :
  p !! pi = Some d → s !! si = Some c → d ≠ "*"%char → d = c ∨ d = "?"%char →
  run_since k mark pi si → run_since k mark (pi + 1) (si + 1).
Proof.
  intros Hp Hs Hd Hc (Hk & Hm & He & Hr). split_and!; [lia..|].
  replace (pi + 1 - (k + 1))%nat with (S (pi - (k + 1))) by lia. replace (si + 1 - mark)%nat with (S (si - mark)) by lia.
  rewrite (take_S_r _ _ d), (take_S_r _ _ c).
  - apply Forall2_app; [done|]. apply Forall2_cons. split; [done|constructor].
  - rewrite lookup_drop. by replace (mark + (si - mark))%nat with si by lia.
  - rewrite lookup_drop. by replace (k + 1 + (pi - (k + 1)))%nat with pi by lia.
Qed.

(** Trying the last star again at [j] comes to the current place of the pattern as much later. *)
Lemma run_since_retry k mark pi si j :
  (pi ≤ length p)%nat → run_since k mark pi si → glob_matches (drop (k + 1) p) (drop j s) → (j ≤ length s)%nat →
  (si - mark ≤ length s - j)%nat ∧ glob_matches (drop pi p) (drop (j + (si - mark)) s).
Proof.
  intros Hpi (Hk & Hm & He & Hr) Hg Hj. set (q := take (pi - (k + 1)) (drop (k + 1) p)) in *.
  assert (drop (k + 1) p = (q ++ drop pi p)%list) as Eq.
  { rewrite <- (take_drop (pi - (k + 1)) (drop (k + 1) p)) at 1. f_equal. rewrite drop_drop. f_equal. lia. }
  assert (length q = si - mark)%nat as El by (unfold q; rewrite length_take, length_drop; lia).
  assert (Forall (λ d, d ≠ "*"%char) q) as Hq.
  { apply (Forall2_Forall_l _ _ _ _ Hr). apply Forall_true. tauto. }
  rewrite Eq in Hg. apply star_free_split in Hg as [Hl Hg]; [|done].
  rewrite length_drop, El in Hl. rewrite drop_drop, El in Hg. auto.
Qed.

Lemma complete_literal si pi star mark d c :
  p !! pi = Some d → s !! si = Some c → c ≠ "*"%char → d = c ∨ d = "?"%char →
  loop_complete si pi star mark → loop_complete (si + 1) (pi + 1) star mark.
Proof.
  intros Hp Hs Hc Hd Hcomp M. assert (d ≠ "*"%char) by (destruct Hd; congruence).
  destruct (Hcomp M) as [Hg|Hg].
  - left. rewrite (drop_lookup p pi d), (drop_lookup s si c) in Hg by done. inversion Hg; subst; done.
  - right. destruct star as [k|]; [|done]. destruct Hg as [Hr Hj]. eauto using run_since_literal.
Qed.

Lemma complete_star si pi star mark :
  (si ≤ length s)%nat → p !! pi = Some "*"%char → loop_complete si pi star mark → loop_complete si (pi + 1) (Some pi) si.
Proof.
  intros Hsi Hp Hcomp M. pose proof (lookup_lt_Some _ _ _ Hp).
  assert (∃ j, (si ≤ j ≤ length s)%nat ∧ glob_matches (drop (pi + 1) p) (drop j s)) as (j & Hj & Hg).
  { destruct (Hcomp M) as [Hg|Hg].
    - rewrite (drop_lookup p pi "*"%char) in Hg by done. apply matches_star_inv in Hg as (j & Hj & Hg).
      rewrite length_drop in Hj. rewrite drop_drop in Hg. exists (si + j)%nat. split; [lia|done].
    - destruct star as [k|]; [|done]. destruct Hg as (Hr & j & Hj & Hg).
      apply (run_since_retry k mark pi si j) in Hg as [Hl Hg]; [|lia|done|lia].
      rewrite (drop_lookup p pi "*"%char) in Hg by done. apply matches_star_inv in Hg as (j' & Hj' & Hg).
      rewrite length_drop in Hj'. rewrite drop_drop in Hg. eexists. split; [|done].
      destruct Hr as (_ & Hm & _). lia. }
  destruct (decide (j = si)) as [->|]; [by left|]. right. split; [apply run_since_start|]. exists j. split; [lia|done].
Qed.

Lemma complete_back k si pi mark :
  ¬ glob_matches (drop pi p) (drop si s) →
  loop_complete si pi (Some k) mark → loop_complete (mark + 1) (k + 1) (Some k) (mark + 1).
Proof.
  intros Hno Hcomp M. destruct (Hcomp M) as [Hg|(Hr & j & Hj & Hg)]; [done|].
  destruct (decide (j = mark + 1)%nat) as [->|]; [by left|]. right. split; [apply run_since_start|]. exists j. split; [lia|done].
Qed.

Lemma complete_end si pi star mark :
  s !! si = None → loop_ok si pi star mark → loop_complete si pi star mark → glob_matches p s → glob_matches (drop pi p) [].
Proof.
  intros Hs (Hsi & Hpi & Hm & _) Hcomp M. apply lookup_ge_None in Hs.
  destruct (Hcomp M) as [Hg|Hg]; [by rewrite (drop_ge s) in Hg by lia|].
  destruct star as [k|]; [|done]. destruct Hg as (Hr & j & Hj & Hg).
  apply (run_since_retry k mark pi si j) in Hg as [Hl Hg]; [|lia|done|lia]. lia.
Qed.

Lemma mismatch d c si pi :
  p !! pi = Some d → s !! si = Some c → d ≠ c → d ≠ "?"%char → d ≠ "*"%char → ¬ glob_matches (drop pi p) (drop si s).
Proof.
  intros Hp Hs H1 H2 H3 Hg. rewrite (drop_lookup p pi d), (drop_lookup s si c) in Hg by done. inversion Hg; subst; done.
Qed.
Lemma exhausted c si pi : p !! pi = None → s !! si = Some c → ¬ glob_matches (drop pi p) (drop si s).
Proof.
  intros Hp Hs Hg. apply lookup_ge_None in Hp. rewrite (drop_ge p), (drop_lookup s si c) in Hg by done. inversion Hg.
Qed.

Lemma glob_loop_correct fuel si pi star mark :
  ((length s - mark) * (length p + 1) + (length p - pi) < fuel)%nat → loop_ok si pi star mark →
  ∃ b, glob_loop fuel p s si pi star mark = Some b ∧ (b = true → glob_matches p s) ∧
    (no_star s → loop_complete si pi star mark → glob_matches p s → b = true).
Proof.
  revert si pi star mark. induction fuel as [|fuel IH]; intros si pi star mark Hf Hok; [by apply Nat.nlt_0_r in Hf|]. cbn [glob_loop].
  destruct (s !! si) as [c|] eqn:Hs.
  2:{ eexists. split; [done|]. split.
      - intros Hb%bool_decide_eq_true. apply skip_stars_matches in Hb. apply Hok.
        rewrite (drop_ge s) by (by apply lookup_ge_None). done.
      - intros _ Hcomp M. apply bool_decide_eq_true, skip_stars_matches. eauto using complete_end. }
  pose proof (lookup_lt_Some _ _ _ Hs) as Hlt.
  assert (¬ glob_matches (drop pi p) (drop si s) → ∃ b,
    match star with Some k => glob_loop fuel p s (mark + 1) (k + 1) star (mark + 1) | None => Some false end = Some b ∧
    (b = true → glob_matches p s) ∧ (no_star s → loop_complete si pi star mark → glob_matches p s → b = true)) as Hback.
  { intros Hno. destruct star as [k|].
    - destruct (IH (mark + 1) (k + 1) (Some k) (mark + 1))%nat as (b & Hb & Hs1 & Hc1);
        [destruct Hok as (?&?&?&?&?&?); nia|by eapply loop_ok_back|].
      exists b. split_and!; [done..|]. intros Hn Hcomp. eauto using complete_back.
    - exists false. split_and!; [done..|]. intros _ Hcomp M. by destruct (Hcomp M). }
  destruct (p !! pi) as [d|] eqn:Hp; [|by eauto using exhausted].
  pose proof (lookup_lt_Some _ _ _ Hp) as Hlp.
  destruct (Ascii.eqb_spec d c) as [->|Hdc]; [|destruct (Ascii.eqb_spec d "?") as [->|Hq];
    [|destruct (Ascii.eqb_spec d "*") as [->|Hst]; [|by eauto using mismatch]]]; simpl.
  3:{ destruct (IH si (pi + 1) (Some pi) si)%nat as (b & Hb & Hs1 & Hc1); [destruct Hok as (?&?&?&_); nia|by eapply loop_ok_star|].
      exists b. split_and!; [done..|]. intros Hn Hcomp. apply Hc1; [done|]. eapply complete_star; [lia|done..]. }
  all: destruct (IH (si + 1) (pi + 1) star mark)%nat as (b & Hb & Hs1 & Hc1); [lia|by eapply loop_ok_literal; eauto|].
  all: exists b; split_and!; [done..|]; intros Hn Hcomp; apply Hc1; [done|]; eapply complete_literal; eauto.
  all: eapply Forall_lookup_1 in Hn; eauto.
Qed.
End glob_loop.

(** The two-pointer matcher of [glob.go] is a total function; it accepts only subjects the pattern means
    (['*'] any run, ['?'] one byte, the whole value), and it accepts all of them when the subject has no ['*']
    byte. *)
Theorem glob_correct (pattern s : string) :
  let p := list_ascii_of_string pattern in
  let t := list_ascii_of_string s in
  ∃ b, glob_match pattern s = Some b ∧ (b = true → glob_matches p t) ∧ (no_star t → glob_matches p t → b = true).
Proof.
  intros p t. destruct (glob_loop_correct p t (glob_fuel p t) 0 0 None 0) as (b & Hb & Hs & Hc).
  - unfold glob_fuel. lia.
  - split_and!; [lia..|done|done].
  - exists b. split_and!; [done..|]. intros Hn. apply Hc; [done|]. by left.
Qed.

Section meaning.
Context `{TimeData}.

Lemma assoc_elem {A} k (l : list (string * A)) v : assoc k l = Some v → (k, v) ∈ l.
Proof.
  induction l as [|[k' v'] l IH]; simpl; [done|]. destruct (k =? k')%string eqn:E; bprop.
  - intros [= ->]. subst. constructor.
  - intros. constructor. auto.
Qed.

#[local] Arguments assoc : simpl never.

(** The tables agree: every field of a kind has the accessor its compiler looks up. *)
Definition has_accessor (f : string) (k : fieldKind) : bool :=
  match k with
  | kindString => bool_decide (is_Some (assoc f stringFields))
  | kindSet => bool_decide (is_Some (assoc f setFields))
  | kindBool => bool_decide (is_Some (assoc f boolFields))
  | kindAssurance => bool_decide (is_Some (assoc f assuranceFields))
  | kindPower => bool_decide (is_Some (assoc f powerFields))
  | kindTime => true
  end.
Lemma fields_covered : forallb (λ '(f, k), has_accessor f k) fieldKinds = true.
Proof. vm_compute. reflexivity. Qed.
Lemma accessor_found f k : assoc f fieldKinds = Some k → has_accessor f k = true.
Proof.
  intros E%assoc_elem. pose proof fields_covered as Hc. rewrite forallb_forall in Hc.
  apply (Hc (f, k)). by apply list_elem_of_In.
Qed.

(** No accessor reports an empty value as present. *)
Lemma present_nonempty s v : present s = Some v → v = s ∧ v ≠ "".
Proof. unfold present. destruct (s =? "")%string eqn:E; [done|]. intros [= ->]. bprop. auto. Qed.

Definition label_nonempty (l : list (Z * string)) : bool := forallb (λ '(_, s), negb (s =? "")%string) l.
Lemma switch_nonempty c l d : label_nonempty l = true → d ≠ "" → switch c l d ≠ "".
Proof.
  unfold label_nonempty. induction l as [|[k s] l IH]; simpl; [done|]. intros Hl Hd. bprop.
  destruct (c =? k); [by bprop|auto].
Qed.

Lemma stringFields_nonempty : Forall (λ kf : string * (DecisionInput → option string), ∀ i v, kf.2 i = Some v → v ≠ "") stringFields.
Proof.
  unfold stringFields, agentStr, serverStr, toolStr, resourceStr, credStr.
  repeat (apply Forall_cons; split); [..|apply Forall_nil_2]; intros i v; cbn [snd].
  all: try (by intros [? ?]%present_nonempty).
  all: try (by intros (x & _ & [_ ?]%present_nonempty)%bind_Some).
  all: intros [= <-]; apply switch_nonempty; done.
Qed.

Lemma string_get_nonempty rc key i v : string_get rc key i = Some (Some v) → v ≠ "".
Proof.
  unfold string_get. destruct (key =? "")%string; simpl.
  - intros (f & Hf & Ev)%fmap_Some. apply assoc_elem in Hf. pose proof stringFields_nonempty as Hall.
    rewrite Forall_forall in Hall. symmetry in Ev. apply (Hall _ Hf _ _ Ev).
  - unfold resourceAttr. intros [= (r & _ & (a & _ & [_ ?]%present_nonempty)%bind_Some)%bind_Some]. done.
Qed.

(** A string condition has an accessor: an attribute, or an entry of the table. *)
Definition string_field (rc : rawCondition) (key : string) : Prop :=
  key ≠ "" ∨ is_Some (assoc (rc_Field rc) stringFields).
Lemma string_get_total rc key i : string_field rc key → ∃ o, string_get rc key i = Some o.
Proof.
  unfold string_get. intros [Hk|[f Hf]]; [|destruct (key =? "")%string; simpl; [|by eauto]; rewrite Hf; simpl; eauto].
  destruct (key =? "")%string eqn:E; simpl; [by bprop|eauto].
Qed.

(** The four string operators, on a present value. *)
Definition string_test (rc : rawCondition) (v : string) : Prop :=
  rc_Op rc = opExact ∧ v = rc_Value rc ∨
  rc_Op rc = opOneOf ∧ v ∈ rc_Values rc ∨
  rc_Op rc = opPrefix ∧ rc_Value rc ≠ "" ∧ (∃ t, v = rc_Value rc ++ t) ∨
  rc_Op rc = opGlob ∧ glob_match (rc_Value rc) v = Some true.

Lemma bound_values_spec values lim X Y : bound_values values lim X = inr Y → Y = list_to_set values ∪ X.
Proof.
  revert X. induction values as [|v values IH]; intros X; simpl; [intros [= <-]; set_solver|].
  repeat case_if; try done. intros ->%IH. set_solver.
Qed.
Lemma boundSet_spec values lim Y : boundSet values lim = inr Y → Y = list_to_set values.
Proof. unfold boundSet. repeat case_if; try done. intros ->%bound_values_spec. set_solver. Qed.
Lemma boundStr_nonempty s lim : boundStr s lim = inr () → s ≠ "".
Proof. unfold boundStr. destruct (s =? "")%string eqn:E; [done|]. by bprop. Qed.
Lemma compileGlob_same p lim g : compileGlob p lim = inr g → g = p.
Proof. unfold compileGlob. repeat case_if; try done. by intros [= ->]. Qed.

Lemma on_value_spec get test i o :
  get i = Some o → (∀ v, is_Some (test v)) →
  is_Some (on_value get test i) ∧ (on_value get test i = Some true ↔ ∃ v, o = Some v ∧ test v = Some true).
Proof.
  intros Hg Ht. unfold on_value. rewrite Hg. simpl. destruct o as [v|]; split; eauto; [|naive_solver..].
  split; [eauto|]. by intros (v' & [= ->] & ?).
Qed.

Lemma glob_match_total p s : is_Some (glob_match p s).
Proof.
  set (pl := list_ascii_of_string p). set (sl := list_ascii_of_string s).
  destruct (glob_loop_correct pl sl (glob_fuel pl sl) 0 0 None 0) as (b & Hb & _); [unfold glob_fuel; lia| |by exists b].
  split_and!; [lia..|done|done].
Qed.

Lemma compileStringCond_spec rc lim id key c i :
  compileStringCond rc lim id key = inr c → string_field rc key →
  cc_id c = id ∧ is_Some (cc_match c i) ∧
  (cc_match c i = Some true ↔ ∃ v, string_get rc key i = Some (Some v) ∧ string_test rc v).
Proof.
  intros Hc Hf. destruct (string_get_total rc key i Hf) as [o Ho]. unfold compileStringCond in Hc.
  assert (∀ test Q, (∀ v, is_Some (test v)) → (∀ v, v ≠ "" → test v = Some true ↔ Q v) →
    is_Some (on_value (string_get rc key) test i) ∧
    (on_value (string_get rc key) test i = Some true ↔ ∃ v, string_get rc key i = Some (Some v) ∧ Q v)) as Hov.
  { intros test Q Ht HQ. destruct (on_value_spec (string_get rc key) test i o Ho Ht) as [Hs ->]. split; [done|].
    rewrite Ho. split; intros (v & E & Hv); exists v; simplify_eq; split; auto; apply HQ; eauto using string_get_nonempty. }
  destruct (rc_Op rc =? opExact)%string eqn:E1; [|destruct (rc_Op rc =? opOneOf)%string eqn:E2;
    [|destruct (rc_Op rc =? opPrefix)%string eqn:E3; [|destruct (rc_Op rc =? opGlob)%string eqn:E4; [|done]]]]; bprop;
    apply result_bind_inr in Hc as (x & Hb & [= <-]); cbn [cc_id cc_match]; (split; [done|]); 
    (apply Hov; [by eauto using glob_match_total|intros v Hv; unfold string_test]).
  - rewrite E1. split; [intros [= ?]; bprop; auto|]. intros [[_ ->]|[[? _]|[[? _]|[? _]]]]; [by rewrite String.eqb_refl|done..].
  - rewrite E2. apply boundSet_spec in Hb as ->. split.
    + intros [= Hin%bool_decide_eq_true]. right. left. split; [done|]. by apply elem_of_list_to_set in Hin.
    + intros [[? _]|[[_ Hin]|[[? _]|[? _]]]]; [done| |done..]. f_equal. apply bool_decide_eq_true. by apply elem_of_list_to_set.
  - destruct x. apply boundStr_nonempty in Hb. rewrite E3. split.
    + intros [= Hp%HasPrefix_spec]. auto 6.
    + intros [[? _]|[[? _]|[(_ & _ & Hp)|[? _]]]]; [done..| |done]. f_equal. by apply HasPrefix_spec.
  - apply compileGlob_same in Hb as ->. rewrite E4. split; [auto 6|]. intros [[? _]|[[? _]|[[? _]|[_ ?]]]]; done.
Qed.

Definition string_holds (rc : rawCondition) (key : string) (i : DecisionInput) : Prop :=
  ∃ v, string_get rc key i = Some (Some v) ∧ string_test rc v.

(** What a condition says of a tuple, by the kind of its field. *)
Definition cond_holds (rc : rawCondition) (i : DecisionInput) : Prop :=
  match assoc (rc_Field rc) fieldKinds with
  | None => ∃ key, resourceAttrField (rc_Field rc) = Some key ∧ string_holds rc key i
  | Some kindString => string_holds rc "" i
  | Some kindSet => ∃ f, assoc (rc_Field rc) setFields = Some f ∧
      (rc_Op rc = opContains ∧ rc_Value rc ∈ f i ∨ rc_Op rc = opContainsAny ∧ ∃ v, v ∈ f i ∧ v ∈ rc_Values rc)
  | Some kindBool => ∃ f, assoc (rc_Field rc) boolFields = Some f ∧ rc_Value rc = (if f i then "true" else "false")
  | Some kindAssurance => ∃ f floor, assoc (rc_Field rc) assuranceFields = Some f ∧
      parseAssurance (rc_Value rc) = Some floor ∧ floor ≤ f i
  | Some kindPower => ∃ f want, assoc (rc_Field rc) powerFields = Some f ∧ parsePower (rc_Value rc) = Some want ∧
      f i ≠ PowerUnset ∧ (rc_Op rc = opMaxPower ∧ f i ≤ want ∨ rc_Op rc = opMinPower ∧ want ≤ f i)
  | Some kindTime => ∃ start end_, ParseRFC3339 (rc_Start rc) = Some start ∧ ParseRFC3339 (rc_End rc) = Some end_ ∧
      start ≤ in_EvalTime i ≤ end_
  end.

Definition cond_spec (c : compiledCond) (i : DecisionInput) (P : Prop) : Prop :=
  is_Some (cc_match c i) ∧ (cc_match c i = Some true ↔ P).

Lemma cond_spec_intro c i b P : cc_match c i = Some b → (b = true ↔ P) → cond_spec c i P.
Proof. intros E HP. split; [by exists b|]. rewrite E. rewrite <- HP. naive_solver. Qed.

Lemma existsb_elem (p : string → bool) l : existsb p l = true ↔ ∃ v, v ∈ l ∧ p v = true.
Proof. rewrite existsb_exists. setoid_rewrite list_elem_of_In. done. Qed.

Lemma set_cond_spec rc lim id c i :
  assoc (rc_Field rc) fieldKinds = Some kindSet → compileSetCond rc lim id = inr c → cond_spec c i (cond_holds rc i).
Proof.
  intros Hk Hc. pose proof (accessor_found _ _ Hk) as [f Hf]%bool_decide_eq_true. unfold compileSetCond in Hc.
  unfold cond_holds. rewrite Hk.
  destruct (rc_Op rc =? opContains)%string eqn:E1; [|destruct (rc_Op rc =? opContainsAny)%string eqn:E2; [|done]]; bprop;
    apply result_bind_inr in Hc as (x & Hb & [= <-]); (eapply cond_spec_intro; [cbn [cc_match]; by rewrite Hf|]);
    rewrite existsb_elem; rewrite ?E1, ?E2.
  - split.
    + intros (v & Hv & ?). bprop. subst. eauto 6.
    + intros (f' & Hf' & [[_ ?]|[? _]]); [|done]. simplify_eq. eexists. by rewrite String.eqb_refl.
  - apply boundSet_spec in Hb as ->. setoid_rewrite bool_decide_eq_true. setoid_rewrite elem_of_list_to_set. split.
    + intros (v & ? & ?). eauto 8.
    + intros (f' & Hf' & [[? _]|[_ ?]]); [done|]. by simplify_eq.
Qed.

Lemma bool_cond_spec rc id c i :
  assoc (rc_Field rc) fieldKinds = Some kindBool → compileBoolCond rc id = inr c → cond_spec c i (cond_holds rc i).
Proof.
  intros Hk Hc. pose proof (accessor_found _ _ Hk) as [f Hf]%bool_decide_eq_true. unfold compileBoolCond in Hc.
  unfold cond_holds. rewrite Hk. case_if; [done|]. destruct (assoc (rc_Value rc) _) as [want|] eqn:Ew; [|done].
  injection Hc as <-. eapply cond_spec_intro; [cbn [cc_match]; by rewrite Hf|].
  assert (rc_Value rc = (if want then "true" else "false")) as ->.
  { apply assoc_elem in Ew. rewrite !elem_of_cons, elem_of_nil in Ew. naive_solver. }
  rewrite Bool.eqb_true_iff. split; [intros <-; eauto|]. intros (f' & Hf' & E). simplify_eq. by destruct want, (f i).
Qed.

Lemma assurance_cond_spec rc id c i :
  assoc (rc_Field rc) fieldKinds = Some kindAssurance → compileAssuranceCond rc id = inr c → cond_spec c i (cond_holds rc i).
Proof.
  intros Hk Hc. pose proof (accessor_found _ _ Hk) as [f Hf]%bool_decide_eq_true. unfold compileAssuranceCond in Hc.
  unfold cond_holds. rewrite Hk. case_if; [done|]. destruct (parseAssurance (rc_Value rc)) as [floor|] eqn:Ew; [|done].
  injection Hc as <-. eapply cond_spec_intro; [cbn [cc_match]; by rewrite Hf|].
  rewrite Z.leb_le. split; [eauto 6|]. intros (f' & fl & Hf' & Hfl & ?). by simplify_eq.
Qed.

Lemma power_cond_spec rc id c i :
  assoc (rc_Field rc) fieldKinds = Some kindPower → compilePowerCond rc id = inr c → cond_spec c i (cond_holds rc i).
Proof.
  intros Hk Hc. pose proof (accessor_found _ _ Hk) as [f Hf]%bool_decide_eq_true. unfold compilePowerCond in Hc.
  unfold cond_holds. rewrite Hk. destruct (parsePower (rc_Value rc)) as [want|] eqn:Ew; [|done].
  case_if; [done|]. destruct (rc_Op rc =? opMaxPower)%string eqn:E1; [|destruct (rc_Op rc =? opMinPower)%string eqn:E2; [|done]];
    bprop; injection Hc as <-; (eapply cond_spec_intro; [cbn [cc_match]; by rewrite Hf|]);
    rewrite andb_true_iff, negb_true_iff, Z.eqb_neq, Z.leb_le, ?E1, ?E2.
  - split; [intros []; eauto 8|]. intros (f' & w & Hf' & Hw & ? & [[_ ?]|[? _]]); [|done]. by simplify_eq.
  - split; [intros []; eauto 8|]. intros (f' & w & Hf' & Hw & ? & [[? _]|[_ ?]]); [done|]. by simplify_eq.
Qed.

Lemma time_cond_spec rc id c i :
  assoc (rc_Field rc) fieldKinds = Some kindTime → compileTimeCond rc id = inr c → cond_spec c i (cond_holds rc i).
Proof.
  intros Hk Hc. unfold compileTimeCond in Hc. unfold cond_holds. rewrite Hk. case_if; [done|].
  destruct (ParseRFC3339 (rc_Start rc)) as [start|]; [|done]. destruct (ParseRFC3339 (rc_End rc)) as [end_|]; [|done].
  case_if; [done|]. injection Hc as <-. eapply cond_spec_intro; [done|].
  rewrite andb_true_iff, !negb_true_iff, !Z.ltb_ge. split; [intros []; eauto 6|]. by intros (? & ? & [= <-] & [= <-] & ? & ?).
Qed.

Lemma compileCondition_spec rc lim c i : compileCondition rc lim = inr c → cond_spec c i (cond_holds rc i).
Proof.
  unfold compileCondition. intros Hc. destruct (assoc (rc_Field rc) fieldKinds) as [k|] eqn:Hk.
  - destruct k; eauto using set_cond_spec, bool_cond_spec, assurance_cond_spec, power_cond_spec, time_cond_spec.
    pose proof (accessor_found _ _ Hk) as Hf%bool_decide_eq_true.
    eapply compileStringCond_spec in Hc as (_ & Hs & Hm); [|by right]. unfold cond_holds. rewrite Hk. split; [done|exact Hm].
  - destruct (resourceAttrField (rc_Field rc)) as [key|] eqn:Hr; [|done].
    assert (key ≠ "") as Hne.
    { unfold resourceAttrField in Hr. destruct (CutPrefix _ _); [|done]. case_if; [done|]. bprop. congruence. }
    eapply compileStringCond_spec in Hc as (_ & Hs & Hm); [|by left]. unfold cond_holds. rewrite Hk, Hr. split; [done|].
    rewrite Hm. unfold string_holds. naive_solver.
Qed.

(** A condition that compiled answers for every tuple, without calling a missing accessor and without looping,
    and it matches exactly the tuples it describes; a string field that is absent or empty never matches. *)
Theorem conditions_meaning rc lim c :
  compileCondition rc lim = inr c →
  ∀ i, (∃ b, cc_match c i = Some b) ∧ (cc_match c i = Some true ↔ cond_holds rc i) ∧
       (∀ key v, string_get rc key i = Some (Some v) → v ≠ "").
Proof.
  intros Hc i. destruct (compileCondition_spec rc lim c i Hc) as [[b Hb] Hm]. split_and!; eauto using string_get_nonempty.
Qed.
End meaning.

(** ** Witnesses *)

(** A clock-text reader that knows two dates, for evaluation. *)
Definition two_dates : TimeData := {|
  LoadLocation _ := None;
  ParseRFC3339 s := assoc s [("2026-01-01T00:00:00Z", 1767225600 * Second); ("2027-01-01T00:00:00Z", 1798761600 * Second)];
  FormatRFC3339 _ := "" |}.

Lemma conditions_meaning_witness :
  ∃ c, compileCondition (H := two_dates) (mkRawCond "tool.name" opPrefix "list_" [] "" "") DefaultLimits = inr c ∧
    ∀ i, (∃ b, cc_match c i = Some b) ∧
         (cc_match c i = Some true ↔ cond_holds (H := two_dates) (mkRawCond "tool.name" opPrefix "list_" [] "" "") i) ∧
         (∀ key v, string_get (mkRawCond "tool.name" opPrefix "list_" [] "" "") key i = Some (Some v) → v ≠ "").
Proof.
  eexists. split; [vm_compute; reflexivity|].
  apply (conditions_meaning (H := two_dates) _ DefaultLimits). vm_compute. reflexivity.
Defined.

(** The literal comparison comes before the ['*'] case, so a ['*'] in the subject uses the pattern's star up: the
    pattern ["secret*"] means every value that starts with "secret", and the matcher refuses one of them. *)
Theorem glob_star_subject :
  compileGlob "secret*" DefaultLimits = inr "secret*" ∧
  glob_matches (list_ascii_of_string "secret*") (list_ascii_of_string "secret*key") ∧
  glob_match "secret*" "secret*key" = Some false ∧ glob_match "secret*" "secret-key" = Some true.
Proof.
  split_and!; [reflexivity| |reflexivity..]. simpl. do 6 (apply gm_lit; [done..|]).
  apply (gm_star [] (list_ascii_of_string "*key") []). constructor.
Qed.
