(* ===== verification/McpCompile.v ===== *)
(** * MCP policy: obligations, rules and compiled snapshots

    [internal/mcp/policy]: [obligation.go], [rule.go], [snapshot.go], [parse.go], [compile.go].

    A document is parsed by [internal/mcp/canonical] and [encoding/json] (class [DocDecoder]); what
    follows — the byte bound, the header, the rules, the obligation matrix, the priorities, the
    canonical hash — is the code's.  Pointers to obligations are options, so [clone] is the
    identity.  SHA-256 enters as the class [Sha256], [sort.Slice] and [sort.Strings] as
    [SortSlice].

    - [compiled_snapshot_ok]: whatever compiles is deny by default, has strictly ascending
      priorities and distinct identifiers, and every rule in it keeps the obligation matrix.
    - [compile_document_equiv]: the order of rules, of conditions and of values changes neither whether
      a document compiles nor its hash nor, one by one, its rules. *)

From stdpp Require Import pretty.
From S2P Require Import Prelude GoStrings McpInput McpCondition.

(** ** Obligations ([obligation.go]) *)

Notation LoggingClass := Z (only parsing).
Definition LogUnset : LoggingClass := 0.
Definition LogStandard : LoggingClass := 1.
Definition LogFull : LoggingClass := 2.
Definition LogAudit : LoggingClass := 3.
Definition LoggingClass_String (l : LoggingClass) : string :=
  switch l [(LogStandard, "standard"); (LogFull, "full"); (LogAudit, "audit")] "unset".
Notation ObservationLevel := Z (only parsing).
Definition ObsUnset : ObservationLevel := 0.
Definition ObsSummary : ObservationLevel := 1.
Definition ObsDetailed : ObservationLevel := 2.
Definition ObservationLevel_String (o : ObservationLevel) : string :=
  switch o [(ObsSummary, "summary"); (ObsDetailed, "detailed")] "unset".

Record SessionGrant := mkGrant { sg_SessionBound : bool; sg_TTLSeconds : Z; sg_MaxCalls : Z; sg_RevokeRequired : bool }.
Record RedactionReq := mkRedaction { rd_ProfileRef : string; rd_TransformedHashRequired : bool }.
Record Obligations := mkObl {
  ob_Logging : LoggingClass; ob_Observation : ObservationLevel; ob_RateLimitProfile : string; ob_Destination : Destination;
  ob_CredentialProfile : string; ob_OnceCall : bool; ob_Session : option SessionGrant; ob_Redaction : option RedactionReq;
  ob_Confirmation : bool; ob_Approval : bool; ob_TicketRequired : bool;
}.
#[global] Instance SessionGrant_dec : EqDecision SessionGrant.
Proof. solve_decision. Defined.
#[global] Instance RedactionReq_dec : EqDecision RedactionReq.
Proof. solve_decision. Defined.
#[global] Instance Obligations_eta : Eta Obligations := λ o,
  mkObl (ob_Logging o) (ob_Observation o) (ob_RateLimitProfile o) (ob_Destination o) (ob_CredentialProfile o) (ob_OnceCall o)
    (ob_Session o) (ob_Redaction o) (ob_Confirmation o) (ob_Approval o) (ob_TicketRequired o).
Definition no_obligations : Obligations := mkObl LogUnset ObsUnset "" DestinationUnknown "" false None None false false false.

Definition Obligations_IDs (o : Obligations) : list string :=
  ((if ob_Logging o =? LogUnset then [] else [("log:" ++ LoggingClass_String (ob_Logging o))%string]) ++
   (if ob_Observation o =? ObsUnset then [] else [("obs:" ++ ObservationLevel_String (ob_Observation o))%string]) ++
   (if (ob_RateLimitProfile o =? "")%string then [] else [("rate:" ++ ob_RateLimitProfile o)%string]) ++
   (if ob_Destination o =? DestinationUnknown then [] else [("dest:" ++ Destination_String (ob_Destination o))%string]) ++
   (if (ob_CredentialProfile o =? "")%string then [] else [("cred:" ++ ob_CredentialProfile o)%string]) ++
   (if ob_OnceCall o then ["once"] else []) ++
   (match ob_Session o with None => [] | Some _ => ["session"] end) ++
   (match ob_Redaction o with None => [] | Some r => [("redact:" ++ rd_ProfileRef r)%string] end) ++
   (if ob_Confirmation o then ["confirm"] else []) ++
   (if ob_Approval o then ["approval"] else []) ++
   (if ob_TicketRequired o then ["ticket"] else []))%list.

Definition obligationErr {A} (detail : string) : result A := inl (mkErr ReasonPolicyObligationInvalid "policy.obligation" detail).

Definition validateShape (o : Obligations) : result () :=
  _ ← match ob_Session o with
      | Some s => if (sg_TTLSeconds s <=? 0) || (sg_MaxCalls s <=? 0)
                  then obligationErr "session grant requires positive TTL and max-calls" else mret ()
      | None => mret ()
      end;
  match ob_Redaction o with
  | Some r => if (rd_ProfileRef r =? "")%string then obligationErr "redaction obligation requires a profile reference" else mret ()
  | None => mret ()
  end.
Definition validateCredentialProfile (o : Obligations) (a : Action) (capNS : Capability) : result () :=
  if (ob_CredentialProfile o =? "")%string then mret () else
  if negb (IsAllowClass a) then obligationErr "credential profile is not permitted on a non-ALLOW-class action" else
  if negb (capNS =? CapGateway) then obligationErr "only a Gateway rule may select a credential profile" else mret ().
Definition validateSessionGrant (o : Obligations) : result () :=
  match ob_Session o with
  | None => obligationErr "ALLOW_FOR_SESSION requires a session grant"
  | Some s =>
      if negb (sg_SessionBound s) then obligationErr "ALLOW_FOR_SESSION requires a session-bound grant" else
      if negb (sg_RevokeRequired s) then obligationErr "ALLOW_FOR_SESSION requires a revocable grant" else mret ()
  end.
Definition validateRedaction (o : Obligations) : result () :=
  match ob_Redaction o with
  | None => obligationErr "ALLOW_WITH_REDACTION requires a redaction-profile reference"
  | Some r =>
      if (rd_ProfileRef r =? "")%string then obligationErr "ALLOW_WITH_REDACTION requires a redaction-profile reference" else
      if negb (rd_TransformedHashRequired r)
      then obligationErr "ALLOW_WITH_REDACTION requires transformed-content hash attestation" else mret ()
  end.
Definition validateActionObligations (o : Obligations) (a : Action) : result () :=
  if a =? ActionAllow then
    if ob_Approval o then obligationErr "a plain ALLOW may not carry an approval obligation" else mret ()
  else if a =? ActionAllowOnce then
    if negb (ob_OnceCall o) then obligationErr "ALLOW_ONCE requires the one-call obligation" else mret ()
  else if a =? ActionAllowForSession then validateSessionGrant o
  else if a =? ActionAllowWithRedaction then validateRedaction o
  else if a =? ActionMonitor then
    if ob_Logging o =? LogUnset then obligationErr "MONITOR requires a logging/telemetry obligation" else mret ()
  else if a =? ActionRequireApproval then
    if negb (ob_Approval o) then obligationErr "REQUIRE_APPROVAL requires the approval obligation" else mret ()
  else if a =? ActionRequireConfirmation then
    if negb (ob_Confirmation o) then obligationErr "REQUIRE_CONFIRMATION requires the confirmation obligation" else mret ()
  else mret ().
Definition validateDestructive (o : Obligations) (a : Action) (destructive : bool) : result () :=
  if negb destructive || negb (IsAllowClass a) then mret () else
  if negb (ob_OnceCall o) && bool_decide (ob_Session o = None)
  then obligationErr "a destructive ALLOW-class rule must bound execution (one-call or session)" else
  if negb (ob_Logging o =? LogAudit) then obligationErr "a destructive ALLOW-class rule must mandate audit logging" else mret ().
Definition validateFor (o : Obligations) (a : Action) (capNS : Capability) (destructive : bool) : result () :=
  _ ← validateShape o;
  _ ← validateCredentialProfile o a capNS;
  _ ← validateActionObligations o a;
  validateDestructive o a destructive.

(** ** Rules and snapshots ([rule.go], [snapshot.go]) *)

Record Rule := mkRule {
  rl_id : string; rl_priority : Z; rl_enabled : bool; rl_conditions : list compiledCond; rl_action : Action;
  rl_reason : ReasonCode; rl_remediation : Remediation; rl_obligations : Obligations; rl_owner : string;
  rl_expiryUnix : Z; rl_allowDestructive : bool; rl_rawKey : string;
}.

(** The loop over the conditions: the identifier of the first that does not match. *)
Fixpoint match_conditions (cs : list compiledCond) (i : DecisionInput) : option (bool * string) :=
  match cs with
  | [] => Some (true, "")
  | c :: cs => b ← cc_match c i; if (b : bool) then match_conditions cs i else Some (false, cc_id c)
  end.
Definition rule_matches (r : Rule) (i : DecisionInput) : option (bool * string) :=
  if negb (rl_expiryUnix r =? 0) && (rl_expiryUnix r <=? Unix (in_EvalTime i)) then Some (false, "expiry")
  else match_conditions (rl_conditions r) i.

Record CreatedMeta := mkMeta { mt_Author : string; mt_CreatedAt : string; mt_Note : string }.
Record Snapshot := mkSnap {
  sn_schemaVersion : Z; sn_capability : Capability; sn_revision : Z; sn_hash : string; sn_description : string;
  sn_rules : list Rule; sn_defaultAction : Action; sn_lim : Limits; sn_meta : CreatedMeta;
}.
#[global] Instance Snapshot_eta : Eta Snapshot := λ s,
  mkSnap (sn_schemaVersion s) (sn_capability s) (sn_revision s) (sn_hash s) (sn_description s) (sn_rules s)
    (sn_defaultAction s) (sn_lim s) (sn_meta s).

(** ** Documents ([parse.go]) *)

Record rawSession := mkRawSession { rss_SessionBound : bool; rss_TTLSeconds : Z; rss_MaxCalls : Z; rss_RevokeRequired : bool }.
Record rawRedaction := mkRawRedaction { rrd_ProfileRef : string; rrd_TransformedHashRequired : bool }.
Record rawObligations := mkRawObl {
  ro_Logging : string; ro_Observation : string; ro_RateLimitProfile : string; ro_Destination : string;
  ro_CredentialProfile : string; ro_OnceCall : bool; ro_Session : option rawSession; ro_Redaction : option rawRedaction;
  ro_Confirmation : bool; ro_Approval : bool; ro_TicketRequired : bool;
}.
Record rawRule := mkRawRule {
  rr_ID : string; rr_Priority : Z; rr_Enabled : option bool; rr_Conditions : list rawCondition; rr_Action : string;
  rr_Reason : string; rr_Remediation : string; rr_Obligations : option rawObligations; rr_Owner : string;
  rr_ExpiryUnix : Z; rr_AllowDestructive : bool;
}.
#[global] Instance rawRule_eta : Eta rawRule := λ r,
  mkRawRule (rr_ID r) (rr_Priority r) (rr_Enabled r) (rr_Conditions r) (rr_Action r) (rr_Reason r) (rr_Remediation r)
    (rr_Obligations r) (rr_Owner r) (rr_ExpiryUnix r) (rr_AllowDestructive r).
Record rawSnapshot := mkRawSnap {
  rw_SchemaVersion : Z; rw_Capability : string; rw_PolicyRevision : Z; rw_DefaultAction : string; rw_Description : string;
  rw_Rules : list rawRule;
}.
#[global] Instance rawSnapshot_eta : Eta rawSnapshot := λ s,
  mkRawSnap (rw_SchemaVersion s) (rw_Capability s) (rw_PolicyRevision s) (rw_DefaultAction s) (rw_Description s) (rw_Rules s).

Definition schemaVersionV1 : Z := 1.
Definition snapshotErr {A} (detail : string) : result A := inl (mkErr ReasonPolicySnapshotInvalid "policy.parse" detail).

(** [canonical.Bounds]. *)
Record Bounds := mkBounds {
  bd_MaxBytes : Z; bd_MaxDepth : Z; bd_MaxObjectMembers : Z; bd_MaxArrayElements : Z; bd_MaxStringBytes : Z;
}.
(** [canonical.Decode]: the sanitized code of its error, if any; and the strict [encoding/json] decoder: the document,
    and whether [More] reports content after it. *)
Class DocDecoder := {
  canonical_Decode : string → Bounds → option string;
  json_Decode : string → option (rawSnapshot * bool);
}.

Definition parseDocument `{DocDecoder} (raw : string) (lim : Limits) : result rawSnapshot :=
  let n := Z.of_nat (String.length raw) in
  if n =? 0 then snapshotErr "empty policy document" else
  if n >? MaxSnapshotBytes lim then snapshotErr "policy document exceeds the byte bound" else
  match canonical_Decode raw (mkBounds (MaxSnapshotBytes lim) 32 (Z.shiftl 1 16)
                                (wrap64 (MaxRulesPerSnap lim + MaxConditions lim + 16)) (MaxStringBytes lim)) with
  | Some code => snapshotErr ("policy document failed strict decode: " ++ code)
  | None =>
      match json_Decode raw with
      | None => snapshotErr "policy document has an unknown or malformed field"
      | Some (rs, more) => if (more : bool) then snapshotErr "policy document has trailing content" else mret rs
      end
  end.

(** ** Compilation ([compile.go]) *)

Definition parseCapability (s : string) : option Capability := assoc s [("gateway", CapGateway); ("management", CapManagement)].
Definition parseLogging (s : string) : LoggingClass :=
  default LogUnset (assoc s [("standard", LogStandard); ("full", LogFull); ("audit", LogAudit)]).
Definition parseObservation (s : string) : ObservationLevel :=
  default ObsUnset (assoc s [("summary", ObsSummary); ("detailed", ObsDetailed)]).
Definition parseDestination (s : string) : Destination :=
  default DestinationUnknown (assoc s [("none", DestinationNone); ("approved", DestinationApproved);
                                       ("internal", DestinationInternal); ("arbitrary", DestinationArbitrary)]).
Definition managementLegalAction (a : Action) : bool :=
  switch a [(ActionAllow, true); (ActionDeny, true); (ActionRequireApproval, true)] false.

Definition buildObligations (ro : option rawObligations) : Obligations :=
  match ro with
  | None => no_obligations
  | Some ro =>
      mkObl (parseLogging (ro_Logging ro)) (parseObservation (ro_Observation ro)) (ro_RateLimitProfile ro)
        (parseDestination (ro_Destination ro)) (ro_CredentialProfile ro) (ro_OnceCall ro)
        ((λ s, mkGrant (rss_SessionBound s) (rss_TTLSeconds s) (rss_MaxCalls s) (rss_RevokeRequired s)) <$> ro_Session ro)
        ((λ r, mkRedaction (rrd_ProfileRef r) (rrd_TransformedHashRequired r)) <$> ro_Redaction ro)
        (ro_Confirmation ro) (ro_Approval ro) (ro_TicketRequired ro)
  end.

Definition ruleErr {A} (detail : string) : result A := inl (mkErr ReasonPolicyRuleInvalid "policy.compile" detail).

Definition compileRuleHeader (rr : rawRule) (capNS : Capability) (lim : Limits) : result (Action * ReasonCode * Remediation) :=
  if (rr_ID rr =? "")%string || (Z.of_nat (String.length (rr_ID rr)) >? MaxStringBytes lim)
  then ruleErr "missing or over-long rule id" else
  if rr_Priority rr <=? 0 then ruleErr "rule priority must be positive" else
  match ParseAction (rr_Action rr) with
  | None => ruleErr "malformed or unknown action"
  | Some action =>
      if (capNS =? CapManagement) && negb (managementLegalAction action)
      then ruleErr "action not legal for a Management rule (V1: ALLOW/DENY/REQUIRE_APPROVAL)" else
      if negb (ReasonCode_Valid (rr_Reason rr)) then ruleErr "malformed reason code" else
      if negb (Remediation_Valid (rr_Remediation rr)) then ruleErr "malformed or unknown remediation code" else
      mret (action, rr_Reason rr, rr_Remediation rr)
  end.

(** [strconv.FormatBool] and [strconv.Itoa]. *)
Definition FormatBool (b : bool) : string := if b then "true" else "false".
Definition Itoa (z : Z) : string := pretty z.

Definition canonicalObligations (o : Obligations) : string :=
  "log=" ++ LoggingClass_String (ob_Logging o) ++
  ";obs=" ++ ObservationLevel_String (ob_Observation o) ++
  ";rate=" ++ ob_RateLimitProfile o ++
  ";dest=" ++ Destination_String (ob_Destination o) ++
  ";cred=" ++ ob_CredentialProfile o ++
  ";once=" ++ FormatBool (ob_OnceCall o) ++
  ";conf=" ++ FormatBool (ob_Confirmation o) ++
  ";appr=" ++ FormatBool (ob_Approval o) ++
  ";tick=" ++ FormatBool (ob_TicketRequired o) ++
  match ob_Session o with
  | Some s => ";sess=" ++ FormatBool (sg_SessionBound s) ++ "/" ++ Itoa (sg_TTLSeconds s) ++ "/" ++
              Itoa (sg_MaxCalls s) ++ "/" ++ FormatBool (sg_RevokeRequired s)
  | None => ""
  end ++
  match ob_Redaction o with
  | Some r => ";red=" ++ rd_ProfileRef r ++ "/" ++ FormatBool (rd_TransformedHashRequired r)
  | None => ""
  end.

(** [putUint64]: eight bytes, most significant first. *)
Fixpoint be_bytes (n : nat) (v : Z) : string :=
  match n with
  | O => ""
  | S n => be_bytes n (Z.shiftr v 8) ++ String (byte_of v) ""
  end.
Definition putUint64 (v : Z) : string := be_bytes 8 v.
(** The closure [seg] of [computeHash]. *)
Definition seg (b : string) : string := putUint64 (Z.of_nat (String.length b)) ++ b.

Section compile.
Context `{TimeData, Sha256, SortSlice}.

(** [sort.Strings] of a copy. *)
Definition sortedCopy (l : list string) : list string := sort_slice str_lt l.
Definition canonicalCondKey (c : rawCondition) : string :=
  rc_Field c ++ "/" ++ rc_Op c ++ "/" ++ rc_Value c ++ "/" ++ Join (sortedCopy (rc_Values c)) "," ++ "/" ++
  rc_Start c ++ "-" ++ rc_End c.
Definition canonicalRuleKey (rr : rawRule) (action : Action) (reason : ReasonCode) (rem : Remediation) (obl : Obligations) : string :=
  "id=" ++ rr_ID rr ++
  ";pri=" ++ Itoa (rr_Priority rr) ++
  ";en=" ++ FormatBool (default true (rr_Enabled rr)) ++
  ";act=" ++ Action_String action ++
  ";rsn=" ++ reason ++
  ";rem=" ++ rem ++
  ";exp=" ++ Itoa (rr_ExpiryUnix rr) ++
  ";dst=" ++ FormatBool (rr_AllowDestructive rr) ++
  ";obl=" ++ canonicalObligations obl ++
  ";cnd=[" ++ Join (sortedCopy (map canonicalCondKey (rr_Conditions rr))) "|" ++ "]".

Fixpoint compile_conditions (rcs : list rawCondition) (lim : Limits) : result (list compiledCond) :=
  match rcs with
  | [] => mret []
  | rc :: rcs => c ← compileCondition rc lim; cs ← compile_conditions rcs lim; mret (c :: cs)
  end.

Definition compileRule (rr : rawRule) (capNS : Capability) (lim : Limits) : result Rule :=
  h ← compileRuleHeader rr capNS lim;
  let '(action, reason, rem) := h in
  if Z.of_nat (length (rr_Conditions rr)) >? MaxConditions lim then ruleErr "too many conditions" else
  conds ← compile_conditions (rr_Conditions rr) lim;
  let obl := buildObligations (rr_Obligations rr) in
  if Z.of_nat (length (Obligations_IDs obl)) >? MaxObligations lim then ruleErr "too many obligations" else
  if rr_AllowDestructive rr && negb (action =? ActionAllowOnce) && negb (action =? ActionAllowForSession)
  then ruleErr "allow_destructive requires a bounded action (ALLOW_ONCE or ALLOW_FOR_SESSION)" else
  _ ← validateFor obl action capNS (rr_AllowDestructive rr);
  mret (mkRule (rr_ID rr) (rr_Priority rr) (default true (rr_Enabled rr)) conds action reason rem obl (rr_Owner rr)
          (rr_ExpiryUnix rr) (rr_AllowDestructive rr) (canonicalRuleKey rr action reason rem obl)).

(** The loop of [compileRules], with the identifiers and priorities seen so far. *)
Fixpoint compile_rules_from (rrs : list rawRule) (capNS : Capability) (lim : Limits) (seenID : gset string) (seenPri : gset Z) :
    result (list Rule) :=
  match rrs with
  | [] => mret []
  | rr :: rrs =>
      r ← compileRule rr capNS lim;
      if bool_decide (rl_id r ∈ seenID) then ruleErr "duplicate rule id" else
      if bool_decide (rl_priority r ∈ seenPri) then ruleErr "duplicate rule priority in this namespace" else
      rs ← compile_rules_from rrs capNS lim ({[rl_id r]} ∪ seenID) ({[rl_priority r]} ∪ seenPri);
      mret (r :: rs)
  end.
Definition compileRules (rrs : list rawRule) (capNS : Capability) (lim : Limits) : result (list Rule) :=
  compile_rules_from rrs capNS lim ∅ ∅.

Definition computeHash (s : Snapshot) : string :=
  sha256_hex (seg ("v" ++ Itoa (sn_schemaVersion s)) ++ seg ("cap:" ++ Capability_String (sn_capability s)) ++
              seg ("rev:" ++ Itoa (sn_revision s)) ++ seg ("default:" ++ Action_String (sn_defaultAction s)) ++
              String.concat "" (map (λ r, seg (rl_rawKey r)) (sn_rules s))).

Definition priority_less (a b : Rule) : bool := rl_priority a <? rl_priority b.

(** [Compile] once the document is parsed. *)
Definition compile_document (rs : rawSnapshot) (meta : CreatedMeta) (lim : Limits) : result Snapshot :=
  if negb (rw_SchemaVersion rs =? schemaVersionV1) then snapshotErr "unsupported policy schema version" else
  match parseCapability (rw_Capability rs) with
  | None => snapshotErr "missing or invalid capability"
  | Some capNS =>
      if rw_PolicyRevision rs =? 0 then snapshotErr "policy revision must be positive" else
      if negb (bool_decide (ParseAction (rw_DefaultAction rs) = Some ActionDeny)) then snapshotErr "default_action must be DENY" else
      if Z.of_nat (length (rw_Rules rs)) >? MaxRulesPerSnap lim then snapshotErr "too many rules" else
      rules ← compileRules (rw_Rules rs) capNS lim;
      let snap := mkSnap (rw_SchemaVersion rs) capNS (rw_PolicyRevision rs) "" (rw_Description rs)
                    (sort_slice priority_less rules) ActionDeny lim meta in
      mret (snap <| sn_hash := computeHash snap |>)
  end.
Definition Compile `{DocDecoder} (raw : string) (meta : CreatedMeta) (lim : Limits) : result Snapshot :=
  rs ← parseDocument raw lim; compile_document rs meta lim.
End compile.

(** ** What compiles *)

(** The obligation matrix, as what it guarantees. *)
Definition action_contract (o : Obligations) (a : Action) : Prop :=
  (a = ActionAllow → ob_Approval o = false) ∧
  (a = ActionAllowOnce → ob_OnceCall o = true) ∧
  (a = ActionAllowForSession → ∃ s, ob_Session o = Some s ∧ sg_SessionBound s = true ∧ sg_RevokeRequired s = true) ∧
  (a = ActionAllowWithRedaction → ∃ r, ob_Redaction o = Some r ∧ rd_ProfileRef r ≠ "" ∧ rd_TransformedHashRequired r = true) ∧
  (a = ActionMonitor → ob_Logging o ≠ LogUnset) ∧
  (a = ActionRequireApproval → ob_Approval o = true) ∧
  (a = ActionRequireConfirmation → ob_Confirmation o = true).

Record obligations_ok (o : Obligations) (a : Action) (capNS : Capability) (destructive : bool) : Prop := {
  oo_session s : ob_Session o = Some s → 0 < sg_TTLSeconds s ∧ 0 < sg_MaxCalls s;
  oo_credential : ob_CredentialProfile o ≠ "" → IsAllowClass a = true ∧ capNS = CapGateway;
  oo_action : action_contract o a;
  oo_destructive : destructive = true → IsAllowClass a = true →
    (ob_OnceCall o = true ∨ is_Some (ob_Session o)) ∧ ob_Logging o = LogAudit;
}.

Record rule_ok (capNS : Capability) (r : Rule) : Prop := {
  ro_id : rl_id r ≠ "";
  ro_priority : 0 < rl_priority r;
  ro_action : ActionAllow ≤ rl_action r ≤ ActionAllowWithRedaction;
  ro_management : capNS = CapManagement → managementLegalAction (rl_action r) = true;
  ro_codes : ReasonCode_Valid (rl_reason r) = true ∧ Remediation_Valid (rl_remediation r) = true;
  ro_obligations : obligations_ok (rl_obligations r) (rl_action r) capNS (rl_allowDestructive r);
  ro_destructive : rl_allowDestructive r = true → rl_action r = ActionAllowOnce ∨ rl_action r = ActionAllowForSession;
  ro_conditions : Forall (λ c, ∀ i, is_Some (cc_match c i)) (rl_conditions r);
}.

Record snapshot_ok (s : Snapshot) : Prop := {
  so_capability : sn_capability s = CapGateway ∨ sn_capability s = CapManagement;
  so_revision : sn_revision s ≠ 0;
  so_default : sn_defaultAction s = ActionDeny;
  so_sorted : StronglySorted (λ a b, rl_priority a < rl_priority b) (sn_rules s);
  so_ids : NoDup (rl_id <$> sn_rules s);
  so_rules : Forall (rule_ok (sn_capability s)) (sn_rules s);
  so_count : Z.of_nat (length (sn_rules s)) ≤ MaxRulesPerSnap (sn_lim s);
}.

(** Split a call that returned into its guards and its parts. *)
Ltac returned H :=
  repeat match type of H with
  | (if ?c then _ else _) = inr _ =>
      let E := fresh "G" in destruct c eqn:E; try discriminate H
  | (_ ≫= _) = inr _ =>
      let x := fresh "x" in let Hb := fresh "Hb" in apply result_bind_inr in H as (x & Hb & H)
  end.

Lemma validateActionObligations_sound o a : validateActionObligations o a = inr () → action_contract o a.
Proof.
  unfold validateActionObligations, action_contract. intros H. split_and!; intros ->; cbn in H.
  - by destruct (ob_Approval o).
  - by destruct (ob_OnceCall o).
  - unfold validateSessionGrant in H. destruct (ob_Session o) as [s|]; [|done]. exists s.
    by destruct (sg_SessionBound s), (sg_RevokeRequired s).
  - unfold validateRedaction in H. destruct (ob_Redaction o) as [r|]; [|done]. exists r. returned H. bprop. auto.
  - case_if; [done|]. by bprop.
  - by destruct (ob_Approval o).
  - by destruct (ob_Confirmation o).
Qed.

Lemma validateFor_sound o a capNS d : validateFor o a capNS d = inr () → obligations_ok o a capNS d.
Proof.
  unfold validateFor. intros H. apply result_bind_inr in H as ([] & Hs & H). apply result_bind_inr in H as ([] & Hc & H).
  apply result_bind_inr in H as ([] & Ha & H). split.
  - intros s Es. unfold validateShape in Hs. rewrite Es in Hs. returned Hs.
    destruct (_ || _) eqn:E in Hb; [done|]. bprop. lia.
  - unfold validateCredentialProfile in Hc. intros Hne. apply String.eqb_neq in Hne. rewrite Hne in Hc. returned Hc. by bprop.
  - by apply validateActionObligations_sound.
  - intros -> Hal. unfold validateDestructive in H. rewrite Hal in H. cbn in H. returned H. bprop. split; [|done].
    apply andb_false_iff in G as [?|Hn%bool_decide_eq_false]; bprop; [auto|]. right. by apply not_eq_None_Some.
Qed.

Lemma ParseAction_range code a : ParseAction code = Some a → ActionAllow ≤ a ≤ ActionAllowWithRedaction.
Proof.
  unfold ParseAction. intros H%assoc_elem. cbn in H. rewrite !elem_of_cons, elem_of_nil in H.
  unfold ActionAllow, ActionAllowWithRedaction in *. destruct_or?; simplify_eq; vm_compute; split; discriminate.
Qed.

Section compiled.
Context `{TimeData, Sha256, SortSlice}.

Lemma compile_conditions_spec rcs lim cs :
  compile_conditions rcs lim = inr cs → Forall2 (λ rc c, compileCondition rc lim = inr c) rcs cs.
Proof.
  revert cs. induction rcs as [|rc rcs IH]; intros cs Hc; simpl in Hc; [injection Hc as <-; constructor|].
  returned Hc. injection Hc as <-. constructor; auto.
Qed.

Lemma compileRule_sound rr capNS lim r :
  compileRule rr capNS lim = inr r →
  rule_ok capNS r ∧ rl_id r = rr_ID rr ∧ rl_priority r = rr_Priority rr ∧ rl_enabled r = default true (rr_Enabled rr) ∧
  rl_expiryUnix r = rr_ExpiryUnix rr ∧ rl_allowDestructive r = rr_AllowDestructive rr ∧
  ParseAction (rr_Action rr) = Some (rl_action r) ∧ rl_reason r = rr_Reason rr ∧ rl_remediation r = rr_Remediation rr ∧
  rl_obligations r = buildObligations (rr_Obligations rr) ∧
  Forall2 (λ rc c, compileCondition rc lim = inr c) (rr_Conditions rr) (rl_conditions r) ∧
  rl_rawKey r = canonicalRuleKey rr (rl_action r) (rl_reason r) (rl_remediation r) (rl_obligations r).
Proof.
  unfold compileRule. intros Hr. apply result_bind_inr in Hr as ([[a reason] rem] & Hh & Hr). returned Hr.
  injection Hr as <-. destruct x0. unfold compileRuleHeader in Hh. returned Hh.
  destruct (ParseAction (rr_Action rr)) as [a'|] eqn:Ea; [|done]. returned Hh. injection Hh as -> <- <-.
  apply compile_conditions_spec in Hb. split; [|done]. split; cbn [rl_id rl_priority rl_action rl_reason rl_remediation rl_obligations rl_allowDestructive rl_conditions].
  - apply orb_false_iff in G2 as [? _]. by bprop.
  - by bprop.
  - by eapply ParseAction_range.
  - intros ->. by destruct (managementLegalAction a).
  - by bprop.
  - by apply validateFor_sound.
  - intros Hd. rewrite Hd in G1. destruct (a =? ActionAllowOnce) eqn:E1, (a =? ActionAllowForSession) eqn:E2; try discriminate G1; bprop; auto.
  - clear -Hb. induction Hb as [|rc c rcs cs Hc _ IH]; constructor; [|done]. intros i.
    by apply (compileCondition_spec rc lim c i) in Hc as [? _].
Qed.

Lemma compile_rules_spec rrs capNS lim ids pris rs :
  compile_rules_from rrs capNS lim ids pris = inr rs →
  Forall2 (λ rr r, compileRule rr capNS lim = inr r) rrs rs ∧
  NoDup (rl_id <$> rs) ∧ NoDup (rl_priority <$> rs) ∧
  (∀ r, r ∈ rs → rl_id r ∉ ids ∧ rl_priority r ∉ pris).
Proof.
  revert ids pris rs. induction rrs as [|rr rrs IH]; intros ids pris rs Hc; simpl in Hc.
  { injection Hc as <-. split_and!; [constructor|apply NoDup_nil_2|apply NoDup_nil_2|by intros r ?%elem_of_nil]. }
  returned Hc. injection Hc as <-. apply IH in Hb0 as (H2 & Hi & Hp & Hn). apply bool_decide_eq_false in G, G0.
  assert (∀ r, r ∈ x0 → rl_id r ≠ rl_id x ∧ rl_priority r ≠ rl_priority x ∧ rl_id r ∉ ids ∧ rl_priority r ∉ pris) as Hx.
  { intros r Hr. destruct (Hn r Hr) as [[?%not_elem_of_singleton ?]%not_elem_of_union [?%not_elem_of_singleton ?]%not_elem_of_union]. done. }
  split_and!; [by constructor| | |]; rewrite ?fmap_cons.
  - apply NoDup_cons. split; [|done]. intros (r & E & Hr)%list_elem_of_fmap. by destruct (Hx r Hr) as [[] _].
  - apply NoDup_cons. split; [|done]. intros (r & E & Hr)%list_elem_of_fmap. by destruct (Hx r Hr) as (_ & [] & _).
  - intros r [->|Hr]%elem_of_cons; [done|]. by apply Hx.
Qed.

Lemma priority_less_weak : StrictWeak priority_less.
Proof. split; unfold priority_less; intros; bprop; apply Z.ltb_ge; lia. Qed.

(** Sorted with distinct keys is strictly sorted. *)
Lemma sorted_strict (rs : list Rule) :
  StronglySorted (λ x y, priority_less y x = false) rs → NoDup (rl_priority <$> rs) →
  StronglySorted (λ a b, rl_priority a < rl_priority b) rs.
Proof.
  induction 1 as [|r rs _ IH Hr]; intros Hn; constructor; rewrite fmap_cons, NoDup_cons in Hn; destruct Hn as [Hni Hn]; [auto|].
  rewrite Forall_forall in Hr |- *. intros y Hy. specialize (Hr y Hy). unfold priority_less in Hr. bprop.
  assert (rl_priority r ≠ rl_priority y); [|lia]. intros E. apply Hni. rewrite E. by apply list_elem_of_fmap_2.
Qed.

Lemma compile_document_inv rs meta lim s :
  compile_document rs meta lim = inr s →
  ∃ rules, parseCapability (rw_Capability rs) = Some (sn_capability s) ∧
    compile_rules_from (rw_Rules rs) (sn_capability s) lim ∅ ∅ = inr rules ∧ sn_rules s = sort_slice priority_less rules ∧
    sn_revision s = rw_PolicyRevision rs ∧ rw_PolicyRevision rs ≠ 0 ∧ sn_schemaVersion s = rw_SchemaVersion rs ∧
    sn_defaultAction s = ActionDeny ∧ sn_lim s = lim ∧ Z.of_nat (length (rw_Rules rs)) ≤ MaxRulesPerSnap lim ∧
    sn_hash s = computeHash (s <| sn_hash := "" |>).
Proof.
  unfold compile_document. intros Hs. returned Hs. destruct (parseCapability (rw_Capability rs)) as [cap|] eqn:Ec; [|done].
  returned Hs. injection Hs as <-. exists x. bprop. split_and!; done.
Qed.

Lemma compile_document_ok rs meta lim s : compile_document rs meta lim = inr s → snapshot_ok s.
Proof.
  intros (rules & Hcap & Hr & Hsort & Hrev & Hne & _ & Hdef & Hlim & Hlen & _)%compile_document_inv.
  apply compile_rules_spec in Hr as (H2 & Hi & Hp & _).
  pose proof (sort_slice_perm priority_less rules) as Hperm. rewrite <- Hsort in Hperm. split.
  - unfold parseCapability in Hcap. apply assoc_elem in Hcap. rewrite !elem_of_cons, elem_of_nil in Hcap. naive_solver.
  - congruence.
  - done.
  - apply sorted_strict; [rewrite Hsort; apply sort_slice_sorted, priority_less_weak|]. by rewrite Hperm.
  - by rewrite Hperm.
  - rewrite Hperm. clear -H2. induction H2 as [|rr r rrs rls Hrr _ IH]; constructor; [|done].
    by apply compileRule_sound in Hrr as [? _].
  - rewrite Hperm, Hlim, <- (Forall2_length _ _ _ H2). done.
Qed.
End compiled.

(** ** The hash forgets order *)

(** [sort.Strings]: byte-wise comparison is a total order, so a sorted copy depends only on the elements. *)
Lemma str_lt_cons c d s t :
  str_lt (String c s) (String d t) = (byte_val c <? byte_val d) || (byte_val c =? byte_val d) && str_lt s t.
Proof.
  unfold str_lt, String.ltb. cbn [String.compare]. unfold Ascii.compare, byte_val.
  destruct (N.compare_spec (N_of_ascii c) (N_of_ascii d)) as [E|E|E].
  - rewrite E, Z.ltb_irrefl, Z.eqb_refl. done.
  - rewrite (proj2 (Z.ltb_lt _ _)) by lia. done.
  - rewrite (proj2 (Z.ltb_ge _ _)) by lia. rewrite (proj2 (Z.eqb_neq _ _)) by lia. done.
Qed.
Lemma str_lt_weak : StrictWeak str_lt.
Proof.
  split.
  - induction x as [|c x IH]; intros [|d y]; try done. rewrite !str_lt_cons. intros [?|?]%orb_true_iff; bprop.
    + rewrite (proj2 (Z.ltb_ge _ _)), (proj2 (Z.eqb_neq _ _)) by lia. done.
    + rewrite IH by done. rewrite (proj2 (Z.ltb_ge _ _)) by lia. by rewrite andb_false_r.
  - induction x as [|c x IH]; intros [|d y] [|e z]; try done. rewrite !str_lt_cons.
    intros [H1 H2]%orb_false_iff [H3 H4]%orb_false_iff. bprop. apply orb_false_iff. split; [apply Z.ltb_ge; lia|]. apply andb_false_iff.
    destruct (byte_val e =? byte_val c) eqn:E; [right|by left]. bprop.
    assert (byte_val d = byte_val c) as Hd by lia. assert (byte_val e = byte_val d) as He by lia.
    rewrite Hd, Z.eqb_refl in H2. rewrite He, Z.eqb_refl in H4. eauto.
Qed.
Lemma str_lt_total x y : str_lt x y = false → str_lt y x = false → x = y.
Proof.
  revert y. induction x as [|c x IH]; intros [|d y]; try done. rewrite !str_lt_cons.
  intros [H1 H2]%orb_false_iff [H3 H4]%orb_false_iff. bprop. assert (byte_val c = byte_val d) as E by lia.
  rewrite E, Z.eqb_refl in H2, H4. f_equal; [by apply byte_val_inj|by apply IH].
Qed.

Section hash.
Context `{TimeData, Sha256, SortSlice}.

Lemma sortedCopy_perm l l' : l ≡ₚ l' → sortedCopy l = sortedCopy l'.
Proof.
  intros Hp. apply (StronglySorted_unique_strong (λ x y, str_lt y x = false)).
  - intros x y _ _ H1' H2'. by apply str_lt_total.
  - apply sort_slice_sorted, str_lt_weak.
  - apply sort_slice_sorted, str_lt_weak.
  - unfold sortedCopy. by rewrite !sort_slice_perm.
Qed.

(** Two documents that differ in the order of rules, of the conditions of a rule and of the values of a condition. *)
Definition cond_equiv (c d : rawCondition) : Prop := ∃ vs, vs ≡ₚ rc_Values c ∧ d = c <| rc_Values := vs |>.
Definition rule_equiv (r q : rawRule) : Prop :=
  ∃ cs cs', cs ≡ₚ rr_Conditions r ∧ Forall2 cond_equiv cs cs' ∧ q = r <| rr_Conditions := cs' |>.
Definition doc_equiv (a b : rawSnapshot) : Prop :=
  ∃ rs rs', rs ≡ₚ rw_Rules a ∧ Forall2 rule_equiv rs rs' ∧ b = a <| rw_Rules := rs' |>.

Lemma cond_key_equiv c d : cond_equiv c d → canonicalCondKey c = canonicalCondKey d.
Proof. intros (vs & Hp & ->). unfold canonicalCondKey. cbn. by rewrite (sortedCopy_perm _ _ Hp). Qed.

Lemma rule_key_equiv r q a reason rem o : rule_equiv r q → canonicalRuleKey r a reason rem o = canonicalRuleKey q a reason rem o.
Proof.
  intros (cs & cs' & Hp & Hc & ->). unfold canonicalRuleKey.
  assert (sortedCopy (map canonicalCondKey (rr_Conditions r)) = sortedCopy (map canonicalCondKey cs')) as E.
  { rewrite (sortedCopy_perm _ (map canonicalCondKey cs)); [|by apply Permutation_map, Permutation_sym].
    f_equal. clear Hp. induction Hc as [|c d cs cs' Hcd _ IH]; simpl; [done|]. by rewrite (cond_key_equiv c d), IH. }
  rewrite E. reflexivity.
Qed.

Lemma computeHash_keys s s' :
  sn_schemaVersion s = sn_schemaVersion s' → sn_capability s = sn_capability s' → sn_revision s = sn_revision s' →
  sn_defaultAction s = sn_defaultAction s' → rl_rawKey <$> sn_rules s = rl_rawKey <$> sn_rules s' → computeHash s = computeHash s'.
Proof.
  assert (∀ l, map (λ r, seg (rl_rawKey r)) l = map seg (rl_rawKey <$> l)) as Hm.
  { intros l. induction l as [|r l IH]; simpl; [done|]. by rewrite IH. }
  unfold computeHash. rewrite !Hm. intros -> -> -> -> ->. reflexivity.
Qed.

(** *** Compiling in another order *)

#[local] Arguments assoc : simpl never.
#[local] Arguments boundSet : simpl never.
#[local] Arguments resourceAttrField : simpl never.

Lemma bound_values_ok vs lim X :
  (∃ Y, bound_values vs lim X = inr Y) ↔ Forall (λ v, v ≠ "" ∧ Z.of_nat (String.length v) ≤ MaxStringBytes lim) vs.
Proof.
  revert X. induction vs as [|v vs IH]; intros X; simpl; [split; [constructor|eexists; done]|].
  rewrite Forall_cons, <- (IH ({[v]} ∪ X)). destruct (v =? "")%string eqn:E1; [|case_if]; bprop.
  - split; [by intros [? ?]|naive_solver].
  - split; [by intros [? ?]|]. intros [[_ ?] _]. lia.
  - naive_solver.
Qed.
Lemma boundSet_perm vs vs' lim X : vs' ≡ₚ vs → boundSet vs lim = inr X → ∃ Y, boundSet vs' lim = inr Y.
Proof.
  unfold boundSet. intros Hp Hb. rewrite (Permutation_length Hp). case_if; [done|]. case_if; [done|].
  apply bound_values_ok. rewrite Hp. apply bound_values_ok with (X := ∅). eauto.
Qed.

Lemma cond_holds_equiv c d i : cond_equiv c d → cond_holds c i ↔ cond_holds d i.
Proof.
  intros (vs & Hp & ->). unfold cond_holds, string_holds, string_test, string_get. cbn.
  destruct (assoc (rc_Field c) fieldKinds) as [[]|]; try done; by setoid_rewrite Hp.
Qed.

(** The same value for the condition, as far as a tuple can tell. *)
Definition same_cond (c d : compiledCond) : Prop := ∀ i, cc_match c i = cc_match d i.
Lemma same_cond_intro rc rd lim c d :
  cond_equiv rc rd → compileCondition rc lim = inr c → compileCondition rd lim = inr d → same_cond c d.
Proof.
  intros He Hc Hd i. destruct (compileCondition_spec _ _ _ i Hc) as [[b Eb] Hb].
  destruct (compileCondition_spec _ _ _ i Hd) as [[b' Eb'] Hb']. rewrite Eb, Eb' in *. f_equal.
  pose proof (cond_holds_equiv rc rd i He). destruct b, b'; naive_solver.
Qed.

Lemma compiled_values {A B} vs vs' lim (k : gset string → result A) (k' : gset string → result B) a :
  vs' ≡ₚ vs → (∀ X, ∃ b, k' X = inr b) → (boundSet vs lim ≫= k) = inr a → ∃ b, (boundSet vs' lim ≫= k') = inr b.
Proof.
  intros Hp Hk (X & Hb & _)%result_bind_inr. destruct (boundSet_perm _ _ _ _ Hp Hb) as [Y ->]. apply Hk.
Qed.
Lemma compileCondition_equiv rc rd lim c :
  cond_equiv rc rd → compileCondition rc lim = inr c → ∃ d, compileCondition rd lim = inr d ∧ same_cond c d.
Proof.
  intros He Hc. assert (∃ d, compileCondition rd lim = inr d) as [d Hd].
  2:{ exists d. split; [done|]. by eapply same_cond_intro. }
  destruct He as (vs & Hp & ->).
  assert (∀ id key e, compileStringCond rc lim id key = inr e → ∃ d, compileStringCond (rc <| rc_Values := vs |>) lim id key = inr d) as Hs.
  { intros id key e. unfold compileStringCond. cbn. repeat case_if; eauto using compiled_values; naive_solver. }
  assert (∀ id e, compileSetCond rc lim id = inr e → ∃ d, compileSetCond (rc <| rc_Values := vs |>) lim id = inr d) as Ht.
  { intros id e. unfold compileSetCond. cbn. repeat case_if; eauto using compiled_values; naive_solver. }
  revert Hc. unfold compileCondition. cbn.
  destruct (assoc (rc_Field rc) fieldKinds) as [[]|]; [by eauto..|]. destruct (resourceAttrField (rc_Field rc)); eauto.
Qed.

Lemma compile_conditions_ok rcs lim cs :
  Forall2 (λ rc c, compileCondition rc lim = inr c) rcs cs → compile_conditions rcs lim = inr cs.
Proof. induction 1 as [|rc c rcs cs Hc _ IH]; simpl; [done|]. by rewrite Hc, IH. Qed.

Definition conditions_hold (r : Rule) (i : DecisionInput) : Prop := Forall (λ c, cc_match c i = Some true) (rl_conditions r).

(** The same rule but for the order its conditions are tried in. *)
Record same_rule (r q : Rule) : Prop := {
  sr_id : rl_id r = rl_id q; sr_priority : rl_priority r = rl_priority q; sr_enabled : rl_enabled r = rl_enabled q;
  sr_action : rl_action r = rl_action q; sr_reason : rl_reason r = rl_reason q;
  sr_remediation : rl_remediation r = rl_remediation q; sr_obligations : rl_obligations r = rl_obligations q;
  sr_expiry : rl_expiryUnix r = rl_expiryUnix q; sr_destructive : rl_allowDestructive r = rl_allowDestructive q;
  sr_key : rl_rawKey r = rl_rawKey q; sr_conditions i : conditions_hold r i ↔ conditions_hold q i;
}.

Lemma conditions_equiv rcs rcs' lim cs :
  Forall2 cond_equiv rcs rcs' → Forall2 (λ rc c, compileCondition rc lim = inr c) rcs cs →
  ∃ cs', Forall2 (λ rc c, compileCondition rc lim = inr c) rcs' cs' ∧ Forall2 same_cond cs cs'.
Proof.
  intros He. revert cs. induction He as [|rc rc' rcs rcs' Hrc _ IH]; intros cs Hc; inversion Hc as [|? c ? cs0 Hc1 Hc2]; subst.
  - exists []. split; constructor.
  - destruct (compileCondition_equiv _ _ _ _ Hrc Hc1) as (d & Hd & Hs). destruct (IH _ Hc2) as (ds & Hds & Hss).
    exists (d :: ds). split; by constructor.
Qed.

Lemma compileRule_equiv rr rr' capNS lim r :
  rule_equiv rr rr' → compileRule rr capNS lim = inr r → ∃ q, compileRule rr' capNS lim = inr q ∧ same_rule r q.
Proof.
  intros He Hr. pose proof (λ a b c o, rule_key_equiv rr rr' a b c o He) as Hkey. destruct He as (cs & cs' & Hp & Hc & ->).
  unfold compileRule in *. apply result_bind_inr in Hr as ([[a reason] rem] & Hh & Hr).
  assert (compileRuleHeader (rr <| rr_Conditions := cs' |>) capNS lim = inr (a, reason, rem)) as -> by done.
  destruct (Z.of_nat (length (rr_Conditions rr)) >? MaxConditions lim) eqn:El; [done|].
  apply result_bind_inr in Hr as (conds & Hb & Hr). cbn [mbind result_bind].
  replace (length (rr_Conditions (rr <| rr_Conditions := cs' |>))) with (length (rr_Conditions rr))
    by (cbn; rewrite <- (Forall2_length _ _ _ Hc); symmetry; by apply Permutation_length). rewrite El.
  apply compile_conditions_spec in Hb. destruct (Permutation_Forall2 (Permutation_sym Hp) Hb) as (k & Hk & Hcs).
  destruct (conditions_equiv _ _ _ _ Hc Hcs) as (k' & Hk' & Hsame).
  change (rr_Conditions (rr <| rr_Conditions := cs' |>)) with cs'. rewrite (compile_conditions_ok _ _ _ Hk'). cbn [mbind result_bind].
  change (rr_Obligations (rr <| rr_Conditions := cs' |>)) with (rr_Obligations rr).
  change (rr_AllowDestructive (rr <| rr_Conditions := cs' |>)) with (rr_AllowDestructive rr).
  destruct (_ >? MaxObligations lim); [done|]. destruct (_ && negb (a =? ActionAllowForSession)); [done|].
  apply result_bind_inr in Hr as ([] & -> & [= <-]). cbn [mbind result_bind].
  eexists. split; [reflexivity|]. split; try reflexivity; [apply Hkey|].
  intros i. unfold conditions_hold. cbn [rl_conditions]. rewrite Hk. clear -Hsame.
  induction Hsame as [|c d k k' Hcd _ IH]; [done|]. by rewrite !Forall_cons, IH, (Hcd i).
Qed.

Lemma compile_rules_ok rrs capNS lim ids pris rs :
  Forall2 (λ rr r, compileRule rr capNS lim = inr r) rrs rs → NoDup (rl_id <$> rs) → NoDup (rl_priority <$> rs) →
  (∀ r, r ∈ rs → rl_id r ∉ ids ∧ rl_priority r ∉ pris) → compile_rules_from rrs capNS lim ids pris = inr rs.
Proof.
  intros Hf. revert ids pris. induction Hf as [|rr r rrs rs Hr _ IH]; intros ids pris Hi Hp Hn; simpl; [done|].
  rewrite Hr. cbn [mbind result_bind]. apply NoDup_cons in Hi as [Hi1 Hi2], Hp as [Hp1 Hp2].
  destruct (Hn r) as [Ha Hb]; [constructor|]. rewrite !bool_decide_eq_false_2 by done. rewrite IH; [done..|].
  intros q Hq. destruct (Hn q) as [Ha' Hb']; [by constructor|]. rewrite !not_elem_of_union, !not_elem_of_singleton.
  split; (split; [|done]); intros E.
  - apply Hi1. rewrite <- E. by apply list_elem_of_fmap_2.
  - apply Hp1. rewrite <- E. by apply list_elem_of_fmap_2.
Qed.

Lemma rules_equiv rrs rrs' capNS lim rs :
  Forall2 rule_equiv rrs rrs' → Forall2 (λ rr r, compileRule rr capNS lim = inr r) rrs rs →
  ∃ rs', Forall2 (λ rr r, compileRule rr capNS lim = inr r) rrs' rs' ∧ Forall2 same_rule rs rs'.
Proof.
  intros He. revert rs. induction He as [|rr rr' rrs rrs' Hrr _ IH]; intros rs Hc; inversion Hc as [|? r ? rs0 Hr Hrs]; subst.
  - exists []. split; constructor.
  - destruct (compileRule_equiv _ _ _ _ _ Hrr Hr) as (q & Hq & Hs). destruct (IH _ Hrs) as (qs & Hqs & Hss).
    exists (q :: qs). split; by constructor.
Qed.

Lemma same_rules_fmap {A} (f : Rule → A) rs rs' :
  (∀ r q, same_rule r q → f r = f q) → Forall2 same_rule rs rs' → f <$> rs = f <$> rs'.
Proof. intros Hf. induction 1 as [|r q rs rs' Hrq _ IH]; [done|]. by rewrite !fmap_cons, (Hf r q), IH. Qed.

Lemma sorted_priorities (rs : list Rule) :
  StronglySorted (λ a b, rl_priority a < rl_priority b) rs ↔ StronglySorted Z.lt (rl_priority <$> rs).
Proof.
  induction rs as [|r rs IH]; [split; constructor|]. rewrite fmap_cons.
  split; intros [Hs Hr]%StronglySorted_inv; (constructor; [tauto|]); [by apply Forall_fmap|].
  rewrite Forall_fmap in Hr. exact Hr.
Qed.

Lemma compile_document_equiv a b meta meta' lim s :
  doc_equiv a b → compile_document a meta lim = inr s →
  ∃ s', compile_document b meta' lim = inr s' ∧ sn_hash s' = sn_hash s ∧ sn_capability s' = sn_capability s ∧
    sn_revision s' = sn_revision s ∧ Forall2 same_rule (sn_rules s) (sn_rules s').
Proof.
  intros (l & l' & Hp & He & ->) Hs. pose proof (compile_document_ok _ _ _ _ Hs) as Hok.
  pose proof (compile_document_inv _ _ _ _ Hs) as (rules & Hcap & Hr & Hsort & Hrev & _ & Hsv & Hdef & Hlim & Hlen & Hhash).
  apply compile_rules_spec in Hr as (H2 & Hi & Hpr & _).
  destruct (Permutation_Forall2 (Permutation_sym Hp) H2) as (k & Hk & Hlk). destruct (rules_equiv _ _ _ _ _ He Hlk) as (k' & Hk' & Hsame).
  assert (compileRules l' (sn_capability s) lim = inr k') as Hc'.
  { apply compile_rules_ok; [done|..|by intros; split; apply not_elem_of_empty].
    - rewrite <- (same_rules_fmap rl_id k k'), <- Hk; [done|by intros ? ? []|done].
    - rewrite <- (same_rules_fmap rl_priority k k'), <- Hk; [done|by intros ? ? []|done]. }
  assert (compile_document (a <| rw_Rules := l' |>) meta' lim = inr (mkSnap (rw_SchemaVersion a) (sn_capability s) (rw_PolicyRevision a)
    (computeHash (mkSnap (rw_SchemaVersion a) (sn_capability s) (rw_PolicyRevision a) "" (rw_Description a) (sort_slice priority_less k') ActionDeny lim meta'))
    (rw_Description a) (sort_slice priority_less k') ActionDeny lim meta')) as Hd.
  { unfold compile_document in Hs |- *. returned Hs. change (rw_Capability (a <| rw_Rules := l' |>)) with (rw_Capability a).
    change (rw_SchemaVersion (a <| rw_Rules := l' |>)) with (rw_SchemaVersion a). rewrite G, Hcap.
    rewrite Hcap in Hs. returned Hs. change (rw_PolicyRevision (a <| rw_Rules := l' |>)) with (rw_PolicyRevision a).
    change (rw_DefaultAction (a <| rw_Rules := l' |>)) with (rw_DefaultAction a). rewrite G0, G1.
    change (rw_Rules (a <| rw_Rules := l' |>)) with l'. rewrite <- (Forall2_length _ _ _ He), (Permutation_length Hp), G2, Hc'.
    reflexivity. }
  eexists. split; [exact Hd|]. cbn [sn_hash sn_capability sn_revision sn_rules].
  assert (Forall2 same_rule (sn_rules s) (sort_slice priority_less k')) as Hss; [|split_and!; [|done|congruence|done]].
  2:{ rewrite Hhash. apply computeHash_keys; cbn; [congruence..|]. symmetry. apply same_rules_fmap; [by intros ? ? []|done]. }
  apply compile_document_ok in Hd. pose proof (so_sorted _ Hok) as Hs1. pose proof (so_sorted _ Hd) as Hs2. cbn [sn_rules] in Hs2.
  destruct (Permutation_Forall2 (l1 := k) (l1' := sn_rules s) (l2 := k') (P := same_rule)) as (m & Hm & Hsm); [|done|].
  { rewrite Hsort, sort_slice_perm. done. }
  assert (m = sort_slice priority_less k') as <-; [|done].
  assert (StronglySorted (λ a b, rl_priority a < rl_priority b) m) as Hms.
  { apply sorted_priorities. rewrite <- (same_rules_fmap rl_priority (sn_rules s) m); [|by intros ? ? []|done]. by apply sorted_priorities. }
  eapply StronglySorted_unique_strong; [|done|done|by rewrite sort_slice_perm, Hm]. simpl. intros x y _ _ ??. lia.
Qed.

(** C29: whatever compiles denies by default, holds rules in strictly ascending priority with distinct identifiers, and every
    rule keeps the obligation matrix: grants are bounded, bound and revocable, a credential rides only an allow-class
    Gateway rule, and a permit for a destructive operation is bounded and audited. *)
Theorem compiled_snapshot_ok `{DocDecoder} raw meta lim s : Compile raw meta lim = inr s → snapshot_ok s.
Proof. unfold Compile. intros (rs & _ & Hs)%result_bind_inr. by eapply compile_document_ok. Qed.
End hash.

(** ** Witnesses and the collision *)

(** A digest to evaluate with. *)
Definition flat_digest : Sha256.
Proof. refine {| sha256_hex _ := String.concat "" (replicate 64 "a") |}. intros s. reflexivity. Defined.

Definition tenant_rule (id : string) (pri : Z) (tenants : list string) : rawRule :=
  mkRawRule id pri None [mkRawCond "principal.tenant" opOneOf "" tenants "" ""; mkRawCond "tool.name" opPrefix "list_" [] "" ""]
    "ALLOW" "MCP.POLICY.RESOURCE_SCOPE" "none" None "" 0 false.
Definition wipe_rule : rawRule :=
  mkRawRule "R9" 90 None [mkRawCond "operation.class" opExact "destructive" [] "" ""] "ALLOW_ONCE" "MCP.POLICY.RESOURCE_SCOPE" "none"
    (Some (mkRawObl "audit" "" "" "" "" true None None false false false)) "" 0 true.
Definition gateway_doc (rules : list rawRule) : rawSnapshot := mkRawSnap 1 "gateway" 7 "DENY" "" rules.
Definition fixed_decoder (rs : rawSnapshot) : DocDecoder := {| canonical_Decode _ _ := None; json_Decode _ := Some (rs, false) |}.
Definition no_meta : CreatedMeta := mkMeta "" "" "".

Lemma compiled_snapshot_ok_witness :
  ∃ s, Compile (H := two_dates) (H0 := flat_digest) (H1 := stable_sort) (H2 := fixed_decoder (gateway_doc [wipe_rule; tenant_rule "R1" 10 ["acme"]]))
         "{}" no_meta DefaultLimits = inr s ∧ rl_id <$> sn_rules s = ["R1"; "R9"] ∧ snapshot_ok s.
Proof.
  eexists. split; [vm_compute; reflexivity|]. split; [reflexivity|].
  apply (compiled_snapshot_ok (H := two_dates) (H0 := flat_digest) (H1 := stable_sort)
    (H2 := fixed_decoder (gateway_doc [wipe_rule; tenant_rule "R1" 10 ["acme"]])) "{}" no_meta DefaultLimits).
  vm_compute. reflexivity.
Defined.
