(* ===== verification/McpEngine.v ===== *)
(** * MCP policy: evaluation, publication

    [internal/mcp/policy]: [decision.go], [trace.go], [engine.go], [store.go].

    [Evaluate] is a pure function of a snapshot and a tuple, either of which may be nil.  The trace
    builder is threaded through it.  [None] stands for a call that does not return; a snapshot the
    compiler made never gives it ([evaluate_decides]).  The store's mutex is the atomicity of
    [Publish].

    - [permit_sound]: an allow-class decision implies every guard of the engine and the first enabled
      rule that matches; for a destructive operation the permit is bounded and audited.
    - [evaluate_decides]: evaluation returns, and denies whenever it reports an error.
    - [override_dominates]: no set of rules changes what a hard override decides.
    - [order_immaterial]: documents that differ in order decide alike.
    - [hash_collision]: documents with one hash that decide differently.
    - [trace_loses_default]: bounds the validator accepts under which the trace has no room for the last entry.
    - [publish_history]: over any calls of [Publish] the current revision only grows, and only a caller that knew it wins. *)

From S2P Require Import Prelude GoStrings McpInput McpCondition McpCompile.

(** ** Decisions and traces *)

Record Decision := mkDecision {
  d_Action : Action; d_Effect : Effect; d_Reason : ReasonCode; d_Remediation : Remediation; d_MatchedRule : string;
  d_Capability : Capability; d_PolicyRevision : Z; d_CatalogRevision : Z; d_EventClass : EventClass;
  d_Obligations : Obligations; d_HardOverride : bool;
}.
#[global] Instance Decision_eta : Eta Decision := λ d,
  mkDecision (d_Action d) (d_Effect d) (d_Reason d) (d_Remediation d) (d_MatchedRule d) (d_Capability d) (d_PolicyRevision d)
    (d_CatalogRevision d) (d_EventClass d) (d_Obligations d) (d_HardOverride d).

Inductive TraceKind := TraceHardOverride | TraceRuleConsidered | TraceWinner | TraceDefaultDeny | TraceInputInvalid.
Record TraceEntry := mkEntry {
  te_Kind : TraceKind; te_RuleID : string; te_ConditionID : string; te_Matched : bool; te_Label : string;
}.
Record ExplainTrace := mkTrace {
  tr_Entries : list TraceEntry; tr_Winner : string; tr_Decisive : string; tr_Final : ReasonCode; tr_Action : Action;
  tr_Capability : Capability; tr_PolicyRevision : Z; tr_CatalogRevision : Z;
}.

Record traceBuilder := mkTB { tb_limit : Z; tb_entries : list TraceEntry; tb_truncated : bool }.
Definition newTraceBuilder (limit : Z) : traceBuilder := mkTB (if limit <? 1 then 1 else limit) [] false.
Definition tb_add (tb : traceBuilder) (kind : TraceKind) (ruleID condID : string) (matched : bool) (label : string) : traceBuilder :=
  if tb_limit tb <=? Z.of_nat (length (tb_entries tb)) then mkTB (tb_limit tb) (tb_entries tb) true
  else mkTB (tb_limit tb) (tb_entries tb ++ [mkEntry kind ruleID condID matched label])%list (tb_truncated tb).
Definition assemble (tb : traceBuilder) (d : Decision) (winner decisive : string) : ExplainTrace :=
  mkTrace (tb_entries tb) winner decisive (d_Reason d) (d_Action d) (d_Capability d) (d_PolicyRevision d) (d_CatalogRevision d).
Definition lastCondition (tb : traceBuilder) : string := from_option te_ConditionID "" (last (tb_entries tb)).
Definition finish (tb : traceBuilder) (d : Decision) (decisive : string) : ExplainTrace := assemble tb d "" decisive.
Definition finishOverride (tb : traceBuilder) (d : Decision) : ExplainTrace := assemble tb d "" (lastCondition tb).
Definition finishWinner (tb : traceBuilder) (d : Decision) (winner : string) : ExplainTrace := assemble tb d winner winner.

(** ** The engine *)

Definition decisionFromRule (r : Rule) (i : DecisionInput) (s : Snapshot) : Decision :=
  mkDecision (rl_action r) (Action_Effect (rl_action r)) (rl_reason r) (rl_remediation r) (rl_id r) (in_Capability i)
    (sn_revision s) (in_CatalogRevision i) (eventClassFor (rl_action r)) (rl_obligations r) false.
Definition decisionFromReason (a : Action) (reason : ReasonCode) (rem : Remediation) (i : DecisionInput) (s : Snapshot)
    (rule : string) (obl : Obligations) : Decision :=
  mkDecision a (Action_Effect a) reason rem rule (in_Capability i) (sn_revision s) (in_CatalogRevision i) (eventClassFor a) obl false.
Definition hard (a : Action) (reason : ReasonCode) (rem : Remediation) (i : DecisionInput) (s : option Snapshot) : Decision :=
  mkDecision a (Action_Effect a) reason rem "" (in_Capability i) (from_option sn_revision 0 s) (in_CatalogRevision i)
    (eventClassFor a) no_obligations true.
Definition failClosed (a : Action) (reason : ReasonCode) (rem : Remediation) (i : DecisionInput) (rev : Z) : Decision :=
  mkDecision a (Action_Effect a) reason rem "" (in_Capability i) rev (in_CatalogRevision i) (eventClassFor a) no_obligations
    (negb (reason =? ReasonNoMatchDefaultDeny)%string).

Definition writeOrHigher (c : OperationClass) : bool := (c =? OpWrite) || (c =? OpDestructive) || (c =? OpControl).
Definition isMutationClass (c : OperationClass) : bool := (c =? OpWrite) || (c =? OpDestructive) || (c =? OpControl).

(** A firing override is its decision and the trace it left. *)
Definition fire (tb : traceBuilder) (field label : string) (d : Decision) : option (Decision * traceBuilder) :=
  Some (d, tb_add tb TraceHardOverride "" field false label).

Definition subjectOverride (s : Snapshot) (i : DecisionInput) (tb : traceBuilder) : option (Decision * traceBuilder) :=
  let tenant := pr_Tenant (in_Principal i) in
  let class := op_Class (in_Operation i) in
  if match in_Resource i with
     | Some r => negb (rs_Tenant r =? "")%string && negb (rs_Tenant r =? tenant)%string
     | None => false
     end
  then fire tb "resource.tenant" "cross-tenant resource reference"
         (hard ActionDeny ReasonTenantMismatch RemediationUseCorrectResource i (Some s))
  else if writeOrHigher class && (pr_Assurance (in_Principal i) =? AssuranceUnknown)
  then fire tb "principal.assurance" "ambiguous identity on a write/high-risk operation"
         (hard ActionDeny ReasonIdentityAmbiguous RemediationIncreaseAssurance i (Some s))
  else if (in_Capability i =? CapManagement) && isMutationClass class
  then fire tb "operation.class" "Management mutation/activation is not permitted in V1"
         (hard ActionDeny ReasonManagementMutationNotApproved RemediationNotPermitted i (Some s))
  else None.

Definition serverOverride (s : Snapshot) (i : DecisionInput) (tb : traceBuilder) (sv : Server) : option (Decision * traceBuilder) :=
  if (sv_Owner sv =? "")%string || negb (sv_Owner sv =? pr_Tenant (in_Principal i))%string
  then fire tb "server.owner" "authenticated tenant does not own the addressed server"
         (hard ActionDeny ReasonTenantMismatch RemediationUseCorrectResource i (Some s))
  else if (sv_Verification sv =? ServerIdentityMismatch)
          || match in_Tool i with Some t => tl_Drift t =? DriftIdentityChange | None => false end
  then fire tb "server.verification" "server identity changed"
         (hard ActionDeny ReasonServerIdentityChanged RemediationVerifyServerIdentity i (Some s))
  else if negb (sv_Enabled sv)
  then fire tb "server.enabled" "server is disabled"
         (hard ActionDeny ReasonServerDisabled RemediationVerifyServerIdentity i (Some s))
  else None.
Definition toolOverride (s : Snapshot) (i : DecisionInput) (tb : traceBuilder) (t : Tool) : option (Decision * traceBuilder) :=
  if (tl_Drift t =? DriftUnknownTool) || (tl_Disposition t =? DispQuarantined)
  then fire tb "tool.drift" "unknown or quarantined tool"
         (hard ActionQuarantine ReasonToolUnknown RemediationReviewToolDrift i (Some s))
  else if tl_Drift t =? DriftPrivilegeExpansion
  then fire tb "tool.drift" "privilege expansion"
         (hard ActionQuarantine ReasonToolPrivilegeExpansion RemediationReviewToolDrift i (Some s))
  else None.
Definition serverToolOverride (s : Snapshot) (i : DecisionInput) (tb : traceBuilder) : option (Decision * traceBuilder) :=
  match (sv ← in_Server i; serverOverride s i tb sv) with
  | Some r => Some r
  | None => t ← in_Tool i; toolOverride s i tb t
  end.
Definition hardOverride (s : Snapshot) (i : DecisionInput) (tb : traceBuilder) : option (Decision * traceBuilder) :=
  match subjectOverride s i tb with
  | Some r => Some r
  | None => serverToolOverride s i tb
  end.

(** [(Decision, ExplainTrace, error)]. *)
Definition verdict : Type := Decision * ExplainTrace * option Error.

Fixpoint match_rules (rs : list Rule) (s : Snapshot) (i : DecisionInput) (tb : traceBuilder) : option verdict :=
  match rs with
  | [] =>
      let tb := tb_add tb TraceDefaultDeny "" "" false "no enabled rule matched" in
      let d := (failClosed ActionDeny ReasonNoMatchDefaultDeny RemediationContactPolicyOwner i (sn_revision s))
                 <| d_Capability := in_Capability i |> <| d_CatalogRevision := in_CatalogRevision i |> in
      Some (d, finish tb d "default_deny", None)
  | r :: rs =>
      if negb (rl_enabled r) then match_rules rs s i tb else
      '(ok, failCond) ← rule_matches r i;
      if negb ok then match_rules rs s i (tb_add tb TraceRuleConsidered (rl_id r) failCond false "condition did not match") else
      if (op_Class (in_Operation i) =? OpDestructive) && IsAllowClass (rl_action r) && negb (rl_allowDestructive r) then
        let tb := tb_add tb TraceWinner (rl_id r) "" true "matched but not authorized for a destructive operation" in
        let d := decisionFromReason ActionRequireApproval ReasonApprovalRequired RemediationRequestApproval i s (rl_id r)
                   (no_obligations <| ob_Approval := true |>) in
        Some (d, finishWinner tb d (rl_id r), None)
      else
        let tb := tb_add tb TraceWinner (rl_id r) "" true "all conditions matched" in
        let d := decisionFromRule r i s in
        Some (d, finishWinner tb d (rl_id r), None)
  end.
Definition matchRules (s : Snapshot) (i : DecisionInput) (tb : traceBuilder) : option verdict := match_rules (sn_rules s) s i tb.

Definition Evaluate (lim : Limits) (snap : option Snapshot) (inp : option DecisionInput) : option verdict :=
  let tb := newTraceBuilder (MaxTraceEntries lim) in
  match inp with
  | None =>
      let d := hard ActionDeny ReasonInvalidInput RemediationNotPermitted zero_input None in
      let tb := tb_add tb TraceInputInvalid "" "" false "nil decision input" in
      Some (d, finishOverride tb d, Some (mkErr ReasonPolicyInputInvalid "policy.input" "nil decision input"))
  | Some i =>
      match snap with
      | None =>
          let d := failClosed ActionDeny ReasonSnapshotUnavailable RemediationWaitForPolicyPublication i 0 in
          Some (d, finish tb d "", Some (mkErr ReasonPolicySnapshotInvalid "policy.evaluate" "no policy snapshot"))
      | Some s =>
          if negb (in_Capability i =? sn_capability s) then
            let d := hard ActionDeny ReasonCapabilityMismatch RemediationNotPermitted i snap in
            let tb := tb_add tb TraceHardOverride "" "capability" false "input/snapshot capability mismatch" in
            Some (d, finishOverride tb d,
                  Some (mkErr ReasonPolicyNamespaceMismatch "policy.evaluate" "input capability does not match the snapshot"))
          else
            match Validate i lim with
            | inl e =>
                let d := hard ActionDeny ReasonInvalidInput RemediationNotPermitted i snap in
                let tb := tb_add tb TraceInputInvalid "" "" false "decision tuple failed structural validation" in
                Some (d, finishOverride tb d, Some e)
            | inr _ =>
                match hardOverride s i tb with
                | Some (d, tb) => Some (d, finishOverride tb d, None)
                | None => matchRules s i tb
                end
            end
      end
  end.

(** ** The store of the current snapshot ([store.go]) *)

Record Store := mkStore { st_capability : Capability; st_cur : option Snapshot }.
Definition NewStore (c : Capability) : Store := mkStore c None.
Definition CurrentRevision (st : Store) : Z := from_option sn_revision 0 (st_cur st).
Definition storeErr (r : Reason) (detail : string) : option Error := Some (mkErr r "policy.store" detail).
Definition Publish (st : Store) (base : Z) (snap : option Snapshot) : Store * option Error :=
  match snap with
  | None => (st, storeErr ReasonPolicySnapshotInvalid "cannot publish a nil snapshot")
  | Some s =>
      if negb (sn_capability s =? st_capability st)
      then (st, storeErr ReasonPolicyNamespaceMismatch "snapshot capability does not match the store") else
      let curRev := CurrentRevision st in
      if negb (base =? curRev) then (st, storeErr ReasonPolicyStaleRevision "publish base revision is stale") else
      if sn_revision s <=? curRev
      then (st, storeErr ReasonPolicyStaleRevision "new revision must exceed the current revision") else
      (mkStore (st_capability st) (Some s), None)
  end.

(** ** Matching *)

(** A rule that is enabled, not expired and whose conditions all match. *)
Definition rule_applies (i : DecisionInput) (r : Rule) : Prop :=
  rl_enabled r = true ∧ (rl_expiryUnix r = 0 ∨ Unix (in_EvalTime i) < rl_expiryUnix r) ∧ conditions_hold r i.

Definition total_rule (r : Rule) : Prop := Forall (λ c, ∀ i, is_Some (cc_match c i)) (rl_conditions r).

Lemma match_conditions_spec cs i :
  Forall (λ c, ∀ i, is_Some (cc_match c i)) cs →
  ∃ b id, match_conditions cs i = Some (b, id) ∧ (b = true ↔ Forall (λ c, cc_match c i = Some true) cs).
Proof.
  induction 1 as [|c cs Hc _ (b & id & Hm & Hb)]; simpl; [exists true, ""; split; [done|split; constructor]|].
  destruct (Hc i) as [[] E]; rewrite E; simpl.
  - exists b, id. split; [done|]. rewrite Forall_cons. tauto.
  - exists false, (cc_id c). split; [done|]. rewrite Forall_cons, E. naive_solver.
Qed.

Lemma rule_matches_spec r i :
  total_rule r → rl_enabled r = true → ∃ b id, rule_matches r i = Some (b, id) ∧ (b = true ↔ rule_applies i r).
Proof.
  intros Ht He. unfold rule_matches, rule_applies. rewrite He.
  destruct (match_conditions_spec (rl_conditions r) i Ht) as (b & id & Hm & Hb).
  destruct (negb (rl_expiryUnix r =? 0) && (rl_expiryUnix r <=? Unix (in_EvalTime i))) eqn:E.
  - exists false, "expiry". split; [done|]. bprop. split; [done|]. intros (_ & [?|?] & _); [done|lia].
  - exists b, id. split; [done|]. unfold conditions_hold. rewrite Hb. split; [|tauto]. intros Hc. split_and!; [done| |done].
    apply andb_false_iff in E as [?|?]; bprop; auto.
Qed.

(** What a rule that applies decides. *)
Definition rule_decision (r : Rule) (i : DecisionInput) (s : Snapshot) : Decision :=
  if (op_Class (in_Operation i) =? OpDestructive) && IsAllowClass (rl_action r) && negb (rl_allowDestructive r)
  then decisionFromReason ActionRequireApproval ReasonApprovalRequired RemediationRequestApproval i s (rl_id r)
         (no_obligations <| ob_Approval := true |>)
  else decisionFromRule r i s.
Definition default_deny (i : DecisionInput) (s : Snapshot) : Decision :=
  failClosed ActionDeny ReasonNoMatchDefaultDeny RemediationContactPolicyOwner i (sn_revision s).

(** The first rule that applies, or none. *)
Definition first_match (i : DecisionInput) (rs : list Rule) (o : option Rule) : Prop :=
  match o with
  | Some r => ∃ pre post, rs = (pre ++ r :: post)%list ∧ Forall (λ q, ¬ rule_applies i q) pre ∧ rule_applies i r
  | None => Forall (λ q, ¬ rule_applies i q) rs
  end.
Definition matched_decision (i : DecisionInput) (s : Snapshot) (o : option Rule) : Decision :=
  match o with Some r => rule_decision r i s | None => default_deny i s end.

Lemma first_match_skip i r rs o : ¬ rule_applies i r → first_match i rs o → first_match i (r :: rs) o.
Proof.
  intros Hr. destruct o as [q|]; simpl; [|by constructor]. intros (pre & post & -> & Hp & Hq).
  exists (r :: pre), post. split; [done|]. split; [by constructor|done].
Qed.

Lemma match_rules_spec rs s i tb :
  Forall total_rule rs →
  ∃ tr o, match_rules rs s i tb = Some (matched_decision i s o, tr, None) ∧ first_match i rs o.
Proof.
  intros Ht. revert tb. induction Ht as [|r rs Hr _ IH]; intros tb; cbn [match_rules].
  { eexists _, None. split; [reflexivity|constructor]. }
  destruct (rl_enabled r) eqn:He; cbn [negb].
  2:{ destruct (IH tb) as (tr & o & -> & Ho). exists tr, o. split; [done|]. apply first_match_skip; [|done].
      intros [? _]. congruence. }
  destruct (rule_matches_spec r i Hr He) as (b & id & -> & Hb). cbn [mbind option_bind]. destruct b; cbn [negb].
  2:{ destruct (IH (tb_add tb TraceRuleConsidered (rl_id r) id false "condition did not match")) as (tr & o & -> & Ho).
      exists tr, o. split; [done|]. apply first_match_skip; [|done]. rewrite <- Hb. done. }
  assert (first_match i (r :: rs) (Some r)) as Hf by (exists [], rs; split; [done|]; split; [constructor|by apply Hb]).
  unfold matched_decision, rule_decision.
  destruct (_ && _ && _) eqn:E; eexists _, (Some r); rewrite E; (split; [reflexivity|done]).
Qed.

Lemma first_match_unique i rs o o' : first_match i rs o → first_match i rs o' → o = o'.
Proof.
  revert o o'. induction rs as [|r rs IH]; intros o o' Ho Ho'.
  - destruct o as [?|]; [destruct Ho as (pre & post & E & _); by destruct pre|].
    destruct o' as [?|]; [destruct Ho' as (pre & post & E & _); by destruct pre|done].
  - assert (∀ o, first_match i (r :: rs) o → o = Some r ∧ rule_applies i r ∨ ¬ rule_applies i r ∧ first_match i rs o) as Hcase.
    { intros [q|] H'; simpl in H'; [|by apply Forall_cons in H' as [? ?]; right].
      destruct H' as ([|p pre] & post & [= <- ->] & Hp & Hq); [by left|]. apply Forall_cons in Hp as [? ?]. right. split; [done|].
      simpl. eauto. }
    destruct (Hcase _ Ho) as [[-> Ha]|[Hna Hf]], (Hcase _ Ho') as [[-> Ha']|[Hna' Hf']]; try done. eauto.
Qed.

(** ** The guards *)

(** What the hard overrides leave through. *)
Record guarded (i : DecisionInput) : Prop := {
  g_resource r : in_Resource i = Some r → rs_Tenant r = "" ∨ rs_Tenant r = pr_Tenant (in_Principal i);
  g_identity : writeOrHigher (op_Class (in_Operation i)) = true → pr_Assurance (in_Principal i) ≠ AssuranceUnknown;
  g_management : in_Capability i = CapManagement → isMutationClass (op_Class (in_Operation i)) = false;
  g_server sv : in_Server i = Some sv →
    sv_Owner sv ≠ "" ∧ sv_Owner sv = pr_Tenant (in_Principal i) ∧ sv_Verification sv ≠ ServerIdentityMismatch ∧ sv_Enabled sv = true;
  g_tool t : in_Tool i = Some t →
    tl_Disposition t ≠ DispQuarantined ∧ tl_Drift t ≠ DriftUnknownTool ∧ tl_Drift t ≠ DriftPrivilegeExpansion ∧
    (is_Some (in_Server i) → tl_Drift t ≠ DriftIdentityChange);
}.

Lemma subjectOverride_None s i tb :
  subjectOverride s i tb = None ↔
  (∀ r, in_Resource i = Some r → rs_Tenant r = "" ∨ rs_Tenant r = pr_Tenant (in_Principal i)) ∧
  (writeOrHigher (op_Class (in_Operation i)) = true → pr_Assurance (in_Principal i) ≠ AssuranceUnknown) ∧
  (in_Capability i = CapManagement → isMutationClass (op_Class (in_Operation i)) = false).
Proof.
  unfold subjectOverride, fire.
  assert ((∀ r, in_Resource i = Some r → rs_Tenant r = "" ∨ rs_Tenant r = pr_Tenant (in_Principal i)) ↔
    match in_Resource i with
    | Some r => negb (rs_Tenant r =? "")%string && negb (rs_Tenant r =? pr_Tenant (in_Principal i))%string | None => false end = false) as ->.
  { destruct (in_Resource i) as [r|]; [|naive_solver]. rewrite andb_false_iff, !negb_false_iff, !String.eqb_eq. naive_solver. }
  destruct (match in_Resource i with Some _ => _ | None => _ end); [naive_solver|].
  destruct (writeOrHigher _) eqn:Ew, (pr_Assurance _ =? _) eqn:Ea, (in_Capability i =? _) eqn:Ec, (isMutationClass _) eqn:Em; simpl; bprop; naive_solver.
Qed.

Lemma serverOverride_None s i tb sv :
  serverOverride s i tb sv = None ↔
  sv_Owner sv ≠ "" ∧ sv_Owner sv = pr_Tenant (in_Principal i) ∧ sv_Verification sv ≠ ServerIdentityMismatch ∧ sv_Enabled sv = true ∧
  ∀ t, in_Tool i = Some t → tl_Drift t ≠ DriftIdentityChange.
Proof.
  unfold serverOverride, fire.
  assert ((∀ t, in_Tool i = Some t → tl_Drift t ≠ DriftIdentityChange) ↔
    match in_Tool i with Some t => tl_Drift t =? DriftIdentityChange | None => false end = false) as ->.
  { destruct (in_Tool i) as [t|]; [|naive_solver]. rewrite Z.eqb_neq. naive_solver. }
  destruct (sv_Owner sv =? "")%string eqn:E1, (sv_Owner sv =? pr_Tenant _)%string eqn:E2, (sv_Verification sv =? _) eqn:E3,
    (match in_Tool i with Some _ => _ | None => _ end), (sv_Enabled sv); simpl; bprop; naive_solver.
Qed.

Lemma toolOverride_None s i tb t :
  toolOverride s i tb t = None ↔
  tl_Disposition t ≠ DispQuarantined ∧ tl_Drift t ≠ DriftUnknownTool ∧ tl_Drift t ≠ DriftPrivilegeExpansion.
Proof.
  unfold toolOverride, fire.
  destruct (tl_Drift t =? DriftUnknownTool) eqn:E1, (tl_Disposition t =? DispQuarantined) eqn:E2,
    (tl_Drift t =? DriftPrivilegeExpansion) eqn:E3; simpl; bprop; naive_solver.
Qed.

Lemma hardOverride_None s i tb : hardOverride s i tb = None ↔ guarded i.
Proof.
  unfold hardOverride, serverToolOverride. split.
  - intros H. destruct (subjectOverride s i tb) eqn:Es; [done|]. apply subjectOverride_None in Es as (H1 & H2 & H3).
    destruct (sv ← in_Server i; serverOverride s i tb sv) as [|] eqn:Ev; [done|]. split; [done..| |].
    + intros sv Esv. rewrite Esv in Ev. apply serverOverride_None in Ev as (? & ? & ? & ? & _). auto.
    + intros t Et. rewrite Et in H. apply toolOverride_None in H as (? & ? & ?). split_and!; [done..|].
      intros [sv Esv]. rewrite Esv in Ev. apply serverOverride_None in Ev as (_ & _ & _ & _ & Hd). auto.
  - intros [H1 H2 H3 H4 H5]. rewrite (proj2 (subjectOverride_None s i tb)) by auto.
    assert ((sv ← in_Server i; serverOverride s i tb sv) = None) as ->.
    { destruct (in_Server i) as [sv|] eqn:Es; [|done]. apply serverOverride_None. destruct (H4 sv) as (? & ? & ? & ?); [done|].
      split_and!; [done..|]. intros t Et. by apply (H5 t Et). }
    destruct (in_Tool i) as [t|] eqn:Et; [|done]. apply toolOverride_None. by destruct (H5 t) as (? & ? & ? & _).
Qed.

(** An override is a hard deny or quarantine, and reads of the snapshot only its revision. *)
Lemma hardOverride_shape s i tb d tb' :
  hardOverride s i tb = Some (d, tb') → d_HardOverride d = true ∧ IsAllowClass (d_Action d) = false.
Proof.
  unfold hardOverride, subjectOverride, serverToolOverride, serverOverride, toolOverride, fire. intros H.
  destruct (in_Server i), (in_Tool i); cbn [mbind option_bind] in H; repeat case_if; by simplify_eq.
Qed.
Lemma hardOverride_revision s s' i tb : sn_revision s' = sn_revision s → hardOverride s' i tb = hardOverride s i tb.
Proof.
  intros E. unfold hardOverride, subjectOverride, serverToolOverride, serverOverride, toolOverride, hard. cbn [from_option].
  by rewrite E.
Qed.

(** ** Evaluation *)

(** The four ways an evaluation of a snapshot and a tuple can end. *)
Inductive outcome (lim : Limits) (s : Snapshot) (i : DecisionInput) : Decision → option Error → Prop :=
  | wrong_namespace :
      in_Capability i ≠ sn_capability s →
      outcome lim s i (hard ActionDeny ReasonCapabilityMismatch RemediationNotPermitted i (Some s))
        (Some (mkErr ReasonPolicyNamespaceMismatch "policy.evaluate" "input capability does not match the snapshot"))
  | invalid_tuple e :
      in_Capability i = sn_capability s → Validate i lim = inl e →
      outcome lim s i (hard ActionDeny ReasonInvalidInput RemediationNotPermitted i (Some s)) (Some e)
  | overridden d :
      in_Capability i = sn_capability s → Validate i lim = inr () → ¬ guarded i →
      d_HardOverride d = true → IsAllowClass (d_Action d) = false → outcome lim s i d None
  | decided_by_rules o :
      in_Capability i = sn_capability s → Validate i lim = inr () → guarded i → first_match i (sn_rules s) o →
      outcome lim s i (matched_decision i s o) None.

Lemma snapshot_total s : snapshot_ok s → Forall total_rule (sn_rules s).
Proof. intros [_ _ _ _ _ Hr _]. eapply Forall_impl; [done|]. by intros r []. Qed.

Lemma evaluate_outcome lim s i :
  snapshot_ok s → ∃ d tr err, Evaluate lim (Some s) (Some i) = Some (d, tr, err) ∧ outcome lim s i d err.
Proof.
  intros Hok%snapshot_total. unfold Evaluate. destruct (in_Capability i =? sn_capability s) eqn:Ec; bprop; cbn [negb].
  2:{ do 3 eexists. split; [reflexivity|]. by constructor. }
  destruct (Validate i lim) as [e|[]] eqn:Ev.
  { do 3 eexists. split; [reflexivity|]. by constructor. }
  destruct (hardOverride s i _) as [[d tb]|] eqn:Eo.
  - do 3 eexists. split; [reflexivity|]. destruct (hardOverride_shape _ _ _ _ _ Eo). constructor; [done..| |done|done].
    intros Hg. apply (hardOverride_None s i (newTraceBuilder (MaxTraceEntries lim))) in Hg. congruence.
  - unfold matchRules. destruct (match_rules_spec (sn_rules s) s i (newTraceBuilder (MaxTraceEntries lim)) Hok) as (tr & o & -> & Ho).
    do 3 eexists. split; [reflexivity|]. constructor; [done..| |done]. by eapply hardOverride_None.
Qed.

Lemma matched_decision_allow i s o :
  IsAllowClass (d_Action (matched_decision i s o)) = true →
  ∃ r, o = Some r ∧ matched_decision i s o = decisionFromRule r i s ∧ IsAllowClass (rl_action r) = true ∧
    (op_Class (in_Operation i) = OpDestructive → rl_allowDestructive r = true).
Proof.
  destruct o as [r|]; [|done]. simpl. unfold rule_decision. destruct (_ && _ && _) eqn:E; [done|]. intros Ha. exists r.
  split_and!; try done. intros Hd. rewrite Hd, Z.eqb_refl in E. simpl in E. change (d_Action (decisionFromRule r i s)) with (rl_action r) in Ha.
  rewrite Ha in E. by destruct (rl_allowDestructive r).
Qed.

(** A destructive permit of a compiled rule is bounded in calls or time, and audited. *)
Definition bounded_and_audited (o : Obligations) : Prop :=
  ob_Logging o = LogAudit ∧
  (ob_OnceCall o = true ∨ ∃ g, ob_Session o = Some g ∧ 0 < sg_TTLSeconds g ∧ 0 < sg_MaxCalls g).

(** What stands behind a permit for tuple [i]. *)
Record permitted (s : Snapshot) (i : DecisionInput) (d : Decision) : Prop := {
  pm_namespace : in_Capability i = sn_capability s;
  pm_tuple : valid_tuple i;
  pm_resource r : in_Resource i = Some r → rs_Tenant r = "" ∨ rs_Tenant r = pr_Tenant (in_Principal i);
  pm_identity : writeOrHigher (op_Class (in_Operation i)) = true →
    pr_Assurance (in_Principal i) ≠ AssuranceUnknown;
  pm_management : in_Capability i = CapManagement → op_Class (in_Operation i) = OpRead ∨ op_Class (in_Operation i) = OpDiscovery;
  pm_gateway : in_Capability i = CapGateway → ∃ sv, in_Server i = Some sv ∧ sv_Owner sv = pr_Tenant (in_Principal i) ∧
    sv_Verification sv = ServerVerified ∧ sv_Enabled sv = true;
  pm_tool t : in_Tool i = Some t → tl_Disposition t ≠ DispQuarantined ∧ tl_FingerprintHash t ≠ "" ∧
    (tl_Drift t = DriftNoMaterialChange ∨ tl_Drift t = DriftSafeNarrowing ∨ tl_Drift t = DriftSemanticDrift);
  pm_rule : ∃ pre r post, sn_rules s = (pre ++ r :: post)%list ∧ Forall (λ q, ¬ rule_applies i q) pre ∧ rule_applies i r ∧
    d = decisionFromRule r i s;
  pm_destructive : op_Class (in_Operation i) = OpDestructive → bounded_and_audited (d_Obligations d);
}.

Lemma guarded_tool i t :
  namespace_refs i → guarded i → in_Tool i = Some t →
  tl_Disposition t ≠ DispQuarantined ∧ tl_FingerprintHash t ≠ "" ∧
  (tl_Drift t = DriftNoMaterialChange ∨ tl_Drift t = DriftSafeNarrowing ∨ tl_Drift t = DriftSemanticDrift).
Proof.
  intros [(_ & _ & Hn)|(_ & sv & Hs & _ & _ & Hb)] [_ _ _ _ Ht] Et; [congruence|]. rewrite Et in Hb.
  destruct (Ht t Et) as (Hq & Hu & Hp & Hi), Hb as (_ & _ & _ & Hd & Hf).
  assert (tl_Drift t ≠ DriftIdentityChange) as Hic by (apply Hi; by eexists).
  split_and!; [done|by destruct Hf as [?|[?|?]]|]. destruct Hd as [Hd|[? _]]; [|done].
  unfold DriftNoMaterialChange, DriftUnknownTool, DriftPrivilegeExpansion, DriftIdentityChange, DriftSafeNarrowing, DriftSemanticDrift in *. lia.
Qed.

Lemma outcome_permitted lim s i d err :
  snapshot_ok s → outcome lim s i d err → IsAllowClass (d_Action d) = true → err = None ∧ permitted s i d.
Proof.
  intros Hok [| | |o Hc Hv Hg Hf] Ha; [done|done|congruence|]. split; [done|].
  apply matched_decision_allow in Ha as (r & -> & -> & Hal & Hd). destruct Hf as (pre & post & Hrs & Hpre & Hr).
  apply Validate_sound in Hv. pose proof (vt_refs _ Hv) as Hrefs. split.
  - done.
  - done.
  - apply (g_resource _ Hg).
  - apply (g_identity _ Hg).
  - intros Hm. pose proof (g_management _ Hg Hm) as Hmu. pose proof (vt_class _ Hv) as Hcl. unfold isMutationClass in Hmu. bprop.
    unfold OpRead, OpWrite, OpDestructive, OpDiscovery, OpControl in *. lia.
  - intros Hgw. destruct Hrefs as [(E & _)|(_ & sv & Es & _ & Hver & _)]; [rewrite Hgw in E; discriminate E|].
    exists sv. destruct (g_server _ Hg sv Es) as (_ & ? & ? & ?). split_and!; [done..| |done]. by destruct Hver.
  - intros t Et. by apply (guarded_tool i t).
  - eauto 10.
  - intros Hde. specialize (Hd Hde). assert (rule_ok (sn_capability s) r) as Hro.
    { eapply Forall_forall; [apply (so_rules _ Hok)|]. rewrite Hrs. set_solver. }
    pose proof (ro_obligations _ _ Hro) as Ho. destruct (oo_destructive _ _ _ _ Ho Hd Hal) as [Hb Hl]. split; [done|].
    destruct Hb as [?|[g Hgr]]; [by left|]. right. exists g. split; [done|]. by apply (oo_session _ _ _ _ Ho).
Qed.

(** *** The trace *)

Definition tb_ok (tb : traceBuilder) : Prop := Z.of_nat (length (tb_entries tb)) ≤ tb_limit tb.
Lemma tb_add_ok tb k r c m l : tb_ok tb → tb_ok (tb_add tb k r c m l) ∧ tb_limit (tb_add tb k r c m l) = tb_limit tb.
Proof.
  unfold tb_ok, tb_add. intros Ht. destruct (tb_limit tb <=? _) eqn:E; bprop; simpl; [auto|]. rewrite length_app. simpl. split; [lia|done].
Qed.
Lemma match_rules_bounded rs s i tb v :
  tb_ok tb → match_rules rs s i tb = Some v → Z.of_nat (length (tr_Entries v.1.2)) ≤ tb_limit tb.
Proof.
  revert tb. induction rs as [|r rs IH]; intros tb Ht; cbn [match_rules].
  { intros [= <-]. simpl. by destruct (tb_add_ok tb TraceDefaultDeny "" "" false "no enabled rule matched" Ht) as [? <-]. }
  case_if; [auto|]. intros ([b id] & _ & H)%bind_Some. case_if.
  { destruct (tb_add_ok tb TraceRuleConsidered (rl_id r) id false "condition did not match" Ht) as [Hk <-]. by apply IH. }
  case_if; injection H as <-; simpl;
    match goal with |- context [tb_add tb ?k ?r ?c ?m ?l] => by destruct (tb_add_ok tb k r c m l Ht) as [? <-] end.
Qed.

Lemma evaluate_trace_bounded lim snap inp d tr err :
  Evaluate lim snap inp = Some (d, tr, err) → Z.of_nat (length (tr_Entries tr)) ≤ Z.max 1 (MaxTraceEntries lim).
Proof.
  assert (tb_ok (newTraceBuilder (MaxTraceEntries lim)) ∧
    tb_limit (newTraceBuilder (MaxTraceEntries lim)) = Z.max 1 (MaxTraceEntries lim)) as [Ht Hl].
  { unfold tb_ok, newTraceBuilder. destruct (MaxTraceEntries lim <? 1) eqn:E; bprop; cbn; lia. }
  unfold Evaluate. set (tb := newTraceBuilder (MaxTraceEntries lim)) in *. intros H.
  assert (∀ k r c m l, Z.of_nat (length (tb_entries (tb_add tb k r c m l))) ≤ Z.max 1 (MaxTraceEntries lim)) as Hadd.
  { intros k r c m l. destruct (tb_add_ok tb k r c m l Ht) as [Hk Hkl]. unfold tb_ok in Hk. lia. }
  destruct inp as [i|]; [|injection H as <- <- <-; apply Hadd]. destruct snap as [s|]; [|injection H as <- <- <-; simpl; unfold tb_ok in Ht; lia].
  case_if; [injection H as <- <- <-; apply Hadd|]. destruct (Validate i lim); [injection H as <- <- <-; apply Hadd|].
  destruct (hardOverride s i tb) as [[d' tb']|] eqn:Eo.
  - injection H as <- <- <-. cbn [tr_Entries finishOverride assemble].
    unfold hardOverride, subjectOverride, serverToolOverride, serverOverride, toolOverride, fire in Eo.
    destruct (in_Server i), (in_Tool i); cbn [mbind option_bind] in Eo; repeat case_if; simplify_eq; apply Hadd.
  - apply match_rules_bounded in H; [|done]. cbn [fst snd] in H. by rewrite Hl in H.
Qed.

(** *** Rules that differ in the order of their conditions *)

Lemma applies_same i r q : same_rule r q → rule_applies i r ↔ rule_applies i q.
Proof. intros [_ _ He _ _ _ _ Hx _ _ Hc]. unfold rule_applies. by rewrite He, Hx, (Hc i). Qed.

Lemma decision_same i s s' r q : same_rule r q → sn_revision s = sn_revision s' → rule_decision r i s = rule_decision q i s'.
Proof.
  intros [Hi _ _ Ha Hr Hm Ho _ Hd _ _] Es. unfold rule_decision, decisionFromRule, decisionFromReason.
  by rewrite Hi, Ha, Hr, Hm, Ho, Hd, Es.
Qed.

Lemma first_match_same i rs rs' o :
  Forall2 same_rule rs rs' → first_match i rs o →
  ∃ o', first_match i rs' o' ∧ match o, o' with Some r, Some q => same_rule r q | None, None => True | _, _ => False end.
Proof.
  assert (∀ l l', Forall2 same_rule l l' → Forall (λ q, ¬ rule_applies i q) l → Forall (λ q, ¬ rule_applies i q) l') as Hall.
  { induction 1 as [|r q l l' Hrq _ IH]; [done|]. rewrite !Forall_cons, (applies_same i r q Hrq). tauto. }
  intros Hs. destruct o as [r|]; [|intros Hn; exists None; split; [by eapply Hall|done]].
  intros (pre & post & -> & Hpre & Hr). apply Forall2_app_inv_l in Hs as (pre' & rest & Hp & Hrest & ->).
  inversion Hrest as [|? q ? post' Hq _]; subst. exists (Some q). split; [|done]. exists pre', post'. split; [done|].
  split; [by eapply Hall|]. by apply (applies_same i r q).
Qed.

Definition decision_of (v : option verdict) : option (Decision * option Error) := (λ v, (v.1.1, v.2)) <$> v.

Lemma evaluate_same lim s s' i :
  snapshot_ok s → snapshot_ok s' → sn_capability s' = sn_capability s → sn_revision s' = sn_revision s →
  Forall2 same_rule (sn_rules s) (sn_rules s') →
  decision_of (Evaluate lim (Some s') i) = decision_of (Evaluate lim (Some s) i).
Proof.
  intros Hok Hok' Hc Hr Hs. unfold Evaluate. destruct i as [i|]; [|done]. rewrite Hc, (hardOverride_revision s s') by done.
  unfold hard. cbn [from_option]. rewrite Hr. case_if; [done|]. destruct (Validate i lim); [done|].
  destruct (hardOverride s i _) as [[d tb]|]; [done|]. unfold matchRules.
  destruct (match_rules_spec (sn_rules s) s i (newTraceBuilder (MaxTraceEntries lim)) (snapshot_total s Hok)) as (tr & o & -> & Ho).
  destruct (match_rules_spec (sn_rules s') s' i (newTraceBuilder (MaxTraceEntries lim)) (snapshot_total s' Hok')) as (tr' & o' & -> & Ho').
  destruct (first_match_same i _ _ o Hs Ho) as (o2 & Ho2 & Hsame). rewrite (first_match_unique i _ _ _ Ho' Ho2).
  cbn. do 2 f_equal. destruct o as [r|], o2 as [q|]; try done; simpl; [by symmetry; apply decision_same|].
  unfold default_deny. by rewrite Hr.
Qed.

(** *** Publication *)

(** Calls of [Publish] in the order the mutex lets them in; the bases and revisions of those that succeed. *)
Fixpoint publishes (st : Store) (calls : list (Z * option Snapshot)) : Store * list (Z * Z) :=
  match calls with
  | [] => (st, [])
  | (base, snap) :: calls =>
      match Publish st base snap with
      | (st', Some _) => publishes st' calls
      | (st', None) => let '(st'', acc) := publishes st' calls in (st'', (base, CurrentRevision st') :: acc)
      end
  end.

(** Each success names the revision before it as its base, and goes above it. *)
Fixpoint chained (rev : Z) (acc : list (Z * Z)) : Prop :=
  match acc with
  | [] => True
  | (base, new) :: acc => base = rev ∧ rev < new ∧ chained new acc
  end.

Lemma Publish_spec st base snap st' err :
  Publish st base snap = (st', err) →
  match err with
  | Some _ => st' = st
  | None => ∃ s, snap = Some s ∧ st' = mkStore (st_capability st) (Some s) ∧ sn_capability s = st_capability st ∧
              base = CurrentRevision st ∧ CurrentRevision st < sn_revision s
  end.
Proof.
  unfold Publish, storeErr. destruct snap as [s|]; [|by intros E; simplify_eq].
  repeat case_if; intros E; simplify_eq; try done. bprop. eauto 10.
Qed.

Lemma chained_bases rev acc : chained rev acc → Forall (λ b, rev ≤ b) acc.*1 ∧ NoDup acc.*1.
Proof.
  revert rev. induction acc as [|[b n] acc IH]; intros rev; simpl; [split; constructor|]. intros (-> & Hlt & Hc).
  destruct (IH _ Hc) as [Hf Hn]. split; [constructor; [lia|]; eapply Forall_impl; [done|]; simpl; lia|].
  constructor; [|done]. intros Hin. rewrite Forall_forall in Hf. apply Hf in Hin. lia.
Qed.

Lemma publishes_spec st calls :
  let '(st', acc) := publishes st calls in
  st_capability st' = st_capability st ∧ chained (CurrentRevision st) acc ∧
  CurrentRevision st' = default (CurrentRevision st) (last acc.*2) ∧
  ((∀ s, st_cur st = Some s → sn_capability s = st_capability st) → ∀ s, st_cur st' = Some s → sn_capability s = st_capability st).
Proof.
  revert st. induction calls as [|[base snap] calls IH]; intros st; cbn [publishes]; [done|].
  destruct (Publish st base snap) as [st1 err] eqn:Ep. apply Publish_spec in Ep. destruct err as [e|]; [subst; apply IH|].
  destruct Ep as (s & -> & -> & Hs & -> & Hlt). specialize (IH (mkStore (st_capability st) (Some s))).
  destruct (publishes _ calls) as [st' acc]. destruct IH as (Hc & Hch & Hcur & Hn). cbn [st_capability] in *.
  split_and!; [done|by split_and!| |].
  - rewrite Hcur, fmap_cons, last_cons. by destruct (last acc.*2).
  - intros _. apply Hn. by intros ? [= <-].
Qed.

Section engine.
Context `{TimeData, Sha256, SortSlice, DocDecoder}.

(** A snapshot handed to the engine: none, or one the compiler made. *)
Definition published (snap : option Snapshot) : Prop :=
  ∀ s, snap = Some s → ∃ raw meta lim, Compile raw meta lim = inr s.

Lemma published_ok s : published (Some s) → snapshot_ok s.
Proof.
  intros Hp. destruct (Hp s eq_refl) as (raw & meta & lim & Hc). unfold Compile in Hc.
  apply result_bind_inr in Hc as (rs & _ & Hs). by eapply compile_document_ok.
Qed.

(** C3: an allow-class decision on any tuple implies a compiled snapshot of the tuple's namespace, a valid tuple, no reference
    to another tenant's resource, a known identity for a write, no Management mutation, an enabled verified server owned by
    the tenant, a fingerprinted tool without quarantine, expansion or identity drift, and a rule that applies with none
    before it applying; a destructive permit is bounded and audited. *)
Theorem permit_sound lim snap inp d tr err :
  published snap → Evaluate lim snap inp = Some (d, tr, err) → IsAllowClass (d_Action d) = true →
  ∃ s i, snap = Some s ∧ inp = Some i ∧ err = None ∧ permitted s i d.
Proof.
  intros Hp He Ha. destruct inp as [i|]; [|by injection He as <- <- <-]. destruct snap as [s|]; [|by injection He as <- <- <-].
  exists s, i. destruct (evaluate_outcome lim s i (published_ok s Hp)) as (d' & tr' & err' & He' & Ho). rewrite He in He'. injection He' as <- <- <-.
  destruct (outcome_permitted lim s i d err (published_ok s Hp) Ho Ha). auto.
Qed.

(** C21: evaluation always returns, with a trace within its bound; a nil tuple, a nil snapshot, a foreign namespace and an
    invalid tuple are the only errors and all of them deny; otherwise an override decides, or the first rule that applies,
    or the default deny. *)
Theorem evaluate_decides lim snap inp :
  published snap →
  ∃ d tr err, Evaluate lim snap inp = Some (d, tr, err) ∧ Z.of_nat (length (tr_Entries tr)) ≤ Z.max 1 (MaxTraceEntries lim) ∧
    (err ≠ None → d_Action d = ActionDeny ∧ d_Effect d = EffectDenied ∧ d_HardOverride d = true) ∧
    match snap, inp with
    | Some s, Some i => outcome lim s i d err
    | _, _ => err ≠ None
    end.
Proof.
  intros Hp.
  assert (∃ d tr err, Evaluate lim snap inp = Some (d, tr, err) ∧
    (err ≠ None → d_Action d = ActionDeny ∧ d_Effect d = EffectDenied ∧ d_HardOverride d = true) ∧
    match snap, inp with Some s, Some i => outcome lim s i d err | _, _ => err ≠ None end) as (d & tr & err & He & Hd & Ho).
  - destruct inp as [i|]; [|do 3 eexists; split; [reflexivity|]; by destruct snap].
    destruct snap as [s|]; [|do 3 eexists; split; [reflexivity|]; done].
    destruct (evaluate_outcome lim s i (published_ok s Hp)) as (d & tr & err & He & Ho). exists d, tr, err. split_and!; [done| |done].
    intros Hne. by destruct Ho.
  - exists d, tr, err. split_and!; try done. by eapply evaluate_trace_bounded.
Qed.

(** A decision made by a hard override, or by a namespace or validity check, is the same, trace included, under every other
    set of rules of that namespace and revision: no rule can weaken it. *)
Theorem override_dominates lim s s' i d tr err :
  Evaluate lim (Some s) (Some i) = Some (d, tr, err) → d_HardOverride d = true →
  sn_capability s' = sn_capability s → sn_revision s' = sn_revision s →
  Evaluate lim (Some s') (Some i) = Some (d, tr, err).
Proof.
  intros He Hh Hc Hr. unfold Evaluate in *. rewrite Hc. case_if; [rewrite <- He; unfold hard; simpl; by rewrite Hr|].
  destruct (Validate i lim); [rewrite <- He; unfold hard; simpl; by rewrite Hr|]. rewrite (hardOverride_revision s s') by done.
  destruct (hardOverride s i _) as [[d' tb']|]; [done|]. exfalso. unfold matchRules in He.
  assert (∀ rs tb v, match_rules rs s i tb = Some v → d_HardOverride v.1.1 = false) as Hno.
  { clear. intros rs. induction rs as [|r rs IH]; intros tb v; cbn [match_rules]; [by intros [= <-]|].
    case_if; [apply IH|]. intros ([b id] & _ & H)%bind_Some. case_if; [by eapply IH|]. case_if; by injection H as <-. }
  apply Hno in He. simpl in He. congruence.
Qed.

(** Documents that differ only in the order of their rules, of the conditions of a rule and of the values of a condition
    compile alike, have one hash, and decide every tuple alike. *)
Theorem order_immaterial a b meta meta' lim s :
  doc_equiv a b → compile_document a meta lim = inr s →
  ∃ s', compile_document b meta' lim = inr s' ∧ sn_hash s' = sn_hash s ∧
    ∀ lim' inp, decision_of (Evaluate lim' (Some s') inp) = decision_of (Evaluate lim' (Some s) inp).
Proof.
  intros He Hs. destruct (compile_document_equiv a b meta meta' lim s He Hs) as (s' & Hs' & Hh & Hc & Hr & Hsame).
  exists s'. split_and!; [done..|]. intros lim' inp. apply evaluate_same; eauto using compile_document_ok.
Qed.
End engine.

(** Whatever calls of [Publish] race, the snapshot in the store is of the store's namespace, the revisions that were
    current form a strictly ascending chain, and of the callers that name one revision as their base at most one succeeds. *)
Theorem publish_history capability calls :
  let '(st, acc) := publishes (NewStore capability) calls in
  (∀ s, st_cur st = Some s → sn_capability s = capability) ∧ chained 0 acc ∧
  CurrentRevision st = default 0 (last acc.*2) ∧ NoDup acc.*1.
Proof.
  pose proof (publishes_spec (NewStore capability) calls) as Hp. destruct (publishes _ calls) as [st acc].
  destruct Hp as (_ & Hch & Hcur & Hn). split_and!; [by apply Hn|done..|]. by apply chained_bases in Hch as [_ ?].
Qed.

(** ** How much of the default deny the trace shows *)

Definition has_default (es : list TraceEntry) : Prop := ∃ e, e ∈ es ∧ te_Kind e = TraceDefaultDeny.
Definition enabled_rules (rs : list Rule) : nat := length (filter (λ r, rl_enabled r = true) rs).

Lemma tb_add_default tb k r c m l :
  k ≠ TraceDefaultDeny → has_default (tb_entries (tb_add tb k r c m l)) ↔ has_default (tb_entries tb).
Proof.
  intros Hk. unfold tb_add, has_default. case_if; [done|]. simpl. split.
  - intros (e & [He| ->%list_elem_of_singleton]%elem_of_app & Hd); [eauto|done].
  - intros (e & He & Hd). exists e. rewrite elem_of_app. auto.
Qed.

Lemma match_rules_default rs s i tb d tr err :
  Forall total_rule rs → Forall (λ q, ¬ rule_applies i q) rs → tb_ok tb → ¬ has_default (tb_entries tb) →
  match_rules rs s i tb = Some (d, tr, err) →
  has_default (tr_Entries tr) ↔ Z.of_nat (length (tb_entries tb) + enabled_rules rs) < tb_limit tb.
Proof.
  intros Ht. revert tb. induction Ht as [|r rs Hr _ IH]; intros tb Hn Hok Hno; cbn [match_rules].
  { intros [= _ <- _]. unfold enabled_rules. cbn [filter list_filter length tr_Entries finish assemble]. rewrite Nat.add_0_r.
    unfold tb_add. case_if; bprop; simpl; [split; [done|lia]|]. split; [done|]. intros _.
    eexists. rewrite elem_of_app, list_elem_of_singleton. split; [by right|done]. }
  apply Forall_cons in Hn as [Hnr Hn]. unfold enabled_rules. rewrite filter_cons. destruct (rl_enabled r) eqn:He; cbn [negb].
  2:{ rewrite decide_False by done. by apply IH. }
  rewrite decide_True by done. destruct (rule_matches_spec r i Hr He) as (b & id & -> & Hb). cbn [mbind option_bind].
  destruct b; [by destruct Hnr; apply Hb|]. cbn [negb]. intros Hm.
  destruct (tb_add_ok tb TraceRuleConsidered (rl_id r) id false "condition did not match" Hok) as [Hok' Hlim].
  apply IH in Hm; [|done|done|by rewrite tb_add_default]. rewrite Hm, Hlim. cbn [length].
  fold (enabled_rules rs). unfold tb_ok in Hok. unfold tb_add. destruct (tb_limit tb <=? _) eqn:E; bprop; simpl; rewrite ?length_app; simpl; lia.
Qed.

(** The trace of a default deny ends with its entry exactly when the bound leaves room after one entry per enabled rule. *)
Theorem trace_default_entry lim s i d tr err :
  snapshot_ok s → in_Capability i = sn_capability s → Validate i lim = inr () → guarded i →
  Forall (λ q, ¬ rule_applies i q) (sn_rules s) → Evaluate lim (Some s) (Some i) = Some (d, tr, err) →
  has_default (tr_Entries tr) ↔ Z.of_nat (enabled_rules (sn_rules s)) < Z.max 1 (MaxTraceEntries lim).
Proof.
  intros Hok Hc Hv Hg Hn. unfold Evaluate. rewrite Hc, Z.eqb_refl, Hv. cbn [negb].
  rewrite (proj2 (hardOverride_None s i (newTraceBuilder (MaxTraceEntries lim))) Hg). intros Hm.
  apply match_rules_default in Hm; [|by apply snapshot_total|done| |by intros (e & ?%elem_of_nil & _)].
  - rewrite Hm. unfold newTraceBuilder. destruct (MaxTraceEntries lim <? 1) eqn:E; bprop; cbn; lia.
  - unfold tb_ok, newTraceBuilder. destruct (MaxTraceEntries lim <? 1) eqn:E; bprop; cbn; lia.
Qed.

(** ** Witnesses *)

Definition call (tenant tool : string) (class : OperationClass) (drift : DriftClass) : DecisionInput :=
  mkInput CapGateway 7 3 0 0 (1767225600 * Second) (mkPrincipal SubjectHuman "alice" tenant [] AssuranceHigh SenderBindingDPoP "idp")
    None (mkClient "c1" "" "" TrustHigh CapGateway) (Some (mkServer "srv" tenant "prod" true ServerVerified))
    (Some (mkTool tool "srv" "abcd" DispUsable drift DestinationApproved PowerWrite Reversible "" "" "" []))
    (mkOperation "tools/call" class NamespaceGatewayTool tool "policy_engine") None (mkDestination DestinationApproved "" DestinationApproved)
    None (mkSession "" AssuranceHigh SenderBindingDPoP false false false) (mkInspection false false false false false false false false).
Definition sample_rules : list rawRule := [wipe_rule; tenant_rule "R1" 10 ["acme"; "umbrella"]].
Notation sample_compile := (Compile (H := two_dates) (H0 := flat_digest) (H1 := stable_sort) (H2 := fixed_decoder (gateway_doc sample_rules))) (only parsing).
Notation sample_published := (published (H := two_dates) (H0 := flat_digest) (H1 := stable_sort) (H2 := fixed_decoder (gateway_doc sample_rules))) (only parsing).

Lemma permit_sound_witness :
  ∃ s d tr, sample_compile "{}" no_meta DefaultLimits = inr s ∧
    Evaluate DefaultLimits (Some s) (Some (call "acme" "wipe" OpDestructive DriftNoMaterialChange)) = Some (d, tr, None) ∧
    d_Action d = ActionAllowOnce ∧ permitted s (call "acme" "wipe" OpDestructive DriftNoMaterialChange) d.
Proof.
  do 3 eexists. split; [vm_compute; reflexivity|]. split; [vm_compute; reflexivity|]. split; [reflexivity|].
  match goal with |- permitted ?s ?i ?d =>
    let v := eval vm_compute in (Evaluate DefaultLimits (Some s) (Some i)) in
    match v with Some (_, ?tr, _) =>
      destruct (permit_sound (H := two_dates) (H0 := flat_digest) (H1 := stable_sort) (H2 := fixed_decoder (gateway_doc sample_rules))
        DefaultLimits (Some s) (Some i) d tr None) as (s0 & i0 & Es & Ei & _ & Hp); [| | |injection Es as <-; injection Ei as <-; exact Hp]
    end
  end.
  - intros s [= <-]. exists "{}", no_meta, DefaultLimits. vm_compute. reflexivity.
  - vm_compute. reflexivity.
  - reflexivity.
Defined.

Lemma evaluate_decides_witness :
  ∃ s, sample_compile "{}" no_meta DefaultLimits = inr s ∧
    ∃ d tr err, Evaluate DefaultLimits (Some s) (Some (call "hooli" "list_all" OpRead DriftNoMaterialChange)) = Some (d, tr, err) ∧
      outcome DefaultLimits s (call "hooli" "list_all" OpRead DriftNoMaterialChange) d err.
Proof.
  eexists. split; [vm_compute; reflexivity|].
  match goal with |- ∃ d tr err, Evaluate _ (Some ?s) (Some ?i) = _ ∧ _ =>
    destruct (evaluate_decides (H := two_dates) (H0 := flat_digest) (H1 := stable_sort) (H2 := fixed_decoder (gateway_doc sample_rules))
      DefaultLimits (Some s) (Some i)) as (d & tr & err & He & _ & _ & Ho); [|exists d, tr, err; split; [exact He|exact Ho]]
  end.
  intros s [= <-]. exists "{}", no_meta, DefaultLimits. vm_compute. reflexivity.
Defined.

Lemma override_dominates_witness :
  ∃ s d tr, sample_compile "{}" no_meta DefaultLimits = inr s ∧
    Evaluate DefaultLimits (Some s) (Some (call "acme" "list_all" OpRead DriftPrivilegeExpansion)) = Some (d, tr, None) ∧
    Evaluate DefaultLimits (Some (s <| sn_rules := [] |>)) (Some (call "acme" "list_all" OpRead DriftPrivilegeExpansion)) = Some (d, tr, None).
Proof.
  do 3 eexists. split; [vm_compute; reflexivity|]. split; [vm_compute; reflexivity|].
  match goal with |- Evaluate _ (Some (setf _ ?s)) _ = _ => apply (override_dominates DefaultLimits s) end;
    vm_compute; reflexivity.
Defined.

Lemma order_immaterial_witness :
  let a := gateway_doc [tenant_rule "R1" 10 ["acme"; "umbrella"]; wipe_rule] in
  let b := gateway_doc [wipe_rule; tenant_rule "R1" 10 ["umbrella"; "acme"]] in
  ∃ s s', compile_document (H := two_dates) (H0 := flat_digest) (H1 := stable_sort) a no_meta DefaultLimits = inr s ∧
    compile_document (H := two_dates) (H0 := flat_digest) (H1 := stable_sort) b no_meta DefaultLimits = inr s' ∧
    sn_hash s' = sn_hash s ∧
    ∀ lim' inp, decision_of (Evaluate lim' (Some s') inp) = decision_of (Evaluate lim' (Some s) inp).
Proof.
  intros a b. destruct (compile_document (H := two_dates) (H0 := flat_digest) (H1 := stable_sort) a no_meta DefaultLimits) as [e|s] eqn:E.
  { exfalso. vm_compute in E. discriminate E. }
  exists s. destruct (order_immaterial (H := two_dates) (H0 := flat_digest) (H1 := stable_sort) a b no_meta no_meta DefaultLimits s) as (s' & H').
  - exists [wipe_rule; tenant_rule "R1" 10 ["acme"; "umbrella"]], [wipe_rule; tenant_rule "R1" 10 ["umbrella"; "acme"]].
    split; [apply Permutation_swap|]. split; [|reflexivity]. constructor; [|constructor; [|constructor]].
    + exists (rr_Conditions wipe_rule), (rr_Conditions wipe_rule). split; [done|]. split; [|reflexivity].
      constructor; [|constructor]. exists []. by split.
    + exists (rr_Conditions (tenant_rule "R1" 10 ["acme"; "umbrella"])), (rr_Conditions (tenant_rule "R1" 10 ["umbrella"; "acme"])).
      split; [done|]. split; [|reflexivity]. constructor; [|constructor; [|constructor]].
      * exists ["umbrella"; "acme"]. split; [apply Permutation_swap|reflexivity].
      * exists []. by split.
  - exact E.
  - exists s'. by split.
Defined.

(** The trace bound may equal the rule bound ([LimitConfig.Validate]); then a default deny of a full rulebase has no entry. *)
Definition tight_limits : LimitConfig := mkLimits 4096 1 8 8 64 64 4 4 4 16 1 4 4 4 4.
Theorem trace_loses_default :
  NewLimits tight_limits = inr tight_limits ∧
  ∃ s d tr, compile_document (H := two_dates) (H0 := flat_digest) (H1 := stable_sort) (gateway_doc [tenant_rule "R1" 10 ["acme"]]) no_meta tight_limits = inr s ∧
    Evaluate tight_limits (Some s) (Some (call "hooli" "list_all" OpRead DriftNoMaterialChange)) = Some (d, tr, None) ∧
    d_Reason d = ReasonNoMatchDefaultDeny ∧ te_Kind <$> tr_Entries tr = [TraceRuleConsidered].
Proof.
  split; [reflexivity|]. do 3 eexists. split; [vm_compute; reflexivity|]. split; [vm_compute; reflexivity|]. split; reflexivity.
Qed.

(** The values of a condition are joined with a comma, which a value may contain: the documents that permit the one tenant
    ["acme,umbrella"] and the two tenants ["acme"] and ["umbrella"] have one hash, whatever the digest, and decide differently. *)
Theorem hash_collision `{Sha256} :
  ∃ s s' d d' tr tr',
    compile_document (H := two_dates) (H1 := stable_sort) (gateway_doc [tenant_rule "R1" 10 ["acme,umbrella"]]) no_meta DefaultLimits = inr s ∧
    compile_document (H := two_dates) (H1 := stable_sort) (gateway_doc [tenant_rule "R1" 10 ["acme"; "umbrella"]]) no_meta DefaultLimits = inr s' ∧
    sn_hash s = sn_hash s' ∧
    Evaluate DefaultLimits (Some s) (Some (call "acme" "list_all" OpRead DriftNoMaterialChange)) = Some (d, tr, None) ∧
    Evaluate DefaultLimits (Some s') (Some (call "acme" "list_all" OpRead DriftNoMaterialChange)) = Some (d', tr', None) ∧
    d_Action d = ActionDeny ∧ d_Action d' = ActionAllow.
Proof.
  do 6 eexists. split; [vm_compute; reflexivity|]. split; [vm_compute; reflexivity|]. split; [reflexivity|].
  split; [vm_compute; reflexivity|]. split; [vm_compute; reflexivity|]. split; reflexivity.
Qed.
