(* ===== verification/McpSimulate.v ===== *)
(** * MCP policy: the simulator ([internal/mcp/policy/simulate/simulate.go])

    The simulator runs the engine of [McpEngine] over a corpus and summarises what changes between two
    snapshots.  Its maps of counters are finite maps; the set of affected rules is collected in map order and
    sorted.  [None] stands for an evaluation that does not return.

    - [blast_radius]: on a corpus within the bound the summary is exact: every counter is the number of cases
      it names, the samples are the first changed cases, and the affected rules are those that decided a changed
      case, in order and without repetition.
    - [changed_spec]: a case counts as unchanged exactly when action, reason, rule and the whole obligation agree.
    - [shadow_ignores_obligations]: the side-by-side comparison, unlike the summary, calls a longer session
      grant unchanged. *)

From S2P Require Import Prelude GoStrings McpInput McpCondition McpCompile McpEngine.

(** ** Equality of obligations ([obligation.go]) *)

Definition scalarsEqual (o x : Obligations) : bool :=
  (ob_Logging o =? ob_Logging x) && (ob_Observation o =? ob_Observation x) &&
  (ob_RateLimitProfile o =? ob_RateLimitProfile x)%string && (ob_Destination o =? ob_Destination x) &&
  (ob_CredentialProfile o =? ob_CredentialProfile x)%string && Bool.eqb (ob_OnceCall o) (ob_OnceCall x) &&
  Bool.eqb (ob_Confirmation o) (ob_Confirmation x) && Bool.eqb (ob_Approval o) (ob_Approval x) &&
  Bool.eqb (ob_TicketRequired o) (ob_TicketRequired x).
Definition sessionGrantEqual (a b : option SessionGrant) : bool :=
  match a, b with
  | None, None => true
  | Some a, Some b => bool_decide (a = b)
  | _, _ => false
  end.
Definition redactionReqEqual (a b : option RedactionReq) : bool :=
  match a, b with
  | None, None => true
  | Some a, Some b => bool_decide (a = b)
  | _, _ => false
  end.
Definition Obligations_Equal (o x : Obligations) : bool :=
  scalarsEqual o x && sessionGrantEqual (ob_Session o) (ob_Session x) && redactionReqEqual (ob_Redaction o) (ob_Redaction x).

(** ** The simulator *)

Record Case := mkCase { cs_ID : string; cs_Input : DecisionInput }.
Record CaseResult := mkCaseResult { cres_ID : string; cres_Decision : Decision }.
Record ChangedCase := mkChanged {
  ch_ID : string; ch_OldAction : Action; ch_NewAction : Action; ch_OldReason : ReasonCode; ch_NewReason : ReasonCode;
  ch_OldRule : string; ch_NewRule : string; ch_NewAllowClass : bool;
}.
Record Comparison := mkCmp {
  cmp_Total : Z; cmp_Unchanged : Z; cmp_ActionChanges : Z; cmp_ReasonChanges : Z; cmp_RuleChanges : Z; cmp_ObligationChanges : Z;
  cmp_NewAllow : Z; cmp_NewDeny : Z; cmp_NewQuarantine : Z; cmp_NewApprovalRequired : Z; cmp_AffectedRules : list string;
  cmp_Samples : list ChangedCase; cmp_ByTenant : gmap string Z; cmp_ByServer : gmap string Z; cmp_ByTool : gmap string Z;
}.
#[global] Instance Comparison_eta : Eta Comparison := λ c,
  mkCmp (cmp_Total c) (cmp_Unchanged c) (cmp_ActionChanges c) (cmp_ReasonChanges c) (cmp_RuleChanges c) (cmp_ObligationChanges c)
    (cmp_NewAllow c) (cmp_NewDeny c) (cmp_NewQuarantine c) (cmp_NewApprovalRequired c) (cmp_AffectedRules c) (cmp_Samples c)
    (cmp_ByTenant c) (cmp_ByServer c) (cmp_ByTool c).

(** [d, _, _ := s.engine.Evaluate(snap, &in)]. *)
Definition sim_decision (lim : Limits) (snap : option Snapshot) (i : DecisionInput) : option Decision :=
  (λ v : verdict, v.1.1) <$> Evaluate lim snap (Some i).

Definition Single (lim : Limits) (snap : option Snapshot) (inp : option DecisionInput) : option (Decision * ExplainTrace) :=
  (λ v : verdict, v.1) <$> Evaluate lim snap inp.

Definition simErr {A} (detail : string) : result A := inl (mkErr ReasonPolicyLimitExceeded "policy.simulate" detail).

Fixpoint corpus_loop (lim : Limits) (snap : option Snapshot) (cases : list Case) : option (list CaseResult) :=
  match cases with
  | [] => Some []
  | c :: cases =>
      d ← sim_decision lim snap (cs_Input c); rs ← corpus_loop lim snap cases; Some (mkCaseResult (cs_ID c) d :: rs)
  end.
Definition Corpus (lim : Limits) (snap : option Snapshot) (cases : list Case) : option (result (list CaseResult)) :=
  if Z.of_nat (length cases) >? MaxSimCases lim then Some (simErr "simulator corpus exceeds the case bound")
  else inr <$> corpus_loop lim snap cases.

(** [m[k]++]. *)
Definition bump (k : string) (m : gmap string Z) : gmap string Z := <[k := default 0 (m !! k) + 1]> m.
Definition aggregate (cmp : Comparison) (i : DecisionInput) : Comparison :=
  let tenant := pr_Tenant (in_Principal i) in
  let cmp := if (tenant =? "")%string then cmp else cmp <| cmp_ByTenant := bump tenant (cmp_ByTenant cmp) |> in
  let cmp := match in_Server i with
             | Some s => if (sv_ServerID s =? "")%string then cmp else cmp <| cmp_ByServer := bump (sv_ServerID s) (cmp_ByServer cmp) |>
             | None => cmp
             end in
  match in_Tool i with
  | Some t => if (tl_Name t =? "")%string then cmp else cmp <| cmp_ByTool := bump (tl_Name t) (cmp_ByTool cmp) |>
  | None => cmp
  end.

Definition tallyNewClasses (cmp : Comparison) (oldD newD : Decision) : Comparison * bool :=
  let newAllow := IsAllowClass (d_Action newD) && negb (IsAllowClass (d_Action oldD)) in
  let newly a := (d_Action newD =? a) && negb (d_Action oldD =? a) in
  let cmp := if newAllow then cmp <| cmp_NewAllow := cmp_NewAllow cmp + 1 |> else cmp in
  let cmp := if newly ActionDeny then cmp <| cmp_NewDeny := cmp_NewDeny cmp + 1 |> else cmp in
  let cmp := if newly ActionQuarantine then cmp <| cmp_NewQuarantine := cmp_NewQuarantine cmp + 1 |> else cmp in
  let cmp := if newly ActionRequireApproval then cmp <| cmp_NewApprovalRequired := cmp_NewApprovalRequired cmp + 1 |> else cmp in
  (cmp, newAllow).

Definition mark_rule (rule : string) (affected : gset string) : gset string :=
  if (rule =? "")%string then affected else {[rule]} ∪ affected.

(** The four change counters. *)
Definition tally_changes (cmp : Comparison) (actionChanged reasonChanged ruleChanged oblChanged : bool) : Comparison :=
  let cmp := if actionChanged then cmp <| cmp_ActionChanges := cmp_ActionChanges cmp + 1 |> else cmp in
  let cmp := if reasonChanged then cmp <| cmp_ReasonChanges := cmp_ReasonChanges cmp + 1 |> else cmp in
  let cmp := if ruleChanged then cmp <| cmp_RuleChanges := cmp_RuleChanges cmp + 1 |> else cmp in
  if oblChanged then cmp <| cmp_ObligationChanges := cmp_ObligationChanges cmp + 1 |> else cmp.

Definition tally (lim : Limits) (cmp : Comparison) (c : Case) (oldD newD : Decision) (affected : gset string) : Comparison * gset string :=
  let oblChanged := negb (Obligations_Equal (d_Obligations oldD) (d_Obligations newD)) in
  let actionChanged := negb (d_Action oldD =? d_Action newD) in
  let reasonChanged := negb (d_Reason oldD =? d_Reason newD)%string in
  let ruleChanged := negb (d_MatchedRule oldD =? d_MatchedRule newD)%string in
  if negb (actionChanged || reasonChanged || ruleChanged || oblChanged) then (cmp <| cmp_Unchanged := cmp_Unchanged cmp + 1 |>, affected) else
  let cmp := tally_changes cmp actionChanged reasonChanged ruleChanged oblChanged in
  let '(cmp, newAllow) := tallyNewClasses cmp oldD newD in
  let affected := mark_rule (d_MatchedRule oldD) (mark_rule (d_MatchedRule newD) affected) in
  let cmp := aggregate cmp (cs_Input c) in
  let cmp := if Z.of_nat (length (cmp_Samples cmp)) <? MaxCompareSamples lim
             then cmp <| cmp_Samples := (cmp_Samples cmp ++ [mkChanged (cs_ID c) (d_Action oldD) (d_Action newD) (d_Reason oldD)
                                           (d_Reason newD) (d_MatchedRule oldD) (d_MatchedRule newD) newAllow])%list |>
             else cmp in
  (cmp, affected).

Fixpoint compare_loop (lim : Limits) (oldSnap newSnap : option Snapshot) (cases : list Case) (cmp : Comparison) (affected : gset string) :
    option (Comparison * gset string) :=
  match cases with
  | [] => Some (cmp, affected)
  | c :: cases =>
      oldD ← sim_decision lim oldSnap (cs_Input c);
      newD ← sim_decision lim newSnap (cs_Input c);
      let '(cmp, affected) := tally lim cmp c oldD newD affected in
      compare_loop lim oldSnap newSnap cases cmp affected
  end.

Section simulate.
Context `{RangeOrder, SortSlice}.

Definition sortedRuleIDs (m : gset string) : list string := sort_slice str_lt (range (gset_to_gmap tt m)).*1.

Definition empty_comparison (total : Z) : Comparison := mkCmp total 0 0 0 0 0 0 0 0 0 [] [] ∅ ∅ ∅.
Definition Compare (lim : Limits) (oldSnap newSnap : option Snapshot) (cases : list Case) : option (result Comparison) :=
  if Z.of_nat (length cases) >? MaxSimCases lim then Some (simErr "simulator corpus exceeds the case bound") else
  '(cmp, affected) ← compare_loop lim oldSnap newSnap cases (empty_comparison (Z.of_nat (length cases))) ∅;
  Some (inr (cmp <| cmp_AffectedRules := sortedRuleIDs affected |>)).
End simulate.

(** *** Side by side *)

Inductive Relation := RelEqual | RelBroader | RelNarrower | RelIncomparable.
Definition permRank (a : Action) : Z :=
  if IsAllowClass a then 2 else if (a =? ActionRequireApproval) || (a =? ActionRequireConfirmation) then 1 else 0.
Definition relate (active candidate : Decision) : Relation :=
  if d_Action active =? d_Action candidate then RelEqual else
  let ra := permRank (d_Action active) in
  let rc := permRank (d_Action candidate) in
  if rc >? ra then RelBroader else if rc <? ra then RelNarrower else RelIncomparable.
Record ShadowResult := mkShadow { sh_Active : Decision; sh_Candidate : Decision; sh_Relation : Relation; sh_Changed : bool }.
Definition Shadow (lim : Limits) (active candidate : option Snapshot) (inp : option DecisionInput) : option ShadowResult :=
  va ← Evaluate lim active inp;
  vc ← Evaluate lim candidate inp;
  let a := va.1.1 in
  let c := vc.1.1 in
  Some (mkShadow a c (relate a c)
    (negb (d_Action a =? d_Action c) || negb (d_Reason a =? d_Reason c)%string || negb (d_MatchedRule a =? d_MatchedRule c)%string)).

(** ** What the summary says *)

Lemma Obligations_Equal_spec o x : Obligations_Equal o x = true ↔ o = x.
Proof.
  destruct o as [a1 a2 a3 a4 a5 a6 a7 a8 a9 a10 a11], x as [b1 b2 b3 b4 b5 b6 b7 b8 b9 b10 b11].
  unfold Obligations_Equal, scalarsEqual. cbn.
  rewrite !andb_true_iff, !Z.eqb_eq, !String.eqb_eq, !Bool.eqb_true_iff.
  assert (sessionGrantEqual a7 b7 = true ↔ a7 = b7) as ->.
  { destruct a7, b7; simpl; rewrite ?bool_decide_eq_true; naive_solver. }
  assert (redactionReqEqual a8 b8 = true ↔ a8 = b8) as ->.
  { destruct a8, b8; simpl; rewrite ?bool_decide_eq_true; naive_solver. }
  split; [intros; destruct_and?; by subst|]. by intros [= -> -> -> -> -> -> -> -> -> -> ->].
Qed.

(** How the two snapshots decide one case. *)
Record pair := mkPair { pa_case : Case; pa_old : Decision; pa_new : Decision }.
Definition decided (lim : Limits) (oldSnap newSnap : option Snapshot) (p : pair) (c : Case) : Prop :=
  pa_case p = c ∧ sim_decision lim oldSnap (cs_Input c) = Some (pa_old p) ∧ sim_decision lim newSnap (cs_Input c) = Some (pa_new p).

Definition action_changed (p : pair) : bool := negb (d_Action (pa_old p) =? d_Action (pa_new p)).
Definition reason_changed (p : pair) : bool := negb (d_Reason (pa_old p) =? d_Reason (pa_new p))%string.
Definition rule_changed (p : pair) : bool := negb (d_MatchedRule (pa_old p) =? d_MatchedRule (pa_new p))%string.
Definition obligation_changed (p : pair) : bool := negb (Obligations_Equal (d_Obligations (pa_old p)) (d_Obligations (pa_new p))).
Definition changed (p : pair) : bool := action_changed p || reason_changed p || rule_changed p || obligation_changed p.
Definition newly_allowed (p : pair) : bool := IsAllowClass (d_Action (pa_new p)) && negb (IsAllowClass (d_Action (pa_old p))).
Definition newly (a : Action) (p : pair) : bool := (d_Action (pa_new p) =? a) && negb (d_Action (pa_old p) =? a).
Definition sample_of (p : pair) : ChangedCase :=
  mkChanged (cs_ID (pa_case p)) (d_Action (pa_old p)) (d_Action (pa_new p)) (d_Reason (pa_old p)) (d_Reason (pa_new p))
    (d_MatchedRule (pa_old p)) (d_MatchedRule (pa_new p)) (newly_allowed p).
Definition tenant_of (p : pair) : string := pr_Tenant (in_Principal (cs_Input (pa_case p))).

Lemma changed_spec p :
  changed p = false ↔ d_Action (pa_old p) = d_Action (pa_new p) ∧ d_Reason (pa_old p) = d_Reason (pa_new p) ∧
    d_MatchedRule (pa_old p) = d_MatchedRule (pa_new p) ∧ d_Obligations (pa_old p) = d_Obligations (pa_new p).
Proof.
  unfold changed, action_changed, reason_changed, rule_changed, obligation_changed.
  rewrite !orb_false_iff, !negb_false_iff, Z.eqb_eq, !String.eqb_eq, Obligations_Equal_spec. tauto.
Qed.

Definition count (f : pair → bool) (ps : list pair) : Z := Z.of_nat (length (filter (λ p, f p = true) ps)).
Lemma count_cons f p ps : count f (p :: ps) = (if f p then 1 else 0) + count f ps.
Proof. unfold count. rewrite filter_cons. destruct (f p); [rewrite decide_True by done; simpl; lia|by rewrite decide_False by done]. Qed.
Definition changed_pairs (ps : list pair) : list pair := filter (λ p, changed p = true) ps.

(** The nine counters, and what one case adds to them. *)
Definition counters (c : Comparison) : list Z :=
  [cmp_Unchanged c; cmp_ActionChanges c; cmp_ReasonChanges c; cmp_RuleChanges c; cmp_ObligationChanges c; cmp_NewAllow c;
   cmp_NewDeny c; cmp_NewQuarantine c; cmp_NewApprovalRequired c].
Definition counted : list (pair → bool) :=
  [λ p, negb (changed p); action_changed; reason_changed; rule_changed; obligation_changed; newly_allowed; newly ActionDeny;
   newly ActionQuarantine; newly ActionRequireApproval].
Definition one (b : bool) : Z := if b then 1 else 0.
Definition add_all (xs ys : list Z) : list Z := zip_with Z.add xs ys.

Lemma aggregate_spec cmp i :
  counters (aggregate cmp i) = counters cmp ∧ cmp_Samples (aggregate cmp i) = cmp_Samples cmp ∧
  cmp_Total (aggregate cmp i) = cmp_Total cmp ∧
  cmp_ByTenant (aggregate cmp i) = (if (pr_Tenant (in_Principal i) =? "")%string then cmp_ByTenant cmp
                                    else bump (pr_Tenant (in_Principal i)) (cmp_ByTenant cmp)).
Proof.
  unfold aggregate. destruct (pr_Tenant (in_Principal i) =? "")%string; destruct (in_Server i) as [sv|];
    try destruct (sv_ServerID sv =? "")%string; destruct (in_Tool i) as [t|]; try destruct (tl_Name t =? "")%string; done.
Qed.

Lemma tallyNewClasses_spec cmp p :
  let '(cmp', b) := tallyNewClasses cmp (pa_old p) (pa_new p) in
  b = newly_allowed p ∧ cmp_Samples cmp' = cmp_Samples cmp ∧ cmp_Total cmp' = cmp_Total cmp ∧ cmp_ByTenant cmp' = cmp_ByTenant cmp ∧
  counters cmp' = add_all (counters cmp) [0; 0; 0; 0; 0; one (newly_allowed p); one (newly ActionDeny p);
                                          one (newly ActionQuarantine p); one (newly ActionRequireApproval p)].
Proof.
  unfold tallyNewClasses. fold (newly_allowed p). change ((d_Action (pa_new p) =? ?a) && negb (d_Action (pa_old p) =? ?a)) with (newly a p).
  fold (newly ActionDeny p) (newly ActionQuarantine p) (newly ActionRequireApproval p).
  destruct (newly_allowed p), (newly ActionDeny p), (newly ActionQuarantine p), (newly ActionRequireApproval p);
    (split_and!; [done..|]); unfold counters, add_all; cbn; repeat f_equal; lia.
Qed.

Lemma unchanged_nothing_new p :
  action_changed p = false → newly_allowed p = false ∧ ∀ a, newly a p = false.
Proof.
  unfold action_changed, newly_allowed, newly. intros H. bprop. rewrite H. split; [by destruct (IsAllowClass _)|].
  intros a. by destruct (d_Action (pa_new p) =? a).
Qed.

Definition matched_rules (p : pair) : gset string := mark_rule (d_MatchedRule (pa_old p)) (mark_rule (d_MatchedRule (pa_new p)) ∅).
Lemma mark_rule_union r X : mark_rule r X = mark_rule r ∅ ∪ X.
Proof. unfold mark_rule. case_if; set_solver. Qed.

Lemma tally_changes_spec cmp a r m o :
  counters (tally_changes cmp a r m o) = add_all (counters cmp) [0; one a; one r; one m; one o; 0; 0; 0; 0] ∧
  cmp_Samples (tally_changes cmp a r m o) = cmp_Samples cmp ∧ cmp_Total (tally_changes cmp a r m o) = cmp_Total cmp ∧
  cmp_ByTenant (tally_changes cmp a r m o) = cmp_ByTenant cmp.
Proof. destruct a, r, m, o; (split_and!; [|done..]); unfold counters, add_all; cbn; repeat f_equal; lia. Qed.

Lemma tally_unchanged cmp p :
  changed p = false → counters (cmp <| cmp_Unchanged := cmp_Unchanged cmp + 1 |>) = add_all (counters cmp) (map (λ f, one (f p)) counted).
Proof.
  intros Ec. pose proof Ec as Ec'. unfold changed in Ec'. bprop. destruct (unchanged_nothing_new p ltac:(done)) as [Ha Hn].
  unfold counters, add_all, counted. cbn [map zip_with]. rewrite Ec, Ha, !Hn.
  repeat match goal with H : _ = false |- _ => rewrite H end. cbn. repeat f_equal; lia.
Qed.

Lemma tally_spec lim cmp p X :
  let '(cmp', X') := tally lim cmp (pa_case p) (pa_old p) (pa_new p) X in
  counters cmp' = add_all (counters cmp) (map (λ f, one (f p)) counted) ∧ cmp_Total cmp' = cmp_Total cmp ∧
  cmp_ByTenant cmp' = (if changed p && negb (tenant_of p =? "")%string then bump (tenant_of p) (cmp_ByTenant cmp) else cmp_ByTenant cmp) ∧
  cmp_Samples cmp' = (if changed p && (Z.of_nat (length (cmp_Samples cmp)) <? MaxCompareSamples lim)
                      then cmp_Samples cmp ++ [sample_of p] else cmp_Samples cmp)%list ∧
  X' = (if changed p then matched_rules p ∪ X else X).
Proof.
  unfold tally. fold (action_changed p) (reason_changed p) (rule_changed p) (obligation_changed p). fold (changed p).
  destruct (changed p) eqn:Ec; cbn [negb]; [|by split_and!; [apply tally_unchanged|..]].
  destruct (tally_changes_spec cmp (action_changed p) (reason_changed p) (rule_changed p) (obligation_changed p)) as (H1 & H2 & H3 & H4).
  set (c4 := tally_changes cmp _ _ _ _) in *. clearbody c4. pose proof (tallyNewClasses_spec c4 p) as Ht.
  destruct (tallyNewClasses c4 (pa_old p) (pa_new p)) as [c5 b]. destruct Ht as (-> & T2 & T3 & T4 & T1).
  destruct (aggregate_spec c5 (cs_Input (pa_case p))) as (A1 & A2 & A3 & A4). fold (sample_of p). fold (tenant_of p) in A4.
  set (c6 := aggregate c5 (cs_Input (pa_case p))) in *. clearbody c6.
  assert (mark_rule (d_MatchedRule (pa_old p)) (mark_rule (d_MatchedRule (pa_new p)) X) = matched_rules p ∪ X) as ->.
  { unfold matched_rules. rewrite (mark_rule_union _ (mark_rule _ X)), (mark_rule_union _ X), (mark_rule_union _ (mark_rule _ ∅)).
    set_solver. }
  assert (counters c6 = add_all (counters cmp) (map (λ f, one (f p)) counted)) as Hc.
  { rewrite A1, T1, H1. unfold counters, add_all, counted. cbn [map zip_with]. rewrite Ec. cbn [negb one].
    repeat (apply (f_equal2 cons); [lia|]). reflexivity. }
  rewrite <- H2, <- T2, <- A2, andb_true_l. rewrite T4, H4 in A4. rewrite T3, H3 in A3.
  destruct (Z.of_nat (length (cmp_Samples c6)) <? MaxCompareSamples lim); (split_and!; [done..| |done|done]); cbn [andb];
    by destruct (tenant_of p =? "")%string.
Qed.

Lemma count_all_cons p ps : map (λ f, count f (p :: ps)) counted = add_all (map (λ f, one (f p)) counted) (map (λ f, count f ps) counted).
Proof. unfold counted, add_all. cbn [map zip_with]. rewrite !count_cons. reflexivity. Qed.
Lemma add_all_assoc xs ys zs : add_all (add_all xs ys) zs = add_all xs (add_all ys zs).
Proof.
  unfold add_all. revert ys zs. induction xs as [|x xs IH]; intros [|y ys] [|z zs]; simpl; [done..|]. f_equal; [lia|done].
Qed.

Lemma bump_lookup k m t : default 0 (bump k m !! t) = default 0 (m !! t) + one (t =? k)%string.
Proof.
  unfold bump. destruct (t =? k)%string eqn:E; bprop; subst; simpl; [by rewrite lookup_insert_eq|].
  rewrite lookup_insert_ne by done. lia.
Qed.

Lemma take_take_app {A} n (l k : list A) : take n (take n l ++ k) = take n (l ++ k).
Proof. rewrite !take_app, take_take, Nat.min_id, length_take. do 2 f_equal. lia. Qed.

Definition of_tenant (t : string) (p : pair) : bool := changed p && (tenant_of p =? t)%string.

Lemma compare_loop_spec lim old new cases ps cmp X :
  Forall2 (decided lim old new) ps cases → (length (cmp_Samples cmp) ≤ Z.to_nat (MaxCompareSamples lim))%nat →
  ∃ cmp' X', compare_loop lim old new cases cmp X = Some (cmp', X') ∧
    cmp_Total cmp' = cmp_Total cmp ∧ counters cmp' = add_all (counters cmp) (map (λ f, count f ps) counted) ∧
    cmp_Samples cmp' = take (Z.to_nat (MaxCompareSamples lim)) (cmp_Samples cmp ++ map sample_of (changed_pairs ps))%list ∧
    (∀ t, t ≠ "" → default 0 (cmp_ByTenant cmp' !! t) = default 0 (cmp_ByTenant cmp !! t) + count (of_tenant t) ps) ∧
    (∀ r, r ∈ X' ↔ r ∈ X ∨ ∃ p, p ∈ changed_pairs ps ∧ r ∈ matched_rules p).
Proof.
  intros Hd. revert cmp X. induction Hd as [|p c ps cases (Hc & Ho & Hn) _ IH]; intros cmp X Hlen; cbn [compare_loop].
  - exists cmp, X. split_and!; [done|done| | | |].
    + unfold counters, add_all, counted, count. cbn [map zip_with filter list_filter length Z.of_nat]. by rewrite !Z.add_0_r.
    + simpl. by rewrite app_nil_r, take_ge.
    + intros t _. unfold count. simpl. lia.
    + intros r. split; [auto|]. by intros [?|(q & ?%elem_of_nil & _)].
  - rewrite Ho, Hn. cbn [mbind option_bind]. pose proof (tally_spec lim cmp p X) as Ht. rewrite Hc in Ht.
    destruct (tally lim cmp c (pa_old p) (pa_new p) X) as [c1 X1]. destruct Ht as (T1 & T2 & T3 & T4 & T5).
    assert (cmp_Samples c1 = take (Z.to_nat (MaxCompareSamples lim)) (cmp_Samples cmp ++ (if changed p then [sample_of p] else []))%list) as T4'.
    { rewrite T4. destruct (changed p); cbn [andb]; [|by rewrite app_nil_r, take_ge].
      destruct (Z.of_nat (length (cmp_Samples cmp)) <? MaxCompareSamples lim) eqn:E; bprop.
      - rewrite take_ge; [done|]. rewrite length_app. simpl. lia.
      - rewrite take_app_le, take_ge by lia. done. }
    destruct (IH c1 X1) as (c2 & X2 & -> & I2 & I1 & I4 & I3 & I5).
    { rewrite T4', length_take. lia. }
    exists c2, X2. split_and!; [done|congruence| | | |].
    + by rewrite I1, T1, count_all_cons, add_all_assoc.
    + rewrite I4, T4'. unfold changed_pairs. rewrite filter_cons. destruct (changed p) eqn:Ec; cbn [map].
      * rewrite decide_True by done. cbn [map]. rewrite take_take_app. by rewrite <- app_assoc.
      * rewrite decide_False by done. by rewrite app_nil_r, (take_ge (cmp_Samples cmp)).
    + intros t Ht. rewrite I3, count_cons, T3 by done. unfold of_tenant at 2. destruct (changed p); cbn [andb one]; [|lia].
      destruct (tenant_of p =? "")%string eqn:E; cbn [negb].
      * bprop. rewrite E. replace ("" =? t)%string with false; [lia|]. symmetry. by apply String.eqb_neq.
      * rewrite bump_lookup. rewrite (String.eqb_sym t). unfold one. lia.
    + intros r. rewrite I5, T5. unfold changed_pairs. rewrite filter_cons. destruct (changed p) eqn:Ec.
      * rewrite decide_True by done. rewrite elem_of_union. setoid_rewrite elem_of_cons. naive_solver.
      * by rewrite decide_False by done.
Qed.

Lemma sim_decision_total lim snap i : (∀ s, snap = Some s → snapshot_ok s) → ∃ d, sim_decision lim snap i = Some d.
Proof.
  intros Hok. unfold sim_decision. destruct snap as [s|]; [|by eexists].
  destruct (evaluate_outcome lim s i (Hok s eq_refl)) as (d & tr & err & -> & _). by eexists.
Qed.

Lemma decided_all lim old new cases :
  (∀ s, old = Some s → snapshot_ok s) → (∀ s, new = Some s → snapshot_ok s) → ∃ ps, Forall2 (decided lim old new) ps cases.
Proof.
  intros Ho Hn. induction cases as [|c cases [ps IH]]; [by exists []|].
  destruct (sim_decision_total lim old (cs_Input c) Ho) as [d Hd], (sim_decision_total lim new (cs_Input c) Hn) as [d' Hd'].
  exists (mkPair c d d' :: ps). by constructor.
Qed.

Section summary.
Context `{RangeOrder, SortSlice}.

Lemma sortedRuleIDs_spec (X : gset string) :
  StronglySorted (λ a b, str_lt a b = true) (sortedRuleIDs X) ∧ ∀ r, r ∈ sortedRuleIDs X ↔ r ∈ X.
Proof.
  unfold sortedRuleIDs. set (l := (range (gset_to_gmap tt X)).*1).
  assert (l ≡ₚ (map_to_list (gset_to_gmap tt X)).*1) as Hl by (unfold l; by rewrite range_perm).
  assert (NoDup l) as Hnd by (rewrite Hl; apply NoDup_fst_map_to_list).
  assert (∀ r, r ∈ l ↔ r ∈ X) as Hin.
  { intros r. rewrite Hl, list_elem_of_fmap. split.
    - intros ([k u] & -> & Hk%elem_of_map_to_list). by apply lookup_gset_to_gmap_Some in Hk as [? _].
    - intros Hr. exists (r, tt). split; [done|]. apply elem_of_map_to_list, lookup_gset_to_gmap_Some. auto. }
  pose proof (sort_slice_perm str_lt l) as Hp. pose proof (sort_slice_sorted str_lt l str_lt_weak) as Hs.
  split; [|intros r; by rewrite Hp]. rewrite <- Hp in Hnd. clear Hp Hin Hl.
  induction Hs as [|x xs _ IH Hx]; constructor; apply NoDup_cons in Hnd as [Hnx Hnd]; [auto|].
  rewrite Forall_forall in Hx |- *. intros y Hy. specialize (Hx y Hy). destruct (str_lt x y) eqn:E; [done|].
  destruct Hnx. by rewrite (str_lt_total x y E Hx).
Qed.

(** A rule that decided one of the two sides. *)
Definition decided_by (r : string) (p : pair) : Prop := r ≠ "" ∧ (r = d_MatchedRule (pa_old p) ∨ r = d_MatchedRule (pa_new p)).
Lemma matched_rules_spec p r : r ∈ matched_rules p ↔ decided_by r p.
Proof.
  unfold matched_rules, mark_rule, decided_by. destruct (d_MatchedRule (pa_old p) =? "")%string eqn:E1, (d_MatchedRule (pa_new p) =? "")%string eqn:E2;
    bprop; rewrite ?elem_of_union, ?elem_of_singleton, ?elem_of_empty; naive_solver.
Qed.
End summary.

Section claims.
Context `{TimeData, Sha256, SortSlice, DocDecoder, RangeOrder}.

(** On a corpus within the bound the blast-radius summary of two compiled snapshots is exact: each counter is the number
    of cases it names, the samples are the first changed cases, the per-tenant counts are those of the changed cases, and
    the affected rules are the rules that decided a changed case, in order and each once; a larger corpus is refused. *)
Theorem blast_radius lim old new cases :
  published old → published new →
  if Z.of_nat (length cases) >? MaxSimCases lim then Compare lim old new cases = Some (simErr "simulator corpus exceeds the case bound") else
  ∃ ps cmp, Forall2 (decided lim old new) ps cases ∧ Compare lim old new cases = Some (inr cmp) ∧
    cmp_Total cmp = Z.of_nat (length cases) ∧ counters cmp = map (λ f, count f ps) counted ∧
    cmp_Samples cmp = map sample_of (take (Z.to_nat (MaxCompareSamples lim)) (changed_pairs ps)) ∧
    (∀ t, t ≠ "" → default 0 (cmp_ByTenant cmp !! t) = count (of_tenant t) ps) ∧
    StronglySorted (λ a b, str_lt a b = true) (cmp_AffectedRules cmp) ∧
    ∀ r, r ∈ cmp_AffectedRules cmp ↔ ∃ p, p ∈ changed_pairs ps ∧ decided_by r p.
Proof.
  intros Ho Hn. unfold Compare. case_if; [done|].
  destruct (decided_all lim old new cases) as [ps Hps]; [by intros s ->; apply published_ok..|].
  destruct (compare_loop_spec lim old new cases ps (empty_comparison (Z.of_nat (length cases))) ∅ Hps) as (cmp & X & -> & C2 & C1 & C4 & C3 & C5);
    [simpl; lia|].
  destruct (sortedRuleIDs_spec X) as [Hs Hx]. eexists ps, _. split_and!; [done|reflexivity|done| | | |done|].
  - change (counters (cmp <| cmp_AffectedRules := sortedRuleIDs X |>)) with (counters cmp). rewrite C1.
    unfold counters, empty_comparison, add_all, counted. cbn [map zip_with cmp_Unchanged cmp_ActionChanges cmp_ReasonChanges cmp_RuleChanges
      cmp_ObligationChanges cmp_NewAllow cmp_NewDeny cmp_NewQuarantine cmp_NewApprovalRequired]. by rewrite !Z.add_0_l.
  - cbn. rewrite C4. simpl. by rewrite <- firstn_map.
  - intros t Ht. cbn. rewrite C3 by done. simpl. by rewrite lookup_empty.
  - intros r. cbn [cmp_AffectedRules]. change (cmp_AffectedRules (cmp <| cmp_AffectedRules := sortedRuleIDs X |>)) with (sortedRuleIDs X).
    rewrite Hx, C5. setoid_rewrite matched_rules_spec. set_solver.
Qed.
End claims.

(** ** Witnesses *)

Lemma blast_radius_witness :
  ∃ s, sample_compile "{}" no_meta DefaultLimits = inr s ∧
    ∃ ps cmp, Forall2 (decided DefaultLimits (Some s) None) ps [mkCase "c1" (call "acme" "list_all" OpRead DriftNoMaterialChange)] ∧
      Compare (H := default_range) (H0 := stable_sort) DefaultLimits (Some s) None [mkCase "c1" (call "acme" "list_all" OpRead DriftNoMaterialChange)]
        = Some (inr cmp) ∧ counters cmp = map (λ f, count f ps) counted.
Proof.
  eexists. split; [vm_compute; reflexivity|].
  match goal with |- ∃ ps cmp, Forall2 (decided _ (Some ?s) None) ps ?cs ∧ _ =>
    destruct (blast_radius (H := two_dates) (H0 := flat_digest) (H1 := stable_sort) (H2 := fixed_decoder (gateway_doc sample_rules))
      (H3 := default_range) DefaultLimits (Some s) None cs) as (ps & cmp & Hps & Hc & _ & Hk & _);
      [..|exists ps, cmp; split; [exact Hps|]; split; [exact Hc|exact Hk]]
  end.
  - intros s [= <-]. exists "{}", no_meta, DefaultLimits. vm_compute. reflexivity.
  - intros s [=].
Defined.

Definition session_rule (ttl : Z) : rawRule :=
  mkRawRule "R5" 50 None [mkRawCond "tool.name" opExact "export" [] "" ""] "ALLOW_FOR_SESSION" "MCP.POLICY.RESOURCE_SCOPE" "none"
    (Some (mkRawObl "full" "" "" "" "" false (Some (mkRawSession true ttl 5 true)) None false false false)) "" 0 false.
Theorem shadow_ignores_obligations :
  ∃ s s' r cmp,
    compile_document (H := two_dates) (H0 := flat_digest) (H1 := stable_sort) (gateway_doc [session_rule 60]) no_meta DefaultLimits = inr s ∧
    compile_document (H := two_dates) (H0 := flat_digest) (H1 := stable_sort) (gateway_doc [session_rule 86400]) no_meta DefaultLimits = inr s' ∧
    Shadow DefaultLimits (Some s) (Some s') (Some (call "acme" "export" OpWrite DriftNoMaterialChange)) = Some r ∧
    sh_Changed r = false ∧ sh_Relation r = RelEqual ∧
    Compare (H := default_range) (H0 := stable_sort) DefaultLimits (Some s) (Some s')
      [mkCase "c1" (call "acme" "export" OpWrite DriftNoMaterialChange)] = Some (inr cmp) ∧
    cmp_Unchanged cmp = 0 ∧ cmp_ObligationChanges cmp = 1.
Proof.
  do 4 eexists. split; [vm_compute; reflexivity|]. split; [vm_compute; reflexivity|]. split; [vm_compute; reflexivity|].
  split; [reflexivity|]. split; [reflexivity|]. split; [vm_compute; reflexivity|]. split; reflexivity.
Qed.
