(* ===== verification/McpApproval.v ===== *)
(** * MCP approvals: the four-eyes request store

    [internal/mcp/approval]: [approval.go], [store.go]; [Sanitize] of [internal/mcp/mcperr].

    [byID] maps an identifier to the one request object its holders share: the operations look a
    request up, assign its fields and release the lock, so a write through the pointer is an insert
    at the request's identifier ([put]).  [Get] and [List] hand out copies.  Each operation holds
    the store's mutex from its first read to its last write, hence is one step.

    A call reads the clock as often as the code does: the readings of one call are a sequence
    [clk : nat → Instant] with no law, consumed in order.  The committer is a parameter of the two
    decisions, an error or the digest of a durable record; the records it accepted are the log.

    - [approval_lifecycle]: over any calls, an approved request was approved by somebody other than its
      requester, against the revisions it was bound to, after a durable record, and what is decided stays.
    - [approval_counters]: the per-tenant counters count the pending requests, and no cap is exceeded.
    - [approve_decides]: what [Approve] answers, on every branch.
    - [decided_requests_stay]: nothing bounds the requests the store holds. *)

From stdpp Require Import pretty.
From S2P Require Import Prelude GoStrings McpInput.

(** ** Requests ([approval.go]) *)

Notation ID := string (only parsing).
Notation PrincipalID := string (only parsing).

Inductive Kind := KindUnset | KindOperational | KindPublication.
#[global] Instance Kind_dec : EqDecision Kind.
Proof. solve_decision. Defined.

Inductive State := StateUnknown | StatePending | StateApproved | StateRejected | StateExpired.
#[global] Instance State_dec : EqDecision State.
Proof. solve_decision. Defined.
Definition State_String (s : State) : string :=
  match s with
  | StatePending => "pending" | StateApproved => "approved" | StateRejected => "rejected" | StateExpired => "expired"
  | StateUnknown => "unknown"
  end.
Definition terminal (s : State) : bool :=
  bool_decide (s = StateApproved) || bool_decide (s = StateRejected) || bool_decide (s = StateExpired).

Record Revisions := mkRevs { rv_Policy : Z; rv_Catalog : Z; rv_Registry : Z; rv_Inspection : Z }.
#[global] Instance Revisions_dec : EqDecision Revisions.
Proof. solve_decision. Defined.

Record Binding := mkBinding {
  bn_Tenant : string; bn_Capability : string; bn_DecisionEventID : string; bn_DecisionDigest : string; bn_ServerID : string;
  bn_ToolFingerprint : string; bn_Resource : string; bn_Action : string; bn_OperationClass : string; bn_RiskClass : string;
  bn_CredentialProfile : string; bn_PowerCeiling : string; bn_CandidateHash : string; bn_BaseRevision : Z;
  bn_ProposedRevision : Z; bn_SimulationDigest : string; bn_Revisions : Revisions;
}.

(** A receipt; the zero value is not valid. *)
Record Receipt := mkReceipt {
  rc_valid : bool; rc_id : ID; rc_kind : Kind; rc_tenant : string; rc_capability : string; rc_approver : PrincipalID;
  rc_decisionDigest : string; rc_candidateHash : string; rc_proposedRevision : Z; rc_evidenceDigest : string; rc_grantedAt : Instant;
}.
Definition zero_receipt : Receipt := mkReceipt false "" KindUnset "" "" "" "" "" 0 "" zeroTime.

Record Request := mkRequest {
  rq_id : ID; rq_kind : Kind; rq_requester : PrincipalID; rq_binding : Binding; rq_created : Instant; rq_expiry : Instant;
  rq_state : State; rq_approver : PrincipalID; rq_decidedAt : Instant; rq_reason : string; rq_grantedReceipt : option Receipt;
}.
#[global] Instance Request_eta : Eta Request := λ r,
  mkRequest (rq_id r) (rq_kind r) (rq_requester r) (rq_binding r) (rq_created r) (rq_expiry r) (rq_state r) (rq_approver r)
    (rq_decidedAt r) (rq_reason r) (rq_grantedReceipt r).
Definition rq_tenant (r : Request) : string := bn_Tenant (rq_binding r).
Definition expiredAt (r : Request) (now : Instant) : bool := negb (now <? rq_expiry r).

(** [mcperr.Sanitize]: only printable ASCII, less the backslash and the double quote. *)
Definition sanitize_byte (c : ascii) : ascii :=
  let b := byte_val c in
  if (b <? 32) || (126 <? b) || (b =? 92) || (b =? 34) then "."%char else c.
Definition Sanitize (s : string) (maxLen : Z) : string :=
  let maxLen := if maxLen <=? 0 then 64 else maxLen in
  let truncated := maxLen <? Z.of_nat (String.length s) in
  let s := if truncated then stake (Z.to_nat maxLen) s else s in
  smap sanitize_byte s ++ (if truncated then "~" else "").

(** ** The store ([store.go]) *)

Definition Matches (r : Receipt) (tenant capability candidateHash : string) (proposedRevision : Z) : bool :=
  rc_valid r && (rc_tenant r =? tenant)%string && (rc_capability r =? capability)%string &&
  (rc_candidateHash r =? candidateHash)%string && (rc_proposedRevision r =? proposedRevision).

Record Store := mkStore {
  as_byID : gmap ID Request; as_perTenant : gmap string Z; as_maxPending : Z; as_maxPerTenant : Z; as_ttl : Duration;
}.
#[global] Instance Store_eta : Eta Store := λ s, mkStore (as_byID s) (as_perTenant s) (as_maxPending s) (as_maxPerTenant s) (as_ttl s).
Definition NewStore (maxPending maxPerTenant : Z) (ttl : Duration) : Store := mkStore ∅ ∅ maxPending maxPerTenant ttl.

(** The readings of [s.clock()] during one call. *)
Notation Clock := (nat → Instant) (only parsing).
(** The store under its lock, and the number of readings made. *)
Notation locked := (Store * nat)%type (only parsing).

(** A write through the pointer [byID] holds. *)
Definition put (s : Store) (r : Request) : Store := s <| as_byID := <[rq_id r := r]> (as_byID s) |>.
Definition tenant_count (s : Store) (tenant : string) : Z := default 0 (as_perTenant s !! tenant).
Definition set_count (s : Store) (tenant : string) (n : Z) : Store := s <| as_perTenant := <[tenant := n]> (as_perTenant s) |>.
Definition decPendingLocked (s : Store) (tenant : string) : Store :=
  if 0 <? tenant_count s tenant then set_count s tenant (tenant_count s tenant - 1) else s.

Definition lazyExpireLocked (clk : Clock) (c : locked) (r : Request) : locked * Request :=
  let '(s, n) := c in
  if bool_decide (rq_state r = StatePending) then
    if expiredAt r (clk n) then
      let r := r <| rq_state := StateExpired |> <| rq_decidedAt := clk (S n) |> in
      ((decPendingLocked (put s r) (rq_tenant r), S (S n)), r)
    else ((s, S n), r)
  else ((s, n), r).

Definition pendingCountLocked (s : Store) : Z := Z.of_nat (size (filter (λ kv, rq_state kv.2 = StatePending) (as_byID s))).

Definition approvalErr {A} (r : Reason) (op detail : string) : result A := inl (mkErr r op detail).

(** [Committer.CommitDecision]: an error, or the digest of the durable record. *)
Notation Committer := (Request → State → PrincipalID → result string) (only parsing).
Record Committed := mkCommitted { cm_id : ID; cm_decision : State; cm_approver : PrincipalID; cm_digest : string }.

Section store.
Context `{RangeOrder}.

Definition sweepLocked (clk : Clock) (c : locked) : locked :=
  foldl (λ c kv, (lazyExpireLocked clk c kv.2).1) c (range (as_byID c.1)).

Definition Create (clk : Clock) (s : Store) (id : ID) (kind : Kind) (requester : PrincipalID) (b : Binding) : Store * result Request :=
  if (id =? "")%string || bool_decide (kind = KindUnset) || (requester =? "")%string || (bn_Tenant b =? "")%string ||
     (bn_Capability b =? "")%string
  then (s, approvalErr ReasonAdminRequestInvalid "approval.create" "missing required binding field") else
  match as_byID s !! id with
  | Some _ => (s, approvalErr ReasonAdminRequestInvalid "approval.create" "duplicate approval id")
  | None =>
      let '(s, n) := sweepLocked clk (s, 0%nat) in
      if as_maxPending s <=? pendingCountLocked s
      then (s, approvalErr ReasonAdminRangeExceeded "approval.create" "pending approval capacity reached") else
      if as_maxPerTenant s <=? tenant_count s (bn_Tenant b)
      then (s, approvalErr ReasonAdminRangeExceeded "approval.create" "tenant pending approval capacity reached") else
      let now := clk n in
      let r := mkRequest id kind requester b now (now + as_ttl s) StatePending "" zeroTime "" None in
      (set_count (put s r) (bn_Tenant b) (tenant_count s (bn_Tenant b) + 1), inr r)
  end.

Definition Get (clk : Clock) (s : Store) (id : ID) (tenant : string) : Store * result Request :=
  match as_byID s !! id with
  | None => (s, approvalErr ReasonApprovalNotFound "approval.get" "not found")
  | Some r =>
      if negb (rq_tenant r =? tenant)%string then (s, approvalErr ReasonApprovalNotFound "approval.get" "not found") else
      let '((s, _), r) := lazyExpireLocked clk (s, 0%nat) r in (s, inr r)
  end.

(** The loop of [List], which stops once [limit] copies are taken. *)
Fixpoint list_loop (clk : Clock) (tenant : string) (stateFilter : State) (limit : Z) (rs : list Request) (c : locked)
    (out : list Request) : locked * list Request :=
  match rs with
  | [] => (c, out)
  | r :: rs =>
      if negb (rq_tenant r =? tenant)%string then list_loop clk tenant stateFilter limit rs c out else
      let '(c, r) := lazyExpireLocked clk c r in
      if negb (bool_decide (stateFilter = StateUnknown)) && negb (bool_decide (rq_state r = stateFilter))
      then list_loop clk tenant stateFilter limit rs c out else
      let out := (out ++ [r])%list in
      if limit <=? Z.of_nat (length out) then (c, out) else list_loop clk tenant stateFilter limit rs c out
  end.
(** [None]: [make] panics on a negative capacity. *)
Definition List (clk : Clock) (s : Store) (tenant : string) (stateFilter : State) (limit : Z) : option (Store * list Request) :=
  if limit <? 0 then None else
  let '((s, _), out) := list_loop clk tenant stateFilter limit (range (as_byID s)).*2 (s, 0%nat) [] in Some (s, out).

(** Every bound revision still matches; a publication's base is the live policy revision. *)
Definition bindingCurrent (r : Request) (live : Revisions) : bool :=
  let b := bn_Revisions (rq_binding r) in
  if negb (rv_Policy b =? rv_Policy live) || negb (rv_Catalog b =? rv_Catalog live) ||
     negb (rv_Registry b =? rv_Registry live) || negb (rv_Inspection b =? rv_Inspection live) then false else
  if bool_decide (rq_kind r = KindPublication) && negb (bn_BaseRevision (rq_binding r) =? rv_Policy live) then false else true.

Definition receipt (r : Request) : Receipt := default zero_receipt (rq_grantedReceipt r).

Definition granted (r : Request) (approver : PrincipalID) (digest : string) (now : Instant) : Receipt :=
  let b := rq_binding r in
  mkReceipt true (rq_id r) (rq_kind r) (bn_Tenant b) (bn_Capability b) approver (bn_DecisionDigest b) (bn_CandidateHash b)
    (bn_ProposedRevision b) digest now.

Definition Approve (clk : Clock) (s : Store) (id : ID) (approver : PrincipalID) (live : Revisions) (commit : Committer) :
    Store * option Committed * result Receipt :=
  match as_byID s !! id with
  | None => (s, None, approvalErr ReasonApprovalNotFound "approval.approve" "not found")
  | Some r =>
      let '((s, n), r) := lazyExpireLocked clk (s, 0%nat) r in
      if bool_decide (rq_state r = StateExpired) then (s, None, approvalErr ReasonApprovalExpired "approval.approve" "expired") else
      if terminal (rq_state r) then
        if bool_decide (rq_state r = StateApproved) && (rq_approver r =? approver)%string then (s, None, inr (receipt r)) else
        (s, None, approvalErr ReasonApprovalTerminalState "approval.approve" ("already " ++ State_String (rq_state r)))
      else
      if (approver =? rq_requester r)%string
      then (s, None, approvalErr ReasonApprovalSelfApproval "approval.approve" "requester may not approve own request") else
      if negb (bindingCurrent r live)
      then (s, None, approvalErr ReasonApprovalStaleRevision "approval.approve" "bound revision changed") else
      match commit r StateApproved approver with
      | inl e => (s, None, inl e)
      | inr digest =>
          let now := clk n in
          let rc := granted r approver digest now in
          let r := r <| rq_state := StateApproved |> <| rq_approver := approver |> <| rq_decidedAt := now |>
                     <| rq_grantedReceipt := Some rc |> in
          (decPendingLocked (put s r) (rq_tenant r), Some (mkCommitted (rq_id r) StateApproved approver digest), inr rc)
      end
  end.

Definition Reject (clk : Clock) (s : Store) (id : ID) (approver : PrincipalID) (reason : string) (commit : Committer) :
    Store * option Committed * result () :=
  match as_byID s !! id with
  | None => (s, None, approvalErr ReasonApprovalNotFound "approval.reject" "not found")
  | Some r =>
      let '((s, n), r) := lazyExpireLocked clk (s, 0%nat) r in
      if bool_decide (rq_state r = StateExpired) then (s, None, approvalErr ReasonApprovalExpired "approval.reject" "expired") else
      if terminal (rq_state r) then
        if bool_decide (rq_state r = StateRejected) && (rq_approver r =? approver)%string then (s, None, inr ()) else
        (s, None, approvalErr ReasonApprovalTerminalState "approval.reject" ("already " ++ State_String (rq_state r)))
      else
      match commit r StateRejected approver with
      | inl e => (s, None, inl e)
      | inr digest =>
          let r := r <| rq_state := StateRejected |> <| rq_approver := approver |> <| rq_decidedAt := clk n |>
                     <| rq_reason := Sanitize reason 256 |> in
          (decPendingLocked (put s r) (rq_tenant r), Some (mkCommitted (rq_id r) StateRejected approver digest), inr ())
      end
  end.
End store.

(** ** The invariant *)

(** What creation fixes. *)
Definition same_facts (r q : Request) : Prop :=
  rq_id q = rq_id r ∧ rq_kind q = rq_kind r ∧ rq_requester q = rq_requester r ∧ rq_binding q = rq_binding r ∧
  rq_created q = rq_created r ∧ rq_expiry q = rq_expiry r.

(** What stands behind a request's state, given the records that were durably committed. *)
Definition outcome_ok (log : list Committed) (r : Request) : Prop :=
  match rq_state r with
  | StateUnknown => False
  | StatePending | StateExpired => rq_approver r = "" ∧ rq_grantedReceipt r = None
  | StateApproved => rq_approver r ≠ rq_requester r ∧ ∃ digest now,
      rq_grantedReceipt r = Some (granted r (rq_approver r) digest now) ∧
      mkCommitted (rq_id r) StateApproved (rq_approver r) digest ∈ log
  | StateRejected => rq_grantedReceipt r = None ∧ ∃ digest, mkCommitted (rq_id r) StateRejected (rq_approver r) digest ∈ log
  end.

Record request_ok (ttl : Duration) (log : list Committed) (id : ID) (r : Request) : Prop := {
  ro_id : rq_id r = id;
  ro_facts : id ≠ "" ∧ rq_kind r ≠ KindUnset ∧ rq_requester r ≠ "" ∧ rq_tenant r ≠ "" ∧ bn_Capability (rq_binding r) ≠ "";
  ro_expiry : rq_expiry r = rq_created r + ttl;
  ro_outcome : outcome_ok log r;
}.

Definition pending_of (t : string) (m : gmap ID Request) : nat :=
  size (filter (λ kv, rq_state kv.2 = StatePending ∧ rq_tenant kv.2 = t) m).

Record store_ok (s : Store) (log : list Committed) : Prop := {
  so_requests : map_Forall (request_ok (as_ttl s) log) (as_byID s);
  so_counts t : tenant_count s t = Z.of_nat (pending_of t (as_byID s));
  so_cap : pendingCountLocked s ≤ Z.max 0 (as_maxPending s);
  so_tenant_cap t : tenant_count s t ≤ Z.max 0 (as_maxPerTenant s);
}.

(** How one request and one store may follow another: facts stay, and so does what is not pending. *)
Definition later (r q : Request) : Prop := same_facts r q ∧ (rq_state r ≠ StatePending → q = r).
Record evolves (s s' : Store) : Prop := {
  ev_config : as_maxPending s' = as_maxPending s ∧ as_maxPerTenant s' = as_maxPerTenant s ∧ as_ttl s' = as_ttl s;
  ev_requests id r : as_byID s !! id = Some r → ∃ r', as_byID s' !! id = Some r' ∧ later r r';
}.

#[global] Instance later_preorder : PreOrder later.
Proof.
  split; [by intros r|]. intros r q p [Hf Hs] [Hf' Hs']. split.
  - unfold same_facts in *. naive_solver congruence.
  - intros Hr. rewrite <- (Hs Hr) in *. rewrite Hs' by (by rewrite (Hs Hr)). done.
Qed.
#[global] Instance evolves_preorder : PreOrder evolves.
Proof.
  split; [split; eauto; intros; eexists; split; [done|reflexivity]|]. intros s1 s2 s3 [(?&?&?) R1] [(?&?&?) R2].
  split; [split_and!; congruence|]. intros id r Hr. destruct (R1 _ _ Hr) as (q & Hq & L1), (R2 _ _ Hq) as (p & Hp & L2).
  exists p. split; [done|]. by transitivity q.
Qed.

Lemma outcome_ok_mono log log' r : log ⊆ log' → outcome_ok log r → outcome_ok log' r.
Proof. intros Hl. unfold outcome_ok. destruct (rq_state r); naive_solver. Qed.
Lemma request_ok_mono ttl log log' id r : log ⊆ log' → request_ok ttl log id r → request_ok ttl log' id r.
Proof. intros Hl []. split; [done..|]. by eapply outcome_ok_mono. Qed.
Lemma store_ok_mono s log log' : log ⊆ log' → store_ok s log → store_ok s log'.
Proof. intros Hl []. split; [|done..]. eapply map_Forall_impl; [done|]. intros. by eapply request_ok_mono. Qed.

Lemma NewStore_ok maxPending maxPerTenant ttl : store_ok (NewStore maxPending maxPerTenant ttl) [].
Proof.
  split; [apply map_Forall_empty|done| |]; [unfold pendingCountLocked; cbn [as_byID NewStore]; rewrite map_filter_empty, map_size_empty|
    intros t; unfold tenant_count; cbn [as_perTenant NewStore]; rewrite lookup_empty]; simpl; lia.
Qed.

(** *** Counting the entries of a map *)

Section counting.
Context {V : Type} (P : string * V → Prop) `{∀ x, Decision (P x)}.

Definition one_if (b : bool) : nat := if b then 1 else 0.

Lemma size_filter_insert (m : gmap string V) k v :
  m !! k = None → size (filter P (<[k := v]> m)) = (size (filter P m) + one_if (bool_decide (P (k, v))))%nat.
Proof.
  intros Hk. case_bool_decide as HP; simpl.
  - rewrite map_filter_insert_True, map_size_insert_None by (done || by apply map_lookup_filter_None_2; left). lia.
  - rewrite map_filter_insert_False, delete_id by done. lia.
Qed.
Lemma size_filter_update (m : gmap string V) k v0 v :
  m !! k = Some v0 →
  (size (filter P (<[k := v]> m)) + one_if (bool_decide (P (k, v0))))%nat = (size (filter P m) + one_if (bool_decide (P (k, v))))%nat.
Proof.
  intros Hk. rewrite <- (insert_delete_id m k v0 Hk) at 2. rewrite <- insert_delete_eq.
  rewrite !size_filter_insert by apply lookup_delete_eq. lia.
Qed.
End counting.

Lemma tenant_count_set s t n u : tenant_count (set_count s t n) u = if decide (t = u) then n else tenant_count s u.
Proof. unfold tenant_count. simpl. case_decide; subst; by rewrite ?lookup_insert_eq, ?lookup_insert_ne. Qed.
Lemma tenant_count_put s r t : tenant_count (put s r) t = tenant_count s t.
Proof. done. Qed.

(** *** Deciding a pending request

    Expiry, approval and rejection all write a terminal request in place of a pending one and
    decrement its tenant's counter. *)

Lemma decPending_byID s t : as_byID (decPendingLocked s t) = as_byID s.
Proof. unfold decPendingLocked. by case_if. Qed.
Lemma decPending_config s t :
  as_maxPending (decPendingLocked s t) = as_maxPending s ∧ as_maxPerTenant (decPendingLocked s t) = as_maxPerTenant s ∧
  as_ttl (decPendingLocked s t) = as_ttl s.
Proof. unfold decPendingLocked. by case_if. Qed.

Lemma settle_ok s log r q :
  store_ok s log → as_byID s !! rq_id r = Some r → rq_state r = StatePending → same_facts r q → rq_state q ≠ StatePending →
  outcome_ok log q →
  let s' := decPendingLocked (put s q) (rq_tenant q) in
  store_ok s' log ∧ evolves s s' ∧ as_byID s' = <[rq_id r := q]> (as_byID s).
Proof.
  intros [Hr Hc Hcap Ht] Hlk Hp Hf Hq Ho s'. destruct Hf as (Ei & Ek & Eq & Eb & Ec & Ex).
  assert (as_byID s' = <[rq_id r := q]> (as_byID s)) as Em by (unfold s'; rewrite decPending_byID; cbn; by rewrite Ei).
  destruct (decPending_config (put s q) (rq_tenant q)) as (E1 & E2 & E3). fold s' in E1, E2, E3. cbn in E1, E2, E3.
  assert (rq_tenant q = rq_tenant r) as Et by (unfold rq_tenant; by rewrite Eb).
  assert (∀ t, (pending_of t (as_byID s') + one_if (bool_decide (rq_tenant r = t)))%nat = pending_of t (as_byID s)) as Hpend.
  { intros t. rewrite Em. unfold pending_of.
    pose proof (size_filter_update (λ kv, rq_state kv.2 = StatePending ∧ rq_tenant kv.2 = t) _ _ _ q Hlk) as E. simpl in E.
    rewrite (bool_decide_ext _ (rq_tenant r = t)) in E by naive_solver.
    rewrite (bool_decide_false (rq_state q = StatePending ∧ _)) in E by naive_solver. simpl in E. lia. }
  assert (∀ t, tenant_count s' t = Z.of_nat (pending_of t (as_byID s'))) as Hcount.
  { intros t. specialize (Hpend t). pose proof (Hc t). unfold s' at 1, decPendingLocked. rewrite tenant_count_put, Et.
    pose proof (Hc (rq_tenant r)) as Hcr. destruct (decide (rq_tenant r = t)) as [<-|Hne].
    - rewrite bool_decide_true in Hpend by done. simpl in Hpend.
      destruct (0 <? tenant_count s (rq_tenant r)) eqn:E; bprop; [rewrite tenant_count_set, decide_True by done|]; lia.
    - rewrite bool_decide_false in Hpend by done. simpl in Hpend.
      case_if; [rewrite tenant_count_set, decide_False by done|]; rewrite ?tenant_count_put; lia. }
  assert (∀ t, tenant_count s' t ≤ tenant_count s t) as Hdown by (intros t; rewrite Hcount, Hc; pose proof (Hpend t); lia).
  split_and!; [split| |done].
  - rewrite Em, E3. apply map_Forall_insert_2; [|done]. destruct (Hr _ _ Hlk) as [Hi Hfa Hex _]. split; [done| | |done].
    + unfold rq_tenant in *. rewrite Ek, Eq, Eb. done.
    + congruence.
  - done.
  - rewrite E1. etrans; [|exact Hcap]. unfold pendingCountLocked. rewrite Em.
    pose proof (size_filter_update (λ kv, rq_state kv.2 = StatePending) _ _ _ q Hlk) as E. simpl in E.
    rewrite (bool_decide_false (rq_state q = StatePending)) in E by done. simpl in E. lia.
  - intros t. rewrite E2. etrans; [apply Hdown|apply Ht].
  - split; [done|]. intros id p Hid. rewrite Em. destruct (decide (id = rq_id r)) as [->|Hne].
    + rewrite lookup_insert_eq. eexists. split; [done|]. simplify_eq. split; [done|]. by rewrite Hp.
    + rewrite lookup_insert_ne by done. eexists. split; [done|reflexivity].
Qed.

(** *** Expiry *)

(** A store reached by expiring requests only. *)
Record expires (log : list Committed) (s s' : Store) : Prop := {
  ex_ok : store_ok s' log;
  ex_evolves : evolves s s';
  ex_none id : as_byID s !! id = None → as_byID s' !! id = None;
  ex_only id r r' : as_byID s !! id = Some r → as_byID s' !! id = Some r' → r' = r ∨ rq_state r' = StateExpired;
}.

Lemma expires_refl log s : store_ok s log → expires log s s.
Proof. intros. split; [done..|]. intros. left. congruence. Qed.
Lemma expires_trans log s1 s2 s3 : expires log s1 s2 → expires log s2 s3 → expires log s1 s3.
Proof.
  intros [_ E1 N1 O1] [Ok E2 N2 O2]. split; [done|by transitivity s2|auto|]. intros id r r' Hr Hr'.
  destruct (ev_requests _ _ E1 _ _ Hr) as (q & Hq & _), (O1 _ _ _ Hr Hq) as [->|Hx]; [eauto|].
  destruct (O2 _ _ _ Hq Hr') as [->|?]; auto.
Qed.

Lemma lazyExpire_spec clk log s n r :
  store_ok s log → as_byID s !! rq_id r = Some r →
  ∃ s' n' r', lazyExpireLocked clk (s, n) r = ((s', n'), r') ∧ expires log s s' ∧
    as_byID s' = <[rq_id r := r']> (as_byID s) ∧ later r r' ∧
    (s' = s ∧ r' = r ∧ (rq_state r = StatePending → clk n < rq_expiry r) ∨
     rq_state r = StatePending ∧ rq_expiry r ≤ clk n ∧ rq_state r' = StateExpired).
Proof.
  intros Hok Hlk. unfold lazyExpireLocked. case_bool_decide as Hp.
  2:{ do 3 eexists. split; [reflexivity|]. split_and!; [by apply expires_refl|by rewrite insert_id|reflexivity|by left]. }
  unfold expiredAt. destruct (clk n <? rq_expiry r) eqn:Ex; bprop; cbn [negb].
  { do 3 eexists. split; [reflexivity|]. split_and!; [by apply expires_refl|by rewrite insert_id|reflexivity|by left]. }
  set (q := r <| rq_state := _ |> <| rq_decidedAt := _ |>).
  assert (outcome_ok log q) as Ho.
  { pose proof (ro_outcome _ _ _ _ (so_requests _ _ Hok _ _ Hlk)) as Ho. unfold outcome_ok in *. by rewrite Hp in Ho. }
  assert (same_facts r q) as Hf by done.
  destruct (settle_ok s log r q Hok Hlk Hp Hf ltac:(done) Ho) as (Hok' & Hev & Em).
  do 3 eexists. split; [reflexivity|]. split_and!; [split; [done|done| |]|done|split; [done|by rewrite Hp]|by right].
  - intros id Hid. rewrite Em, lookup_insert_ne; [done|]. intros <-. congruence.
  - intros id p p' Hpl. rewrite Em, lookup_insert_Some. intros [[_ <-]|[_ ?]]; [by right|left; congruence].
Qed.

Lemma entries_insert {V} (m : gmap string V) (l : list (string * V)) k v :
  k ∉ l.*1 → Forall (λ kv, m !! kv.1 = Some kv.2) l → Forall (λ kv, <[k := v]> m !! kv.1 = Some kv.2) l.
Proof.
  intros Hk Hl. apply Forall_forall. intros [k' q] Hin. rewrite Forall_forall in Hl. cbn. rewrite lookup_insert_ne; [by apply (Hl _ Hin)|].
  intros ->. apply Hk. by apply (list_elem_of_fmap_2 fst) in Hin.
Qed.

Lemma expire_all_ok clk log l c :
  NoDup l.*1 → store_ok c.1 log → Forall (λ kv, as_byID c.1 !! kv.1 = Some kv.2) l →
  expires log c.1 (foldl (λ c kv, (lazyExpireLocked clk c kv.2).1) c l).1.
Proof.
  revert c. induction l as [|[k r] l IH]; intros c Hnd Hok Hall; cbn [foldl]; [by apply expires_refl|].
  apply NoDup_cons in Hnd as [Hk Hnd]. apply Forall_cons in Hall as [Hr Hall]. destruct c as [s n]. cbn [fst snd] in *.
  assert (rq_id r = k) as Ei by apply (ro_id _ _ _ _ (so_requests _ _ Hok _ _ Hr)). rewrite <- Ei in Hr.
  destruct (lazyExpire_spec clk log s n r Hok Hr) as (s' & n' & r' & -> & He & Em & _). cbn [fst snd].
  eapply expires_trans; [done|]. apply (IH (s', n')); [done|apply He|].
  cbn [fst]. rewrite Em, Ei. by apply entries_insert.
Qed.

Section operations.
Context `{RangeOrder}.

Lemma range_keys {V} (m : gmap string V) : NoDup (range m).*1.
Proof. rewrite range_perm. apply NoDup_fst_map_to_list. Qed.
Lemma range_entries {V} (m : gmap string V) : Forall (λ kv, m !! kv.1 = Some kv.2) (range m).
Proof. apply Forall_forall. intros [k v] Hin. by apply elem_of_range in Hin. Qed.

Lemma sweep_ok clk log s n : store_ok s log → expires log s (sweepLocked clk (s, n)).1.
Proof. intros Hok. apply (expire_all_ok clk log _ (s, n)); [apply range_keys|done|apply range_entries]. Qed.

Lemma list_loop_ok clk log tenant f limit l c out :
  NoDup l.*1 → store_ok c.1 log → Forall (λ kv, as_byID c.1 !! kv.1 = Some kv.2) l →
  expires log c.1 (list_loop clk tenant f limit l.*2 c out).1.1.
Proof.
  revert c out. induction l as [|[k r] l IH]; intros c out Hnd Hok Hall; rewrite ?fmap_cons; cbn [list_loop fst snd]; [by apply expires_refl|].
  apply NoDup_cons in Hnd as [Hk Hnd]. apply Forall_cons in Hall as [Hr Hall]. destruct c as [s n]. cbn [fst snd] in *.
  assert (rq_id r = k) as Ei by apply (ro_id _ _ _ _ (so_requests _ _ Hok _ _ Hr)). rewrite <- Ei in Hr.
  destruct (negb _); [by apply (IH (s, n))|].
  destruct (lazyExpire_spec clk log s n r Hok Hr) as (s' & n' & r' & -> & He & Em & _).
  assert (∀ out, expires log s (list_loop clk tenant f limit l.*2 (s', n') out).1.1) as Hrest.
  { intros o. eapply expires_trans; [done|]. apply (IH (s', n')); [done|apply He|].
    cbn [fst]. rewrite Em, Ei. by apply entries_insert. }
  case_if; [done|]. by case_if.
Qed.

(** *** The operations *)

Definition created (s : Store) (id : ID) (kind : Kind) (requester : PrincipalID) (b : Binding) (now : Instant) : Request :=
  mkRequest id kind requester b now (now + as_ttl s) StatePending "" zeroTime "" None.

Lemma insert_new_ok s log id kind requester b now :
  let r := created s id kind requester b now in
  let s' := set_count (put s r) (bn_Tenant b) (tenant_count s (bn_Tenant b) + 1) in
  store_ok s log → as_byID s !! id = None → pendingCountLocked s < as_maxPending s → tenant_count s (bn_Tenant b) < as_maxPerTenant s →
  id ≠ "" → kind ≠ KindUnset → requester ≠ "" → bn_Tenant b ≠ "" → bn_Capability b ≠ "" →
  store_ok s' log ∧ evolves s s'.
Proof.
  intros r s' [Hr Hc Hcap Ht] Hid Hp Hpt ? ? ? ? ?.
  assert (∀ t, tenant_count s' t = Z.of_nat (pending_of t (as_byID s'))) as Hcount.
  { intros t. unfold s' at 1. rewrite tenant_count_set, tenant_count_put. unfold pending_of. change (as_byID s') with (<[id := r]> (as_byID s)).
    rewrite size_filter_insert by done. cbn [snd]. rewrite (bool_decide_ext _ (bn_Tenant b = t)) by naive_solver.
    pose proof (Hc t) as E. unfold pending_of in E. case_decide as Hd; [subst; rewrite bool_decide_true by done|rewrite bool_decide_false by done];
      simpl; lia. }
  split; split.
  - change (as_byID s') with (<[id := r]> (as_byID s)). by apply map_Forall_insert_2.
  - done.
  - change (as_maxPending s') with (as_maxPending s). unfold pendingCountLocked in *. change (as_byID s') with (<[id := r]> (as_byID s)).
    rewrite size_filter_insert by done. rewrite bool_decide_true by done. simpl. lia.
  - intros t. change (as_maxPerTenant s') with (as_maxPerTenant s). unfold s'. rewrite tenant_count_set, tenant_count_put.
    case_decide; [lia|apply Ht].
  - done.
  - intros id' q Hq. exists q. split; [|reflexivity]. change (as_byID s') with (<[id := r]> (as_byID s)). rewrite lookup_insert_ne; [done|].
    intros <-. congruence.
Qed.

Lemma Create_spec clk s log id kind requester b s' res :
  store_ok s log → Create clk s id kind requester b = (s', res) →
  store_ok s' log ∧ evolves s s' ∧
  match res with
  | inr r => as_byID s !! id = None ∧ as_byID s' !! id = Some r ∧ ∃ now, r = created s id kind requester b now
  | inl _ => expires log s s'
  end.
Proof.
  intros Hok. unfold Create. case_if; [intros [= <- <-]; split_and!; [done|done|by apply expires_refl]|]. bprop.
  rewrite !bool_decide_eq_false in *.
  destruct (as_byID s !! id) eqn:Hid; [intros [= <- <-]; split_and!; [done|done|by apply expires_refl]|].
  destruct (sweepLocked clk (s, 0%nat)) as [s1 n] eqn:Es. pose proof (sweep_ok clk log s 0 Hok) as He. rewrite Es in He. cbn [fst] in He.
  pose proof He as [Hok1 Hev Hnone]. destruct (ev_config _ _ Hev) as (_ & _ & Ettl).
  case_if; [intros [= <- <-]; by split_and!|]. case_if; [intros [= <- <-]; by split_and!|]. bprop. intros [= <- <-].
  destruct (insert_new_ok s1 log id kind requester b (clk n)) as [Hok2 Hev2]; try (done || lia); [by apply Hnone|].
  split_and!; [done|by transitivity s1|done|apply lookup_insert_eq|]. exists (clk n). unfold created. by rewrite Ettl.
Qed.

Lemma Get_spec clk s log id tenant s' res :
  store_ok s log → Get clk s id tenant = (s', res) →
  expires log s s' ∧ match res with inr r => as_byID s' !! id = Some r ∧ rq_tenant r = tenant | inl _ => True end.
Proof.
  intros Hok. unfold Get. destruct (as_byID s !! id) as [r|] eqn:Hr; [|intros [= <- <-]; split; [by apply expires_refl|done]].
  assert (rq_id r = id) as Ei by apply (ro_id _ _ _ _ (so_requests _ _ Hok _ _ Hr)).
  case_if; [intros [= <- <-]; split; [by apply expires_refl|done]|]. bprop. rewrite <- Ei in Hr.
  destruct (lazyExpire_spec clk log s 0 r Hok Hr) as (s1 & n & r' & -> & He & Em & [Hf _] & _). intros [= <- <-]. split; [done|].
  rewrite Em, Ei, lookup_insert_eq. split; [done|]. unfold rq_tenant in *. destruct Hf as (_ & _ & _ & -> & _). done.
Qed.

Lemma List_spec clk s log tenant f limit s' out :
  store_ok s log → List clk s tenant f limit = Some (s', out) → expires log s s'.
Proof.
  intros Hok. unfold List. case_if; [done|].
  pose proof (list_loop_ok clk log tenant f limit (range (as_byID s)) (s, 0%nat) [] (range_keys _) Hok (range_entries _)) as He.
  destruct (list_loop _ _ _ _ _ _ _) as [[s1 n] o]. by intros [= <- <-].
Qed.

(** A pending request that an approval or a rejection may still settle. *)
Definition open_at (clk : Clock) (r : Request) : Prop := rq_state r = StatePending ∧ clk 0%nat < rq_expiry r.

Definition approvable (clk : Clock) (r : Request) (approver : PrincipalID) (live : Revisions) (commit : Committer) (digest : string) : Prop :=
  open_at clk r ∧ approver ≠ rq_requester r ∧ bindingCurrent r live = true ∧ commit r StateApproved approver = inr digest.

Lemma not_terminal st : st ≠ StateUnknown → terminal st = false → st = StatePending.
Proof. by destruct st. Qed.
Lemma log_extend (log : list Committed) c : log ⊆ (log ++ [c])%list.
Proof. set_solver. Qed.

Lemma Approve_spec clk s log id approver live commit s' o res :
  store_ok s log → Approve clk s id approver live commit = (s', o, res) →
  store_ok s' (log ++ option_list o) ∧ evolves s s' ∧
  match res with
  | inl _ => o = None ∧ expires log s s' ∧
      (∀ r, as_byID s !! id = Some r → ¬ (rq_state r = StateApproved ∧ rq_approver r = approver) ∧
        ∀ digest, ¬ approvable clk r approver live commit digest)
  | inr rc => ∃ r q, as_byID s !! id = Some r ∧ as_byID s' !! id = Some q ∧ rq_state q = StateApproved ∧ rq_approver q = approver ∧
      rq_grantedReceipt q = Some rc ∧
      (o = None ∧ s' = s ∧ q = r ∨
       ∃ digest, approvable clk r approver live commit digest ∧ o = Some (mkCommitted id StateApproved approver digest))
  end.
Proof.
  intros Hok. unfold Approve.
  destruct (as_byID s !! id) as [r|] eqn:Hr.
  2:{ intros [= <- <- <-]. rewrite app_nil_r. split_and!; [done|done|]. split_and!; [done|by apply expires_refl|done]. }
  assert (rq_id r = id) as Ei by apply (ro_id _ _ _ _ (so_requests _ _ Hok _ _ Hr)). rewrite <- Ei in Hr |- *. clear id Ei.
  destruct (lazyExpire_spec clk log s 0 r Hok Hr) as (s1 & n & r1 & -> & He & Em & _ & Hcase).
  assert (¬ (rq_state r = StateApproved ∧ rq_approver r = approver) → (∀ d, ¬ approvable clk r approver live commit d) →
    store_ok s1 (log ++ []) ∧ evolves s s1 ∧ @None Committed = None ∧ expires log s s1 ∧
    (∀ r', Some r = Some r' → ¬ (rq_state r' = StateApproved ∧ rq_approver r' = approver) ∧
      ∀ digest, ¬ approvable clk r' approver live commit digest)) as Herr.
  { intros ? ?. rewrite app_nil_r. split_and!; [apply He|apply He|done|done|]. by intros ? [= <-]. }
  case_bool_decide as Hx.
  { intros [= <- <- <-]. apply Herr.
    - destruct Hcase as [(_ & -> & _)|(? & _)]; intros []; congruence.
    - intros d ([Hp Ht] & _). destruct Hcase as [(_ & -> & _)|(_ & ? & _)]; [congruence|lia]. }
  destruct Hcase as [(-> & -> & Hopen)|(_ & _ & ?)]; [|congruence]. clear Em He.
  destruct (terminal (rq_state r)) eqn:Ht.
  - destruct (_ && _) eqn:Ea.
    + intros [= <- <- <-]. rewrite app_nil_r. apply andb_true_iff in Ea as [Ea%bool_decide_eq_true Eb]. bprop.
      split_and!; [done|done|]. exists r, r. pose proof (ro_outcome _ _ _ _ (so_requests _ _ Hok _ _ Hr)) as Ho. unfold outcome_ok in Ho.
      rewrite Ea in Ho. destruct Ho as (_ & d & nw & E & _). unfold receipt. rewrite E. split_and!; auto.
    + intros [= <- <- <-]. apply Herr.
      * intros [E1 E2]. rewrite E1, E2, bool_decide_true, String.eqb_refl in Ea by done. done.
      * intros d ([Hp _] & _). by rewrite Hp in Ht.
  - apply not_terminal in Ht; [|intros Eu; pose proof (ro_outcome _ _ _ _ (so_requests _ _ Hok _ _ Hr)) as Ho; unfold outcome_ok in Ho; by rewrite Eu in Ho].
    assert (¬ (rq_state r = StateApproved ∧ rq_approver r = approver)) as Hna by (intros []; congruence). specialize (Hopen Ht).
    case_if; [intros [= <- <- <-]; apply Herr; [done|]; bprop; by intros d (_ & ? & _)|].
    case_if; [intros [= <- <- <-]; apply Herr; [done|]; bprop; intros d (_ & _ & ? & _); congruence|].
    bprop. destruct (commit r StateApproved approver) as [e|digest] eqn:Ec.
    { intros [= <- <- <-]. apply Herr; [done|]. intros d (_ & _ & _ & ?). congruence. }
    intros [= <- <- <-]. cbn [option_list].
    set (q := r <| rq_state := _ |> <| rq_approver := _ |> <| rq_decidedAt := _ |> <| rq_grantedReceipt := _ |>).
    set (ev := mkCommitted _ _ _ _).
    destruct (settle_ok s (log ++ [ev]) r q) as (Hok' & Hev & Em); [by eapply store_ok_mono; [apply log_extend|]|done..| |].
    { split; [done|]. exists digest, (clk n). split; [done|]. set_solver. }
    split_and!; [done|done|]. exists r, q. rewrite Em, lookup_insert_eq. split_and!; [done..|]. right. exists digest. done.
Qed.

Lemma Reject_spec clk s log id approver reason commit s' o res :
  store_ok s log → Reject clk s id approver reason commit = (s', o, res) →
  store_ok s' (log ++ option_list o) ∧ evolves s s' ∧
  match res with
  | inl _ => o = None ∧ expires log s s'
  | inr _ => ∃ q, as_byID s' !! id = Some q ∧ rq_state q = StateRejected ∧ rq_approver q = approver
  end.
Proof.
  intros Hok. unfold Reject.
  destruct (as_byID s !! id) as [r|] eqn:Hr.
  2:{ intros [= <- <- <-]. rewrite app_nil_r. split_and!; [done|done|]. split; [done|by apply expires_refl]. }
  assert (rq_id r = id) as Ei by apply (ro_id _ _ _ _ (so_requests _ _ Hok _ _ Hr)). rewrite <- Ei in Hr |- *. clear id Ei.
  destruct (lazyExpire_spec clk log s 0 r Hok Hr) as (s1 & n & r1 & -> & He & Em & _ & Hcase).
  assert (store_ok s1 (log ++ []) ∧ evolves s s1 ∧ @None Committed = None ∧ expires log s s1) as Herr.
  { rewrite app_nil_r. split_and!; [apply He|apply He|done|done]. }
  case_bool_decide as Hx; [by intros [= <- <- <-]|].
  destruct Hcase as [(-> & -> & Hopen)|(_ & _ & ?)]; [|congruence]. clear Em.
  destruct (terminal (rq_state r)) eqn:Ht.
  - destruct (_ && _) eqn:Ea; [|by intros [= <- <- <-]]. apply andb_true_iff in Ea as [Ea%bool_decide_eq_true Eb]. bprop.
    intros [= <- <- <-]. rewrite app_nil_r. split_and!; [done|done|]. by exists r.
  - apply not_terminal in Ht; [|intros Eu; pose proof (ro_outcome _ _ _ _ (so_requests _ _ Hok _ _ Hr)) as Ho; unfold outcome_ok in Ho; by rewrite Eu in Ho].
    destruct (commit r StateRejected approver) as [e|digest]; [by intros [= <- <- <-]|]. intros [= <- <- <-]. cbn [option_list].
    set (q := r <| rq_state := _ |> <| rq_approver := _ |> <| rq_decidedAt := _ |> <| rq_reason := _ |>). set (ev := mkCommitted _ _ _ _).
    pose proof (ro_outcome _ _ _ _ (so_requests _ _ Hok _ _ Hr)) as Ho. unfold outcome_ok in Ho. rewrite Ht in Ho. destruct Ho as [_ Ho].
    destruct (settle_ok s (log ++ [ev]) r q) as (Hok' & Hev & Em); [by eapply store_ok_mono; [apply log_extend|]|done..| |].
    { split; [done|]. exists digest. set_solver. }
    split_and!; [done|done|]. exists q. by rewrite Em, lookup_insert_eq.
Qed.

(** ** Any sequence of calls *)

Inductive Call :=
  | DoCreate (clk : Clock) (id : ID) (kind : Kind) (requester : PrincipalID) (b : Binding)
  | DoGet (clk : Clock) (id : ID) (tenant : string)
  | DoList (clk : Clock) (tenant : string) (stateFilter : State) (limit : Z)
  | DoApprove (clk : Clock) (id : ID) (approver : PrincipalID) (live : Revisions) (commit : Committer)
  | DoReject (clk : Clock) (id : ID) (approver : PrincipalID) (reason : string) (commit : Committer).

Definition exec (s : Store) (c : Call) : Store * option Committed :=
  match c with
  | DoCreate clk id kind requester b => ((Create clk s id kind requester b).1, None)
  | DoGet clk id tenant => ((Get clk s id tenant).1, None)
  | DoList clk tenant f limit => (default s (fst <$> List clk s tenant f limit), None)
  | DoApprove clk id approver live commit => (Approve clk s id approver live commit).1
  | DoReject clk id approver reason commit => (Reject clk s id approver reason commit).1
  end.
Fixpoint runs (s : Store) (cs : list Call) : Store * list Committed :=
  match cs with
  | [] => (s, [])
  | c :: cs => let '(s1, o) := exec s c in let '(s2, log) := runs s1 cs in (s2, (option_list o ++ log)%list)
  end.

Lemma exec_ok s log c s' o : store_ok s log → exec s c = (s', o) → store_ok s' (log ++ option_list o) ∧ evolves s s'.
Proof.
  intros Hok. destruct c as [clk id k q b|clk id t|clk t f l|clk id a live commit|clk id a reason commit]; cbn [exec].
  - destruct (Create clk s id k q b) as [s1 res] eqn:E. intros [= <- <-]. rewrite app_nil_r. apply (Create_spec _ _ log) in E; naive_solver.
  - destruct (Get clk s id t) as [s1 res] eqn:E. intros [= <- <-]. rewrite app_nil_r. apply (Get_spec _ _ log) in E as [[] _]; auto.
  - destruct (List clk s t f l) as [[s1 out]|] eqn:E; intros [= <- <-]; rewrite app_nil_r; [|by split].
    apply (List_spec _ _ log) in E as []; auto.
  - destruct (Approve clk s id a live commit) as [[s1 o1] res] eqn:E. intros [= <- <-]. apply (Approve_spec _ _ log) in E; naive_solver.
  - destruct (Reject clk s id a reason commit) as [[s1 o1] res] eqn:E. intros [= <- <-]. apply (Reject_spec _ _ log) in E; naive_solver.
Qed.
Lemma runs_ok s log cs : store_ok s log → store_ok (runs s cs).1 (log ++ (runs s cs).2) ∧ evolves s (runs s cs).1.
Proof.
  revert s log. induction cs as [|c cs IH]; intros s log Hok; cbn [runs]; [cbn; by rewrite app_nil_r|].
  destruct (exec s c) as [s1 o] eqn:E. apply (exec_ok _ log) in E as [Hok1 Hev]; [|done]. destruct (IH _ _ Hok1) as [Hok2 Hev2].
  destruct (runs s1 cs) as [s2 l]. cbn [fst snd] in *. rewrite app_assoc. split; [done|by transitivity s1].
Qed.
Lemma runs_app s cs cs' : runs s (cs ++ cs') = let '(s1, l1) := runs s cs in let '(s2, l2) := runs s1 cs' in (s2, (l1 ++ l2)%list).
Proof.
  revert s. induction cs as [|c cs IH]; intros s; cbn [runs app]; [by destruct (runs s cs')|].
  destruct (exec s c) as [s1 o]. rewrite IH. destruct (runs s1 cs) as [s2 l1], (runs s2 cs') as [s3 l2]. by rewrite app_assoc.
Qed.

(** Every recorded approval came from a call that saw the revisions the request is bound to. *)
Definition approvals_current (cs : list Call) (s : Store) (log : list Committed) : Prop :=
  ∀ id a d, mkCommitted id StateApproved a d ∈ log →
    ∃ clk live commit r, DoApprove clk id a live commit ∈ cs ∧ as_byID s !! id = Some r ∧ bindingCurrent r live = true.

Lemma bindingCurrent_facts r q live : same_facts r q → bindingCurrent q live = bindingCurrent r live.
Proof. intros (_ & Ek & _ & Eb & _). unfold bindingCurrent. by rewrite Ek, Eb. Qed.

Lemma exec_log s log c s' o id a d :
  store_ok s log → exec s c = (s', o) → o = Some (mkCommitted id StateApproved a d) →
  ∃ clk live commit r, c = DoApprove clk id a live commit ∧ as_byID s' !! id = Some r ∧ bindingCurrent r live = true.
Proof.
  intros Hok. destruct c as [clk id' k q b|clk id' t|clk t f l|clk id' a' live commit|clk id' a' reason commit]; cbn [exec]; try (intros [= <- <-]; done).
  - destruct (Approve clk s id' a' live commit) as [[s1 o1] res] eqn:E. intros [= <- <-] ->. apply (Approve_spec _ _ log) in E; [|done].
    destruct E as (_ & Hev & Hres). destruct res as [e|rc]; [by destruct Hres as [? _]|].
    destruct Hres as (r & q & Hr & Hq & _ & _ & _ & [[? _]|(digest & (_ & _ & Hb & _) & [= -> -> ->])]); [done|].
    exists clk, live, commit, q. split_and!; [done|done|]. destruct (ev_requests _ _ Hev _ _ Hr) as (q' & Hq' & [Hf _]).
    simplify_eq. by rewrite (bindingCurrent_facts r).
  - unfold Reject. destruct (as_byID s !! id'); [|intros [= <- <-]; done]. destruct (lazyExpireLocked _ _ _) as [[s1 n] r1].
    repeat case_if; try (intros [= <- <-]; done). destruct (commit _ _ _); intros [= <- <-]; congruence.
Qed.

Lemma approvals_current_evolves cs cs' s s' log :
  cs ⊆ cs' → evolves s s' → approvals_current cs s log → approvals_current cs' s' log.
Proof.
  intros Hcs Hev Hc id a d Hin. destruct (Hc _ _ _ Hin) as (clk & live & commit & r & Hcall & Hr & Hb).
  destruct (ev_requests _ _ Hev _ _ Hr) as (r' & Hr' & [Hf _]). exists clk, live, commit, r'. split_and!; [auto|done|].
  by rewrite (bindingCurrent_facts r).
Qed.

Lemma runs_current s log cs : store_ok s log → approvals_current cs (runs s cs).1 (runs s cs).2.
Proof.
  revert s log. induction cs as [|c cs IH]; intros s log Hok; cbn [runs]; [intros ??? H'; by apply elem_of_nil in H'|].
  destruct (exec s c) as [s1 o] eqn:E. pose proof (exec_ok _ _ _ _ _ Hok E) as [Hok1 Hev].
  pose proof (runs_ok _ _ cs Hok1) as [_ Hev2]. specialize (IH _ _ Hok1). destruct (runs s1 cs) as [s2 l]. cbn [fst snd] in *.
  intros id a d [Hin|Hin]%elem_of_app; [|by apply (approvals_current_evolves cs (c :: cs) s2 s2 l) with d; [set_solver| | |]].
  destruct o as [ev|]; cbn [option_list] in Hin; [|by apply elem_of_nil in Hin]. apply list_elem_of_singleton in Hin as <-.
  destruct (exec_log _ _ _ _ _ id a d Hok E eq_refl) as (clk & live & commit & r & -> & Hr & Hb).
  destruct (ev_requests _ _ Hev2 _ _ Hr) as (r' & Hr' & [Hf _]). exists clk, live, commit, r'. split_and!; [set_solver|done|].
  by rewrite (bindingCurrent_facts r).
Qed.

(** The store reached from an empty one. *)
Definition reached (maxPending maxPerTenant : Z) (ttl : Duration) (cs : list Call) : Store * list Committed :=
  runs (NewStore maxPending maxPerTenant ttl) cs.

Lemma reached_ok maxPending maxPerTenant ttl cs :
  store_ok (reached maxPending maxPerTenant ttl cs).1 (reached maxPending maxPerTenant ttl cs).2.
Proof. apply (runs_ok _ [] cs), NewStore_ok. Qed.

(** C22: Over any sequence of calls of the approval store, from any clock and any committer: a request that is approved
    was approved by a principal other than its requester, by a call of [Approve] that saw exactly the revisions the
    request is bound to (for a publication the base revision is the live policy revision), after a durable record of that
    approval by that principal; its receipt is valid and carries the request's identifier, tenant, capability and
    candidate.  A rejected request has a durable record too, and only decided requests carry a receipt.  Whatever is
    called afterwards, the request is still there with the facts it was created with, and once decided or expired
    it never changes. *)
Theorem approval_lifecycle maxPending maxPerTenant ttl cs cs' id r :
  let '(s, log) := reached maxPending maxPerTenant ttl cs in
  as_byID s !! id = Some r →
  (rq_state r = StateApproved →
    rq_approver r ≠ rq_requester r ∧
    (∃ clk live commit, DoApprove clk id (rq_approver r) live commit ∈ cs ∧ bindingCurrent r live = true) ∧
    ∃ digest now, mkCommitted id StateApproved (rq_approver r) digest ∈ log ∧
      receipt r = granted r (rq_approver r) digest now) ∧
  (rq_state r = StateRejected → ∃ digest, mkCommitted id StateRejected (rq_approver r) digest ∈ log) ∧
  (rq_state r ≠ StateApproved → rc_valid (receipt r) = false) ∧
  ∃ r', as_byID (runs s cs').1 !! id = Some r' ∧ same_facts r r' ∧ (rq_state r ≠ StatePending → r' = r).
Proof.
  pose proof (reached_ok maxPending maxPerTenant ttl cs) as Hok.
  pose proof (runs_current _ _ cs (NewStore_ok maxPending maxPerTenant ttl)) as Hcur. fold (reached maxPending maxPerTenant ttl cs) in Hcur.
  destruct (reached maxPending maxPerTenant ttl cs) as [s log]. cbn [fst snd] in *. intros Hr.
  destruct (so_requests _ _ Hok _ _ Hr) as [Hid _ _ Ho]. unfold outcome_ok in Ho. unfold receipt.
  pose proof (runs_ok s log cs' Hok) as [_ Hev]. destruct (ev_requests _ _ Hev _ _ Hr) as (r' & Hr' & Hl & Hst). split_and!.
  - intros E. rewrite E in Ho. destruct Ho as (Hne & digest & now & Erc & Hin). rewrite Hid in Hin. split_and!; [done| |].
    + destruct (Hcur _ _ _ Hin) as (clk & live & commit & q & ? & Hq & ?). simplify_eq. eauto.
    + exists digest, now. by rewrite Erc.
  - intros E. rewrite E in Ho. destruct Ho as (_ & digest & Hin). exists digest. by rewrite Hid in Hin.
  - destruct (rq_state r); [done|destruct Ho as [_ ->]; done|done|destruct Ho as [-> _]; done|destruct Ho as [_ ->]; done].
  - eauto.
Qed.

(** After any calls the per-tenant counter is exactly the number of the tenant's pending requests, so the two caps
    that creation checks are never exceeded, however requests are created, decided and left to expire. *)
Theorem approval_counters maxPending maxPerTenant ttl cs t :
  let s := (reached maxPending maxPerTenant ttl cs).1 in
  tenant_count s t = Z.of_nat (pending_of t (as_byID s)) ∧
  tenant_count s t ≤ Z.max 0 maxPerTenant ∧
  pendingCountLocked s ≤ Z.max 0 maxPending.
Proof.
  intros s. pose proof (reached_ok maxPending maxPerTenant ttl cs) as [_ Hc Hcap Ht]. fold s in Hc, Hcap, Ht.
  pose proof (runs_ok _ [] cs (NewStore_ok maxPending maxPerTenant ttl)) as [_ [(E1 & E2 & _) _]].
  fold (reached maxPending maxPerTenant ttl cs) in E1, E2. fold s in E1, E2. cbn in E1, E2.
  specialize (Ht t). rewrite E1 in Hcap. rewrite E2 in Ht. split_and!; [apply Hc|done|done].
Qed.

(** [Approve] answers with a receipt exactly when the request exists and is either already approved by this
    principal, or pending, not expired at the call's first clock reading, not the principal's own, bound to the live
    revisions, and durably recorded.  The receipt is the one the request keeps.  A call that answers with an error
    records nothing and changes no request, except that requests past their expiry become expired. *)
Theorem approve_decides maxPending maxPerTenant ttl cs clk id approver live commit s' o res :
  let s := (reached maxPending maxPerTenant ttl cs).1 in
  Approve clk s id approver live commit = (s', o, res) →
  ((∃ rc, res = inr rc) ↔
    ∃ r, as_byID s !! id = Some r ∧
      (rq_state r = StateApproved ∧ rq_approver r = approver ∨ ∃ digest, approvable clk r approver live commit digest)) ∧
  (∀ rc, res = inr rc → rc_valid rc = true ∧ ∃ q, as_byID s' !! id = Some q ∧ rq_state q = StateApproved ∧ receipt q = rc) ∧
  (∀ e, res = inl e → o = None ∧ ∀ id' r, as_byID s !! id' = Some r →
    ∃ r', as_byID s' !! id' = Some r' ∧ (r' = r ∨ rq_state r' = StateExpired)).
Proof.
  intros s E. pose proof (reached_ok maxPending maxPerTenant ttl cs) as Hok. fold s in Hok.
  pose proof (Approve_spec _ _ _ _ _ _ _ _ _ _ Hok E) as (Hok' & Hev & Hres). destruct res as [e|rc].
  - destruct Hres as (-> & He & Hno). split_and!.
    + split; [by intros [rc ?]|]. intros (r & Hr & Hc). destruct (Hno r Hr) as [Ha Hb]. exfalso. destruct Hc as [?|[d ?]]; [tauto|by eapply Hb].
    + done.
    + intros e' _. split; [done|]. intros id' r Hr. destruct (ev_requests _ _ Hev _ _ Hr) as (r' & Hr' & _). exists r'.
      split; [done|]. by apply (ex_only _ _ _ He id').
  - destruct Hres as (r & q & Hr & Hq & Hst & Hap & Hrc & Hc). split_and!.
    + split; [intros _|eauto]. exists r. split; [done|]. destruct Hc as [(_ & _ & <-)|(d & Hd & _)]; eauto.
    + intros ? [= <-]. pose proof (ro_outcome _ _ _ _ (so_requests _ _ Hok' _ _ Hq)) as Ho. unfold outcome_ok in Ho. rewrite Hst in Ho.
      destruct Ho as (_ & d & nw & Eg & _). rewrite Hrc in Eg. injection Eg as ->. split; [done|]. exists q. unfold receipt. by rewrite Hrc.
    + done.
Qed.
End operations.

(** ** The admin handler ([ui_mcp.go], [ui_helpers.go])

    The principal of a call is [auditActor]: the session's subject or e-mail, or the Basic user,
    followed by the client's address; or the bare address. *)

Record UISession := mkUISession { us_Sub : string; us_Email : string }.
(** [ip] is [realClientIP(r)], [sess] the session cookie that was read, [basic] is [uiUser(r)]. *)
Definition auditActor (ip : string) (sess : option UISession) (basic : string) : string :=
  let name := match sess with Some s => if (us_Sub s =? "")%string then us_Email s else us_Sub s | None => "" end in
  let name := if (name =? "")%string then basic else name in
  if negb (name =? "")%string then name ++ "@" ++ ip else ip.

Definition zero_revisions : Revisions := mkRevs 0 0 0 0.
Record mcpDecisionReq := mkDecisionReq { dq_RequestID : string; dq_Tenant : string; dq_Action : string; dq_Reason : string }.

(** The decision of [apiMCPApprovalDecision], after the role check: [None] is an invalid action. *)
Definition apiMCPApprovalDecision (clk : Clock) (s : Store) (req : mcpDecisionReq) (actor : PrincipalID) (commit : Committer) :
    Store * option Committed * option (result bool) :=
  if (dq_Action req =? "approve")%string then
    let '(s, o, res) := Approve clk s (dq_RequestID req) actor zero_revisions commit in
    (s, o, Some (rc ← res; mret (rc_valid rc)))
  else if (dq_Action req =? "reject")%string then
    let '(s, o, res) := Reject clk s (dq_RequestID req) actor (dq_Reason req) commit in
    (s, o, Some (_ ← res; mret true))
  else (s, None, None).

(** [mcpDisabledCommitter.CommitDecision]: the committer the handlers are built with. *)
Definition disabled_CommitDecision : Committer := λ _ _ _,
  inl (mkErr ReasonEventDurabilityDegraded "mcpadmin" "event durability not enabled").

Section handler.
Context `{RangeOrder}.

Lemma actor_address name ip ip' : ip ≠ ip' → (name ++ "@" ++ ip)%string ≠ (name ++ "@" ++ ip')%string.
Proof. intros Hne E. apply Hne. apply (inj (String.append name)) in E. by injection E. Qed.

(** One administrator, one session, two addresses: the request is created from the first and approved from the second.
    The two calls carry different principals, so the four-eyes comparison passes. *)
Theorem second_address_approves maxPending maxPerTenant ttl cs clk id r sess basic ip ip' commit digest :
  let s := (reached maxPending maxPerTenant ttl cs).1 in
  us_Sub sess ≠ "" → ip ≠ ip' →
  as_byID s !! id = Some r → rq_requester r = auditActor ip (Some sess) basic →
  open_at clk r → bindingCurrent r zero_revisions = true →
  commit r StateApproved (auditActor ip' (Some sess) basic) = inr digest →
  (apiMCPApprovalDecision clk s (mkDecisionReq id "" "approve" "") (auditActor ip' (Some sess) basic) commit).2 = Some (inr true).
Proof.
  intros s Hsub Hip Hr Hreq Hopen Hb Hc. pose proof (reached_ok maxPending maxPerTenant ttl cs) as Hok. fold s in Hok.
  unfold apiMCPApprovalDecision. cbn [dq_Action dq_RequestID String.eqb Ascii.eqb Bool.eqb].
  destruct (Approve clk s id _ zero_revisions commit) as [[s' o] res] eqn:E.
  pose proof (Approve_spec _ _ _ _ _ _ _ _ _ _ Hok E) as (Hok' & _ & Hres). destruct res as [e|rc].
  - destruct Hres as (_ & _ & Hno). destruct (Hno r Hr) as [_ Hno']. exfalso. apply (Hno' digest). split_and!; [done| |done|done].
    rewrite Hreq. unfold auditActor. apply String.eqb_neq in Hsub. rewrite !Hsub. cbn [negb]. intros Ea. by apply actor_address in Ea.
  - destruct Hres as (_ & q & _ & Hq & Hst & _ & Hrc & _). pose proof (ro_outcome _ _ _ _ (so_requests _ _ Hok' _ _ Hq)) as Ho.
    unfold outcome_ok in Ho. rewrite Hst in Ho. destruct Ho as (_ & d & nw & Eg & _). rewrite Hrc in Eg. injection Eg as ->. done.
Qed.

(** The handler compares the bound revisions with zeros: a pending request bound to a published policy, catalog, registry or
    inspection revision is never approved through it. *)
Theorem bound_request_never_approved maxPending maxPerTenant ttl cs clk id r actor commit :
  let s := (reached maxPending maxPerTenant ttl cs).1 in
  as_byID s !! id = Some r → rq_state r = StatePending → bn_Revisions (rq_binding r) ≠ zero_revisions →
  ∃ e, (apiMCPApprovalDecision clk s (mkDecisionReq id "" "approve" "") actor commit).2 = Some (inl e).
Proof.
  intros s Hr Hp Hb. pose proof (reached_ok maxPending maxPerTenant ttl cs) as Hok. fold s in Hok.
  unfold apiMCPApprovalDecision. cbn [dq_Action dq_RequestID String.eqb Ascii.eqb Bool.eqb].
  destruct (Approve clk s id actor zero_revisions commit) as [[s' o] [e|rc]] eqn:E; [by exists e|].
  apply (Approve_spec _ _ _ _ _ _ _ _ _ _ Hok) in E as (_ & _ & r' & q & Hr' & _ & Hst & _ & _ & Hc). simplify_eq. exfalso.
  destruct Hc as [(_ & _ & ->)|(d & (_ & _ & Hcur & _) & _)]; [congruence|]. apply Hb. unfold bindingCurrent in Hcur.
  destruct (bn_Revisions (rq_binding r)) as [p c g i]. cbn in Hcur. repeat case_if; try done. bprop. by subst.
Qed.

(** No cap bounds the requests the store holds: with one pending request allowed, any number of decided ones stay. *)
Definition nth_id (n : nat) : ID := "r" ++ pretty (N.of_nat n).
Lemma nth_id_inj n m : nth_id n = nth_id m → n = m.
Proof. unfold nth_id. intros [= E%(inj pretty)]. lia. Qed.

Definition plain_binding : Binding := mkBinding "acme" "gateway" "" "" "" "" "" "" "" "" "" "" "" 0 0 "" zero_revisions.
Definition create_reject (n : nat) : list Call :=
  [DoCreate (λ _, 0) (nth_id n) KindOperational "alice" plain_binding;
   DoReject (λ _, 0) (nth_id n) "bob" "" (λ _ _ _, inr "d")].

Lemma lazyExpire_decided clk c r : rq_state r ≠ StatePending → lazyExpireLocked clk c r = (c, r).
Proof. intros Hr. destruct c as [s n]. unfold lazyExpireLocked. by rewrite bool_decide_false. Qed.
Lemma sweep_decided clk c : map_Forall (λ _ r, rq_state r ≠ StatePending) (as_byID c.1) → sweepLocked clk c = c.
Proof.
  intros Hall. unfold sweepLocked. assert (Forall (λ kv, rq_state kv.2 ≠ StatePending) (range (as_byID c.1))) as Hf.
  { apply Forall_forall. intros [k r] Hin%elem_of_range. by apply (Hall k r). }
  clear Hall. induction Hf as [|[k r] l Hr _ IH]; [done|]. cbn [foldl]. by rewrite lazyExpire_decided.
Qed.

Lemma pending_none (P : string * Request → Prop) `{∀ x, Decision (P x)} (m : gmap string Request) :
  map_Forall (λ _ r, rq_state r ≠ StatePending) m → (∀ kv, P kv → rq_state kv.2 = StatePending) → size (filter P m) = 0%nat.
Proof.
  intros Hall HP. replace (filter P m) with (∅ : gmap string Request); [apply map_size_empty|]. symmetry. apply map_empty.
  intros k. apply map_lookup_filter_None. right. intros r Hr Hk. apply (Hall k r Hr). by apply (HP (k, r)).
Qed.

(** Creation succeeds where nothing is pending, and an approval or a rejection settles what is open. *)
Lemma Create_room clk s log id kind requester b :
  store_ok s log → map_Forall (λ _ r, rq_state r ≠ StatePending) (as_byID s) → as_byID s !! id = None →
  0 < as_maxPending s → 0 < as_maxPerTenant s →
  id ≠ "" → kind ≠ KindUnset → requester ≠ "" → bn_Tenant b ≠ "" → bn_Capability b ≠ "" →
  let r := created s id kind requester b (clk 0%nat) in
  Create clk s id kind requester b = (set_count (put s r) (bn_Tenant b) 1, inr r).
Proof.
  intros Hok Hall Hnew H1 H2 Hid Hk Hq Ht Hc r. unfold Create. rewrite bool_decide_false by done.
  rewrite (proj2 (String.eqb_neq _ _) Hid), (proj2 (String.eqb_neq _ _) Hq), (proj2 (String.eqb_neq _ _) Ht), (proj2 (String.eqb_neq _ _) Hc).
  cbn [orb]. rewrite Hnew, (sweep_decided _ (s, 0%nat)) by done.
  assert (tenant_count s (bn_Tenant b) = 0) as E by (rewrite (so_counts _ _ Hok); unfold pending_of; rewrite pending_none; [done..|naive_solver]).
  assert (pendingCountLocked s = 0) as E' by (unfold pendingCountLocked; by rewrite pending_none).
  rewrite E, E', (proj2 (Z.leb_gt _ _) H1), (proj2 (Z.leb_gt _ _) H2). done.
Qed.
Lemma lazyExpire_open clk s r : open_at clk r → lazyExpireLocked clk (s, 0%nat) r = ((s, 1%nat), r).
Proof.
  intros [Hp He]. unfold lazyExpireLocked, expiredAt. rewrite bool_decide_true by done. by rewrite (proj2 (Z.ltb_lt _ _) He).
Qed.
Lemma Approve_open clk s id r approver live commit digest :
  as_byID s !! id = Some r → approvable clk r approver live commit digest →
  ∃ q, Approve clk s id approver live commit =
      (decPendingLocked (put s q) (rq_tenant q), Some (mkCommitted (rq_id r) StateApproved approver digest), inr (granted r approver digest (clk 1%nat))) ∧
    same_facts r q ∧ rq_state q = StateApproved.
Proof.
  intros Hr (Hop & Hne & Hb & Hc). unfold Approve. rewrite Hr, (lazyExpire_open _ _ _ Hop). destruct Hop as [Hp _].
  rewrite bool_decide_false by (by rewrite Hp). rewrite Hp. change (terminal StatePending) with false. cbn [andb].
  rewrite (proj2 (String.eqb_neq _ _) Hne), Hb, Hc. eexists. split; [reflexivity|done].
Qed.
Lemma Reject_open clk s id r approver reason commit digest :
  as_byID s !! id = Some r → open_at clk r → commit r StateRejected approver = inr digest →
  ∃ q, Reject clk s id approver reason commit =
      (decPendingLocked (put s q) (rq_tenant q), Some (mkCommitted (rq_id r) StateRejected approver digest), inr ()) ∧
    same_facts r q ∧ rq_state q = StateRejected.
Proof.
  intros Hr Hop Hc. unfold Reject. rewrite Hr, (lazyExpire_open _ _ _ Hop). destruct Hop as [Hp _].
  rewrite bool_decide_false by (by rewrite Hp). rewrite Hp. change (terminal StatePending) with false. cbn [andb].
  rewrite Hc. eexists. split; [reflexivity|done].
Qed.

Lemma create_reject_adds n s log :
  store_ok s log → as_maxPending s = 1 → as_maxPerTenant s = 1 → 0 < as_ttl s →
  map_Forall (λ _ r, rq_state r ≠ StatePending) (as_byID s) → as_byID s !! nth_id n = None →
  let s' := (runs s (create_reject n)).1 in
  ∃ q, as_byID s' = <[nth_id n := q]> (as_byID s) ∧ rq_state q = StateRejected.
Proof.
  intros Hok E1 E2 Httl Hall Hnew s'. unfold s', create_reject. cbn [runs exec].
  rewrite (Create_room _ s log) by (done || lia). cbn [fst bn_Tenant plain_binding]. set (r := created _ _ _ _ _ _). set (s1 := set_count _ _ _).
  destruct (Reject_open (λ _, 0) s1 (nth_id n) r "bob" "" (λ _ _ _, inr "d") "d") as (q & -> & Hf & Hq).
  { apply lookup_insert_eq. }
  { split; [done|]. cbn. lia. }
  { done. }
  exists q. split; [|done]. cbn [fst snd]. rewrite decPending_byID. cbn. destruct Hf as (-> & _). cbn. by rewrite insert_insert_eq.
Qed.

(** The store is documented as bounded; decided requests are never removed, so it is not. *)
Theorem decided_requests_stay ttl n :
  0 < ttl → ∃ cs, size (as_byID (reached 1 1 ttl cs).1) = n ∧ pendingCountLocked (reached 1 1 ttl cs).1 = 0.
Proof.
  intros Httl.
  assert (∃ cs, size (as_byID (reached 1 1 ttl cs).1) = n ∧
    map_Forall (λ _ r, rq_state r ≠ StatePending) (as_byID (reached 1 1 ttl cs).1) ∧
    ∀ m, (n ≤ m)%nat → as_byID (reached 1 1 ttl cs).1 !! nth_id m = None) as (cs & Hsz & Hall & _).
  { induction n as [|n (cs & Hsz & Hall & Hfree)]; [exists []; split_and!; [done|apply map_Forall_empty|done]|].
    exists (cs ++ create_reject n)%list. unfold reached in *. rewrite runs_app.
    pose proof (runs_ok _ [] cs (NewStore_ok 1 1 ttl)) as [Hok [(E1 & E2 & E3) _]].
    destruct (runs (NewStore 1 1 ttl) cs) as [s l]. cbn [fst snd] in *.
    destruct (create_reject_adds n s _ Hok E1 E2) as (q & Eq & Hq); [by rewrite E3|done|by apply Hfree|].
    destruct (runs s (create_reject n)) as [s' l']. cbn [fst snd] in *. rewrite Eq. split_and!.
    - rewrite map_size_insert_None by (by apply Hfree). lia.
    - apply map_Forall_insert_2; [by rewrite Hq|done].
    - intros m Hm. rewrite lookup_insert_ne; [apply Hfree; lia|]. intros ?%nth_id_inj. lia. }
  exists cs. split; [done|]. unfold pendingCountLocked. by rewrite pending_none.
Qed.
End handler.

(** ** Witnesses *)

Definition accept_all : Committer := λ _ _ _, inr "evidence".
Definition sample_calls : list Call :=
  [DoCreate (λ _, 100) "a" KindOperational "alice" plain_binding;
   DoCreate (λ _, 100) "b" KindOperational "alice@10.0.0.1" plain_binding;
   DoApprove (λ _, 110) "a" "alice" zero_revisions accept_all;
   DoApprove (λ _, 120) "a" "bob" zero_revisions accept_all].
Definition sample_store : Store := (reached (H := default_range) 8 4 50 sample_calls).1.

Lemma approval_lifecycle_witness :
  ∃ r, as_byID sample_store !! "a" = Some r ∧ rq_state r = StateApproved ∧ rq_approver r = "bob" ∧ rq_requester r = "alice" ∧
    as_byID (runs (H := default_range) sample_store [DoReject (λ _, 130) "a" "carol" "" accept_all; DoGet (λ _, 999) "a" "acme"]).1 !! "a" = Some r.
Proof.
  pose proof (approval_lifecycle (H := default_range) 8 4 50 sample_calls
    [DoReject (λ _, 130) "a" "carol" "" accept_all; DoGet (λ _, 999) "a" "acme"] "a") as Hl.
  destruct (as_byID sample_store !! "a") as [r|] eqn:E; [|vm_compute in E; discriminate E].
  exists r. specialize (Hl r). unfold sample_store in E |- *. destruct (reached _ _ _ _) as [s log] eqn:Er. cbn [fst] in *.
  destruct (Hl E) as (_ & _ & _ & r' & Hr' & _ & Hsame).
  assert (rq_state r = StateApproved ∧ rq_approver r = "bob" ∧ rq_requester r = "alice") as (E1 & E2 & E3).
  { apply (f_equal fst) in Er. cbn [fst] in Er. rewrite <- Er in E. vm_compute in E. injection E as <-. done. }
  split_and!; [done..|]. rewrite Hr'. f_equal. apply Hsame. by rewrite E1.
Defined.

Lemma approve_decides_witness :
  ∃ s' o rc, Approve (λ _, 125) sample_store "b" "bob" zero_revisions accept_all = (s', o, inr rc) ∧ rc_valid rc = true.
Proof.
  destruct (Approve (λ _, 125) sample_store "b" "bob" zero_revisions accept_all) as [[s' o] res] eqn:E.
  pose proof (approve_decides (H := default_range) 8 4 50 sample_calls (λ _, 125) "b" "bob" zero_revisions accept_all s' o res E) as (_ & Hrc & _).
  assert (∃ rc, res = inr rc) as [rc ->] by (apply (f_equal snd) in E; vm_compute in E; eexists; symmetry; exact E).
  exists s', o, rc. split; [done|]. by apply Hrc.
Defined.
