(* ===== verification/McpAdmin.v ===== *)
(** * MCP administration: bounds and the policy service

    [internal/mcp/adminapi]: [limits.go], [policy_service.go]; [Code] of [internal/mcp/mcperr].

    The policy service compiles a candidate document and validates, simulates or compares it with
    the compiler and the evaluator the runtime uses.  It changes nothing.  A policy store is
    resolved by its capability's name through a function, the service's [PolicyStores]; the clock
    reading of a call is an argument.

    - [admin_limits_valid]: what a validated bound set promises, and that the defaults are one.
    - [service_agrees]: validation accepts what compiles, and a simulated case is decided the way the engine decides it. *)

From S2P Require Import Prelude GoStrings McpInput McpCondition McpCompile McpEngine McpSimulate.

(** ** Bounds ([limits.go]) *)

Definition capMaxRequestBytes : Z := Z.shiftl 4 20.
Definition capMaxCandidateBytes : Z := Z.shiftl 2 20.
Definition capMaxPageSize : Z := 1000.
Definition capMaxQueryRange : Duration := 366 * 24 * Hour.
Definition capMaxFilters : Z := 32.
Definition capMaxExplainEntries : Z := 4096.
Definition capMaxConcurrentSims : Z := 64.
Definition capMaxSimCorpus : Z := Z.shiftl 1 16.
Definition capMaxCompareSamples : Z := 4096.
Definition capMaxPendingApprovals : Z := Z.shiftl 1 16.
Definition capMaxApprovalsPerTenant : Z := 4096.
Definition capMaxApprovalTTL : Duration := 30 * 24 * Hour.
Definition capMinApprovalTTL : Duration := Minute.
Definition capMaxPublicationReqs : Z := 4096.
Definition capMaxMgmtTools : Z := 64.
Definition capMaxMgmtInputBytes : Z := Z.shiftl 2 20.
Definition capMaxMgmtOutputBytes : Z := Z.shiftl 4 20.
Definition capMaxInventoryResults : Z := Z.shiftl 1 16.
Definition capMaxHealthBytes : Z := Z.shiftl 1 20.
Definition capMaxGUIRows : Z := 5000.
Definition capMinConfigUpdateGap : Duration := 0.
Definition capMaxProjectionScan : Z := Z.shiftl 1 20.
Definition capMaxSpoolScanBytes : Z := Z.shiftl 8 30.

Record Config := mkConfig {
  ad_MaxRequestBytes : Z; ad_MaxCandidateBytes : Z; ad_MaxPageSize : Z; ad_MaxQueryRange : Duration; ad_MaxFilters : Z;
  ad_MaxExplainEntries : Z; ad_MaxConcurrentSims : Z; ad_MaxSimCorpus : Z; ad_MaxCompareSamples : Z; ad_MaxPendingApprovals : Z;
  ad_MaxApprovalsPerTenant : Z; ad_ApprovalTTL : Duration; ad_MaxPublicationReqs : Z; ad_MaxMgmtTools : Z; ad_MaxMgmtInputBytes : Z;
  ad_MaxMgmtOutputBytes : Z; ad_MaxInventoryResults : Z; ad_MaxHealthBytes : Z; ad_MaxGUIRows : Z; ad_MinConfigUpdateGap : Duration;
  ad_MaxProjectionScan : Z; ad_MaxSpoolScanBytes : Z;
}.

(** The table [ints]: name, value, ceiling. *)
Definition admin_checks (c : Config) : list (string * Z * Z) :=
  [("MaxRequestBytes", ad_MaxRequestBytes c, capMaxRequestBytes); ("MaxCandidateBytes", ad_MaxCandidateBytes c, capMaxCandidateBytes);
   ("MaxPageSize", ad_MaxPageSize c, capMaxPageSize); ("MaxFilters", ad_MaxFilters c, capMaxFilters);
   ("MaxExplainEntries", ad_MaxExplainEntries c, capMaxExplainEntries); ("MaxConcurrentSims", ad_MaxConcurrentSims c, capMaxConcurrentSims);
   ("MaxSimCorpus", ad_MaxSimCorpus c, capMaxSimCorpus); ("MaxCompareSamples", ad_MaxCompareSamples c, capMaxCompareSamples);
   ("MaxPendingApprovals", ad_MaxPendingApprovals c, capMaxPendingApprovals);
   ("MaxApprovalsPerTenant", ad_MaxApprovalsPerTenant c, capMaxApprovalsPerTenant);
   ("MaxPublicationReqs", ad_MaxPublicationReqs c, capMaxPublicationReqs); ("MaxMgmtTools", ad_MaxMgmtTools c, capMaxMgmtTools);
   ("MaxMgmtInputBytes", ad_MaxMgmtInputBytes c, capMaxMgmtInputBytes); ("MaxMgmtOutputBytes", ad_MaxMgmtOutputBytes c, capMaxMgmtOutputBytes);
   ("MaxInventoryResults", ad_MaxInventoryResults c, capMaxInventoryResults); ("MaxHealthBytes", ad_MaxHealthBytes c, capMaxHealthBytes);
   ("MaxGUIRows", ad_MaxGUIRows c, capMaxGUIRows); ("MaxProjectionScan", ad_MaxProjectionScan c, capMaxProjectionScan);
   ("MaxSpoolScanBytes", ad_MaxSpoolScanBytes c, capMaxSpoolScanBytes)].
Definition adminErr {A} (r : Reason) (detail : string) : result A := inl (mkErr r "adminlimits" detail).
Fixpoint run_admin_checks (l : list (string * Z * Z)) : result () :=
  match l with
  | [] => inr ()
  | (name, v, c) :: l =>
      if v <=? 0 then adminErr ReasonAdminRequestInvalid (name ++ " must be > 0")
      else if v >? c then adminErr ReasonAdminRangeExceeded (name ++ " exceeds ceiling") else run_admin_checks l
  end.
Definition Config_Validate (c : Config) : result () :=
  _ ← run_admin_checks (admin_checks c);
  if ad_MaxApprovalsPerTenant c >? ad_MaxPendingApprovals c
  then adminErr ReasonAdminRequestInvalid "MaxApprovalsPerTenant exceeds MaxPendingApprovals" else
  if (ad_MaxQueryRange c <=? 0) || (ad_MaxQueryRange c >? capMaxQueryRange)
  then adminErr ReasonAdminRangeExceeded "MaxQueryRange out of range" else
  if (ad_ApprovalTTL c <? capMinApprovalTTL) || (ad_ApprovalTTL c >? capMaxApprovalTTL)
  then adminErr ReasonAdminRangeExceeded "ApprovalTTL out of range" else
  if ad_MinConfigUpdateGap c <? capMinConfigUpdateGap
  then adminErr ReasonAdminRequestInvalid "MinConfigUpdateGap must be >= 0" else mret ().
Definition NewLimits (c : Config) : result Config := _ ← Config_Validate c; mret c.
Definition DefaultLimits : Config :=
  mkConfig (Z.shiftl 1 20) (Z.shiftl 1 20) 200 (90 * 24 * Hour) 16 1024 8 4096 512 8192 1024 (24 * Hour) 512 32 (Z.shiftl 1 20)
    (Z.shiftl 1 20) 4096 (Z.shiftl 256 10) 1000 Second (Z.shiftl 1 18) (Z.shiftl 512 20).

(** ** Reason codes ([mcperr.go]) *)

Definition Reason_Code (r : Reason) : string :=
  match r with
  | ReasonPolicySnapshotInvalid => "policy_snapshot_invalid"
  | ReasonPolicyRuleInvalid => "policy_rule_invalid"
  | ReasonPolicyConditionInvalid => "policy_condition_invalid"
  | ReasonPolicyObligationInvalid => "policy_obligation_invalid"
  | ReasonPolicyInputInvalid => "policy_input_invalid"
  | ReasonPolicyNamespaceMismatch => "policy_namespace_mismatch"
  | ReasonPolicyStaleRevision => "policy_stale_revision"
  | ReasonPolicyLimitExceeded => "policy_limit_exceeded"
  | ReasonEventDurabilityDegraded => "event_durability_degraded"
  | ReasonAdminRequestInvalid => "admin_request_invalid"
  | ReasonAdminRangeExceeded => "admin_range_exceeded"
  | ReasonAdminNotFound => "admin_not_found"
  | ReasonAdminForbidden => "admin_forbidden"
  | ReasonApprovalNotFound => "approval_not_found"
  | ReasonApprovalSelfApproval => "approval_self_approval"
  | ReasonApprovalExpired => "approval_expired"
  | ReasonApprovalStaleRevision => "approval_stale_revision"
  | ReasonApprovalTerminalState => "approval_terminal_state"
  | ReasonApprovalBindingMismatch => "approval_binding_mismatch"
  | ReasonPublicationValidationFailed => "publication_validation_failed"
  | ReasonPublicationStaleBase => "publication_stale_base"
  | ReasonPublicationNotApproved => "publication_not_approved"
  | ReasonPublicationDurabilityRequired => "publication_durability_required"
  end.
(** The outermost kernel error of the chain. *)
Definition ReasonOf (e : Error) : Reason := e_Reason e.

(** ** The policy service ([policy_service.go]) *)

Definition capToPolicy (capability : string) : result Capability :=
  if (capability =? "gateway")%string then inr CapGateway else
  if (capability =? "management")%string then inr CapManagement else
  inl (mkErr ReasonAdminRequestInvalid "adminapi.cap" "unknown capability").
Definition mustCap (capability : string) : Capability :=
  match capToPolicy capability with inr c => c | inl _ => CapabilityUnset end.

Record PolicyService := mkPolicyService { ps_plim : Limits; ps_lim : Config }.

Record ValidateResult := mkValidateResult {
  vr_OK : bool; vr_Capability : string; vr_CandidateHash : string; vr_RuleCount : Z; vr_DefaultAction : string;
  vr_SchemaVersion : Z; vr_Reason : string;
}.
Record SimCaseResult := mkSimCase { sc_ID : string; sc_Action : string; sc_Reason : string; sc_MatchedRule : string }.
Record SimResult := mkSimResult { sr_Capability : string; sr_CandidateHash : string; sr_Cases : list SimCaseResult }.
Record CompareResult := mkCompareResult {
  cp_Capability : string; cp_CandidateHash : string; cp_BaseRevision : Z; cp_NewAllow : Z; cp_NewDeny : Z; cp_NewQuarantine : Z;
  cp_NewApprovalRequired : Z; cp_AffectedRules : list string; cp_SampleCaseIDs : list string;
}.

Definition serviceErr {A} (r : Reason) (op detail : string) : result A := inl (mkErr r op detail).

Section service.
Context `{TimeData, Sha256, SortSlice, DocDecoder}.

Definition candidateHash (raw : string) : string := sha256_hex raw.

(** The metadata of a candidate compiled at [now]. *)
Definition candidate_meta (now : Instant) : CreatedMeta := mkMeta "adminapi" (FormatRFC3339 (Unix now)) "candidate".

Definition compile (ps : PolicyService) (now : Instant) (capability raw : string) : result Snapshot :=
  if (String.length raw =? 0)%nat then serviceErr ReasonAdminRequestInvalid "adminapi.compile" "empty candidate" else
  if Z.of_nat (String.length raw) >? ad_MaxCandidateBytes (ps_lim ps)
  then serviceErr ReasonAdminRangeExceeded "adminapi.compile" "candidate exceeds byte bound" else
  _ ← capToPolicy capability;
  match Compile raw (candidate_meta now) (ps_plim ps) with
  | inl e => inl (Wrap ReasonPublicationValidationFailed "adminapi.compile" "candidate failed validation" (Some e))
  | inr snap =>
      if negb (sn_capability snap =? mustCap capability)
      then serviceErr ReasonPublicationValidationFailed "adminapi.compile" "candidate capability mismatch" else inr snap
  end.

Definition PS_Validate (ps : PolicyService) (now : Instant) (capability raw : string) : ValidateResult :=
  match compile ps now capability raw with
  | inl e => mkValidateResult false capability "" 0 "" 0 (Reason_Code (ReasonOf e))
  | inr snap =>
      mkValidateResult true capability (candidateHash raw) (Z.of_nat (length (sn_rules snap))) (Action_String (sn_defaultAction snap))
        (sn_schemaVersion snap) ""
  end.

Definition sim_case (r : CaseResult) : SimCaseResult :=
  let d := cres_Decision r in mkSimCase (cres_ID r) (Action_String (d_Action d)) (d_Reason d) (d_MatchedRule d).
(** [None]: the evaluation of a case does not return. *)
Definition Simulate (ps : PolicyService) (now : Instant) (capability raw : string) (cases : list Case) : option (result SimResult) :=
  if Z.of_nat (length cases) >? ad_MaxSimCorpus (ps_lim ps)
  then Some (serviceErr ReasonAdminRangeExceeded "adminapi.simulate" "corpus exceeds bound") else
  match compile ps now capability raw with
  | inl e => Some (inl e)
  | inr snap =>
      results ← Corpus (ps_plim ps) (Some snap) cases;
      Some (rs ← results; mret (mkSimResult capability (candidateHash raw) (sim_case <$> rs)))
  end.

(** [stores] is [PolicyStores.Store]. *)
Definition PS_Compare `{RangeOrder} (ps : PolicyService) (now : Instant) (stores : string → option Store) (capability raw : string)
    (cases : list Case) : option (result CompareResult) :=
  if Z.of_nat (length cases) >? ad_MaxSimCorpus (ps_lim ps)
  then Some (serviceErr ReasonAdminRangeExceeded "adminapi.compare" "corpus exceeds bound") else
  match compile ps now capability raw with
  | inl e => Some (inl e)
  | inr newSnap =>
      match stores capability with
      | None => Some (serviceErr ReasonAdminNotFound "adminapi.compare" "no policy store for capability")
      | Some store =>
          compared ← Compare (ps_plim ps) (st_cur store) (Some newSnap) cases;
          Some (cmp ← compared;
                mret (mkCompareResult capability (candidateHash raw) (CurrentRevision store) (cmp_NewAllow cmp) (cmp_NewDeny cmp)
                        (cmp_NewQuarantine cmp) (cmp_NewApprovalRequired cmp) (cmp_AffectedRules cmp)
                        (take (Z.to_nat (ad_MaxCompareSamples (ps_lim ps))) (ch_ID <$> cmp_Samples cmp))))
      end
  end.

(** ** What holds of it *)

(** A candidate the service accepts: not empty, within bounds, compiled for the capability that was named. *)
Lemma compile_inv ps now capability raw snap :
  compile ps now capability raw = inr snap →
  raw ≠ "" ∧ Z.of_nat (String.length raw) ≤ ad_MaxCandidateBytes (ps_lim ps) ∧
  Compile raw (candidate_meta now) (ps_plim ps) = inr snap ∧
  (capability = "gateway" ∧ sn_capability snap = CapGateway ∨ capability = "management" ∧ sn_capability snap = CapManagement).
Proof.
  unfold compile. destruct (String.length raw =? 0)%nat eqn:El; [done|]. apply Nat.eqb_neq in El. case_if; [done|]. bprop.
  destruct (capToPolicy capability) as [e|c] eqn:Ec; [done|]. cbn [mbind result_bind].
  destruct (Compile raw _ _) as [e|s] eqn:Es; [done|]. unfold mustCap. rewrite Ec. case_if; [done|]. bprop. intros [= <-].
  split_and!; [by intros ->|done|done|]. unfold capToPolicy in Ec. repeat case_if; simplify_eq; bprop; auto.
Qed.
End service.

(** Every integer bound of a validated set is positive and below its ceiling. *)
Lemma run_admin_checks_ok l : run_admin_checks l = inr () ↔ Forall (λ x, 0 < x.1.2 ≤ x.2) l.
Proof.
  induction l as [|[[name v] c] l IH]; simpl; [split; [constructor|done]|]. rewrite Forall_cons. cbn.
  destruct (v <=? 0) eqn:E1; bprop; [split; [done|intros [[] _]; lia]|].
  destruct (v >? c) eqn:E2; bprop; [split; [done|intros [[] _]; lia]|]. rewrite IH. split; [intros; split; [lia|done]|tauto].
Qed.

(** A bound set is accepted exactly when every integer bound is positive and below its ceiling, the per-tenant cap fits
    in the global one, and the durations are in range; the default set is accepted. *)
Theorem admin_limits_valid c :
  (Config_Validate c = inr () ↔
    Forall (λ x, 0 < x.1.2 ≤ x.2) (admin_checks c) ∧ ad_MaxApprovalsPerTenant c ≤ ad_MaxPendingApprovals c ∧
    0 < ad_MaxQueryRange c ≤ capMaxQueryRange ∧ capMinApprovalTTL ≤ ad_ApprovalTTL c ≤ capMaxApprovalTTL ∧ 0 ≤ ad_MinConfigUpdateGap c) ∧
  NewLimits DefaultLimits = inr DefaultLimits.
Proof.
  split; [|done]. rewrite <- run_admin_checks_ok. unfold Config_Validate.
  destruct (run_admin_checks (admin_checks c)) as [e|[]]; cbn [mbind result_bind]; [naive_solver|].
  split.
  - intros E. repeat case_if; try discriminate E. bprop. unfold capMinConfigUpdateGap in *. split_and!; (done || lia).
  - intros (_ & H1 & H2 & H3 & H4). repeat case_if; try done; bprop;
      repeat match goal with E : _ || _ = true |- _ => apply orb_true_iff in E as [E|E]; bprop end; unfold capMinConfigUpdateGap in *; lia.
Qed.

Section candidates.
Context `{TimeData, Sha256, SortSlice, DocDecoder}.

Lemma candidate_snapshot_ok ps now capability raw snap : compile ps now capability raw = inr snap → snapshot_ok snap.
Proof.
  intros (_ & _ & HC & _)%compile_inv. unfold Compile in HC. apply result_bind_inr in HC as (rs & _ & HC). by apply compile_document_ok in HC.
Qed.

(** What the service says of a candidate agrees with what publication would accept: validation says yes exactly when the
    candidate compiles, and then a simulation of a corpus within both bounds returns one outcome per case, in order, each the
    decision the engine takes on that tuple under the candidate. *)
Theorem service_agrees ps now capability raw cases :
  (vr_OK (PS_Validate ps now capability raw) = true ↔ ∃ snap, compile ps now capability raw = inr snap) ∧
  (∀ snap, compile ps now capability raw = inr snap →
    Z.of_nat (length cases) ≤ ad_MaxSimCorpus (ps_lim ps) → Z.of_nat (length cases) ≤ MaxSimCases (ps_plim ps) →
    ∃ res, Simulate ps now capability raw cases = Some (inr res) ∧ sr_CandidateHash res = candidateHash raw ∧
      Forall2 (λ c o, ∃ d tr err, Evaluate (ps_plim ps) (Some snap) (Some (cs_Input c)) = Some (d, tr, err) ∧
        o = mkSimCase (cs_ID c) (Action_String (d_Action d)) (d_Reason d) (d_MatchedRule d)) cases (sr_Cases res)).
Proof.
  split; [unfold PS_Validate; destruct (compile ps now capability raw); naive_solver|]. intros snap Hc H1' H2'.
  pose proof (candidate_snapshot_ok _ _ _ _ _ Hc) as Hok. unfold Simulate.
  assert ((Z.of_nat (length cases) >? ad_MaxSimCorpus (ps_lim ps)) = false) as -> by (rewrite Z.gtb_ltb; apply Z.ltb_ge; lia).
  rewrite Hc. unfold Corpus. assert ((Z.of_nat (length cases) >? MaxSimCases (ps_plim ps)) = false) as -> by (rewrite Z.gtb_ltb; apply Z.ltb_ge; lia).
  assert (∃ rs, corpus_loop (ps_plim ps) (Some snap) cases = Some rs ∧
    Forall2 (λ c o, ∃ d tr err, Evaluate (ps_plim ps) (Some snap) (Some (cs_Input c)) = Some (d, tr, err) ∧ o = mkCaseResult (cs_ID c) d) cases rs)
    as (rs & -> & Hrs).
  { clear H1' H2'. induction cases as [|c cases (rs & Hl & IH)]; [by exists []|]. cbn [corpus_loop]. unfold sim_decision.
    destruct (evaluate_outcome (ps_plim ps) snap (cs_Input c) Hok) as (d & tr & err & He & _). rewrite He, Hl. cbn.
    eexists. split; [reflexivity|]. constructor; [|done]. eauto. }
  cbn. eexists. split; [reflexivity|]. split; [done|]. cbn [sr_Cases]. rewrite Forall2_fmap_r. eapply Forall2_impl; [exact Hrs|].
  intros c o (d & tr & err & He & ->). exists d, tr, err. done.
Qed.
End candidates.
