(* ===== verification/McpPublication.v ===== *)
(** * MCP publication: four eyes on the active policy

    [internal/mcp/adminapi/publication.go]; the policy holder of [mcp_policy.go].

    A publication is created (compiled and bound to a request of the approval store), approved or
    rejected by another principal, and published: a durable event, then the policy store.  The
    approval store, the table of pending candidates and the two policy stores have a lock each, and
    publications are serialised by a fourth, so calls interleave between their critical sections.

    A call is a [prog], a tree of atomic actions on the [World]: one action per critical section, and
    an action that cannot run yet is a lock somebody holds.  Sequencing is [bind], Go's early
    return of an error is [x ⇐ p; q].  A pool of calls steps by running one action of one call, so
    the theorems are about every interleaving of any number of calls, of every [Committer] and clock.
    [wp] is a rely-guarantee assertion on one call; [pool_invariant] composes the calls.

    The startup path that loads a policy from disk ([holder_publish]) precedes the calls, hence the
    pool starts from any world that startup can leave.

    - [published_four_eyes]: what stands behind every snapshot that becomes active.
    - [publication_committed]: a durable publication event is never left without its publication.
    - [approved_candidate_stays]: approved candidates that nobody publishes are retained. *)

From S2P Require Import Prelude GoStrings McpInput McpCondition McpCompile McpEngine McpApproval McpAdmin.

(** ** The holder of the policy stores ([mcp_policy.go]) *)

Inductive mcpPolicyState := mcpPolNotConfigured | mcpPolLoaded | mcpPolInvalid.
#[global] Instance mcpPolicyState_dec : EqDecision mcpPolicyState.
Proof. solve_decision. Defined.
Record mcpPolicyHolder := mkHolder {
  ph_state : mcpPolicyState; ph_reason : string; ph_gw : McpEngine.Store; ph_mgt : McpEngine.Store; ph_revision : Z; ph_hash : string;
  ph_ruleCount : Z; ph_defaultAction : string;
}.
#[global] Instance mcpPolicyHolder_eta : Eta mcpPolicyHolder := λ h,
  mkHolder (ph_state h) (ph_reason h) (ph_gw h) (ph_mgt h) (ph_revision h) (ph_hash h) (ph_ruleCount h) (ph_defaultAction h).
Definition newMCPPolicyHolder : mcpPolicyHolder :=
  mkHolder mcpPolNotConfigured "" (McpEngine.NewStore CapGateway) (McpEngine.NewStore CapManagement) 0 "" 0 "".
Definition clear_meta (h : mcpPolicyHolder) : mcpPolicyHolder :=
  h <| ph_revision := 0 |> <| ph_hash := "" |> <| ph_ruleCount := 0 |> <| ph_defaultAction := "" |>.
(** The error is [errPolicy("policy snapshot could not be published")]. *)
Definition holder_publish (h : mcpPolicyHolder) (state : mcpPolicyState) (reason : string) (snap : option Snapshot) : mcpPolicyHolder * bool :=
  let h := clear_meta (h <| ph_state := state |> <| ph_reason := reason |>) in
  match snap with
  | Some s =>
      if negb (bool_decide (state = mcpPolLoaded)) then (h, true) else
      match McpEngine.Publish (ph_gw h) (CurrentRevision (ph_gw h)) (Some s) with
      | (_, Some _) => (h <| ph_state := mcpPolInvalid |> <| ph_reason := "qualification_policy_publish_failed" |>, false)
      | (gw, None) =>
          (h <| ph_gw := gw |> <| ph_revision := sn_revision s |> <| ph_hash := sn_hash s |>
             <| ph_ruleCount := Z.of_nat (length (sn_rules s)) |> <| ph_defaultAction := Action_String (sn_defaultAction s) |>, true)
      end
  | None => (h, true)
  end.
Definition invalidateForStartupFailure (h : mcpPolicyHolder) : mcpPolicyHolder :=
  if negb (bool_decide (ph_state h = mcpPolLoaded)) then h else
  clear_meta (h <| ph_state := mcpPolInvalid |> <| ph_reason := "runtime_start_failed" |>) <| ph_gw := McpEngine.NewStore CapGateway |>.

(** ** The world *)

Record pendingPublication := mkPending {
  pp_capability : string; pp_tenant : string; pp_snap : Snapshot; pp_base : Z; pp_proposed : Z; pp_hash : string;
}.
Record PublishResult := mkPublishResult {
  pr_Capability : string; pr_Revision : Z; pr_CandidateHash : string; pr_DistributionState : string; pr_EvidenceDigest : string;
}.

(** What happened, oldest first: the durable records, and the snapshots that became active. *)
Inductive Event :=
  | EvDecision (c : Committed)
  | EvPublication (capability tenant hash : string) (base proposed : Z) (digest : string)
  | EvPublished (id : ID) (capability : string) (base : Z) (snap : Snapshot).

(** [w_mu] and [w_pubMu] are the service's two mutexes; [w_pubMu] names its owner. *)
Record World := mkWorld {
  w_gw : McpEngine.Store; w_mgt : McpEngine.Store; w_approvals : McpApproval.Store; w_pending : gmap ID pendingPublication;
  w_mu : bool; w_pubMu : option nat; w_log : list Event;
}.
#[global] Instance World_eta : Eta World := λ w,
  mkWorld (w_gw w) (w_mgt w) (w_approvals w) (w_pending w) (w_mu w) (w_pubMu w) (w_log w).

(** [storeFor], the [PolicyStores] of the service. *)
Definition storeFor (w : World) (capability : string) : option McpEngine.Store :=
  if (capability =? "gateway")%string then Some (w_gw w) else
  if (capability =? "management")%string then Some (w_mgt w) else None.
Definition set_store (w : World) (capability : string) (st : McpEngine.Store) : World :=
  if (capability =? "gateway")%string then w <| w_gw := st |> else
  if (capability =? "management")%string then w <| w_mgt := st |> else w.
Definition record (w : World) (e : Event) : World := w <| w_log := (w_log w ++ [e])%list |>.

(** ** Calls *)

(** [Act f k]: an action that changes the world by [f], or blocks, and goes on with [k] of the world it saw. *)
Inductive prog (A : Type) : Type :=
  | Ret (a : A)
  | Act (f : World → option World) (k : World → prog A).
Arguments Ret {A} _.
Arguments Act {A} _ _.

Fixpoint bind {A B} (p : prog A) (q : A → prog B) : prog B :=
  match p with
  | Ret a => q a
  | Act f k => Act f (λ w, bind (k w) q)
  end.
Notation "x ⟵ p ; q" := (bind p (λ x, q)) (at level 100, p at next level, q at level 200, right associativity).
(** Go's [x, err := p; if err != nil { return err }]. *)
Definition try {A B} (p : prog (result A)) (q : A → prog (result B)) : prog (result B) :=
  bind p (λ r, match r with inl e => Ret (inl e) | inr a => q a end).
Notation "x ⇐ p ; q" := (try p (λ x, q)) (at level 100, p at next level, q at level 200, right associativity).

Definition atomic {A} (f : World → World * A) : prog A := Act (λ w, Some (f w).1) (λ w, Ret (f w).2).
(** A critical section of [s.mu]. *)
Definition under_mu {A} (f : World → World * A) : prog A := Act (λ w, if w_mu w then None else Some (f w).1) (λ w, Ret (f w).2).

Definition pubErr {A} (r : Reason) (detail : string) : result A := inl (mkErr r "adminapi.publish" detail).

Definition lookup (id : ID) : prog (result pendingPublication) :=
  under_mu (λ w, (w, match w_pending w !! id with Some pp => inr pp | None => pubErr ReasonApprovalNotFound "not found" end)).
Definition forget (id : ID) : prog () := under_mu (λ w, (w <| w_pending := delete id (w_pending w) |>, ())).

(** Calls of the approval store, with what its committer recorded. *)
Definition with_approvals {A} (w : World) (r : McpApproval.Store * option Committed * A) : World * A :=
  let '(s, o, a) := r in
  ((match o with Some c => record w (EvDecision c) | None => w end) <| w_approvals := s |>, a).
Definition app_Get (clk : Clock) (id : ID) (tenant : string) : prog (result Request) :=
  atomic (λ w, with_approvals w (let '(s, r) := McpApproval.Get clk (w_approvals w) id tenant in (s, None, r))).
Definition app_Approve (clk : Clock) (id : ID) (approver : PrincipalID) (live : Revisions) (commit : Committer) : prog (result Receipt) :=
  atomic (λ w, with_approvals w (McpApproval.Approve clk (w_approvals w) id approver live commit)).
Definition app_Reject (clk : Clock) (id : ID) (approver : PrincipalID) (reason : string) (commit : Committer) : prog (result ()) :=
  atomic (λ w, with_approvals w (McpApproval.Reject clk (w_approvals w) id approver reason commit)).

Definition isManagementCapability `{Unicode} (capability : string) : bool := EqualFold (TrimSpace capability) "management".

(** [sweepPending] holds [s.mu] while it asks the approval store about each candidate. *)
Definition lock_mu : prog (gmap ID pendingPublication) :=
  Act (λ w, if w_mu w then None else Some (w <| w_mu := true |>)) (λ w, Ret (w_pending w)).
Definition unlock_mu (stale : list ID) : prog () :=
  atomic (λ w, (w <| w_pending := foldr delete (w_pending w) stale |> <| w_mu := false |>, ())).
Fixpoint sweep_stale (clks : ID → Clock) (l : list (ID * pendingPublication)) (stale : list ID) : prog (list ID) :=
  match l with
  | [] => Ret stale
  | (id, pp) :: l =>
      r ⟵ app_Get (clks id) id (pp_tenant pp);
      sweep_stale clks l
        match r with
        | inl _ => (stale ++ [id])%list
        | inr r => if bool_decide (rq_state r = StateRejected) || bool_decide (rq_state r = StateExpired) then (stale ++ [id])%list else stale
        end
  end.

Definition candidate_binding (tenant capability hash : string) (base proposed : Z) : Binding :=
  mkBinding tenant capability "" "" "" "" "" "" "" "" "" "" hash base proposed "" (mkRevs base 0 0 0).

Section service.
Context `{Unicode, TimeData, Sha256, SortSlice, DocDecoder, RangeOrder}.

Definition sweepPending (clks : ID → Clock) : prog () :=
  pending ⟵ lock_mu; stale ⟵ sweep_stale clks (range pending) []; unlock_mu stale.

Definition app_Create (clk : Clock) (id : ID) (kind : Kind) (requester : PrincipalID) (b : Binding) : prog (result Request) :=
  atomic (λ w, with_approvals w (let '(s, r) := McpApproval.Create clk (w_approvals w) id kind requester b in (s, None, r))).

(** [PublicationService.Create]: [now] and [clk] are the clock's readings, [id] is [s.idgen()]. *)
Definition Create (ps : PolicyService) (clks : ID → Clock) (now : Instant) (clk : Clock) (id : ID) (capability tenant : string)
    (requester : PrincipalID) (raw : string) (expectedBase : Z) : prog (result ID) :=
  if isManagementCapability capability
  then Ret (pubErr ReasonAdminForbidden "management MCP is non-mutating in V1; policy publication is not permitted for the management capability")
  else
  _ ⟵ sweepPending clks;
  snap ⇐ Ret (compile ps now capability raw);
  base ⇐ atomic (λ w, (w, match storeFor w capability with
                          | Some store => inr (CurrentRevision store)
                          | None => pubErr ReasonAdminNotFound "no policy store for capability" end));
  if negb (base =? expectedBase) then Ret (pubErr ReasonPublicationStaleBase "expected base revision does not match active") else
  let hash := candidateHash raw in
  let proposed := (base + 1) mod 2 ^ 64 in
  if negb (sn_revision snap =? proposed) then Ret (pubErr ReasonPublicationValidationFailed "candidate policy_revision must equal base+1") else
  _ ⇐ app_Create clk id KindPublication requester (candidate_binding tenant capability hash base proposed);
  _ ⟵ under_mu (λ w, (w <| w_pending := <[id := mkPending capability tenant snap base proposed hash]> (w_pending w) |>, ()));
  Ret (inr id).

Definition Approve (clk : Clock) (id : ID) (approver : PrincipalID) (appCommit : Committer) : prog (result Receipt) :=
  pp ⇐ lookup id;
  live ⇐ atomic (λ w, (w, match storeFor w (pp_capability pp) with
                          | Some store => inr (mkRevs (CurrentRevision store) 0 0 0)
                          | None => pubErr ReasonAdminNotFound "no policy store" end));
  app_Approve clk id approver live appCommit.

Definition Reject (clk : Clock) (id : ID) (approver : PrincipalID) (reason : string) (appCommit : Committer) : prog (result ()) :=
  _ ⇐ lookup id;
  _ ⇐ app_Reject clk id approver reason appCommit;
  _ ⟵ forget id;
  Ret (inr ()).

(** [PublicationCommitter.CommitPublication]: an error, or the digest of the durable event. *)
Notation PublicationCommitter := (string → string → string → Z → Z → result string) (only parsing).
Definition commit_publication (commit : PublicationCommitter) (pp : pendingPublication) : prog (result string) :=
  atomic (λ w,
    match commit (pp_capability pp) (pp_tenant pp) (pp_hash pp) (pp_base pp) (pp_proposed pp) with
    | inl e => (w, inl (Wrap ReasonPublicationDurabilityRequired "adminapi.publish" "publication event did not commit" (Some e)))
    | inr digest => (record w (EvPublication (pp_capability pp) (pp_tenant pp) (pp_hash pp) (pp_base pp) (pp_proposed pp) digest), inr digest)
    end).
Definition store_publish (id : ID) (pp : pendingPublication) : prog (result ()) :=
  atomic (λ w,
    match storeFor w (pp_capability pp) with
    | None => (w, pubErr ReasonAdminNotFound "no policy store")
    | Some store =>
        match McpEngine.Publish store (pp_base pp) (Some (pp_snap pp)) with
        | (_, Some e) => (w, inl (Wrap ReasonPublicationStaleBase "adminapi.publish" "store publish rejected" (Some e)))
        | (store, None) =>
            (record (set_store w (pp_capability pp) store) (EvPublished id (pp_capability pp) (pp_base pp) (pp_snap pp)), inr ())
        end
    end).

Definition publish_body (clk : Clock) (id : ID) (tenant : string) (rc : Receipt) (commit : PublicationCommitter) : prog (result PublishResult) :=
  pp ⇐ lookup id;
  req ⇐ app_Get clk id tenant;
  if negb (bool_decide (rq_state req = StateApproved)) then Ret (pubErr ReasonPublicationNotApproved "request is not approved") else
  if negb (Matches rc (pp_tenant pp) (pp_capability pp) (pp_hash pp) (pp_proposed pp))
  then Ret (pubErr ReasonApprovalBindingMismatch "receipt does not match candidate") else
  current ⇐ atomic (λ w, (w, match storeFor w (pp_capability pp) with
                             | Some store => inr (CurrentRevision store)
                             | None => pubErr ReasonAdminNotFound "no policy store" end));
  if negb (current =? pp_base pp) then Ret (pubErr ReasonPublicationStaleBase "active base revision advanced since request") else
  digest ⇐ commit_publication commit pp;
  _ ⇐ store_publish id pp;
  _ ⟵ forget id;
  Ret (inr (mkPublishResult (pp_capability pp) (pp_proposed pp) (pp_hash pp) "local_only" digest)).

(** [pubMu], taken by call [t] for the whole of [Publish]. *)
Definition lock_pub (t : nat) : prog () :=
  Act (λ w, match w_pubMu w with Some _ => None | None => Some (w <| w_pubMu := Some t |>) end) (λ _, Ret ()).
Definition unlock_pub : prog () := atomic (λ w, (w <| w_pubMu := None |>, ())).
Definition Publish (t : nat) (clk : Clock) (id : ID) (tenant : string) (rc : Receipt) (commit : PublicationCommitter) : prog (result PublishResult) :=
  _ ⟵ lock_pub t;
  r ⟵ publish_body clk id tenant rc commit;
  _ ⟵ unlock_pub;
  Ret r.
End service.

(** ** Interleavings *)

Notation PublicationCommitter := (string → string → string → Z → Z → result string) (only parsing).

(** The calls the handlers make; the approval endpoints reach the approval store directly. *)
Inductive Op :=
  | PubCreate (clks : ID → Clock) (now : Instant) (clk : Clock) (id : ID) (capability tenant : string) (requester : PrincipalID)
      (raw : string) (expectedBase : Z)
  | PubApprove (clk : Clock) (id : ID) (approver : PrincipalID) (commit : Committer)
  | PubReject (clk : Clock) (id : ID) (approver : PrincipalID) (reason : string) (commit : Committer)
  | PubPublish (clk : Clock) (id : ID) (tenant : string) (rc : Receipt) (commit : PublicationCommitter)
  | AppCall (c : Call).

Section pool.
Context `{Unicode, TimeData, Sha256, SortSlice, DocDecoder, RangeOrder}.
Variable ps : PolicyService.

Definition denote (t : nat) (op : Op) : prog () :=
  match op with
  | PubCreate clks now clk id capability tenant requester raw expectedBase =>
      _ ⟵ Create ps clks now clk id capability tenant requester raw expectedBase; Ret ()
  | PubApprove clk id approver commit => _ ⟵ Approve clk id approver commit; Ret ()
  | PubReject clk id approver reason commit => _ ⟵ Reject clk id approver reason commit; Ret ()
  | PubPublish clk id tenant rc commit => _ ⟵ Publish t clk id tenant rc commit; Ret ()
  | AppCall c => atomic (λ w, with_approvals w (exec (w_approvals w) c, ()))
  end.

(** A call starts, or a call runs its next action. *)
Inductive step : World * list (prog ()) → World * list (prog ()) → Prop :=
  | step_spawn w pool op : step (w, pool) (w, (pool ++ [denote (length pool) op])%list)
  | step_act w pool t f k w' : pool !! t = Some (Act f k) → f w = Some w' → step (w, pool) (w', <[t := k w]> pool).

(** The calls, one at a time: each runs to its end. *)
Fixpoint run_prog {A} (p : prog A) (w : World) : option (World * A) :=
  match p with
  | Ret a => Some (w, a)
  | Act f k => match f w with Some w' => run_prog (k w) w' | None => None end
  end.
Fixpoint run_ops (t : nat) (ops : list Op) (w : World) : option World :=
  match ops with
  | [] => Some w
  | op :: ops => match run_prog (denote t op) w with Some (w, _) => run_ops (S t) ops w | None => None end
  end.

(** ** The invariant *)

Definition decisions (log : list Event) : list Committed := omap (λ e, match e with EvDecision c => Some c | _ => None end) log.
Definition is_pub (e : Event) : bool := match e with EvDecision _ => false | _ => true end.
Definition publog (log : list Event) : list Event := filter (λ e, is_pub e = true) log.

(** The snapshot that is active after [log], starting from [o]. *)
Fixpoint active (o : option Snapshot) (log : list Event) : option Snapshot :=
  match log with
  | [] => o
  | EvPublished _ _ _ s :: log => active (Some s) log
  | _ :: log => active o log
  end.

(** Every durable publication event is followed by its publication. *)
Inductive paired : list Event → Prop :=
  | paired_nil : paired []
  | paired_snoc l capability tenant hash base proposed digest id snap :
      paired l → sn_revision snap = proposed →
      paired (l ++ [EvPublication capability tenant hash base proposed digest; EvPublished id capability base snap])%list.

Definition candidate_of (pp : pendingPublication) (r : Request) : Prop :=
  rq_kind r = KindPublication ∧
  rq_binding r = candidate_binding (pp_tenant pp) (pp_capability pp) (pp_hash pp) (pp_base pp) (pp_proposed pp).
Definition compiled (pp : pendingPublication) : Prop :=
  pp_capability pp = "gateway" ∧ pp_proposed pp = pp_base pp + 1 ∧ sn_revision (pp_snap pp) = pp_proposed pp ∧ 0 ≤ pp_base pp ∧
  pp_proposed pp < 2 ^ 64 ∧ sn_capability (pp_snap pp) = CapGateway ∧
  ∃ raw now, compile ps now (pp_capability pp) raw = inr (pp_snap pp) ∧ pp_hash pp = candidateHash raw.
Definition backed (s : McpApproval.Store) (id : ID) (pp : pendingPublication) : Prop :=
  ∃ r, as_byID s !! id = Some r ∧ candidate_of pp r ∧ compiled pp.

(** What stands behind a publication: a candidate that compiles, approved by somebody other than its requester, and the
    durable records of both the approval and the publication. *)
Definition four_eyes (s : McpApproval.Store) (before : list Event) (id : ID) (capability : string) (base : Z) (snap : Snapshot) : Prop :=
  capability = "gateway" ∧ sn_revision snap = base + 1 ∧
  ∃ r tenant raw now digest digest',
    as_byID s !! id = Some r ∧ rq_state r = StateApproved ∧ rq_approver r ≠ rq_requester r ∧ rq_kind r = KindPublication ∧
    rq_binding r = candidate_binding tenant capability (candidateHash raw) base (base + 1) ∧
    compile ps now capability raw = inr snap ∧
    EvDecision (mkCommitted id StateApproved (rq_approver r) digest) ∈ before ∧
    EvPublication capability tenant (candidateHash raw) base (base + 1) digest' ∈ before.

Definition revision_of (o : option Snapshot) : Z := from_option sn_revision 0 o.

Variable w0 : World.

Definition log_ok (w : World) : Prop :=
  ∀ l1 id capability base snap l2, w_log w = (l1 ++ EvPublished id capability base snap :: l2)%list →
    four_eyes (w_approvals w) l1 id capability base snap ∧ base = revision_of (active (st_cur (w_gw w0)) l1).

Record inv (w : World) : Prop := {
  iv_approvals : store_ok (w_approvals w) (decisions (w_log w));
  iv_pending id pp : w_pending w !! id = Some pp → backed (w_approvals w) id pp;
  iv_log : log_ok w;
  iv_gw : st_capability (w_gw w) = CapGateway ∧ st_cur (w_gw w) = active (st_cur (w_gw w0)) (w_log w) ∧ 0 ≤ CurrentRevision (w_gw w) < 2 ^ 64;
  iv_mgt : w_mgt w = w_mgt w0;
  iv_pub : paired (publog (w_log w)) ∨ w_pubMu w ≠ None ∧ ∃ l e, publog (w_log w) = (l ++ [e])%list ∧ paired l;
}.

(** What call [t] may rely on while others run. *)
Record rely (t : nat) (w w' : World) : Prop := {
  rl_approvals : evolves (w_approvals w) (w_approvals w');
  rl_log : ∃ l, w_log w' = (w_log w ++ l)%list;
  rl_lock : w_pubMu w = Some t → w_pubMu w' = Some t ∧ w_gw w' = w_gw w ∧ publog (w_log w') = publog (w_log w);
}.
#[local] Instance rely_preorder t : PreOrder (rely t).
Proof.
  split; [by intros w; split; [|exists []; by rewrite app_nil_r|]|]. intros w1 w2 w3 [E1 [l1 L1] K1] [E2 [l2 L2] K2]. split.
  - by transitivity (w_approvals w2).
  - exists (l1 ++ l2)%list. by rewrite L2, L1, app_assoc.
  - intros Hp. destruct (K1 Hp) as (Hp2 & ? & ?), (K2 Hp2) as (? & ? & ?). split_and!; congruence.
Qed.

(** Call [t]'s next actions keep the invariant and what the others rely on, and end in [Q]. *)
Fixpoint wp {A} (t : nat) (p : prog A) (Q : A → World → Prop) (w : World) : Prop :=
  match p with
  | Ret a => Q a w
  | Act f k => ∀ w1, inv w1 → rely t w w1 → ∀ w2, f w1 = Some w2 → inv w2 ∧ (∀ t', t' ≠ t → rely t' w1 w2) ∧ wp t (k w1) Q w2
  end.

Lemma wp_bind {A B} t (p : prog A) (q : A → prog B) Q w : wp t p (λ a, wp t (q a) Q) w → wp t (bind p q) Q w.
Proof.
  revert w. induction p as [a|f k IH]; intros w; cbn [bind wp]; [done|]. intros Hp w1 Hi Hr w2 Hf.
  destruct (Hp w1 Hi Hr w2 Hf) as (? & ? & ?). auto.
Qed.
Lemma wp_mono {A} t (p : prog A) (Q Q' : A → World → Prop) w : (∀ a w', Q a w' → Q' a w') → wp t p Q w → wp t p Q' w.
Proof.
  intros HQ. revert w. induction p as [a|f k IH]; intros w; cbn [wp]; [auto|]. intros Hp w1 Hi Hr w2 Hf.
  destruct (Hp w1 Hi Hr w2 Hf) as (? & ? & ?). auto.
Qed.
Lemma wp_rely {A} t (p : prog A) w w' : rely t w w' → wp t p (λ _ _, True) w → wp t p (λ _ _, True) w'.
Proof. intros Hr. destruct p as [a|f k]; cbn [wp]; [done|]. intros Hp w1 Hi Hr1. apply Hp; [done|by transitivity w']. Qed.

(** *** Composition *)

Definition pool_ok (c : World * list (prog ())) : Prop :=
  inv c.1 ∧ ∀ t p, c.2 !! t = Some p → wp t p (λ _ _, True) c.1.

Lemma pool_invariant c c' :
  (∀ t op w, inv w → wp t (denote t op) (λ _ _, True) w) → pool_ok c → rtc step c c' → pool_ok c'.
Proof.
  intros Hops Hok Hs. induction Hs as [|c1 c2 c3 Hstep _ IH]; [done|]. apply IH. clear IH. destruct Hok as [Hi Hp].
  destruct Hstep as [w pool op|w pool t f k w' Ht Hf]; cbn [fst snd] in *.
  - split; [done|]. intros t p. cbn. rewrite lookup_app_Some. intros [?|[Hge Hl]]; [auto|].
    apply list_lookup_singleton_Some in Hl as [Hz <-]. replace t with (length pool) by lia. auto.
  - destruct (Hp t _ Ht w Hi (reflexivity w) w' Hf) as (Hi' & Hg & Hk). split; [done|]. intros t' p. cbn.
    destruct (decide (t' = t)) as [->|Hne].
    + rewrite list_lookup_insert_eq by (by eapply lookup_lt_Some). by intros [= <-].
    + rewrite list_lookup_insert_ne by done. intros Hp'. eapply wp_rely; [by apply Hg|auto].
Qed.

(** *** The log *)

Lemma snoc_split {A} (l : list A) e l1 x l2 :
  (l ++ [e])%list = (l1 ++ x :: l2)%list → l2 = [] ∧ l1 = l ∧ x = e ∨ ∃ l2', l2 = (l2' ++ [e])%list ∧ l = (l1 ++ x :: l2')%list.
Proof.
  destruct l2 as [|y l2' _] using rev_ind; intros E.
  - left. by apply app_inj_tail in E as [-> ->].
  - right. exists l2'. rewrite app_comm_cons, app_assoc in E. by apply app_inj_tail in E as [-> ->].
Qed.
Lemma decisions_app l l' : decisions (l ++ l') = (decisions l ++ decisions l')%list.
Proof. apply omap_app. Qed.
Lemma publog_app l l' : publog (l ++ l') = (publog l ++ publog l')%list.
Proof. apply filter_app. Qed.
Lemma active_app o l l' : active o (l ++ l') = active (active o l) l'.
Proof. revert o. induction l as [|[] l IH]; intros o'; simpl; auto. Qed.

Lemma four_eyes_evolves s s' before id capability base snap :
  evolves s s' → four_eyes s before id capability base snap → four_eyes s' before id capability base snap.
Proof.
  intros Hev (Hc & Hr & r & tenant & raw & now & d & d' & Hid & Hst & Hrest). split_and!; [done..|].
  destruct (ev_requests _ _ Hev _ _ Hid) as (r' & Hr' & [_ Hs]). rewrite Hs in Hr' by (by rewrite Hst). eauto 12.
Qed.

(** Appending anything that is not a publication. *)
Lemma log_ok_snoc w w' e :
  log_ok w → evolves (w_approvals w) (w_approvals w') → w_log w' = (w_log w ++ [e])%list →
  (∀ id capability base snap, e = EvPublished id capability base snap →
     four_eyes (w_approvals w') (w_log w) id capability base snap ∧ base = revision_of (active (st_cur (w_gw w0)) (w_log w))) →
  log_ok w'.
Proof.
  intros Hl Hev El He l1 id capability base snap l2 E. rewrite El in E. apply snoc_split in E as [(-> & -> & <-)|(l2' & -> & E)]; [by apply He|].
  destruct (Hl _ _ _ _ _ _ E) as [Hf Hb]. split; [|done]. by eapply four_eyes_evolves.
Qed.
Lemma log_ok_same w w' : log_ok w → evolves (w_approvals w) (w_approvals w') → w_log w' = w_log w → log_ok w'.
Proof.
  intros Hl Hev El l1 id capability base snap l2 E. rewrite El in E. destruct (Hl _ _ _ _ _ _ E) as [Hf Hb]. split; [|done].
  by eapply four_eyes_evolves.
Qed.

Lemma backed_evolves s s' id pp : evolves s s' → backed s id pp → backed s' id pp.
Proof.
  intros Hev (r & Hr & [Hk Hb] & Hc). destruct (ev_requests _ _ Hev _ _ Hr) as (r' & Hr' & (_ & Ek & _ & Eb & _) & _).
  exists r'. split; [done|]. split; [|done]. split; congruence.
Qed.

(** *** Actions on the approval store and on the pending candidates *)

Definition step_ok (w w' : World) : Prop := inv w' ∧ ∀ t, rely t w w'.

Lemma with_approvals_fields {A} w s o (a : A) :
  let w' := (with_approvals w (s, o, a)).1 in
  w_approvals w' = s ∧ w_log w' = (w_log w ++ (EvDecision <$> option_list o))%list ∧ w_gw w' = w_gw w ∧ w_mgt w' = w_mgt w ∧
  w_pending w' = w_pending w ∧ w_pubMu w' = w_pubMu w.
Proof. destruct o; cbn; rewrite ?app_nil_r; by split_and!. Qed.

Lemma approvals_step {A} w s o (a : A) :
  inv w → store_ok s (decisions (w_log w) ++ option_list o) → evolves (w_approvals w) s → step_ok w (with_approvals w (s, o, a)).1.
Proof.
  intros [Ha Hp Hl (Hc & Hcur & Hrev) Hm Hpub] Hs Hev.
  destruct (with_approvals_fields w s o a) as (Es & El & Eg & Em & Ep & Eu). set (w' := (with_approvals w (s, o, a)).1) in *.
  assert (publog (w_log w') = publog (w_log w)) as Epub by (rewrite El, publog_app; destruct o; apply app_nil_r).
  split; [split|intros t; split].
  - rewrite Es, El, decisions_app. replace (decisions (EvDecision <$> option_list o)) with (option_list o) by (by destruct o). done.
  - intros id pp Hpp. rewrite Es. rewrite Ep in Hpp. eapply backed_evolves; eauto.
  - destruct o as [c|]; [eapply (log_ok_snoc w w' (EvDecision c)); [done|by rewrite Es|done|done]|].
    apply (log_ok_same w); [done|by rewrite Es|by rewrite El, app_nil_r].
  - rewrite Eg, El, active_app. split_and!; [done| |apply Hrev|apply Hrev]. by destruct o.
  - by rewrite Em.
  - by rewrite Epub, Eu.
  - by rewrite Es.
  - eauto.
  - rewrite Eu, Eg, Epub. done.
Qed.

Lemma pending_step w m b :
  inv w → (∀ id pp, m !! id = Some pp → w_pending w !! id = Some pp ∨ backed (w_approvals w) id pp) →
  step_ok w (w <| w_pending := m |> <| w_mu := b |>).
Proof.
  intros [Ha Hp Hl Hg Hm Hpub] Hin. split; [split|intros t; split]; try done; [|by exists []; cbn; rewrite app_nil_r].
  intros id pp Hpp. destruct (Hin id pp Hpp); [by apply Hp|done].
Qed.
Lemma mu_step w b : inv w → step_ok w (w <| w_mu := b |>).
Proof. intros Hi. apply (pending_step w (w_pending w) b Hi). auto. Qed.
Lemma same_step w : inv w → step_ok w w.
Proof. intros Hi. split; [done|]. intros t. reflexivity. Qed.

(** *** Rules *)

Lemma wp_atomic {A} t (f : World → World * A) Q w :
  (∀ w1, inv w1 → rely t w w1 → step_ok w1 (f w1).1 ∧ Q (f w1).2 (f w1).1) → wp t (atomic f) Q w.
Proof. intros Hf w1 Hi Hr w2 [= <-]. destruct (Hf w1 Hi Hr) as [[Hi' Hg] HQ]. auto. Qed.
Lemma wp_under_mu {A} t (f : World → World * A) Q w :
  (∀ w1, inv w1 → rely t w w1 → step_ok w1 (f w1).1 ∧ Q (f w1).2 (f w1).1) → wp t (under_mu f) Q w.
Proof.
  intros Hf w1 Hi Hr w2. cbn. case_if; [done|]. intros [= <-]. destruct (Hf w1 Hi Hr) as [[Hi' Hg] HQ]. auto.
Qed.
Lemma wp_try {A B} t (p : prog (result A)) (q : A → prog (result B)) Q w :
  wp t p (λ r w', match r with inl e => Q (inl e) w' | inr a => wp t (q a) Q w' end) w → wp t (try p q) Q w.
Proof. intros Hp. apply wp_bind. revert Hp. apply wp_mono. intros [e|a] w'; auto. Qed.

(** *** The calls *)

Lemma wp_read {A} t (g : World → A) Q w :
  (∀ w1, inv w1 → rely t w w1 → Q (g w1) w1) → wp t (atomic (λ w, (w, g w))) Q w.
Proof. intros Hg. apply wp_atomic. intros w1 Hi Hr. split; [by apply same_step|by apply Hg]. Qed.

Lemma wp_lookup t id Q w :
  (∀ w1 r, inv w1 → rely t w w1 → (∀ pp, r = inr pp → backed (w_approvals w1) id pp) → Q r w1) → wp t (lookup id) Q w.
Proof.
  intros HQ. apply wp_under_mu. intros w1 Hi Hr. split; [by apply same_step|]. apply HQ; [done|done|]. intros pp.
  destruct (w_pending w1 !! id) as [pp'|] eqn:E; [|done]. intros [= <-]. by apply (iv_pending _ Hi).
Qed.
Lemma wp_forget t id Q w : (∀ w2, inv w2 → rely t w w2 → Q () w2) → wp t (forget id) Q w.
Proof.
  intros HQ. apply wp_under_mu. intros w1 Hi Hr. cbn [fst snd].
  assert (step_ok w1 (w1 <| w_pending := delete id (w_pending w1) |>)) as Hs.
  { apply (pending_step w1 (delete id (w_pending w1)) (w_mu w1) Hi). intros id' pp [_ ?]%lookup_delete_Some. auto. }
  split; [done|]. apply HQ; [apply Hs|]. transitivity w1; [done|apply Hs].
Qed.

(** A call of the approval store whose specification is [P]. *)
Lemma wp_approvals {A} t (f : McpApproval.Store → McpApproval.Store * option Committed * A) (P : A → McpApproval.Store → Prop) Q w :
  (∀ s log s' o a, store_ok s log → f s = (s', o, a) → store_ok s' (log ++ option_list o) ∧ evolves s s' ∧ P a s') →
  (∀ a w2, inv w2 → rely t w w2 → P a (w_approvals w2) → Q a w2) →
  wp t (atomic (λ w, with_approvals w (f (w_approvals w)))) Q w.
Proof.
  intros Hf HQ. apply wp_atomic. intros w1 Hi Hr. destruct (f (w_approvals w1)) as [[s' o] a] eqn:E.
  destruct (Hf _ _ _ _ _ (iv_approvals _ Hi) E) as (Hok & Hev & HP). pose proof (approvals_step w1 s' o a Hi Hok Hev) as Hs.
  destruct (with_approvals_fields w1 s' o a) as (Es & _). split; [done|].
  replace (with_approvals w1 (s', o, a)).2 with a by (by destruct o).
  apply HQ; [apply Hs|transitivity w1; [done|apply Hs]|by rewrite Es].
Qed.

Lemma wp_Get t clk id tenant Q w :
  (∀ r w2, inv w2 → rely t w w2 → (∀ q, r = inr q → as_byID (w_approvals w2) !! id = Some q ∧ rq_tenant q = tenant) → Q r w2) →
  wp t (app_Get clk id tenant) Q w.
Proof.
  intros HQ. unfold app_Get.
  apply (wp_approvals t (λ s, let '(s', r) := McpApproval.Get clk s id tenant in (s', None, r))
    (λ r s', ∀ q, r = inr q → as_byID s' !! id = Some q ∧ rq_tenant q = tenant)); [|auto].
  intros s log s' o r Hok. destruct (McpApproval.Get clk s id tenant) as [s1 r1] eqn:Eg. intros [= <- <- <-].
  apply (Get_spec _ _ log) in Eg as [[Hok1 Hev _ _] Hr1]; [|done]. rewrite app_nil_r. split_and!; [done|done|]. by intros q ->.
Qed.

Lemma wp_sweep_stale t clks l stale Q w : inv w →
  (∀ a w2, inv w2 → rely t w w2 → Q a w2) → wp t (sweep_stale clks l stale) Q w.
Proof.
  revert stale w. induction l as [|[id pp] l IH]; intros stale w Hi HQ; cbn [sweep_stale]; [apply HQ; [done|reflexivity]|].
  apply wp_bind, wp_Get. intros r w2 Hi2 Hr2 _. apply IH; [done|]. intros a w3 Hi3 Hr3. apply HQ; [done|by transitivity w2].
Qed.
Lemma foldr_delete_Some {V} (m : gmap ID V) l k v : foldr delete m l !! k = Some v → m !! k = Some v.
Proof. induction l as [|x l IH]; simpl; [done|]. intros [_ ?]%lookup_delete_Some. auto. Qed.
Lemma wp_sweepPending t clks Q w : (∀ w2, inv w2 → rely t w w2 → Q () w2) → wp t (sweepPending clks) Q w.
Proof.
  intros HQ. unfold sweepPending. apply wp_bind. intros w1 Hi Hr w2. cbn. case_if; [done|]. intros [= <-].
  pose proof (mu_step w1 true Hi) as [Hi1 Hr1]. split_and!; [done|auto|].
  apply wp_bind, wp_sweep_stale; [done|]. intros stale w3 Hi3 Hr3. apply wp_atomic. intros w4 Hi4 Hr4. cbn [fst snd].
  assert (step_ok w4 (w4 <| w_pending := foldr delete (w_pending w4) stale |> <| w_mu := false |>)) as Hs.
  { apply pending_step; [done|]. intros id pp ?%foldr_delete_Some. auto. }
  split; [done|]. apply HQ; [apply Hs|]. transitivity w1; [done|]. transitivity (w1 <| w_mu := true |>); [apply Hr1|].
  transitivity w3; [done|]. transitivity w4; [done|apply Hs].
Qed.

Lemma not_management capability : isManagementCapability capability = false → capability ≠ "management".
Proof. intros E ->. unfold isManagementCapability in E. change (TrimSpace "management") with "management" in E. by rewrite EqualFold_refl in E. Qed.

Lemma wp_CreateRequest t clk id kind requester b Q w :
  (∀ r w2, inv w2 → rely t w w2 → (∀ q, r = inr q → ∃ q', as_byID (w_approvals w2) !! id = Some q' ∧ rq_kind q' = kind ∧ rq_binding q' = b) → Q r w2) →
  wp t (app_Create clk id kind requester b) Q w.
Proof.
  intros HQ. unfold app_Create.
  apply (wp_approvals t (λ s, let '(s', r) := McpApproval.Create clk s id kind requester b in (s', None, r))
    (λ r s', ∀ q, r = inr q → ∃ q', as_byID s' !! id = Some q' ∧ rq_kind q' = kind ∧ rq_binding q' = b)); [|auto].
  intros s log s' o r Hok. destruct (McpApproval.Create clk s id kind requester b) as [s1 r1] eqn:Eg. intros [= <- <- <-].
  apply (Create_spec _ _ log) in Eg as (Hok1 & Hev & Hr1); [|done]. rewrite app_nil_r. split_and!; [done|done|].
  intros q ->. destruct Hr1 as (_ & Hq & now & ->). eauto.
Qed.

Lemma candidate_compiled w capability tenant raw now snap base expectedBase :
  inv w → isManagementCapability capability = false → compile ps now capability raw = inr snap →
  (∃ store, storeFor w capability = Some store ∧ base = CurrentRevision store) → sn_revision snap = (base + 1) mod 2 ^ 64 →
  expectedBase = base → compiled (mkPending capability tenant snap base ((base + 1) mod 2 ^ 64) (candidateHash raw)).
Proof.
  intros Hi Hm Hc (store & Hst & ->) Hrev _. pose proof (compile_inv _ _ _ _ _ Hc) as (_ & _ & HC & Hcap).
  apply not_management in Hm. destruct Hcap as [[-> Hcap]|[? _]]; [|done]. cbn in Hst. injection Hst as <-.
  destruct (iv_gw _ Hi) as (_ & _ & Hb). set (b := CurrentRevision (w_gw w)) in *.
  assert (sn_revision snap ≠ 0) as Hnz.
  { unfold Compile in HC. apply result_bind_inr in HC as (rs & _ & HC). apply compile_document_ok in HC. apply HC. }
  assert (b + 1 < 2 ^ 64) as Hlt.
  { destruct (decide (b + 1 = 2 ^ 64)) as [E|]; [|lia]. rewrite E, Z_mod_same_full in Hrev. done. }
  assert ((b + 1) mod 2 ^ 64 = b + 1) as Emod by (apply Z.mod_small; lia). rewrite Emod in *.
  split_and!; cbn [pp_capability pp_proposed pp_base pp_snap pp_hash]; [done|done|done|lia|done|done|by exists raw, now].
Qed.

Lemma wp_Create t clks now clk id capability tenant requester raw expectedBase w : inv w →
  wp t (Create ps clks now clk id capability tenant requester raw expectedBase) (λ _ _, True) w.
Proof.
  intros _. unfold Create. destruct (isManagementCapability capability) eqn:Em; [done|].
  apply wp_bind, wp_sweepPending. intros w1 Hi1 _. apply wp_try. cbn [wp].
  destruct (compile ps now capability raw) as [e|snap] eqn:Ec; [done|].
  apply wp_try, wp_read. intros w2 Hi2 _. destruct (storeFor w2 capability) as [store|] eqn:Es; [|done].
  case_if; [done|]. bprop. case_if; [done|]. bprop. set (base := CurrentRevision store) in *.
  assert (compiled (mkPending capability tenant snap base ((base + 1) mod 2 ^ 64) (candidateHash raw))) as Hcomp.
  { eapply candidate_compiled; eauto. }
  apply wp_try, wp_CreateRequest. intros [e|r] w3 Hi3 _ Hreq; [done|]. destruct (Hreq r eq_refl) as (q & Hq & Hk & Hb).
  apply wp_bind, wp_under_mu. intros w4 Hi4 Hr4. split; [|done]. cbn [fst].
  apply (pending_step w4 (<[id := _]> (w_pending w4)) (w_mu w4) Hi4). intros id' pp [[<- <-]|[_ ?]]%lookup_insert_Some; [right|by left].
  apply (backed_evolves (w_approvals w3)); [apply Hr4|]. exists q. done.
Qed.

Lemma wp_app_Approve t clk id approver live commit Q w :
  (∀ r w2, inv w2 → rely t w w2 → Q r w2) → wp t (app_Approve clk id approver live commit) Q w.
Proof.
  intros HQ. apply (wp_approvals t (λ s, McpApproval.Approve clk s id approver live commit) (λ _ _, True)); [|auto].
  intros s log s' o a Hok E. apply (Approve_spec _ _ log) in E as (? & ? & _); [by split_and!|done].
Qed.
Lemma wp_app_Reject t clk id approver reason commit Q w :
  (∀ r w2, inv w2 → rely t w w2 → Q r w2) → wp t (app_Reject clk id approver reason commit) Q w.
Proof.
  intros HQ. apply (wp_approvals t (λ s, McpApproval.Reject clk s id approver reason commit) (λ _ _, True)); [|auto].
  intros s log s' o a Hok E. apply (Reject_spec _ _ log) in E as (? & ? & _); [by split_and!|done].
Qed.

Lemma wp_Approve t clk id approver commit w : wp t (Approve clk id approver commit) (λ _ _, True) w.
Proof.
  apply wp_try, wp_lookup. intros w1 [e|pp] _ _ _; [done|]. apply wp_try, wp_read. intros w2 _ _.
  destruct (storeFor w2 (pp_capability pp)); [|done]. by apply wp_app_Approve.
Qed.
Lemma wp_Reject t clk id approver reason commit w : wp t (Reject clk id approver reason commit) (λ _ _, True) w.
Proof.
  apply wp_try, wp_lookup. intros w1 [e|pp] _ _ _; [done|]. apply wp_try, wp_app_Reject. intros [e|[]] w2 _ _; [done|].
  by apply wp_bind, wp_forget.
Qed.

(** *** [Publish] *)

(** Call [t] holds [pubMu], and no durable event waits for its publication. *)
Definition owned (t : nat) (w : World) : Prop := w_pubMu w = Some t ∧ paired (publog (w_log w)).
Lemma owned_rely t w w' : owned t w → rely t w w' → owned t w' ∧ w_gw w' = w_gw w.
Proof. intros [Ho Hp] Hr. destruct (rl_lock _ _ _ Hr Ho) as (? & ? & E). split; [|done]. split; [done|by rewrite E]. Qed.

(** The durable event of [pp] waits for its publication. *)
Definition committing (t : nat) (pp : pendingPublication) (w : World) : Prop :=
  w_pubMu w = Some t ∧ ∃ l digest,
    let e := EvPublication (pp_capability pp) (pp_tenant pp) (pp_hash pp) (pp_base pp) (pp_proposed pp) digest in
    publog (w_log w) = (l ++ [e])%list ∧ paired l ∧ e ∈ w_log w.

(** Only the owner of [pubMu] appends a publication event: the others rely on nothing it changes. *)
Lemma owner_step t w w' :
  w_pubMu w = Some t → w_approvals w' = w_approvals w → (∃ l, w_log w' = (w_log w ++ l)%list) → ∀ t', t' ≠ t → rely t' w w'.
Proof. intros Ho Ea El t' Hne. split; [by rewrite Ea|done|]. rewrite Ho. intros [= ->]. done. Qed.

Lemma wp_commit t commit pp Q w :
  owned t w →
  (∀ e w2, inv w2 → rely t w w2 → owned t w2 → Q (inl e) w2) →
  (∀ digest w2, inv w2 → evolves (w_approvals w) (w_approvals w2) → w_gw w2 = w_gw w → committing t pp w2 → Q (inr digest) w2) →
  wp t (commit_publication commit pp) Q w.
Proof.
  intros Ho HQe HQ w1 Hi Hr w2. destruct (owned_rely _ _ _ Ho Hr) as [[Hl Hp] Eg]. cbn.
  destruct (commit _ _ _ _ _) as [e|digest]; intros [= <-].
  { split; [done|]. split; [intros; reflexivity|]. by apply HQe. }
  cbn [fst]. set (e := EvPublication _ _ _ _ _ _).
  assert (publog (w_log w1 ++ [e]) = (publog (w_log w1) ++ [e])%list) as Epub by (rewrite publog_app; done).
  assert (inv (record w1 e)) as Hi2.
  { destruct Hi as [Ha Hpe Hlo Hg Hm Hpub]. split; [|done| | |done|].
    - cbn. rewrite decisions_app. cbn. by rewrite app_nil_r.
    - by eapply (log_ok_snoc w1 _ e).
    - cbn. rewrite active_app. done.
    - right. cbn. split; [by rewrite Hl|]. eauto. }
  split; [done|]. split; [apply owner_step; [done|done|by exists [e]]|].
  apply HQ; [done|apply Hr|done|]. split; [done|]. exists (publog (w_log w1)), digest. split_and!; [done|done|].
  apply elem_of_app. right. apply list_elem_of_singleton. done.
Qed.

Lemma decision_recorded log c : c ∈ decisions log → EvDecision c ∈ log.
Proof. unfold decisions. rewrite list_elem_of_omap. intros ([] & Hin & [=]); by subst. Qed.

(** An approved candidate whose event is recorded has four eyes behind it. *)
Lemma four_eyes_intro w id pp r t :
  inv w → committing t pp w → compiled pp → as_byID (w_approvals w) !! id = Some r → rq_state r = StateApproved → candidate_of pp r →
  four_eyes (w_approvals w) (w_log w) id (pp_capability pp) (pp_base pp) (pp_snap pp).
Proof.
  intros Hi (_ & l & d' & _ & _ & Hin) (Hcap & Hprop & Hrev & _ & _ & _ & raw & now & Hc & Hh) Hr Hst [Hk Hb]. split_and!; [done|lia|].
  destruct (so_requests _ _ (iv_approvals _ Hi) _ _ Hr) as [Hid _ _ Ho]. unfold outcome_ok in Ho. rewrite Hst in Ho.
  destruct Ho as (Hne & d & nw & _ & Hd). rewrite Hid in Hd. rewrite Hh, Hprop in *.
  exists r, (pp_tenant pp), raw, now, d, d'. split_and!; auto using decision_recorded.
Qed.

Lemma wp_store_publish t id pp r Q w :
  committing t pp w → compiled pp → as_byID (w_approvals w) !! id = Some r → rq_state r = StateApproved → candidate_of pp r →
  CurrentRevision (w_gw w) = pp_base pp →
  (∀ w2, inv w2 → owned t w2 → Q (inr ()) w2) → wp t (store_publish id pp) Q w.
Proof.
  intros [Hl Hcm] Hcomp Hr Hst Hcand Hbase HQ w1 Hi Hrel w2.
  destruct (rl_lock _ _ _ Hrel Hl) as (Hl1 & Eg & Epub). destruct (rl_log _ _ _ Hrel) as [lx Elog].
  assert (committing t pp w1) as Hcm1.
  { split; [done|]. destruct Hcm as (l & d & E & Hp & Hin). exists l, d. rewrite Epub, Elog. split_and!; [done|done|]. apply elem_of_app. by left. }
  destruct (ev_requests _ _ (rl_approvals _ _ _ Hrel) _ _ Hr) as (r1 & Hr1 & [_ Hs]). rewrite Hs in Hr1 by (by rewrite Hst).
  pose proof (four_eyes_intro w1 id pp r t Hi Hcm1 Hcomp Hr1 Hst Hcand) as Hfour.
  destruct Hcomp as (Hcap & Hprop & Hrev & Hb0 & Hb1 & Hsc & _). destruct (iv_gw _ Hi) as (Hg1 & Hg2 & _).
  rewrite <- Eg in Hbase. cbn. rewrite Hcap. cbn. rewrite Hsc, Hg1. cbn. rewrite Hbase, Z.eqb_refl. cbn.
  rewrite (proj2 (Z.leb_gt (sn_revision (pp_snap pp)) (pp_base pp))) by lia. cbn. intros [= <-].
  set (e := EvPublished _ _ _ _). set (w2 := record _ e).
  destruct Hcm1 as (_ & l & d & Ep & Hpaired & _).
  assert (paired (publog (w_log w2))) as Hpp.
  { unfold w2. cbn. rewrite publog_app, Ep. cbn. rewrite <- app_assoc. cbn. rewrite Hcap. by constructor. }
  assert (inv w2) as Hi2.
  { destruct Hi as [Ha Hpe Hlo Hg Hm Hpub]. split; [|done| | |done|by left].
    - cbn. rewrite decisions_app. cbn. by rewrite app_nil_r.
    - eapply (log_ok_snoc w1 _ e); [done|done|done|]. intros ? ? ? ? [= <- <- <- <-]. rewrite Hcap in Hfour. split; [done|].
      rewrite <- Hbase. unfold CurrentRevision. by rewrite Hg2.
    - cbn. rewrite active_app. unfold CurrentRevision. cbn. split_and!; [done|done|lia|lia]. }
  split; [done|]. split; [apply owner_step; [done|done|by exists [e]]|]. apply HQ; [done|]. done.
Qed.

Lemma wp_publish_body t clk id tenant rc commit w :
  owned t w → wp t (publish_body clk id tenant rc commit) (λ _, owned t) w.
Proof.
  intros Ho. apply wp_try, wp_lookup. intros w1 r Hi1 Hr1 Hback. destruct (owned_rely _ _ _ Ho Hr1) as [Ho1 _].
  destruct r as [e|pp]; [done|]. specialize (Hback pp eq_refl).
  apply wp_try, wp_Get. intros r w2 Hi2 Hr2 Hreq. destruct (owned_rely _ _ _ Ho1 Hr2) as [Ho2 _]. destruct r as [e|q]; [done|].
  destruct (Hreq q eq_refl) as [Hq _]. case_if; [done|]. bprop. rewrite bool_decide_eq_true in *. case_if; [done|].
  apply wp_try, wp_read. intros w3 Hi3 Hr3. destruct (owned_rely _ _ _ Ho2 Hr3) as [Ho3 _].
  destruct (backed_evolves _ _ _ _ (rl_approvals _ _ _ Hr2) Hback) as (q' & Hq' & Hcand & Hcomp). simplify_eq.
  destruct (ev_requests _ _ (rl_approvals _ _ _ Hr3) _ _ Hq) as (q3 & Hq3 & [_ Hs]). rewrite Hs in Hq3 by congruence. clear q3 Hs.
  destruct (storeFor w3 (pp_capability pp)) as [store|] eqn:Es; [|done].
  assert (store = w_gw w3) as -> by (destruct Hcomp as (E & _); rewrite E in Es; cbn in Es; congruence).
  case_if; [done|]. bprop. apply wp_try, wp_commit; [done|done|]. intros digest w4 Hi4 Hev Eg4 Hcm.
  destruct (ev_requests _ _ Hev _ _ Hq3) as (q4 & Hq4 & [_ Hs]). rewrite Hs in Hq4 by congruence.
  apply wp_try. eapply wp_store_publish; [done|done|done|done|done|congruence|]. intros w5 Hi5 Ho5.
  apply wp_bind, wp_forget. intros w6 Hi6 Hr6. cbn. by apply (owned_rely _ w5).
Qed.

Lemma wp_Publish t clk id tenant rc commit w : wp t (Publish t clk id tenant rc commit) (λ _ _, True) w.
Proof.
  unfold Publish. apply wp_bind. intros w1 Hi Hr w2 E. cbn in E. destruct (w_pubMu w1) eqn:El; [done|]. injection E as <-.
  assert (paired (publog (w_log w1))) as Hp by (destruct (iv_pub _ Hi) as [?|[? _]]; [done|congruence]).
  split_and!; [destruct Hi; by split; try by left|intros t' Hne; split; [done|by exists []; cbn; rewrite app_nil_r|cbn; congruence]|].
  cbn [wp]. apply wp_bind. eapply wp_mono; [|by apply wp_publish_body]. intros r w3 Ho3. apply wp_bind.
  intros w4 Hi4 Hr4 w5 [= <-]. destruct (owned_rely _ _ _ Ho3 Hr4) as [[Hl4 Hp4] _]. split_and!; [destruct Hi4; by split; try by left| |done].
  intros t' Hne. split; [done|by exists []; cbn; rewrite app_nil_r|cbn; congruence].
Qed.

Lemma wp_denote t op w : inv w → wp t (denote t op) (λ _ _, True) w.
Proof.
  intros Hi. destruct op; cbn [denote]; [apply wp_bind; eapply wp_mono; [done|]..|].
  - by apply wp_Create.
  - apply wp_Approve.
  - apply wp_Reject.
  - apply wp_Publish.
  - apply (wp_approvals t (λ s, (exec s c, ())) (λ _ _, True)); [|done]. intros s log s' o [] Hok [= E].
    apply (exec_ok _ log) in E as [? ?]; [by split_and!|done].
Qed.
End pool.

(** ** What the service guarantees *)

(** A holder that startup leaves: policies loaded from disk, or withdrawn. *)
Inductive booted : mcpPolicyHolder → Prop :=
  | booted_new : booted newMCPPolicyHolder
  | booted_publish h state reason snap :
      booted h → (∀ s, snap = Some s → 0 ≤ sn_revision s < 2 ^ 64) → booted (holder_publish h state reason snap).1
  | booted_invalidate h : booted h → booted (invalidateForStartupFailure h).
Definition boot (h : mcpPolicyHolder) (maxPending maxPerTenant : Z) (ttl : Duration) : World :=
  mkWorld (ph_gw h) (ph_mgt h) (McpApproval.NewStore maxPending maxPerTenant ttl) ∅ false None [].

Lemma booted_ok h :
  booted h → st_capability (ph_gw h) = CapGateway ∧ 0 ≤ CurrentRevision (ph_gw h) < 2 ^ 64 ∧ ph_mgt h = McpEngine.NewStore CapManagement.
Proof.
  induction 1 as [|h state reason snap _ (Hc & Hr & Hm) Hs|h _ (Hc & Hr & Hm)]; [done| |].
  - unfold holder_publish. destruct snap as [s|]; [|done]. case_if; [done|].
    destruct (McpEngine.Publish _ _ _) as [gw [e|]] eqn:E; [done|]. apply Publish_spec in E as (s' & [= <-] & -> & _ & _ & _).
    split_and!; [done|by apply Hs|by apply Hs|done].
  - unfold invalidateForStartupFailure. by case_if.
Qed.

Section guarantees.
Context `{Unicode, TimeData, Sha256, SortSlice, DocDecoder, RangeOrder}.
Variable ps : PolicyService.

Lemma publication_boot_inv h maxPending maxPerTenant ttl :
  booted h → inv ps (boot h maxPending maxPerTenant ttl) (boot h maxPending maxPerTenant ttl).
Proof.
  intros (Hc & Hr & Hm)%booted_ok. split; cbn; [apply NewStore_ok|done| |done|done|left; constructor].
  intros [|x l1] id capability base snap l2 E; discriminate E.
Qed.

Lemma reachable_inv h maxPending maxPerTenant ttl w pool :
  booted h → rtc (step ps) (boot h maxPending maxPerTenant ttl, []) (w, pool) → inv ps (boot h maxPending maxPerTenant ttl) w.
Proof.
  intros Hb Hs. apply (pool_invariant ps (boot h maxPending maxPerTenant ttl) _ (w, pool)) in Hs; [apply Hs| |].
  - intros t op w1. apply wp_denote.
  - split; [by apply publication_boot_inv|]. intros t p E. discriminate E.
Qed.

(** C7: In every interleaving of any number of creations, approvals, rejections and publications, by the publication and by
    the approval endpoints, from every state startup can leave: the gateway's active policy is the one loaded at startup or
    the last one published, the management store stays empty, and behind every published snapshot there is a gateway
    candidate that compiled to it, whose revision follows the revision that was active just before, whose hash a request of
    the approval store binds together with that base, which a principal other than the requester approved; and the
    durable records of that approval and of the publication both precede it. *)
Theorem published_four_eyes h maxPending maxPerTenant ttl w pool :
  booted h → rtc (step ps) (boot h maxPending maxPerTenant ttl, []) (w, pool) →
  st_cur (w_gw w) = active (st_cur (ph_gw h)) (w_log w) ∧
  st_cur (w_mgt w) = None ∧
  ∀ l1 id capability base snap l2, w_log w = (l1 ++ EvPublished id capability base snap :: l2)%list →
    four_eyes ps (w_approvals w) l1 id capability base snap ∧
    base = revision_of (active (st_cur (ph_gw h)) l1).
Proof.
  intros Hb Hs. destruct (reachable_inv _ _ _ _ _ _ Hb Hs) as [_ _ Hl (_ & Hc & _) Hm _]. destruct (booted_ok _ Hb) as (_ & _ & Em).
  split_and!; [done|rewrite Hm; cbn; by rewrite Em|apply Hl].
Qed.

(** C30: In every interleaving a durable publication event is followed by the publication it records, before any other
    publication event: whenever no publication is in progress the events come in pairs, and while one is there is at most
    one event that waits for its publication.  So no durable record names a candidate that never became active. *)
Theorem publication_committed h maxPending maxPerTenant ttl w pool :
  booted h → rtc (step ps) (boot h maxPending maxPerTenant ttl, []) (w, pool) →
  (w_pubMu w = None → paired (publog (w_log w))) ∧
  (paired (publog (w_log w)) ∨ ∃ l e, publog (w_log w) = (l ++ [e])%list ∧ paired l).
Proof.
  intros Hb Hs. pose proof (iv_pub _ _ _ (reachable_inv _ _ _ _ _ _ Hb Hs)) as [Hp|[Hl Hp]]; [auto|]. split; [done|by right].
Qed.

(** *** One call at a time *)

Lemma run_bind {A B} (p : prog A) (q : A → prog B) w :
  run_prog (bind p q) w = match run_prog p w with Some (w', a) => run_prog (q a) w' | None => None end.
Proof. revert w. induction p as [a|f k IH]; intros w; cbn [bind run_prog]; [done|]. destruct (f w); [apply IH|done]. Qed.
Lemma run_try {A B} (p : prog (result A)) (q : A → prog (result B)) w :
  run_prog (try p q) w = match run_prog p w with
                         | Some (w', inl e) => Some (w', inl e) | Some (w', inr a) => run_prog (q a) w' | None => None end.
Proof. unfold try. rewrite run_bind. by destruct (run_prog p w) as [[w' [e|a]]|]. Qed.
Lemma world_eta w : w <| w_approvals := w_approvals w |> = w.
Proof. by destruct w. Qed.
Lemma run_Get_decided clk id tenant r w :
  as_byID (w_approvals w) !! id = Some r → rq_tenant r = tenant → rq_state r ≠ StatePending →
  run_prog (app_Get clk id tenant) w = Some (w, inr r).
Proof.
  intros Hr Ht Hp. cbn. unfold McpApproval.Get. rewrite Hr, Ht, String.eqb_refl. cbn [negb]. rewrite lazyExpire_decided by done.
  cbn. by rewrite world_eta.
Qed.

Lemma run_lookup id pp w : w_mu w = false → w_pending w !! id = Some pp → run_prog (lookup id) w = Some (w, inr pp).
Proof. intros Hm Hp. cbn. by rewrite Hm, Hp. Qed.
Lemma run_forget id w : w_mu w = false → run_prog (forget id) w = Some (w <| w_pending := delete id (w_pending w) |>, ()).
Proof. intros Hm. cbn. by rewrite Hm. Qed.
Lemma run_commit commit pp digest w :
  commit (pp_capability pp) (pp_tenant pp) (pp_hash pp) (pp_base pp) (pp_proposed pp) = inr digest →
  run_prog (commit_publication commit pp) w =
    Some (record w (EvPublication (pp_capability pp) (pp_tenant pp) (pp_hash pp) (pp_base pp) (pp_proposed pp) digest), inr digest).
Proof. intros Hc. cbn. by rewrite Hc. Qed.
Lemma run_store_publish id pp w :
  compiled ps pp → st_capability (w_gw w) = CapGateway → CurrentRevision (w_gw w) = pp_base pp →
  run_prog (store_publish id pp) w =
    Some (record (w <| w_gw := McpEngine.mkStore CapGateway (Some (pp_snap pp)) |>) (EvPublished id (pp_capability pp) (pp_base pp) (pp_snap pp)), inr ()).
Proof.
  intros (Hcap & Hprop & Hrev & _ & _ & Hsc & _) Hg Hb. cbn. rewrite Hcap. cbn. rewrite Hsc, Hg. cbn. rewrite Hb, Z.eqb_refl. cbn.
  by rewrite (proj2 (Z.leb_gt (sn_revision (pp_snap pp)) (pp_base pp))) by lia.
Qed.

(** C38: In every reachable state where no publication runs, an approved candidate that is still pending, whose base is the
    active revision, is published by the next [Publish] that presents the request's receipt and whose event commits: the call
    returns, with the candidate's revision and hash, the candidate is the active policy, and it is no longer pending. *)
Theorem publish_completes h maxPending maxPerTenant ttl w pool t clk id pp r commit digest :
  booted h → rtc (step ps) (boot h maxPending maxPerTenant ttl, []) (w, pool) →
  w_mu w = false → w_pubMu w = None →
  w_pending w !! id = Some pp → as_byID (w_approvals w) !! id = Some r → rq_state r = StateApproved →
  CurrentRevision (w_gw w) = pp_base pp →
  commit (pp_capability pp) (pp_tenant pp) (pp_hash pp) (pp_base pp) (pp_proposed pp) = inr digest →
  ∃ w', run_prog (Publish t clk id (pp_tenant pp) (receipt r) commit) w =
      Some (w', inr (mkPublishResult "gateway" (pp_proposed pp) (pp_hash pp) "local_only" digest)) ∧
    st_cur (w_gw w') = Some (pp_snap pp) ∧ w_pending w' !! id = None ∧ w_pubMu w' = None.
Proof.
  intros Hb Hs Hmu Hpub Hpp Hr Hst Hbase Hc. pose proof (reachable_inv _ _ _ _ _ _ Hb Hs) as Hi.
  destruct (iv_pending _ _ _ Hi _ _ Hpp) as (r' & Hr' & [Hk Hbind] & Hcomp). simplify_eq.
  pose proof (ro_outcome _ _ _ _ (so_requests _ _ (iv_approvals _ _ _ Hi) _ _ Hr)) as Ho. unfold outcome_ok in Ho. rewrite Hst in Ho.
  destruct Ho as (_ & d & nw & Hg & _). destruct (iv_gw _ _ _ Hi) as (Hg1 & _ & _).
  unfold Publish. rewrite run_bind. cbn [run_prog lock_pub]. rewrite Hpub, run_bind. unfold publish_body.
  rewrite run_try, (run_lookup _ pp) by done. rewrite run_try, (run_Get_decided _ _ _ r) by (done || (unfold rq_tenant; by rewrite Hbind) || by rewrite Hst).
  rewrite bool_decide_true by done. cbn [negb].
  assert (Matches (receipt r) (pp_tenant pp) (pp_capability pp) (pp_hash pp) (pp_proposed pp) = true) as ->.
  { unfold receipt. rewrite Hg. cbn [default]. unfold Matches, granted. rewrite Hbind. cbn. by rewrite !String.eqb_refl, Z.eqb_refl. }
  pose proof (proj1 Hcomp) as Hcap. cbn [negb]. rewrite run_try. cbn [run_prog atomic fst snd]. rewrite Hcap.
  cbn [storeFor String.eqb Ascii.eqb Bool.eqb]. change (w_gw (w <| w_pubMu := Some t |>)) with (w_gw w). rewrite Hbase, Z.eqb_refl. cbn [negb].
  rewrite run_try, (run_commit _ _ digest), run_try, run_store_publish, run_bind, run_forget by done.
  cbn [run_prog unlock_pub atomic]. rewrite run_bind. cbn [run_prog unlock_pub atomic fst snd].
  eexists. split; [by rewrite Hcap|]. split_and!; [done|by apply lookup_delete_eq|done].
Qed.
End guarantees.

(** ** What bounds the pending candidates

    An approval leaves the counters of the approval store, and a sweep keeps approved candidates. *)

Section retention.
Context `{Unicode, TimeData, Sha256, SortSlice, DocDecoder, RangeOrder}.
Variable ps : PolicyService.

Lemma gateway_not_management : isManagementCapability "gateway" = false.
Proof.
  unfold isManagementCapability. change (TrimSpace "gateway") with "gateway". unfold EqualFold. apply bool_decide_eq_false. intros E.
  apply (f_equal length) in E. rewrite !length_map in E. vm_compute in E. discriminate E.
Qed.

(** Every pending candidate is approved. *)
Definition all_approved (w : World) : Prop :=
  map_Forall (λ id pp, ∃ r, as_byID (w_approvals w) !! id = Some r ∧ rq_tenant r = pp_tenant pp ∧ rq_state r = StateApproved) (w_pending w).

Lemma run_sweep_stale clks l stale w :
  Forall (λ kv, ∃ r, as_byID (w_approvals w) !! kv.1 = Some r ∧ rq_tenant r = pp_tenant kv.2 ∧ rq_state r = StateApproved) l →
  run_prog (sweep_stale clks l stale) w = Some (w, stale).
Proof.
  revert stale. induction l as [|[id pp] l IH]; intros stale Hl; cbn [sweep_stale]; [done|].
  apply Forall_cons in Hl as [(r & Hr & Ht & Hst) Hl]. rewrite run_bind. cbn in Ht.
  rewrite (run_Get_decided _ _ _ r) by (done || by rewrite Hst). rewrite !bool_decide_false by (by rewrite Hst). by apply IH.
Qed.
Lemma run_sweepPending clks w : w_mu w = false → all_approved w → run_prog (sweepPending clks) w = Some (w, ()).
Proof.
  intros Hm Ha. unfold sweepPending. rewrite run_bind. cbn [run_prog lock_mu]. rewrite Hm, run_bind, run_sweep_stale.
  - destruct w; cbn in Hm |- *. by subst.
  - apply Forall_forall. intros [id pp] Hin%elem_of_range. by apply Ha.
Qed.

Lemma run_create_request clk id kind requester b r s' w :
  McpApproval.Create clk (w_approvals w) id kind requester b = (s', inr r) →
  run_prog (app_Create clk id kind requester b) w = Some (w <| w_approvals := s' |>, inr r).
Proof. intros E. cbn. by rewrite E. Qed.

Definition one_candidate (raw : string) (now : Instant) (n : nat) : list Op :=
  [PubCreate (λ _ _, 0) now (λ _, 0) (nth_id n) "gateway" "acme" "alice" raw 0; PubApprove (λ _, 0) (nth_id n) "bob" accept_all].

(** [n] candidates are pending, all approved, and the base is still zero. *)
Record retained (ttl : Duration) (n : nat) (w : World) : Prop := {
  rt_free : w_mu w = false;
  rt_gw : w_gw w = McpEngine.NewStore CapGateway;
  rt_store : ∃ log, store_ok (w_approvals w) log;
  rt_config : as_maxPending (w_approvals w) = 1 ∧ as_maxPerTenant (w_approvals w) = 1 ∧ as_ttl (w_approvals w) = ttl;
  rt_decided : map_Forall (λ _ r, rq_state r ≠ StatePending) (as_byID (w_approvals w));
  rt_approved : all_approved w;
  rt_size : size (w_pending w) = n;
  rt_fresh m : (n ≤ m)%nat → as_byID (w_approvals w) !! nth_id m = None ∧ w_pending w !! nth_id m = None;
}.

Lemma retain_one raw now snap ttl n t w :
  compile ps now "gateway" raw = inr snap → sn_revision snap = 1 → 0 < ttl → retained ttl n w →
  ∃ w', run_ops ps t (one_candidate raw now n) w = Some w' ∧ retained ttl (S n) w'.
Proof.
  intros Hc Hrev Httl [Hmu Hgw [log Hok] (E1 & E2 & E3) Hdec Happ Hsz Hfresh]. destruct (Hfresh n) as [Hnew Hnewp]; [done|].
  set (b := candidate_binding "acme" "gateway" (candidateHash raw) 0 1). set (r := created (w_approvals w) (nth_id n) KindPublication "alice" b 0).
  set (s1 := set_count (put (w_approvals w) r) "acme" 1). set (pp := mkPending "gateway" "acme" snap 0 1 (candidateHash raw)).
  set (w1 := w <| w_approvals := s1 |> <| w_pending := <[nth_id n := pp]> (w_pending w) |>).
  assert (McpApproval.Create (λ _, 0) (w_approvals w) (nth_id n) KindPublication "alice" b = (s1, inr r)) as Ecr
    by (rewrite (Create_room (λ _, 0) _ log) by (done || lia); done).
  assert (run_prog (Create ps (λ _ _, 0) now (λ _, 0) (nth_id n) "gateway" "acme" "alice" raw 0) w = Some (w1, inr (nth_id n))) as Erun.
  { unfold Create. rewrite gateway_not_management, run_bind, run_sweepPending, run_try by done. cbn [run_prog]. rewrite Hc, run_try.
    cbn [run_prog atomic fst snd storeFor String.eqb Ascii.eqb Bool.eqb]. rewrite Hgw. cbn [CurrentRevision McpEngine.NewStore st_cur from_option].
    cbn [negb Z.eqb]. change ((0 + 1) mod 2 ^ 64) with 1. rewrite Hrev. cbn [negb Z.eqb Pos.eqb]. rewrite run_try.
    rewrite (run_create_request _ _ _ _ _ r s1) by done. rewrite run_bind. cbn. rewrite Hmu. done. }
  assert (open_at (λ _, 0) r) as Hopen by (split; [done|]; cbn; lia).
  assert (approvable (λ _, 0) r "bob" (mkRevs 0 0 0 0) accept_all "evidence") as Hap by (split_and!; [done|done|done|done]).
  assert (as_byID s1 !! nth_id n = Some r) as Hr1 by apply lookup_insert_eq.
  pose proof (Approve_open _ s1 _ _ _ _ _ _ Hr1 Hap) as (q & Eap & Hf & Hq).
  pose proof (Create_spec _ _ log _ _ _ _ _ _ Hok Ecr) as (Hok1 & Hev1 & _).
  pose proof (Approve_spec _ _ log _ _ _ _ _ _ _ Hok1 Eap) as (Hok2 & Hev2 & _).
  set (s2 := decPendingLocked (put s1 q) (rq_tenant q)) in *.
  assert (as_byID s2 = <[nth_id n := q]> (as_byID (w_approvals w))) as Em.
  { unfold s2. rewrite decPending_byID. cbn. destruct Hf as (-> & _). cbn. apply insert_insert_eq. }
  eexists. cbn [run_ops one_candidate denote]. rewrite run_bind, Erun. cbn [run_prog]. rewrite run_bind. unfold Approve.
  rewrite run_try, (run_lookup _ pp) by (done || apply lookup_insert_eq). rewrite run_try.
  cbn [run_prog atomic fst snd storeFor pp_capability pp String.eqb Ascii.eqb Bool.eqb]. change (w_gw w1) with (w_gw w). rewrite Hgw.
  cbn [CurrentRevision McpEngine.NewStore st_cur from_option]. cbn [run_prog app_Approve atomic]. change (w_approvals w1) with s1.
  rewrite Eap. cbn [with_approvals fst snd]. split; [reflexivity|].
  destruct (ev_config _ _ Hev1) as (C1 & C2 & C3), (ev_config _ _ Hev2) as (D1 & D2 & D3).
  split; cbn [w_mu w_gw w_approvals w_pending]; [done|done|by eexists|split_and!; etrans; eauto; etrans; eauto| | | |].
  - change (map_Forall (λ _ r, rq_state r ≠ StatePending) (as_byID s2)). rewrite Em. apply map_Forall_insert_2; [by rewrite Hq|done].
  - unfold all_approved. change (map_Forall (λ id pp, ∃ r, as_byID s2 !! id = Some r ∧ rq_tenant r = pp_tenant pp ∧ rq_state r = StateApproved) (<[nth_id n := pp]> (w_pending w))).
    rewrite Em. apply map_Forall_insert_2.
    + exists q. rewrite lookup_insert_eq. split_and!; [done| |done]. unfold rq_tenant. by destruct Hf as (_ & _ & _ & -> & _).
    + intros id pp' Hpp. destruct (Happ id pp' Hpp) as (r' & Hr' & ?). exists r'. rewrite lookup_insert_ne; [done|]. intros <-. congruence.
  - change (size (<[nth_id n := pp]> (w_pending w)) = S n). rewrite map_size_insert_None by done. by rewrite Hsz.
  - intros m Hm. change (as_byID s2 !! nth_id m = None ∧ <[nth_id n := pp]> (w_pending w) !! nth_id m = None). rewrite Em.
    assert (nth_id n ≠ nth_id m) by (intros ?%nth_id_inj; lia). rewrite !lookup_insert_ne by done. apply Hfresh. lia.
Qed.

(** The pending candidates are documented as bounded by the approval store's caps: with one pending request allowed, any
    number of approved candidates stay, each with its compiled snapshot. *)
Theorem approved_candidates_stay raw now snap ttl n :
  compile ps now "gateway" raw = inr snap → sn_revision snap = 1 → 0 < ttl →
  ∃ ops w, run_ops ps 0 ops (boot newMCPPolicyHolder 1 1 ttl) = Some w ∧ size (w_pending w) = n ∧ pendingCountLocked (w_approvals w) = 0.
Proof.
  intros Hc Hrev Httl.
  assert (∀ t, ∃ ops w, run_ops ps t ops (boot newMCPPolicyHolder 1 1 ttl) = Some w ∧ retained ttl n w) as Hex.
  { induction n as [|n IH]; intros t.
    - exists [], (boot newMCPPolicyHolder 1 1 ttl). split; [done|]. split; cbn; try done; [exists []; apply NewStore_ok|apply map_Forall_empty..].
    - destruct (IH t) as (ops & w & Hrun & Hret).
      destruct (retain_one raw now snap ttl n (t + length ops)%nat w Hc Hrev Httl Hret) as (w' & Hrun' & Hret').
      exists (ops ++ one_candidate raw now n)%list, w'. split; [|done]. clear IH Hret Hret'.
      revert t Hrun Hrun'. generalize (boot newMCPPolicyHolder 1 1 ttl) as w1. induction ops as [|op ops IHops]; intros w1 t Hrun Hrun'.
      + cbn in Hrun. injection Hrun as ->. cbn [length app] in *. by rewrite Nat.add_0_r in Hrun'.
      + cbn [run_ops app length] in *. destruct (run_prog (denote ps t op) w1) as [[w2 u]|]; [|done].
        apply IHops; [done|]. by rewrite Nat.add_succ_r in Hrun'. }
  destruct (Hex 0%nat) as (ops & w & Hrun & [_ _ _ _ Hdec _ Hsz _]). exists ops, w. split_and!; [done|done|].
  unfold pendingCountLocked. by rewrite pending_none.
Qed.
End retention.

(** ** Witnesses *)

Section sequential.
Context `{Unicode, TimeData, Sha256, SortSlice, DocDecoder, RangeOrder}.
Variable ps : PolicyService.

Lemma run_prog_steps p w w' a pool t :
  pool !! t = Some p → run_prog p w = Some (w', a) → rtc (step ps) (w, pool) (w', <[t := Ret a]> pool).
Proof.
  revert w pool. induction p as [b|f k IH]; intros w pool Ht; cbn [run_prog].
  - intros [= <- <-]. rewrite list_insert_id by done. constructor.
  - destruct (f w) as [w1|] eqn:Ef; [|done]. intros Hr. eapply rtc_l; [by apply (step_act ps w pool t f k w1)|].
    rewrite <- (list_insert_insert_eq pool t (Ret a) (k w)). apply (IH w); [|done]. apply list_lookup_insert_eq. by eapply lookup_lt_Some.
Qed.
(** Calls made one after another are one of the interleavings. *)
Lemma run_ops_steps ops w w' pool : run_ops ps (length pool) ops w = Some w' → ∃ pool', rtc (step ps) (w, pool) (w', pool').
Proof.
  revert w pool. induction ops as [|op ops IH]; intros w pool; cbn [run_ops]; [intros [= <-]; eexists; constructor|].
  destruct (run_prog (denote ps (length pool) op) w) as [[w1 []]|] eqn:E; [|done]. intros Hr.
  assert ((pool ++ [denote ps (length pool) op])%list !! length pool = Some (denote ps (length pool) op)) as Hl by by apply list_lookup_middle.
  destruct (IH w1 (<[length pool := Ret ()]> (pool ++ [denote ps (length pool) op])%list)) as [pool' Hp].
  { rewrite length_insert, length_app. cbn. by rewrite Nat.add_1_r. }
  exists pool'. eapply rtc_l; [apply step_spawn|]. etrans; [by eapply run_prog_steps|done].
Qed.
End sequential.

Definition sample_service : PolicyService := mkPolicyService McpInput.DefaultLimits McpAdmin.DefaultLimits.
Definition first_doc : rawSnapshot := mkRawSnap 1 "gateway" 1 "DENY" "" [tenant_rule "R1" 10 ["acme"]].
Definition create_and_approve : list Op :=
  [PubCreate (λ _ _, 0) 0 (λ _, 0) "p1" "gateway" "acme" "alice" "{}" 0; PubApprove (λ _, 10) "p1" "bob" accept_all].
Definition first_receipt : Receipt :=
  mkReceipt true "p1" KindPublication "acme" "gateway" "bob" "" (sha256_hex (Sha256 := flat_digest) "{}") 1 "evidence" 10.
Definition accept_publication : PublicationCommitter := λ _ _ _ _ _, inr "published".
Definition whole_run : list Op := (create_and_approve ++ [PubPublish (λ _, 20) "p1" "acme" first_receipt accept_publication])%list.
Definition sample_run (ops : list Op) : option World :=
  run_ops (H := ascii_unicode) (H0 := two_dates) (H1 := flat_digest) (H2 := stable_sort) (H3 := fixed_decoder first_doc) (H4 := default_range)
    sample_service 0 ops (boot newMCPPolicyHolder 8 4 Hour).
Definition sample_step : World * list (prog ()) → World * list (prog ()) → Prop :=
  step (H := ascii_unicode) (H0 := two_dates) (H1 := flat_digest) (H2 := stable_sort) (H3 := fixed_decoder first_doc) (H4 := default_range) sample_service.

Lemma sample_steps ops w :
  sample_run ops = Some w → ∃ pool, rtc sample_step (boot newMCPPolicyHolder 8 4 Hour, []) (w, pool).
Proof. apply (run_ops_steps (H := ascii_unicode) sample_service ops _ w []). Qed.

Lemma published_four_eyes_witness :
  ∃ w pool l1 snap, sample_run whole_run = Some w ∧ rtc sample_step (boot newMCPPolicyHolder 8 4 Hour, []) (w, pool) ∧
    w_log w = (l1 ++ [EvPublished "p1" "gateway" 0 snap])%list ∧ st_cur (w_gw w) = Some snap ∧
    four_eyes (H0 := two_dates) (H1 := flat_digest) (H2 := stable_sort) (H3 := fixed_decoder first_doc) sample_service
      (w_approvals w) l1 "p1" "gateway" 0 snap.
Proof.
  destruct (sample_run whole_run) as [w|] eqn:E; [|vm_compute in E; discriminate E].
  destruct (sample_steps _ _ E) as [pool Hs].
  pose proof (published_four_eyes (H := ascii_unicode) (H0 := two_dates) (H1 := flat_digest) (H2 := stable_sort)
    (H3 := fixed_decoder first_doc) (H4 := default_range) sample_service newMCPPolicyHolder 8 4 Hour w pool booted_new Hs) as (Hc & _ & Hl).
  assert (∃ d p snap, w_log w = [d; p; EvPublished "p1" "gateway" 0 snap] ∧ is_pub d = false ∧
    ∃ c t h b q g, p = EvPublication c t h b q g) as (d & p & snap & El & Ed & c & t & h & b & q & g & Ep).
  { vm_compute in E. injection E as <-. do 3 eexists. cbn [w_log]. split; [reflexivity|]. split; [reflexivity|]. do 6 eexists. reflexivity. }
  exists w, pool, [d; p], snap. split_and!; [done|exact Hs|exact El| |].
  - rewrite Hc, El, Ep. destruct d; [done|discriminate Ed..].
  - apply (Hl [d; p] "p1" "gateway" 0 snap []). exact El.
Defined.

Lemma publication_committed_witness :
  ∃ w, sample_run whole_run = Some w ∧ w_pubMu w = None ∧ length (publog (w_log w)) = 2%nat ∧ paired (publog (w_log w)).
Proof.
  destruct (sample_run whole_run) as [w|] eqn:E; [|vm_compute in E; discriminate E].
  destruct (sample_steps _ _ E) as [pool Hs].
  pose proof (publication_committed (H := ascii_unicode) (H0 := two_dates) (H1 := flat_digest) (H2 := stable_sort)
    (H3 := fixed_decoder first_doc) (H4 := default_range) sample_service newMCPPolicyHolder 8 4 Hour w pool booted_new Hs) as [Hp _].
  assert (w_pubMu w = None ∧ length (publog (w_log w)) = 2%nat) as [Hm Hl] by (vm_compute in E; injection E as <-; done).
  exists w. split_and!; [done|done|done|by apply Hp].
Defined.

Lemma publish_completes_witness :
  ∃ w pp w' res, sample_run create_and_approve = Some w ∧ w_pending w !! "p1" = Some pp ∧
    run_prog (Publish 2 (λ _, 20) "p1" "acme" first_receipt accept_publication) w = Some (w', inr res) ∧
    st_cur (w_gw w') = Some (pp_snap pp) ∧ pr_Revision res = 1.
Proof.
  destruct (sample_run create_and_approve) as [w|] eqn:E; [|vm_compute in E; discriminate E].
  destruct (sample_steps _ _ E) as [pool Hs].
  assert (w_mu w = false ∧ w_pubMu w = None ∧ CurrentRevision (w_gw w) = 0 ∧
    ∃ pp r, w_pending w !! "p1" = Some pp ∧ as_byID (w_approvals w) !! "p1" = Some r ∧ rq_state r = StateApproved ∧ pp_base pp = 0 ∧
      pp_tenant pp = "acme" ∧ pp_proposed pp = 1 ∧ receipt r = first_receipt) as (Hm & Hp & Hg & pp & r & Hpp & Hr & Hst & Hb & Ht & Hq & Hrc).
  { vm_compute in E. injection E as <-. split; [reflexivity|]. split; [reflexivity|]. split; [reflexivity|]. do 2 eexists.
    split; [vm_compute; reflexivity|]. split; [vm_compute; reflexivity|]. split_and!; reflexivity. }
  destruct (publish_completes (H := ascii_unicode) (H0 := two_dates) (H1 := flat_digest) (H2 := stable_sort)
    (H3 := fixed_decoder first_doc) (H4 := default_range) sample_service newMCPPolicyHolder 8 4 Hour w pool 2 (λ _, 20) "p1" pp r
    accept_publication "published" booted_new Hs Hm Hp Hpp Hr Hst) as (w' & Hrun & Hcur & _ & _); [congruence|reflexivity|].
  rewrite Ht, Hrc in Hrun. exists w, pp, w'. eexists. split_and!; [done|done|exact Hrun|done|done].
Defined.
