(* ===== verification/GoBase64.v ===== *)
(** * Go's [base64.RawURLEncoding], [encoding/hex], [base32] and [utf8.ValidString]

    The URL alphabet without padding.  Decoding is Go's lenient one: it skips line breaks and ignores
    the bits left over in the last symbol.  [RawURL_roundtrip]: decoding what was encoded gives
    it back; [RawURL_no_dot]: an encoding has no dot; [hex_roundtrip]: the same of [encoding/hex].
    Of [base32] only decoding is used, without padding: an incomplete last group of 1, 3 or 6
    symbols is dropped without an error. *)

From S2P Require Import Prelude GoStrings.

Definition alphabet : string := "ABCDEFGHIJKLMNOPQRSTUVWXYZabcdefghijklmnopqrstuvwxyz0123456789-_".

Definition encode_symbol (v : Z) : ascii := default "A"%char (String.get (Z.to_nat v) alphabet).
Definition decode_symbol (c : ascii) : option Z :=
  let b := byte_val c in
  if in_range 65 90 b then Some (b - 65) else
  if in_range 97 122 b then Some (b - 71) else
  if in_range 48 57 b then Some (b + 4) else
  if b =? 45 then Some 62 else
  if b =? 95 then Some 63 else None.

(** The [n] low six-bit digits of [val], the highest first. *)
Definition digit (val k : Z) : Z := (val / 64 ^ k) mod 64.
Fixpoint encode_bytes (l : list ascii) : list Z :=
  match l with
  | a :: b :: c :: l =>
      let val := byte_val a * 65536 + byte_val b * 256 + byte_val c in
      digit val 3 :: digit val 2 :: digit val 1 :: digit val 0 :: encode_bytes l
  | [a; b] => let val := byte_val a * 65536 + byte_val b * 256 in [digit val 3; digit val 2; digit val 1]
  | [a] => let val := byte_val a * 65536 in [digit val 3; digit val 2]
  | [] => []
  end.
Definition EncodeToString (s : string) : string :=
  string_of_list_ascii (encode_symbol <$> encode_bytes (list_ascii_of_string s)).

Fixpoint decode_digits (l : list Z) : option (list ascii) :=
  match l with
  | d0 :: d1 :: d2 :: d3 :: l =>
      let val := d0 * 262144 + d1 * 4096 + d2 * 64 + d3 in
      rest ← decode_digits l; Some (byte_of (val / 65536) :: byte_of (val / 256) :: byte_of val :: rest)
  | [d0; d1; d2] => let val := d0 * 262144 + d1 * 4096 + d2 * 64 in Some [byte_of (val / 65536); byte_of (val / 256)]
  | [d0; d1] => let val := d0 * 262144 + d1 * 4096 in Some [byte_of (val / 65536)]
  | [_] => None
  | [] => Some []
  end.
Definition line_break (c : ascii) : bool := (byte_val c =? 10) || (byte_val c =? 13).
Definition DecodeString (s : string) : option string :=
  ds ← mapM decode_symbol (filter (λ c, line_break c = false) (list_ascii_of_string s));
  string_of_list_ascii <$> decode_digits ds.

(** [utf8.ValidString]: no byte decodes to the error rune of width one. *)
Definition ValidString (s : string) : bool :=
  forallb (λ p, negb ((p.1 =? RuneError) && (String.length p.2 =? 1)%nat)) (segments s).

(** ** Round trip *)

Lemma symbol_roundtrip v : 0 ≤ v < 64 → decode_symbol (encode_symbol v) = Some v.
Proof.
  intros Hv. assert (Forall (λ n, decode_symbol (encode_symbol (Z.of_nat n)) = Some (Z.of_nat n)) (seq 0 64)) as Hall
    by (apply Forall_forall; intros n Hn; revert n Hn; apply Forall_forall; repeat constructor).
  rewrite Forall_forall in Hall. specialize (Hall (Z.to_nat v)). rewrite Z2Nat.id in Hall by lia. apply Hall, elem_of_seq. lia.
Qed.
Lemma symbol_plain v : 0 ≤ v < 64 → let b := byte_val (encode_symbol v) in b ≠ 46 ∧ b ≠ 10 ∧ b ≠ 13.
Proof.
  intros Hv b. pose proof (symbol_roundtrip v Hv) as E. fold b in E. unfold decode_symbol in E. fold b in E. unfold in_range in E.
  repeat case_if; bprop; try discriminate; lia.
Qed.

Lemma digit_range val k : 0 ≤ digit val k < 64.
Proof. apply Z.mod_pos_bound. lia. Qed.
Lemma encode_bytes_range l : Forall (λ v, 0 ≤ v < 64) (encode_bytes l).
Proof.
  revert l. fix IH 1. intros [|a [|b [|c l]]]; cbn [encode_bytes]; repeat (apply Forall_cons; split; [apply digit_range|]); [constructor..|apply IH].
Qed.

Lemma byte_of_mod a z : z mod 256 = byte_val a → byte_of z = a.
Proof. intros E. rewrite <- (byte_of_byte_val a), <- E. unfold byte_of. by rewrite Z.mod_mod. Qed.

(** The digits of a group give its bytes back. *)
Lemma digits_join val : 0 ≤ val < 16777216 → digit val 3 * 262144 + digit val 2 * 4096 + digit val 1 * 64 + digit val 0 = val.
Proof. intros Hv. unfold digit. change (64 ^ 3) with 262144. change (64 ^ 2) with 4096. change (64 ^ 1) with 64. change (64 ^ 0) with 1.
  Z.to_euclidean_division_equations. lia.
Qed.
Lemma decode_encode_bytes l : decode_digits (encode_bytes l) = Some l.
Proof.
  revert l. fix IH 1. intros [|a [|b [|c l]]]; cbn [encode_bytes decode_digits]; [done|..].
  - pose proof (byte_val_range a). do 2 f_equal. apply byte_of_mod. unfold digit. change (64 ^ 3) with 262144. change (64 ^ 2) with 4096.
    Z.to_euclidean_division_equations. lia.
  - pose proof (byte_val_range a). pose proof (byte_val_range b). unfold digit. change (64 ^ 3) with 262144. change (64 ^ 2) with 4096. change (64 ^ 1) with 64.
    do 2 f_equal; [|f_equal]; apply byte_of_mod; Z.to_euclidean_division_equations; lia.
  - pose proof (byte_val_range a). pose proof (byte_val_range b). pose proof (byte_val_range c).
    rewrite IH. cbn [mbind option_bind]. rewrite digits_join by lia.
    do 2 f_equal; [|f_equal; [|f_equal]]; apply byte_of_mod; Z.to_euclidean_division_equations; lia.
Qed.

Lemma list_of_string_of_list l : list_ascii_of_string (string_of_list_ascii l) = l.
Proof. apply list_ascii_of_string_of_list_ascii. Qed.

Theorem RawURL_roundtrip s : DecodeString (EncodeToString s) = Some s.
Proof.
  unfold DecodeString, EncodeToString. rewrite list_of_string_of_list. pose proof (encode_bytes_range (list_ascii_of_string s)) as Hr.
  assert (∀ l, Forall (λ v, 0 ≤ v < 64) l →
    mapM decode_symbol (filter (λ c, line_break c = false) (encode_symbol <$> l)) = Some l) as Hm.
  { induction 1 as [|v l Hv _ IH]; [done|]. rewrite fmap_cons, filter_cons_True.
    - cbn [mapM]. by rewrite symbol_roundtrip, IH.
    - destruct (symbol_plain v Hv) as (_ & ? & ?). unfold line_break. rewrite orb_false_iff, !Z.eqb_neq. done. }
  rewrite Hm by done. cbn [mbind option_bind]. rewrite decode_encode_bytes. cbn. by rewrite string_of_list_ascii_of_string.
Qed.

(** An encoding has only symbols of the alphabet. *)
Lemma RawURL_symbols s c : decode_symbol c = None → ContainsByte (EncodeToString s) c = false.
Proof.
  intros Hc. unfold EncodeToString. pose proof (encode_bytes_range (list_ascii_of_string s)) as Hr. induction Hr as [|v l Hv _ IH]; [done|].
  rewrite fmap_cons. cbn [string_of_list_ascii]. rewrite ContainsByte_cons, IH, orb_false_r. apply Ascii.eqb_neq. intros E.
  pose proof (symbol_roundtrip v Hv). congruence.
Qed.
Lemma RawURL_no_dot s : ContainsByte (EncodeToString s) "."%char = false.
Proof. by apply RawURL_symbols. Qed.
Lemma EncodeToString_inj s t : EncodeToString s = EncodeToString t → s = t.
Proof. intros E. apply (f_equal DecodeString) in E. rewrite !RawURL_roundtrip in E. congruence. Qed.

(** ** Hexadecimal *)

Definition hex_symbol (v : Z) : ascii := if v <? 10 then byte_of (v + 48) else byte_of (v + 87).
Definition hex_value (c : ascii) : option Z :=
  let b := byte_val c in
  if in_range 48 57 b then Some (b - 48) else if in_range 97 102 b then Some (b - 87) else if in_range 65 70 b then Some (b - 55) else None.
Fixpoint hex_EncodeToString (s : string) : string :=
  match s with
  | "" => ""
  | String c s => String (hex_symbol (byte_val c / 16)) (String (hex_symbol (byte_val c mod 16)) (hex_EncodeToString s))
  end.
Fixpoint hex_DecodeString (s : string) : option string :=
  match s with
  | "" => Some ""
  | String a (String b s) =>
      x ← hex_value a; y ← hex_value b; r ← hex_DecodeString s; Some (String (byte_of (x * 16 + y)) r)
  | String _ "" => None
  end.

Lemma hex_symbol_value v : 0 ≤ v < 16 → hex_value (hex_symbol v) = Some v.
Proof.
  intros Hv. assert (v ∈ [0; 1; 2; 3; 4; 5; 6; 7; 8; 9; 10; 11; 12; 13; 14; 15]) as Hin by (rewrite !elem_of_cons; lia).
  clear Hv. revert v Hin. apply Forall_forall. repeat constructor.
Qed.
Lemma hex_roundtrip s : hex_DecodeString (hex_EncodeToString s) = Some s.
Proof.
  induction s as [|c s IH]; [done|]. cbn [hex_EncodeToString hex_DecodeString]. pose proof (byte_val_range c).
  assert (0 ≤ byte_val c / 16 < 16) by (split; [apply Z.div_pos|apply Z.div_lt_upper_bound]; lia).
  pose proof (Z.mod_pos_bound (byte_val c) 16 ltac:(lia)). rewrite !hex_symbol_value by done.
  cbn [mbind option_bind]. rewrite IH. cbn [mbind option_bind]. rewrite (Z.mul_comm _ 16), <- Z.div_mod by lia. by rewrite byte_of_byte_val.
Qed.
Lemma hex_EncodeToString_inj s t : hex_EncodeToString s = hex_EncodeToString t → s = t.
Proof. intros E. apply (f_equal hex_DecodeString) in E. rewrite !hex_roundtrip in E. congruence. Qed.

(** ** Base32 *)

Definition base32_symbol (c : ascii) : option Z :=
  let b := byte_val c in if in_range 65 90 b then Some (b - 65) else if in_range 50 55 b then Some (b - 24) else None.
(** The bytes of one group; [byte_of] keeps the low eight bits. *)
Definition base32_group (l : list Z) : list ascii :=
  let val := foldl (λ v d, v * 32 + d) 0 (l ++ replicate (8 - length l) 0)%list in
  let bytes := [byte_of (val / 2 ^ 32); byte_of (val / 2 ^ 24); byte_of (val / 2 ^ 16); byte_of (val / 2 ^ 8); byte_of val] in
  take (match length l with 2 => 1 | 4 => 2 | 5 => 3 | 7 => 4 | 8 => 5 | _ => 0 end)%nat bytes.
Fixpoint base32_groups (fuel : nat) (l : list Z) : list ascii :=
  match fuel, l with
  | S fuel, _ :: _ => (base32_group (take 8 l) ++ base32_groups fuel (drop 8 l))%list
  | _, _ => []
  end.
Definition base32_DecodeString (s : string) : option string :=
  ds ← mapM base32_symbol (filter (λ c, line_break c = false) (list_ascii_of_string s));
  Some (string_of_list_ascii (base32_groups (length ds) ds)).
