(* ===== verification/Session.v ===== *)
(** * Sessions: signed tokens and their revocation

    [internal/session/session.go], and its cookies in [session.go], [ui_session.go] and [ui_auth.go].

    A [Node] is one process: its signing key, its revocation list, the session lifetime and the
    file revocations are kept in.  The key, the list and the lifetime have a lock each; an operation
    of the list is one critical section, so a function on the node.  [Decode] is three of them, with
    a clock reading each.  JSON is the class [SessionJSON], whose law is that what was marshalled is
    unmarshalled; HMAC-SHA256 is the class [Hmac] and has no law; base64 is [GoBase64].

    - [session_accepts]: what [Decode] accepts, exactly.
    - [session_roundtrip]: a cookie that was issued is accepted, with its content, until it expires.
    - [logout_sticks]: a token that was logged out is refused by that node from then on, through any operations of
      the list, up to its expiry; then for a second it may be accepted ([expiry_gap]).
    - [user_revocation_covers]: revoking a user refuses every session of the name for the lifetime in force, those of an account
      created again included ([recreated_user_refused]); [user_revocation_lapses]: sessions issued under a longer lifetime outlive it.
    - [restart_keeps_tokens]: a restart keeps the revoked tokens that were saved, and forgets users.
    - [forged_logout_kept]: a logout revokes tokens nobody signed, without end. *)

From stdpp Require Import pretty.
From S2P Require Import Prelude GoStrings GoBase64.

(** ** Library code *)

Record Session := mkSession {
  se_Sub : string; se_Email : string; se_Name : string; se_Groups : list string; se_Provider : string; se_Role : string;
  se_Exp : Z; se_Jti : string;
}.
Record RevocationEntry := mkEntry { re_Token : string; re_Expiry : Z }.

Definition is_int64 (z : Z) : bool := (int64_min <=? z) && (z <=? int64_max).
(** What JSON carries unchanged: valid UTF-8 and 64-bit integers. *)
Definition session_encodable (s : Session) : bool :=
  ValidString (se_Sub s) && ValidString (se_Email s) && ValidString (se_Name s) && forallb ValidString (se_Groups s) &&
  ValidString (se_Provider s) && ValidString (se_Role s) && ValidString (se_Jti s) && is_int64 (se_Exp s).
Definition entry_encodable (e : RevocationEntry) : bool := ValidString (re_Token e) && is_int64 (re_Expiry e).

Class SessionJSON := {
  marshal_session : Session → string;
  unmarshal_session : string → option Session;
  session_json s : session_encodable s = true → unmarshal_session (marshal_session s) = Some s;
  marshal_entries : list RevocationEntry → string;
  unmarshal_entries : string → option (list RevocationEntry);
  entries_json l : forallb entry_encodable l = true → unmarshal_entries (marshal_entries l) = Some l;
}.
Class Hmac := { hmac_sha256 : string → string → string }.

(** [time.Unix(sec, 0)] and [t.Unix()]: seconds from year one are an [int64]. *)
Definition unixToInternal : Z := 62135596800.
Definition time_Unix (sec : Z) : Instant := (wrap64 (sec + unixToInternal) - unixToInternal) * Second.
Definition Unix (t : Instant) : Z := wrap64 (t / Second).

(** [strings.LastIndex(s, ".")], and the string cut there. *)
Fixpoint cut_last (s : string) (c : ascii) : option (string * string) :=
  match s with
  | "" => None
  | String d s' =>
      match cut_last s' c with
      | Some (a, b) => Some (String d a, b)
      | None => if Ascii.eqb d c then Some ("", s') else None
      end
  end.

(** ** The node *)

Record Node := mkNode {
  nd_key : string; nd_tokens : gmap string Instant; nd_users : gmap string Instant; nd_ttl : Duration; nd_path : string;
  nd_file : option string;
}.
#[global] Instance Node_eta : Eta Node := λ n, mkNode (nd_key n) (nd_tokens n) (nd_users n) (nd_ttl n) (nd_path n) (nd_file n).

Definition defaultTTL : Duration := 8 * Hour.
Definition SetSigningKey (n : Node) (key : string) : Node := n <| nd_key := key |>.
Definition SetTTL (n : Node) (d : Duration) : Node :=
  let d := if d <? 15 * Minute then 15 * Minute else d in
  let d := if d >? 7 * 24 * Hour then 7 * 24 * Hour else d in
  n <| nd_ttl := d |>.

(** [RevocationList] *)
Definition Revoke (n : Node) (token : string) (exp : Instant) : Node := n <| nd_tokens := <[token := exp]> (nd_tokens n) |>.
Definition IsRevoked (n : Node) (now : Instant) (token : string) : Node * bool :=
  match nd_tokens n !! token with
  | None => (n, false)
  | Some exp => if exp <? now then (n <| nd_tokens := delete token (nd_tokens n) |>, false) else (n, true)
  end.
Definition RevokeUser (n : Node) (now : Instant) (username : string) : Node :=
  n <| nd_users := <[username := now + nd_ttl n]> (nd_users n) |>.
Definition IsUserRevoked (n : Node) (now : Instant) (username : string) : Node * bool :=
  match nd_users n !! username with
  | None => (n, false)
  | Some exp => if exp <? now then (n <| nd_users := delete username (nd_users n) |>, false) else (n, true)
  end.

(** One round of the loop of [MergeRevocations]. *)
Definition merge_entry (now : Instant) (a : gmap string Instant * Z) (e : RevocationEntry) : gmap string Instant * Z :=
  let '(tokens, added) := a in
  let exp := time_Unix (re_Expiry e) in
  if exp <? now then (tokens, added) else
  match tokens !! re_Token e with
  | Some _ => (tokens, added)
  | None => (<[re_Token e := exp]> tokens, added + 1)
  end.
Definition MergeRevocations (n : Node) (now : Instant) (entries : list RevocationEntry) : Node * Z :=
  let '(tokens, added) := foldl (merge_entry now) (nd_tokens n, 0) entries in (n <| nd_tokens := tokens |>, added).

Inductive DecodeError := Malformed | InvalidSignature | TokenRevoked | BadBase64 | BadJSON | Expired | UserRevoked.
Inductive StoreError := WriteError | ReadError | ParseError.

Section session.
Context `{SessionJSON, Hmac, RangeOrder}.

Definition mac (n : Node) (data : string) : string := EncodeToString (hmac_sha256 (nd_key n) data).
Definition Encode (n : Node) (s : Session) : string :=
  let b64 := EncodeToString (marshal_session s) in b64 ++ "." ++ mac n b64.

(** [t1], [t2], [t3]: the clock at the token check, the expiry check and the user check. *)
Definition Decode (n : Node) (t1 t2 t3 : Instant) (raw : string) : Node * (DecodeError + Session) :=
  match cut_last raw "."%char with
  | None => (n, inl Malformed)
  | Some (b64, sig) =>
      if negb (sig =? mac n b64)%string then (n, inl InvalidSignature) else
      let '(n, revoked) := IsRevoked n t1 b64 in
      if revoked then (n, inl TokenRevoked) else
      match DecodeString b64 with
      | None => (n, inl BadBase64)
      | Some payload =>
          match unmarshal_session payload with
          | None => (n, inl BadJSON)
          | Some s =>
              if Unix t2 >? se_Exp s then (n, inl Expired) else
              if negb (se_Sub s =? "")%string then
                let '(n, revoked) := IsUserRevoked n t3 (se_Sub s) in
                if revoked then (n, inl UserRevoked) else (n, inr s)
              else (n, inr s)
          end
      end
  end.

Definition ExportRevocations (n : Node) (now : Instant) : Node * list RevocationEntry :=
  (n <| nd_tokens := filter (λ kv, ¬ kv.2 < now) (nd_tokens n) |>,
   (λ kv, mkEntry kv.1 (Unix kv.2)) <$> filter (λ kv, ¬ kv.2 < now) (range (nd_tokens n))).

Definition SaveRevocations (n : Node) (now : Instant) (w : WriteResult) : Node * option StoreError :=
  if (nd_path n =? "")%string then (n, None) else
  let '(n, entries) := ExportRevocations n now in
  match w with
  | Written => (n <| nd_file := Some (marshal_entries entries) |>, None)
  | NotWritten => (n, Some WriteError)
  | ReplacedNotSynced => (n <| nd_file := Some (marshal_entries entries) |>, Some WriteError)
  end.
(** [readable]: whether a file that exists can be read. *)
Definition LoadRevocations (n : Node) (now : Instant) (readable : bool) : Node * option StoreError :=
  if (nd_path n =? "")%string then (n, None) else
  match nd_file n with
  | None => (n, None)
  | Some data =>
      if negb readable then (n, Some ReadError) else
      match unmarshal_entries data with
      | None => (n, Some ParseError)
      | Some entries => ((MergeRevocations n now entries).1, None)
      end
  end.

(** ** Cookies *)

Record Identity := mkIdentity { id_Sub : string; id_Email : string; id_Name : string; id_Groups : list string; id_Provider : string }.
Definition sessionIdentity (s : Session) : Identity := mkIdentity (se_Sub s) (se_Email s) (se_Name s) (se_Groups s) (se_Provider s).

(** The cookie value of a proxy user's session, and of an administrator's. *)
Definition setSessionCookie (n : Node) (now : Instant) (jti : string) (id : Identity) : string :=
  Encode n (mkSession (id_Sub id) (id_Email id) (id_Name id) (id_Groups id) (id_Provider id) "" (Unix (now + nd_ttl n)) jti).
Definition setUISessionCookie (n : Node) (now : Instant) (jti : string) (username role : string) : string :=
  Encode n (mkSession username "" "" [] "local" role (Unix (now + nd_ttl n)) jti).

(** [cookie] is the value of the cookie the request carries, if it has one. *)
Definition revokeSessionCookie (n : Node) (now : Instant) (w : WriteResult) (cookie : option string) : Node :=
  match cookie with
  | None => n
  | Some value =>
      match cut_last value "."%char with
      | None => n
      | Some (b64part, _) =>
          match DecodeString b64part with
          | None => n
          | Some payload =>
              match unmarshal_session payload with
              | None => n
              | Some s => (SaveRevocations (Revoke n b64part (time_Unix (se_Exp s))) now w).1
              end
          end
      end
  end.
(** [None]: no cookie, which is not an error. *)
Definition read_cookie (n : Node) (t1 t2 t3 : Instant) (cookie : option string) : Node * option (DecodeError + Session) :=
  match cookie with
  | None => (n, None)
  | Some value => let '(n, r) := Decode n t1 t2 t3 value in (n, Some r)
  end.
(** [apiAuthLogout]; the session it reads names the actor of an audit line. *)
Definition apiAuthLogout (n : Node) (t1 t2 t3 now : Instant) (w : WriteResult) (cookie : option string) : Node :=
  let '(n, _) := read_cookie n t1 t2 t3 cookie in revokeSessionCookie n now w cookie.
(** [authLogout], of proxy users, clears the cookie in the browser. *)
Definition authLogout (n : Node) : Node := n.
End session.

(** ** What is accepted *)

Lemma cut_last_None s c : cut_last s c = None ↔ ContainsByte s c = false.
Proof.
  induction s as [|d s IH]; [done|]. cbn [cut_last]. rewrite ContainsByte_cons, orb_false_iff.
  destruct (cut_last s c) as [[a b]|]; [naive_solver|]. destruct (Ascii.eqb d c); naive_solver.
Qed.
Lemma contains_cut a c b : ContainsByte (a ++ String c b)%string c = true.
Proof. induction a as [|y a IH]; cbn [String.append]; rewrite ContainsByte_cons; [by rewrite Ascii.eqb_refl|by rewrite IH, orb_true_r]. Qed.
Lemma cut_last_Some s c a b : cut_last s c = Some (a, b) ↔ s = (a ++ String c b)%string ∧ ContainsByte b c = false.
Proof.
  revert a. induction s as [|d s IH]; intros a; cbn [cut_last]; [split; [done|]; intros [E _]; by destruct a|].
  destruct (cut_last s c) as [[a' b']|] eqn:E.
  - split.
    + intros Ea. injection Ea as <- <-. destruct (proj1 (IH a') eq_refl) as [-> ?]. done.
    + intros [Hs Hb]. destruct a as [|x a]; cbn in Hs; injection Hs as -> ->.
      * apply cut_last_None in Hb. congruence.
      * assert (Some (a', b') = Some (a, b)) as Ea by (by apply IH). congruence.
  - apply cut_last_None in E. destruct (Ascii.eqb_spec d c) as [->|Hne]; split.
    + intros Ea. by injection Ea as <- <-.
    + intros [Hs Hb]. destruct a as [|x a]; cbn in Hs; simplify_eq; [done|]. by rewrite contains_cut in E.
    + done.
    + intros [Hs Hb]. destruct a as [|x a]; cbn in Hs; simplify_eq. by rewrite contains_cut in E.
Qed.

(** The token is not in the list, or its entry is out of date. *)
Definition unlisted (m : gmap string Instant) (k : string) (now : Instant) : Prop := ∀ e, m !! k = Some e → e < now.

Lemma IsRevoked_spec n now tok n' b :
  IsRevoked n now tok = (n', b) →
  (b = false ↔ unlisted (nd_tokens n) tok now) ∧ nd_key n' = nd_key n ∧ nd_users n' = nd_users n ∧
  nd_tokens n' = (if b then nd_tokens n else delete tok (nd_tokens n)).
Proof.
  unfold IsRevoked, unlisted. destruct (nd_tokens n !! tok) as [e|] eqn:E.
  - destruct (e <? now) eqn:El; bprop; intros [= <- <-]; cbn; split_and!; try done; naive_solver lia.
  - intros [= <- <-]. split_and!; try done. cbn. by rewrite delete_id.
Qed.
Lemma IsUserRevoked_spec n now u n' b :
  IsUserRevoked n now u = (n', b) → (b = false ↔ unlisted (nd_users n) u now) ∧ nd_tokens n' = nd_tokens n.
Proof.
  unfold IsUserRevoked, unlisted. destruct (nd_users n !! u) as [e|] eqn:E; [|intros [= <- <-]; done].
  destruct (e <? now) eqn:El; bprop; intros [= <- <-]; cbn; split; try done; naive_solver lia.
Qed.

Section accepted.
Context `{SessionJSON, Hmac, RangeOrder}.

Definition carries (b64 : string) (s : Session) : Prop := ∃ payload, DecodeString b64 = Some payload ∧ unmarshal_session payload = Some s.

Lemma mac_no_dot n data : ContainsByte (mac n data) "."%char = false.
Proof. apply RawURL_no_dot. Qed.

(** [Decode]'s outcome, once the cookie is cut. *)
Lemma decode_signed n t1 t2 t3 b64 s :
  (∃ n', Decode n t1 t2 t3 (b64 ++ "." ++ mac n b64) = (n', inr s)) ↔
  carries b64 s ∧ unlisted (nd_tokens n) b64 t1 ∧ Unix t2 ≤ se_Exp s ∧ (se_Sub s = "" ∨ unlisted (nd_users n) (se_Sub s) t3).
Proof.
  unfold Decode. rewrite (proj2 (cut_last_Some _ "."%char b64 (mac n b64))) by (split; [done|apply mac_no_dot]).
  rewrite String.eqb_refl. cbn [negb]. destruct (IsRevoked n t1 b64) as [n1 rv] eqn:E1. apply IsRevoked_spec in E1 as (Hr & _ & Hu & _).
  destruct rv; [split; [naive_solver|]; intros (_ & Hn & _); by apply Hr in Hn|]. unfold carries.
  destruct (DecodeString b64) as [payload|]; [|naive_solver].
  destruct (unmarshal_session payload) as [s'|] eqn:Eu; [|naive_solver].
  destruct (Unix t2 >? se_Exp s') eqn:Ex; bprop; [split; [naive_solver|]; intros ((p & [= <-] & E) & _ & ? & _); simplify_eq; lia|].
  destruct (se_Sub s' =? "")%string eqn:Es; cbn [negb]; bprop.
  - split; [intros [n' [= <- <-]]; split_and!; eauto; by apply Hr|]. intros ((p & [= <-] & E) & _). simplify_eq. eauto.
  - destruct (IsUserRevoked n1 t3 (se_Sub s')) as [n2 ru] eqn:E2. apply IsUserRevoked_spec in E2 as [Hru _]. rewrite Hu in Hru.
    destruct ru.
    { split; [naive_solver|]. intros ((p & [= <-] & E) & _ & _ & [?|Hn]); [congruence|]. simplify_eq. by apply Hru in Hn. }
    split; [intros [n' [= <- <-]]; split_and!; eauto; [by apply Hr|right; by apply Hru]|]. intros ((p & [= <-] & E) & _). simplify_eq. eauto.
Qed.

Lemma session_accepts_of n t1 t2 t3 raw s :
  (∃ n', Decode n t1 t2 t3 raw = (n', inr s)) ↔
  ∃ b64, raw = (b64 ++ "." ++ mac n b64)%string ∧ carries b64 s ∧ unlisted (nd_tokens n) b64 t1 ∧
    Unix t2 ≤ se_Exp s ∧ (se_Sub s = "" ∨ unlisted (nd_users n) (se_Sub s) t3).
Proof.
  split.
  - intros [n' E]. pose proof E as E'. unfold Decode in E. destruct (cut_last raw "."%char) as [[b64 sig]|] eqn:Ec; [|done].
    apply cut_last_Some in Ec as [-> _]. destruct (sig =? mac n b64)%string eqn:Em; [|done]. bprop. subst sig.
    exists b64. split; [done|]. apply decode_signed. eauto.
  - intros (b64 & -> & Hrest). by apply decode_signed.
Qed.

(** C28: [Decode] accepts a cookie, and says the session is [s], exactly when the cookie is a payload, a dot and the payload's MAC
    under the node's current key, the payload is base64 of JSON of [s], the session has not expired, and neither the
    token nor (for a session that names one) the user is on the revocation list with an entry still in force. *)
Theorem session_accepts n t1 t2 t3 raw s :
  (∃ n', Decode n t1 t2 t3 raw = (n', inr s)) ↔
  ∃ b64, raw = (b64 ++ "." ++ mac n b64)%string ∧ carries b64 s ∧ unlisted (nd_tokens n) b64 t1 ∧
    Unix t2 ≤ se_Exp s ∧ (se_Sub s = "" ∨ unlisted (nd_users n) (se_Sub s) t3).
Proof. apply session_accepts_of. Qed.

Lemma encoded_carries s : session_encodable s = true → carries (EncodeToString (marshal_session s)) s.
Proof. intros Hs. exists (marshal_session s). split; [apply RawURL_roundtrip|by apply session_json]. Qed.

(** A session that JSON can carry, encoded by one node, is decoded by every node with the same key, as the same session, at any
    time until its expiry second is over, unless its token or its user was revoked there. *)
Theorem session_roundtrip n n' t1 t2 t3 s :
  session_encodable s = true → nd_key n' = nd_key n → Unix t2 ≤ se_Exp s →
  nd_tokens n' !! EncodeToString (marshal_session s) = None → nd_users n' !! se_Sub s = None →
  ∃ n'', Decode n' t1 t2 t3 (Encode n s) = (n'', inr s).
Proof.
  intros Hs Hk Ht Htok Husr. unfold Encode. set (b64 := EncodeToString _).
  replace (mac n b64) with (mac n' b64) by (unfold mac; by rewrite Hk). apply decode_signed. unfold unlisted.
  split_and!; [by apply encoded_carries|intros e He; unfold b64 in He; congruence|done|right; intros e He; congruence].
Qed.
End accepted.

(** ** Revocation over time *)

(** The critical sections of the list's and the node's locks, with their clock readings. *)
Inductive CritSec :=
  | CRevoke (token : string) (exp : Instant)
  | CIsRevoked (now : Instant) (token : string)
  | CRevokeUser (now : Instant) (username : string)
  | CIsUserRevoked (now : Instant) (username : string)
  | CExport (now : Instant)
  | CMerge (now : Instant) (entries : list RevocationEntry)
  | CSetKey (key : string)
  | CSetTTL (d : Duration).

Section over_time.
Context `{SessionJSON, Hmac, RangeOrder}.

Definition crit_step (n : Node) (o : CritSec) : Node :=
  match o with
  | CRevoke token exp => Revoke n token exp
  | CIsRevoked now token => (IsRevoked n now token).1
  | CRevokeUser now u => RevokeUser n now u
  | CIsUserRevoked now u => (IsUserRevoked n now u).1
  | CExport now => (ExportRevocations n now).1
  | CMerge now entries => (MergeRevocations n now entries).1
  | CSetKey key => SetSigningKey n key
  | CSetTTL d => SetTTL n d
  end.
Definition crit_run (n : Node) (os : list CritSec) : Node := foldl crit_step n os.

(** The clock of the section is at most [T]. *)
Definition by_time (T : Instant) (o : CritSec) : Prop :=
  match o with
  | CIsRevoked now _ | CRevokeUser now _ | CIsUserRevoked now _ | CExport now | CMerge now _ => now ≤ T
  | CRevoke _ _ | CSetKey _ | CSetTTL _ => True
  end.
(** A token is revoked until the expiry it carries: what [revokeSessionCookie], the one caller, does. *)
Definition genuine (o : CritSec) : Prop :=
  match o with CRevoke token exp => ∃ s, carries token s ∧ exp = time_Unix (se_Exp s) | _ => True end.
Definition not_again (u : string) (o : CritSec) : Prop := match o with CRevokeUser _ u' => u' ≠ u | _ => True end.

Lemma carries_fun b64 s s' : carries b64 s → carries b64 s' → s = s'.
Proof. intros (p & E & F) (p' & E' & F'). congruence. Qed.

Lemma IsRevoked_keeps n now tok tok' e : nd_tokens n !! tok' = Some e → now ≤ e → nd_tokens (IsRevoked n now tok).1 !! tok' = Some e.
Proof.
  intros He Hn. unfold IsRevoked. destruct (nd_tokens n !! tok) as [e'|] eqn:E; [|done]. destruct (e' <? now) eqn:El; [|done]. bprop. cbn.
  rewrite lookup_delete_ne; [done|]. intros <-. rewrite He in E. injection E as ->. lia.
Qed.
Lemma IsUserRevoked_keeps n now u u' e : nd_users n !! u' = Some e → now ≤ e → nd_users (IsUserRevoked n now u).1 !! u' = Some e.
Proof.
  intros He Hn. unfold IsUserRevoked. destruct (nd_users n !! u) as [e'|] eqn:E; [|done]. destruct (e' <? now) eqn:El; [|done]. bprop. cbn.
  rewrite lookup_delete_ne; [done|]. intros <-. rewrite He in E. injection E as ->. lia.
Qed.
Lemma IsUserRevoked_tokens n now u : nd_tokens (IsUserRevoked n now u).1 = nd_tokens n.
Proof. unfold IsUserRevoked. destruct (nd_users n !! u); [case_if|]; done. Qed.
Lemma IsRevoked_users n now tok : nd_users (IsRevoked n now tok).1 = nd_users n.
Proof. unfold IsRevoked. destruct (nd_tokens n !! tok); [case_if|]; done. Qed.
Lemma merge_keeps now entries a tok e : a.1 !! tok = Some e → (foldl (merge_entry now) a entries).1 !! tok = Some e.
Proof.
  revert a. induction entries as [|x entries IH]; intros [tokens added] He; [done|]. cbn [foldl]. apply IH. unfold merge_entry.
  cbn in He. case_if; [done|]. destruct (tokens !! re_Token x) eqn:E; [done|]. cbn. rewrite lookup_insert_ne; [done|congruence].
Qed.
Lemma MergeRevocations_tokens n now entries : nd_tokens (MergeRevocations n now entries).1 = (foldl (merge_entry now) (nd_tokens n, 0) entries).1.
Proof. unfold MergeRevocations. by destruct (foldl _ _ _). Qed.
Lemma MergeRevocations_users n now entries : nd_users (MergeRevocations n now entries).1 = nd_users n.
Proof. unfold MergeRevocations. by destruct (foldl _ _ _). Qed.
Lemma filter_keeps (m : gmap string Instant) now tok e : m !! tok = Some e → now ≤ e → filter (λ kv, ¬ kv.2 < now) m !! tok = Some e.
Proof. intros. apply map_lookup_filter_Some. cbn. split; [done|lia]. Qed.

(** An entry survives every section in its time; a user's, those that do not revoke the user again. *)
Lemma token_stays n os tok s :
  carries tok s → nd_tokens n !! tok = Some (time_Unix (se_Exp s)) → Forall (by_time (time_Unix (se_Exp s))) os → Forall genuine os →
  nd_tokens (crit_run n os) !! tok = Some (time_Unix (se_Exp s)).
Proof.
  intros Hc. revert n. induction os as [|o os IH]; intros n Hn Ht Hg; [done|]. inv Ht. inv Hg. apply IH; try done.
  destruct o; cbn in *; try done.
  - destruct (decide (token = tok)) as [->|Hne]; [|by rewrite lookup_insert_ne]. rewrite lookup_insert_eq.
    match goal with Hx : ∃ _, _ |- _ => destruct Hx as (s' & Hc' & ->) end. by rewrite (carries_fun _ _ _ Hc Hc').
  - by apply IsRevoked_keeps.
  - by rewrite IsUserRevoked_tokens.
  - by apply filter_keeps.
  - rewrite MergeRevocations_tokens. by apply merge_keeps.
Qed.
Lemma user_stays n os u e :
  nd_users n !! u = Some e → Forall (by_time e) os → Forall (not_again u) os → nd_users (crit_run n os) !! u = Some e.
Proof.
  revert n. induction os as [|o os IH]; intros n Hn Ht Hg; [done|]. inv Ht. inv Hg. apply IH; try done. destruct o; cbn in *; try done.
  - by rewrite IsRevoked_users.
  - by rewrite lookup_insert_ne.
  - by apply IsUserRevoked_keeps.
  - by rewrite MergeRevocations_users.
Qed.

Lemma Decode_revoked n t1 t2 t3 b64 sig e :
  ContainsByte sig "."%char = false → nd_tokens n !! b64 = Some e → t1 ≤ e → ∃ err, (Decode n t1 t2 t3 (b64 ++ "." ++ sig)).2 = inl err.
Proof.
  intros Hsig He Ht. unfold Decode. rewrite (proj2 (cut_last_Some _ "."%char b64 sig)) by done. case_if; [by eexists|].
  unfold IsRevoked. rewrite He. destruct (e <? t1) eqn:El; bprop; [lia|]. by eexists.
Qed.

Lemma Save_keeps n now w tok e : nd_tokens n !! tok = Some e → now ≤ e → nd_tokens (SaveRevocations n now w).1 !! tok = Some e.
Proof. intros He Hn. unfold SaveRevocations. case_if; [done|]. cbn. destruct w; cbn; by apply filter_keeps. Qed.
Lemma revoke_listed n now w b64 sig s :
  ContainsByte sig "."%char = false → carries b64 s → now ≤ time_Unix (se_Exp s) →
  nd_tokens (revokeSessionCookie n now w (Some (b64 ++ "." ++ sig)%string)) !! b64 = Some (time_Unix (se_Exp s)).
Proof.
  intros Hsig (p & Hp & Hs) Hn. unfold revokeSessionCookie. rewrite (proj2 (cut_last_Some _ "."%char b64 sig)) by done. rewrite Hp, Hs.
  apply Save_keeps; [|done]. apply lookup_insert_eq.
Qed.

(** C16: Once an administrator has logged out, the token of that cookie is refused by the node, with any signature, through every
    interleaving of the list's critical sections (other logouts, checks, user revocations, exports, gossip merges, key and
    lifetime changes), as long as clocks read at most the token's expiry; whether the list could be saved makes no difference. *)
Theorem logout_sticks n t1 t2 t3 now w b64 sig s os u1 u2 u3 sig' :
  carries b64 s → ContainsByte sig "."%char = false → ContainsByte sig' "."%char = false →
  now ≤ time_Unix (se_Exp s) → Forall (by_time (time_Unix (se_Exp s))) os → Forall genuine os → u1 ≤ time_Unix (se_Exp s) →
  let n' := crit_run (apiAuthLogout n t1 t2 t3 now w (Some (b64 ++ "." ++ sig)%string)) os in
  ∃ err, (Decode n' u1 u2 u3 (b64 ++ "." ++ sig')).2 = inl err.
Proof.
  intros Hc Hsig Hsig' Hnow Hos Hg Hu n'. apply (Decode_revoked _ _ _ _ _ _ (time_Unix (se_Exp s))); [done| |done].
  apply token_stays; [done| |done|done]. unfold apiAuthLogout, read_cookie. destruct (Decode n t1 t2 t3 _) as [m r].
  by apply revoke_listed.
Qed.

(** Revoking a user refuses every session of that name, whoever signed it and whenever, for one lifetime. *)
Theorem user_revocation_covers n now u os t1 t2 t3 raw s :
  Forall (by_time (now + nd_ttl n)) os → Forall (not_again u) os → t3 ≤ now + nd_ttl n → u ≠ "" →
  (Decode (crit_run (RevokeUser n now u) os) t1 t2 t3 raw).2 = inr s → se_Sub s ≠ u.
Proof.
  intros Hos Hna Ht Hu HD <-. destruct (Decode (crit_run _ os) t1 t2 t3 raw) as [n' r] eqn:E. cbn in HD. subst r.
  destruct (proj1 (session_accepts_of (crit_run (RevokeUser n now (se_Sub s)) os) t1 t2 t3 raw s)) as (b64 & _ & _ & _ & _ & [?|Hn]);
    [by eexists|done|].
  assert (now + nd_ttl n < t3); [|lia]. apply Hn, user_stays; [|done|done]. apply lookup_insert_eq.
Qed.
End over_time.

(** ** Restart *)

Section restart.
Context `{SessionJSON, Hmac, RangeOrder}.

(** The process starts again: memory is empty, the file is as it was. *)
Definition restart (n : Node) (key : string) (ttl : Duration) : Node := mkNode key ∅ ∅ ttl (nd_path n) (nd_file n).

Definition to_entry (kv : string * Instant) : RevocationEntry := mkEntry kv.1 (Unix kv.2).
Lemma is_int64_wrap z : is_int64 (wrap64 z) = true.
Proof.
  unfold is_int64, wrap64, int64_min, int64_max. pose proof (Z.mod_pos_bound (z + 2 ^ 63) (2 ^ 64) ltac:(lia)).
  apply andb_true_iff. split; apply Z.leb_le; lia.
Qed.

Lemma merge_distinct now l m k tok e :
  NoDup l.*1 → (∀ kv, kv ∈ l → time_Unix (Unix kv.2) = kv.2) →
  (foldl (merge_entry now) (m, k) (to_entry <$> l)).1 !! tok = Some e ↔
  m !! tok = Some e ∨ m !! tok = None ∧ (tok, e) ∈ l ∧ now ≤ e.
Proof.
  revert m k. induction l as [|[t x] l IH]; intros m k Hnd Hw; cbn [foldl fmap list_fmap].
  { split; [by left|]. intros [?|(_ & H' & _)]; [done|]. by apply not_elem_of_nil in H'. }
  apply NoDup_cons in Hnd as [Hnt Hnd]. assert (time_Unix (Unix x) = x) as Hx by (apply (Hw (t, x)); left).
  assert (∀ y, (t, y) ∉ l) as Hout by (intros y Hy; apply Hnt, list_elem_of_fmap; by exists (t, y)).
  assert (∀ kv, kv ∈ l → time_Unix (Unix kv.2) = kv.2) as Hw' by (intros; apply Hw; by right).
  unfold merge_entry at 2. cbn [to_entry re_Token re_Expiry fst snd]. rewrite Hx.
  destruct (x <? now) eqn:El; bprop; [|destruct (m !! t) as [y|] eqn:Em].
  - rewrite IH by done. rewrite elem_of_cons. naive_solver lia.
  - rewrite IH by done. rewrite elem_of_cons. naive_solver.
  - rewrite IH by done. rewrite elem_of_cons. destruct (decide (t = tok)) as [->|Hne].
    + rewrite lookup_insert_eq, Em. naive_solver lia.
    + rewrite lookup_insert_ne by done. naive_solver.
Qed.

(** A restart brings back the tokens of the last save that are still in force, and no user. *)
Theorem restart_keeps_tokens n now t key ttl w :
  w ≠ NotWritten → nd_path n ≠ "" → map_Forall (λ tok e, ValidString tok = true ∧ time_Unix (Unix e) = e) (nd_tokens n) →
  let n1 := (LoadRevocations (restart (SaveRevocations n now w).1 key ttl) t true).1 in
  nd_tokens n1 = filter (λ kv, now ≤ kv.2 ∧ t ≤ kv.2) (nd_tokens n) ∧ nd_users n1 = ∅.
Proof.
  intros Hw Hp Hall.
  set (l := filter (λ kv : string * Instant, ¬ kv.2 < now) (range (nd_tokens n))).
  assert (∀ kv, kv ∈ l ↔ nd_tokens n !! kv.1 = Some kv.2 ∧ now ≤ kv.2) as Hl.
  { intros [k e]. unfold l. rewrite list_elem_of_filter, elem_of_range. cbn. split; intros []; split; auto; lia. }
  assert (unmarshal_entries (marshal_entries (to_entry <$> l)) = Some (to_entry <$> l)) as Hj.
  { apply entries_json, forallb_forall. intros x Hx. apply list_elem_of_In, list_elem_of_fmap in Hx as (kv & -> & Hkv). apply Hl in Hkv as [Hk _].
    change (ValidString kv.1 && is_int64 (Unix kv.2) = true). rewrite (proj1 (Hall _ _ Hk)). apply is_int64_wrap. }
  assert (LoadRevocations (restart (SaveRevocations n now w).1 key ttl) t true =
    ((MergeRevocations (restart (SaveRevocations n now w).1 key ttl) t (to_entry <$> l)).1, None)) as ->.
  { unfold LoadRevocations. replace (nd_path (restart _ _ _)) with (nd_path n) by (unfold SaveRevocations; rewrite (proj2 (String.eqb_neq _ _) Hp); by destruct w).
    rewrite (proj2 (String.eqb_neq _ _) Hp).
    replace (nd_file (restart _ _ _)) with (Some (marshal_entries (to_entry <$> l)))
      by (unfold SaveRevocations; rewrite (proj2 (String.eqb_neq _ _) Hp); by destruct w).
    by rewrite Hj. }
  intros n1. subst n1. cbn [fst]. split; [|by rewrite MergeRevocations_users].
  rewrite MergeRevocations_tokens. cbn [nd_tokens restart]. apply map_eq. intros tok. apply option_eq. intros e.
  rewrite (merge_distinct t l ∅ 0 tok e).
  - rewrite lookup_empty, Hl, map_lookup_filter_Some. cbn. naive_solver.
  - unfold l. apply NoDup_fmap_2_strong.
    + intros [k x] [k' x'] Hx Hx' [= ->]. apply list_elem_of_filter in Hx as [_ Hx], Hx' as [_ Hx'].
      apply elem_of_range in Hx, Hx'. cbn in *. congruence.
    + apply NoDup_filter. rewrite range_perm. apply NoDup_map_to_list.
  - intros kv Hkv. apply Hl in Hkv as [Hk _]. apply (Hall _ _ Hk).
Qed.
End restart.

(** ** Forged logouts *)

Section forged.
Context `{SessionJSON, Hmac, RangeOrder}.

Definition forged (s : Session) : string := EncodeToString (marshal_session s) ++ ".!".
Definition logouts (now : Instant) (n : Node) (l : list Session) : Node :=
  foldl (λ n s, apiAuthLogout n now now now now Written (Some (forged s))) n l.

Lemma forged_unsigned n t1 t2 t3 s : Decode n t1 t2 t3 (forged s) = (n, inl InvalidSignature).
Proof.
  unfold Decode, forged. rewrite (proj2 (cut_last_Some _ "."%char (EncodeToString (marshal_session s)) "!")) by done.
  assert (("!" =? mac n (EncodeToString (marshal_session s)))%string = false) as ->; [|done].
  apply String.eqb_neq. intros E. assert (ContainsByte (mac n (EncodeToString (marshal_session s))) "!"%char = false) as Hs by by apply RawURL_symbols.
  by rewrite <- E in Hs.
Qed.
Lemma forged_step n now s tok e :
  session_encodable s = true → nd_tokens n !! tok = Some e → now ≤ e → (tok = EncodeToString (marshal_session s) → e = time_Unix (se_Exp s)) →
  nd_tokens (logouts now n [s]) !! tok = Some e.
Proof.
  intros Hs He Hn Hx. cbn [logouts foldl]. unfold apiAuthLogout, read_cookie. rewrite forged_unsigned. unfold revokeSessionCookie, forged.
  rewrite (proj2 (cut_last_Some _ "."%char (EncodeToString (marshal_session s)) "!")) by done.
  rewrite RawURL_roundtrip, session_json by done. apply Save_keeps; [|done].
  change (<[EncodeToString (marshal_session s) := time_Unix (se_Exp s)]> (nd_tokens n) !! tok = Some e).
  destruct (decide (tok = EncodeToString (marshal_session s))) as [->|Hne]; [|by apply lookup_insert_Some; right].
  rewrite Hx by done. apply lookup_insert_eq.
Qed.

Definition live_at (now : Instant) (s : Session) : Prop := session_encodable s = true ∧ now ≤ time_Unix (se_Exp s).
Lemma forged_stays n now l tok s :
  Forall (live_at now) l → live_at now s → tok = EncodeToString (marshal_session s) → nd_tokens n !! tok = Some (time_Unix (se_Exp s)) →
  nd_tokens (logouts now n l) !! tok = Some (time_Unix (se_Exp s)).
Proof.
  intros Hl Hs ->. revert n. induction Hl as [|x l Hx Hl IH]; intros n Hn; [done|].
  apply (IH (logouts now n [x])), forged_step; [apply Hx|done|apply Hs|]. intros E. apply EncodeToString_inj in E.
  apply (f_equal unmarshal_session) in E. rewrite !session_json in E by (apply Hs || apply Hx). by injection E as ->.
Qed.
Lemma forged_listed n now l s :
  Forall (live_at now) l → s ∈ l → nd_tokens (logouts now n l) !! EncodeToString (marshal_session s) = Some (time_Unix (se_Exp s)).
Proof.
  intros Hl Hs. apply list_elem_of_split in Hs as (l1 & l2 & ->). apply Forall_app in Hl as [_ Hl]. apply Forall_cons in Hl as [Hs Hl].
  unfold logouts. rewrite foldl_app. cbn [foldl]. apply (forged_stays _ now l2 _ s); try done.
  unfold apiAuthLogout, read_cookie. rewrite forged_unsigned. apply revoke_listed; [done|by apply encoded_carries; apply Hs|apply Hs].
Qed.

(** Defect: logging out needs no session.  Cookies nobody signed are refused, and each one a distinct entry of the list until the expiry the
    sender chose: the list grows by as much as is asked. *)
Theorem forged_logout_kept n now l :
  NoDup l → Forall (live_at now) l →
  (∀ s t1 t2 t3, (Decode n t1 t2 t3 (forged s)).2 = inl InvalidSignature) ∧
  (length l ≤ size (nd_tokens (logouts now n l)))%nat.
Proof.
  intros Hnd Hl. split; [intros; by rewrite forged_unsigned|]. rewrite <- size_dom.
  set (f := λ s, EncodeToString (marshal_session s)).
  assert (NoDup (f <$> l)) as Hf.
  { apply NoDup_fmap_2_strong; [|done]. intros x y Hx Hy E. rewrite Forall_forall in Hl. apply EncodeToString_inj in E.
    apply (f_equal unmarshal_session) in E. rewrite !session_json in E by (by apply Hl). by injection E. }
  rewrite <- (length_fmap f l), <- (size_list_to_set (C := gset string) (f <$> l)) by done. apply subseteq_size. intros tok.
  rewrite elem_of_list_to_set, list_elem_of_fmap. intros (s & -> & Hs). apply elem_of_dom. exists (time_Unix (se_Exp s)). by apply forged_listed.
Qed.
End forged.

(** ** A concrete codec *)

(** Bits of a [positive] as text. *)
Fixpoint pos_text (p : positive) : string :=
  match p with xH => "" | xO p => String "0" (pos_text p) | xI p => String "1" (pos_text p) end.
Fixpoint text_pos (s : string) : positive :=
  match s with "" => xH | String c s => if Ascii.eqb c "0" then xO (text_pos s) else xI (text_pos s) end.
Lemma text_pos_text p : text_pos (pos_text p) = p.
Proof. induction p; cbn; congruence. Qed.

#[global] Instance Session_eq_dec : EqDecision Session.
Proof. solve_decision. Defined.
#[global] Instance Session_countable : Countable Session.
Proof.
  refine (inj_countable (λ s, (inl <$> [se_Sub s; se_Email s; se_Name s; se_Provider s; se_Role s; se_Jti s]) ++ inr (se_Exp s) :: (inl <$> se_Groups s))%list
    (λ l, match l with
          | inl a :: inl b :: inl c :: inl d :: inl e :: inl f :: inr g :: h =>
              Some (mkSession a b c (omap (λ x : string + Z, match x with inl y => Some y | inr _ => None end) h) d e g f)
          | _ => None
          end) _).
  intros [sub email name groups pvd role exp jti]. cbn. do 2 f_equal. induction groups as [|x groups IH]; cbn; congruence.
Defined.
#[global] Instance Entry_eq_dec : EqDecision RevocationEntry.
Proof. solve_decision. Defined.
#[global] Instance Entry_countable : Countable RevocationEntry.
Proof. refine (inj_countable' (λ e, (re_Token e, re_Expiry e)) (λ '(a, b), mkEntry a b) _). by intros []. Defined.

Lemma bits_decode `{Countable A} (x : A) : decode (text_pos (pos_text (encode x))) = Some x.
Proof. by rewrite text_pos_text, decode_encode. Qed.
Definition bit_json : SessionJSON := {|
  marshal_session s := pos_text (encode s); unmarshal_session t := decode (text_pos t); session_json s _ := bits_decode s;
  marshal_entries l := pos_text (encode l); unmarshal_entries t := decode (text_pos t); entries_json l _ := bits_decode l;
|}.
(** Not a MAC one would use. *)
Definition toy_hmac : Hmac := {| hmac_sha256 key data := key ++ pretty (String.length data) |}.

Definition test_node : Node := mkNode "k" ∅ ∅ defaultTTL "" None.
Definition test_session : Session := mkSession "ann" "" "" [] "local" "admin" 1000 "j1".

#[local] Existing Instances bit_json toy_hmac default_range.

Lemma session_roundtrip_witness :
  ∃ n'', Decode (test_node <| nd_users := {["bob" := 9 * Second]} |>) 0 (1000 * Second + 5) 0 (Encode test_node test_session) = (n'', inr test_session).
Proof. apply (session_roundtrip test_node); vm_compute; done. Defined.

Lemma logout_sticks_witness :
  let n' := crit_run (apiAuthLogout test_node 0 0 0 0 NotWritten (Some (Encode test_node test_session)))
    [CIsRevoked 5 "x"; CMerge 7 []; CExport (999 * Second)] in
  ∃ err, (Decode n' (1000 * Second) 0 0 (Encode test_node test_session)).2 = inl err.
Proof.
  pose (b64 := EncodeToString (marshal_session test_session)).
  apply (logout_sticks test_node 0 0 0 0 NotWritten b64 (mac test_node b64) test_session);
    [by apply encoded_carries|apply mac_no_dot|apply mac_no_dot|vm_compute; done|repeat constructor; vm_compute; done|repeat constructor|vm_compute; done].
Defined.

(** Defect: the list drops an entry as soon as its instant is past, but a session is expired only when its second is over; a
    token that was logged out is accepted again in between. *)
Theorem expiry_gap :
  let n1 := apiAuthLogout test_node 0 0 0 0 Written (Some (Encode test_node test_session)) in
  let t := 1000 * Second in
  (Decode n1 t t t (Encode test_node test_session)).2 = inl TokenRevoked ∧
  (Decode n1 (t + 1) (t + 2) (t + 3) (Encode test_node test_session)).2 = inr test_session ∧
  (Decode n1 (t + Second) (t + Second) (t + Second) (Encode test_node test_session)).2 = inl Expired.
Proof. vm_compute. done. Qed.

(** Defect: a user is revoked for the lifetime in force now, which is not that of the sessions issued before it was lowered. *)
Theorem user_revocation_lapses :
  let c := setUISessionCookie test_node 0 "j" "ann" "admin" in
  let n1 := RevokeUser (SetTTL test_node (15 * Minute)) 0 "ann" in
  let t := 15 * Minute + 1 in
  (Decode n1 0 0 0 c).2 = inl UserRevoked ∧
  ∃ s, (Decode n1 t t t c).2 = inr s ∧ se_Sub s = "ann" ∧ se_Role s = "admin".
Proof. vm_compute. split; [done|]. by eexists. Qed.

(** Defect: an account deleted and created again has no usable session, new ones included, for the rest of the lifetime. *)
Theorem recreated_user_refused :
  let n1 := RevokeUser test_node 0 "ann" in
  let c := setUISessionCookie n1 Minute "j2" "ann" "admin" in
  (Decode n1 (2 * Minute) (2 * Minute) (2 * Minute) c).2 = inl UserRevoked.
Proof. vm_compute. done. Qed.
