(* ===== verification/Enrollment.v ===== *)
(** * Enrolled nodes

    The cluster store of [enrollment.go] ([ClusterStore]: one-time enrollment tokens, registered data plane nodes, the
    list of revoked certificates, the progress of a rotation, and their file) and the check of a peer's identity in
    [controlplane_server.go] ([verifyNode], [callerIsEnrolledNode]).

    A method of the store locks it once, or locks it to change it and then once more to save it; such a method is the
    composition of its sections, and [sstep] is one section, so that a list of them is an interleaving of calls.
    [cs_file] is the file at [cs_path]; a restart starts an empty store on it.  JSON, SHA-256 and the answers of the
    GeoIP database are parameters.  Counters of metrics and log lines are left out. *)

From S2P Require Import Prelude GoStrings GoNet GoBase64 Session.

(** ** State *)

(** Go's zero [time.Time]. *)
Definition year_one : Instant := - 62135596800 * Second.
Definition Day : Duration := 24 * Hour.

Record CARotationState := mkRotation {
  ro_StartedAt : Instant; ro_NewFingerprint : string; ro_OldFingerprint : string; ro_OldExpires : Instant;
  ro_RenewedNodes : gmap string string; ro_TotalNodes : Z;
}.
#[global] Instance CARotationState_eta : Eta CARotationState := λ r,
  mkRotation (ro_StartedAt r) (ro_NewFingerprint r) (ro_OldFingerprint r) (ro_OldExpires r) (ro_RenewedNodes r) (ro_TotalNodes r).

Record EnrolledNode := mkEnrolled {
  en_NodeID : string; en_CertSerial : string; en_CertExpiry : Instant; en_EnrolledAt : Instant; en_EnrolledBy : string;
  en_LastSeen : Instant; en_Status : string; en_IPAddress : string; en_Version : string; en_Labels : gmap string string;
}.
#[global] Instance EnrolledNode_eta : Eta EnrolledNode := λ n,
  mkEnrolled (en_NodeID n) (en_CertSerial n) (en_CertExpiry n) (en_EnrolledAt n) (en_EnrolledBy n) (en_LastSeen n)
    (en_Status n) (en_IPAddress n) (en_Version n) (en_Labels n).

Record EnrollToken := mkToken {
  et_TokenHash : string; et_NodePrefix : string; et_AllowCIDR : string; et_ExpiresAt : Instant; et_CreatedBy : string;
  et_CreatedAt : Instant; et_Used : bool; et_UsedByNode : string; et_UsedAt : Instant;
}.
#[global] Instance EnrollToken_eta : Eta EnrollToken := λ t,
  mkToken (et_TokenHash t) (et_NodePrefix t) (et_AllowCIDR t) (et_ExpiresAt t) (et_CreatedBy t) (et_CreatedAt t)
    (et_Used t) (et_UsedByNode t) (et_UsedAt t).

Record RevokedCert := mkRevokedCert {
  rc_CertSerial : string; rc_NodeID : string; rc_RevokedAt : Instant; rc_RevokedBy : string; rc_Reason : string;
}.

Record ClusterState := mkState {
  st_Nodes : gmap string EnrolledNode; st_Tokens : gmap string EnrollToken; st_Revoked : list RevokedCert;
  st_Version : Z; st_CARotation : option CARotationState;
}.
#[global] Instance ClusterState_eta : Eta ClusterState := λ s,
  mkState (st_Nodes s) (st_Tokens s) (st_Revoked s) (st_Version s) (st_CARotation s).
Definition empty_state : ClusterState := mkState ∅ ∅ [] 0 None.

Record ClusterStore := mkCluster { cs_st : ClusterState; cs_path : string; cs_heartbeatCount : Z; cs_file : option string }.
#[global] Instance ClusterStore_eta : Eta ClusterStore := λ c, mkCluster (cs_st c) (cs_path c) (cs_heartbeatCount c) (cs_file c).

(** ** What is on disk

    What [json.Unmarshal] makes of the file: maps and the list may be missing. *)
Record StateJSON := mkStateJSON {
  js_Nodes : option (gmap string EnrolledNode); js_Tokens : option (gmap string EnrollToken); js_Revoked : option (list RevokedCert);
  js_Version : Z; js_CARotation : option (CARotationState * bool); (* the flag: [renewed_nodes] is missing or null *)
}.
Definition json_of (s : ClusterState) : StateJSON :=
  mkStateJSON (Some (st_Nodes s)) (Some (st_Tokens s)) (Some (st_Revoked s)) (st_Version s) ((λ r, (r, false)) <$> st_CARotation s).
Definition rotation_of (r : CARotationState * bool) : CARotationState :=
  if r.2 then r.1 <| ro_RenewedNodes := ∅ |> else r.1.
Definition normalise (j : StateJSON) : ClusterState :=
  mkState (default ∅ (js_Nodes j)) (default ∅ (js_Tokens j)) (default [] (js_Revoked j)) (js_Version j) (rotation_of <$> js_CARotation j).

(** What JSON carries unchanged: valid UTF-8, and times within the years 1 to 9998. *)
Definition time_ok (t : Instant) : bool := (year_one <=? t) && (t <? 253370764800 * Second).
Definition strings_ok (m : gmap string string) : bool := forallb (λ '(k, v), ValidString k && ValidString v) (map_to_list m).
Definition node_ok (n : EnrolledNode) : bool :=
  ValidString (en_NodeID n) && ValidString (en_CertSerial n) && time_ok (en_CertExpiry n) && time_ok (en_EnrolledAt n) &&
  ValidString (en_EnrolledBy n) && time_ok (en_LastSeen n) && ValidString (en_Status n) && ValidString (en_IPAddress n) &&
  ValidString (en_Version n) && strings_ok (en_Labels n).
Definition token_ok (t : EnrollToken) : bool :=
  ValidString (et_TokenHash t) && ValidString (et_NodePrefix t) && ValidString (et_AllowCIDR t) && time_ok (et_ExpiresAt t) &&
  ValidString (et_CreatedBy t) && time_ok (et_CreatedAt t) && ValidString (et_UsedByNode t) && time_ok (et_UsedAt t).
Definition revoked_ok (r : RevokedCert) : bool :=
  ValidString (rc_CertSerial r) && ValidString (rc_NodeID r) && time_ok (rc_RevokedAt r) && ValidString (rc_RevokedBy r) && ValidString (rc_Reason r).
Definition rotation_ok (r : CARotationState) : bool :=
  time_ok (ro_StartedAt r) && ValidString (ro_NewFingerprint r) && ValidString (ro_OldFingerprint r) && time_ok (ro_OldExpires r) &&
  strings_ok (ro_RenewedNodes r).
Record state_ok (s : ClusterState) : Prop := {
  ok_nodes id n : st_Nodes s !! id = Some n → ValidString id = true ∧ node_ok n = true;
  ok_tokens h t : st_Tokens s !! h = Some t → ValidString h = true ∧ token_ok t = true;
  ok_revoked r : r ∈ st_Revoked s → revoked_ok r = true;
  ok_rotation r : st_CARotation s = Some r → rotation_ok r = true;
}.

Class ClusterJSON := {
  marshal_state : ClusterState → option string;
  unmarshal_state : string → option StateJSON;
  state_json s : state_ok s → ∃ data, marshal_state s = Some data ∧ unmarshal_state data = Some (json_of s);
}.
(** [geo.LookupFull]: the code and the name of the country of an address. *)
Class GeoDB := { LookupFull : string → string * string }.

Section store.
Context `{ClusterJSON, Sha256, GeoDB, TimeData}.

Inductive StoreErr := ReadFailed | ParseFailed | MarshalFailed | WriteFailed (w : WriteResult).

(** [readable]: whether a file that exists can be read; [moved]: whether a corrupt one can be renamed. *)
Definition Load (cs : ClusterStore) (path : string) (readable moved : bool) : ClusterStore * option StoreErr :=
  let cs := cs <| cs_path := path |> in
  if (path =? "")%string then (cs, None) else
  match cs_file cs with
  | None => (cs, None)
  | Some data =>
      if negb readable then (cs, Some ReadFailed) else
      match unmarshal_state data with
      | None => (if moved then cs <| cs_file := None |> else cs, Some ParseFailed)
      | Some j => (cs <| cs_st := normalise j |>, None)
      end
  end.
Definition saveLocked (cs : ClusterStore) (w : WriteResult) : ClusterStore * option StoreErr :=
  if (cs_path cs =? "")%string then (cs, None) else
  match marshal_state (cs_st cs) with
  | None => (cs, Some MarshalFailed)
  | Some data =>
      match w with
      | Written => (cs <| cs_file := Some data |>, None)
      | NotWritten => (cs, Some (WriteFailed w))
      | ReplacedNotSynced => (cs <| cs_file := Some data |>, Some (WriteFailed w))
      end
  end.
Definition Save (cs : ClusterStore) (w : WriteResult) : ClusterStore * option StoreErr := saveLocked cs w.
Definition set_st (cs : ClusterStore) (f : ClusterState → ClusterState) : ClusterStore := cs <| cs_st := f (cs_st cs) |>.

(** *** Tokens *)

Definition hashToken (token : string) : string := sha256_hex token.

Inductive GenerateError := BadCIDR | NoRandom | PersistToken (e : StoreErr).
Definition new_token (hash nodePrefix allowCIDR createdBy : string) (expires created : Instant) : EnrollToken :=
  mkToken hash nodePrefix allowCIDR expires createdBy created false "" year_one.
Definition add_token (cs : ClusterStore) (t : EnrollToken) : ClusterStore :=
  set_st cs (λ s, s <| st_Tokens := <[et_TokenHash t := t]> (st_Tokens s) |>).
(** [rnd]: the 32 random bytes, [None] when there are none; [t1], [t2]: the readings of the clock, in order. *)
Definition GenerateToken (cs : ClusterStore) (rnd : option string) (t1 t2 : Instant) (w : WriteResult)
    (nodePrefix allowCIDR createdBy : string) (ttl : Duration) : ClusterStore * (GenerateError + string) :=
  if negb (allowCIDR =? "")%string && negb (bool_decide (is_Some (ParseCIDR allowCIDR))) then (cs, inl BadCIDR) else
  match rnd with
  | None => (cs, inl NoRandom)
  | Some tokenBytes =>
      let plaintext := EncodeToString tokenBytes in
      match Save (add_token cs (new_token (hashToken plaintext) nodePrefix allowCIDR createdBy (t1 + ttl) t2)) w with
      | (cs, Some e) => (cs, inl (PersistToken e))
      | (cs, None) => (cs, inr plaintext)
      end
  end.

Record TokenInfo := mkInfo { ti_CreatedBy : string }.
Inductive TokenError := TokInvalid | TokUsed (byNode : string) | TokExpired | TokPrefix | TokBadCIDR | TokNotInCIDR | TokPersist (e : StoreErr).
(** The checks of [ValidateAndConsumeToken], in order. *)
Definition token_refusal (tok : EnrollToken) (now : Instant) (nodeID sourceIP : string) : option TokenError :=
  if et_Used tok then Some (TokUsed (et_UsedByNode tok)) else
  if now >? et_ExpiresAt tok then Some TokExpired else
  if negb (et_NodePrefix tok =? "")%string && negb (HasPrefix nodeID (et_NodePrefix tok)) then Some TokPrefix else
  if negb (et_AllowCIDR tok =? "")%string then
    match ParseCIDR (et_AllowCIDR tok) with
    | None => Some TokBadCIDR
    | Some cidr =>
        match ParseIP sourceIP with
        | None => Some TokNotInCIDR
        | Some ip => if negb (IPNet_Contains cidr ip) then Some TokNotInCIDR else None
        end
    end
  else None.
Definition ValidateAndConsumeToken (cs : ClusterStore) (t1 t2 : Instant) (w : WriteResult) (plaintext nodeID sourceIP : string) :
    ClusterStore * (TokenError + TokenInfo) :=
  let hash := hashToken plaintext in
  match st_Tokens (cs_st cs) !! hash with
  | None => (cs, inl TokInvalid)
  | Some tok =>
      match token_refusal tok t1 nodeID sourceIP with
      | Some e => (cs, inl e)
      | None =>
          let tok := tok <| et_Used := true |> <| et_UsedByNode := nodeID |> <| et_UsedAt := t2 |> in
          let cs := set_st cs (λ s, s <| st_Tokens := <[hash := tok]> (st_Tokens s) |>) in
          match saveLocked cs w with
          | (cs, Some e) => (cs, inl (TokPersist e))
          | (cs, None) => (cs, inr (mkInfo (et_CreatedBy tok)))
          end
      end
  end.
Definition DeleteToken (cs : ClusterStore) (tokenHash : string) : ClusterStore * bool :=
  match st_Tokens (cs_st cs) !! tokenHash with
  | None => (cs, false)
  | Some _ => (set_st cs (λ s, s <| st_Tokens := delete tokenHash (st_Tokens s) |>), true)
  end.
Definition TokenExists (cs : ClusterStore) (now : Instant) (plaintext : string) : bool :=
  match st_Tokens (cs_st cs) !! hashToken plaintext with
  | None => false
  | Some tok => negb (et_Used tok || (now >? et_ExpiresAt tok))
  end.

(** *** Nodes *)

Definition autoGeoLabel (node : EnrolledNode) : EnrolledNode :=
  if (en_IPAddress node =? "")%string then node else
  let '(code, name) := LookupFull (en_IPAddress node) in
  if (code =? "")%string then node else
  node <| en_Labels := <["geo:country_name" := name]> (<["geo:country" := code]> (en_Labels node)) |>.
Definition put_node (cs : ClusterStore) (id : string) (n : EnrolledNode) : ClusterStore :=
  set_st cs (λ s, s <| st_Nodes := <[id := n]> (st_Nodes s) |>).
Definition register_section (cs : ClusterStore) (node : EnrolledNode) : ClusterStore := put_node cs (en_NodeID node) (autoGeoLabel node).
Definition RegisterNode (cs : ClusterStore) (w : WriteResult) (node : EnrolledNode) : ClusterStore :=
  (Save (register_section cs node) w).1.
Definition GetNode (cs : ClusterStore) (nodeID : string) : option EnrolledNode := st_Nodes (cs_st cs) !! nodeID.

Definition seen_node (n : EnrolledNode) (now : Instant) (ipAddr version : string) : EnrolledNode :=
  let n := n <| en_LastSeen := now |> <| en_Status := "connected" |> in
  let n := if (ipAddr =? "")%string then n else autoGeoLabel (n <| en_IPAddress := ipAddr |>) in
  if (version =? "")%string then n else n <| en_Version := version |>.
(** The locked section, and whether the state is then saved. *)
Definition seen_section (cs : ClusterStore) (now : Instant) (nodeID ipAddr version : string) : ClusterStore * bool :=
  let cs := match GetNode cs nodeID with Some n => put_node cs nodeID (seen_node n now ipAddr version) | None => cs end in
  let cs := cs <| cs_heartbeatCount := wrap64 (cs_heartbeatCount cs + 1) |> in
  (cs, Z.rem (cs_heartbeatCount cs) 10 =? 0).
Definition UpdateNodeSeen (cs : ClusterStore) (now : Instant) (w : WriteResult) (nodeID ipAddr version : string) : ClusterStore :=
  let '(cs, shouldSave) := seen_section cs now nodeID ipAddr version in if shouldSave then (Save cs w).1 else cs.
Definition NodeCounts (cs : ClusterStore) : nat * nat :=
  (size (st_Nodes (cs_st cs)), size (filter (λ kv, en_Status kv.2 = "connected") (st_Nodes (cs_st cs)))).

Inductive NodeError := NodeNotFound | NodeIsRevoked | PersistNode (e : StoreErr).
Definition labels_section (cs : ClusterStore) (nodeID : string) (labels : gmap string string) : ClusterStore + NodeError :=
  match GetNode cs nodeID with None => inr NodeNotFound | Some n => inl (put_node cs nodeID (n <| en_Labels := labels |>)) end.
Definition draining_section (cs : ClusterStore) (nodeID : string) (draining : bool) : ClusterStore + NodeError :=
  match GetNode cs nodeID with
  | None => inr NodeNotFound
  | Some n => if (en_Status n =? "revoked")%string then inr NodeIsRevoked
              else inl (put_node cs nodeID (n <| en_Status := if draining then "draining" else "connected" |>))
  end.
Definition add_revoked (cs : ClusterStore) (r : RevokedCert) : ClusterStore :=
  set_st cs (λ s, s <| st_Revoked := (st_Revoked s ++ [r])%list |>).
Definition revoke_section (cs : ClusterStore) (now : Instant) (nodeID revokedBy reason : string) : ClusterStore + NodeError :=
  match GetNode cs nodeID with
  | None => inr NodeNotFound
  | Some n => if (en_Status n =? "revoked")%string then inr NodeIsRevoked
              else inl (add_revoked (put_node cs nodeID (n <| en_Status := "revoked" |>))
                          (mkRevokedCert (en_CertSerial n) nodeID now revokedBy reason))
  end.
(** A change of the store under its lock, then [Save]. *)
Definition then_save (cs : ClusterStore) (r : ClusterStore + NodeError) (w : WriteResult) : ClusterStore * option NodeError :=
  match r with
  | inr e => (cs, Some e)
  | inl cs => match Save cs w with (cs, None) => (cs, None) | (cs, Some e) => (cs, Some (PersistNode e)) end
  end.
Definition SetNodeLabels cs w nodeID labels := then_save cs (labels_section cs nodeID labels) w.
Definition SetNodeDraining cs w nodeID draining := then_save cs (draining_section cs nodeID draining) w.
Definition RevokeNode cs now w nodeID revokedBy reason := then_save cs (revoke_section cs now nodeID revokedBy reason) w.
Definition RevokeSerial cs now w certSerial nodeID revokedBy reason :=
  then_save cs (inl (add_revoked cs (mkRevokedCert certSerial nodeID now revokedBy reason))) w.
Definition IsRevoked_cert (cs : ClusterStore) (certSerial : string) : bool :=
  existsb (λ r, (rc_CertSerial r =? certSerial)%string) (st_Revoked (cs_st cs)).

(** *** Rotation of the certificate authority *)

Definition StartCARotation (cs : ClusterStore) (now : Instant) (w : WriteResult) (newFP oldFP : string) (oldExpires : Instant) : ClusterStore :=
  let total := Z.of_nat (size (filter (λ kv, en_Status kv.2 ≠ "revoked") (st_Nodes (cs_st cs)))) in
  (saveLocked (set_st cs (λ s, s <| st_CARotation := Some (mkRotation now newFP oldFP oldExpires ∅ total) |>)) w).1.
Definition RecordNodeRenewed (cs : ClusterStore) (now : Instant) (w : WriteResult) (nodeID : string) : ClusterStore :=
  match st_CARotation (cs_st cs) with
  | None => cs
  | Some r =>
      let r := r <| ro_RenewedNodes := <[nodeID := FormatRFC3339 (now / Second)]> (ro_RenewedNodes r) |> in
      (saveLocked (set_st cs (λ s, s <| st_CARotation := Some r |>)) w).1
  end.
Definition ClearCARotation (cs : ClusterStore) (w : WriteResult) : ClusterStore :=
  match st_CARotation (cs_st cs) with
  | None => cs
  | Some _ => (saveLocked (set_st cs (λ s, s <| st_CARotation := None |>)) w).1
  end.

(** The locked section of [RenewCert]. *)
Definition renew_section (cs : ClusterStore) (w : WriteResult) (nodeID serial : string) (expiry : Instant) : ClusterStore :=
  let cs := match GetNode cs nodeID with
            | Some n => put_node cs nodeID (n <| en_CertSerial := serial |> <| en_CertExpiry := expiry |>)
            | None => cs
            end in
  (saveLocked cs w).1.

(** *** Heartbeats and clean-up *)

Definition heartbeatTimeout : Duration := 90 * Second.
Definition unreachable (now : Instant) (n : EnrolledNode) : bool :=
  negb ((en_Status n =? "revoked")%string || (en_LastSeen n =? year_one)) &&
  (time_sub now (en_LastSeen n) >? heartbeatTimeout) && (en_Status n =? "connected")%string.
Definition live_node (now : Instant) (n : EnrolledNode) : EnrolledNode :=
  if unreachable now n then n <| en_Status := "disconnected" |> else n.
Definition checkNodeLiveness (now : Instant) (s : ClusterState) : ClusterState * bool :=
  (s <| st_Nodes := live_node now <$> st_Nodes s |>, existsb (λ '(_, n), unreachable now n) (map_to_list (st_Nodes s))).
Definition tokenExpired (now : Instant) (tok : EnrollToken) : bool :=
  if et_Used tok then time_sub now (et_UsedAt tok) >? 7 * Day
  else (now >? et_ExpiresAt tok) && (time_sub now (et_ExpiresAt tok) >? Day).
Definition gcExpiredTokens (now : Instant) (s : ClusterState) : ClusterState * bool :=
  (s <| st_Tokens := filter (λ kv, tokenExpired now kv.2 = false) (st_Tokens s) |>,
   existsb (λ '(_, t), tokenExpired now t) (map_to_list (st_Tokens s))).
Definition kept_revocation (now : Instant) (r : RevokedCert) : bool := time_sub now (rc_RevokedAt r) <? 366 * Day.
Definition gcOldRevocations (now : Instant) (s : ClusterState) : ClusterState * bool :=
  (s <| st_Revoked := List.filter (kept_revocation now) (st_Revoked s) |>, negb (forallb (kept_revocation now) (st_Revoked s))).
Definition checkHeartbeats (cs : ClusterStore) (now : Instant) (w : WriteResult) : ClusterStore :=
  let '(s, c1) := checkNodeLiveness now (cs_st cs) in
  let '(s, c2) := gcExpiredTokens now s in
  let '(s, c3) := gcOldRevocations now s in
  let cs := cs <| cs_st := s |> in
  if c1 || c2 || c3 then (saveLocked cs w).1 else cs.

(** *** Replication *)

Definition ExportState (cs : ClusterStore) : option string := marshal_state (cs_st cs).
Definition ImportFullState (cs : ClusterStore) (w : WriteResult) (data : string) : ClusterStore * bool :=
  match unmarshal_state data with
  | None => (cs, false)
  | Some j => ((saveLocked (cs <| cs_st := normalise j |>) w).1, true)
  end.
End store.

(** ** Who calls

    The TLS peer of a call: no peer information, no certificate, or the serial of its first certificate in base 16. *)
Inductive Peer := PeerNone | PeerNoCert | PeerCert (serial : string).
Inductive Code := InvalidArgument | Unauthenticated | NotFound | PermissionDenied | FailedPrecondition | ResourceExhausted | Internal.

Definition verifyNodeCert (cs : ClusterStore) (clusterInsecure : bool) (p : Peer) (claimedNodeID : string) : option Code :=
  match p with
  | PeerNone | PeerNoCert => if clusterInsecure then None else Some Unauthenticated
  | PeerCert peerSerial =>
      match GetNode cs claimedNodeID with
      | None => Some NotFound
      | Some node => if negb (en_CertSerial node =? peerSerial)%string then Some PermissionDenied else None
      end
  end.
Definition verifyNode (cs : ClusterStore) (clusterInsecure : bool) (p : Peer) (claimedNodeID : string) : option Code :=
  if (claimedNodeID =? "")%string then Some InvalidArgument else
  match verifyNodeCert cs clusterInsecure p claimedNodeID with
  | Some e => Some e
  | None =>
      match GetNode cs claimedNodeID with
      | Some node => if IsRevoked_cert cs (en_CertSerial node) then Some PermissionDenied else None
      | None => None
      end
  end.
Definition callerIsEnrolledNode (cs : ClusterStore) (p : Peer) : bool :=
  match p with
  | PeerNone | PeerNoCert => false
  | PeerCert serial =>
      if IsRevoked_cert cs serial then false
      else existsb (λ '(_, n), (en_CertSerial n =? serial)%string) (map_to_list (st_Nodes (cs_st cs)))
  end.

(** [IsRevoked] as membership. *)
Lemma IsRevoked_cert_spec cs serial : IsRevoked_cert cs serial = true ↔ ∃ r, r ∈ st_Revoked (cs_st cs) ∧ rc_CertSerial r = serial.
Proof.
  unfold IsRevoked_cert. rewrite existsb_exists. setoid_rewrite <- list_elem_of_In.
  split; intros (r & Hr & E); exists r; (split; [done|]); by apply String.eqb_eq.
Qed.

(** Over TLS a verified caller presents the certificate on record of the node it claims to be, and that one is not revoked. *)
Lemma verifyNode_tls cs p id :
  verifyNode cs false p id = None ↔
  id ≠ "" ∧ ∃ n, GetNode cs id = Some n ∧ p = PeerCert (en_CertSerial n) ∧ IsRevoked_cert cs (en_CertSerial n) = false.
Proof.
  unfold verifyNode, verifyNodeCert. destruct (id =? "")%string eqn:E; bprop; [by split; [|intros [? _]]|].
  destruct p as [| |serial]; [split; [done|by intros (_ & n & _ & [=] & _)]..|].
  destruct (GetNode cs id) as [n|] eqn:En; [|split; [done|by intros (_ & n & [=] & _)]].
  destruct (en_CertSerial n =? serial)%string eqn:Es; bprop; cbn.
  - subst serial. destruct (IsRevoked_cert cs (en_CertSerial n)) eqn:Er; split; [done| |intros _; split; [done|by exists n]|done].
    intros (_ & n' & [= <-] & _ & Hr). congruence.
  - split; [done|]. intros (_ & n' & [= <-] & [= Hs] & _). congruence.
Qed.
Lemma callerIsEnrolledNode_spec cs p :
  callerIsEnrolledNode cs p = true ↔ ∃ id n, GetNode cs id = Some n ∧ p = PeerCert (en_CertSerial n) ∧ IsRevoked_cert cs (en_CertSerial n) = false.
Proof.
  unfold callerIsEnrolledNode. destruct p as [| |serial]; [split; [done|by intros (? & ? & _ & [=] & _)]..|].
  destruct (IsRevoked_cert cs serial) eqn:Er.
  { split; [done|]. intros (id & n & _ & [= ->] & Hr). congruence. }
  rewrite existsb_exists. setoid_rewrite <- list_elem_of_In. split.
  - intros ([id n] & Hin & Hs). bprop. subst serial. exists id, n. split_and!; [|done..]. by apply elem_of_map_to_list in Hin.
  - intros (id & n & Hn & [= ->] & _). exists (id, n). split; [by apply elem_of_map_to_list|]. apply String.eqb_refl.
Qed.

(** ** Runs *)

Section runs.
Context `{ClusterJSON, Sha256, GeoDB, TimeData}.

(** A start of the process on the path and the file it had: [loadCluster] goes on when the file cannot be loaded. *)
Definition restart (cs : ClusterStore) (readable moved : bool) : ClusterStore :=
  (Load (mkCluster empty_state "" 0 (cs_file cs)) (cs_path cs) readable moved).1.

(** The sections of the methods; those that save under the lock have the result of the write. *)
Inductive sop :=
  | SAddToken (plaintext nodePrefix allowCIDR createdBy : string) (expires created : Instant)
  | SConsume (t1 t2 : Instant) (w : WriteResult) (plaintext nodeID sourceIP : string)
  | SDelete (hash : string)
  | SRegister (n : EnrolledNode)
  | SSeen (now : Instant) (nodeID ipAddr version : string)
  | SLabels (nodeID : string) (labels : gmap string string)
  | SDrain (nodeID : string) (draining : bool)
  | SRevoke (now : Instant) (nodeID revokedBy reason : string)
  | SRevokeSerial (r : RevokedCert)
  | SRenew (w : WriteResult) (nodeID serial : string) (expiry : Instant)
  | SStartRotation (now : Instant) (w : WriteResult) (newFP oldFP : string) (oldExpires : Instant)
  | SRenewed (now : Instant) (w : WriteResult) (nodeID : string)
  | SClearRotation (w : WriteResult)
  | SHeartbeats (now : Instant) (w : WriteResult)
  | SImport (w : WriteResult) (data : string)
  | SSave (w : WriteResult)
  | SRestart (readable moved : bool).

Definition or_same (cs : ClusterStore) (r : ClusterStore + NodeError) : ClusterStore := match r with inl cs' => cs' | inr _ => cs end.
Definition sstep (cs : ClusterStore) (o : sop) : ClusterStore :=
  match o with
  | SAddToken p np ac by' e c => add_token cs (new_token (hashToken p) np ac by' e c)
  | SConsume t1 t2 w p id ip => (ValidateAndConsumeToken cs t1 t2 w p id ip).1
  | SDelete h => (DeleteToken cs h).1
  | SRegister n => register_section cs n
  | SSeen now id ip v => (seen_section cs now id ip v).1
  | SLabels id l => or_same cs (labels_section cs id l)
  | SDrain id d => or_same cs (draining_section cs id d)
  | SRevoke now id by' reason => or_same cs (revoke_section cs now id by' reason)
  | SRevokeSerial r => add_revoked cs r
  | SRenew w id serial expiry => renew_section cs w id serial expiry
  | SStartRotation now w n o e => StartCARotation cs now w n o e
  | SRenewed now w id => RecordNodeRenewed cs now w id
  | SClearRotation w => ClearCARotation cs w
  | SHeartbeats now w => checkHeartbeats cs now w
  | SImport w data => (ImportFullState cs w data).1
  | SSave w => (Save cs w).1
  | SRestart r m => restart cs r m
  end.
Definition srun (cs : ClusterStore) (ops : list sop) : ClusterStore := foldl sstep cs ops.

(** What a section brings in is what JSON carries. *)
Definition geo_ok (ip : string) : bool := ValidString (LookupFull ip).1 && ValidString (LookupFull ip).2.
Definition op_ok (o : sop) : Prop :=
  match o with
  | SAddToken p np ac by' e c => token_ok (new_token (hashToken p) np ac by' e c) = true
  | SConsume _ t2 _ _ id _ => ValidString id && time_ok t2 = true
  | SRegister n => node_ok n && geo_ok (en_IPAddress n) = true
  | SSeen now _ ip v => time_ok now && ValidString ip && geo_ok ip && ValidString v = true
  | SLabels _ l => strings_ok l = true
  | SRevoke now _ by' reason => time_ok now && ValidString by' && ValidString reason = true
  | SRevokeSerial r => revoked_ok r = true
  | SRenew _ _ serial expiry => ValidString serial && time_ok expiry = true
  | SStartRotation now _ n o e => rotation_ok (mkRotation now n o e ∅ 0) = true
  | SRenewed now _ id => ValidString id && ValidString (FormatRFC3339 (now / Second)) = true
  | SImport _ data => ∀ j, unmarshal_state data = Some j → state_ok (normalise j)
  | _ => True
  end.

(** What a section leaves on disk: the file as it was, or the state in memory. *)
Definition saved_or_same (cs cs' : ClusterStore) : Prop :=
  cs_path cs' = cs_path cs ∧
  (cs_file cs' = cs_file cs ∨ ∃ data, marshal_state (cs_st cs') = Some data ∧ cs_file cs' = Some data).
Lemma saveLocked_st cs w : cs_st (saveLocked cs w).1 = cs_st cs.
Proof. unfold saveLocked. case_if; [done|]. destruct (marshal_state _); [|done]. by destruct w. Qed.
Lemma saveLocked_file cs cs0 w : cs_path cs = cs_path cs0 → cs_file cs = cs_file cs0 → saved_or_same cs0 (saveLocked cs w).1.
Proof.
  intros Ep Ef. unfold saved_or_same. rewrite saveLocked_st. unfold saveLocked. case_if; [by split; [|left]|].
  destruct (marshal_state _) as [data|] eqn:Em; [|by split; [|left]]. destruct w; (split; [exact Ep|]); eauto.
Qed.
Definition is_restart (o : sop) : bool := match o with SRestart _ _ => true | _ => false end.
Lemma sstep_file cs o : is_restart o = false → saved_or_same cs (sstep cs o).
Proof.
  destruct o; intros Hr; try done; try (by split; [|left]); cbn [sstep]; try (by apply saveLocked_file).
  - unfold ValidateAndConsumeToken. destruct (st_Tokens _ !! _); [|by split; [|left]]. destruct (token_refusal _ _ _ _); [by split; [|left]|].
    match goal with |- context [saveLocked ?c ?w] => pose proof (saveLocked_file c cs w eq_refl eq_refl); by destruct (saveLocked c w) as [? []] end.
  - unfold DeleteToken. destruct (_ !! _); by split; [|left].
  - unfold seen_section. destruct (GetNode _ _); by split; [|left].
  - unfold labels_section. destruct (GetNode _ _); by split; [|left].
  - unfold draining_section. destruct (GetNode _ _); [|by split; [|left]]. case_if; by split; [|left].
  - unfold revoke_section. destruct (GetNode _ _); [|by split; [|left]]. case_if; by split; [|left].
  - unfold renew_section. destruct (GetNode _ _); by apply saveLocked_file.
  - unfold RecordNodeRenewed. destruct (st_CARotation _); [by apply saveLocked_file|by split; [|left]].
  - unfold ClearCARotation. destruct (st_CARotation _); [by apply saveLocked_file|by split; [|left]].
  - unfold checkHeartbeats. cbn. case_if; [by apply saveLocked_file|by split; [|left]].
  - unfold ImportFullState. destruct (unmarshal_state _); [by apply saveLocked_file|by split; [|left]].
Qed.

(** *** What is in memory can be written *)

Lemma ok_set_nodes s m : state_ok s → (∀ id n, m !! id = Some n → ValidString id = true ∧ node_ok n = true) → state_ok (s <| st_Nodes := m |>).
Proof. intros [] Hm. by constructor. Qed.
Lemma ok_set_tokens s m : state_ok s → (∀ h t, m !! h = Some t → ValidString h = true ∧ token_ok t = true) → state_ok (s <| st_Tokens := m |>).
Proof. intros [] Hm. by constructor. Qed.
Lemma ok_set_revoked s l : state_ok s → (∀ r, r ∈ l → revoked_ok r = true) → state_ok (s <| st_Revoked := l |>).
Proof. intros [] Hm. by constructor. Qed.
Lemma ok_set_rotation s o : state_ok s → (∀ r, o = Some r → rotation_ok r = true) → state_ok (s <| st_CARotation := o |>).
Proof. intros [] Hm. by constructor. Qed.
Lemma ok_put_node cs id n : state_ok (cs_st cs) → ValidString id = true → node_ok n = true → state_ok (cs_st (put_node cs id n)).
Proof. intros Hs ? ?. apply ok_set_nodes; [done|]. intros id' n' [[<- <-]|[_ ?]]%lookup_insert_Some; [done|]. by apply (ok_nodes _ Hs). Qed.
Lemma ok_add_revoked cs r : state_ok (cs_st cs) → revoked_ok r = true → state_ok (cs_st (add_revoked cs r)).
Proof. intros Hs ?. apply ok_set_revoked; [done|]. intros r' [?| ->%list_elem_of_singleton]%elem_of_app; [by apply (ok_revoked _ Hs)|done]. Qed.
Lemma ok_put_token cs h t :
  state_ok (cs_st cs) → ValidString h = true → token_ok t = true →
  state_ok (cs_st (set_st cs (λ s, s <| st_Tokens := <[h := t]> (st_Tokens s) |>))).
Proof. intros Hs ? ?. apply ok_set_tokens; [done|]. intros h' t' [[<- <-]|[_ ?]]%lookup_insert_Some; [done|]. by apply (ok_tokens _ Hs). Qed.
Lemma strings_ok_spec m : strings_ok m = true ↔ map_Forall (λ k v, ValidString k = true ∧ ValidString v = true) m.
Proof.
  unfold strings_ok. rewrite forallb_spec, map_Forall_to_list, !Forall_forall. split; intros Hm [k v] Hin; specialize (Hm _ Hin); cbn in *.
  - by apply andb_true_iff in Hm.
  - by apply andb_true_iff.
Qed.
Lemma strings_ok_insert m k v : strings_ok m = true → ValidString k = true → ValidString v = true → strings_ok (<[k := v]> m) = true.
Proof. rewrite !strings_ok_spec. intros. by apply map_Forall_insert_2. Qed.
Lemma node_ok_spec n :
  node_ok n = true ↔
  (ValidString (en_NodeID n) = true ∧ ValidString (en_CertSerial n) = true ∧ time_ok (en_CertExpiry n) = true ∧
   time_ok (en_EnrolledAt n) = true ∧ ValidString (en_EnrolledBy n) = true) ∧ time_ok (en_LastSeen n) = true ∧
  ValidString (en_Status n) = true ∧ ValidString (en_IPAddress n) = true ∧ ValidString (en_Version n) = true ∧ strings_ok (en_Labels n) = true.
Proof. unfold node_ok. rewrite !andb_true_iff. tauto. Qed.
Lemma geo_label_ok n : node_ok n = true → geo_ok (en_IPAddress n) = true → node_ok (autoGeoLabel n) = true.
Proof.
  intros Hn Hg. unfold autoGeoLabel. case_if; [done|]. unfold geo_ok in Hg. destruct (LookupFull _) as [code name]. case_if; [done|].
  cbn in Hg. apply andb_true_iff in Hg as [? ?]. apply node_ok_spec in Hn. destruct Hn as (? & ? & ? & ? & ? & ?).
  apply node_ok_spec. cbn. split_and!; try tauto. by repeat apply strings_ok_insert.
Qed.
Lemma seen_node_ok n now ip v :
  node_ok n = true → time_ok now && ValidString ip && geo_ok ip && ValidString v = true → node_ok (seen_node n now ip v) = true.
Proof.
  intros Hn [[[? ?]%andb_true_iff Hg]%andb_true_iff ?]%andb_true_iff. unfold seen_node. cbn.
  match goal with |- node_ok (if _ then ?m else _) = true => assert (node_ok m = true) as Hm end.
  { case_if; [|apply geo_label_ok; [|done]]; apply node_ok_spec in Hn; apply node_ok_spec; cbn; tauto. }
  case_if; [done|]. apply node_ok_spec in Hm. apply node_ok_spec. cbn. tauto.
Qed.
Lemma save_ok cs w : state_ok (cs_st cs) → state_ok (cs_st (saveLocked cs w).1).
Proof. by rewrite saveLocked_st. Qed.

Lemma consume_ok cs t1 t2 w p id ip :
  state_ok (cs_st cs) → ValidString id && time_ok t2 = true → state_ok (cs_st (ValidateAndConsumeToken cs t1 t2 w p id ip).1).
Proof.
  intros Hs [Hi Ht]%andb_true_iff. unfold ValidateAndConsumeToken. destruct (st_Tokens _ !! _) as [tok|] eqn:Et; [|done]. destruct (token_refusal _ _ _ _); [done|].
  match goal with |- context [saveLocked ?c ?w] => pose proof (save_ok c w) as Hsv; destruct (saveLocked c w) as [? []]; apply Hsv end;
    (apply ok_put_token; [done|by apply (ok_tokens _ Hs) in Et as [? _]|]; apply (ok_tokens _ Hs) in Et as [_ Hk]; revert Hk; unfold token_ok; cbn;
     rewrite !andb_true_iff; tauto).
Qed.
Lemma heartbeats_ok cs now w : state_ok (cs_st cs) → state_ok (cs_st (checkHeartbeats cs now w)).
Proof.
  intros Hs. unfold checkHeartbeats. cbn. match goal with |- context [saveLocked ?c _] => assert (state_ok (cs_st c)) as Hc end.
  { cbn. apply ok_set_revoked; [apply ok_set_tokens; [apply ok_set_nodes; [done|]|]|]; cbn.
    - intros id n. rewrite lookup_fmap_Some. intros (n0 & <- & Hn). apply (ok_nodes _ Hs) in Hn as [? Hn]. split; [done|].
      unfold live_node. case_if; [|done]. apply node_ok_spec in Hn. apply node_ok_spec. cbn. tauto.
    - intros h t [Ht _]%map_lookup_filter_Some. by apply (ok_tokens _ Hs).
    - intros r Hr%list_elem_of_In. apply List.filter_In in Hr as [Hr _]. by apply (ok_revoked _ Hs), list_elem_of_In. }
  case_if; [by apply save_ok|done].
Qed.
Lemma rotation_ok_spec a n o e m t :
  rotation_ok (mkRotation a n o e m t) = true ↔
  time_ok a = true ∧ ValidString n = true ∧ ValidString o = true ∧ time_ok e = true ∧ strings_ok m = true.
Proof. unfold rotation_ok. cbn. rewrite !andb_true_iff. tauto. Qed.
Lemma empty_ok : state_ok empty_state.
Proof.
  constructor; unfold empty_state; cbn [st_Nodes st_Tokens st_Revoked st_CARotation]; [intros ? ? E; by rewrite lookup_empty in E..| |done].
  intros r Hr. by apply not_elem_of_nil in Hr.
Qed.

Lemma sstep_ok cs o : is_restart o = false → op_ok o → state_ok (cs_st cs) → state_ok (cs_st (sstep cs o)).
Proof.
  intros Hr Ho Hs. destruct o; try done; cbn [sstep op_ok] in *.
  - apply ok_put_token; [done| |done]. unfold token_ok in Ho. rewrite !andb_true_iff in Ho. tauto.
  - by apply consume_ok.
  - unfold DeleteToken. destruct (_ !! _); [|done]. apply ok_set_tokens; [done|]. intros h t [_ Ht]%lookup_delete_Some. by apply (ok_tokens _ Hs).
  - apply andb_true_iff in Ho as [Hn Hg]. apply ok_put_node; [done| |by apply geo_label_ok]. apply node_ok_spec in Hn. tauto.
  - unfold seen_section, GetNode. destruct (_ !! _) as [n|] eqn:En; [|done]. apply (ok_nodes _ Hs) in En as [? ?].
    apply ok_put_node; [done..|]. by apply seen_node_ok.
  - unfold labels_section, GetNode. destruct (_ !! _) as [n|] eqn:En; [|done]. apply (ok_nodes _ Hs) in En as [? Hn]. cbn [or_same].
    apply ok_put_node; [done..|]. apply node_ok_spec in Hn. apply node_ok_spec. cbn. tauto.
  - unfold draining_section, GetNode. destruct (_ !! _) as [n|] eqn:En; [|done]. case_if; [done|]. apply (ok_nodes _ Hs) in En as [? Hn]. cbn [or_same].
    apply ok_put_node; [done..|]. apply node_ok_spec in Hn. apply node_ok_spec. cbn. destruct draining; tauto.
  - unfold revoke_section, GetNode. destruct (_ !! _) as [n|] eqn:En; [|done]. case_if; [done|]. apply (ok_nodes _ Hs) in En as [? Hn]. cbn [or_same].
    apply node_ok_spec in Hn. apply ok_add_revoked; [apply ok_put_node; [done..|]; apply node_ok_spec; cbn; tauto|].
    unfold revoked_ok. cbn. rewrite !andb_true_iff in *. tauto.
  - by apply ok_add_revoked.
  - unfold renew_section, GetNode. apply save_ok. destruct (_ !! _) as [n|] eqn:En; [|done]. apply (ok_nodes _ Hs) in En as [? Hn].
    apply ok_put_node; [done..|]. apply andb_true_iff in Ho. apply node_ok_spec in Hn. apply node_ok_spec. cbn. tauto.
  - apply save_ok, ok_set_rotation; [done|]. intros r [= <-]. apply rotation_ok_spec in Ho. apply rotation_ok_spec. tauto.
  - unfold RecordNodeRenewed. destruct (st_CARotation _) as [r|] eqn:Er; [|done]. apply save_ok, ok_set_rotation; [done|]. intros r' [= <-].
    apply (ok_rotation _ Hs) in Er. destruct r. apply andb_true_iff in Ho as [? ?]. rewrite rotation_ok_spec in Er. apply rotation_ok_spec. cbn.
    split_and!; try tauto. apply strings_ok_insert; tauto.
  - unfold ClearCARotation. destruct (st_CARotation _) as [r|] eqn:Er; [|done]. by apply save_ok, ok_set_rotation.
  - by apply heartbeats_ok.
  - unfold ImportFullState. destruct (unmarshal_state _) as [j|] eqn:Ej; [|done]. apply save_ok. by apply Ho.
  - by apply save_ok.
Qed.

(** *** What every section keeps, restarts keep *)

(** The file is not used, is missing, or holds a state with the property. *)
Definition on_disk (P : ClusterState → Prop) (cs : ClusterStore) : Prop :=
  cs_path cs = "" ∨ cs_file cs = None ∨
  ∃ st data, cs_file cs = Some data ∧ unmarshal_state data = Some (json_of st) ∧ state_ok st ∧ P st.
Record kept (P : ClusterState → Prop) (cs : ClusterStore) : Prop := {
  kept_ok : state_ok (cs_st cs); kept_mem : P (cs_st cs); kept_disk : on_disk P cs;
}.
Lemma normalise_json s : normalise (json_of s) = s.
Proof. destruct s as [? ? ? ? [r|]]; done. Qed.
Lemma marshal_inv s data : state_ok s → marshal_state s = Some data → unmarshal_state data = Some (json_of s).
Proof. intros (d & E & Hu)%state_json. rewrite E. by intros [= <-]. Qed.
Lemma restart_kept P cs r m : P empty_state → on_disk P cs → kept P (restart cs r m).
Proof.
  intros He Hd. unfold restart, Load. cbn. destruct (cs_path cs =? "")%string eqn:Ep; bprop.
  { constructor; [apply empty_ok|done|by left]. }
  destruct Hd as [?|[E|(st & data & E & Hu & Hok & HP)]]; [done|rewrite E; constructor; [apply empty_ok|done|by right; left]|].
  rewrite E. destruct r; cbn; [rewrite Hu, normalise_json|]; constructor; try done; try apply empty_ok; right; right; by exists st, data.
Qed.
Lemma step_kept P cs o :
  P empty_state → op_ok o → (is_restart o = false → P (cs_st cs) → P (cs_st (sstep cs o))) → kept P cs → kept P (sstep cs o).
Proof.
  intros He Ho HP [Hok Hm Hd]. destruct (is_restart o) eqn:Er.
  { destruct o; try done. by apply restart_kept. }
  pose proof (sstep_ok cs o Er Ho Hok) as Hok'. specialize (HP eq_refl Hm). constructor; [done..|].
  destruct (sstep_file cs o Er) as [Ep [Ef|(data & Em & Ef)]].
  - unfold on_disk. rewrite Ep, Ef. exact Hd.
  - right; right. exists (cs_st (sstep cs o)), data. split_and!; try done. by apply marshal_inv.
Qed.
Lemma run_kept P ops cs :
  P empty_state → Forall op_ok ops →
  Forall (λ o, ∀ cs, is_restart o = false → P (cs_st cs) → P (cs_st (sstep cs o))) ops → kept P cs → kept P (srun cs ops).
Proof.
  intros He Hops. revert cs. induction Hops as [|o ops Ho Hops IH]; intros cs HP Hk; [done|]. apply Forall_cons in HP as [HPo HP].
  apply IH; [done|]. apply step_kept; auto.
Qed.
(** A save that reports success puts the property on disk. *)
Lemma save_kept P cs cs' w : state_ok (cs_st cs) → P (cs_st cs) → saveLocked cs w = (cs', None) → kept P cs'.
Proof.
  intros Hok HP. unfold saveLocked. destruct (cs_path cs =? "")%string eqn:Ep; bprop; [intros [= <-]; constructor; [done..|by left]|].
  destruct (marshal_state _) as [data|] eqn:Em; [|done]. destruct w; [|done..]. intros [= <-]. constructor; [done..|].
  right; right. exists (cs_st cs), data. split_and!; try done. by apply marshal_inv.
Qed.

(** *** Tokens are spent once *)

Definition spent (h : string) (s : ClusterState) : Prop := ∀ t, st_Tokens s !! h = Some t → et_Used t = true.
Definition no_reissue (h : string) (o : sop) : Prop :=
  match o with
  | SAddToken p _ _ _ _ _ => hashToken p ≠ h
  | SImport _ data => ∀ j, unmarshal_state data = Some j → spent h (normalise j)
  | _ => True
  end.
Lemma consume_spends cs t1 t2 w p id ip h : spent h (cs_st cs) → spent h (cs_st (ValidateAndConsumeToken cs t1 t2 w p id ip).1).
Proof.
  intros Hs. unfold ValidateAndConsumeToken. destruct (st_Tokens _ !! _) as [tok|] eqn:Et; [|done]. destruct (token_refusal _ _ _ _); [done|].
  match goal with |- context [saveLocked ?c ?w] => pose proof (saveLocked_st c w) as E; destruct (saveLocked c w) as [? []] end; cbn in *; rewrite E;
    intros t; cbn; rewrite lookup_insert_Some; intros [[_ <-]|[_ ?]]; [done|by apply Hs|done|by apply Hs].
Qed.
Lemma step_spent h o cs : no_reissue h o → is_restart o = false → spent h (cs_st cs) → spent h (cs_st (sstep cs o)).
Proof.
  intros Hn Hr Hs. destruct o; try done; cbn [sstep no_reissue] in *; try (by rewrite ?saveLocked_st).
  - intros t. cbn. rewrite lookup_insert_ne by done. apply Hs.
  - by apply consume_spends.
  - unfold DeleteToken. destruct (_ !! _); [|done]. intros t. cbn. rewrite lookup_delete_Some. intros [_ ?]. by apply Hs.
  - unfold seen_section. destruct (GetNode _ _); done.
  - unfold labels_section. destruct (GetNode _ _); done.
  - unfold draining_section. destruct (GetNode _ _); [|done]. by case_if.
  - unfold revoke_section. destruct (GetNode _ _); [|done]. by case_if.
  - unfold renew_section. rewrite saveLocked_st. by destruct (GetNode _ _).
  - unfold StartCARotation. rewrite saveLocked_st. done.
  - unfold RecordNodeRenewed. destruct (st_CARotation _); [|done]. rewrite saveLocked_st. done.
  - unfold ClearCARotation. destruct (st_CARotation _); [|done]. rewrite saveLocked_st. done.
  - assert (spent h (cs_st (checkHeartbeats cs now w))) as Hh; [|done]. unfold checkHeartbeats. cbn.
    case_if; [rewrite saveLocked_st|]; intros t; cbn; rewrite map_lookup_filter_Some; intros [? _]; by apply Hs.
  - unfold ImportFullState. destruct (unmarshal_state _) eqn:Ej; [|done]. cbn. rewrite saveLocked_st. by apply Hn.
Qed.
(** A token that is spent, or gone, is refused everywhere. *)
Lemma spent_refused cs t1 t2 w p id ip :
  spent (hashToken p) (cs_st cs) → (∃ e, ValidateAndConsumeToken cs t1 t2 w p id ip = (cs, inl e)) ∧ TokenExists cs t1 p = false.
Proof.
  intros Hs. unfold ValidateAndConsumeToken, TokenExists. destruct (st_Tokens _ !! _) as [tok|] eqn:Et; [|eauto].
  apply Hs in Et. unfold token_refusal. rewrite Et. cbn. eauto.
Qed.
Lemma consumed_kept cs t1 t2 w p id ip cs1 info :
  state_ok (cs_st cs) → op_ok (SConsume t1 t2 w p id ip) → ValidateAndConsumeToken cs t1 t2 w p id ip = (cs1, inr info) →
  kept (spent (hashToken p)) cs1.
Proof.
  intros Hok Ho E. pose proof (consume_ok cs t1 t2 w p id ip Hok Ho) as Hok1. rewrite E in Hok1. revert E. unfold ValidateAndConsumeToken.
  destruct (st_Tokens _ !! _) as [tok|]; [|done]. destruct (token_refusal _ _ _ _); [done|].
  match goal with |- context [saveLocked ?c ?w] => destruct (saveLocked c w) as [cs' []] eqn:Es; [done|]; intros [= <- _];
    pose proof (saveLocked_st c w) as E; rewrite Es in E; cbn [fst] in E, Hok1; apply (save_kept _ c _ w); [by rewrite <- E| |done] end.
  intros t. cbn. rewrite lookup_insert_Some. by intros [[_ <-]|[? _]].
Qed.


(** *** Revoked certificates stay out *)

(** The certificate is on the list since [t0] or later, or no node has it on record. *)
Definition shut_out (serial : string) (t0 : Instant) (s : ClusterState) : Prop :=
  (∃ r, r ∈ st_Revoked s ∧ rc_CertSerial r = serial ∧ t0 ≤ rc_RevokedAt r) ∨
  (∀ id n, st_Nodes s !! id = Some n → en_CertSerial n ≠ serial).
Definition serial_unused (serial : string) (t0 : Instant) (o : sop) : Prop :=
  match o with
  | SRegister n => en_CertSerial n ≠ serial
  | SRenew _ _ s _ => s ≠ serial
  | SHeartbeats now _ => now < t0 + 366 * Day
  | SImport _ data => ∀ j, unmarshal_state data = Some j → shut_out serial t0 (normalise j)
  | _ => True
  end.
(** A change that keeps the list and brings in no node with the serial. *)
Lemma shut_out_mono serial t0 s s' :
  (∀ r, r ∈ st_Revoked s → r ∈ st_Revoked s') →
  (∀ id n, st_Nodes s' !! id = Some n → en_CertSerial n ≠ serial ∨ ∃ id' n', st_Nodes s !! id' = Some n' ∧ en_CertSerial n' = en_CertSerial n) →
  shut_out serial t0 s → shut_out serial t0 s'.
Proof.
  intros Hr Hn [(r & ? & ? & ?)|Hs]; [left; exists r; auto|right]. intros id n E. destruct (Hn id n E) as [?|(id' & n' & E' & <-)]; [done|].
  by apply (Hs id').
Qed.
Lemma shut_out_put serial t0 cs id n :
  (en_CertSerial n ≠ serial ∨ ∃ n', GetNode cs id = Some n' ∧ en_CertSerial n' = en_CertSerial n) →
  shut_out serial t0 (cs_st cs) → shut_out serial t0 (cs_st (put_node cs id n)).
Proof.
  intros Hn. apply shut_out_mono; [done|]. cbn. intros id' n'. rewrite lookup_insert_Some. intros [[<- <-]|[_ ?]]; [|by right; exists id', n'].
  destruct Hn as [?|(n' & ? & ?)]; [by left|right; by exists id, n'].
Qed.
Lemma geo_serial n : en_CertSerial (autoGeoLabel n) = en_CertSerial n.
Proof. unfold autoGeoLabel. case_if; [done|]. destruct (LookupFull _) as [code name]. by case_if. Qed.
Lemma seen_serial n now ip v : en_CertSerial (seen_node n now ip v) = en_CertSerial n.
Proof. unfold seen_node. case_if; case_if; cbn; rewrite ?geo_serial; done. Qed.
Lemma kept_revocation_spec now r : kept_revocation now r = true ↔ now < rc_RevokedAt r + 366 * Day.
Proof. unfold kept_revocation. rewrite time_sub_lt by (unfold int64_min, int64_max, Day, Hour, Minute, Second; lia). rewrite Z.ltb_lt. lia. Qed.
Lemma heartbeats_shut_out serial t0 cs now w :
  now < t0 + 366 * Day → shut_out serial t0 (cs_st cs) → shut_out serial t0 (cs_st (checkHeartbeats cs now w)).
Proof.
  intros Hn Hs. unfold checkHeartbeats. cbn. match goal with |- context [saveLocked ?c _] => assert (shut_out serial t0 (cs_st c)) as Hc end.
  { cbn. destruct Hs as [(r & Hr & <- & Ht)|Hs]; [left; exists r|right; cbn].
    - split_and!; [|done..]. cbn. apply list_elem_of_In, List.filter_In. split; [by apply list_elem_of_In|]. apply kept_revocation_spec. lia.
    - intros id n. rewrite lookup_fmap_Some. intros (n0 & <- & E). apply Hs in E. unfold live_node. by case_if. }
  case_if; [by rewrite saveLocked_st|done].
Qed.
Lemma step_shut_out serial t0 o cs :
  serial_unused serial t0 o → is_restart o = false → shut_out serial t0 (cs_st cs) → shut_out serial t0 (cs_st (sstep cs o)).
Proof.
  intros Hn Hr Hs. destruct o; try done; cbn [sstep serial_unused] in *; try (by rewrite ?saveLocked_st).
  - unfold ValidateAndConsumeToken. destruct (st_Tokens _ !! _); [|done]. destruct (token_refusal _ _ _ _); [done|].
    match goal with |- context [saveLocked ?c ?w] => pose proof (saveLocked_st c w) as E; destruct (saveLocked c w) as [? []] end; cbn in *; by rewrite E.
  - unfold DeleteToken. by destruct (_ !! _).
  - apply shut_out_put; [|done]. left. by rewrite geo_serial.
  - unfold seen_section. destruct (GetNode cs nodeID) as [n|] eqn:En; [|done]. apply shut_out_put; [|done]. right. exists n. by rewrite seen_serial.
  - unfold labels_section. destruct (GetNode cs nodeID) as [n|] eqn:En; [|done]. apply shut_out_put; [|done]. right. by exists n.
  - unfold draining_section. destruct (GetNode cs nodeID) as [n|] eqn:En; [|done]. case_if; [done|]. apply shut_out_put; [|done]. right. by exists n.
  - unfold revoke_section. destruct (GetNode cs nodeID) as [n|] eqn:En; [|done]. case_if; [done|].
    eapply shut_out_mono, (shut_out_put serial t0 cs nodeID (n <| en_Status := "revoked" |>)); [| |right; by exists n|done].
    + cbn. intros r ?. apply elem_of_app. by left.
    + cbn. intros id' n' ?. right. by exists id', n'.
  - eapply shut_out_mono, Hs; [intros r' ?; apply elem_of_app; by left|]. cbn. intros id' n' ?. right. by exists id', n'.
  - unfold renew_section. rewrite saveLocked_st. destruct (GetNode cs nodeID) as [n|] eqn:En; [|done]. apply shut_out_put; [by left|done].
  - unfold StartCARotation. rewrite saveLocked_st. done.
  - unfold RecordNodeRenewed. destruct (st_CARotation _); [|done]. rewrite saveLocked_st. done.
  - unfold ClearCARotation. destruct (st_CARotation _); [|done]. rewrite saveLocked_st. done.
  - by apply heartbeats_shut_out.
  - unfold ImportFullState. destruct (unmarshal_state _) eqn:Ej; [|done]. cbn. rewrite saveLocked_st. by apply Hn.
Qed.
Lemma shut_out_refused serial t0 cs :
  shut_out serial t0 (cs_st cs) →
  (∀ id, verifyNode cs false (PeerCert serial) id ≠ None) ∧ callerIsEnrolledNode cs (PeerCert serial) = false.
Proof.
  intros Hs. assert (∀ id n, GetNode cs id = Some n → serial = en_CertSerial n → IsRevoked_cert cs (en_CertSerial n) = true) as Hk.
  { intros id n En ->. destruct Hs as [(r & ? & ? & _)|Hs]; [apply IsRevoked_cert_spec; by exists r|by apply Hs in En]. }
  split.
  - intros id (_ & n & En & [= Es] & Hr)%verifyNode_tls. by rewrite (Hk id n En Es) in Hr.
  - apply not_true_is_false. intros (id & n & En & [= Es] & Hr)%callerIsEnrolledNode_spec. by rewrite (Hk id n En Es) in Hr.
Qed.


(** What was saved is what a restart has. *)
Theorem restart_exact cs cs' w m :
  state_ok (cs_st cs) → cs_path cs ≠ "" → saveLocked cs w = (cs', None) → cs_st (restart cs' true m) = cs_st cs.
Proof.
  intros Hok Hp. unfold saveLocked. rewrite (proj2 (String.eqb_neq _ _) Hp). destruct (marshal_state _) as [data|] eqn:Em; [|done].
  destruct w; [|done..]. intros [= <-]. unfold restart, Load. cbn. rewrite (proj2 (String.eqb_neq _ _) Hp). cbn.
  by rewrite (marshal_inv _ _ Hok Em), normalise_json.
Qed.

(** ** Defects *)

Lemma seen_connected cs now w id ip v n :
  GetNode cs id = Some n → en_Status <$> GetNode (UpdateNodeSeen cs now w id ip v) id = Some "connected".
Proof.
  intros En. assert (en_Status (seen_node n now ip v) = "connected") as Hst.
  { assert (∀ m, en_Status (autoGeoLabel m) = en_Status m) as Hg.
    { intros m. unfold autoGeoLabel. case_if; [done|]. destruct (LookupFull _) as [c nm]. by destruct (c =? "")%string. }
    unfold seen_node. destruct (ip =? "")%string, (v =? "")%string; cbn; by rewrite ?Hg. }
  unfold UpdateNodeSeen, seen_section. rewrite En. match goal with |- context [Z.rem ?a 10] => destruct (Z.rem a 10 =? 0) end;
    unfold Save, GetNode; rewrite ?saveLocked_st; cbn; rewrite lookup_insert_eq; cbn; by rewrite Hst.
Qed.

(** C19: A defect. [RenewCert] checks the node, signs, and then stores the new serial.  A revocation that comes in between lists the old
    serial only: the new certificate passes, the node cannot be revoked again as it is, and its next report makes it connected. *)
Theorem renew_escapes_revocation cs id n t0 by' reason w cs1 w2 serial2 expiry now w3 v :
  GetNode cs id = Some n → verifyNode cs false (PeerCert (en_CertSerial n)) id = None →
  RevokeNode cs t0 w id by' reason = (cs1, None) → IsRevoked_cert cs1 serial2 = false →
  let cs2 := renew_section cs1 w2 id serial2 expiry in
  verifyNode cs2 false (PeerCert serial2) id = None ∧ callerIsEnrolledNode cs2 (PeerCert serial2) = true ∧
  (RevokeNode cs2 t0 w id by' reason).2 = Some NodeIsRevoked ∧
  en_Status <$> GetNode (UpdateNodeSeen cs2 now w3 id "" v) id = Some "connected".
Proof.
  intros En Hv Hr Hf cs2. apply verifyNode_tls in Hv as (Hid & _).
  assert (∃ n1, GetNode cs1 id = Some n1 ∧ en_Status n1 = "revoked") as (n1 & En1 & Hst).
  { revert Hr. unfold RevokeNode, revoke_section. rewrite En. destruct (_ =? _)%string; [done|]. cbn [then_save]. unfold Save.
    match goal with |- context [saveLocked ?c ?w] => pose proof (saveLocked_st c w) as E; destruct (saveLocked c w) as [c' []] end; [done|].
    intros [= <-]. unfold GetNode. cbn [fst] in E. rewrite E. eexists. split; [apply lookup_insert_eq|done]. }
  assert (GetNode cs2 id = Some (n1 <| en_CertSerial := serial2 |> <| en_CertExpiry := expiry |>)) as En2.
  { unfold cs2, renew_section, GetNode. rewrite saveLocked_st. fold (GetNode cs1 id). rewrite En1. cbn. apply lookup_insert_eq. }
  assert (IsRevoked_cert cs2 serial2 = false) as Hf2.
  { rewrite <- Hf. unfold cs2, renew_section, IsRevoked_cert. rewrite saveLocked_st. by rewrite En1. }
  split_and!.
  - apply verifyNode_tls. split; [done|]. eexists. split; [exact En2|]. by cbn.
  - apply callerIsEnrolledNode_spec. eexists id, _. split; [exact En2|]. by cbn.
  - unfold RevokeNode, revoke_section. rewrite En2. cbn. by rewrite Hst.
  - by rewrite (seen_connected _ _ _ _ _ _ _ En2).
Qed.

(** A node in maintenance is back in service with its next report. *)
Theorem drain_lost cs id w cs1 now w2 ip v :
  SetNodeDraining cs w id true = (cs1, None) →
  en_Status <$> GetNode cs1 id = Some "draining" ∧ en_Status <$> GetNode (UpdateNodeSeen cs1 now w2 id ip v) id = Some "connected".
Proof.
  unfold SetNodeDraining, draining_section. destruct (GetNode cs id) as [n|] eqn:En; [|done]. case_if; [done|]. cbn [then_save]. unfold Save.
  match goal with |- context [saveLocked ?c ?w] => pose proof (saveLocked_st c w) as E; destruct (saveLocked c w) as [c' []] end; [done|].
  intros [= <-]. cbn [fst] in E. assert (GetNode c' id = Some (n <| en_Status := "draining" |>)) as En1.
  { unfold GetNode. rewrite E. cbn. apply lookup_insert_eq. }
  rewrite En1. split; [done|]. by rewrite (seen_connected _ _ _ _ _ _ _ En1).
Qed.

(** A token whose use could not be written is refused from then on by the running process, although nothing was issued for it. *)
Theorem failed_save_spends_token cs t1 t2 w p id ip cs1 e :
  ValidateAndConsumeToken cs t1 t2 w p id ip = (cs1, inl (TokPersist e)) →
  ∀ t3 t4 w' id' ip', (ValidateAndConsumeToken cs1 t3 t4 w' p id' ip').2 = inl (TokUsed id).
Proof.
  unfold ValidateAndConsumeToken at 1. destruct (st_Tokens _ !! _) as [tok|]; [|done]. destruct (token_refusal _ _ _ _) as [x|] eqn:Et.
  { intros [= _ ->]. exfalso. revert Et. unfold token_refusal. repeat case_if; try done; destruct (ParseCIDR _); try done; destruct (ParseIP _); try done; by case_if. }
  match goal with |- context [saveLocked ?c ?w] => pose proof (saveLocked_st c w) as E; destruct (saveLocked c w) as [c' []] end; [|done].
  intros [= <- _] t3 t4 w' id' ip'. unfold ValidateAndConsumeToken. cbn [fst] in E. rewrite E. cbn. rewrite lookup_insert_eq. done.
Qed.
End runs.

(** ** A concrete codec and examples *)

#[global] Instance Rotation_eq_dec : EqDecision CARotationState.
Proof. solve_decision. Defined.
#[global] Instance Rotation_countable : Countable CARotationState.
Proof.
  refine (inj_countable' (λ r, ([ro_StartedAt r; ro_OldExpires r; ro_TotalNodes r], ([ro_NewFingerprint r; ro_OldFingerprint r], ro_RenewedNodes r)))
    (λ '(zs, (ss, m)), match zs, ss with [a; b; c], [d; e] => mkRotation a d e b m c | _, _ => mkRotation 0 "" "" 0 ∅ 0 end) _).
  by intros [].
Defined.
#[global] Instance Enrolled_eq_dec : EqDecision EnrolledNode.
Proof. solve_decision. Defined.
#[global] Instance Enrolled_countable : Countable EnrolledNode.
Proof.
  refine (inj_countable (λ n, ([en_CertExpiry n; en_EnrolledAt n; en_LastSeen n],
      ([en_NodeID n; en_CertSerial n; en_EnrolledBy n; en_Status n; en_IPAddress n; en_Version n], en_Labels n)))
    (λ '(zs, (ss, m)), match zs, ss with
       | [a; b; c], [d; e; f; g; h; i] => Some (mkEnrolled d e a b f c g h i m) | _, _ => None end) _).
  by intros [].
Defined.
#[global] Instance Token_eq_dec : EqDecision EnrollToken.
Proof. solve_decision. Defined.
#[global] Instance Token_countable : Countable EnrollToken.
Proof.
  refine (inj_countable (λ t, ([et_ExpiresAt t; et_CreatedAt t; et_UsedAt t; if et_Used t then 1 else 0],
      [et_TokenHash t; et_NodePrefix t; et_AllowCIDR t; et_CreatedBy t; et_UsedByNode t]))
    (λ '(zs, ss), match zs, ss with
       | [a; b; c; u], [d; e; f; g; h] => Some (mkToken d e f a g b (u =? 1) h c) | _, _ => None end) _).
  by intros [? ? ? ? ? ? [] ? ?].
Defined.
#[global] Instance RevokedCert_eq_dec : EqDecision RevokedCert.
Proof. solve_decision. Defined.
#[global] Instance RevokedCert_countable : Countable RevokedCert.
Proof.
  refine (inj_countable (λ r, (rc_RevokedAt r, [rc_CertSerial r; rc_NodeID r; rc_RevokedBy r; rc_Reason r]))
    (λ '(a, ss), match ss with [b; c; d; e] => Some (mkRevokedCert b c a d e) | _ => None end) _).
  by intros [].
Defined.
#[global] Instance State_eq_dec : EqDecision ClusterState.
Proof. solve_decision. Defined.
#[global] Instance State_countable : Countable ClusterState.
Proof.
  refine (inj_countable' (λ s, (st_Nodes s, st_Tokens s, (st_Revoked s, st_Version s, st_CARotation s)))
    (λ '(a, b, (c, d, e)), mkState a b c d e) _).
  by intros [].
Defined.
Definition bit_cluster : ClusterJSON.
Proof.
  refine {| marshal_state s := Some (pos_text (encode s)); unmarshal_state t := json_of <$> decode (text_pos t) |}.
  intros s _. exists (pos_text (encode s)). split; [done|]. by rewrite bits_decode.
Defined.
(** The text itself, filled up. *)
Definition toy_sha256 : Sha256.
Proof.
  refine {| sha256_hex s := string_of_list_ascii (take 64 (list_ascii_of_string s ++ replicate 64 "0"%char)) |}.
  intros s. rewrite string_length_of_list, length_take, length_app, length_replicate. lia.
Defined.
Definition no_geo : GeoDB := {| LookupFull _ := ("", "") |}.
Definition plain_time : TimeData := {| LoadLocation _ := None; ParseRFC3339 _ := None; FormatRFC3339 _ := "2024-01-03T00:30:00Z" |}.

#[local] Existing Instances bit_cluster toy_sha256 no_geo plain_time.

Definition edge1 : EnrolledNode := mkEnrolled "edge-1" "a1" (400 * Day) Day "root" Day "connected" "" "" ∅.
Definition test_token : EnrollToken := new_token (hashToken "tok") "edge-" "10.0.0.0/8" "root" (10 * Day) Day.
Definition test_cluster : ClusterStore :=
  mkCluster (mkState {["edge-1" := edge1]} {[hashToken "tok" := test_token]} [] 0 None) "db" 0 None.
Lemma test_cluster_ok : state_ok (cs_st test_cluster).
Proof.
  constructor; cbn [test_cluster cs_st st_Nodes st_Tokens st_Revoked st_CARotation]; [..|done].
  - intros id n [<- <-]%lookup_singleton_Some. by vm_compute.
  - intros h t [<- <-]%lookup_singleton_Some. by vm_compute.
  - intros r Hr. by apply not_elem_of_nil in Hr.
Qed.

Lemma pair_snd {A B} (p : A * B) b : p.2 = b → p = (p.1, b).
Proof. destruct p; cbn. congruence. Qed.



Lemma restart_exact_witness :
  cs_st (restart (saveLocked test_cluster Written).1 true true) = cs_st test_cluster.
Proof. apply (restart_exact test_cluster _ Written); [apply test_cluster_ok|done|apply pair_snd; by vm_compute]. Defined.

Lemma renew_escapes_revocation_witness :
  let cs1 := (RevokeNode test_cluster (2 * Day) Written "edge-1" "root" "lost").1 in
  let cs2 := renew_section cs1 Written "edge-1" "a2" (366 * Day) in
  verifyNode cs2 false (PeerCert "a2") "edge-1" = None ∧ callerIsEnrolledNode cs2 (PeerCert "a2") = true ∧
  (RevokeNode cs2 (2 * Day) Written "edge-1" "root" "lost").2 = Some NodeIsRevoked ∧
  en_Status <$> GetNode (UpdateNodeSeen cs2 (3 * Day) Written "edge-1" "" "v2") "edge-1" = Some "connected".
Proof.
  apply (renew_escapes_revocation test_cluster "edge-1" edge1 (2 * Day) "root" "lost" Written _ Written "a2" (366 * Day) (3 * Day) Written "v2");
    [reflexivity|by vm_compute|apply pair_snd; by vm_compute|by vm_compute].
Defined.
