(* ===== verification/ClusterCA.v ===== *)
(** * The certificate authority of the cluster

    [clusterCA] of [enrollment.go] with [cluster_ca_validity.go], the replication of the authority in [ha.go] and the
    handler [apiClusterCA] of [ui_cluster.go].

    X.509, PEM and keys are a parameter with its laws ([X509]), as is the sealing of the key file ([KeyVault]).  Reads of
    the clock, random numbers and the results of writes are arguments.  [ca_disk] is the directory of the authority;
    the copies ([.bak]) that are written and never read are left out, as are health records, alerts and the publication
    of the configuration that follows an import.  [ca_pool] is what the TLS server takes from the authority. *)

From S2P Require Import Prelude GoStrings GoBase64 Session Enrollment.

(** ** Certificates and keys *)

Record Cert := mkCert {
  ce_NotBefore : Instant; ce_NotAfter : Instant; ce_IsCA : bool; ce_CommonName : string;
  ce_ecdsa : option string; (* the public key, [None] when it is not an ECDSA key *) ce_Raw : string;
}.
Record Template := mkTemplate { tm_SerialNumber : Z; tm_CommonName : string; tm_NotBefore : Instant; tm_NotAfter : Instant; tm_IsCA : bool }.
Record CSR := mkCSR { cr_CommonName : string; cr_PublicKey : string; cr_signed : bool }.
(** Certificates hold whole seconds. *)
Definition whole (t : Instant) : Instant := t / Second * Second.

Class X509 := {
  Key : Type;
  public : Key → string;
  parse_cert : string → option Cert;   (* pem.Decode and x509.ParseCertificate *)
  parse_key : string → option Key;     (* pem.Decode and x509.ParseECPrivateKey *)
  parse_csr : string → option CSR;     (* pem.Decode and x509.ParseCertificateRequest *)
  key_pem : Key → string;              (* x509.MarshalECPrivateKey and pem.EncodeToMemory *)
  create_cert : Template → Key → string → option string; (* x509.CreateCertificate for a public key, and pem.EncodeToMemory *)
  key_parse k : parse_key (key_pem k) = Some k;
  cert_whole pem c : parse_cert pem = Some c → whole (ce_NotBefore c) = ce_NotBefore c ∧ whole (ce_NotAfter c) = ce_NotAfter c;
  cert_parse t k pub pem : create_cert t k pub = Some pem →
    ∃ c, parse_cert pem = Some c ∧ ce_NotBefore c = whole (tm_NotBefore t) ∧ ce_NotAfter c = whole (tm_NotAfter t) ∧
      ce_IsCA c = tm_IsCA t ∧ ce_CommonName c = tm_CommonName t ∧ ce_ecdsa c = Some pub;
}.
(** [secret]: what is written for a key when its encryption is on, and how a key file is opened; the flag says that it was sealed. *)
Class KeyVault `{X509} := {
  encryption : bool;                            (* clusterCAKeyEncryptionEnabled *)
  seal : string → string;                       (* what secret.SealToFile writes *)
  open_key : string → option (string * bool);   (* secret.OpenOrPlaintext *)
  open_sealed k : open_key (seal k) = Some (k, true);
  open_plain k p : open_key k = Some (p, false) → p = k;
  open_pem k : is_Some (parse_key k) → open_key k = Some (k, false);
}.

(** [big.Int.Text(16)]. *)
Fixpoint text16_go (fuel : nat) (n : Z) (acc : string) : string :=
  match fuel with
  | O => acc
  | S fuel => let acc := String (hex_symbol (n mod 16)) acc in if n <? 16 then acc else text16_go fuel (n / 16) acc
  end.
Definition Text16 (n : Z) : string := text16_go 32 n "".

(** ** State *)

Record CADisk := mkDisk { dk_cert : option string; dk_key : option string }.
#[global] Instance CADisk_eta : Eta CADisk := λ d, mkDisk (dk_cert d) (dk_key d).

Section ca.
Context `{KeyVault, ClusterJSON, Sha256}.

Record clusterCA := mkCA {
  ca_cert : option Cert; ca_key : option Key; ca_certPEM : option string;
  ca_secondaryCert : option Cert; ca_secondaryPEM : option string; ca_secondaryExp : Instant;
  ca_onRotate : bool; ca_lastRotationErr : bool; ca_pool : list string; ca_disk : CADisk;
}.
#[global] Instance clusterCA_eta : Eta clusterCA := λ c,
  mkCA (ca_cert c) (ca_key c) (ca_certPEM c) (ca_secondaryCert c) (ca_secondaryPEM c) (ca_secondaryExp c) (ca_onRotate c)
    (ca_lastRotationErr c) (ca_pool c) (ca_disk c).
(** A process that starts on a directory. *)
Definition new_ca (d : CADisk) : clusterCA := mkCA None None None None None year_one false false [] d.

Inductive CAErr :=
  | BadPath | CertUnreadable | KeyUnreadable | KeyLocked | NoCert | NoKey | NotECDSA | PairMismatch | KeyMissing | CertMissing | NoRandomKey
  | NotCA | CertExpired | CertNotYet | WriteCert | WriteKey | Migration.

(** ** Reading *)

Definition set_pair (ca : clusterCA) (cert : Cert) (key : Key) (certPEM : string) : clusterCA :=
  ca <| ca_cert := Some cert |> <| ca_key := Some key |> <| ca_certPEM := Some certPEM |>.
Definition loadFromPEM (ca : clusterCA) (certPEM keyPEM : string) : clusterCA * option CAErr :=
  match parse_cert certPEM with
  | None => (ca, Some NoCert)
  | Some cert =>
      match parse_key keyPEM with
      | None => (ca, Some NoKey)
      | Some key =>
          match ce_ecdsa cert with
          | None => (ca, Some NotECDSA)
          | Some certPub => if negb (certPub =? public key)%string then (ca, Some PairMismatch) else (set_pair ca cert key certPEM, None)
          end
      end
  end.

(** [atomicWriteFile] over a file, and whether it reports an error. *)
Definition write_file (old : option string) (data : string) (w : WriteResult) : option string * bool :=
  match w with Written => (Some data, false) | NotWritten => (old, true) | ReplacedNotSynced => (Some data, true) end.
Definition key_file (keyPEM : string) : string := if encryption then seal keyPEM else keyPEM.
Definition write_cert (ca : clusterCA) (certPEM : string) (w : WriteResult) : clusterCA * bool :=
  let '(f, e) := write_file (dk_cert (ca_disk ca)) certPEM w in (ca <| ca_disk := (ca_disk ca) <| dk_cert := f |> |>, e).
Definition writeClusterCAKey (ca : clusterCA) (keyPEM : string) (w : WriteResult) : clusterCA * bool :=
  let '(f, e) := write_file (dk_key (ca_disk ca)) (key_file keyPEM) w in (ca <| ca_disk := (ca_disk ca) <| dk_key := f |> |>, e).
(** [migrateClusterCAKeyToEncrypted]: the results of its writes of the quarantined copy, of the sealed key, and of the copy back
    when the sealed file was not written. *)
Definition migrateClusterCAKeyToEncrypted (ca : clusterCA) (plainKey : string) (wb ws wr : WriteResult) : clusterCA * bool :=
  if negb (match wb with Written => true | _ => false end) then (ca, true) else
  let '(f, e) := write_file (dk_key (ca_disk ca)) (seal plainKey) ws in
  let ca := ca <| ca_disk := (ca_disk ca) <| dk_key := f |> |> in
  let restore := let '(f, _) := write_file f plainKey wr in ca <| ca_disk := (ca_disk ca) <| dk_key := f |> |> in
  if e then (restore, true) else
  match f ≫= open_key with
  | Some (got, true) => if bool_decide (is_Some (parse_key got)) && (got =? plainKey)%string then (ca, false) else (restore, true)
  | _ => (restore, true)
  end.

(** Authority certificates last ten years and start an hour back. *)
Definition ca_template (serial : Z) (now : Instant) : Template :=
  mkTemplate serial "Culvert Cluster CA" (now - Hour) (now + 10 * 365 * Day) true.
(** A fresh pair: [None] when a key, a serial or the certificate cannot be made. *)
Definition generate (fresh : option (Key * Z)) (now : Instant) : option (Key * string) :=
  '(key, serial) ← fresh; pem ← create_cert (ca_template serial now) key (public key); Some (key, pem).

(** [InitOrLoad]: [pathOK] says that the directory passes [safeCAPath], [rc] and [rk] that the files, where they exist, can be
    read; then the fresh key and serial, the clock, the results of the two writes and of a migration. *)
Definition InitOrLoad (ca : clusterCA) (pathOK rc rk : bool) (fresh : option (Key * Z)) (now : Instant) (w1 w2 wb ws wr : WriteResult) :
    clusterCA * option CAErr :=
  if negb pathOK then (ca, Some BadPath) else
  match dk_cert (ca_disk ca), dk_key (ca_disk ca) with
  | Some certPEM, Some keyPEM =>
      if negb rc then (ca, Some CertUnreadable) else if negb rk then (ca, Some KeyUnreadable) else
      match open_key keyPEM with
      | None => (ca, Some KeyLocked)
      | Some (plainKey, wasEncrypted) =>
          match loadFromPEM ca certPEM plainKey with
          | (ca, Some e) => (ca, Some e)
          | (ca, None) =>
              if negb wasEncrypted && encryption then
                match migrateClusterCAKeyToEncrypted ca plainKey wb ws wr with (ca, true) => (ca, Some Migration) | (ca, false) => (ca, None) end
              else (ca, None)
          end
      end
  | Some _, None => (ca, Some (if negb rc then CertUnreadable else KeyMissing))
  | None, Some _ => (ca, Some (if negb rk then KeyUnreadable else CertMissing))
  | None, None =>
      match generate fresh now with
      | None => (ca, Some NoRandomKey)
      | Some (key, certPEM) =>
          match parse_cert certPEM with
          | None => (ca, Some NoCert)
          | Some cert =>
              match write_cert ca certPEM w1 with
              | (ca, true) => (ca, Some WriteCert)
              | (ca, false) =>
                  match writeClusterCAKey ca (key_pem key) w2 with
                  | (ca, true) => (ca, Some WriteKey)
                  | (ca, false) => (set_pair ca cert key certPEM, None)
                  end
              end
          end
      end
  end.

(** ** Signing *)

Inductive Usability := Usable_ok | Unusable_none | Unusable_expired | Unusable_not_yet.
Definition clusterCAUsable (cert : option Cert) (now : Instant) : Usability :=
  match cert with
  | None => Unusable_none
  | Some c => if now >? ce_NotAfter c then Unusable_expired else if now <? ce_NotBefore c then Unusable_not_yet else Usable_ok
  end.
Definition Usable (ca : clusterCA) (now : Instant) : Usability := clusterCAUsable (ca_cert ca) now.
Definition clusterCAUnusableKind (u : Usability) : string :=
  match u with Usable_ok => "" | Unusable_expired => "expired" | Unusable_not_yet => "not_yet_valid" | Unusable_none => "unavailable" end.
Definition Ready (ca : clusterCA) : bool := bool_decide (is_Some (ca_cert ca)) && bool_decide (is_Some (ca_key ca)).
Definition CACertFingerprint (ca : clusterCA) : string :=
  match ca_cert ca with None => "" | Some c => sha256_hex (ce_Raw c) end.
Definition clampNodeCertValidity (notBefore notAfter : Instant) (ca : option Cert) : Instant * Instant * bool :=
  match ca with
  | None => (notBefore, notAfter, false)
  | Some c =>
      let '(notBefore, c1) := if notBefore <? ce_NotBefore c then (ce_NotBefore c, true) else (notBefore, false) in
      let '(notAfter, c2) := if notAfter >? ce_NotAfter c then (ce_NotAfter c, true) else (notAfter, c1) in
      (notBefore, notAfter, c2)
  end.

Inductive SignErr := SignNotInitialized | SignUnusable (u : Usability) | SignBadCSR | SignBadSignature | SignNoSerial | SignFailed.
(** [t1] to [t3] are the readings of the clock in order, [rnd] the random serial number. *)
Definition SignCSR (ca : clusterCA) (t1 t2 t3 : Instant) (rnd : option Z) (csrPEM nodeID : string) : SignErr + (string * string * Instant) :=
  match ca_cert ca, ca_key ca with
  | Some cert, Some key =>
      match clusterCAUsable (Some cert) t1 with
      | Usable_ok =>
          match parse_csr csrPEM with
          | None => inl SignBadCSR
          | Some csr =>
              if negb (cr_signed csr) then inl SignBadSignature else
              match rnd with
              | None => inl SignNoSerial
              | Some serialNum =>
                  let '(notBefore, notAfter, _) := clampNodeCertValidity (t2 - 5 * Minute) (t3 + 365 * Day) (Some cert) in
                  match create_cert (mkTemplate serialNum nodeID notBefore notAfter false) key (cr_PublicKey csr) with
                  | None => inl SignFailed
                  | Some certPEM => inr (certPEM, Text16 serialNum, notAfter)
                  end
              end
          end
      | u => inl (SignUnusable u)
      end
  | _, _ => inl SignNotInitialized
  end.

(** ** Replacing the authority *)

(** [AllCACertsPEM], block by block. *)
Definition AllCACertsPEM (ca : clusterCA) (now : Instant) : list string :=
  (match ca_certPEM ca with Some p => [p] | None => [] end ++
   match ca_secondaryCert ca, ca_secondaryPEM ca with
   | Some _, Some p => if now <? ca_secondaryExp ca then [p] else []
   | _, _ => []
   end)%list.
Definition SecondaryActive (ca : clusterCA) (now : Instant) : bool :=
  match ca_secondaryCert ca with Some _ => now <? ca_secondaryExp ca | None => false end.
(** [rebuildCPCertPool], once the TLS server has set the callback. *)
Definition rebuildCPCertPool (ca : clusterCA) (now : Instant) : clusterCA :=
  if ca_onRotate ca then ca <| ca_pool := AllCACertsPEM ca now |> else ca.
(** What [buildServerTLS] takes from the authority. *)
Definition wire_tls (ca : clusterCA) (now : Instant) : clusterCA := ca <| ca_pool := AllCACertsPEM ca now |> <| ca_onRotate := true |>.

Definition parseAndValidateCACert (certPEM : string) (t1 t2 : Instant) : CAErr + Cert :=
  match parse_cert certPEM with
  | None => inl NoCert
  | Some cert =>
      if negb (ce_IsCA cert) then inl NotCA else
      if t1 >? ce_NotAfter cert then inl CertExpired else
      if t2 <? ce_NotBefore cert - 5 * Minute then inl CertNotYet else inr cert
  end.
Definition parseAndValidateCAKey (keyPEM certPub : string) : CAErr + Key :=
  match parse_key keyPEM with
  | None => inl NoKey
  | Some key => if negb (certPub =? public key)%string then inl PairMismatch else inr key
  end.

Record clusterCAImportEffects := mkEffects { ef_newFP : string; ef_oldFP : string; ef_secondaryExp : Instant; ef_trackRotate : bool }.
Definition fingerprint (c : Cert) : string := sha256_hex (ce_Raw c).
(** The old authority becomes the secondary one. *)
Definition demote (ca : clusterCA) : clusterCA :=
  match ca_cert ca with
  | None => ca
  | Some c => ca <| ca_secondaryCert := Some c |> <| ca_secondaryPEM := ca_certPEM ca |> <| ca_secondaryExp := ce_NotAfter c |>
  end.
Definition commitImport (ca : clusterCA) (pathOK : bool) (w1 w2 : WriteResult) (cert : Cert) (key : Key) (certPEM keyPEM : string) :
    clusterCA * (CAErr + clusterCAImportEffects) :=
  if negb pathOK then (ca, inl BadPath) else
  match write_cert (demote ca) certPEM w1 with
  | (ca, true) => (ca, inl WriteCert)
  | (ca, false) =>
      match writeClusterCAKey ca keyPEM w2 with
      | (ca, true) => (ca, inl WriteKey)
      | (ca, false) =>
          let ca := (set_pair ca cert key certPEM) <| ca_lastRotationErr := false |> in
          (ca, inr (match ca_secondaryCert ca with
                    | Some old => mkEffects (fingerprint cert) (fingerprint old) (ca_secondaryExp ca) true
                    | None => mkEffects (fingerprint cert) "" year_one false
                    end))
      end
  end.
Inductive ImportResult := ImportOk | ImportErr (e : CAErr) | ImportPanic.
(** [tk] are the readings of the clock, [w] the results of the writes of the certificate, the key and the cluster state.
    A certificate without an ECDSA key fails the type assertion. *)
Definition ImportCA (ca : clusterCA) (cs : ClusterStore) (tk : nat → Instant) (pathOK : bool) (w1 w2 w3 : WriteResult) (certPEM keyPEM : string) :
    clusterCA * ClusterStore * ImportResult :=
  match parseAndValidateCACert certPEM (tk 0%nat) (tk 1%nat) with
  | inl e => (ca, cs, ImportErr e)
  | inr cert =>
      match ce_ecdsa cert with
      | None => (ca, cs, ImportPanic)
      | Some pub =>
          match parseAndValidateCAKey keyPEM pub with
          | inl e => (ca, cs, ImportErr e)
          | inr key =>
              match commitImport ca pathOK w1 w2 cert key certPEM keyPEM with
              | (ca, inl e) => (ca, cs, ImportErr e)
              | (ca, inr eff) =>
                  let ca := rebuildCPCertPool ca (tk 2%nat) in
                  let cs := if ef_trackRotate eff then StartCARotation cs (tk 3%nat) w3 (ef_newFP eff) (ef_oldFP eff) (ef_secondaryExp eff) else cs in
                  (ca, cs, ImportOk)
              end
          end
      end
  end.
(** The POST branch of [apiClusterCA], past the role check, over the decoded body. *)
Definition apiClusterCA_post (ca : clusterCA) (cs : ClusterStore) (t1 t2 : Instant) (tk : nat → Instant) (pathOK : bool) (w1 w2 w3 : WriteResult)
    (body : option (string * string)) : clusterCA * ClusterStore * option ImportResult :=
  match body with
  | None => (ca, cs, None)
  | Some (c, k) =>
      if (c =? "")%string || (k =? "")%string then (ca, cs, None) else
      match parseAndValidateCACert c t1 t2 with
      | inl _ => (ca, cs, None)
      | inr cert =>
          match ce_ecdsa cert with
          | None => (ca, cs, None)
          | Some ecPub =>
              match parseAndValidateCAKey k ecPub with
              | inl _ => (ca, cs, None)
              | inr _ => let '(ca, cs, r) := ImportCA ca cs tk pathOK w1 w2 w3 c k in (ca, cs, Some r)
              end
          end
      end
  end.

Definition CleanupSecondary (ca : clusterCA) (cs : ClusterStore) (t1 t2 : Instant) (w : WriteResult) : clusterCA * ClusterStore :=
  match ca_secondaryCert ca with
  | Some _ =>
      if t1 >? ca_secondaryExp ca then
        let ca := ca <| ca_secondaryCert := None |> <| ca_secondaryPEM := None |> <| ca_secondaryExp := year_one |> in
        (rebuildCPCertPool ca t2, ClearCARotation cs w)
      else (ca, cs)
  | None => (ca, cs)
  end.

Definition clusterCARenewalWindow : Duration := 30 * Day.
Definition recordRotationFailure (ca : clusterCA) : clusterCA := ca <| ca_lastRotationErr := true |>.
(** The source compares the days left in floating point; here the durations are compared. *)
Definition RotateIfNeeded (ca : clusterCA) (cs : ClusterStore) (t : Instant) (fresh : option (Key * Z)) (now : Instant) (tk : nat → Instant)
    (pathOK : bool) (w1 w2 w3 : WriteResult) : clusterCA * ClusterStore :=
  match ca_cert ca with
  | None => (ca, cs)
  | Some c =>
      if time_sub (ce_NotAfter c) t >? clusterCARenewalWindow then (ca, cs) else
      match generate fresh now with
      | None => (recordRotationFailure ca, cs)
      | Some (key, certPEM) =>
          match ImportCA ca cs tk pathOK w1 w2 w3 certPEM (key_pem key) with
          | (ca, cs, ImportErr _) => (recordRotationFailure ca, cs)
          | (ca, cs, _) => (ca, cs)
          end
      end
  end.

(** *** On a standby *)

Definition ImportCASilent (ca : clusterCA) (certPEM keyPEM : string) : clusterCA * option CAErr := loadFromPEM ca certPEM keyPEM.
(** [hasDir]: the authority has a directory. *)
Definition persistReplicatedKey (ca : clusterCA) (hasDir pathOK : bool) (w1 w2 : WriteResult) (certPEM keyPEM : string) : clusterCA * option CAErr :=
  if negb hasDir then (ca, None) else
  if negb pathOK then (ca, Some BadPath) else
  match write_cert ca certPEM w1 with
  | (ca, true) => (ca, Some WriteCert)
  | (ca, false) => match writeClusterCAKey ca keyPEM w2 with (ca, true) => (ca, Some WriteKey) | (ca, false) => (ca, None) end
  end.
(** [applyReplicatedCA], over the key that [haDecryptKey] gives. *)
Definition applyReplicatedCA (ca : clusterCA) (hasDir pathOK : bool) (w1 w2 : WriteResult) (certPEM : string) (decrypted : option string) :
    clusterCA * option CAErr :=
  match decrypted with
  | None => (ca, Some KeyLocked)
  | Some keyPEM =>
      match (loadFromPEM (new_ca (mkDisk None None)) certPEM keyPEM).2 with
      | Some e => (ca, Some e)
      | None =>
          match persistReplicatedKey ca hasDir pathOK w1 w2 certPEM keyPEM with
          | (ca, Some e) => (ca, Some e)
          | (ca, None) => ImportCASilent ca certPEM keyPEM
          end
      end
  end.

(** ** What the authority holds *)

(** The pair in memory is a certificate that parses and its key; the secondary one lasts to the end of its certificate. *)
Definition pair_ok (ca : clusterCA) : Prop :=
  match ca_cert ca, ca_key ca, ca_certPEM ca with
  | Some c, Some k, Some p => parse_cert p = Some c ∧ ce_ecdsa c = Some (public k)
  | None, None, None => True
  | _, _, _ => False
  end.
Definition secondary_ok (ca : clusterCA) : Prop :=
  match ca_secondaryCert ca, ca_secondaryPEM ca with
  | Some c, Some p => parse_cert p = Some c ∧ ca_secondaryExp ca = ce_NotAfter c
  | None, None => True
  | _, _ => False
  end.
Definition ca_ok (ca : clusterCA) : Prop := pair_ok ca ∧ secondary_ok ca.

Inductive ca_reach (d : CADisk) : clusterCA → Prop :=
  | ar_new : ca_reach d (new_ca d)
  | ar_init ca p rc rk f now w1 w2 wb ws wr : ca_reach d ca → ca_reach d (InitOrLoad ca p rc rk f now w1 w2 wb ws wr).1
  | ar_import ca cs tk p w1 w2 w3 c k : ca_reach d ca → ca_reach d (ImportCA ca cs tk p w1 w2 w3 c k).1.1
  | ar_cleanup ca cs t1 t2 w : ca_reach d ca → ca_reach d (CleanupSecondary ca cs t1 t2 w).1
  | ar_rotate ca cs t f now tk p w1 w2 w3 : ca_reach d ca → ca_reach d (RotateIfNeeded ca cs t f now tk p w1 w2 w3).1
  | ar_replicate ca h p w1 w2 c k : ca_reach d ca → ca_reach d (applyReplicatedCA ca h p w1 w2 c k).1
  | ar_wire ca now : ca_reach d ca → ca_reach d (wire_tls ca now).

Lemma load_cases ca c k :
  ca_ok ca → let '(ca', e) := loadFromPEM ca c k in
  ca_ok ca' ∧ ca_disk ca' = ca_disk ca ∧ match e with None => ∃ cert key, parse_cert c = Some cert ∧ parse_key k = Some key ∧
    ce_ecdsa cert = Some (public key) ∧ ca' = set_pair ca cert key c | Some _ => ca' = ca end.
Proof.
  intros Hok. unfold loadFromPEM. destruct (parse_cert c) as [cert|] eqn:Ec; [|done]. destruct (parse_key k) as [key|] eqn:Ek; [|done].
  destruct (ce_ecdsa cert) as [pub|] eqn:Ep; [|done]. destruct (pub =? public key)%string eqn:Eq; [|done]. bprop. subst pub. cbn.
  destruct Hok. split_and!; [by split|done|]. by exists cert, key.
Qed.
Lemma write_cert_ok ca c w : ca_ok ca → ca_ok (write_cert ca c w).1.
Proof. unfold write_cert. by destruct (write_file _ _ _). Qed.
Lemma write_key_ok ca k w : ca_ok ca → ca_ok (writeClusterCAKey ca k w).1.
Proof. unfold writeClusterCAKey. by destruct (write_file _ _ _). Qed.
Lemma migrate_ok ca k wb ws wr : ca_ok ca → ca_ok (migrateClusterCAKeyToEncrypted ca k wb ws wr).1.
Proof.
  intros Hok. unfold migrateClusterCAKeyToEncrypted. case_if; [done|]. destruct (write_file _ _ _) as [f e]. destruct (write_file f k wr) as [f' e'].
  destruct e; [done|]. destruct (f ≫= open_key) as [[got []]|]; [|done..]. by case_if.
Qed.
Lemma demote_ok ca : ca_ok ca → ca_ok (demote ca).
Proof.
  intros [Hp Hs]. unfold demote. destruct (ca_cert ca) as [c|] eqn:Ec; [|done]. split; unfold pair_ok, secondary_ok in *; cbn; [done|].
  rewrite Ec in Hp. destruct (ca_key ca); [|done]. destruct (ca_certPEM ca); [|done]. by destruct Hp.
Qed.
Lemma import_ok ca cs tk p w1 w2 w3 c k : ca_ok ca → ca_ok (ImportCA ca cs tk p w1 w2 w3 c k).1.1.
Proof.
  intros Hok. unfold ImportCA, parseAndValidateCACert, parseAndValidateCAKey. destruct (parse_cert c) as [cert|] eqn:Ec; [|done]. repeat (case_if; [done|]).
  destruct (ce_ecdsa cert) as [pub|] eqn:Ep; [|done]. destruct (parse_key k) as [key|] eqn:Ek; [|done].
  destruct (pub =? public key)%string eqn:Eq; [|done]. bprop. subst pub. cbn. unfold commitImport. case_if; [done|].
  pose proof (write_cert_ok (demote ca) c w1 (demote_ok _ Hok)) as Hw1. destruct (write_cert _ _ _) as [ca1 []]; [done|].
  pose proof (write_key_ok ca1 k w2 Hw1) as Hw2. destruct (writeClusterCAKey _ _ _) as [ca2 []]; [done|]. cbn in *.
  destruct Hw2 as [_ Hw2]. unfold rebuildCPCertPool. cbn. case_if; split; done.
Qed.
(** In every reachable state the authority holds a matching pair or none, and so it stays through failed writes. *)
Theorem ca_reachable_ok d ca : ca_reach d ca → ca_ok ca.
Proof.
  induction 1 as [|ca p rc rk f now w1 w2 wb ws wr _ IH|ca cs tk p w1 w2 w3 c k _ IH|ca cs t1 t2 w _ IH|ca cs t f now tk p w1 w2 w3 _ IH|ca h p w1 w2 c k _ IH|ca now _ IH].
  - done.
  - unfold InitOrLoad. case_if; [done|]. destruct (dk_cert _) as [c|], (dk_key _) as [k|]; try done.
    + repeat (case_if; [done|]). destruct (open_key k) as [[plain enc]|]; [|done]. pose proof (load_cases ca c plain IH) as Hl.
      destruct (loadFromPEM _ _ _) as [ca1 []]; destruct Hl as (Hl & _); [done|]. case_if; [|done].
      pose proof (migrate_ok ca1 plain wb ws wr Hl). by destruct (migrateClusterCAKeyToEncrypted _ _ _ _ _) as [? []].
    + destruct (generate f now) as [[key pem]|] eqn:Eg; [|done]. destruct (parse_cert pem) as [cert|] eqn:Ec; [|done].
      pose proof (write_cert_ok ca pem w1 IH) as H1'. destruct (write_cert _ _ _) as [ca1 []]; [done|].
      pose proof (write_key_ok ca1 (key_pem key) w2 H1') as H2'. destruct (writeClusterCAKey _ _ _) as [ca2 []]; [done|]. destruct H2' as [_ H2'].
      split; [|done]. unfold pair_ok. cbn. split; [done|]. unfold generate in Eg. destruct f as [[key' serial]|]; [|done]. cbn in Eg.
      destruct (create_cert _ _ _) as [pem'|] eqn:Ecc; [|done]. injection Eg as -> ->. apply cert_parse in Ecc as (c & Ec' & _ & _ & _ & _ & He).
      rewrite Ec in Ec'. by injection Ec' as ->.
  - by apply import_ok.
  - unfold CleanupSecondary. destruct (ca_secondaryCert ca); [|done]. case_if; [|done]. destruct IH. unfold rebuildCPCertPool. cbn. by case_if.
  - unfold RotateIfNeeded. destruct (ca_cert ca) as [c|]; [|done]. case_if; [done|]. destruct (generate f now) as [[key pem]|]; [|done].
    pose proof (import_ok ca cs tk p w1 w2 w3 pem (key_pem key) IH) as Hi. by destruct (ImportCA _ _ _ _ _ _ _ _ _) as [[ca' cs'] []].
  - unfold applyReplicatedCA. destruct k as [k|]; [|done]. case_match; [done|]. unfold persistReplicatedKey.
    assert (∀ ca, ca_ok ca → ca_ok (ImportCASilent ca c k).1) as Hi.
    { intros ca' Hok. pose proof (load_cases ca' c k Hok) as Hl. unfold ImportCASilent. destruct (loadFromPEM ca' c k) as [ca1 e]. by destruct Hl as (? & _). }
    case_if; [by apply Hi|]. case_if; [done|]. pose proof (write_cert_ok ca c w1 IH) as H1'. destruct (write_cert _ _ _) as [ca1 []]; [done|].
    pose proof (write_key_ok ca1 k w2 H1') as H2'. destruct (writeClusterCAKey _ _ _) as [ca2 []]; [done|]. by apply Hi.
  - done.
Qed.

(** ** Issuance *)

Lemma whole_le t : whole t ≤ t < whole t + Second.
Proof. unfold whole. pose proof (Z.div_mod t Second ltac:(unfold Second; lia)). pose proof (Z.mod_pos_bound t Second ltac:(unfold Second; lia)). lia. Qed.
Lemma whole_mono a b : whole a = a → a ≤ b → a ≤ whole b.
Proof. unfold whole. intros E Hab. rewrite <- E. apply Z.mul_le_mono_nonneg_r; [unfold Second; lia|]. apply Z.div_le_mono; [unfold Second; lia|done]. Qed.
Lemma clamp_spec nb na c nb' na' b :
  clampNodeCertValidity nb na (Some c) = (nb', na', b) → nb' = Z.max nb (ce_NotBefore c) ∧ na' = Z.min na (ce_NotAfter c).
Proof. unfold clampNodeCertValidity. destruct (nb <? _) eqn:E1, (na >? _) eqn:E2; bprop; intros [= <- <- _]; lia. Qed.

(** A node certificate is issued only by an authority inside its own validity, for the key of a request that proves it, under the
    name of the node and not as an authority; it is valid only while the authority is and for a year, and the expiry that is
    recorded is its own to the second. *)
Theorem issued_within_ca d ca t1 t2 t3 rnd csrPEM nodeID pem serial expiry :
  ca_reach d ca → SignCSR ca t1 t2 t3 rnd csrPEM nodeID = inr (pem, serial, expiry) →
  ∃ cert csr leaf n, ca_cert ca = Some cert ∧ ce_NotBefore cert ≤ t1 ≤ ce_NotAfter cert ∧
    parse_csr csrPEM = Some csr ∧ cr_signed csr = true ∧ rnd = Some n ∧ serial = Text16 n ∧
    parse_cert pem = Some leaf ∧ ce_CommonName leaf = nodeID ∧ ce_IsCA leaf = false ∧ ce_ecdsa leaf = Some (cr_PublicKey csr) ∧
    ce_NotBefore cert ≤ ce_NotBefore leaf ∧ ce_NotAfter leaf ≤ expiry < ce_NotAfter leaf + Second ∧
    expiry = Z.min (ce_NotAfter cert) (t3 + 365 * Day).
Proof.
  intros [Hp _]%ca_reachable_ok. unfold SignCSR, pair_ok in *. destruct (ca_cert ca) as [cert|] eqn:Ec; [|done]. destruct (ca_key ca) as [key|]; [|done].
  destruct (ca_certPEM ca) as [cp|]; [|done]. destruct Hp as [Hp _]. apply cert_whole in Hp as [Hnb Hna].
  unfold clusterCAUsable. destruct (t1 >? _) eqn:E1; [done|]. destruct (t1 <? _) eqn:E2; [done|]. bprop.
  destruct (parse_csr csrPEM) as [csr|] eqn:Ecsr; [|done]. destruct (cr_signed csr) eqn:Esig; [|done]. destruct rnd as [n|]; [|done].
  cbn [negb]. destruct (clampNodeCertValidity _ _ _) as [[nb na] cl] eqn:Ecl. apply clamp_spec in Ecl as [-> ->].
  destruct (create_cert _ _ _) as [p|] eqn:Ecr; [|done]. intros [= <- <- <-]. apply cert_parse in Ecr as (leaf & Hl & Hlb & Hla & Hli & Hln & Hlk).
  cbn in *. exists cert, csr, leaf, n. rewrite Hlb, Hla. split_and!; try done; try lia.
  - apply whole_mono; [done|lia].
  - apply whole_le.
  - apply whole_le.
Qed.

(** ** Overlap *)

(** What an import that succeeds has done. *)
Lemma import_success ca cs tk p w1 w2 w3 c k ca' cs' :
  ImportCA ca cs tk p w1 w2 w3 c k = (ca', cs', ImportOk) →
  ∃ cert key, parse_cert c = Some cert ∧ parse_key k = Some key ∧ ce_ecdsa cert = Some (public key) ∧ ce_IsCA cert = true ∧
    ca_cert ca' = Some cert ∧ ca_key ca' = Some key ∧ ca_certPEM ca' = Some c ∧ ca_onRotate ca' = ca_onRotate ca ∧
    ca_disk ca' = mkDisk (Some c) (Some (key_file k)) ∧
    (ca_secondaryCert ca', ca_secondaryPEM ca', ca_secondaryExp ca') =
      (ca_secondaryCert (demote ca), ca_secondaryPEM (demote ca), ca_secondaryExp (demote ca)) ∧
    (ca_onRotate ca = true → ca_pool ca' = AllCACertsPEM ca' (tk 2%nat)) ∧
    cs' = match ca_secondaryCert (demote ca) with
          | Some old => StartCARotation cs (tk 3%nat) w3 (fingerprint cert) (fingerprint old) (ca_secondaryExp (demote ca))
          | None => cs
          end.
Proof.
  unfold ImportCA, parseAndValidateCACert, parseAndValidateCAKey. destruct (parse_cert c) as [cert|] eqn:Ec; [|done].
  destruct (ce_IsCA cert) eqn:Eca; [|done]. cbn [negb]. do 2 (case_if; [done|]).
  destruct (ce_ecdsa cert) as [pub|] eqn:Ep; [|done]. destruct (parse_key k) as [key|] eqn:Ek; [|done].
  destruct (pub =? public key)%string eqn:Eq; [|done]. bprop. subst pub. cbn [negb]. unfold commitImport. case_if; [done|].
  assert (ca_onRotate (demote ca) = ca_onRotate ca) as Er by (unfold demote; by destruct (ca_cert ca)).
  unfold write_cert, writeClusterCAKey, write_file. destruct w1; [|done..]. destruct w2; [|done..]. unfold rebuildCPCertPool. cbn. rewrite Er.
  destruct (ca_onRotate ca) eqn:Ero; intros [= <- <-]; exists cert, key; cbn; rewrite ?Ero, ?Er;
    (split_and!; try done; by destruct (ca_secondaryCert (demote ca))).
Qed.

(** A new authority takes over without cutting anyone off: the TLS server trusts the old one beside the new one at once and as
    long as the old one is valid, clean-up included, what is signed from then on is signed by the new one, and the rotation
    is tracked from one fingerprint to the other. *)
Theorem import_overlaps d ca cs tk p w1 w2 w3 c k ca' cs' old oldPEM t1 t2 w4 t csr id t' rnd :
  ca_reach d ca → ca_onRotate ca = true → ca_cert ca = Some old → ca_certPEM ca = Some oldPEM → tk 2%nat < ce_NotAfter old →
  ImportCA ca cs tk p w1 w2 w3 c k = (ca', cs', ImportOk) → t1 ≤ ce_NotAfter old →
  let '(ca2, cs2) := CleanupSecondary ca' cs' t1 t2 w4 in
  ca_pool ca' = [c; oldPEM] ∧ ca2 = ca' ∧ cs2 = cs' ∧ (t < ce_NotAfter old → AllCACertsPEM ca2 t = [c; oldPEM]) ∧
  (∃ cert key, parse_cert c = Some cert ∧ parse_key k = Some key ∧ ce_ecdsa cert = Some (public key) ∧
    (ca_cert ca2, ca_key ca2) = (Some cert, Some key) ∧
    (∀ r, SignCSR ca2 t t' t' rnd csr id = inr r → ce_NotBefore cert ≤ t ≤ ce_NotAfter cert) ∧
    ∃ ro, st_CARotation (cs_st cs2) = Some ro ∧ ro_NewFingerprint ro = fingerprint cert ∧ ro_OldFingerprint ro = fingerprint old ∧
      ro_OldExpires ro = ce_NotAfter old ∧ ro_RenewedNodes ro = ∅).
Proof.
  intros Hok%ca_reachable_ok Hro Hc Hcp Hlt Himp Ht1.
  destruct (import_success _ _ _ _ _ _ _ _ _ _ _ Himp) as (cert & key & Ec & Ek & Epub & _ & Hc' & Hk' & Hp' & _ & _ & [= Hs1 Hs2 Hs3] & Hpool & Hcs).
  specialize (Hpool Hro). unfold demote in Hs1, Hs2, Hs3, Hcs. rewrite Hc in Hs1, Hs2, Hs3, Hcs. cbn in Hs1, Hs2, Hs3, Hcs. rewrite Hcp in Hs2.
  assert (∀ u, u < ce_NotAfter old → AllCACertsPEM ca' u = [c; oldPEM]) as Hall.
  { intros u Hu. unfold AllCACertsPEM. rewrite Hp', Hs1, Hs2, Hs3. by rewrite (proj2 (Z.ltb_lt _ _) Hu). }
  assert (CleanupSecondary ca' cs' t1 t2 w4 = (ca', cs')) as ->.
  { unfold CleanupSecondary. rewrite Hs1, Hs3. case_if; [bprop; lia|done]. }
  split_and!; [by rewrite Hpool, Hall|done|done|apply Hall|]. exists cert, key. rewrite Hc', Hk'. split_and!; try done.
  - intros r. unfold SignCSR. rewrite Hc', Hk'. unfold clusterCAUsable. destruct (t >? _) eqn:?; [done|]. destruct (t <? _) eqn:?; [done|]. bprop. lia.
  - rewrite Hcs. unfold StartCARotation. rewrite saveLocked_st. eexists. split; [done|]. done.
Qed.

(** A start after an import has the pair that was imported. *)
Theorem import_survives ca cs tk p w1 w2 w3 c k ca' cs' f now v1 v2 vb vs vr :
  ImportCA ca cs tk p w1 w2 w3 c k = (ca', cs', ImportOk) →
  ∃ ca2, InitOrLoad (new_ca (ca_disk ca')) true true true f now v1 v2 vb vs vr = (ca2, None) ∧
    ca_cert ca2 = ca_cert ca' ∧ ca_key ca2 = ca_key ca' ∧ ca_disk ca2 = ca_disk ca'.
Proof.
  intros (cert & key & Ec & Ek & Epub & _ & Hc & Hk & _ & _ & Hd & _)%import_success. rewrite Hd.
  assert (open_key (key_file k) = Some (k, encryption)) as Eo.
  { unfold key_file. destruct encryption; [apply open_sealed|apply open_pem; by rewrite Ek]. }
  exists (set_pair (new_ca (mkDisk (Some c) (Some (key_file k)))) cert key c). rewrite Hc, Hk. split_and!; try done.
  unfold InitOrLoad. cbn. rewrite Eo. unfold loadFromPEM. rewrite Ec, Ek, Epub, String.eqb_refl. cbn. by destruct encryption.
Qed.

(** ** What a start does to the files *)

Lemma migrate_spec ca k wb ws wr :
  let ca' := (migrateClusterCAKeyToEncrypted ca k wb ws wr).1 in
  ca_cert ca' = ca_cert ca ∧ ca_key ca' = ca_key ca ∧ dk_cert (ca_disk ca') = dk_cert (ca_disk ca) ∧
  (dk_key (ca_disk ca') = dk_key (ca_disk ca) ∨ dk_key (ca_disk ca') = Some k ∨ dk_key (ca_disk ca') = Some (seal k)).
Proof.
  unfold migrateClusterCAKeyToEncrypted. destruct wb; cbn; [|auto..].
  assert (∀ old w data, (write_file old data w).1 = old ∨ (write_file old data w).1 = Some data) as Hw by (intros ? [] ?; cbn; auto).
  pose proof (Hw (dk_key (ca_disk ca)) ws (seal k)) as H3. destruct (write_file _ (seal k) ws) as [f e]. cbn in H3.
  pose proof (Hw f wr k) as H4. destruct (write_file f k wr) as [f' e']. cbn in H4.
  destruct e; [|destruct (f ≫= open_key) as [[got []]|]; [case_if|..]]; cbn; destruct H3 as [->| ->], H4 as [->| ->]; split_and!; auto.
Qed.

(** Where a file of the pair exists a start makes no new authority: it leaves the certificate alone, and the key file holds
    what it held or the same key sealed.  A pair that does not match, or half a pair, leaves issuance off. *)
Theorem init_never_replaces d p rc rk f now w1 w2 wb ws wr :
  dk_cert d ≠ None ∨ dk_key d ≠ None →
  let '(ca, e) := InitOrLoad (new_ca d) p rc rk f now w1 w2 wb ws wr in
  dk_cert (ca_disk ca) = dk_cert d ∧
  (dk_key (ca_disk ca) = dk_key d ∨ ∃ k, dk_key d = Some k ∧ dk_key (ca_disk ca) = Some (seal k)) ∧
  (Ready ca = true → ∃ c k plain enc cert key, dk_cert d = Some c ∧ dk_key d = Some k ∧ open_key k = Some (plain, enc) ∧
     parse_cert c = Some cert ∧ parse_key plain = Some key ∧ ce_ecdsa cert = Some (public key) ∧ ca_cert ca = Some cert ∧ ca_key ca = Some key).
Proof.
  intros Hd. unfold InitOrLoad. cbn [new_ca ca_disk]. destruct p; cbn [negb]; [|split_and!; [done|by left|done]].
  destruct d as [[c|] [k|]]; cbn [dk_cert dk_key] in *; try (split_and!; [done|by left|done]); [|naive_solver].
  destruct rc; cbn [negb]; [|split_and!; [done|by left|done]]. destruct rk; cbn [negb]; [|split_and!; [done|by left|done]].
  destruct (open_key k) as [[plain enc]|] eqn:Eo; [|split_and!; [done|by left|done]].
  pose proof (load_cases (new_ca (mkDisk (Some c) (Some k))) c plain ltac:(done)) as Hl.
  destruct (loadFromPEM _ c plain) as [ca1 [e|]]; destruct Hl as (_ & Hdisk & Hl); [subst ca1; split_and!; [done|by left|done]|].
  destruct Hl as (cert & key & Ec & Ek & Ep & ->).
  assert (∀ ca, ca_cert ca = Some cert → ca_key ca = Some key → dk_cert (ca_disk ca) = Some c →
    (dk_key (ca_disk ca) = Some k ∨ ∃ k', Some k = Some k' ∧ dk_key (ca_disk ca) = Some (seal k')) →
    dk_cert (ca_disk ca) = Some c ∧ (dk_key (ca_disk ca) = Some k ∨ ∃ k', Some k = Some k' ∧ dk_key (ca_disk ca) = Some (seal k')) ∧
    (Ready ca = true → ∃ c0 k0 plain0 enc0 cert0 key0, Some c = Some c0 ∧ Some k = Some k0 ∧ open_key k0 = Some (plain0, enc0) ∧
     parse_cert c0 = Some cert0 ∧ parse_key plain0 = Some key0 ∧ ce_ecdsa cert0 = Some (public key0) ∧ ca_cert ca = Some cert0 ∧ ca_key ca = Some key0)) as Hgo.
  { intros ca Hc Hk Hdc Hdk. split_and!; [done|done|]. intros _. by exists c, k, plain, enc, cert, key. }
  destruct (negb enc && encryption) eqn:Em; [|apply Hgo; auto]. bprop. subst enc. apply open_plain in Eo as ->.
  destruct (migrate_spec (set_pair (new_ca (mkDisk (Some c) (Some k))) cert key c) k wb ws wr) as (M1 & M2 & M3 & M4).
  destruct (migrateClusterCAKeyToEncrypted _ _ _ _ _) as [ca []]; cbn [fst] in *; apply Hgo; try done; destruct M4 as [M4|[M4|M4]]; eauto.
Qed.

(** An import whose second write fails leaves the old pair in service, and a start on what it left fails closed. *)
Theorem torn_import_fails_closed ca cs tk w3 c k ca' cs' cert oldKey newPub f now v1 v2 vb vs vr :
  ImportCA ca cs tk true Written NotWritten w3 c k = (ca', cs', ImportErr WriteKey) →
  parse_cert c = Some cert → ce_ecdsa cert = Some newPub →
  (∃ file plain enc, dk_key (ca_disk ca) = Some file ∧ open_key file = Some (plain, enc) ∧ parse_key plain = Some oldKey) → public oldKey ≠ newPub →
  (ca_cert ca', ca_key ca') = (ca_cert ca, ca_key ca) ∧
  let '(ca2, e2) := InitOrLoad (new_ca (ca_disk ca')) true true true f now v1 v2 vb vs vr in
  e2 = Some PairMismatch ∧ Ready ca2 = false ∧ ca_disk ca2 = ca_disk ca'.
Proof.
  intros Himp Ec Ep (file & plain & enc & Hf & Ho & Hpk) Hne. revert Himp.
  unfold ImportCA, parseAndValidateCACert, parseAndValidateCAKey. rewrite Ec. repeat (case_if; [done|]). rewrite Ep.
  destruct (parse_key k) as [key|]; [|done]. case_if; [done|]. unfold commitImport. cbn. intros [= <- <-]. cbn.
  assert (ca_disk (demote ca) = ca_disk ca ∧ ca_cert (demote ca) = ca_cert ca ∧ ca_key (demote ca) = ca_key ca) as (Hd & -> & ->)
    by (unfold demote; destruct (ca_cert ca) eqn:E; cbn; auto).
  split; [done|]. unfold InitOrLoad. cbn. rewrite Hd, Hf, Ho. unfold loadFromPEM. rewrite Ec, Hpk, Ep.
  destruct (newPub =? public oldKey)%string eqn:E; bprop; [congruence|]. done.
Qed.

(** The handler checks what the import asserts: it never panics, whatever is posted. *)
Theorem import_no_panic ca cs t1 t2 tk p w1 w2 w3 body : (apiClusterCA_post ca cs t1 t2 tk p w1 w2 w3 body).2 ≠ Some ImportPanic.
Proof.
  unfold apiClusterCA_post. destruct body as [[c k]|]; [|done]. case_if; [done|]. unfold parseAndValidateCACert at 1.
  destruct (parse_cert c) as [cert|] eqn:Ec; [|done]. repeat (case_if; [done|]). destruct (ce_ecdsa cert) as [pub|] eqn:Ep; [|done].
  destruct (parseAndValidateCAKey k pub) eqn:Ek; [done|]. unfold ImportCA, parseAndValidateCACert. rewrite Ec. repeat (case_if; [done|]).
  rewrite Ep, Ek. by destruct (commitImport _ _ _ _ _ _ _ _) as [ca' []].
Qed.

(** ** Defects *)

(** The comment of [ImportCA] keeps nodes with a certificate of an old authority until it expires.  One secondary authority is
    kept: a second import within the overlap drops the first one ([p0]), however long it is still valid. *)
Theorem second_import_drops_first ca cs tk p w1 w2 w3 c1 k1 ca1 cs1 tk' p' v1 v2 v3 c2 k2 ca2 cs2 p0 t :
  ca_certPEM ca = Some p0 → p0 ≠ c1 → p0 ≠ c2 →
  ImportCA ca cs tk p w1 w2 w3 c1 k1 = (ca1, cs1, ImportOk) → ImportCA ca1 cs1 tk' p' v1 v2 v3 c2 k2 = (ca2, cs2, ImportOk) →
  p0 ∉ AllCACertsPEM ca2 t.
Proof.
  intros H0' Hn1 Hn2 (cert1 & key1 & _ & _ & _ & _ & Hc1 & _ & Hp1 & _)%import_success
    (cert2 & key2 & _ & _ & _ & _ & _ & _ & Hp2 & _ & _ & [= Hs1 Hs2 Hs3] & _)%import_success.
  unfold demote in Hs1, Hs2, Hs3. rewrite Hc1 in Hs1, Hs2, Hs3. cbn in Hs1, Hs2, Hs3. rewrite Hp1 in Hs2.
  unfold AllCACertsPEM. rewrite Hp2, Hs1, Hs2. case_if; rewrite elem_of_app, !list_elem_of_singleton, ?elem_of_nil; naive_solver.
Qed.
(** An import that fails to write drops it too: the authority in service takes the place of the secondary one first. *)
Theorem failed_import_drops_secondary ca cs tk w2 w3 c k ca' cs' cert cur oldPEM t :
  ImportCA ca cs tk true NotWritten w2 w3 c k = (ca', cs', ImportErr WriteCert) →
  ca_cert ca = Some cert → ca_certPEM ca = Some cur → ca_secondaryPEM ca = Some oldPEM → oldPEM ≠ cur →
  oldPEM ∉ AllCACertsPEM ca' t.
Proof.
  unfold ImportCA, parseAndValidateCACert, parseAndValidateCAKey. destruct (parse_cert c) as [nc|]; [|done]. repeat (case_if; [done|]).
  destruct (ce_ecdsa nc); [|done]. destruct (parse_key k); [|done]. case_if; [done|]. unfold commitImport. cbn. intros [= <- <-] Hc Hp Hs Hne.
  unfold AllCACertsPEM, demote. rewrite Hc. cbn. rewrite Hp. case_if; rewrite elem_of_app, !list_elem_of_singleton, ?elem_of_nil; naive_solver.
Qed.
(** Nor is it on disk: after a restart the TLS server trusts the new authority only. *)
Theorem restart_drops_secondary ca cs tk p w1 w2 w3 c k ca' cs' oldPEM f now v1 v2 vb vs vr t :
  ImportCA ca cs tk p w1 w2 w3 c k = (ca', cs', ImportOk) → ca_certPEM ca = Some oldPEM → oldPEM ≠ c →
  oldPEM ∉ ca_pool (wire_tls (InitOrLoad (new_ca (ca_disk ca')) true true true f now v1 v2 vb vs vr).1 t).
Proof.
  intros (cert & key & Ec & Ek & Epub & _ & Hc & Hk & _ & _ & Hd & _)%import_success Hp Hne. rewrite Hd.
  assert (open_key (key_file k) = Some (k, encryption)) as Eo.
  { unfold key_file. destruct encryption; [apply open_sealed|apply open_pem; by rewrite Ek]. }
  unfold InitOrLoad. cbn. rewrite Eo. unfold loadFromPEM. rewrite Ec, Ek, Epub, String.eqb_refl. cbn.
  destruct encryption; cbn; by rewrite list_elem_of_singleton.
Qed.
End ca.

(** ** Examples *)

(** Toy certificates: the template in text; a key is a number and its own public key. *)
Definition toy_text (t : Template) (pub : string) : string := pos_text (encode ([tm_NotBefore t / Second; tm_NotAfter t / Second; if tm_IsCA t then 1 else 0], [tm_CommonName t; pub])).
Definition toy_cert (s : string) : option Cert :=
  '(zs, ss) ← (decode (text_pos s) : option (list Z * list string));
  match zs, ss with [a; b; i], [n; p] => Some (mkCert (a * Second) (b * Second) (i =? 1) n (Some p) s) | _, _ => None end.
Lemma whole_mul a : whole (a * Second) = a * Second.
Proof. unfold whole. rewrite Z.div_mul; [done|unfold Second; lia]. Qed.
Definition toy_x509 : X509.
Proof.
  refine {| Key := Z; public := λ k, pos_text (encode k); parse_cert := toy_cert; parse_key := λ s, if HasPrefix s "S" then None else decode (text_pos s);
    parse_csr := λ s, Some (mkCSR s "csr-key" true); key_pem := λ k, pos_text (encode k); create_cert := λ t _ pub, Some (toy_text t pub) |}.
  - intros k. rewrite bits_decode. by destruct (encode k).
  - intros pem c. unfold toy_cert. destruct (decode _) as [[zs ss]|]; [|done]. cbn. repeat case_match; try done. intros [= <-]. cbn. by rewrite !whole_mul.
  - intros t k pub pem [= <-]. unfold toy_cert, toy_text. rewrite bits_decode. cbn. eexists. split; [done|]. cbn. split_and!; try done. by destruct (tm_IsCA t).
Defined.
Definition toy_vault : @KeyVault toy_x509.
Proof.
  refine {| encryption := true; seal := λ k, String "S" k;
    open_key := λ f, if HasPrefix f "S" then Some (sdrop 1 f, true) else Some (f, false) |}.
  - intros k. by destruct k.
  - intros k p. case_if; congruence.
  - intros k [x Hx]. cbn in Hx. by destruct (HasPrefix k "S").
Defined.
#[local] Existing Instances toy_x509 toy_vault bit_cluster toy_sha256.

Definition key7 : @Key toy_x509 := 7.
Definition key8 : @Key toy_x509 := 8.
Definition pem1 : string := toy_text (ca_template 7 0) (public key7).
Definition pem2 : string := toy_text (ca_template 8 Day) (public key8).
(** A control plane whose authority was generated and wired to the TLS server. *)
Definition test_ca : clusterCA := wire_tls (InitOrLoad (new_ca (mkDisk None None)) true true true (Some (key7, 7)) 0 Written Written Written Written Written).1 0.
Lemma test_ca_reach : ca_reach (mkDisk None None) test_ca.
Proof. apply ar_wire, ar_init, ar_new. Qed.
Definition imported (w1 w2 : WriteResult) : clusterCA * ClusterStore * ImportResult :=
  ImportCA test_ca test_cluster (λ _, Day) true w1 w2 Written pem2 (key_pem key8).
Lemma triple_eq {A B C} (x : A * B * C) c : x.2 = c → x = (x.1.1, x.1.2, c).
Proof. destruct x as [[? ?] ?]. cbn. congruence. Qed.

Lemma issued_within_ca_witness :
  ∃ cert csr leaf n, ca_cert test_ca = Some cert ∧ ce_NotBefore cert ≤ Day ≤ ce_NotAfter cert ∧
    parse_csr "csr" = Some csr ∧ cr_signed csr = true ∧ Some 17 = Some n ∧ "11" = Text16 n ∧
    parse_cert (toy_text (mkTemplate 17 "edge-1" (Day - 5 * Minute) (366 * Day) false) "csr-key") = Some leaf ∧ ce_CommonName leaf = "edge-1" ∧
    ce_IsCA leaf = false ∧ ce_ecdsa leaf = Some (cr_PublicKey csr) ∧
    ce_NotBefore cert ≤ ce_NotBefore leaf ∧ ce_NotAfter leaf ≤ 366 * Day < ce_NotAfter leaf + Second ∧
    366 * Day = Z.min (ce_NotAfter cert) (Day + 365 * Day).
Proof.
  apply (issued_within_ca (mkDisk None None) test_ca Day Day Day (Some 17) "csr" "edge-1" _ "11" (366 * Day)); [apply test_ca_reach|by vm_compute].
Defined.
Lemma import_overlaps_witness :
  let '(ca2, cs2) := CleanupSecondary (imported Written Written).1.1 (imported Written Written).1.2 (100 * Day) (100 * Day) Written in
  ca_pool (imported Written Written).1.1 = [pem2; pem1] ∧ ca2 = (imported Written Written).1.1 ∧ cs2 = (imported Written Written).1.2 ∧
  (200 * Day < 3650 * Day → AllCACertsPEM ca2 (200 * Day) = [pem2; pem1]) ∧
  (∃ cert key, parse_cert pem2 = Some cert ∧ parse_key (key_pem key8) = Some key ∧ ce_ecdsa cert = Some (public key) ∧
    (ca_cert ca2, ca_key ca2) = (Some cert, Some key) ∧
    (∀ r, SignCSR ca2 (200 * Day) (200 * Day) (200 * Day) (Some 5) "csr" "edge-1" = inr r → ce_NotBefore cert ≤ 200 * Day ≤ ce_NotAfter cert) ∧
    ∃ ro, st_CARotation (cs_st cs2) = Some ro ∧ ro_NewFingerprint ro = fingerprint cert ∧
      ro_OldFingerprint ro = fingerprint (mkCert (- Hour) (3650 * Day) true "Culvert Cluster CA" (Some (public key7)) pem1) ∧
      ro_OldExpires ro = 3650 * Day ∧ ro_RenewedNodes ro = ∅).
Proof.
  apply (import_overlaps (mkDisk None None) test_ca test_cluster (λ _, Day) true Written Written Written pem2 (key_pem key8) _ _
    (mkCert (- Hour) (3650 * Day) true "Culvert Cluster CA" (Some (public key7)) pem1) pem1 (100 * Day) (100 * Day) Written (200 * Day) "csr" "edge-1" (200 * Day) (Some 5));
    [apply test_ca_reach|by vm_compute|by vm_compute|by vm_compute|by vm_compute|apply triple_eq; by vm_compute|by vm_compute].
Defined.
Lemma init_never_replaces_witness :
  let d := ca_disk (imported Written NotWritten).1.1 in
  let '(ca, e) := InitOrLoad (new_ca d) true true true None 0 Written Written Written Written Written in
  dk_cert (ca_disk ca) = dk_cert d ∧
  (dk_key (ca_disk ca) = dk_key d ∨ ∃ k, dk_key d = Some k ∧ dk_key (ca_disk ca) = Some (seal k)) ∧
  (Ready ca = true → ∃ c k plain enc cert key, dk_cert d = Some c ∧ dk_key d = Some k ∧ open_key k = Some (plain, enc) ∧
     parse_cert c = Some cert ∧ parse_key plain = Some key ∧ ce_ecdsa cert = Some (public key) ∧ ca_cert ca = Some cert ∧ ca_key ca = Some key).
Proof. apply (init_never_replaces (ca_disk (imported Written NotWritten).1.1)). left. by vm_compute. Defined.
