(* ===== verification/EnrollRPC.v ===== *)
(** * Enrollment and renewal

    The calls of [controlplane_server.go] that enroll a node ([Enroll], [admitEnrollment]), renew its certificate
    ([RenewCert]) and take its reports ([PushMetrics]), the limiter of enrollments ([controlplane.go]), and the handlers of
    [ui_cluster.go] for tokens and nodes.

    Handlers compose the store of [Enrollment], the authority of [ClusterCA] and the leadership of [HANode]; a request is the
    value its JSON decodes to, [None] when it does not.  [tk] are the readings of the clock of a call in order, [w] the results of
    its writes.  Log lines, the audit trail and alerts are left out.

    - [enroll_sound]: who gets a certificate, and what is recorded then; [refused_keeps_token]: what a refusal costs.
    - [renew_sound]: the same for a renewal.
    - [enroll_rate_bound]: attempts of one address in any minute. *)

From S2P Require Import Prelude GoStrings GoNet HostUtil GoBase64 HANode Session Enrollment ClusterCA.

(** ** The limiter *)

Notation Attempts := (gmap string (list Instant)) (only parsing).
Definition enroll_maxAttempts : nat := 5.
Definition enrollRateLimitWindow : Duration := Minute.
Definition fresh_attempts (now : Instant) (l : list Instant) : list Instant := List.filter (λ t, time_sub now t <? enrollRateLimitWindow) l.
#[local] Arguments fresh_attempts : simpl never.
Definition enrollRateLimitAllow (a : Attempts) (now : Instant) (ip : string) : Attempts * bool :=
  let recent := fresh_attempts now (default [] (a !! ip)) in
  if (enroll_maxAttempts <=? length recent)%nat then (<[ip := recent]> a, false) else (<[ip := (recent ++ [now])%list]> a, true).
Definition enrollRateLimitCleanup (a : Attempts) (now : Instant) : Attempts :=
  omap (λ l, match fresh_attempts now l with [] => None | l => Some l end) a.

(** ** Calls *)

(** What gRPC knows of the caller: its TLS peer, and the address it came from. *)
Record Ctx := mkCtx { cx_peer : Peer; cx_addr : option string }.
Definition source_ip (ctx : Ctx) : string := default "" (cx_addr ctx ≫= SplitHostPort_host).

(** A report: who sends it, its version, and what is only kept. *)
Record MetricsReport := mkReport { mr_NodeID : string; mr_CulvertVersion : string; mr_counters : list Z }.

Section rpc.
Context `{KeyVault, ClusterJSON, Sha256, GeoDB, TimeData}.

Record Plane := mkPlane {
  pl_ha : HAState; pl_store : ClusterStore; pl_ca : clusterCA; pl_attempts : Attempts; pl_insecure : bool; pl_grpcAddr : string;
  pl_metrics : gmap string MetricsReport;
}.
#[global] Instance Plane_eta : Eta Plane := λ p, mkPlane (pl_ha p) (pl_store p) (pl_ca p) (pl_attempts p) (pl_insecure p) (pl_grpcAddr p) (pl_metrics p).

Record EnrollRequest := mkEnrollRequest { rq_Token : string; rq_CSR : string; rq_NodeID : string }.
Record EnrollResponse := mkEnrollResponse { rs_CertPEM : string; rs_CAPEM : string; rs_NodeID : string; rs_CPAddr : string; rs_Epoch : Z }.

Definition nodeCertExpired (now : Instant) (n : EnrolledNode) : bool := negb (en_CertExpiry n =? year_one) && (now >? en_CertExpiry n).
Definition clusterCAIssuancePrecondition (ca : clusterCA) (now : Instant) : option Code :=
  if negb (Ready ca) then Some FailedPrecondition else
  match Usable ca now with Usable_ok => None | _ => Some FailedPrecondition end.
Definition validateEnrollCSR (csrPEM nodeID : string) : option Code :=
  match parse_csr csrPEM with
  | None => Some InvalidArgument
  | Some csr => if negb (cr_CommonName csr =? nodeID)%string then Some InvalidArgument else None
  end.

Definition admitEnrollment (p : Plane) (ctx : Ctx) (tk : nat → Instant) (w : WriteResult) (body : option EnrollRequest) :
    Plane * (Code + (EnrollRequest * TokenInfo * option EnrolledNode)) :=
  match body with
  | None => (p, inl InvalidArgument)
  | Some req =>
      if (rq_Token req =? "")%string || (rq_CSR req =? "")%string || (rq_NodeID req =? "")%string then (p, inl InvalidArgument) else
      let sourceIP := source_ip ctx in
      let '(p, allowed) := if (sourceIP =? "")%string then (p, true) else
        let '(a, ok) := enrollRateLimitAllow (pl_attempts p) (tk 0%nat) sourceIP in (p <| pl_attempts := a |>, ok) in
      if negb allowed then (p, inl ResourceExhausted) else
      let prior := match GetNode (pl_store p) (rq_NodeID req) with
                   | Some existing => if (en_Status existing =? "revoked")%string then inr None
                                      else if negb (nodeCertExpired (tk 1%nat) existing) then inl PermissionDenied else inr (Some existing)
                   | None => inr None
                   end in
      match prior with
      | inl e => (p, inl e)
      | inr priorNode =>
          match clusterCAIssuancePrecondition (pl_ca p) (tk 2%nat) with
          | Some e => (p, inl e)
          | None =>
              match ValidateAndConsumeToken (pl_store p) (tk 3%nat) (tk 4%nat) w (rq_Token req) (rq_NodeID req) sourceIP with
              | (s, inl _) => (p <| pl_store := s |>, inl PermissionDenied)
              | (s, inr info) => (p <| pl_store := s |>, inr (req, info, priorNode))
              end
          end
      end
  end.

Definition recordExpiredNodeReenrollment (s : ClusterStore) (now : Instant) (w : WriteResult) (prior : EnrolledNode) : ClusterStore :=
  if negb (en_CertSerial prior =? "")%string && negb (IsRevoked_cert s (en_CertSerial prior))
  then (RevokeSerial s now w (en_CertSerial prior) (en_NodeID prior) "system" "superseded by expired-node re-enrollment").1 else s.
(** The record of an enrolled node. *)
Definition enrolled_record (nodeID serial : string) (expiry enrolledAt lastSeen : Instant) (info : TokenInfo) (prior : option EnrolledNode) : EnrolledNode :=
  let node := mkEnrolled nodeID serial expiry enrolledAt (ti_CreatedBy info) lastSeen "connected" "" "" ∅ in
  match prior with
  | None => node
  | Some prior =>
      let node := node <| en_Labels := en_Labels prior |> in
      if (en_Status prior =? "draining")%string then node <| en_Status := "draining" |> else node
  end.
(** [fence] is the clock at the leadership check, [rnd] the random serial; the writes are those of the token, the node and the
    superseded serial. *)
Definition Enroll (p : Plane) (ctx : Ctx) (fence : Instant) (tk : nat → Instant) (w1 w2 w3 : WriteResult) (rnd : option Z) (body : option EnrollRequest) :
    Plane * (Code + EnrollResponse) :=
  if negb (haIssuanceAllowed fence (pl_ha p)).1 then (p, inl FailedPrecondition) else
  match admitEnrollment p ctx tk w1 body with
  | (p, inl e) => (p, inl e)
  | (p, inr (req, tokInfo, priorNode)) =>
      match validateEnrollCSR (rq_CSR req) (rq_NodeID req) with
      | Some e => (p, inl e)
      | None =>
          if negb (Ready (pl_ca p)) then (p, inl FailedPrecondition) else
          match SignCSR (pl_ca p) (tk 5%nat) (tk 6%nat) (tk 7%nat) rnd (rq_CSR req) (rq_NodeID req) with
          | inl _ => (p, inl Internal)
          | inr (certPEM, serial, expiry) =>
              let node := enrolled_record (rq_NodeID req) serial expiry (tk 8%nat) (tk 9%nat) tokInfo priorNode in
              let s := RegisterNode (pl_store p) w2 node in
              let s := match priorNode with Some prior => recordExpiredNodeReenrollment s (tk 10%nat) w3 prior | None => s end in
              (p <| pl_store := s |>,
               inr (mkEnrollResponse certPEM (default "" (ca_certPEM (pl_ca p))) (rq_NodeID req) (pl_grpcAddr p) (CurrentEpoch (pl_ha p))))
          end
      end
  end.

(** [RenewCert]: the checks before the signature. *)
Inductive RenewError := RenewFenced | RenewMalformed | RenewRefused (c : Code) | RenewSign (e : SignErr).
Definition renew_check (p : Plane) (ctx : Ctx) (fence : Instant) (body : option (string * string)) : RenewError + (string * string) :=
  if negb (haIssuanceAllowed fence (pl_ha p)).1 then inl RenewFenced else
  match body with
  | None => inl RenewMalformed
  | Some (nodeID, csr) =>
      if (nodeID =? "")%string || (csr =? "")%string then inl RenewMalformed else
      match verifyNode (pl_store p) (pl_insecure p) (cx_peer ctx) nodeID with Some c => inl (RenewRefused c) | None => inr (nodeID, csr) end
  end.
Definition RenewCert (p : Plane) (ctx : Ctx) (fence : Instant) (tk : nat → Instant) (w1 w2 : WriteResult) (rnd : option Z) (body : option (string * string)) :
    Plane * (RenewError + (string * list string * Z)) :=
  match renew_check p ctx fence body with
  | inl e => (p, inl e)
  | inr (nodeID, csr) =>
      match SignCSR (pl_ca p) (tk 0%nat) (tk 1%nat) (tk 2%nat) rnd csr nodeID with
      | inl e => (p, inl (RenewSign e))
      | inr (certPEM, serial, expiry) =>
          let s := RecordNodeRenewed (renew_section (pl_store p) w1 nodeID serial expiry) (tk 3%nat) w2 nodeID in
          let p := p <| pl_store := s |> in
          (p, inr (certPEM, AllCACertsPEM (pl_ca p) (tk 4%nat), CurrentEpoch (pl_ha p)))
      end
  end.

Definition PushMetrics (p : Plane) (ctx : Ctx) (now : Instant) (w : WriteResult) (report : option MetricsReport) : Plane * (Code + Z) :=
  match report with
  | None => (p, inl InvalidArgument)
  | Some report =>
      match verifyNode (pl_store p) (pl_insecure p) (cx_peer ctx) (mr_NodeID report) with
      | Some e => (p, inl e)
      | None =>
          let p := p <| pl_metrics := <[mr_NodeID report := report]> (pl_metrics p) |> in
          (p <| pl_store := UpdateNodeSeen (pl_store p) now w (mr_NodeID report) "" (mr_CulvertVersion report) |>, inr (CurrentEpoch (pl_ha p)))
      end
  end.

(** ** Handlers

    [isAdmin]: the caller has the role of an administrator. *)
Inductive Http := HOk | HBadRequest | HForbidden | HNotFound | HUnavailable | HError.
Definition prefix_rune (c : Z) : bool := in_range 97 122 c || in_range 65 90 c || in_range 48 57 c || (c =? 95) || (c =? 45).
Definition maxTTLHours : Z := 8760.
Record TokenRequest := mkTokenRequest { tq_NodePrefix : string; tq_AllowCIDR : string; tq_TTLHours : Z }.
Definition apiClusterTokenCreate (p : Plane) (isAdmin isCP : bool) (admin : string) (rnd : option string) (t1 t2 : Instant) (w : WriteResult)
    (body : option TokenRequest) : Plane * (Http + string) :=
  if negb isAdmin then (p, inl HForbidden) else
  if negb isCP then (p, inl HBadRequest) else
  if negb (Ready (pl_ca p)) then (p, inl HUnavailable) else
  match body with
  | None => (p, inl HBadRequest)
  | Some req =>
      if negb (tq_NodePrefix req =? "")%string && ((255 <? String.length (tq_NodePrefix req))%nat || negb (forallb prefix_rune (runes (tq_NodePrefix req))))
      then (p, inl HBadRequest) else
      if (tq_TTLHours req >? 0) && (tq_TTLHours req >? maxTTLHours) then (p, inl HBadRequest) else
      let ttl := if tq_TTLHours req >? 0 then tq_TTLHours req * Hour else 24 * Hour in
      match GenerateToken (pl_store p) rnd t1 t2 w (tq_NodePrefix req) (tq_AllowCIDR req) admin ttl with
      | (s, inl _) => (p <| pl_store := s |>, inl HBadRequest)
      | (s, inr plaintext) => (p <| pl_store := s |>, inr plaintext)
      end
  end.
Definition apiClusterTokens_delete (p : Plane) (isAdmin : bool) (w : WriteResult) (tokenHash : string) : Plane * Http :=
  if negb isAdmin then (p, HForbidden) else
  if (tokenHash =? "")%string then (p, HBadRequest) else
  match DeleteToken (pl_store p) tokenHash with
  | (_, false) => (p, HNotFound)
  | (s, true) => match Save s w with (s, Some _) => (p <| pl_store := s |>, HError) | (s, None) => (p <| pl_store := s |>, HOk) end
  end.
(** A method of the store that answers with an error or not. *)
Definition node_call (p : Plane) (r : ClusterStore * option NodeError) (code : NodeError → Http) : Plane * Http :=
  (p <| pl_store := r.1 |>, match r.2 with None => HOk | Some e => code e end).
(** [apiClusterRevoke] looks for the word in the text of the error, which quotes the name of the node. *)
Definition revoke_code (nodeID : string) (e : NodeError) : Http :=
  match e with PersistNode _ => HError | _ => if bool_decide (is_Some (String.index 0 "persist" nodeID)) then HError else HBadRequest end.
Definition apiClusterRevoke (p : Plane) (isAdmin : bool) (admin : string) (now : Instant) (w : WriteResult) (body : option (string * string)) : Plane * Http :=
  if negb isAdmin then (p, HForbidden) else
  match body with
  | None => (p, HBadRequest)
  | Some (nodeID, reason) =>
      if (nodeID =? "")%string then (p, HBadRequest) else
      if (1000 <? String.length reason)%nat then (p, HBadRequest) else 
        node_call p (RevokeNode (pl_store p) now w nodeID admin reason) (revoke_code nodeID)
  end.
Definition apiClusterLabels (p : Plane) (isAdmin : bool) (w : WriteResult) (body : option (string * gmap string string)) : Plane * Http :=
  if negb isAdmin then (p, HForbidden) else
  match body with
  | None => (p, HBadRequest)
  | Some (nodeID, labels) =>
      if (nodeID =? "")%string then (p, HBadRequest) else
      if existsb (λ '(k, v), (63 <? String.length k)%nat || (255 <? String.length v)%nat) (map_to_list labels) then (p, HBadRequest)
      else node_call p (SetNodeLabels (pl_store p) w nodeID labels) (λ _, HBadRequest)
  end.
Definition apiClusterDrain (p : Plane) (isAdmin : bool) (w : WriteResult) (body : option (string * bool)) : Plane * Http :=
  if negb isAdmin then (p, HForbidden) else
  match body with
  | None => (p, HBadRequest)
  | Some (nodeID, draining) =>
      if (nodeID =? "")%string then (p, HBadRequest) else node_call p (SetNodeDraining (pl_store p) w nodeID draining) (λ _, HBadRequest)
  end.

(** ** Admission *)

Lemma token_refusal_None tok now id ip :
  token_refusal tok now id ip = None ↔
  et_Used tok = false ∧ now ≤ et_ExpiresAt tok ∧ (et_NodePrefix tok ≠ "" → HasPrefix id (et_NodePrefix tok) = true) ∧
  (et_AllowCIDR tok ≠ "" → ∃ cidr a, ParseCIDR (et_AllowCIDR tok) = Some cidr ∧ ParseIP ip = Some a ∧ IPNet_Contains cidr a = true).
Proof.
  unfold token_refusal. destruct (et_Used tok); [split; [done|by intros (? & _)]|].
  destruct (now >? et_ExpiresAt tok) eqn:E1; bprop; [split; [done|intros (_ & ? & _); lia]|].
  destruct (et_NodePrefix tok =? "")%string eqn:E2; bprop; cbn [negb andb];
    [|destruct (HasPrefix id _) eqn:E3; cbn [negb]; [|split; [done|intros (_ & _ & Hp & _); by specialize (Hp E2)]]].
  all: destruct (et_AllowCIDR tok =? "")%string eqn:E4; bprop; cbn [negb]; [split; [intros _; split_and!; try done; try lia|done]|].
  all: destruct (ParseCIDR _) as [cidr|] eqn:E5; [|split; [done|intros (_ & _ & _ & Hc); by destruct (Hc E4) as (? & ? & ? & _)]].
  all: destruct (ParseIP ip) as [a|] eqn:E6; [|split; [done|intros (_ & _ & _ & Hc); by destruct (Hc E4) as (? & ? & _ & ? & _)]].
  all: destruct (IPNet_Contains cidr a) eqn:E7; cbn [negb];
    [split; [intros _; split_and!; try done; try lia; intros _; by exists cidr, a|done]
    |split; [done|intros (_ & _ & _ & Hc); destruct (Hc E4) as (? & ? & [= <-] & [= <-] & ?); congruence]].
Qed.
Lemma consume_success cs t1 t2 w p id ip cs' info :
  ValidateAndConsumeToken cs t1 t2 w p id ip = (cs', inr info) →
  ∃ tok, st_Tokens (cs_st cs) !! hashToken p = Some tok ∧ token_refusal tok t1 id ip = None ∧ info = mkInfo (et_CreatedBy tok) ∧
    cs_st cs' = (cs_st cs) <| st_Tokens := <[hashToken p := tok <| et_Used := true |> <| et_UsedByNode := id |> <| et_UsedAt := t2 |>]> (st_Tokens (cs_st cs)) |>.
Proof.
  unfold ValidateAndConsumeToken. destruct (st_Tokens _ !! _) as [tok|] eqn:Et; [|done]. destruct (token_refusal _ _ _ _) eqn:Er; [done|].
  match goal with |- context [saveLocked ?c ?w] => pose proof (saveLocked_st c w) as E; destruct (saveLocked c w) as [c' []] end; [done|].
  intros [= <- <-]. exists tok. split_and!; [done..|exact E].
Qed.
(** The registration a recovery replaces: one that is not revoked. *)
Definition superseded (s : ClusterStore) (id : string) : option EnrolledNode :=
  match GetNode s id with Some n => if (en_Status n =? "revoked")%string then None else Some n | None => None end.
Lemma admit_success p ctx tk w body p' req info prior :
  admitEnrollment p ctx tk w body = (p', inr (req, info, prior)) →
  body = Some req ∧ rq_NodeID req ≠ "" ∧ prior = superseded (pl_store p) (rq_NodeID req) ∧
  (∀ n, prior = Some n → nodeCertExpired (tk 1%nat) n = true) ∧ Ready (pl_ca p) = true ∧ Usable (pl_ca p) (tk 2%nat) = Usable_ok ∧
  (∃ s, ValidateAndConsumeToken (pl_store p) (tk 3%nat) (tk 4%nat) w (rq_Token req) (rq_NodeID req) (source_ip ctx) = (s, inr info) ∧ pl_store p' = s) ∧
  pl_ca p' = pl_ca p ∧ pl_ha p' = pl_ha p ∧ pl_grpcAddr p' = pl_grpcAddr p.
Proof.
  unfold admitEnrollment. destruct body as [r|]; [|done]. case_if; [done|]. bprop.
  match goal with |- context [let '(p, allowed) := ?x in _] => destruct x as [q allowed] eqn:Eq end.
  assert (pl_store q = pl_store p ∧ pl_ca q = pl_ca p ∧ pl_ha q = pl_ha p ∧ pl_grpcAddr q = pl_grpcAddr p) as (Hs & Hc & Hh & Hg).
  { destruct (source_ip ctx =? "")%string; [by injection Eq as <- _|]. destruct (enrollRateLimitAllow _ _ _). by injection Eq as <- _. }
  destruct allowed; [|done]. cbn [negb]. rewrite Hs, Hc.
  match goal with |- context [match ?x with inl _ => _ | inr _ => _ end] => destruct x as [e|pr] eqn:Epr; [done|] end.
  assert (pr = superseded (pl_store p) (rq_NodeID r) ∧ ∀ n, pr = Some n → nodeCertExpired (tk 1%nat) n = true) as [Hpr Hexp].
  { unfold superseded. destruct (GetNode _ _) as [n|]; [|by injection Epr as <-]. destruct (_ =? "revoked")%string; [by injection Epr as <-|].
    destruct (nodeCertExpired _ n) eqn:En; [|done]. injection Epr as <-. split; [done|]. by intros n' [= <-]. }
  unfold clusterCAIssuancePrecondition. destruct (Ready _) eqn:Ery; [|done]. cbn [negb]. destruct (Usable _ _) eqn:Eu; [|done..].
  destruct (ValidateAndConsumeToken _ _ _ _ _ _ _) as [s [e|i]] eqn:Ev; [done|]. intros [= <- <- <- <-].
  split_and!; try done. by exists s.
Qed.
Lemma superseded_revoked s now w prior : IsRevoked_cert (recordExpiredNodeReenrollment s now w prior) (en_CertSerial prior) = true ∨ en_CertSerial prior = "".
Proof.
  unfold recordExpiredNodeReenrollment. destruct (en_CertSerial prior =? "")%string eqn:E; bprop; [by right|left]. cbn [negb andb].
  destruct (IsRevoked_cert s _) eqn:Er; cbn [negb]; [done|]. unfold RevokeSerial, then_save, Save.
  match goal with |- context [saveLocked ?c ?w] => pose proof (saveLocked_st c w) as Es; destruct (saveLocked c w) as [c' []] end; cbn in *;
    apply IsRevoked_cert_spec; rewrite Es; cbn; (eexists; split; [apply elem_of_app; right; by apply list_elem_of_singleton|done]).
Qed.
Lemma reenroll_frame s now w prior :
  st_Nodes (cs_st (recordExpiredNodeReenrollment s now w prior)) = st_Nodes (cs_st s) ∧
  st_Tokens (cs_st (recordExpiredNodeReenrollment s now w prior)) = st_Tokens (cs_st s).
Proof.
  unfold recordExpiredNodeReenrollment. case_if; [|done]. unfold RevokeSerial, then_save, Save.
  match goal with |- context [saveLocked ?c ?w] => pose proof (saveLocked_st c w) as Es; destruct (saveLocked c w) as [c' []] end; cbn in *; by rewrite Es.
Qed.


(** A refusal that is not about the token leaves the store, and so the token, as it was: no authority to write, no usable
    certificate authority, too many attempts, or a name whose certificate is live. *)
Theorem refused_keeps_token p ctx fence tk w1 w2 w3 rnd body p' e :
  Enroll p ctx fence tk w1 w2 w3 rnd body = (p', inl e) →
  e = FailedPrecondition ∨ e = ResourceExhausted ∨
    (∃ req n, body = Some req ∧ GetNode (pl_store p) (rq_NodeID req) = Some n ∧ en_Status n ≠ "revoked" ∧ nodeCertExpired (tk 1%nat) n = false) →
  pl_store p' = pl_store p.
Proof.
  unfold Enroll. destruct (haIssuanceAllowed _ _).1; [|by intros [= <- _]]. cbn [negb].
  destruct (admitEnrollment p ctx tk w1 body) as [q [c|[[req info] prior]]] eqn:Ea.
  - intros [= <- <-] Hc. revert Ea. unfold admitEnrollment. destruct body as [r|]; [|by intros [= <- _]]. case_if; [by intros [= <- _]|].
    match goal with |- context [let '(p, allowed) := ?x in _] => destruct x as [q' allowed] eqn:Eq end.
    assert (pl_store q' = pl_store p ∧ pl_ca q' = pl_ca p) as [Hs Hca].
    { destruct (source_ip ctx =? "")%string; [by injection Eq as <- _|]. destruct (enrollRateLimitAllow _ _ _). by injection Eq as <- _. }
    destruct allowed; cbn [negb]; [|by intros [= <- _]]. rewrite Hs.
    match goal with |- context [match ?x with inl _ => _ | inr _ => _ end] => destruct x as [e'|pr] eqn:Epr; [by intros [= <- _]|] end.
    destruct (clusterCAIssuancePrecondition _ _); [by intros [= <- _]|].
    destruct (ValidateAndConsumeToken _ _ _ _ _ _ _) as [s [e'|i]] eqn:Ev; [|done]. intros [= <- <-].
    destruct Hc as [?|[?|(req & n & [= <-] & Hn & Hst & Hexp)]]; [done..|]. rewrite Hn in Epr.
    rewrite (proj2 (String.eqb_neq _ _) Hst), Hexp in Epr. done.
  - intros Hr Hc. pose proof (admit_success _ _ _ _ _ _ _ _ _ Ea) as (-> & _ & Hprior & Hexp & Hready & _ & _ & Hqc & _).
    destruct Hc as [->|[->|(req' & n & [= <-] & Hn & Hst & Hne)]].
    + exfalso. unfold validateEnrollCSR in Hr. rewrite Hqc, Hready in Hr. cbn [negb] in Hr. repeat case_match; simplify_eq.
    + exfalso. unfold validateEnrollCSR in Hr. repeat case_match; simplify_eq.
    + exfalso. unfold superseded in Hprior. rewrite Hn, (proj2 (String.eqb_neq _ _) Hst) in Hprior. specialize (Hexp n Hprior). congruence.
Qed.

(** A renewal goes to the node that presents the certificate on record of the name it asks for, while that one is not revoked
    and the control plane may write; the new serial takes its place, and from then on the old certificate is refused. *)
Theorem renew_sound d p ctx fence tk w1 w2 rnd body p' pem cas epoch :
  ca_reach d (pl_ca p) → pl_insecure p = false → RenewCert p ctx fence tk w1 w2 rnd body = (p', inr (pem, cas, epoch)) →
  ∃ id csr n leaf cert serial expiry, body = Some (id, csr) ∧ (haIssuanceAllowed fence (pl_ha p)).1 = true ∧
    GetNode (pl_store p) id = Some n ∧ cx_peer ctx = PeerCert (en_CertSerial n) ∧ IsRevoked_cert (pl_store p) (en_CertSerial n) = false ∧
    ca_cert (pl_ca p) = Some cert ∧ parse_cert pem = Some leaf ∧ ce_CommonName leaf = id ∧ ce_NotAfter leaf ≤ ce_NotAfter cert ∧
    GetNode (pl_store p') id = Some (n <| en_CertSerial := serial |> <| en_CertExpiry := expiry |>) ∧
    (serial ≠ en_CertSerial n → verifyNode (pl_store p') false (PeerCert (en_CertSerial n)) id ≠ None) ∧
    (∀ ro, st_CARotation (cs_st (pl_store p)) = Some ro →
       ∃ ro', st_CARotation (cs_st (pl_store p')) = Some ro' ∧ is_Some (ro_RenewedNodes ro' !! id)).
Proof.
  intros Hreach Hi. unfold RenewCert, renew_check. destruct (haIssuanceAllowed _ _).1; [|done]. cbn [negb]. destruct body as [[id csr]|]; [|done].
  case_if; [done|]. rewrite Hi. destruct (verifyNode _ _ _ _) eqn:Ev; [done|]. apply verifyNode_tls in Ev as (_ & n & Hn & Hp & Hr).
  destruct (SignCSR _ _ _ _ _ _ _) as [e|[[pem' serial] expiry]] eqn:Es; [done|]. intros [= <- <- _ _].
  apply (issued_within_ca d) in Es; [|done]. destruct Es as (cert & csr' & leaf & m & Hc & _ & _ & _ & _ & _ & Hl & Hln & _ & _ & _ & [Hle _] & Hexp).
  cbn. set (s1 := renew_section _ _ _ _ _).
  assert (cs_st s1 = (cs_st (pl_store p)) <| st_Nodes := <[id := n <| en_CertSerial := serial |> <| en_CertExpiry := expiry |>]> (st_Nodes (cs_st (pl_store p))) |>) as Hs1.
  { unfold s1, renew_section. rewrite saveLocked_st, Hn. done. }
  assert (st_Nodes (cs_st (RecordNodeRenewed s1 (tk 3%nat) w2 id)) = st_Nodes (cs_st s1)) as Hnodes.
  { unfold RecordNodeRenewed. destruct (st_CARotation _); [|done]. by rewrite saveLocked_st. }
  assert (GetNode (RecordNodeRenewed s1 (tk 3%nat) w2 id) id = Some (n <| en_CertSerial := serial |> <| en_CertExpiry := expiry |>)) as Hn'.
  { unfold GetNode. rewrite Hnodes, Hs1. cbn. apply lookup_insert_eq. }
  exists id, csr, n, leaf, cert, serial, expiry. split_and!; try done; try lia.
  - intros Hne (_ & n' & Hn2 & [= Heq] & _)%verifyNode_tls. rewrite Hn' in Hn2. injection Hn2 as <-. cbn in Heq. congruence.
  - intros ro Hro. unfold RecordNodeRenewed. rewrite Hs1. cbn. rewrite Hro, saveLocked_st. cbn. eexists. split; [done|]. cbn. by rewrite lookup_insert_eq.
Qed.
End rpc.

(** ** Attempts of one address *)

Inductive aop := AAllow (now : Instant) (ip : string) | ACleanup (now : Instant).
Definition aop_time (o : aop) : Instant := match o with AAllow t _ | ACleanup t => t end.
(** A step, and the admissions of [ip] so far, oldest first. *)
Definition astep (ip : string) (st : Attempts * list Instant) (o : aop) : Attempts * list Instant :=
  let '(a, log) := st in
  match o with
  | AAllow now ip' => let '(a', ok) := enrollRateLimitAllow a now ip' in (a', if ok && (ip' =? ip)%string then (log ++ [now])%list else log)
  | ACleanup now => (enrollRateLimitCleanup a now, log)
  end.
Fixpoint times_sorted (last : Instant) (ops : list aop) : Prop :=
  match ops with [] => True | o :: ops => last ≤ aop_time o ∧ times_sorted (aop_time o) ops end.
Lemma fresh_spec now l t : t ∈ fresh_attempts now l ↔ t ∈ l ∧ now < t + Minute.
Proof.
  unfold fresh_attempts. rewrite list_elem_of_In, List.filter_In, <- list_elem_of_In, time_sub_lt, Z.ltb_lt by (unfold int64_min, int64_max, enrollRateLimitWindow, Minute, Second; lia).
  unfold enrollRateLimitWindow. split; intros [? ?]; split; try done; lia.
Qed.
Lemma fresh_later t t' l : t ≤ t' → fresh_attempts t' (fresh_attempts t l) = fresh_attempts t' l.
Proof.
  intros Ht. unfold fresh_attempts. induction l as [|x l IH]; [done|]. cbn.
  assert (∀ u, (time_sub u x <? enrollRateLimitWindow) = (u - x <? Minute)) as E
    by (intros u; apply time_sub_lt; unfold int64_min, int64_max, enrollRateLimitWindow, Minute, Second; lia).
  rewrite !E. destruct (t - x <? Minute) eqn:E1; cbn; rewrite ?E, IH; [done|]. destruct (t' - x <? Minute) eqn:E2; bprop; [lia|done].
Qed.
Lemma fresh_app t l l' : fresh_attempts t (l ++ l') = (fresh_attempts t l ++ fresh_attempts t l')%list.
Proof. unfold fresh_attempts. apply List.filter_app. Qed.
Lemma fresh_le t l : (length (fresh_attempts t l) ≤ length l)%nat.
Proof. unfold fresh_attempts. induction l as [|x l IH]; cbn; [done|]. case_if; cbn; lia. Qed.
(** The table has what is recent of the log, and at most five of them. *)
Definition alog_ok (ip : string) (last : Instant) (st : Attempts * list Instant) : Prop :=
  (∀ t, last ≤ t → fresh_attempts t st.2 = fresh_attempts t (default [] (st.1 !! ip))) ∧ (length (default [] (st.1 !! ip)) ≤ 5)%nat.
Lemma astep_ok ip last st o : last ≤ aop_time o → alog_ok ip last st → alog_ok ip (aop_time o) (astep ip st o).
Proof.
  intros Hle [Hf Hl]. destruct st as [a log]. cbn in Hf, Hl. destruct o as [now ip'|now]; cbn in *.
  - unfold enrollRateLimitAllow. destruct (String.eqb_spec ip' ip) as [->|Hne].
    + case_if; cbn; (split; cbn; rewrite lookup_insert_eq; cbn).
      * intros t Ht. rewrite fresh_later by done. apply Hf. lia.
      * pose proof (fresh_le now (default [] (a !! ip))). lia.
      * intros t Ht. rewrite !fresh_app, fresh_later by done. f_equal. apply Hf. lia.
      * rewrite length_app. cbn. apply Nat.leb_gt in Heqb. unfold enroll_maxAttempts in Heqb. lia.
    + case_if; cbn; (split; cbn; rewrite lookup_insert_ne by done; [intros t Ht; apply Hf; lia|done]).
  - unfold enrollRateLimitCleanup. split; cbn; rewrite lookup_omap.
    + intros t Ht. rewrite Hf by lia. destruct (a !! ip) as [l|]; [|done]. cbn. rewrite <- (fresh_later now t l Ht).
      by destruct (fresh_attempts now l).
    + destruct (a !! ip) as [l|]; [|done]. cbn in *. pose proof (fresh_le now l). destruct (fresh_attempts now l) eqn:E; cbn in *; lia.
Qed.
(** However attempts and clean-ups follow each other, an address is let through at most five times in any minute. *)
Theorem enroll_rate_bound ip last ops a log t :
  times_sorted last ops → foldl (astep ip) (∅, []) ops = (a, log) → Forall (λ o, aop_time o ≤ t) ops → last ≤ t →
  (length (List.filter (λ x, (t - Minute <? x)%Z) log) ≤ 5)%nat.
Proof.
  intros Hs E Hops Hlast.
  assert (∀ st last, alog_ok ip last st → times_sorted last ops → last ≤ t → ∃ last', last' ≤ t ∧ alog_ok ip last' (foldl (astep ip) st ops)) as Hrun.
  { clear E Hs Hlast. induction Hops as [|o ops Ho _ IH]; intros st l Hok Hs Hl; [by exists l|]. destruct Hs as [H1 H2]. cbn. apply (IH _ (aop_time o)); [by apply (astep_ok ip l)|done|done]. }
  destruct (Hrun (∅, []) last) as (last' & Hl' & [Hf Hb]); [by split; cbn; rewrite lookup_empty; cbn; [|lia]|done|done|]. rewrite E in Hf, Hb. cbn in *.
  specialize (Hf t Hl'). assert (List.filter (λ x, t - Minute <? x) log = fresh_attempts t log) as ->.
  { unfold fresh_attempts. apply List.filter_ext. intros x. rewrite time_sub_lt by (unfold int64_min, int64_max, enrollRateLimitWindow, Minute, Second; lia).
    unfold enrollRateLimitWindow. destruct (t - Minute <? x) eqn:E1, (t - x <? Minute) eqn:E2; bprop; done || lia. }
  rewrite Hf. pose proof (fresh_le t (default [] (a !! ip))). lia.
Qed.

(** ** Examples *)

#[local] Existing Instances toy_x509 toy_vault bit_cluster toy_sha256 no_geo plain_time.
Definition test_plane : Plane := mkPlane (newHAState None) test_cluster test_ca ∅ false "cp:50051" ∅.
Definition enroll_edge2 : Plane * (Code + EnrollResponse) :=
  Enroll test_plane (mkCtx PeerNoCert (Some "10.1.2.3:40000")) Day (λ _, 2 * Day) Written Written Written (Some 17)
    (Some (mkEnrollRequest "tok" "edge-2" "edge-2")).

Definition renew_edge1 := RenewCert test_plane (mkCtx (PeerCert "a1") None) Day (λ _, 2 * Day) Written Written (Some 18) (Some ("edge-1", "edge-1")).
Lemma renew_sound_witness :
  ∃ n, GetNode (pl_store renew_edge1.1) "edge-1" = Some n ∧
    en_CertSerial n = "12".
Proof.
  destruct (renew_sound (mkDisk None None) test_plane (mkCtx (PeerCert "a1") None) Day (λ _, 2 * Day) Written Written (Some 18) (Some ("edge-1", "edge-1"))
    renew_edge1.1 (toy_text (mkTemplate 18 "edge-1" (2 * Day - 5 * Minute) (367 * Day) false) "csr-key") [pem1] 0) as
    (id & csr & n & leaf & cert & serial & expiry & [= <- <-] & _ & _ & _ & _ & _ & _ & _ & _ & Hn & _);
    [apply test_ca_reach|done|apply pair_snd; by vm_compute|].
  eexists. split; [exact Hn|]. cbn. apply (f_equal (fmap en_CertSerial)) in Hn. vm_compute in Hn. by injection Hn as <-.
Defined.
Lemma enroll_rate_bound_witness :
  let ops := [AAllow 1 "h"; AAllow 2 "h"; AAllow 3 "h"; AAllow 4 "h"; AAllow 5 "h"; AAllow 6 "h"; ACleanup 7; AAllow 8 "h"] in
  (length (List.filter (λ x, (9 - Minute <? x)%Z) (foldl (astep "h") (∅, []) ops).2) ≤ 5)%nat.
Proof.
  apply (enroll_rate_bound "h" 0 [AAllow 1 "h"; AAllow 2 "h"; AAllow 3 "h"; AAllow 4 "h"; AAllow 5 "h"; AAllow 6 "h"; ACleanup 7; AAllow 8 "h"]
    (foldl (astep "h") (∅, []) [AAllow 1 "h"; AAllow 2 "h"; AAllow 3 "h"; AAllow 4 "h"; AAllow 5 "h"; AAllow 6 "h"; ACleanup 7; AAllow 8 "h"]).1);
    [cbn; lia|by apply surjective_pairing|repeat constructor; cbn; lia|lia].
Defined.
