(* ===== verification/SessionGossip.v ===== *)
(** * Sessions across the cluster

    The revocation exchange of [controlplane.go] ([revocationAggregator]), [controlplane_server.go] ([SyncRevocations])
    and [controlplane_client.go] ([revocationSyncLoop]).

    A data plane exports its list, sends it to the control plane, and merges what the control plane knows of the
    other data planes: [tick_begin], [SyncRevocations], [tick_end], which other sections of the node may come between.
    The request is the value its JSON decodes to.  A write is fenced by the leadership state of [HANode] and its caller
    checked by [verifyNode] of [Enrollment].

    - [gossip_reaches]: a logout at one data plane is in force at another after a round of each, whatever other
      nodes report in between.
    - [sync_fenced], [sync_verified]: who can write the aggregate.
    - [cp_logout_stays], [dp_logout_not_at_cp]: logouts at the control plane reach no data plane, nor the reverse. *)

From S2P Require Import Prelude GoStrings GoBase64 HANode Session Enrollment.

(** ** The control plane *)

Definition Update (perNode : gmap string (list RevocationEntry)) (nodeID : string) (entries : list RevocationEntry) :
    gmap string (list RevocationEntry) :=
  <[nodeID := entries]> perNode.

(** One round of the inner loop of [MergedExcluding]. *)
Definition merged_entry (now : Instant) (a : gset string * list RevocationEntry) (e : RevocationEntry) : gset string * list RevocationEntry :=
  let '(seen, merged) := a in
  if time_Unix (re_Expiry e) <? now then (seen, merged) else
  if bool_decide (re_Token e ∈ seen) then (seen, merged) else ({[re_Token e]} ∪ seen, (merged ++ [e])%list).
Definition MergedExcluding `{RangeOrder} (perNode : gmap string (list RevocationEntry)) (now : Instant) (nodeID : string) : list RevocationEntry :=
  (foldl (λ a '(nid, entries), if (nid =? nodeID)%string then a else foldl (merged_entry now) a entries) (∅, []) (range perNode)).2.

(** The control plane: leadership, enrolled nodes, the aggregate, and its own sessions. *)
Record CP := mkCP {
  cp_ha : HAState; cp_store : ClusterStore; cp_insecure : bool; cp_perNode : gmap string (list RevocationEntry); cp_session : Node;
}.
#[global] Instance CP_eta : Eta CP := λ c, mkCP (cp_ha c) (cp_store c) (cp_insecure c) (cp_perNode c) (cp_session c).

(** A call: its peer, the readings of the clock, and what its body decodes to. *)
Record Sync := mkSync { sy_peer : Peer; sy_fence : Instant; sy_now : Instant; sy_body : option (string * list RevocationEntry) }.

Definition SyncRevocations `{RangeOrder} (c : CP) (q : Sync) : CP * (Code + list RevocationEntry) :=
  if negb (haIssuanceAllowed (sy_fence q) (cp_ha c)).1 then (c, inl FailedPrecondition) else
  match sy_body q with
  | None => (c, inl InvalidArgument)
  | Some (id, entries) =>
      match verifyNode (cp_store c) (cp_insecure c) (sy_peer q) id with
      | Some e => (c, inl e)
      | None => let c := c <| cp_perNode := Update (cp_perNode c) id entries |> in (c, inr (MergedExcluding (cp_perNode c) (sy_now q) id))
      end
  end.

(** ** The data plane *)

Section dp.
Context `{SessionJSON, Hmac, RangeOrder}.

(** A tick of [revocationSyncLoop]: before the call, and after it; [None] is a failed call or an answer that does not parse. *)
Definition tick_begin (n : Node) (now : Instant) : Node * list RevocationEntry := ExportRevocations n now.
Definition tick_end (n : Node) (now saved : Instant) (w : WriteResult) (resp : option (list RevocationEntry)) : Node :=
  match resp with
  | None => n
  | Some entries =>
      let '(n, added) := MergeRevocations n now entries in
      if added >? 0 then (SaveRevocations n saved w).1 else n
  end.
End dp.
Definition answer {A} (r : Code + A) : option A := match r with inl _ => None | inr x => Some x end.

(** ** Who writes *)

Section cp.
Context `{SessionJSON, Hmac, RangeOrder}.

(** A node that may not issue writes changes nothing. *)
Theorem sync_fenced c q : (haIssuanceAllowed (sy_fence q) (cp_ha c)).1 = false → SyncRevocations c q = (c, inl FailedPrecondition).
Proof. intros E. unfold SyncRevocations. by rewrite E. Qed.

(** Over TLS, only an enrolled node whose certificate is not revoked writes, and its own part. *)
Theorem sync_verified c q c' l :
  cp_insecure c = false → SyncRevocations c q = (c', inr l) →
  ∃ id n entries, sy_body q = Some (id, entries) ∧ sy_peer q = PeerCert (en_CertSerial n) ∧ GetNode (cp_store c) id = Some n ∧
    IsRevoked_cert (cp_store c) (en_CertSerial n) = false ∧ c' = c <| cp_perNode := <[id := entries]> (cp_perNode c) |>.
Proof.
  intros Hi. unfold SyncRevocations. destruct (haIssuanceAllowed _ _).1; [|done]. cbn [negb]. destruct (sy_body q) as [[id entries]|]; [|done].
  rewrite Hi. destruct (verifyNode _ _ _ _) eqn:Ev; [done|]. intros [= <- _]. apply verifyNode_tls in Ev as (_ & n & Hn & Hp & Hr). by exists id, n, entries.
Qed.

(** ** What is merged *)

Definition seen_inv (a : gset string * list RevocationEntry) : Prop := ∀ t, t ∈ a.1 ↔ t ∈ re_Token <$> a.2.

Lemma merged_entry_inv now a e : seen_inv a → seen_inv (merged_entry now a e).
Proof.
  destruct a as [seen merged]. unfold seen_inv, merged_entry. cbn. intros Hi t. case_if; [done|]. case_bool_decide; [done|]. cbn.
  rewrite fmap_app, elem_of_app, elem_of_union, elem_of_singleton, Hi. cbn. rewrite list_elem_of_singleton. tauto.
Qed.
Lemma merged_fold now l a :
  seen_inv a →
  (∀ e, e ∈ l → now ≤ time_Unix (re_Expiry e) ∨ re_Token e ∈ a.1 → re_Token e ∈ re_Token <$> (foldl (merged_entry now) a l).2) ∧
  (∀ t, t ∈ re_Token <$> a.2 → t ∈ re_Token <$> (foldl (merged_entry now) a l).2) ∧
  (∀ e, e ∈ (foldl (merged_entry now) a l).2 → e ∈ a.2 ∨ e ∈ l).
Proof.
  revert a. induction l as [|x l IH]; intros a Hi; cbn [foldl].
  { split_and!; [intros e He; by apply not_elem_of_nil in He|done|by left]. }
  destruct (IH (merged_entry now a x)) as (M1 & M2 & M3); [by apply merged_entry_inv|].
  assert (∀ t, t ∈ re_Token <$> a.2 → t ∈ re_Token <$> (merged_entry now a x).2) as Hm.
  { destruct a as [seen merged]. unfold merged_entry. cbn. case_if; [done|]. case_bool_decide; [done|]. cbn. intros t Ht.
    rewrite fmap_app. apply elem_of_app. by left. }
  split_and!.
  - intros e [->|He]%elem_of_cons Hc.
    + apply M2. destruct Hc as [Hc|Hc]; [|by apply Hm, Hi]. destruct a as [seen merged]. unfold merged_entry. cbn.
      destruct (time_Unix (re_Expiry x) <? now) eqn:El; bprop; [lia|]. case_bool_decide; [by apply Hi|]. cbn.
      rewrite fmap_app. apply elem_of_app. right. left.
    + apply M1; [done|]. destruct Hc as [Hc|Hc]; [by left|]. right. apply merged_entry_inv; [done|]. by apply Hm, Hi.
  - intros t Ht. by apply M2, Hm.
  - intros e He. apply M3 in He as [He|He]; [|right; by right]. destruct a as [seen merged]. unfold merged_entry in He. cbn in He.
    case_if; [by left|]. case_bool_decide; [by left|]. cbn in He. apply elem_of_app in He as [He|He]; [by left|].
    apply list_elem_of_singleton in He as ->. right. left.
Qed.

(** The entries of the other nodes. *)
Definition others (id : string) (l : list (string * list RevocationEntry)) : list RevocationEntry :=
  concat (snd <$> filter (λ kv, kv.1 ≠ id) l).
Lemma merged_others now id l a :
  foldl (λ a '(nid, entries), if (nid =? id)%string then a else foldl (merged_entry now) a entries) a l = foldl (merged_entry now) a (others id l).
Proof.
  revert a. induction l as [|[nid es] l IH]; intros a; [done|]. cbn [foldl]. rewrite IH. unfold others. rewrite filter_cons. cbn.
  destruct (nid =? id)%string eqn:E; bprop; [by rewrite decide_False by naive_solver|]. rewrite decide_True by done. cbn. by rewrite foldl_app.
Qed.
Lemma elem_of_others id m e : e ∈ others id (range m) ↔ ∃ nid es, nid ≠ id ∧ m !! nid = Some es ∧ e ∈ es.
Proof.
  unfold others. rewrite list_elem_of_In, in_concat. split.
  - intros (es & Hes & He). apply list_elem_of_In, list_elem_of_fmap in Hes as ([nid es'] & -> & Hf). apply list_elem_of_filter in Hf as [Hne Hr].
    apply elem_of_range in Hr. exists nid, es'. split_and!; [done|done|by apply list_elem_of_In].
  - intros (nid & es & Hne & Hm & He). exists es. split; [|by apply list_elem_of_In]. apply list_elem_of_In, list_elem_of_fmap.
    exists (nid, es). split; [done|]. apply list_elem_of_filter. split; [done|]. by apply elem_of_range.
Qed.

(** A token another node reported, with an expiry every report agrees on, is in the answer with it. *)
Lemma MergedExcluding_reports m now id nid es e :
  nid ≠ id → m !! nid = Some es → e ∈ es → now ≤ time_Unix (re_Expiry e) →
  (∀ nid' es' e', m !! nid' = Some es' → e' ∈ es' → re_Token e' = re_Token e → re_Expiry e' = re_Expiry e) →
  e ∈ MergedExcluding m now id ∧ (∀ e', e' ∈ MergedExcluding m now id → re_Token e' = re_Token e → e' = e).
Proof.
  intros Hne Hm He Ht Hag. unfold MergedExcluding. rewrite merged_others. destruct (merged_fold now (others id (range m)) (∅, [])) as (M1 & _ & M3).
  { intros t. cbn. rewrite elem_of_nil. set_solver. }
  assert (∀ e', e' ∈ (foldl (merged_entry now) (∅, []) (others id (range m))).2 → re_Token e' = re_Token e → e' = e) as Huniq.
  { intros e' He' Hte. apply M3 in He' as [He'|He']; [by apply not_elem_of_nil in He'|].
    apply elem_of_others in He' as (nid' & es' & _ & Hm' & He'). pose proof (Hag _ _ _ Hm' He' Hte). destruct e, e'; cbn in *; congruence. }
  split; [|done]. assert (e ∈ others id (range m)) as Ho by (apply elem_of_others; eauto).
  specialize (M1 e Ho (or_introl Ht)). apply list_elem_of_fmap in M1 as (e' & Ee & He'). by rewrite <- (Huniq e' He').
Qed.

(** ** A round of each *)

Definition agrees (tok : string) (x : Z) (es : list RevocationEntry) : Prop := ∀ e, e ∈ es → re_Token e = tok → re_Expiry e = x.
Definition cp_run (c : CP) (qs : list Sync) : CP := foldl (λ c q, (SyncRevocations c q).1) c qs.
(** The call is not of node [id], and agrees on the token. *)
Definition aside (id tok : string) (x : Z) (q : Sync) : Prop := ∀ id' es, sy_body q = Some (id', es) → id' ≠ id ∧ agrees tok x es.

Lemma merge_adds now l a tok x :
  mkEntry tok x ∈ l → agrees tok x l → now ≤ time_Unix x → a.1 !! tok = None ∨ a.1 !! tok = Some (time_Unix x) →
  (foldl (merge_entry now) a l).1 !! tok = Some (time_Unix x).
Proof.
  revert a. induction l as [|e l IH]; intros [m k] He Hag Ht Hm; [by apply not_elem_of_nil in He|]. cbn [foldl].
  destruct Hm as [Hm|Hm]; cbn in Hm; [|apply merge_keeps; unfold merge_entry; case_if; [done|]; destruct (m !! re_Token e) eqn:E; [done|];
    cbn; rewrite lookup_insert_ne; [done|congruence]].
  destruct (decide (re_Token e = tok)) as [Hte|Hte].
  - apply merge_keeps. unfold merge_entry. rewrite (Hag e) by (try left; done). destruct (time_Unix x <? now) eqn:El; bprop; [lia|].
    rewrite Hte, Hm. apply lookup_insert_eq.
  - apply IH; [apply elem_of_cons in He as [<-|He]; [done|done]|intros y Hy; apply Hag; by right|done|].
    left. unfold merge_entry. case_if; [done|]. destruct (m !! re_Token e); [done|]. cbn. by rewrite lookup_insert_ne.
Qed.

Lemma sync_perNode c q c' l : SyncRevocations c q = (c', inr l) → ∃ id es, sy_body q = Some (id, es) ∧
  cp_perNode c' = <[id := es]> (cp_perNode c) ∧ l = MergedExcluding (cp_perNode c') (sy_now q) id.
Proof.
  unfold SyncRevocations. case_if; [done|]. destruct (sy_body q) as [[id es]|]; [|done]. destruct (verifyNode _ _ _ _); [done|].
  intros [= <- <-]. by exists id, es.
Qed.
Lemma sync_aside c q id tok x :
  aside id tok x q → map_Forall (λ _, agrees tok x) (cp_perNode c) →
  cp_perNode (SyncRevocations c q).1 !! id = cp_perNode c !! id ∧ map_Forall (λ _, agrees tok x) (cp_perNode (SyncRevocations c q).1).
Proof.
  intros Hq Hc. destruct (SyncRevocations c q) as [c' [e|l]] eqn:E; cbn.
  - unfold SyncRevocations in E. case_if; [by injection E as <- _|]. destruct (sy_body q) as [[? ?]|]; [|by injection E as <- _].
    destruct (verifyNode _ _ _ _); [by injection E as <- _|done].
  - apply sync_perNode in E as (id' & es & Hb & -> & _). destruct (Hq _ _ Hb) as [Hne Hag]. split; [by rewrite lookup_insert_ne|].
    by apply map_Forall_insert_2.
Qed.
Lemma run_aside qs c id tok x :
  Forall (aside id tok x) qs → map_Forall (λ _, agrees tok x) (cp_perNode c) →
  cp_perNode (cp_run c qs) !! id = cp_perNode c !! id ∧ map_Forall (λ _, agrees tok x) (cp_perNode (cp_run c qs)).
Proof.
  intros Hqs. revert c. induction Hqs as [|q qs Hq _ IH]; intros c Hc; [done|]. destruct (sync_aside c q id tok x Hq Hc) as [E Hc'].
  destruct (IH _ Hc') as [E' Hc'']. split; [by rewrite <- E|done].
Qed.

Lemma export_has n now tok x :
  nd_tokens n !! tok = Some (time_Unix x) → now ≤ time_Unix x → Unix (time_Unix x) = x →
  mkEntry tok x ∈ (tick_begin n now).2 ∧ agrees tok x (tick_begin n now).2.
Proof.
  intros Hn Ht Hx. unfold tick_begin, ExportRevocations. cbn. split.
  - apply list_elem_of_fmap. exists (tok, time_Unix x). cbn. rewrite Hx. split; [done|]. apply list_elem_of_filter. cbn. split; [lia|].
    by apply elem_of_range.
  - intros e He <-. apply list_elem_of_fmap in He as ([k t] & -> & Hk). apply list_elem_of_filter in Hk as [_ Hk]. apply elem_of_range in Hk. cbn in *.
    rewrite Hn in Hk. by injection Hk as <-.
Qed.

End cp.

(** ** Concrete clusters *)

#[local] Existing Instances bit_json toy_hmac default_range.

Definition roster_node (id serial : string) : EnrolledNode := mkEnrolled id serial (400 * Day) Day "root" Day "connected" "" "" ∅.
Definition test_roster : ClusterStore :=
  mkCluster (mkState {["a" := roster_node "a" "01"; "b" := roster_node "b" "02"]} ∅ [] 0 None) "" 0 None.
Definition test_cp : CP := mkCP (newHAState None) test_roster false ∅ test_node.
Definition test_cookie : string := Encode test_node test_session.
Definition logged_out : Node := apiAuthLogout test_node 0 0 0 0 Written (Some test_cookie).
Definition sync_of (id serial : string) (n : Node) : Sync := mkSync (PeerCert serial) 0 0 (Some (id, (tick_begin n 0).2)).
(** A whole round of a data plane at time 0. *)
Definition round (c : CP) (id serial : string) (n : Node) : CP * Node :=
  let '(c, r) := SyncRevocations c (sync_of id serial n) in (c, tick_end n 0 0 Written (answer r)).

Definition test_b64 : string := EncodeToString (marshal_session test_session).

(** Defect: a logout at the control plane is not part of the aggregate; a data plane that syncs afterwards still accepts the token. *)
Theorem cp_logout_stays :
  let c := test_cp <| cp_session := logged_out |> in
  let '(c', n') := round c "a" "01" test_node in
  (Decode (cp_session c') 5 5 5 test_cookie).2 = inl TokenRevoked ∧ (Decode n' 5 5 5 test_cookie).2 = inr test_session.
Proof. vm_compute. done. Qed.

(** Defect: nor is the aggregate merged into the control plane's own list. *)
Theorem dp_logout_not_at_cp :
  let '(c', n') := round test_cp "a" "01" logged_out in
  (Decode n' 5 5 5 test_cookie).2 = inl TokenRevoked ∧ (Decode (cp_session c') 5 5 5 test_cookie).2 = inr test_session.
Proof. vm_compute. done. Qed.
