(* ===== verification/AuthCache.v ===== *)
(** * The credential cache ([store.go]: [authCacheStore])

    Verdicts of password checks by key, five minutes each, with the keys of each client in order so that a full
    cache can drop the oldest entry of the client that holds most.  All of it is under one lock: an operation is a
    function of the store.  [range] over the buckets is in an order the class [RangeOrder] leaves open.

    - [cache_bounded]: what [set], [clear] and [get] keep: at most [maxAuthCacheSize] entries, every entry in the queue of
      its client, every bucket's count exact and positive.
    - [evict_fair]: with no expired entry, the victim is of a client that holds most; whatever the order of the map.
    - [set_get]: what was stored is read back until it expires.
    - [frame_injective]: the framing of name and password is injective, which [user ++ ":" ++ pass] was not.
    - [refreshed_goes_first]: an entry that was verified again keeps its old place in the queue, and is dropped first;
      [queue_grows]: such places are never given up. *)

From S2P Require Import Prelude GoStrings GoBase64 Session.

Definition authCacheTTL : Duration := 5 * Minute.
Definition maxAuthCacheSize : Z := 5000.

Record authCacheEntry := mkCached { ce_ok : bool; ce_expiry : Instant; ce_client : string; ce_added : Instant }.
Record authCacheBucket := mkBucket { bk_keys : list string; bk_head : nat; bk_live : Z }.
#[global] Instance Bucket_eta : Eta authCacheBucket := λ b, mkBucket (bk_keys b) (bk_head b) (bk_live b).
Record authCacheStore := mkCache { ac_entries : gmap string authCacheEntry; ac_buckets : gmap string authCacheBucket; ac_evictions : Z }.
#[global] Instance Cache_eta : Eta authCacheStore := λ a, mkCache (ac_entries a) (ac_buckets a) (ac_evictions a).
Definition empty_cache : authCacheStore := mkCache ∅ ∅ 0.

(** ** Keys *)

(** [binary.BigEndian.PutUint64], and a field with its length before it. *)
Definition PutUint64 (v : Z) : string :=
  string_of_list_ascii ((λ k, byte_of (Z.shiftr (v mod 2 ^ 64) k)) <$> [56; 48; 40; 32; 24; 16; 8; 0]).
Definition frame (s : string) : string := PutUint64 (Z.of_nat (String.length s)) ++ s.
Definition framed (user pass : string) : string := frame user ++ frame pass.
Definition cacheKey `{Hmac} (secret : string) (user pass : string) : string := hex_EncodeToString (hmac_sha256 secret (framed user pass)).

(** ** The store *)

Definition cache_get (a : authCacheStore) (now : Instant) (k : string) : bool * bool :=
  match ac_entries a !! k with
  | Some e => if now <? ce_expiry e then (ce_ok e, true) else (false, false)
  | None => (false, false)
  end.

Definition removeLocked (a : authCacheStore) (k : string) : authCacheStore :=
  match ac_entries a !! k with
  | None => a
  | Some e =>
      let a := a <| ac_entries := delete k (ac_entries a) |> in
      match ac_buckets a !! ce_client e with
      | None => a
      | Some b =>
          let b := b <| bk_live := bk_live b - 1 |> in
          if bk_live b <=? 0 then a <| ac_buckets := delete (ce_client e) (ac_buckets a) |>
          else a <| ac_buckets := <[ce_client e := b]> (ac_buckets a) |>
      end
  end.

(** The key is of an entry the client holds. *)
Definition held (a : authCacheStore) (client k : string) : option authCacheEntry :=
  match ac_entries a !! k with
  | Some e => if (ce_client e =? client)%string then Some e else None
  | None => None
  end.
(** The loop of [frontLocked] over the keys from [head] on. *)
Fixpoint front_loop (a : authCacheStore) (client : string) (keys : list string) (head : nat) : nat * option (string * authCacheEntry) :=
  match keys with
  | [] => (head, None)
  | k :: keys => match held a client k with Some e => (head, Some (k, e)) | None => front_loop a client keys (S head) end
  end.
Definition frontLocked (a : authCacheStore) (client : string) (b : authCacheBucket) : authCacheBucket * option (string * authCacheEntry) :=
  let '(head, r) := front_loop a client (drop (bk_head b) (bk_keys b)) (bk_head b) in (b <| bk_head := head |>, r).

Definition betterAuthCacheVictim (live : Z) (added : Instant) (client : string) (bestLive : Z) (bestAdded : Instant) (bestClient : string) : bool :=
  if negb (live =? bestLive) then bestLive <? live
  else if negb (added =? bestAdded) then added <? bestAdded
  else str_lt client bestClient.

Record victim := mkVictim { v_key : string; v_client : string; v_live : Z; v_added : Instant }.

(** The loop of [evictOneLocked] over the buckets: the first expired front is dropped at once. *)
Fixpoint evict_loop (a : authCacheStore) (now : Instant) (l : list (string * authCacheBucket)) (best : option victim) : authCacheStore :=
  match l with
  | [] =>
      match best with
      | None => a
      | Some v => let a := removeLocked a (v_key v) in a <| ac_evictions := ac_evictions a + 1 |>
      end
  | (client, b) :: l =>
      let '(b, front) := frontLocked a client b in
      let a := a <| ac_buckets := <[client := b]> (ac_buckets a) |> in
      match front with
      | None => evict_loop a now l best
      | Some (k, e) =>
          if ce_expiry e <? now then let a := removeLocked a k in a <| ac_evictions := ac_evictions a + 1 |> else
          let better := match best with
                        | None => true
                        | Some v => betterAuthCacheVictim (bk_live b) (ce_added e) client (v_live v) (v_added v) (v_client v)
                        end in
          evict_loop a now l (if better then Some (mkVictim k client (bk_live b) (ce_added e)) else best)
      end
  end.
Definition evictOneLocked `{RangeOrder} (a : authCacheStore) (now : Instant) : authCacheStore := evict_loop a now (range (ac_buckets a)) None.

Definition compactLocked (a : authCacheStore) (client : string) (b : authCacheBucket) : authCacheStore :=
  let n := Z.of_nat (length (bk_keys b)) in
  if (n <=? 8) || (n <? 4 * bk_live b) then a else
  let kept := filter (λ k, is_Some (held a client k)) (drop (bk_head b) (bk_keys b)) in
  if bool_decide (kept = []) then a <| ac_buckets := delete client (ac_buckets a) |>
  else a <| ac_buckets := <[client := mkBucket kept 0 (bk_live b)]> (ac_buckets a) |>.

(** [set]: first what makes room for the key, then the new entry. *)
Definition make_room `{RangeOrder} (a : authCacheStore) (now : Instant) (k : string) : authCacheStore :=
  let a := match ac_entries a !! k with Some _ => removeLocked a k | None => a end in
  if maxAuthCacheSize <=? Z.of_nat (size (ac_entries a)) then evictOneLocked a now else a.
Definition add_entry (a : authCacheStore) (now : Instant) (client k : string) (ok : bool) : authCacheStore :=
  let a := a <| ac_entries := <[k := mkCached ok (now + authCacheTTL) client now]> (ac_entries a) |> in
  let b := default (mkBucket [] 0 0) (ac_buckets a !! client) in
  let b := b <| bk_keys := (bk_keys b ++ [k])%list |> <| bk_live := bk_live b + 1 |> in
  compactLocked (a <| ac_buckets := <[client := b]> (ac_buckets a) |>) client b.
Definition cache_set `{RangeOrder} (a : authCacheStore) (now : Instant) (client k : string) (ok : bool) : authCacheStore :=
  add_entry (make_room a now k) now client k ok.

Definition cache_clear (a : authCacheStore) : authCacheStore := mkCache ∅ ∅ (ac_evictions a).

(** ** Framing *)

Lemma PutUint64_length v : String.length (PutUint64 v) = 8%nat.
Proof. done. Qed.
Lemma byte_of_low z : byte_val (byte_of z) = z mod 256.
Proof. rewrite <- (byte_of_val (z mod 256)) by (apply Z.mod_pos_bound; lia). unfold byte_of. by rewrite Z.mod_mod by lia. Qed.
Lemma sapp_split (a b s t : string) : String.length a = String.length b → (a ++ s)%string = (b ++ t)%string → a = b ∧ s = t.
Proof.
  revert b. induction a as [|c a IH]; intros [|d b] Hl E; try done. cbn in Hl, E. injection E as -> E. injection Hl as Hl.
  destruct (IH b Hl E) as [-> ->]. done.
Qed.
Lemma shift_step v w k : 0 ≤ k → Z.shiftr v (k + 8) = Z.shiftr w (k + 8) → byte_of (Z.shiftr v k) = byte_of (Z.shiftr w k) → Z.shiftr v k = Z.shiftr w k.
Proof.
  intros Hk. rewrite <- !Z.shiftr_shiftr by lia. rewrite !(Z.shiftr_div_pow2 _ 8) by lia. change (2 ^ 8) with 256. intros Hd Hb.
  apply (f_equal byte_val) in Hb. rewrite !byte_of_low in Hb.
  rewrite (Z.div_mod (Z.shiftr v k) 256), (Z.div_mod (Z.shiftr w k) 256) by lia. congruence.
Qed.
Lemma PutUint64_inj v w : 0 ≤ v < 2 ^ 64 → 0 ≤ w < 2 ^ 64 → PutUint64 v = PutUint64 w → v = w.
Proof.
  intros Hv Hw E. unfold PutUint64 in E. rewrite !Z.mod_small in E by done. cbn [fmap list_fmap string_of_list_ascii] in E.
  injection E as E0 E1 E2 E3 E4 E5 E6 E7. rewrite <- (Z.shiftr_0_r v), <- (Z.shiftr_0_r w).
  do 8 (apply shift_step; [lia| |assumption]). cbn [Z.add Pos.add]. rewrite !Z.shiftr_div_pow2, !Z.div_small by done. done.
Qed.
Lemma frame_inj s s' t t' :
  Z.of_nat (String.length s) < 2 ^ 64 → Z.of_nat (String.length s') < 2 ^ 64 → (frame s ++ t)%string = (frame s' ++ t')%string → s = s' ∧ t = t'.
Proof.
  intros Hs Hs'. unfold frame. rewrite !sapp_assoc. intros E. apply sapp_split in E as [El E]; [|done].
  apply PutUint64_inj in El; [|lia..]. apply sapp_split in E; [done|lia].
Qed.

(** Distinct names or passwords are hashed as distinct texts. *)
Theorem frame_injective user pass user' pass' :
  Z.of_nat (String.length user) < 2 ^ 64 → Z.of_nat (String.length user') < 2 ^ 64 →
  Z.of_nat (String.length pass) < 2 ^ 64 → Z.of_nat (String.length pass') < 2 ^ 64 →
  framed user pass = framed user' pass' → user = user' ∧ pass = pass'.
Proof.
  intros H1 H2 H3 H4 E. unfold framed in E. apply frame_inj in E as [-> E]; [|done..]. split; [done|].
  apply (f_equal (λ s, (s ++ "")%string)) in E. by apply frame_inj in E as [-> _].
Qed.

(** ** The invariant *)

Definition held_by (a : authCacheStore) (c : string) : nat := size (filter (λ kv, ce_client kv.2 = c) (ac_entries a)).

Record cache_wf (a : authCacheStore) : Prop := {
  wf_queued k e : ac_entries a !! k = Some e → ∃ b, ac_buckets a !! ce_client e = Some b ∧ k ∈ drop (bk_head b) (bk_keys b);
  wf_bucket c b : ac_buckets a !! c = Some b → bk_live b = Z.of_nat (held_by a c) ∧ 0 < bk_live b ∧ (bk_head b ≤ length (bk_keys b))%nat;
}.

Lemma held_Some a c k e : held a c k = Some e ↔ ac_entries a !! k = Some e ∧ ce_client e = c.
Proof.
  unfold held. destruct (ac_entries a !! k) as [e'|]; [|naive_solver]. destruct (ce_client e' =? c)%string eqn:E; bprop; naive_solver.
Qed.
Lemma held_by_pos a c : (0 < held_by a c)%nat ↔ ∃ k e, ac_entries a !! k = Some e ∧ ce_client e = c.
Proof.
  unfold held_by. split.
  - intros Hs. destruct (decide (filter (λ kv, ce_client kv.2 = c) (ac_entries a) = ∅)) as [E|E].
    + rewrite E, map_size_empty in Hs. lia.
    + apply map_choose in E as (k & e & E). apply map_lookup_filter_Some in E as [E Ec]. by exists k, e.
  - intros (k & e & E & Ec). apply Nat.neq_0_lt_0. rewrite map_size_non_empty_iff. intros E'.
    assert (filter (λ kv, ce_client kv.2 = c) (ac_entries a) !! k = Some e) as Hl by by apply map_lookup_filter_Some.
    by rewrite E', lookup_empty in Hl.
Qed.
Lemma held_by_delete (m : gmap string authCacheEntry) k e c :
  m !! k = Some e →
  size (filter (λ kv, ce_client kv.2 = c) (delete k m)) =
  (size (filter (λ kv, ce_client kv.2 = c) m) - (if bool_decide (ce_client e = c) then 1 else 0))%nat.
Proof.
  intros E. rewrite map_filter_delete, map_size_delete. case_bool_decide as Hc.
  - rewrite (proj2 (map_lookup_filter_Some _ _ _ _)) by done. cbn. lia.
  - rewrite (proj2 (map_lookup_filter_None _ _ _)); [cbn; lia|]. right. intros x Hx. rewrite E in Hx. by injection Hx as <-.
Qed.
Lemma held_by_insert (m : gmap string authCacheEntry) k e c :
  m !! k = None →
  size (filter (λ kv, ce_client kv.2 = c) (<[k := e]> m)) =
  (size (filter (λ kv, ce_client kv.2 = c) m) + (if bool_decide (ce_client e = c) then 1 else 0))%nat.
Proof.
  intros E. rewrite map_filter_insert. cbn. case_bool_decide as Hc.
  - rewrite decide_True by done. rewrite map_size_insert_None; [lia|]. rewrite map_lookup_filter_None. by left.
  - rewrite decide_False by done. rewrite delete_id by done. lia.
Qed.

Lemma remove_wf a k e : cache_wf a → ac_entries a !! k = Some e →
  cache_wf (removeLocked a k) ∧ ac_entries (removeLocked a k) = delete k (ac_entries a).
Proof.
  intros Hwf E. destruct (wf_queued a Hwf k e E) as (b & Hb & Hk). destruct (wf_bucket a Hwf _ _ Hb) as (Hlive & Hpos & Hhd).
  unfold removeLocked. rewrite E. cbn. rewrite Hb.
  assert (∀ c, held_by (mkCache (delete k (ac_entries a)) ∅ 0) c = (held_by a c - (if bool_decide (ce_client e = c) then 1 else 0))%nat) as Hh.
  { intros c. by apply held_by_delete. }
  assert (ce_client e = ce_client e) as Hrefl by done. pose proof (Hh (ce_client e)) as Hhe. rewrite bool_decide_eq_true_2 in Hhe by done.
  destruct (bk_live b - 1 <=? 0) eqn:El; bprop; cbn; split; try done; constructor; cbn.
  - intros k' e' Hk'. apply lookup_delete_Some in Hk' as [Hne Hk']. destruct (wf_queued a Hwf k' e' Hk') as (b' & Hb' & Hin). exists b'. split; [|done].
    rewrite lookup_delete_ne; [done|]. intros Hc. cut (0 < held_by (mkCache (delete k (ac_entries a)) ∅ 0) (ce_client e))%nat; [lia|].
    apply held_by_pos. exists k', e'. cbn. rewrite lookup_delete_ne by done. done.
  - intros c b' Hc. apply lookup_delete_Some in Hc as [Hne Hc]. destruct (wf_bucket a Hwf _ _ Hc) as (Hl & Hp & Hh').
    split_and!; try done. rewrite Hl. specialize (Hh c). rewrite bool_decide_eq_false_2 in Hh by done. unfold held_by in *. cbn in *. lia.
  - intros k' e' Hk'. apply lookup_delete_Some in Hk' as [Hne Hk']. destruct (wf_queued a Hwf k' e' Hk') as (b' & Hb' & Hin).
    destruct (decide (ce_client e' = ce_client e)) as [Hc|Hc]; [|exists b'; by rewrite lookup_insert_ne].
    rewrite Hc in *. rewrite Hb in Hb'. injection Hb' as <-. exists (b <| bk_live := bk_live b - 1 |>). by rewrite lookup_insert_eq.
  - intros c b' Hc. apply lookup_insert_Some in Hc as [[<- <-]|[Hne Hc]]; cbn.
    + unfold held_by in *. cbn in *. split_and!; [lia|lia|done].
    + destruct (wf_bucket a Hwf _ _ Hc) as (Hl & Hp & Hh'). split_and!; try done. rewrite Hl. specialize (Hh c).
      rewrite bool_decide_eq_false_2 in Hh by done. unfold held_by in *. cbn in *. lia.
Qed.

Lemma front_loop_spec a c keys h h' r :
  front_loop a c keys h = (h', r) →
  (h ≤ h' ≤ h + length keys)%nat ∧ (∀ k, k ∈ keys → is_Some (held a c k) → k ∈ drop (h' - h) keys) ∧
  match r with Some (k, e) => held a c k = Some e | None => ∀ k, k ∈ keys → held a c k = None end.
Proof.
  revert h. induction keys as [|k keys IH]; intros h; cbn [front_loop].
  - intros [= <- <-]. split_and!; [cbn; lia|cbn; lia|intros k Hk; by apply not_elem_of_nil in Hk|intros k Hk; by apply not_elem_of_nil in Hk].
  - destruct (held a c k) as [e|] eqn:E.
    + intros [= <- <-]. rewrite Nat.sub_diag. split_and!; [cbn; lia|cbn; lia|done|done].
    + intros (Hh & Hk & Hr)%IH. cbn [length]. split_and!; [lia|lia| |].
      * intros k' Hin Hs. apply elem_of_cons in Hin as [->|Hin]; [rewrite E in Hs; by destruct Hs|].
        replace (h' - h)%nat with (S (h' - S h)) by lia. by apply Hk.
      * destruct r as [[k' e']|]; [done|]. intros k' [->|Hin]%elem_of_cons; [done|by apply Hr].
Qed.

(** Advancing past keys that are not held changes nothing that matters; a bucket has a front. *)
Lemma front_spec a c b b' r :
  cache_wf a → ac_buckets a !! c = Some b → frontLocked a c b = (b', r) →
  let a' := a <| ac_buckets := <[c := b']> (ac_buckets a) |> in
  cache_wf a' ∧ bk_live b' = bk_live b ∧ ∃ k e, r = Some (k, e) ∧ ac_entries a !! k = Some e ∧ ce_client e = c.
Proof.
  intros Hwf Hb. unfold frontLocked. destruct (front_loop a c _ _) as [h r'] eqn:El. intros [= <- <-].
  destruct (wf_bucket a Hwf _ _ Hb) as (Hl & Hp & Hh). apply front_loop_spec in El as (Hr & Hk & Hf). rewrite length_drop in Hr. cbn. split_and!.
  - constructor; cbn.
    + intros k e E. destruct (wf_queued a Hwf k e E) as (b1 & Hb1 & Hin). destruct (decide (ce_client e = c)) as [Hc|Hc].
      * subst c. rewrite Hb in Hb1. injection Hb1 as <-. eexists. rewrite lookup_insert_eq. split; [done|]. cbn.
        assert (is_Some (held a (ce_client e) k)) as Hs by (exists e; by apply held_Some). specialize (Hk k Hin Hs).
        rewrite drop_drop in Hk. by replace (bk_head b + (h - bk_head b))%nat with h in Hk by lia.
      * exists b1. by rewrite lookup_insert_ne.
    + intros c' b1 Hc'. apply lookup_insert_Some in Hc' as [[<- <-]|[_ Hc']]; [|by apply (wf_bucket a Hwf)]. cbn. split_and!; [done|done|lia].
  - done.
  - destruct r' as [[k e]|].
    + apply held_Some in Hf as [? ?]. by exists k, e.
    + assert (0 < held_by a c)%nat as (k & e & E & Hc)%held_by_pos by lia. destruct (wf_queued a Hwf k e E) as (b1 & Hb1 & Hin).
      subst c. rewrite Hb in Hb1. injection Hb1 as <-. specialize (Hf k Hin). assert (held a (ce_client e) k = Some e) by by apply held_Some. congruence.
Qed.

Definition best_ok (a : authCacheStore) (best : option victim) : Prop :=
  match best with
  | None => True
  | Some v => ∃ e, ac_entries a !! v_key v = Some e ∧ ce_client e = v_client v ∧ v_live v = Z.of_nat (held_by a (v_client v))
  end.
(** The victim [e] holds at least as much as the best so far and the buckets to come. *)
Definition dominates (a : authCacheStore) (l : list (string * authCacheBucket)) (best : option victim) (e : authCacheEntry) : Prop :=
  (∀ c b, (c, b) ∈ l → (held_by a c ≤ held_by a (ce_client e))%nat) ∧
  match best with None => True | Some v => v_live v ≤ Z.of_nat (held_by a (ce_client e)) end.

Lemma better_live live added client bl ba bc :
  if betterAuthCacheVictim live added client bl ba bc then bl ≤ live else live ≤ bl.
Proof. unfold betterAuthCacheVictim. destruct (live =? bl) eqn:E; bprop; cbn; [|destruct (bl <? live) eqn:?; bprop; lia]. repeat case_if; lia. Qed.

Lemma cache_evict_loop now l best a :
  cache_wf a → NoDup l.*1 → (∀ c b, (c, b) ∈ l → ac_buckets a !! c = Some b) → best_ok a best →
  cache_wf (evict_loop a now l best) ∧
  (best = None ∧ l = [] ∧ evict_loop a now l best = a ∨
   ∃ k e, ac_entries a !! k = Some e ∧ ac_entries (evict_loop a now l best) = delete k (ac_entries a) ∧
     (ce_expiry e < now ∨ dominates a l best e)).
Proof.
  revert a best. induction l as [|[c b] l IH]; intros a best Hwf Hnd Hin Hbest; cbn [evict_loop].
  - destruct best as [v|]; [|split; [done|by left]]. destruct Hbest as (e & He & Hc & Hl). destruct (remove_wf a _ _ Hwf He) as [[H1 H2] Hd].
    split; [by constructor|]. right. exists (v_key v), e. split_and!; [done|done|]. right. split; [intros ? ? Hx; by apply not_elem_of_nil in Hx|].
    rewrite Hl, Hc. lia.
  - apply NoDup_cons in Hnd as [Hnc Hnd]. assert (ac_buckets a !! c = Some b) as Hb by (apply Hin; left).
    destruct (frontLocked a c b) as [b' r] eqn:Ef. destruct (front_spec a c b b' r Hwf Hb Ef) as (Hwf' & Hlive & k & e & -> & He & Hce).
    destruct (wf_bucket a Hwf _ _ Hb) as (Hl & _ & _). set (a' := a <| ac_buckets := <[c := b']> (ac_buckets a) |>) in *.
    destruct (ce_expiry e <? now) eqn:Ex; bprop.
    + destruct (remove_wf a' k e Hwf' He) as [[H1 H2] Hd]. split; [by constructor|]. right. exists k, e. split_and!; [done|done|by left].
    + set (best' := if match best with None => true | Some v => _ end then _ else best).
      assert (best_ok a' best' ∧ (∃ v, best' = Some v) ∧
        ∀ e', dominates a' l best' e' → dominates a ((c, b) :: l) best e') as (Hok & [v Hv] & Hdom).
      { subst best'. rewrite Hlive.
        assert (∀ e', dominates a' l (Some (mkVictim k c (bk_live b) (ce_added e))) e' →
          match best with None => True | Some v => v_live v ≤ bk_live b end → dominates a ((c, b) :: l) best e') as Hnew.
        { intros e' [D1 D2] Hv. cbn in D2. rewrite Hl in D2. split; [|destruct best; [|done]; change (held_by a') with (held_by a) in D2; rewrite Hl in Hv; cbn in *; unfold held_by in *; cbn in *; lia].
          intros c1 b1 [[= -> ->]|Hc1]%elem_of_cons; [unfold held_by in *; cbn in *; lia|by apply (D1 c1 b1)]. }
        destruct best as [v|]; [|split_and!; [exists e; by rewrite Hl|by eexists|intros; by apply Hnew]].
        pose proof (better_live (bk_live b) (ce_added e) c (v_live v) (v_added v) (v_client v)) as Hbt.
        destruct (betterAuthCacheVictim _ _ _ _ _ _).
        - split_and!; [exists e; by rewrite Hl|by eexists|intros; by apply Hnew].
        - split_and!; [done|by eexists|]. intros e' [D1 D2]. split; [|done]. intros c1 b1 [[= -> ->]|Hc1]%elem_of_cons; [|by apply (D1 c1 b1)].
          unfold held_by in *. cbn in *. lia. }
      destruct (IH a' best' Hwf' Hnd) as [Hw Hcase]; [|done|].
      * intros c1 b1 Hc1. cbn. rewrite lookup_insert_ne; [apply Hin; by right|]. intros <-. apply Hnc, list_elem_of_fmap. by exists (c, b1).
      * split; [done|]. right. destruct Hcase as [(Hn & _ & _)|(k1 & e1 & He1 & Hd & Hx)]; [congruence|]. exists k1, e1.
        split_and!; [done|done|]. destruct Hx as [?|Hx]; [by left|right; by apply Hdom].
Qed.

Section bounded.
Context `{RangeOrder}.

Lemma range_fst_NoDup {V} (m : gmap string V) : NoDup (range m).*1.
Proof. rewrite range_perm. apply NoDup_fst_map_to_list. Qed.

(** One entry goes, if there is one. *)
Lemma evict_spec a now :
  cache_wf a →
  cache_wf (evictOneLocked a now) ∧
  (ac_entries a = ∅ ∧ evictOneLocked a now = a ∨
   ∃ k e, ac_entries a !! k = Some e ∧ ac_entries (evictOneLocked a now) = delete k (ac_entries a) ∧
     (ce_expiry e < now ∨ ∀ k' e', ac_entries a !! k' = Some e' → (held_by a (ce_client e') ≤ held_by a (ce_client e))%nat)).
Proof.
  intros Hwf. destruct (cache_evict_loop now (range (ac_buckets a)) None a Hwf (range_fst_NoDup _)) as [Hw Hc]; [intros c b; apply elem_of_range|done|].
  split; [done|]. destruct Hc as [(_ & Hr & He)|(k & e & Hk & Hd & Hx)].
  - left. split; [|done]. destruct (decide (ac_entries a = ∅)) as [|Hne]; [done|]. apply map_choose in Hne as (k & e & Hk).
    destruct (wf_queued a Hwf k e Hk) as (b & Hb & _). apply elem_of_range in Hb. rewrite Hr in Hb. by apply not_elem_of_nil in Hb.
  - right. exists k, e. split_and!; [done|done|]. destruct Hx as [?|[Hx _]]; [by left|]. right. intros k' e' Hk'.
    destruct (wf_queued a Hwf k' e' Hk') as (b & Hb & _). apply (Hx _ b), elem_of_range, Hb.
Qed.

Definition cache_inv (a : authCacheStore) : Prop := cache_wf a ∧ Z.of_nat (size (ac_entries a)) ≤ maxAuthCacheSize.

Lemma compact_wf a c b : cache_wf a → ac_buckets a !! c = Some b → cache_wf (compactLocked a c b) ∧ ac_entries (compactLocked a c b) = ac_entries a.
Proof.
  intros Hwf Hb. unfold compactLocked. case_if; [done|]. set (kept := filter _ _). destruct (wf_bucket a Hwf _ _ Hb) as (Hl & Hp & _).
  assert (∀ k e, ac_entries a !! k = Some e → ce_client e = c → k ∈ kept) as Hkept.
  { intros k e E <-. destruct (wf_queued a Hwf k e E) as (b1 & Hb1 & Hin). rewrite Hb in Hb1. injection Hb1 as <-.
    apply list_elem_of_filter. split; [|done]. exists e. by apply held_Some. }
  case_bool_decide as Hn.
  { assert (0 < held_by a c)%nat as (k & e & E & Hc)%held_by_pos by lia. pose proof (Hkept k e E Hc) as Hx. rewrite Hn in Hx. by apply not_elem_of_nil in Hx. }
  split; [|done]. constructor; cbn.
  - intros k e E. destruct (decide (ce_client e = c)) as [<-|Hc].
    + eexists. rewrite lookup_insert_eq. split; [done|]. cbn. by apply (Hkept k e).
    + destruct (wf_queued a Hwf k e E) as (b1 & Hb1 & Hin). exists b1. by rewrite lookup_insert_ne.
  - intros c' b1 Hc'. apply lookup_insert_Some in Hc' as [[<- <-]|[_ Hc']]; [|by apply (wf_bucket a Hwf)]. cbn. split_and!; [done|done|lia].
Qed.

Lemma add_wf a now client k ok :
  cache_wf a → ac_entries a !! k = None →
  let b := default (mkBucket [] 0 0) (ac_buckets a !! client) in
  let b := b <| bk_keys := (bk_keys b ++ [k])%list |> <| bk_live := bk_live b + 1 |> in
  let a := a <| ac_entries := <[k := mkCached ok (now + authCacheTTL) client now]> (ac_entries a) |> in
  cache_wf (a <| ac_buckets := <[client := b]> (ac_buckets a) |>).
Proof.
  intros Hwf Hk b0 b a1. subst a1. cbn [ac_entries ac_buckets].
  assert ((bk_head b0 ≤ length (bk_keys b0))%nat ∧ bk_live b0 = Z.of_nat (held_by a client)) as [Hh Hl].
  { subst b0. destruct (ac_buckets a !! client) as [b1|] eqn:E; cbn; [destruct (wf_bucket a Hwf _ _ E) as (? & ? & ?); done|].
    split; [lia|]. destruct (held_by a client) eqn:Eh; [done|]. assert (0 < held_by a client)%nat as (k' & e & E' & <-)%held_by_pos by lia.
    destruct (wf_queued a Hwf _ _ E') as (? & ? & _). congruence. }
  pose proof (held_by_insert (ac_entries a) k (mkCached ok (now + authCacheTTL) client now)) as Hi. cbn in Hi. constructor; cbn.
  - intros k' e' E. apply lookup_insert_Some in E as [[<- <-]|[Hne E]]; cbn.
    + exists b. rewrite lookup_insert_eq. split; [done|]. cbn. rewrite drop_app_le by done. apply elem_of_app. right. left.
    + destruct (wf_queued a Hwf _ _ E) as (b1 & Hb1 & Hin). destruct (decide (ce_client e' = client)) as [<-|Hc]; [|exists b1; by rewrite lookup_insert_ne].
      exists b. rewrite lookup_insert_eq. split; [done|]. subst b b0. rewrite Hb1. cbn in *. rewrite Hb1 in Hh. rewrite drop_app_le by done.
      apply elem_of_app. by left.
  - intros c' b1 Hc'. apply lookup_insert_Some in Hc' as [[<- <-]|[Hne Hc']].
    + cbn. rewrite length_app. unfold held_by in *. cbn in *. rewrite Hi, bool_decide_eq_true_2 by done. split_and!; lia.
    + destruct (wf_bucket a Hwf _ _ Hc') as (Hl' & ? & ?). split_and!; try done. unfold held_by in *. cbn in *.
      rewrite Hi, bool_decide_eq_false_2 by done. lia.
Qed.

Lemma max_pos : 1 < maxAuthCacheSize.
Proof. done. Qed.
Lemma make_room_spec a now k :
  cache_inv a → cache_wf (make_room a now k) ∧ ac_entries (make_room a now k) !! k = None ∧
  Z.of_nat (size (ac_entries (make_room a now k))) < maxAuthCacheSize ∧ ac_entries (make_room a now k) ⊆ ac_entries a.
Proof.
  intros [Hwf Hs]. unfold make_room. set (a1 := match ac_entries a !! k with Some _ => removeLocked a k | None => a end).
  assert (cache_wf a1 ∧ ac_entries a1 = delete k (ac_entries a)) as [Hwf1 He1].
  { subst a1. destruct (ac_entries a !! k) eqn:E; [by apply (remove_wf a k a0)|]. by rewrite delete_id. }
  assert (Z.of_nat (size (ac_entries a1)) ≤ maxAuthCacheSize) as Hs1.
  { rewrite He1, map_size_delete. destruct (ac_entries a !! k); cbn; lia. }
  assert (ac_entries a1 !! k = None ∧ ac_entries a1 ⊆ ac_entries a) as [Hk1 Hsub] by (rewrite He1; split; [apply lookup_delete_eq|apply delete_subseteq]).
  destruct (Z.leb_spec maxAuthCacheSize (Z.of_nat (size (ac_entries a1)))); [|by split_and!].
  destruct (evict_spec a1 now Hwf1) as [Hwf2 [[E _]|(k' & e & Hk' & Hd & _)]].
  { pose proof max_pos. rewrite E, map_size_empty in *. lia. }
  rewrite Hd. split_and!; [done|by rewrite lookup_delete_None; right|rewrite map_size_delete, Hk'; pose proof max_pos; cbn [pred]; lia|].
  etrans; [apply delete_subseteq|done].
Qed.

Lemma cache_set_spec a now client k ok :
  cache_inv a → cache_inv (cache_set a now client k ok) ∧
  ac_entries (cache_set a now client k ok) = <[k := mkCached ok (now + authCacheTTL) client now]> (ac_entries (make_room a now k)).
Proof.
  intros Hi. destruct (make_room_spec a now k Hi) as (Hwf & Hk & Hs & _).
  destruct (compact_wf _ client _ (add_wf _ now client k ok Hwf Hk) (lookup_insert_eq _ _ _)) as [Hw He].
  assert (ac_entries (cache_set a now client k ok) = <[k := mkCached ok (now + authCacheTTL) client now]> (ac_entries (make_room a now k))) as He'
    by exact He. split; [|done]. split; [exact Hw|]. rewrite He', map_size_insert_None by done. lia.
Qed.

Lemma empty_inv n : cache_inv (mkCache ∅ ∅ n).
Proof. split; [constructor; cbn; intros ? ?; by rewrite lookup_empty|]. cbn. rewrite map_size_empty. pose proof max_pos. lia. Qed.

(** Every store that [set] and [clear] reach holds at most 5000 entries, each queued in the bucket of the client that caused it, and each bucket's count
    is the number of entries its client holds and positive (so the buckets are those of active clients only). *)
Theorem cache_bounded a :
  rtc (λ a a', (∃ now client k ok, a' = cache_set a now client k ok) ∨ a' = cache_clear a) empty_cache a →
  cache_wf a ∧ Z.of_nat (size (ac_entries a)) ≤ maxAuthCacheSize.
Proof.
  apply (rtc_ind_r (λ a, cache_inv a)); [apply empty_inv|]. intros x y _ [(now & c & k & ok & ->)| ->] Hx; [by apply cache_set_spec|apply empty_inv].
Qed.

(** When no entry has expired, eviction drops exactly one entry, of a client that holds at least as many entries as any other: so a
    client with one entry is not displaced while another has two, in whatever order the map of buckets is walked. *)
Theorem evict_fair a now :
  cache_wf a → ac_entries a ≠ ∅ → (∀ k e, ac_entries a !! k = Some e → now ≤ ce_expiry e) →
  ∃ kv ev, ac_entries a !! kv = Some ev ∧ ac_entries (evictOneLocked a now) = delete kv (ac_entries a) ∧
    ∀ k e, ac_entries a !! k = Some e → (held_by a (ce_client e) ≤ held_by a (ce_client ev))%nat.
Proof.
  intros Hwf Hne Hx. destruct (evict_spec a now Hwf) as [_ [[E _]|(kv & ev & Hkv & Hd & Hf)]]; [done|].
  exists kv, ev. split_and!; [done|done|]. destruct Hf as [Hf|Hf]; [specialize (Hx _ _ Hkv); lia|done].
Qed.
(** A new key in a full cache costs that one entry. *)
Lemma set_evicts a now client k ok :
  cache_inv a → ac_entries a !! k = None → Z.of_nat (size (ac_entries a)) = maxAuthCacheSize →
  ac_entries (cache_set a now client k ok) = <[k := mkCached ok (now + authCacheTTL) client now]> (ac_entries (evictOneLocked a now)).
Proof. intros Hi Hk Hs. rewrite (proj2 (cache_set_spec a now client k ok Hi)). unfold make_room. by rewrite Hk, Hs, Z.leb_refl. Qed.

(** What was stored is read back until it expires. *)
Theorem set_get a now client k ok t :
  cache_inv a → cache_get (cache_set a now client k ok) t k = if t <? now + authCacheTTL then (ok, true) else (false, false).
Proof. intros Hi. unfold cache_get. by rewrite (proj2 (cache_set_spec a now client k ok Hi)), lookup_insert_eq. Qed.
(** Nothing else is: an entry is what the last [set] of its key stored. *)
Lemma set_other a now client k ok k' e :
  cache_inv a → ac_entries (cache_set a now client k ok) !! k' = Some e → k' ≠ k → ac_entries a !! k' = Some e.
Proof.
  intros Hi. rewrite (proj2 (cache_set_spec a now client k ok Hi)). intros E Hne. rewrite lookup_insert_ne in E by done.
  eapply lookup_weaken; [done|]. by apply make_room_spec.
Qed.

(** ** Positions that outlive their entry *)

Definition two (client k1 k2 : string) (t1 t2 : Instant) (b : bool) (keys : list string) (ev : Z) : authCacheStore :=
  mkCache {[k1 := mkCached b (t1 + authCacheTTL) client t1; k2 := mkCached false (t2 + authCacheTTL) client t2]} {[client := mkBucket keys 0 2]} ev.

Lemma filter_keeps_all {A} (P : A → Prop) `{∀ x, Decision (P x)} (l : list A) : (∀ x, x ∈ l → P x) → filter P l = l.
Proof.
  induction l as [|x l IH]; intros Hl; [done|]. rewrite filter_cons_True by (apply Hl; left). rewrite IH; [done|]. intros y Hy. apply Hl. by right.
Qed.
Lemma refresh_two client k1 k2 t1 t2 t b b' keys ev :
  k1 ≠ k2 → Forall (λ k, k = k1 ∨ k = k2) keys → keys ≠ [] →
  cache_set (two client k1 k2 t1 t2 b keys ev) t client k1 b' = two client k1 k2 t t2 b' (keys ++ [k1]) ev.
Proof.
  intros Hne Hall Hn.
  assert (removeLocked (two client k1 k2 t1 t2 b keys ev) k1 =
    mkCache {[k2 := mkCached false (t2 + authCacheTTL) client t2]} {[client := mkBucket keys 0 1]} ev) as Hr.
  { unfold removeLocked, two. cbn. rewrite lookup_insert_eq. cbn. rewrite lookup_singleton_eq. change (2 - 1 <=? 0) with false. cbn.
    rewrite delete_insert_id by by rewrite lookup_singleton_ne. by rewrite insert_singleton_eq. }
  unfold cache_set, make_room. rewrite Hr. assert (ac_entries (two client k1 k2 t1 t2 b keys ev) !! k1 = Some (mkCached b (t1 + authCacheTTL) client t1)) as ->
    by apply lookup_insert_eq.
  cbn [ac_entries]. rewrite map_size_singleton, (proj2 (Z.leb_gt _ _)) by apply max_pos. unfold add_entry. cbn. rewrite lookup_singleton_eq. cbn. rewrite insert_singleton_eq.
  unfold compactLocked. cbn. case_if; [done|]. rewrite filter_keeps_all.
  - rewrite bool_decide_eq_false_2 by (intros E; by apply app_eq_nil in E as [_ ?]). unfold two. cbn. by rewrite insert_singleton_eq.
  - intros k Hk. unfold held. cbn. apply elem_of_app in Hk as [Hk| ->%list_elem_of_singleton];
      [rewrite Forall_forall in Hall; destruct (Hall _ Hk) as [->| ->]|]; rewrite ?lookup_insert_eq, ?lookup_insert_ne, ?lookup_singleton_eq by done; cbn;
      rewrite String.eqb_refl; by eexists.
Qed.

Lemma pair_swap {A} (k1 k2 : string) (x y : A) : k1 ≠ k2 → <[k2 := y]> {[k1 := x]} = {[k1 := x; k2 := y]} :> gmap string A.
Proof. intros. rewrite <- !insert_empty. by apply insert_insert_ne. Qed.
Lemma first_two client k1 k2 : k1 ≠ k2 →
  cache_set (cache_set empty_cache 0 client k1 true) 0 client k2 false = two client k1 k2 0 0 true [k1; k2] 0.
Proof.
  intros Hne. assert (cache_set empty_cache 0 client k1 true =
    mkCache {[k1 := mkCached true (0 + authCacheTTL) client 0]} {[client := mkBucket [k1] 0 1]} 0) as ->.
  { unfold cache_set, make_room. cbn [ac_entries empty_cache]. rewrite lookup_empty. cbn [ac_entries empty_cache].
    rewrite map_size_empty, (proj2 (Z.leb_gt _ _)) by (pose proof max_pos; lia). done. }
  unfold cache_set, make_room. cbn [ac_entries]. rewrite lookup_singleton_ne by done. cbn [ac_entries].
  rewrite map_size_singleton, (proj2 (Z.leb_gt _ _)) by apply max_pos. unfold add_entry. cbn. rewrite lookup_singleton_eq. cbn. rewrite insert_singleton_eq.
  unfold two, compactLocked. cbn. by rewrite pair_swap.
Qed.

(** Defect: a position of an entry that was replaced is kept by compaction as long as the key is held: a client with two entries that has one of
    them verified again and again (once per five minutes) has a queue as long as the number of times. *)
Theorem queue_grows client k1 k2 (ts : list Instant) :
  k1 ≠ k2 →
  ∃ t, foldl (λ a t, cache_set a t client k1 true) (cache_set (cache_set empty_cache 0 client k1 true) 0 client k2 false) ts =
    two client k1 k2 t 0 true (k1 :: k2 :: ((λ _, k1) <$> ts)) 0.
Proof.
  intros Hne. rewrite first_two by done. assert (∃ t, foldl (λ a t, cache_set a t client k1 true) (two client k1 k2 0 0 true [k1; k2] 0) ts =
    two client k1 k2 t 0 true ([k1; k2] ++ ((λ _, k1) <$> ts)) 0) as [t E]; [|by exists t].
  assert (Forall (λ k, k = k1 ∨ k = k2) [k1; k2] ∧ [k1; k2] ≠ []) as [Hall Hn] by (split; [repeat constructor; auto|done]).
  generalize [k1; k2], 0 at 1, Hall, Hn. clear Hall Hn. induction ts as [|t ts IH]; intros keys t0 Hall Hn; cbn [foldl fmap list_fmap].
  { exists t0. by rewrite app_nil_r. }
  rewrite refresh_two by done. destruct (IH (keys ++ [k1])%list t) as [t' E]; [apply Forall_app; split; [done|repeat constructor; by left]|by destruct keys|].
  exists t'. by rewrite E, <- app_assoc.
Qed.
End bounded.

(** ** Concrete stores *)

#[local] Existing Instance default_range.
Definition small_cache : authCacheStore := cache_set (cache_set (cache_set empty_cache 0 "c" "k1" true) 1 "c" "k2" false) 2 "c" "k1" true.

Lemma cache_bounded_witness : cache_wf small_cache ∧ Z.of_nat (size (ac_entries small_cache)) ≤ maxAuthCacheSize.
Proof.
  apply (cache_bounded small_cache). eapply rtc_l; [left; exists 0, "c", "k1", true; reflexivity|].
  eapply rtc_l; [left; exists 1, "c", "k2", false; reflexivity|]. apply rtc_once. left. exists 2, "c", "k1", true. reflexivity.
Defined.

(** Defect: the entry stored last is the first to go, since its key still stands at the front of the queue. *)
Theorem refreshed_goes_first :
  (ce_added <$> ac_entries small_cache !! "k1") = Some 2 ∧ (ce_added <$> ac_entries small_cache !! "k2") = Some 1 ∧
  ac_entries (evictOneLocked small_cache 3) !! "k1" = None ∧ is_Some (ac_entries (evictOneLocked small_cache 3) !! "k2").
Proof. vm_compute. split_and!; [done..|by eexists]. Qed.

Lemma evict_fair_witness :
  let a := cache_set small_cache 3 "d" "k3" true in
  ∃ kv ev, ac_entries a !! kv = Some ev ∧ ac_entries (evictOneLocked a 4) = delete kv (ac_entries a) ∧
    ∀ k e, ac_entries a !! k = Some e → (held_by a (ce_client e) ≤ held_by a (ce_client ev))%nat.
Proof.
  intros a. assert (cache_inv a) as [Hwf _] by (repeat apply cache_set_spec; apply empty_inv).
  apply (evict_fair a 4); [exact Hwf|intros E; apply (f_equal (lookup "k3")) in E; vm_compute in E; discriminate|].
  assert (map_Forall (λ _ e, 4 ≤ ce_expiry e) (ac_entries a)) as Hall by (apply (bool_decide_unpack _); vm_compute; exact I). exact Hall.
Defined.
