(* ===== verification/Accounts.v ===== *)
(** * Accounts: the credential store of [store.go] and [internal/totp]

    [Config] is the live configuration's account state: the proxy credential ([user], [passHash]), the external
    provider, the credential cache with its revision, the global default, the roster of administrators with their
    second factor, and the file the roster is kept in.  Each method's locked section is a function;
    [verifyAuthFrom] is two sections ([verify_lookup], [verify_finish]) around a comparison that holds no lock.
    [bcrypt] is the class [Bcrypt], external providers are numbers whose behaviour is the class [Providers], JSON is
    [UsersJSON].  An atomic write may fail before or after it replaced the file.  The order of the file's records is
    that of a [range].  [VerifyUIUser] reads one state of the roster; the revision counter does not wrap.

    - [verify_transparent]: in every interleaving of verifications with changes of credentials and backends, the
      answer of a verification, cached or not, is that of its snapshot.
    - [roster_survives]: what a restart brings back.
    - [admin_kept]: no operation but a demotion loses the last administrator, and a saved roster with one makes the next start
      a configured node; [demotion_reopens_setup]: a demotion does, and the next start is open to everyone.
    - [totp_once]: the time steps a user's codes are accepted for increase strictly; [totp_race]: unless two logins overlap.
    - [backup_code_once]: a backup code is consumed by its use.
    - [deleted_admin_verifies], [password_change_drops_totp], [empty_password_admin], [corrupt_roster_opens]: defects. *)

From S2P Require Import Prelude GoStrings GoBase64 PolicyRule Session AuthCache.

(** ** Library code *)

Class Bcrypt := {
  GenerateFromPassword : string → string → option string;   (* salt, password *)
  CompareHashAndPassword : string → string → bool;
  generate_ok salt p : (String.length p ≤ 72)%nat → ∃ h, GenerateFromPassword salt p = Some h ∧ CompareHashAndPassword h p = true;
  generate_long salt p : (72 < String.length p)%nat → GenerateFromPassword salt p = None;
}.
(** [unicode.IsUpper], [IsLower], [IsDigit]. *)
Class CharClass := {
  IsUpper : Z → bool; IsLower : Z → bool; IsDigit : Z → bool;
  IsUpper_ascii r : 0 ≤ r < 128 → IsUpper r = is_ascii_upper r;
  IsLower_ascii r : 0 ≤ r < 128 → IsLower r = is_ascii_lower r;
  IsDigit_ascii r : 0 ≤ r < 128 → IsDigit r = in_range 48 57 r;
}.
Class Providers := { Verify : nat → string → string → bool; ResolveIdentity : nat → option (string → string → option Identity) }.
Class Sha1 := { hmac_sha1 : string → string → string; hmac_sha1_length k d : String.length (hmac_sha1 k d) = 20%nat }.

(** ** Roles *)

Definition RoleAdmin : string := "admin".
Definition RoleOperator : string := "operator".
Definition RoleViewer : string := "viewer".
Definition rolePriority (r : string) : Z :=
  if (r =? RoleViewer)%string then 1 else if (r =? RoleOperator)%string then 2 else if (r =? RoleAdmin)%string then 3 else 0.
Definition HasRole (r min : string) : bool := rolePriority min <=? rolePriority r.

(** ** One-time codes *)

Definition totpPeriod : Z := 30.
Definition totpDigits : nat := 6.
Definition totpSkew : Z := 1.

(** [fmt.Sprintf("%06d", otp)] of a number below a million. *)
Definition six_digits (v : Z) : string :=
  string_of_list_ascii ((λ k, byte_of (48 + (v / 10 ^ k) mod 10)) <$> [5; 4; 3; 2; 1; 0]).
Definition byte_at (s : string) (i : Z) : Z := match String.get (Z.to_nat i) s with Some c => byte_val c | None => 0 end.
Definition hotp `{Sha1} (key : string) (counter : Z) : string :=
  let sum := hmac_sha1 key (PutUint64 counter) in
  let offset := Z.land (byte_at sum (Z.of_nat (String.length sum) - 1)) 15 in
  let word := byte_at sum offset * 2 ^ 24 + byte_at sum (offset + 1) * 2 ^ 16 + byte_at sum (offset + 2) * 2 ^ 8 + byte_at sum (offset + 3) in
  six_digits (Z.land word 2147483647 mod 1000000).

(** The loop of [verifyTOTPAt] over the steps [i, ..., totpSkew]. *)
Fixpoint totp_loop `{Sha1} (fuel : nat) (key code : string) (counter lastCounter i : Z) : bool * Z :=
  match fuel with
  | O => (false, 0)
  | S fuel =>
      if i >? totpSkew then (false, 0) else
      let candidate := wrap64 (counter + i) in
      if (lastCounter >? 0) && (candidate <=? lastCounter) then totp_loop fuel key code counter lastCounter (i + 1) else
      if (hotp key candidate =? code)%string then (true, candidate) else totp_loop fuel key code counter lastCounter (i + 1)
  end.
Definition VerifyTOTPReturnCounter `{Unicode, Sha1} (secret code : string) (nowUnix lastCounter : Z) : bool * Z :=
  let code := TrimSpace code in
  if negb (String.length code =? totpDigits)%nat then (false, 0) else
  if negb (forallb (in_range 48 57) (runes code)) then (false, 0) else
  let secret := ToUpper (TrimSpace secret) in
  if (secret =? "")%string then (false, 0) else
  match base32_DecodeString secret with
  | None => (false, 0)
  | Some key => if (String.length key =? 0)%nat then (false, 0) else totp_loop 3 key code (Z.quot nowUnix totpPeriod) lastCounter (- totpSkew)
  end.

(** ** The store *)

Record uiAdminUser := mkUser {
  au_passHash : string; au_role : string; au_totpSecret : string; au_backupCodes : list string; au_totpLastCounter : Z;
}.
#[global] Instance User_eta : Eta uiAdminUser := λ u, mkUser (au_passHash u) (au_role u) (au_totpSecret u) (au_backupCodes u) (au_totpLastCounter u).

Record Config := mkConfig {
  c_user : string; c_passHash : string; c_cache : authCacheStore; c_revision : Z; c_provider : option nat;
  c_default : string; c_uiUsers : gmap string uiAdminUser; c_usersFile : string;
  (* outside the struct: the file, [legacyLDAPRetired()] and the secret of cache keys *)
  c_disk : option string; c_ldapRetired : bool; c_secret : string;
}.
#[global] Instance Config_eta : Eta Config := λ c,
  mkConfig (c_user c) (c_passHash c) (c_cache c) (c_revision c) (c_provider c) (c_default c) (c_uiUsers c) (c_usersFile c)
    (c_disk c) (c_ldapRetired c) (c_secret c).
(** A process before its startup: [secret] is random. *)
Definition new_config (disk : option string) (ldapRetired : bool) (secret : string) : Config :=
  mkConfig "" "" empty_cache 0 None "" ∅ "" disk ldapRetired secret.

(** Credentials changed: verdicts in the cache, and verifications under way, are void. *)
Definition bump (c : Config) : Config := c <| c_revision := c_revision c + 1 |> <| c_cache := cache_clear (c_cache c) |>.

Inductive AccountError := ErrShort | ErrLong | ErrWeak | ErrBcrypt | ErrPasswordRequired | ErrLastAdmin.

Record uiUserRecord := mkRecord {
  ur_Username : string; ur_PassHash : string; ur_Role : string; ur_TOTPSecret : string; ur_BackupCodes : list string; ur_TOTPLastCounter : Z;
}.
Record uiUsersFileEnvelope := mkEnv { ev_DefaultAuthOutcome : option string; ev_UnauthMode : bool; ev_Users : option (list uiUserRecord) }.
Definition record_encodable (r : uiUserRecord) : bool :=
  ValidString (ur_Username r) && ValidString (ur_PassHash r) && ValidString (ur_Role r) && ValidString (ur_TOTPSecret r) &&
  forallb ValidString (ur_BackupCodes r) && is_int64 (ur_TOTPLastCounter r).
Definition env_encodable (e : uiUsersFileEnvelope) : bool :=
  match ev_DefaultAuthOutcome e with Some s => ValidString s | None => true end &&
  match ev_Users e with Some l => forallb record_encodable l | None => true end.
Class UsersJSON := {
  marshal_env : uiUsersFileEnvelope → string;
  unmarshal_env : string → option uiUsersFileEnvelope;
  unmarshal_records : string → option (list uiUserRecord);
  env_json e : env_encodable e = true → unmarshal_env (marshal_env e) = Some e;
}.

Section store.
Context `{Unicode, Bcrypt, CharClass, Providers, Hmac, RangeOrder, UsersJSON}.

Definition SetProvider (c : Config) (p : option nat) : Config := bump (c <| c_provider := p |>).

Definition SetAuth (c : Config) (salt user pass : string) : Config * option AccountError :=
  if (user =? "")%string then (bump (c <| c_user := "" |> <| c_passHash := "" |>), None) else
  match GenerateFromPassword salt pass with
  | None => (c, Some ErrBcrypt)
  | Some hash =>
      (bump (c <| c_user := user |> <| c_passHash := hash |> <| c_uiUsers := <[user := mkUser hash RoleAdmin "" [] 0]> (c_uiUsers c) |>), None)
  end.
Definition RollbackFailedSetupAuth (c : Config) (user : string) : Config :=
  bump (c <| c_user := "" |> <| c_passHash := "" |> <| c_uiUsers := delete user (c_uiUsers c) |>).

(** *** Verification of the proxy credential *)

Record authBackendSnapshot := mkSnapshot { sn_provider : option nat; sn_user : string; sn_passHash : string; sn_revision : Z }.
Definition snapshotAuthBackend (c : Config) : authBackendSnapshot := mkSnapshot (c_provider c) (c_user c) (c_passHash c) (c_revision c).

(** The steps before a comparison: [Some] verdict, or [None] when the password has to be compared. *)
Definition verify_lookup (c : Config) (now : Instant) (sn : authBackendSnapshot) (user pass : string) : option bool :=
  match sn_provider sn with
  | Some p => Some (Verify p user pass)
  | None =>
      if (sn_user sn =? "")%string then Some true else
      if c_revision c =? sn_revision sn then
        let '(ok, hit) := cache_get (c_cache c) now (cacheKey (c_secret c) user pass) in if hit then Some ok else None
      else None
  end.
(** The comparison, and the steps after it. *)
Definition verify_finish (c : Config) (now : Instant) (sn : authBackendSnapshot) (client user pass : string) : Config * bool :=
  if negb (user =? sn_user sn)%string then (c, false) else
  let ok := CompareHashAndPassword (sn_passHash sn) pass in
  if c_revision c =? sn_revision sn then (c <| c_cache := cache_set (c_cache c) now client (cacheKey (c_secret c) user pass) ok |>, ok) else (c, ok).
(** With nothing in between; [permitted] is the answer of the cost governor. *)
Definition verifyAuthFrom (c : Config) (t1 t2 : Instant) (permitted : bool) (sn : authBackendSnapshot) (client user pass : string) : Config * bool :=
  match verify_lookup c t1 sn user pass with
  | Some ok => (c, ok)
  | None => if permitted then verify_finish c t2 sn client user pass else (c, false)
  end.
Definition resolveAuthIdentityFromSnapshot (c : Config) (t1 t2 : Instant) (permitted : bool) (sn : authBackendSnapshot) (client user pass : string) :
    Config * option Identity :=
  match sn_provider sn with
  | None => if (sn_user sn =? "")%string then (c, None) else
            let '(c, ok) := verifyAuthFrom c t1 t2 permitted sn client user pass in
            (c, if ok then Some (mkIdentity user "" "" [] "local") else None)
  | Some p =>
      match ResolveIdentity p with
      | Some resolve => (c, resolve user pass)
      | None => let '(c, ok) := verifyAuthFrom c t1 t2 permitted sn client user pass in
                (c, if ok then Some (mkIdentity user "" "" [] "local") else None)
      end
  end.

Definition AuthEnabled (c : Config) : bool := negb (c_user c =? "")%string || bool_decide (is_Some (c_provider c)).
Definition IsConfigured (c : Config) : bool :=
  negb (c_user c =? "")%string || bool_decide (is_Some (c_provider c)) || (c_default c =? OutcomeExempt)%string || c_ldapRetired c.
Definition DefaultAuthOutcome (c : Config) : string := if (c_default c =? OutcomeExempt)%string then OutcomeExempt else OutcomeDefault.

(** *** The roster *)

Definition bcryptMaxPasswordBytes : nat := 72.
Definition validatePasswordComplexity (password : string) : option AccountError :=
  if (String.length password <? 8)%nat then Some ErrShort else
  if (bcryptMaxPasswordBytes <? String.length password)%nat then Some ErrLong else
  let rs := runes password in
  let hasUpper := existsb IsUpper rs in
  let hasLower := existsb (λ r, negb (IsUpper r) && IsLower r) rs in
  let hasDigit := existsb (λ r, negb (IsUpper r) && negb (IsLower r) && IsDigit r) rs in
  if negb hasUpper || negb hasLower || negb hasDigit then Some ErrWeak else None.

Definition SetUIUser (c : Config) (salt username password role : string) : Config * option AccountError :=
  if negb (password =? "")%string then
    match validatePasswordComplexity password with
    | Some e => (c, Some e)
    | None =>
        match GenerateFromPassword salt password with
        | None => (c, Some ErrBcrypt)
        | Some hash => (c <| c_uiUsers := <[username := mkUser hash role "" [] 0]> (c_uiUsers c) |>, None)
        end
    end
  else
    match c_uiUsers c !! username with
    | Some u => (c <| c_uiUsers := <[username := u <| au_role := role |>]> (c_uiUsers c) |>, None)
    | None => (c, Some ErrPasswordRequired)
    end.

Definition adminCount (users : gmap string uiAdminUser) : nat := size (filter (λ kv, au_role kv.2 = RoleAdmin) users).
Definition DeleteUIUser (c : Config) (username : string) : Config * option AccountError :=
  match c_uiUsers c !! username with
  | Some u =>
      if (au_role u =? RoleAdmin)%string && (adminCount (c_uiUsers c) <=? 1)%nat then (c, Some ErrLastAdmin)
      else (c <| c_uiUsers := delete username (c_uiUsers c) |>, None)
  | None => (c, None)
  end.

Record UIUserInfo := mkInfo { ui_Username : string; ui_Role : string; ui_TOTPEnabled : bool }.
Definition ListUIUsers (c : Config) : list UIUserInfo :=
  (λ '(name, u), mkInfo name (au_role u) (negb (au_totpSecret u =? "")%string)) <$> range (c_uiUsers c).
Definition SetUIUsersFile (c : Config) (path : string) : Config := c <| c_usersFile := path |>.

Definition UIUserExists (c : Config) (username : string) : bool := bool_decide (is_Some (c_uiUsers c !! username)).
Definition LoginNameConfigured (c : Config) (username : string) : bool :=
  UIUserExists c username || (negb (c_user c =? "")%string && (username =? c_user c)%string).
Definition VerifyUIUser (c : Config) (username password : string) : option string :=
  match c_uiUsers c !! username with
  | Some u => if CompareHashAndPassword (au_passHash u) password then Some (au_role u) else None
  | None =>
      if negb (c_user c =? "")%string && (username =? c_user c)%string && CompareHashAndPassword (c_passHash c) password
      then Some RoleAdmin else None
  end.

(** *** The second factor *)

Definition UserHasTOTP (c : Config) (username : string) : bool :=
  match c_uiUsers c !! username with Some u => negb (au_totpSecret u =? "")%string | None => false end.
Definition GetTOTPSecret (c : Config) (username : string) : string :=
  match c_uiUsers c !! username with Some u => au_totpSecret u | None => "" end.
Definition SetTOTPSecret (c : Config) (username secret : string) (backupCodes : list string) : Config * bool :=
  match c_uiUsers c !! username with
  | None => (c, false)
  | Some u => (c <| c_uiUsers := <[username := u <| au_totpSecret := secret |> <| au_backupCodes := backupCodes |>]> (c_uiUsers c) |>, true)
  end.
Definition ClearTOTP (c : Config) (username : string) : Config * bool :=
  match c_uiUsers c !! username with
  | None => (c, false)
  | Some u => (c <| c_uiUsers := <[username := u <| au_totpSecret := "" |> <| au_backupCodes := [] |>]> (c_uiUsers c) |>, true)
  end.
Definition GetTOTPLastCounter (c : Config) (username : string) : Z :=
  match c_uiUsers c !! username with Some u => au_totpLastCounter u | None => 0 end.
Definition SetTOTPLastCounter (c : Config) (username : string) (counter : Z) : Config * bool :=
  match c_uiUsers c !! username with
  | None => (c, false)
  | Some u =>
      (if counter >? au_totpLastCounter u
       then c <| c_uiUsers := <[username := u <| au_totpLastCounter := counter |>]> (c_uiUsers c) |> else c, true)
  end.
(** The codes without the first whose hash matches. *)
Fixpoint take_code (code : string) (l : list string) : option (list string) :=
  match l with
  | [] => None
  | hashed :: l => if CompareHashAndPassword hashed code then Some l else cons hashed <$> take_code code l
  end.
Definition ConsumeBackupCode (c : Config) (username code : string) : Config * bool :=
  match c_uiUsers c !! username with
  | None => (c, false)
  | Some u =>
      match take_code code (au_backupCodes u) with
      | Some l => (c <| c_uiUsers := <[username := u <| au_backupCodes := l |>]> (c_uiUsers c) |>, true)
      | None => (c, false)
      end
  end.

(** *** The file *)

Definition to_record (kv : string * uiAdminUser) : uiUserRecord :=
  mkRecord kv.1 (hex_EncodeToString (au_passHash kv.2)) (au_role kv.2) (au_totpSecret kv.2) (au_backupCodes kv.2) (au_totpLastCounter kv.2).
Definition roster_env (c : Config) : uiUsersFileEnvelope :=
  let outcome := if (c_default c =? "")%string then OutcomeDefault else c_default c in
  mkEnv (Some outcome) false (Some (to_record <$> range (c_uiUsers c))).
Definition SaveUIUsersFile (c : Config) (w : WriteResult) : Config * option WriteResult :=
  if (c_usersFile c =? "")%string then (c, None) else
  match w with
  | Written => (c <| c_disk := Some (marshal_env (roster_env c)) |>, None)
  | NotWritten => (c, Some NotWritten)
  | ReplacedNotSynced => (c <| c_disk := Some (marshal_env (roster_env c)) |>, Some ReplacedNotSynced)
  end.

Definition normalizeDefaultAuthOutcome (s : string) : string * bool :=
  let s := TrimSpace s in
  if (s =? OutcomeExempt)%string then (OutcomeExempt, true) else
  if (s =? OutcomeDefault)%string then (OutcomeDefault, true) else (OutcomeDefault, false).
Definition resolveLoadedDefaultAuthOutcome (env : uiUsersFileEnvelope) : string :=
  match ev_DefaultAuthOutcome env with
  | Some raw => (normalizeDefaultAuthOutcome raw).1
  | None => if ev_UnauthMode env then OutcomeExempt else OutcomeDefault
  end.
(** One round of the loop of [LoadUIUsersFile]. *)
Definition load_record (c : Config) (rec : uiUserRecord) : Config :=
  match hex_DecodeString (ur_PassHash rec) with
  | None => c
  | Some hash =>
      let u := mkUser hash (ur_Role rec) (ur_TOTPSecret rec) (ur_BackupCodes rec) (ur_TOTPLastCounter rec) in
      let c := c <| c_uiUsers := <[ur_Username rec := u]> (c_uiUsers c) |> in
      if (ur_Role rec =? RoleAdmin)%string && (c_user c =? "")%string then c <| c_user := ur_Username rec |> <| c_passHash := hash |> else c
  end.
(** [readable]: whether a file that exists can be read; [moved]: whether a corrupt one can be renamed.  The flag is an error. *)
Definition LoadUIUsersFile (c : Config) (readable moved : bool) : Config * bool :=
  if (c_usersFile c =? "")%string then (c, false) else
  match c_disk c with
  | None => (c, false)
  | Some data =>
      if negb readable then (c, true) else
      let load env records := foldl load_record (bump (c <| c_default := resolveLoadedDefaultAuthOutcome env |>)) records in
      match unmarshal_env data with
      | Some (mkEnv d u (Some records)) => (load (mkEnv d u (Some records)) records, false)
      | other =>
          match unmarshal_records data with
          | Some records => (load (default (mkEnv None false None) other) records, false)
          | None => (if moved then c <| c_disk := None |> else c, true)
          end
      end
  end.

Definition setDefaultAuthOutcomeChecked (c : Config) (outcome : string) (w : WriteResult) : Config * option WriteResult :=
  let resolved := if (outcome =? OutcomeExempt)%string then OutcomeExempt else OutcomeDefault in
  let previous := c_default c in
  let c := c <| c_default := resolved |> in
  match SaveUIUsersFile c w with
  | (c, None) => (c, None)
  | (c, Some ReplacedNotSynced) => (c, Some ReplacedNotSynced)
  | (c, Some e) => (c <| c_default := previous |>, Some e)
  end.

(** [loadAuth]: [None] when the process stops. *)
Definition loadAuth (c : Config) (salt user pass usersFile : string) (readable moved : bool) : option Config :=
  if negb (user =? "")%string && bool_decide (is_Some (validatePasswordComplexity pass)) then None else
  match SetAuth c salt user pass with
  | (_, Some _) => None
  | (c, None) => Some (if (usersFile =? "")%string then c else (LoadUIUsersFile (SetUIUsersFile c usersFile) readable moved).1)
  end.
(** The [--reset-password] command: whether it was done. *)
Definition runResetPasswordCommand (c : Config) (salt arg usersPath : string) (readable moved : bool) (w : WriteResult) : Config * bool :=
  match Cut arg ":"%char with
  | None => (c, false)
  | Some (name, password) =>
      if (name =? "")%string || (String.length password <? 8)%nat then (c, false) else
      let '(c, failed) := LoadUIUsersFile (SetUIUsersFile c usersPath) readable moved in
      if failed && bool_decide (is_Some (c_disk c)) then (c, false) else
      match SetUIUser c salt name password RoleAdmin with
      | (c, Some _) => (c, false)
      | (c, None) => match SaveUIUsersFile c w with (c, None) => (c, true) | (c, Some _) => (c, false) end
      end
  end.
End store.

(** ** Verification under concurrent changes *)

(** A change of the configuration by anything but a verification. *)
Inductive change `{Unicode, Bcrypt, CharClass, RangeOrder, UsersJSON} : Config → Config → Prop :=
  | ch_provider c p : change c (SetProvider c p)
  | ch_auth c salt u p : change c (SetAuth c salt u p).1
  | ch_rollback c u : change c (RollbackFailedSetupAuth c u)
  | ch_load c r m : change c (LoadUIUsersFile c r m).1
  | ch_path c p : change c (SetUIUsersFile c p)
  | ch_save c w : change c (SaveUIUsersFile c w).1
  | ch_default c o w : change c (setDefaultAuthOutcomeChecked c o w).1
  | ch_user c salt u p r : change c (SetUIUser c salt u p r).1
  | ch_delete c u : change c (DeleteUIUser c u).1
  | ch_totp c u s l : change c (SetTOTPSecret c u s l).1
  | ch_clear c u : change c (ClearTOTP c u).1
  | ch_counter c u k : change c (SetTOTPLastCounter c u k).1
  | ch_backup c u code : change c (ConsumeBackupCode c u code).1.

Definition go_string (s : string) : Prop := Z.of_nat (String.length s) < 2 ^ 63.

(** Snapshots taken so far are kept: any of them may be of a verification under way. *)
Inductive vstep `{Unicode, Bcrypt, CharClass, Hmac, RangeOrder, UsersJSON} : Config * list authBackendSnapshot → Config * list authBackendSnapshot → Prop :=
  | v_change c c' sns : change c c' → vstep (c, sns) (c', sns)
  | v_snapshot c sns : vstep (c, sns) (c, snapshotAuthBackend c :: sns)
  | v_finish c sns sn now client user pass :
      sn ∈ sns → sn_provider sn = None → go_string user → go_string pass →
      vstep (c, sns) ((verify_finish c now sn client user pass).1, sns).

Section transparent.
Context `{Unicode, Bcrypt, CharClass, Providers, Hmac, RangeOrder, UsersJSON}.

(** What a verification against the snapshot says, without a cache. *)
Definition verdict (sn : authBackendSnapshot) (user pass : string) : bool :=
  match sn_provider sn with
  | Some p => Verify p user pass
  | None => if (sn_user sn =? "")%string then true else (user =? sn_user sn)%string && CompareHashAndPassword (sn_passHash sn) pass
  end.
Definition hmac_collision (secret user pass : string) : Prop :=
  ∃ user' pass', framed user' pass' ≠ framed user pass ∧ hmac_sha256 secret (framed user' pass') = hmac_sha256 secret (framed user pass).

Definition snap_ok (c : Config) (sn : authBackendSnapshot) : Prop :=
  sn_revision sn ≤ c_revision c ∧
  (sn_revision sn = c_revision c → sn_provider sn = c_provider c ∧ sn_user sn = c_user c ∧ sn_passHash sn = c_passHash c).
Definition coherent (c : Config) : Prop :=
  cache_inv (c_cache c) ∧
  ∀ k e, ac_entries (c_cache c) !! k = Some e →
    ∃ pass, k = cacheKey (c_secret c) (c_user c) pass ∧ go_string (c_user c) ∧ go_string pass ∧ ce_ok e = CompareHashAndPassword (c_passHash c) pass.

(** What the verifications see of a configuration. *)
Definition backend (c : Config) := (c_provider c, c_user c, c_passHash c, c_revision c, c_cache c, c_secret c).
Definition renewed (c c' : Config) : Prop := c_revision c' = c_revision c + 1 ∧ c_cache c' = cache_clear (c_cache c) ∧ c_secret c' = c_secret c.

Lemma load_records_renewed l c : c_revision (foldl load_record c l) = c_revision c ∧ c_cache (foldl load_record c l) = c_cache c ∧ c_secret (foldl load_record c l) = c_secret c.
Proof.
  revert c. induction l as [|r l IH]; intros c; [done|]. cbn [foldl]. destruct (IH (load_record c r)) as (-> & -> & ->).
  unfold load_record. destruct (hex_DecodeString _); [|done]. case_if; done.
Qed.
Lemma load_renewed c d rs : renewed c (foldl load_record (bump (c <| c_default := d |>)) rs).
Proof. unfold renewed. by destruct (load_records_renewed rs (bump (c <| c_default := d |>))) as (-> & -> & ->). Qed.
Lemma save_backend c w : backend (SaveUIUsersFile c w).1 = backend c.
Proof. unfold SaveUIUsersFile. case_if; [done|]. by destruct w. Qed.
Lemma default_backend c o w : backend (setDefaultAuthOutcomeChecked c o w).1 = backend c.
Proof.
  unfold setDefaultAuthOutcomeChecked. set (c1 := c <| c_default := _ |>). pose proof (save_backend c1 w) as E.
  destruct (SaveUIUsersFile c1 w) as [c2 [[]|]]; cbn [fst] in *; exact E.
Qed.

Lemma change_cases c c' : change c c' → backend c' = backend c ∨ renewed c c'.
Proof.
  destruct 1.
  - by right.
  - unfold SetAuth. case_if; [by right|]. destruct (GenerateFromPassword _ _); [by right|by left].
  - by right.
  - unfold LoadUIUsersFile. case_if; [by left|]. destruct (c_disk c) as [data|]; [|by left]. case_if; [by left|].
    destruct (unmarshal_env data) as [[d u [rs|]]|]; [right; apply load_renewed|..];
      (destruct (unmarshal_records data); [right; apply load_renewed|left; by destruct m]).
  - by left.
  - left. apply save_backend.
  - left. apply default_backend.
  - left. unfold SetUIUser. case_if; [destruct (validatePasswordComplexity _); [done|]; by destruct (GenerateFromPassword _ _)|].
    by destruct (c_uiUsers c !! u).
  - left. unfold DeleteUIUser. destruct (c_uiUsers c !! u); [|done]. by case_if.
  - left. unfold SetTOTPSecret. by destruct (c_uiUsers c !! u).
  - left. unfold ClearTOTP. by destruct (c_uiUsers c !! u).
  - left. unfold SetTOTPLastCounter. destruct (c_uiUsers c !! u); [|done]. cbn. by case_if.
  - left. unfold ConsumeBackupCode. destruct (c_uiUsers c !! u); [|done]. by destruct (take_code _ _).
Qed.

Definition vinv (s : Config * list authBackendSnapshot) : Prop := coherent s.1 ∧ Forall (snap_ok s.1) s.2.

Lemma coherent_backend c c' : backend c' = backend c → coherent c → coherent c'.
Proof. unfold backend, coherent. intros [= _ -> -> _ -> ->]. done. Qed.
Lemma snap_ok_backend c c' sn : backend c' = backend c → snap_ok c sn → snap_ok c' sn.
Proof. unfold backend, snap_ok. intros [= -> -> -> -> _ _]. done. Qed.

Lemma finish_inv c sns sn now client user pass :
  vinv (c, sns) → sn ∈ sns → sn_provider sn = None → go_string user → go_string pass → vinv ((verify_finish c now sn client user pass).1, sns).
Proof.
  intros [[Hi Hc] Hs] Hin Hp Hu Hpass. unfold verify_finish. destruct (user =? sn_user sn)%string eqn:Eu; cbn [negb]; [|by split]. bprop.
  destruct (c_revision c =? sn_revision sn) eqn:Er; [|by split]. bprop. rewrite Forall_forall in Hs. destruct (Hs sn Hin) as [_ Hsn]. cbn in Hsn.
  destruct (Hsn ltac:(done)) as (_ & Hsu & Hsh). split; [|by rewrite Forall_forall].
  split; cbn; [by apply cache_set_spec|]. intros k e Hk. destruct (decide (k = cacheKey (c_secret c) user pass)) as [->|Hne].
  - rewrite (proj2 (cache_set_spec _ _ _ _ _ Hi)), lookup_insert_eq in Hk. injection Hk as <-. exists pass. cbn. rewrite <- Hsu, <- Eu, <- Hsh. done.
  - apply Hc. by apply (set_other (c_cache c) now client (cacheKey (c_secret c) user pass) (CompareHashAndPassword (sn_passHash sn) pass)).
Qed.
Lemma vstep_inv s s' : vstep s s' → vinv s → vinv s'.
Proof.
  destruct 1 as [c c' sns Hch|c sns|c sns sn now client user pass ? ? ? ?]; intros Hv.
  - destruct Hv as [Hc Hs]. cbn in *. destruct (change_cases c c' Hch) as [E|(Er & Ec & Ek)].
    + split; cbn; [by eapply coherent_backend|]. eapply Forall_impl; [done|]. intros sn. by apply snap_ok_backend.
    + split; cbn.
      * split; rewrite Ec; [apply empty_inv|]. intros k e. cbn. by rewrite lookup_empty.
      * eapply Forall_impl; [done|]. intros sn [Hle _]. split; rewrite Er; [lia|]. intros E. lia.
  - destruct Hv as [Hc Hs]. split; [done|]. constructor; [|done]. split; cbn; [lia|done].
  - by apply finish_inv.
Qed.
Lemma vreach_inv c0 c sns : coherent c0 → rtc vstep (c0, []) (c, sns) → vinv (c, sns).
Proof.
  intros Hc. apply (rtc_ind_r vinv); [by split|]. intros x y _ Hxy. by apply vstep_inv.
Qed.

(** C9: From any configuration whose cache is sound (an empty one is), through every interleaving of snapshots, finishing verifications and changes (credentials,
    providers, files, accounts), a verification's answer is that of its snapshot alone: a cached verdict is the one a
    comparison with the snapshot's password hash gives for that name and password, unless HMAC-SHA256 collides on their framing. *)
Theorem verify_transparent c0 c sns sn user pass :
  coherent c0 → rtc vstep (c0, []) (c, sns) → sn ∈ sns → go_string user → go_string pass →
  (∀ now b, verify_lookup c now sn user pass = Some b → b = verdict sn user pass ∨ hmac_collision (c_secret c) user pass) ∧
  (∀ now now' client, verify_lookup c now sn user pass = None → (verify_finish c now' sn client user pass).2 = verdict sn user pass).
Proof.
  intros Hc0 Hr Hin Hu Hp. destruct (vreach_inv _ _ _ Hc0 Hr) as [[Hi Hc] Hs]. cbn in *. rewrite Forall_forall in Hs. destruct (Hs sn Hin) as [_ Hsn].
  unfold verify_lookup, verify_finish, verdict. destruct (sn_provider sn) as [p|] eqn:Ep; [split; [intros now b [= <-]; by left|done]|].
  destruct (sn_user sn =? "")%string eqn:Es; [split; [intros now b [= <-]; by left|done]|]. split.
  - intros now b. destruct (c_revision c =? sn_revision sn) eqn:Er; [|done]. bprop. destruct (Hsn ltac:(done)) as (_ & Hsu & Hsh).
    unfold cache_get. destruct (ac_entries (c_cache c) !! _) as [e|] eqn:Ee; [|done]. case_if; [|done]. intros [= <-].
    destruct (Hc _ _ Ee) as (pass' & Ek & Hgu & Hgp & ->). apply hex_EncodeToString_inj in Ek.
    destruct (decide (framed (c_user c) pass' = framed user pass)) as [Ef|Ef]; [|right; by exists (c_user c), pass'].
    left. unfold go_string in *. apply frame_injective in Ef as [<- <-]; [|lia..]. by rewrite Hsu, Hsh, String.eqb_refl.
  - intros now now' client _. destruct (user =? sn_user sn)%string; [|done]. cbn. by case_if.
Qed.
End transparent.

(** ** Restarts *)

Section restarts.
Context `{Unicode, Bcrypt, CharClass, Providers, Hmac, RangeOrder, UsersJSON}.

(** The process starts again on the same file, with no credential in its flags. *)
Definition reboot (c : Config) (secret : string) : Config :=
  (LoadUIUsersFile (SetUIUsersFile (new_config (c_disk c) (c_ldapRetired c) secret) (c_usersFile c)) true true).1.

Lemma load_roster l c name u :
  NoDup l.*1 →
  c_uiUsers (foldl load_record c (to_record <$> l)) !! name = Some u ↔ (name, u) ∈ l ∨ name ∉ l.*1 ∧ c_uiUsers c !! name = Some u.
Proof.
  revert c. induction l as [|[n v] l IH]; intros c Hnd; cbn [foldl fmap list_fmap].
  { rewrite elem_of_nil. split; [intros E; right; split; [apply not_elem_of_nil|done]|naive_solver]. }
  apply NoDup_cons in Hnd as [Hn Hnd]. rewrite IH by done.
  assert (c_uiUsers (load_record c (to_record (n, v))) = <[n := v]> (c_uiUsers c)) as ->.
  { unfold load_record. cbn. rewrite hex_roundtrip. destruct v. by case_if. }
  rewrite elem_of_cons, not_elem_of_cons, lookup_insert_Some. cbn. assert (∀ w, (n, w) ∈ l → n ∈ l.*1) as Hk
    by (intros w Hw; apply list_elem_of_fmap; by exists (n, w)).
  naive_solver.
Qed.
Lemma load_user l c :
  c_user (foldl load_record c (to_record <$> l)) ≠ "" ↔ c_user c ≠ "" ∨ ∃ name u, (name, u) ∈ l ∧ au_role u = RoleAdmin ∧ name ≠ "".
Proof.
  revert c. induction l as [|[n v] l IH]; intros c; cbn [foldl fmap list_fmap].
  { split; [by left|]. intros [?|(? & ? & Hx & _)]; [done|by apply not_elem_of_nil in Hx]. }
  rewrite IH. setoid_rewrite elem_of_cons.
  assert (c_user (load_record c (to_record (n, v))) = if (au_role v =? RoleAdmin)%string && (c_user c =? "")%string then n else c_user c) as ->.
  { unfold load_record. cbn. rewrite hex_roundtrip. by case_if. }
  destruct (au_role v =? RoleAdmin)%string eqn:Er, (c_user c =? "")%string eqn:Eu; bprop; cbn; naive_solver.
Qed.

Definition has_admin (c : Config) : Prop := ∃ name u, c_uiUsers c !! name = Some u ∧ au_role u = RoleAdmin ∧ name ≠ "".

Lemma normalize_canonical (x : string) : x = OutcomeExempt ∨ x = OutcomeDefault → (normalizeDefaultAuthOutcome x).1 = x.
Proof. intros [->| ->]; unfold normalizeDefaultAuthOutcome; rewrite TrimSpace_plain by done; done. Qed.

Lemma roster_survives_of c w c1 e secret :
  c_usersFile c ≠ "" → env_encodable (roster_env c) = true → c_default c = "" ∨ c_default c = OutcomeExempt ∨ c_default c = OutcomeDefault →
  SaveUIUsersFile c w = (c1, e) → w ≠ NotWritten →
  let c2 := reboot c1 secret in
  c_uiUsers c2 = c_uiUsers c ∧ c_default c2 = DefaultAuthOutcome c ∧ (c_user c2 ≠ "" ↔ has_admin c).
Proof.
  intros Hf He Hd Hsave Hw c2.
  assert (c_usersFile c1 = c_usersFile c ∧ c_disk c1 = Some (marshal_env (roster_env c))) as [Hp Hdisk].
  { unfold SaveUIUsersFile in Hsave. rewrite (proj2 (String.eqb_neq _ _) Hf) in Hsave. destruct w; by injection Hsave as <- _. }
  assert (∃ c3, c2 = foldl load_record c3 (to_record <$> range (c_uiUsers c)) ∧ c_uiUsers c3 = ∅ ∧ c_user c3 = "" ∧ c_default c3 = DefaultAuthOutcome c)
    as (c3 & -> & Hu3 & Hn3 & Hd3).
  { subst c2. unfold reboot, LoadUIUsersFile. cbn [SetUIUsersFile new_config c_usersFile c_disk]. cbn. rewrite Hp, (proj2 (String.eqb_neq _ _) Hf), Hdisk. cbn [negb].
    rewrite env_json by done. unfold roster_env. eexists. split; [reflexivity|]. cbn. split_and!; [done|done|].
    unfold resolveLoadedDefaultAuthOutcome, DefaultAuthOutcome. cbn. destruct Hd as [->|[->| ->]]; cbn; rewrite normalize_canonical by auto; done. }
  assert (NoDup (range (c_uiUsers c)).*1) as Hnd by apply range_fst_NoDup. split_and!.
  - apply map_eq. intros name. apply option_eq. intros u. rewrite load_roster by done. rewrite elem_of_range, Hu3, lookup_empty. naive_solver.
  - rewrite <- Hd3. generalize (range (c_uiUsers c)) as l. clear. intros l. revert c3. induction l as [|r l IH]; intros c3; [done|]. cbn [foldl fmap list_fmap].
    rewrite IH. unfold load_record. destruct (hex_DecodeString _); [|done]. by case_if.
  - rewrite load_user, Hn3. unfold has_admin. setoid_rewrite elem_of_range. naive_solver.
Qed.

(** After a roster was written, the next start of the process reads the same accounts (hashes, roles, second factors, replay counters), and the global default, reading
    any value but the open one as the closed one; a legacy credential is set up exactly when some account is an administrator. *)
Theorem roster_survives c w c1 e secret :
  c_usersFile c ≠ "" → env_encodable (roster_env c) = true → c_default c = "" ∨ c_default c = OutcomeExempt ∨ c_default c = OutcomeDefault →
  SaveUIUsersFile c w = (c1, e) → w ≠ NotWritten →
  let c2 := reboot c1 secret in
  c_uiUsers c2 = c_uiUsers c ∧ c_default c2 = DefaultAuthOutcome c ∧ (c_user c2 ≠ "" ↔ has_admin c).
Proof. apply roster_survives_of. Qed.

(** An operation of an administrator that is no demotion.  Names are not empty, as the handlers require. *)
Inductive kept_change : Config → Config → Prop :=
  | kc_provider c p : kept_change c (SetProvider c p)
  | kc_auth c salt u p : kept_change c (SetAuth c salt u p).1
  | kc_path c p : kept_change c (SetUIUsersFile c p)
  | kc_save c w : kept_change c (SaveUIUsersFile c w).1
  | kc_default c o w : kept_change c (setDefaultAuthOutcomeChecked c o w).1
  | kc_user c salt u p r :
      u ≠ "" → (∀ v, c_uiUsers c !! u = Some v → au_role v = RoleAdmin → r = RoleAdmin) → kept_change c (SetUIUser c salt u p r).1
  | kc_delete c u : kept_change c (DeleteUIUser c u).1
  | kc_totp c u s l : kept_change c (SetTOTPSecret c u s l).1
  | kc_clear c u : kept_change c (ClearTOTP c u).1
  | kc_counter c u k : kept_change c (SetTOTPLastCounter c u k).1
  | kc_backup c u code : kept_change c (ConsumeBackupCode c u code).1
  | kc_finish c sn now client user pass : kept_change c (verify_finish c now sn client user pass).1.

Definition admin_inv (users : gmap string uiAdminUser) : Prop := users !! "" = None ∧ ∃ name u, users !! name = Some u ∧ au_role u = RoleAdmin.

Lemma admin_inv_insert users name u :
  admin_inv users → name ≠ "" → (∀ v, users !! name = Some v → au_role v = RoleAdmin → au_role u = RoleAdmin) → admin_inv (<[name := u]> users).
Proof.
  intros [He (n & v & Hn & Hv)] Hne Hr. split; [by rewrite lookup_insert_ne|]. destruct (decide (n = name)) as [->|Hx].
  - exists name, u. rewrite lookup_insert_eq. split; [done|by apply (Hr v)].
  - exists n, v. by rewrite lookup_insert_ne.
Qed.
Lemma admin_inv_update users name u u' : admin_inv users → users !! name = Some u → au_role u' = au_role u → admin_inv (<[name := u']> users).
Proof. intros Hi Hu Hr. apply admin_inv_insert; [done|intros ->; destruct Hi; congruence|]. intros v Hv. rewrite Hr. congruence. Qed.
Lemma delete_keeps_admin users name :
  admin_inv users → (∀ u, users !! name = Some u → au_role u = RoleAdmin → (1 < adminCount users)%nat) → admin_inv (delete name users).
Proof.
  intros [He (n & v & Hn & Hv)] Hc. split; [rewrite lookup_delete_None; by right|]. destruct (decide (n = name)) as [->|Hx]; [|exists n, v; by rewrite lookup_delete_ne].
  specialize (Hc v Hn Hv). unfold adminCount in Hc. set (m := filter _ _) in Hc. assert (m !! name = Some v) as Hm by by apply map_lookup_filter_Some.
  assert (delete name m ≠ ∅) as (n' & v' & E)%map_choose.
  { intros E. apply (f_equal size) in E. rewrite map_size_delete, Hm, map_size_empty in E. cbn in E. lia. }
  apply lookup_delete_Some in E as [Hne E]. apply map_lookup_filter_Some in E as [E Hr]. exists n', v'. by rewrite lookup_delete_ne.
Qed.

Lemma kept_change_inv c c' : kept_change c c' → admin_inv (c_uiUsers c) → admin_inv (c_uiUsers c').
Proof.
  intros Hk Hi. destruct Hk.
  - done.
  - unfold SetAuth. destruct (u =? "")%string eqn:Eu; [done|]. bprop. destruct (GenerateFromPassword _ _); [|done]. cbn. by apply admin_inv_insert.
  - done.
  - unfold SaveUIUsersFile. case_if; [done|]. by destruct w.
  - unfold setDefaultAuthOutcomeChecked, SaveUIUsersFile. case_if; [done|]. by destruct w.
  - unfold SetUIUser. case_if.
    + destruct (validatePasswordComplexity _); [done|]. destruct (GenerateFromPassword _ _); [|done]. cbn. by apply admin_inv_insert.
    + destruct (c_uiUsers c !! u) as [v|] eqn:Ev; [|done]. cbn. apply admin_inv_insert; [done|done|]. intros v' Hv' Hr. cbn.
      match goal with Hd : ∀ x, _ → _ → _ = RoleAdmin |- _ => apply (Hd v'); congruence end.
  - unfold DeleteUIUser. destruct (c_uiUsers c !! u) as [v|] eqn:Ev; [|done]. case_if; [done|]. cbn. apply delete_keeps_admin; [done|].
    intros v' Hv' Hr. rewrite Ev in Hv'. injection Hv' as <-. rewrite Hr, String.eqb_refl in Heqb. cbn [andb] in Heqb. by apply Nat.leb_gt.
  - unfold SetTOTPSecret. destruct (c_uiUsers c !! u) as [v|] eqn:Ev; [|done]. by apply (admin_inv_update _ _ v).
  - unfold ClearTOTP. destruct (c_uiUsers c !! u) as [v|] eqn:Ev; [|done]. by apply (admin_inv_update _ _ v).
  - unfold SetTOTPLastCounter. destruct (c_uiUsers c !! u) as [v|] eqn:Ev; [|done]. cbn. case_if; [|done]. by apply (admin_inv_update _ _ v).
  - unfold ConsumeBackupCode. destruct (c_uiUsers c !! u) as [v|] eqn:Ev; [|done]. destruct (take_code _ _); [|done]. by apply (admin_inv_update _ _ v).
  - unfold verify_finish. case_if; [done|]. by case_if.
Qed.

End restarts.

(** ** The second factor *)

Section second_factor.
Context `{Unicode, Bcrypt, CharClass, Sha1}.

(** The check of a login's code, and what it does when the code is good: other logins may come between. *)
Definition totp_read (c : Config) (user code : string) (nowUnix : Z) : bool * Z :=
  VerifyTOTPReturnCounter (GetTOTPSecret c user) code nowUnix (GetTOTPLastCounter c user).
Definition totp_attempt (c : Config) (user code : string) (nowUnix : Z) : Config * option Z :=
  match totp_read c user code nowUnix with
  | (true, k) => ((SetTOTPLastCounter c user k).1, Some k)
  | (false, _) => (c, None)
  end.
(** The steps accepted in a sequence of logins of one user. *)
Fixpoint accepted (c : Config) (user : string) (l : list (Z * string)) : list Z :=
  match l with
  | [] => []
  | (now, code) :: l => let '(c, r) := totp_attempt c user code now in (match r with Some k => [k] | None => [] end ++ accepted c user l)%list
  end.

Lemma totp_loop_spec fuel key code counter last i k :
  totp_loop fuel key code counter last i = (true, k) →
  ∃ j, i ≤ j ≤ totpSkew ∧ k = wrap64 (counter + j) ∧ (last > 0 → last < k) ∧ hotp key k = code.
Proof.
  revert i. induction fuel as [|fuel IH]; intros i; cbn [totp_loop]; [done|]. destruct (i >? totpSkew) eqn:Ei; [done|]. bprop.
  destruct (_ && _) eqn:Es; [intros (j & Hj & Hr)%IH; exists j; split; [lia|done]|].
  destruct (hotp key (wrap64 (counter + i)) =? code)%string eqn:Eh; [|intros (j & Hj & Hr)%IH; exists j; split; [lia|done]].
  intros [= <-]. bprop. exists i. split_and!; [lia|lia|done| |done]. intros Hl. apply andb_false_iff in Es as [Es|Es]; bprop; lia.
Qed.
Lemma verify_totp_spec secret code now last k :
  VerifyTOTPReturnCounter secret code now last = (true, k) → 0 ≤ now ≤ int64_max - 60 →
  (last > 0 → last < k) ∧ now / 30 - 1 ≤ k ≤ now / 30 + 1 ∧
  ∃ key, base32_DecodeString (ToUpper (TrimSpace secret)) = Some key ∧ hotp key k = TrimSpace code ∧ secret ≠ "".
Proof.
  unfold VerifyTOTPReturnCounter. intros E Hn. case_if; [done|]. case_if; [done|]. case_if; [done|].
  destruct (base32_DecodeString _) as [key|] eqn:Ek; [|done]. case_if; [done|]. apply totp_loop_spec in E as (j & Hj & -> & Hl & Hh).
  unfold totpSkew, totpPeriod in *. rewrite Z.quot_div_nonneg in * by lia.
  assert (wrap64 (now / 30 + j) = now / 30 + j) as Hw.
  { apply wrap64_small. unfold int64_min, int64_max in *. pose proof (Z.div_pos now 30). pose proof (Z.div_le_upper_bound now 30 now). lia. }
  rewrite Hw in *. split_and!; [done|lia|lia|]. exists key. split_and!; [done|done|]. intros ->. done.
Qed.

(** C26: The time steps for which a user's codes are accepted, in any sequence of logins, strictly increase from the last one on record: no code of a step, or of an
    earlier one, is accepted twice. *)
Theorem totp_once c user l :
  0 ≤ GetTOTPLastCounter c user → Forall (λ a, 60 ≤ a.1 ≤ int64_max - 60) l →
  StronglySorted Z.lt (GetTOTPLastCounter c user :: accepted c user l).
Proof.
  intros Hc Hl. revert c Hc. induction Hl as [|[now code] l Hnow _ IH]; intros c Hc; [repeat constructor|]. cbn [accepted].
  unfold totp_attempt. destruct (totp_read c user code now) as [[|] k] eqn:E; [|by apply IH].
  apply verify_totp_spec in E as (Hlast & Hk & _ & _ & _ & Hne); [|cbn in Hnow; lia].
  assert (GetTOTPLastCounter c user < k) as Hlt.
  { destruct (Z.eq_dec (GetTOTPLastCounter c user) 0); [|lia]. cbn in Hnow. assert (2 ≤ now / 30) by (apply Z.div_le_lower_bound; lia). lia. }
  assert (GetTOTPLastCounter (SetTOTPLastCounter c user k).1 user = k) as Hset.
  { unfold GetTOTPSecret in Hne. unfold GetTOTPLastCounter, SetTOTPLastCounter in *. destruct (c_uiUsers c !! user) as [u|]; [|done].
    cbn. destruct (k >? au_totpLastCounter u) eqn:Ek; bprop; [|lia]. cbn. by rewrite lookup_insert_eq. }
  specialize (IH (SetTOTPLastCounter c user k).1 ltac:(lia)). rewrite Hset in IH. cbn [app]. constructor; [done|]. constructor; [done|].
  inv IH. eapply Forall_impl; [done|]. intros x ?. lia.
Qed.

(** Defect: two logins that both read the counter before either records its step are both accepted with one code. *)
Theorem totp_race c user code now k :
  totp_read c user code now = (true, k) →
  let r1 := totp_read c user code now in let r2 := totp_read c user code now in
  let c1 := (SetTOTPLastCounter c user r1.2).1 in let c2 := (SetTOTPLastCounter c1 user r2.2).1 in
  r1.1 = true ∧ r2.1 = true ∧ c2 = c1.
Proof.
  intros E. rewrite E. cbn. split_and!; try done. unfold SetTOTPLastCounter. destruct (c_uiUsers c !! user) as [u|] eqn:Eu; cbn; [|by rewrite Eu].
  destruct (k >? au_totpLastCounter u) eqn:Ek; cbn; [rewrite lookup_insert_eq; cbn; case_if; bprop; [lia|done]|].
  rewrite Eu. cbn. by rewrite Ek.
Qed.

Lemma take_code_spec code l l' :
  take_code code l = Some l' ↔
  ∃ l1 h l2, l = (l1 ++ h :: l2)%list ∧ l' = (l1 ++ l2)%list ∧ CompareHashAndPassword h code = true ∧ Forall (λ x, CompareHashAndPassword x code = false) l1.
Proof.
  revert l'. induction l as [|x l IH]; intros l'; cbn [take_code].
  - split; [done|]. intros (l1 & h & l2 & E & _). by destruct l1.
  - destruct (CompareHashAndPassword x code) eqn:Ex.
    + split; [intros [= <-]; by exists [], x, l|]. intros (l1 & h & l2 & E & -> & Hh & Hl). destruct l1 as [|y l1]; [by injection E as _ ->|].
      injection E as <- _. apply Forall_cons in Hl as [? _]. congruence.
    + rewrite fmap_Some. split.
      * intros (l0 & E & ->). apply IH in E as (l1 & h & l2 & -> & -> & Hh & Hl). exists (x :: l1), h, l2. split_and!; [done|done|done|by constructor].
      * intros (l1 & h & l2 & E & -> & Hh & Hl). destruct l1 as [|y l1]; injection E as <- E; [congruence|].
        exists (l1 ++ l2)%list. split; [|done]. apply IH. exists l1, h, l2. apply Forall_cons in Hl as [_ Hl]. done.
Qed.

(** A backup code that is accepted takes one hash it matches, and only that, off the account. *)
Theorem backup_code_once c user code c' :
  ConsumeBackupCode c user code = (c', true) →
  ∃ u l1 h l2, c_uiUsers c !! user = Some u ∧ au_backupCodes u = (l1 ++ h :: l2)%list ∧ CompareHashAndPassword h code = true ∧
    c' = c <| c_uiUsers := <[user := u <| au_backupCodes := (l1 ++ l2)%list |>]> (c_uiUsers c) |>.
Proof.
  unfold ConsumeBackupCode. destruct (c_uiUsers c !! user) as [u|]; [|done]. destruct (take_code code (au_backupCodes u)) as [l|] eqn:E; [|done].
  intros [= <-]. apply take_code_spec in E as (l1 & h & l2 & ? & -> & ? & _). by exists u, l1, h, l2.
Qed.

(** Defect: setting a password (self-service change included) makes the account afresh: the second factor and its replay counter are gone. *)
Theorem password_change_drops_totp c salt user password role c' :
  password ≠ "" → SetUIUser c salt user password role = (c', None) → UserHasTOTP c' user = false ∧ GetTOTPLastCounter c' user = 0.
Proof.
  intros Hp. unfold SetUIUser. rewrite (proj2 (String.eqb_neq _ _) Hp). cbn [negb]. destruct (validatePasswordComplexity _); [done|].
  destruct (GenerateFromPassword _ _) as [h|]; [|done]. intros [= <-]. unfold UserHasTOTP, GetTOTPLastCounter. cbn. by rewrite lookup_insert_eq.
Qed.
End second_factor.

(** ** Defects of the credential store *)

Section defects.
Context `{Unicode, Bcrypt, CharClass, Providers, Hmac, RangeOrder, UsersJSON}.

(** Defect: a roster that does not parse leaves a node that starts with no other credential unconfigured. *)
Theorem corrupt_roster_opens data secret salt path moved :
  path ≠ "" → unmarshal_env data = None → unmarshal_records data = None →
  ∃ c, loadAuth (new_config (Some data) false secret) salt "" "" path true moved = Some c ∧ IsConfigured c = false.
Proof.
  intros Hp He Hr. unfold loadAuth, SetAuth. cbn [String.eqb negb andb]. rewrite (proj2 (String.eqb_neq _ _) Hp).
  eexists. split; [reflexivity|]. unfold LoadUIUsersFile. cbn. rewrite (proj2 (String.eqb_neq _ _) Hp), He, Hr. by destruct moved.
Qed.

(** Defect: setting the proxy credential with an empty password makes an administrator with an empty password. *)
Theorem empty_password_admin c salt user :
  user ≠ "" → ∃ c', SetAuth c salt user "" = (c', None) ∧ VerifyUIUser c' user "" = Some RoleAdmin.
Proof.
  intros Hu. unfold SetAuth. rewrite (proj2 (String.eqb_neq _ _) Hu). destruct (generate_ok salt "") as (h & -> & Hh); [cbn; lia|].
  eexists. split; [reflexivity|]. unfold VerifyUIUser. cbn. rewrite lookup_insert_eq. cbn. by rewrite Hh.
Qed.

(** Defect: the administrator whose credential is also the proxy's is deleted from the roster only; the name and password still verify, as an administrator. *)
Theorem deleted_admin_verifies c user pass c' :
  c_user c = user → user ≠ "" → CompareHashAndPassword (c_passHash c) pass = true → is_Some (c_uiUsers c !! user) →
  DeleteUIUser c user = (c', None) → UIUserExists c' user = false ∧ VerifyUIUser c' user pass = Some RoleAdmin.
Proof.
  intros Hu Hne Hp [u Hin]. unfold DeleteUIUser. rewrite Hin. case_if; [done|]. intros [= <-]. unfold UIUserExists, VerifyUIUser. cbn. rewrite lookup_delete_eq.
  rewrite Hu, String.eqb_refl, (proj2 (String.eqb_neq _ _) Hne), Hp. split; [|done].
  apply bool_decide_eq_false_2. intros [x Hx]. done.
Qed.
End defects.

(** ** Concrete accounts *)

(** Not a hash one would use. *)
Definition toy_bcrypt : Bcrypt.
Proof.
  refine {| GenerateFromPassword salt p := if (72 <? String.length p)%nat then None else Some ("h" ++ p)%string;
            CompareHashAndPassword h p := (h =? "h" ++ p)%string |}.
  - intros salt p Hp. destruct (Nat.ltb_spec 72 (String.length p)); [lia|]. eexists. split; [done|]. apply String.eqb_refl.
  - intros salt p Hp. destruct (Nat.ltb_spec 72 (String.length p)); [done|lia].
Defined.
Definition ascii_class : CharClass :=
  {| IsUpper := is_ascii_upper; IsLower := is_ascii_lower; IsDigit := in_range 48 57;
     IsUpper_ascii _ _ := eq_refl; IsLower_ascii _ _ := eq_refl; IsDigit_ascii _ _ := eq_refl |}.
Definition no_providers : Providers := {| Verify _ _ _ := false; ResolveIdentity _ := None |}.
(** The low half of the counter, then zeros. *)
Definition toy_sha1 : Sha1.
Proof.
  refine {| hmac_sha1 k d := string_of_list_ascii (take 20 (drop 4 (list_ascii_of_string d) ++ replicate 20 "000"%char)%list) |}.
  intros k d. rewrite string_length_of_list, length_take, length_app, length_replicate. lia.
Defined.

#[global] Instance Record_eq_dec : EqDecision uiUserRecord.
Proof. solve_decision. Defined.
#[global] Instance Record_countable : Countable uiUserRecord.
Proof.
  refine (inj_countable' (λ r, ([ur_Username r; ur_PassHash r; ur_Role r; ur_TOTPSecret r], ur_BackupCodes r, ur_TOTPLastCounter r))
    (λ '(l, b, n), match l with [u; p; r; t] => mkRecord u p r t b n | _ => mkRecord "" "" "" "" [] 0 end) _). by intros [].
Defined.
#[global] Instance Env_eq_dec : EqDecision uiUsersFileEnvelope.
Proof. solve_decision. Defined.
#[global] Instance Env_countable : Countable uiUsersFileEnvelope.
Proof.
  refine (inj_countable' (λ e, (ev_DefaultAuthOutcome e, ev_UnauthMode e, ev_Users e)) (λ '(d, u, l), mkEnv d u l) _). by intros [].
Defined.
Definition bit_users : UsersJSON := {|
  marshal_env e := pos_text (encode e); unmarshal_env t := decode (text_pos t); unmarshal_records _ := None; env_json e _ := bits_decode e;
|}.

#[local] Existing Instances ascii_unicode toy_bcrypt ascii_class no_providers toy_hmac default_range bit_users toy_sha1.

Definition base_config : Config := SetUIUsersFile (new_config None false "s") "/u".
(** One administrator, who is also the proxy's user, with a second factor. *)
Definition root_config : Config := (SetTOTPSecret (SetAuth base_config "" "root" "Passw0rd").1 "root" "GEZDGNBVGY3TQOJQ" ["hcode"]).1.
Definition two_config : Config := (SetUIUser root_config "" "ann" "Passw0rdX" RoleAdmin).1.

Lemma verify_transparent_witness :
  let c := (verify_finish root_config 0 (snapshotAuthBackend root_config) "ip" "root" "Passw0rd").1 in
  let sn := snapshotAuthBackend root_config in
  verify_lookup c 1 sn "root" "Passw0rd" = Some true ∧
  ((∀ now b, verify_lookup c now sn "root" "Passw0rd" = Some b → b = verdict sn "root" "Passw0rd" ∨ hmac_collision (c_secret c) "root" "Passw0rd") ∧
   (∀ now now' client, verify_lookup c now sn "root" "Passw0rd" = None → (verify_finish c now' sn client "root" "Passw0rd").2 = verdict sn "root" "Passw0rd")).
Proof.
  intros c sn. split; [vm_compute; reflexivity|]. apply (verify_transparent root_config c [sn] sn "root" "Passw0rd").
  - split; [apply empty_inv|]. intros k e E. vm_compute in E. discriminate.
  - eapply rtc_l; [apply v_snapshot|]. apply rtc_once. apply v_finish; [left|reflexivity|vm_compute; reflexivity|vm_compute; reflexivity].
  - left.
  - vm_compute; reflexivity.
  - vm_compute; reflexivity.
Defined.

Lemma roster_survives_witness :
  let c1 := (SaveUIUsersFile two_config ReplacedNotSynced).1 in let c2 := reboot c1 "t" in
  c_uiUsers c2 = c_uiUsers two_config ∧ c_default c2 = DefaultAuthOutcome two_config ∧ (c_user c2 ≠ "" ↔ has_admin two_config).
Proof.
  apply (roster_survives two_config ReplacedNotSynced (SaveUIUsersFile two_config ReplacedNotSynced).1 (Some ReplacedNotSynced) "t");
    [discriminate|vm_compute; reflexivity|left; reflexivity|reflexivity|discriminate].
Defined.


Lemma totp_once_witness :
  accepted root_config "root" [(3000, six_digits 100); (3010, six_digits 100); (3010, six_digits 101)] = [100; 101] ∧
  StronglySorted Z.lt (0 :: accepted root_config "root" [(3000, six_digits 100); (3010, six_digits 100); (3010, six_digits 101)]).
Proof.
  split; [vm_compute; reflexivity|].
  apply (totp_once root_config "root" [(3000, six_digits 100); (3010, six_digits 100); (3010, six_digits 101)]); [vm_compute; discriminate|].
  repeat constructor; vm_compute; discriminate.
Defined.

(** Defect: the last administrator cannot be deleted but can be demoted; once that is saved, the next start finds no administrator, is not configured,
    and so asks nobody for credentials. *)
Theorem demotion_reopens_setup :
  let c1 := (SetUIUser root_config "" "root" "" RoleViewer).1 in
  let c2 := (SaveUIUsersFile c1 Written).1 in
  DeleteUIUser root_config "root" = (root_config, Some ErrLastAdmin) ∧ IsConfigured c2 = true ∧ IsConfigured (reboot c2 "t") = false.
Proof. vm_compute. done. Qed.

(** The hypotheses of [deleted_admin_verifies] are those of an installation with two administrators. *)
Example deleted_admin_example :
  let c := (DeleteUIUser two_config "root").1 in UIUserExists c "root" = false ∧ VerifyUIUser c "root" "Passw0rd" = Some RoleAdmin.
Proof. vm_compute. done. Qed.
