(* ===== verification/AdminAuth.v ===== *)
(** * Administrators: login, sessions and accounts at the management API

    The handlers of [ui_auth.go], [ui_middleware.go], [ui_rbac.go], [login_input_bounds.go] and the account part of [ui_config.go], over the login limiter
    of [Lockout], the accounts of [Accounts] and the sessions of [Session].

    [Admin] is the state of a process.  A handler is a function of it and of what its request carries: the cookie, Basic credentials, the body its JSON decodes
    to ([None]: it does not), the client's address.  [tk i] is the [i]-th reading of the clock in the handler, [salt] and [jti] the random values it draws,
    [w] the outcome of writing the roster.  Handlers run one at a time; where two overlapping ones matter, the sections are separate
    ([setup_check], [setup_commit]; [totp_race] in [Accounts]).  Audit lines, alerts, the 300 ms delay and the settings file [apiDefaultAuthOutcome]
    rewrites are not modelled.

    - [admin_gate]: who passes [uiAuthMiddleware] to an API, and as what.
    - [login_sound]: what a login that issues a session has checked, and what the session says.
    - [locked_login_blind]: a locked login looks at no credential.
    - [setup_durable], [setup_once]: a setup that reports success survives a restart, and happens once.
    - [deletion_refuses]: the sessions of a deleted administrator are refused.
    - [proxy_session_is_admin], [basic_skips_second_factor], [demoted_session_keeps_role], [setup_rollback_diverges]: defects. *)

From S2P Require Import Prelude GoStrings GoBase64 Lockout PolicyRule Session AuthCache Accounts.

Definition maxUsernameLen : nat := 256.

Record Admin := mkAdmin { ad_cfg : Config; ad_limiter : LoginLimiter; ad_node : Node; ad_oversize : Z }.
#[global] Instance Admin_eta : Eta Admin := λ a, mkAdmin (ad_cfg a) (ad_limiter a) (ad_node a) (ad_oversize a).

(** ** The gate *)

Definition isPublicUIAuthPath (path : string) : bool :=
  HasPrefix path "/api/setup" || (path =? "/api/auth/login")%string || (path =? "/api/auth/logout")%string || (path =? "/api/auth/status")%string ||
  HasPrefix path "/api/auth/totp" || HasPrefix path "/auth/" || (path =? "/proxy.pac")%string || HasPrefix path "/pac/" ||
  HasPrefix path "/api/cluster/bootstrap/".

(** What the request carries for authentication. *)
Record Request := mkRequest { rq_path : string; rq_cookie : option string; rq_basic : option (string * string) }.
(** The request goes on, with the role and the user in its context, or is refused. *)
Inductive Gate := Next (role : option string) (user : option string) | Unauthorized.

Section gate.
Context `{SessionJSON, Hmac, Bcrypt}.

Definition session_role (s : Session) : string := if HasRole (se_Role s) RoleViewer then se_Role s else RoleAdmin.

Definition uiAuthMiddleware (a : Admin) (tk : nat → Instant) (q : Request) : Admin * Gate :=
  if isPublicUIAuthPath (rq_path q) then (a, Next None None) else
  if negb (IsConfigured (ad_cfg a)) then (a, Next (Some RoleAdmin) None) else
  if negb (HasPrefix (rq_path q) "/api/") then (a, Next None None) else
  let '(n, sess) := read_cookie (ad_node a) (tk 0%nat) (tk 1%nat) (tk 2%nat) (rq_cookie q) in
  let a := a <| ad_node := n |> in
  match sess with
  | Some (inr s) =>
      if (se_Provider s =? "local")%string && negb (UIUserExists (ad_cfg a) (se_Sub s)) then (a, Unauthorized)
      else (a, Next (Some (session_role s)) None)
  | _ =>
      match rq_basic q with
      | Some (user, pass) =>
          match VerifyUIUser (ad_cfg a) user pass with
          | Some role => (a, Next (Some role) (Some user))
          | None => (a, Unauthorized)
          end
      | None => (a, Unauthorized)
      end
  end.

Definition uiRole (role : option string) : string := match role with Some r => if (r =? "")%string then RoleViewer else r | None => RoleViewer end.
Definition requireRole (role : option string) (min : string) : bool := HasRole (uiRole role) min.
Definition sessionAdmin (n : Node) (t1 t2 t3 : Instant) (cookie : option string) (user : option string) : Node * string :=
  let '(n, sess) := read_cookie n t1 t2 t3 cookie in
  let fallback := match user with Some u => if (u =? "")%string then "unknown" else u | None => "unknown" end in
  (n, match sess with
      | Some (inr s) => if negb (se_Sub s =? "")%string then se_Sub s else if negb (se_Email s =? "")%string then se_Email s else fallback
      | _ => fallback
      end).

(** [apiAuthStatus]: the user and the role, when logged in. *)
Definition apiAuthStatus (a : Admin) (tk : nat → Instant) (q : Request) : Admin * option (string * string) :=
  if negb (IsConfigured (ad_cfg a)) then (a, Some ("", RoleAdmin)) else
  let '(n, sess) := read_cookie (ad_node a) (tk 0%nat) (tk 1%nat) (tk 2%nat) (rq_cookie q) in
  let a := a <| ad_node := n |> in
  match sess with
  | Some (inr s) => (a, Some (se_Sub s, session_role s))
  | _ => match rq_basic q with
         | Some (user, pass) => (a, (λ role, (user, role)) <$> VerifyUIUser (ad_cfg a) user pass)
         | None => (a, None)
         end
  end.
End gate.

(** ** Login *)

Inductive LoginResponse :=
  | LMethod | LBadJSON | LNameTooLong | LLocked (secs : Z) | LTotpRequired | LBadTotp | LBadCredentials
  | LOk (user role : string) (cookie : option string).
Record LoginBody := mkLogin { lb_User : string; lb_Pass : string; lb_TOTP : string }.

Section login.
Context `{Unicode, Bcrypt, CharClass, Sha1, Sha256, SessionJSON, Hmac, RangeOrder, UsersJSON}.

Definition rejectOversizeLoginUser (a : Admin) (user : string) : Admin * bool :=
  if (String.length user <=? maxUsernameLen)%nat then (a, false) else
  if LoginNameConfigured (ad_cfg a) user then (a, false) else
  (a <| ad_oversize := ad_oversize a + 1 |>, true).

(** A failure: recorded, then the answer, for which the lock is read once more. *)
Definition fail_login (a : Admin) (t t' : Instant) (ip user : string) (bad : LoginResponse) (w : option WriteResult) : Admin * LoginResponse :=
  let '(nowLocked, l) := RecordFailure (ad_limiter a) t ip user in
  let a := a <| ad_limiter := l |> in
  let a := match w with Some w => a <| ad_cfg := (SaveUIUsersFile (ad_cfg a) w).1 |> | None => a end in
  if nowLocked then
    let '((_, secs), l) := Check_login (ad_limiter a) t' ip user in (a <| ad_limiter := l |>, LLocked secs)
  else (a, bad).

(** [verifyLoginTOTP]: [None] lets the login go on. *)
Definition verifyLoginTOTP (a : Admin) (tk : nat → Instant) (ip user code : string) (w : WriteResult) : Admin * option LoginResponse :=
  if negb (UserHasTOTP (ad_cfg a) user) then (a, None) else
  if (code =? "")%string then (a, Some LTotpRequired) else
  match totp_attempt (ad_cfg a) user code (Unix (tk 1%nat)) with
  | (c, Some _) => (a <| ad_cfg := (SaveUIUsersFile c w).1 |>, None)
  | (_, None) =>
      match ConsumeBackupCode (ad_cfg a) user code with
      | (c, true) => (a <| ad_cfg := (SaveUIUsersFile c w).1 |>, None)
      | (_, false) => let '(a, r) := fail_login a (tk 2%nat) (tk 3%nat) ip user LBadTotp (Some w) in (a, Some r)
      end
  end.

Definition apiAuthLogin (a : Admin) (tk : nat → Instant) (post : bool) (body : option LoginBody) (ip jti : string) (w : WriteResult) : Admin * LoginResponse :=
  if negb post then (a, LMethod) else
  match body with
  | None => (a, LBadJSON)
  | Some (mkLogin user pass code) =>
      let '(a, rejected) := rejectOversizeLoginUser a user in
      if rejected then (a, LNameTooLong) else
      let '((locked, secs), l) := Check_login (ad_limiter a) (tk 0%nat) ip user in
      let a := a <| ad_limiter := l |> in
      if locked then (a, LLocked secs) else
      let verified := VerifyUIUser (ad_cfg a) user pass in
      let preSetup := negb (IsConfigured (ad_cfg a)) in
      match (if preSetup then Some RoleAdmin else verified) with
      | Some role =>
          match verifyLoginTOTP a tk ip user code w with
          | (a, Some r) => (a, r)
          | (a, None) =>
              let a := a <| ad_limiter := RecordSuccess (ad_limiter a) (tk 4%nat) ip user |> in
              if preSetup then (a, LOk user role None)
              else (a, LOk user role (Some (setUISessionCookie (ad_node a) (tk 5%nat) jti user role)))
          end
      | None => fail_login a (tk 2%nat) (tk 3%nat) ip user LBadCredentials None
      end
  end.
End login.

(** ** Accounts *)

Inductive Reply := ROk | RNoContent | RBadRequest | RUnauthorized | RForbidden | RConflict | RTooMany | RError.

Section accounts.
Context `{Unicode, Bcrypt, CharClass, Sha256, SessionJSON, Hmac, RangeOrder, UsersJSON}.

Definition save (a : Admin) (w : WriteResult) : Admin := a <| ad_cfg := (SaveUIUsersFile (ad_cfg a) w).1 |>.
Definition name_length_ok (name : string) : bool := (1 <=? String.length name)%nat && (String.length name <=? 64)%nat.

(** [POST /api/auth/users]: the name, password and role of the body. *)
Definition apiAuthUsers_post (a : Admin) (salt : string) (role : option string) (body : option (string * string * string)) (w : WriteResult) : Admin * Reply :=
  if negb (requireRole role RoleAdmin) then (a, RForbidden) else
  match body with
  | None => (a, RBadRequest)
  | Some (name, password, newRole) =>
      let name := TrimSpace name in
      if negb (name_length_ok name) then (a, RBadRequest) else
      if negb (password =? "")%string && bool_decide (is_Some (validatePasswordComplexity password)) then (a, RBadRequest) else
      if negb (HasRole newRole RoleViewer) then (a, RBadRequest) else
      match SetUIUser (ad_cfg a) salt name password newRole with
      | (c, Some _) => (a <| ad_cfg := c |>, RBadRequest)
      | (c, None) => (save (a <| ad_cfg := c |>) w, ROk)
      end
  end.
(** [DELETE /api/auth/users?username=...] *)
Definition apiAuthUsers_delete (a : Admin) (now : Instant) (role : option string) (param : string) (w : WriteResult) : Admin * Reply :=
  if negb (requireRole role RoleAdmin) then (a, RForbidden) else
  let username := TrimSpace param in
  if (username =? "")%string then (a, RBadRequest) else
  match DeleteUIUser (ad_cfg a) username with
  | (c, Some _) => (a, RConflict)
  | (c, None) => let a := save (a <| ad_cfg := c |>) w in (a <| ad_node := RevokeUser (ad_node a) now username |>, RNoContent)
  end.
Definition apiAuthLockouts_post (a : Admin) (role : option string) (body : option string) : Admin * Reply :=
  if negb (requireRole role RoleAdmin) then (a, RForbidden) else
  match body with
  | None => (a, RBadRequest)
  | Some name => let name := TrimSpace name in
                 if (name =? "")%string then (a, RBadRequest) else (a <| ad_limiter := ResetUser (ad_limiter a) name |>, ROk)
  end.

Definition apiAuthChangePassword (a : Admin) (tk : nat → Instant) (salt : string) (q : Request) (role user : option string)
    (body : option (string * string)) (w : WriteResult) : Admin * Reply :=
  if negb (requireRole role RoleViewer) then (a, RForbidden) else
  let '(n, username) := sessionAdmin (ad_node a) (tk 0%nat) (tk 1%nat) (tk 2%nat) (rq_cookie q) user in
  let a := a <| ad_node := n |> in
  if (username =? "")%string || (username =? "unknown")%string then (a, RUnauthorized) else
  match body with
  | None => (a, RBadRequest)
  | Some (current, new) =>
      if (current =? "")%string || (new =? "")%string then (a, RBadRequest) else
      match VerifyUIUser (ad_cfg a) username current with
      | None => (a, RForbidden)
      | Some _ =>
          match validatePasswordComplexity new with
          | Some _ => (a, RBadRequest)
          | None =>
              let keep := match List.find (λ u, (ui_Username u =? username)%string) (ListUIUsers (ad_cfg a)) with Some u => ui_Role u | None => "" end in
              let keep := if (keep =? "")%string then RoleAdmin else keep in
              match SetUIUser (ad_cfg a) salt username new keep with
              | (c, Some _) => (a <| ad_cfg := c |>, RBadRequest)
              | (c, None) => (save (a <| ad_cfg := c |>) w, ROk)
              end
          end
      end
  end.

(** [POST /api/settings]: the proxy credential. *)
Definition apiSettings_post (a : Admin) (salt : string) (role : option string) (body : option (string * string)) : Admin * Reply :=
  if negb (requireRole role RoleAdmin) then (a, RForbidden) else
  match body with
  | None => (a, RBadRequest)
  | Some (user, pass) =>
      if negb (pass =? "")%string && bool_decide (is_Some (validatePasswordComplexity pass)) then (a, RBadRequest) else
      match SetAuth (ad_cfg a) salt user pass with
      | (c, Some _) => (a <| ad_cfg := c |>, RError)
      | (c, None) => (a <| ad_cfg := c |>, ROk)
      end
  end.
Definition apiDefaultAuthOutcome (a : Admin) (role : option string) (body : option string) (w : WriteResult) : Admin * Reply :=
  if negb (requireRole role RoleAdmin) then (a, RForbidden) else
  match body with
  | None => (a, RBadRequest)
  | Some outcome =>
      if negb ((outcome =? OutcomeDefault)%string || (outcome =? OutcomeExempt)%string) then (a, RBadRequest) else
      match setDefaultAuthOutcomeChecked (ad_cfg a) outcome w with
      | (c, Some NotWritten) | (c, Some Written) => (a <| ad_cfg := c |>, RError)
      | (c, _) => (a <| ad_cfg := c |>, ROk)
      end
  end.

(** ** First-time setup *)

Record SetupBody := mkSetup { sb_User : string; sb_Pass : string; sb_Unauth : bool }.
Definition setupKey : string := "setup".

(** [apiSetupComplete] up to its lock: the body that was accepted, its name trimmed. *)
Definition setup_check (a : Admin) (tk : nat → Instant) (ip : string) (body : option SetupBody) : Admin * (Reply + SetupBody) :=
  let '((locked, _), l) := CheckPair (ad_limiter a) (tk 0%nat) ip setupKey in
  let a := a <| ad_limiter := l |> in
  if locked then (a, inl RTooMany) else
  if IsConfigured (ad_cfg a) then (a, inl RForbidden) else
  match body with
  | None => (a, inl RBadRequest)
  | Some b =>
      if sb_Unauth b then (a, inr b) else
      let user := TrimSpace (sb_User b) in
      let bad := (a <| ad_limiter := (RecordPairFailure (ad_limiter a) (tk 1%nat) ip setupKey).2 |>, inl RBadRequest) in
      if negb (name_length_ok user) then bad else
      match validatePasswordComplexity (sb_Pass b) with
      | Some _ => bad
      | None => (a, inr (mkSetup user (sb_Pass b) (sb_Unauth b)))
      end
  end.
(** Under the lock: the reply, and the cookie of the new administrator. *)
Definition setup_commit (a : Admin) (now : Instant) (salt jti : string) (b : SetupBody) (w : WriteResult) : Admin * Reply * option string :=
  if IsConfigured (ad_cfg a) then (a, RForbidden, None) else
  if sb_Unauth b then
    match setDefaultAuthOutcomeChecked (ad_cfg a) OutcomeExempt w with
    | (c, Some _) => (a <| ad_cfg := c |>, RError, None)
    | (c, None) => (a <| ad_cfg := c |>, ROk, None)
    end
  else
    match SetAuth (ad_cfg a) salt (sb_User b) (sb_Pass b) with
    | (c, Some _) => (a <| ad_cfg := c |>, RError, None)
    | (c, None) =>
        match SaveUIUsersFile c w with
        | (c, Some _) => (a <| ad_cfg := RollbackFailedSetupAuth c (sb_User b) |>, RError, None)
        | (c, None) => (a <| ad_cfg := c |>, ROk, Some (setUISessionCookie (ad_node a) now jti (sb_User b) RoleAdmin))
        end
    end.
Definition apiSetupComplete (a : Admin) (tk : nat → Instant) (salt ip jti : string) (body : option SetupBody) (w : WriteResult) : Admin * Reply * option string :=
  match setup_check a tk ip body with
  | (a, inl r) => (a, r, None)
  | (a, inr b) => setup_commit a (tk 2%nat) salt jti b w
  end.
End accounts.

(** ** Who passes *)

Definition api_path (path : string) : Prop := isPublicUIAuthPath path = false ∧ HasPrefix path "/api/" = true.

Section passing.
Context `{Unicode, Bcrypt, CharClass, Sha1, Sha256, SessionJSON, Hmac, RangeOrder, UsersJSON}.

(** The session the cookie is accepted as. *)
Definition cookie_session (n : Node) (tk : nat → Instant) (cookie : option string) : option Session :=
  match cookie with
  | Some raw => match (Decode n (tk 0%nat) (tk 1%nat) (tk 2%nat) raw).2 with inr s => Some s | inl _ => None end
  | None => None
  end.
Lemma read_cookie_session n tk cookie :
  match (read_cookie n (tk 0%nat) (tk 1%nat) (tk 2%nat) cookie).2 with Some (inr s) => Some s | _ => None end = cookie_session n tk cookie.
Proof. destruct cookie as [raw|]; [|done]. cbn. destruct (Decode n _ _ _ raw) as [n' [e|s]]; done. Qed.

Lemma gate_spec a tk q :
  api_path (rq_path q) → IsConfigured (ad_cfg a) = true →
  (uiAuthMiddleware a tk q).2 =
  match cookie_session (ad_node a) tk (rq_cookie q) with
  | Some s => if (se_Provider s =? "local")%string && negb (UIUserExists (ad_cfg a) (se_Sub s)) then Unauthorized else Next (Some (session_role s)) None
  | None =>
      match rq_basic q with
      | Some (user, pass) => match VerifyUIUser (ad_cfg a) user pass with Some role => Next (Some role) (Some user) | None => Unauthorized end
      | None => Unauthorized
      end
  end.
Proof.
  intros [Hp Ha] Hc. rewrite <- read_cookie_session. unfold uiAuthMiddleware. rewrite Hp, Hc, Ha. cbn [negb].
  destruct (read_cookie _ _ _ _ _) as [n [[e|s]|]]; cbn; [|case_if; done|];
    (destruct (rq_basic q) as [[user pass]|]; [|done]; by destruct (VerifyUIUser _ _ _)).
Qed.

(** C6: On a configured node a request to a management API goes on exactly when its session cookie is accepted and, for a local account, the account still exists, or when it has no accepted
    cookie and Basic credentials that verify; the role is the session's (an administrator's if it has no known role), or the account's. *)
Theorem admin_gate a tk q role user :
  api_path (rq_path q) → IsConfigured (ad_cfg a) = true →
  (uiAuthMiddleware a tk q).2 = Next role user ↔
  (∃ raw s n', rq_cookie q = Some raw ∧ Decode (ad_node a) (tk 0%nat) (tk 1%nat) (tk 2%nat) raw = (n', inr s) ∧
     (se_Provider s = "local" → is_Some (c_uiUsers (ad_cfg a) !! se_Sub s)) ∧
     role = Some (if HasRole (se_Role s) RoleViewer then se_Role s else RoleAdmin) ∧ user = None) ∨
  ((∀ raw n' s, rq_cookie q = Some raw → Decode (ad_node a) (tk 0%nat) (tk 1%nat) (tk 2%nat) raw ≠ (n', inr s)) ∧
   ∃ name pass r, rq_basic q = Some (name, pass) ∧ VerifyUIUser (ad_cfg a) name pass = Some r ∧ role = Some r ∧ user = Some name).
Proof.
  intros Hp Hc. rewrite gate_spec by done. unfold cookie_session. destruct (rq_cookie q) as [raw|] eqn:Eq.
  - destruct (Decode (ad_node a) _ _ _ raw) as [n' [e|s]] eqn:Ed; cbn.
    + split.
      * destruct (rq_basic q) as [[name pass]|] eqn:Eb; [|done]. destruct (VerifyUIUser (ad_cfg a) name pass) as [r|] eqn:Ev; [|done].
        intros [= <- <-]. right. split; [|by exists name, pass, r]. intros raw' n1 s' [= <-]. congruence.
      * intros [(raw' & s & n1 & [= <-] & E & _)|(_ & name & pass & r & -> & -> & -> & ->)]; [congruence|done].
    + split.
      * destruct (_ && _) eqn:El; [done|]. intros [= <- <-]. left. exists raw, s, n'. split_and!; try done. intros Hl.
        apply andb_false_iff in El as [El|El]; bprop; [congruence|]. unfold UIUserExists in El. by apply bool_decide_eq_true in El.
      * intros [(raw' & s' & n1 & [= <-] & E & Hl & -> & ->)|(Hn & _)]; [|by destruct (Hn raw n' s)]. rewrite E in Ed. injection Ed as -> ->.
        destruct (se_Provider s =? "local")%string eqn:El; cbn; [|done]. bprop. unfold UIUserExists. rewrite bool_decide_eq_true_2 by auto. done.
  - split.
    + destruct (rq_basic q) as [[name pass]|] eqn:Eb; [|done]. destruct (VerifyUIUser (ad_cfg a) name pass) as [r|] eqn:Ev; [|done].
      intros [= <- <-]. right. split; [done|by exists name, pass, r].
    + intros [(raw' & s & n1 & ? & _)|(_ & name & pass & r & -> & -> & -> & ->)]; done.
Qed.

(** C18: Defect: a proxy user's session, whatever identity provider it comes from, presented as the administrators' cookie, is an administrator's: both kinds are signed with one key, and
    nothing in a session says which it is. *)
Theorem proxy_session_is_admin a tk path basic now jti id :
  api_path path → IsConfigured (ad_cfg a) = true → id_Provider id ≠ "local" →
  let s := mkSession (id_Sub id) (id_Email id) (id_Name id) (id_Groups id) (id_Provider id) "" (Unix (now + nd_ttl (ad_node a))) jti in
  session_encodable s = true → Unix (tk 1%nat) ≤ se_Exp s →
  nd_tokens (ad_node a) !! EncodeToString (marshal_session s) = None → nd_users (ad_node a) !! id_Sub id = None →
  (uiAuthMiddleware a tk (mkRequest path (Some (setSessionCookie (ad_node a) now jti id)) basic)).2 = Next (Some RoleAdmin) None.
Proof.
  intros Hp Hc Hpv s Hs Ht Htok Husr. rewrite gate_spec by done. cbn [rq_cookie cookie_session].
  assert (∃ n', Decode (ad_node a) (tk 0%nat) (tk 1%nat) (tk 2%nat) (Encode (ad_node a) s) = (n', inr s)) as [n' E].
  { apply decode_signed. split_and!; [by apply encoded_carries|intros e He; congruence|done|right; intros e He; cbn in He; congruence]. }
  unfold setSessionCookie. fold s. rewrite E. cbn. by rewrite (proj2 (String.eqb_neq _ _) Hpv).
Qed.

(** Defect: Basic credentials pass with the password alone, and neither consult nor feed the lockout: the state is unchanged by a failure. *)
Theorem basic_skips_second_factor a tk path user pass :
  api_path path → IsConfigured (ad_cfg a) = true →
  uiAuthMiddleware a tk (mkRequest path None (Some (user, pass))) =
  (a, match VerifyUIUser (ad_cfg a) user pass with Some role => Next (Some role) (Some user) | None => Unauthorized end).
Proof.
  intros [Hp Ha] Hc. unfold uiAuthMiddleware. cbn [rq_path rq_cookie rq_basic]. rewrite Hp, Hc, Ha. cbn. destruct a. by destruct (VerifyUIUser _ _ _).
Qed.

(** ** Login *)

(** The answer to a locked login is the lock's; no credential is looked at, and nothing but the limiter changes. *)
Theorem locked_login_blind a tk user pass code ip jti w secs l :
  (String.length user ≤ maxUsernameLen)%nat → Check_login (ad_limiter a) (tk 0%nat) ip user = ((true, secs), l) →
  apiAuthLogin a tk true (Some (mkLogin user pass code)) ip jti w = (a <| ad_limiter := l |>, LLocked secs).
Proof. intros Hu E. unfold apiAuthLogin, rejectOversizeLoginUser. cbn [negb]. by rewrite (proj2 (Nat.leb_le _ _) Hu), E. Qed.

Lemma save_users c w : c_uiUsers (SaveUIUsersFile c w).1 = c_uiUsers c.
Proof. unfold SaveUIUsersFile. case_if; [done|]. by destruct w. Qed.

Lemma totp_passed a tk ip user code w a' :
  verifyLoginTOTP a tk ip user code w = (a', None) → UserHasTOTP (ad_cfg a) user = true →
  (∃ k, totp_read (ad_cfg a) user code (Unix (tk 1%nat)) = (true, k) ∧ k ≤ GetTOTPLastCounter (ad_cfg a') user) ∨
  (∃ c, ConsumeBackupCode (ad_cfg a) user code = (c, true) ∧ c_uiUsers (ad_cfg a') = c_uiUsers c).
Proof.
  unfold verifyLoginTOTP. intros E Ht. rewrite Ht in E. cbn [negb] in E. destruct (code =? "")%string; [done|]. unfold totp_attempt in E.
  destruct (totp_read (ad_cfg a) user code (Unix (tk 1%nat))) as [[|] k] eqn:Er.
  - injection E as <-. left. exists k. split; [done|]. unfold GetTOTPLastCounter.
    match goal with |- context [ad_cfg ?x] => change (ad_cfg x) with (SaveUIUsersFile (SetTOTPLastCounter (ad_cfg a) user k).1 w).1 end. rewrite save_users.
    unfold SetTOTPLastCounter, UserHasTOTP in *. destruct (c_uiUsers (ad_cfg a) !! user) as [u|] eqn:Eu; [|done]. cbn.
    destruct (k >? au_totpLastCounter u) eqn:Ek; bprop; cbn; [rewrite lookup_insert_eq; cbn; lia|rewrite Eu; lia].
  - destruct (ConsumeBackupCode (ad_cfg a) user code) as [c [|]] eqn:Ec.
    + injection E as <-. right. exists c. split; [done|]. cbn. by rewrite save_users.
    + destruct (fail_login _ _ _ _ _ _ _). done.
Qed.
Lemma totp_same a tk ip user code w a' r : verifyLoginTOTP a tk ip user code w = (a', r) → ad_node a' = ad_node a.
Proof.
  unfold verifyLoginTOTP. case_if; [by intros [= <- _]|]. case_if; [by intros [= <- _]|]. destruct (totp_attempt _ _ _ _) as [c [k|]]; [by intros [= <- _]|].
  destruct (ConsumeBackupCode _ _ _) as [c' [|]]; [by intros [= <- _]|]. unfold fail_login. destruct (RecordFailure _ _ _ _) as [lk l].
  destruct lk; [|by intros [= <- _]]. cbn. destruct (Check_login _ _ _ _) as [[? ?] ?]. by intros [= <- _].
Qed.

Lemma fail_no_ok a t t' ip user bad w a' u r ck : fail_login a t t' ip user bad w = (a', LOk u r ck) → bad = LOk u r ck.
Proof.
  unfold fail_login. destruct (RecordFailure _ _ _ _) as [[|] l]; [|by intros [= _ ->]]. cbn. by destruct (Check_login _ _ _ _) as [[? ?] ?].
Qed.
Lemma totp_no_ok a tk ip user code w a' u r ck : verifyLoginTOTP a tk ip user code w ≠ (a', Some (LOk u r ck)).
Proof.
  unfold verifyLoginTOTP. case_if; [done|]. case_if; [done|]. destruct (totp_attempt _ _ _ _) as [c [k|]]; [done|].
  destruct (ConsumeBackupCode _ _ _) as [c' [|]]; [done|]. destruct (fail_login _ _ _ _ _ _ _) as [a1 r1] eqn:E.
  intros [= -> ->]. by apply fail_no_ok in E.
Qed.

(** C4: A login that issues a session found the limiter open for this address and account, verified the password against the roster (whose role it gives), and, where the account has
    a second factor, accepted a code of a step later than every one used (now on record) or used up a backup code; the cookie is the
    signed session of that user and role. *)
Theorem login_sound a tk body ip jti w a' user role cookie :
  apiAuthLogin a tk true body ip jti w = (a', LOk user role (Some cookie)) →
  ∃ pass code, body = Some (mkLogin user pass code) ∧ IsConfigured (ad_cfg a) = true ∧ (Check_login (ad_limiter a) (tk 0%nat) ip user).1.1 = false ∧
    VerifyUIUser (ad_cfg a) user pass = Some role ∧
    (UserHasTOTP (ad_cfg a) user = true →
     (∃ k, totp_read (ad_cfg a) user code (Unix (tk 1%nat)) = (true, k) ∧ k ≤ GetTOTPLastCounter (ad_cfg a') user) ∨
     (∃ c, ConsumeBackupCode (ad_cfg a) user code = (c, true) ∧ c_uiUsers (ad_cfg a') = c_uiUsers c)) ∧
    cookie = Encode (ad_node a) (mkSession user "" "" [] "local" role (Unix (tk 5%nat + nd_ttl (ad_node a))) jti).
Proof.
  unfold apiAuthLogin. cbn [negb]. destruct body as [[u pass code]|]; [|done].
  assert (∃ a0 rej, rejectOversizeLoginUser a u = (a0, rej) ∧ ad_cfg a0 = ad_cfg a ∧ ad_limiter a0 = ad_limiter a ∧ ad_node a0 = ad_node a)
    as (a0 & rej & -> & Hcfg & Hlim & Hnode) by (unfold rejectOversizeLoginUser; repeat case_if; by do 2 eexists).
  destruct rej; [done|]. rewrite Hlim. destruct (Check_login (ad_limiter a) (tk 0%nat) ip u) as [[locked secs] l] eqn:Ec.
  destruct locked; [done|]. cbn [ad_cfg]. set (a1 := a0 <| ad_limiter := l |>). change (ad_cfg a1) with (ad_cfg a0). rewrite Hcfg.
  destruct (IsConfigured (ad_cfg a)) eqn:Ei; cbn [negb].
  - destruct (VerifyUIUser (ad_cfg a) u pass) as [r|] eqn:Ev; [|intros E; by apply fail_no_ok in E].
    destruct (verifyLoginTOTP a1 tk ip u code w) as [a2 [resp|]] eqn:Et; [intros [= _ ->]; exfalso; revert Et; apply totp_no_ok|].
    intros [= <- <- <- <-]. exists pass, code. split_and!; try done.
    + by rewrite Ec.
    + intros Hh. pose proof (totp_passed _ _ _ _ _ _ _ Et) as Hp. change (ad_cfg a1) with (ad_cfg a0) in Hp. rewrite Hcfg in Hp. by apply Hp.
    + apply totp_same in Et. cbn. unfold setUISessionCookie. rewrite Et. change (ad_node a1) with (ad_node a0). by rewrite Hnode.
  - destruct (verifyLoginTOTP a1 tk ip u code w) as [a2 [resp|]] eqn:Et; [intros [= _ ->]; exfalso; revert Et; apply totp_no_ok|done].
Qed.
End passing.

(** ** Setup *)

Section setup.
Context `{Unicode, Bcrypt, CharClass, Sha256, SessionJSON, Hmac, RangeOrder, UsersJSON, Providers}.

Lemma setup_checked a tk ip body a' b :
  setup_check a tk ip body = (a', inr b) → ad_cfg a' = ad_cfg a ∧ ad_node a' = ad_node a ∧ (sb_Unauth b = false → sb_User b ≠ "").
Proof.
  unfold setup_check. destruct (CheckPair _ _ _ _) as [[locked ?] l]. destruct locked; [done|]. case_if; [done|]. destruct body as [b0|]; [|done].
  destruct (sb_Unauth b0) eqn:Eu; [intros [= <- <-]; split_and!; [done|done|congruence]|].
  destruct (name_length_ok (TrimSpace (sb_User b0))) eqn:En; cbn [negb]; [|done]. destruct (validatePasswordComplexity _); [done|].
  intros [= <- <-]. split_and!; [done|done|]. cbn. intros _ E. rewrite E in En. done.
Qed.

Lemma check_not_ok a tk ip body a' : setup_check a tk ip body ≠ (a', inl ROk).
Proof.
  unfold setup_check. destruct (CheckPair _ _ _ _) as [[locked ?] l]. destruct locked; [done|]. case_if; [done|]. destruct body as [b|]; [|done].
  case_if; [done|]. case_if; [done|]. by destruct (validatePasswordComplexity _).
Qed.

(** What the configuration of a successful setup is: the write was done, on an installation that was not configured. *)
Lemma setup_committed a now salt jti b w a' ck :
  setup_commit a now salt jti b w = (a', ROk, ck) → (sb_Unauth b = false → sb_User b ≠ "") →
  IsConfigured (ad_cfg a) = false ∧ IsConfigured (ad_cfg a') = true ∧ ad_node a' = ad_node a ∧
  ∃ c, SaveUIUsersFile c w = (ad_cfg a', None) ∧ (c_default c = OutcomeExempt ∨ has_admin c).
Proof.
  intros E Hu. unfold setup_commit in E. destruct (IsConfigured (ad_cfg a)) eqn:Ei; [done|]. destruct (sb_Unauth b) eqn:Eb.
  - unfold setDefaultAuthOutcomeChecked in E. rewrite String.eqb_refl in E. set (c := (ad_cfg a) <| c_default := OutcomeExempt |>) in *.
    destruct (SaveUIUsersFile c w) as [c1 [[| |]|]] eqn:Es; try done. injection E as <- _. split_and!; try done; [|by exists c; split; [|left]].
    cbn. assert (c_default c1 = OutcomeExempt) as Hd.
    { unfold SaveUIUsersFile in Es. case_if; [by injection Es as <-|]. destruct w; by injection Es as <-. }
    unfold IsConfigured. rewrite Hd, String.eqb_refl. by rewrite !orb_true_r.
  - specialize (Hu eq_refl). destruct (SetAuth (ad_cfg a) salt (sb_User b) (sb_Pass b)) as [c [e|]] eqn:Ea; [done|].
    destruct (SaveUIUsersFile c w) as [c1 [?|]] eqn:Es; [done|]. injection E as <- _. unfold SetAuth in Ea. rewrite (proj2 (String.eqb_neq _ _) Hu) in Ea.
    destruct (GenerateFromPassword salt (sb_Pass b)) as [h|]; [|done]. injection Ea as <-. split_and!; try done.
    + cbn. assert (c_user c1 = sb_User b) as Hcu.
      { unfold SaveUIUsersFile in Es. case_if; [by injection Es as <-|]. destruct w; by injection Es as <-. }
      unfold IsConfigured. by rewrite Hcu, (proj2 (String.eqb_neq _ _) Hu).
    + eexists. split; [done|]. right. exists (sb_User b), (mkUser h RoleAdmin "" [] 0). cbn. by rewrite lookup_insert_eq.
Qed.

(** C17: When first-time setup reports success, on a node that keeps its accounts in a file, the node is configured, and so is every later start of the process on
    that file: the setup endpoint and the open bootstrap window are closed for good. *)
Theorem setup_durable a tk salt ip jti body w a' ck secret :
  apiSetupComplete a tk salt ip jti body w = (a', ROk, ck) →
  c_usersFile (ad_cfg a') ≠ "" → env_encodable (roster_env (ad_cfg a')) = true →
  c_default (ad_cfg a') = "" ∨ c_default (ad_cfg a') = OutcomeExempt ∨ c_default (ad_cfg a') = OutcomeDefault →
  IsConfigured (ad_cfg a') = true ∧ IsConfigured (reboot (ad_cfg a') secret) = true.
Proof.
  unfold apiSetupComplete. destruct (setup_check a tk ip body) as [a1 [r|b]] eqn:Ec; [intros E; exfalso; injection E as _ -> _; by apply check_not_ok in Ec|].
  intros E Hf He Hd. apply setup_checked in Ec as (_ & _ & Hu). destruct (setup_committed _ _ _ _ _ _ _ _ E Hu) as (_ & Hc & _ & c & Hs & Hor).
  split; [done|].
  assert (w = Written ∧ c_usersFile (ad_cfg a') = c_usersFile c ∧ roster_env (ad_cfg a') = roster_env c ∧ c_default (ad_cfg a') = c_default c ∧
    c_uiUsers (ad_cfg a') = c_uiUsers c) as (-> & Ef & Ee & Edf & Eus).
  { unfold SaveUIUsersFile in Hs. destruct (c_usersFile c =? "")%string eqn:Ex; [injection Hs as Hs; bprop; rewrite <- Hs in Hf; congruence|].
    destruct w; [|done|done]. injection Hs as <-. done. }
  rewrite Ef in Hf. rewrite Ee in He. rewrite Edf in Hd.
  destruct (roster_survives_of c Written (ad_cfg a') None secret Hf He Hd Hs ltac:(done)) as (_ & Hdef & Husr). unfold IsConfigured.
  destruct Hor as [Hx|Ha]; [|by rewrite (proj2 (String.eqb_neq _ _) (proj2 Husr Ha))].
  rewrite Hdef. unfold DefaultAuthOutcome. rewrite Hx, String.eqb_refl. by rewrite !orb_true_r.
Qed.

(** Of two setups that overlap, both past their first check, one at most is done. *)
Theorem setup_once a tk1 tk2 ip1 ip2 body1 body2 a1 b1 a2 b2 now1 now2 salt1 salt2 jti1 jti2 w1 w2 a3 ck :
  setup_check a tk1 ip1 body1 = (a1, inr b1) → setup_check a1 tk2 ip2 body2 = (a2, inr b2) →
  setup_commit a2 now1 salt1 jti1 b1 w1 = (a3, ROk, ck) → setup_commit a3 now2 salt2 jti2 b2 w2 = (a3, RForbidden, None).
Proof.
  intros (_ & _ & Hu)%setup_checked _ E. apply setup_committed in E as (_ & Hc & _); [|done]. unfold setup_commit. by rewrite Hc.
Qed.

(** ** Deletion *)

(** Deleting an account removes it from the roster and refuses every session of its name for one lifetime. *)
Theorem deletion_refuses a now role param w a' :
  apiAuthUsers_delete a now role param w = (a', RNoContent) →
  UIUserExists (ad_cfg a') (TrimSpace param) = false ∧
  ∀ t1 t2 t3 raw s, (Decode (ad_node a') t1 t2 t3 raw).2 = inr s → se_Sub s = TrimSpace param → now + nd_ttl (ad_node a) < t3.
Proof.
  unfold apiAuthUsers_delete. case_if; [done|]. destruct (TrimSpace param =? "")%string eqn:En; [done|]. bprop.
  destruct (DeleteUIUser (ad_cfg a) (TrimSpace param)) as [c [e|]] eqn:Ed; [done|]. intros [= <-]. split.
  - unfold UIUserExists. apply bool_decide_eq_false_2.
    match goal with |- context [ad_cfg ?x] => change (ad_cfg x) with (SaveUIUsersFile c w).1 end. rewrite save_users.
    unfold DeleteUIUser in Ed. destruct (c_uiUsers (ad_cfg a) !! TrimSpace param) eqn:Eu.
    + destruct (_ && _); [done|]. injection Ed as <-. cbn. rewrite lookup_delete_eq. by intros [].
    + injection Ed as <-. rewrite Eu. by intros [].
  - intros t1 t2 t3 raw s HD Hs. destruct (Z.lt_ge_cases (now + nd_ttl (ad_node a)) t3) as [|Hle]; [done|]. exfalso. revert Hs.
    apply (user_revocation_covers (ad_node a) now (TrimSpace param) [] t1 t2 t3 raw s); [constructor|constructor|done|done|]. exact HD.
Qed.
End setup.

(** ** Concrete installations *)

#[local] Existing Instances ascii_unicode toy_bcrypt ascii_class no_providers toy_hmac default_range bit_users toy_sha1 bit_json test_sha.

Definition test_admin (c : Config) : Admin := mkAdmin c NewLoginLimiter test_node 0.
Definition at_zero (i : nat) : Instant := 0.
Definition test_request (cookie : option string) (basic : option (string * string)) : Request := mkRequest "/api/policy" cookie basic.
Definition sso_user : Identity := mkIdentity "eve" "eve@corp" "Eve" ["staff"] "okta".

Lemma admin_gate_witness :
  let q := test_request None (Some ("ann", "Passw0rdX")) in
  (uiAuthMiddleware (test_admin two_config) at_zero q).2 = Next (Some RoleAdmin) (Some "ann").
Proof.
  apply (admin_gate (test_admin two_config) at_zero (test_request None (Some ("ann", "Passw0rdX"))) (Some RoleAdmin) (Some "ann"));
    [split; vm_compute; reflexivity|vm_compute; reflexivity|].
  right. split; [intros raw n' s E; discriminate|]. exists "ann", "Passw0rdX", RoleAdmin. split_and!; [reflexivity|vm_compute; reflexivity|reflexivity|reflexivity].
Defined.

Lemma proxy_session_is_admin_witness :
  (uiAuthMiddleware (test_admin root_config) at_zero (test_request (Some (setSessionCookie test_node 0 "j" sso_user)) None)).2 = Next (Some RoleAdmin) None.
Proof.
  apply (proxy_session_is_admin (test_admin root_config) at_zero "/api/policy" None 0 "j" sso_user);
    [split; vm_compute; reflexivity|vm_compute; reflexivity|discriminate|vm_compute; reflexivity|vm_compute; discriminate|vm_compute; reflexivity|vm_compute; reflexivity].
Defined.

(** At 3000 seconds, the step of the code is 100. *)
Definition login_clock (i : nat) : Instant := 3000 * Second.
Definition root_login : Admin * LoginResponse :=
  apiAuthLogin (test_admin root_config) login_clock true (Some (mkLogin "root" "Passw0rd" (six_digits 100))) "203.0.113.9" "j" Written.
Definition root_cookie : string := match root_login.2 with LOk _ _ (Some ck) => ck | _ => "" end.

Lemma login_sound_witness :
  root_login.2 = LOk "root" RoleAdmin (Some root_cookie) ∧
  ∃ pass code, Some (mkLogin "root" "Passw0rd" (six_digits 100)) = Some (mkLogin "root" pass code) ∧ IsConfigured root_config = true ∧
    (Check_login NewLoginLimiter (login_clock 0) "203.0.113.9" "root").1.1 = false ∧ VerifyUIUser root_config "root" pass = Some RoleAdmin ∧
    (UserHasTOTP root_config "root" = true →
     (∃ k, totp_read root_config "root" code (Unix (login_clock 1)) = (true, k) ∧ k ≤ GetTOTPLastCounter (ad_cfg root_login.1) "root") ∨
     (∃ c, ConsumeBackupCode root_config "root" code = (c, true) ∧ c_uiUsers (ad_cfg root_login.1) = c_uiUsers c)) ∧
    root_cookie = Encode test_node (mkSession "root" "" "" [] "local" RoleAdmin (Unix (login_clock 5 + nd_ttl test_node)) "j").
Proof.
  assert (root_login.2 = LOk "root" RoleAdmin (Some root_cookie)) as E by (vm_compute; reflexivity). split; [exact E|].
  apply (login_sound (test_admin root_config) login_clock (Some (mkLogin "root" "Passw0rd" (six_digits 100))) "203.0.113.9" "j" Written root_login.1 "root" RoleAdmin root_cookie).
  rewrite <- E. unfold root_login. destruct (apiAuthLogin _ _ _ _ _ _ _). reflexivity.
Defined.

Definition setup_run (w : WriteResult) : Admin * Reply * option string :=
  apiSetupComplete (test_admin base_config) at_zero "" "203.0.113.9" "j" (Some (mkSetup "root" "Passw0rd" false)) w.
Lemma setup_durable_witness :
  (setup_run Written).1.2 = ROk ∧ IsConfigured (ad_cfg (setup_run Written).1.1) = true ∧ IsConfigured (reboot (ad_cfg (setup_run Written).1.1) "t") = true.
Proof.
  split; [vm_compute; reflexivity|].
  apply (setup_durable (test_admin base_config) at_zero "" "203.0.113.9" "j" (Some (mkSetup "root" "Passw0rd" false)) Written (setup_run Written).1.1 (setup_run Written).2 "t");
    [vm_compute; reflexivity|vm_compute; discriminate|vm_compute; reflexivity|vm_compute; auto].
Defined.

(** Defect: a write that replaced the file but could not sync its directory fails the setup and takes the credential out of memory, but not out of the file: setup is open, and the next start
    has the administrator of the setup that failed. *)
Theorem setup_rollback_diverges :
  let a := (setup_run ReplacedNotSynced).1.1 in
  (setup_run ReplacedNotSynced).1.2 = RError ∧ IsConfigured (ad_cfg a) = false ∧ VerifyUIUser (reboot (ad_cfg a) "t") "root" "Passw0rd" = Some RoleAdmin.
Proof. vm_compute. done. Qed.

(** Defect: a session carries the role it was issued with; after a demotion it is still an administrator's. *)
Theorem demoted_session_keeps_role :
  let ck := setUISessionCookie test_node 0 "j" "ann" RoleAdmin in
  let '(a, r) := apiAuthUsers_post (test_admin two_config) "" (Some RoleAdmin) (Some ("ann", "", RoleViewer)) Written in
  r = ROk ∧ (au_role <$> c_uiUsers (ad_cfg a) !! "ann") = Some RoleViewer ∧ (uiAuthMiddleware a at_zero (test_request (Some ck) None)).2 = Next (Some RoleAdmin) None.
Proof. vm_compute. done. Qed.

(** The account of [basic_skips_second_factor] has a second factor here, and its login is locked. *)
Example basic_past_lock :
  let l := foldl (λ l _, (RecordFailure l 0 "203.0.113.9" "root").2) NewLoginLimiter (seq 0 20) in
  let a := (test_admin root_config) <| ad_limiter := l |> in
  UserHasTOTP root_config "root" = true ∧ (Check_login l 0 "203.0.113.9" "root").1.1 = true ∧
  (uiAuthMiddleware a at_zero (test_request None (Some ("root", "Passw0rd")))).2 = Next (Some RoleAdmin) (Some "root").
Proof. vm_compute. done. Qed.
